(* ===== verification/_CoqProject ===== *)
-Q . S2P
Prelude.v
HeapOrder.v
Sort.v
SortStable.v
SortSlices.v
Heap.v
Utf8.v
Utf16.v
Strconv.v
LinkedList.v
StringsSearch.v
StringsOps.v
Path.v
Glob.v
Geom.v
Zone.v
Calendar.v
Instant.v
TimeDate.v
Threads.v
Mutex.v
RWMutex.v
Once.v
WaitGroup.v
Buffer.v
Varint.v
Hex.v
Base64.v
Crc.v
Crc32.v
Crc64.v
Checksums.v
BigWord.v
BigVec.v
BigNat.v
BigMul.v
BigBits.v
BigBytes.v
BigProduct.v
BigDiv.v
BigInt.v
BigIntBits.v
BigGcd.v
BigExp.v
BigOps.v
