(* ===== verification/Prelude.v ===== *)
(** A verification development for the Go standard library.

    The repository is the source of the Go distribution: compilers and tools
    under [src/src/cmd], and under [src/src] the run-time system and the standard
    packages. This development models packages of the library whose behaviour is
    determined by Go code alone, and proves the theorems that make them correct.
    A path such as [sort/sort.go] below is relative to [src/src].

    * How Go code is modelled

    The present file is the prelude. A Go function is a function into the monad
    [go]: it returns ([Ret]), panics ([Panic], with the message of the run-time
    error or of the code's own [panic]), or runs out of the fuel that bounds a loop
    ([NoFuel]). [m ⇓ Q] is total correctness: [m] returns, and what it returns
    satisfies [Q]; every functional theorem is stated with it or with an equation
    [m = Ret r], so that each includes termination and the absence of panics. The
    fuel of a loop is an expression of its inputs, given where the loop is defined,
    and the rule [wp_loop] asks for a measure below it: no theorem assumes fuel.
    Slices and strings are lists with indices in [Z], and every read, write and
    slicing out of range panics as in Go. Integers are [Z] with the wrapping of
    their width written out ([u8] to [u64], [i32], [i64]). An [int] has the width of
    the host: in sort, container/heap, strings, path, encoding/base64 and encoding/hex that of the
    class [Host] (32 or 64 bits, with the size of the memory, [MaxMem] of
    [runtime/malloc2.go]), whose [swrap int_bits] is written out wherever a sum or a product of
    [int]s could overflow, and whose [makeslice] panics for lengths that cannot be allocated;
    elsewhere a parameter [host] where it matters ([32 <= host], or 32 and 64).
    Errors are values of sums and options. Where code mutates shared objects the
    store is explicit (container/list), and where goroutines interleave the
    programs are cut into atomic steps (sync).

    * The parts, their files and theorems

    Sorting and heaps. [HeapOrder.v] has the order theory of binary heaps shared by
    the heapsort of [sort] and by [container/heap]. [Sort.v] models insertion sort,
    heapsort, pivot selection and quicksort of [sort/sort.go] over an abstract
    [sort.Interface] (a class with its laws), [SortStable.v] the stable sort by
    blocks and in-place merging, and [sort/search.go]; [SortSlices.v] instantiates
    the interface with the slice types and states the theorems of the package.
    [Heap.v] is [container/heap/heap.go] over its own interface: the heap invariant
    is established and kept, [Pop] returns a least element, for as many elements as an [int] can
    count. [Sort] and [Stable] are correct for fewer than 2^30 elements (2^62 with a 64-bit [int]),
    beyond which their indices overflow; partitioning and merging for any number.

    Text. [Utf8.v] is [unicode/utf8/utf8.go] against the table of well-formed byte
    sequences, [Utf16.v] is [unicode/utf16/utf16.go]. [Strconv.v] is the formatting
    and parsing of integers and booleans ([strconv/itoa.go], [atoi.go], [atob.go])
    with round trips, bounds and errors. [StringsSearch.v] is the searching of
    [strings/strings.go] with its rolling hash; [StringsOps.v] its splitting,
    joining, replacing, mapping and trimming, built on the searches and on UTF-8.
    [Path.v] and [Glob.v] are [path/path.go] and [path/match.go]: [Clean] against
    the reduction of path elements, [Match] against a declarative relation.

    Containers and buffers. [LinkedList.v] is [container/list/list.go]: pointers to
    elements in a heap shared by lists, refining mathematical sequences.
    [Buffer.v] is [bytes/buffer.go]: the array that slides and moves refines a queue
    of bytes over the sequences of operations that are [all_allowed]; readers and writers are given by
    the laws that package io documents.

    Checksums. [Crc.v] has the loops that [Crc32.v] and [Crc64.v] ([hash/crc32/crc32.go],
    [hash/crc64/crc64.go]) share, against the shift register they compute by tables, with the
    errors this detects; [Checksums.v] is [hash/adler32/adler32.go], whose
    reductions are put off as long as 32 bits allow, and [hash/fnv/fnv.go].

    Byte encodings. [Varint.v] is [encoding/binary/varint.go], [Hex.v] the encoding
    and decoding of [encoding/hex/hex.go], and [Base64.v] that of
    [encoding/base64/base64.go], over [strings.Map] for its line breaks: what is
    encoded is read back, and on any input the decoders return what is specified,
    errors and their places included.

    Multi-precision integers, [math/big]. The words of all numbers are in one flat
    memory, and a slice is an offset, a length and a capacity in it, so that numbers
    overlap where slices of one array do. [BigWord.v] and [BigVec.v] are the portable
    routines of [arith.go] on words and on slices. [BigNat.v], [BigMul.v],
    [BigProduct.v], [BigDiv.v], [BigBits.v] and [BigBytes.v] are [nat.go]: storage and
    addition, the grade school and Karatsuba products, the product of numbers of any
    lengths, long division (Knuth's algorithm D), shifts, bit scanning and logical
    operations, and bytes. The memory is unlimited: an allocation always succeeds. Each routine is specified by the values of its operands
    ([is_nat]), by where its result may be ([inside], [laid]) and by the words that it
    leaves alone. [BigInt.v], [BigIntBits.v], [BigGcd.v] and
    [BigExp.v] (which has the [expNN] of [nat.go] too) are [int.go]: [Int]s reached
    through pointers, where a receiver may also be an operand; the predicate [owns]
    says which integers the pointers hold, in storage that no two of them share.
    [BigOps.v] puts the operations together: a program of the operations that [BigOps.op] lists,
    with arguments that are [BigOps.admissible], refines what their documentation says of
    integers, and keeps every number normalised. [Exp] leaves the documented power except for first powers
    that are not below the modulus, and the theorem on it says what happens to these.

    Geometry and time. [Geom.v] is [image/geom.go]. [Zone.v] is the lookup of zones
    of [time/zoneinfo.go], [Calendar.v] the calendar arithmetic of [time/time.go]
    (dates of absolute instants against a day-by-day calendar), [Instant.v] its
    instants and durations, and [TimeDate.v] joins the three: dates and clocks in
    locations, ISO weeks, and the binary form of times. [Date] finds an instant with the local time it is
    given, if there is one, on either side of a transition between zones, where zones last
    longer than twice the largest offset ([steady]).

    Concurrency. [Threads.v] has the atomic operations and semaphores, and counting
    over goroutines. [Mutex.v] is [sync/mutex.go] and [RWMutex.v] is
    [sync/rwmutex.go], as atomic steps under every interleaving of any number of
    goroutines: mutual exclusion, refinement of an abstract lock, a bound on the
    steps the lock's own code takes, and that no goroutine is left asleep without a
    holder. [RWMutex.v] takes its inner Mutex as the abstract lock that [Mutex.v]
    shows it to refine, and so do [Once.v], which is [sync/once.go] (the function
    runs at most once, and every [Do] returns after it ended), and [WaitGroup.v], which is
    [sync/waitgroup.go] (a [Wait] returns only after the counter was zero, and none is left
    asleep when it is).

    * Parameters and hypotheses

    Code that is not modelled is a parameter: the comparison and mapping functions
    that callers pass; what [initLocal] reads from the system's zone files
    ([localLoc], assumed to have its transitions in order and offsets of less than
    2^31 seconds); the system clock; [io.Reader] and [io.Writer] (records of an
    operation with its documented laws); the size of the largest slice that can be
    allocated. [IndexByte] is modelled after the portable loop of
    [bytes/bytes.go]; the assembly versions promise the same. The atomic operations
    are modelled by what [sync/atomic/doc.go] says they are equivalent to, and the
    semaphores by the count of [runtime/sema.go]; sleeping goroutines are woken in
    any order. The words of [math/big] have 32 or 64 bits (the class [Machine]); its
    assembly routines are taken to do what the portable ones do. Bounds such as fewer than 2^29 goroutines, or dates within 2^31 years,
    are stated in the theorems; they are the ranges beyond which the code's own
    integers overflow. Go leaves the order of evaluation of operands open in places
    (as in [MoveBefore] of container/list); the model takes them from left to right.

    * What modelling showed

    Examples next to the definitions evaluate the code on the inputs where it
    departs from its documentation: [strings.Map] with invalid runes, negative runes
    in [IndexRune] and [Buffer.WriteRune], [list.Init] leaving its elements attached,
    [path.Match] giving up too early after a star, empty rectangles in
    [Rectangle.Overlaps], overflow in [Time.Sub] and [Time.Round],
    [Buffer.UnreadRune] and [Buffer.Grow], and in [math/big] [DivMod], [GCD], [ModInverse] and [Exp] with a receiver
    that is still needed, first powers that [Exp] does not reduce, the overflow in [Binomial], and the zero with a sign that
    [GobDecode] lets in. On hosts of 32 bits the children of a heap in [sort] overflow beyond 2^30
    elements, the blocks of [Stable] likewise, and the lengths of base64 from 2^28 bytes on. [ParseUint] returns
    2^64-1 on every range error, whatever the width. The theorems exclude these inputs
    explicitly or state what happens on them.

    * Not modelled

    The run-time system, system calls, networking and files (I/O and raw memory);
    [reflect] and the packages driven by it (fmt, most of encoding, templates);
    floating point (math, strconv's conversions of floats, [Float64Slice]);
    generated tables and what depends on them (unicode, the case mappings of
    strings, quoting in strconv); the random numbers and the primality test of
    [math/big]; the compilers and tools; cryptography; image and
    compression codecs; the aliasing of slices that a caller keeps (the results of
    [Buffer.Bytes] and [Next], arguments kept by [NewBuffer]) and the data races
    this allows; the race detector's hooks in sync, which are off by default.

    * Plan

    What could come next, in this order: text conversion and rationals in [math/big]; the streaming
    encoder of base64 over the laws of writers; Cond over its
    list of waiters; parsing and printing of IP addresses; the
    formatting of durations and times; bufio over the laws of readers; the scanner of
    encoding/json. *)
From stdpp Require Export base list list_numbers numbers strings gmap.
From Stdlib Require Export ZArith Lia.
From Stdlib Require Export Ascii.
#[global] Open Scope Z_scope.

Declare Scope go_scope.
Delimit Scope go_scope with go.
#[global] Open Scope go_scope.
Create HintDb go.

(** * Outcomes of Go code *)

(** A call either returns, panics at run time (index out of range, explicit
    [panic]) or exhausts the fuel that bounds a loop of the model. *)
Inductive go (A : Type) : Type :=
  | Ret (a : A)
  | Panic (why : string)
  | NoFuel.
Arguments Ret {A} a.
Arguments Panic {A} why.
Arguments NoFuel {A}.

#[global] Instance go_ret : MRet go := λ A a, Ret a.
#[global] Instance go_bind : MBind go := λ A B f m,
  match m with Ret a => f a | Panic w => Panic w | NoFuel => NoFuel end.
#[global] Instance go_fmap : FMap go := λ A B f m,
  match m with Ret a => Ret (f a) | Panic w => Panic w | NoFuel => NoFuel end.

(** Total correctness: [m ⇓ Q] says that [m] returns a value satisfying [Q]. *)
Definition wp {A} (m : go A) (Q : A → Prop) : Prop :=
  match m with Ret a => Q a | _ => False end.
Notation "m ⇓ Q" := (wp m Q) (at level 70, no associativity) : go_scope.

Section wp.
Context {A B : Type}.
Implicit Types (m : go A) (Q : A → Prop).

Lemma wp_ret (a : A) Q : Q a → Ret a ⇓ Q.
Proof. done. Qed.

Lemma wp_bind m (f : A → go B) (Q : B → Prop) :
  (m ⇓ λ a, f a ⇓ Q) → (m ≫= f) ⇓ Q.
Proof. by destruct m. Qed.

Lemma wp_mono m Q Q' : (m ⇓ Q) → (∀ a, Q a → Q' a) → m ⇓ Q'.
Proof. destruct m; simpl; auto. Qed.

Lemma wp_ex m Q : (m ⇓ Q) ↔ ∃ a, m = Ret a ∧ Q a.
Proof. destruct m; simpl; split; [eauto|by intros (?&[= ->]&?)|done|by intros (?&?&?)|done|by intros (?&?&?)]. Qed.

Lemma wp_bind_mono m (f : A → go B) Q (Q' : B → Prop) :
  (m ⇓ Q) → (∀ a, Q a → f a ⇓ Q') → (m ≫= f) ⇓ Q'.
Proof. intros Hm Hf. apply wp_bind. by eapply wp_mono. Qed.

Lemma wp_bind_mono' m (f : A → go B) Q (Q' : B → Prop) :
  (m ⇓ Q) → (∀ a, m = Ret a → Q a → f a ⇓ Q') → (m ≫= f) ⇓ Q'.
Proof. destruct m; simpl; auto. Qed.

Lemma wp_conj m Q Q' : (m ⇓ Q) → (m ⇓ Q') → m ⇓ λ a, Q a ∧ Q' a.
Proof. by destruct m. Qed.
End wp.

Lemma go_bind_ret {A B} (a : A) (f : A → go B) : Ret a ≫= f = f a.
Proof. done. Qed.
Lemma go_bind_assoc {A B C} (m : go A) (f : A → go B) (g : B → go C) :
  (m ≫= f) ≫= g = m ≫= (λ a, f a ≫= g).
Proof. by destruct m. Qed.

(** * Loops *)

(** One turn of a loop either continues with a new state or leaves the loop
    with a result; [loop] runs at most [fuel] turns. *)
Fixpoint loop {S R} (fuel : nat) (body : S → go (S + R)) (s : S) : go R :=
  match fuel with
  | O => NoFuel
  | Datatypes.S fuel' =>
      r ← body s;
      match r with
      | inl s' => loop fuel' body s'
      | inr r => Ret r
      end
  end.

(** [for cond { body }]. *)
Definition while {S} (fuel : nat) (cond : S → go bool) (body : S → go S) (s : S) : go S :=
  loop fuel (λ s, c ← cond s; if (c : bool) then inl <$> body s else Ret (inr s)) s.

(** [for i := a; i < b; i++ { body }], the index not being assigned in the body. *)
Fixpoint for_nat {S} (n : nat) (i : Z) (body : Z → S → go S) (s : S) : go S :=
  match n with
  | O => Ret s
  | Datatypes.S n' => s' ← body i s; for_nat n' (i + 1) body s'
  end.
Definition for_up {S} (a b : Z) (body : Z → S → go S) (s : S) : go S :=
  for_nat (Z.to_nat (b - a)) a body s.

(** [for i := b; i >= a; i-- { body }]. *)
Fixpoint for_nat_down {S} (n : nat) (i : Z) (body : Z → S → go S) (s : S) : go S :=
  match n with
  | O => Ret s
  | Datatypes.S n' => s' ← body i s; for_nat_down n' (i - 1) body s'
  end.
Definition for_down {S} (b a : Z) (body : Z → S → go S) (s : S) : go S :=
  for_nat_down (Z.to_nat (b - a + 1)) b body s.

(** [for _, x := range l { body }]. *)
Fixpoint for_each {A S} (l : list A) (body : A → S → go S) (s : S) : go S :=
  match l with
  | [] => Ret s
  | x :: l' => s' ← body x s; for_each l' body s'
  end.

Section loop.
Context {S R : Type}.

(** The total-correctness rule of loops: an invariant and a measure. *)
Lemma wp_loop (I : S → Prop) (meas : S → Z) (Q : R → Prop) body fuel s :
  (∀ s, I s → body s ⇓ λ r,
     match r with
     | inl s' => I s' ∧ 0 <= meas s' < meas s
     | inr r => Q r
     end) →
  I s → 0 <= meas s < Z.of_nat fuel →
  loop fuel body s ⇓ Q.
Proof.
  intros Hbody. revert s. induction fuel as [|fuel IH]; intros s HI Hm; [lia|].
  simpl. apply wp_bind. eapply wp_mono; [by apply Hbody|].
  intros [s'|r]; [|done]. intros [HI' Hm']. apply IH; [done|lia].
Qed.

End loop.

(** The last turn of a counted loop. *)
Lemma for_nat_snoc {S} n i (body : Z → S → go S) s :
  for_nat (Datatypes.S n) i body s = (s' ← for_nat n i body s; body (i + Z.of_nat n) s').
Proof.
  revert i s. induction n as [|n IH]; intros i s.
  - simpl. rewrite Z.add_0_r. by destruct (body i s).
  - cbn [for_nat] in *. destruct (body i s) as [s'| |]; [|done..]. rewrite !go_bind_ret, IH.
    by replace (i + 1 + Z.of_nat n) with (i + Z.of_nat (Datatypes.S n)) by lia.
Qed.

Section counted.
Context {S : Type}.

Lemma wp_while (I : S → Prop) (meas : S → Z) (Q : S → Prop) cond body fuel s :
  (∀ s, I s → cond s ⇓ λ c,
     if (c : bool) then body s ⇓ λ s', I s' ∧ 0 <= meas s' < meas s else Q s) →
  I s → 0 <= meas s < Z.of_nat fuel →
  while fuel cond body s ⇓ Q.
Proof.
  intros Hbody HI Hm. unfold while.
  apply wp_loop with (I := I) (meas := meas); [|done|done].
  intros s' HI'. apply wp_bind. eapply wp_mono; [by apply Hbody|].
  intros [] Hc; [|done]. destruct (body s'); by simpl in *.
Qed.

(** ... where the measure is a value that the invariant describes. *)
Lemma wp_while_by (I : Z → S → Prop) (Q : S → Prop) cond body fuel n s :
  (∀ n s, I n s → cond s ⇓ λ c,
     if (c : bool) then body s ⇓ λ s', ∃ n', I n' s' ∧ 0 <= n' < n else Q s) →
  I n s → 0 <= n < Z.of_nat fuel →
  while fuel cond body s ⇓ Q.
Proof.
  intros Hbody. unfold while. revert n s. induction fuel as [|fuel IH]; intros n s HI Hn; [lia|].
  simpl. apply wp_bind. apply wp_bind. eapply wp_mono; [by apply Hbody|].
  intros [] Hc; [|done]. destruct (body s); simpl in *; [|done..].
  destruct Hc as (n' & HI' & Hn'). apply (IH n'); [done|lia].
Qed.

Lemma wp_for_up (I : Z → S → Prop) a b body s (Q : S → Prop) :
  (∀ i s, a <= i < b → I i s → body i s ⇓ I (i + 1)) →
  I a s → (∀ s, I (Z.max a b) s → Q s) →
  for_up a b body s ⇓ Q.
Proof.
  intros Hb. unfold for_up.
  assert (∀ n i s, a <= i → i + Z.of_nat n = Z.max i b → I i s →
    for_nat n i body s ⇓ I (Z.max i b)) as H.
  { induction n as [|n IH]; intros i s' Ha Hn HI; simpl; [by replace (Z.max i b) with i by lia|].
    apply wp_bind. eapply wp_mono; [apply Hb; [lia|done]|].
    intros s'' HI'. replace (Z.max i b) with (Z.max (i + 1) b) by lia.
    apply IH; [lia..|done]. }
  intros HI HQ. eapply wp_mono; [apply H; [lia..|done]|]. intros s' Hs'. by apply HQ.
Qed.

Lemma wp_for_down (I : Z → S → Prop) b a body s (Q : S → Prop) :
  (∀ i s, a <= i <= b → I i s → body i s ⇓ I (i - 1)) →
  I b s → (∀ s, I (Z.min b (a - 1)) s → Q s) →
  for_down b a body s ⇓ Q.
Proof.
  intros Hb. unfold for_down.
  assert (∀ n i s, i <= b → i - Z.of_nat n = Z.min i (a - 1) → I i s →
    for_nat_down n i body s ⇓ I (Z.min i (a - 1))) as H.
  { induction n as [|n IH]; intros i s' Ha Hn HI; simpl; [by replace (Z.min i (a - 1)) with i by lia|].
    apply wp_bind. eapply wp_mono; [apply Hb; [lia|done]|].
    intros s'' HI'. replace (Z.min i (a - 1)) with (Z.min (i - 1) (a - 1)) by lia.
    apply IH; [lia..|done]. }
  intros HI HQ. eapply wp_mono; [apply H; [lia..|done]|]. intros s' Hs'. by apply HQ.
Qed.

(** The invariant speaks of the elements already visited. *)
Lemma wp_for_each {A} (I : list A → S → Prop) l body s (Q : S → Prop) :
  (∀ done x rest s, l = done ++ x :: rest → I done s → body x s ⇓ I (done ++ [x])) →
  I [] s → (∀ s, I l s → Q s) → for_each l body s ⇓ Q.
Proof.
  intros Hb HI HQ.
  assert (∀ rest done s, l = done ++ rest → I done s → for_each rest body s ⇓ I l) as H.
  { intros rest. induction rest as [|x rest IH]; intros done s' E HI'; simpl.
    - by rewrite E, app_nil_r.
    - apply wp_bind. eapply wp_mono; [by eapply Hb|]. intros s'' HI''.
      apply (IH (done ++ [x])); [by rewrite <- app_assoc|done]. }
  eapply wp_mono; [by apply (H l [])|]. apply HQ.
Qed.
End counted.

(** * Slices and strings

    A Go slice or string is the list of its elements; indices are [Z], as Go's
    [int].  Reading, writing or slicing out of range panics. *)

Abbreviation bytes := (list Z) (only parsing).

Definition zlen {A} (l : list A) : Z := Z.of_nat (length l).

(** The partial read the specifications use. *)
Definition nthZ {A} (l : list A) (i : Z) : option A :=
  if decide (0 <= i) then l !! Z.to_nat i else None.
Notation "l .[ i ]" := (nthZ l i) (at level 1, left associativity, format "l .[ i ]") : go_scope.

(** The total write the specifications use. *)
Definition insZ {A} (l : list A) (i : Z) (x : A) : list A :=
  if decide (0 <= i) then <[Z.to_nat i := x]> l else l.

(** [l[i]], [l[i] = x], [l[lo:hi]], [l[lo:]], [l[:hi]]. *)
Definition idx {A} (l : list A) (i : Z) : go A :=
  match nthZ l i with Some x => Ret x | None => Panic "index out of range" end.
Definition upd {A} (l : list A) (i : Z) (x : A) : go (list A) :=
  if decide (0 <= i < zlen l) then Ret (insZ l i x) else Panic "index out of range".
Definition slice {A} (l : list A) (lo hi : Z) : go (list A) :=
  if decide (0 <= lo <= hi ∧ hi <= zlen l)
  then Ret (take (Z.to_nat (hi - lo)) (drop (Z.to_nat lo) l))
  else Panic "slice bounds out of range".
Definition slice_from {A} (l : list A) (lo : Z) : go (list A) := slice l lo (zlen l).
Definition slice_to {A} (l : list A) (hi : Z) : go (list A) := slice l 0 hi.

(** [copy(dst[at:], src)]: as many elements as fit; the count is returned. *)
Definition copy {A} (dst : list A) (at_ : Z) (src : list A) : list A * Z :=
  let room := (length dst - Z.to_nat at_)%nat in
  let n := Nat.min room (length src) in
  (take (Z.to_nat at_) dst ++ take n src ++ drop (Z.to_nat at_ + n) dst, Z.of_nat n).

(** [make([]T, n)]. *)
Definition make {A} (zero : A) (n : Z) : go (list A) :=
  if decide (0 <= n) then Ret (replicate (Z.to_nat n) zero)
  else Panic "makeslice: len out of range".

Section slices.
Context {A : Type}.
Implicit Types (l k : list A) (i j : Z) (x y : A).

Lemma zlen_nonneg l : 0 <= zlen l.
Proof. unfold zlen. lia. Qed.

Lemma zlen_nil : zlen (@nil A) = 0.
Proof. done. Qed.
Lemma zlen_cons x l : zlen (x :: l) = 1 + zlen l.
Proof. unfold zlen. simpl. lia. Qed.
Lemma zlen_one x : zlen [x] = 1.
Proof. done. Qed.
Lemma zlen_two x y : zlen [x; y] = 2.
Proof. done. Qed.
Lemma zlen_app l k : zlen (l ++ k) = zlen l + zlen k.
Proof. unfold zlen. rewrite length_app. lia. Qed.
Lemma zlen_nil_inv l : zlen l = 0 → l = [].
Proof. destruct l; [done|]. rewrite zlen_cons. pose proof (zlen_nonneg l). lia. Qed.
Lemma zlen_insZ l i x : zlen (insZ l i x) = zlen l.
Proof. unfold insZ, zlen. case_decide; [by rewrite length_insert|done]. Qed.
Lemma zlen_take l n : 0 <= n <= zlen l → zlen (take (Z.to_nat n) l) = n.
Proof. unfold zlen. rewrite length_take. lia. Qed.
Lemma zlen_drop l n : 0 <= n <= zlen l → zlen (drop (Z.to_nat n) l) = zlen l - n.
Proof. unfold zlen. rewrite length_drop. lia. Qed.
Lemma zlen_replicate n x : 0 <= n → zlen (replicate (Z.to_nat n) x) = n.
Proof. unfold zlen. rewrite length_replicate. lia. Qed.

Lemma take_zlen_app l k : take (Z.to_nat (zlen l)) (l ++ k) = l.
Proof. unfold zlen. by rewrite Nat2Z.id, take_app_length. Qed.
Lemma drop_zlen_app l k : drop (Z.to_nat (zlen l)) (l ++ k) = k.
Proof. unfold zlen. by rewrite Nat2Z.id, drop_app_length. Qed.

Lemma nthZ_Some l i x : l.[i] = Some x → 0 <= i < zlen l.
Proof.
  unfold nthZ, zlen. case_decide; [|done]. intros ?%lookup_lt_Some. lia.
Qed.
Lemma nthZ_is_Some l i : 0 <= i < zlen l → ∃ x, l.[i] = Some x.
Proof.
  unfold nthZ, zlen. intros. rewrite decide_True by lia.
  apply lookup_lt_is_Some_2. lia.
Qed.
Lemma nthZ_None l i : l.[i] = None ↔ i < 0 ∨ zlen l <= i.
Proof.
  unfold nthZ, zlen. case_decide; [|split; [lia|done]].
  rewrite lookup_ge_None. lia.
Qed.
Lemma nthZ_lookup l (i : nat) : l.[Z.of_nat i] = l !! i.
Proof. unfold nthZ. rewrite decide_True by lia. by rewrite Nat2Z.id. Qed.
Lemma lookup_nthZ l (i : nat) : l !! i = l.[Z.of_nat i].
Proof. by rewrite nthZ_lookup. Qed.
Lemma nthZ_ext l k : (∀ i, l.[i] = k.[i]) → l = k.
Proof. intros H. apply list_eq. intros i. by rewrite !lookup_nthZ, H. Qed.
Lemma nthZ_cons x l i : (x :: l).[i] = if decide (i = 0) then Some x else l.[i - 1].
Proof.
  unfold nthZ. destruct (decide (i = 0)) as [->|]; [done|].
  destruct (decide (0 <= i)); [|by rewrite decide_False by lia].
  rewrite decide_True by lia. by replace (Z.to_nat i) with (S (Z.to_nat (i - 1))) by lia.
Qed.
Lemma nthZ_app l k i :
  (l ++ k).[i] = if decide (i < zlen l) then l.[i] else k.[i - zlen l].
Proof.
  unfold nthZ, zlen. case_decide.
  - case_decide; [apply lookup_app_l; lia|].
    rewrite decide_True by lia. rewrite lookup_app_r by lia. f_equal. lia.
  - case_decide; [done|]. by rewrite decide_False by lia.
Qed.
Lemma nthZ_insZ l i j x :
  (insZ l i x).[j] = if decide (i = j ∧ 0 <= i < zlen l) then Some x else l.[j].
Proof.
  unfold insZ, nthZ, zlen.
  destruct (decide (i = j ∧ _)) as [[-> Hj]|Hj].
  - rewrite !decide_True by lia. apply list_lookup_insert_eq. lia.
  - destruct (decide (0 <= i)), (decide (0 <= j)); try done.
    destruct (decide (i = j)) as [->|].
    + by rewrite list_insert_ge by lia.
    + apply list_lookup_insert_ne. lia.
Qed.
Lemma nthZ_insZ_eq l i x : 0 <= i < zlen l → (insZ l i x).[i] = Some x.
Proof. intros. rewrite nthZ_insZ. by rewrite decide_True by lia. Qed.
Lemma nthZ_insZ_ne l i j x : i ≠ j → (insZ l i x).[j] = l.[j].
Proof. intros. rewrite nthZ_insZ. by rewrite decide_False by lia. Qed.
Lemma nthZ_take l n i : (take n l).[i] = if decide (i < Z.of_nat n) then l.[i] else None.
Proof.
  unfold nthZ. repeat case_decide; try done.
  - apply lookup_take_lt. lia.
  - apply lookup_take_ge. lia.
Qed.
Lemma nthZ_drop l n i : (drop n l).[i] = if decide (0 <= i) then l.[Z.of_nat n + i] else None.
Proof.
  unfold nthZ. case_decide; [|done]. rewrite decide_True by lia.
  rewrite lookup_drop. f_equal. lia.
Qed.
Lemma nthZ_replicate n i x : 0 <= i < n → (replicate (Z.to_nat n) x).[i] = Some x.
Proof. intros. unfold nthZ. rewrite decide_True by lia. apply lookup_replicate_2. lia. Qed.

Lemma wp_idx l i (Q : A → Prop) :
  0 <= i < zlen l → (∀ x, l.[i] = Some x → Q x) → idx l i ⇓ Q.
Proof. intros Hi HQ. unfold idx. destruct (nthZ_is_Some l i Hi) as [x Hx]. rewrite Hx. by apply HQ. Qed.
Lemma idx_Some l i x : l.[i] = Some x → idx l i = Ret x.
Proof. unfold idx. by intros ->. Qed.
Lemma upd_eq l i x : 0 <= i < zlen l → upd l i x = Ret (insZ l i x).
Proof. intros. unfold upd. rewrite decide_True; done. Qed.
Lemma slice_eq l lo hi :
  0 <= lo <= hi → hi <= zlen l →
  slice l lo hi = Ret (take (Z.to_nat (hi - lo)) (drop (Z.to_nat lo) l)).
Proof. intros. unfold slice. rewrite decide_True; done. Qed.
Lemma slice_from_eq l lo :
  0 <= lo <= zlen l → slice_from l lo = Ret (drop (Z.to_nat lo) l).
Proof.
  intros. unfold slice_from. rewrite slice_eq by lia. f_equal. apply take_ge.
  rewrite length_drop. unfold zlen. lia.
Qed.
Lemma slice_to_eq l hi :
  0 <= hi <= zlen l → slice_to l hi = Ret (take (Z.to_nat hi) l).
Proof. intros. unfold slice_to. rewrite slice_eq by lia. by rewrite Z.sub_0_r, drop_0. Qed.
Lemma make_eq n x : 0 <= n → make x n = Ret (replicate (Z.to_nat n) x).
Proof. intros. unfold make. rewrite decide_True; done. Qed.
End slices.

Lemma zlen_map {A B} (f : A → B) l : zlen (map f l) = zlen l.
Proof. unfold zlen. by rewrite length_map. Qed.

Section upd.
Context {A : Type}.
Implicit Types (l : list A) (a b c d y : A).

(** Writing at the cursor of a buffer filled from the front, or from the back. *)
Lemma upd_cursor l x y k n : n = zlen l → upd (l ++ x :: k) n y = Ret ((l ++ [y]) ++ k).
Proof.
  intros ->. rewrite upd_eq.
  - f_equal. unfold insZ, zlen. rewrite decide_True by lia. rewrite Nat2Z.id, insert_app_r_alt by done.
    by rewrite Nat.sub_diag, <- app_assoc.
  - rewrite zlen_app, zlen_cons. pose proof (zlen_nonneg l). pose proof (zlen_nonneg k). lia.
Qed.
Lemma upd_cursor_back l x y k n : n = zlen l → upd ((l ++ [x]) ++ k) n y = Ret (l ++ y :: k).
Proof. intros Hn. rewrite <- app_assoc. simpl. rewrite upd_cursor by done. by rewrite <- app_assoc. Qed.

(** Copying at the cursor, where there is room. *)
Lemma copy_cursor l k src n :
  n = zlen l → zlen src <= zlen k → copy (l ++ k) n src = ((l ++ src) ++ drop (length src) k, zlen src).
Proof.
  intros -> H. unfold copy, zlen in *. rewrite Nat2Z.id, length_app, take_app_length.
  replace (length l + length k - length l)%nat with (length k) by lia.
  replace (Nat.min (length k) (length src)) with (length src) by lia.
  rewrite (take_ge src) by lia. rewrite <- drop_drop, drop_app_length. by rewrite <- app_assoc.
Qed.

Lemma upd_0 a y l : upd (a :: l) 0 y = Ret (y :: l).
Proof. rewrite upd_eq; [done|]. rewrite zlen_cons. pose proof (zlen_nonneg l). lia. Qed.
Lemma upd_1 a b y l : upd (a :: b :: l) 1 y = Ret (a :: y :: l).
Proof. rewrite upd_eq; [done|]. rewrite !zlen_cons. pose proof (zlen_nonneg l). lia. Qed.
Lemma upd_2 a b c y l : upd (a :: b :: c :: l) 2 y = Ret (a :: b :: y :: l).
Proof. rewrite upd_eq; [done|]. rewrite !zlen_cons. pose proof (zlen_nonneg l). lia. Qed.
Lemma upd_3 a b c d y l : upd (a :: b :: c :: d :: l) 3 y = Ret (a :: b :: c :: y :: l).
Proof. rewrite upd_eq; [done|]. rewrite !zlen_cons. pose proof (zlen_nonneg l). lia. Qed.
End upd.

(** Runs the writes at constant offsets of a goal. *)
Ltac upds := repeat (first [rewrite upd_0 | rewrite upd_1 | rewrite upd_2 | rewrite upd_3]; rewrite ?go_bind_ret; cbv beta).

(** * Machine integers *)

Definition wrap (w x : Z) : Z := x mod 2 ^ w.
Abbreviation u8 := (wrap 8) (only parsing).
Abbreviation u16 := (wrap 16) (only parsing).
Abbreviation u32 := (wrap 32) (only parsing).
Abbreviation u64 := (wrap 64) (only parsing).
(** Two's complement reading of a [w]-bit word. *)
Definition swrap (w x : Z) : Z := (x + 2 ^ (w - 1)) mod 2 ^ w - 2 ^ (w - 1).
Abbreviation i32 := (swrap 32) (only parsing).
Abbreviation i64 := (swrap 64) (only parsing).

Definition is_byte (b : Z) : Prop := 0 <= b < 256.
#[global] Instance is_byte_dec b : Decision (is_byte b).
Proof. unfold is_byte. apply _. Defined.
Abbreviation are_bytes := (Forall is_byte) (only parsing).

Lemma wrap_small w x : 0 <= x < 2 ^ w → wrap w x = x.
Proof. apply Z.mod_small. Qed.
Lemma wrap_bound w x : 0 <= w → 0 <= wrap w x < 2 ^ w.
Proof. intros. apply Z.mod_pos_bound. by apply Z.pow_pos_nonneg. Qed.
Lemma swrap_small w x : - 2 ^ (w - 1) <= x < 2 ^ (w - 1) → 0 < w → swrap w x = x.
Proof.
  intros Hx Hw. unfold swrap. replace (2 ^ w) with (2 * 2 ^ (w - 1)).
  - rewrite Z.mod_small by lia. lia.
  - rewrite <- Z.pow_succ_r by lia. f_equal. lia.
Qed.
Lemma swrap_bound w x : 0 < w → - 2 ^ (w - 1) <= swrap w x < 2 ^ (w - 1).
Proof.
  intros Hw. unfold swrap. replace (2 ^ w) with (2 * 2 ^ (w - 1)).
  - pose proof (Z.pow_pos_nonneg 2 (w - 1)).
    pose proof (Z.mod_pos_bound (x + 2 ^ (w - 1)) (2 * 2 ^ (w - 1))). lia.
  - rewrite <- Z.pow_succ_r by lia. f_equal. lia.
Qed.

(** Wrapping once is enough. *)
Lemma wrap_add_l w x y : wrap w (wrap w x + y) = wrap w (x + y).
Proof. unfold wrap. by rewrite Zplus_mod_idemp_l. Qed.
Lemma wrap_add_r w x y : wrap w (x + wrap w y) = wrap w (x + y).
Proof. unfold wrap. by rewrite Zplus_mod_idemp_r. Qed.
Lemma wrap_mul_l w x y : wrap w (wrap w x * y) = wrap w (x * y).
Proof. unfold wrap. by rewrite Zmult_mod_idemp_l. Qed.
Lemma wrap_mul_r w x y : wrap w (x * wrap w y) = wrap w (x * y).
Proof. unfold wrap. by rewrite Zmult_mod_idemp_r. Qed.
Lemma wrap_sub_l w x y : wrap w (wrap w x - y) = wrap w (x - y).
Proof. unfold wrap. by rewrite Zminus_mod_idemp_l. Qed.
Lemma wrap_sub_r w x y : wrap w (x - wrap w y) = wrap w (x - y).
Proof. unfold wrap. by rewrite Zminus_mod_idemp_r. Qed.
Lemma swrap_wrap_eq w x : swrap w x = wrap w (x + 2 ^ (w - 1)) - 2 ^ (w - 1).
Proof. done. Qed.
Lemma swrap_wrap w x : swrap w (wrap w x) = swrap w x.
Proof. by rewrite !swrap_wrap_eq, wrap_add_l. Qed.
Lemma wrap_swrap w x : wrap w (swrap w x) = wrap w x.
Proof. rewrite swrap_wrap_eq, wrap_sub_l. f_equal. lia. Qed.
Lemma swrap_add_l w x y : swrap w (swrap w x + y) = swrap w (x + y).
Proof. rewrite <- (swrap_wrap _ (swrap w x + y)), <- wrap_add_l, wrap_swrap, wrap_add_l. apply swrap_wrap. Qed.
Lemma swrap_add_r w x y : swrap w (x + swrap w y) = swrap w (x + y).
Proof. rewrite !(Z.add_comm x). apply swrap_add_l. Qed.
Lemma swrap_sub_l w x y : swrap w (swrap w x - y) = swrap w (x - y).
Proof. apply (swrap_add_l w x (- y)). Qed.

(** The machine: the width of [int], and [_MaxMem] of [runtime/malloc2.go], the size
    of the memory for objects.  Where the operands of the code's own sums and products
    can take them out of the range of [int], they are wrapped. *)
Class Host := {
  int_bits : Z;
  MaxMem : Z;
  int_bits_cases : int_bits = 32 ∨ int_bits = 64;
  MaxMem_range : 2 ^ 31 - 1 <= MaxMem < 2 ^ 39;
}.
Program Definition Int32 : Host := {| int_bits := 32; MaxMem := 2 ^ 32 - 1 |}.
Solve All Obligations with lia.
Program Definition Int64 : Host := {| int_bits := 64; MaxMem := 2 ^ 39 - 1 |}.
Solve All Obligations with lia.

Section int_width.
Context {W : Host}.

Lemma int_range : 2 ^ 30 <= 2 ^ (int_bits - 2) ∧ 2 * 2 ^ (int_bits - 2) = 2 ^ (int_bits - 1).
Proof. by destruct int_bits_cases as [-> | ->]. Qed.
Lemma int_small x : - 2 ^ (int_bits - 1) <= x < 2 ^ (int_bits - 1) → swrap int_bits x = x.
Proof. intros Hx. apply swrap_small; [done|]. destruct int_bits_cases; lia. Qed.

(** [make([]T, n)] for elements of [size] bytes: [makeslice] of [runtime/slice.go]
    panics for a length that is no [int] or that does not fit in memory. *)
Definition max_len (size : Z) : Z := Z.min (2 ^ (int_bits - 1) - 1) (MaxMem / size).
Definition makeslice {A} (size : Z) (zero : A) (n : Z) : go (list A) :=
  if decide (0 <= n <= max_len size) then Ret (replicate (Z.to_nat n) zero)
  else Panic "makeslice: len out of range".
(** A string is a pointer and a length. *)
Definition string_size : Z := int_bits / 4.

Lemma makeslice_eq {A} size (zero : A) n : 0 <= n <= max_len size → makeslice size zero n = Ret (replicate (Z.to_nat n) zero).
Proof. intros. unfold makeslice. by rewrite decide_True. Qed.
Lemma makeslice_panics {A} size (zero : A) n : max_len size < n → makeslice size zero n = Panic "makeslice: len out of range".
Proof. intros. unfold makeslice. rewrite decide_False; [done|lia]. Qed.
Lemma max_len_int size : max_len size < 2 ^ (int_bits - 1).
Proof. unfold max_len. lia. Qed.
End int_width.

(** * Literals *)

Definition ch (c : Ascii.ascii) : Z := Z.of_N (N_of_ascii c).
Arguments ch c%_char_scope.
Fixpoint str (s : string) : bytes :=
  match s with
  | EmptyString => []
  | String c s' => ch c :: str s'
  end.
Arguments str s%_string_scope.

(** * Exchanging two elements *)

Definition swp {A} (l : list A) (i j : Z) : list A :=
  match l.[i], l.[j] with
  | Some x, Some y => insZ (insZ l i y) j x
  | _, _ => l
  end.

(** [same a b l k]: [k] rearranges the elements of [l] between [a] and [b]. *)
Definition same {A} (a b : Z) (l k : list A) : Prop :=
  l ≡ₚ k ∧ ∀ i, ¬ (a <= i < b) → k.[i] = l.[i].

Section swp.
Context {A : Type}.
Implicit Types (l k : list A) (i j a b : Z) (x y : A).

Lemma zlen_Permutation l k : l ≡ₚ k → zlen l = zlen k.
Proof. unfold zlen. by intros ->. Qed.

Lemma zlen_swp l i j : zlen (swp l i j) = zlen l.
Proof. unfold swp. repeat case_match; by rewrite ?zlen_insZ. Qed.

Lemma nthZ_swp l i j m :
  0 <= i < zlen l → 0 <= j < zlen l →
  (swp l i j).[m] = if decide (m = i) then l.[j] else if decide (m = j) then l.[i] else l.[m].
Proof.
  intros Hi Hj. unfold swp.
  destruct (nthZ_is_Some l i Hi) as [x Hx], (nthZ_is_Some l j Hj) as [y Hy].
  rewrite Hx, Hy, !nthZ_insZ, zlen_insZ.
  destruct (decide (j = m ∧ _)) as [[-> ?]|?].
  - destruct (decide (m = i)) as [->|]; [congruence|]. by rewrite decide_True by lia.
  - destruct (decide (i = m ∧ _)) as [[-> ?]|?]; [by rewrite decide_True by lia|].
    by rewrite !decide_False by lia.
Qed.

Lemma insert_swap_Permutation l (i j : nat) x y :
  l !! i = Some x → l !! j = Some y → <[j := x]> (<[i := y]> l) ≡ₚ l.
Proof.
  revert i j. induction l as [|z l IH]; intros [|i] [|j] Hi Hj; simplify_eq/=; try done.
  - rewrite <- (take_drop_middle l j y Hj) at 2.
    rewrite insert_take_drop by (by eapply lookup_lt_Some). solve_Permutation.
  - rewrite <- (take_drop_middle l i x Hi) at 2.
    rewrite insert_take_drop by (by eapply lookup_lt_Some). solve_Permutation.
  - by rewrite IH.
Qed.

Lemma swp_Permutation l i j : swp l i j ≡ₚ l.
Proof.
  unfold swp. destruct (l.[i]) as [x|] eqn:Hx, (l.[j]) as [y|] eqn:Hy; try done.
  unfold insZ, nthZ in *. repeat case_decide; try done.
  by apply insert_swap_Permutation.
Qed.

Lemma swp_adjacent l j x y :
  l.[j - 1] = Some x → l.[j] = Some y →
  ∃ l1 l2, l = l1 ++ [x] ++ [y] ++ l2 ∧ swp l j (j - 1) = l1 ++ [y] ++ [x] ++ l2.
Proof.
  intros Hx Hy. pose proof (nthZ_Some _ _ _ Hx). pose proof (nthZ_Some _ _ _ Hy).
  unfold nthZ in Hx, Hy. rewrite decide_True in Hx by lia. rewrite decide_True in Hy by lia.
  pose proof (take_drop_middle _ _ _ Hx) as E1.
  replace (Z.to_nat j) with (S (Z.to_nat (j - 1))) in Hy by lia.
  assert (drop (S (Z.to_nat (j - 1))) l = y :: drop (S (S (Z.to_nat (j - 1)))) l) as E2
    by (by apply drop_S).
  assert (zlen (take (Z.to_nat (j - 1)) l) = j - 1) as Hl by (apply zlen_take; lia).
  rewrite E2 in E1. revert E1 Hl.
  generalize (take (Z.to_nat (j - 1)) l) (drop (S (S (Z.to_nat (j - 1)))) l).
  intros l1 l2 E1 Hl. exists l1, l2. split; [done|].
  apply nthZ_ext. intros m. rewrite nthZ_swp by lia. subst l. simpl.
  rewrite !nthZ_app, !Hl, !nthZ_cons.
  repeat (case_decide; try lia); try done; f_equal; lia.
Qed.

Lemma swp_id l i j : ¬ 0 <= i < zlen l ∨ ¬ 0 <= j < zlen l → swp l i j = l.
Proof.
  intros H. unfold swp. destruct (l.[i]) eqn:Hi; [|done]. destruct (l.[j]) eqn:Hj; [|done].
  apply nthZ_Some in Hi, Hj. lia.
Qed.

Lemma same_refl a b l : same a b l l.
Proof. by split. Qed.
Lemma same_trans a b l k m : same a b l k → same a b k m → same a b l m.
Proof.
  intros [Hp Hl] [Hp' Hl']. split; [by rewrite Hp|].
  intros i Hi. by rewrite Hl', Hl.
Qed.
Lemma same_weaken a b a' b' l k : same a b l k → a' <= a → b <= b' → same a' b' l k.
Proof. intros [Hp Hl] Ha Hb. split; [done|]. intros i Hi. apply Hl. lia. Qed.
Lemma same_zlen a b l k : same a b l k → zlen k = zlen l.
Proof. intros [Hp _]. symmetry. by apply zlen_Permutation. Qed.
Lemma same_swp a b l i j : a <= i < b → a <= j < b → same a b l (swp l i j).
Proof.
  intros Hi Hj. split; [by rewrite swp_Permutation|].
  intros m Hm.
  destruct (decide (0 <= i < zlen l ∧ 0 <= j < zlen l)) as [[? ?]|Hn].
  - rewrite nthZ_swp by done. by rewrite !decide_False by lia.
  - rewrite swp_id; [done|lia].
Qed.

(** What a rearrangement inside [a, b) leaves there was there before. *)
Lemma same_elem a b l k i x :
  same a b l k → 0 <= a → b <= zlen l → a <= i < b → k.[i] = Some x →
  ∃ j, a <= j < b ∧ l.[j] = Some x.
Proof.
  intros [Hp Hl] Ha Hb Hi Hx.
  pose proof (zlen_Permutation _ _ Hp) as Hlen.
  assert (∀ m : list A, m = take (Z.to_nat a) m ++ take (Z.to_nat (b - a)) (drop (Z.to_nat a) m)
           ++ drop (Z.to_nat b) m) as Hsplit.
  { intros m. replace (Z.to_nat b) with (Z.to_nat a + Z.to_nat (b - a))%nat by lia.
    by rewrite <- drop_drop, !take_drop. }
  assert (take (Z.to_nat a) l = take (Z.to_nat a) k) as Ht.
  { apply nthZ_ext. intros n. rewrite !nthZ_take. case_decide; [|done]. symmetry. apply Hl. lia. }
  assert (drop (Z.to_nat b) l = drop (Z.to_nat b) k) as Hd.
  { apply nthZ_ext. intros n. rewrite !nthZ_drop. case_decide; [|done]. symmetry. apply Hl. lia. }
  assert (take (Z.to_nat (b - a)) (drop (Z.to_nat a) l)
          ≡ₚ take (Z.to_nat (b - a)) (drop (Z.to_nat a) k)) as Hm.
  { rewrite (Hsplit l), (Hsplit k), Ht, Hd in Hp.
    by apply Permutation_app_inv_l, Permutation_app_inv_r in Hp. }
  assert (x ∈ take (Z.to_nat (b - a)) (drop (Z.to_nat a) k)) as Hin.
  { apply list_elem_of_lookup. exists (Z.to_nat (i - a)).
    rewrite lookup_nthZ, nthZ_take, decide_True by lia.
    rewrite nthZ_drop, decide_True by lia. rewrite <- Hx. f_equal. lia. }
  rewrite <- Hm in Hin. apply list_elem_of_lookup in Hin as [n Hn].
  rewrite lookup_nthZ, nthZ_take in Hn. case_decide as Hn'; [|done].
  rewrite nthZ_drop, decide_True in Hn by lia.
  exists (Z.of_nat (Z.to_nat a) + Z.of_nat n). split; [lia|done].
Qed.

Lemma same_sym a b l k : same a b l k → same a b k l.
Proof. intros [Hp Hl]. split; [done|]. intros i Hi. symmetry. by apply Hl. Qed.
End swp.
#[export] Hint Resolve same_refl same_swp : go.

(** [lia] with the equations of [/], [mod], [quot] and [rem]. *)
Ltac lia_div := Z.to_euclidean_division_equations; lia.

(** * Bit fields as sums *)

Lemma land_mask x k : 0 <= k → Z.land x (2 ^ k - 1) = x mod 2 ^ k.
Proof. intros. rewrite <- Z.land_ones by done. by rewrite Z.ones_equiv, Z.sub_1_r. Qed.

Lemma lor_shiftl_add a k b : 0 <= k → 0 <= b < 2 ^ k → Z.lor (Z.shiftl a k) b = a * 2 ^ k + b.
Proof.
  intros Hk Hb. rewrite <- Z.shiftl_mul_pow2 by done.
  symmetry. apply Z.add_nocarry_lor. apply Z.bits_inj'. intros n Hn.
  rewrite Z.land_spec, Z.bits_0. destruct (decide (n < k)).
  - by rewrite Z.shiftl_spec_low by lia.
  - replace b with (b mod 2 ^ k) by (by apply Z.mod_small).
    rewrite Z.mod_pow2_bits_high by lia. apply andb_false_r.
Qed.

(** [c | b] for a constant [c] with [k] low zero bits. *)
Lemma lor_high_add c k b : 0 <= k → 0 <= b < 2 ^ k → c mod 2 ^ k = 0 → Z.lor c b = c + b.
Proof.
  intros Hk Hb Hc. pose proof (Z.div_mod c (2 ^ k)) as E.
  assert (0 < 2 ^ k) by (by apply Z.pow_pos_nonneg).
  replace c with (Z.shiftl (c / 2 ^ k) k) at 1 by (rewrite Z.shiftl_mul_pow2 by done; lia).
  rewrite lor_shiftl_add by done. lia.
Qed.

(** Decides the boolean comparisons of a goal, keeping the cases [lia] allows. *)
Ltac bool_cases :=
  repeat (match goal with
  | |- context [?x <? ?y] => destruct (Z.ltb_spec x y)
  | |- context [?x <=? ?y] => destruct (Z.leb_spec x y)
  | |- context [?x =? ?y] => destruct (Z.eqb_spec x y)
  end; cbn [andb orb negb]; try lia).
Ltac bool_cases_in H :=
  repeat (match type of H with
  | context [?x <? ?y] => destruct (Z.ltb_spec x y)
  | context [?x <=? ?y] => destruct (Z.leb_spec x y)
  | context [?x =? ?y] => destruct (Z.eqb_spec x y)
  end; cbn [andb orb negb] in H; try lia).

Lemma i32_id x : - 2 ^ 31 <= x < 2 ^ 31 → i32 x = x.
Proof. intros. by apply swrap_small. Qed.

(** A property of bytes is decided by trying the 256 of them. *)
Lemma byte_forall (P : Z → bool) :
  forallb P (seqZ 0 256) = true → ∀ b, is_byte b → P b = true.
Proof.
  intros H b Hb. rewrite forallb_forall in H. apply H. apply list_elem_of_In.
  apply elem_of_seqZ. unfold is_byte in Hb. lia.
Qed.
