(* ===== verification/HeapOrder.v ===== *)
(** The binary-heap order on a range of a list, shared by [heapSort] of package
    [sort] and by package [container/heap]: what one sifting step preserves. *)
From S2P Require Import Prelude.

(** [c] is one of the two children of [i]. *)
Definition child (i c : Z) : Prop := c = 2 * i + 1 ∨ c = 2 * i + 2.

Section heap_order.
Context {A : Type} (R : A → A → Prop).
Hypothesis R_refl : ∀ x, R x x.
Hypothesis R_trans : ∀ x y z, R x y → R y z → R x z.
(** The heap lives at [f + lo .. f + hi). *)
Context (f lo hi : Z).
Hypothesis lo_nonneg : 0 <= lo.
Implicit Types (l : list A) (i c p r s : Z) (x y z : A).

(** The pairs parent/child outside [P] are related. *)
Definition heap_but (P : Z → Z → Prop) l : Prop :=
  ∀ i c x y, lo <= i → child i c → c < hi → ¬ P i c →
    l.[f + i] = Some x → l.[f + c] = Some y → R x y.
(** The parent of [r] is related to the children of [r]. *)
Definition bridge r l : Prop :=
  ∀ p c x y, lo <= p → child p r → child r c → c < hi →
    l.[f + p] = Some x → l.[f + c] = Some y → R x y.

Definition heap l : Prop := heap_but (λ _ _, False) l.
Definition hole_heap r l : Prop := heap_but (λ i c, i = r ∨ c = r) l ∧ bridge r l.
Definition down_heap r l : Prop := heap_but (λ i _, i = r) l ∧ bridge r l.
Definition up_heap r l : Prop := heap_but (λ _ c, c = r) l ∧ bridge r l.

Lemma heap_but_mono (P P' : Z → Z → Prop) l :
  (∀ i c, P i c → P' i c) → heap_but P l → heap_but P' l.
Proof. intros HP H i c x y ??? Hn. apply H; [done..|]. auto. Qed.
Lemma down_hole r l : down_heap r l → hole_heap r l.
Proof. intros [H Hb]. split; [|done]. revert H. apply heap_but_mono. auto. Qed.

Lemma heap_up_heap r l : lo <= r → f + hi <= zlen l → 0 <= f → heap l → up_heap r l.
Proof.
  intros Hr Hl Hf H. split; [by eapply heap_but_mono, H|].
  intros p c x y Hp Hpr Hc Hhi Hx Hy.
  destruct (nthZ_is_Some l (f + r)) as [z Hz]; [unfold child in *; lia|].
  apply R_trans with z; [apply (H p r x z)|apply (H r c z y)]; unfold child in *; try done; try lia; auto.
Qed.

(** Sifting down has nothing to do at [r]. *)
Definition settled r l : Prop :=
  ∀ c x y, child r c → c < hi → l.[f + r] = Some x → l.[f + c] = Some y → R x y.

Lemma down_stop r l : down_heap r l → settled r l → heap l.
Proof.
  intros [H _] Hs i c x y ??? _. destruct (decide (i = r)) as [->|]; [by apply Hs|]. by apply H.
Qed.
Lemma hole_stop r l : hole_heap r l → settled r l → up_heap r l.
Proof.
  intros [H Hb] Hs. split; [|done]. intros i c x y ??? Hc.
  destruct (decide (i = r)) as [->|]; [by apply Hs|]. apply H; [done..|]. by intros [?|?].
Qed.

(** Exchanging [r] with its smallest child [m] moves the hole to [m]. *)
Lemma hole_step r m l xr xm :
  hole_heap r l → lo <= r → child r m → 0 <= f → f + hi <= zlen l → m < hi →
  l.[f + r] = Some xr → l.[f + m] = Some xm → R xm xr →
  (∀ c y, child r c → c < hi → l.[f + c] = Some y → R xm y) →
  down_heap m (swp l (f + r) (f + m)).
Proof.
  intros [H Hb] Hr Hm Hf Hl Hhi Hxr Hxm Hlt Hmin.
  split.
  - intros i c x y Hi Hc Hch Hne Hx Hy.
    rewrite nthZ_swp in Hx, Hy by (unfold child in *; lia).
    unfold child in Hc, Hm.
    destruct (decide (f + i = f + r)), (decide (f + c = f + r)); try lia.
    + rewrite Hxm in Hx. simplify_eq.
      destruct (decide (f + c = f + m)); simplify_eq; [done|].
      apply (Hmin c); [unfold child; lia|done|done].
    + rewrite (decide_False (P := f + i = f + m)) in Hx by lia.
      assert (c = r) as -> by lia. rewrite Hxm in Hy. simplify_eq.
      apply (Hb i m); unfold child; [lia..|done|done].
    + rewrite decide_False in Hx by lia.
      destruct (decide (f + c = f + m)); [lia|].
      apply (H i c); unfold child; [lia..|done|done].
  - intros p c x y Hp Hpm Hmc Hc Hx Hy. unfold child in *.
    assert (p = r) as -> by lia.
    rewrite nthZ_swp in Hx, Hy by lia.
    rewrite decide_True in Hx by lia. rewrite !decide_False in Hy by lia. simplify_eq.
    apply (H m c); unfold child; [lia..|by rewrite Hxm|done].
Qed.

(** Exchanging [j] with its parent [i] moves the violation to [i]. *)
Lemma up_step i j l xi xj :
  up_heap j l → lo = 0 → 0 <= i → child i j → 0 <= f → f + hi <= zlen l → j < hi →
  l.[f + i] = Some xi → l.[f + j] = Some xj → R xj xi →
  up_heap i (swp l (f + i) (f + j)).
Proof.
  intros [H Hb] Hlo Hi Hij Hf Hl Hhi Hxi Hxj Hlt. unfold child in Hij.
  split.
  - intros p c x y Hp Hc Hch Hne Hx Hy. unfold child in Hc.
    rewrite nthZ_swp in Hx, Hy by lia.
    rewrite (decide_False (P := f + c = f + i)) in Hy by lia.
    destruct (decide (f + p = f + i)).
    + assert (x = xj) as -> by congruence. destruct (decide (f + c = f + j)).
      * by assert (y = xi) as -> by congruence.
      * apply R_trans with xi; [done|]. apply (H i c); unfold child; [lia..|done|done].
    + rewrite (decide_False (P := f + c = f + j)) in Hy by lia.
      destruct (decide (f + p = f + j)).
      * assert (x = xi) as -> by congruence. assert (p = j) as -> by lia.
        apply (Hb i c); unfold child; [lia..|done|done].
      * apply (H p c); unfold child; [lia..|done|done].
  - intros p c x y Hp Hpi Hic Hc Hx Hy. unfold child in Hpi, Hic.
    rewrite nthZ_swp in Hx, Hy by lia.
    rewrite !decide_False in Hx by lia. rewrite (decide_False (P := f + c = f + i)) in Hy by lia.
    assert (R x xi) by (apply (H p i); unfold child; [lia..|done|done]).
    destruct (decide (f + c = f + j)).
    + by assert (y = xi) as -> by congruence.
    + apply R_trans with xi; [done|]. apply (H i c); unfold child; [lia..|done|done].
Qed.

(** The violation is repaired: at the root, or above a parent that is related. *)
Lemma up_stop j l :
  up_heap j l → (∀ i x y, lo <= i → child i j → l.[f + i] = Some x → l.[f + j] = Some y → R x y) →
  heap l.
Proof.
  intros [H _] Hs i c x y ??? _ ??.
  destruct (decide (c = j)) as [->|]; [by apply (Hs i)|by apply (H i c)].
Qed.

(** The root is related to every element of a heap. *)
Lemma heap_top l i x y :
  heap l → lo = 0 → 0 <= i < hi → 0 <= f → f + hi <= zlen l →
  l.[f] = Some x → l.[f + i] = Some y → R x y.
Proof.
  intros H Hlo Hi Hf Hl Hx.
  revert y. destruct Hi as [Hi Hhi]. revert Hhi. pattern i. apply Zlt_0_ind; [|done].
  clear i Hi. intros i IH Hi0 Hhi y Hy.
  destruct (decide (i = 0)) as [->|]; [rewrite Z.add_0_r in Hy; by simplify_eq|].
  set (p := (i - 1) / 2).
  assert (2 * p + 1 <= i <= 2 * p + 2).
  { subst p. pose proof (Z.div_mod (i - 1) 2). pose proof (Z.mod_pos_bound (i - 1) 2). lia. }
  destruct (nthZ_is_Some l (f + p)) as [z Hz]; [lia|].
  apply R_trans with z; [by apply (IH p); [lia|lia|]|].
  apply (H p i); unfold child; auto; lia.
Qed.
End heap_order.
