(* ===== verification/Sort.v ===== *)
(** Package [sort] ([src/src/sort/sort.go], [src/src/sort/search.go]). *)
From S2P Require Import Prelude.
From S2P Require Import HeapOrder.

(** * The interface *)

(** [sort.Interface]; the methods are the caller's code and may panic. *)
Class Interface (D : Type) := {
  Len : D → Z;
  Less : D → Z → Z → go bool;
  Swap : D → Z → Z → go D;
}.

(** What a collection promises to the algorithms: it presents a list, [Less]
    compares two of its elements by a strict weak order, [Swap] exchanges two
    of its elements.  Nothing is promised out of range. *)
Class SortLaws (D A : Type) {I : Interface D} := {
  view : D → list A;
  lt : A → A → bool;
  Len_view d : Len d = zlen (view d);
  Less_view d i j x y :
    (view d).[i] = Some x → (view d).[j] = Some y → Less d i j = Ret (lt x y);
  Swap_view d i j :
    0 <= i < zlen (view d) → 0 <= j < zlen (view d) →
    Swap d i j ⇓ λ d', view d' = swp (view d) i j;
  lt_irrefl x : lt x x = false;
  lt_trans x y z : lt x y = true → lt y z = true → lt x z = true;
  lt_cotrans x y z : lt x z = true → lt x y = true ∨ lt y z = true;
}.
#[global] Hint Mode SortLaws + - + : typeclass_instances.

(** * The algorithms *)

Definition min (a b : Z) : Z := if a <? b then a else b.

Section algorithms.
Context {W : Host} {D : Type} {I : Interface D}.
Abbreviation int := (swrap int_bits) (only parsing).
Implicit Types (data : D) (a b : Z).

Definition insertionSort data a b : go D :=
  for_up (a + 1) b (λ i data,
    '(_, data) ← while (S (Z.to_nat (i - a)))
      (λ '(j, data), if a <? j then Less data j (j - 1) else Ret false)
      (λ '(j, data), data ← Swap data j (j - 1); Ret (j - 1, data))
      (i, data);
    Ret data) data.

Definition siftDown data (lo hi first : Z) : go D :=
  loop (S (S (Z.to_nat hi))) (λ '(root, data),
    let child := int (2 * root + 1) in
    if hi <=? child then Ret (inr data) else
    c ← (if child + 1 <? hi then Less data (first + child) (first + child + 1) else Ret false);
    let child := if (c : bool) then child + 1 else child in
    l ← Less data (first + root) (first + child);
    if negb l then Ret (inr data) else
    data ← Swap data (first + root) (first + child);
    Ret (inl (child, data))) (lo, data).

Definition heapSort data a b : go D :=
  let first := a in
  let lo := 0 in
  let hi := b - a in
  data ← for_down (Z.quot (hi - 1) 2) 0 (λ i data, siftDown data i hi first) data;
  for_down (hi - 1) 0 (λ i data,
    data ← Swap data first (first + i);
    siftDown data lo i first) data.

Definition medianOfThree data (m1 m0 m2 : Z) : go D :=
  c ← Less data m1 m0;
  data ← (if (c : bool) then Swap data m1 m0 else Ret data);
  c ← Less data m2 m1;
  if (c : bool) then
    data ← Swap data m2 m1;
    c ← Less data m1 m0;
    if (c : bool) then Swap data m1 m0 else Ret data
  else Ret data.

Definition swapRange data a b (n : Z) : go D :=
  for_up 0 n (λ i data, Swap data (a + i) (b + i)) data.

(** The first inner loop of [doPivot]: [b] moves up. *)
Definition pivot_up (pivot c : Z) : Z * Z * D → go (Z * Z * D) :=
  loop (S (Z.to_nat c)) (λ '(a, b, data),
    if b <? c then
      l ← Less data b pivot;
      if (l : bool) then Ret (inl (a, b + 1, data)) else
      g ← Less data pivot b;
      if negb g then
        data ← Swap data a b;
        Ret (inl (a + 1, b + 1, data))
      else Ret (inr (a, b, data))
    else Ret (inr (a, b, data))).

(** The second inner loop of [doPivot]: [c] moves down. *)
Definition pivot_down (pivot b : Z) (c0 d0 : Z) (data0 : D) : go (Z * Z * D) :=
  loop (S (Z.to_nat (c0 - b))) (λ '(c, d, data),
    if b <? c then
      g ← Less data pivot (c - 1);
      if (g : bool) then Ret (inl (c - 1, d, data)) else
      l ← Less data (c - 1) pivot;
      if negb l then
        data ← Swap data (c - 1) (d - 1);
        Ret (inl (c - 1, d - 1, data))
      else Ret (inr (c, d, data))
    else Ret (inr (c, d, data))) (c0, d0, data0).

Definition doPivot data (lo hi : Z) : go (D * (Z * Z)) :=
  let m := int (lo + Z.quot (hi - lo) 2) in
  data ← (if 40 <? hi - lo then
    let s := Z.quot (hi - lo) 8 in
    data ← medianOfThree data lo (int (lo + s)) (int (lo + 2 * s));
    data ← medianOfThree data m (m - s) (int (m + s));
    medianOfThree data (hi - 1) (hi - 1 - s) (hi - 1 - 2 * s)
    else Ret data);
  data ← medianOfThree data lo m (hi - 1);
  let pivot := lo in
  '(a, b, c, d, data) ← loop (S (Z.to_nat (hi - lo))) (λ '(a, b, c, d, data),
    '(a, b, data) ← pivot_up pivot c (a, b, data);
    '(c, d, data) ← pivot_down pivot b c d data;
    if c <=? b then Ret (inr (a, b, c, d, data)) else
    data ← Swap data b (c - 1);
    Ret (inl (a, b + 1, c - 1, d, data))) (lo + 1, lo + 1, hi, hi, data);
  let n := min (b - a) (a - lo) in
  data ← swapRange data lo (b - n) n;
  let n := min (hi - d) (d - c) in
  data ← swapRange data c (hi - n) n;
  Ret (data, (int (int (lo + b) - a), hi - (d - c))).

Fixpoint quickSort_fuel (fuel : nat) data a b (maxDepth : Z) : go D :=
  match fuel with
  | O => NoFuel
  | S fuel =>
    if 7 <? b - a then
      if maxDepth =? 0 then heapSort data a b else
      let maxDepth := maxDepth - 1 in
      '(data, (mlo, mhi)) ← doPivot data a b;
      if mlo - a <? b - mhi then
        data ← quickSort_fuel fuel data a mlo maxDepth;
        quickSort_fuel fuel data mhi b maxDepth
      else
        data ← quickSort_fuel fuel data mhi b maxDepth;
        quickSort_fuel fuel data a mlo maxDepth
    else if 1 <? b - a then insertionSort data a b else Ret data
  end.
Definition quickSort data a b (maxDepth : Z) : go D :=
  quickSort_fuel (S (Z.to_nat (b - a))) data a b maxDepth.

Definition Sort data : go D :=
  let n := Len data in
  '(_, maxDepth) ← while (Z.to_nat (Z.log2 n + 2))
    (λ '(i, _), Ret (0 <? i))
    (λ '(i, maxDepth), Ret (Z.shiftr i 1, maxDepth + 1)) (n, 0);
  let maxDepth := maxDepth * 2 in
  quickSort data 0 n maxDepth.

Definition IsSorted data : go bool :=
  let n := Len data in
  loop (S (Z.to_nat n)) (λ i,
    if 0 <? i then
      l ← Less data i (i - 1);
      if (l : bool) then Ret (inr false) else Ret (inl (i - 1))
    else Ret (inr true)) (n - 1).
End algorithms.

(** * Rules for the interface and the order *)

Section order.
Context {D A : Type} {I : Interface D} {L : SortLaws D A}.
Implicit Types (d : D) (i j a b : Z) (x y z : A) (l k : list A).

Definition le x y : Prop := lt y x = false.

Lemma le_refl x : le x x.
Proof. apply lt_irrefl. Qed.
Lemma le_trans x y z : le x y → le y z → le x z.
Proof.
  unfold le. intros Hxy Hyz. destruct (lt z x) eqn:E; [|done].
  apply (lt_cotrans _ y) in E as [E|E]; congruence.
Qed.
Lemma lt_le x y : lt x y = true → le x y.
Proof.
  unfold le. intros Hxy. destruct (lt y x) eqn:E; [|done].
  pose proof (lt_trans _ _ _ Hxy E) as H. by rewrite lt_irrefl in H.
Qed.
Lemma lt_le_trans x y z : lt x y = true → le y z → lt x z = true.
Proof. unfold le. intros Hxy Hyz. apply (lt_cotrans _ z) in Hxy as [H|H]; congruence. Qed.
Lemma le_lt_trans x y z : le x y → lt y z = true → lt x z = true.
Proof. unfold le. intros Hxy Hyz. apply (lt_cotrans _ x) in Hyz as [H|H]; congruence. Qed.

Lemma wp_Less d i j (Q : bool → Prop) :
  0 <= i < zlen (view d) → 0 <= j < zlen (view d) →
  (∀ x y, (view d).[i] = Some x → (view d).[j] = Some y → Q (lt x y)) →
  Less d i j ⇓ Q.
Proof.
  intros Hi Hj HQ.
  destruct (nthZ_is_Some _ _ Hi) as [x Hx], (nthZ_is_Some _ _ Hj) as [y Hy].
  rewrite (Less_view d i j x y) by done. by apply HQ.
Qed.
Lemma wp_Swap d i j (Q : D → Prop) :
  0 <= i < zlen (view d) → 0 <= j < zlen (view d) →
  (∀ d', view d' = swp (view d) i j → Q d') → Swap d i j ⇓ Q.
Proof. intros Hi Hj HQ. eapply wp_mono; [by apply Swap_view|]. done. Qed.

(** The elements of [l] between [a] and [b] are in order. *)
Definition sorted l a b : Prop :=
  ∀ i j x y, a <= i < j → j < b → l.[i] = Some x → l.[j] = Some y → le x y.
(** Every element of [l] between [a] and [b] satisfies [P]. *)
Definition all_in (P : A → Prop) l a b : Prop :=
  ∀ i x, a <= i < b → l.[i] = Some x → P x.

(** The test of equivalence, and stability: the elements equivalent to any
    given one keep their order. *)
Definition eqvb x y : bool := negb (lt x y) && negb (lt y x).
Definition stable l k : Prop :=
  ∀ x, filter (λ y, eqvb x y = true) k = filter (λ y, eqvb x y = true) l.

Lemma eqvb_true x y : eqvb x y = true ↔ le x y ∧ le y x.
Proof. unfold eqvb, le. destruct (lt x y), (lt y x); naive_solver. Qed.

Lemma stable_refl l : stable l l.
Proof. done. Qed.
Lemma stable_trans l k m : stable l k → stable k m → stable l m.
Proof. intros H1 H2 x. by rewrite H2, H1. Qed.

(** Exchanging two adjacent blocks keeps equivalent elements in order when
    every element of the second one is strictly smaller. *)
Lemma stable_blocks l1 u v l2 :
  (∀ x y, x ∈ u → y ∈ v → lt y x = true) →
  stable (l1 ++ u ++ v ++ l2) (l1 ++ v ++ u ++ l2).
Proof.
  intros Huv z. rewrite !filter_app. f_equal.
  assert (filter (λ y, eqvb z y = true) u = [] ∨ filter (λ y, eqvb z y = true) v = []) as [-> | ->];
    [|by rewrite ?app_nil_r..].
  destruct (filter (λ y, eqvb z y = true) u) as [|x u'] eqn:Eu; [by left|].
  destruct (filter (λ y, eqvb z y = true) v) as [|y v'] eqn:Ev; [by right|].
  assert (x ∈ filter (λ y, eqvb z y = true) u) as [[? Hzx]%eqvb_true Hx]%list_elem_of_filter
    by (rewrite Eu; set_solver).
  assert (y ∈ filter (λ y, eqvb z y = true) v) as [[Hzy ?]%eqvb_true Hy]%list_elem_of_filter
    by (rewrite Ev; set_solver).
  specialize (Huv x y Hx Hy).
  assert (le x y) as Hle by (by apply le_trans with z). unfold le in Hle. congruence.
Qed.

Lemma stable_swp l j x y :
  l.[j - 1] = Some x → l.[j] = Some y → lt y x = true → stable l (swp l j (j - 1)).
Proof.
  intros Hx Hy Hlt. pose proof (nthZ_Some _ _ _ Hx). pose proof (nthZ_Some _ _ _ Hy).
  destruct (swp_adjacent l j x y Hx Hy) as (l1 & l2 & -> & ->).
  apply (stable_blocks l1 [x] [y] l2). set_solver.
Qed.

Lemma sorted_short l a b : b - a <= 1 → sorted l a b.
Proof. intros ? i j x y ??. lia. Qed.

Lemma all_in_same P l k a b a' b' :
  same a' b' l k → 0 <= a' → b' <= zlen l → a <= a' ∧ b' <= b ∨ b <= a' ∨ b' <= a →
  all_in P l a b → all_in P k a b.
Proof.
  intros Hs Ha Hb Hr Hall i x Hi Hx.
  destruct (decide (a' <= i < b')).
  - destruct (same_elem _ _ _ _ _ _ Hs Ha Hb ltac:(done) Hx) as (j & Hj & Hx').
    apply (Hall j); [lia|done].
  - rewrite (proj2 Hs) in Hx by done. by apply (Hall i).
Qed.
Lemma sorted_same l k a b a' b' :
  same a' b' l k → b <= a' ∨ b' <= a → sorted l a b → sorted k a b.
Proof.
  intros [_ Hs] Hr Hl i j x y Hi Hj Hx Hy.
  rewrite Hs in Hx, Hy by lia. by apply (Hl i j).
Qed.

(** Two sorted ranges around a middle range of equal pivots. *)
Lemma sorted_join l a m1 m2 b p :
  a <= m1 <= m2 → m2 <= b →
  all_in (λ x, le x p) l a m1 → all_in (λ x, le x p ∧ le p x) l m1 m2 →
  all_in (λ x, le p x) l m2 b →
  sorted l a m1 → sorted l m2 b → sorted l a b.
Proof.
  intros H1 H2 Hlo Hmid Hhi Hs1 Hs2 i j x y Hi Hj Hx Hy.
  destruct (decide (j < m1)); [by apply (Hs1 i j x y); [lia|..]|].
  destruct (decide (m2 <= i)); [by apply (Hs2 i j x y); [lia|..]|].
  apply le_trans with p.
  - destruct (decide (i < m1)); [by apply (Hlo i); [lia|]|]. by apply (Hmid i); [lia|].
  - destruct (decide (m2 <= j)); [by apply (Hhi j); [lia|]|]. by apply (Hmid j); [lia|].
Qed.
End order.
#[export] Hint Resolve le_refl lt_le : go.

(** * Insertion sort *)

Section insertion.
Context {W : Host} {D A : Type} {I : Interface D} {L : SortLaws D A}.
Implicit Types (d : D) (i j a b : Z) (x y z : A) (l k : list A).

(** [l] is in order between [a] and [b], the pairs ending at [j] aside. *)
Definition sorted_but (j : Z) l a b : Prop :=
  ∀ p q x y, a <= p < q → q < b → q ≠ j → l.[p] = Some x → l.[q] = Some y → le x y.

Lemma sorted_but_start l a i : sorted l a i → sorted_but i l a (i + 1).
Proof. intros Hs p q x y Hp Hq Hj Hx Hy. apply (Hs p q x y); [lia|lia|done|done]. Qed.

Lemma sorted_but_stop l a b j :
  sorted_but j l a b →
  (∀ x y, l.[j - 1] = Some x → l.[j] = Some y → a < j → le x y) →
  j <= zlen l → 0 <= a → sorted l a b.
Proof.
  intros Hs Hj Hlen Ha p q x y Hp Hq Hx Hy.
  destruct (decide (q = j)) as [->|]; [|by apply (Hs p q x y)].
  destruct (nthZ_is_Some l (j - 1)) as [z Hz]; [lia|].
  destruct (decide (p = j - 1)) as [->|]; [apply Hj; [done|done|lia]|].
  apply le_trans with z; [apply (Hs p (j - 1) x z); [lia..|done|done]|apply Hj; [done|done|lia]].
Qed.

Lemma sorted_but_step l a b j x y :
  sorted_but j l a b → a < j < b → 0 <= a → b <= zlen l →
  l.[j] = Some x → l.[j - 1] = Some y → lt x y = true →
  sorted_but (j - 1) (swp l j (j - 1)) a b.
Proof.
  intros Hs Hj Ha Hb Hx Hy Hlt p q u v Hp Hq Hne Hu Hv.
  rewrite nthZ_swp in Hu, Hv by lia.
  repeat case_decide; simplify_eq; try lia.
  all: try by apply lt_le.
  all: eapply Hs; [| | |eassumption|eassumption]; lia.
Qed.

Definition sorts (f : D → Z → Z → go D) d a b : Prop :=
  f d a b ⇓ λ d', same a b (view d) (view d') ∧ sorted (view d') a b.

Lemma insertionSort_stable d a b :
  0 <= a → b <= zlen (view d) →
  insertionSort d a b ⇓ λ d', (same a b (view d) (view d') ∧ stable (view d) (view d'))
                              ∧ sorted (view d') a b.
Proof.
  intros Ha Hb. unfold insertionSort.
  apply wp_for_up with (I := λ i d', (same a b (view d) (view d') ∧ stable (view d) (view d'))
    ∧ sorted (view d') a i).
  - intros i d1 Hi [Hs Hi1]. apply wp_bind.
    apply wp_while with (I := λ '(j, d'), a <= j <= i ∧
        (same a b (view d) (view d') ∧ stable (view d) (view d'))
        ∧ sorted_but j (view d') a (i + 1)) (meas := λ '(j, _), j - a).
    + intros [j d2] (Hj & [Hs2 Hst2] & Hb2).
      pose proof (same_zlen _ _ _ _ Hs2) as Hlen.
      destruct (Z.ltb_spec a j) as [Haj|Haj]; simpl.
      * apply wp_Less; [lia..|]. intros x y Hx Hy. destruct (lt x y) eqn:E.
        -- apply wp_bind, wp_Swap; [lia..|]. intros d3 Hd3. simpl. rewrite Hd3.
           split; [|lia]. split; [lia|]. split.
           ++ split; [eapply same_trans; [done|]; apply same_swp; lia|].
              eapply stable_trans; [done|]. by apply stable_swp with y x.
           ++ by apply sorted_but_step with x y; [..|lia|lia|lia| | |].
        -- split; [done|]. apply (sorted_but_stop _ _ _ j); [done| |lia|lia].
           intros u v Hu Hv _. simplify_eq. done.
      * split; [done|]. apply (sorted_but_stop _ _ _ j); [done| |lia|lia]. lia.
    + split; [lia|]. split; [done|]. by apply sorted_but_start.
    + lia.
  - split; [done|]. apply sorted_short. lia.
  - intros d' [Hs Hsorted]. split; [done|].
    intros p q x y Hp Hq. apply Hsorted; lia.
Qed.

Lemma insertionSort_spec d a b :
  0 <= a → b <= zlen (view d) → sorts insertionSort d a b.
Proof.
  intros Ha Hb. eapply wp_mono; [by apply insertionSort_stable|]. by intros d' [[Hs _] Hd].
Qed.
End insertion.

(** * Heap sort *)

Section heapsort.
Context {W : Host} {D A : Type} {I : Interface D} {L : SortLaws D A}.
Implicit Types (d : D) (i j a b : Z) (x y z : A) (l k : list A).

(** The heap of [heapSort] has its greatest element at the root. *)
Definition ge x y : Prop := le y x.
Lemma ge_refl x : ge x x.
Proof. apply le_refl. Qed.
Lemma ge_trans x y z : ge x y → ge y z → ge x z.
Proof. unfold ge. intros ??. by apply le_trans with y. Qed.

Lemma siftDown_spec d lo hi first :
  0 <= lo <= hi → hi < 2 ^ (int_bits - 2) → 0 <= first → first + hi <= zlen (view d) →
  down_heap ge first lo hi lo (view d) →
  siftDown d lo hi first ⇓ λ d',
    same (first + lo) (first + hi) (view d) (view d') ∧ heap ge first lo hi (view d').
Proof.
  intros Hlo Hhi Hf Hlen Hd. unfold siftDown. pose proof int_range as [_ Hint].
  apply wp_loop with (I := λ '(root, d'), lo <= root <= hi
      ∧ same (first + lo) (first + hi) (view d) (view d')
      ∧ down_heap ge first lo hi root (view d'))
    (meas := λ '(root, _), Z.max 0 (hi - root)).
  - intros [root d1] (Hr & Hs & Hh). cbv zeta. rewrite int_small by lia.
    pose proof (same_zlen _ _ _ _ Hs) as Hl.
    destruct (Z.leb_spec hi (2 * root + 1)) as [Hc|Hc].
    { split; [done|]. eapply down_stop; [done|]. intros c x y Hch ?. unfold child in Hch. lia. }
    apply wp_bind.
    destruct (nthZ_is_Some (view d1) (first + (2 * root + 1))) as [x1 Hx1]; [lia|].
    (* the larger child *)
    eapply wp_mono with (Q := λ c : bool, let m := if c then 2 * root + 1 + 1 else 2 * root + 1 in
      m < hi ∧ ∀ c y z, child root c → c < hi → (view d1).[first + c] = Some y →
      (view d1).[first + m] = Some z → ge z y).
    { destruct (Z.ltb_spec (2 * root + 1 + 1) hi) as [Hc2|Hc2].
      - apply wp_Less; [lia..|]. intros x y Hx Hy.
        replace (first + (2 * root + 1) + 1) with (first + (2 * root + 1 + 1)) in Hy by lia.
        destruct (lt x y) eqn:E; (split; [lia|]); intros c u v [->| ->] _ Hu Hv;
          replace (2 * root + 2) with (2 * root + 1 + 1) in * by lia; simplify_eq; unfold ge; auto with go.
      - split; [lia|]. intros c y z [->| ->] ? ??; [|lia]. simplify_eq. apply ge_refl. }
    intros c [Hm Hmin]. set (m := if c then 2 * root + 1 + 1 else 2 * root + 1) in *.
    assert (child root m) as Hch by (subst m; unfold child; destruct c; lia).
    assert (root < m) by (unfold child in Hch; lia).
    apply wp_bind, wp_Less; [lia..|]. intros xr xm Hxr Hxm.
    destruct (lt xr xm) eqn:E; simpl.
    + apply wp_bind, wp_Swap; [lia..|]. intros d2 Hd2. simpl. rewrite Hd2.
      split; [|lia]. split; [lia|]. split.
      * eapply same_trans; [done|]. apply same_swp; lia.
      * eapply hole_step with (xr := xr) (xm := xm); try done; try lia.
        -- by apply down_hole.
        -- unfold ge. by apply lt_le.
        -- intros c' y' ???. by apply (Hmin c').
    + split; [done|]. eapply down_stop; [done|]. intros c' x y ????. simplify_eq.
      apply ge_trans with xm; [done|]. by apply (Hmin c').
  - split; [lia|]. split; [apply same_refl|done].
  - lia.
Qed.

(** A heap from [lo + 1] on becomes one from [lo] on. *)
Lemma heap_extend l f lo hi :
  heap ge f (lo + 1) hi l → 0 <= lo → down_heap ge f lo hi lo l.
Proof.
  intros H Hlo. split.
  - intros i c x y Hi Hc Hch Hne. apply H; [lia|done|done|naive_solver].
  - intros p c x y Hp Hpr. unfold child in Hpr. lia.
Qed.

Lemma heapSort_spec d a b :
  0 <= a <= b → b <= zlen (view d) → b - a < 2 ^ (int_bits - 2) → sorts heapSort d a b.
Proof.
  intros Ha Hb Hint. unfold sorts, heapSort. cbv zeta. apply wp_bind.
  apply wp_for_down with (I := λ i d', same a b (view d) (view d')
      ∧ heap ge a (i + 1) (b - a) (view d')).
  { intros i d1 Hi [Hs Hh]. pose proof (same_zlen _ _ _ _ Hs).
    eapply wp_mono; [apply siftDown_spec; try lia_div|].
    - apply heap_extend; [done|lia].
    - intros d2 [Hs2 Hh2]. split.
      + eapply same_trans; [done|]. eapply same_weaken; [done|lia..].
      + by replace (i - 1 + 1) with i by lia. }
  { split; [apply same_refl|]. intros i c x y Hi Hc Hch. unfold child in Hc.
    lia_div. }
  intros d1 [Hs1 Hh1].
  assert (heap ge a 0 (b - a) (view d1)) as Hh1'.
  { intros i c x y Hi Hc Hch. unfold child in Hc. apply Hh1; [lia_div|done|done]. }
  apply wp_for_down with (I := λ i d', same a b (view d) (view d')
      ∧ heap ge a 0 (i + 1) (view d') ∧ sorted (view d') (a + i + 1) b
      ∧ ∀ p q x y, a <= p < a + i + 1 → a + i + 1 <= q < b →
          (view d').[p] = Some x → (view d').[q] = Some y → le x y).
  - intros i d2 Hi (Hs2 & Hh2 & Hsd & Hle). pose proof (same_zlen _ _ _ _ Hs2) as Hl2.
    apply wp_bind, wp_Swap; [lia..|]. intros d3 Hd3.
    assert (∀ j x y, 0 <= j < i + 1 → (view d2).[a] = Some x → (view d2).[a + j] = Some y → le y x) as Htop.
    { intros j x y Hj Hx Hy.
      apply (heap_top ge ge_refl ge_trans a 0 (i + 1) (view d2) j x y); try done; lia. }
    eapply wp_mono; [apply siftDown_spec; rewrite ?Hd3, ?zlen_swp; try lia|].
    + apply heap_extend; [|lia]. intros p c x y Hp Hc Hch _ Hx Hy. unfold child in Hc.
      rewrite nthZ_swp in Hx, Hy by lia. rewrite !decide_False in Hx by lia. rewrite !decide_False in Hy by lia.
      apply (Hh2 p c); [lia|done|lia|tauto|done|done].
    + intros d4 [Hs4 Hh4]. rewrite Hd3 in Hs4. simpl in Hs4.
      assert (same a (a + (i + 1)) (view d2) (swp (view d2) a (a + i))) as Hsw by (apply same_swp; lia).
      assert (same a b (view d) (view d4)).
      { eapply same_trans; [done|]. eapply same_trans.
        - eapply same_weaken; [exact Hsw|lia..].
        - eapply same_weaken; [exact Hs4|lia..]. }
      split; [done|]. replace (i - 1 + 1) with i by lia. replace (a + (i - 1) + 1) with (a + i) by lia.
      split; [done|].
      (* the swapped list, then the sifted one *)
      assert (∀ p q x y, a <= p < q → a + i <= q < b →
        (swp (view d2) a (a + i)).[p] = Some x → (swp (view d2) a (a + i)).[q] = Some y → le x y) as Hsw2.
      { intros p q x y Hp Hq Hx Hy. rewrite nthZ_swp in Hx, Hy by lia.
        destruct (decide (q = a)); [lia|].
        destruct (decide (q = a + i)) as [->|].
        - rewrite (decide_False (P := p = a + i)) in Hx by lia.
          destruct (decide (p = a)); [apply (Htop i y x); [lia|done|done]|].
          apply (Htop (p - a) y x); [lia|done|]. by replace (a + (p - a)) with p by lia.
        - destruct (decide (p = a)).
          + apply (Hle (a + i) q); [lia|lia|done|done].
          + destruct (decide (p = a + i)).
            * apply (Hle a q); [lia|lia|done|done].
            * destruct (decide (p < a + i + 1)); [apply (Hle p q); [lia|lia|done|done]|].
              apply (Hsd p q); [lia|lia|done|done]. }
      split.
      * intros p q x y Hp Hq Hx Hy. rewrite (proj2 Hs4) in Hx, Hy by lia.
        apply (Hsw2 p q); [lia|lia|done|done].
      * intros p q x y Hp Hq Hx Hy. rewrite (proj2 Hs4) in Hy by lia.
        pose proof (zlen_swp (view d2) a (a + i)).
        eapply same_elem in Hx as (p' & Hp' & Hx'); [|exact Hs4|lia|lia|lia].
        apply (Hsw2 p' q); [lia|lia|done|done].
  - split; [done|]. replace (b - a - 1 + 1) with (b - a) by lia. split; [done|].
    split; [apply sorted_short; lia|]. lia.
  - intros d2 (Hs & _ & Hsd & _). split; [done|].
    intros p q x y Hp Hq. apply Hsd; lia.
Qed.
End heapsort.

(** * Quick sort *)

Section quicksort.
Context {W : Host} {D A : Type} {I : Interface D} {L : SortLaws D A}.
Implicit Types (data : D) (i j a b c : Z) (x y z p : A) (l k : list A).

Lemma wp_Swap_same (d : D) i j lo hi (Q : D → Prop) :
  lo <= i < hi → lo <= j < hi → 0 <= lo → hi <= zlen (view d) →
  (∀ d', same lo hi (view d) (view d') → Q d') → Swap d i j ⇓ Q.
Proof. intros ???? HQ. apply wp_Swap; [lia..|]. intros d' Hd. apply HQ. rewrite Hd. by apply same_swp. Qed.

Lemma medianOfThree_spec data m1 m0 m2 lo hi :
  lo <= m1 < hi → lo <= m0 < hi → lo <= m2 < hi → 0 <= lo → hi <= zlen (view data) →
  medianOfThree data m1 m0 m2 ⇓ λ d', same lo hi (view data) (view d').
Proof.
  intros H1 H0 H2 Hlo Hhi. unfold medianOfThree.
  apply wp_bind, wp_Less; [lia..|]. intros ????. apply wp_bind.
  apply wp_mono with (Q := λ d', same lo hi (view data) (view d')).
  { destruct (lt _ _); [|apply same_refl]. by apply (wp_Swap_same _ _ _ lo hi). }
  intros d1 Hs1. pose proof (same_zlen _ _ _ _ Hs1).
  apply wp_bind, wp_Less; [lia..|]. intros ????. destruct (lt _ _); [|done].
  apply wp_bind. apply (wp_Swap_same _ _ _ lo hi); [done..|lia|]. intros d2 Hs2.
  pose proof (same_zlen _ _ _ _ Hs2).
  apply wp_bind, wp_Less; [lia..|]. intros ????. destruct (lt _ _); [|by eapply same_trans].
  apply (wp_Swap_same _ _ _ lo hi); [done..|lia|]. intros d3 Hs3.
  eapply same_trans; [done|]. by eapply same_trans.
Qed.

(** [swapRange] exchanges two disjoint blocks. *)
Lemma swapRange_spec data a b n :
  0 <= a → 0 <= n → a + n <= b → b + n <= zlen (view data) →
  swapRange data a b n ⇓ λ d', same a (b + n) (view data) (view d') ∧
    ∀ i, (view d').[i] = (view data).[if decide (a <= i < a + n) then i + (b - a)
                                    else if decide (b <= i < b + n) then i - (b - a) else i].
Proof.
  intros Ha Hn Hab Hb. unfold swapRange.
  apply wp_for_up with (I := λ m d', same a (b + n) (view data) (view d') ∧
    ∀ i, (view d').[i] = (view data).[if decide (a <= i < a + m) then i + (b - a)
                                    else if decide (b <= i < b + m) then i - (b - a) else i]).
  - intros m d1 Hm [Hs H]. pose proof (same_zlen _ _ _ _ Hs).
    apply wp_Swap; [lia..|]. intros d2 Hd2. rewrite Hd2. split.
    { eapply same_trans; [done|]. apply same_swp; lia. }
    intros i. rewrite nthZ_swp, !H by lia.
    repeat case_decide; try lia; f_equal; lia.
  - split; [apply same_refl|]. intros i. by rewrite !decide_False by lia.
  - intros d' [Hs H]. split; [done|]. intros i. rewrite H. by replace (0 `max` n) with n by lia.
Qed.

Definition eqv x y : Prop := le x y ∧ le y x.

(** The invariant of the comment in [doPivot]: [= p | < p | unexamined | > p | = p]. *)
Record pivoted (l0 : list A) (lo hi a b c d : Z) p l : Prop := {
  pv_bounds : lo < a <= b ∧ b <= c ∧ c <= d <= hi;
  pv_same : same lo hi l0 l;
  pv_pivot : l.[lo] = Some p;
  pv_eq_lo : all_in (λ x, eqv x p) l lo a;
  pv_lt : all_in (λ x, lt x p = true) l a b;
  pv_gt : all_in (λ x, lt p x = true) l c d;
  pv_eq_hi : all_in (λ x, eqv x p) l d hi;
}.

(** Splits the reading of an exchanged list into its three cases. *)
Ltac swp_cases H :=
  rewrite nthZ_swp in H by lia; repeat case_decide; subst.

Context (l0 : list A) (lo hi : Z) (p : A).
Hypothesis Hlo : 0 <= lo.
Hypothesis Hhi : hi <= zlen l0.
Abbreviation pv := (pivoted l0 lo hi).

Lemma pivot_up_spec a b c d data :
  pv a b c d p (view data) →
  pivot_up lo c (a, b, data) ⇓ λ '(a', b', data'),
    pv a' b' c d p (view data') ∧ b <= b'
    ∧ (b' < c → ∀ x, (view data').[b'] = Some x → lt p x = true).
Proof.
  intros Hinv. unfold pivot_up.
  apply wp_loop with (I := λ '(a', b', data'), pv a' b' c d p (view data') ∧ b <= b')
    (meas := λ '(_, b', _), c - b').
  - intros [[a1 b1] d1] [[(?&?&?) Hs Hp Hel Hl Hg Heh] Hb]. pose proof (same_zlen _ _ _ _ Hs).
    destruct (Z.ltb_spec b1 c) as [Hc|Hc]; [|split; [done|lia]].
    apply wp_bind, wp_Less; [lia..|]. intros x p' Hx Hp'. simplify_eq.
    destruct (lt x p) eqn:E1.
    { split; [|lia]. split; [|lia]. split; try done; try lia.
      intros i y Hi Hy. destruct (decide (i = b1)) as [->|]; [congruence|]. by apply (Hl i); [lia|]. }
    apply wp_bind, wp_Less; [lia..|]. intros p' x' Hp' Hx'. simplify_eq.
    destruct (lt p x) eqn:E2; simpl.
    { split; [done|]. split; [done|]. intros _ ??. by simplify_eq. }
    apply wp_bind, wp_Swap; [lia..|]. intros d2 Hd2. simpl. rewrite Hd2.
    split; [|lia]. split; [|lia]. split; try lia.
    + eapply same_trans; [done|]. apply same_swp; lia.
    + rewrite nthZ_swp by lia. by rewrite !decide_False by lia.
    + intros i y Hi Hy. swp_cases Hy; [by simplify_eq|lia|by apply (Hel i); [lia|]].
    + intros i y Hi Hy. swp_cases Hy; [lia| |by apply (Hl i); [lia|]].
      apply (Hl a1); [lia|done].
    + intros i y Hi Hy. swp_cases Hy; [lia..|by apply (Hg i)].
    + intros i y Hi Hy. swp_cases Hy; [lia..|by apply (Heh i)].
  - split; [done|lia].
  - destruct Hinv as [? _ _ _ _ _ _]. lia.
Qed.

Lemma pivot_down_spec a b c d data :
  pv a b c d p (view data) →
  (b < c → ∀ x, (view data).[b] = Some x → lt p x = true) →
  pivot_down lo b c d data ⇓ λ '(c', d', data'),
    pv a b c' d' p (view data') ∧ c' <= c ∧
    (b < c' → b + 1 < c' ∧ (∀ x, (view data').[b] = Some x → lt p x = true)
       ∧ ∀ x, (view data').[c' - 1] = Some x → lt x p = true).
Proof.
  intros Hinv Hgt. unfold pivot_down.
  apply wp_loop with (I := λ '(c', d', data'), pv a b c' d' p (view data') ∧ c' <= c
      ∧ (b < c' → ∀ x, (view data').[b] = Some x → lt p x = true))
    (meas := λ '(c', _, _), c' - b).
  - intros [[c1 d1] data1] ([(?&?&?) Hs Hp Hel Hl Hg Heh] & Hc & Hgt1).
    pose proof (same_zlen _ _ _ _ Hs).
    destruct (Z.ltb_spec b c1) as [Hbc|Hbc]; [|split; [done|lia]].
    destruct (nthZ_is_Some (view data1) b) as [xb Hxb]; [lia|].
    specialize (Hgt1 Hbc _ Hxb).
    apply wp_bind, wp_Less; [lia..|]. intros p' x Hp' Hx. simplify_eq.
    destruct (lt p x) eqn:E1.
    { split; [|lia]. split; [|split; [lia|intros _ ??; by simplify_eq]]. split; try done; try lia.
      intros i y Hi Hy. destruct (decide (i = c1 - 1)) as [->|]; [congruence|]. by apply (Hg i); [lia|]. }
    assert (c1 - 1 ≠ b) by (intros Heq; rewrite <- Heq in Hxb; congruence).
    apply wp_bind, wp_Less; [lia..|]. intros x' p' Hx' Hp'. simplify_eq.
    destruct (lt x p) eqn:E2; simpl.
    { split; [done|]. split; [done|]. intros _. split; [lia|]. split; intros ??; by simplify_eq. }
    apply wp_bind, wp_Swap; [lia..|]. intros d2 Hd2. simpl. rewrite Hd2.
    split; [|lia]. split; [split; try lia|split; [lia|]].
    + eapply same_trans; [done|]. apply same_swp; lia.
    + rewrite nthZ_swp by lia. by rewrite !decide_False by lia.
    + intros i y Hi Hy. swp_cases Hy; [lia..|by apply (Hel i)].
    + intros i y Hi Hy. swp_cases Hy; [lia..|by apply (Hl i)].
    + intros i y Hi Hy. swp_cases Hy; [|lia|by apply (Hg i); [lia|]].
      destruct (decide (d1 = c1)) as [->|]; [lia|]. apply (Hg (d1 - 1)); [lia|done].
    + intros i y Hi Hy. swp_cases Hy; [| |by apply (Heh i); [lia|]].
      * assert (d1 = c1) as -> by lia. by simplify_eq.
      * by simplify_eq.
    + intros _ y Hy. swp_cases Hy; [lia|lia|congruence].
  - split; [done|]. split; [lia|done].
  - destruct Hinv as [? _ _ _ _ _ _]. lia.
Qed.
End quicksort.

Section quicksort_total.
Context {W : Host} {D A : Type} {I : Interface D} {L : SortLaws D A}.
Implicit Types (d data : D) (i j a b c m : Z) (x y z p : A) (l k : list A).

(** A block of [P]s followed by a block of [Q]s: exchanging the shorter one
    with the far end of the longer one brings the [Q]s in front. *)
Lemma swapRange_blocks (P Q : A → Prop) data a m b n :
  n = min (b - m) (m - a) → 0 <= a → a <= m <= b → b <= zlen (view data) →
  all_in P (view data) a m → all_in Q (view data) m b →
  swapRange data a (b - n) n ⇓ λ d', same a b (view data) (view d')
    ∧ all_in Q (view d') a (a + (b - m)) ∧ all_in P (view d') (a + (b - m)) b.
Proof.
  intros Hn Ha Hm Hb HP HQ.
  assert (n <= b - m ∧ n <= m - a ∧ (n = b - m ∨ n = m - a)) as Hn'.
  { subst n. unfold min. destruct (Z.ltb_spec (b - m) (m - a)); lia. }
  eapply wp_mono; [apply swapRange_spec; lia|].
  intros d' [Hs H]. split; [by eapply same_weaken; [done|lia..]|].
  split; intros i x Hi Hx; rewrite H in Hx; repeat case_decide; try lia.
  - apply (HQ (i + (b - n - a))); [lia|done].
  - apply (HQ i); [lia|done].
  - apply (HP (i - (b - n - a))); [lia|done].
  - apply (HP i); [lia|done].
Qed.

Lemma pivoted_init data lo hi p l0 :
  lo < hi → same lo hi l0 (view data) → (view data).[lo] = Some p →
  pivoted l0 lo hi (lo + 1) (lo + 1) hi hi p (view data).
Proof.
  intros Hlt Hs Hp. split; try done; try lia.
  - intros i x Hi Hx. assert (i = lo) as -> by lia. simplify_eq. split; apply le_refl.
  - intros i x Hi. lia.
  - intros i x Hi. lia.
  - intros i x Hi. lia.
Qed.

(** One turn of the main loop of [doPivot], and the whole loop. *)
Lemma doPivot_loop data lo hi p l0 :
  0 <= lo → lo < hi → hi <= zlen l0 → same lo hi l0 (view data) → (view data).[lo] = Some p →
  loop (S (Z.to_nat (hi - lo))) (λ '(a, b, c, d, data),
    '(a, b, data) ← pivot_up lo c (a, b, data);
    '(c, d, data) ← pivot_down lo b c d data;
    if c <=? b then Ret (inr (a, b, c, d, data)) else
    data ← Swap data b (c - 1);
    Ret (inl (a, b + 1, c - 1, d, data))) (lo + 1, lo + 1, hi, hi, data)
  ⇓ λ '(a, b, c, d, data'), b = c ∧ pivoted l0 lo hi a b c d p (view data').
Proof.
  intros Hlo Hlt Hhi Hs0 Hp0.
  apply wp_loop with (I := λ '(a, b, c, d, data'), pivoted l0 lo hi a b c d p (view data'))
    (meas := λ '(_, b, c, _, _), c - b).
  - intros [[[[a b] c] d] d1] Hinv. apply wp_bind.
    eapply wp_mono; [by apply (pivot_up_spec l0 lo hi p Hlo Hhi a b c d)|].
    intros [[a1 b1] d2] (Hinv1 & Hb1 & Hgt). apply wp_bind.
    eapply wp_mono; [by apply (pivot_down_spec l0 lo hi p Hlo Hhi a1 b1 c d)|].
    intros [[c1 dd1] d3] (Hinv2 & Hc1 & Hne).
    pose proof Hinv2 as [(?&?&?) Hs Hp Hel Hl Hg Heh].
    pose proof (same_zlen _ _ _ _ Hs).
    destruct (Z.leb_spec c1 b1) as [Hcb|Hcb]; [split; [lia|done]|].
    destruct (Hne Hcb) as (Hbc & Hgtb & Hltc).
    apply wp_bind, wp_Swap; [lia..|]. intros d4 Hd4. simpl. rewrite Hd4.
    split; [|lia]. split; try lia.
    + eapply same_trans; [done|]. apply same_swp; lia.
    + rewrite nthZ_swp by lia. by rewrite !decide_False by lia.
    + intros i y Hi Hy. rewrite nthZ_swp in Hy by lia. repeat case_decide; try lia. by apply (Hel i).
    + intros i y Hi Hy. rewrite nthZ_swp in Hy by lia. repeat case_decide; try lia; [by apply Hltc|].
      apply (Hl i); [lia|done].
    + intros i y Hi Hy. rewrite nthZ_swp in Hy by lia. repeat case_decide; try lia; [by apply Hgtb|].
      apply (Hg i); [lia|done].
    + intros i y Hi Hy. rewrite nthZ_swp in Hy by lia. repeat case_decide; try lia. by apply (Heh i).
  - by apply pivoted_init.
  - lia.
Qed.

(** The partition [doPivot] leaves: [<= p | = p | >= p], the middle not empty. *)
Definition partitioned (lo hi mlo mhi : Z) l : Prop :=
  lo <= mlo < mhi ∧ mhi <= hi ∧ ∃ p,
    all_in (λ x, le x p) l lo mlo ∧ all_in (λ x, le x p ∧ le p x) l mlo mhi
    ∧ all_in (λ x, le p x) l mhi hi.

Lemma ninther_spec data lo hi :
  0 <= lo → lo < hi → hi <= zlen (view data) →
  (if 40 <? hi - lo then
    data ← medianOfThree data lo (lo + Z.quot (hi - lo) 8) (lo + 2 * Z.quot (hi - lo) 8);
    data ← medianOfThree data (lo + Z.quot (hi - lo) 2) (lo + Z.quot (hi - lo) 2 - Z.quot (hi - lo) 8)
             (lo + Z.quot (hi - lo) 2 + Z.quot (hi - lo) 8);
    medianOfThree data (hi - 1) (hi - 1 - Z.quot (hi - lo) 8) (hi - 1 - 2 * Z.quot (hi - lo) 8)
   else Ret data) ⇓ λ d', same lo hi (view data) (view d').
Proof.
  intros Hlo Hlt Hhi. destruct (Z.ltb_spec 40 (hi - lo)); [|apply same_refl].
  apply wp_bind. eapply wp_mono; [apply (medianOfThree_spec _ _ _ _ lo hi); lia_div|].
  intros d1 Hs1. pose proof (same_zlen _ _ _ _ Hs1). apply wp_bind.
  eapply wp_mono; [apply (medianOfThree_spec _ _ _ _ lo hi); lia_div|].
  intros d2 Hs2. pose proof (same_zlen _ _ _ _ Hs2).
  eapply wp_mono; [apply (medianOfThree_spec _ _ _ _ lo hi); lia_div|].
  intros d3 Hs3. eapply same_trans; [exact Hs1|]. by eapply same_trans; [exact Hs2|].
Qed.

Lemma doPivot_spec data lo hi :
  0 <= lo → lo < hi → hi <= zlen (view data) → hi < 2 ^ (int_bits - 1) →
  doPivot data lo hi ⇓ λ '(d', (mlo, mhi)),
    same lo hi (view data) (view d') ∧ partitioned lo hi mlo mhi (view d').
Proof.
  intros Hlo Hlt Hhi Hint. unfold doPivot. rewrite !int_small by lia_div. apply wp_bind.
  eapply wp_mono; [by apply ninther_spec|].
  intros d1 Hs1. pose proof (same_zlen _ _ _ _ Hs1). apply wp_bind.
  eapply wp_mono; [apply (medianOfThree_spec _ _ _ _ lo hi); lia_div|].
  intros d2 Hs2. pose proof (same_zlen _ _ _ _ Hs2).
  destruct (nthZ_is_Some (view d2) lo) as [p Hp]; [lia|].
  apply wp_bind. eapply wp_mono.
  { apply (doPivot_loop d2 lo hi p (view data)); try done. eapply same_trans; [exact Hs1|exact Hs2]. }
  intros [[[[a b] c] d] d3] (<- & [(?&?&?) Hs Hp3 Hel Hl Hg Heh]).
  pose proof (same_zlen _ _ _ _ Hs). apply wp_bind.
  eapply wp_mono; [by apply (swapRange_blocks (λ x, eqv x p) (λ x, lt x p = true) d3 lo a b); [..|lia| | |]; try lia|].
  intros d4 (Hs4 & Hlt4 & Heq4). pose proof (same_zlen _ _ _ _ Hs4). apply wp_bind.
  eapply wp_mono; [apply (swapRange_blocks (λ x, lt p x = true) (λ x, eqv x p) d4 b d hi); try done; try lia|].
  - intros i x Hi Hx. rewrite (proj2 Hs4) in Hx by lia. by apply (Hg i).
  - intros i x Hi Hx. rewrite (proj2 Hs4) in Hx by lia. by apply (Heh i); [lia|].
  - intros d5 (Hs5 & Heq5 & Hgt5). simpl. split.
    { eapply same_trans; [exact Hs|]. eapply same_trans; (eapply same_weaken; [first [exact Hs4|exact Hs5]|lia..]). }
    rewrite swrap_sub_l, int_small by lia.
    split; [lia|]. split; [lia|]. exists p. split; [|split].
    + intros i x Hi Hx. rewrite (proj2 Hs5) in Hx by lia. apply lt_le. by apply (Hlt4 i); [lia|].
    + intros i x Hi Hx. destruct (decide (i < b)).
      * rewrite (proj2 Hs5) in Hx by lia. by apply (Heq4 i); [lia|].
      * by apply (Heq5 i); [lia|].
    + intros i x Hi Hx. apply lt_le. by apply (Hgt5 i); [lia|].
Qed.

Lemma partitioned_same l k a b mlo mhi a' b' :
  partitioned a b mlo mhi l → 0 <= a → b <= zlen l → same a' b' l k →
  (a' = a ∧ b' = mlo ∨ a' = mhi ∧ b' = b) →
  partitioned a b mlo mhi k.
Proof.
  intros (? & ? & p & H1 & H2 & H3) Ha Hb Hs Hc.
  split; [done|]. split; [done|]. exists p.
  split; [|split]; (eapply all_in_same; [exact Hs|lia|lia|lia|done]).
Qed.

Lemma partitioned_sorted l a b mlo mhi :
  partitioned a b mlo mhi l → sorted l a mlo → sorted l mhi b → sorted l a b.
Proof.
  intros (? & ? & p & H1 & H2 & H3). by apply (sorted_join l a mlo mhi b p); [lia|lia|..].
Qed.

Lemma quickSort_fuel_spec fuel data a b maxDepth :
  0 <= a <= b → b <= zlen (view data) → zlen (view data) < 2 ^ (int_bits - 2) → b - a < Z.of_nat fuel →
  sorts (λ d a b, quickSort_fuel fuel d a b maxDepth) data a b.
Proof.
  unfold sorts. pose proof int_range as [_ Hint]. revert data a b maxDepth.
  induction fuel as [|fuel IH]; intros data a b maxDepth Ha Hb Hn Hf; [lia|]. simpl.
  destruct (Z.ltb_spec 7 (b - a)) as [H7|H7].
  - destruct (maxDepth =? 0); [by apply heapSort_spec; [..|lia]|].
    apply wp_bind. eapply wp_mono; [apply doPivot_spec; lia|].
    intros [d1 [mlo mhi]] [Hs1 Hp1]. pose proof (same_zlen _ _ _ _ Hs1).
    pose proof Hp1 as (? & ? & _).
    assert (∀ d2 d3 a1 b1 a2 b2, same a1 b1 (view d1) (view d2) → same a2 b2 (view d2) (view d3) →
      (a1 = a ∧ b1 = mlo ∧ a2 = mhi ∧ b2 = b ∨ a1 = mhi ∧ b1 = b ∧ a2 = a ∧ b2 = mlo) →
      sorted (view d2) a1 b1 → sorted (view d3) a2 b2 →
      same a b (view data) (view d3) ∧ sorted (view d3) a b) as Hjoin.
    { intros d2 d3 a1 b1 a2 b2 Hs2 Hs3 Hc Hd2 Hd3.
      pose proof (same_zlen _ _ _ _ Hs2). split.
      - eapply same_trans; [exact Hs1|].
        eapply same_trans; (eapply same_weaken; [first [exact Hs2|exact Hs3]|lia..]).
      - assert (sorted (view d3) a1 b1) by (eapply sorted_same; [exact Hs3|lia|done]).
        assert (partitioned a b mlo mhi (view d3)).
        { assert (partitioned a b mlo mhi (view d2)) as Hp2.
          { eapply partitioned_same; [exact Hp1|lia|lia|exact Hs2|lia]. }
          eapply partitioned_same; [exact Hp2|lia|lia|exact Hs3|lia]. }
        destruct Hc as [(-> & -> & -> & ->)|(-> & -> & -> & ->)]; by eapply partitioned_sorted. }
    destruct (mlo - a <? b - mhi); apply wp_bind.
    + eapply wp_mono; [apply (IH d1 a mlo); lia|]. intros d2 [Hs2 Hd2].
      pose proof (same_zlen _ _ _ _ Hs2).
      eapply wp_mono; [apply (IH d2 mhi b); lia|]. intros d3 [Hs3 Hd3].
      eapply Hjoin; [exact Hs2|exact Hs3| |done|done]. lia.
    + eapply wp_mono; [apply (IH d1 mhi b); lia|]. intros d2 [Hs2 Hd2].
      pose proof (same_zlen _ _ _ _ Hs2).
      eapply wp_mono; [apply (IH d2 a mlo); lia|]. intros d3 [Hs3 Hd3].
      eapply Hjoin; [exact Hs2|exact Hs3| |done|done]. lia.
  - destruct (Z.ltb_spec 1 (b - a)); [apply insertionSort_spec; lia|].
    split; [apply same_refl|]. by apply sorted_short.
Qed.

Lemma maxDepth_spec n :
  while (Z.to_nat (Z.log2 n + 2)) (λ '(i, _), Ret (0 <? i))
    (λ '(i, maxDepth), Ret (Z.shiftr i 1, maxDepth + 1)) (n, 0) ⇓ λ _, True.
Proof.
  pose proof (Z.log2_nonneg n).
  apply wp_while with (I := λ _, True) (meas := λ '(i, _), if decide (0 < i) then Z.log2 i + 1 else 0).
  - intros [i k] _. simpl. destruct (Z.ltb_spec 0 i); [|done]. simpl. split; [done|].
    rewrite Z.shiftr_div_pow2 by lia. change (2 ^ 1) with 2.
    rewrite (decide_True (P := 0 < i)) by lia.
    pose proof (Z.log2_nonneg i).
    case_decide as Hi; [|lia].
    assert (2 <= i) by lia_div.
    replace (i / 2) with (Z.shiftr i 1) by (by rewrite Z.shiftr_div_pow2 by lia).
    pose proof (Z.log2_le_mono 2 i ltac:(done)) as Hl2. change (Z.log2 2) with 1 in Hl2.
    rewrite Z.log2_shiftr by lia. lia.
  - done.
  - case_decide; lia.
Qed.
End quicksort_total.

(** * Correctness of [Sort] *)

Section sort_correct.
Context {W : Host} {D A : Type} {I : Interface D} {L : SortLaws D A}.
Implicit Types (data : D).

Lemma Sort_spec data :
  zlen (view data) < 2 ^ (int_bits - 2) →
  Sort data ⇓ λ d', view data ≡ₚ view d' ∧ sorted (view d') 0 (zlen (view d')).
Proof.
  intros Hn. unfold Sort. rewrite Len_view. pose proof (zlen_nonneg (view data)).
  apply wp_bind. eapply wp_mono; [apply maxDepth_spec|]. intros [i depth] _.
  eapply wp_mono; [apply quickSort_fuel_spec; lia|].
  intros d' [Hs Hd]. rewrite (same_zlen _ _ _ _ Hs). split; [apply Hs|done].
Qed.

Lemma IsSorted_spec data :
  IsSorted data ⇓ λ r, r = true ↔ sorted (view data) 0 (zlen (view data)).
Proof.
  unfold IsSorted. rewrite Len_view. pose proof (zlen_nonneg (view data)).
  set (l := view data) in *. set (n := zlen l) in *.
  apply wp_loop with (I := λ i, i < n ∧ (0 <= i ∨ n = 0) ∧ sorted l (Z.max i 0) n) (meas := λ i, i + 1).
  - intros i (Hi & Hi0 & Hs). destruct (Z.ltb_spec 0 i) as [Hpos|Hpos].
    + apply wp_bind, wp_Less; [fold l; lia..|]. fold l. intros x y Hx Hy.
      destruct (lt x y) eqn:E; simpl.
      * split; [done|]. intros Hall. assert (le y x) by (apply (Hall (i - 1) i); [lia|lia|done|done]).
        unfold le in *. congruence.
      * split; [|lia]. split; [lia|]. split; [lia|].
        intros p q u v Hp Hq Hu Hv.
        destruct (decide (p = i - 1)) as [->|]; [|apply (Hs p q); [lia|lia|done|done]].
        assert (u = y) as -> by congruence. apply le_trans with x; [done|].
        destruct (decide (q = i)) as [->|]; [assert (v = x) as -> by congruence; apply le_refl|].
        apply (Hs i q); [lia|lia|done|done].
    + split; [intros _|done]. intros p q u v Hp Hq. apply Hs; lia.
  - split; [lia|]. split; [lia|]. apply sorted_short. lia.
  - lia.
Qed.
End sort_correct.
