(* ===== verification/SortStable.v ===== *)
(** The stable sort of package [sort]: [rotate], [symMerge] and [Stable] of
    [src/src/sort/sort.go], and the binary search of [src/src/sort/search.go]. *)
From S2P Require Import Prelude.
From S2P Require Import Sort.

Abbreviation int := (swrap int_bits) (only parsing).

(** The loop shared by [Search] and [symMerge]:
    [for i < j { h := i + (j-i)/2; if test(h) { i = h + 1 } else { j = h } }]. *)
Definition bisect {W : Host} (test : Z → go bool) (i j : Z) : go Z :=
  '(i, _) ← while (S (Z.to_nat (j - i)))
    (λ '(i, j), Ret (i <? j))
    (λ '(i, j),
      let h := int (i + Z.quot (j - i) 2) in
      t ← test h;
      Ret (if (t : bool) then (h + 1, j) else (i, h))) (i, j);
  Ret i.

Definition Search {W : Host} (n : Z) (f : Z → go bool) : go Z :=
  bisect (λ h, t ← f h; Ret (negb t)) 0 n.

Definition SearchInts {W : Host} (a : list Z) (x : Z) : go Z :=
  Search (zlen a) (λ i, y ← idx a i; Ret (x <=? y)).

Section stable_algorithms.
Context {W : Host} {D : Type} {I : Interface D}.
Implicit Types (data : D) (a b m : Z).

Definition rotate data a m b : go D :=
  let i := m - a in
  let j := b - m in
  '(i, j, data) ← while (S (Z.to_nat (b - a)))
    (λ '(i, j, data), Ret (negb (i =? j)))
    (λ '(i, j, data),
      if j <? i then
        data ← swapRange data (m - i) m j;
        Ret (i - j, j, data)
      else
        data ← swapRange data (m - i) (m + j - i) i;
        Ret (i, j - i, data)) (i, j, data);
  swapRange data (m - i) m i.

Fixpoint symMerge_fuel (fuel : nat) data a m b : go D :=
  match fuel with
  | O => NoFuel
  | S fuel =>
    if m - a =? 1 then
      i ← bisect (λ h, Less data h a) m b;
      for_up a (i - 1) (λ k data, Swap data k (k + 1)) data
    else if b - m =? 1 then
      i ← bisect (λ h, t ← Less data m h; Ret (negb t)) a m;
      for_down m (i + 1) (λ k data, Swap data k (k - 1)) data
    else
      let mid := int (a + Z.quot (b - a) 2) in
      let n := int (mid + m) in
      let '(start, r) := if mid <? m then (int (n - b), mid) else (a, m) in
      let p := int (n - 1) in
      start ← bisect (λ c, t ← Less data (int (p - c)) c; Ret (negb t)) start r;
      let end_ := int (n - start) in
      data ← (if (start <? m) && (m <? end_) then rotate data start m end_ else Ret data);
      data ← (if (a <? start) && (start <? mid) then symMerge_fuel fuel data a start mid else Ret data);
      if (mid <? end_) && (end_ <? b) then symMerge_fuel fuel data mid end_ b else Ret data
  end.
Definition symMerge data a m b : go D := symMerge_fuel (S (Z.to_nat (b - a))) data a m b.

(** One pass of the merging loop of [Stable]. *)
Definition mergePass data (blockSize n : Z) : go D :=
  '(a, b, data) ← while (S (Z.to_nat n))
    (λ '(a, b, data), Ret (b <=? n))
    (λ '(a, b, data),
      data ← symMerge data a (int (a + blockSize)) b;
      Ret (b, int (b + int (2 * blockSize)), data)) (0, int (2 * blockSize), data);
  let m := int (a + blockSize) in
  if m <? n then symMerge data a m n else Ret data.

Definition Stable data : go D :=
  let n := Len data in
  let blockSize := 20 in
  '(a, b, data) ← while (S (Z.to_nat n))
    (λ '(a, b, data), Ret (b <=? n))
    (λ '(a, b, data),
      data ← insertionSort data a b;
      Ret (b, int (b + blockSize), data)) (0, blockSize, data);
  data ← insertionSort data a n;
  '(_, data) ← while (S (Z.to_nat n))
    (λ '(blockSize, data), Ret (blockSize <? n))
    (λ '(blockSize, data),
      data ← mergePass data blockSize n;
      Ret (int (blockSize * 2), data)) (blockSize, data);
  Ret data.
End stable_algorithms.

(** * Binary search *)

Lemma bisect_spec {W : Host} (test : Z → go bool) (T F : Z → Prop) i0 j0 :
  0 <= i0 <= j0 → j0 < 2 ^ (int_bits - 1) →
  (∀ h, i0 <= h < j0 → test h ⇓ λ t, if (t : bool) then T h else F h) →
  bisect test i0 j0 ⇓ λ r, i0 <= r <= j0 ∧ (r = i0 ∨ T (r - 1)) ∧ (r = j0 ∨ F r).
Proof.
  intros H0 Hint Htest. unfold bisect. apply wp_bind.
  apply wp_while with (I := λ '(i, j), i0 <= i <= j ∧ j <= j0 ∧ (i = i0 ∨ T (i - 1)) ∧ (j = j0 ∨ F j))
    (meas := λ '(i, j), j - i).
  - intros [i j] (Hi & Hj & Hl & Hr). simpl. destruct (Z.ltb_spec i j) as [Hij|Hij].
    + rewrite int_small by lia_div. set (h := i + Z.quot (j - i) 2). assert (i <= h < j) by (subst h; lia_div).
      cbv zeta. apply wp_bind. eapply wp_mono; [apply Htest; lia|].
      intros [] Ht; simpl; (split; [|lia]).
      * replace (h + 1 - 1) with h by lia. split; [lia|]. split; [lia|]. auto.
      * split; [lia|]. split; [lia|]. auto.
    + simpl. assert (j = i) as -> by lia. split; [lia|done].
  - split; [lia|]. auto with lia.
  - lia.
Qed.

(** * Rotation *)

(** [k] is [l] with the blocks [a, m) and [m, b) exchanged. *)
Definition rotated {A} (a m b : Z) (l k : list A) : Prop :=
  ∀ p, k.[p] = l.[if decide (a <= p < a + (b - m)) then p + (m - a)
                  else if decide (a + (b - m) <= p < b) then p - (b - m) else p].

Section rotated.
Context {A : Type}.
Implicit Types (l k : list A) (a m b : Z).

Lemma rotated_list a m b l k :
  0 <= a <= m → m <= b <= zlen l → rotated a m b l k →
  ∃ l1 u v l2, l = l1 ++ u ++ v ++ l2 ∧ k = l1 ++ v ++ u ++ l2
    ∧ zlen l1 = a ∧ zlen u = m - a ∧ zlen v = b - m.
Proof.
  intros Ha Hb Hr.
  set (l1 := take (Z.to_nat a) l). set (u := take (Z.to_nat (m - a)) (drop (Z.to_nat a) l)).
  set (v := take (Z.to_nat (b - m)) (drop (Z.to_nat m) l)). set (l2 := drop (Z.to_nat b) l).
  assert (zlen l1 = a) as H1 by (apply zlen_take; lia).
  assert (zlen u = m - a) as Hu by (apply zlen_take; rewrite zlen_drop; lia).
  assert (zlen v = b - m) as Hv by (apply zlen_take; rewrite zlen_drop; lia).
  assert (l = l1 ++ u ++ v ++ l2) as Hl.
  { subst l1 u v l2. replace (Z.to_nat b) with (Z.to_nat m + Z.to_nat (b - m))%nat by lia.
    rewrite <- drop_drop, take_drop.
    replace (Z.to_nat m) with (Z.to_nat a + Z.to_nat (m - a))%nat by lia.
    by rewrite <- drop_drop, !take_drop. }
  exists l1, u, v, l2. split; [done|]. split; [|done].
  apply nthZ_ext. intros p. rewrite Hr, Hl.
  rewrite !nthZ_app, ?zlen_app, !H1, !Hu, !Hv.
  repeat (case_decide; try lia); try done; f_equal; lia.
Qed.

Lemma rotated_same a m b l k :
  0 <= a <= m → m <= b <= zlen l → rotated a m b l k → same a b l k.
Proof.
  intros Ha Hb Hr. split.
  - destruct (rotated_list a m b l k Ha Hb Hr) as (l1 & u & v & l2 & -> & -> & _).
    solve_Permutation.
  - intros i Hi. rewrite Hr. by rewrite !decide_False by lia.
Qed.

Lemma rotated_id a m b l : m = a ∨ m = b → rotated a m b l l.
Proof. intros H p. repeat (case_decide; try lia); f_equal; lia. Qed.

(** Exchanging equal ends of the two blocks leaves a smaller rotation to do. *)
Lemma rotated_step_left a m b l l1 k n :
  a <= m <= b → n = b - m → n < m - a →
  (∀ i, l1.[i] = l.[if decide (a <= i < a + n) then i + (m - a)
                    else if decide (m <= i < m + n) then i - (m - a) else i]) →
  rotated (a + n) m b l1 k → rotated a m b l k.
Proof.
  intros H -> Hn Hl1 Hr p. rewrite Hr, Hl1.
  repeat (case_decide; try lia); f_equal; lia.
Qed.
Lemma rotated_step_right a m b l l1 k n :
  a <= m <= b → n = m - a → n < b - m →
  (∀ i, l1.[i] = l.[if decide (a <= i < a + n) then i + (b - n - a)
                    else if decide (b - n <= i < b - n + n) then i - (b - n - a) else i]) →
  rotated a m (b - n) l1 k → rotated a m b l k.
Proof.
  intros H -> Hn Hl1 Hr p. rewrite Hr, Hl1.
  repeat (case_decide; try lia); f_equal; lia.
Qed.
End rotated.

Section stable.
Context {W : Host} {D A : Type} {I : Interface D} {L : SortLaws D A}.
Implicit Types (data : D) (a b c m p q : Z) (x y z : A) (l k : list A).

Lemma rotate_spec data a m b :
  0 <= a → a < m < b → b <= zlen (view data) →
  rotate data a m b ⇓ λ d', rotated a m b (view data) (view d').
Proof.
  intros Ha Hm Hb. unfold rotate. apply wp_bind.
  apply wp_while with (I := λ '(i, j, d'), 0 < i ∧ 0 < j ∧ a <= m - i ∧ m + j <= b ∧
      zlen (view d') = zlen (view data) ∧
      ∀ k, rotated (m - i) m (m + j) (view d') k → rotated a m b (view data) k)
    (meas := λ '(i, j, _), i + j).
  - intros [[i j] d1] (Hi & Hj & Hai & Hbj & Hl & Hr). simpl.
    destruct (Z.eqb_spec i j) as [<-|Hij]; simpl.
    + eapply wp_mono; [apply swapRange_spec; lia|].
      intros d2 [_ H2]. apply Hr. intros p. rewrite H2.
      repeat (case_decide; try lia); f_equal; lia.
    + destruct (Z.ltb_spec j i) as [Hlt|Hlt]; apply wp_bind.
      * eapply wp_mono; [apply swapRange_spec; lia|]. intros d2 [Hs2 H2]. simpl.
        pose proof (same_zlen _ _ _ _ Hs2). split; [|lia]. repeat split; try lia.
        intros k Hk. apply Hr.
        apply (rotated_step_left (m - i) m (m + j) (view d1) (view d2) k j); try lia.
        -- intros p. rewrite H2. by replace (m - (m - i)) with i by lia.
        -- by replace (m - i + j) with (m - (i - j)) by lia.
      * eapply wp_mono; [apply swapRange_spec; lia|]. intros d2 [Hs2 H2]. simpl.
        pose proof (same_zlen _ _ _ _ Hs2). split; [|lia]. repeat split; try lia.
        intros k Hk. apply Hr.
        apply (rotated_step_right (m - i) m (m + j) (view d1) (view d2) k i); try lia.
        -- intros p. rewrite H2. done.
        -- by replace (m + j - i) with (m + (j - i)) by lia.
  - repeat split; try lia.
    intros k. by replace (m - (m - a)) with a by lia; replace (m + (b - m)) with b by lia.
  - lia.
Qed.

(** Everything in [a, m) against everything in [m, b). *)
Definition cross (P : A → A → Prop) l a m b : Prop :=
  ∀ p q x y, a <= p < m → m <= q < b → l.[p] = Some x → l.[q] = Some y → P x y.

Lemma rotated_stable a m b l k :
  0 <= a <= m → m <= b <= zlen l → rotated a m b l k →
  cross (λ x y, lt y x = true) l a m b → stable l k.
Proof.
  intros Ha Hb Hr Hc.
  destruct (rotated_list a m b l k Ha Hb Hr) as (l1 & u & v & l2 & -> & -> & Hl1 & Hu & Hv).
  apply stable_blocks. intros x y [i Hi]%list_elem_of_lookup [j Hj]%list_elem_of_lookup.
  rewrite lookup_nthZ in Hi, Hj.
  pose proof (nthZ_Some _ _ _ Hi). pose proof (nthZ_Some _ _ _ Hj).
  apply (Hc (a + Z.of_nat i) (m + Z.of_nat j)); try lia.
  - rewrite !nthZ_app, Hl1. rewrite decide_False by lia. rewrite decide_True by lia.
    rewrite <- Hi. f_equal. lia.
  - rewrite !nthZ_app, Hl1, Hu. rewrite !decide_False by lia. rewrite decide_True by lia.
    rewrite <- Hj. f_equal. lia.
Qed.

Lemma sorted_cat l a m b : sorted l a m → sorted l m b → cross le l a m b → sorted l a b.
Proof.
  intros H1 H2 Hc i j x y Hi Hj Hx Hy.
  destruct (decide (j < m)); [apply (H1 i j); [lia|lia|done|done]|].
  destruct (decide (m <= i)); [apply (H2 i j); [lia|lia|done|done]|].
  apply (Hc i j); [lia|lia|done|done].
Qed.
Lemma sorted_sub l a b a' b' : sorted l a b → a <= a' → b' <= b → sorted l a' b'.
Proof. intros H Ha Hb i j x y Hi Hj. apply H; lia. Qed.
Lemma sorted_le l a b i j x y :
  sorted l a b → a <= i <= j → j < b → l.[i] = Some x → l.[j] = Some y → le x y.
Proof.
  intros H Hi Hj Hx Hy. destruct (decide (i = j)) as [->|].
  - assert (x = y) as -> by congruence. apply le_refl.
  - apply (H i j); [lia|lia|done|done].
Qed.
Lemma cross_same (P : A → A → Prop) l k a m b a' b' :
  cross P l a m b → same a' b' l k → 0 <= a → b <= zlen l →
  a' = a ∧ b' = m ∨ a' = m ∧ b' = b → cross P k a m b.
Proof.
  intros Hc Hs Ha Hb Hab p q x y Hp Hq Hx Hy.
  destruct Hab as [[-> ->]|[-> ->]].
  - rewrite (proj2 Hs) in Hy by lia.
    destruct (same_elem _ _ _ _ _ _ Hs ltac:(lia) ltac:(lia) Hp Hx) as (p' & ? & ?).
    by apply (Hc p' q).
  - rewrite (proj2 Hs) in Hx by lia.
    destruct (same_elem _ _ _ _ _ _ Hs ltac:(lia) ltac:(lia) Hq Hy) as (q' & ? & ?).
    by apply (Hc p q').
Qed.

(** What the merging routines promise for a range. *)
Definition stably (a b : Z) d d' : Prop :=
  (same a b (view d) (view d') ∧ stable (view d) (view d')) ∧ sorted (view d') a b.

Lemma bubble_up data a i :
  0 <= a → a < i <= zlen (view data) →
  for_up a (i - 1) (λ j data, Swap data j (j + 1)) data ⇓ λ d',
    rotated a (a + 1) i (view data) (view d').
Proof.
  intros Ha Hi.
  apply wp_for_up with (I := λ j d', rotated a (a + 1) (j + 1) (view data) (view d')
    ∧ zlen (view d') = zlen (view data)).
  - intros j d1 Hk [Hr Hl]. apply wp_Swap; [lia..|]. intros d2 Hd2. rewrite Hd2, zlen_swp.
    split; [|done]. intros p. rewrite nthZ_swp, !Hr by lia.
    repeat (case_decide; try lia); f_equal; lia.
  - split; [|done]. apply rotated_id. lia.
  - intros d' [Hr _]. by replace (a `max` (i - 1) + 1) with i in Hr by lia.
Qed.

Lemma bubble_down data m i :
  0 <= i <= m → m < zlen (view data) →
  for_down m (i + 1) (λ j data, Swap data j (j - 1)) data ⇓ λ d',
    rotated i m (m + 1) (view data) (view d').
Proof.
  intros Hi Hm.
  apply wp_for_down with (I := λ j d', rotated j m (m + 1) (view data) (view d')
    ∧ zlen (view d') = zlen (view data)).
  - intros j d1 Hk [Hr Hl]. apply wp_Swap; [lia..|]. intros d2 Hd2. rewrite Hd2, zlen_swp.
    split; [|done]. intros p. rewrite nthZ_swp, !Hr by lia.
    repeat (case_decide; try lia); f_equal; lia.
  - split; [|done]. apply rotated_id. lia.
  - intros d' [Hr _]. by replace (m `min` (i + 1 - 1)) with i in Hr by lia.
Qed.

(** The merged list, read through the rotation that produced it. *)
Lemma insert_left_sorted l k a i b x :
  a < i <= b → 0 <= a → b <= zlen l → rotated a (a + 1) i l k → l.[a] = Some x →
  sorted l (a + 1) b →
  (∀ y, i = a + 1 ∨ l.[i - 1] = Some y → i = a + 1 ∨ lt y x = true) →
  (∀ y, l.[i] = Some y → i = b ∨ le x y) →
  cross (λ x y, lt y x = true) l a (a + 1) i ∧ sorted k a b.
Proof.
  intros Hi Ha Hb Hr Hx Hs Hl Hg.
  assert (∀ p y, a + 1 <= p < i → l.[p] = Some y → lt y x = true) as Hlt.
  { intros p y Hp Hy. destruct (nthZ_is_Some l (i - 1)) as [z Hz]; [lia|].
    destruct (Hl z (or_intror Hz)); [lia|].
    eapply le_lt_trans; [|done]. apply (sorted_le l (a + 1) b p (i - 1)); [done|lia|lia|done|done]. }
  assert (∀ p y, i <= p < b → l.[p] = Some y → le x y) as Hge.
  { intros p y Hp Hy. destruct (nthZ_is_Some l i) as [z Hz]; [lia|].
    destruct (Hg z Hz); [lia|]. apply le_trans with z; [done|].
    apply (sorted_le l (a + 1) b i p); [done|lia|lia|done|done]. }
  split.
  - intros p q u v Hp Hq Hu Hv. assert (p = a) as -> by lia. assert (u = x) as -> by congruence.
    by apply (Hlt q).
  - intros p q u v Hp Hq Hu Hv. rewrite Hr in Hu, Hv.
    repeat (case_decide; try lia).
    all: try (replace (p - (i - (a + 1))) with a in Hu by lia; assert (u = x) as -> by congruence).
    all: try (replace (q - (i - (a + 1))) with a in Hv by lia; assert (v = x) as -> by congruence).
    + eapply (sorted_le l (a + 1) b); [done| | |exact Hu|exact Hv]; lia.
    + apply lt_le. by apply (Hlt (p + (a + 1 - a))); [lia|].
    + eapply (sorted_le l (a + 1) b); [done| | |exact Hu|exact Hv]; lia.
    + by apply (Hge q); [lia|].
    + eapply (sorted_le l (a + 1) b); [done| | |exact Hu|exact Hv]; lia.
Qed.

Lemma insert_right_sorted l k a i m y :
  a <= i <= m → 0 <= a → m < zlen l → rotated i m (m + 1) l k → l.[m] = Some y →
  sorted l a m →
  (∀ x, l.[i - 1] = Some x → i = a ∨ le x y) →
  (∀ x, l.[i] = Some x → i = m ∨ lt y x = true) →
  cross (λ x y, lt y x = true) l i m (m + 1) ∧ sorted k a (m + 1).
Proof.
  intros Hi Ha Hb Hr Hy Hs Hl Hg.
  assert (∀ p x, a <= p < i → l.[p] = Some x → le x y) as Hle.
  { intros p x Hp Hx. destruct (nthZ_is_Some l (i - 1)) as [z Hz]; [lia|].
    destruct (Hl z Hz); [lia|]. apply le_trans with z; [|done].
    apply (sorted_le l a m p (i - 1)); [done|lia|lia|done|done]. }
  assert (∀ p x, i <= p < m → l.[p] = Some x → lt y x = true) as Hgt.
  { intros p x Hp Hx. destruct (nthZ_is_Some l i) as [z Hz]; [lia|].
    destruct (Hg z Hz); [lia|]. eapply lt_le_trans; [done|].
    apply (sorted_le l a m i p); [done|lia|lia|done|done]. }
  split.
  - intros p q u v Hp Hq Hu Hv. assert (q = m) as -> by lia. assert (v = y) as -> by congruence.
    by apply (Hgt p).
  - intros p q u v Hp Hq Hu Hv. rewrite Hr in Hu, Hv.
    repeat (case_decide; try lia).
    all: try (replace (p + (m - i)) with m in Hu by lia; assert (u = y) as -> by congruence).
    all: try (replace (q + (m - i)) with m in Hv by lia; assert (v = y) as -> by congruence).
    all: first [by apply (Hle p); [lia|]
               | apply lt_le; by apply (Hgt (q - (m + 1 - m))); [lia|]
               | eapply (sorted_le l a m); [done| | |exact Hu|exact Hv]; lia].
Qed.

(** ** The symmetric split of [symMerge]

    [start] splits [a, m) and its mirror image [end_ = mid + m - start] splits
    [m, b): what is to the left of both is at most what is to their right. *)
Record symmetric_split l (a m b mid start end_ : Z) : Prop := {
  ss_sum : start + end_ = mid + m;
  ss_start : a <= start <= m ∧ start <= mid;
  ss_end : m <= end_ <= b ∧ mid <= end_;
  ss_below : start = a ∨ end_ = b ∨
    ∀ x y, l.[start - 1] = Some x → l.[end_] = Some y → le x y;
  ss_above : start = m ∨ start = mid ∨
    ∀ x y, l.[start] = Some x → l.[end_ - 1] = Some y → lt y x = true;
}.

Lemma symmetric_split_found data a m b mid r start0 :
  mid = a + Z.quot (b - a) 2 → 0 <= a → a < m < b → b <= zlen (view data) → zlen (view data) < 2 ^ (int_bits - 1) →
  (start0, r) = (if mid <? m then (mid + m - b, mid) else (a, m)) →
  bisect (λ c, t ← Less data (int (int (mid + m - 1) - c)) c; Ret (negb t)) start0 r ⇓ λ start,
    symmetric_split (view data) a m b mid start (mid + m - start).
Proof.
  intros Hmid Ha Hm Hb Hint Hr. set (l := view data) in *.
  assert (a <= start0 <= r ∧ r <= m ∧ r <= mid ∧ (start0 = a ∨ start0 = mid + m - b)
          ∧ mid + m - start0 <= b ∧ m <= mid + m - r ∧ (r = m ∨ r = mid)) as Hb0.
  { destruct (Z.ltb_spec mid m); injection Hr as -> ->; lia_div. }
  eapply wp_mono.
  - apply bisect_spec with
      (T := λ c, ∀ x y, l.[c] = Some x → l.[mid + m - 1 - c] = Some y → le x y)
      (F := λ c, ∀ x y, l.[c] = Some x → l.[mid + m - 1 - c] = Some y → lt y x = true); [lia..|].
    intros c Hc. rewrite swrap_sub_l, int_small by lia. apply wp_bind, wp_Less; [fold l; lia..|]. fold l. intros y x Hy Hx.
    destruct (lt y x) eqn:E; simpl; intros u v Hu Hv; simplify_eq; done.
  - intros start (Hs & Hbelow & Habove). split; try lia.
    + destruct Hbelow as [->|Hbelow]; [lia|]. right; right. intros x y Hx Hy.
      apply (Hbelow x y); [done|]. rewrite <- Hy. f_equal. lia.
    + destruct Habove as [->|Habove]; [lia|]. right; right. intros x y Hx Hy.
      apply (Habove x y); [done|]. rewrite <- Hy. f_equal. lia.
Qed.

(** After the rotation the range falls into four sorted pieces, and the two
    to the left of [mid] are at most the two to its right. *)
Lemma symmetric_split_pieces l k a m b mid start end_ :
  symmetric_split l a m b mid start end_ → 0 <= a → b <= zlen l →
  sorted l a m → sorted l m b → rotated start m end_ l k →
  cross (λ x y, lt y x = true) l start m end_ ∧
  sorted k a start ∧ sorted k start mid ∧ sorted k mid end_ ∧ sorted k end_ b ∧ cross le k a mid b.
Proof.
  intros [Hsum [Hs1 Hs2] [He1 He2] Hbelow Habove] Ha Hb Hsa Hsb Hr.
  assert (cross (λ x y, lt y x = true) l start m end_) as Hc.
  { intros p q x y Hp Hq Hx Hy. destruct Habove as [?|[?|Habove]]; [lia|lia|].
    destruct (nthZ_is_Some l start) as [u Hu]; [lia|].
    destruct (nthZ_is_Some l (end_ - 1)) as [v Hv]; [lia|].
    apply lt_le_trans with u; [apply le_lt_trans with v; [|by apply Habove]|].
    - eapply (sorted_le l m b); [done| | |exact Hy|exact Hv]; lia.
    - eapply (sorted_le l a m); [done| | |exact Hu|exact Hx]; lia. }
  assert (∀ p q x y, a <= p < start → end_ <= q < b → l.[p] = Some x → l.[q] = Some y → le x y) as Hout.
  { intros p q x y Hp Hq Hx Hy. destruct Hbelow as [?|[?|Hbelow]]; [lia|lia|].
    destruct (nthZ_is_Some l (start - 1)) as [u Hu]; [lia|].
    destruct (nthZ_is_Some l end_) as [v Hv]; [lia|].
    apply le_trans with u; [eapply (sorted_le l a m); [done| | |exact Hx|exact Hu]; lia|].
    apply le_trans with v; [by apply Hbelow|].
    eapply (sorted_le l m b); [done| | |exact Hv|exact Hy]; lia. }
  split; [done|].
  repeat split; intros p q x y Hp Hq Hx Hy; rewrite Hr in Hx, Hy; repeat (case_decide; try lia).
  all: first [ eapply (sorted_le l a m); [done| | |exact Hx|exact Hy]; lia
             | eapply (sorted_le l m b); [done| | |exact Hx|exact Hy]; lia
             | eapply Hout; [| |exact Hx|exact Hy]; lia
             | apply lt_le; eapply Hc; [| |exact Hy|exact Hx]; lia ].
Qed.

Lemma stably_trans a b a1 b1 d0 d1 d2 :
  stably a1 b1 d0 d1 → a <= a1 → b1 <= b →
  same a b (view d1) (view d2) ∧ stable (view d1) (view d2) →
  same a b (view d0) (view d2) ∧ stable (view d0) (view d2).
Proof.
  intros [[Hs Hst] _] Ha Hb [Hs2 Hst2]. split.
  - eapply same_trans; [eapply same_weaken; [exact Hs|lia..]|exact Hs2].
  - by eapply stable_trans.
Qed.

(** Two halves that are already on the right sides of [mid] are merged apart. *)
Lemma merge_halves (f : D → Z → Z → Z → go D) data a start mid end_ b :
  (∀ d a' m' b', a' < m' < b' → b' - a' < b - a → 0 <= a' → b' <= zlen (view d) → zlen (view d) = zlen (view data) →
    sorted (view d) a' m' → sorted (view d) m' b' → f d a' m' b' ⇓ stably a' b' d) →
  0 <= a → a <= start <= mid → mid <= end_ <= b → a < mid < b → b <= zlen (view data) →
  sorted (view data) a start → sorted (view data) start mid →
  sorted (view data) mid end_ → sorted (view data) end_ b → cross le (view data) a mid b →
  (data ← (if (a <? start) && (start <? mid) then f data a start mid else Ret data);
   if (mid <? end_) && (end_ <? b) then f data mid end_ b else Ret data) ⇓ stably a b data.
Proof.
  intros Hf Ha Hs He Hm Hb S1 S2 S3 S4 Hc. apply wp_bind.
  apply wp_mono with (Q := stably a mid data).
  { destruct (Z.ltb_spec a start), (Z.ltb_spec start mid); simpl.
    - apply Hf; try done; lia.
    - assert (start = mid) as -> by lia. by split; [split; [apply same_refl|]|].
    - assert (start = a) as -> by lia. by split; [split; [apply same_refl|]|].
    - lia. }
  intros d1 Hd1. pose proof Hd1 as [[Hs1 Hst1] Hsd1]. pose proof (same_zlen _ _ _ _ Hs1).
  assert (cross le (view d1) a mid b) as Hc1 by (eapply cross_same; [exact Hc|exact Hs1|lia|lia|lia]).
  assert (sorted (view d1) mid end_) by (eapply sorted_same; [exact Hs1|lia|done]).
  assert (sorted (view d1) end_ b) by (eapply sorted_same; [exact Hs1|lia|done]).
  apply wp_mono with (Q := stably mid b d1).
  { destruct (Z.ltb_spec mid end_), (Z.ltb_spec end_ b); simpl.
    - apply Hf; try done; lia.
    - assert (end_ = b) as -> by lia. by split; [split; [apply same_refl|]|].
    - assert (end_ = mid) as -> by lia. by split; [split; [apply same_refl|]|].
    - lia. }
  intros d2 [[Hs2 Hst2] Hsd2]. split.
  - eapply stably_trans; [exact Hd1|lia|lia|]. split; [|done]. eapply same_weaken; [exact Hs2|lia..].
  - apply sorted_cat with mid; [|done|].
    + eapply sorted_same; [exact Hs2|lia|done].
    + eapply cross_same; [exact Hc1|exact Hs2|lia|lia|lia].
Qed.

Lemma symMerge_fuel_spec fuel data a m b :
  b - a < Z.of_nat fuel → 0 <= a → a < m < b → b <= zlen (view data) → zlen (view data) < 2 ^ (int_bits - 1) →
  sorted (view data) a m → sorted (view data) m b →
  symMerge_fuel fuel data a m b ⇓ stably a b data.
Proof.
  revert data a m b. induction fuel as [|fuel IH]; intros data a m b Hf Ha Hm Hb Hint Hsa Hsb; [lia|].
  simpl. destruct (Z.eqb_spec (m - a) 1) as [H1|H1].
  { (* one element on the left *)
    assert (m = a + 1) as -> by lia. destruct (nthZ_is_Some (view data) a) as [x Hx]; [lia|].
    apply wp_bind. eapply wp_mono.
    { apply bisect_spec with (T := λ h, ∀ y, (view data).[h] = Some y → lt y x = true)
        (F := λ h, ∀ y, (view data).[h] = Some y → le x y); [lia..|].
      intros h Hh. apply wp_Less; [lia..|]. intros y x' Hy Hx'. simplify_eq.
      destruct (lt y x) eqn:E; intros ??; by simplify_eq. }
    intros i (Hi & Hl & Hg). eapply wp_mono; [by apply bubble_up; lia|]. intros d' Hr.
    destruct (insert_left_sorted (view data) (view d') a i b x) as [Hc Hd]; try done; try lia.
    { intros y Hy. destruct Hy; [by left|]. destruct Hl; [by left|]. auto. }
    { intros y Hy. destruct Hg; [by left|]. auto. }
    split; [split|done].
    - eapply same_weaken; [apply (rotated_same a (a + 1) i); [lia|lia|exact Hr]|lia..].
    - by apply (rotated_stable a (a + 1) i); [lia|lia|..]. }
  destruct (Z.eqb_spec (b - m) 1) as [H2|H2].
  { (* one element on the right *)
    assert (b = m + 1) as -> by lia. destruct (nthZ_is_Some (view data) m) as [y Hy]; [lia|].
    apply wp_bind. eapply wp_mono.
    { apply bisect_spec with (T := λ h, ∀ x, (view data).[h] = Some x → le x y)
        (F := λ h, ∀ x, (view data).[h] = Some x → lt y x = true); [lia..|].
      intros h Hh. apply wp_bind, wp_Less; [lia..|]. intros y' x Hy' Hx. simplify_eq.
      destruct (lt y x) eqn:E; simpl; intros ??; by simplify_eq. }
    intros i (Hi & Hl & Hg). eapply wp_mono; [by apply bubble_down; lia|]. intros d' Hr.
    destruct (insert_right_sorted (view data) (view d') a i m y) as [Hc Hd]; try done; try lia.
    { intros x Hx. destruct Hl; [by left|]. auto. }
    { intros x Hx. destruct Hg; [by left|]. auto. }
    split; [split|done].
    - eapply same_weaken; [apply (rotated_same i m (m + 1)); [lia|lia|exact Hr]|lia..].
    - by apply (rotated_stable i m (m + 1)); [lia|lia|..]. }
  rewrite !swrap_sub_l, (int_small (a + _)) by lia_div.
  set (mid := a + Z.quot (b - a) 2). assert (a < mid < b) by (subst mid; lia_div).
  rewrite (int_small (mid + m - b)) by (subst mid; lia_div).
  destruct (if mid <? m then (mid + m - b, mid) else (a, m)) as [start0 r] eqn:E.
  apply wp_bind. eapply wp_mono; [by apply (symmetric_split_found data a m b mid)|].
  intros start Hss. pose proof Hss as [_ [? ?] [? ?] _ _]. rewrite swrap_sub_l, int_small by lia. apply wp_bind.
  apply wp_mono with (Q := λ d', rotated start m (mid + m - start) (view data) (view d')).
  { destruct (Z.ltb_spec start m), (Z.ltb_spec m (mid + m - start)); simpl.
    - apply rotate_spec; lia.
    - apply rotated_id. lia.
    - apply rotated_id. lia.
    - apply rotated_id. lia. }
  intros d1 Hr.
  destruct (symmetric_split_pieces (view data) (view d1) a m b mid start (mid + m - start))
    as (Hc & S1 & S2 & S3 & S4 & Hcross); try done.
  assert (same start (mid + m - start) (view data) (view d1)) as Hsame
    by (apply (rotated_same start m (mid + m - start)); [lia|lia|done]).
  pose proof (same_zlen _ _ _ _ Hsame).
  eapply wp_mono; [apply (merge_halves (symMerge_fuel fuel)); try done; try lia|].
  - intros d a' m' b' ???????. apply IH; try done; lia.
  - intros d2 [[Hs2 Hst2] Hd2]. split; [split|done].
    + eapply same_trans; [eapply same_weaken; [exact Hsame|lia..]|exact Hs2].
    + eapply stable_trans; [|exact Hst2]. by apply (rotated_stable start m (mid + m - start)); [lia|lia|..].
Qed.
End stable.

(** * Correctness of [Stable] *)

Section stable_correct.
Context {W : Host} {D A : Type} {I : Interface D} {L : SortLaws D A}.
Implicit Types (data : D) (a b s n : Z) (l : list A).

(** The runs of length [s] of the first [n] elements are sorted: those that
    end by [hi], those that start from [lo] on. *)
Definition runs_to l s hi : Prop :=
  ∀ k, 0 <= k → (k + 1) * s <= hi → sorted l (k * s) ((k + 1) * s).
Definition runs_from l s lo n : Prop :=
  ∀ k, 0 <= k → lo <= k * s → sorted l (k * s) (Z.min ((k + 1) * s) n).

Lemma runs_join l s a n k :
  0 < s → a = k * s → n < a + s → runs_to l s a → sorted l a n → runs_from l s 0 n.
Proof.
  intros Hs -> Hn Hto Hlast j Hj _.
  destruct (decide (j < k)).
  - eapply sorted_sub; [apply (Hto j); nia|lia|lia].
  - destruct (decide (j = k)) as [->|].
    + eapply sorted_sub; [exact Hlast|lia|lia].
    + apply sorted_short. assert (n < j * s) by nia. lia.
Qed.
Lemma runs_to_step l1 l2 s a k :
  0 < s → a = k * s → runs_to l1 s a → same a (a + s) l1 l2 → sorted l2 a (a + s) →
  runs_to l2 s (a + s).
Proof.
  intros Hs -> Hto Hsame Hd j Hj Hjs. assert (j <= k) by nia.
  destruct (decide (j = k)) as [->|].
  - by replace ((k + 1) * s) with (k * s + s) by lia.
  - eapply sorted_same; [exact Hsame|nia|]. apply Hto; nia.
Qed.
Lemma runs_from_step l1 l2 s n a b :
  0 < s → runs_from l1 s a n → same a b l1 l2 → a <= b → runs_from l2 s b n.
Proof. intros Hs Hf Hsame Hab j Hj Hjs. eapply sorted_same; [exact Hsame|lia|]. apply Hf; lia. Qed.

Lemma blocks_spec data n :
  n = zlen (view data) → n < 2 ^ (int_bits - 2) →
  while (S (Z.to_nat n)) (λ '(a, b, data), Ret (b <=? n))
    (λ '(a, b, data), data ← insertionSort data a b; Ret (b, int (b + 20), data)) (0, 20, data)
  ⇓ λ '(a, b, d'), 0 <= a <= n ∧ n < a + 20 ∧ (∃ k, a = k * 20)
      ∧ (same 0 n (view data) (view d') ∧ stable (view data) (view d')) ∧ runs_to (view d') 20 a.
Proof.
  intros Hn Hint. pose proof int_range as [Hmin Hq]. pose proof (zlen_nonneg (view data)).
  apply wp_while with (I := λ '(a, b, d'), 0 <= a <= n ∧ b = a + 20 ∧ (∃ k, a = k * 20)
      ∧ (same 0 n (view data) (view d') ∧ stable (view data) (view d')) ∧ runs_to (view d') 20 a)
    (meas := λ '(_, b, _), Z.max 0 (n + 1 - b)).
  - intros [[a b] d1] (Ha & -> & [k Hk] & [Hs Hst] & Hto). pose proof (same_zlen _ _ _ _ Hs).
    simpl. rewrite (int_small (a + 20 + 20)) by lia. destruct (Z.leb_spec (a + 20) n).
    + apply wp_bind. eapply wp_mono; [apply insertionSort_stable; lia|].
      intros d2 [[Hs2 Hst2] Hd2]. simpl. split; [|lia].
      split; [lia|]. split; [done|]. split; [exists (k + 1); lia|]. split; [split|].
      * eapply same_trans; [exact Hs|]. eapply same_weaken; [exact Hs2|lia..].
      * eapply stable_trans; [exact Hst|exact Hst2].
      * eapply runs_to_step; [lia|exact Hk|exact Hto|exact Hs2|exact Hd2].
    + split; [lia|]. split; [lia|]. eauto.
  - split; [lia|]. split; [lia|]. split; [by exists 0|]. split; [split; [apply same_refl|done]|].
    intros k Hk. lia.
  - lia.
Qed.

Lemma mergePass_spec data s n :
  0 < s < n → n = zlen (view data) → n < 2 ^ (int_bits - 2) → runs_from (view data) s 0 n →
  mergePass data s n ⇓ λ d', (same 0 n (view data) (view d') ∧ stable (view data) (view d'))
    ∧ runs_from (view d') (s * 2) 0 n.
Proof.
  intros Hs Hn Hint Hruns. pose proof int_range as [_ Hq]. unfold mergePass. rewrite (int_small (2 * s)) by lia. apply wp_bind.
  apply wp_while with (I := λ '(a, b, d'), 0 <= a <= n ∧ b = a + 2 * s ∧ (∃ k, 0 <= k ∧ a = k * (s * 2))
      ∧ (same 0 n (view data) (view d') ∧ stable (view data) (view d'))
      ∧ runs_to (view d') (s * 2) a ∧ runs_from (view d') s a n)
    (meas := λ '(_, b, _), Z.max 0 (n + 1 - b)).
  - intros [[a b] d1] (Ha & -> & (k & Hk0 & Hk) & [Hs1 Hst1] & Hto & Hfrom).
    pose proof (same_zlen _ _ _ _ Hs1).
    assert (sorted (view d1) a (Z.min (a + s) n)) as Hr1.
    { specialize (Hfrom (k * 2)). replace (k * 2 * s) with a in Hfrom by lia.
      replace ((k * 2 + 1) * s) with (a + s) in Hfrom by lia. apply Hfrom; lia. }
    assert (sorted (view d1) (a + s) (Z.min (a + s + s) n)) as Hr2.
    { specialize (Hfrom (k * 2 + 1)). replace ((k * 2 + 1) * s) with (a + s) in Hfrom by lia.
      replace ((k * 2 + 1 + 1) * s) with (a + s + s) in Hfrom by lia. apply Hfrom; lia. }
    simpl. rewrite (int_small (a + s)) by lia. destruct (Z.leb_spec (a + 2 * s) n); cbv zeta.
    + rewrite (int_small (a + 2 * s + _)) by lia. apply wp_bind. eapply wp_mono.
      { apply symMerge_fuel_spec; try lia.
        - eapply sorted_sub; [exact Hr1|lia|lia].
        - eapply sorted_sub; [exact Hr2|lia|lia]. }
      intros d2 [[Hs2 Hst2] Hd2]. simpl. split; [|lia].
      split; [lia|]. split; [done|]. split; [exists (k + 1); lia|]. split; [split|split].
      * eapply same_trans; [exact Hs1|]. eapply same_weaken; [exact Hs2|lia..].
      * eapply stable_trans; [exact Hst1|exact Hst2].
      * replace (a + 2 * s) with (a + s * 2) in * by lia.
        eapply runs_to_step; [lia|exact Hk|exact Hto|exact Hs2|exact Hd2].
      * eapply runs_from_step; [lia|exact Hfrom|exact Hs2|lia].
    + destruct (Z.ltb_spec (a + s) n).
      * eapply wp_mono.
        { apply symMerge_fuel_spec; try lia.
          - eapply sorted_sub; [exact Hr1|lia|lia].
          - eapply sorted_sub; [exact Hr2|lia|lia]. }
        intros d2 [[Hs2 Hst2] Hd2]. split; [split|].
        -- eapply same_trans; [exact Hs1|]. eapply same_weaken; [exact Hs2|lia..].
        -- eapply stable_trans; [exact Hst1|exact Hst2].
        -- apply (runs_join _ _ a n k); [lia|done|lia| |done].
           intros j Hj Hjs. eapply sorted_same; [exact Hs2|lia|]. by apply Hto.
      * split; [done|]. apply (runs_join _ _ a n k); [lia|done|lia|done|].
        eapply sorted_sub; [exact Hr1|lia|lia].
  - split; [lia|]. split; [lia|]. split; [exists 0; lia|]. split; [split; [apply same_refl|done]|].
    split; [|done]. intros j Hj Hjs. nia.
  - lia.
Qed.

Lemma Stable_spec data :
  zlen (view data) < 2 ^ (int_bits - 2) →
  Stable data ⇓ λ d', (view data ≡ₚ view d' ∧ stable (view data) (view d'))
    ∧ sorted (view d') 0 (zlen (view d')).
Proof.
  intros Hint. pose proof int_range as [_ Hq]. unfold Stable. rewrite Len_view. set (n := zlen (view data)).
  pose proof (zlen_nonneg (view data)). cbv zeta.
  apply wp_bind. eapply wp_mono; [by apply blocks_spec|].
  intros [[a b] d1] (Ha & Hn & [k Hk] & [Hs1 Hst1] & Hto).
  pose proof (same_zlen _ _ _ _ Hs1) as Hl1. apply wp_bind.
  eapply wp_mono; [apply insertionSort_stable; lia|]. intros d2 [[Hs2 Hst2] Hd2].
  apply wp_bind.
  apply wp_while with (I := λ '(s, d'), 0 < s
      ∧ (same 0 n (view data) (view d') ∧ stable (view data) (view d')) ∧ runs_from (view d') s 0 n)
    (meas := λ '(s, _), Z.max 0 (n - s)).
  - intros [s d3] (Hs & [Hs3 Hst3] & Hr3). pose proof (same_zlen _ _ _ _ Hs3) as Hl3.
    simpl. destruct (Z.ltb_spec s n) as [Hsn|Hsn].
    + rewrite int_small by lia. apply wp_bind. eapply wp_mono; [apply mergePass_spec; [lia|by rewrite Hl3|done|done]|].
      intros d4 [[Hs4 Hst4] Hr4]. simpl. split; [|lia]. split; [lia|]. split; [split|done].
      * eapply same_trans; [exact Hs3|exact Hs4].
      * eapply stable_trans; [exact Hst3|exact Hst4].
    + simpl. split; [split; [apply Hs3|exact Hst3]|]. rewrite Hl3.
      specialize (Hr3 0 ltac:(lia) ltac:(lia)). eapply sorted_sub; [exact Hr3|lia|lia].
  - split; [lia|]. split; [split|].
    + eapply same_trans; [exact Hs1|]. eapply same_weaken; [exact Hs2|lia..].
    + eapply stable_trans; [exact Hst1|exact Hst2].
    + apply (runs_join _ _ a n k); [lia|done|lia| |done].
      intros j Hj Hjs. eapply sorted_same; [exact Hs2|lia|]. by apply Hto.
  - lia.
Qed.
End stable_correct.
