(* ===== verification/SortSlices.v ===== *)
(** The collections package [sort] provides ([IntSlice], [StringSlice], the
    [reverse] wrapper; [src/src/sort/sort.go]) as instances of the interface,
    and the properties of [Sort], [Stable], [IsSorted] and [Search]. *)
From S2P Require Import Prelude.
From S2P Require Import Sort.
From S2P Require Import SortStable.

(** * Slices as collections *)

(** A slice type with its own comparison: [Len], [Less] and [Swap] of
    [IntSlice] and [StringSlice] differ in the element comparison only. *)
Record IntSlice := { ints : list Z }.
Record StringSlice := { strs : list bytes }.

Fixpoint str_ltb (s t : bytes) : bool :=
  match s, t with
  | [], [] => false
  | [], _ :: _ => true
  | _ :: _, [] => false
  | x :: s, y :: t => if x =? y then str_ltb s t else x <? y
  end.

Definition IntSlice_Len (p : IntSlice) : Z := zlen (ints p).
Definition IntSlice_Less (p : IntSlice) (i j : Z) : go bool :=
  x ← idx (ints p) i; y ← idx (ints p) j; Ret (x <? y).
Definition IntSlice_Swap (p : IntSlice) (i j : Z) : go IntSlice :=
  x ← idx (ints p) i; y ← idx (ints p) j;
  l ← upd (ints p) i y; l ← upd l j x; Ret {| ints := l |}.
#[global] Instance IntSlice_Interface : Interface IntSlice :=
  {| Len := IntSlice_Len; Less := IntSlice_Less; Swap := IntSlice_Swap |}.

Definition StringSlice_Len (p : StringSlice) : Z := zlen (strs p).
Definition StringSlice_Less (p : StringSlice) (i j : Z) : go bool :=
  x ← idx (strs p) i; y ← idx (strs p) j; Ret (str_ltb x y).
Definition StringSlice_Swap (p : StringSlice) (i j : Z) : go StringSlice :=
  x ← idx (strs p) i; y ← idx (strs p) j;
  l ← upd (strs p) i y; l ← upd l j x; Ret {| strs := l |}.
#[global] Instance StringSlice_Interface : Interface StringSlice :=
  {| Len := StringSlice_Len; Less := StringSlice_Less; Swap := StringSlice_Swap |}.

(** [reverse] embeds another collection and overrides [Less]. *)
Record reverse (D : Type) := { embedded : D }.
Arguments embedded {D} _.
Definition reverse_Less {D} `{Interface D} (r : reverse D) (i j : Z) : go bool :=
  Less (embedded r) j i.
#[global] Instance reverse_Interface {D} `{Interface D} : Interface (reverse D) :=
  {| Len := λ r, Len (embedded r);
     Less := reverse_Less;
     Swap := λ r i j, d ← Swap (embedded r) i j; Ret {| embedded := d |} |}.
Definition Reverse {D} (data : D) : reverse D := {| embedded := data |}.

(** [Ints], [Strings], [IntsAreSorted], [StringsAreSorted]. *)
Definition Ints {W : Host} (a : list Z) : go (list Z) := p ← Sort {| ints := a |}; Ret (ints p).
Definition Strings {W : Host} (a : list bytes) : go (list bytes) := p ← Sort {| strs := a |}; Ret (strs p).
Definition IntsAreSorted (a : list Z) : go bool := IsSorted {| ints := a |}.
Definition StringsAreSorted (a : list bytes) : go bool := IsSorted {| strs := a |}.

(** * The laws *)

Lemma swap_list {A} (l : list A) i j :
  0 <= i < zlen l → 0 <= j < zlen l →
  (x ← idx l i; y ← idx l j; l' ← upd l i y; upd l' j x) = Ret (swp l i j).
Proof.
  intros Hi Hj. destruct (nthZ_is_Some l i Hi) as [x Hx], (nthZ_is_Some l j Hj) as [y Hy].
  rewrite (idx_Some _ _ _ Hx), (idx_Some _ _ _ Hy). simpl.
  rewrite upd_eq by done. simpl. rewrite upd_eq by (by rewrite zlen_insZ).
  unfold swp. by rewrite Hx, Hy.
Qed.

Lemma str_ltb_irrefl s : str_ltb s s = false.
Proof. induction s as [|x s IH]; simpl; [done|]. by rewrite Z.eqb_refl. Qed.
Lemma str_ltb_trans s t u : str_ltb s t = true → str_ltb t u = true → str_ltb s u = true.
Proof.
  revert t u. induction s as [|x s IH]; intros [|y t] [|z u]; simpl; try done.
  intros H1 H2. destruct (Z.eqb_spec x y), (Z.eqb_spec y z), (Z.eqb_spec x z);
    rewrite ?Z.ltb_lt in *; try lia. by eapply IH.
Qed.
Lemma str_ltb_cotrans s t u : str_ltb s u = true → str_ltb s t = true ∨ str_ltb t u = true.
Proof.
  revert t u. induction s as [|x s IH]; intros [|y t] [|z u]; simpl; auto.
  intros H. destruct (Z.eqb_spec x y), (Z.eqb_spec y z), (Z.eqb_spec x z);
    rewrite ?Z.ltb_lt in *; try lia. by apply IH.
Qed.

#[global] Instance IntSlice_Laws : SortLaws IntSlice Z.
Proof.
  refine {| view := ints; lt := Z.ltb |}; try done.
  - intros d i j x y Hx Hy. simpl. unfold IntSlice_Less. by rewrite (idx_Some _ _ _ Hx), (idx_Some _ _ _ Hy).
  - intros d i j Hi Hj. simpl. unfold IntSlice_Swap.
    pose proof (swap_list (ints d) i j Hi Hj) as E.
    destruct (idx (ints d) i); [|done..]. destruct (idx (ints d) j); [|done..]. simpl in *.
    destruct (upd (ints d) i _); [|done..]. simpl in *. rewrite E. done.
  - intros x. apply Z.ltb_irrefl.
  - intros x y z. rewrite !Z.ltb_lt. lia.
  - intros x y z. rewrite !Z.ltb_lt. lia.
Defined.

#[global] Instance StringSlice_Laws : SortLaws StringSlice bytes.
Proof.
  refine {| view := strs; lt := str_ltb |}; try done.
  - intros d i j x y Hx Hy. simpl. unfold StringSlice_Less. by rewrite (idx_Some _ _ _ Hx), (idx_Some _ _ _ Hy).
  - intros d i j Hi Hj. simpl. unfold StringSlice_Swap.
    pose proof (swap_list (strs d) i j Hi Hj) as E.
    destruct (idx (strs d) i); [|done..]. destruct (idx (strs d) j); [|done..]. simpl in *.
    destruct (upd (strs d) i _); [|done..]. simpl in *. rewrite E. done.
  - apply str_ltb_irrefl.
  - apply str_ltb_trans.
  - apply str_ltb_cotrans.
Defined.

#[global] Instance reverse_Laws {D A} {I : Interface D} {L : SortLaws D A} : SortLaws (reverse D) A.
Proof.
  refine {| view := λ r, view (embedded r); lt := λ x y, lt y x |}.
  - intros r. exact (Len_view (embedded r)).
  - intros r i j x y Hx Hy. by apply (Less_view (embedded r) j i y x).
  - intros r i j Hi Hj. simpl. apply wp_bind.
    eapply wp_mono; [by apply (Swap_view (embedded r) i j)|]. done.
  - apply lt_irrefl.
  - intros x y z Hxy Hyz. by apply lt_trans with y.
  - intros x y z Hxz. apply or_comm. by apply lt_cotrans.
Defined.

(** * Properties *)

Section properties.
Context {W : Host} {D A : Type} {I : Interface D} {L : SortLaws D A}.

(** C1: on every collection of fewer than 2^30 elements (2^62 where [int] has 64
    bits) that keeps the promises of the interface, [Sort] returns (no index is out
    of range, every loop ends within its bound) and leaves a rearrangement of the
    elements in which no element is less than an earlier one. [doPivot] partitions
    every range of every collection whose length is an [int], where its sums of two
    indices would overflow: elements at most a pivot, a middle of elements
    equivalent to it that is not empty, elements at least the pivot. Beyond the
    bound [siftDown] computes a child [2*root + 1] that is negative. *)
Theorem Sort_sorts (data : D) :
  (zlen (view data) < 2 ^ (int_bits - 2) →
   ∃ data', Sort data = Ret data' ∧ view data ≡ₚ view data' ∧
     ∀ i j x y, 0 <= i < j → (view data').[i] = Some x → (view data').[j] = Some y → lt y x = false) ∧
  (zlen (view data) < 2 ^ (int_bits - 1) → ∀ lo hi, 0 <= lo < hi → hi <= zlen (view data) →
   ∃ data' mlo mhi, doPivot data lo hi = Ret (data', (mlo, mhi)) ∧
     same lo hi (view data) (view data') ∧ partitioned lo hi mlo mhi (view data')).
Proof.
  split.
  - intros Hn. destruct (proj1 (wp_ex _ _) (Sort_spec data Hn)) as (d' & Hd & Hp & Hs).
    exists d'. split; [done|]. split; [done|]. intros i j x y Hi Hx Hy.
    apply (Hs i j); [lia|apply (nthZ_Some _ _ _ Hy)|done|done].
  - intros Hn lo hi Hlo Hhi.
    assert (hi < 2 ^ (int_bits - 1)) as Hint by lia.
    destruct (proj1 (wp_ex _ _) (doPivot_spec data lo hi ltac:(lia) ltac:(lia) Hhi Hint))
      as ([d' [mlo mhi]] & E & Hs & Hp). by exists d', mlo, mhi.
Qed.

(** C2: on fewer than 2^30 elements (2^62 where [int] has 64 bits) [Stable] sorts,
    and the elements equivalent to any given one keep the order they had. The
    in-place merging by rotations, [symMerge], merges two adjacent sorted ranges of
    every collection whose length is an [int], the wrapping of its sum of two
    indices included, and never moves an element past an equivalent one. Beyond the
    bound the steps of [Stable] by [2*blockSize] overflow. *)
Theorem Stable_sorts (data : D) :
  (zlen (view data) < 2 ^ (int_bits - 2) →
   ∃ data', Stable data = Ret data' ∧ view data ≡ₚ view data' ∧
     (∀ i j x y, 0 <= i < j → (view data').[i] = Some x → (view data').[j] = Some y → lt y x = false) ∧
     ∀ x, filter (λ y, eqvb x y = true) (view data') = filter (λ y, eqvb x y = true) (view data)) ∧
  (zlen (view data) < 2 ^ (int_bits - 1) → ∀ a m b, 0 <= a < m → m < b <= zlen (view data) →
   sorted (view data) a m → sorted (view data) m b →
   ∃ data', symMerge data a m b = Ret data' ∧ same a b (view data) (view data') ∧
     stable (view data) (view data') ∧ sorted (view data') a b).
Proof.
  split.
  - intros Hn. destruct (proj1 (wp_ex _ _) (Stable_spec data Hn)) as (d' & Hd & [Hp Hst] & Hs).
    exists d'. split; [done|]. split; [done|]. split; [|exact Hst]. intros i j x y Hi Hx Hy.
    apply (Hs i j); [lia|apply (nthZ_Some _ _ _ Hy)|done|done].
  - intros Hn a m b Ha Hb Hs1 Hs2. unfold symMerge.
    destruct (proj1 (wp_ex _ _) (symMerge_fuel_spec (S (Z.to_nat (b - a))) data a m b ltac:(lia) ltac:(lia)
      ltac:(lia) ltac:(lia) Hn Hs1 Hs2)) as (d' & E & [H1 H2] & H3). by exists d'.
Qed.

(** [IsSorted] returns [true] exactly when no element is less than the one
    before it or than any earlier one. *)
Theorem IsSorted_iff (data : D) :
  ∃ r, IsSorted data = Ret r ∧ (r = true ↔ sorted (view data) 0 (zlen (view data))).
Proof. apply wp_ex, IsSorted_spec. Qed.
End properties.

(** [Search] finds the boundary of a predicate that is false and then true
    on [0, n): the result is the least index at which it holds, [n] if none. *)
Theorem Search_least {W : Host} (n : Z) (f : Z → bool) :
  0 <= n < 2 ^ (int_bits - 1) → (∀ i j, 0 <= i <= j → j < n → f i = true → f j = true) →
  ∃ r, Search n (λ i, Ret (f i)) = Ret r ∧ 0 <= r <= n ∧
    (∀ i, 0 <= i < r → f i = false) ∧ (∀ i, r <= i < n → f i = true).
Proof.
  intros Hn Hmono. apply wp_ex. unfold Search.
  eapply wp_mono; [apply bisect_spec with (T := λ h, f h = false) (F := λ h, f h = true); [lia..|]|].
  - intros h Hh. simpl. by destruct (f h).
  - intros r (Hr & Hl & Hg). split; [done|]. split.
    + intros i Hi. destruct Hl as [->|Hl]; [lia|]. destruct (f i) eqn:E; [|done].
      rewrite (Hmono i (r - 1)) in Hl; [done|lia..|done].
    + intros i Hi. destruct Hg as [->|Hg]; [lia|]. by apply (Hmono r i); [lia..|].
Qed.

(** The theorem at a threshold in [0, 10). *)
#[local] Existing Instance Int64.
Lemma Search_least_witness :
  ∃ r, Search 10 (λ i, Ret (7 <=? i)) = Ret r ∧ 0 <= r <= 10 ∧
    (∀ i, 0 <= i < r → (7 <=? i) = false) ∧ (∀ i, r <= i < 10 → (7 <=? i) = true).
Proof. apply (Search_least 10 (λ i, 7 <=? i)); [done|]. intros i j. rewrite !Z.leb_le. lia. Defined.

(** [Sort] and [Stable] on slices. *)
Lemma Sort_sorts_witness :
  (∃ data', Sort {| ints := [3; 1; 2] |} = Ret data' ∧ [3; 1; 2] ≡ₚ ints data' ∧
     ∀ i j x y, 0 <= i < j → (ints data').[i] = Some x → (ints data').[j] = Some y → (y <? x) = false) ∧
  ∃ data' mlo mhi, doPivot {| ints := [3; 1; 2] |} 1 3 = Ret (data', (mlo, mhi)) ∧
    partitioned (D := IntSlice) 1 3 mlo mhi (ints data').
Proof.
  destruct (Sort_sorts (A := Z) {| ints := [3; 1; 2] |}) as [Hsort Hpivot]. split; [by apply Hsort|].
  destruct (Hpivot ltac:(done) 1 3 ltac:(lia) ltac:(done)) as (d & mlo & mhi & E & _ & Hp). by exists d, mlo, mhi.
Defined.
Lemma Stable_sorts_witness :
  (∃ data', Stable {| ints := [3; 1; 2] |} = Ret data' ∧ [3; 1; 2] ≡ₚ ints data') ∧
  ∃ data', symMerge {| ints := [2; 1] |} 0 1 2 = Ret data' ∧ sorted (D := IntSlice) (ints data') 0 2.
Proof.
  split.
  - destruct (Stable_sorts (A := Z) {| ints := [3; 1; 2] |}) as [Hst _].
    destruct (Hst ltac:(done)) as (d & E & Hp & _). by exists d.
  - destruct (Stable_sorts (A := Z) {| ints := [2; 1] |}) as [_ Hm].
    destruct (Hm ltac:(done) 0 1 2) as (d & E & _ & _ & Hs); [done|done|by apply (sorted_short (D := IntSlice))..|]. by exists d.
Defined.

(** Out of the bounds of the theorems: where [int] has 32 bits, [siftDown] on more
    than 2^30 elements computes a negative child and panics. *)
Example siftDown_overflows l :
  siftDown (W := Int32) {| ints := l |} (2 ^ 30) (2 ^ 30 + 1) 0 = Panic "index out of range".
Proof. reflexivity. Qed.

(** The model runs. *)
Example Ints_run : Ints [5; 3; 9; 1; 3; 8; 2; 7; 6; 4; 0] = Ret [0; 1; 2; 3; 3; 4; 5; 6; 7; 8; 9].
Proof. vm_compute. reflexivity. Qed.
Example Reverse_run : (p ← Sort (Reverse {| ints := [5; 3; 9; 1] |}); Ret (ints (embedded p))) = Ret [9; 5; 3; 1].
Proof. vm_compute. reflexivity. Qed.
Example Strings_run : Strings [str "b"; str "ab"; str "a"] = Ret [str "a"; str "ab"; str "b"].
Proof. vm_compute. reflexivity. Qed.
