(* ===== verification/Heap.v ===== *)
(** Package [container/heap] ([src/src/container/heap/heap.go]): the operations
    of a min-heap over any collection that implements [heap.Interface]. *)
From S2P Require Import Prelude.
From S2P Require Import HeapOrder.
From S2P Require Import Sort.
From S2P Require Import SortSlices.

(** [heap.Interface] extends [sort.Interface] with [Push] and [Pop]. *)
Class HeapInterface (D A : Type) {I : Interface D} := {
  ipush : D → A → go D;
  ipop : D → go (D * A);
}.

(** [Push] adds an element at the end, [Pop] removes the last one. *)
Class HeapLaws (D A : Type) {I : Interface D} {H : HeapInterface D A} {L : SortLaws D A} := {
  ipush_view d x : ipush d x ⇓ λ d', view d' = view d ++ [x];
  ipop_view d l x : view d = l ++ [x] → ipop d ⇓ λ '(d', y), y = x ∧ view d' = l;
}.

Section operations.
Context {W : Host} {D A : Type} {I : Interface D} {H : HeapInterface D A}.
Abbreviation int := (swrap int_bits) (only parsing).
Implicit Types (h : D) (i j n : Z).

Definition up h j : go D :=
  loop (S (Z.to_nat j)) (λ '(j, h),
    let i := Z.quot (j - 1) 2 in
    if i =? j then Ret (inr h) else
    l ← Less h j i;
    if negb l then Ret (inr h) else
    h ← Swap h i j;
    Ret (inl (i, h))) (j, h).

Definition down h i n : go D :=
  loop (S (Z.to_nat n)) (λ '(i, h),
    let j1 := int (2 * i + 1) in
    if (n <=? j1) || (j1 <? 0) then Ret (inr h) else
    let j2 := j1 + 1 in
    r ← (if j2 <? n then l ← Less h j1 j2; Ret (negb l) else Ret false);
    let j := if (r : bool) then j2 else j1 in
    l ← Less h j i;
    if negb l then Ret (inr h) else
    h ← Swap h i j;
    Ret (inl (j, h))) (i, h).

Definition Init h : go D :=
  let n := Len h in
  for_down (Z.quot n 2 - 1) 0 (λ i h, down h i n) h.

Definition Push h (x : A) : go D :=
  h ← ipush h x;
  up h (Len h - 1).

Definition Pop h : go (D * A) :=
  let n := Len h - 1 in
  h ← Swap h 0 n;
  h ← down h 0 n;
  ipop h.

Definition Remove h i : go (D * A) :=
  let n := Len h - 1 in
  h ← (if negb (n =? i) then
         h ← Swap h i n;
         h ← down h i n;
         up h i
       else Ret h);
  ipop h.

Definition Fix_ h i : go D :=
  h ← down h i (Len h);
  up h i.
End operations.

Section correctness.
Context {W : Host} {D A : Type} {I : Interface D} {H : HeapInterface D A} {L : SortLaws D A}.
Implicit Types (h d : D) (i j n : Z) (x y z : A) (l k : list A).

(** The invariant of the package: [!h.Less(j, i)] for every child [j] of [i]. *)
Definition heap_inv l : Prop := heap le 0 0 (zlen l) l.

Lemma up_spec h j n :
  0 <= j < n → n <= zlen (view h) → up_heap le 0 0 n j (view h) →
  up h j ⇓ λ h', same 0 (j + 1) (view h) (view h') ∧ heap le 0 0 n (view h').
Proof.
  intros Hj Hn Hup. unfold up.
  apply wp_loop with (I := λ '(j', h'), 0 <= j' <= j ∧ same 0 (j + 1) (view h) (view h')
    ∧ up_heap le 0 0 n j' (view h')) (meas := λ '(j', _), j').
  - intros [j1 h1] (Hj1 & Hs & Hu). pose proof (same_zlen _ _ _ _ Hs).
    destruct (decide (j1 = 0)) as [->|Hne].
    { simpl. split; [done|]. eapply up_stop; [done|]. intros i x y Hi Hc. unfold child in Hc. lia. }
    set (i := Z.quot (j1 - 1) 2).
    assert (0 <= i < j1 ∧ child i j1) as [Hi Hc] by (unfold child; subst i; lia_div).
    cbv zeta. rewrite (proj2 (Z.eqb_neq i j1)) by lia.
    apply wp_bind, wp_Less; [lia..|]. intros xj xi Hxj Hxi.
    destruct (lt xj xi) eqn:E; simpl.
    + apply wp_bind, wp_Swap; [lia..|]. intros h2 Hh2. simpl. rewrite Hh2.
      split; [|lia]. split; [lia|]. split.
      * eapply same_trans; [exact Hs|]. apply same_swp; lia.
      * apply (up_step le le_trans 0 0 n i j1 (view h1) xi xj); try done; try lia. by apply lt_le.
    + split; [done|]. eapply up_stop; [done|].
      intros i' x y Hi' Hc' Hx Hy. unfold child in Hc, Hc'. assert (i' = i) as -> by lia.
      rewrite Z.add_0_l in Hx, Hy. assert (x = xi) as -> by congruence. by assert (y = xj) as -> by congruence.
  - split; [lia|]. split; [apply same_refl|done].
  - lia.
Qed.

(** The child [down] compares with: the smaller one. *)
Lemma down_child h i n :
  0 <= i → 2 * i + 1 < n → n <= zlen (view h) →
  (if 2 * i + 1 + 1 <? n then l ← Less h (2 * i + 1) (2 * i + 1 + 1); Ret (negb l) else Ret false)
  ⇓ λ r : bool, let m := if r then 2 * i + 1 + 1 else 2 * i + 1 in
      m < n ∧ child i m ∧ ∀ c y z, child i c → c < n → (view h).[c] = Some y → (view h).[m] = Some z → le z y.
Proof.
  intros Hi Hn Hl. unfold child.
  destruct (Z.ltb_spec (2 * i + 1 + 1) n).
  - apply wp_bind, wp_Less; [lia..|]. intros x y Hx Hy.
    destruct (lt x y) eqn:E; simpl; (split; [lia|]); (split; [lia|]); intros c u v [->| ->] _ Hu Hv;
      replace (2 * i + 2) with (2 * i + 1 + 1) in * by lia; simplify_eq;
      first [apply le_refl | by apply lt_le | done].
  - split; [lia|]. split; [lia|]. intros c y z [->| ->] ? ??; [|lia]. simplify_eq. apply le_refl.
Qed.

(** Where the left child overflows it is negative: the guard of [down] then ends the
    loop, as it would if the child were past the end. *)
Lemma down_guard i n :
  0 <= i <= n → n < 2 ^ (int_bits - 1) →
  let j1 := swrap int_bits (2 * i + 1) in (n <=? j1) || (j1 <? 0) = (n <=? 2 * i + 1) ∧ (2 * i + 1 < n → j1 = 2 * i + 1).
Proof.
  intros Hi Hn j1. subst j1. split; [|intros; apply int_small; lia].
  destruct (decide (2 * i + 1 < 2 ^ (int_bits - 1))).
  - rewrite int_small by lia. bool_cases.
  - assert (2 * 2 ^ (int_bits - 1) = 2 ^ int_bits) as E by (by destruct int_bits_cases as [-> | ->]).
    unfold swrap. rewrite <- E. assert ((2 * i + 1 + 2 ^ (int_bits - 1)) mod (2 * 2 ^ (int_bits - 1)) =
      2 * i + 1 - 2 ^ (int_bits - 1)) as -> by (symmetry; apply Z.mod_unique with 1; lia).
    bool_cases.
Qed.

Lemma down_spec h i n lo :
  0 <= lo <= i → i <= n → n <= zlen (view h) → n < 2 ^ (int_bits - 1) → hole_heap le 0 lo n i (view h) →
  down h i n ⇓ λ h', same i n (view h) (view h') ∧ up_heap le 0 lo n i (view h').
Proof.
  intros Hlo Hi Hn Hint Hh. unfold down.
  apply wp_loop with (I := λ '(i', h'), i <= i' <= n ∧ same i n (view h) (view h')
    ∧ (i' = i ∧ hole_heap le 0 lo n i (view h') ∨ down_heap le 0 lo n i' (view h')))
    (meas := λ '(i', _), Z.max 0 (n - i')).
  - intros [i1 h1] (Hi1 & Hs & Hh1). pose proof (same_zlen _ _ _ _ Hs). cbv zeta.
    assert (settled le 0 n i1 (view h1) → up_heap le 0 lo n i (view h1)) as Hstop.
    { intros Hset. destruct Hh1 as [[-> Hh1]|Hh1]; [by apply hole_stop|].
      apply heap_up_heap; [apply le_trans|lia|lia|lia|lia|]. by eapply down_stop. }
    destruct (down_guard i1 n) as [-> Hj1]; [lia|done|].
    destruct (Z.leb_spec n (2 * i1 + 1)) as [Hc|Hc]; simpl.
    { split; [done|]. apply Hstop. intros c x y Hch. unfold child in Hch. lia. }
    rewrite (Hj1 Hc).
    apply wp_bind. eapply wp_mono; [apply (down_child h1 i1 n); lia|]. cbv zeta.
    intros r (Hm & Hch & Hmin). set (m := if r then 2 * i1 + 1 + 1 else 2 * i1 + 1) in *.
    assert (i1 < m) by (unfold child in Hch; lia).
    apply wp_bind, wp_Less; [lia..|]. intros xm xi Hxm Hxi.
    destruct (lt xm xi) eqn:E; simpl.
    + apply wp_bind, wp_Swap; [lia..|]. intros h2 Hh2. simpl. rewrite Hh2.
      split; [|lia]. split; [lia|]. split.
      * eapply same_trans; [exact Hs|]. apply same_swp; lia.
      * right. apply (hole_step le 0 lo n ltac:(lia) i1 m (view h1) xi xm); try done; try lia.
        -- destruct Hh1 as [[-> Hh1]|Hh1]; [done|by apply down_hole].
        -- by apply lt_le.
        -- intros c y ???. by apply (Hmin c).
    + split; [done|]. apply Hstop. intros c x y Hcc Hcn Hx Hy. rewrite Z.add_0_l in Hx, Hy.
      assert (x = xi) as -> by congruence. apply le_trans with xm; [done|]. by apply (Hmin c).
  - split; [lia|]. split; [apply same_refl|]. by left.
  - lia.
Qed.

(** At the lowest index of the range a heap with a hole there is repaired. *)
Lemma down_lo_spec h i n :
  0 <= i → i <= n → n <= zlen (view h) → n < 2 ^ (int_bits - 1) → heap le 0 (i + 1) n (view h) →
  down h i n ⇓ λ h', same i n (view h) (view h') ∧ heap le 0 i n (view h').
Proof.
  intros Hi Hn Hl Hint Hh. eapply wp_mono; [apply (down_spec h i n i); try lia|].
  - split.
    + intros p c x y Hp Hc Hcn Hne. apply Hh; [lia|done|done|naive_solver].
    + intros p c x y Hp Hpc. unfold child in Hpc. lia.
  - intros h' [Hs Hu]. split; [done|]. eapply up_stop; [done|].
    intros p x y Hp Hpc. unfold child in Hpc. lia.
Qed.

Lemma heap_take n l : 0 <= n <= zlen l → heap le 0 0 n l → heap_inv (take (Z.to_nat n) l).
Proof.
  intros Hn Hh i c x y Hi Hc Hcl _ Hx Hy. rewrite zlen_take in Hcl by lia.
  rewrite nthZ_take in Hx, Hy. repeat case_decide; try done. apply (Hh i c x y); auto.
Qed.

(** Before the last index of the range, a heap loses an element to a hole. *)
Lemma heap_hole l i n x :
  heap_inv l → zlen l = n + 1 → 0 <= i < n → l.[n] = Some x →
  hole_heap le 0 0 n i (swp l i n).
Proof.
  intros Hh Hl Hi Hx. split.
  - intros p c u v Hp Hc Hcn Hne Hu Hv. unfold child in Hc.
    rewrite nthZ_swp in Hu, Hv by lia. simpl in *.
    rewrite !decide_False in Hu by lia. rewrite !decide_False in Hv by lia.
    apply (Hh p c); unfold child; auto; lia.
  - intros p c u v Hp Hpi Hic Hcn Hu Hv. unfold child in Hpi, Hic.
    rewrite nthZ_swp in Hu, Hv by lia. simpl in *.
    rewrite !decide_False in Hu by lia. rewrite !decide_False in Hv by lia.
    destruct (nthZ_is_Some l i) as [z Hz]; [lia|].
    apply le_trans with z; [apply (Hh p i)|apply (Hh i c)]; unfold child; auto; lia.
Qed.

Lemma last_split l n : zlen l = n + 1 → 0 <= n → ∃ x, l = take (Z.to_nat n) l ++ [x] ∧ l.[n] = Some x.
Proof.
  intros Hl Hn. destruct (nthZ_is_Some l n) as [x Hx]; [lia|]. exists x. split; [|done].
  unfold nthZ in Hx. rewrite decide_True in Hx by lia.
  rewrite <- (take_drop_middle _ _ _ Hx) at 1. f_equal. rewrite drop_ge; [done|].
  unfold zlen in Hl. lia.
Qed.
End correctness.

(** * The operations keep the invariant *)

Section properties.
Context {W : Host} {D A : Type} {I : Interface D} {H : HeapInterface D A} {L : SortLaws D A}
  {HL : HeapLaws D A}.
Implicit Types (h d : D) (i j n : Z) (x y z : A) (l k : list A).

Lemma Init_spec h :
  zlen (view h) < 2 ^ (int_bits - 1) →
  Init h ⇓ λ h', view h ≡ₚ view h' ∧ heap_inv (view h').
Proof.
  intros Hint. unfold Init. rewrite Len_view. set (n := zlen (view h)). pose proof (zlen_nonneg (view h)).
  apply wp_for_down with (I := λ i h', same 0 n (view h) (view h')
    ∧ heap le 0 (i + 1) n (view h')).
  - intros i h1 Hi [Hs Hh]. pose proof (same_zlen _ _ _ _ Hs).
    eapply wp_mono; [apply down_lo_spec; try done; subst n; lia_div|].
    intros h2 [Hs2 Hh2]. replace (i - 1 + 1) with i by lia. split; [|done].
    eapply same_trans; [exact Hs|]. eapply same_weaken; [exact Hs2|lia|subst n; lia].
  - split; [apply same_refl|]. intros i c x y Hi Hc Hcn. unfold child in Hc. subst n. lia_div.
  - intros h' [Hs Hh]. split; [apply Hs|]. intros i c x y Hi Hc Hcn _.
    rewrite (same_zlen _ _ _ _ Hs) in Hcn. apply Hh; [subst n; lia_div|done|done|tauto].
Qed.

Lemma Push_spec h x :
  heap_inv (view h) →
  Push h x ⇓ λ h', view h' ≡ₚ x :: view h ∧ heap_inv (view h').
Proof.
  intros Hh. unfold Push. apply wp_bind. eapply wp_mono; [apply ipush_view|].
  intros h1 Hh1. rewrite Len_view. pose proof (zlen_nonneg (view h)).
  assert (zlen (view h1) = zlen (view h) + 1) as Hl by (rewrite Hh1, zlen_app, zlen_cons, zlen_nil; lia).
  eapply wp_mono; [apply (up_spec h1 _ (zlen (view h1))); try lia|].
  - split.
    + intros i c u v Hi Hc Hcl Hne Hu Hv. rewrite Hh1 in Hu, Hv. rewrite nthZ_app in Hu, Hv.
      unfold child in Hc. rewrite decide_True in Hu by lia. rewrite decide_True in Hv by lia.
      apply (Hh i c); unfold child; auto; lia.
    + intros p c u v Hp Hpr Hc Hcl. unfold child in Hpr, Hc. lia.
  - intros h2 [Hs2 Hh2]. split.
    + rewrite <- (proj1 Hs2), Hh1. rewrite Permutation_app_comm. done.
    + unfold heap_inv. by rewrite (same_zlen _ _ _ _ Hs2).
Qed.

(** Removing the last element once the others form a heap. *)
Lemma ipop_spec h1 h2 n x :
  zlen (view h2) = n + 1 → 0 <= n → (view h2).[n] = Some x → heap le 0 0 n (view h2) →
  view h1 ≡ₚ view h2 →
  ipop h2 ⇓ λ '(h', y), y = x ∧ view h1 ≡ₚ x :: view h' ∧ heap_inv (view h').
Proof.
  intros Hl Hn Hx Hh Hp. destruct (last_split (view h2) n Hl Hn) as (x' & Hsplit & Hx').
  eapply wp_mono; [by eapply ipop_view|]. intros [h' y] [-> Hv].
  assert (x' = x) as -> by congruence. split; [done|]. split.
  - rewrite Hp, Hsplit at 1. rewrite Hv. by rewrite Permutation_app_comm.
  - rewrite Hv. apply heap_take; [lia|done].
Qed.

Lemma Remove_spec h i x :
  zlen (view h) < 2 ^ (int_bits - 1) →
  heap_inv (view h) → (view h).[i] = Some x →
  Remove h i ⇓ λ '(h', y), y = x ∧ view h ≡ₚ x :: view h' ∧ heap_inv (view h').
Proof.
  intros Hint Hh Hx. unfold Remove. rewrite Len_view. set (n := zlen (view h) - 1).
  pose proof (nthZ_Some _ _ _ Hx) as Hi. cbv zeta.
  destruct (Z.eqb_spec n i) as [Hni|Hni]; simpl.
  - apply ipop_spec with (n := n); [lia|lia|by rewrite Hni| |done].
    intros p c u v Hp Hc Hcn. apply Hh; [done|done|lia].
  - rewrite go_bind_assoc. apply wp_bind, wp_Swap; [lia..|]. intros h1 Hh1.
    destruct (nthZ_is_Some (view h) n) as [z Hz]; [lia|].
    assert (hole_heap le 0 0 n i (view h1)) as Hhole.
    { rewrite Hh1. apply (heap_hole (view h) i n z); [done|lia|lia|done]. }
    rewrite go_bind_assoc.
    eapply wp_bind_mono; [apply (down_spec h1 i n 0); [lia|lia|rewrite Hh1, zlen_swp; lia|lia|done]|].
    intros h2 [Hs2 Hu2]. pose proof (same_zlen _ _ _ _ Hs2) as Hl2.
    rewrite Hh1, zlen_swp in Hl2.
    eapply wp_bind_mono; [apply (up_spec h2 i n); [lia|lia|done]|]. intros h3 [Hs3 Hh3].
    pose proof (same_zlen _ _ _ _ Hs3) as Hl3.
    apply ipop_spec with (n := n); [lia|lia| |done|].
    + rewrite (proj2 Hs3) by lia. rewrite (proj2 Hs2) by lia. rewrite Hh1, nthZ_swp by lia.
      rewrite decide_False by lia. by rewrite decide_True by lia.
    + rewrite <- (proj1 Hs3), <- (proj1 Hs2), Hh1. by rewrite swp_Permutation.
Qed.

Lemma Pop_spec h :
  zlen (view h) < 2 ^ (int_bits - 1) →
  heap_inv (view h) → view h ≠ [] →
  Pop h ⇓ λ '(h', x), view h ≡ₚ x :: view h' ∧ heap_inv (view h') ∧ ∀ y, y ∈ view h → le x y.
Proof.
  intros Hint Hh Hne. unfold Pop. rewrite Len_view. set (n := zlen (view h) - 1).
  assert (0 <= n) as Hn by (destruct (view h) eqn:E; [done|]; subst n; rewrite zlen_cons;
    pose proof (zlen_nonneg l); lia).
  destruct (nthZ_is_Some (view h) 0) as [x Hx]; [lia|].
  assert (∀ y, y ∈ view h → le x y) as Hmin.
  { intros y [i Hy]%list_elem_of_lookup. rewrite lookup_nthZ in Hy.
    pose proof (nthZ_Some _ _ _ Hy).
    apply (heap_top le le_refl le_trans 0 0 (zlen (view h)) (view h) (Z.of_nat i)); try done; lia. }
  cbv zeta. apply wp_bind, wp_Swap; [lia..|]. intros h1 Hh1.
  eapply wp_bind_mono.
  { apply (down_lo_spec h1 0 n); [lia|lia|rewrite Hh1, zlen_swp; lia|lia|].
    intros p c u v Hp Hc Hcn _ Hu Hv. unfold child in Hc. rewrite Hh1 in Hu, Hv.
    rewrite nthZ_swp in Hu, Hv by lia. simpl in Hu, Hv.
    rewrite !decide_False in Hu by lia. rewrite !decide_False in Hv by lia.
    apply (Hh p c); unfold child; auto; lia. }
  intros h2 [Hs2 Hh2]. pose proof (same_zlen _ _ _ _ Hs2) as Hl2. rewrite Hh1, zlen_swp in Hl2.
  eapply wp_mono; [apply (ipop_spec h h2 n x); try done; try lia|].
  - rewrite (proj2 Hs2) by lia. rewrite Hh1, nthZ_swp by lia.
    destruct (decide (n = 0)) as [->|]; [done|]. by rewrite decide_True by lia.
  - rewrite <- (proj1 Hs2), Hh1. by rewrite swp_Permutation.
  - intros [h' y] (-> & Hp & Hi). done.
Qed.

Lemma Fix_spec h i l v :
  zlen (view h) < 2 ^ (int_bits - 1) →
  heap_inv l → 0 <= i < zlen l → view h = insZ l i v →
  Fix_ h i ⇓ λ h', view h ≡ₚ view h' ∧ heap_inv (view h').
Proof.
  intros Hint Hh Hi Hv. unfold Fix_. rewrite Len_view.
  assert (zlen (view h) = zlen l) as Hl by (by rewrite Hv, zlen_insZ).
  eapply wp_bind_mono; [apply (down_spec h i (zlen (view h)) 0); try lia; split|].
  - intros p c x y Hp Hc Hcn Hne Hx Hy. rewrite Hv in Hx, Hy.
    rewrite nthZ_insZ_ne in Hx by lia. rewrite nthZ_insZ_ne in Hy by lia.
    apply (Hh p c); auto; lia.
  - intros p c x y Hp Hpi Hic Hcn Hx Hy. unfold child in Hpi, Hic. rewrite Hv in Hx, Hy.
    rewrite nthZ_insZ_ne in Hx by lia. rewrite nthZ_insZ_ne in Hy by lia.
    destruct (nthZ_is_Some l i) as [z Hz]; [lia|].
    apply le_trans with z; [apply (Hh p i)|apply (Hh i c)]; unfold child; auto; lia.
  - intros h2 [Hs2 Hu2]. pose proof (same_zlen _ _ _ _ Hs2).
    eapply wp_mono; [apply (up_spec h2 i (zlen (view h))); [lia|lia|done]|].
    intros h3 [Hs3 Hh3]. split; [by rewrite <- (proj1 Hs3), (proj1 Hs2)|].
    unfold heap_inv. by rewrite (same_zlen _ _ _ _ Hs3), (same_zlen _ _ _ _ Hs2).
Qed.

(** [Init] turns any collection into a heap of the same elements. *)
Theorem Init_heap h :
  zlen (view h) < 2 ^ (int_bits - 1) →
  ∃ h', Init h = Ret h' ∧ view h ≡ₚ view h' ∧ heap_inv (view h').
Proof. intros. by apply wp_ex, Init_spec. Qed.

(** C9: on a heap, [Pop] removes a least element (no element is less than it)
    and leaves a heap of the others. The heap may have as many elements as an [int]
    can count: [down] stops where the index of a child overflows. *)
Theorem Pop_least h :
  zlen (view h) < 2 ^ (int_bits - 1) →
  heap_inv (view h) → view h ≠ [] →
  ∃ h' x, Pop h = Ret (h', x) ∧ view h ≡ₚ x :: view h' ∧ heap_inv (view h') ∧
    ∀ y, y ∈ view h → lt y x = false.
Proof.
  intros Hint Hh Hne. destruct (proj1 (wp_ex _ _) (Pop_spec h Hint Hh Hne)) as ([h' x] & E & HP). eauto.
Qed.

(** C10: [Push] adds its argument, [Remove] takes out the element at its index,
    [Fix] repairs a heap in which the element at its index was replaced; all
    three leave a heap, of as many elements as an [int] can count. *)
Theorem Push_Remove_Fix h :
  zlen (view h) < 2 ^ (int_bits - 1) →
  (∀ x, zlen (view h) + 1 < 2 ^ (int_bits - 1) → heap_inv (view h) → ∃ h', Push h x = Ret h' ∧ view h' ≡ₚ x :: view h ∧ heap_inv (view h')) ∧
  (∀ i x, heap_inv (view h) → (view h).[i] = Some x →
     ∃ h', Remove h i = Ret (h', x) ∧ view h ≡ₚ x :: view h' ∧ heap_inv (view h')) ∧
  (∀ i l v, heap_inv l → 0 <= i < zlen l → view h = insZ l i v →
     ∃ h', Fix_ h i = Ret h' ∧ view h ≡ₚ view h' ∧ heap_inv (view h')).
Proof.
  intros Hint. split; [|split].
  - intros x _ Hh. apply wp_ex. by apply Push_spec.
  - intros i x Hh Hx. destruct (proj1 (wp_ex _ _) (Remove_spec h i x Hint Hh Hx)) as ([h' y] & E & -> & HP).
    eauto.
  - intros i l v Hl Hi Hv. apply wp_ex. by apply (Fix_spec h i l v).
Qed.
End properties.

(** * A heap of integers, as in the package's example *)

Definition IntHeap_Push (h : IntSlice) (x : Z) : go IntSlice := Ret {| ints := ints h ++ [x] |}.
Definition IntHeap_Pop (h : IntSlice) : go (IntSlice * Z) :=
  let n := zlen (ints h) in
  x ← idx (ints h) (n - 1);
  l ← slice (ints h) 0 (n - 1);
  Ret ({| ints := l |}, x).
#[global] Instance IntHeap_Interface : HeapInterface IntSlice Z :=
  {| ipush := IntHeap_Push; ipop := IntHeap_Pop |}.
#[global] Instance IntHeap_Laws : HeapLaws IntSlice Z.
Proof.
  split; [done|]. intros h l x Hl. simpl in *. unfold IntHeap_Pop. rewrite Hl.
  pose proof (zlen_nonneg l). assert (zlen (l ++ [x]) = zlen l + 1) as Hlen by (by rewrite zlen_app).
  cbv zeta. rewrite Hlen. replace (zlen l + 1 - 1) with (zlen l) by lia.
  assert ((l ++ [x]).[zlen l] = Some x) as Hx.
  { rewrite nthZ_app. rewrite decide_False by lia. by rewrite Z.sub_diag. }
  rewrite (idx_Some _ _ _ Hx). simpl. rewrite slice_eq by lia.
  simpl. split; [done|]. rewrite Z.sub_0_r, drop_0. unfold zlen. rewrite Nat2Z.id. by apply take_app_length.
Qed.

#[local] Existing Instance Int64.
Example heap_sort_run :
  (h ← Init {| ints := [5; 2; 8] |}; h ← Push h 3;
   '(h, a) ← Pop h; '(h, b) ← Pop h; '(h, c) ← Pop h; '(h, d) ← Pop h; Ret [a; b; c; d])
  = Ret [2; 3; 5; 8].
Proof. vm_compute. reflexivity. Qed.

Lemma heap_132 : heap_inv (D := IntSlice) [1; 3; 2].
Proof.
  intros i c x y Hi Hc Hcl _ Hx Hy. unfold child in Hc. unfold le. simpl.
  change (zlen [1; 3; 2]) with 3 in Hcl.
  assert (i = 0 ∧ (c = 1 ∨ c = 2)) as [-> [-> | ->]] by lia; vm_compute in Hx, Hy; by simplify_eq.
Qed.

(** [Pop] on the heap [1, 3, 2]. *)
Lemma Pop_least_witness :
  ∃ h' x, Pop {| ints := [1; 3; 2] |} = Ret (h', x) ∧ [1; 3; 2] ≡ₚ x :: ints h'.
Proof.
  destruct (Pop_least (A := Z) {| ints := [1; 3; 2] |} ltac:(done) heap_132) as (h' & x & E & Hp & _); [done|]. eauto.
Defined.

(** [Push], [Remove] and [Fix] on the same heap. *)
Lemma Push_Remove_Fix_witness :
  (∃ h', Push {| ints := [1; 3; 2] |} 0 = Ret h' ∧ ints h' ≡ₚ [0; 1; 3; 2]) ∧
  (∃ h', Remove {| ints := [1; 3; 2] |} 1 = Ret (h', 3) ∧ [1; 3; 2] ≡ₚ 3 :: ints h') ∧
  (∃ h', Fix_ {| ints := [9; 3; 2] |} 0 = Ret h' ∧ [9; 3; 2] ≡ₚ ints h').
Proof.
  destruct (Push_Remove_Fix (A := Z) {| ints := [1; 3; 2] |} ltac:(done)) as (Hpush & Hrem & _).
  destruct (Push_Remove_Fix (A := Z) {| ints := [9; 3; 2] |} ltac:(done)) as (_ & _ & Hfix).
  destruct (Hpush 0 ltac:(done) heap_132) as (h1 & E1 & P1 & _).
  destruct (Hrem 1 3 heap_132 eq_refl) as (h2 & E2 & P2 & _).
  destruct (Hfix 0 [1; 3; 2] 9 heap_132) as (h3 & E3 & P3 & _); [by vm_compute|done|].
  split; [by exists h1|]. split; [by exists h2|by exists h3].
Defined.
