(* ===== verification/Utf8.v ===== *)
(** Package [unicode/utf8] ([src/src/unicode/utf8/utf8.go]): the UTF-8 encoding
    of runes.  A rune is an [int32] and a byte a [uint8], both as [Z]. *)
From S2P Require Import Prelude.

Definition RuneError : Z := 65533. (* '\uFFFD' *)
Definition RuneSelf : Z := 128.
Definition MaxRune : Z := 1114111. (* '\U0010FFFF' *)
Definition UTFMax : Z := 4.
Definition surrogateMin : Z := 55296. (* 0xD800 *)
Definition surrogateMax : Z := 57343. (* 0xDFFF *)
Definition tx : Z := 128.
Definition t2 : Z := 192.
Definition t3 : Z := 224.
Definition t4 : Z := 240.
Definition t5 : Z := 248.
Definition maskx : Z := 63.
Definition mask2 : Z := 31.
Definition mask3 : Z := 15.
Definition mask4 : Z := 7.
Definition rune1Max : Z := 127.
Definition rune2Max : Z := 2047.
Definition rune3Max : Z := 65535.

(** The length tests before each read are the matches on the rest. *)
Definition decodeRuneInternal (p : bytes) : Z * Z * bool :=
  match p with
  | [] => (RuneError, 0, true)
  | c0 :: p1 =>
    if c0 <? tx then (c0, 1, false) else
    if c0 <? t2 then (RuneError, 1, false) else
    match p1 with
    | [] => (RuneError, 1, true)
    | c1 :: p2 =>
      if (c1 <? tx) || (t2 <=? c1) then (RuneError, 1, false) else
      if c0 <? t3 then
        let r := Z.lor (Z.shiftl (Z.land c0 mask2) 6) (Z.land c1 maskx) in
        if r <=? rune1Max then (RuneError, 1, false) else (r, 2, false)
      else
      match p2 with
      | [] => (RuneError, 1, true)
      | c2 :: p3 =>
        if (c2 <? tx) || (t2 <=? c2) then (RuneError, 1, false) else
        if c0 <? t4 then
          let r := Z.lor (Z.lor (Z.shiftl (Z.land c0 mask3) 12) (Z.shiftl (Z.land c1 maskx) 6))
                     (Z.land c2 maskx) in
          if r <=? rune2Max then (RuneError, 1, false) else
          if (surrogateMin <=? r) && (r <=? surrogateMax) then (RuneError, 1, false)
          else (r, 3, false)
        else
        match p3 with
        | [] => (RuneError, 1, true)
        | c3 :: _ =>
          if (c3 <? tx) || (t2 <=? c3) then (RuneError, 1, false) else
          if c0 <? t5 then
            let r := Z.lor (Z.lor (Z.lor (Z.shiftl (Z.land c0 mask4) 18) (Z.shiftl (Z.land c1 maskx) 12))
                       (Z.shiftl (Z.land c2 maskx) 6)) (Z.land c3 maskx) in
            if (r <=? rune3Max) || (MaxRune <? r) then (RuneError, 1, false) else (r, 4, false)
          else (RuneError, 1, false)
        end
      end
    end
  end.

(** The copy of the decoder for strings. *)
Definition decodeRuneInStringInternal (s : bytes) : Z * Z * bool :=
  match s with
  | [] => (RuneError, 0, true)
  | c0 :: s1 =>
    if c0 <? tx then (c0, 1, false) else
    if c0 <? t2 then (RuneError, 1, false) else
    match s1 with
    | [] => (RuneError, 1, true)
    | c1 :: s2 =>
      if (c1 <? tx) || (t2 <=? c1) then (RuneError, 1, false) else
      if c0 <? t3 then
        let r := Z.lor (Z.shiftl (Z.land c0 mask2) 6) (Z.land c1 maskx) in
        if r <=? rune1Max then (RuneError, 1, false) else (r, 2, false)
      else
      match s2 with
      | [] => (RuneError, 1, true)
      | c2 :: s3 =>
        if (c2 <? tx) || (t2 <=? c2) then (RuneError, 1, false) else
        if c0 <? t4 then
          let r := Z.lor (Z.lor (Z.shiftl (Z.land c0 mask3) 12) (Z.shiftl (Z.land c1 maskx) 6))
                     (Z.land c2 maskx) in
          if r <=? rune2Max then (RuneError, 1, false) else
          if (surrogateMin <=? r) && (r <=? surrogateMax) then (RuneError, 1, false)
          else (r, 3, false)
        else
        match s3 with
        | [] => (RuneError, 1, true)
        | c3 :: _ =>
          if (c3 <? tx) || (t2 <=? c3) then (RuneError, 1, false) else
          if c0 <? t5 then
            let r := Z.lor (Z.lor (Z.lor (Z.shiftl (Z.land c0 mask4) 18) (Z.shiftl (Z.land c1 maskx) 12))
                       (Z.shiftl (Z.land c2 maskx) 6)) (Z.land c3 maskx) in
            if (r <=? rune3Max) || (MaxRune <? r) then (RuneError, 1, false) else (r, 4, false)
          else (RuneError, 1, false)
        end
      end
    end
  end.

Definition FullRune (p : bytes) : bool :=
  let '(_, _, short) := decodeRuneInternal p in negb short.
Definition FullRuneInString (s : bytes) : bool :=
  let '(_, _, short) := decodeRuneInStringInternal s in negb short.
Definition DecodeRune (p : bytes) : Z * Z :=
  let '(r, size, _) := decodeRuneInternal p in (r, size).
Definition DecodeRuneInString (s : bytes) : Z * Z :=
  let '(r, size, _) := decodeRuneInStringInternal s in (r, size).

Definition RuneStart (b : Z) : bool := negb (Z.land b 192 =? 128).

(** [for start--; start >= lim; start-- { if RuneStart(p[start]) { break } }]. *)
Definition back_to_start (p : bytes) (start lim : Z) : go Z :=
  loop (S (S (Z.to_nat (start - lim)))) (λ start,
    if lim <=? start then
      b ← idx p start;
      if RuneStart b then Ret (inr start) else Ret (inl (start - 1))
    else Ret (inr start)) (start - 1).

Definition DecodeLastRune (p : bytes) : go (Z * Z) :=
  let end_ := zlen p in
  if end_ =? 0 then Ret (RuneError, 0) else
  let start := end_ - 1 in
  r ← idx p start;
  if r <? RuneSelf then Ret (r, 1) else
  let lim := end_ - UTFMax in
  let lim := if lim <? 0 then 0 else lim in
  start ← back_to_start p start lim;
  let start := if start <? 0 then 0 else start in
  q ← slice p start end_;
  let '(r, size) := DecodeRune q in
  if negb (start + size =? end_) then Ret (RuneError, 1) else Ret (r, size).

Definition DecodeLastRuneInString (s : bytes) : go (Z * Z) :=
  let end_ := zlen s in
  if end_ =? 0 then Ret (RuneError, 0) else
  let start := end_ - 1 in
  r ← idx s start;
  if r <? RuneSelf then Ret (r, 1) else
  let lim := end_ - UTFMax in
  let lim := if lim <? 0 then 0 else lim in
  start ← back_to_start s start lim;
  let start := if start <? 0 then 0 else start in
  q ← slice s start end_;
  let '(r, size) := DecodeRuneInString q in
  if negb (start + size =? end_) then Ret (RuneError, 1) else Ret (r, size).

Definition RuneLen (r : Z) : Z :=
  if r <? 0 then -1 else
  if r <=? rune1Max then 1 else
  if r <=? rune2Max then 2 else
  if (surrogateMin <=? r) && (r <=? surrogateMax) then -1 else
  if r <=? rune3Max then 3 else
  if r <=? MaxRune then 4 else -1.

(** The writes of the three-byte case, reached directly or by [fallthrough]. *)
Definition encode3 (p : bytes) (r : Z) : go (bytes * Z) :=
  p ← upd p 0 (Z.lor t3 (u8 (Z.shiftr r 12)));
  p ← upd p 1 (Z.lor tx (Z.land (u8 (Z.shiftr r 6)) maskx));
  p ← upd p 2 (Z.lor tx (Z.land (u8 r) maskx));
  Ret (p, 3).

Definition EncodeRune (p : bytes) (r : Z) : go (bytes * Z) :=
  let i := u32 r in
  if i <=? rune1Max then
    p ← upd p 0 (u8 r); Ret (p, 1)
  else if i <=? rune2Max then
    p ← upd p 0 (Z.lor t2 (u8 (Z.shiftr r 6)));
    p ← upd p 1 (Z.lor tx (Z.land (u8 r) maskx));
    Ret (p, 2)
  else if (MaxRune <? i) || ((surrogateMin <=? i) && (i <=? surrogateMax)) then
    encode3 p RuneError
  else if i <=? rune3Max then encode3 p r
  else
    p ← upd p 0 (Z.lor t4 (u8 (Z.shiftr r 18)));
    p ← upd p 1 (Z.lor tx (Z.land (u8 (Z.shiftr r 12)) maskx));
    p ← upd p 2 (Z.lor tx (Z.land (u8 (Z.shiftr r 6)) maskx));
    p ← upd p 3 (Z.lor tx (Z.land (u8 r) maskx));
    Ret (p, 4).

Definition RuneCount (p : bytes) : go Z :=
  '(_, n) ← while (S (length p))
    (λ '(i, _), Ret (i <? zlen p))
    (λ '(i, n),
      b ← idx p i;
      if b <? RuneSelf then Ret (i + 1, n + 1) else
      q ← slice_from p i;
      let '(_, size) := DecodeRune q in
      Ret (i + size, n + 1)) (0, 0);
  Ret n.

(** [for i, r := range s]: the runes of a string with their offsets, decoded one
    after the other; an invalid byte is one [RuneError]. *)
Definition range (s : bytes) : go (list (Z * Z)) :=
  '(_, acc) ← while (S (length s))
    (λ '(i, _), Ret (i <? zlen s))
    (λ '(i, acc),
      q ← slice_from s i;
      let '(r, size) := DecodeRuneInString q in
      Ret (i + size, acc ++ [(i, r)])) (0, []);
  Ret acc.

Definition RuneCountInString (s : bytes) : go Z :=
  rs ← range s; Ret (zlen rs).

Definition Valid (p : bytes) : go bool :=
  loop (S (length p)) (λ i,
    if i <? zlen p then
      b ← idx p i;
      if b <? RuneSelf then Ret (inl (i + 1)) else
      q ← slice_from p i;
      let '(_, size) := DecodeRune q in
      if size =? 1 then Ret (inr false) else Ret (inl (i + size))
    else Ret (inr true)) 0.

Definition ValidString (s : bytes) : go bool :=
  rs ← range s;
  loop (S (length rs)) (λ rs,
    match rs with
    | [] => Ret (inr true)
    | (i, r) :: rs' =>
        if r =? RuneError then
          q ← slice_from s i;
          let '(_, size) := DecodeRuneInString q in
          if size =? 1 then Ret (inr false) else Ret (inl rs')
        else Ret (inl rs')
    end) rs.

Definition ValidRune (r : Z) : bool :=
  if r <? 0 then false else
  if (surrogateMin <=? r) && (r <=? surrogateMax) then false else
  if MaxRune <? r then false else true.

(** * The encoding as arithmetic *)

(** The UTF-8 form of a valid rune. *)
Definition enc (r : Z) : bytes :=
  if r <? 128 then [r] else
  if r <? 2048 then [192 + r / 64; 128 + r mod 64] else
  if r <? 65536 then [224 + r / 4096; 128 + r / 64 mod 64; 128 + r mod 64] else
  [240 + r / 262144; 128 + r / 4096 mod 64; 128 + r / 64 mod 64; 128 + r mod 64].

Definition cont (c : Z) : Prop := 128 <= c < 192.

Lemma land_maskx c : Z.land c maskx = c mod 64.
Proof. exact (land_mask c 6 ltac:(done)). Qed.
Lemma land_mask2 c : Z.land c mask2 = c mod 32.
Proof. exact (land_mask c 5 ltac:(done)). Qed.
Lemma land_mask3 c : Z.land c mask3 = c mod 16.
Proof. exact (land_mask c 4 ltac:(done)). Qed.
Lemma land_mask4 c : Z.land c mask4 = c mod 8.
Proof. exact (land_mask c 3 ltac:(done)). Qed.

Lemma join2 c0 c1 :
  Z.lor (Z.shiftl (Z.land c0 mask2) 6) (Z.land c1 maskx) = c0 mod 32 * 64 + c1 mod 64.
Proof. rewrite land_maskx, land_mask2. rewrite lor_shiftl_add by lia_div. done. Qed.

Lemma lor_shiftl_12_6 a b c :
  0 <= b < 64 → 0 <= c < 64 →
  Z.lor (Z.lor (Z.shiftl a 12) (Z.shiftl b 6)) c = a * 4096 + b * 64 + c.
Proof.
  intros Hb Hc. rewrite (Z.shiftl_mul_pow2 b 6) by done.
  rewrite lor_shiftl_add by lia. apply (lor_high_add _ 6); lia_div.
Qed.

Lemma join3 c0 c1 c2 :
  Z.lor (Z.lor (Z.shiftl (Z.land c0 mask3) 12) (Z.shiftl (Z.land c1 maskx) 6)) (Z.land c2 maskx)
  = c0 mod 16 * 4096 + c1 mod 64 * 64 + c2 mod 64.
Proof. rewrite !land_maskx, land_mask3. apply lor_shiftl_12_6; lia_div. Qed.

Lemma join4 c0 c1 c2 c3 :
  Z.lor (Z.lor (Z.lor (Z.shiftl (Z.land c0 mask4) 18) (Z.shiftl (Z.land c1 maskx) 12))
    (Z.shiftl (Z.land c2 maskx) 6)) (Z.land c3 maskx)
  = c0 mod 8 * 262144 + c1 mod 64 * 4096 + c2 mod 64 * 64 + c3 mod 64.
Proof.
  rewrite !land_maskx, land_mask4.
  rewrite (Z.shiftl_mul_pow2 (c1 mod 64) 12) by done.
  rewrite lor_shiftl_add by lia_div.
  rewrite (Z.shiftl_mul_pow2 (c2 mod 64) 6) by done.
  rewrite (lor_high_add _ 12 (c2 mod 64 * 2 ^ 6)) by lia_div.
  rewrite (lor_high_add _ 6) by lia_div. lia.
Qed.

Lemma ValidRune_iff r :
  ValidRune r = true ↔ 0 <= r <= 1114111 ∧ ¬ (55296 <= r <= 57343).
Proof.
  unfold ValidRune, surrogateMin, surrogateMax, MaxRune. bool_cases; split; intros; try done; lia.
Qed.

Lemma enc_length r : zlen (enc r) = if r <? 128 then 1 else if r <? 2048 then 2 else if r <? 65536 then 3 else 4.
Proof. unfold enc. by repeat case_match. Qed.
Lemma enc_length_bound r : 1 <= zlen (enc r) <= 4.
Proof. rewrite enc_length. bool_cases. Qed.

Lemma RuneLen_valid r : ValidRune r = true → RuneLen r = zlen (enc r).
Proof.
  rewrite ValidRune_iff, enc_length. intros Hr.
  unfold RuneLen, rune1Max, rune2Max, surrogateMin, surrogateMax, rune3Max, MaxRune. bool_cases.
Qed.

Lemma enc_bytes r : ValidRune r = true → are_bytes (enc r).
Proof.
  rewrite ValidRune_iff. intros Hr. unfold enc. bool_cases; repeat constructor; unfold is_byte; lia_div.
Qed.

(** Rewrites the bit operations of the decoder, leaving comparisons to [lia]. *)
Ltac decode_arith :=
  unfold tx, t2, t3, t4, t5, rune1Max, rune2Max, rune3Max, surrogateMin, surrogateMax, MaxRune in *;
  cbv zeta; rewrite ?join2, ?join3, ?join4.

Lemma decode_enc r q :
  ValidRune r = true → decodeRuneInternal (enc r ++ q) = (r, zlen (enc r), false).
Proof.
  rewrite ValidRune_iff, enc_length. intros Hr. unfold enc.
  destruct (Z.ltb_spec r 128); [|destruct (Z.ltb_spec r 2048); [|destruct (Z.ltb_spec r 65536)]];
    simpl; decode_arith; cbv zeta.
  - by rewrite (proj2 (Z.ltb_lt r 128)).
  - replace (_ * 64 + _) with r by lia_div.
    assert (192 <= 192 + r / 64 < 224 ∧ 128 <= 128 + r mod 64 < 192) by lia_div. bool_cases. done.
  - replace (_ * 4096 + _ + _) with r by lia_div.
    assert (224 <= 224 + r / 4096 < 240 ∧ 128 <= 128 + r / 64 mod 64 < 192 ∧ 128 <= 128 + r mod 64 < 192) by lia_div.
    bool_cases; done.
  - replace (_ * 262144 + _ + _ + _) with r by lia_div.
    assert (240 <= 240 + r / 262144 < 245 ∧ 128 <= 128 + r / 4096 mod 64 < 192
      ∧ 128 <= 128 + r / 64 mod 64 < 192 ∧ 128 <= 128 + r mod 64 < 192) by lia_div.
    bool_cases; done.
Qed.

Lemma decode_nil : decodeRuneInternal [] = (RuneError, 0, true).
Proof. done. Qed.

(** Whatever the bytes: an error of width one, or the canonical form of a rune. *)
Lemma decode_inv p r n sh :
  are_bytes p → decodeRuneInternal p = (r, n, sh) →
  p = [] ∧ r = RuneError ∧ n = 0 ∧ sh = true ∨
  p ≠ [] ∧ r = RuneError ∧ n = 1 ∨
  sh = false ∧ ValidRune r = true ∧ n = zlen (enc r) ∧ ∃ q, p = enc r ++ q.
Proof.
  intros Hp. destruct p as [|c0 p1]; [intros [= <- <- <-]; by left|].
  intros Hd. right. revert Hd. rewrite Forall_cons in Hp. destruct Hp as [Hb0 Hp]. unfold is_byte in Hb0.
  rewrite ValidRune_iff, enc_length. simpl. decode_arith. cbv zeta.
  destruct (Z.ltb_spec c0 128).
  { intros [= <- <- <-]. right. unfold enc. rewrite (proj2 (Z.ltb_lt c0 128)) by lia.
    split; [done|]. split; [lia|]. split; [done|]. by exists p1. }
  destruct (Z.ltb_spec c0 192); [intros [= <- <- <-]; by left|].
  destruct p1 as [|c1 p2]; [intros [= <- <- <-]; by left|].
  rewrite Forall_cons in Hp. destruct Hp as [Hb1 Hp]. unfold is_byte in Hb1.
  destruct (Z.ltb_spec c1 128), (Z.leb_spec 192 c1); simpl; try (intros [= <- <- <-]; by left).
  rewrite ?join2. destruct (Z.ltb_spec c0 224).
  { destruct (Z.leb_spec (c0 mod 32 * 64 + c1 mod 64) 127); intros [= <- <- <-]; [by left|].
    right. split; [done|]. split; [lia_div|].
    assert (128 <= c0 mod 32 * 64 + c1 mod 64 < 2048) by lia_div.
    unfold enc. bool_cases. split; [done|]. exists p2. simpl. f_equal; [lia_div|]. f_equal. lia_div. }
  destruct p2 as [|c2 p3]; [intros [= <- <- <-]; by left|].
  rewrite Forall_cons in Hp. destruct Hp as [Hb2 Hp]. unfold is_byte in Hb2.
  destruct (Z.ltb_spec c2 128), (Z.leb_spec 192 c2); simpl; try (intros [= <- <- <-]; by left).
  rewrite ?join3. destruct (Z.ltb_spec c0 240).
  { set (r0 := c0 mod 16 * 4096 + c1 mod 64 * 64 + c2 mod 64).
    assert (0 <= r0 < 65536 ∧ r0 / 4096 = c0 - 224 ∧ r0 / 64 mod 64 = c1 - 128 ∧ r0 mod 64 = c2 - 128)
      by (subst r0; lia_div).
    destruct (Z.leb_spec r0 2047); [intros [= <- <- <-]; by left|].
    destruct (Z.leb_spec 55296 r0), (Z.leb_spec r0 57343); simpl; intros [= <- <- <-]; try (by left); try (exfalso; lia);
      (right; split; [done|]; split; [lia|]; unfold enc; bool_cases; split; [done|];
       exists p3; simpl; f_equal; [lia|]; f_equal; [lia|]; f_equal; lia). }
  destruct p3 as [|c3 p4]; [intros [= <- <- <-]; by left|].
  rewrite Forall_cons in Hp. destruct Hp as [Hb3 Hp]. unfold is_byte in Hb3.
  destruct (Z.ltb_spec c3 128), (Z.leb_spec 192 c3); simpl; try (intros [= <- <- <-]; by left).
  rewrite ?join4. destruct (Z.ltb_spec c0 248); [|intros [= <- <- <-]; by left].
  set (r0 := c0 mod 8 * 262144 + c1 mod 64 * 4096 + c2 mod 64 * 64 + c3 mod 64).
  assert (0 <= r0 ∧ r0 / 262144 = c0 - 240 ∧ r0 / 4096 mod 64 = c1 - 128
    ∧ r0 / 64 mod 64 = c2 - 128 ∧ r0 mod 64 = c3 - 128) by (subst r0; lia_div).
  destruct (Z.leb_spec r0 65535), (Z.ltb_spec 1114111 r0); simpl; intros [= <- <- <-]; try (by left); try (exfalso; lia).
  right. split; [done|]. split; [lia|]. unfold enc. bool_cases. split; [done|].
  exists p4. simpl. f_equal; [lia|]. f_equal; [lia|]. f_equal; [lia|]. f_equal; lia.
Qed.

(** The width is at least one and within the input. *)
Lemma decode_size p r n sh :
  decodeRuneInternal p = (r, n, sh) → p ≠ [] → 1 <= n <= zlen p.
Proof.
  intros Hd Hne. destruct p as [|c0 p1]; [done|]. rewrite zlen_cons. pose proof (zlen_nonneg p1).
  revert Hd. cbn [decodeRuneInternal]. cbv zeta.
  repeat (case_match; try (intros [= <- <- <-]; rewrite ?zlen_cons in *; try lia)).
  all: try (pose proof (zlen_nonneg l); rewrite ?zlen_cons in *; try pose proof (zlen_nonneg l0);
    try pose proof (zlen_nonneg l1); lia).
Qed.

(** A result that is not short does not depend on what follows. *)
Lemma decode_app p q r n :
  decodeRuneInternal p = (r, n, false) → decodeRuneInternal (p ++ q) = (r, n, false).
Proof.
  destruct p as [|c0 [|c1 [|c2 [|c3 p]]]]; cbn [decodeRuneInternal app]; cbv zeta; repeat case_match; try done; congruence.
Qed.

Lemma decodeRuneInStringInternal_eq s : decodeRuneInStringInternal s = decodeRuneInternal s.
Proof. done. Qed.

(** * Texts as sequences of decoded runes *)

(** The runes of a byte string with their widths, as the decoder meets them. *)
Fixpoint chunks_fuel (n : nat) (p : bytes) : list (Z * Z) :=
  match n, p with
  | S n', _ :: _ =>
      let '(r, size) := DecodeRune p in
      (r, size) :: chunks_fuel n' (drop (Z.to_nat size) p)
  | _, _ => []
  end.
Definition chunks (p : bytes) : list (Z * Z) := chunks_fuel (length p) p.

(** The offsets at which the runes start, from [i]. *)
Fixpoint offsets (i : Z) (cs : list (Z * Z)) : list (Z * Z) :=
  match cs with
  | [] => []
  | (r, size) :: cs' => (i, r) :: offsets (i + size) cs'
  end.

(** Well-formed UTF-8: a concatenation of encodings of valid runes. *)
Definition utf8 (p : bytes) : Prop :=
  ∃ rs, Forall (λ r, ValidRune r = true) rs ∧ p = concat (map enc rs).

Lemma DecodeRune_size p r n : DecodeRune p = (r, n) → p ≠ [] → 1 <= n <= zlen p.
Proof.
  unfold DecodeRune. destruct (decodeRuneInternal p) as [[r' n'] sh] eqn:E.
  intros [= -> ->]. by eapply decode_size.
Qed.

Lemma chunks_fuel_enough n p : (length p <= n)%nat → chunks_fuel n p = chunks p.
Proof.
  unfold chunks. intros H.
  assert (∀ n m p, (length p <= n)%nat → (length p <= m)%nat → chunks_fuel n p = chunks_fuel m p) as Hg.
  { clear. intros n. induction n as [|n IH]; intros [|m] [|b p] Hn Hm; simpl in *; try lia; try done.
    destruct (DecodeRune (b :: p)) as [r size] eqn:E. f_equal.
    apply DecodeRune_size in E; [|done]. rewrite zlen_cons in E. unfold zlen in E.
    apply IH; rewrite length_drop; simpl; lia. }
  by apply Hg.
Qed.

Lemma chunks_cons p r size :
  p ≠ [] → DecodeRune p = (r, size) → chunks p = (r, size) :: chunks (drop (Z.to_nat size) p).
Proof.
  intros Hne E. pose proof (DecodeRune_size _ _ _ E Hne) as Hs.
  destruct p as [|b p]; [done|]. unfold chunks at 1. simpl length. cbn [chunks_fuel]. rewrite E.
  f_equal. apply chunks_fuel_enough. rewrite length_drop. rewrite zlen_cons in Hs. unfold zlen in Hs.
  simpl. lia.
Qed.

Lemma DecodeRune_enc r q : ValidRune r = true → DecodeRune (enc r ++ q) = (r, zlen (enc r)).
Proof. intros Hr. unfold DecodeRune. by rewrite decode_enc. Qed.

Lemma DecodeRune_ascii b q : b < 128 → DecodeRune (b :: q) = (b, 1).
Proof. intros Hb. unfold DecodeRune, decodeRuneInternal, tx. by rewrite (proj2 (Z.ltb_lt b 128)). Qed.

Lemma enc_nonempty r q : enc r ++ q ≠ [].
Proof. pose proof (enc_length_bound r). intros [H1 _]%app_nil. rewrite H1, zlen_nil in H. lia. Qed.

Lemma drop_enc r q : drop (Z.to_nat (zlen (enc r))) (enc r ++ q) = q.
Proof. unfold zlen. by rewrite Nat2Z.id, drop_app_length. Qed.

Lemma chunks_enc r q : ValidRune r = true → chunks (enc r ++ q) = (r, zlen (enc r)) :: chunks q.
Proof.
  intros Hr. rewrite (chunks_cons _ _ _ (enc_nonempty r q) (DecodeRune_enc r q Hr)). by rewrite drop_enc.
Qed.

Lemma chunks_utf8 rs :
  Forall (λ r, ValidRune r = true) rs →
  chunks (concat (map enc rs)) = map (λ r, (r, zlen (enc r))) rs.
Proof. induction 1 as [|r rs Hr _ IH]; [done|]. simpl. by rewrite chunks_enc, IH. Qed.

(** The loops keep a position [i] and have still to do the chunks of the rest. *)
Lemma drop_chunks p i :
  0 <= i < zlen p → ∃ r size, DecodeRune (drop (Z.to_nat i) p) = (r, size) ∧
    1 <= size <= zlen p - i ∧
    chunks (drop (Z.to_nat i) p) = (r, size) :: chunks (drop (Z.to_nat (i + size)) p).
Proof.
  intros Hi. destruct (DecodeRune (drop (Z.to_nat i) p)) as [r size] eqn:E.
  assert (drop (Z.to_nat i) p ≠ []) as Hne.
  { intros H0. pose proof (zlen_drop p i ltac:(lia)) as Hl. rewrite H0, zlen_nil in Hl. lia. }
  exists r, size. split; [done|]. pose proof (DecodeRune_size _ _ _ E Hne) as Hs.
  rewrite zlen_drop in Hs by lia. split; [lia|].
  rewrite (chunks_cons _ _ _ Hne E). rewrite drop_drop. do 3 f_equal. lia.
Qed.

Lemma drop_head (p : bytes) i b : p.[i] = Some b → drop (Z.to_nat i) p = b :: drop (Z.to_nat (i + 1)) p.
Proof.
  intros Hb. pose proof (nthZ_Some _ _ _ Hb). unfold nthZ in Hb. rewrite decide_True in Hb by lia.
  rewrite (drop_S _ _ _ Hb). do 2 f_equal. lia.
Qed.

Lemma chunks_end p i : i = zlen p → chunks (drop (Z.to_nat i) p) = [].
Proof. intros ->. unfold zlen. by rewrite Nat2Z.id, drop_all. Qed.

Lemma RuneCount_eq p : RuneCount p = Ret (zlen (chunks p)).
Proof.
  unfold RuneCount. set (w := while _ _ _ _).
  assert (w ⇓ λ '(_, n), n = zlen (chunks p)) as Hw.
  { apply wp_while with
      (I := λ '(i, n), 0 <= i <= zlen p ∧ n + zlen (chunks (drop (Z.to_nat i) p)) = zlen (chunks p))
      (meas := λ '(i, _), zlen p - i).
    - intros [i n] [Hi Hn]. simpl. destruct (Z.ltb_spec i (zlen p)).
      + destruct (drop_chunks p i) as (r & size & E & Hs & Hc); [lia|].
        apply wp_bind, wp_idx; [lia|]. intros b Hb. rewrite Hc, zlen_cons in Hn.
        rewrite (drop_head _ _ _ Hb) in E. destruct (Z.ltb_spec b RuneSelf) as [Hlt|].
        * rewrite DecodeRune_ascii in E by done. simplify_eq. simpl. lia.
        * rewrite slice_from_eq by lia. simpl. rewrite (drop_head _ _ _ Hb), E. simpl. lia.
      + rewrite chunks_end in Hn by lia. rewrite zlen_nil in Hn. lia.
    - rewrite drop_0. pose proof (zlen_nonneg p). lia.
    - unfold zlen. lia. }
  destruct w as [[i n]| |]; simpl in *; [by subst|done..].
Qed.

Lemma range_eq s : range s = Ret (offsets 0 (chunks s)).
Proof.
  unfold range. set (w := while _ _ _ _).
  assert (w ⇓ λ '(_, acc), acc = offsets 0 (chunks s)) as Hw.
  { apply wp_while with
      (I := λ '(i, acc), 0 <= i <= zlen s ∧ acc ++ offsets i (chunks (drop (Z.to_nat i) s)) = offsets 0 (chunks s))
      (meas := λ '(i, _), zlen s - i).
    - intros [i acc] [Hi Hn]. simpl. destruct (Z.ltb_spec i (zlen s)).
      + destruct (drop_chunks s i) as (r & size & E & Hs & Hc); [lia|].
        rewrite slice_from_eq by lia. simpl. change DecodeRuneInString with DecodeRune. rewrite E. simpl.
        rewrite Hc in Hn. simpl in Hn. rewrite <- app_assoc. split; [|lia]. split; [lia|done].
      + rewrite chunks_end in Hn by lia. by rewrite app_nil_r in Hn.
    - rewrite drop_0. pose proof (zlen_nonneg s). split; [lia|done].
    - unfold zlen. lia. }
  destruct w as [[i n]| |]; simpl in *; [by subst|done..].
Qed.

Lemma offsets_length i cs : zlen (offsets i cs) = zlen cs.
Proof. revert i. induction cs as [|[r n] cs IH]; intros i; [done|]. simpl. by rewrite !zlen_cons, IH. Qed.

Lemma offsets_runes i cs : map snd (offsets i cs) = map fst cs.
Proof. revert i. induction cs as [|[r n] cs IH]; intros i; [done|]. simpl. by rewrite IH. Qed.

(** * Well-formedness *)

Lemma enc_ascii r : zlen (enc r) = 1 → r < 128 ∧ enc r = [r].
Proof. rewrite enc_length. unfold enc. by bool_cases. Qed.

Lemma utf8_cons r q : ValidRune r = true → utf8 q → utf8 (enc r ++ q).
Proof. intros Hr (rs & Hrs & ->). exists (r :: rs). split; [by constructor|done]. Qed.

(** One decoding step from the front decides well-formedness. *)
Lemma utf8_step p r size :
  are_bytes p → p ≠ [] → DecodeRune p = (r, size) →
  (r = RuneError ∧ size = 1 → ¬ utf8 p) ∧
  (¬ (r = RuneError ∧ size = 1) → utf8 p ↔ utf8 (drop (Z.to_nat size) p)).
Proof.
  intros Hb Hne E. assert (E' := E). unfold DecodeRune in E'.
  destruct (decodeRuneInternal p) as [[r' n'] sh] eqn:Ed. simplify_eq.
  split.
  - intros [-> ->] (rs & Hrs & ->). destruct Hrs as [|r rs Hr Hrs]; [done|].
    simpl in E. rewrite DecodeRune_enc in E by done. by simplify_eq.
  - intros Hn. destruct (decode_inv _ _ _ _ Hb Ed) as [[-> _]|[(_ & -> & ->)|(_ & Hr & -> & q & ->)]]; [done|tauto|].
    rewrite drop_enc. split; [|by apply utf8_cons].
    intros (rs & Hrs & Hp). destruct Hrs as [|r' rs Hr' Hrs].
    { by apply enc_nonempty in Hp. }
    simpl in Hp. rewrite Hp in E. rewrite DecodeRune_enc in E by done.
    assert (r' = r) as -> by congruence. apply app_inv_head in Hp. subst q. by exists rs.
Qed.

(** A byte from 128 on that decodes with width one is no part of a rune. *)
Lemma decode_high_one b q r :
  are_bytes (b :: q) → 128 <= b → DecodeRune (b :: q) = (r, 1) → r = RuneError.
Proof.
  intros Hb Hh E. unfold DecodeRune in E. destruct (decodeRuneInternal _) as [[r' n'] sh] eqn:Ed. simplify_eq.
  destruct (decode_inv _ _ _ _ Hb Ed) as [[? _]|[(_ & ? & _)|(_ & _ & Hl & q' & Hq)]]; [done..|].
  destruct (enc_ascii r (eq_sym Hl)) as [? He]. rewrite He in Hq. simplify_eq/=. lia.
Qed.

Lemma are_bytes_drop n p : are_bytes p → are_bytes (drop n p).
Proof. apply Forall_drop. Qed.

Lemma utf8_nil : utf8 [].
Proof. by exists []. Qed.

(** The step at offset [i] of a text. *)
Lemma utf8_step_at p i r size :
  are_bytes p → 0 <= i < zlen p → DecodeRune (drop (Z.to_nat i) p) = (r, size) → 1 <= size →
  (r = RuneError ∧ size = 1 → ¬ utf8 (drop (Z.to_nat i) p)) ∧
  (¬ (r = RuneError ∧ size = 1) → utf8 (drop (Z.to_nat i) p) ↔ utf8 (drop (Z.to_nat (i + size)) p)).
Proof.
  intros Hp Hi E Hs.
  assert (drop (Z.to_nat i) p ≠ []) as Hne.
  { intros H0. pose proof (zlen_drop p i ltac:(lia)) as Hl. rewrite H0, zlen_nil in Hl. lia. }
  destruct (utf8_step _ _ _ (are_bytes_drop _ _ Hp) Hne E) as [H1 H2]. split; [done|].
  intros Hn. rewrite (H2 Hn), drop_drop. by replace (Z.to_nat (i + size)) with (Z.to_nat i + Z.to_nat size)%nat by lia.
Qed.

Lemma utf8_end p i : i = zlen p → utf8 (drop (Z.to_nat i) p).
Proof. intros ->. unfold zlen. rewrite Nat2Z.id, drop_all. apply utf8_nil. Qed.

Lemma Valid_spec p : are_bytes p → Valid p ⇓ λ b, b = true ↔ utf8 p.
Proof.
  intros Hp. unfold Valid.
  apply wp_loop with (I := λ i, 0 <= i <= zlen p ∧ (utf8 p ↔ utf8 (drop (Z.to_nat i) p))) (meas := λ i, zlen p - i).
  - intros i [Hi Hn]. destruct (Z.ltb_spec i (zlen p)).
    + destruct (drop_chunks p i) as (r & size & E & Hs & _); [lia|].
      destruct (utf8_step_at p i r size Hp ltac:(lia) E ltac:(lia)) as [Hf Ht].
      apply wp_bind, wp_idx; [lia|]. intros b Hb. destruct (Z.ltb_spec b RuneSelf).
      * rewrite (drop_head _ _ _ Hb), DecodeRune_ascii in E by done. assert (size = 1) as -> by congruence.
        assert (b = r) as -> by congruence.
        simpl. split; [|lia]. split; [lia|]. rewrite Hn. apply Ht. unfold RuneError, RuneSelf in *. lia.
      * rewrite slice_from_eq by lia. simpl. rewrite E. destruct (Z.eqb_spec size 1) as [->|]; simpl.
        -- split; [done|]. rewrite Hn. intros Hu. exfalso. apply Hf in Hu; [done|]. split; [|done].
           eapply decode_high_one; [|unfold RuneSelf in *; eassumption|rewrite <- (drop_head _ _ _ Hb); exact E].
           rewrite <- (drop_head _ _ _ Hb). by apply are_bytes_drop.
        -- split; [|lia]. split; [lia|]. rewrite Hn. apply Ht. lia.
    + simpl. rewrite Hn. split; [|done]. intros _. apply utf8_end. lia.
  - rewrite drop_0. pose proof (zlen_nonneg p). split; [lia|done].
  - unfold zlen. lia.
Qed.

Lemma ValidString_spec s : are_bytes s → ValidString s ⇓ λ b, b = true ↔ utf8 s.
Proof.
  intros Hp. unfold ValidString. rewrite range_eq, go_bind_ret. cbv beta.
  apply wp_loop with
    (I := λ rs, ∃ i, rs = offsets i (chunks (drop (Z.to_nat i) s)) ∧ 0 <= i <= zlen s ∧ (utf8 s ↔ utf8 (drop (Z.to_nat i) s)))
    (meas := λ rs, zlen rs).
  - intros rs (i & -> & Hi & Hn). destruct (decide (i = zlen s)) as [He|].
    { rewrite chunks_end by done. simpl. rewrite Hn. split; [|done]. intros _. by apply utf8_end. }
    destruct (drop_chunks s i) as (r & size & E & Hs & Hc); [lia|]. rewrite Hc. simpl.
    destruct (utf8_step_at s i r size Hp ltac:(lia) E ltac:(lia)) as [Hf Ht].
    set (rest := offsets (i + size) _). pose proof (zlen_nonneg rest).
    destruct (Z.eqb_spec r RuneError) as [->|].
    + rewrite slice_from_eq by lia. simpl. change DecodeRuneInString with DecodeRune. rewrite E.
      destruct (Z.eqb_spec size 1) as [->|]; simpl.
      * split; [done|]. rewrite Hn. intros Hu. exfalso. by apply Hf in Hu.
      * split; [|rewrite zlen_cons; lia]. exists (i + size). split; [done|]. split; [lia|]. rewrite Hn. apply Ht. lia.
    + simpl. split; [|rewrite zlen_cons; lia]. exists (i + size). split; [done|]. split; [lia|]. rewrite Hn. apply Ht. tauto.
  - exists 0. rewrite drop_0. pose proof (zlen_nonneg s). split; [done|]. split; [lia|done].
  - unfold zlen. lia.
Qed.

(** * Encoding *)

(** What is encoded in the place of [r]. *)
Definition norm (r : Z) : Z := if ValidRune r then r else RuneError.

Lemma norm_valid r : ValidRune (norm r) = true.
Proof. unfold norm. by destruct (ValidRune r) eqn:E. Qed.

Lemma lor_tx x : Z.lor tx (Z.land (u8 x) maskx) = 128 + x mod 64.
Proof.
  rewrite land_maskx. unfold wrap, tx. rewrite (lor_high_add 128 6) by lia_div. f_equal.
  change (2 ^ 8) with (64 * 4). rewrite Z.rem_mul_r by lia. rewrite Z.mul_comm, Z.mod_add by lia. apply Z.mod_mod. lia.
Qed.

Lemma shiftr_div r k : 0 <= k → Z.shiftr r k = r / 2 ^ k.
Proof. apply Z.shiftr_div_pow2. Qed.

Lemma encode3_eq x0 x1 x2 p r :
  2048 <= r < 65536 → encode3 (x0 :: x1 :: x2 :: p) r = Ret (enc r ++ p, 3).
Proof.
  intros Hr. unfold encode3. rewrite !lor_tx. upds.
  unfold enc. bool_cases. rewrite !shiftr_div by done. unfold wrap, t3.
  assert (r / 2 ^ 12 mod 2 ^ 8 = r / 4096 ∧ r / 2 ^ 6 mod 64 = r / 64 mod 64) as [-> ->] by lia_div.
  by rewrite (lor_high_add 224 4) by lia_div.
Qed.

Lemma EncodeRune_spec p r :
  - 2 ^ 31 <= r < 2 ^ 31 → zlen (enc (norm r)) <= zlen p →
  EncodeRune p r = Ret (enc (norm r) ++ drop (Z.to_nat (zlen (enc (norm r)))) p, zlen (enc (norm r))).
Proof.
  intros Hr Hl. rewrite enc_length in *. unfold EncodeRune.
  assert (ValidRune r = true ↔ 0 <= r <= 1114111 ∧ ¬ (55296 <= r <= 57343)) as Hv by apply ValidRune_iff.
  unfold norm in *. unfold rune1Max, rune2Max, rune3Max, MaxRune, surrogateMin, surrogateMax.
  destruct (ValidRune r) eqn:E.
  - rewrite (wrap_small 32 r) by lia.
    destruct p as [|x0 p]; [rewrite zlen_nil in Hl; bool_cases_in Hl|]. rewrite ?zlen_cons in Hl.
    destruct (Z.leb_spec r 127).
    { upds. rewrite (wrap_small 8) by lia. unfold enc. by bool_cases. }
    destruct p as [|x1 p]; [rewrite zlen_nil in Hl; bool_cases_in Hl|]. rewrite ?zlen_cons in Hl.
    destruct (Z.leb_spec r 2047).
    { rewrite !lor_tx. upds.
      unfold enc. bool_cases. rewrite !shiftr_div by done. unfold wrap, t2.
      assert (r / 2 ^ 6 mod 2 ^ 8 = r / 64) as -> by lia_div.
      by rewrite (lor_high_add 192 5) by lia_div. }
    destruct p as [|x2 p]; [rewrite zlen_nil in Hl; bool_cases_in Hl|]. rewrite ?zlen_cons in Hl.
    destruct (Z.ltb_spec 1114111 r); [lia|]. cbn [orb].
    destruct (Z.leb_spec 55296 r), (Z.leb_spec r 57343); cbn [andb]; try lia;
      (destruct (Z.leb_spec r 65535); [rewrite encode3_eq by lia; by bool_cases|]); try lia.
    destruct p as [|x3 p]; [rewrite zlen_nil in Hl; bool_cases_in Hl|].
    rewrite !lor_tx. upds.
    unfold enc. bool_cases. rewrite !shiftr_div by done. unfold wrap, t4.
    assert (r / 2 ^ 18 mod 2 ^ 8 = r / 262144) as -> by lia_div.
    by rewrite (lor_high_add 240 3) by lia_div.
  - change (if RuneError <? 128 then 1 else if RuneError <? 2048 then 2 else if RuneError <? 65536 then 3 else 4) with 3 in *.
    destruct p as [|x0 [|x1 [|x2 p]]]; rewrite ?zlen_cons, ?zlen_nil in Hl; try lia.
    rewrite encode3_eq by (unfold RuneError; lia).
    assert (r < 0 ∨ 1114111 < r ∨ 55296 <= r <= 57343) as Hi.
    { destruct (decide (r < 0)); [by left|]. right. destruct (decide (1114111 < r)); [by left|]. right.
      destruct (decide (55296 <= r <= 57343)); [done|]. by assert (false = true) by (apply Hv; lia). }
    assert (1114111 < u32 r ∨ 55296 <= u32 r <= 57343) as Hi' by (unfold wrap; lia_div).
    by bool_cases.
Qed.

(** * Decoding from the end *)

Lemma RuneStart_eq b : is_byte b → RuneStart b = negb ((128 <=? b) && (b <? 192)).
Proof.
  intros Hb. apply eqb_prop.
  apply (byte_forall (λ b, Bool.eqb (RuneStart b) (negb ((128 <=? b) && (b <? 192))))); [by vm_compute|done].
Qed.

(** The first byte of an encoding is the only one that can start a rune. *)
Lemma enc_start r :
  ValidRune r = true → ∃ b t, enc r = b :: t ∧ RuneStart b = true ∧
    Forall (λ c, RuneStart c = false ∧ 128 <= c) t.
Proof.
  intros Hv. pose proof (enc_bytes r Hv) as Hb. rewrite ValidRune_iff in Hv.
  assert (∀ x, 0 <= x < 64 → RuneStart (128 + x) = false ∧ 128 <= 128 + x) as Hc.
  { intros x Hx. rewrite RuneStart_eq by (unfold is_byte; lia). split; [bool_cases; done|lia]. }
  revert Hb. unfold enc. destruct (Z.ltb_spec r 128); [|destruct (Z.ltb_spec r 2048); [|destruct (Z.ltb_spec r 65536)]];
    intros Hb; (do 2 eexists; split; [reflexivity|]; apply Forall_cons in Hb as [Hb _];
    split; [rewrite RuneStart_eq by done; unfold is_byte in Hb; bool_cases; try done; lia_div|]);
    repeat constructor; apply Hc; lia_div.
Qed.

(** A text that ends with the encoding of a rune gives that rune back. *)
Lemma DecodeLastRune_enc p r :
  are_bytes p → ValidRune r = true → DecodeLastRune (p ++ enc r) = Ret (r, zlen (enc r)).
Proof.
  intros Hp Hv. destruct (enc_start r Hv) as (b & t & He & Hs & Ht).
  pose proof (DecodeRune_enc r [] Hv) as Hd. rewrite app_nil_r in Hd.
  pose proof (enc_length_bound r) as Hl. rewrite He in *. rewrite zlen_cons in *.
  pose proof (zlen_nonneg p). pose proof (zlen_nonneg t).
  assert (zlen (p ++ b :: t) = zlen p + 1 + zlen t) as Hz by (rewrite zlen_app, zlen_cons; lia).
  unfold DecodeLastRune. cbv zeta. rewrite Hz. destruct (Z.eqb_spec (zlen p + 1 + zlen t) 0); [lia|].
  assert (∀ i, zlen p < i < zlen p + 1 + zlen t → ∃ c, (p ++ b :: t).[i] = Some c ∧ RuneStart c = false ∧ 128 <= c) as Hcont.
  { intros i Hi. rewrite nthZ_app, decide_False by lia. rewrite nthZ_cons, decide_False by lia.
    destruct (nthZ_is_Some t (i - zlen p - 1)) as [c Hc]; [lia|]. exists c. split; [done|].
    rewrite Forall_lookup in Ht. apply (Ht (Z.to_nat (i - zlen p - 1))).
    unfold nthZ in Hc. by rewrite decide_True in Hc by lia. }
  destruct (decide (zlen t = 0)) as [Ht0|Ht0].
  { apply zlen_nil_inv in Ht0 as ->. change (zlen (@nil Z)) with 0 in *. destruct (enc_ascii r) as [? Hr]; [by rewrite He|].
    rewrite He in Hr. simplify_eq. assert ((p ++ [r]).[zlen p + 1 + 0 - 1] = Some r) as Hx.
    { rewrite nthZ_app, decide_False by lia. by replace (zlen p + 1 + 0 - 1 - zlen p) with 0 by lia. }
    rewrite (idx_Some _ _ _ Hx), go_bind_ret. unfold RuneSelf. by rewrite (proj2 (Z.ltb_lt r 128)). }
  destruct (Hcont (zlen p + 1 + zlen t - 1)) as (c & Hc & _ & Hc'); [lia|].
  rewrite (idx_Some _ _ _ Hc), go_bind_ret. unfold RuneSelf, UTFMax. destruct (Z.ltb_spec c 128); [lia|].
  cbv zeta. set (lim := if _ <? 0 then 0 else _).
  assert (0 <= lim <= zlen p) as Hlim by (subst lim; bool_cases).
  assert (back_to_start (p ++ b :: t) (zlen p + 1 + zlen t - 1) lim ⇓ λ s, s = zlen p) as Hback.
  { unfold back_to_start. apply wp_loop with (I := λ s, zlen p <= s < zlen p + zlen t) (meas := λ s, s - lim); [|lia..].
    intros s Hi. destruct (Z.leb_spec lim s); [|lia].
    destruct (decide (s = zlen p)) as [->|].
    - rewrite (idx_Some _ _ b) by (rewrite nthZ_app, decide_False by lia; by rewrite Z.sub_diag).
      simpl. by rewrite Hs.
    - destruct (Hcont s) as (c' & Hc'' & Hf & _); [lia|]. rewrite (idx_Some _ _ _ Hc''). simpl. rewrite Hf. simpl. lia. }
  apply wp_ex in Hback as (s & -> & ->). rewrite go_bind_ret. destruct (Z.ltb_spec (zlen p) 0); [lia|].
  rewrite slice_eq by lia. rewrite go_bind_ret.
  assert (drop (Z.to_nat (zlen p)) (p ++ b :: t) = b :: t) as ->
    by (unfold zlen; by rewrite Nat2Z.id, drop_app_length).
  rewrite take_ge by (simpl; unfold zlen; lia). rewrite Hd. by rewrite (proj2 (Z.eqb_eq _ _)) by lia.
Qed.

Lemma back_to_start_bound p start lim :
  0 <= lim → 0 <= start < zlen p → back_to_start p start lim ⇓ λ s, -1 <= s < start ∨ s = start - 1.
Proof.
  intros Hl Hs. unfold back_to_start.
  apply wp_loop with (I := λ s, -1 <= s < start) (meas := λ s, s + 1 - Z.min lim (start)); [|lia..].
  intros s Hi. destruct (Z.leb_spec lim s); [|simpl; lia].
  apply wp_bind, wp_idx; [lia|]. intros b _. destruct (RuneStart b); simpl; lia.
Qed.

(** Otherwise the last byte is an error of width one. *)
Lemma DecodeLastRune_inv p :
  are_bytes p → p ≠ [] →
  DecodeLastRune p = Ret (RuneError, 1) ∨
  ∃ p0 r, ValidRune r = true ∧ p = p0 ++ enc r ∧ DecodeLastRune p = Ret (r, zlen (enc r)).
Proof.
  intros Hp Hne. assert (zlen p ≠ 0) by (by intros ?%zlen_nil_inv). pose proof (zlen_nonneg p).
  assert (∀ p0 r, ValidRune r = true → p = p0 ++ enc r →
    ∃ p0 r, ValidRune r = true ∧ p = p0 ++ enc r ∧ DecodeLastRune p = Ret (r, zlen (enc r))) as Hok.
  { intros p0 r Hv E. exists p0, r. split; [done|]. split; [done|]. rewrite E. apply DecodeLastRune_enc; [|done].
    rewrite E in Hp. by apply Forall_app in Hp as [? _]. }
  destruct (nthZ_is_Some p (zlen p - 1)) as [b Hb]; [lia|].
  assert (p = take (Z.to_nat (zlen p - 1)) p ++ [b]) as Hlast.
  { rewrite <- (take_drop (Z.to_nat (zlen p - 1)) p) at 1. f_equal. rewrite (drop_head _ _ _ Hb).
    f_equal. apply drop_ge. unfold zlen. lia. }
  destruct (Z.ltb_spec b 128) as [Hlt|Hge].
  { right. assert (is_byte b) as Hbb.
    { rewrite Forall_lookup in Hp. apply (Hp (Z.to_nat (zlen p - 1))). unfold nthZ in Hb. by rewrite decide_True in Hb by lia. }
    unfold is_byte in Hbb. apply (Hok (take (Z.to_nat (zlen p - 1)) p) b); [apply ValidRune_iff; lia|]. unfold enc. by rewrite (proj2 (Z.ltb_lt b 128)). }
  unfold DecodeLastRune. cbv zeta. rewrite (proj2 (Z.eqb_neq (zlen p) 0)) by done.
  rewrite (idx_Some _ _ _ Hb), go_bind_ret. unfold RuneSelf, UTFMax. rewrite (proj2 (Z.ltb_ge b 128)) by lia.
  cbv zeta. set (lim := if _ <? 0 then 0 else _). assert (0 <= lim) by (subst lim; bool_cases).
  pose proof (back_to_start_bound p (zlen p - 1) lim ltac:(done) ltac:(lia)) as Hback.
  apply wp_ex in Hback as (s & E & Hs). rewrite E, go_bind_ret.
  set (s' := if s <? 0 then 0 else s). assert (0 <= s' < zlen p) as Hs' by (subst s'; bool_cases).
  rewrite slice_eq by lia. rewrite go_bind_ret.
  rewrite take_ge by (rewrite length_drop; unfold zlen; lia).
  destruct (DecodeRune (drop (Z.to_nat s') p)) as [r size] eqn:Ed.
  destruct (Z.eqb_spec (s' + size) (zlen p)) as [He|]; simpl; [|by left].
  assert (Ed' := Ed). unfold DecodeRune in Ed'.
  destruct (decodeRuneInternal _) as [[r' n'] sh] eqn:Ei. simplify_eq.
  destruct (decode_inv _ _ _ _ (are_bytes_drop _ _ Hp) Ei) as [[Hnil _]|[(_ & -> & ->)|(_ & Hv & -> & q & Hq)]]; [|by left|].
  { pose proof (zlen_drop p s' ltac:(lia)) as Hl. rewrite Hnil, zlen_nil in Hl. lia. }
  right. assert (q = []) as ->.
  { apply zlen_nil_inv. pose proof (zlen_drop p s' ltac:(lia)) as Hl. rewrite Hq, zlen_app in Hl. lia. }
  rewrite app_nil_r in Hq. assert (p = take (Z.to_nat s') p ++ enc r) as Hpp by (by rewrite <- Hq, take_drop).
  exists (take (Z.to_nat s') p), r. done.
Qed.

(** * Properties *)

(** C11: [EncodeRune] writes the encoding of the rune (of U+FFFD for a surrogate
    or a value out of range) at the front of a large enough buffer, returns the
    bytes written and leaves the rest; [DecodeRune] reads the rune and the width
    back, whatever follows, and [RuneLen] announced that width. *)
Theorem EncodeRune_DecodeRune p r :
  - 2 ^ 31 <= r < 2 ^ 31 → UTFMax <= zlen p →
  ∃ p' n, EncodeRune p r = Ret (p', n) ∧ 1 <= n <= UTFMax ∧
    p' = enc (norm r) ++ drop (Z.to_nat n) p ∧
    DecodeRune p' = (norm r, n) ∧ FullRune (take (Z.to_nat n) p') = true ∧
    RuneLen (norm r) = n ∧ (RuneLen r = -1 ↔ ValidRune r = false).
Proof.
  intros Hr Hl. pose proof (norm_valid r) as Hv. pose proof (enc_length_bound (norm r)) as Hb. unfold UTFMax in *.
  exists (enc (norm r) ++ drop (Z.to_nat (zlen (enc (norm r)))) p), (zlen (enc (norm r))).
  split; [apply EncodeRune_spec; lia|]. split; [done|]. split; [done|].
  split; [by apply DecodeRune_enc|]. split.
  { replace (take _ _) with (enc (norm r) ++ []) by (rewrite app_nil_r; unfold zlen; by rewrite Nat2Z.id, take_app_length).
    unfold FullRune. by rewrite decode_enc. }
  split; [by apply RuneLen_valid|]. split.
  - intros Hn. destruct (ValidRune r) eqn:E; [|done]. rewrite RuneLen_valid in Hn by done.
    pose proof (enc_length_bound r). lia.
  - intros Hn. assert (¬ (0 <= r <= 1114111 ∧ ¬ (55296 <= r <= 57343))) as Hi by (rewrite <- ValidRune_iff; congruence).
    unfold RuneLen, rune1Max, rune2Max, surrogateMin, surrogateMax, rune3Max, MaxRune. bool_cases.
Qed.

Example EncodeRune_DecodeRune_witness :
  ∃ p' n, EncodeRune [0; 0; 0; 0; 7] 8364 = Ret (p', n) ∧ 1 <= n <= UTFMax ∧
    p' = enc (norm 8364) ++ drop (Z.to_nat n) [0; 0; 0; 0; 7] ∧
    DecodeRune p' = (norm 8364, n) ∧ FullRune (take (Z.to_nat n) p') = true ∧
    RuneLen (norm 8364) = n ∧ (RuneLen 8364 = -1 ↔ ValidRune 8364 = false).
Proof. apply (EncodeRune_DecodeRune [0; 0; 0; 0; 7] 8364); [lia|]. by vm_compute. Defined.

(** C12: decoding is canonical: from any bytes, [DecodeRune] returns a width of
    zero on the empty input only, an error of width one, or a valid rune whose
    one encoding the input starts with (so neither overlong forms nor surrogates
    are accepted); [FullRune] on a prefix means that more bytes change nothing. *)
Theorem DecodeRune_canonical p q r n :
  are_bytes p → DecodeRune p = (r, n) →
  (p = [] ∧ (r, n) = (RuneError, 0) ∨
   p ≠ [] ∧ (r, n) = (RuneError, 1) ∨
   ValidRune r = true ∧ n = zlen (enc r) ∧ enc r `prefix_of` p) ∧
  (FullRune p = true → DecodeRune (p ++ q) = (r, n)) ∧
  DecodeRuneInString p = (r, n).
Proof.
  intros Hp Hd. unfold DecodeRune, FullRune in *. destruct (decodeRuneInternal p) as [[r' n'] sh] eqn:E. simplify_eq.
  split; [|split].
  - destruct (decode_inv _ _ _ _ Hp E) as [(-> & -> & -> & _)|[(? & -> & ->)|(_ & ? & -> & k & ->)]]; [by left|by right; left|].
    right; right. split; [done|]. split; [done|]. by exists k.
  - destruct sh; [done|]. intros _. by rewrite (decode_app _ _ _ _ E).
  - unfold DecodeRuneInString. by rewrite decodeRuneInStringInternal_eq, E.
Qed.

Example DecodeRune_canonical_witness :
  (FullRune [226; 130; 172] = true → DecodeRune ([226; 130; 172] ++ [200]) = (8364, 3)) ∧
  ValidRune 8364 = true.
Proof.
  destruct (DecodeRune_canonical [226; 130; 172] [200] 8364 3) as (_ & H & _);
    [repeat constructor; unfold is_byte; lia|reflexivity|]. split; [exact H|reflexivity].
Defined.

(** [Valid] and [ValidString] return, and accept exactly the concatenations
    of encodings of valid runes. *)
Theorem Valid_iff p :
  are_bytes p → ∃ b, Valid p = Ret b ∧ ValidString p = Ret b ∧
    (b = true ↔ ∃ rs, Forall (λ r, ValidRune r = true) rs ∧ p = concat (map enc rs)).
Proof.
  intros Hp. pose proof (Valid_spec p Hp) as (b & Hb & Hv)%wp_ex.
  pose proof (ValidString_spec p Hp) as (b' & Hb' & Hv')%wp_ex.
  exists b. split; [done|]. split; [|done]. rewrite Hb'. f_equal. apply eq_true_iff_eq. by rewrite Hv, Hv'.
Qed.

Example Valid_iff_witness :
  ∃ b, Valid [65; 226; 130; 172] = Ret b ∧ ValidString [65; 226; 130; 172] = Ret b ∧
    (b = true ↔ ∃ rs, Forall (λ r, ValidRune r = true) rs ∧ [65; 226; 130; 172] = concat (map enc rs)).
Proof. apply (Valid_iff [65; 226; 130; 172]). repeat constructor; unfold is_byte; lia. Defined.

(** [RuneCount], [RuneCountInString] and [range] agree on every input: the
    loop variable of [range] takes as many values as [RuneCount] says; on the
    encoding of a list of runes the values are those runes. *)
Theorem RuneCount_range p rs :
  Forall (λ r, ValidRune r = true) rs →
  (∃ l n, range p = Ret l ∧ RuneCount p = Ret n ∧ RuneCountInString p = Ret n ∧ zlen l = n ∧ n <= zlen p) ∧
  ∃ l, range (concat (map enc rs)) = Ret l ∧ map snd l = rs ∧ RuneCount (concat (map enc rs)) = Ret (zlen rs).
Proof.
  intros Hrs. split.
  - exists (offsets 0 (chunks p)), (zlen (chunks p)). rewrite range_eq, RuneCount_eq. unfold RuneCountInString.
    rewrite range_eq. simpl. rewrite offsets_length. repeat split.
    unfold chunks. generalize (length p). intros n. revert p. induction n as [|n IH]; intros [|b p]; cbn [chunks_fuel]; rewrite ?zlen_nil; try apply zlen_nonneg; try lia.
    destruct (DecodeRune (b :: p)) as [r size] eqn:E. apply DecodeRune_size in E; [|done].
    rewrite zlen_cons. specialize (IH (drop (Z.to_nat size) (b :: p))). rewrite zlen_drop in IH by lia. lia.
  - exists (offsets 0 (chunks (concat (map enc rs)))). rewrite range_eq, RuneCount_eq, offsets_runes, chunks_utf8 by done.
    split; [done|]. split; [|unfold zlen; by rewrite length_map]. rewrite map_map. apply map_id.
Qed.

Example RuneCount_range_witness :
  (∃ l n, range [255; 65] = Ret l ∧ RuneCount [255; 65] = Ret n ∧ RuneCountInString [255; 65] = Ret n ∧ zlen l = n ∧ n <= zlen [255; 65]) ∧
  ∃ l, range (concat (map enc [8364; 36])) = Ret l ∧ map snd l = [8364; 36] ∧ RuneCount (concat (map enc [8364; 36])) = Ret (zlen [8364; 36]).
Proof. apply (RuneCount_range [255; 65] [8364; 36]). by repeat constructor. Defined.

(** [DecodeLastRune] returns [(RuneError, 0)] on the empty text, the rune
    whose encoding ends the text where there is one, and otherwise an error of
    width one; its copy for strings is the same function. *)
Theorem DecodeLastRune_spec p :
  are_bytes p →
  DecodeLastRuneInString p = DecodeLastRune p ∧
  (p = [] → DecodeLastRune p = Ret (RuneError, 0)) ∧
  (∀ p0 r, ValidRune r = true → p = p0 ++ enc r → DecodeLastRune p = Ret (r, zlen (enc r))) ∧
  (p ≠ [] → (∀ p0 r, ValidRune r = true → p ≠ p0 ++ enc r) → DecodeLastRune p = Ret (RuneError, 1)).
Proof.
  intros Hp. split; [done|]. split; [by intros ->|]. split.
  - intros p0 r Hv ->. apply DecodeLastRune_enc; [|done]. by apply Forall_app in Hp as [? _].
  - intros Hne Hno. destruct (DecodeLastRune_inv p Hp Hne) as [?|(p0 & r & Hv & E & _)]; [done|]. by destruct (Hno p0 r).
Qed.

Example DecodeLastRune_spec_witness : DecodeLastRune [200; 226; 130; 172] = Ret (8364, 3).
Proof.
  destruct (DecodeLastRune_spec [200; 226; 130; 172]) as (_ & _ & H & _);
    [repeat constructor; unfold is_byte; lia|]. apply (H [200] 8364); reflexivity.
Defined.
