(* ===== verification/Utf16.v ===== *)
(** Package [unicode/utf16] ([src/src/unicode/utf16/utf16.go]): surrogate pairs. *)
From S2P Require Import Prelude.

Definition replacementChar : Z := 65533. (* '\uFFFD' *)
Definition maxRune : Z := 1114111. (* '\U0010FFFF' *)
Definition surr1 : Z := 55296. (* 0xd800 *)
Definition surr2 : Z := 56320. (* 0xdc00 *)
Definition surr3 : Z := 57344. (* 0xe000 *)
Definition surrSelf : Z := 65536. (* 0x10000 *)

Definition IsSurrogate (r : Z) : bool := (surr1 <=? r) && (r <? surr3).

Definition DecodeRune (r1 r2 : Z) : Z :=
  if (surr1 <=? r1) && (r1 <? surr2) && (surr2 <=? r2) && (r2 <? surr3)
  then Z.lor (Z.shiftl (r1 - surr1) 10) (r2 - surr2) + surrSelf
  else replacementChar.

Definition EncodeRune (r : Z) : Z * Z :=
  if (r <? surrSelf) || (maxRune <? r) || IsSurrogate r then (replacementChar, replacementChar) else
  let r := r - surrSelf in
  (surr1 + Z.land (Z.shiftr r 10) 1023, surr2 + Z.land r 1023).

Definition Encode (s : list Z) : go (list Z) :=
  n ← for_each s (λ v n, Ret (if surrSelf <=? v then n + 1 else n)) (zlen s);
  a ← make 0 n;
  '(a, n) ← for_each s (λ v '(a, n),
    if (v <? 0) || ((surr1 <=? v) && (v <? surr3)) || (maxRune <? v) then
      a ← upd a n (u16 replacementChar); Ret (a, n + 1)
    else if v <? surrSelf then
      a ← upd a n (u16 v); Ret (a, n + 1)
    else
      let '(r1, r2) := EncodeRune v in
      a ← upd a n (u16 r1);
      a ← upd a (n + 1) (u16 r2);
      Ret (a, n + 2)) (a, 0);
  slice a 0 n.

(** Whether a surrogate pair starts at offset [i]: the tests are made in order,
    so that [s[i+1]] is read only where it exists. *)
Definition pair_at (s : list Z) (i r : Z) : go bool :=
  if (surr1 <=? r) && (r <? surr2) && (i + 1 <? zlen s) then
    r' ← idx s (i + 1); Ret ((surr2 <=? r') && (r' <? surr3))
  else Ret false.

Definition Decode (s : list Z) : go (list Z) :=
  a ← make 0 (zlen s);
  '(a, n, _) ← while (S (length s))
    (λ '(_, _, i), Ret (i <? zlen s))
    (λ '(a, n, i),
      r ← idx s i;
      pair ← pair_at s i r;
      if (pair : bool) then
        r2 ← idx s (i + 1);
        a ← upd a n (DecodeRune r r2);
        Ret (a, n + 1, i + 1 + 1)
      else if (surr1 <=? r) && (r <? surr3) then
        a ← upd a n replacementChar;
        Ret (a, n + 1, i + 1)
      else
        a ← upd a n r;
        Ret (a, n + 1, i + 1)) (a, 0, 0);
  slice a 0 n.

(** * Reference definitions *)

(** Code points that are not surrogates. *)
Definition scalar (v : Z) : bool := (0 <=? v) && (v <=? maxRune) && negb (IsSurrogate v).
Definition norm (v : Z) : Z := if scalar v then v else replacementChar.

(** The units of a scalar value. *)
Definition units (v : Z) : list Z :=
  if v <? 65536 then [v] else [55296 + (v - 65536) / 1024; 56320 + (v - 65536) mod 1024].

Definition is_high (r : Z) : bool := (surr1 <=? r) && (r <? surr2).
Definition is_low (r : Z) : bool := (surr2 <=? r) && (r <? surr3).
Definition join (r r' : Z) : Z := (r - surr1) * 1024 + (r' - surr2) + 65536.

Fixpoint runes (s : list Z) : list Z :=
  match s with
  | [] => []
  | r :: t =>
    if is_high r then
      match t with
      | r' :: t' => if is_low r' then join r r' :: runes t' else replacementChar :: runes t
      | [] => [replacementChar]
      end
    else (if is_low r then replacementChar else r) :: runes t
  end.

Lemma scalar_iff v : scalar v = true ↔ 0 <= v <= 1114111 ∧ ¬ (55296 <= v < 57344).
Proof. unfold scalar, IsSurrogate, maxRune, surr1, surr3. bool_cases; split; intros; try done; lia. Qed.

Lemma norm_scalar v : scalar (norm v) = true.
Proof. unfold norm. by destruct (scalar v) eqn:E. Qed.

Lemma DecodeRune_join r r' : is_high r = true → is_low r' = true → DecodeRune r r' = join r r'.
Proof.
  unfold is_high, is_low, DecodeRune, join, surr1, surr2, surr3, surrSelf. intros H1 H2.
  bool_cases_in H1; try done. bool_cases_in H2; try done. cbn [andb]. rewrite lor_shiftl_add by lia. lia.
Qed.

Lemma EncodeRune_units v :
  65536 <= v <= 1114111 → let '(r1, r2) := EncodeRune v in units v = [r1; r2] ∧ u16 r1 = r1 ∧ u16 r2 = r2.
Proof.
  intros Hv. unfold EncodeRune, units, IsSurrogate, surr1, surr2, surr3, surrSelf, maxRune. bool_cases.
  rewrite (land_mask _ 10), Z.shiftr_div_pow2 by done. rewrite (land_mask _ 10) by done.
  assert ((v - 65536) / 2 ^ 10 mod 2 ^ 10 = (v - 65536) / 1024) as -> by lia_div.
  split; [done|]. split; apply wrap_small; lia_div.
Qed.

Lemma units_length v : zlen (units v) = if surrSelf <=? v then 2 else 1.
Proof. unfold units, surrSelf. by bool_cases. Qed.

(** * Properties *)

(** The units of a sequence of runes. *)
Definition encoding (s : list Z) : list Z := concat (map (λ v, units (norm v)) s).

Lemma encoding_app s t : encoding (s ++ t) = encoding s ++ encoding t.
Proof. unfold encoding. by rewrite map_app, concat_app. Qed.

Lemma encoding_one v : encoding [v] = units (norm v).
Proof. unfold encoding. simpl. apply app_nil_r. Qed.

(** The space counted by the first loop. *)
Fixpoint space (s : list Z) : Z :=
  match s with [] => 0 | v :: s' => (if surrSelf <=? v then 2 else 1) + space s' end.

Lemma space_app s t : space (s ++ t) = space s + space t.
Proof. induction s as [|v s IH]; simpl; [done|]. rewrite IH. lia. Qed.

Lemma units_norm_space v : 1 <= zlen (units (norm v)) <= space [v].
Proof.
  rewrite units_length. simpl. unfold norm. destruct (scalar v) eqn:E.
  - unfold surrSelf. bool_cases.
  - unfold surrSelf, replacementChar. bool_cases.
Qed.

Lemma encoding_space s : zlen (encoding s) <= space s.
Proof.
  induction s as [|v s IH]; [done|]. change (v :: s) with ([v] ++ s). rewrite encoding_app, zlen_app, encoding_one, space_app.
  pose proof (units_norm_space v). lia.
Qed.

Lemma space_nonneg s : 0 <= space s.
Proof. induction s as [|v s IH]; simpl; [done|]. case_match; lia. Qed.

Lemma Encode_spec s : Encode s ⇓ λ a, a = encoding s.
Proof.
  unfold Encode. eapply wp_bind_mono.
  { apply wp_for_each with (I := λ done n, n = zlen s + space done - zlen done) (Q := λ n, n = space s).
    - intros done v rest n _ ->. simpl. rewrite space_app, zlen_app. change (zlen [v]) with 1. simpl. case_match; lia.
    - simpl. change (zlen []) with 0. lia.
    - intros n ->. lia. }
  intros n ->. pose proof (space_nonneg s). rewrite make_eq, go_bind_ret by done.
  eapply wp_bind_mono.
  { apply wp_for_each with
      (I := λ done '(a, n), n = zlen (encoding done) ∧ ∃ k, a = encoding done ++ k ∧ zlen a = space s)
      (Q := λ '(a, n), n = zlen (encoding s) ∧ ∃ k, a = encoding s ++ k).
    - intros done v rest [a n] Hs [-> (k & -> & Hl)].
      rewrite encoding_app, encoding_one, zlen_app in *.
      assert (space [v] <= zlen k) as Hroom.
      { pose proof (encoding_space done). pose proof (space_nonneg rest).
        rewrite Hs in Hl. change (v :: rest) with ([v] ++ rest) in Hl. rewrite !space_app, ?zlen_app in Hl. lia. }
      pose proof (units_norm_space v) as Hu.
      destruct k as [|x k]; [rewrite zlen_nil in Hroom; lia|]. rewrite zlen_cons in *.
      assert (scalar v = true ↔ 0 <= v <= 1114111 ∧ ¬ (55296 <= v < 57344)) as Hsc by apply scalar_iff.
      unfold norm in *. fold (IsSurrogate v). unfold maxRune.
      assert ((v <? 0) || IsSurrogate v || (1114111 <? v) = negb (scalar v)) as ->.
      { unfold scalar, maxRune. destruct (IsSurrogate v); bool_cases. }
      destruct (scalar v) eqn:E; cbn [negb].
      + destruct (Z.ltb_spec v surrSelf) as [Hlt|Hge].
        * rewrite upd_cursor, go_bind_ret by done. rewrite wrap_small by (unfold surrSelf in *; lia).
          unfold units. unfold surrSelf in Hlt. bool_cases. simpl. rewrite !zlen_app, zlen_one. split; [done|]. exists k. split; [done|lia].
        * simpl in Hroom. rewrite (proj2 (Z.leb_le _ _)) in Hroom by done.
          pose proof (EncodeRune_units v) as Her. destruct (EncodeRune v) as [r1 r2].
          destruct Her as (-> & -> & ->); [unfold surrSelf in *; lia|].
          destruct k as [|y k]; [change (zlen (@nil Z)) with 0 in *; lia|]. rewrite zlen_cons in *.
          rewrite upd_cursor, go_bind_ret by done.
          rewrite upd_cursor by (rewrite zlen_app; done). simpl.
          rewrite !zlen_app, !zlen_one. split; [lia|]. exists k. rewrite <- !app_assoc. split; [done|lia].
      + rewrite upd_cursor, go_bind_ret by done. simpl. rewrite !zlen_app, zlen_one. split; [done|]. exists k. split; [done|lia].
    - split; [done|]. exists (replicate (Z.to_nat (space s)) 0). split; [done|]. by apply zlen_replicate.
    - intros [a n] [-> (k & -> & _)]. split; [done|]. by exists k. }
  intros [a n] [-> (k & ->)]. rewrite slice_eq; [|pose proof (zlen_nonneg (encoding s)); lia|rewrite zlen_app; pose proof (zlen_nonneg k); lia].
  simpl. rewrite drop_0, Z.sub_0_r. unfold zlen. rewrite Nat2Z.id. apply take_app_length.
Qed.

Lemma runes_cons r t :
  runes (r :: t) =
    if is_high r && match t with r' :: _ => is_low r' | [] => false end
    then match t with r' :: t' => join r r' :: runes t' | [] => [] end
    else (if is_high r || is_low r then replacementChar else r) :: runes t.
Proof. simpl. destruct (is_high r); [|done]. destruct t as [|r' t]; [done|]. by destruct (is_low r'). Qed.

Lemma runes_length s : zlen (runes s) <= zlen s.
Proof.
  assert (∀ n s, (length s <= n)%nat → zlen (runes s) <= zlen s) as H; [|by apply (H (length s))].
  clear s. intros n. induction n as [|n IH]; intros [|r t] Hl; simpl in Hl; try done; try lia.
  rewrite runes_cons. destruct (_ && _).
  - destruct t as [|r' t]; [rewrite zlen_cons; pose proof (zlen_nonneg (@nil Z)); rewrite zlen_nil; lia|].
    rewrite !zlen_cons. simpl in Hl. specialize (IH t). lia.
  - rewrite !zlen_cons. specialize (IH t). lia.
Qed.

Lemma pair_at_eq p r t :
  pair_at (p ++ r :: t) (zlen p) r = Ret (is_high r && match t with r' :: _ => is_low r' | [] => false end).
Proof.
  unfold pair_at. fold (is_high r). rewrite zlen_app, zlen_cons. pose proof (zlen_nonneg t).
  destruct (is_high r); [|done]. cbn [andb]. destruct t as [|r' t].
  - change (zlen (@nil Z)) with 0. by bool_cases.
  - rewrite zlen_cons in *. pose proof (zlen_nonneg t). destruct (Z.ltb_spec (zlen p + 1) (zlen p + (1 + (1 + zlen t)))); [|lia].
    assert ((p ++ r :: r' :: t).[zlen p + 1] = Some r') as Hx.
    { rewrite nthZ_app, decide_False by lia. by replace (zlen p + 1 - zlen p) with 1 by lia. }
    by rewrite (idx_Some _ _ _ Hx).
Qed.

Lemma Decode_spec s : Decode s ⇓ λ a, a = runes s.
Proof.
  unfold Decode. pose proof (zlen_nonneg s). rewrite make_eq, go_bind_ret by done.
  eapply wp_bind_mono.
  { apply wp_while with
      (I := λ '(a, n, i), ∃ p t out k, s = p ++ t ∧ i = zlen p ∧ a = out ++ k ∧ n = zlen out ∧
         runes s = out ++ runes t ∧ zlen t <= zlen k)
      (meas := λ '(_, _, i), zlen s - i)
      (Q := λ '(a, n, _), ∃ k, a = runes s ++ k ∧ n = zlen (runes s)).
    - intros [[a n] i] (p & t & out & k & -> & -> & -> & -> & Hr & Hk). simpl. rewrite zlen_app.
      destruct t as [|r t].
      { change (zlen (@nil Z)) with 0. bool_cases. exists k. rewrite Hr. simpl. by rewrite app_nil_r. }
      rewrite zlen_cons in *. pose proof (zlen_nonneg t). pose proof (zlen_nonneg p).
      rewrite (proj2 (Z.ltb_lt _ _)) by lia.
      rewrite (idx_Some _ (zlen p) r) by (rewrite nthZ_app, decide_False by lia; by rewrite Z.sub_diag).
      rewrite go_bind_ret, pair_at_eq, go_bind_ret. rewrite runes_cons in Hr.
      destruct k as [|x k]; [change (zlen (@nil Z)) with 0 in *; lia|]. rewrite zlen_cons in Hk.
      destruct (_ && match t with _ => _ end) eqn:E.
      + destruct t as [|r' t]; [by rewrite andb_false_r in E|]. pose proof (zlen_nonneg t). apply andb_true_iff in E as [E1 E2].
        rewrite (idx_Some _ (zlen p + 1) r') by (rewrite nthZ_app, decide_False by lia; by replace (zlen p + 1 - zlen p) with 1 by lia).
        rewrite go_bind_ret, DecodeRune_join, upd_cursor by done. simpl. rewrite zlen_cons in *.
        split; [|lia]. exists (p ++ [r; r']), t, (out ++ [join r r']), k.
        rewrite !zlen_app, zlen_one, zlen_two, <- !app_assoc. repeat split; [lia|done|lia].
      + assert ((surr1 <=? r) && (r <? surr3) = is_high r || is_low r) as ->.
        { unfold is_high, is_low, surr1, surr2, surr3. bool_cases. }
        assert (∀ c, runes (p ++ r :: t) = out ++ c :: runes t →
          (a ← upd (out ++ x :: k) (zlen out) c; Ret (a, zlen out + 1, zlen p + 1)) ⇓ λ s',
            (let '(a, n, i) := s' in ∃ p0 t0 out0 k0, p ++ r :: t = p0 ++ t0 ∧ i = zlen p0 ∧ a = out0 ++ k0 ∧
               n = zlen out0 ∧ runes (p ++ r :: t) = out0 ++ runes t0 ∧ zlen t0 <= zlen k0) ∧
            0 <= (let '(_, _, i) := s' in zlen p + (1 + zlen t) - i) < zlen p + (1 + zlen t) - zlen p) as Hstep.
        { intros c Hc. rewrite upd_cursor by done. simpl. split; [|lia].
          exists (p ++ [r]), t, (out ++ [c]), k. rewrite !zlen_app, !zlen_one, <- !app_assoc.
          repeat split; [done|lia]. }
        destruct (is_high r || is_low r); by apply Hstep.
    - exists [], s, [], (replicate (Z.to_nat (zlen s)) 0). rewrite zlen_replicate by lia. repeat split. lia.
    - unfold zlen. lia. }
  intros [[a n] i] (k & -> & ->). pose proof (zlen_nonneg (runes s)). pose proof (zlen_nonneg k).
  rewrite slice_eq by (rewrite ?zlen_app; lia).
  simpl. rewrite drop_0, Z.sub_0_r. unfold zlen. rewrite Nat2Z.id. apply take_app_length.
Qed.

Lemma runes_units v t : scalar v = true → runes (units v ++ t) = v :: runes t.
Proof.
  rewrite scalar_iff. intros Hv. unfold units. destruct (Z.ltb_spec v 65536); simpl.
  - unfold is_high, is_low, surr1, surr2, surr3. by bool_cases.
  - assert (is_high (55296 + (v - 65536) / 1024) = true ∧ is_low (56320 + (v - 65536) mod 1024) = true) as [-> ->].
    { unfold is_high, is_low, surr1, surr2, surr3. assert (0 <= (v - 65536) / 1024 < 1024) by lia_div.
      assert (0 <= (v - 65536) mod 1024 < 1024) by lia_div. split; bool_cases; done. }
    f_equal. unfold join, surr1, surr2. lia_div.
Qed.

Lemma runes_encoding s : runes (encoding s) = map norm s.
Proof.
  induction s as [|v s IH]; [done|]. change (v :: s) with ([v] ++ s). rewrite encoding_app, encoding_one.
  rewrite runes_units by apply norm_scalar. simpl. by rewrite IH.
Qed.

Lemma runes_scalar s : Forall (λ u, 0 <= u < 65536) s → Forall (λ v, scalar v = true) (runes s).
Proof.
  assert (∀ n s, (length s <= n)%nat → Forall (λ u, 0 <= u < 65536) s → Forall (λ v, scalar v = true) (runes s)) as H;
    [|by apply (H (length s))].
  clear s. intros n. induction n as [|n IH]; intros [|r t] Hl Ht; simpl in Hl; try done; try lia.
  rewrite runes_cons. apply Forall_cons in Ht as [Hr Ht]. destruct (_ && _) eqn:E.
  - destruct t as [|r' t]; [done|]. apply Forall_cons in Ht as [Hr' Ht]. simpl in Hl.
    apply andb_true_iff in E as [E1 E2]. constructor; [|apply IH; [lia|done]].
    rewrite scalar_iff. unfold is_high, is_low, join, surr1, surr2, surr3 in *.
    lia.
  - constructor; [|apply IH; [lia|done]]. destruct (is_high r || is_low r) eqn:E1; [done|].
    rewrite scalar_iff. unfold is_high, is_low, surr1, surr2, surr3 in E1. bool_cases_in E1; try done; lia.
Qed.

(** C13: encoding and decoding of UTF-16 always return.  Decoding what was encoded
    gives back the runes, U+FFFD standing for those that are no code points or
    are surrogates; decoding any units gives code points only, at most one per
    unit, and units that come from code points are encoded back to themselves. *)
Theorem Encode_Decode s u :
  Forall (λ w, 0 <= w < 65536) u →
  (∃ a, Encode s = Ret a ∧ Decode a = Ret (map norm s)) ∧
  (∃ vs, Decode u = Ret vs ∧ Forall (λ v, scalar v = true) vs ∧ zlen vs <= zlen u ∧
     ((∃ vs', u = encoding vs') → Encode vs = Ret u)).
Proof.
  intros Hu. assert (∀ s, Encode s = Ret (encoding s)) as He.
  { intros s'. destruct (proj1 (wp_ex _ _) (Encode_spec s')) as (a & -> & ->). done. }
  assert (∀ s, Decode s = Ret (runes s)) as Hd.
  { intros s'. destruct (proj1 (wp_ex _ _) (Decode_spec s')) as (a & -> & ->). done. }
  split.
  - exists (encoding s). split; [done|]. by rewrite Hd, runes_encoding.
  - exists (runes u). split; [done|]. split; [by apply runes_scalar|]. split; [apply runes_length|].
    intros (vs' & ->). rewrite runes_encoding, He. f_equal. unfold encoding. f_equal.
    rewrite map_map. apply map_ext. intros v. f_equal. unfold norm at 1. by rewrite norm_scalar.
Qed.

Example Encode_Decode_witness :
  (∃ a, Encode [65; 128512; -5] = Ret a ∧ Decode a = Ret (map norm [65; 128512; -5])) ∧
  (∃ vs, Decode [56320; 55296; 56320] = Ret vs ∧ Forall (λ v, scalar v = true) vs ∧
     zlen vs <= zlen [56320; 55296; 56320] ∧
     ((∃ vs', [56320; 55296; 56320] = encoding vs') → Encode vs = Ret [56320; 55296; 56320])).
Proof. apply (Encode_Decode [65; 128512; -5] [56320; 55296; 56320]). repeat constructor; lia. Defined.
