(* ===== verification/Strconv.v ===== *)
(** Package [strconv], the conversions of integers and booleans
    ([src/src/strconv/atoi.go], [itoa.go], [atob.go]).  [host] is the width of
    [int] and [uintptr], 32 or 64. *)
From S2P Require Import Prelude.

(** * Formatting *)

Section itoa.
Context (host : Z).

Definition digits : bytes := str "0123456789abcdefghijklmnopqrstuvwxyz".

Definition shifts : list Z :=
  map (λ b, if b =? 2 then 1 else if b =? 4 then 2 else if b =? 8 then 3 else
            if b =? 16 then 4 else if b =? 32 then 5 else 0) (seqZ 0 37).

(** [for j := 9; j > 0; j--]: nine decimal digits of [us], from the right. *)
Definition nine_digits (a : bytes) (i us : Z) : go (bytes * Z * Z) :=
  for_down 9 1 (λ _ '(a, i, us),
    let i := i - 1 in
    let qs := us / 10 in
    a ← upd a i (u8 (us - qs * 10 + ch "0"));
    Ret (a, i, qs)) (a, i, us).

(** The case of base ten: in blocks of nine digits while the number does not fit
    a 32-bit [uintptr], then digit by digit. *)
Definition format10 (a : bytes) (i u : Z) : go (bytes * Z) :=
  let maxptr := 2 ^ host - 1 in (* ^uintptr(0) *)
  '(a, i, u) ← (if Z.shiftr maxptr 32 =? 0 then
    while 4 (λ '(_, _, u), Ret (maxptr <? u)) (λ '(a, i, u),
      let q := u / 1000000000 in
      let us := wrap host (u - q * 1000000000) in
      '(a, i, _) ← nine_digits a i us;
      Ret (a, i, q)) (a, i, u)
  else Ret (a, i, u));
  let us := wrap host u in
  '(a, i, us) ← while 65 (λ '(_, _, us), Ret (10 <=? us)) (λ '(a, i, us),
    let i := i - 1 in
    let q := us / 10 in
    a ← upd a i (u8 (us - q * 10 + ch "0"));
    Ret (a, i, q)) (a, i, us);
  let i := i - 1 in
  a ← upd a i (u8 (us + ch "0"));
  Ret (a, i).

(** Powers of two: shifts and masks. *)
Definition format_shift (a : bytes) (i u base s : Z) : go (bytes * Z) :=
  let b := u64 base in
  let m := wrap host b - 1 in
  '(a, i, u) ← while 65 (λ '(_, _, u), Ret (b <=? u)) (λ '(a, i, u),
    let i := i - 1 in
    d ← idx digits (Z.land (wrap host u) m);
    a ← upd a i d;
    Ret (a, i, Z.shiftr u s)) (a, i, u);
  let i := i - 1 in
  d ← idx digits (wrap host u);
  a ← upd a i d;
  Ret (a, i).

Definition format_div (a : bytes) (i u base : Z) : go (bytes * Z) :=
  let b := u64 base in
  '(a, i, u) ← while 65 (λ '(_, _, u), Ret (b <=? u)) (λ '(a, i, u),
    let i := i - 1 in
    let q := u / b in
    d ← idx digits (wrap host (u - q * b));
    a ← upd a i d;
    Ret (a, i, q)) (a, i, u);
  let i := i - 1 in
  d ← idx digits (wrap host u);
  a ← upd a i d;
  Ret (a, i).

Definition formatBits (dst : bytes) (u base : Z) (neg append_ : bool) : go (bytes * bytes) :=
  if (base <? 2) || (zlen digits <? base) then Panic "strconv: illegal AppendInt/FormatInt base" else
  a ← make 0 (64 + 1);
  let i := zlen a in
  let u := if neg then u64 (- u) else u in
  '(a, i) ← (if base =? 10 then format10 a i u else
    s ← idx shifts base;
    if 0 <? s then format_shift a i u base s else format_div a i u base);
  '(a, i) ← (if neg then
    let i := i - 1 in a ← upd a i (ch "-"); Ret (a, i)
  else Ret (a, i));
  r ← slice_from a i;
  if append_ then Ret (dst ++ r, []) else Ret ([], r).

Definition FormatUint (i base : Z) : go bytes :=
  '(_, s) ← formatBits [] i base false false; Ret s.
Definition FormatInt (i base : Z) : go bytes :=
  '(_, s) ← formatBits [] (u64 i) base (i <? 0) false; Ret s.
Definition Itoa (i : Z) : go bytes := FormatInt (i64 i) 10.
Definition AppendInt (dst : bytes) (i base : Z) : go bytes :=
  '(dst, _) ← formatBits dst (u64 i) base (i <? 0) true; Ret dst.
Definition AppendUint (dst : bytes) (i base : Z) : go bytes :=
  '(dst, _) ← formatBits dst i base false true; Ret dst.
End itoa.

(** * Parsing *)

Inductive error := ErrRange | ErrSyntax | ErrNew (text : bytes).
#[global] Instance error_eq_dec : EqDecision error.
Proof. solve_decision. Defined.

Record NumError := { Func : bytes; Num : bytes; Err : error }.

Definition syntaxError (fn s : bytes) : NumError := {| Func := fn; Num := s; Err := ErrSyntax |}.
Definition rangeError (fn s : bytes) : NumError := {| Func := fn; Num := s; Err := ErrRange |}.

Definition maxUint64 : Z := 2 ^ 64 - 1.

(** [x << n] on a [uint64]. *)
Definition shl64 (x n : Z) : Z := if n <? 64 then u64 (Z.shiftl x n) else 0.

(** The value of a digit: the [switch] on [d]. *)
Definition digit (d : Z) : option Z :=
  if (ch "0" <=? d) && (d <=? ch "9") then Some (d - ch "0")
  else if (ch "a" <=? d) && (d <=? ch "z") then Some (d - ch "a" + 10)
  else if (ch "A" <=? d) && (d <=? ch "Z") then Some (d - ch "A" + 10)
  else None.

Section atoi.
Context (host : Z).

Definition IntSize : Z := Z.shiftl 32 (Z.shiftr (2 ^ host - 1) 63).

(** The base and the offset of the digits, or the error. *)
Definition pick_base (s : bytes) (base : Z) : go (Z * Z + error) :=
  if zlen s <? 1 then Ret (inr ErrSyntax)
  else if (2 <=? base) && (base <=? 36) then Ret (inl (base, 0))
  else if base =? 0 then
    s0 ← idx s 0;
    hex ← (if (s0 =? ch "0") && (1 <? zlen s) then
      s1 ← idx s 1; Ret ((s1 =? ch "x") || (s1 =? ch "X")) else Ret false);
    if (hex : bool) then
      if zlen s <? 3 then Ret (inr ErrSyntax) else Ret (inl (16, 2))
    else if s0 =? ch "0" then Ret (inl (8, 1))
    else Ret (inl (10, 0))
  else
    t ← Itoa host base;
    Ret (inr (ErrNew (str "invalid base " ++ t))).

(** The loop over the digits from offset [i]. *)
Definition parse_digits (s : bytes) (base cutoff maxVal i : Z) : go (Z * option error) :=
  loop (S (length s)) (λ '(i, n),
    if i <? zlen s then
      d ← idx s i;
      match digit d with
      | None => Ret (inr (0, Some ErrSyntax))
      | Some v =>
        if u8 base <=? v then Ret (inr (0, Some ErrSyntax)) else
        if cutoff <=? n then Ret (inr (maxUint64, Some ErrRange)) else
        let n := u64 (n * u64 base) in
        let n1 := u64 (n + v) in
        if (n1 <? n) || (maxVal <? n1) then Ret (inr (maxUint64, Some ErrRange))
        else Ret (inl (i + 1, n1))
      end
    else Ret (inr (n, None))) (i, 0).

Definition ParseUint (s : bytes) (base bitSize : Z) : go (Z * option NumError) :=
  let bitSize := if bitSize =? 0 then IntSize else bitSize in
  p ← pick_base s base;
  '(n, err) ← match p with
    | inr e => Ret (0, Some e)
    | inl (base, i) =>
      let cutoff := if base =? 10 then maxUint64 / 10 + 1
                    else if base =? 16 then maxUint64 / 16 + 1
                    else u64 (maxUint64 / u64 base + 1) in
      let maxVal := u64 (shl64 1 (wrap host bitSize) - 1) in
      parse_digits s base cutoff maxVal i
    end;
  Ret (n, match err with
          | None => None
          | Some e => Some {| Func := str "ParseUint"; Num := s; Err := e |}
          end).

(** The sign, if any, and the rest. *)
Definition pick_sign (s : bytes) : go (bool * bytes) :=
  s0 ← idx s 0;
  if s0 =? ch "+" then r ← slice_from s 1; Ret (false, r)
  else if s0 =? ch "-" then r ← slice_from s 1; Ret (true, r)
  else Ret (false, s).

Definition ParseInt (s : bytes) (base bitSize : Z) : go (Z * option NumError) :=
  let fnParseInt := str "ParseInt" in
  let bitSize := if bitSize =? 0 then IntSize else bitSize in
  if zlen s =? 0 then Ret (0, Some (syntaxError fnParseInt s)) else
  let s0 := s in
  '(neg, s) ← pick_sign s;
  '(un, err) ← ParseUint s base bitSize;
  let checked :=
    let cutoff := shl64 1 (wrap host (bitSize - 1)) in
    if negb neg && (cutoff <=? un) then (i64 (u64 (cutoff - 1)), Some (rangeError fnParseInt s0)) else
    if neg && (cutoff <? un) then (i64 (- i64 cutoff), Some (rangeError fnParseInt s0)) else
    let n := i64 un in
    ((if neg then i64 (- n) else n), None) in
  match err with
  | Some e =>
    if decide (Err e = ErrRange) then Ret checked
    else Ret (0, Some {| Func := fnParseInt; Num := s0; Err := Err e |})
  | None => Ret checked
  end.

Definition Atoi (s : bytes) : go (Z * option NumError) :=
  '(i, err) ← ParseInt s 10 0; Ret (swrap host i, err).
End atoi.

(** * Booleans *)

Definition ParseBool (s : bytes) : bool * option NumError :=
  if decide (s ∈ [str "1"; str "t"; str "T"; str "true"; str "TRUE"; str "True"]) then (true, None)
  else if decide (s ∈ [str "0"; str "f"; str "F"; str "false"; str "FALSE"; str "False"]) then (false, None)
  else (false, Some (syntaxError (str "ParseBool") s)).

Definition FormatBool (b : bool) : bytes := if b then str "true" else str "false".
Definition AppendBool (dst : bytes) (b : bool) : bytes :=
  if b then dst ++ str "true" else dst ++ str "false".

Example FormatInt_run : FormatInt 32 (- 2 ^ 63) 10 = Ret (str "-9223372036854775808") ∧
  FormatInt 64 (- 2 ^ 63) 2 = Ret (str "-1" ++ replicate 63 48) ∧ FormatUint 64 12345 36 = Ret (str "9ix") ∧
  FormatInt 64 255 16 = Ret (str "ff") ∧ Itoa 32 0 = Ret (str "0").
Proof. by vm_compute. Qed.
Example ParseInt_run : ParseInt 32 (str "-0x80") 0 8 = Ret (-128, None) ∧
  ParseInt 64 (str "300") 10 8 = Ret (127, Some (rangeError (str "ParseInt") (str "300"))) ∧
  ParseUint 64 (str "18446744073709551616") 10 64 =
    Ret (maxUint64, Some {| Func := str "ParseUint"; Num := str "18446744073709551616"; Err := ErrRange |}) ∧
  ParseUint 64 (str "1") 1 64 =
    Ret (0, Some {| Func := str "ParseUint"; Num := str "1"; Err := ErrNew (str "invalid base 1") |}) ∧
  Atoi 32 (str "+77") = Ret (77, None).
Proof. by vm_compute. Qed.

(** * Numerals *)

(** The character of a digit. *)
Definition dchar (v : Z) : Z := if v <? 10 then v + 48 else v + 87.

(** [t] writes [u] in base [b], without leading zeros. *)
Inductive numeral (b : Z) : Z → bytes → Prop :=
  | numeral_one u : 0 <= u < b → numeral b u [dchar u]
  | numeral_more u t : b <= u → numeral b (u / b) t → numeral b u (t ++ [dchar (u mod b)]).

Lemma numeral_unique b u t t' : numeral b u t → numeral b u t' → t' = t.
Proof.
  intros Ht. revert t'. induction Ht as [v Hv|v t Hv _ IH]; intros t' Ht';
    inversion Ht' as [? ?|? t0 ? Ht0]; subst; try lia; [done|]. by rewrite (IH t0).
Qed.

Lemma digits_nth v : 0 <= v < 36 → digits.[v] = Some (dchar v).
Proof.
  intros Hv. assert (forallb (λ v, bool_decide (digits.[v] = Some (dchar v))) (seqZ 0 36) = true) as H by by vm_compute.
  rewrite forallb_forall in H. eapply bool_decide_eq_true. apply H, list_elem_of_In, elem_of_seqZ. lia.
Qed.

Lemma digit_dchar v : 0 <= v < 36 → digit (dchar v) = Some v.
Proof.
  intros Hv. unfold digit, dchar. change (ch "0") with 48. change (ch "9") with 57. change (ch "a") with 97.
  change (ch "z") with 122. bool_cases; f_equal; lia.
Qed.

(** * Formatting writes the numeral *)

(** The state of a digit loop: [i] is the cursor, the digits of [u0] below those
    of [u] are written behind it, and there is room for the rest. *)
Definition writing (b u0 : Z) (a : bytes) (i u : Z) : Prop :=
  ∃ k out, a = k ++ out ∧ i = zlen k ∧ 0 <= u ∧ 2 <= i ∧ u < 2 ^ (i - 1) ∧
    ∀ t, numeral b u t → numeral b u0 (t ++ out).

Lemma list_last {A} (k : list A) : 1 <= zlen k → ∃ k' x, k = k' ++ [x].
Proof. intros Hk. destruct k as [|x k] using rev_ind; [change (zlen []) with 0 in Hk; lia|eauto]. Qed.

Lemma writing_step b u0 a i u :
  2 <= b → b <= u → writing b u0 a i u →
  upd a (i - 1) (dchar (u mod b)) ⇓ λ a', writing b u0 a' (i - 1) (u / b).
Proof.
  intros Hb Hu (k & out & -> & -> & Hu0 & Hi & Hroom & Hn).
  destruct (list_last k) as (k' & x & ->); [lia|]. rewrite zlen_app, zlen_one in *.
  rewrite upd_cursor_back by lia. simpl. exists k', (dchar (u mod b) :: out).
  assert (2 < zlen k' + 1).
  { destruct (decide (zlen k' + 1 = 2)) as [E|]; [|lia]. rewrite E in Hroom. change (2 ^ (2 - 1)) with 2 in Hroom. lia. }
  split; [done|]. split; [lia|]. split; [apply Z.div_pos; lia|]. split; [lia|]. split.
  - apply Z.div_lt_upper_bound; [lia|]. replace (zlen k' + 1 - 1) with (Z.succ (zlen k' - 1)) in Hroom by lia.
    rewrite Z.pow_succ_r in Hroom by lia. replace (zlen k' + 1 - 1 - 1) with (zlen k' - 1) by lia.
    assert (0 < 2 ^ (zlen k' - 1)) by (apply Z.pow_pos_nonneg; lia). nia.
  - intros t Ht. replace (t ++ dchar (u mod b) :: out) with ((t ++ [dchar (u mod b)]) ++ out) by (by rewrite <- app_assoc).
    by apply Hn, numeral_more.
Qed.

(** The last digit. *)
Lemma writing_last b u0 a i u :
  u < b → writing b u0 a i u →
  upd a (i - 1) (dchar u) ⇓ λ a', ∃ k t, a' = k ++ t ∧ zlen k = i - 1 ∧ 1 <= zlen k ∧ numeral b u0 t.
Proof.
  intros Hu (k & out & -> & -> & Hu0 & Hi & Hroom & Hn).
  destruct (list_last k) as (k' & x & ->); [lia|]. rewrite zlen_app, zlen_one in *.
  rewrite upd_cursor_back by lia. simpl. exists k', ([dchar u] ++ out).
  split; [done|]. split; [lia|]. split; [lia|]. by apply Hn, numeral_one.
Qed.

(** Any loop whose turns write one digit. *)
Lemma digit_loop b u0 a i u (body : bytes * Z * Z → go (bytes * Z * Z)) :
  2 <= b → u < 2 ^ 64 → writing b u0 a i u →
  (∀ a i u, b <= u < 2 ^ 64 → body (a, i, u) = (a ← upd a (i - 1) (dchar (u mod b)); Ret (a, i - 1, u / b))) →
  while 65 (λ '(_, _, u), Ret (b <=? u)) body (a, i, u) ⇓ λ '(a, i, u), u < b ∧ writing b u0 a i u.
Proof.
  intros Hb Hu Hw Hbody.
  apply wp_while with (I := λ '(a, i, u), u < 2 ^ 64 ∧ writing b u0 a i u) (meas := λ '(_, _, u), Z.log2 u).
  - intros [[a' i'] u'] [Hu' Hw']. simpl. destruct (Z.leb_spec b u'); [|by split].
    rewrite Hbody by done. eapply wp_bind_mono; [by apply writing_step|].
    intros a'' Hw''. simpl. assert (u' / b <= u' / 2) by (apply Z.div_le_compat_l; lia).
    assert (u' / b < u') by (apply Z.div_lt; lia).
    split; [split; [lia|done]|]. split; [apply Z.log2_nonneg|].
    assert (Z.log2 (u' / b) <= Z.log2 (u' / 2)) by (by apply Z.log2_le_mono).
    destruct (decide (u' / 2 = 0)); [lia_div|].
    assert (1 <= Z.log2 u') by (apply Z.log2_le_pow2; lia).
    assert (Z.log2 (u' / 2) = Z.log2 u' - 1).
    { rewrite <- Z.div2_div, Z.div2_spec, Z.log2_shiftr by lia. lia. }
    lia.
  - done.
  - destruct Hw as (k & out & _ & _ & Hu0 & _). split; [apply Z.log2_nonneg|].
    destruct (decide (u = 0)) as [->|]; [simpl; lia|].
    assert (Z.log2 u < 64) by (apply Z.log2_lt_pow2; lia). lia.
Qed.

Lemma dchar_small v : 0 <= v < 10 → u8 (v + ch "0") = dchar v.
Proof. intros Hv. unfold dchar. change (ch "0") with 48. rewrite (proj2 (Z.ltb_lt _ _)) by lia. apply wrap_small. lia. Qed.

Lemma mod_minus u b : 0 < b → u - u / b * b = u mod b.
Proof. intros. rewrite (Z.mod_eq u b) by lia. lia. Qed.

Lemma writing_weaken u0 a i u : writing 10 u0 a i u → 0 <= u ∧ 2 <= i.
Proof. intros (k & out & _ & _ & ? & ? & _). done. Qed.

(** Nine turns at once, for the narrow host: [us] holds the digits. *)
Lemma nine_digits_spec u0 a i u :
  1000000000 <= u → writing 10 u0 a i u →
  nine_digits a i (u mod 1000000000) ⇓ λ '(a, i, _), writing 10 u0 a i (u / 1000000000).
Proof.
  intros Hu Hw. unfold nine_digits.
  apply wp_for_down with (I := λ j '(a, i, us), writing 10 u0 a i (u / 10 ^ (9 - j)) ∧
     us = u / 10 ^ (9 - j) mod 10 ^ j).
  - intros j [[a' i'] us] Hj [Hw' ->]. 
    assert (10 ^ (9 - (j - 1)) = 10 ^ (9 - j) * 10) as E1
      by (replace (9 - (j - 1)) with (Z.succ (9 - j)) by lia; rewrite Z.pow_succ_r by lia; lia).
    assert (10 ^ j = 10 ^ (j - 1) * 10) as E2
      by (replace j with (Z.succ (j - 1)) at 1 by lia; rewrite Z.pow_succ_r by lia; lia).
    assert (0 < 10 ^ (9 - j)) by (apply Z.pow_pos_nonneg; lia).
    assert (0 < 10 ^ (j - 1)) by (apply Z.pow_pos_nonneg; lia).
    set (w := u / 10 ^ (9 - j)) in *.
    assert (10 <= w).
    { assert (10 ^ (9 - j) <= 100000000) by (apply (Z.pow_le_mono_r 10 (9 - j) 8); lia).
      subst w. apply Z.div_le_lower_bound; [done|]. lia. }
    assert ((w mod 10 ^ j) mod 10 = w mod 10) as E3.
    { rewrite E2. apply Z.mod_mod_divide. by exists (10 ^ (j - 1)). }
    cbv zeta. rewrite mod_minus, E3, dchar_small by (try apply Z.mod_pos_bound; lia).
    eapply wp_bind_mono; [apply writing_step; [lia|done|exact Hw']|].
    intros a'' Hw''. simpl. rewrite E1, <- Z.div_div by lia. split; [done|].
    fold w. rewrite E2, (Z.mul_comm (10 ^ (j - 1)) 10), Z.rem_mul_r by lia.
    rewrite (Z.mul_comm 10 (_ mod _)), Z.div_add, Z.div_small by (try apply Z.mod_pos_bound; lia). lia.
  - change (10 ^ (9 - 9)) with 1. by rewrite Z.div_1_r.
  - intros [[a' i'] us] [Hw' _]. exact Hw'.
Qed.

Section format.
Context (host : Z) (Hhost : host = 32 ∨ host = 64).

Lemma format10_spec u0 a i u :
  u < 2 ^ 64 → writing 10 u0 a i u →
  format10 host a i u ⇓ λ '(a, i), ∃ k t, a = k ++ t ∧ zlen k = i ∧ 1 <= i ∧ numeral 10 u0 t.
Proof.
  intros Hu Hw. unfold format10. cbv zeta.
  eapply wp_bind_mono with (Q := λ '(a, i, u), u < 2 ^ host ∧ u < 2 ^ 64 ∧ writing 10 u0 a i u).
  { destruct Hhost as [-> | ->]; [|by simpl].
    change (Z.shiftr (2 ^ 32 - 1) 32 =? 0) with true. cbv iota.
    apply wp_while with (I := λ '(a, i, u), u < 2 ^ 64 ∧ writing 10 u0 a i u) (meas := λ '(_, _, u), Z.log2 u / 27).
    - intros [[a' i'] u'] [Hu' Hw']. cbn [wp]. destruct (Z.ltb_spec (2 ^ 32 - 1) u'); [|split; [lia|done]].
      cbv zeta. rewrite mod_minus, wrap_small by (try lia_div; lia).
      eapply wp_bind_mono; [apply nine_digits_spec; [lia|done]|].
      intros [[a'' i''] us] Hw''. simpl. split; [split; [lia_div|done]|].
      assert (u' / 1000000000 <= u' / 2 ^ 29) by (apply Z.div_le_compat_l; lia).
      assert (Z.log2 (u' / 1000000000) <= Z.log2 (u' / 2 ^ 29)) by (by apply Z.log2_le_mono).
      rewrite <- Z.shiftr_div_pow2, Z.log2_shiftr in * by lia.
      assert (32 <= Z.log2 u') by (apply Z.log2_le_pow2; lia).
      pose proof (Z.log2_nonneg (u' / 1000000000)). lia_div.
    - done.
    - apply writing_weaken in Hw as [Hw _]. destruct (decide (u = 0)) as [->|]; [done|].
      assert (Z.log2 u < 64) by (apply Z.log2_lt_pow2; lia). pose proof (Z.log2_nonneg u). lia_div. }
  intros [[a1 i1] u1] (Hu1 & Hu1' & Hw1). rewrite wrap_small by (apply writing_weaken in Hw1; lia).
  eapply wp_bind_mono; [apply (digit_loop 10 u0); [lia|done|done|]|].
  - intros a' i' u' Hu'. cbv zeta. rewrite mod_minus, dchar_small by (try apply Z.mod_pos_bound; lia). done.
  - intros [[a2 i2] u2] [Hu2 Hw2]. rewrite dchar_small by (apply writing_weaken in Hw2; lia).
    eapply wp_bind_mono; [by apply (writing_last 10 u0)|].
    intros a' (k & t & -> & Hk & Hk' & Ht). simpl. exists k, t. repeat split; [lia|lia|done].
Qed.

Lemma wrap_host_small v : 0 <= v < 2 ^ 32 → wrap host v = v.
Proof. intros Hv. apply wrap_small. destruct Hhost as [-> | ->]; lia. Qed.

Lemma writing_finish b u0 a i u :
  2 <= b <= 36 → u < b → writing b u0 a i u →
  (d ← idx digits (wrap host u); a ← upd a (i - 1) d; Ret (a, i - 1)) ⇓ λ '(a, i),
    ∃ k t, a = k ++ t ∧ zlen k = i ∧ 1 <= i ∧ numeral b u0 t.
Proof.
  intros Hb Hu Hw. assert (0 <= u) by (by destruct Hw as (? & ? & _ & _ & ? & _)).
  rewrite wrap_host_small by lia. rewrite (idx_Some _ _ _ (digits_nth u ltac:(lia))), go_bind_ret.
  eapply wp_bind_mono; [by apply (writing_last b u0)|].
  intros a' (k & t & -> & Hk & Hk' & Ht). simpl. exists k, t. repeat split; [lia|lia|done].
Qed.

Lemma format_div_spec b u0 a i u :
  2 <= b <= 36 → u < 2 ^ 64 → writing b u0 a i u →
  format_div host a i u b ⇓ λ '(a, i), ∃ k t, a = k ++ t ∧ zlen k = i ∧ 1 <= i ∧ numeral b u0 t.
Proof.
  intros Hb Hu Hw. unfold format_div. cbv zeta. rewrite (wrap_small 64 b) by lia.
  eapply wp_bind_mono; [apply (digit_loop b u0); [lia|done|done|]|].
  - intros a' i' u' Hu'. pose proof (Z.mod_pos_bound u' b). rewrite mod_minus, wrap_host_small by lia.
    by rewrite (idx_Some _ _ _ (digits_nth (u' mod b) ltac:(lia))), go_bind_ret.
  - intros [[a2 i2] u2] [Hu2 Hw2]. by apply writing_finish.
Qed.

Lemma land_wrap_host u s : 0 <= s <= 32 → Z.land (wrap host u) (2 ^ s - 1) = u mod 2 ^ s.
Proof.
  intros Hs. rewrite land_mask by lia. unfold wrap. apply Z.mod_mod_divide.
  exists (2 ^ (host - s)). rewrite <- Z.pow_add_r by lia. f_equal. lia.
Qed.

Lemma format_shift_spec s u0 a i u :
  1 <= s <= 5 → u < 2 ^ 64 → writing (2 ^ s) u0 a i u →
  format_shift host a i u (2 ^ s) s ⇓ λ '(a, i), ∃ k t, a = k ++ t ∧ zlen k = i ∧ 1 <= i ∧ numeral (2 ^ s) u0 t.
Proof.
  intros Hs Hu Hw. unfold format_shift. cbv zeta.
  assert (2 ^ 1 <= 2 ^ s <= 2 ^ 5) as Hb by (split; apply Z.pow_le_mono_r; lia).
  rewrite (wrap_small 64), (wrap_host_small (2 ^ s)) by lia.
  eapply wp_bind_mono; [apply (digit_loop (2 ^ s) u0); [lia|done|done|]|].
  - intros a' i' u' Hu'. rewrite land_wrap_host by lia. pose proof (Z.mod_pos_bound u' (2 ^ s)).
    rewrite (idx_Some _ _ _ (digits_nth (u' mod 2 ^ s) ltac:(lia))), go_bind_ret.
    by rewrite Z.shiftr_div_pow2 by lia.
  - intros [[a2 i2] u2] [Hu2 Hw2]. apply writing_finish; [lia|done|done].
Qed.

Lemma shifts_spec b : 2 <= b <= 36 →
  ∃ s, shifts.[b] = Some s ∧ (s = 0 ∨ 1 <= s <= 5 ∧ b = 2 ^ s).
Proof.
  intros Hb. assert (forallb (λ b, match shifts.[b] with
    | Some s => (s =? 0) || (1 <=? s) && (s <=? 5) && (b =? 2 ^ s) | None => false end) (seqZ 2 35) = true) as H by by vm_compute.
  rewrite forallb_forall in H. specialize (H b). rewrite <- list_elem_of_In, elem_of_seqZ in H.
  specialize (H ltac:(lia)). destruct (shifts.[b]) as [s|]; [|done]. exists s. split; [done|].
  apply orb_true_iff in H as [H|H]; [left; lia|right]. rewrite !andb_true_iff, Z.eqb_eq in H. lia.
Qed.

Definition sign (neg : bool) : bytes := if neg then [45] else [].

Lemma formatBits_spec dst u b (neg append_ : bool) :
  2 <= b <= 36 → 0 <= u < 2 ^ 64 →
  ∃ t, numeral b (if neg then u64 (- u) else u) t ∧
    formatBits host dst u b neg append_ = Ret (if append_ then (dst ++ sign neg ++ t, []) else ([], sign neg ++ t)).
Proof.
  intros Hb Hu. unfold formatBits. rewrite (proj2 (Z.ltb_ge b 2)) by lia.
  change (zlen digits) with 36. rewrite (proj2 (Z.ltb_ge 36 b)) by lia. cbn [orb].
  rewrite make_eq, go_bind_ret by lia. cbv zeta. rewrite zlen_replicate by lia. change (64 + 1) with 65.
  set (v := if neg then u64 (- u) else u).
  assert (0 <= v < 2 ^ 64) as Hv by (subst v; destruct neg; [by apply wrap_bound|done]).
  set (zeros := replicate _ 0).
  assert (writing b v zeros 65 v) as Hw.
  { exists zeros, []. rewrite app_nil_r. repeat split; [lia..|]. intros t. by rewrite app_nil_r. }
  assert ((if b =? 10 then format10 host zeros 65 v else
      s ← idx shifts b; if 0 <? s then format_shift host zeros 65 v b s else format_div host zeros 65 v b)
    ⇓ λ '(a, i), ∃ k t, a = k ++ t ∧ zlen k = i ∧ 1 <= i ∧ numeral b v t) as Hf.
  { destruct (Z.eqb_spec b 10) as [->|]; [apply format10_spec; [lia|done]|].
    destruct (shifts_spec b Hb) as (s & Es & Hs). rewrite (idx_Some _ _ _ Es), go_bind_ret.
    destruct Hs as [->|[Hs ->]]; [apply format_div_spec; [done|lia|done]|].
    rewrite (proj2 (Z.ltb_lt 0 s)) by lia. apply format_shift_spec; [done|lia|done]. }
  apply wp_ex in Hf as ([a i] & E & k & t & -> & <- & Hk & Ht). rewrite E, go_bind_ret. clear E.
  exists t. split; [done|]. destruct neg.
  - destruct (list_last k) as (k' & x & ->); [lia|]. rewrite zlen_app, zlen_one in *.
    rewrite upd_cursor_back, !go_bind_ret by lia. replace (zlen k' + 1 - 1) with (zlen k') by lia.
    pose proof (zlen_nonneg t). pose proof (zlen_nonneg k'). rewrite slice_from_eq by (rewrite zlen_app, zlen_cons; lia).
    rewrite go_bind_ret. unfold zlen. rewrite Nat2Z.id, drop_app_length. by destruct append_.
  - rewrite go_bind_ret. pose proof (zlen_nonneg t). rewrite slice_from_eq by (rewrite zlen_app; lia).
    rewrite go_bind_ret. unfold zlen. rewrite Nat2Z.id, drop_app_length. by destruct append_.
Qed.
End format.

(** * Parsing reads values *)

(** The number written by [ds] in base [b] behind the digits of [n]. *)
Fixpoint value (b n : Z) (ds : bytes) : option Z :=
  match ds with
  | [] => Some n
  | c :: ds' => match digit c with
                | Some v => if v <? b then value b (n * b + v) ds' else None
                | None => None
                end
  end.

Lemma value_app b n t c : value b n (t ++ [c]) =
  match value b n t with Some m => value b m [c] | None => None end.
Proof. revert n. induction t as [|d t IH]; intros n; simpl; [done|]. destruct (digit d); [|done]. case_match; [apply IH|done]. Qed.

Lemma digit_nonneg c v : digit c = Some v → 0 <= v.
Proof.
  unfold digit. change (ch "0") with 48. change (ch "9") with 57. change (ch "a") with 97.
  change (ch "z") with 122. change (ch "A") with 65. change (ch "Z") with 90. bool_cases; intros [= <-]; lia.
Qed.

Lemma value_ge b n ds V : 1 <= b → 0 <= n → value b n ds = Some V → n <= V.
Proof.
  intros Hb. revert n. induction ds as [|c ds IH]; intros n Hn; simpl; [intros [= ->]; lia|].
  destruct (digit c) as [v|] eqn:E; [|done]. apply digit_nonneg in E.
  destruct (v <? b); [|done]. intros H. apply IH in H; nia.
Qed.

Lemma numeral_value b u t : 2 <= b <= 36 → numeral b u t → value b 0 t = Some u ∧ t ≠ [].
Proof.
  intros Hb. induction 1 as [u Hu|u t Hu _ [IH _]].
  - split; [|done]. simpl. rewrite digit_dchar by lia. by rewrite (proj2 (Z.ltb_lt u b)) by lia.
  - split; [|by destruct t]. rewrite value_app, IH. simpl. pose proof (Z.mod_pos_bound u b).
    rewrite digit_dchar by lia. rewrite (proj2 (Z.ltb_lt _ _)) by lia. f_equal. lia_div.
Qed.

(** What the loop does: the first thing wrong from the left decides. *)
Fixpoint scan (b max n : Z) (ds : bytes) : Z * option error :=
  match ds with
  | [] => (n, None)
  | c :: ds' =>
    match digit c with
    | Some v => if b <=? v then (0, Some ErrSyntax) else
                if max <? n * b + v then (maxUint64, Some ErrRange) else scan b max (n * b + v) ds'
    | None => (0, Some ErrSyntax)
    end
  end.

Lemma scan_cases b max n ds :
  1 <= b → 0 <= n <= max →
  (∃ V, value b n ds = Some V ∧ V <= max ∧ scan b max n ds = (V, None)) ∨
  (∃ p q V, ds = p ++ q ∧ value b n p = Some V ∧ max < V ∧ scan b max n ds = (maxUint64, Some ErrRange)) ∨
  (∃ p c q V, ds = p ++ c :: q ∧ value b n p = Some V ∧ V <= max ∧ value b V [c] = None ∧
     scan b max n ds = (0, Some ErrSyntax)).
Proof.
  intros Hb. revert n. induction ds as [|c ds IH]; intros n Hn; [left; exists n; simpl; split; [done|split; [lia|done]]|].
  simpl scan. destruct (digit c) as [v|] eqn:E.
  2:{ right; right. exists [], c, ds, n. simpl. rewrite E. repeat split. lia. }
  pose proof (digit_nonneg _ _ E). destruct (Z.leb_spec b v).
  { right; right. exists [], c, ds, n. simpl. rewrite E, (proj2 (Z.ltb_ge v b)) by lia. repeat split. lia. }
  assert (∀ p, value b n (c :: p) = value b (n * b + v) p) as Hv.
  { intros p. simpl. by rewrite E, (proj2 (Z.ltb_lt v b)) by lia. }
  destruct (Z.ltb_spec max (n * b + v)).
  { right; left. exists [c], ds, (n * b + v). rewrite Hv. repeat split. lia. }
  destruct (IH (n * b + v) ltac:(nia)) as [(V & ? & ? & ?)|[(p & q & V & -> & ? & ? & ?)|(p & d & q & V & -> & ? & ? & ? & ?)]].
  - left. exists V. by rewrite Hv.
  - right; left. exists (c :: p), q, V. by rewrite Hv.
  - right; right. exists (c :: p), d, q, V. by rewrite Hv.
Qed.

Lemma scan_value b max n ds V :
  1 <= b → 0 <= n <= max → value b n ds = Some V →
  scan b max n ds = if V <=? max then (V, None) else (maxUint64, Some ErrRange).
Proof.
  intros Hb. revert n. induction ds as [|c ds IH]; intros n Hn; simpl.
  { intros [= ->]. by rewrite (proj2 (Z.leb_le V max)) by lia. }
  destruct (digit c) as [v|] eqn:E; [|done]. pose proof (digit_nonneg _ _ E).
  destruct (Z.ltb_spec v b); [|done]. rewrite (proj2 (Z.leb_gt b v)) by lia. intros HV.
  destruct (Z.ltb_spec max (n * b + v)); [|apply IH; [nia|done]].
  apply value_ge in HV; [|lia|nia]. by rewrite (proj2 (Z.leb_gt V max)) by lia.
Qed.

Lemma parse_digits_eq s b max i :
  2 <= b <= 36 → 0 <= max <= maxUint64 → 0 <= i <= zlen s →
  parse_digits s b (maxUint64 / b + 1) max i = Ret (scan b max 0 (drop (Z.to_nat i) s)).
Proof.
  intros Hb Hmax Hi. unfold parse_digits.
  match goal with |- ?m = Ret ?r => assert (m ⇓ λ r', r' = r) as H; [|by apply wp_ex in H as (? & -> & ->)] end.
  apply wp_loop with
    (I := λ '(j, n), 0 <= j <= zlen s ∧ 0 <= n <= max ∧ scan b max n (drop (Z.to_nat j) s) = scan b max 0 (drop (Z.to_nat i) s))
    (meas := λ '(j, _), zlen s - j); [|split; [lia|split; [lia|done]]|unfold zlen in *; lia].
  intros [j n] (Hj & Hn & <-). destruct (Z.ltb_spec j (zlen s)).
  - apply wp_bind, wp_idx; [lia|]. intros d Hd. assert (drop (Z.to_nat j) s = d :: drop (Z.to_nat (j + 1)) s) as ->.
    { unfold nthZ in Hd. rewrite decide_True in Hd by lia. rewrite (drop_S _ _ _ Hd). do 2 f_equal. lia. }
    simpl scan. destruct (digit d) as [v|] eqn:E; [|done]. pose proof (digit_nonneg _ _ E).
    rewrite (wrap_small 8) by lia. destruct (Z.leb_spec b v); [done|].
    unfold maxUint64 in *. pose proof (Z.mul_div_le (2 ^ 64 - 1) b). pose proof (Z.mul_succ_div_gt (2 ^ 64 - 1) b).
    destruct (Z.leb_spec ((2 ^ 64 - 1) / b + 1) n).
    { assert (2 ^ 64 - 1 < n * b) by nia. by rewrite (proj2 (Z.ltb_lt _ _)) by lia. }
    assert (n * b <= 2 ^ 64 - 1) by nia.
    rewrite (wrap_small 64 b), (wrap_small 64 (n * b)) by nia.
    destruct (decide (n * b + v < 2 ^ 64)).
    + rewrite wrap_small by nia. rewrite (proj2 (Z.ltb_ge (n * b + v) (n * b))) by lia. cbn [orb].
      destruct (Z.ltb_spec max (n * b + v)); [done|]. simpl. split; [|lia]. split; [lia|]. split; [nia|done].
    + assert (u64 (n * b + v) = n * b + v - 2 ^ 64) as -> by (unfold wrap; lia_div).
      rewrite (proj2 (Z.ltb_lt (n * b + v - 2 ^ 64) (n * b))) by lia. cbn [orb].
      by rewrite (proj2 (Z.ltb_lt max (n * b + v))) by lia.
  - simpl. rewrite drop_ge by (unfold zlen in *; lia). done.
Qed.

Section parse.
Context (host : Z) (Hhost : host = 32 ∨ host = 64).

Lemma IntSize_host : IntSize host = host.
Proof. by destruct Hhost as [-> | ->]. Qed.

Lemma wrap_host_bits k : 0 <= k <= 64 → wrap host k = k.
Proof. intros Hk. apply wrap_small. destruct Hhost as [-> | ->]; lia. Qed.

Lemma maxVal_eq k : 1 <= k <= 64 → u64 (shl64 1 (wrap host k) - 1) = 2 ^ k - 1.
Proof.
  intros Hk. rewrite wrap_host_bits by lia. unfold shl64. destruct (Z.ltb_spec k 64).
  - rewrite Z.shiftl_1_l. assert (2 ^ 1 <= 2 ^ k <= 2 ^ 63) by (split; apply Z.pow_le_mono_r; lia).
    rewrite (wrap_small 64 (2 ^ k)) by lia. apply wrap_small. lia.
  - by replace k with 64 by lia.
Qed.

Lemma cutoff_eq b : 2 <= b <= 36 →
  (if b =? 10 then maxUint64 / 10 + 1 else if b =? 16 then maxUint64 / 16 + 1
   else u64 (maxUint64 / u64 b + 1)) = maxUint64 / b + 1.
Proof.
  intros Hb. destruct (Z.eqb_spec b 10) as [->|]; [done|]. destruct (Z.eqb_spec b 16) as [->|]; [done|].
  rewrite (wrap_small 64 b) by lia. apply wrap_small. unfold maxUint64. lia_div.
Qed.

(** The error record of [ParseUint]. *)
Definition uint_error (s : bytes) (e : option error) : option NumError :=
  match e with None => None | Some e => Some {| Func := str "ParseUint"; Num := s; Err := e |} end.

(** The width asked for. *)
Definition width (bitSize : Z) : Z := if bitSize =? 0 then host else bitSize.
Lemma width_range k : 0 <= k <= 64 → 1 <= width k <= 64.
Proof. intros Hk. unfold width. destruct (Z.eqb_spec k 0); [destruct Hhost as [-> | ->]|]; lia. Qed.

Lemma width_width k : 0 <= k <= 64 → width (width k) = width k.
Proof. intros Hk. pose proof (width_range k Hk). unfold width at 1. by rewrite (proj2 (Z.eqb_neq (width k) 0)) by lia. Qed.

(** What a string and a base argument say: the base of the number and its digits. *)
Inductive literal : Z → bytes → Z → bytes → Prop :=
  | lit_base b s : 2 <= b <= 36 → s ≠ [] → literal b s b s
  | lit_hex x ds : x = ch "x" ∨ x = ch "X" → ds ≠ [] → literal 0 (ch "0" :: x :: ds) 16 ds
  | lit_octal ds : (∀ x ds', ds = x :: ds' → x ≠ ch "x" ∧ x ≠ ch "X") → literal 0 (ch "0" :: ds) 8 ds
  | lit_decimal c ds : c ≠ ch "0" → literal 0 (c :: ds) 10 (c :: ds).

Lemma pick_base_literal b s b' ds : literal b s b' ds →
  2 <= b' <= 36 ∧ ∃ i, pick_base host s b = Ret (inl (b', i)) ∧ 0 <= i <= zlen s ∧ drop (Z.to_nat i) s = ds.
Proof.
  assert (∀ (c : Z) l, 1 <= zlen (c :: l)) as H1 by (intros c l; rewrite zlen_cons; pose proof (zlen_nonneg l); lia).
  unfold pick_base. intros [b0 s0 Hb Hs|x ds0 Hx Hd|ds0 Hd|c ds0 Hc].
  - split; [done|]. exists 0. destruct s0 as [|c s0]; [done|]. rewrite (proj2 (Z.ltb_ge _ _)) by apply H1.
    rewrite (proj2 (Z.leb_le 2 b0)), (proj2 (Z.leb_le b0 36)) by lia. split; [done|]. split; [|done]. pose proof (H1 c s0). lia.
  - split; [done|]. exists 2. destruct ds0 as [|d ds0]; [done|]. rewrite (proj2 (Z.ltb_ge _ _)) by apply H1.
    rewrite (idx_Some (_ :: _) 0 (ch "0")), go_bind_ret by done. pose proof (zlen_nonneg ds0). rewrite !zlen_cons.
    rewrite (proj2 (Z.ltb_lt 1 _)) by lia. simpl.
    assert ((x =? ch "x") || (x =? ch "X") = true) as -> by (destruct Hx as [-> | ->]; done).
    rewrite (proj2 (Z.ltb_ge _ 3)) by lia. split; [done|]. split; [lia|done].
  - split; [done|]. exists 1. rewrite (proj2 (Z.ltb_ge _ _)) by apply H1. rewrite (idx_Some (_ :: _) 0 (ch "0")), go_bind_ret by done.
    assert ((hex ← (if (ch "0" =? ch "0") && (1 <? zlen (ch "0" :: ds0)) then
        s1 ← idx (ch "0" :: ds0) 1; Ret ((s1 =? ch "x") || (s1 =? ch "X")) else Ret false); Ret hex) = Ret false) as E.
    { destruct ds0 as [|x ds0]; [done|]. destruct (Hd x ds0 eq_refl) as [Hx1 Hx2]. rewrite !zlen_cons. pose proof (zlen_nonneg ds0).
      rewrite (proj2 (Z.ltb_lt 1 _)) by lia. simpl.
      by rewrite (proj2 (Z.eqb_neq x _)), (proj2 (Z.eqb_neq x (ch "X"))). }
    simpl (2 <=? 0). simpl (0 =? 0). cbv iota. destruct (if (ch "0" =? ch "0") && _ then _ else _) as [h| |]; simpl in E; [|done..].
    injection E as ->. rewrite go_bind_ret. split; [done|]. split; [|done]. pose proof (H1 (ch "0") ds0). lia.
  - split; [done|]. exists 0. rewrite (proj2 (Z.ltb_ge _ _)) by apply H1. rewrite (idx_Some (_ :: _) 0 c), go_bind_ret by done.
    rewrite (proj2 (Z.eqb_neq c _)) by done. split; [done|]. split; [|done]. pose proof (H1 c ds0). lia.
Qed.

(** Every string is read in a base, or it is empty, or a prefix without digits, or
    the base is none. *)
Lemma literal_cases b s :
  s = [] ∨ (∃ b' ds, literal b s b' ds) ∨ (b = 0 ∧ ∃ x, s = [ch "0"; x] ∧ (x = ch "x" ∨ x = ch "X")) ∨
  (s ≠ [] ∧ b ≠ 0 ∧ ¬ 2 <= b <= 36).
Proof.
  destruct s as [|c s]; [by left|]. right. destruct (decide (2 <= b <= 36)) as [Hb|Hb]; [left; exists b, (c :: s); by apply lit_base|].
  destruct (decide (b = 0)) as [->|]; [|by right; right].
  destruct (decide (c = ch "0")) as [->|]; [|left; exists 10, (c :: s); by apply lit_decimal].
  destruct s as [|x s]; [left; exists 8, []; by apply lit_octal|].
  destruct (decide (x = ch "x" ∨ x = ch "X")) as [Hx|Hx].
  - destruct s as [|d s]; [right; left; split; [done|by exists x]|]. left. exists 16, (d :: s). by apply lit_hex.
  - left. exists 8, (x :: s). apply lit_octal. intros ? ? [= <- <-]. split; intros ->; apply Hx; auto.
Qed.

Lemma ParseUint_literal b s b' ds k :
  literal b s b' ds → 0 <= k <= 64 →
  ParseUint host s b k =
    let '(n, e) := scan b' (2 ^ width k - 1) 0 ds in Ret (n, uint_error s e).
Proof.
  intros Hl Hk. destruct (pick_base_literal _ _ _ _ Hl) as (Hb & i & E & Hi & <-).
  unfold ParseUint. cbv zeta. rewrite IntSize_host. fold (width k). rewrite E, go_bind_ret.
  rewrite maxVal_eq by (by apply width_range). rewrite cutoff_eq by done. pose proof (width_range k Hk).
  assert (2 ^ 1 <= 2 ^ width k <= 2 ^ 64) by (split; apply Z.pow_le_mono_r; lia).
  rewrite parse_digits_eq by (unfold maxUint64; lia). rewrite go_bind_ret. by destruct (scan _ _ _ _).
Qed.

Lemma ParseUint_eq s b k :
  2 <= b <= 36 → 0 <= k <= 64 → s ≠ [] →
  ParseUint host s b k =
    let '(n, e) := scan b (2 ^ width k - 1) 0 s in Ret (n, uint_error s e).
Proof. intros Hb Hk Hs. apply ParseUint_literal; [by apply lit_base|done]. Qed.

Lemma Itoa_spec i : - 2 ^ (host - 1) <= i < 2 ^ (host - 1) → ∃ t, Itoa host i = Ret (sign (i <? 0) ++ t) ∧ numeral 10 (Z.abs i) t.
Proof.
  intros Hi. assert (2 ^ (host - 1) <= 2 ^ 63) by (destruct Hhost as [-> | ->]; lia).
  assert (0 <= u64 i < 2 ^ 64) as Hw by (by apply wrap_bound).
  destruct (formatBits_spec host Hhost [] (u64 i) 10 (i <? 0) false ltac:(lia) Hw) as (t & Ht & E).
  assert ((if i <? 0 then u64 (- u64 i) else u64 i) = Z.abs i) as Habs by (unfold wrap; destruct (Z.ltb_spec i 0); lia_div).
  rewrite Habs in Ht. exists t. split; [|done]. unfold Itoa, FormatInt. rewrite swrap_small by lia. by rewrite E.
Qed.

(** The signs [ParseInt] takes off. *)
Inductive signed : bool → bytes → bytes → bytes → Prop :=
  | signed_plus ds : signed false [ch "+"] ds (ch "+" :: ds)
  | signed_minus ds : signed true [ch "-"] ds (ch "-" :: ds)
  | signed_none c ds : c ≠ ch "+" → c ≠ ch "-" → signed false [] (c :: ds) (c :: ds).

Lemma pick_sign_eq neg sg ds s : signed neg sg ds s → pick_sign s = Ret (neg, ds) ∧ s ≠ [] ∧ s = sg ++ ds.
Proof.
  assert (∀ (c : Z) ds, slice_from (c :: ds) 1 = Ret ds) as Hf.
  { intros c ds'. rewrite slice_from_eq; [done|]. rewrite zlen_cons. pose proof (zlen_nonneg ds'). lia. }
  intros H. split; [|by destruct H]. unfold pick_sign. destruct H as [ds|ds|c ds Hp Hm].
  - rewrite (idx_Some _ _ (ch "+")), go_bind_ret by done. simpl. by rewrite Hf.
  - rewrite (idx_Some _ _ (ch "-")), go_bind_ret by done. simpl. by rewrite Hf.
  - rewrite (idx_Some _ _ c), go_bind_ret by done. by rewrite (proj2 (Z.eqb_neq c _) Hp), (proj2 (Z.eqb_neq c _) Hm).
Qed.

Lemma cutoff_int k : 1 <= k <= 64 → shl64 1 (wrap host (k - 1)) = 2 ^ (k - 1).
Proof.
  intros Hk. rewrite wrap_host_bits by lia. unfold shl64. rewrite (proj2 (Z.ltb_lt _ _)) by lia.
  rewrite Z.shiftl_1_l. assert (2 ^ (k - 1) <= 2 ^ 63) by (apply Z.pow_le_mono_r; lia).
  apply wrap_small. assert (0 < 2 ^ (k - 1)) by (apply Z.pow_pos_nonneg; lia). lia.
Qed.

(** The value with its sign, and the nearest integer of [k] bits. *)
Definition signed_value (neg : bool) (V : Z) : Z := if neg then - V else V.
Definition clamp (k v : Z) : Z := Z.max (- 2 ^ (k - 1)) (Z.min (2 ^ (k - 1) - 1) v).

Lemma ParseInt_value neg sg ds s b k V :
  2 <= b <= 36 → 0 <= k <= 64 → signed neg sg ds s → ds ≠ [] → value b 0 ds = Some V →
  ParseInt host s b k =
    let v := clamp (width k) (signed_value neg V) in
    Ret (v, if v =? signed_value neg V then None else Some (rangeError (str "ParseInt") s)).
Proof.
  intros Hb Hk Hsg Hds HV. destruct (pick_sign_eq _ _ _ _ Hsg) as (Hps & Hs & _).
  assert (0 <= V) by (by apply (value_ge b 0 ds); [lia..|]).
  unfold ParseInt. cbv zeta. rewrite IntSize_host. fold (width k). rewrite (proj2 (Z.eqb_neq (zlen s) 0)) by (by intros ?%zlen_nil_inv).
  rewrite Hps, go_bind_ret. pose proof (width_range k Hk) as Hw.
  rewrite ParseUint_eq by (try done; lia). rewrite width_width by done.
  assert (0 < 2 ^ (width k - 1) ∧ 2 ^ width k = 2 * 2 ^ (width k - 1) ∧ 2 ^ (width k - 1) <= 2 ^ 63) as (Hc1 & Hc2 & Hc3).
  { split; [apply Z.pow_pos_nonneg; lia|]. split; [|apply Z.pow_le_mono_r; lia].
    rewrite <- Z.pow_succ_r by lia. f_equal. lia. }
  rewrite (scan_value _ _ _ _ V) by (try done; lia). rewrite cutoff_int by lia.
  set (c := 2 ^ (width k - 1)) in *.
  assert (∀ un, un = V ∨ un = maxUint64 ∧ 2 * c <= V → 
    (if negb neg && (c <=? un) then (i64 (u64 (c - 1)), Some (rangeError (str "ParseInt") s)) else
     if neg && (c <? un) then (i64 (- i64 c), Some (rangeError (str "ParseInt") s)) else
     ((if neg then i64 (- i64 un) else i64 un), None)) =
    (clamp (width k) (signed_value neg V),
     if clamp (width k) (signed_value neg V) =? signed_value neg V then None else Some (rangeError (str "ParseInt") s))) as Hall.
  { intros un Hun. unfold clamp. fold c. unfold maxUint64 in Hun.
    assert (u64 (c - 1) = c - 1) as -> by (apply wrap_small; lia).
    assert (i64 (c - 1) = c - 1) as -> by (apply swrap_small; lia).
    assert (i64 (- i64 c) = - c) as -> by (unfold swrap; lia_div).
    unfold signed_value. destruct neg; cbn [negb andb].
    - destruct (Z.ltb_spec c un).
      + rewrite (proj2 (Z.eqb_neq _ _)) by lia. f_equal. lia.
      + rewrite (proj2 (Z.eqb_eq _ _)) by lia. f_equal. unfold swrap. lia_div.
    - destruct (Z.leb_spec c un).
      + rewrite (proj2 (Z.eqb_neq _ _)) by lia. f_equal. lia.
      + rewrite (proj2 (Z.eqb_eq _ _)) by lia. f_equal. rewrite swrap_small by lia. lia. }
  destruct (Z.leb_spec V (2 ^ width k - 1)).
  - rewrite go_bind_ret. cbn [uint_error]. rewrite Hall by lia. done.
  - rewrite go_bind_ret. cbn [uint_error Err]. rewrite decide_True by done. rewrite Hall by lia. done.
Qed.
End parse.

(** * Properties *)

(** C14: formatting then parsing gives the number back, in every base from 2 to 36
    and on hosts of both widths: for signed and unsigned numbers of 64 bits, for
    [Itoa] and [Atoi] on the host's [int]; the appending functions append the
    same text, which has no leading zero. *)
Theorem Parse_Format host dst b i u :
  (host = 32 ∨ host = 64) → 2 <= b <= 36 → - 2 ^ 63 <= i < 2 ^ 63 → 0 <= u < 2 ^ 64 →
  (∃ t, FormatInt host i b = Ret t ∧ AppendInt host dst i b = Ret (dst ++ t) ∧
     ParseInt host t b 64 = Ret (i, None)) ∧
  (∃ t, FormatUint host u b = Ret t ∧ AppendUint host dst u b = Ret (dst ++ t) ∧ numeral b u t ∧
     ParseUint host t b 64 = Ret (u, None)) ∧
  (- 2 ^ (host - 1) <= i < 2 ^ (host - 1) → ∃ t, Itoa host i = Ret t ∧ Atoi host t = Ret (i, None)).
Proof.
  intros Hh Hb Hi Hu.
  assert (∀ b, 2 <= b <= 36 → ∃ t, FormatInt host i b = Ret t ∧ AppendInt host dst i b = Ret (dst ++ t) ∧
    ∃ ds neg, signed neg (sign neg) ds t ∧ ds ≠ [] ∧ value b 0 ds = Some (Z.abs i) ∧ neg = (i <? 0)) as Hf.
  { clear b Hb. intros b Hb. assert (0 <= u64 i < 2 ^ 64) as Hw by (by apply wrap_bound).
    destruct (formatBits_spec host Hh [] (u64 i) b (i <? 0) false Hb Hw) as (t & Ht & E).
    destruct (formatBits_spec host Hh dst (u64 i) b (i <? 0) true Hb Hw) as (t' & Ht' & E').
    assert ((if i <? 0 then u64 (- u64 i) else u64 i) = Z.abs i) as Habs.
    { unfold wrap. destruct (Z.ltb_spec i 0); lia_div. }
    rewrite Habs in *. destruct (numeral_value _ _ _ Hb Ht) as [Hv Hne].
    assert (t' = t) as -> by (by eapply numeral_unique).
    exists (sign (i <? 0) ++ t). unfold FormatInt, AppendInt. rewrite E, E'. split; [done|]. split; [done|].
    exists t, (i <? 0). split; [|done]. destruct (i <? 0); [apply signed_minus|].
    destruct t as [|c t]; [done|]. apply signed_none; intros ->; by simpl in Hv. }
  split; [|split].
  - destruct (Hf b Hb) as (t & E & E' & ds & neg & Hs & Hne & Hv & ->). exists t. split; [done|]. split; [done|].
    rewrite (ParseInt_value host Hh _ _ _ _ b 64 _ Hb ltac:(lia) Hs Hne Hv). cbv zeta.
    assert (signed_value (i <? 0) (Z.abs i) = i) as -> by (unfold signed_value; destruct (Z.ltb_spec i 0); lia).
    assert (clamp (width host 64) i = i) as -> by (unfold clamp; change (width host 64) with 64; lia).
    by rewrite Z.eqb_refl.
  - destruct (formatBits_spec host Hh [] u b false false Hb Hu) as (t & Ht & E).
    destruct (formatBits_spec host Hh dst u b false true Hb Hu) as (t' & Ht' & E').
    assert (t' = t) as -> by (by eapply numeral_unique).
    exists t. unfold FormatUint, AppendUint. rewrite E, E'. split; [done|]. split; [done|]. split; [done|].
    destruct (numeral_value _ _ _ Hb Ht) as [Hv Hne].
    rewrite ParseUint_eq by (try done; lia). change (width host 64) with 64.
    rewrite (scan_value _ _ _ _ u) by (try done; lia). by rewrite (proj2 (Z.leb_le u _)) by lia.
  - intros Hi'. destruct (Hf 10 ltac:(lia)) as (t & E & _ & ds & neg & Hs & Hne & Hv & ->). exists t.
    unfold Itoa, Atoi. rewrite swrap_small by lia. split; [done|].
    rewrite (ParseInt_value host Hh _ _ _ _ 10 0 _ ltac:(lia) ltac:(lia) Hs Hne Hv). cbv zeta.
    assert (signed_value (i <? 0) (Z.abs i) = i) as -> by (unfold signed_value; destruct (Z.ltb_spec i 0); lia).
    assert (clamp (width host 0) i = i) as -> by (unfold clamp; change (width host 0) with host; lia).
    rewrite Z.eqb_refl, go_bind_ret. rewrite swrap_small; [done|done|destruct Hh as [-> | ->]; lia].
Qed.

Example Parse_Format_witness :
  (∃ t, FormatInt 32 (-99) 7 = Ret t ∧ AppendInt 32 [1] (-99) 7 = Ret ([1] ++ t) ∧ ParseInt 32 t 7 64 = Ret (-99, None)) ∧
  (∃ t, FormatUint 32 5 7 = Ret t ∧ AppendUint 32 [1] 5 7 = Ret ([1] ++ t) ∧ numeral 7 5 t ∧ ParseUint 32 t 7 64 = Ret (5, None)) ∧
  (- 2 ^ (32 - 1) <= -99 < 2 ^ (32 - 1) → ∃ t, Itoa 32 (-99) = Ret t ∧ Atoi 32 t = Ret (-99, None)).
Proof. apply (Parse_Format 32 [1] 7 (-99) 5); [by left|lia|lia|lia]. Defined.



(** on a signed sequence of digits [ParseInt] returns the number clamped to
    the range of the width asked for (of [int] for 0), with the range error
    exactly when the clamping changed it; the error names the input with its sign. *)
Theorem ParseInt_clamps host neg sg ds s b k V :
  (host = 32 ∨ host = 64) → 2 <= b <= 36 → 0 <= k <= 64 →
  signed neg sg ds s → ds ≠ [] → value b 0 ds = Some V →
  ParseInt host s b k =
    let v := clamp (width host k) (signed_value neg V) in
    Ret (v, if v =? signed_value neg V then None else Some (rangeError (str "ParseInt") s)).
Proof. intros Hh. by apply ParseInt_value. Qed.

Example ParseInt_clamps_witness :
  ParseInt 64 (str "-129") 10 8 = Ret (-128, Some (rangeError (str "ParseInt") (str "-129"))).
Proof.
  apply (ParseInt_clamps 64 true (str "-") (str "129") (str "-129") 10 8 129); try reflexivity; try lia; try discriminate.
  apply signed_minus.
Defined.
