(* ===== verification/LinkedList.v ===== *)
(** Package [container/list] ([src/src/container/list/list.go]): doubly linked
    lists, modelled over a store of elements so that the sharing of pointers
    and the sentinel of each list are the code's. *)
From S2P Require Import Prelude.

(** Where an [Element] lives: allocated by itself, or the [root] field of a list. *)
Inductive loc := Elt (n : Z) | Root (l : Z).
#[global] Instance loc_eq_dec : EqDecision loc.
Proof. solve_decision. Defined.
#[global] Instance loc_countable : Countable loc.
Proof.
  refine (inj_countable' (λ p, match p with Elt n => inl n | Root l => inr l end)
    (λ x, match x with inl n => Elt n | inr l => Root l end) _).
  by intros [].
Defined.

(** A Go pointer: [None] is [nil]. *)
Abbreviation ptr := (option loc) (only parsing).

Record Element (V : Type) := { next : ptr; prev : ptr; list_ : option Z; Value : V }.
Arguments next {V} _.
Arguments prev {V} _.
Arguments list_ {V} _.
Arguments Value {V} _.

(** The elements, the [len] field of each list, and the next unused name. *)
Record store (V : Type) := { elems : gmap loc (Element V); lens : gmap Z Z; unused : Z }.
Arguments elems {V} _.
Arguments lens {V} _.
Arguments unused {V} _.

Section operations.
Context {V : Type} (null : V).
Implicit Types (s : store V) (l : Z) (e pos mark : ptr) (v : V).

Definition load s (p : ptr) : go (Element V) :=
  match p with
  | None => Panic "nil pointer dereference"
  | Some x => match elems s !! x with Some el => Ret el | None => Panic "invalid pointer" end
  end.
Definition put s (x : loc) (el : Element V) : store V :=
  {| elems := <[x := el]> (elems s); lens := lens s; unused := unused s |}.
Definition set_next s (p q : ptr) : go (store V) :=
  el ← load s p;
  Ret (match p with Some x => put s x {| next := q; prev := prev el; list_ := list_ el; Value := Value el |} | None => s end).
Definition set_prev s (p q : ptr) : go (store V) :=
  el ← load s p;
  Ret (match p with Some x => put s x {| next := next el; prev := q; list_ := list_ el; Value := Value el |} | None => s end).
Definition set_list s (p : ptr) (o : option Z) : go (store V) :=
  el ← load s p;
  Ret (match p with Some x => put s x {| next := next el; prev := prev el; list_ := o; Value := Value el |} | None => s end).
Definition get_len s l : go Z :=
  match lens s !! l with Some n => Ret n | None => Panic "invalid pointer" end.
Definition set_len s l (n : Z) : store V :=
  {| elems := elems s; lens := <[l := n]> (lens s); unused := unused s |}.

(** [&l.root]. *)
Definition root l : ptr := Some (Root l).

(** [&Element{Value: v}] and [new(List)]. *)
Definition alloc s v : store V * ptr :=
  ({| elems := <[Elt (unused s) := {| next := None; prev := None; list_ := None; Value := v |}]> (elems s);
      lens := lens s; unused := unused s + 1 |}, Some (Elt (unused s))).
Definition alloc_list s : store V * Z :=
  ({| elems := <[Root (unused s) := {| next := None; prev := None; list_ := None; Value := null |}]> (elems s);
      lens := <[unused s := 0]> (lens s); unused := unused s + 1 |}, unused s).

Definition Next s e : go ptr :=
  el ← load s e;
  let p := next el in
  match list_ el with
  | Some l => if decide (p ≠ root l) then Ret p else Ret None
  | None => Ret None
  end.

Definition Prev s e : go ptr :=
  el ← load s e;
  let p := prev el in
  match list_ el with
  | Some l => if decide (p ≠ root l) then Ret p else Ret None
  | None => Ret None
  end.

Definition Init s l : go (store V) :=
  s ← set_next s (root l) (root l);
  s ← set_prev s (root l) (root l);
  Ret (set_len s l 0).

Definition New s : go (store V * Z) :=
  let '(s, l) := alloc_list s in
  s ← Init s l; Ret (s, l).

Definition Len s l : go Z := get_len s l.

Definition Front s l : go ptr :=
  n ← get_len s l;
  if n =? 0 then Ret None else
  el ← load s (root l); Ret (next el).

Definition Back s l : go ptr :=
  n ← get_len s l;
  if n =? 0 then Ret None else
  el ← load s (root l); Ret (prev el).

Definition lazyInit s l : go (store V) :=
  el ← load s (root l);
  if decide (next el = None) then Init s l else Ret s.

Definition insert s l e pos : go (store V * ptr) :=
  el ← load s pos;
  let n := next el in
  s ← set_next s pos e;
  s ← set_prev s e pos;
  s ← set_next s e n;
  s ← set_prev s n e;
  s ← set_list s e (Some l);
  k ← get_len s l;
  Ret (set_len s l (k + 1), e).

Definition insertValue s l v pos : go (store V * ptr) :=
  let '(s, e) := alloc s v in insert s l e pos.

Definition remove s l e : go (store V * ptr) :=
  el ← load s e;
  s ← set_next s (prev el) (next el);
  el ← load s e;
  s ← set_prev s (next el) (prev el);
  s ← set_next s e None;
  s ← set_prev s e None;
  s ← set_list s e None;
  k ← get_len s l;
  Ret (set_len s l (k - 1), e).

Definition Remove s l e : go (store V * V) :=
  el ← load s e;
  if decide (list_ el = Some l) then
    '(s, _) ← remove s l e;
    el ← load s e; Ret (s, Value el)
  else Ret (s, Value el).

Definition PushFront s l v : go (store V * ptr) :=
  s ← lazyInit s l;
  insertValue s l v (root l).

Definition PushBack s l v : go (store V * ptr) :=
  s ← lazyInit s l;
  rt ← load s (root l);
  insertValue s l v (prev rt).

Definition InsertBefore s l v mark : go (store V * ptr) :=
  m ← load s mark;
  if decide (list_ m ≠ Some l) then Ret (s, None) else
  insertValue s l v (prev m).

Definition InsertAfter s l v mark : go (store V * ptr) :=
  m ← load s mark;
  if decide (list_ m ≠ Some l) then Ret (s, None) else
  insertValue s l v mark.

Definition MoveToFront s l e : go (store V) :=
  el ← load s e;
  if decide (list_ el ≠ Some l) then Ret s else
  rt ← load s (root l);
  if decide (next rt = e) then Ret s else
  '(s, e) ← remove s l e;
  '(s, _) ← insert s l e (root l);
  Ret s.

Definition MoveToBack s l e : go (store V) :=
  el ← load s e;
  if decide (list_ el ≠ Some l) then Ret s else
  rt ← load s (root l);
  if decide (prev rt = e) then Ret s else
  '(s, e) ← remove s l e;
  rt ← load s (root l);
  '(s, _) ← insert s l e (prev rt);
  Ret s.

Definition MoveBefore s l e mark : go (store V) :=
  el ← load s e;
  if decide (list_ el ≠ Some l) then Ret s else
  if decide (e = mark) then Ret s else
  m ← load s mark;
  if decide (list_ m ≠ Some l) then Ret s else
  '(s, e) ← remove s l e;
  m ← load s mark;
  '(s, _) ← insert s l e (prev m);
  Ret s.

Definition MoveAfter s l e mark : go (store V) :=
  el ← load s e;
  if decide (list_ el ≠ Some l) then Ret s else
  if decide (e = mark) then Ret s else
  m ← load s mark;
  if decide (list_ m ≠ Some l) then Ret s else
  '(s, e) ← remove s l e;
  '(s, _) ← insert s l e mark;
  Ret s.

Definition PushBackList s l (other : Z) : go (store V) :=
  s ← lazyInit s l;
  i ← Len s other;
  e ← Front s other;
  '(s, _) ← for_down i 1 (λ _ '(s, e),
    el ← load s e;
    rt ← load s (root l);
    '(s, _) ← insertValue s l (Value el) (prev rt);
    e ← Next s e;
    Ret (s, e)) (s, e);
  Ret s.

Definition PushFrontList s l (other : Z) : go (store V) :=
  s ← lazyInit s l;
  i ← Len s other;
  e ← Back s other;
  '(s, _) ← for_down i 1 (λ _ '(s, e),
    el ← load s e;
    '(s, _) ← insertValue s l (Value el) (root l);
    e ← Prev s e;
    Ret (s, e)) (s, e);
  Ret s.
End operations.

Definition empty_store (V : Type) : store V := {| elems := ∅; lens := ∅; unused := 0 |}.

(** The values met from [Front] by [Next]. *)
Definition walk {V} (s : store V) (l : Z) : go (list V) :=
  n ← Len s l;
  e ← Front s l;
  '(_, vs) ← for_up 0 n (λ _ '(e, vs),
    el ← load s e;
    e ← Next s e;
    Ret (e, vs ++ [Value el])) (e, []);
  Ret vs.

Example list_run :
  (let s := empty_store Z in
   '(s, l) ← New 0 s; '(s, a) ← PushBack s l 1; '(s, b) ← PushBack s l 2; '(s, c) ← PushFront s l 3;
   s ← MoveToBack s l c; s ← MoveBefore s l b a; s ← PushBackList s l l; '(s, _) ← Remove s l a; walk s l)
  = Ret [2; 3; 2; 1; 3].
Proof. by vm_compute. Qed.

(** [Init] does not detach the elements it drops: removing one of them afterwards
    makes the length negative. *)
Example Init_stale :
  (let s := empty_store Z in
   '(s, l) ← New 0 s; '(s, a) ← PushBack s l 1; s ← Init s l; '(s, _) ← Remove s l a; Len s l) = Ret (-1).
Proof. by vm_compute. Qed.

(** * The fields as functions of the location *)

Section fields.
Context {V : Type}.
Implicit Types (s : store V) (x y : loc) (q : ptr).

Definition nxt s x : ptr := elems s !! x ≫= next.
Definition prv s x : ptr := elems s !! x ≫= prev.
Definition lst s x : option Z := elems s !! x ≫= list_.
Definition val s x : option V := Value <$> elems s !! x.

(** [s'] has the fields given, everything else as in [s]. *)
Record becomes s s' (nx pv : loc → ptr) (ls : loc → option Z) : Prop := {
  b_nxt x : nxt s' x = nx x;
  b_prv x : prv s' x = pv x;
  b_lst x : lst s' x = ls x;
  b_val x : val s' x = val s x;
  b_unused : unused s' = unused s;
}.

Definition over {B} (f : loc → B) x (b : B) (y : loc) : B := if decide (y = x) then b else f y.
Lemma over_eq {B} (f : loc → B) x b : over f x b x = b.
Proof. unfold over. by rewrite decide_True. Qed.
Lemma over_ne {B} (f : loc → B) x b y : y ≠ x → over f x b y = f y.
Proof. intros. unfold over. by rewrite decide_False. Qed.

Lemma val_Some s x v : val s x = Some v → ∃ el, elems s !! x = Some el ∧ Value el = v.
Proof. unfold val. destruct (elems s !! x) as [el|]; [|done]. intros [= <-]. eauto. Qed.

Lemma wp_load s x v (Q : Element V → Prop) :
  val s x = Some v →
  (∀ el, next el = nxt s x → prev el = prv s x → list_ el = lst s x → Value el = v → Q el) →
  load s (Some x) ⇓ Q.
Proof.
  intros (el & E & <-)%val_Some HQ. unfold load. rewrite E.
  apply HQ; unfold nxt, prv, lst; by rewrite ?E.
Qed.

Lemma put_fields s x el el0 :
  elems s !! x = Some el0 → Value el = Value el0 →
  becomes s (put s x el) (over (nxt s) x (next el)) (over (prv s) x (prev el)) (over (lst s) x (list_ el)).
Proof.
  intros E Hv.
  assert (∀ y, elems (put s x el) !! y = if decide (y = x) then Some el else elems s !! y) as H.
  { intros y. simpl. destruct (decide (y = x)) as [->|]; [by rewrite lookup_insert_eq|by rewrite lookup_insert_ne]. }
  split; intros; try done; unfold nxt, prv, lst, val, over; rewrite H; case_decide as Hd; try done.
  subst. rewrite E. simpl. congruence.
Qed.

Lemma over_same {B} (f : loc → B) x b y : b = f x → over f x b y = f y.
Proof. intros ->. unfold over. by case_decide as H; [rewrite H|]. Qed.

Lemma set_next_spec s x q : is_Some (val s x) →
  set_next s (Some x) q ⇓ λ s', becomes s s' (over (nxt s) x q) (prv s) (lst s) ∧ lens s' = lens s.
Proof.
  intros [v (el & E & _)%val_Some]. unfold set_next, load. rewrite E. simpl. split; [|done].
  pose proof (put_fields s x {| next := q; prev := prev el; list_ := list_ el; Value := Value el |} el E eq_refl) as [H1 H2 H3 H4 H5].
  split; intros; rewrite ?H1, ?H2, ?H3, ?H4; try done; simpl; apply over_same; unfold prv, lst; by rewrite E.
Qed.
Lemma set_prev_spec s x q : is_Some (val s x) →
  set_prev s (Some x) q ⇓ λ s', becomes s s' (nxt s) (over (prv s) x q) (lst s) ∧ lens s' = lens s.
Proof.
  intros [v (el & E & _)%val_Some]. unfold set_prev, load. rewrite E. simpl. split; [|done].
  pose proof (put_fields s x {| next := next el; prev := q; list_ := list_ el; Value := Value el |} el E eq_refl) as [H1 H2 H3 H4 H5].
  split; intros; rewrite ?H1, ?H2, ?H3, ?H4; try done; simpl; apply over_same; unfold nxt, lst; by rewrite E.
Qed.
Lemma set_list_spec s x o : is_Some (val s x) →
  set_list s (Some x) o ⇓ λ s', becomes s s' (nxt s) (prv s) (over (lst s) x o) ∧ lens s' = lens s.
Proof.
  intros [v (el & E & _)%val_Some]. unfold set_list, load. rewrite E. simpl. split; [|done].
  pose proof (put_fields s x {| next := next el; prev := prev el; list_ := o; Value := Value el |} el E eq_refl) as [H1 H2 H3 H4 H5].
  split; intros; rewrite ?H1, ?H2, ?H3, ?H4; try done; simpl; apply over_same; unfold nxt, prv; by rewrite E.
Qed.

Lemma becomes_val s s' nx pv ls x : becomes s s' nx pv ls → val s' x = val s x.
Proof. intros H. by rewrite (b_val _ _ _ _ _ H). Qed.

Lemma becomes_trans s s1 s2 nx pv ls nx' pv' ls' :
  becomes s s1 nx pv ls → becomes s1 s2 nx' pv' ls' → becomes s s2 nx' pv' ls'.
Proof. intros [] []. split; intros; congruence. Qed.

Lemma insert_fields s l e p n k :
  is_Some (val s p) → is_Some (val s n) → is_Some (val s e) → nxt s p = Some n → e ≠ p → e ≠ n →
  lens s !! l = Some k →
  insert s l (Some e) (Some p) ⇓ λ '(s', r), r = Some e ∧ lens s' = <[l := k + 1]> (lens s) ∧
    becomes s s' (over (over (nxt s) p (Some e)) e (Some n)) (over (over (prv s) e (Some p)) n (Some e))
      (over (lst s) e (Some l)).
Proof.
  intros Hp Hn He Hnx Hep Hen Hk. unfold insert. destruct Hp as [vp Hp].
  apply wp_bind. eapply wp_load; [exact Hp|]. intros el -> _ _ _. rewrite Hnx.
  eapply wp_bind_mono; [apply set_next_spec; by rewrite Hp|]. intros s1 [B1 L1].
  eapply wp_bind_mono; [apply set_prev_spec; by rewrite (becomes_val _ _ _ _ _ _ B1)|]. intros s2 [B2 L2].
  pose proof (becomes_trans _ _ _ _ _ _ _ _ _ B1 B2) as B12.
  eapply wp_bind_mono; [apply set_next_spec; by rewrite (becomes_val _ _ _ _ _ _ B12)|]. intros s3 [B3 L3].
  pose proof (becomes_trans _ _ _ _ _ _ _ _ _ B12 B3) as B13.
  eapply wp_bind_mono; [apply set_prev_spec; by rewrite (becomes_val _ _ _ _ _ _ B13)|]. intros s4 [B4 L4].
  pose proof (becomes_trans _ _ _ _ _ _ _ _ _ B13 B4) as B14.
  eapply wp_bind_mono; [apply set_list_spec; by rewrite (becomes_val _ _ _ _ _ _ B14)|]. intros s5 [B5 L5].
  pose proof (becomes_trans _ _ _ _ _ _ _ _ _ B14 B5) as B15.
  unfold get_len. rewrite L5, L4, L3, L2, L1, Hk. simpl. split; [done|]. split; [by rewrite L5, L4, L3, L2, L1|].
  unfold over in *. split; [intros x; change (nxt s5 x = (if decide (x = e) then Some n else if decide (x = p) then Some e else nxt s x))
    |intros x; change (prv s5 x = (if decide (x = n) then Some e else if decide (x = e) then Some p else prv s x))
    |intros x; change (lst s5 x = (if decide (x = e) then Some l else lst s x))|apply B15|apply B15].
  - by rewrite (b_nxt _ _ _ _ _ B5), (b_nxt _ _ _ _ _ B4), (b_nxt _ _ _ _ _ B3), (b_nxt _ _ _ _ _ B2), (b_nxt _ _ _ _ _ B1).
  - by rewrite (b_prv _ _ _ _ _ B5), (b_prv _ _ _ _ _ B4), (b_prv _ _ _ _ _ B3), (b_prv _ _ _ _ _ B2), (b_prv _ _ _ _ _ B1).
  - by rewrite (b_lst _ _ _ _ _ B5), (b_lst _ _ _ _ _ B4), (b_lst _ _ _ _ _ B3), (b_lst _ _ _ _ _ B2), (b_lst _ _ _ _ _ B1).
Qed.
Lemma remove_fields s l e a n k :
  is_Some (val s a) → is_Some (val s n) → is_Some (val s e) → prv s e = Some a → nxt s e = Some n → a ≠ e → n ≠ e →
  lens s !! l = Some k →
  remove s l (Some e) ⇓ λ '(s', r), r = Some e ∧ lens s' = <[l := k - 1]> (lens s) ∧
    becomes s s' (over (over (nxt s) a (Some n)) e None) (over (over (prv s) n (Some a)) e None) (over (lst s) e None).
Proof.
  intros Ha Hn [ve He] Hpv Hnx Hae Hne Hk. unfold remove.
  apply wp_bind. apply (wp_load s e ve); [done|]. intros el -> -> _ _. rewrite Hpv, Hnx.
  eapply wp_bind_mono; [by apply set_next_spec|]. intros s1 [B1 L1].
  apply wp_bind. apply (wp_load s1 e ve); [by rewrite (becomes_val _ _ _ _ _ _ B1)|]. clear el. intros el -> -> _ _.
  rewrite (b_nxt _ _ _ _ _ B1), (b_prv _ _ _ _ _ B1), over_ne, Hpv, Hnx by done.
  eapply wp_bind_mono; [apply set_prev_spec; by rewrite (becomes_val _ _ _ _ _ _ B1)|]. intros s2 [B2 L2].
  pose proof (becomes_trans _ _ _ _ _ _ _ _ _ B1 B2) as B12.
  eapply wp_bind_mono; [apply set_next_spec; by rewrite (becomes_val _ _ _ _ _ _ B12)|]. intros s3 [B3 L3].
  pose proof (becomes_trans _ _ _ _ _ _ _ _ _ B12 B3) as B13.
  eapply wp_bind_mono; [apply set_prev_spec; by rewrite (becomes_val _ _ _ _ _ _ B13)|]. intros s4 [B4 L4].
  pose proof (becomes_trans _ _ _ _ _ _ _ _ _ B13 B4) as B14.
  eapply wp_bind_mono; [apply set_list_spec; by rewrite (becomes_val _ _ _ _ _ _ B14)|]. intros s5 [B5 L5].
  pose proof (becomes_trans _ _ _ _ _ _ _ _ _ B14 B5) as B15.
  unfold get_len. rewrite L5, L4, L3, L2, L1, Hk. simpl. split; [done|]. split; [by rewrite L5, L4, L3, L2, L1|].
  unfold over in *. split; [intros x; change (nxt s5 x = (if decide (x = e) then None else if decide (x = a) then Some n else nxt s x))
    |intros x; change (prv s5 x = (if decide (x = e) then None else if decide (x = n) then Some a else prv s x))
    |intros x; change (lst s5 x = (if decide (x = e) then None else lst s x))|apply B15|apply B15].
  - by rewrite (b_nxt _ _ _ _ _ B5), (b_nxt _ _ _ _ _ B4), (b_nxt _ _ _ _ _ B3), (b_nxt _ _ _ _ _ B2), (b_nxt _ _ _ _ _ B1).
  - by rewrite (b_prv _ _ _ _ _ B5), (b_prv _ _ _ _ _ B4), (b_prv _ _ _ _ _ B3), (b_prv _ _ _ _ _ B2), (b_prv _ _ _ _ _ B1).
  - by rewrite (b_lst _ _ _ _ _ B5), (b_lst _ _ _ _ _ B4), (b_lst _ _ _ _ _ B3), (b_lst _ _ _ _ _ B2), (b_lst _ _ _ _ _ B1).
Qed.

(** * Paths *)

(** Consecutive locations point at each other. *)
Fixpoint path s (L : list loc) : Prop :=
  match L with
  | x :: (y :: _) as t => nxt s x = Some y ∧ prv s y = Some x ∧ path s t
  | _ => True
  end.

Lemma path_app s L1 x L2 : path s (L1 ++ x :: L2) ↔ path s (L1 ++ [x]) ∧ path s (x :: L2).
Proof.
  induction L1 as [|y L1 IH]; [simpl; tauto|].
  destruct L1 as [|z L1]; simpl in *; [tauto|]. rewrite IH. tauto.
Qed.

Lemma path_link s L1 a n L2 :
  path s (L1 ++ a :: n :: L2) ↔ path s (L1 ++ [a]) ∧ (nxt s a = Some n ∧ prv s n = Some a) ∧ path s (n :: L2).
Proof. rewrite path_app. simpl. tauto. Qed.

Lemma path_frame s s' L :
  (∀ x, x ∈ removelast L → nxt s' x = nxt s x) → (∀ x, x ∈ tail L → prv s' x = prv s x) →
  path s L → path s' L.
Proof.
  induction L as [|x L IH]; [done|]. destruct L as [|y L]; [done|].
  intros Hn Hp (H1 & H2 & H3). split; [|split].
  - rewrite Hn; [done|]. by left.
  - rewrite Hp; [done|]. by left.
  - apply IH; [|intros z Hz; apply Hp; by right|done]. intros z Hz. apply Hn. by right.
Qed.

Lemma elem_of_removelast {A} (x : A) L : x ∈ removelast L → x ∈ L.
Proof.
  destruct L as [|y L _] using rev_ind; [done|]. rewrite removelast_last. intros. apply elem_of_app. by left.
Qed.

(** Fields unchanged on a whole path. *)
Lemma path_frame_all s s' L :
  (∀ x, x ∈ L → nxt s' x = nxt s x ∧ prv s' x = prv s x) → path s L → path s' L.
Proof.
  intros H. apply path_frame; intros x Hx; apply H.
  - by apply elem_of_removelast.
  - destruct L; [done|]. by right.
Qed.

(** Linking [e] between [a] and [n]. *)
Lemma path_insert s s' L1 a n L2 e :
  NoDup (L1 ++ [a]) → NoDup (n :: L2) → (∀ x, x ∈ tail (L1 ++ [a]) → x ≠ n) →
  a ∉ removelast (n :: L2) → e ∉ (L1 ++ [a]) → e ∉ (n :: L2) →
  (∀ x, nxt s' x = over (over (nxt s) a (Some e)) e (Some n) x) →
  (∀ x, prv s' x = over (over (prv s) e (Some a)) n (Some e) x) →
  path s (L1 ++ a :: n :: L2) → path s' (L1 ++ a :: e :: n :: L2).
Proof.
  intros Hd1 Hd2 Htl Ha He1 He2 Hn Hp.
  assert (a ≠ e) by (intros ->; apply He1, elem_of_app; right; by left).
  assert (e ≠ n ∧ n ≠ e) as [? ?] by (split; intros ->; apply He2; by left).
  assert ((e ∉ L1) ∧ (e ∉ L2)) as [He1' He2'].
  { split; [intros ?; apply He1, elem_of_app; by left|intros ?; apply He2; by right]. }
  rewrite path_link. intros (P1 & _ & P2).
  rewrite path_link. split; [|split].
  - apply (path_frame s); [..|done].
    + rewrite removelast_last. intros x Hx. rewrite Hn, !over_ne; [done| |].
      * intros ->. apply NoDup_app in Hd1 as (_ & Hd & _). apply (Hd a); [done|by left].
      * by intros ->.
    + intros x Hx. rewrite Hp, !over_ne; [done| |by apply Htl].
      intros ->. apply He1. destruct (L1 ++ [a]); [done|by right].
  - rewrite Hn, Hp, (over_ne _ e _ a), over_eq, (over_ne _ n _ e), over_eq by done. done.
  - split; [by rewrite Hn, over_eq|]. split; [by rewrite Hp, over_eq|].
    apply (path_frame s); [..|done].
    + intros x Hx. rewrite Hn, !over_ne; [done| |].
      * by intros ->.
      * intros ->. apply He2. by apply elem_of_removelast.
    + simpl. intros x Hx. apply NoDup_cons in Hd2 as [Hd2 _]. rewrite Hp, !over_ne; [done|by intros ->|by intros ->].
Qed.

(** Taking [e] out. *)
Lemma path_remove s s' L1 a e n L2 :
  NoDup (L1 ++ [a]) → NoDup (n :: L2) → (∀ x, x ∈ tail (L1 ++ [a]) → x ≠ n) →
  a ∉ removelast (n :: L2) → e ∉ (L1 ++ [a]) → e ∉ (n :: L2) →
  (∀ x, nxt s' x = over (over (nxt s) a (Some n)) e None x) →
  (∀ x, prv s' x = over (over (prv s) n (Some a)) e None x) →
  path s (L1 ++ a :: e :: n :: L2) → path s' (L1 ++ a :: n :: L2).
Proof.
  intros Hd1 Hd2 Htl Ha He1 He2 Hn Hp.
  assert (a ≠ e) by (intros ->; apply He1, elem_of_app; right; by left).
  assert (e ≠ n ∧ n ≠ e) as [? ?] by (split; intros ->; apply He2; by left).
  assert ((e ∉ L1) ∧ (e ∉ L2)) as [He1' He2'].
  { split; [intros ?; apply He1, elem_of_app; by left|intros ?; apply He2; by right]. }
  rewrite path_link. intros (P1 & _ & P2). simpl in P2. destruct P2 as (_ & _ & P2).
  rewrite path_link. split; [|split].
  - apply (path_frame s); [..|done].
    + rewrite removelast_last. intros x Hx. rewrite Hn, !over_ne; [done| |].
      * intros ->. apply NoDup_app in Hd1 as (_ & Hd & _). apply (Hd a); [done|by left].
      * by intros ->.
    + intros x Hx. rewrite Hp, !over_ne; [done|by apply Htl|].
      intros ->. apply He1. destruct (L1 ++ [a]); [done|by right].
  - rewrite Hn, Hp, (over_ne _ e _ a), over_eq, (over_ne _ e _ n), over_eq by done. done.
  - apply (path_frame s); [..|done].
    + intros x Hx. rewrite Hn, !over_ne; [done| |].
      * by intros ->.
      * intros ->. apply He2. by apply elem_of_removelast.
    + simpl. intros x Hx. apply NoDup_cons in Hd2 as [Hd2 _]. rewrite Hp, !over_ne; [done|by intros ->|by intros ->].
Qed.
End fields.

(** * The abstract lists *)

(** A world gives each list the sequence of its elements, each element its value. *)
Record world (V : Type) := { seqs : gmap Z (list Z); vals : gmap Z V }.
Arguments seqs {V} _.
Arguments vals {V} _.

Section refinement.
Context {V : Type} (null : V).
Implicit Types (s : store V) (w : world V) (l e n : Z) (es : list Z).

(** The locations of a list from its sentinel round to it. *)
Definition cycle l es : list loc := Root l :: map Elt es ++ [Root l].

(** A list not yet initialised has no ring; it is empty. *)
Definition ring s l es : Prop := es = [] ∧ nxt s (Root l) = None ∨ path s (cycle l es).

Record refines s w : Prop := {
  rf_len l es : seqs w !! l = Some es → lens s !! l = Some (zlen es);
  rf_nodup l es : seqs w !! l = Some es → NoDup es;
  rf_ring l es : seqs w !! l = Some es → ring s l es;
  rf_root l es : seqs w !! l = Some es → is_Some (val s (Root l));
  rf_vals n : vals w !! n = val s (Elt n);
  rf_list n l : lst s (Elt n) = Some l ↔ ∃ es, seqs w !! l = Some es ∧ n ∈ es;
  rf_live n l es : seqs w !! l = Some es → n ∈ es → is_Some (vals w !! n);
  rf_unused n : unused s <= n → vals w !! n = None ∧ seqs w !! n = None;
}.

Definition set_seq w l es : world V := {| seqs := <[l := es]> (seqs w); vals := vals w |}.
Definition set_val w e (v : V) : world V := {| seqs := seqs w; vals := <[e := v]> (vals w) |}.

Lemma owner_unique s w l l' es es' n :
  refines s w → seqs w !! l = Some es → seqs w !! l' = Some es' → n ∈ es → n ∈ es' → l' = l.
Proof.
  intros R Hl Hl' Hn Hn'.
  assert (lst s (Elt n) = Some l) by (apply (rf_list _ _ R); eauto).
  assert (lst s (Elt n) = Some l') by (apply (rf_list _ _ R); eauto). congruence.
Qed.

Lemma ring_frame s s' l es :
  (∀ x, x ∈ Root l :: map Elt es → nxt s' x = nxt s x ∧ prv s' x = prv s x) → ring s l es → ring s' l es.
Proof.
  intros H [[-> Hn]|Hp].
  - left. split; [done|]. rewrite (proj1 (H (Root l) ltac:(by left))). done.
  - right. apply (path_frame_all s); [|done]. intros x Hx. apply H.
    unfold cycle in Hx. apply elem_of_cons in Hx as [->|Hx]; [by left|].
    apply elem_of_app in Hx as [Hx|Hx]; [by right|]. apply list_elem_of_singleton in Hx as ->. by left.
Qed.

Lemma in_elt x es : x ∈ map Elt es ↔ ∃ n, x = Elt n ∧ n ∈ es.
Proof. apply list_elem_of_fmap. Qed.
Lemma elt_in n es : Elt n ∈ map Elt es ↔ n ∈ es.
Proof. rewrite in_elt. split; [by intros (m & [= ->] & Hm)|eauto]. Qed.
Lemma root_in l es : Root l ∉ map Elt es.
Proof. rewrite in_elt. by intros (m & ? & _). Qed.
Lemma NoDup_elt es : NoDup es → NoDup (map Elt es).
Proof. intros H. apply NoDup_fmap_2; [|done]. by intros ? ? [= ->]. Qed.

(** The two halves of a cycle around an insertion point. *)
Definition before l es1 : list loc := Root l :: map Elt es1.
Definition after l es2 : list loc := map Elt es2 ++ [Root l].

Lemma before_last l es1 : ∃ L1 a, before l es1 = L1 ++ [a].
Proof.
  destruct es1 as [|x es1 _] using rev_ind; [by exists [], (Root l)|].
  exists (before l es1), (Elt x). unfold before. by rewrite map_app.
Qed.
Lemma after_head l es2 : ∃ (n : loc) L2, after l es2 = n :: L2.
Proof. destruct es2 as [|x es2]; [by exists (Root l), []|]. by exists (Elt x), (after l es2). Qed.

Lemma halves_facts l es1 es2 L1 a (n : loc) L2 :
  NoDup (es1 ++ es2) → before l es1 = L1 ++ [a] → after l es2 = n :: L2 →
  NoDup (L1 ++ [a]) ∧ NoDup (n :: L2) ∧ (∀ x, x ∈ tail (L1 ++ [a]) → x ≠ n) ∧ a ∉ removelast (n :: L2).
Proof.
  intros Hd Hb Ha. rewrite <- Hb, <- Ha. apply NoDup_app in Hd as (Hd1 & Hd & Hd2). split; [|split; [|split]].
  - apply NoDup_cons. split; [apply root_in|by apply NoDup_elt].
  - unfold after. apply NoDup_app. split; [by apply NoDup_elt|]. split; [|apply NoDup_singleton].
    intros x Hx ->%list_elem_of_singleton. by apply root_in in Hx.
  - simpl. intros x Hx ->. assert (n ∈ after l es2) as Hn by (rewrite Ha; by left).
    unfold after in Hn. apply elem_of_app in Hn as [Hn|Hn].
    + apply in_elt in Hx as (m & -> & Hm). apply elt_in in Hn. by apply (Hd m).
    + apply list_elem_of_singleton in Hn as ->. by apply root_in in Hx.
  - unfold after. rewrite removelast_last. intros Hx.
    assert (a ∈ before l es1) as Hn by (rewrite Hb; apply elem_of_app; right; by left).
    apply elem_of_cons in Hn as [->|Hn]; [by apply root_in in Hx|].
    apply in_elt in Hx as (m & -> & Hm). apply elt_in in Hn. by apply (Hd m).
Qed.

Lemma cycle_halves l es1 es2 : cycle l (es1 ++ es2) = before l es1 ++ after l es2.
Proof. unfold cycle, before, after. by rewrite map_app, <- app_assoc. Qed.
Lemma cycle_insert l es1 e es2 L1 a (n : loc) L2 :
  before l es1 = L1 ++ [a] → after l es2 = n :: L2 →
  cycle l (es1 ++ es2) = L1 ++ a :: n :: L2 ∧ cycle l (es1 ++ e :: es2) = L1 ++ a :: Elt e :: n :: L2.
Proof.
  intros Hb Ha. split; rewrite cycle_halves.
  - by rewrite Hb, Ha, <- app_assoc.
  - rewrite Hb, <- app_assoc. unfold after in *. simpl. by rewrite Ha.
Qed.

(** A location of the list [l]: its sentinel or one of its elements. *)
Definition inside l es (x : loc) : Prop := x = Root l ∨ ∃ n, x = Elt n ∧ n ∈ es.

Lemma inside_before l es1 es2 L1 a : before l es1 = L1 ++ [a] → inside l (es1 ++ es2) a.
Proof.
  intros Hb. assert (a ∈ before l es1) as Hn by (rewrite Hb; apply elem_of_app; right; by left).
  apply elem_of_cons in Hn as [->|Hn]; [by left|]. right.
  apply in_elt in Hn as (m & -> & Hm). exists m. split; [done|]. apply elem_of_app. by left.
Qed.
Lemma inside_after l es1 es2 (n : loc) L2 : after l es2 = n :: L2 → inside l (es1 ++ es2) n.
Proof.
  intros Ha. assert (n ∈ after l es2) as Hn by (rewrite Ha; by left).
  unfold after in Hn. apply elem_of_app in Hn as [Hn|Hn].
  - right. apply in_elt in Hn as (m & -> & Hm). exists m. split; [done|]. apply elem_of_app. by right.
  - left. by apply list_elem_of_singleton in Hn.
Qed.

Lemma inside_live s w l es x : refines s w → seqs w !! l = Some es → inside l es x → is_Some (val s x).
Proof.
  intros R Hl [->|(n & -> & Hn)]; [by eapply rf_root|]. rewrite <- (rf_vals _ _ R). by eapply rf_live.
Qed.

(** Locations of other lists are neither inside [l] nor a detached element. *)
Lemma inside_other s w l l' es es' x y :
  refines s w → seqs w !! l = Some es → seqs w !! l' = Some es' → l' ≠ l →
  inside l es x → inside l' es' y → y ≠ x.
Proof.
  intros R Hl Hl' Hne [->|(n & -> & Hn)] [->|(m & -> & Hm)]; intros [= ->]; [done|].
  apply Hne. by eapply owner_unique.
Qed.

Lemma inside_cycle l es x : x ∈ Root l :: map Elt es ↔ inside l es x.
Proof.
  rewrite elem_of_cons. unfold inside. split; intros [->|H]; [by left| |by left|].
  - right. by apply in_elt.
  - right. destruct H as (m & -> & Hm). by apply elt_in.
Qed.

Lemma not_inside s w l es e :
  refines s w → seqs w !! l = Some es → lst s (Elt e) = None → ∀ x, inside l es x → x ≠ Elt e.
Proof.
  intros R Hl He x [->|(n & -> & Hn)]; [done|]. intros [= ->].
  assert (lst s (Elt e) = Some l) by (apply (rf_list _ _ R); eauto). congruence.
Qed.

Lemma elem_middle (n e : Z) es1 es2 : n ∈ es1 ++ e :: es2 ↔ n = e ∨ n ∈ es1 ++ es2.
Proof. rewrite !elem_of_app, elem_of_cons. tauto. Qed.

Lemma NoDup_middle (e : Z) es1 es2 : NoDup (es1 ++ e :: es2) ↔ (e ∉ (es1 ++ es2)) ∧ NoDup (es1 ++ es2).
Proof.
  assert (es1 ++ e :: es2 ≡ₚ e :: es1 ++ es2) as -> by solve_Permutation. apply NoDup_cons.
Qed.

(** Inserting a detached element between two neighbours of the ring. *)
Lemma insert_refines s w l es1 es2 e L1 a :
  refines s w → seqs w !! l = Some (es1 ++ es2) → path s (cycle l (es1 ++ es2)) →
  is_Some (vals w !! e) → lst s (Elt e) = None → before l es1 = L1 ++ [a] →
  insert s l (Some (Elt e)) (Some a) ⇓ λ '(s', r), r = Some (Elt e) ∧
    refines s' (set_seq w l (es1 ++ e :: es2)) ∧ path s' (cycle l (es1 ++ e :: es2)) ∧
    unused s' = unused s.
Proof.
  intros R Hl Hpath Hlive He Hb. destruct (after_head l es2) as (n & L2 & Ha).
  destruct (cycle_insert l es1 e es2 L1 a n L2 Hb Ha) as [Hc1 Hc2]. rewrite Hc1 in Hpath.
  pose proof Hpath as (_ & [Hnx Hpv] & _)%path_link.
  assert (inside l (es1 ++ es2) a) as Hia by (by eapply inside_before).
  assert (inside l (es1 ++ es2) n) as Hin by (by eapply inside_after).
  pose proof (not_inside s w l _ e R Hl He) as Hout. 
  eapply wp_mono.
  { apply (insert_fields s l (Elt e) a n (zlen (es1 ++ es2))); [by eapply inside_live..| | | | |by apply (rf_len _ _ R)].
    - by rewrite <- (rf_vals _ _ R).
    - done.
    - intros <-. by apply (Hout (Elt e)).
    - intros <-. by apply (Hout (Elt e)). }
  intros [s' r] (-> & Hlen & [Bn Bp Bl Bv Bu]). split; [done|].
  assert (e ∉ (es1 ++ es2)) as Hnew by (intros ?; apply (Hout (Elt e)); [right; eauto|done]).
  assert (path s' (cycle l (es1 ++ e :: es2))) as Hpath'.
  { destruct (halves_facts l es1 es2 L1 a n L2) as (F1 & F2 & F3 & F4); [by eapply rf_nodup|done|done|].
    rewrite Hc2. apply (path_insert s s'); try done.
    - rewrite <- Hb. intros [?|Hx]%elem_of_cons; [done|]. apply Hnew, elem_of_app. left. by apply elt_in.
    - rewrite <- Ha. intros [Hx|Hx]%elem_of_app; [|by apply list_elem_of_singleton in Hx].
      apply Hnew, elem_of_app. right. by apply elt_in. }
  split; [|done].
  split; cbn [seqs vals set_seq].
  - intros l' es'. rewrite Hlen, !lookup_insert. case_decide; [|apply (rf_len _ _ R)].
    intros [= <-]. f_equal. rewrite !zlen_app, zlen_cons. lia.
  - intros l' es'. rewrite lookup_insert. case_decide; [|apply (rf_nodup _ _ R)].
    intros [= <-]. apply NoDup_middle. split; [done|]. by eapply rf_nodup.
  - intros l' es'. rewrite lookup_insert. case_decide as Hd; [intros [= <-]; subst; by right|].
    intros Hl'. eapply ring_frame; [|by eapply rf_ring]. intros x Hx%inside_cycle.
    assert (x ≠ Elt e) by (by eapply not_inside).
    assert (x ≠ a ∧ x ≠ n) as [? ?] by (split; eapply (inside_other s w l l'); eauto).
    by rewrite Bn, Bp, !over_ne.
  - intros l' es'. rewrite lookup_insert, Bv. case_decide as Hd; [|by eapply rf_root].
    intros _. subst. by eapply rf_root.
  - intros m. by rewrite Bv, (rf_vals _ _ R).
  - intros m l'. rewrite Bl. destruct (decide (m = e)) as [->|Hme].
    + rewrite over_eq. split.
      * intros [= <-]. exists (es1 ++ e :: es2). rewrite lookup_insert_eq. split; [done|]. apply elem_middle. by left.
      * intros (es' & Hes & Hm). rewrite lookup_insert in Hes. case_decide as Hd; [by subst|].
        assert (lst s (Elt e) = Some l') by (apply (rf_list _ _ R); eauto). congruence.
    + rewrite over_ne by congruence. rewrite (rf_list _ _ R). split; intros (es' & Hes & Hm).
      * destruct (decide (l' = l)) as [->|].
        -- exists (es1 ++ e :: es2). rewrite lookup_insert_eq. split; [done|]. apply elem_middle. right. congruence.
        -- exists es'. by rewrite lookup_insert_ne.
      * rewrite lookup_insert in Hes. case_decide as Hd; [|eauto]. subst. exists (es1 ++ es2). split; [done|].
        assert (es' = es1 ++ e :: es2) as -> by congruence. apply elem_middle in Hm as [?|?]; done.
  - intros m l' es'. rewrite lookup_insert. case_decide; [|apply (rf_live _ _ R)].
    intros [= <-] [->|Hm]%elem_middle; [done|]. by eapply (rf_live _ _ R).
  - intros m. rewrite Bu. intros Hm. destruct (rf_unused _ _ R m Hm) as [? Hs]. split; [done|].
    rewrite lookup_insert_ne; [done|]. intros ->. congruence.
Qed.

(** Taking an element out of the ring. *)
Lemma remove_refines s w l es1 es2 e :
  refines s w → seqs w !! l = Some (es1 ++ e :: es2) →
  remove s l (Some (Elt e)) ⇓ λ '(s', r), r = Some (Elt e) ∧
    refines s' (set_seq w l (es1 ++ es2)) ∧ path s' (cycle l (es1 ++ es2)) ∧
    unused s' = unused s ∧ lst s' (Elt e) = None.
Proof.
  intros R Hl. destruct (rf_ring _ _ R _ _ Hl) as [[Hnil _]|Hpath]; [by destruct es1|].
  destruct (before_last l es1) as (L1 & a & Hb). destruct (after_head l es2) as (n & L2 & Ha).
  destruct (cycle_insert l es1 e es2 L1 a n L2 Hb Ha) as [Hc1 Hc2]. rewrite Hc2 in Hpath.
  pose proof Hpath as (_ & [Hnx1 Hpv1] & Hp2)%path_link. simpl in Hp2. destruct Hp2 as (Hnx2 & Hpv2 & _).
  pose proof (rf_nodup _ _ R _ _ Hl) as [Hnew Hnd]%NoDup_middle.
  assert (inside l (es1 ++ es2) a) as Hia by (by eapply inside_before).
  assert (inside l (es1 ++ es2) n) as Hin by (by eapply inside_after).
  assert (∀ x, inside l (es1 ++ es2) x → inside l (es1 ++ e :: es2) x) as Hmono.
  { intros x [->|(m & -> & Hm)]; [by left|right]. exists m. split; [done|]. apply elem_middle. by right. }
  assert (∀ x, inside l (es1 ++ es2) x → x ≠ Elt e) as Hout.
  { intros x [->|(m & -> & Hm)]; [done|]. by intros [= ->]. }
  assert (inside l (es1 ++ e :: es2) (Elt e)) as Hie.
  { right. exists e. split; [done|]. apply elem_middle. by left. }
  eapply wp_mono.
  { apply (remove_fields s l (Elt e) a n (zlen (es1 ++ e :: es2))); try done;
      [by eapply inside_live; eauto..|by apply Hout|by apply Hout|by apply (rf_len _ _ R)]. }
  intros [s' r] (-> & Hlen & [Bn Bp Bl Bv Bu]). split; [done|].
  assert (path s' (cycle l (es1 ++ es2))) as Hpath'.
  { destruct (halves_facts l es1 es2 L1 a n L2) as (F1 & F2 & F3 & F4); [done..|].
    rewrite Hc1. apply (path_remove s s' L1 a (Elt e) n L2); try done.
    - rewrite <- Hb. intros [?|Hx]%elem_of_cons; [done|]. apply Hnew, elem_of_app. left. by apply elt_in.
    - rewrite <- Ha. intros [Hx|Hx]%elem_of_app; [|by apply list_elem_of_singleton in Hx].
      apply Hnew, elem_of_app. right. by apply elt_in. }
  split; [|split; [done|split; [done|by rewrite Bl, over_eq]]].
  split; cbn [seqs vals set_seq].
  - intros l' es'. rewrite Hlen, !lookup_insert. case_decide; [|apply (rf_len _ _ R)].
    intros [= <-]. f_equal. rewrite !zlen_app, zlen_cons. lia.
  - intros l' es'. rewrite lookup_insert. case_decide; [|apply (rf_nodup _ _ R)]. by intros [= <-].
  - intros l' es'. rewrite lookup_insert. case_decide as Hd; [intros [= <-]; subst; by right|].
    intros Hl'. eapply ring_frame; [|by eapply rf_ring]. intros x Hx%inside_cycle.
    assert (∀ y, inside l (es1 ++ e :: es2) y → x ≠ y) as Hxy by (intros y Hy; eapply (inside_other s w l l'); eauto).
    rewrite Bn, Bp, !over_ne; auto.
  - intros l' es'. rewrite lookup_insert, Bv. case_decide as Hd; [|by eapply rf_root].
    intros _. subst. by eapply rf_root.
  - intros m. by rewrite Bv, (rf_vals _ _ R).
  - intros m l'. rewrite Bl. destruct (decide (m = e)) as [->|Hme].
    + rewrite over_eq. split; [done|]. intros (es' & Hes & Hm). exfalso. rewrite lookup_insert in Hes. case_decide as Hd.
      * apply Hnew. congruence.
      * apply Hd. symmetry. eapply (owner_unique s w l l'); eauto. apply elem_middle. by left.
    + rewrite over_ne by congruence. rewrite (rf_list _ _ R). split; intros (es' & Hes & Hm).
      * destruct (decide (l' = l)) as [->|].
        -- exists (es1 ++ es2). rewrite lookup_insert_eq. split; [done|].
           assert (es' = es1 ++ e :: es2) as -> by congruence. apply elem_middle in Hm as [?|?]; done.
        -- exists es'. by rewrite lookup_insert_ne.
      * rewrite lookup_insert in Hes. case_decide as Hd; [|eauto]. subst. exists (es1 ++ e :: es2). split; [done|].
        apply elem_middle. right. congruence.
  - intros m l' es'. rewrite lookup_insert. case_decide; [|apply (rf_live _ _ R)].
    intros [= <-] Hm. eapply (rf_live _ _ R); [done|]. apply elem_middle. by right.
  - intros m. rewrite Bu. intros Hm. destruct (rf_unused _ _ R m Hm) as [? Hs]. split; [done|].
    rewrite lookup_insert_ne; [done|]. intros ->. congruence.
Qed.

Lemma link_at s l es1 es2 L1 a (n : loc) L2 :
  path s (cycle l (es1 ++ es2)) → before l es1 = L1 ++ [a] → after l es2 = n :: L2 →
  nxt s a = Some n ∧ prv s n = Some a.
Proof.
  intros Hp Hb Ha. destruct (cycle_insert l es1 0 es2 L1 a n L2 Hb Ha) as [Hc _]. rewrite Hc in Hp.
  by apply path_link in Hp as (_ & ? & _).
Qed.

Lemma set_seq_twice w l es es' : set_seq (set_seq w l es) l es' = set_seq w l es'.
Proof. unfold set_seq. simpl. by rewrite insert_insert_eq. Qed.

(** A change of [next] and [prev] of one sentinel. *)
Lemma Init_refines s w l :
  refines s w → seqs w !! l = Some [] →
  Init s l ⇓ λ s', refines s' w ∧ path s' (cycle l []) ∧ unused s' = unused s.
Proof.
  intros R Hl. pose proof (rf_root _ _ R _ _ Hl) as Hroot. unfold Init, root.
  eapply wp_bind_mono; [by apply set_next_spec|]. intros s1 [[B1n B1p B1l B1v B1u] L1].
  eapply wp_bind_mono; [apply set_prev_spec; by rewrite B1v|]. intros s2 [[B2n B2p B2l B2v B2u] L2]. simpl.
  assert (∀ x, nxt (set_len s2 l 0) x = over (nxt s) (Root l) (Some (Root l)) x) as Hn
    by (intros x; change (nxt s2 x = over (nxt s) (Root l) (Some (Root l)) x); by rewrite B2n, B1n).
  assert (∀ x, prv (set_len s2 l 0) x = over (prv s) (Root l) (Some (Root l)) x) as Hp.
  { intros x. change (prv s2 x = over (prv s) (Root l) (Some (Root l)) x). rewrite B2p. unfold over. by rewrite B1p. }
  assert (path (set_len s2 l 0) (cycle l [])) as Hpath by (simpl; by rewrite Hn, Hp, !over_eq).
  split; [|split; [done|simpl; congruence]].
  split; cbn [lens set_len unused].
  - intros l' es' Hl'. rewrite lookup_insert, L2, L1. case_decide as Hd; [subst; by rewrite Hl' in Hl; simplify_eq|].
    by apply (rf_len _ _ R).
  - apply (rf_nodup _ _ R).
  - intros l' es' Hl'. destruct (decide (l' = l)) as [->|Hne].
    + assert (es' = []) as -> by congruence. by right.
    + eapply ring_frame; [|by eapply rf_ring]. intros x Hx%inside_cycle.
      assert (x ≠ Root l) by (destruct Hx as [->|(m & -> & _)]; congruence). by rewrite Hn, Hp, !over_ne.
  - intros l' es' Hl'. change (is_Some (val s2 (Root l'))). rewrite B2v, B1v. by eapply rf_root.
  - intros m. change (vals w !! m = val s2 (Elt m)). by rewrite B2v, B1v, (rf_vals _ _ R).
  - intros m l'. change (lst (set_len s2 l 0) (Elt m)) with (lst s2 (Elt m)). rewrite B2l, B1l. apply (rf_list _ _ R).
  - apply (rf_live _ _ R).
  - rewrite B2u, B1u. apply (rf_unused _ _ R).
Qed.

Lemma lazyInit_refines s w l es :
  refines s w → seqs w !! l = Some es →
  lazyInit s l ⇓ λ s', refines s' w ∧ path s' (cycle l es) ∧ unused s' = unused s.
Proof.
  intros R Hl. destruct (rf_root _ _ R _ _ Hl) as [v Hv]. unfold lazyInit.
  apply wp_bind. apply (wp_load s (Root l) v); [done|]. intros el -> _ _ _.
  destruct (rf_ring _ _ R _ _ Hl) as [[-> Hn]|Hp].
  - rewrite decide_True by done. by apply Init_refines.
  - destruct (after_head l es) as (n & L2 & Ha).
    destruct (link_at s l [] es [] (Root l) n L2 Hp eq_refl Ha) as [Hn _]. by rewrite decide_False by congruence.
Qed.

Lemma alloc_refines s w v :
  refines s w → ∀ s' r, alloc s v = (s', r) →
  r = Some (Elt (unused s)) ∧ refines s' (set_val w (unused s) v) ∧ unused s' = unused s + 1 ∧
  lst s' (Elt (unused s)) = None ∧
  (∀ l es, seqs w !! l = Some es → path s (cycle l es) → path s' (cycle l es)).
Proof.
  intros R s' r [= <- <-]. split; [done|].
  set (s' := {| elems := _; lens := _; unused := _ |}). set (u := unused s).
  destruct (rf_unused _ _ R u ltac:(lia)) as [Hu Hus].
  assert (∀ x, x ≠ Elt u → nxt s' x = nxt s x ∧ prv s' x = prv s x ∧ lst s' x = lst s x ∧ val s' x = val s x) as Hf.
  { intros x Hx. unfold nxt, prv, lst, val, s'. simpl. by rewrite lookup_insert_ne by done. }
  assert (lst s' (Elt u) = None) as Hlu by (unfold lst, s'; simpl; by rewrite lookup_insert_eq).
  assert (val s' (Elt u) = Some v) as Hvu by (unfold val, s'; simpl; by rewrite lookup_insert_eq).
  assert (∀ l es x, seqs w !! l = Some es → inside l es x → x ≠ Elt u) as Hin.
  { intros l es x Hl [->|(m & -> & Hm)]; [done|]. intros [= ->].
    destruct (rf_live _ _ R _ _ _ Hl Hm) as [v' Hv']. congruence. }
  split; [|split; [done|split; [done|]]].
  - split; cbn [seqs vals set_val].
    + apply (rf_len _ _ R).
    + apply (rf_nodup _ _ R).
    + intros l es Hl. eapply ring_frame; [|by eapply rf_ring]. intros x Hx%inside_cycle.
      destruct (Hf x) as (-> & -> & _); [by eapply Hin|done].
    + intros l es Hl. rewrite (proj2 (proj2 (proj2 (Hf (Root l) ltac:(done))))). by eapply rf_root.
    + intros m. destruct (decide (m = u)) as [->|Hm]; [by rewrite lookup_insert_eq|].
      rewrite lookup_insert_ne by done. rewrite (proj2 (proj2 (proj2 (Hf (Elt m) ltac:(congruence))))). apply (rf_vals _ _ R).
    + intros m l. destruct (decide (m = u)) as [->|Hm].
      * rewrite Hlu. split; [done|]. intros (es & Hl & Hm). exfalso. apply (Hin l es (Elt u)); [done| |done]. right. eauto.
      * destruct (Hf (Elt m)) as (_ & _ & -> & _); [congruence|]. apply (rf_list _ _ R).
    + intros m l es Hl Hm. destruct (decide (m = u)) as [->|Hne]; [by rewrite lookup_insert_eq|].
      rewrite lookup_insert_ne by done. by eapply rf_live.
    + intros m Hm. simpl in Hm. destruct (rf_unused _ _ R m ltac:(lia)) as [? ?]. split; [|done].
      rewrite lookup_insert_ne; [done|]. unfold u. lia.
  - intros l es Hl. apply path_frame_all. intros x Hx.
    destruct (Hf x) as (-> & -> & _); [|done]. apply (Hin l es x Hl), inside_cycle.
    unfold cycle in Hx. apply elem_of_cons in Hx as [->|Hx]; [by left|].
    apply elem_of_app in Hx as [Hx|Hx]; [by right|]. apply list_elem_of_singleton in Hx as ->. by left.
Qed.

(** [insertValue] behind [a], the last location of the first half. *)
Lemma insertValue_refines s w l es1 es2 v L1 a :
  refines s w → seqs w !! l = Some (es1 ++ es2) → path s (cycle l (es1 ++ es2)) → before l es1 = L1 ++ [a] →
  insertValue s l v (Some a) ⇓ λ '(s', r), r = Some (Elt (unused s)) ∧
    refines s' (set_seq (set_val w (unused s) v) l (es1 ++ unused s :: es2)) ∧
    path s' (cycle l (es1 ++ unused s :: es2)) ∧ unused s' = unused s + 1.
Proof.
  intros R Hl Hp Hb. unfold insertValue. destruct (alloc s v) as [s1 r1] eqn:E.
  destruct (alloc_refines s w v R s1 r1 E) as (-> & R1 & Hu & Hlst & Hpath).
  eapply wp_mono; [apply (insert_refines s1 _ l es1 es2 (unused s) L1 a R1); try done; [by apply Hpath|]|].
  - simpl. by rewrite lookup_insert_eq.
  - intros [s' r] (-> & R' & P' & U'). split; [done|]. split; [done|]. split; [done|lia].
Qed.

Lemma before_snoc l es e : before l (es ++ [e]) = before l es ++ [Elt e].
Proof. unfold before. by rewrite map_app. Qed.

(** Reading a neighbour. *)
Lemma prv_root s l es L1 a : path s (cycle l es) → before l es = L1 ++ [a] → prv s (Root l) = Some a.
Proof.
  intros Hp Hb. rewrite <- (app_nil_r es) in Hp. by apply (link_at s l es [] L1 a (Root l) [] Hp Hb eq_refl).
Qed.

Lemma member_split s w l e :
  refines s w → lst s (Elt e) = Some l → ∃ es1 es2, seqs w !! l = Some (es1 ++ e :: es2).
Proof.
  intros R (es & Hl & He)%(rf_list _ _ R). apply list_elem_of_split in He as (es1 & es2 & ->). by exists es1, es2.
Qed.

Lemma wp_load_elt s w e v (Q : Element V → Prop) :
  refines s w → vals w !! e = Some v →
  (∀ el, next el = nxt s (Elt e) → prev el = prv s (Elt e) → list_ el = lst s (Elt e) → Value el = v → Q el) →
  load s (Some (Elt e)) ⇓ Q.
Proof. intros R Hv. apply wp_load. by rewrite <- (rf_vals _ _ R). Qed.

Lemma wp_load_root s w l es (Q : Element V → Prop) :
  refines s w → seqs w !! l = Some es →
  (∀ el, next el = nxt s (Root l) → prev el = prv s (Root l) → Q el) →
  load s (root l) ⇓ Q.
Proof.
  intros R Hl HQ. destruct (rf_root _ _ R _ _ Hl) as [v Hv]. apply (wp_load s (Root l) v); [done|].
  intros el ? ? _ _. by apply HQ.
Qed.

Lemma member_path s w l es1 e es2 :
  refines s w → seqs w !! l = Some (es1 ++ e :: es2) → path s (cycle l (es1 ++ e :: es2)).
Proof. intros R Hl. destruct (rf_ring _ _ R _ _ Hl) as [[Hnil _]|]; [by destruct es1|done]. Qed.

Lemma PushFront_refines s w l es v :
  refines s w → seqs w !! l = Some es →
  PushFront s l v ⇓ λ '(s', r), r = Some (Elt (unused s)) ∧
    refines s' (set_seq (set_val w (unused s) v) l (unused s :: es)).
Proof.
  intros R Hl. unfold PushFront. eapply wp_bind_mono; [by apply lazyInit_refines|].
  intros s1 (R1 & P1 & <-).
  eapply wp_mono; [apply (insertValue_refines s1 w l [] es v [] (Root l)); done|].
  intros [s' r] (-> & R' & _). done.
Qed.

Lemma push_back s w l es v :
  refines s w → seqs w !! l = Some es → path s (cycle l es) →
  (rt ← load s (root l); insertValue s l v (prev rt)) ⇓ λ '(s', r), r = Some (Elt (unused s)) ∧
    refines s' (set_seq (set_val w (unused s) v) l (es ++ [unused s])) ∧
    path s' (cycle l (es ++ [unused s])) ∧ unused s' = unused s + 1.
Proof.
  intros R Hl P. destruct (before_last l es) as (L1 & a & Hb).
  apply wp_bind. apply (wp_load_root s w l es); [done..|]. intros el _ ->.
  rewrite (prv_root s l es L1 a) by done.
  apply (insertValue_refines s w l es [] v L1 a); rewrite ?app_nil_r; done.
Qed.

Lemma PushBack_refines s w l es v :
  refines s w → seqs w !! l = Some es →
  PushBack s l v ⇓ λ '(s', r), r = Some (Elt (unused s)) ∧
    refines s' (set_seq (set_val w (unused s) v) l (es ++ [unused s])).
Proof.
  intros R Hl. unfold PushBack. eapply wp_bind_mono; [by apply lazyInit_refines|].
  intros s1 (R1 & P1 & <-). eapply wp_mono; [by apply push_back|].
  intros [s' r] (-> & R' & _). done.
Qed.

Lemma InsertBefore_refines s w l es1 m es2 v :
  refines s w → seqs w !! l = Some (es1 ++ m :: es2) →
  InsertBefore s l v (Some (Elt m)) ⇓ λ '(s', r), r = Some (Elt (unused s)) ∧
    refines s' (set_seq (set_val w (unused s) v) l (es1 ++ unused s :: m :: es2)).
Proof.
  intros R Hl. pose proof (member_path _ _ _ _ _ _ R Hl) as P.
  destruct (rf_live _ _ R m l _ Hl) as [vm Hm]; [apply elem_middle; by left|].
  destruct (before_last l es1) as (L1 & a & Hb).
  unfold InsertBefore. apply wp_bind. apply (wp_load_elt s w m vm); [done..|]. intros el _ -> -> _.
  rewrite decide_False; [|intros Hne; apply Hne, (rf_list _ _ R); exists (es1 ++ m :: es2); split; [done|apply elem_middle; by left]].
  destruct (link_at s l es1 (m :: es2) L1 a (Elt m) (after l es2) P Hb eq_refl) as [_ ->].
  eapply wp_mono; [by apply (insertValue_refines s w l es1 (m :: es2) v L1 a)|].
  intros [s' r] (-> & R' & _). done.
Qed.

Lemma InsertAfter_refines s w l es1 m es2 v :
  refines s w → seqs w !! l = Some (es1 ++ m :: es2) →
  InsertAfter s l v (Some (Elt m)) ⇓ λ '(s', r), r = Some (Elt (unused s)) ∧
    refines s' (set_seq (set_val w (unused s) v) l (es1 ++ m :: unused s :: es2)).
Proof.
  intros R Hl. pose proof (member_path _ _ _ _ _ _ R Hl) as P.
  destruct (rf_live _ _ R m l _ Hl) as [vm Hm]; [apply elem_middle; by left|].
  unfold InsertAfter. apply wp_bind. apply (wp_load_elt s w m vm); [done..|]. intros el _ _ -> _.
  rewrite decide_False; [|intros Hne; apply Hne, (rf_list _ _ R); exists (es1 ++ m :: es2); split; [done|apply elem_middle; by left]].
  assert (es1 ++ m :: es2 = (es1 ++ [m]) ++ es2) as E by (by rewrite <- app_assoc).
  rewrite E in Hl, P. eapply wp_mono; [apply (insertValue_refines s w l (es1 ++ [m]) es2 v (before l es1) (Elt m)); try done; apply before_snoc|].
  intros [s' r] (-> & R' & _). by rewrite <- app_assoc in R'.
Qed.

Lemma Insert_foreign s w l m vm v :
  refines s w → vals w !! m = Some vm → (∀ es, seqs w !! l = Some es → m ∉ es) →
  InsertBefore s l v (Some (Elt m)) = Ret (s, None) ∧ InsertAfter s l v (Some (Elt m)) = Ret (s, None).
Proof.
  intros R Hm Hno.
  assert (lst s (Elt m) ≠ Some l) as Hl by (intros (es & Hl & Hin)%(rf_list _ _ R); by apply (Hno es)).
  assert (∀ f : Element V → go (store V * ptr), (∀ el, list_ el = lst s (Elt m) → f el = Ret (s, None)) →
    load s (Some (Elt m)) ≫= f = Ret (s, None)) as Hf.
  { intros f Hf. assert (load s (Some (Elt m)) ⇓ λ el, list_ el = lst s (Elt m)) as (el & -> & Hel)%wp_ex.
    { apply (wp_load_elt s w m vm); by intros. }
    rewrite go_bind_ret. by apply Hf. }
  split; apply Hf; intros el ->; by rewrite decide_True.
Qed.

Lemma member_val s w l e es :
  refines s w → seqs w !! l = Some es → e ∈ es → ∃ v, vals w !! e = Some v ∧ lst s (Elt e) = Some l.
Proof.
  intros R Hl He. destruct (rf_live _ _ R _ _ _ Hl He) as [v Hv]. exists v. split; [done|].
  apply (rf_list _ _ R). eauto.
Qed.

(** Reads the [list] field of an element and takes the branch of a member. *)
Lemma wp_member {B} s w l es e (f : Element V → go B) (Q : B → Prop) :
  refines s w → seqs w !! l = Some es → e ∈ es →
  (∀ el, next el = nxt s (Elt e) → prev el = prv s (Elt e) → list_ el = Some l → vals w !! e = Some (Value el) → f el ⇓ Q) →
  (load s (Some (Elt e)) ≫= f) ⇓ Q.
Proof.
  intros R Hl He HQ. destruct (member_val s w l e es R Hl He) as (v & Hv & Hlst).
  apply wp_bind. apply (wp_load_elt s w e v); [done..|]. intros el H1 H2 H3 H4. apply HQ; congruence.
Qed.

Lemma in_middle (e : Z) es1 es2 : e ∈ es1 ++ e :: es2.
Proof. apply elem_middle. by left. Qed.

Lemma Remove_refines s w l es1 e es2 :
  refines s w → seqs w !! l = Some (es1 ++ e :: es2) →
  Remove s l (Some (Elt e)) ⇓ λ '(s', v), vals w !! e = Some v ∧ refines s' (set_seq w l (es1 ++ es2)).
Proof.
  intros R Hl. unfold Remove. apply (wp_member s w l _ e _ _ R Hl (in_middle e es1 es2)). intros el _ _ Hel Hv.
  rewrite decide_True by done. eapply wp_bind_mono; [by apply remove_refines|].
  intros [s1 r] (_ & R1 & _). apply wp_bind. apply (wp_load_elt s1 _ e (Value el) _ R1); [done|].
  intros el' _ _ _ E. simpl. by rewrite E.
Qed.

Lemma Remove_foreign s w l e v :
  refines s w → vals w !! e = Some v → (∀ es, seqs w !! l = Some es → e ∉ es) →
  Remove s l (Some (Elt e)) = Ret (s, v).
Proof.
  intros R He Hno.
  assert (lst s (Elt e) ≠ Some l) as Hl by (intros (es & Hl & Hin)%(rf_list _ _ R); by apply (Hno es)).
  unfold Remove. assert (load s (Some (Elt e)) ⇓ λ el, list_ el = lst s (Elt e) ∧ Value el = v) as (el & -> & Hel & <-)%wp_ex.
  { apply (wp_load_elt s w e v); by intros. }
  rewrite go_bind_ret. by rewrite decide_False by congruence.
Qed.

(** Removing [e] and inserting it behind the first half of the rest. *)
Lemma reinsert s w l es1 e es2 fs1 fs2 (k : store V → ptr → go (store V)) L1 a :
  refines s w → seqs w !! l = Some (es1 ++ e :: es2) → es1 ++ es2 = fs1 ++ fs2 → before l fs1 = L1 ++ [a] →
  (∀ s1, refines s1 (set_seq w l (fs1 ++ fs2)) → path s1 (cycle l (fs1 ++ fs2)) →
     k s1 (Some (Elt e)) = ('(s2, _) ← insert s1 l (Some (Elt e)) (Some a); Ret s2)) →
  ('(s1, e1) ← remove s l (Some (Elt e)); k s1 e1) ⇓ λ s', refines s' (set_seq w l (fs1 ++ e :: fs2)).
Proof.
  intros R Hl E Hb Hk. eapply wp_bind_mono; [by apply remove_refines|].
  intros [s1 r] (-> & R1 & P1 & _ & Hlst). rewrite E in R1, P1. rewrite Hk by done.
  eapply wp_bind_mono; [apply (insert_refines s1 _ l fs1 fs2 e L1 a R1); try done|].
  - simpl. by rewrite lookup_insert_eq.
  - apply (rf_live _ _ R e l _ Hl (in_middle e es1 es2)).
  - intros [s2 r] (_ & R2 & _). simpl. by rewrite set_seq_twice in R2.
Qed.

Lemma first_in_ring s w l es1 e es2 :
  refines s w → seqs w !! l = Some (es1 ++ e :: es2) → nxt s (Root l) = Some (Elt e) → es1 = [].
Proof.
  intros R Hl Hn. pose proof (member_path _ _ _ _ _ _ R Hl) as P. destruct es1 as [|x es1]; [done|]. exfalso.
  destruct (link_at s l [] (x :: es1 ++ e :: es2) [] (Root l) (Elt x) (after l (es1 ++ e :: es2)) P eq_refl eq_refl) as [Hn' _].
  assert (x = e) as -> by congruence. pose proof (rf_nodup _ _ R _ _ Hl) as [Hx _]%NoDup_cons. apply Hx, in_middle.
Qed.

Lemma last_in_ring s w l es1 e es2 :
  refines s w → seqs w !! l = Some (es1 ++ e :: es2) → prv s (Root l) = Some (Elt e) → es2 = [].
Proof.
  intros R Hl Hn. pose proof (member_path _ _ _ _ _ _ R Hl) as P. destruct es2 as [|x es2 _] using rev_ind; [done|]. exfalso.
  assert (es1 ++ e :: es2 ++ [x] = (es1 ++ e :: es2) ++ [x]) as E by (by rewrite <- app_assoc). rewrite E in *.
  rewrite (prv_root s l _ (before l (es1 ++ e :: es2)) (Elt x) P) in Hn by apply before_snoc.
  assert (x = e) as -> by congruence. pose proof (rf_nodup _ _ R _ _ Hl) as (_ & Hx & _)%NoDup_app.
  apply (Hx e); [apply in_middle|by left].
Qed.

Lemma MoveToFront_refines s w l es1 e es2 :
  refines s w → seqs w !! l = Some (es1 ++ e :: es2) →
  MoveToFront s l (Some (Elt e)) ⇓ λ s', refines s' (set_seq w l (e :: es1 ++ es2)).
Proof.
  intros R Hl. unfold MoveToFront. apply (wp_member s w l _ e _ _ R Hl (in_middle e es1 es2)). intros el _ _ Hel _.
  rewrite decide_False by (rewrite Hel; by intros []). apply wp_bind, (wp_load_root s w l _ _ R Hl). intros rt Hrt _.
  case_decide as Hd.
  - rewrite Hrt in Hd. rewrite (first_in_ring s w l es1 e es2) in * by done. simpl.
    assert (set_seq w l (e :: es2) = w) as ->; [|done]. unfold set_seq. rewrite insert_id by done. by destruct w.
  - apply (reinsert s w l es1 e es2 [] (es1 ++ es2) (λ s (e : ptr), '(s, _) ← insert s l e (root l); Ret s) [] (Root l)); done.
Qed.

Lemma MoveToBack_refines s w l es1 e es2 :
  refines s w → seqs w !! l = Some (es1 ++ e :: es2) →
  MoveToBack s l (Some (Elt e)) ⇓ λ s', refines s' (set_seq w l (es1 ++ es2 ++ [e])).
Proof.
  intros R Hl. unfold MoveToBack. apply (wp_member s w l _ e _ _ R Hl (in_middle e es1 es2)). intros el _ _ Hel _.
  rewrite decide_False by (rewrite Hel; by intros []). apply wp_bind, (wp_load_root s w l _ _ R Hl). intros rt _ Hrt.
  case_decide as Hd.
  - rewrite Hrt in Hd. rewrite (last_in_ring s w l es1 e es2) in * by done. simpl.
    assert (set_seq w l (es1 ++ [e]) = w) as ->; [|done]. unfold set_seq. rewrite insert_id by done. by destruct w.
  - destruct (before_last l (es1 ++ es2)) as (L1 & a & Hb). rewrite app_assoc.
    apply (reinsert s w l es1 e es2 (es1 ++ es2) []
      (λ s (e : ptr), rt ← load s (root l); '(s, _) ← insert s l e (prev rt); Ret s) L1 a); try done; rewrite app_nil_r; [done|].
    intros s1 R1 P1.
    assert (load s1 (root l) ⇓ λ el, prev el = prv s1 (Root l)) as (rt1 & -> & Hrt1)%wp_ex.
    { eapply (wp_load_root s1 _ l); [done|simpl; by rewrite lookup_insert_eq|]. by intros. }
    rewrite go_bind_ret, Hrt1. by rewrite (prv_root s1 l (es1 ++ es2) L1 a).
Qed.

Lemma MoveBefore_refines s w l es1 e es2 fs1 m fs2 :
  refines s w → seqs w !! l = Some (es1 ++ e :: es2) → es1 ++ es2 = fs1 ++ m :: fs2 →
  MoveBefore s l (Some (Elt e)) (Some (Elt m)) ⇓ λ s', refines s' (set_seq w l (fs1 ++ e :: m :: fs2)).
Proof.
  intros R Hl E. unfold MoveBefore.
  pose proof (rf_nodup _ _ R _ _ Hl) as [Hnew Hnd]%NoDup_middle. rewrite E in Hnew.
  assert (m ∈ es1 ++ e :: es2) as Hm by (apply elem_middle; right; rewrite E; apply in_middle).
  apply (wp_member s w l _ e _ _ R Hl (in_middle e es1 es2)). intros el _ _ Hel _.
  rewrite decide_False by (rewrite Hel; by intros []).
  rewrite decide_False by (intros [= ->]; apply Hnew, in_middle).
  apply (wp_member s w l _ m _ _ R Hl Hm). intros el' _ _ Hel' _.
  rewrite decide_False by (rewrite Hel'; by intros []).
  destruct (before_last l fs1) as (L1 & a & Hb).
  apply (reinsert s w l es1 e es2 fs1 (m :: fs2)
    (λ s (e : ptr), m ← load s (Some (Elt m)); '(s, _) ← insert s l e (prev m); Ret s) L1 a); [done..|].
  intros s1 R1 P1. assert (seqs (set_seq w l (fs1 ++ m :: fs2)) !! l = Some (fs1 ++ m :: fs2)) as Hl1
    by (simpl; by rewrite lookup_insert_eq).
  assert (load s1 (Some (Elt m)) ⇓ λ el, prev el = prv s1 (Elt m)) as (m1 & -> & Hm1)%wp_ex.
  { destruct (member_val s1 _ l m _ R1 Hl1 (in_middle m fs1 fs2)) as (v & Hv & _).
    eapply (wp_load_elt s1 _ m v _ R1 Hv). by intros. }
  rewrite go_bind_ret, Hm1. by destruct (link_at s1 l fs1 (m :: fs2) L1 a (Elt m) (after l fs2) P1 Hb eq_refl) as [_ ->].
Qed.

Lemma MoveAfter_refines s w l es1 e es2 fs1 m fs2 :
  refines s w → seqs w !! l = Some (es1 ++ e :: es2) → es1 ++ es2 = fs1 ++ m :: fs2 →
  MoveAfter s l (Some (Elt e)) (Some (Elt m)) ⇓ λ s', refines s' (set_seq w l (fs1 ++ m :: e :: fs2)).
Proof.
  intros R Hl E. unfold MoveAfter.
  pose proof (rf_nodup _ _ R _ _ Hl) as [Hnew Hnd]%NoDup_middle. rewrite E in Hnew.
  assert (m ∈ es1 ++ e :: es2) as Hm by (apply elem_middle; right; rewrite E; apply in_middle).
  apply (wp_member s w l _ e _ _ R Hl (in_middle e es1 es2)). intros el _ _ Hel _.
  rewrite decide_False by (rewrite Hel; by intros []).
  rewrite decide_False by (intros [= ->]; apply Hnew, in_middle).
  apply (wp_member s w l _ m _ _ R Hl Hm). intros el' _ _ Hel' _.
  rewrite decide_False by (rewrite Hel'; by intros []).
  assert (∀ x, fs1 ++ m :: x = (fs1 ++ [m]) ++ x) as Em by (intros x; by rewrite <- app_assoc).
  rewrite Em. apply (reinsert s w l es1 e es2 (fs1 ++ [m]) fs2
    (λ s (e : ptr), '(s, _) ← insert s l e (Some (Elt m)); Ret s) (before l fs1) (Elt m)); [done|done| | |done].
  - by rewrite E, Em.
  - apply before_snoc.
Qed.

(** * Walking a list *)

(** The element after [e], if any. *)
Lemma Next_spec s w l es1 e es2 :
  refines s w → seqs w !! l = Some (es1 ++ e :: es2) →
  Next s (Some (Elt e)) = Ret (Elt <$> head es2).
Proof.
  intros R Hl. pose proof (member_path _ _ _ _ _ _ R Hl) as P.
  assert (Next s (Some (Elt e)) ⇓ λ r, r = Elt <$> head es2) as (r & -> & ->)%wp_ex; [|done].
  unfold Next. apply (wp_member s w l _ e _ _ R Hl (in_middle e es1 es2)). intros el -> _ -> _.
  assert (es1 ++ e :: es2 = (es1 ++ [e]) ++ es2) as E by (by rewrite <- app_assoc). rewrite E in P.
  destruct (after_head l es2) as (n & L2 & Ha).
  destruct (link_at s l (es1 ++ [e]) es2 _ _ n L2 P (before_snoc l es1 e) Ha) as [-> _].
  destruct es2 as [|y es2]; simpl in *; inversion Ha; subst; unfold root; case_decide as Hd; try done; by destruct Hd.
Qed.

Lemma Prev_spec s w l es1 e es2 :
  refines s w → seqs w !! l = Some (es1 ++ e :: es2) →
  Prev s (Some (Elt e)) = Ret (Elt <$> last es1).
Proof.
  intros R Hl. pose proof (member_path _ _ _ _ _ _ R Hl) as P.
  assert (Prev s (Some (Elt e)) ⇓ λ r, r = Elt <$> last es1) as (r & -> & ->)%wp_ex; [|done].
  unfold Prev. apply (wp_member s w l _ e _ _ R Hl (in_middle e es1 es2)). intros el _ -> -> _.
  destruct es1 as [|y es1 _] using rev_ind.
  - destruct (link_at s l [] (e :: es2) [] (Root l) (Elt e) (after l es2) P eq_refl eq_refl) as [_ ->].
    unfold root. by case_decide.
  - rewrite last_snoc.
    destruct (link_at s l (es1 ++ [y]) (e :: es2) _ _ (Elt e) (after l es2) P (before_snoc l es1 y) eq_refl) as [_ ->].
    unfold root. by case_decide.
Qed.

Lemma Front_Back_Len s w l es :
  refines s w → seqs w !! l = Some es →
  Front s l = Ret (Elt <$> head es) ∧ Back s l = Ret (Elt <$> last es) ∧ Len s l = Ret (zlen es).
Proof.
  intros R Hl. unfold Front, Back, Len, get_len. rewrite (rf_len _ _ R _ _ Hl), !go_bind_ret.
  destruct (Z.eqb_spec (zlen es) 0) as [Hz|Hz].
  { by apply zlen_nil_inv in Hz as ->. }
  assert (path s (cycle l es)) as P by (destruct (rf_ring _ _ R _ _ Hl) as [[-> _]|]; done).
  assert (load s (root l) ⇓ λ el, next el = nxt s (Root l) ∧ prev el = prv s (Root l)) as (rt & E & Hn & Hp)%wp_ex.
  { eapply (wp_load_root s _ l); [done..|]. by intros. }
  rewrite E, !go_bind_ret, Hn, Hp. split; [|split; [|done]].
  - destruct es as [|x es]; [done|].
    by destruct (link_at s l [] (x :: es) [] (Root l) (Elt x) (after l es) P eq_refl eq_refl) as [-> _].
  - destruct es as [|x es _] using rev_ind; [done|]. rewrite last_snoc.
    by rewrite (prv_root s l _ _ _ P (before_snoc l es x)).
Qed.

(** * Copying a list *)

(** [news] copies the values of [os] behind or before [es]; the rest is untouched. *)
Definition copied w w' l es' os news : Prop :=
  seqs w' = <[l := es']> (seqs w) ∧ vals w ⊆ vals w' ∧
  Forall2 (λ o n, ∃ v, vals w !! o = Some v ∧ vals w' !! n = Some v ∧ vals w !! n = None) os news.

Lemma copied_step w w' l es' es'' os news o v u :
  copied w w' l es' os news → vals w !! o = Some v → vals w' !! u = None →
  copied w (set_seq (set_val w' u v) l es'') l es'' (os ++ [o]) (news ++ [u]) ∧
  copied w (set_seq (set_val w' u v) l es'') l es'' (o :: os) (u :: news).
Proof.
  intros (Hs & Hv & Hc) Ho Hu.
  assert (vals w !! u = None) as Hu' by (by eapply lookup_weaken_None).
  assert (Forall2 (λ o n, ∃ v', vals w !! o = Some v' ∧ <[u := v]> (vals w') !! n = Some v' ∧ vals w !! n = None) os news) as Hc'.
  { eapply Forall2_impl; [done|]. intros o' n (v' & Ho' & Hn & Hn'). exists v'. split; [done|]. split; [|done].
    rewrite lookup_insert_ne; [done|]. intros ->. congruence. }
  assert (<[l := es'']> (seqs w') = <[l := es'']> (seqs w)) as Hs' by (by rewrite Hs, insert_insert_eq).
  assert (vals w ⊆ <[u := v]> (vals w')) as Hv' by (etrans; [done|by apply insert_subseteq]).
  assert (∃ v', vals w !! o = Some v' ∧ <[u := v]> (vals w') !! u = Some v' ∧ vals w !! u = None) as Hu2
    by (exists v; by rewrite lookup_insert_eq).
  split; (split; [done|split; [done|]]); simpl.
  - apply Forall2_app; [done|]. by constructor.
  - by constructor.
Qed.

Lemma copied_start w l es : seqs w !! l = Some es → copied w w l es [] [].
Proof. intros Hl. split; [by rewrite insert_id|done]. Qed.

(** The sequence the source of the copy has meanwhile. *)
Lemma copied_source w w' l es' os news o' xs :
  copied w w' l es' os news → seqs w !! o' = Some xs → seqs w' !! o' = Some (if decide (l = o') then es' else xs).
Proof. intros (-> & _) Ho. rewrite lookup_insert. by case_decide. Qed.

Lemma copied_val w w' l es' os news o v : copied w w' l es' os news → vals w !! o = Some v → vals w' !! o = Some v.
Proof. intros (_ & Hv & _) Ho. by eapply lookup_weaken. Qed.

Lemma PushBackList_refines s w l es other os :
  refines s w → seqs w !! l = Some es → seqs w !! other = Some os →
  PushBackList s l other ⇓ λ s', ∃ w' news, refines s' w' ∧ copied w w' l (es ++ news) os news.
Proof.
  intros R0 Hl Ho. unfold PushBackList. eapply wp_bind_mono; [by apply lazyInit_refines|].
  intros s1 (R & P & _). destruct (Front_Back_Len s1 w other os R Ho) as (HF & _ & HL).
  rewrite HL, go_bind_ret, HF, go_bind_ret. eapply wp_bind_mono.
  { apply wp_for_down with (Q := λ '(s', _), ∃ w' news, refines s' w' ∧ copied w w' l (es ++ news) os news)
     (I := λ i '(s', e), ∃ w' os1 os2 news, os = os1 ++ os2 ∧ zlen os2 = i ∧ (os2 ≠ [] → e = Elt <$> head os2) ∧
       refines s' w' ∧ path s' (cycle l (es ++ news)) ∧ copied w w' l (es ++ news) os1 news).
    - intros i [s' e] Hi (w' & os1 & os2 & news & Eos & Hlen & He & R' & P' & C).
      destruct os2 as [|o os2]; [change (zlen (@nil Z)) with 0 in Hlen; lia|]. rewrite (He ltac:(done)).
      change (Elt <$> head (o :: os2)) with (Some (Elt o)).
      rewrite zlen_cons in Hlen.
      destruct (rf_live _ _ R o other os Ho) as [v Hv]; [rewrite Eos; apply in_middle|].
      apply wp_bind. apply (wp_load_elt s' w' o v _ R'); [by eapply copied_val|]. intros el _ _ _ Hel. rewrite Hel.
      assert (seqs w' !! l = Some (es ++ news)) as Hl' by (rewrite (proj1 C); by rewrite lookup_insert_eq).
      pose proof (push_back s' w' l (es ++ news) v R' Hl' P') as Hpush.
      apply wp_ex in Hpush as ([s2 r] & Epush & -> & R2 & P2 & U2).
      destruct (load s' (root l)) as [rt| |] eqn:Ert; [|done..]. rewrite go_bind_ret in Epush |- *.
      rewrite Epush, go_bind_ret. rewrite <- app_assoc in R2, P2.
      destruct (copied_step w w' l _ (es ++ news ++ [unused s']) os1 news o v (unused s') C Hv) as [C2 _].
      { apply (rf_unused _ _ R'). lia. }
      pose proof (copied_source _ _ _ _ _ _ other os C2 Ho) as Hsrc.
      assert (∃ tl, seqs (set_seq (set_val w' (unused s') v) l (es ++ news ++ [unused s'])) !! other = Some (os1 ++ o :: os2 ++ tl)) as [tl Hseq].
      { rewrite Hsrc. case_decide as Hd; [|exists []; by rewrite app_nil_r, Eos].
        subst other. assert (es = os1 ++ o :: os2) as -> by congruence. exists (news ++ [unused s']). by rewrite <- app_assoc. }
      rewrite (Next_spec _ _ _ _ _ _ R2 Hseq), go_bind_ret. simpl.
      exists (set_seq (set_val w' (unused s') v) l (es ++ news ++ [unused s'])), (os1 ++ [o]), os2, (news ++ [unused s']).
      split; [by rewrite Eos, <- app_assoc|]. split; [lia|]. split; [by destruct os2|]. done.
    - exists w, [], os, []. rewrite app_nil_r. do 5 (split; [done|]). by apply copied_start.
    - intros [s' e] (w' & os1 & os2 & news & Eos & Hlen & _ & R' & _ & C). exists w', news. split; [done|].
      pose proof (zlen_nonneg os). rewrite Z.min_r in Hlen by lia. apply zlen_nil_inv in Hlen as ->.
      rewrite app_nil_r in Eos. by subst. }
  intros [s' e] H. exact H.
Qed.

Lemma PushFrontList_refines s w l es other os :
  refines s w → seqs w !! l = Some es → seqs w !! other = Some os →
  PushFrontList s l other ⇓ λ s', ∃ w' news, refines s' w' ∧ copied w w' l (news ++ es) os news.
Proof.
  intros R0 Hl Ho. unfold PushFrontList. eapply wp_bind_mono; [by apply lazyInit_refines|].
  intros s1 (R & P & _). destruct (Front_Back_Len s1 w other os R Ho) as (_ & HB & HL).
  rewrite HL, go_bind_ret, HB, go_bind_ret. eapply wp_bind_mono.
  { apply wp_for_down with (Q := λ '(s', _), ∃ w' news, refines s' w' ∧ copied w w' l (news ++ es) os news)
     (I := λ i '(s', e), ∃ w' os1 os2 news, os = os2 ++ os1 ∧ zlen os2 = i ∧ (os2 ≠ [] → e = Elt <$> last os2) ∧
       refines s' w' ∧ path s' (cycle l (news ++ es)) ∧ copied w w' l (news ++ es) os1 news).
    - intros i [s' e] Hi (w' & os1 & os2 & news & Eos & Hlen & He & R' & P' & C).
      destruct os2 as [|o os2 _] using rev_ind; [change (zlen (@nil Z)) with 0 in Hlen; lia|].
      rewrite He by (by destruct os2). rewrite last_snoc. change (Elt <$> Some o) with (Some (Elt o)).
      rewrite zlen_app, zlen_one in Hlen. rewrite <- app_assoc in Eos. simpl in Eos.
      destruct (rf_live _ _ R o other os Ho) as [v Hv]; [rewrite Eos; apply in_middle|].
      apply wp_bind. apply (wp_load_elt s' w' o v _ R'); [by eapply copied_val|]. intros el _ _ _ Hel. rewrite Hel.
      assert (seqs w' !! l = Some (news ++ es)) as Hl' by (rewrite (proj1 C); by rewrite lookup_insert_eq).
      eapply wp_bind_mono; [apply (insertValue_refines s' w' l [] (news ++ es) v [] (Root l)); done|].
      intros [s2 r] (-> & R2 & P2 & U2). simpl in R2, P2.
      destruct (copied_step w w' l _ (unused s' :: news ++ es) os1 news o v (unused s') C Hv) as [_ C2].
      { apply (rf_unused _ _ R'). lia. }
      pose proof (copied_source _ _ _ _ _ _ other os C2 Ho) as Hsrc.
      assert (∃ hd, seqs (set_seq (set_val w' (unused s') v) l (unused s' :: news ++ es)) !! other = Some ((hd ++ os2) ++ o :: os1)) as [hd Hseq].
      { rewrite Hsrc. case_decide as Hd; [|exists []; by rewrite Eos].
        subst other. assert (es = os2 ++ o :: os1) as -> by congruence. exists (unused s' :: news). by rewrite <- app_assoc. }
      rewrite (Prev_spec _ _ _ _ _ _ R2 Hseq), go_bind_ret. simpl.
      exists (set_seq (set_val w' (unused s') v) l (unused s' :: news ++ es)), (o :: os1), os2, (unused s' :: news).
      split; [done|]. split; [lia|]. split; [|done]. intros Hne. destruct os2 as [|y os2 _] using rev_ind; [done|].
      by rewrite app_assoc, !last_snoc.
    - exists w, [], os, []. rewrite app_nil_r. do 5 (split; [done|]). by apply copied_start.
    - intros [s' e] (w' & os1 & os2 & news & Eos & Hlen & _ & R' & _ & C). exists w', news. split; [done|].
      pose proof (zlen_nonneg os). rewrite Z.min_r in Hlen by lia. apply zlen_nil_inv in Hlen as ->. by subst. }
  intros [s' e] H. exact H.
Qed.

(** A new list. *)
Lemma New_refines s w :
  refines s w → New null s ⇓ λ '(s', l), l = unused s ∧ seqs w !! l = None ∧ refines s' (set_seq w l []).
Proof.
  intros R. unfold New. simpl.
  set (s1 := {| elems := _; lens := _; unused := _ |}). set (u := unused s).
  destruct (rf_unused _ _ R u ltac:(lia)) as [Hu Hus].
  assert (∀ x, x ≠ Root u → nxt s1 x = nxt s x ∧ prv s1 x = prv s x ∧ lst s1 x = lst s x ∧ val s1 x = val s x) as Hf.
  { intros x Hx. unfold nxt, prv, lst, val, s1. simpl. by rewrite lookup_insert_ne by done. }
  assert (val s1 (Root u) = Some null) as Hvu by (unfold val, s1; simpl; by rewrite lookup_insert_eq).
  assert (refines s1 (set_seq w u [])) as R1.
  { split; cbn [seqs vals set_seq].
    - intros l es. change (lens s1) with (<[u := 0]> (lens s)). rewrite !lookup_insert. case_decide; [by intros [= <-]|apply (rf_len _ _ R)].
    - intros l es. rewrite lookup_insert. case_decide; [intros [= <-]; apply NoDup_nil_2|apply (rf_nodup _ _ R)].
    - intros l es. rewrite lookup_insert. case_decide as Hd.
      + intros [= <-]. subst l. left. split; [done|]. unfold nxt, s1. simpl. by rewrite lookup_insert_eq.
      + intros Hl. eapply ring_frame; [|by eapply rf_ring]. intros x Hx%inside_cycle.
        destruct (Hf x) as (-> & -> & _); [|done]. destruct Hx as [->|(m & -> & _)]; congruence.
    - intros l es. rewrite lookup_insert. case_decide as Hd; [by subst; rewrite Hvu|]. intros Hl.
      rewrite (proj2 (proj2 (proj2 (Hf (Root l) ltac:(congruence))))). by eapply rf_root.
    - intros m. rewrite (proj2 (proj2 (proj2 (Hf (Elt m) ltac:(congruence))))). apply (rf_vals _ _ R).
    - intros m l. rewrite (proj1 (proj2 (proj2 (Hf (Elt m) ltac:(congruence))))), (rf_list _ _ R).
      split; intros (es & Hl & Hm); exists es; (split; [|done]).
      + rewrite lookup_insert_ne; [done|]. intros <-. congruence.
      + rewrite lookup_insert in Hl. case_decide; [|done]. simplify_eq. by apply not_elem_of_nil in Hm.
    - intros m l es. rewrite lookup_insert. case_decide; [intros [= <-] []%not_elem_of_nil|apply (rf_live _ _ R)].
    - intros m Hm. simpl in Hm. destruct (rf_unused _ _ R m ltac:(lia)) as [? ?]. split; [done|].
      rewrite lookup_insert_ne; [done|]. unfold u. lia. }
  eapply wp_bind_mono; [apply (Init_refines s1 _ u R1); simpl; by rewrite lookup_insert_eq|].
  intros s2 (R2 & _). done.
Qed.

Lemma empty_refines : refines (empty_store V) {| seqs := ∅; vals := ∅ |}.
Proof. split; intros; simpl in *; try done. split; [done|]. intros (es & Hl & _). done. Qed.
End refinement.

(** * Properties *)

Section properties.
Context {V : Type} (null : V).
Implicit Types (s : store V) (w : world V) (l e m : Z) (es : list Z) (v : V).

(** C16: [New] makes an empty list; [PushFront], [PushBack], [InsertBefore] and
    [InsertAfter] put a new element with the value at their place in the sequence
    of the list and return it, initialising the list where it is not, and leave
    every other list and element alone; inserting at a mark that is not on the
    list changes nothing and returns [nil]. *)
Theorem List_insertions s w l es v :
  refines s w → seqs w !! l = Some es →
  let u := unused s in
  let w' es' := set_seq (set_val w u v) l es' in
  (∃ s' l', New null s = Ret (s', l') ∧ seqs w !! l' = None ∧ refines s' (set_seq w l' [])) ∧
  (∃ s', PushFront s l v = Ret (s', Some (Elt u)) ∧ refines s' (w' (u :: es))) ∧
  (∃ s', PushBack s l v = Ret (s', Some (Elt u)) ∧ refines s' (w' (es ++ [u]))) ∧
  (∀ es1 m es2, es = es1 ++ m :: es2 →
     (∃ s', InsertBefore s l v (Some (Elt m)) = Ret (s', Some (Elt u)) ∧ refines s' (w' (es1 ++ u :: m :: es2))) ∧
     (∃ s', InsertAfter s l v (Some (Elt m)) = Ret (s', Some (Elt u)) ∧ refines s' (w' (es1 ++ m :: u :: es2)))) ∧
  (∀ m vm, vals w !! m = Some vm → m ∉ es →
     InsertBefore s l v (Some (Elt m)) = Ret (s, None) ∧ InsertAfter s l v (Some (Elt m)) = Ret (s, None)).
Proof.
  intros R Hl u w'. split; [|split; [|split; [|split]]].
  - destruct (proj1 (wp_ex _ _) (New_refines null s w R)) as ([s' l'] & E & -> & ? & ?). by exists s', (unused s).
  - destruct (proj1 (wp_ex _ _) (PushFront_refines s w l es v R Hl)) as ([s' r] & E & -> & ?). by exists s'.
  - destruct (proj1 (wp_ex _ _) (PushBack_refines s w l es v R Hl)) as ([s' r] & E & -> & ?). by exists s'.
  - intros es1 m es2 ->. split.
    + destruct (proj1 (wp_ex _ _) (InsertBefore_refines s w l es1 m es2 v R Hl)) as ([s' r] & E & -> & ?). by exists s'.
    + destruct (proj1 (wp_ex _ _) (InsertAfter_refines s w l es1 m es2 v R Hl)) as ([s' r] & E & -> & ?). by exists s'.
  - intros m vm Hm Hno. apply (Insert_foreign s w l m vm v R Hm). intros es' Hes. congruence.
Qed.

(** C17: [Remove] takes an element off its list and returns its value, and only
    returns the value where the element is not on the list; [MoveToFront],
    [MoveToBack], [MoveBefore] and [MoveAfter] move an element of the list to its
    place, the others keeping their order, and every other list is left alone. *)
Theorem List_moves s w l es1 e es2 :
  refines s w → seqs w !! l = Some (es1 ++ e :: es2) →
  (∃ s' v, Remove s l (Some (Elt e)) = Ret (s', v) ∧ vals w !! e = Some v ∧ refines s' (set_seq w l (es1 ++ es2))) ∧
  (∀ m v, vals w !! m = Some v → m ∉ (es1 ++ e :: es2) → Remove s l (Some (Elt m)) = Ret (s, v)) ∧
  (∃ s', MoveToFront s l (Some (Elt e)) = Ret s' ∧ refines s' (set_seq w l (e :: es1 ++ es2))) ∧
  (∃ s', MoveToBack s l (Some (Elt e)) = Ret s' ∧ refines s' (set_seq w l (es1 ++ es2 ++ [e]))) ∧
  (∀ fs1 m fs2, es1 ++ es2 = fs1 ++ m :: fs2 →
     (∃ s', MoveBefore s l (Some (Elt e)) (Some (Elt m)) = Ret s' ∧ refines s' (set_seq w l (fs1 ++ e :: m :: fs2))) ∧
     (∃ s', MoveAfter s l (Some (Elt e)) (Some (Elt m)) = Ret s' ∧ refines s' (set_seq w l (fs1 ++ m :: e :: fs2)))).
Proof.
  intros R Hl. split; [|split; [|split; [|split]]].
  - destruct (proj1 (wp_ex _ _) (Remove_refines s w l es1 e es2 R Hl)) as ([s' v] & E & ? & ?). by exists s', v.
  - intros m v Hm Hno. apply (Remove_foreign s w l m v R Hm). intros es' Hes. congruence.
  - apply wp_ex. by apply MoveToFront_refines.
  - apply wp_ex. by apply MoveToBack_refines.
  - intros fs1 m fs2 E. split; apply wp_ex; [by eapply MoveBefore_refines|by eapply MoveAfter_refines].
Qed.

(** [Front], [Back], [Len], [Next] and [Prev] read the sequence of the list;
    [PushBackList] and [PushFrontList] add copies of the elements of the other
    list, in order, behind or before those of the list, also where the two lists
    are the same one. *)
Theorem List_reading_copying s w l es other os :
  refines s w → seqs w !! l = Some es → seqs w !! other = Some os →
  Front s l = Ret (Elt <$> head es) ∧ Back s l = Ret (Elt <$> last es) ∧ Len s l = Ret (zlen es) ∧
  (∀ es1 e es2, es = es1 ++ e :: es2 →
     Next s (Some (Elt e)) = Ret (Elt <$> head es2) ∧ Prev s (Some (Elt e)) = Ret (Elt <$> last es1)) ∧
  (∃ s' w' news, PushBackList s l other = Ret s' ∧ refines s' w' ∧ copied w w' l (es ++ news) os news) ∧
  (∃ s' w' news, PushFrontList s l other = Ret s' ∧ refines s' w' ∧ copied w w' l (news ++ es) os news).
Proof.
  intros R Hl Ho. destruct (Front_Back_Len s w l es R Hl) as (? & ? & ?). split; [done|split; [done|split; [done|split; [|split]]]].
  - intros es1 e es2 ->. split; [by eapply Next_spec|by eapply Prev_spec].
  - destruct (proj1 (wp_ex _ _) (PushBackList_refines s w l es other os R Hl Ho)) as (s' & E & w' & news & ? & ?).
    by exists s', w', news.
  - destruct (proj1 (wp_ex _ _) (PushFrontList_refines s w l es other os R Hl Ho)) as (s' & E & w' & news & ? & ?).
    by exists s', w', news.
Qed.
End properties.

(** A store with one list of two elements, for the witnesses. *)
Definition run {A} (m : go A) (d : A) : A := match m with Ret a => a | _ => d end.
Lemma wp_run {A} (m : go A) d (Q : A → Prop) : (m ⇓ Q) → Q (run m d).
Proof. by destruct m. Qed.

Definition sample0 : store Z * Z := run (New 0 (empty_store Z)) (empty_store Z, 0).
Definition sample1 : store Z * ptr := run (PushBack sample0.1 0 5) (empty_store Z, None).
Definition sample2 : store Z * ptr := run (PushBack sample1.1 0 7) (empty_store Z, None).
Definition sample_world : world Z := {| seqs := {[ 0 := [1; 2] ]}; vals := {[ 1 := 5; 2 := 7 ]} |}.

Lemma sample_refines : refines sample2.1 sample_world.
Proof.
  pose proof (wp_run _ (empty_store Z, 0) _ (New_refines 0 (empty_store Z) _ (empty_refines (V := Z)))) as H0.
  fold sample0 in H0. destruct sample0 as [s0 l0] eqn:E0. destruct H0 as (-> & _ & R0).
  pose proof (wp_run _ (empty_store Z, None) _ (PushBack_refines s0 _ 0 [] 5 R0 eq_refl)) as H1.
  assert (s0 = sample0.1) as Es0 by (by rewrite E0). rewrite Es0 in H1. fold sample1 in H1.
  destruct sample1 as [s1 r1] eqn:E1. destruct H1 as (_ & R1).
  pose proof (wp_run _ (empty_store Z, None) _ (PushBack_refines s1 _ 0 [1] 7 R1 ltac:(by vm_compute))) as H2.
  assert (s1 = sample1.1) as Es1 by (by rewrite E1). rewrite Es1 in H2. fold sample2 in H2.
  destruct sample2 as [s2 r2] eqn:E2. destruct H2 as (_ & R2). simpl.
  match type of R2 with refines _ ?w => assert (w = sample_world) as <- by by vm_compute end. done.
Qed.

Lemma List_insertions_witness :
  ∃ s', PushFront sample2.1 0 9 = Ret (s', Some (Elt 3)) ∧
    refines s' {| seqs := {[ 0 := [3; 1; 2] ]}; vals := {[ 1 := 5; 2 := 7; 3 := 9 ]} |}.
Proof.
  destruct (List_insertions 0 sample2.1 sample_world 0 [1; 2] 9 sample_refines eq_refl) as (_ & H & _).
  exact H.
Defined.

Lemma List_moves_witness :
  ∃ s', MoveToFront sample2.1 0 (Some (Elt 2)) = Ret s' ∧
    refines s' {| seqs := {[ 0 := [2; 1] ]}; vals := {[ 1 := 5; 2 := 7 ]} |}.
Proof.
  destruct (List_moves sample2.1 sample_world 0 [1] 2 [] sample_refines eq_refl) as (_ & _ & H & _).
  exact H.
Defined.

Lemma List_reading_copying_witness :
  Front sample2.1 0 = Ret (Some (Elt 1)) ∧
  ∃ s' w' news, PushBackList sample2.1 0 0 = Ret s' ∧ refines s' w' ∧ copied sample_world w' 0 ([1; 2] ++ news) [1; 2] news.
Proof.
  destruct (List_reading_copying sample2.1 sample_world 0 [1; 2] 0 [1; 2] sample_refines eq_refl eq_refl) as (H & _ & _ & _ & H' & _).
  exact (conj H H').
Defined.
