(* ===== verification/StringsSearch.v ===== *)
(** Package [strings], the searches of [src/src/strings/strings.go]: Rabin-Karp
    [Index], [LastIndex] and [Count], the searches by rune and by predicate. *)
From S2P Require Import Prelude.
From S2P Require Import Utf8.

(** * Rabin-Karp hashing *)

Definition primeRK : Z := 16777619.

(** [for i := n; i > 0; i >>= 1]: the power of the prime by squaring. *)
Definition pow_loop (n : Z) : go Z :=
  '(_, pow, _) ← while (S (Z.to_nat n))
    (λ '(i, _, _), Ret (0 <? i))
    (λ '(i, pow, sq),
      let pow := if negb (Z.land i 1 =? 0) then u32 (pow * sq) else pow in
      Ret (Z.shiftr i 1, pow, u32 (sq * sq))) (n, 1, primeRK);
  Ret pow.

Definition hashStr (sep : bytes) : go (Z * Z) :=
  hash ← for_up 0 (zlen sep) (λ i hash,
    c ← idx sep i; Ret (u32 (u32 (hash * primeRK) + c))) 0;
  pow ← pow_loop (zlen sep);
  Ret (hash, pow).

Definition hashStrRev (sep : bytes) : go (Z * Z) :=
  hash ← for_down (zlen sep - 1) 0 (λ i hash,
    c ← idx sep i; Ret (u32 (u32 (hash * primeRK) + c))) 0;
  pow ← pow_loop (zlen sep);
  Ret (hash, pow).

(** [h *= primeRK; h += add; h -= pow * sub]. *)
Definition roll (pow h add sub : Z) : Z :=
  let h := u32 (h * primeRK) in
  let h := u32 (h + add) in
  u32 (h - u32 (pow * sub)).

(** * The searches *)

Definition IndexByte (s : bytes) (c : Z) : go Z :=
  loop (S (length s)) (λ i,
    if i <? zlen s then
      b ← idx s i;
      if b =? c then Ret (inr i) else Ret (inl (i + 1))
    else Ret (inr (-1))) 0.

Definition Index (s sep : bytes) : go Z :=
  let n := zlen sep in
  if n =? 0 then Ret 0
  else if n =? 1 then c ← idx sep 0; IndexByte s c
  else if n =? zlen s then (if decide (sep = s) then Ret 0 else Ret (-1))
  else if zlen s <? n then Ret (-1)
  else
    '(hashsep, pow) ← hashStr sep;
    h ← for_up 0 n (λ i h, c ← idx s i; Ret (u32 (u32 (h * primeRK) + c))) 0;
    w ← slice_to s n;
    if (h =? hashsep) && bool_decide (w = sep) then Ret 0 else
    loop (S (length s)) (λ '(i, h),
      if i <? zlen s then
        a ← idx s i;
        b ← idx s (i - n);
        let h := roll pow h a b in
        let i := i + 1 in
        w ← slice s (i - n) i;
        if (h =? hashsep) && bool_decide (w = sep) then Ret (inr (i - n)) else Ret (inl (i, h))
      else Ret (inr (-1))) (n, h).

(** The loops down of [LastIndex], [for i := last; i >= 0; i--]. *)
Definition last_byte (s : bytes) (c : Z) : go Z :=
  loop (S (length s)) (λ i,
    if 0 <=? i then
      b ← idx s i;
      if b =? c then Ret (inr i) else Ret (inl (i - 1))
    else Ret (inr (-1))) (zlen s - 1).

Definition LastIndex (s sep : bytes) : go Z :=
  let n := zlen sep in
  if n =? 0 then Ret (zlen s)
  else if n =? 1 then c ← idx sep 0; last_byte s c
  else if n =? zlen s then (if decide (sep = s) then Ret 0 else Ret (-1))
  else if zlen s <? n then Ret (-1)
  else
    '(hashsep, pow) ← hashStrRev sep;
    let last := zlen s - n in
    h ← for_down (zlen s - 1) last (λ i h, c ← idx s i; Ret (u32 (u32 (h * primeRK) + c))) 0;
    w ← slice_from s last;
    if (h =? hashsep) && bool_decide (w = sep) then Ret last else
    loop (S (length s)) (λ '(i, h),
      if 0 <=? i then
        a ← idx s i;
        b ← idx s (i + n);
        let h := roll pow h a b in
        w ← slice s i (i + n);
        if (h =? hashsep) && bool_decide (w = sep) then Ret (inr i) else Ret (inl (i - 1, h))
      else Ret (inr (-1))) (last - 1, h).

Definition Count (s sep : bytes) : go Z :=
  if zlen sep =? 0 then n ← RuneCountInString s; Ret (n + 1)
  else if zlen sep =? 1 then
    c ← idx sep 0;
    for_up 0 (zlen s) (λ i n, b ← idx s i; Ret (if b =? c then n + 1 else n)) 0
  else if zlen s <? zlen sep then Ret 0
  else if zlen sep =? zlen s then (if decide (sep = s) then Ret 1 else Ret 0)
  else
    '(hashsep, pow) ← hashStr sep;
    h ← for_up 0 (zlen sep) (λ i h, c ← idx s i; Ret (u32 (u32 (h * primeRK) + c))) 0;
    w ← slice_to s (zlen sep);
    let '(n, lastmatch) := if (h =? hashsep) && bool_decide (w = sep) then (1, zlen sep) else (0, 0) in
    loop (S (length s)) (λ '(i, h, n, lastmatch),
      if i <? zlen s then
        a ← idx s i;
        b ← idx s (i - zlen sep);
        let h := roll pow h a b in
        let i := i + 1 in
        w ← slice s (i - zlen sep) i;
        if (h =? hashsep) && (lastmatch <=? i - zlen sep) && bool_decide (w = sep)
        then Ret (inl (i, h, n + 1, i)) else Ret (inl (i, h, n, lastmatch))
      else Ret (inr n)) (zlen sep, h, n, lastmatch).

Definition Contains (s substr : bytes) : go bool := i ← Index s substr; Ret (0 <=? i).

(** The first offset whose rune satisfies the test, along [range s]. *)
Fixpoint first_rune (test : Z → go bool) (rs : list (Z * Z)) : go Z :=
  match rs with
  | [] => Ret (-1)
  | (i, c) :: rs' => t ← test c; if (t : bool) then Ret i else first_rune test rs'
  end.

Definition IndexRune (s : bytes) (r : Z) : go Z :=
  if r <? RuneSelf then IndexByte s (u8 r) else
  rs ← range s;
  first_rune (λ c, Ret (c =? r)) rs.

(** [for _, m := range chars { if c == m { return i } }]. *)
Definition rune_among (chars : bytes) (c : Z) : go bool :=
  ms ← range chars; Ret (existsb (λ '(_, m), c =? m) ms).

Definition IndexAny (s chars : bytes) : go Z :=
  if 0 <? zlen chars then rs ← range s; first_rune (rune_among chars) rs else Ret (-1).

Definition LastIndexAny (s chars : bytes) : go Z :=
  if 0 <? zlen chars then
    loop (S (length s)) (λ i,
      if 0 <? i then
        w ← slice_to s i;
        '(rune, size) ← DecodeLastRuneInString w;
        let i := i - size in
        t ← rune_among chars rune;
        if (t : bool) then Ret (inr i) else Ret (inl i)
      else Ret (inr (-1))) (zlen s)
  else Ret (-1).

Definition ContainsAny (s chars : bytes) : go bool := i ← IndexAny s chars; Ret (0 <=? i).
Definition ContainsRune (s : bytes) (r : Z) : go bool := i ← IndexRune s r; Ret (0 <=? i).

Definition HasPrefix (s prefix : bytes) : bool :=
  (zlen prefix <=? zlen s) && bool_decide (take (length prefix) s = prefix).
Definition HasSuffix (s suffix : bytes) : bool :=
  (zlen suffix <=? zlen s) && bool_decide (drop (length s - length suffix) s = suffix).

(** [truth == false] inverts the predicate. *)
Definition indexFunc (s : bytes) (f : Z → bool) (truth : bool) : go Z :=
  loop (S (length s)) (λ start,
    if start <? zlen s then
      r ← idx s start;
      '(r, wid) ← (if RuneSelf <=? r then q ← slice_from s start; Ret (DecodeRuneInString q) else Ret (r, 1));
      if Bool.eqb (f r) truth then Ret (inr start) else Ret (inl (start + wid))
    else Ret (inr (-1))) 0.

Definition lastIndexFunc (s : bytes) (f : Z → bool) (truth : bool) : go Z :=
  loop (S (length s)) (λ i,
    if 0 <? i then
      w ← slice_to s i;
      '(r, size) ← DecodeLastRuneInString w;
      let i := i - size in
      if Bool.eqb (f r) truth then Ret (inr i) else Ret (inl i)
    else Ret (inr (-1))) (zlen s).

Definition IndexFunc (s : bytes) (f : Z → bool) : go Z := indexFunc s f true.
Definition LastIndexFunc (s : bytes) (f : Z → bool) : go Z := lastIndexFunc s f true.

Example search_run :
  Index (str "chicken") (str "ken") = Ret 4 ∧ Index (str "chicken") (str "dmr") = Ret (-1) ∧
  LastIndex (str "go gopher go") (str "go") = Ret 10 ∧ Count (str "cheese") (str "ee") = Ret 1 ∧
  Count (str "aaaaa") (str "aa") = Ret 2 ∧ IndexAny (str "golang") (str "gy") = Ret 0 ∧
  LastIndexAny (str "golang") (str "gy") = Ret 5 ∧ IndexRune (str "chicken") 107 = Ret 4.
Proof. by vm_compute. Qed.

(** A negative rune is truncated to a byte: -159 is found where "a" stands. *)
Example IndexRune_negative : IndexRune (str "a") (-159) = Ret 0.
Proof. by vm_compute. Qed.

(** * Windows and their hashes *)

(** [s[i:i+n]]. *)
Definition sub (s : bytes) (i n : Z) : bytes := take (Z.to_nat n) (drop (Z.to_nat i) s).

Lemma slice_sub s i j : 0 <= i <= j → j <= zlen s → slice s i j = Ret (sub s i (j - i)).
Proof. intros. by rewrite slice_eq. Qed.

Lemma zlen_sub s i n : 0 <= i → 0 <= n → i + n <= zlen s → zlen (sub s i n) = n.
Proof. intros. unfold sub. rewrite zlen_take; [done|]. rewrite zlen_drop; lia. Qed.

Lemma nthZ_sub s i n j : 0 <= i → 0 <= j < n → (sub s i n).[j] = s.[i + j].
Proof.
  intros Hi Hj. unfold sub. rewrite nthZ_take, decide_True by lia. rewrite nthZ_drop, decide_True by lia.
  f_equal. lia.
Qed.

Lemma sub_cons s i n a : 0 <= i → 0 < n → s.[i] = Some a → sub s i n = a :: sub s (i + 1) (n - 1).
Proof.
  intros Hi Hn Ha. unfold sub. unfold nthZ in Ha. rewrite decide_True in Ha by lia.
  rewrite (drop_S _ _ _ Ha). replace (Z.to_nat n) with (S (Z.to_nat (n - 1))) by lia. simpl.
  do 2 f_equal. f_equal. lia.
Qed.

Lemma sub_snoc s i n b : 0 <= i → 0 <= n → s.[i + n] = Some b → sub s i (n + 1) = sub s i n ++ [b].
Proof.
  intros Hi Hn Hb. unfold sub. replace (Z.to_nat (n + 1)) with (S (Z.to_nat n)) by lia.
  apply take_S_r. rewrite lookup_nthZ, nthZ_drop, decide_True by lia. rewrite <- Hb. f_equal. lia.
Qed.

Lemma sub_full s : sub s 0 (zlen s) = s.
Proof. unfold sub. rewrite drop_0. apply take_ge. unfold zlen. lia. Qed.

(** The polynomial of a window, and its value on 32 bits. *)
Definition poly (l : bytes) : Z := fold_left (λ h c, h * primeRK + c) l 0.

Lemma poly_snoc l b : poly (l ++ [b]) = poly l * primeRK + b.
Proof. unfold poly. by rewrite fold_left_app. Qed.

Lemma poly_cons a l : poly (a :: l) = a * primeRK ^ zlen l + poly l.
Proof.
  revert a. induction l as [|b l IH] using rev_ind; intros a; [unfold poly; simpl; change (zlen []) with 0; ring|].
  rewrite app_comm_cons, !poly_snoc, IH, zlen_app, zlen_one, Z.pow_add_r, Z.pow_1_r; [lia|apply zlen_nonneg|lia].
Qed.

Definition hash_step (h c : Z) : Z := u32 (u32 (h * primeRK) + c).

Lemma u32_add x y : u32 (u32 x + y) = u32 (x + y).
Proof. unfold wrap. apply Zplus_mod_idemp_l. Qed.
Lemma u32_mul x y : u32 (u32 x * y) = u32 (x * y).
Proof. unfold wrap. apply Zmult_mod_idemp_l. Qed.
Lemma u32_mul_r x y : u32 (x * u32 y) = u32 (x * y).
Proof. unfold wrap. apply Zmult_mod_idemp_r. Qed.
Lemma u32_sub x y : u32 (u32 x - u32 y) = u32 (x - y).
Proof. unfold wrap. by rewrite Zminus_mod_idemp_l, Zminus_mod_idemp_r. Qed.

Lemma hash_fold l : fold_left hash_step l 0 = u32 (poly l).
Proof.
  induction l as [|b l IH] using rev_ind; [done|]. rewrite fold_left_app, poly_snoc, IH. simpl. unfold hash_step.
  by rewrite u32_mul, u32_add.
Qed.

Lemma hash_for_up s n :
  0 <= n <= zlen s →
  for_up 0 n (λ i h, c ← idx s i; Ret (u32 (u32 (h * primeRK) + c))) 0 = Ret (u32 (poly (sub s 0 n))).
Proof.
  intros Hn. match goal with |- ?m = Ret ?r => assert (m ⇓ λ r', r' = r) as H; [|by apply wp_ex in H as (? & -> & ->)] end.
  apply wp_for_up with (I := λ i h, h = u32 (poly (sub s 0 i))).
  - intros i h Hi ->. apply wp_bind, wp_idx; [lia|]. intros c Hc. simpl.
    rewrite (sub_snoc s 0 i c) by (try done; lia). by rewrite poly_snoc, u32_mul, u32_add.
  - done.
  - intros h ->. by rewrite Z.max_r by lia.
Qed.

Lemma hash_for_down s n :
  0 <= n <= zlen s →
  for_down (zlen s - 1) (zlen s - n) (λ i h, c ← idx s i; Ret (u32 (u32 (h * primeRK) + c))) 0
  = Ret (u32 (poly (rev (sub s (zlen s - n) n)))).
Proof.
  intros Hn. match goal with |- ?m = Ret ?r => assert (m ⇓ λ r', r' = r) as H; [|by apply wp_ex in H as (? & -> & ->)] end.
  apply wp_for_down with (I := λ i h, h = u32 (poly (rev (sub s (i + 1) (zlen s - 1 - i))))).
  - intros i h Hi ->. apply wp_bind, wp_idx; [lia|]. intros c Hc. simpl.
    replace (i - 1 + 1) with i by lia. rewrite (sub_cons s i _ c) by (try done; lia). simpl.
    replace (zlen s - 1 - (i - 1) - 1) with (zlen s - 1 - i) by lia. by rewrite poly_snoc, u32_mul, u32_add.
  - replace (zlen s - 1 + 1) with (zlen s) by lia. by rewrite Z.sub_diag.
  - intros h ->. rewrite Z.min_r by lia. by replace (zlen s - n - 1 + 1) with (zlen s - n) by lia;
      replace (zlen s - 1 - (zlen s - n - 1)) with n by lia.
Qed.

Lemma pow_loop_spec n : 0 <= n → pow_loop n = Ret (u32 (primeRK ^ n)).
Proof.
  intros Hn. match goal with |- ?m = Ret ?r => assert (m ⇓ λ r', r' = r) as H; [|by apply wp_ex in H as (? & -> & ->)] end.
  unfold pow_loop. eapply wp_bind_mono.
  { apply wp_while with (I := λ '(i, pow, sq), 0 <= i <= n ∧ u32 (pow * sq ^ i) = u32 (primeRK ^ n) ∧ u32 pow = pow)
     (meas := λ '(i, _, _), i) (Q := λ '(_, pow, _), pow = u32 (primeRK ^ n)).
    - intros [[i pow] sq] (Hi & Hp & Hw). simpl. destruct (Z.ltb_spec 0 i).
      + simpl. rewrite Z.shiftr_div_pow2 by lia. change (2 ^ 1) with 2.
        split; [|lia_div]. split; [lia_div|].
        assert (u32 (sq * sq) ^ (i / 2) mod 2 ^ 32 = sq ^ (2 * (i / 2)) mod 2 ^ 32) as Hsq.
        { unfold wrap. rewrite Z.mod_pow_l. f_equal. rewrite Z.pow_mul_r by lia_div. f_equal. by rewrite Z.pow_2_r. }
        assert (Z.land i 1 = i mod 2) as -> by exact (land_mask i 1 ltac:(done)).
        destruct (Z.eqb_spec (i mod 2) 0) as [E|E]; simpl.
        * split; [|done]. rewrite <- Hp. unfold wrap at 1. rewrite <- Zmult_mod_idemp_r, Hsq, Zmult_mod_idemp_r.
          unfold wrap. do 3 f_equal. lia_div.
        * split; [|unfold wrap; by rewrite Zmod_mod]. rewrite u32_mul, <- Hp. unfold wrap at 1.
          rewrite <- Zmult_mod_idemp_r, Hsq, Zmult_mod_idemp_r. unfold wrap. f_equal.
          rewrite <- Z.mul_assoc. f_equal. rewrite <- Z.pow_succ_r by lia_div. f_equal. lia_div.
      + assert (i = 0) as -> by lia. rewrite Z.pow_0_r, Z.mul_1_r in Hp. congruence.
    - split; [lia|]. by rewrite Z.mul_1_l.
    - lia. }
  intros [[i pow] sq] ->. done.
Qed.

Lemma hashStr_spec sep : hashStr sep = Ret (u32 (poly sep), u32 (primeRK ^ zlen sep)).
Proof.
  unfold hashStr. pose proof (zlen_nonneg sep). rewrite hash_for_up, go_bind_ret, pow_loop_spec by lia.
  by rewrite sub_full.
Qed.

Lemma hashStrRev_spec sep : hashStrRev sep = Ret (u32 (poly (rev sep)), u32 (primeRK ^ zlen sep)).
Proof.
  unfold hashStrRev. pose proof (zlen_nonneg sep). replace 0 with (zlen sep - zlen sep) at 1 by lia.
  rewrite hash_for_down, go_bind_ret, pow_loop_spec by lia. by rewrite Z.sub_diag, sub_full.
Qed.

(** Dropping the first character and adding one at the end. *)
Lemma roll_spec a w b :
  roll (u32 (primeRK ^ (zlen w + 1))) (u32 (poly (a :: w))) b a = u32 (poly (w ++ [b])).
Proof.
  unfold roll. rewrite u32_mul, u32_add, u32_mul, u32_sub, poly_cons, poly_snoc.
  rewrite Z.pow_add_r, Z.pow_1_r by (pose proof (zlen_nonneg w); lia). f_equal. lia.
Qed.

(** Comparing the hash first changes nothing. *)
Lemma hash_test w sep : (u32 (poly w) =? u32 (poly sep)) && bool_decide (w = sep) = bool_decide (w = sep).
Proof. case_bool_decide as H; [by rewrite H, Z.eqb_refl|apply andb_false_r]. Qed.
Lemma hash_test_rev w sep : (u32 (poly (rev w)) =? u32 (poly (rev sep))) && bool_decide (w = sep) = bool_decide (w = sep).
Proof. case_bool_decide as H; [by rewrite H, Z.eqb_refl|apply andb_false_r]. Qed.

(** * Occurrences *)

Definition occurs (s sep : bytes) (i : Z) : Prop :=
  0 <= i ∧ i + zlen sep <= zlen s ∧ sub s i (zlen sep) = sep.

Lemma roll_window s i n :
  0 <= i → 0 < n → i + n < zlen s →
  ∃ a b w, s.[i] = Some a ∧ s.[i + n] = Some b ∧ sub s i n = a :: w ∧ sub s (i + 1) n = w ++ [b] ∧ zlen w + 1 = n.
Proof.
  intros Hi Hn Hs. destruct (nthZ_is_Some s i) as [a Ha]; [lia|]. destruct (nthZ_is_Some s (i + n)) as [b Hb]; [lia|].
  exists a, b, (sub s (i + 1) (n - 1)). split; [done|]. split; [done|]. split; [by apply sub_cons|]. split.
  - replace n with (n - 1 + 1) at 1 by lia. apply sub_snoc; [lia..|]. rewrite <- Hb. f_equal. lia.
  - rewrite zlen_sub; lia.
Qed.

Lemma sub_one s i : sub s i 1 = match s.[i] with Some x => if decide (0 <= i) then [x] else sub s i 1 | None => sub s i 1 end.
Proof.
  destruct (s.[i]) as [x|] eqn:E; [|done]. pose proof (nthZ_Some _ _ _ E). rewrite decide_True by lia.
  by rewrite (sub_cons s i 1 x) by (try done; lia).
Qed.

Lemma occurs_byte s c i : occurs s [c] i ↔ s.[i] = Some c.
Proof.
  unfold occurs. change (zlen [c]) with 1. split.
  - intros (Hi & Hl & E). destruct (nthZ_is_Some s i) as [x Hx]; [lia|].
    rewrite (sub_cons s i 1 x) in E by (try done; lia). congruence.
  - intros Hc. pose proof (nthZ_Some _ _ _ Hc). split; [lia|]. split; [lia|]. by rewrite (sub_cons s i 1 c) by (try done; lia).
Qed.

Lemma occurs_whole s sep i : zlen sep = zlen s → occurs s sep i ↔ i = 0 ∧ sep = s.
Proof.
  intros Hl. unfold occurs. split.
  - intros (Hi & Hs & E). assert (i = 0) as -> by lia. split; [done|]. rewrite <- E. rewrite Hl. apply sub_full.
  - intros [-> ->]. split; [done|]. split; [lia|]. apply sub_full.
Qed.

Lemma occurs_long s sep i : zlen s < zlen sep → ¬ occurs s sep i.
Proof. intros Hl (? & ? & _). lia. Qed.

(** [r] is the least offset at which [P] holds, -1 if none; or the greatest. *)
Definition least (P : Z → Prop) (r : Z) : Prop :=
  r = -1 ∧ (∀ i, ¬ P i) ∨ P r ∧ ∀ i, i < r → ¬ P i.
Definition greatest (P : Z → Prop) (r : Z) : Prop :=
  r = -1 ∧ (∀ i, ¬ P i) ∨ P r ∧ ∀ i, r < i → ¬ P i.

Lemma IndexByte_spec s c : IndexByte s c ⇓ least (λ i, s.[i] = Some c).
Proof.
  unfold IndexByte. apply wp_loop with (I := λ i, 0 <= i <= zlen s ∧ ∀ j, j < i → s.[j] ≠ Some c) (meas := λ i, zlen s - i).
  - intros i [Hi Hno]. destruct (Z.ltb_spec i (zlen s)).
    + apply wp_bind, wp_idx; [lia|]. intros b Hb. destruct (Z.eqb_spec b c) as [->|]; simpl; [by right|].
      split; [|lia]. split; [lia|]. intros j Hj. destruct (decide (j = i)) as [->|]; [congruence|apply Hno; lia].
    + simpl. left. split; [done|]. intros j Hj. apply (Hno j); [|done]. apply nthZ_Some in Hj. lia.
  - split; [pose proof (zlen_nonneg s); lia|]. intros j Hj Hc%nthZ_Some. lia.
  - unfold zlen. lia.
Qed.

Lemma last_byte_spec s c : last_byte s c ⇓ greatest (λ i, s.[i] = Some c).
Proof.
  unfold last_byte. apply wp_loop with (I := λ i, -1 <= i < zlen s ∧ ∀ j, i < j → s.[j] ≠ Some c) (meas := λ i, i + 1).
  - intros i [Hi Hno]. destruct (Z.leb_spec 0 i).
    + apply wp_bind, wp_idx; [lia|]. intros b Hb. destruct (Z.eqb_spec b c) as [->|]; simpl; [by right|].
      split; [|lia]. split; [lia|]. intros j Hj. destruct (decide (j = i)) as [->|]; [congruence|apply Hno; lia].
    + simpl. left. split; [done|]. intros j Hj. apply (Hno j); [|done]. apply nthZ_Some in Hj. lia.
  - split; [pose proof (zlen_nonneg s); lia|]. intros j Hj Hc%nthZ_Some. lia.
  - unfold zlen. lia.
Qed.

Lemma least_iff P Q r : (∀ i, P i ↔ Q i) → least P r → least Q r.
Proof. intros H. unfold least. setoid_rewrite H. done. Qed.
Lemma greatest_iff P Q r : (∀ i, P i ↔ Q i) → greatest P r → greatest Q r.
Proof. intros H. unfold greatest. setoid_rewrite H. done. Qed.

Lemma one_byte (sep : bytes) : zlen sep = 1 → ∃ c, sep = [c].
Proof. destruct sep as [|c [|d sep]]; [done|by exists c|]. rewrite !zlen_cons. pose proof (zlen_nonneg sep). lia. Qed.

Lemma Index_spec s sep : sep ≠ [] → Index s sep ⇓ least (occurs s sep).
Proof.
  intros Hne. pose proof (zlen_nonneg sep). assert (zlen sep ≠ 0) by (by intros ?%zlen_nil_inv).
  unfold Index. cbv zeta. rewrite (proj2 (Z.eqb_neq (zlen sep) 0)) by done.
  destruct (Z.eqb_spec (zlen sep) 1) as [Hone|].
  { apply one_byte in Hone as [c ->]. simpl. eapply wp_mono; [apply IndexByte_spec|].
    intros r. apply least_iff. intros i. by rewrite occurs_byte. }
  destruct (Z.eqb_spec (zlen sep) (zlen s)) as [Hw|].
  { case_decide as E; simpl.
    - right. rewrite occurs_whole by done. split; [done|]. intros i Hi [-> _]%occurs_whole; [lia|done].
    - left. split; [done|]. by intros i [_ ?]%occurs_whole. }
  destruct (Z.ltb_spec (zlen s) (zlen sep)).
  { simpl. left. split; [done|]. intros i. by apply occurs_long. }
  rewrite hashStr_spec, go_bind_ret, hash_for_up, go_bind_ret by lia.
  rewrite slice_to_eq, go_bind_ret by lia. fold (sub s 0 (zlen sep)).
  change (take (Z.to_nat (zlen sep)) s) with (sub s 0 (zlen sep)). rewrite hash_test.
  case_bool_decide as E.
  { right. split; [split; [done|split; [lia|done]]|]. intros i Hi (? & _). lia. }
  apply wp_loop with (I := λ '(i, h), zlen sep <= i <= zlen s ∧ h = u32 (poly (sub s (i - zlen sep) (zlen sep))) ∧
      ∀ j, j <= i - zlen sep → ¬ occurs s sep j) (meas := λ '(i, _), zlen s - i).
  - intros [i h] (Hi & -> & Hno). destruct (Z.ltb_spec i (zlen s)).
    + destruct (roll_window s (i - zlen sep) (zlen sep)) as (a & b & w & Ha & Hb & E1 & E2 & Hw); [lia..|].
      replace (i - zlen sep + zlen sep) with i in Hb by lia.
      rewrite (idx_Some _ _ _ Hb), go_bind_ret, (idx_Some _ _ _ Ha), go_bind_ret. cbv zeta.
      rewrite slice_sub, go_bind_ret by lia. replace (i + 1 - (i + 1 - zlen sep)) with (zlen sep) by lia.
      replace (i + 1 - zlen sep) with (i - zlen sep + 1) by lia.
      rewrite E1, <- Hw, roll_spec, Hw, <- E2, hash_test.
      case_bool_decide as E'; simpl.
      * right. split; [split; [lia|split; [lia|done]]|]. intros j Hj. apply Hno. lia.
      * split; [|lia]. split; [lia|]. split; [do 3 f_equal; lia|].
        intros j Hj (? & ? & Ej). destruct (decide (j = i - zlen sep + 1)) as [->|]; [done|]. apply (Hno j); [lia|done].
    + simpl. left. split; [done|]. intros j (? & ? & Ej). apply (Hno j); [lia|done].
  - split; [lia|]. split; [by rewrite Z.sub_diag|]. intros j Hj (? & ? & Ej). assert (j = 0) as -> by lia. done.
  - unfold zlen in *. lia.
Qed.

Lemma zlen_rev (l : bytes) : zlen (rev l) = zlen l.
Proof. unfold zlen. by rewrite length_rev. Qed.

Lemma LastIndex_spec s sep : sep ≠ [] → LastIndex s sep ⇓ greatest (occurs s sep).
Proof.
  intros Hne. pose proof (zlen_nonneg sep). assert (zlen sep ≠ 0) by (by intros ?%zlen_nil_inv).
  unfold LastIndex. cbv zeta. rewrite (proj2 (Z.eqb_neq (zlen sep) 0)) by done.
  destruct (Z.eqb_spec (zlen sep) 1) as [Hone|].
  { apply one_byte in Hone as [c ->]. simpl. eapply wp_mono; [apply last_byte_spec|].
    intros r. apply greatest_iff. intros i. by rewrite occurs_byte. }
  destruct (Z.eqb_spec (zlen sep) (zlen s)) as [Hw|].
  { case_decide as E; simpl.
    - right. rewrite occurs_whole by done. split; [done|]. intros i Hi [-> _]%occurs_whole; [lia|done].
    - left. split; [done|]. by intros i [_ ?]%occurs_whole. }
  destruct (Z.ltb_spec (zlen s) (zlen sep)).
  { simpl. left. split; [done|]. intros i. by apply occurs_long. }
  rewrite hashStrRev_spec, go_bind_ret, hash_for_down, go_bind_ret by lia.
  rewrite slice_from_eq, go_bind_ret by lia.
  assert (drop (Z.to_nat (zlen s - zlen sep)) s = sub s (zlen s - zlen sep) (zlen sep)) as ->.
  { unfold sub. rewrite take_ge; [done|]. rewrite length_drop. unfold zlen. lia. }
  rewrite hash_test_rev.
  case_bool_decide as E.
  { right. split; [split; [lia|split; [lia|done]]|]. intros i Hi (? & ? & _). lia. }
  apply wp_loop with (I := λ '(i, h), -1 <= i < zlen s - zlen sep ∧ h = u32 (poly (rev (sub s (i + 1) (zlen sep)))) ∧
      ∀ j, i < j → ¬ occurs s sep j) (meas := λ '(i, _), i + 1).
  - intros [i h] (Hi & -> & Hno). destruct (Z.leb_spec 0 i).
    + destruct (roll_window s i (zlen sep)) as (a & b & w & Ha & Hb & E1 & E2 & Hw); [lia..|].
      rewrite (idx_Some _ _ _ Ha), go_bind_ret, (idx_Some _ _ _ Hb), go_bind_ret. cbv zeta.
      rewrite slice_sub, go_bind_ret by lia. replace (i + zlen sep - i) with (zlen sep) by lia.
      rewrite E2, rev_app_distr. simpl (rev [b] ++ rev w).
      assert (rev w ++ [a] = rev (sub s i (zlen sep))) as Er by (by rewrite E1).
      rewrite <- Hw, <- (zlen_rev w), roll_spec, Er, (zlen_rev w), Hw, hash_test_rev.
      case_bool_decide as E'; simpl.
      * right. split; [split; [lia|split; [lia|done]]|]. done.
      * split; [|lia]. split; [lia|]. split; [do 4 f_equal; lia|].
        intros j Hj (? & ? & Ej). destruct (decide (j = i)) as [->|]; [done|]. apply (Hno j); [lia|done].
    + simpl. left. split; [done|]. intros j (? & ? & Ej). apply (Hno j); [lia|done].
  - split; [lia|]. split; [do 4 f_equal; lia|]. intros j Hj (? & ? & Ej).
    assert (j = zlen s - zlen sep) as -> by lia. done.
  - unfold zlen in *. lia.
Qed.

(** * Splitting at the occurrences from the left *)

(** [ps] are the pieces of [s] between the successive first occurrences of [sep]. *)
Inductive pieces (sep : bytes) : bytes → list bytes → Prop :=
  | pieces_last s : (∀ i, ¬ occurs s sep i) → pieces sep s [s]
  | pieces_more s i ps :
      occurs s sep i → (∀ j, j < i → ¬ occurs s sep j) →
      pieces sep (drop (Z.to_nat (i + zlen sep)) s) ps → pieces sep s (sub s 0 i :: ps).

Lemma sub_drop s L i n : 0 <= L → 0 <= i → sub (drop (Z.to_nat L) s) i n = sub s (L + i) n.
Proof. intros. unfold sub. rewrite drop_drop. do 2 f_equal. lia. Qed.

Lemma occurs_drop s sep L i : 0 <= L <= zlen s → 0 <= i →
  occurs (drop (Z.to_nat L) s) sep i ↔ occurs s sep (L + i).
Proof.
  intros HL Hi. unfold occurs. rewrite zlen_drop, sub_drop by lia. split; intros (? & ? & ?); (split; [lia|split; [lia|done]]).
Qed.

(** The first matches found so far: [found] are the pieces up to [L]. *)
Definition splitting sep s L found : Prop :=
  0 <= L <= zlen s ∧ ∀ ps, pieces sep (drop (Z.to_nat L) s) ps → pieces sep s (found ++ ps).

Lemma splitting_start sep s : splitting sep s 0 [].
Proof. split; [pose proof (zlen_nonneg s); lia|]. intros ps. by rewrite drop_0. Qed.

Lemma splitting_step sep s L k found :
  splitting sep s L found → occurs s sep k → L <= k → (∀ j, L <= j < k → ¬ occurs s sep j) →
  splitting sep s (k + zlen sep) (found ++ [sub s L (k - L)]).
Proof.
  intros [HL Hf] Hk Hle Hno. destruct Hk as (Hk0 & Hk1 & Hk2). pose proof (zlen_nonneg sep). split; [lia|].
  intros ps Hps. rewrite <- app_assoc. apply Hf. simpl.
  replace (sub s L (k - L)) with (sub (drop (Z.to_nat L) s) 0 (k - L)) by (rewrite sub_drop by lia; f_equal; lia).
  apply pieces_more.
  - apply occurs_drop; [lia..|]. replace (L + (k - L)) with k by lia. done.
  - intros j Hj Hocc. pose proof (proj1 Hocc). apply occurs_drop in Hocc; [|lia..]. apply (Hno (L + j)); [lia|done].
  - rewrite drop_drop. replace (Z.to_nat L + Z.to_nat (k - L + zlen sep))%nat with (Z.to_nat (k + zlen sep)) by lia. done.
Qed.

Lemma splitting_end sep s L found :
  splitting sep s L found → (∀ j, L <= j → ¬ occurs s sep j) → pieces sep s (found ++ [drop (Z.to_nat L) s]).
Proof.
  intros [HL Hf] Hno. apply Hf, pieces_last. intros i Hi. pose proof (proj1 Hi).
  apply occurs_drop in Hi; [|lia..]. apply (Hno (L + i)); [lia|done].
Qed.

Lemma Count_spec s sep :
  sep ≠ [] → Count s sep ⇓ λ n, ∃ ps, pieces sep s ps ∧ n + 1 = zlen ps.
Proof.
  intros Hne. pose proof (zlen_nonneg sep). assert (zlen sep ≠ 0) by (by intros ?%zlen_nil_inv).
  assert (∀ L found n, splitting sep s L found → n = zlen found → (∀ j, L <= j → ¬ occurs s sep j) →
    ∃ ps, pieces sep s ps ∧ n + 1 = zlen ps) as Hend.
  { intros L found n Hs -> Hno. exists (found ++ [drop (Z.to_nat L) s]). split; [by apply splitting_end|].
    by rewrite zlen_app, zlen_one. }
  unfold Count. rewrite (proj2 (Z.eqb_neq (zlen sep) 0)) by done.
  destruct (Z.eqb_spec (zlen sep) 1) as [Hone|].
  { apply one_byte in Hone as [c ->]. simpl.
    apply wp_for_up with (I := λ i n, ∃ L found, splitting [c] s L found ∧ n = zlen found ∧ L <= i ∧
      ∀ j, L <= j < i → ¬ occurs s [c] j).
    - intros i n Hi (L & found & Hs & -> & HL & Hno). apply wp_bind, wp_idx; [lia|]. intros b Hb. simpl.
      destruct (Z.eqb_spec b c) as [->|Hbc].
      + exists (i + 1), (found ++ [sub s L (i - L)]). split; [|rewrite zlen_app, zlen_one; split; [done|split; [lia|intros j Hj; lia]]].
        apply (splitting_step [c] s L i); [done|by apply occurs_byte|done|done].
      + exists L, found. split; [done|]. split; [done|]. split; [lia|]. intros j Hj.
        destruct (decide (j = i)) as [->|]; [rewrite occurs_byte; congruence|apply Hno; lia].
    - exists 0, []. split; [apply splitting_start|]. split; [done|]. split; [done|]. intros j Hj. lia.
    - intros n (L & found & Hs & -> & HL & Hno). eapply Hend; [done|done|]. intros j Hj Hocc.
      apply (Hno j); [|done]. pose proof Hocc as (? & Hj' & _). change (zlen [c]) with 1 in Hj'. lia. }
  destruct (Z.ltb_spec (zlen s) (zlen sep)).
  { simpl. apply (Hend 0 [] 0 (splitting_start _ _)); [done|]. intros i _. by apply occurs_long. }
  destruct (Z.eqb_spec (zlen sep) (zlen s)) as [Hw|].
  { case_decide as E; simpl.
    - apply (Hend (0 + zlen sep) ([] ++ [sub s 0 (0 - 0)]) 1); [|done|].
      + apply splitting_step; [apply splitting_start|by apply occurs_whole|done|intros j Hj; lia].
      + intros i Hi [-> _]%occurs_whole; [lia|done].
    - apply (Hend 0 [] 0 (splitting_start _ _)); [done|]. by intros i _ [_ ?]%occurs_whole. }
  rewrite hashStr_spec, go_bind_ret, hash_for_up, go_bind_ret by lia.
  rewrite slice_to_eq, go_bind_ret by lia.
  change (take (Z.to_nat (zlen sep)) s) with (sub s 0 (zlen sep)). rewrite hash_test.
  set (init := if bool_decide _ then (1, zlen sep) else (0, 0)).
  assert (∃ found, let '(n, L) := init in splitting sep s L found ∧ n = zlen found ∧ 
    ∀ j, L <= j <= 0 → ¬ occurs s sep j) as (found0 & Hinit).
  { subst init. case_bool_decide as E.
    - exists ([] ++ [sub s 0 (0 - 0)]). split; [|split; [done|intros j Hj; lia]].
      apply (splitting_step sep s 0 0); [apply splitting_start|split; [done|split; [lia|done]]|done|intros j Hj; lia].
    - exists []. split; [apply splitting_start|]. split; [done|]. intros j Hj (_ & _ & Ej). by assert (j = 0) as -> by lia. }
  destruct init as [nn L0]. destruct Hinit as (Hs0 & Hn0 & Hno0).
  apply wp_loop with (I := λ '(i, h, n, L), ∃ found, splitting sep s L found ∧ n = zlen found ∧
      zlen sep <= i <= zlen s ∧ h = u32 (poly (sub s (i - zlen sep) (zlen sep))) ∧
      ∀ j, L <= j <= i - zlen sep → ¬ occurs s sep j) (meas := λ '(i, _, _, _), zlen s - i).
  - intros [[[i h] cnt] L] (found & Hs & -> & Hi & -> & Hno). destruct (Z.ltb_spec i (zlen s)).
    + destruct (roll_window s (i - zlen sep) (zlen sep)) as (a & b & w & Ha & Hb & E1 & E2 & Hw); [lia..|].
      replace (i - zlen sep + zlen sep) with i in Hb by lia.
      rewrite (idx_Some _ _ _ Hb), go_bind_ret, (idx_Some _ _ _ Ha), go_bind_ret. cbv zeta.
      rewrite slice_sub, go_bind_ret by lia. replace (i + 1 - (i + 1 - zlen sep)) with (zlen sep) by lia.
      replace (i + 1 - zlen sep) with (i - zlen sep + 1) by lia.
      rewrite E1, <- Hw, roll_spec, Hw, <- E2. set (k := i - zlen sep + 1) in *.
      rewrite <- andb_assoc, (andb_comm (L <=? k)), andb_assoc, hash_test.
      assert (sub s (i + 1 - zlen sep) (zlen sep) = sub s k (zlen sep)) as Ek by (f_equal; lia).
      destruct (bool_decide (sub s k (zlen sep) = sep) && (L <=? k)) eqn:E; simpl; (split; [|lia]).
      * apply andb_true_iff in E as [E%bool_decide_eq_true HLk]. apply Z.leb_le in HLk.
        exists (found ++ [sub s L (k - L)]). rewrite Ek. split.
        { replace (i + 1) with (k + zlen sep) by lia. apply splitting_step; [done|split; [lia|split; [lia|done]]|done|].
          intros j Hj. apply Hno. lia. }
        rewrite zlen_app, zlen_one. split; [done|]. split; [lia|]. split; [done|]. intros j Hj. lia.
      * exists found. rewrite Ek. split; [done|]. split; [done|]. split; [lia|]. split; [done|].
        intros j Hj Hocc. destruct (decide (j = k)) as [->|]; [|apply (Hno j); [lia|done]].
        destruct Hocc as (_ & _ & Ej). rewrite bool_decide_true in E by done. simpl in E. lia.
    + simpl. eapply Hend; [done|done|]. intros j Hj Hocc. apply (Hno j); [|done]. destruct Hocc as (? & ? & _). lia.
  - exists found0. split; [done|]. split; [done|]. split; [lia|]. split; [by rewrite Z.sub_diag|].
    intros j Hj. apply Hno0. lia.
  - unfold zlen in *. lia.
Qed.

(** * Properties *)

(** C18: [Index] and [LastIndex] (Rabin-Karp, with 32-bit rolling hashes) return,
    and give the first and the last offset at which a non-empty separator occurs,
    -1 where it does not; the empty one is found at the ends. *)
Theorem Index_LastIndex s sep :
  (∃ i j, Index s sep = Ret i ∧ LastIndex s sep = Ret j ∧
    (sep ≠ [] → least (occurs s sep) i ∧ greatest (occurs s sep) j) ∧ (sep = [] → i = 0 ∧ j = zlen s)) ∧
  (∃ b, Contains s sep = Ret b ∧ (b = true ↔ ∃ i, occurs s sep i)).
Proof.
  destruct (decide (sep = [])) as [->|Hne].
  - split; [by exists 0, (zlen s)|]. exists true. split; [done|]. split; [|done]. intros _. exists 0.
    pose proof (zlen_nonneg s). split; [done|]. split; [change (zlen []) with 0; lia|done].
  - destruct (proj1 (wp_ex _ _) (Index_spec s sep Hne)) as (i & Ei & Hi).
    destruct (proj1 (wp_ex _ _) (LastIndex_spec s sep Hne)) as (j & Ej & Hj). split; [by exists i, j|].
    exists (0 <=? i). unfold Contains. rewrite Ei. split; [done|]. rewrite Z.leb_le.
    destruct Hi as [[-> Hno]|[Hocc _]]; split; intros H; try lia.
    + destruct H as [k Hk]. by destruct (Hno k).
    + by exists i.
    + apply Hocc.
Qed.

Example Index_LastIndex_witness :
  str "ab" ≠ [] ∧ ∃ i j, Index (str "xabab") (str "ab") = Ret i ∧ LastIndex (str "xabab") (str "ab") = Ret j ∧
    least (occurs (str "xabab") (str "ab")) i ∧ greatest (occurs (str "xabab") (str "ab")) j.
Proof.
  split; [done|]. destruct (Index_LastIndex (str "xabab") (str "ab")) as [(i & j & Hi & Hj & H & _) _].
  exists i, j. split; [exact Hi|]. split; [exact Hj|]. by apply H.
Defined.

(** [Count] returns the number of non-overlapping occurrences of a non-empty
    separator, found from the left: one less than the pieces they leave. *)
Theorem Count_pieces s sep :
  sep ≠ [] → ∃ n ps, Count s sep = Ret n ∧ pieces sep s ps ∧ n + 1 = zlen ps.
Proof.
  intros Hne. destruct (proj1 (wp_ex _ _) (Count_spec s sep Hne)) as (n & E & ps & ? & ?). by exists n, ps.
Qed.

Example Count_pieces_witness :
  ∃ n ps, Count (str "aaaaa") (str "aa") = Ret n ∧ pieces (str "aa") (str "aaaaa") ps ∧ n + 1 = zlen ps.
Proof. apply (Count_pieces (str "aaaaa") (str "aa")). discriminate. Defined.
