(* ===== verification/StringsOps.v ===== *)
(** Package [strings], the functions of [src/src/strings/strings.go] that build
    strings: splitting, joining, replacing, repeating, mapping and trimming. *)
From S2P Require Import Prelude.
From S2P Require Import Utf8.
From S2P Require Import StringsSearch.

Section operations.
Context {W : Host}.
Abbreviation int := (swrap int_bits) (only parsing).

Definition explode (s : bytes) (n : Z) : go (list bytes) :=
  if n =? 0 then Ret [] else
  l ← RuneCountInString s;
  let n := if (n <=? 0) || (l <? n) then l else n in
  a ← makeslice string_size [] n;
  '(a, i, cur) ← while (S (Z.to_nat n))
    (λ '(_, i, _), Ret (i + 1 <? n))
    (λ '(a, i, cur),
      q ← slice_from s cur;
      let '(ch, size) := DecodeRuneInString q in
      x ← (if ch =? RuneError then Ret (enc RuneError) else slice s cur (cur + size));
      a ← upd a i x;
      Ret (a, i + 1, cur + size)) (a, 0, 0);
  if cur <? zlen s then q ← slice_from s cur; upd a i q else Ret a.

(** Whether [sep] stands at offset [i]: the first byte, then the rest of it. *)
Definition match_at (s sep : bytes) (c i : Z) : go bool :=
  b ← idx s i;
  if b =? c then
    if zlen sep =? 1 then Ret true else w ← slice s i (i + zlen sep); Ret (bool_decide (w = sep))
  else Ret false.

Definition genSplit (s sep : bytes) (sepSave n : Z) : go (list bytes) :=
  if n =? 0 then Ret []
  else if decide (sep = []) then explode s n
  else
    n ← (if n <? 0 then k ← Count s sep; Ret (k + 1) else Ret n);
    c ← idx sep 0;
    a ← makeslice string_size [] n;
    '(a, na, start, _) ← while (S (length s))
      (λ '(_, na, _, i), Ret ((int (i + zlen sep) <=? zlen s) && (na + 1 <? n)))
      (λ '(a, na, start, i),
        m ← match_at s sep c i;
        if (m : bool) then
          x ← slice s start (i + sepSave);
          a ← upd a na x;
          Ret (a, na + 1, i + zlen sep, i + (zlen sep - 1) + 1)
        else Ret (a, na, start, i + 1)) (a, 0, 0, 0);
    x ← slice_from s start;
    a ← upd a na x;
    slice a 0 (na + 1).

Definition SplitN (s sep : bytes) (n : Z) : go (list bytes) := genSplit s sep 0 n.
Definition SplitAfterN (s sep : bytes) (n : Z) : go (list bytes) := genSplit s sep (zlen sep) n.
Definition Split (s sep : bytes) : go (list bytes) := genSplit s sep 0 (-1).
Definition SplitAfter (s sep : bytes) : go (list bytes) := genSplit s sep (zlen sep) (-1).

Definition Join (a : list bytes) (sep : bytes) : go bytes :=
  match a with
  | [] => Ret []
  | [x] => Ret x
  | x :: rest =>
    let n := fold_left (λ n y, int (n + zlen y)) a (int (zlen sep * (zlen a - 1))) in
    b ← makeslice 1 0 n;
    let '(b, bp) := copy b 0 x in
    '(b, bp) ← for_each rest (λ y '(b, bp),
      let '(b, k) := copy b bp sep in
      let bp := bp + k in
      let '(b, k) := copy b bp y in
      Ret (b, bp + k)) (b, bp);
    Ret b
  end.

(** The two passes of [FieldsFunc]: counting, then cutting. *)
Definition FieldsFunc (s : bytes) (f : Z → bool) : go (list bytes) :=
  rs ← range s;
  '(n, _) ← for_each rs (λ '(_, rune) '(n, inField),
    let wasInField := inField in
    let inField := negb (f rune) in
    Ret (if inField && negb wasInField then n + 1 else n, inField)) (0, false);
  a ← makeslice string_size [] n;
  '(a, na, fieldStart) ← for_each rs (λ '(i, rune) '(a, na, fieldStart),
    if f rune then
      if 0 <=? fieldStart then
        x ← slice s fieldStart i;
        a ← upd a na x;
        Ret (a, na + 1, -1)
      else Ret (a, na, fieldStart)
    else Ret (a, na, if fieldStart =? -1 then i else fieldStart)) (a, 0, -1);
  if 0 <=? fieldStart then x ← slice_from s fieldStart; upd a na x else Ret a.

(** [None] is the buffer that is not yet made. *)
Definition Map (mapping : Z → Z) (s : bytes) : go bytes :=
  rs ← range s;
  '(b, nbytes, _) ← for_each rs (λ '(i, c) '(b, nbytes, maxbytes),
    let r := mapping c in
    if decide (b = None ∧ r = c) then Ret (b, nbytes, maxbytes) else
    '(buf, nbytes) ← match b with
      | Some buf => Ret (buf, nbytes)
      | None => buf ← makeslice 1 0 maxbytes; p ← slice_to s i; Ret (copy buf 0 p)
      end;
    if 0 <=? r then
      let wid := if RuneSelf <=? r then RuneLen r else 1 in
      '(buf, maxbytes) ← (if maxbytes <? int (nbytes + wid) then
        let maxbytes := int (int (maxbytes * 2) + UTFMax) in
        nb ← makeslice 1 0 maxbytes;
        p ← slice buf 0 nbytes;
        Ret ((copy nb 0 p).1, maxbytes)
      else Ret (buf, maxbytes));
      tail ← slice buf nbytes maxbytes;
      '(tail, k) ← EncodeRune tail r;
      Ret (Some (copy buf nbytes tail).1, nbytes + k, maxbytes)
    else Ret (Some buf, nbytes, maxbytes)) (None, 0, zlen s);
  match b with
  | None => Ret s
  | Some buf => slice buf 0 nbytes
  end.

Definition Repeat (s : bytes) (count : Z) : go bytes :=
  b ← makeslice 1 0 (int (zlen s * count));
  let '(b, bp) := copy b 0 s in
  '(b, _) ← while (S (length b))
    (λ '(b, bp), Ret (bp <? zlen b))
    (λ '(b, bp), p ← slice_to b bp; Ret ((copy b bp p).1, int (bp * 2))) (b, bp);
  Ret b.

Definition TrimLeftFunc (s : bytes) (f : Z → bool) : go bytes :=
  i ← indexFunc s f false;
  if i =? -1 then Ret [] else slice_from s i.

Definition TrimRightFunc (s : bytes) (f : Z → bool) : go bytes :=
  i ← lastIndexFunc s f false;
  i ← (if 0 <=? i then
    b ← idx s i;
    if RuneSelf <=? b then
      q ← slice_from s i; let '(_, wid) := DecodeRuneInString q in Ret (i + wid)
    else Ret (i + 1)
  else Ret (i + 1));
  slice s 0 i.

Definition TrimFunc (s : bytes) (f : Z → bool) : go bytes :=
  t ← TrimLeftFunc s f; TrimRightFunc t f.

(** [IndexRune] always returns, so the predicate of a cutset is a function. *)
Definition makeCutsetFunc (cutset : bytes) (r : Z) : bool :=
  match IndexRune cutset r with Ret i => 0 <=? i | _ => false end.

Definition Trim (s cutset : bytes) : go bytes :=
  if decide (s = [] ∨ cutset = []) then Ret s else TrimFunc s (makeCutsetFunc cutset).
Definition TrimLeft (s cutset : bytes) : go bytes :=
  if decide (s = [] ∨ cutset = []) then Ret s else TrimLeftFunc s (makeCutsetFunc cutset).
Definition TrimRight (s cutset : bytes) : go bytes :=
  if decide (s = [] ∨ cutset = []) then Ret s else TrimRightFunc s (makeCutsetFunc cutset).

Definition TrimPrefix (s prefix : bytes) : go bytes :=
  if HasPrefix s prefix then slice_from s (zlen prefix) else Ret s.
Definition TrimSuffix (s suffix : bytes) : go bytes :=
  if HasSuffix s suffix then slice_to s (zlen s - zlen suffix) else Ret s.

Definition Replace (s old new : bytes) (n : Z) : go bytes :=
  if decide (old = new ∨ n = 0) then Ret s else
  m ← Count s old;
  if m =? 0 then Ret s else
  let n := if (n <? 0) || (m <? n) then m else n in
  t ← makeslice 1 0 (int (zlen s + int (n * (zlen new - zlen old))));
  '(t, w, start) ← for_up 0 n (λ i '(t, w, start),
    let j := start in
    j ← (if zlen old =? 0 then
      if 0 <? i then q ← slice_from s start; let '(_, wid) := DecodeRuneInString q in Ret (j + wid)
      else Ret j
    else q ← slice_from s start; k ← Index q old; Ret (j + k));
    x ← slice s start j;
    let '(t, k) := copy t w x in
    let w := w + k in
    let '(t, k) := copy t w new in
    Ret (t, w + k, j + zlen old)) (t, 0, 0);
  q ← slice_from s start;
  let '(t, k) := copy t w q in
  slice t 0 (w + k).

End operations.

#[local] Existing Instance Int64.
Example ops_run :
  Split (str "a,b,c") (str ",") = Ret [str "a"; str "b"; str "c"] ∧
  Split (str "abc") [] = Ret [str "a"; str "b"; str "c"] ∧
  SplitAfterN (str "a,b,c") (str ",") 2 = Ret [str "a,"; str "b,c"] ∧
  Join [str "foo"; str "bar"; str "baz"] (str ", ") = Ret (str "foo, bar, baz") ∧
  Replace (str "oink oink oink") (str "k") (str "ky") 2 = Ret (str "oinky oinky oink") ∧
  Replace (str "ab") [] (str "-") (-1) = Ret (str "-a-b-") ∧
  Repeat (str "na") 3 = Ret (str "nanana") ∧
  Map (λ r, if r =? 97 then 8364 else if r =? 98 then -1 else r) (str "cab") = Ret (99 :: enc 8364) ∧
  FieldsFunc (str "  foo bar  baz   ") (λ r, r =? 32) = Ret [str "foo"; str "bar"; str "baz"] ∧
  Trim (str " !!! Achtung! !!! ") (str "! ") = Ret (str "Achtung").
Proof. by vm_compute. Qed.

(** [explode] leaves a last invalid byte as it is, unlike those before it. *)
Example explode_last_invalid : Split [255; 255] [] = Ret [enc RuneError; [255]].
Proof. by vm_compute. Qed.

(** A mapping to a value that is no rune: the width -1 of [RuneLen] makes no
    room for the three bytes of U+FFFD. *)
Example Map_invalid_panics : Map (λ _, 1114112) (str "a") = Panic "index out of range".
Proof. by vm_compute. Qed.

(** * Splitting and joining *)

(** At most [n] parts of [s], each but the last followed by [sep] in [s]; [save]
    bytes of it belong to the part. *)
Inductive split_n (sep : bytes) (save : Z) : Z → bytes → list bytes → Prop :=
  | split_stop n s : n <= 1 ∨ (∀ i, ¬ occurs s sep i) → split_n sep save n s [s]
  | split_more n s i ps :
      1 < n → occurs s sep i → (∀ j, j < i → ¬ occurs s sep j) →
      split_n sep save (n - 1) (drop (Z.to_nat (i + zlen sep)) s) ps →
      split_n sep save n s (sub s 0 (i + save) :: ps).

(** The parts with [sep] between them. *)
Fixpoint joined (sep : bytes) (ps : list bytes) : bytes :=
  match ps with
  | [] => []
  | [p] => p
  | p :: ps' => p ++ sep ++ joined sep ps'
  end.

Lemma joined_cons sep p ps : ps ≠ [] → joined sep (p :: ps) = p ++ sep ++ joined sep ps.
Proof. by destruct ps. Qed.

Lemma occurs_split s sep i : occurs s sep i → s = sub s 0 i ++ sep ++ drop (Z.to_nat (i + zlen sep)) s.
Proof.
  intros (Hi & Hl & E). pose proof (zlen_nonneg sep). rewrite <- E at 1. unfold sub. rewrite drop_0.
  replace (Z.to_nat (i + zlen sep)) with (Z.to_nat i + Z.to_nat (zlen sep))%nat by lia.
  by rewrite <- drop_drop, !take_drop.
Qed.

Lemma split_nonempty sep save n s ps : split_n sep save n s ps → ps ≠ [].
Proof. by destruct 1. Qed.
Lemma pieces_nonempty sep s ps : pieces sep s ps → ps ≠ [].
Proof. by destruct 1. Qed.

Lemma split_joined sep n s ps : split_n sep 0 n s ps → joined sep ps = s.
Proof.
  induction 1 as [|n s i ps Hn Ho Hno Hps IH]; [done|].
  rewrite joined_cons by (by eapply split_nonempty). rewrite IH, Z.add_0_r. by rewrite <- occurs_split.
Qed.

Lemma split_concat sep n s ps : split_n sep (zlen sep) n s ps → concat ps = s.
Proof.
  induction 1 as [|n s i ps Hn Ho Hno Hps IH]; [by simpl; rewrite app_nil_r|].
  simpl. rewrite IH. unfold sub. rewrite drop_0. apply take_drop.
Qed.

Lemma split_length sep save n s ps : split_n sep save n s ps → 1 <= n → zlen ps <= n.
Proof.
  induction 1 as [n s|n s i ps Hn Ho Hno Hps IH]; intros H1; [rewrite zlen_one; lia|]. rewrite zlen_cons.
  specialize (IH ltac:(lia)). lia.
Qed.

Lemma first_unique s sep i j :
  occurs s sep i → (∀ k, k < i → ¬ occurs s sep k) → occurs s sep j → (∀ k, k < j → ¬ occurs s sep k) → i = j.
Proof.
  intros Hi Hi' Hj Hj'. destruct (Z.lt_trichotomy i j) as [H|[H|H]]; [|done|]; exfalso; [by apply (Hj' i)|by apply (Hi' j)].
Qed.

(** With no limit the parts are the pieces. *)
Lemma split_pieces sep s qs : pieces sep s qs → ∀ n ps, zlen qs <= n → split_n sep 0 n s ps → ps = qs.
Proof.
  induction 1 as [s Hs|s i qs Ho Hno Hqs IH]; intros n ps Hn Hps.
  - inversion Hps as [|? ? j ? ? Hj]; [done|]. by destruct (Hs j).
  - rewrite zlen_cons in Hn. inversion Hps as [? ? [Hn1|Hs]|? ? j ps' ? Hj Hjno Hps']; subst.
    + apply pieces_nonempty in Hqs. pose proof (zlen_nonneg qs).
      assert (zlen qs ≠ 0) by (by intros ?%zlen_nil_inv). lia.
    + by destruct (Hs i).
    + assert (j = i) as -> by (by eapply first_unique). rewrite Z.add_0_r. f_equal. apply (IH (n - 1)); [lia|done].
Qed.

Lemma match_at_spec s sep c i :
  sep.[0] = Some c → 0 <= i → i + zlen sep <= zlen s →
  match_at s sep c i = Ret (bool_decide (sub s i (zlen sep) = sep)).
Proof.
  intros Hc Hi Hl. pose proof (nthZ_Some _ _ _ Hc). unfold match_at.
  destruct (nthZ_is_Some s i) as [b Hb]; [lia|]. rewrite (idx_Some _ _ _ Hb), go_bind_ret.
  assert (b ≠ c → sub s i (zlen sep) ≠ sep) as Hne.
  { intros Hbc E. rewrite <- E in Hc. rewrite nthZ_sub in Hc by lia. rewrite Z.add_0_r in Hc. congruence. }
  destruct (Z.eqb_spec b c) as [->|]; [|by rewrite bool_decide_false by auto].
  destruct (Z.eqb_spec (zlen sep) 1) as [E|].
  - pose proof E as (d & ->)%one_byte. assert (d = c) as -> by (unfold nthZ in Hc; simpl in Hc; congruence).
    change (zlen [c]) with 1. rewrite (sub_cons s i 1 c) by (try done; lia). by rewrite bool_decide_true.
  - rewrite slice_sub, go_bind_ret by lia. by replace (i + zlen sep - i) with (zlen sep) by lia.
Qed.

(** The parts that are asked for can be allocated. *)
Definition parts_fit {W : Host} (s sep : bytes) (n : Z) : Prop :=
  zlen s + zlen sep < 2 ^ (int_bits - 1) ∧
  if n <? 0 then ∀ qs, pieces sep s qs → zlen qs <= max_len string_size else n <= max_len string_size.

Lemma genSplit_spec {W : Host} s sep save n :
  sep ≠ [] → n ≠ 0 → 0 <= save <= zlen sep → parts_fit s sep n →
  genSplit s sep save n ⇓ λ ps, ∃ N, split_n sep save N s ps ∧
    (if n <? 0 then ∃ qs, pieces sep s qs ∧ N = zlen qs else N = n).
Proof.
  intros Hne Hn Hsave [Hint Hfit]. unfold genSplit. rewrite (proj2 (Z.eqb_neq n 0)), decide_False by done.
  eapply wp_bind_mono with (Q := λ N, 1 <= N <= max_len string_size ∧ if n <? 0 then ∃ qs, pieces sep s qs ∧ N = zlen qs else N = n).
  { destruct (Z.ltb_spec n 0); [|simpl; lia]. eapply wp_bind_mono; [by apply Count_spec|].
    intros k (qs & Hqs & Hk). simpl. split; [|eauto]. specialize (Hfit _ Hqs). apply pieces_nonempty in Hqs. rewrite Hk.
    pose proof (zlen_nonneg qs). assert (zlen qs ≠ 0) by (by intros ?%zlen_nil_inv). lia. }
  intros N [HN HNspec].
  assert (0 < zlen sep) as Hlen by (pose proof (zlen_nonneg sep); assert (zlen sep ≠ 0) by (by intros ?%zlen_nil_inv); lia).
  destruct (nthZ_is_Some sep 0) as [c Hc]; [lia|]. rewrite (idx_Some _ _ _ Hc), go_bind_ret.
  rewrite makeslice_eq, go_bind_ret by lia. pose proof (zlen_nonneg s) as Hs0.
  eapply wp_bind_mono.
  { apply wp_while with
     (I := λ '(a, na, start, i), ∃ found k, a = found ++ k ∧ na = zlen found ∧ zlen a = N ∧ na + 1 <= N ∧
        0 <= start <= i ∧ i <= zlen s ∧ (∀ j, start <= j < i → ¬ occurs s sep j) ∧
        ∀ ps, split_n sep save (N - na) (drop (Z.to_nat start) s) ps → split_n sep save N s (found ++ ps))
     (meas := λ '(_, _, _, i), zlen s - i)
     (Q := λ '(a, na, start, _), ∃ found k, a = found ++ k ∧ na = zlen found ∧ 0 <= start <= zlen s ∧ 1 <= zlen k ∧
        split_n sep save N s (found ++ [drop (Z.to_nat start) s])).
    - intros [[[a na] start] i] (found & k & -> & -> & Ha & Hna & Hst & Hi & Hno & Hsp). simpl.
      rewrite zlen_app in Ha. rewrite int_small by lia.
      destruct (Z.leb_spec (i + zlen sep) (zlen s)) as [Hle|Hgt]; [destruct (Z.ltb_spec (zlen found + 1) N) as [Hlt|Hge]|].
      + simpl. rewrite match_at_spec, go_bind_ret by (try done; lia).
        case_bool_decide as E.
        * rewrite slice_sub, go_bind_ret by lia.
          destruct k as [|x k]; [change (zlen (@nil bytes)) with 0 in Ha; lia|]. rewrite zlen_cons in Ha.
          rewrite upd_cursor, go_bind_ret by done. simpl. split; [|lia].
          exists (found ++ [sub s start (i + save - start)]), k. rewrite zlen_app, zlen_one.
          split; [done|]. split; [done|]. split; [rewrite zlen_app, zlen_app, zlen_one; lia|].
          split; [lia|]. split; [lia|]. split; [lia|]. split; [intros j Hj; lia|].
          intros ps Hps. rewrite <- app_assoc. apply Hsp. simpl.
          replace (sub s start (i + save - start)) with (sub (drop (Z.to_nat start) s) 0 (i - start + save))
            by (rewrite sub_drop by lia; f_equal; lia).
          apply split_more; [lia| | |].
          -- apply occurs_drop; [lia..|]. replace (start + (i - start)) with i by lia. split; [lia|split; [lia|done]].
          -- intros j Hj Hocc. pose proof (proj1 Hocc). apply occurs_drop in Hocc; [|lia..]. apply (Hno (start + j)); [lia|done].
          -- rewrite drop_drop. replace (Z.to_nat start + Z.to_nat (i - start + zlen sep))%nat with (Z.to_nat (i + zlen sep)) by lia.
             by replace (N - zlen found - 1) with (N - (zlen found + 1)) by lia.
        * simpl. split; [|lia]. exists found, k. split; [done|]. split; [done|]. split; [by rewrite zlen_app|]. split; [done|].
          split; [lia|]. split; [lia|]. split; [|done]. intros j Hj. destruct (decide (j = i)) as [->|]; [|apply Hno; lia].
          by intros (_ & _ & ?).
      + exists found, k. split; [done|]. split; [done|]. split; [lia|]. split; [lia|]. apply Hsp, split_stop. left. lia.
      + exists found, k. split; [done|]. split; [done|]. split; [lia|]. split; [lia|]. apply Hsp, split_stop. right.
        intros j Hj. pose proof (proj1 Hj). apply occurs_drop in Hj; [|lia..]. apply (Hno (start + j)); [|done].
        destruct Hj as (? & ? & _). lia.
    - exists [], (replicate (Z.to_nat N) []). split; [done|]. split; [done|]. split; [by apply zlen_replicate; lia|].
      split; [lia|]. split; [lia|]. split; [lia|]. split; [intros j Hj; lia|]. intros ps. by rewrite Z.sub_0_r, drop_0.
    - unfold zlen. lia. }
  intros [[[a na] start] i] (found & k & -> & -> & Hst & Hk & Hsp).
  rewrite slice_from_eq, go_bind_ret by lia. destruct k as [|x k]; [change (zlen (@nil bytes)) with 0 in Hk; lia|].
  rewrite upd_cursor, go_bind_ret by done. rewrite slice_eq; [|pose proof (zlen_nonneg found); lia|rewrite !zlen_app, zlen_one; pose proof (zlen_nonneg k); lia].
  simpl. exists N. split; [|done]. rewrite drop_0, Z.sub_0_r.
  assert (Z.to_nat (zlen found + 1) = length (found ++ [drop (Z.to_nat start) s])) as ->
    by (rewrite length_app; unfold zlen; simpl; lia).
  by rewrite take_app_length.
Qed.

Lemma fold_zlen w (a : list bytes) n :
  fold_left (λ n y, swrap w (n + zlen y)) a (swrap w n) = swrap w (n + zlen (concat a)).
Proof.
  revert n. induction a as [|x a IH]; intros n; simpl; [change (zlen (@nil Z)) with 0; by rewrite Z.add_0_r|].
  rewrite swrap_add_l, IH, zlen_app. f_equal. lia.
Qed.

Lemma zlen_joined sep x a : zlen (joined sep (x :: a)) = zlen x + zlen (concat a) + zlen sep * zlen a.
Proof.
  revert x. induction a as [|y a IH]; intros x; [simpl; change (zlen []) with 0; lia|].
  rewrite joined_cons by done. rewrite !zlen_app, IH. simpl concat. rewrite zlen_app, !zlen_cons. lia.
Qed.

Lemma joined_snoc sep x a y : joined sep (x :: a ++ [y]) = joined sep (x :: a) ++ sep ++ y.
Proof.
  revert x. induction a as [|z a IH]; intros x; [done|]. rewrite <- app_comm_cons, joined_cons by done.
  rewrite IH. rewrite (joined_cons sep x (z :: a)) by done. by rewrite <- !app_assoc.
Qed.

Lemma drop_enough {A} (k : list A) n m : zlen k = n + m → Z.of_nat (length (drop (Z.to_nat n) k)) = Z.of_nat (length k) - Z.of_nat (Nat.min (Z.to_nat n) (length k)).
Proof. intros. rewrite length_drop. lia. Qed.

Lemma zlen_drop_length {A B} (src : list A) (k : list B) :
  zlen src <= zlen k → zlen (drop (length src) k) = zlen k - zlen src.
Proof. unfold zlen. rewrite length_drop. lia. Qed.

Lemma Join_spec {W : Host} a sep : zlen (joined sep a) <= max_len 1 → Join a sep = Ret (joined sep a).
Proof.
  intros Hfit. pose proof (max_len_int 1) as Hmax.
  destruct a as [|x [|y a]]; [done..|]. set (rest := y :: a) in *.
  match goal with |- ?m = Ret ?r => assert (m ⇓ λ r', r' = r) as H; [|by apply wp_ex in H as (? & -> & ->)] end.
  unfold Join. fold rest. rewrite fold_zlen.
  assert (zlen sep * (zlen (x :: rest) - 1) + zlen (concat (x :: rest)) = zlen (joined sep (x :: rest))) as ->.
  { rewrite zlen_joined. simpl concat. rewrite zlen_app, zlen_cons. lia. }
  set (N := zlen (joined sep (x :: rest))) in *. pose proof (zlen_nonneg (joined sep (x :: rest))).
  rewrite int_small, makeslice_eq, go_bind_ret by (subst N; lia). pose proof (zlen_nonneg (concat rest)). pose proof (zlen_nonneg sep). pose proof (zlen_nonneg rest).
  assert (N = zlen x + zlen (concat rest) + zlen sep * zlen rest) as HN by apply zlen_joined.
  assert (copy (replicate (Z.to_nat N) 0) 0 x = (([] ++ x) ++ drop (length x) (replicate (Z.to_nat N) 0), zlen x)) as ->.
  { apply (copy_cursor [] (replicate (Z.to_nat N) 0) x 0); [done|]. rewrite zlen_replicate by lia. nia. }
  simpl ([] ++ x). eapply wp_bind_mono.
  { apply wp_for_each with (I := λ done '(b, bp), ∃ k, b = joined sep (x :: done) ++ k ∧ bp = zlen (joined sep (x :: done)) ∧ zlen b = N)
      (Q := λ '(b, _), b = joined sep (x :: rest)).
    - intros done y0 more [b bp] Hr (k & -> & -> & HbN). rewrite zlen_app in HbN.
      assert (zlen sep + zlen y0 <= zlen k) as Hroom.
      { assert (N = zlen (joined sep (x :: done)) + zlen sep + zlen y0 + zlen (concat more) + zlen sep * zlen more) as E.
        { rewrite HN, Hr, zlen_joined, zlen_app, zlen_cons, concat_app, zlen_app. simpl. rewrite zlen_app. lia. }
        pose proof (zlen_nonneg (concat more)). pose proof (zlen_nonneg more). nia. }
      pose proof (zlen_nonneg y0).
      rewrite copy_cursor by (try done; lia).
      rewrite copy_cursor; [|rewrite zlen_app; done|rewrite zlen_drop_length by lia; lia]. apply wp_ret.
      exists (drop (length y0) (drop (length sep) k)).
      rewrite joined_snoc, <- !app_assoc, !zlen_app. split; [done|]. split; [lia|].
      rewrite !zlen_drop_length; [lia|lia|rewrite zlen_drop_length by lia; lia].
    - exists (drop (length x) (replicate (Z.to_nat N) 0)). split; [done|]. split; [done|].
      rewrite zlen_app, zlen_drop_length by (rewrite zlen_replicate by lia; nia). rewrite zlen_replicate by lia. simpl. lia.
    - intros [b bp] (k & -> & -> & HbN). rewrite zlen_app in HbN.
      assert (k = []) as -> by (apply zlen_nil_inv; lia). apply app_nil_r. }
  intros [b bp] ->. done.
Qed.

(** * Replacing *)

Lemma least_found P r i : least P r → P i → P r ∧ ∀ j, j < r → ¬ P j.
Proof. intros [[-> H]|H] Hi; [by destruct (H i)|done]. Qed.

Lemma pieces_split sep s qs n : pieces sep s qs → zlen qs <= n → split_n sep 0 n s qs.
Proof.
  intros H. revert n. induction H as [s Hs|s i qs Ho Hno Hqs IH]; intros n Hn; [apply split_stop; by right|].
  rewrite zlen_cons in Hn. rewrite <- (Z.add_0_r i) at 1.
  assert (1 <= zlen qs) by (pose proof (zlen_nonneg qs); assert (zlen qs ≠ 0) by (intros ?%zlen_nil_inv; by eapply pieces_nonempty); lia).
  apply split_more; [lia|done|done|]. apply IH. lia.
Qed.

(** The state of the loop after [i] replacements: what is written, joined by
    [new], answers for the parts of [s] up to [start]. *)
Lemma Replace_spec {W : Host} s old new n :
  old ≠ [] → old ≠ new → n ≠ 0 → zlen s * (1 + zlen new) <= max_len 1 →
  Replace s old new n ⇓ λ t, ∃ ps N, t = joined new ps ∧ split_n old 0 N s ps ∧
    (if n <? 0 then pieces old s ps else N = n + 1).
Proof.
  intros Hne Hon Hn Hfit. unfold Replace. rewrite decide_False by tauto.
  eapply wp_bind_mono; [by apply Count_spec|]. intros m (qs & Hqs & Hm).
  assert (1 <= zlen qs) by (pose proof (zlen_nonneg qs); assert (zlen qs ≠ 0) by (intros ?%zlen_nil_inv; by eapply pieces_nonempty); lia).
  destruct (Z.eqb_spec m 0) as [->|].
  { simpl. exists [s], (n + 1). split; [done|].
    destruct Hqs as [s Hs|s i qs Ho Hno Hqs]; [|rewrite zlen_cons in Hm; apply pieces_nonempty in Hqs; pose proof (zlen_nonneg qs); assert (zlen qs ≠ 0) by (by intros ?%zlen_nil_inv); lia].
    split; [by apply split_stop; right|]. destruct (Z.ltb_spec n 0); [by apply pieces_last|done]. }
  set (n' := if (n <? 0) || (m <? n) then m else n).
  assert (1 <= n' <= m) as Hn' by (subst n'; destruct (Z.ltb_spec n 0), (Z.ltb_spec m n); simpl; lia).
  assert (0 < zlen old) as Hold by (pose proof (zlen_nonneg old); assert (zlen old ≠ 0) by (by intros ?%zlen_nil_inv); lia).
  set (d := zlen new - zlen old). pose proof (zlen_nonneg new).
  assert (∀ s qs, pieces old s qs → (zlen qs - 1) * zlen old <= zlen s) as Hlens.
  { clear. induction 1 as [s Hs|s i qs (Hi & Hl & _) Hno Hqs IH]; [rewrite zlen_one; pose proof (zlen_nonneg s); lia|].
    rewrite zlen_cons. pose proof (zlen_nonneg old). rewrite zlen_drop in IH by lia. lia. }
  pose proof (Hlens s qs Hqs) as Hls.
  assert (0 <= zlen s + n' * d) as HT by (subst d; pose proof (zlen_nonneg s); nia).
  assert (zlen s + n' * d <= max_len 1) as HT'.
  { assert (n' <= zlen s) by (pose proof (zlen_nonneg s); nia).
    assert (n' * d <= n' * zlen new) by (apply Z.mul_le_mono_nonneg_l; lia).
    assert (n' * zlen new <= zlen s * zlen new) by (apply Z.mul_le_mono_nonneg_r; lia). lia. }
  pose proof (max_len_int 1) as Hmax. rewrite swrap_add_r, int_small, makeslice_eq, go_bind_ret by lia. clear HT' Hmax Hfit.
  eapply wp_bind_mono.
  { apply wp_for_up with
     (I := λ i '(t, w, start), ∃ out k rest, t = out ++ k ∧ w = zlen out ∧ 0 <= start <= zlen s ∧
        pieces old (drop (Z.to_nat start) s) rest ∧ zlen rest = m + 1 - i ∧
        zlen k = zlen s - start + (n' - i) * d ∧
        ∃ done, zlen done = i ∧ qs = done ++ rest ∧ (∀ ps N, ps ≠ [] → split_n old 0 (N - i) (drop (Z.to_nat start) s) ps → i < N → split_n old 0 N s (done ++ ps)) ∧
          ∀ ps, ps ≠ [] → joined new (done ++ ps) = out ++ joined new ps)
     (Q := λ '(t, w, start), ∃ out k, t = out ++ k ∧ w = zlen out ∧ 0 <= start <= zlen s ∧
        zlen k = zlen s - start ∧ 
        ∃ done rest, zlen done = n' ∧ qs = done ++ rest ∧ zlen rest = m + 1 - n' ∧ pieces old (drop (Z.to_nat start) s) rest ∧
          (∀ ps N, ps ≠ [] → split_n old 0 (N - n') (drop (Z.to_nat start) s) ps → n' < N → split_n old 0 N s (done ++ ps)) ∧
          ∀ ps, ps ≠ [] → joined new (done ++ ps) = out ++ joined new ps).
    - intros i [[t w] start] Hi (out & k & rest & -> & -> & Hst & Hrest & Hlr & Hk & done & Hdone & Hqd & Hsp & Hjo).
      rewrite (proj2 (Z.eqb_neq (zlen old) 0)) by lia. rewrite slice_from_eq, go_bind_ret by lia.
      remember (drop (Z.to_nat start) s) as q eqn:Eq.
      assert (zlen q = zlen s - start) as Hzq by (rewrite Eq; by apply zlen_drop).
      destruct Hrest as [q' Hs|q' j rest Ho Hno Hrest]; [rewrite zlen_one in Hlr; lia|]. rewrite zlen_cons in Hlr.
      assert (Index q' old = Ret j) as Hix.
      { destruct (proj1 (wp_ex _ _) (Index_spec q' old Hne)) as (r & E & Hr). rewrite E. f_equal.
        destruct (least_found _ _ _ Hr Ho) as [Hr1 Hr2]. by eapply first_unique. }
      rewrite Hix, go_bind_ret, go_bind_ret. pose proof Ho as (Hj0 & Hj1 & _).
      rewrite slice_sub, go_bind_ret by lia. replace (start + j - start) with j by lia.
      pose proof (Hlens _ _ Hrest) as Hlrest. rewrite zlen_drop in Hlrest by lia.
      assert (j + zlen new <= zlen k) as Hroom.
      { rewrite Hk. subst d. assert (zlen rest = m - i) as Er by lia. rewrite Er in Hlrest.
        assert ((m - i - 1) * zlen old >= (n' - i - 1) * zlen old) by nia. nia. }
      assert (zlen (sub s start j) = j) as Hsub by (apply zlen_sub; lia).
      rewrite copy_cursor by (try done; lia). rewrite Hsub.
      rewrite copy_cursor; [|rewrite zlen_app; lia|rewrite zlen_drop_length by lia; lia]. simpl.
      exists ((out ++ sub s start j) ++ new), (drop (length new) (drop (length (sub s start j)) k)), rest.
      split; [done|]. split; [rewrite !zlen_app; lia|]. split; [lia|]. split.
      { subst q'. rewrite drop_drop in Hrest.
        replace (Z.to_nat start + Z.to_nat (j + zlen old))%nat with (Z.to_nat (start + j + zlen old)) in Hrest by lia. done. }
      split; [lia|]. split.
      { rewrite !zlen_drop_length by (rewrite ?zlen_drop_length; lia). rewrite Hk, Hsub. subst d. lia. }
      exists (done ++ [sub s start j]). split; [rewrite zlen_app, zlen_one; lia|].
      split; [rewrite Hqd, <- app_assoc; subst q'; rewrite sub_drop by lia; by rewrite Z.add_0_r|]. split.
      + intros ps N Hps Hsplit HN. rewrite <- app_assoc. apply Hsp; [done| |lia]. simpl.
        assert (sub s start j = sub q' 0 (j + 0)) as -> by (subst q'; rewrite sub_drop by lia; f_equal; lia).
        apply split_more; [lia|done|done|]. subst q'. rewrite drop_drop.
        replace (Z.to_nat start + Z.to_nat (j + zlen old))%nat with (Z.to_nat (start + j + zlen old)) by lia.
        by replace (N - i - 1) with (N - (i + 1)) by lia.
      + intros ps Hps. rewrite <- app_assoc, Hjo by done. simpl ([_] ++ ps). rewrite joined_cons by done. by rewrite <- !app_assoc.
    - exists [], (replicate (Z.to_nat (zlen s + n' * d)) 0), qs. split; [done|]. split; [done|]. split; [pose proof (zlen_nonneg s); lia|].
      rewrite drop_0. split; [done|]. split; [lia|]. split; [rewrite zlen_replicate by lia; lia|]. exists []. split; [done|]. split; [done|]. split; [|done].
      intros ps N _. rewrite Z.sub_0_r. done.
    - intros [[t w] start]. rewrite Z.max_r by lia.
      intros (out & k & rest & -> & -> & Hst & Hrest & Hlr & Hk & done & Hdone & Hqd & Hsp & Hjo).
      exists out, k. split; [done|]. split; [done|]. split; [done|]. split; [lia|]. by exists done, rest. }
  intros [[t w] start] (out & k & -> & -> & Hst & Hk & done & rest & Hdone & Hqd & Hlr & Hrest & Hsp & Hjo).
  rewrite slice_from_eq, go_bind_ret by lia. set (q := drop (Z.to_nat start) s) in *.
  assert (zlen q = zlen s - start) as Hzq by (by apply zlen_drop).
  rewrite copy_cursor by (try done; lia).
  assert (drop (length q) k = []) as -> by (apply drop_ge; unfold zlen in *; lia). rewrite app_nil_r.
  pose proof (zlen_nonneg out). pose proof (zlen_nonneg q). rewrite slice_eq by (rewrite ?zlen_app; lia).
  rewrite drop_0, Z.sub_0_r, take_ge by (rewrite length_app; unfold zlen; lia). simpl.
  assert (split_n old 0 (n' + 1) s (done ++ [q])) as Hfin.
  { apply Hsp; [done| |lia]. apply split_stop. left. lia. }
  assert (out ++ q = joined new (done ++ [q])) as -> by (by rewrite Hjo by done).
  assert (n' = m → pieces old s (done ++ [q])) as Hall.
  { intros E. assert (rest = [q]) as <-; [|by rewrite <- Hqd].
    destruct Hrest as [q' _|q' j rest _ _ Hrest]; [done|]. rewrite zlen_cons in Hlr. apply pieces_nonempty in Hrest.
    pose proof (zlen_nonneg rest). assert (zlen rest ≠ 0) by (by intros ?%zlen_nil_inv). lia. }
  subst n'. destruct (Z.ltb_spec n 0); cbn [orb] in *.
  { exists (done ++ [q]), (m + 1). split; [done|]. split; [done|]. by apply Hall. }
  destruct (Z.ltb_spec m n); [|by exists (done ++ [q]), (n + 1)].
  exists (done ++ [q]), (n + 1). split; [done|]. split; [|done].
  apply pieces_split; [by apply Hall|]. rewrite zlen_app, zlen_one. lia.
Qed.

(** * Operations on runes *)

(** The text of a sequence of runes. *)
Definition text (rs : list Z) : bytes := concat (map enc rs).
Abbreviation valid rs := (Forall (λ r, ValidRune r = true) rs).

Lemma text_app rs rs' : text (rs ++ rs') = text rs ++ text rs'.
Proof. unfold text. by rewrite map_app, concat_app. Qed.
Lemma text_cons r rs : text (r :: rs) = enc r ++ text rs.
Proof. done. Qed.
Lemma text_one r : text [r] = enc r.
Proof. unfold text. simpl. apply app_nil_r. Qed.
Lemma text_bytes rs : valid rs → are_bytes (text rs).
Proof. induction 1 as [|r rs Hr _ IH]; [done|]. rewrite text_cons. apply Forall_app. split; [by apply enc_bytes|done]. Qed.

Lemma valid_app_cons rs1 c rs2 : valid (rs1 ++ c :: rs2) → valid rs1 ∧ ValidRune c = true ∧ valid rs2.
Proof. by rewrite Forall_app, Forall_cons. Qed.

(** The runes with the offsets at which they stand. *)
Fixpoint placed (i : Z) (rs : list Z) : list (Z * Z) :=
  match rs with [] => [] | r :: rs' => (i, r) :: placed (i + zlen (enc r)) rs' end.

Lemma range_text rs : valid rs → range (text rs) = Ret (placed 0 rs).
Proof.
  intros Hv. rewrite range_eq. unfold text. rewrite chunks_utf8 by done. f_equal. generalize 0.
  clear Hv. induction rs as [|r rs IH]; intros i; [done|]. simpl. by rewrite IH.
Qed.

(** The rule of a loop over the runes of a text. *)
Lemma wp_range {S} (I : list Z → S → Prop) rs (body : Z * Z → S → go S) s (Q : S → Prop) :
  (∀ rs1 c rs2 s, rs = rs1 ++ c :: rs2 → I rs1 s → body (zlen (text rs1), c) s ⇓ I (rs1 ++ [c])) →
  I [] s → (∀ s, I rs s → Q s) → for_each (placed 0 rs) body s ⇓ Q.
Proof.
  intros Hb HI HQ.
  assert (∀ rs2 rs1 s, rs = rs1 ++ rs2 → I rs1 s → for_each (placed (zlen (text rs1)) rs2) body s ⇓ I rs) as H.
  { intros rs2. induction rs2 as [|c rs2 IH]; intros rs1 s' E HI'; simpl.
    - by rewrite E, app_nil_r.
    - apply wp_bind. eapply wp_mono; [by eapply Hb|]. intros s'' HI''.
      replace (zlen (text rs1) + zlen (enc c)) with (zlen (text (rs1 ++ [c]))) by (by rewrite text_app, zlen_app, text_one).
      apply IH; [by rewrite <- app_assoc|done]. }
  eapply wp_mono; [by apply (H rs [])|]. apply HQ.
Qed.

(** Reading the rune at a boundary, with the shortcut for ASCII. *)
Lemma rune_at rs1 c rs2 {B} (k : Z * Z → go B) :
  ValidRune c = true →
  (r ← idx (text (rs1 ++ c :: rs2)) (zlen (text rs1));
   rw ← (if RuneSelf <=? r then q ← slice_from (text (rs1 ++ c :: rs2)) (zlen (text rs1)); Ret (DecodeRuneInString q) else Ret (r, 1));
   k rw) = k (c, zlen (enc c)).
Proof.
  intros Hv. destruct (enc_start c Hv) as (b & t & He & Hs & Ht).
  assert (text (rs1 ++ c :: rs2) = text rs1 ++ enc c ++ text rs2) as E by (by rewrite text_app, text_cons).
  rewrite E. pose proof (zlen_nonneg (text rs1)). pose proof (zlen_nonneg (enc c ++ text rs2)).
  rewrite (idx_Some _ (zlen (text rs1)) b).
  2:{ rewrite nthZ_app, decide_False by lia. by rewrite Z.sub_diag, He. }
  rewrite go_bind_ret. unfold RuneSelf. destruct (Z.leb_spec 128 b).
  - rewrite slice_from_eq by (rewrite zlen_app; lia). rewrite !go_bind_ret.
    rewrite drop_zlen_app. change DecodeRuneInString with DecodeRune.
    by rewrite DecodeRune_enc.
  - rewrite go_bind_ret. f_equal. pose proof (enc_length c) as Hl. rewrite ValidRune_iff in Hv.
    unfold enc in He. destruct (Z.ltb_spec c 128); [injection He as -> _; by rewrite Hl|].
    exfalso. destruct (Z.ltb_spec c 2048); [injection He as <- _; lia_div|].
    destruct (Z.ltb_spec c 65536); injection He as <- _; lia_div.
Qed.

Fixpoint drop_while (f : Z → bool) (rs : list Z) : list Z :=
  match rs with [] => [] | r :: rs' => if f r then drop_while f rs' else rs end.

Lemma text_length rs : (length rs <= length (text rs))%nat.
Proof.
  induction rs as [|r rs IH]; [done|]. rewrite text_cons, length_app. pose proof (enc_length_bound r). unfold zlen in *. simpl. lia.
Qed.

(** The scan from the left stops at the first rune for which the test has the value. *)
Lemma indexFunc_text rs f truth :
  valid rs → indexFunc (text rs) f truth ⇓ λ i,
    (i = -1 ∧ ∀ r, r ∈ rs → f r = negb truth) ∨
    ∃ rs1 c rs2, rs = rs1 ++ c :: rs2 ∧ i = zlen (text rs1) ∧ f c = truth ∧ ∀ r, r ∈ rs1 → f r = negb truth.
Proof.
  intros Hv. unfold indexFunc. 
  apply wp_loop with (I := λ i, ∃ rs1 rs2, rs = rs1 ++ rs2 ∧ i = zlen (text rs1) ∧ ∀ r, r ∈ rs1 → f r = negb truth)
    (meas := λ i, zlen (text rs) - i).
  - intros i (rs1 & rs2 & -> & -> & Hall). destruct rs2 as [|c rs2].
    + rewrite app_nil_r. rewrite Z.ltb_irrefl. left. done.
    + destruct (valid_app_cons _ _ _ Hv) as (_ & Hc & _). pose proof (enc_length_bound c) as Hb.
      assert (zlen (text (rs1 ++ c :: rs2)) = zlen (text rs1) + zlen (enc c) + zlen (text rs2)) as El
        by (rewrite text_app, text_cons, !zlen_app; lia).
      pose proof (zlen_nonneg (text rs2)). rewrite (proj2 (Z.ltb_lt _ _)) by lia. rewrite rune_at by done.
      destruct (Bool.eqb (f c) truth) eqn:Ef; simpl.
      * right. exists rs1, c, rs2. repeat split; [by apply eqb_prop|done].
      * split; [|lia]. exists (rs1 ++ [c]), rs2. rewrite <- app_assoc, text_app, zlen_app, text_one. split; [done|]. split; [done|].
        intros r [Hr|Hr]%elem_of_app; [by apply Hall|]. apply list_elem_of_singleton in Hr as ->.
        apply eqb_false_iff in Ef. by destruct (f c), truth.
  - exists [], rs. split; [done|]. split; [done|]. by intros r ?%elem_of_nil.
  - pose proof (zlen_nonneg (text rs)). unfold zlen in *. lia.
Qed.

(** The scan from the right stops at the last one. *)
Lemma lastIndexFunc_text rs f truth :
  valid rs → lastIndexFunc (text rs) f truth ⇓ λ i,
    (i = -1 ∧ ∀ r, r ∈ rs → f r = negb truth) ∨
    ∃ rs1 c rs2, rs = rs1 ++ c :: rs2 ∧ i = zlen (text rs1) ∧ f c = truth ∧ ∀ r, r ∈ rs2 → f r = negb truth.
Proof.
  intros Hv. unfold lastIndexFunc.
  apply wp_loop with (I := λ i, ∃ rs1 rs2, rs = rs1 ++ rs2 ∧ i = zlen (text rs1) ∧ ∀ r, r ∈ rs2 → f r = negb truth)
    (meas := λ i, i).
  - intros i (rs1 & rs2 & -> & -> & Hall). destruct rs1 as [|c rs1 _] using rev_ind; [by left|].
    rewrite <- app_assoc in Hv. simpl in Hv. destruct (valid_app_cons _ _ _ Hv) as (Hv1 & Hc & _). pose proof (enc_length_bound c) as Hb.
    assert (text ((rs1 ++ [c]) ++ rs2) = text (rs1 ++ [c]) ++ text rs2) as Et by apply text_app. rewrite Et.
    assert (text (rs1 ++ [c]) = text rs1 ++ enc c) as E1 by (by rewrite text_app, text_one).
    pose proof (zlen_nonneg (text rs1)). pose proof (zlen_nonneg (text rs2)).
    assert (zlen (text (rs1 ++ [c])) = zlen (text rs1) + zlen (enc c)) as El by (by rewrite E1, zlen_app).
    rewrite (proj2 (Z.ltb_lt 0 _)) by lia. rewrite slice_to_eq, go_bind_ret by (rewrite ?zlen_app; lia).
    rewrite take_zlen_app, E1. change DecodeLastRuneInString with DecodeLastRune.
    rewrite DecodeLastRune_enc by (try done; by apply text_bytes). rewrite go_bind_ret. rewrite zlen_app.
    replace (zlen (text rs1) + zlen (enc c) - zlen (enc c)) with (zlen (text rs1)) by lia.
    destruct (Bool.eqb (f c) truth) eqn:Ef; simpl.
    + right. exists rs1, c, rs2. rewrite <- app_assoc. repeat split; [by apply eqb_prop|done].
    + split; [|lia]. exists rs1, (c :: rs2). rewrite <- app_assoc. split; [done|]. split; [done|].
      intros r [->|Hr]%elem_of_cons; [|by apply Hall]. apply eqb_false_iff in Ef. by destruct (f c), truth.
  - exists rs, []. rewrite app_nil_r. split; [done|]. split; [done|]. by intros r ?%elem_of_nil.
  - pose proof (zlen_nonneg (text rs)). unfold zlen in *. lia.
Qed.

Lemma drop_while_app f rs1 c rs2 :
  f c = false → (∀ r, r ∈ rs1 → f r = true) → drop_while f (rs1 ++ c :: rs2) = c :: rs2.
Proof.
  intros Hc. induction rs1 as [|r rs1 IH]; intros Hall; simpl; [by rewrite Hc|].
  rewrite Hall by (by left). apply IH. intros r' Hr'. apply Hall. by right.
Qed.
Lemma drop_while_all f rs : (∀ r, r ∈ rs → f r = true) → drop_while f rs = [].
Proof. induction rs as [|r rs IH]; intros Hall; simpl; [done|]. rewrite Hall by (by left). apply IH. intros r' Hr'. apply Hall. by right. Qed.

Definition drop_while_end (f : Z → bool) (rs : list Z) : list Z := rev (drop_while f (rev rs)).
Lemma drop_while_end_app f rs1 c rs2 :
  f c = false → (∀ r, r ∈ rs2 → f r = true) → drop_while_end f (rs1 ++ c :: rs2) = rs1 ++ [c].
Proof.
  intros Hc Hall. unfold drop_while_end. rewrite rev_app_distr. simpl. rewrite <- app_assoc. simpl.
  rewrite drop_while_app; [|done|].
  - simpl. by rewrite rev_involutive.
  - intros r Hr. apply Hall. rewrite list_elem_of_In in *. by apply in_rev.
Qed.
Lemma drop_while_end_all f rs : (∀ r, r ∈ rs → f r = true) → drop_while_end f rs = [].
Proof.
  intros Hall. unfold drop_while_end. rewrite drop_while_all; [done|]. intros r Hr. apply Hall.
  rewrite list_elem_of_In in *. by apply in_rev.
Qed.

Lemma valid_app rs1 rs2 : valid (rs1 ++ rs2) ↔ valid rs1 ∧ valid rs2.
Proof. apply Forall_app. Qed.

Lemma TrimLeftFunc_text rs f : valid rs → TrimLeftFunc (text rs) f = Ret (text (drop_while f rs)).
Proof.
  intros Hv. unfold TrimLeftFunc.
  destruct (proj1 (wp_ex _ _) (indexFunc_text rs f false Hv)) as (i & -> & [(-> & Hall)|(rs1 & c & rs2 & -> & -> & Hc & Hall)]).
  - rewrite go_bind_ret. by rewrite drop_while_all.
  - rewrite go_bind_ret. pose proof (zlen_nonneg (text rs1)). rewrite (proj2 (Z.eqb_neq _ _)) by lia.
    rewrite drop_while_app by done. rewrite text_app. pose proof (zlen_nonneg (text (c :: rs2))).
    rewrite slice_from_eq by (rewrite zlen_app; lia). by rewrite drop_zlen_app.
Qed.

Lemma TrimRightFunc_text rs f : valid rs → TrimRightFunc (text rs) f = Ret (text (drop_while_end f rs)).
Proof.
  intros Hv. unfold TrimRightFunc.
  destruct (proj1 (wp_ex _ _) (lastIndexFunc_text rs f false Hv)) as (i & -> & [(-> & Hall)|(rs1 & c & rs2 & -> & -> & Hc & Hall)]).
  - rewrite go_bind_ret. simpl. rewrite drop_while_end_all by done. rewrite slice_eq; [done|lia|apply zlen_nonneg].
  - rewrite go_bind_ret. pose proof (zlen_nonneg (text rs1)). rewrite (proj2 (Z.leb_le _ _)) by lia.
    destruct (valid_app_cons _ _ _ Hv) as (_ & Hvc & _). pose proof (enc_length_bound c).
    assert (text (rs1 ++ c :: rs2) = text (rs1 ++ [c]) ++ text rs2) as E by (by rewrite <- text_app, <- app_assoc).
    assert (zlen (text (rs1 ++ [c])) = zlen (text rs1) + zlen (enc c)) as El by (by rewrite text_app, zlen_app, text_one).
    pose proof (rune_at rs1 c rs2 (λ '(_, wid), Ret (zlen (text rs1) + wid)) Hvc) as Hr.
    assert (∀ m : go Z, (m = Ret (zlen (text rs1) + zlen (enc c))) → (i ← m; slice (text (rs1 ++ c :: rs2)) 0 i) = Ret (text (drop_while_end f (rs1 ++ c :: rs2)))) as Hm.
    { intros m ->. rewrite go_bind_ret, <- El, E. pose proof (zlen_nonneg (text rs2)). rewrite slice_eq by (rewrite ?zlen_app; lia).
      rewrite drop_0, Z.sub_0_r, take_zlen_app. by rewrite drop_while_end_app. }
    apply Hm. rewrite <- Hr. destruct (idx (text (rs1 ++ c :: rs2)) (zlen (text rs1))) as [b| |]; [|done..].
    rewrite !go_bind_ret. destruct (RuneSelf <=? b); [|done]. destruct (slice_from _ _); [|done..]. rewrite !go_bind_ret. by destruct (DecodeRuneInString a).
Qed.

Lemma drop_while_valid f rs : valid rs → valid (drop_while f rs).
Proof. induction 1 as [|r rs Hr Hv IH]; [done|]. simpl. destruct (f r); [done|by constructor]. Qed.

Lemma TrimFunc_text rs f : valid rs → TrimFunc (text rs) f = Ret (text (drop_while_end f (drop_while f rs))).
Proof.
  intros Hv. unfold TrimFunc. rewrite TrimLeftFunc_text, go_bind_ret by done.
  apply TrimRightFunc_text. by apply drop_while_valid.
Qed.

(** ** Fields *)

(** The maximal runs of runes that do not satisfy [f]; [cur] is the run begun. *)
Fixpoint fields (f : Z → bool) (cur rs : list Z) : list (list Z) :=
  match rs with
  | [] => match cur with [] => [] | _ => [cur] end
  | r :: rs' =>
    if f r then match cur with [] => fields f [] rs' | _ => cur :: fields f [] rs' end
    else fields f (cur ++ [r]) rs'
  end.

(** What the two passes know after the runes [rs1]. *)
Definition scanned (f : Z → bool) rs1 out cur : Prop :=
  (∀ rs2, fields f [] (rs1 ++ rs2) = out ++ fields f cur rs2) ∧ ∃ p, rs1 = p ++ cur.

Lemma scanned_start f : scanned f [] [] [].
Proof. split; [done|]. by exists []. Qed.
Lemma scanned_sep f rs1 out cur c :
  scanned f rs1 out cur → f c = true → scanned f (rs1 ++ [c]) (match cur with [] => out | _ => out ++ [cur] end) [].
Proof.
  intros [Hs (p & ->)] Hc. split; [|exists ((p ++ cur) ++ [c]); by rewrite app_nil_r].
  intros rs2. rewrite <- (app_assoc (p ++ cur)), Hs. simpl. rewrite Hc. destruct cur; [done|]. by rewrite <- app_assoc.
Qed.
Lemma scanned_in f rs1 out cur c :
  scanned f rs1 out cur → f c = false → scanned f (rs1 ++ [c]) out (cur ++ [c]).
Proof.
  intros [Hs (p & ->)] Hc. split; [|exists p; by rewrite app_assoc].
  intros rs2. rewrite <- (app_assoc (p ++ cur)), Hs. simpl. by rewrite Hc.
Qed.

Lemma enc_text_nonempty c rs : 1 <= zlen (text (c :: rs)).
Proof. rewrite text_cons, zlen_app. pose proof (enc_length_bound c). pose proof (zlen_nonneg (text rs)). lia. Qed.

Lemma FieldsFunc_text {W : Host} rs f : valid rs → zlen (fields f [] rs) <= max_len string_size → FieldsFunc (text rs) f = Ret (map text (fields f [] rs)).
Proof.
  intros Hv Hfit. match goal with |- ?m = Ret ?r => assert (m ⇓ λ r', r' = r) as H; [|by apply wp_ex in H as (? & -> & ->)] end.
  unfold FieldsFunc. rewrite range_text, go_bind_ret by done.
  set (N := zlen (fields f [] rs)).
  eapply wp_bind_mono with (Q := λ '(n, _), n = N).
  { apply wp_range with (I := λ rs1 '(n, inField), ∃ out cur, scanned f rs1 out cur ∧
      n = zlen out + (if decide (cur = []) then 0 else 1) ∧ inField = negb (bool_decide (cur = []))).
    - intros rs1 c rs2 [n inField] E (out & cur & Hs & -> & ->). simpl.
      destruct (f c) eqn:Hc; simpl.
      + exists (match cur with [] => out | _ => out ++ [cur] end), []. split; [by apply scanned_sep|].
        split; [|done]. destruct cur; [done|]. rewrite decide_False by done. rewrite zlen_app, zlen_one. simpl. lia.
      + exists out, (cur ++ [c]). split; [by apply scanned_in|]. rewrite (decide_False (P := cur ++ [c] = [])) by (by destruct cur).
        rewrite (bool_decide_false (cur ++ [c] = [])) by (by destruct cur). split; [|done].
        destruct (decide (cur = [])) as [->|Hn]; [rewrite bool_decide_true by done; simpl; lia|by rewrite bool_decide_false].
    - exists [], []. split; [apply scanned_start|done].
    - intros [n inField] (out & cur & [Hs _] & -> & _). unfold N. rewrite <- (app_nil_r rs), Hs, zlen_app. f_equal.
      destruct cur; [done|by rewrite decide_False]. }
  intros [n inField] ->. rewrite makeslice_eq, go_bind_ret by (split; [apply zlen_nonneg|done]).
  eapply wp_bind_mono with (Q := λ '(a, na, fieldStart), ∃ out cur p k, scanned f rs out cur ∧ rs = p ++ cur ∧
      a = map text out ++ k ∧ na = zlen out ∧ zlen a = N ∧ fieldStart = if decide (cur = []) then -1 else zlen (text p)).
  { apply wp_range with (I := λ rs1 '(a, na, fieldStart), ∃ out cur p k, scanned f rs1 out cur ∧ rs1 = p ++ cur ∧
      a = map text out ++ k ∧ na = zlen out ∧ zlen a = N ∧ fieldStart = if decide (cur = []) then -1 else zlen (text p)).
    - intros rs1 c rs2 [[a na] fs] E (out & cur & p & k & Hs & -> & -> & -> & Ha & ->).
      assert (text rs = text (p ++ cur) ++ text (c :: rs2)) as Et by (by rewrite E, text_app).
      rewrite zlen_app, zlen_map in Ha.
      cbv beta iota. destruct (f c) eqn:Hc.
      + destruct cur as [|d cur].
        * rewrite decide_True by done. apply wp_ret. exists out, [], ((p ++ []) ++ [c]), k.
          split; [by apply (scanned_sep f (p ++ []) out [] c)|]. rewrite !app_nil_r. do 3 (split; [done|]). split; [|done].
          rewrite zlen_app, zlen_map. exact Ha.
        * rewrite decide_False by done. pose proof (zlen_nonneg (text p)). rewrite (proj2 (Z.leb_le 0 _)) by done.
          pose proof (zlen_nonneg (text (d :: cur))). pose proof (zlen_nonneg (text (c :: rs2))).
          rewrite slice_sub, go_bind_ret by (rewrite ?Et, ?text_app, ?zlen_app; lia).
          assert (sub (text rs) (zlen (text p)) (zlen (text (p ++ d :: cur)) - zlen (text p)) = text (d :: cur)) as ->.
          { unfold sub. rewrite Et, text_app, <- app_assoc, drop_zlen_app, zlen_app.
            replace (zlen (text p) + zlen (text (d :: cur)) - zlen (text p)) with (zlen (text (d :: cur))) by lia. apply take_zlen_app. }
          assert (N = zlen out + 1 + zlen (fields f [] rs2)) as HN.
          { unfold N. rewrite E. destruct Hs as [Hs _]. rewrite Hs. simpl. rewrite Hc, zlen_app, zlen_cons. lia. }
          pose proof (zlen_nonneg (fields f [] rs2)).
          destruct k as [|x k]; [change (zlen (@nil bytes)) with 0 in Ha; lia|]. rewrite zlen_cons in Ha.
          rewrite upd_cursor, go_bind_ret by (by rewrite zlen_map). apply wp_ret.
          exists (out ++ [d :: cur]), [], ((p ++ d :: cur) ++ [c]), k.
          split; [by apply (scanned_sep f (p ++ d :: cur) out (d :: cur) c)|]. rewrite !app_nil_r, map_app, !zlen_app, !zlen_one.
          do 3 (split; [done|]). split; [rewrite ?zlen_map, ?zlen_one; change (zlen (map text [d :: cur])) with 1; lia|done].
      + apply wp_ret. destruct cur as [|d cur].
        * rewrite (decide_True (P := [] = [])) by done. exists out, [c], (p ++ []), k.
          split; [by apply (scanned_in f (p ++ []) out [] c)|]. rewrite zlen_app, zlen_map.
          rewrite (decide_False (P := [c] = [])) by done. done.
        * rewrite decide_False by done. exists out, ((d :: cur) ++ [c]), p, k.
          split; [by apply (scanned_in f (p ++ d :: cur) out (d :: cur) c)|]. rewrite <- app_assoc, zlen_app, zlen_map.
          do 4 (split; [done|]). pose proof (zlen_nonneg (text p)). by rewrite (proj2 (Z.eqb_neq _ _)) by lia.
    - exists [], [], [], (replicate (Z.to_nat N) []). repeat split; [by exists []|]. apply zlen_replicate, zlen_nonneg.
    - intros [[a na] fs] (out & cur & p & k & H). by exists out, cur, p, k. }
  intros [[a na] fs] (out & cur & p & k & [Hs _] & E & -> & -> & Ha & ->).
  rewrite zlen_app, zlen_map in Ha.
  specialize (Hs []). rewrite app_nil_r in Hs. simpl in Hs.
  assert (N = zlen out + zlen (match cur with [] => [] | _ => [cur] end)) as HN by (unfold N; by rewrite Hs, zlen_app).
  destruct cur as [|d cur].
  - rewrite decide_True by done. apply wp_ret. rewrite Hs, app_nil_r. change (zlen []) with 0 in HN.
    assert (k = []) as -> by (apply zlen_nil_inv; lia). by rewrite app_nil_r.
  - rewrite decide_False by done. pose proof (zlen_nonneg (text p)). rewrite (proj2 (Z.leb_le 0 _)) by done.
    rewrite zlen_one in HN. pose proof (zlen_nonneg (text (d :: cur))). rewrite slice_from_eq, go_bind_ret by (rewrite E, text_app, zlen_app; lia).
    rewrite E, text_app, drop_zlen_app. destruct k as [|x [|y k]]; [change (zlen (@nil bytes)) with 0 in Ha; lia| |rewrite !zlen_cons in Ha; pose proof (zlen_nonneg k); lia].
    rewrite upd_cursor by (by rewrite zlen_map). apply wp_ret. rewrite <- E, Hs, map_app, app_nil_r. done.
Qed.

(** ** Mapping *)

(** The runes after mapping; negative values are dropped. *)
Definition mapped (m : Z → Z) (rs : list Z) : list Z := List.filter (Z.leb 0) (map m rs).

Lemma mapped_snoc m rs c : mapped m (rs ++ [c]) = mapped m rs ++ (if 0 <=? m c then [m c] else []).
Proof. unfold mapped. rewrite map_app, List.filter_app. simpl. by destruct (0 <=? m c). Qed.

Lemma mapped_id m rs : (∀ c, c ∈ rs → m c = c) → valid rs → mapped m rs = rs.
Proof.
  intros Hm. induction 1 as [|c rs Hc Hv IH]; [done|]. unfold mapped. simpl. rewrite Hm by (by left).
  apply ValidRune_iff in Hc. rewrite (proj2 (Z.leb_le 0 c)) by lia. f_equal. apply IH. intros d Hd. apply Hm. by right.
Qed.

Lemma RuneLen_width r : ValidRune r = true → (if RuneSelf <=? r then RuneLen r else 1) = zlen (enc r).
Proof. intros Hr. rewrite <- RuneLen_valid by done. apply ValidRune_iff in Hr. unfold RuneSelf, RuneLen, rune1Max. bool_cases. Qed.

(** The buffer of [Map] can be allocated: at first of the size of the string, then at
    most a little more than twice the size of the result. *)
Definition map_fits {W : Host} (m : Z → Z) (rs : list Z) : Prop :=
  zlen (text rs) <= max_len 1 ∧
  (zlen (text (mapped m rs)) <= zlen (text rs) ∨ 2 * zlen (text (mapped m rs)) + 2 <= max_len 1).

Lemma mapped_prefix m rs1 c rs2 :
  0 <= m c → zlen (text (mapped m rs1)) + zlen (enc (m c)) <= zlen (text (mapped m (rs1 ++ c :: rs2))).
Proof.
  intros Hc. change (c :: rs2) with ([c] ++ rs2). rewrite app_assoc. unfold mapped. rewrite map_app, List.filter_app.
  fold (mapped m (rs1 ++ [c])). rewrite mapped_snoc, (proj2 (Z.leb_le _ _)) by done.
  fold (mapped m rs1). rewrite !text_app, !zlen_app, text_one. pose proof (zlen_nonneg (text (List.filter (Z.leb 0) (map m rs2)))). lia.
Qed.

Lemma Map_text {W : Host} m rs :
  valid rs → (∀ c, c ∈ rs → m c < 0 ∨ ValidRune (m c) = true) → map_fits m rs → Map m (text rs) = Ret (text (mapped m rs)).
Proof.
  intros Hv Hm [Hf1 Hf2]. pose proof (max_len_int 1) as Hmax. match goal with |- ?m = Ret ?r => assert (m ⇓ λ r', r' = r) as H; [|by apply wp_ex in H as (? & -> & ->)] end.
  unfold Map. rewrite range_text, go_bind_ret by done.
  eapply wp_bind_mono.
  { apply wp_range with
      (I := λ rs1 '(b, nbytes, maxbytes),
        match b with
        | None => (∀ c, c ∈ rs1 → m c = c) ∧ nbytes = 0 ∧ maxbytes = zlen (text rs)
        | Some buf => ∃ k, buf = text (mapped m rs1) ++ k ∧ nbytes = zlen (text (mapped m rs1)) ∧ zlen buf = maxbytes ∧ zlen (text rs) <= maxbytes
        end)
      (Q := λ '(b, nbytes, _),
        match b with
        | None => ∀ c, c ∈ rs → m c = c
        | Some buf => ∃ k, buf = text (mapped m rs) ++ k ∧ nbytes = zlen (text (mapped m rs))
        end).
    - intros rs1 c rs2 [[b nbytes] maxbytes] E HI. cbv beta iota zeta.
      destruct (valid_app_cons rs1 c rs2) as (Hv1 & Hc & Hv2); [by rewrite <- E|].
      pose proof (zlen_nonneg (text rs1)). pose proof (zlen_nonneg (text (c :: rs2))).
      assert (text rs = text rs1 ++ text (c :: rs2)) as Et by (by rewrite E, text_app).
      case_decide as Hd.
      { destruct Hd as [-> Hd]. destruct HI as (Hall & -> & ->). apply wp_ret. split; [|done].
        intros d [Hin|Hin]%elem_of_app; [by apply Hall|]. by apply list_elem_of_singleton in Hin as ->. }
      eapply wp_bind_mono with (Q := λ '(buf, nb), ∃ k, buf = text (mapped m rs1) ++ k ∧ nb = zlen (text (mapped m rs1)) ∧ zlen buf = maxbytes ∧ zlen (text rs) <= maxbytes).
      { destruct b as [buf|]; [exact HI|]. destruct HI as (Hall & -> & ->). rewrite mapped_id by done.
        rewrite makeslice_eq, go_bind_ret by (split; [apply zlen_nonneg|done]). rewrite slice_to_eq, go_bind_ret by (rewrite Et, zlen_app; lia).
        rewrite Et at 2. rewrite take_zlen_app.
        assert (zlen (text rs) = zlen (text rs1) + zlen (text (c :: rs2))) as El by (by rewrite Et, zlen_app).
        pose proof (copy_cursor [] (replicate (Z.to_nat (zlen (text rs))) 0) (text rs1) 0 eq_refl) as Hcp.
        simpl ([] ++ _) in Hcp. rewrite Hcp by (rewrite zlen_replicate by lia; lia). apply wp_ret.
        eexists. split; [done|]. split; [done|]. split; [|done]. rewrite zlen_app, zlen_drop_length; rewrite zlen_replicate; lia. }
      intros [buf nb] (k & -> & -> & Hlen & Hmin). rewrite mapped_snoc. rewrite zlen_app in Hlen.
      destruct (Z.leb_spec 0 (m c)) as [Hpos|Hneg].
      2:{ apply wp_ret. exists k. by rewrite app_nil_r, zlen_app. }
      assert (ValidRune (m c) = true) as Hr.
      { destruct (Hm c) as [Hbad|]; [rewrite E; apply elem_of_app; right; by left|lia|done]. }
      rewrite RuneLen_width by done. pose proof (enc_length_bound (m c)) as Hw.
      pose proof (mapped_prefix m rs1 c rs2 Hpos) as Hpre. rewrite <- E in Hpre. pose proof (zlen_nonneg (text (mapped m rs1))).
      rewrite int_small by lia.
      eapply wp_bind_mono with (Q := λ '(buf, mb), ∃ k, buf = text (mapped m rs1) ++ k ∧ zlen buf = mb ∧ zlen (text rs) <= mb ∧ zlen (enc (m c)) <= zlen k).
      { destruct (Z.ltb_spec maxbytes (zlen (text (mapped m rs1)) + zlen (enc (m c)))); [|apply wp_ret; exists k; rewrite zlen_app; split; [done|lia]].
        pose proof (zlen_nonneg k). unfold UTFMax. rewrite swrap_add_l, int_small, makeslice_eq, go_bind_ret by lia. rewrite slice_eq, go_bind_ret by (rewrite ?zlen_app; lia).
        rewrite drop_0, Z.sub_0_r, take_zlen_app.
        pose proof (copy_cursor [] (replicate (Z.to_nat (maxbytes * 2 + 4)) 0) (text (mapped m rs1)) 0 eq_refl) as Hcp.
        simpl ([] ++ _) in Hcp. rewrite Hcp by (rewrite zlen_replicate by lia; lia). apply wp_ret. cbn [fst]. eexists. split; [done|].
        rewrite zlen_app, zlen_drop_length by (rewrite zlen_replicate by lia; lia). rewrite zlen_replicate by lia. lia. }
      intros [buf mb] (k' & -> & <- & Hmin' & Hroom). pose proof (zlen_nonneg (text (mapped m rs1))).
      rewrite slice_eq, go_bind_ret by (rewrite ?zlen_app; lia). rewrite drop_zlen_app, take_ge by (rewrite zlen_app; unfold zlen; lia).
      assert (norm (m c) = m c) as En by (unfold norm; by rewrite Hr).
      pose proof (proj1 (ValidRune_iff (m c)) Hr) as Hrange. rewrite EncodeRune_spec by (rewrite ?En; lia). rewrite En, go_bind_ret.
      set (tl := enc (m c) ++ _).
      assert (zlen tl = zlen k') as Htl by (subst tl; rewrite zlen_app, zlen_drop; lia).
      rewrite copy_cursor by (try done; lia). rewrite drop_ge by (unfold zlen in Htl; lia). rewrite app_nil_r. apply wp_ret.
      exists (drop (Z.to_nat (zlen (enc (m c)))) k'). subst tl. simpl. rewrite text_app, text_one, <- app_assoc.
      split; [done|]. split; [by rewrite zlen_app|]. rewrite !zlen_app in *. rewrite zlen_drop by lia. lia.
    - split; [by intros c ?%elem_of_nil|done].
    - intros [[b nbytes] maxbytes]. destruct b as [buf|]; [|by intros [? _]]. intros (k & ? & ? & _ & _). by exists k. }
  intros [[b nbytes] maxbytes]. destruct b as [buf|].
  - intros (k & -> & ->). pose proof (zlen_nonneg (text (mapped m rs))). pose proof (zlen_nonneg k).
    rewrite slice_eq by (rewrite ?zlen_app; lia). apply wp_ret. by rewrite drop_0, Z.sub_0_r, take_zlen_app.
  - intros Hall. apply wp_ret. by rewrite mapped_id.
Qed.

(** ** Repeating *)

Lemma zlen_repeat (s : bytes) (n : nat) : zlen (concat (replicate n s)) = zlen s * Z.of_nat n.
Proof. induction n as [|n IH]; [simpl; change (zlen (@nil Z)) with 0; lia|]. simpl. rewrite zlen_app, IH. lia. Qed.

Lemma nthZ_repeat (s : bytes) n i :
  0 <= i < zlen s * Z.of_nat n → (concat (replicate n s)).[i] = s.[i mod zlen s].
Proof.
  revert i. induction n as [|n IH]; intros i Hi; [lia|]. pose proof (zlen_nonneg s).
  simpl. rewrite nthZ_app. case_decide.
  - by rewrite Z.mod_small by lia.
  - rewrite IH by lia. f_equal. rewrite <- (Z.mod_add (i - zlen s) 1) by lia. f_equal. lia.
Qed.

Lemma Repeat_spec {W : Host} (s : bytes) count : 0 <= count → zlen s * count <= 2 ^ (int_bits - 2) → zlen s * count <= max_len 1 → Repeat s count = Ret (concat (replicate (Z.to_nat count) s)).
Proof.
  intros Hc Hint Hfit. pose proof int_range as [_ Hquarter]. match goal with |- ?m = Ret ?r => set (rep := r); assert (m ⇓ λ r', r' = r) as H; [|by apply wp_ex in H as (? & -> & ->)] end.
  pose proof (zlen_nonneg s). unfold Repeat. pose proof (max_len_int 1) as Hmax. rewrite int_small, makeslice_eq, go_bind_ret by lia.
  assert (zlen rep = zlen s * count) as Hrep by (subst rep; rewrite zlen_repeat; lia).
  destruct (decide (zlen s * count = 0)) as [Hz|Hnz].
  { rewrite Hz. simpl. rewrite Hz in Hrep. symmetry. by apply zlen_nil_inv. }
  assert (count ≠ 0) by (intros ->; lia). assert (zlen s ≠ 0) by (intros E; rewrite E in Hnz; lia).
  assert (zlen s <= zlen s * count) by nia. assert (0 < zlen s) by lia.
  assert (rep = s ++ drop (length s) rep) as Hs.
  { subst rep. replace (Z.to_nat count) with (S (Z.to_nat (count - 1))) by lia. simpl. by rewrite drop_app_length. }
  set (N := zlen s * count) in *.
  pose proof (copy_cursor [] (replicate (Z.to_nat N) 0) s 0 eq_refl) as Hcp. simpl ([] ++ _) in Hcp.
  rewrite Hcp by (rewrite zlen_replicate by lia; lia). clear Hcp.
  set (b0 := s ++ drop (length s) _). assert (zlen b0 = N) as Hb0.
  { subst b0. rewrite zlen_app, zlen_drop_length; rewrite zlen_replicate; lia. }
  eapply wp_bind_mono.
  { apply wp_while with (I := λ '(b, bp), zlen b = N ∧ zlen s <= bp ∧ (∃ q, bp = zlen s * q) ∧ (∀ i, 0 <= i < bp → i < N → b.[i] = rep.[i]))
      (meas := λ '(_, bp), Z.max 0 (N - bp)) (Q := λ '(b, _), b = rep).
    - intros [b bp] (Hb & Hbp & (q & Hq) & Hi). cbn [wp]. rewrite Hb. destruct (Z.ltb_spec bp N).
      + rewrite slice_to_eq, go_bind_ret, int_small by lia. apply wp_ret. set (p := take (Z.to_nat bp) b).
        assert (zlen p = bp) as Hp by (by apply zlen_take; lia).
        split; [|lia]. unfold copy. simpl. set (n := Nat.min _ _).
        assert (Z.of_nat n = Z.min (N - bp) bp) as Hn by (subst n; unfold zlen in *; lia).
        assert (zlen (take (Z.to_nat bp) b ++ take n p ++ drop (Z.to_nat bp + n) b) = N) as Hl.
        { rewrite !zlen_app. fold p. rewrite Hp. unfold zlen. rewrite length_take, length_drop. unfold zlen in *. lia. }
        split; [done|]. split; [lia|]. split; [exists (2 * q); lia|]. intros i Hi1 Hi2.
        rewrite nthZ_app. fold p. rewrite Hp. case_decide.
        * unfold p. rewrite nthZ_take, decide_True by lia. apply Hi; lia.
        * assert (zlen (take n p) = Z.of_nat n) as Htp by (unfold zlen; rewrite length_take; unfold zlen in *; lia).
          rewrite nthZ_app, Htp, decide_True by lia. rewrite nthZ_take, decide_True by lia.
          unfold p. rewrite nthZ_take, decide_True by lia. rewrite Hi by lia.
          subst rep. rewrite !nthZ_repeat by lia. f_equal. rewrite Hq. 
          rewrite <- (Z.mod_add (i - zlen s * q) q) by lia. f_equal. lia.
      + apply nthZ_ext. intros i. destruct (decide (0 <= i < N)) as [Hr|Hr]; [apply Hi; lia|].
        rewrite (proj2 (nthZ_None b i)), (proj2 (nthZ_None rep i)) by lia. done.
    - split; [done|]. split; [lia|]. split; [exists 1; lia|]. intros i Hi _. rewrite Hs. subst b0.
      by rewrite !nthZ_app, !decide_True by lia.
    - split; [lia|]. unfold zlen in Hb0. lia. }
  intros [b bp] ->. done.
Qed.

(** * Properties *)

(** C19: splitting at a separator that is not empty cuts at its first occurrences from
    the left, none overlapping another, into at most [n] parts ([n < 0] sets no limit,
    and every piece is a part); joining the parts of [SplitN] with the separator gives
    the string back, and so does joining those of [SplitAfterN] with nothing. The string
    and the parts fit in memory, and the lengths of the string and the separator together
    in an [int]; with a limit beyond what can be allocated both functions panic,
    however few the parts. *)
Theorem Split_Join {W : Host} s sep n :
  sep ≠ [] → n ≠ 0 →
  (parts_fit s sep n → zlen s <= max_len 1 →
   (∃ ps, SplitN s sep n = Ret ps ∧ Join ps sep = Ret s ∧
      (n < 0 → pieces sep s ps ∧ Split s sep = Ret ps) ∧ (0 < n → split_n sep 0 n s ps ∧ zlen ps <= n)) ∧
   (∃ ps, SplitAfterN s sep n = Ret ps ∧ Join ps [] = Ret s ∧ (0 < n → split_n sep (zlen sep) n s ps ∧ zlen ps <= n))) ∧
  (0 < n → max_len string_size < n →
   SplitN s sep n = Panic "makeslice: len out of range" ∧ SplitAfterN s sep n = Panic "makeslice: len out of range").
Proof.
  intros Hne Hn. pose proof (zlen_nonneg sep). split; [intros Hfit Hs1; split|].
  - destruct (proj1 (wp_ex _ _) (genSplit_spec s sep 0 n Hne Hn ltac:(lia) Hfit)) as (ps & E & N & Hs & HN).
    exists ps. split; [done|]. split; [by rewrite Join_spec; rewrite (split_joined _ _ _ _ Hs)|]. split.
    + intros Hneg. rewrite (proj2 (Z.ltb_lt n 0)) in HN by done. destruct HN as (qs & Hqs & ->).
      assert (ps = qs) as -> by (by eapply split_pieces). split; [done|].
      assert (parts_fit s sep (-1)) as Hfit'.
      { destruct Hfit as [? Hfit]. rewrite (proj2 (Z.ltb_lt n 0)) in Hfit by done. by split. }
      destruct (proj1 (wp_ex _ _) (genSplit_spec s sep 0 (-1) Hne ltac:(done) ltac:(lia) Hfit')) as (ps2 & E2 & N2 & Hs2 & (qs2 & Hqs2 & ->)).
      assert (ps2 = qs2) as -> by (by eapply split_pieces).
      unfold Split. rewrite E2. f_equal. symmetry.
      destruct (Z.le_ge_cases (zlen qs) (zlen qs2)); [symmetry|]; (eapply split_pieces; [done| |by apply pieces_split]); done.
    + intros Hpos. rewrite (proj2 (Z.ltb_ge n 0)) in HN by lia. subst N. split; [done|]. eapply split_length; [done|lia].
  - destruct (proj1 (wp_ex _ _) (genSplit_spec s sep (zlen sep) n Hne Hn ltac:(lia) Hfit)) as (ps & E & N & Hs & HN).
    exists ps. split; [done|]. assert (joined [] ps = s) as Ej.
    { rewrite <- (split_concat _ _ _ _ Hs). clear. induction ps as [|p ps IH]; [done|]. simpl. rewrite <- IH. destruct ps; [by rewrite app_nil_r|done]. }
    split; [by rewrite Join_spec; rewrite Ej|]. intros Hpos. rewrite (proj2 (Z.ltb_ge n 0)) in HN by lia. subst N.
    split; [done|]. eapply split_length; [done|lia].
  - intros Hpos Hbig. assert (∀ save, genSplit s sep save n = Panic "makeslice: len out of range") as Hp; [|split; [apply (Hp 0)|apply (Hp (zlen sep))]].
    intros save. unfold genSplit. rewrite (proj2 (Z.eqb_neq n 0)) by done. rewrite decide_False by done. rewrite (proj2 (Z.ltb_ge n 0)) by lia. rewrite go_bind_ret.
    destruct sep as [|c sep]; [done|]. rewrite (idx_Some (c :: sep) 0 c) by done. by rewrite go_bind_ret, makeslice_panics.
Qed.

Example Split_Join_witness :
  (∃ ps, SplitN (str "a,b,c") (str ",") 2 = Ret ps ∧ Join ps (str ",") = Ret (str "a,b,c") ∧
     (2 < 0 → pieces (str ",") (str "a,b,c") ps ∧ Split (str "a,b,c") (str ",") = Ret ps) ∧
     (0 < 2 → split_n (str ",") 0 2 (str "a,b,c") ps ∧ zlen ps <= 2)) ∧
  (∃ ps, SplitAfterN (str "a,b,c") (str ",") 2 = Ret ps ∧ Join ps [] = Ret (str "a,b,c")) ∧
  SplitN (str "a,b,c") (str ",") (2 ^ 36) = Panic "makeslice: len out of range".
Proof.
  destruct (Split_Join (str "a,b,c") (str ",") 2 ltac:(done) ltac:(done)) as [H _].
  destruct (H ltac:(by split; vm_compute) ltac:(by vm_compute)) as [H1 (ps & E1 & E2 & _)].
  split; [exact H1|]. split; [by exists ps|].
  destruct (Split_Join (str "a,b,c") (str ",") (2 ^ 36) ltac:(done) ltac:(done)) as [_ [E _]]; [done|by vm_compute|exact E].
Defined.

(** [Replace] returns the string with [new] in the place of the first [n]
    occurrences of [old] (of all for [n < 0]), the output buffer being exactly
    large enough, whichever of [old] and [new] is longer. *)
Theorem Replace_splits {W : Host} s old new n :
  old ≠ [] → old ≠ new → n ≠ 0 → zlen s <= max_len 1 → zlen s * (1 + zlen new) <= max_len 1 →
  ∃ t ps, Replace s old new n = Ret t ∧ Join ps old = Ret s ∧ t = joined new ps ∧
    (n < 0 → pieces old s ps) ∧ (0 < n → split_n old 0 (n + 1) s ps).
Proof.
  intros Hne Hon Hn Hs1 Hfit. destruct (proj1 (wp_ex _ _) (Replace_spec s old new n Hne Hon Hn Hfit)) as (t & E & ps & N & -> & Hs & HN).
  exists (joined new ps), ps. rewrite Join_spec by (by rewrite (split_joined _ _ _ _ Hs)). rewrite (split_joined _ _ _ _ Hs). split; [done|]. split; [done|]. split; [done|]. split.
  - intros Hneg. by rewrite (proj2 (Z.ltb_lt n 0)) in HN.
  - intros Hpos. rewrite (proj2 (Z.ltb_ge n 0)) in HN by lia. by subst.
Qed.

Example Replace_splits_witness :
  ∃ t ps, Replace (str "oink oink") (str "oi") (str "bri") 1 = Ret t ∧ Join ps (str "oi") = Ret (str "oink oink") ∧
    t = joined (str "bri") ps ∧ (1 < 0 → pieces (str "oi") (str "oink oink") ps) ∧
    (0 < 1 → split_n (str "oi") 0 (1 + 1) (str "oink oink") ps).
Proof. apply (Replace_splits (str "oink oink") (str "oi") (str "bri") 1); by vm_compute. Defined.

(** On well-formed text the functions that take a predicate or a mapping work
    rune by rune: [TrimFunc] drops the runes at both ends that satisfy it,
    [FieldsFunc] returns the maximal runs of those that do not, [Map] encodes the
    mapped runes, dropping the negative ones and growing its buffer as needed;
    [Repeat] doubles its way to the [count] copies. *)
Theorem rune_operations {W : Host} rs f m count :
  valid rs → (∀ c, c ∈ rs → m c < 0 ∨ ValidRune (m c) = true) → map_fits m rs → zlen (fields f [] rs) <= max_len string_size →
  0 <= count → zlen (text rs) * count <= 2 ^ (int_bits - 2) → zlen (text rs) * count <= max_len 1 →
  TrimFunc (text rs) f = Ret (text (drop_while_end f (drop_while f rs))) ∧
  FieldsFunc (text rs) f = Ret (map text (fields f [] rs)) ∧
  Map m (text rs) = Ret (text (mapped m rs)) ∧
  Repeat (text rs) count = Ret (concat (replicate (Z.to_nat count) (text rs))).
Proof.
  intros Hv Hm Hf Hfl Hc Hr1 Hr2. split; [by apply TrimFunc_text|]. split; [by apply FieldsFunc_text|].
  split; [by apply Map_text|]. by apply Repeat_spec.
Qed.

Example rune_operations_witness :
  TrimFunc (text [32; 8364; 32]) (λ r, r =? 32) = Ret (text (drop_while_end (λ r, r =? 32) (drop_while (λ r, r =? 32) [32; 8364; 32]))) ∧
  FieldsFunc (text [32; 8364; 32]) (λ r, r =? 32) = Ret (map text (fields (λ r, r =? 32) [] [32; 8364; 32])) ∧
  Map (λ r, r - 32) (text [32; 8364; 32]) = Ret (text (mapped (λ r, r - 32) [32; 8364; 32])) ∧
  Repeat (text [32; 8364; 32]) 2 = Ret (concat (replicate (Z.to_nat 2) (text [32; 8364; 32]))).
Proof.
  apply (rune_operations [32; 8364; 32] (λ r, r =? 32) (λ r, r - 32) 2); [by repeat constructor| |split; [by vm_compute|left; by vm_compute]|by vm_compute..].
  intros c Hc. right. rewrite !elem_of_cons in Hc. destruct Hc as [->|[->|[->|Hc]]]; try reflexivity. by apply elem_of_nil in Hc.
Defined.
