(* ===== verification/Path.v ===== *)
(** Package [path], [src/src/path/path.go]: the lazily copied buffer and [Clean],
    the reduction of a path to its shortest lexical equivalent; [Split], [Join],
    [Ext], [Base], [IsAbs] and [Dir]. *)
From S2P Require Import Prelude.
From S2P Require Import StringsSearch.
From S2P Require Import StringsOps.

(** * The lazy buffer *)

Record lazybuf := { s : bytes; buf : option bytes; w : Z }.

Definition index (b : lazybuf) (i : Z) : go Z :=
  match buf b with Some buf => idx buf i | None => idx (s b) i end.

Definition append (b : lazybuf) (c : Z) : go lazybuf :=
  let write (buf : bytes) :=
    buf ← upd buf (w b) c; Ret {| s := s b; buf := Some buf; w := w b + 1 |} in
  match buf b with
  | None =>
    same ← (if w b <? zlen (s b) then x ← idx (s b) (w b); Ret (x =? c) else Ret false);
    if (same : bool) then Ret {| s := s b; buf := None; w := w b + 1 |} else
    buf ← make 0 (zlen (s b));
    kept ← slice_to (s b) (w b);
    write (copy buf 0 kept).1
  | Some buf => write buf
  end.

Definition string_ (b : lazybuf) : go bytes :=
  match buf b with Some buf => slice_to buf (w b) | None => slice_to (s b) (w b) end.

(** [b.w--]. *)
Definition back1 (b : lazybuf) : lazybuf := {| s := s b; buf := buf b; w := w b - 1 |}.

(** * Clean *)

(** [path[i] == '.' && rest()]. *)
Definition dot_and (c : Z) (rest : go bool) : go bool :=
  if c =? ch "." then rest else Ret false.
(** [i == n || path[i] == '/']. *)
Definition ends_at (path : bytes) (i : Z) : go bool :=
  if i =? zlen path then Ret true else c ← idx path i; Ret (c =? ch "/").

(** [for out.w > dotdot && out.index(out.w) != '/' { out.w-- }]. *)
Definition backtrack (out : lazybuf) (dotdot : Z) : go lazybuf :=
  while (S (Z.to_nat (w out)))
    (λ out, if dotdot <? w out then c ← index out (w out); Ret (negb (c =? ch "/")) else Ret false)
    (λ out, Ret (back1 out)) out.

(** [for ; r < n && path[r] != '/'; r++ { out.append(path[r]) }]. *)
Definition copy_element (path : bytes) (out : lazybuf) (r : Z) : go (lazybuf * Z) :=
  while (S (length path))
    (λ '(_, r), if r <? zlen path then c ← idx path r; Ret (negb (c =? ch "/")) else Ret false)
    (λ '(out, r), c ← idx path r; out ← append out c; Ret (out, r + 1)) (out, r).

(** One turn of the loop of [Clean]. *)
Definition clean_step (path : bytes) (rooted : bool) : lazybuf * Z * Z → go (lazybuf * Z * Z) := λ '(out, r, dotdot),
  c ← idx path r;
  if c =? ch "/" then Ret (out, r + 1, dotdot) else
  dot ← dot_and c (ends_at path (r + 1));
  if (dot : bool) then Ret (out, r + 1, dotdot) else
  ddot ← dot_and c (c1 ← idx path (r + 1); dot_and c1 (ends_at path (r + 2)));
  if (ddot : bool) then
    let r := r + 2 in
    if dotdot <? w out then
      out ← backtrack (back1 out) dotdot; Ret (out, r, dotdot)
    else if negb rooted then
      out ← (if 0 <? w out then append out (ch "/") else Ret out);
      out ← append out (ch ".");
      out ← append out (ch ".");
      Ret (out, r, w out)
    else Ret (out, r, dotdot)
  else
    out ← (if rooted && negb (w out =? 1) || negb rooted && negb (w out =? 0)
           then append out (ch "/") else Ret out);
    '(out, r) ← copy_element path out r;
    Ret (out, r, dotdot).

Definition Clean (path : bytes) : go bytes :=
  if zlen path =? 0 then Ret (str ".") else
  c ← idx path 0;
  let rooted := c =? ch "/" in
  let out := {| s := path; buf := None; w := 0 |} in
  '(out, r, dotdot) ← (if rooted then out ← append out (ch "/"); Ret (out, 1, 1) else Ret (out, 0, 0));
  '(out, _, _) ← while (S (length path)) (λ '(_, r, _), Ret (r <? zlen path)) (clean_step path rooted) (out, r, dotdot);
  if w out =? 0 then Ret (str ".") else string_ out.

(** * The other operations *)

Definition Split (path : bytes) : go (bytes * bytes) :=
  i ← LastIndex path (str "/");
  dir ← slice_to path (i + 1);
  file ← slice_from path (i + 1);
  Ret (dir, file).

Fixpoint Join_from {W : Host} (elem : list bytes) : go bytes :=
  match elem with
  | [] => Ret []
  | e :: rest =>
    if negb (zlen e =? 0) then p ← StringsOps.Join elem (str "/"); Clean p else Join_from rest
  end.
Definition Join {W : Host} (elem : list bytes) : go bytes := Join_from elem.

Definition Ext (path : bytes) : go bytes :=
  loop (S (length path)) (λ i,
    if 0 <=? i then
      c ← idx path i;
      if c =? ch "/" then Ret (inr [])
      else if c =? ch "." then e ← slice_from path i; Ret (inr e)
      else Ret (inl (i - 1))
    else Ret (inr [])) (zlen path - 1).

Definition Base (path : bytes) : go bytes :=
  if zlen path =? 0 then Ret (str ".") else
  path ← while (S (length path))
    (λ path, if 0 <? zlen path then c ← idx path (zlen path - 1); Ret (c =? ch "/") else Ret false)
    (λ path, slice path 0 (zlen path - 1)) path;
  i ← LastIndex path (str "/");
  path ← (if 0 <=? i then slice_from path (i + 1) else Ret path);
  if zlen path =? 0 then Ret (str "/") else Ret path.

Definition IsAbs (path : bytes) : go bool :=
  if 0 <? zlen path then c ← idx path 0; Ret (c =? ch "/") else Ret false.

Definition Dir (path : bytes) : go bytes :=
  '(dir, _) ← Split path; Clean dir.

#[local] Existing Instance Int64.
Example Path_run :
  Clean (str "abc//./../def/../../x") = Ret (str "../x") ∧ Clean (str "/../a/./b//") = Ret (str "/a/b") ∧
  Clean (str "abc/../..") = Ret (str "..") ∧ Clean (str "a/..") = Ret (str ".") ∧
  Join [str ""; str "a"; str "../b"] = Ret (str "b") ∧ Ext (str "a.d/b.tar.gz") = Ret (str ".gz") ∧
  Base (str "a/b//") = Ret (str "b") ∧ Dir (str "a/b/c") = Ret (str "a/b") ∧ Base (str "//") = Ret (str "/").
Proof. by vm_compute. Qed.

(** * The buffer holds a string *)

Definition slash : Z := ch "/".
Definition dot : bytes := str ".".
Definition ddot : bytes := str "..".

(** The bytes behind the buffer are [full], of which the first [zlen out] are kept. *)
Definition backed (p full : bytes) (b : lazybuf) : Prop :=
  s b = p ∧ default p (buf b) = full ∧ zlen full = zlen p.
Definition holds (p : bytes) (b : lazybuf) (out : bytes) : Prop :=
  w b = zlen out ∧ ∃ k, backed p (out ++ k) b.

Lemma holds_le p b out : holds p b out → zlen out <= zlen p.
Proof. intros (_ & k & _ & _ & Hl). rewrite zlen_app in Hl. pose proof (zlen_nonneg k). lia. Qed.

Lemma append_spec p b out c :
  holds p b out → zlen out < zlen p → append b c ⇓ λ b', holds p b' (out ++ [c]).
Proof.
  intros (Hw & k & Hs & Hb & Hl) Hlt. unfold append. rewrite zlen_app in Hl.
  destruct k as [|x k]; [change (zlen (@nil Z)) with 0 in Hl; lia|]. rewrite zlen_cons in Hl.
  assert (∀ y k', zlen k' = zlen k → holds p {| s := s b; buf := Some ((out ++ [y]) ++ k'); w := w b + 1 |} (out ++ [y])) as Hheld.
  { intros y k' Hk. split; [simpl; rewrite zlen_app, zlen_one; lia|]. exists k'.
    split; [done|]. split; [done|]. rewrite !zlen_app, zlen_one. lia. }
  destruct (buf b) as [bf|] eqn:Ebuf; simpl in Hb.
  - subst bf. rewrite upd_cursor by done. simpl. by apply Hheld.
  - rewrite Hs, Hw. destruct (Z.ltb_spec (zlen out) (zlen p)); [|lia].
    assert (p.[zlen out] = Some x) as Hx.
    { rewrite Hb, nthZ_app, decide_False by lia. by rewrite Z.sub_diag. }
    rewrite (idx_Some _ _ _ Hx). rewrite !go_bind_ret. destruct (Z.eqb_spec x c) as [->|Hne].
    + apply wp_ret. split; [simpl; rewrite zlen_app, zlen_one; lia|]. exists k.
      split; [done|]. rewrite <- app_assoc. split; [by simpl|]. rewrite !zlen_app, zlen_one. lia.
    + rewrite make_eq by apply zlen_nonneg. rewrite go_bind_ret, slice_to_eq by (pose proof (zlen_nonneg out); lia).
      rewrite go_bind_ret. assert (take (Z.to_nat (zlen out)) p = out) as -> by (by rewrite Hb, take_zlen_app).
      pose proof (copy_cursor [] (replicate (Z.to_nat (zlen p)) 0) out 0 eq_refl) as Ecopy. simpl in Ecopy.
      rewrite Ecopy by (rewrite zlen_replicate by apply zlen_nonneg; lia). simpl. rewrite drop_replicate.
      replace (Z.to_nat (zlen p) - length out)%nat with (S (length k)) by (unfold zlen in *; lia).
      simpl. rewrite upd_cursor by done. cbn [wp mbind go_bind]. rewrite Hs, Hw in Hheld. apply Hheld. unfold zlen. by rewrite length_replicate.
Qed.

Lemma string_spec p b out : holds p b out → string_ b = Ret out.
Proof.
  intros H. pose proof (holds_le _ _ _ H). destruct H as (Hw & k & Hs & Hb & Hl). unfold string_. rewrite Hw, Hs.
  pose proof (zlen_nonneg out). destruct (buf b); simpl in Hb; subst;
    (rewrite slice_to_eq; [by rewrite ?Hb, take_zlen_app|lia]).
Qed.

(** Backing up over a last element, and the slash before it if there is one. *)
Lemma backtrack_spec p b o sep e dotdot :
  holds p b (o ++ sep ++ e) → e ≠ [] → slash ∉ e →
  sep = [slash] ∨ sep = [] ∧ zlen o = dotdot → dotdot <= zlen o →
  backtrack (back1 b) dotdot ⇓ λ b', holds p b' o.
Proof.
  intros (Hw & k & Hbk) He Hns Hsep Hdd. unfold backtrack.
  rewrite !zlen_app in Hw. assert (1 <= zlen e).
  { destruct e; [done|]. rewrite zlen_cons. pose proof (zlen_nonneg e). lia. }
  pose proof (zlen_nonneg o).
  assert (0 <= zlen sep <= 1) by (destruct Hsep as [->|[-> _]]; unfold zlen; simpl; lia).
  apply wp_while with (I := λ b', backed p ((o ++ sep ++ e) ++ k) b' ∧ zlen o <= w b' < zlen o + zlen sep + zlen e)
    (meas := λ b', w b' - zlen o).
  - intros b' [Hb' Hw'].
    assert (w b' = zlen o → holds p b' o) as Hdone.
    { intros E. split; [done|]. exists ((sep ++ e) ++ k). by rewrite app_assoc. }
    destruct (Z.ltb_spec dotdot (w b')); [|by apply Hdone; lia].
    assert (index b' (w b') = idx ((o ++ sep ++ e) ++ k) (w b')) as ->.
    { destruct Hb' as (Es & Eb & _). unfold index. destruct (buf b') as [bf|]; simpl in Eb; by rewrite ?Es, <- ?Eb. }
    apply wp_bind, wp_idx; [rewrite !zlen_app; pose proof (zlen_nonneg k); lia|]. intros c Hc.
    apply wp_ret. destruct (Z.eqb_spec c (ch "/")) as [->|Hne]; simpl.
    + apply Hdone. destruct (decide (w b' = zlen o)) as [|Hn]; [done|]. exfalso. apply Hns.
      rewrite nthZ_app, decide_True in Hc by (rewrite !zlen_app; lia).
      rewrite nthZ_app, decide_False in Hc by lia. rewrite nthZ_app in Hc.
      destruct (decide (w b' - zlen o < zlen sep)) as [Hlt|Hge].
      * destruct Hsep as [->|[-> E]]; unfold zlen in *; simpl in *; lia.
      * unfold nthZ in Hc. case_decide; [|done]. by eapply list_elem_of_lookup_2.
    + assert (w b' ≠ zlen o) as Hn.
      { intros E. apply Hne. destruct Hsep as [->|[-> E']]; [|lia].
        rewrite E, nthZ_app, decide_True in Hc by (rewrite !zlen_app, zlen_one; lia).
        rewrite nthZ_app, decide_False, Z.sub_diag in Hc by lia. by injection Hc. }
      simpl. split; [split; [done|lia]|lia].
  - split; [done|]. simpl. lia.
  - simpl. lia.
Qed.

(** * Elements of a path *)

Lemma idx_at (pre post : bytes) x r : r = zlen pre → idx (pre ++ x :: post) r = Ret x.
Proof.
  intros ->. apply idx_Some. rewrite nthZ_app, decide_False by lia. by rewrite Z.sub_diag.
Qed.

(** What follows an element: the end or a slash. *)
Definition ends (tail : bytes) : Prop := tail = [] ∨ ∃ t, tail = slash :: t.

Lemma ends_at_true pre tail r : r = zlen pre → ends tail → ends_at (pre ++ tail) r = Ret true.
Proof.
  intros -> [->|[t ->]]; unfold ends_at.
  - rewrite app_nil_r. by rewrite Z.eqb_refl.
  - rewrite idx_at by done. case_match; [done|]. done.
Qed.
Lemma ends_at_false pre x tail r : r = zlen pre → x ≠ slash → ends_at (pre ++ x :: tail) r = Ret false.
Proof.
  intros -> Hx. unfold ends_at. rewrite idx_at by done. rewrite zlen_app, zlen_cons. pose proof (zlen_nonneg tail).
  destruct (Z.eqb_spec (zlen pre) (zlen pre + (1 + zlen tail))); [lia|]. rewrite go_bind_ret.
  destruct (Z.eqb_spec x (ch "/")) as [E|]; [by destruct Hx|done].
Qed.

Fixpoint cut (l : bytes) : list bytes :=
  match l with
  | [] => [[]]
  | x :: l' => match cut l' with
    | e :: es => if decide (x = slash) then [] :: e :: es else (x :: e) :: es
    | [] => []
    end
  end.
(** The non-empty strings between the slashes. *)
Definition elems (l : bytes) : list bytes := List.filter (λ e, negb (zlen e =? 0)) (cut l).

Lemma cut_ne l : ∃ e es, cut l = e :: es.
Proof.
  induction l as [|x l (e & es & IH)]; simpl; [eauto|]. rewrite IH. case_decide; eauto.
Qed.
Lemma elems_slash l : elems (slash :: l) = elems l.
Proof. unfold elems. simpl. by destruct (cut_ne l) as (e & es & ->). Qed.
Lemma cut_app e tail : slash ∉ e → ends tail →
  ∃ es, cut tail = [] :: es ∧ cut (e ++ tail) = e :: es.
Proof.
  intros He Ht. assert (∃ es, cut tail = [] :: es) as [es E].
  { destruct Ht as [->|[t ->]]; simpl; [eauto|]. destruct (cut_ne t) as (e' & es & ->). eauto. }
  exists es. split; [done|]. induction e as [|x e IH]; [done|]. simpl.
  apply not_elem_of_cons in He as [Hx He]. rewrite IH by done. by rewrite decide_False.
Qed.
Lemma elems_app e tail : slash ∉ e → e ≠ [] → ends tail → elems (e ++ tail) = e :: elems tail.
Proof.
  intros He Hne Ht. unfold elems. destruct (cut_app e tail He Ht) as (es & -> & ->). simpl.
  destruct e; [done|]. rewrite zlen_cons. pose proof (zlen_nonneg e).
  by destruct (Z.eqb_spec (1 + zlen e) 0); [lia|].
Qed.

(** A path that does not start with a slash starts with an element. *)
Lemma first_elem x l : x ≠ slash → ∃ e tail, x :: l = e ++ tail ∧ e ≠ [] ∧ (slash ∉ e) ∧ ends tail.
Proof.
  revert x. induction l as [|y l IH]; intros x Hx.
  - exists [x], []. split; [done|]. split; [done|]. split; [|by left]. rewrite list_elem_of_singleton. congruence.
  - destruct (decide (y = slash)) as [->|Hy].
    + exists [x], (slash :: l). split; [done|]. split; [done|]. split; [|right; eauto].
      rewrite list_elem_of_singleton. congruence.
    + destruct (IH y Hy) as (e & tail & -> & He & Hns & Ht). exists (x :: e), tail.
      split; [done|]. split; [done|]. split; [|done]. rewrite not_elem_of_cons. split; [congruence|done].
Qed.

(** * The reduction *)

(** The elements kept so far, the last first. *)
Definition reduce (rooted : bool) (st : list bytes) (e : bytes) : list bytes :=
  if decide (e = dot) then st
  else if decide (e = ddot) then
    match st with
    | x :: st' => if decide (x = ddot) then e :: st else st'
    | [] => if rooted then [] else [e]
    end
  else e :: st.

Definition render (rooted : bool) (st : list bytes) : bytes :=
  (if rooted then [slash] else []) ++ joined [slash] (rev st).

(** The path [Clean] promises: its elements reduced one by one. *)
Definition cleaned (path : bytes) : bytes :=
  let rooted := (match path with c :: _ => bool_decide (c = slash) | [] => false end) in
  match render rooted (fold_left (reduce rooted) (elems path) []) with
  | [] => dot
  | p => p
  end.

Definition proper (e : bytes) : Prop := e ≠ [] ∧ (slash ∉ e) ∧ e ≠ dot ∧ e ≠ ddot.
(** Ordinary elements above [k] elements [..], of which a rooted path has none. *)
Definition stack (rooted : bool) (k : nat) (st : list bytes) : Prop :=
  ∃ ns, st = ns ++ replicate k ddot ∧ Forall proper ns ∧ (rooted = true → k = 0%nat).

Lemma render_cons rooted st e :
  render rooted (e :: st) = render rooted st ++ (if decide (st = []) then [] else [slash]) ++ e.
Proof.
  unfold render. simpl. destruct (decide (st = [])) as [->|Hne]; [by rewrite app_nil_r|].
  destruct (rev st) as [|x a] eqn:E.
  - apply (f_equal (@rev _)) in E. rewrite rev_involutive in E. done.
  - simpl app at 2. rewrite joined_snoc. by rewrite <- app_assoc.
Qed.

Lemma zlen_render_cons rooted st e : e ≠ [] → zlen (render rooted st) < zlen (render rooted (e :: st)).
Proof.
  intros He. rewrite render_cons, zlen_app, zlen_app. destruct e; [done|]. rewrite zlen_cons.
  pose proof (zlen_nonneg e). pose proof (zlen_nonneg (if decide (st = []) then [] else [slash])). lia.
Qed.

Definition root_len (rooted : bool) : Z := if rooted then 1 else 0.
Lemma render_nil rooted : zlen (render rooted []) = root_len rooted.
Proof. by destruct rooted. Qed.
Lemma render_root rooted st : Forall (λ e, e ≠ []) st → zlen (render rooted st) = root_len rooted ↔ st = [].
Proof.
  intros H. split; [|by intros ->; apply render_nil]. destruct st as [|e st]; [done|]. inversion H as [|?? He Hst]; subst.
  intros E. exfalso. pose proof (zlen_render_cons rooted st e He).
  assert (∀ st, root_len rooted <= zlen (render rooted st)) as Hr.
  { intros st'. unfold render. rewrite zlen_app. destruct rooted; simpl; rewrite ?zlen_one; pose proof (zlen_nonneg (joined [slash] (rev st'))); unfold zlen in *; simpl; lia. }
  specialize (Hr st). lia.
Qed.

Lemma stack_nonempty rooted k st : stack rooted k st → Forall (λ e, e ≠ []) st.
Proof.
  intros (ns & -> & Hns & _). apply Forall_app. split.
  - eapply Forall_impl; [done|]. by intros e (? & _).
  - by apply Forall_replicate.
Qed.

Lemma stack_base rooted k ns :
  Forall proper ns → zlen (render rooted (replicate k ddot)) <= zlen (render rooted (ns ++ replicate k ddot)).
Proof.
  induction 1 as [|e ns He Hns IH]; [done|]. simpl. pose proof (zlen_render_cons rooted (ns ++ replicate k ddot) e (proj1 He)). lia.
Qed.

(** * The tests of [Clean] *)

Section tests.
Context (pre tail : bytes) (Htail : ends tail).

Lemma dot_test a e : slash ∉ a :: e →
  dot_and a (ends_at (pre ++ (a :: e) ++ tail) (zlen pre + 1)) = Ret (bool_decide (a :: e = dot)).
Proof.
  intros [_ Hns]%not_elem_of_cons. unfold dot_and. destruct (Z.eqb_spec a (ch ".")) as [->|Hne].
  - replace (pre ++ (ch "." :: e) ++ tail) with ((pre ++ [ch "."]) ++ e ++ tail) by (by rewrite <- app_assoc).
    destruct e as [|b e].
    + by rewrite ends_at_true by (done || by rewrite zlen_app).
    + apply not_elem_of_cons in Hns as [Hb _]. change ((b :: e) ++ tail) with (b :: e ++ tail).
      by rewrite ends_at_false by (by rewrite ?zlen_app).
  - rewrite bool_decide_false; [done|]. intros [= ->]. by apply Hne.
Qed.

Lemma ddot_test a e : slash ∉ a :: e → a :: e ≠ dot →
  dot_and a (c1 ← idx (pre ++ (a :: e) ++ tail) (zlen pre + 1);
             dot_and c1 (ends_at (pre ++ (a :: e) ++ tail) (zlen pre + 2))) = Ret (bool_decide (a :: e = ddot)).
Proof.
  intros [_ Hns]%not_elem_of_cons Hnd. unfold dot_and. destruct (Z.eqb_spec a (ch ".")) as [->|Hne].
  - destruct e as [|b e]; [done|]. apply not_elem_of_cons in Hns as [Hb Hns].
    replace (pre ++ (ch "." :: b :: e) ++ tail) with ((pre ++ [ch "."]) ++ b :: e ++ tail) by (by rewrite <- app_assoc).
    rewrite idx_at by (by rewrite zlen_app). rewrite go_bind_ret.
    destruct (Z.eqb_spec b (ch ".")) as [->|Hne].
    + replace ((pre ++ [ch "."]) ++ ch "." :: e ++ tail) with ((pre ++ [ch "."; ch "."]) ++ e ++ tail) by (by rewrite <- !app_assoc).
      destruct e as [|b e].
      * by rewrite ends_at_true by (done || by rewrite zlen_app).
      * apply not_elem_of_cons in Hns as [Hb' _]. change ((b :: e) ++ tail) with (b :: e ++ tail).
        by rewrite ends_at_false by (by rewrite ?zlen_app).
    + rewrite bool_decide_false; [done|]. intros [= -> _]. by apply Hne.
  - rewrite bool_decide_false; [done|]. intros [= -> _]. by apply Hne.
Qed.
End tests.

Lemma copy_element_spec pre e tail out o r :
  slash ∉ e → ends tail → r = zlen pre → holds (pre ++ e ++ tail) out o → zlen o <= zlen pre →
  copy_element (pre ++ e ++ tail) out r ⇓ λ '(out', r'),
    holds (pre ++ e ++ tail) out' (o ++ e) ∧ r' = zlen pre + zlen e.
Proof.
  intros He Ht -> Hout Hle. set (path := pre ++ e ++ tail) in *. unfold copy_element.
  apply wp_while with (I := λ '(out', r'), ∃ e1 e2, e = e1 ++ e2 ∧ r' = zlen pre + zlen e1 ∧ holds path out' (o ++ e1))
    (meas := λ '(_, r'), zlen path - r').
  - intros [out' r'] (e1 & e2 & E & -> & Hh).
    assert (path = (pre ++ e1) ++ e2 ++ tail) as Epath by (subst path; by rewrite E, <- !app_assoc).
    assert (zlen path = zlen pre + zlen e1 + zlen e2 + zlen tail) as El by (rewrite Epath, !zlen_app; lia).
    pose proof (zlen_nonneg e2). pose proof (zlen_nonneg tail).
    destruct e2 as [|x e2].
    + assert ((if zlen pre + zlen e1 <? zlen path then c ← idx path (zlen pre + zlen e1); Ret (negb (c =? ch "/")) else Ret false) = Ret false) as ->.
      { destruct Ht as [->|[t ->]].
        - change (zlen (@nil Z)) with 0 in El. destruct (Z.ltb_spec (zlen pre + zlen e1) (zlen path)); [lia|done].
        - case_match; [|done]. rewrite Epath. simpl app. by rewrite idx_at by (by rewrite zlen_app). }
      apply wp_ret. rewrite app_nil_r in E. subst e1. by split.
    + rewrite zlen_cons in El. pose proof (zlen_nonneg e2). destruct (Z.ltb_spec (zlen pre + zlen e1) (zlen path)); [|lia].
      rewrite Epath at 1. simpl app. rewrite idx_at by (by rewrite zlen_app). rewrite go_bind_ret.
      apply wp_ret. destruct (Z.eqb_spec x (ch "/")) as [->|Hx].
      { exfalso. apply He. rewrite E. apply elem_of_app. right. left. }
      simpl negb. cbv beta iota. rewrite Epath at 1. simpl app. rewrite idx_at by (by rewrite zlen_app). rewrite go_bind_ret.
      eapply wp_bind_mono; [apply append_spec; [done|rewrite zlen_app; lia]|].
      intros out'' Hh''. apply wp_ret. split; [|lia]. exists (e1 ++ [x]), e2.
      rewrite <- !app_assoc in *. split; [done|]. split; [rewrite zlen_app, zlen_one; lia|done].
  - exists [], e. rewrite app_nil_r. split; [done|]. split; [rewrite zlen_nil; lia|done].
  - pose proof (zlen_nonneg e). pose proof (zlen_nonneg tail). subst path. unfold zlen in *. rewrite !length_app in *. lia.
Qed.

(** * The loop of [Clean] *)

Definition cleaning (path : bytes) (rooted : bool) (final : list bytes) : lazybuf * Z * Z → Prop := λ '(out, r, dotdot),
  ∃ pre rest st k, path = pre ++ rest ∧ r = zlen pre ∧ holds path out (render rooted st) ∧ stack rooted k st ∧
    dotdot = zlen (render rooted (replicate k ddot)) ∧ zlen (render rooted st) <= r ∧
    (st = [] ∨ zlen (render rooted st) < r ∨ ends rest) ∧ fold_left (reduce rooted) (elems rest) st = final.

Lemma stack_push rooted k st e : proper e → stack rooted k st → stack rooted k (e :: st).
Proof. intros He (ns & -> & Hns & Hk). exists (e :: ns). split; [done|]. split; [by constructor|done]. Qed.

(** A [..] over an ordinary element removes it; elsewhere it stays, or vanishes at the root. *)
Lemma clean_ddot pre tail rooted final out st k dotdot :
  ends tail → let path := pre ++ ddot ++ tail in
  holds path out (render rooted st) → stack rooted k st → dotdot = zlen (render rooted (replicate k ddot)) →
  zlen (render rooted st) <= zlen pre → st = [] ∨ zlen (render rooted st) < zlen pre →
  fold_left (reduce rooted) (elems tail) (reduce rooted st ddot) = final →
  (if dotdot <? w out then
     out ← backtrack (back1 out) dotdot; Ret (out, zlen pre + 2, dotdot)
   else if negb rooted then
     out ← (if 0 <? w out then append out (ch "/") else Ret out);
     out ← append out (ch "."); out ← append out (ch "."); Ret (out, zlen pre + 2, w out)
   else Ret (out, zlen pre + 2, dotdot)) ⇓ λ '(out', r', dotdot'),
    cleaning path rooted final (out', r', dotdot') ∧ r' = zlen pre + 2.
Proof.
  intros Ht path Hout (ns & -> & Hns & Hk) -> Hle Hlt Hfin.
  assert (path = (pre ++ ddot) ++ tail) as Epath by (subst path; by rewrite <- app_assoc).
  assert (zlen (pre ++ ddot) = zlen pre + 2) as E2 by (by rewrite zlen_app).
  assert (zlen pre + 2 <= zlen path) as Hroom by (rewrite Epath, zlen_app, E2; pose proof (zlen_nonneg tail); lia).
  destruct ns as [|e ns].
  - rewrite app_nil_l in *. destruct (Z.ltb_spec (zlen (render rooted (replicate k ddot))) (w out)) as [Hw|_].
    { destruct Hout as [Hw' _]. lia. }
    destruct rooted; simpl negb; cbv iota.
    + rewrite Hk in * by done. simpl replicate in *. apply wp_ret. split; [|done]. exists (pre ++ ddot), tail, [], 0%nat.
      split; [done|]. split; [lia|]. split; [done|]. split; [exists []; done|]. split; [done|].
      split; [lia|]. split; [by left|done].
    + set (o := render false (replicate k ddot)) in *.
      eapply wp_bind_mono with (Q := λ out', holds path out' (o ++ if decide (replicate k ddot = []) then [] else [slash])).
      { destruct Hout as [Hw Hb]. rewrite Hw. destruct (Z.ltb_spec 0 (zlen o)) as [Hpos|Hz].
        - rewrite decide_False; [apply append_spec; [by split|lia]|]. intros E. unfold o in Hpos. by rewrite E in Hpos.
        - assert (zlen o = root_len false) as Hz' by (pose proof (zlen_nonneg o); simpl; lia).
          apply render_root in Hz'; [|by apply (stack_nonempty false k); exists []].
          rewrite decide_True by done. rewrite app_nil_r. by apply wp_ret; split. }
      intros o1 Ho1. assert (zlen (o ++ (if decide (replicate k ddot = []) then [] else [slash])) <= zlen pre) as Hl1.
      { rewrite zlen_app. case_decide as Ek; [rewrite zlen_nil; lia|]. rewrite zlen_one.
        destruct Hlt as [?|?]; [done|lia]. }
      eapply wp_bind_mono; [apply append_spec; [done|lia]|]. intros o2 Ho2.
      eapply wp_bind_mono; [apply (append_spec _ _ _ _ Ho2); rewrite zlen_app, zlen_one; lia|]. intros o3 Ho3.
      assert (holds path o3 (render false (replicate (S k) ddot))) as Ho.
      { simpl replicate. rewrite render_cons. fold o. cbv beta in Ho3. rewrite <- !app_assoc in Ho3. exact Ho3. }
      apply wp_ret. split; [|done]. exists (pre ++ ddot), tail, (replicate (S k) ddot), (S k).
      split; [done|]. split; [lia|]. split; [done|]. split; [exists []; done|]. split; [by apply Ho|].
      split. { destruct Ho as [<- _]. destruct Ho3 as [-> _]. rewrite !zlen_app, !zlen_one in *. lia. }
      split; [by right; right|]. rewrite <- Hfin. f_equal. simpl. by destruct k.
  - inversion Hns as [|?? He Hns']; subst. rewrite <- app_comm_cons in *. set (st := ns ++ replicate k ddot) in *.
    pose proof (zlen_render_cons rooted st e (proj1 He)) as Hinc. pose proof (stack_base rooted k ns Hns') as Hbase. fold st in Hbase.
    destruct (Z.ltb_spec (zlen (render rooted (replicate k ddot))) (w out)) as [_|Hw]; [|destruct Hout as [Hw' _]; lia].
    rewrite render_cons in Hout.
    eapply wp_bind_mono.
    { eapply (backtrack_spec _ _ _ _ _ _ Hout); [apply He|apply He| |done].
      destruct (decide (st = [])) as [E|]; [right; split; [done|]|by left].
      unfold st in E. apply app_eq_nil in E as [En Er]. unfold st. by rewrite En, Er. }
    intros out' Ho. apply wp_ret. split; [|done]. exists (pre ++ ddot), tail, st, k.
    split; [done|]. split; [lia|]. split; [done|]. split; [by exists ns|]. split; [done|].
    split; [lia|]. split; [by right; right|]. unfold reduce. simpl. rewrite decide_False by apply He. done.
Qed.

(** An ordinary element is copied, after a slash unless it is the first. *)
Lemma clean_elem pre e tail rooted final out st k dotdot :
  proper e → ends tail → let path := pre ++ e ++ tail in
  holds path out (render rooted st) → stack rooted k st → dotdot = zlen (render rooted (replicate k ddot)) →
  zlen (render rooted st) <= zlen pre → st = [] ∨ zlen (render rooted st) < zlen pre →
  fold_left (reduce rooted) (elems tail) (e :: st) = final →
  (out ← (if rooted && negb (w out =? 1) || negb rooted && negb (w out =? 0) then append out (ch "/") else Ret out);
   '(out, r) ← copy_element path out (zlen pre); Ret (out, r, dotdot)) ⇓ λ '(out', r', dotdot'),
    cleaning path rooted final (out', r', dotdot') ∧ r' = zlen pre + zlen e.
Proof.
  intros He Ht path Hout Hst -> Hle Hlt Hfin.
  assert (zlen path = zlen pre + zlen e + zlen tail) as El by (subst path; rewrite !zlen_app; lia).
  assert (1 <= zlen e) by (destruct He as [He _]; destruct e as [|x e]; [done|rewrite zlen_cons; pose proof (zlen_nonneg e); lia]).
  pose proof (zlen_nonneg tail). set (sl := if decide (st = []) then [] else [slash]).
  assert (rooted && negb (w out =? 1) || negb rooted && negb (w out =? 0) = negb (w out =? root_len rooted)) as ->
    by (destruct rooted; simpl; by rewrite ?orb_false_r).
  pose proof (render_root rooted st (stack_nonempty _ _ _ Hst)) as Hroot.
  eapply wp_bind_mono with (Q := λ out', holds path out' (render rooted st ++ sl) ∧ zlen (render rooted st ++ sl) <= zlen pre).
  { unfold sl. rewrite zlen_app. destruct (Hout) as [Hw _]. rewrite Hw.
    destruct (Z.eqb_spec (zlen (render rooted st)) (root_len rooted)) as [E|E]; simpl.
    - rewrite decide_True by (by apply Hroot). rewrite app_nil_r, zlen_nil. split; [done|lia].
    - rewrite decide_False by (by rewrite <- Hroot). rewrite zlen_one.
      destruct Hlt as [->|Hlt]; [by rewrite render_nil in E|].
      eapply wp_mono; [apply append_spec; [done|lia]|]. intros out' Ho. split; [done|lia]. }
  intros out1 [Ho1 Hl1]. eapply wp_bind_mono; [apply copy_element_spec; [apply He|done|done|done|lia]|].
  intros [out2 r2] [Ho2 ->]. apply wp_ret. split; [|done].
  exists (pre ++ e), tail, (e :: st), k. rewrite render_cons. fold sl. rewrite <- (app_assoc (render rooted st)) in Ho2.
  split; [subst path; by rewrite <- app_assoc|]. split; [by rewrite zlen_app|]. split; [done|].
  split; [by apply stack_push|]. split; [done|]. rewrite !zlen_app in *. split; [lia|]. split; [by right; right|done].
Qed.

Lemma clean_step_spec path rooted final st0 :
  let '(out, r, dotdot) := st0 in
  cleaning path rooted final (out, r, dotdot) → r < zlen path →
  clean_step path rooted (out, r, dotdot) ⇓ λ '(out', r', dotdot'),
    cleaning path rooted final (out', r', dotdot') ∧ r < r' <= zlen path.
Proof.
  destruct st0 as [[out r] dotdot]. intros (pre & rest & st & k & -> & -> & Hout & Hst & Hdd & Hle & Hlt & Hfin) Hr.
  destruct rest as [|x rest]; [rewrite app_nil_r in Hr; lia|].
  unfold clean_step. cbv beta iota. rewrite (idx_at pre rest x (zlen pre) eq_refl). rewrite go_bind_ret.
  destruct (Z.eqb_spec x (ch "/")) as [->|Hx].
  { apply wp_ret. rewrite zlen_app, zlen_cons. pose proof (zlen_nonneg rest). split; [|lia].
    exists (pre ++ [slash]), rest, st, k. rewrite <- app_assoc, zlen_app, zlen_one.
    split; [done|]. split; [done|]. split; [done|]. split; [done|]. split; [done|]. split; [lia|].
    split; [right; left; lia|]. by rewrite elems_slash in Hfin. }
  destruct (first_elem x rest Hx) as (e & tail & E & He & Hns & Ht). rewrite E in *.
  rewrite elems_app in Hfin by done. simpl fold_left in Hfin.
  assert (st = [] ∨ zlen (render rooted st) < zlen pre) as Hlt'.
  { destruct Hlt as [?|[?|Hends]]; [by left|by right|]. destruct Hends as [Hends|[t Hends]]; rewrite <- E in Hends; [done|].
    injection Hends as -> _. by destruct Hx. }
  assert (zlen pre + zlen e <= zlen (pre ++ e ++ tail) ∧ 1 <= zlen e) as [Hlen He1].
  { rewrite !zlen_app. pose proof (zlen_nonneg tail). destruct e as [|y e]; [done|]. rewrite zlen_cons. pose proof (zlen_nonneg e). lia. }
  destruct e as [|y e]; [done|]. injection E as -> ->.
  rewrite dot_test by done. rewrite go_bind_ret. unfold reduce at 2 in Hfin. case_bool_decide as Hd.
  { apply wp_ret. rewrite decide_True in Hfin by done. split; [|lia]. exists (pre ++ y :: e), tail, st, k.
    rewrite <- app_assoc, Hd, zlen_app. split; [done|]. split; [done|]. split; [by rewrite <- Hd|]. split; [done|].
    split; [done|]. split; [change (zlen dot) with 1; lia|]. split; [by right; right|done]. }
  rewrite decide_False in Hfin by done. rewrite ddot_test by done. rewrite go_bind_ret. case_bool_decide as Hdd'.
  - rewrite decide_True in Hfin by done. rewrite Hdd' in *.
    eapply wp_mono; [eapply clean_ddot; [done|done|exact Hst|done|done|done|]|].
    + by unfold reduce.
    + intros [[out' r'] dd'] [Hc ->]. split; [done|]. change (zlen ddot) with 2 in *. lia.
  - rewrite decide_False in Hfin by done.
    eapply wp_mono; [eapply clean_elem; [|done|done|exact Hst|done|done|done|exact Hfin]|].
    + by split.
    + intros [[out' r'] dd'] [Hc ->]. split; [done|]. lia.
Qed.

Lemma Clean_spec path : Clean path = Ret (cleaned path).
Proof.
  unfold Clean. destruct path as [|c path']; [done|]. set (path := c :: path').
  rewrite (proj2 (Z.eqb_neq (zlen path) 0)) by (unfold path; rewrite zlen_cons; pose proof (zlen_nonneg path'); lia).
  rewrite (idx_at [] path' c 0 eq_refl : idx path 0 = Ret c), go_bind_ret.
  set (rooted := c =? ch "/"). set (final := fold_left (reduce rooted) (elems path) []).
  assert (cleaned path = match render rooted final with [] => dot | p => p end) as ->.
  { unfold cleaned, path. replace (bool_decide (c = slash)) with rooted; [done|].
    unfold rooted. case_bool_decide as E; [by apply Z.eqb_eq|by apply Z.eqb_neq]. }
  match goal with |- ?m = Ret ?r => assert (m ⇓ λ r', r' = r) as H; [|by apply wp_ex in H as (? & -> & ->)] end.
  assert (1 <= zlen path) as Hn by (unfold path; rewrite zlen_cons; pose proof (zlen_nonneg path'); lia).
  assert (holds path {| s := path; buf := None; w := 0 |} []) as H0 by (split; [done|]; by exists path).
  eapply wp_bind_mono with (Q := λ '(out, r, dotdot), cleaning path rooted final (out, r, dotdot) ∧ 0 <= r <= zlen path).
  { destruct rooted eqn:Er.
    - apply Z.eqb_eq in Er. eapply wp_bind_mono; [apply append_spec; [done|rewrite zlen_nil; lia]|]. intros out Ho.
      apply wp_ret. split; [|lia]. exists [c], path', [], 0%nat. split; [done|]. split; [done|]. split; [exact Ho|].
      split; [by exists []|]. split; [done|]. split; [change (zlen (render true [])) with 1; change (zlen [c]) with 1; lia|].
      split; [by left|]. unfold final, path. by rewrite Er, elems_slash.
    - apply wp_ret. split; [|lia]. exists [], path, [], 0%nat. split; [done|]. split; [done|]. split; [done|].
      split; [by exists []|]. split; [done|]. split; [by vm_compute|]. split; [by left|done]. }
  intros [[out r] dotdot] [Hc Hr].
  eapply wp_bind_mono with (Q := λ '(out, _, _), holds path out (render rooted final)).
  { apply wp_while with (I := λ '(out, r, dotdot), cleaning path rooted final (out, r, dotdot) ∧ 0 <= r <= zlen path)
      (meas := λ '(_, r, _), zlen path - r).
    - intros [[out1 r1] dd1] [Hc1 Hr1]. apply wp_ret. destruct (Z.ltb_spec r1 (zlen path)) as [Hlt|Hge].
      + eapply wp_mono; [by apply (clean_step_spec path rooted final (out1, r1, dd1))|].
        intros [[out2 r2] dd2] [Hc2 Hr2]. split; [split; [done|lia]|lia].
      + destruct Hc1 as (pre & rest & st & k & -> & -> & Ho & _ & _ & _ & _ & <-). rewrite zlen_app in *.
        destruct rest as [|y rest]; [done|]. rewrite zlen_cons in *. pose proof (zlen_nonneg rest). lia.
    - done.
    - unfold zlen in *. lia. }
  intros [[out' r'] dd'] Ho. destruct (Ho) as [Hw _]. rewrite Hw.
  destruct (render rooted final) as [|x p] eqn:Ep; [done|]. rewrite zlen_cons. pose proof (zlen_nonneg p).
  destruct (Z.eqb_spec (1 + zlen p) 0); [lia|]. by rewrite (string_spec _ _ _ Ho).
Qed.

(** * Normal forms *)

Lemma elems_cat a b : elems (a ++ slash :: b) = elems a ++ elems b.
Proof.
  unfold elems. assert (cut (a ++ slash :: b) = cut a ++ cut b) as ->.
  - induction a as [|x a IH]; simpl.
    + destruct (cut_ne b) as (e & es & ->). done.
    + rewrite IH. destruct (cut_ne a) as (e & es & ->). simpl. by case_decide.
  - by rewrite List.filter_app.
Qed.

(** What a path element can be. *)
Definition element (e : bytes) : Prop := e ≠ [] ∧ (slash ∉ e).

Lemma elems_element l : Forall element (elems l).
Proof.
  assert (Forall (λ e, slash ∉ e) (cut l)) as H.
  { induction l as [|x l IH]; simpl; [repeat constructor; apply not_elem_of_nil|].
    destruct (cut_ne l) as (e & es & E). rewrite E in *. inversion IH; subst.
    case_decide; constructor; try done; [apply not_elem_of_nil|]. rewrite not_elem_of_cons. split; [congruence|done]. }
  unfold elems. rewrite Forall_forall in *. intros e He. apply list_elem_of_In, filter_In in He as [He Hne].
  split; [intros ->; done|]. by apply H, list_elem_of_In.
Qed.

Lemma elems_one e : element e → elems e = [e].
Proof. intros [He Hns]. rewrite <- (app_nil_r e). rewrite elems_app by (done || by left). by rewrite app_nil_r. Qed.

Lemma elems_joined l : elems (joined [slash] l) = concat (map elems l).
Proof.
  induction l as [|e l IH]; [done|]. destruct l as [|e' l]; [by simpl; rewrite app_nil_r|].
  rewrite joined_cons by done. 
  change ([slash] ++ joined [slash] (e' :: l)) with (slash :: joined [slash] (e' :: l)). by rewrite elems_cat, IH.
Qed.

Lemma concat_elements l : Forall element l → concat (map elems l) = l.
Proof. induction 1 as [|e l He Hl IH]; [done|]. simpl. by rewrite IH, elems_one. Qed.

Lemma stack_element rooted k st : stack rooted k st → Forall element st.
Proof.
  intros (ns & -> & Hns & _). apply Forall_app. split.
  - eapply Forall_impl; [done|]. by intros e (? & ? & _).
  - apply Forall_replicate. split; [done|]. rewrite list_elem_of_In. by intros [?|[?|[]]].
Qed.

Lemma reduce_stack rooted k st e : element e → stack rooted k st → ∃ k', stack rooted k' (reduce rooted st e).
Proof.
  intros He Hst. unfold reduce. destruct (decide (e = dot)) as [|Hd]; [by exists k|].
  destruct (decide (e = ddot)) as [->|Hdd].
  - destruct Hst as ([|e' ns] & -> & Hns & Hk); simpl.
    + destruct k as [|k]; simpl.
      * destruct rooted; [exists 0%nat|exists 1%nat]; by exists [].
      * destruct rooted; [by discriminate Hk|]. exists (S (S k)). by exists [].
    + inversion Hns as [|?? He' Hns']; subst. rewrite decide_False by apply He'. exists k. by exists ns.
  - exists k. apply stack_push; [|done]. split; [apply He|]. split; [apply He|done].
Qed.

Lemma reduce_all rooted es st k :
  Forall element es → stack rooted k st → ∃ k', stack rooted k' (fold_left (reduce rooted) es st).
Proof.
  intros Hes. revert st k. induction Hes as [|e es He Hes IH]; intros st k Hst; simpl; [by exists k|].
  destruct (reduce_stack rooted k st e He Hst) as [k' Hst']. by eapply IH.
Qed.

(** Reducing the elements of a stack builds it. *)
Lemma reduce_stack_id rooted k st : stack rooted k st → fold_left (reduce rooted) (rev st) [] = st.
Proof.
  intros (ns & -> & Hns & Hk). rewrite rev_app_distr, fold_left_app.
  assert (fold_left (reduce rooted) (rev (replicate k ddot)) [] = replicate k ddot) as ->.
  { destruct rooted; [by rewrite Hk|]. clear. induction k as [|k IH]; [done|].
    simpl. rewrite fold_left_app, IH. simpl. unfold reduce. by destruct k. }
  induction Hns as [|e ns He Hns IH]; [done|]. simpl. rewrite fold_left_app, IH. simpl. unfold reduce.
  destruct He as (_ & _ & Hd & Hdd). by rewrite !decide_False.
Qed.

Definition rooted_path (p : bytes) : bool := match p with c :: _ => bool_decide (c = slash) | [] => false end.

Lemma IsAbs_eq p : IsAbs p = Ret (rooted_path p).
Proof.
  unfold IsAbs. destruct p as [|c p]; [done|]. rewrite zlen_cons. pose proof (zlen_nonneg p).
  destruct (Z.ltb_spec 0 (1 + zlen p)); [|lia]. rewrite (idx_at [] p c 0 eq_refl : idx (c :: p) 0 = Ret c), go_bind_ret.
  simpl. f_equal. case_bool_decide as E; [by apply Z.eqb_eq|by apply Z.eqb_neq].
Qed.

Lemma render_rooted rooted k st : stack rooted k st → rooted_path (render rooted st) = rooted.
Proof.
  intros Hst%stack_element%Forall_rev. unfold render. destruct rooted; [done|]. simpl app. unfold rooted_path.
  destruct (rev st) as [|e es]; [done|]. inversion Hst as [|?? [He Hns] _]; subst.
  destruct e as [|x e]; [done|]. apply not_elem_of_cons in Hns as [Hx _]. destruct es; simpl; apply bool_decide_eq_false; congruence.
Qed.

Lemma render_elems rooted k st : stack rooted k st → elems (render rooted st) = rev st.
Proof.
  intros Hst%stack_element%Forall_rev. unfold render.
  assert (elems ((if rooted then [slash] else []) ++ joined [slash] (rev st)) = elems (joined [slash] (rev st))) as ->.
  { destruct rooted; [apply elems_slash|done]. }
  by rewrite elems_joined, concat_elements.
Qed.

(** The stack of a path. *)
Definition stack_of (p : bytes) : list bytes := fold_left (reduce (rooted_path p)) (elems p) [].
Lemma stack_of_spec p : ∃ k, stack (rooted_path p) k (stack_of p).
Proof. apply (reduce_all _ _ [] 0%nat); [apply elems_element|by exists []]. Qed.
Lemma cleaned_eq p : cleaned p = match render (rooted_path p) (stack_of p) with [] => dot | q => q end.
Proof. done. Qed.

Lemma cleaned_idem p : cleaned (cleaned p) = cleaned p.
Proof.
  destruct (stack_of_spec p) as [k Hst]. rewrite (cleaned_eq p).
  pose proof (render_rooted _ _ _ Hst) as Hr. pose proof (render_elems _ _ _ Hst) as He.
  assert (stack_of (render (rooted_path p) (stack_of p)) = stack_of p) as Hs.
  { unfold stack_of at 1. rewrite Hr, He. by apply (reduce_stack_id _ k). }
  destruct (render _ _) as [|x q] eqn:E; [done|]. by rewrite cleaned_eq, Hr, Hs, E.
Qed.

(** C20: [Clean] neither panics nor runs out of fuel, and its lazily copied
    buffer holds the path whose elements are those of the argument reduced one
    by one: [.] dropped, [..] removing the ordinary element before it, dropped at
    the root and kept otherwise. The result is [.] or has ordinary elements after
    leading [..], of which a rooted path has none; it is rooted exactly when the
    argument is, and cleaning it again changes nothing. *)
Theorem Clean_cleaned path :
  Clean path = Ret (cleaned path) ∧ Clean (cleaned path) = Ret (cleaned path) ∧
  IsAbs (cleaned path) = IsAbs path ∧
  (cleaned path = dot ∨ ∃ k ns, elems (cleaned path) = replicate k ddot ++ ns ∧ Forall proper ns ∧
     (IsAbs path = Ret false ∨ k = 0%nat)).
Proof.
  rewrite !Clean_spec, cleaned_idem. split; [done|]. split; [done|]. rewrite !IsAbs_eq.
  destruct (stack_of_spec path) as [k Hst]. pose proof (render_rooted _ _ _ Hst) as Hr. rewrite (cleaned_eq path).
  pose proof (render_elems _ _ _ Hst) as He. destruct (render _ _) as [|x q].
  - split; [|by left]. by rewrite <- Hr.
  - rewrite Hr. split; [done|]. right. destruct Hst as (ns & Es & Hns & Hk). exists k, (rev ns).
    rewrite He, Es, rev_app_distr. split; [f_equal|].
    + clear. induction k as [|k IH]; [done|]. simpl rev. by rewrite IH, <- replicate_cons_app.
    + split; [by apply Forall_rev|]. destruct (rooted_path path); [right; auto|by left].
Qed.

(** * The parts of a path *)

Lemma last_slash path :
  ∃ dir file, path = dir ++ file ∧ (slash ∉ file) ∧ (dir = [] ∨ ∃ d, dir = d ++ [slash]) ∧
    LastIndex path (str "/") = Ret (zlen dir - 1).
Proof.
  destruct (proj1 (wp_ex _ _) (LastIndex_spec path (str "/") ltac:(done))) as (i & E & Hi).
  change (str "/") with [slash] in *. rewrite E. destruct Hi as [[-> Hno]|[Hi Hno]].
  - exists [], path. split; [done|]. split; [|split; [by left|done]].
    intros Hin. apply list_elem_of_lookup in Hin as [n Hn]. apply (Hno (Z.of_nat n)).
    by rewrite occurs_byte, nthZ_lookup.
  - apply occurs_byte in Hi. pose proof (nthZ_Some _ _ _ Hi) as Hr.
    pose proof Hi as Hn. unfold nthZ in Hn. rewrite decide_True in Hn by lia.
    exists (take (Z.to_nat i) path ++ [slash]), (drop (S (Z.to_nat i)) path).
    split; [rewrite <- app_assoc; symmetry; by apply take_drop_middle|]. split; [|split; [right; eauto|]].
    + intros Hin. apply list_elem_of_lookup in Hin as [m Hm]. rewrite lookup_drop in Hm.
      apply (Hno (Z.of_nat (S (Z.to_nat i) + m))); [lia|]. by rewrite occurs_byte, nthZ_lookup.
    + f_equal. rewrite zlen_app, zlen_one, zlen_take by lia. lia.
Qed.

(** Cutting after the last slash. *)
Lemma cut_last (dir file : bytes) : slice_to (dir ++ file) (zlen dir - 1 + 1) = Ret dir ∧ slice_from (dir ++ file) (zlen dir - 1 + 1) = Ret file.
Proof.
  replace (zlen dir - 1 + 1) with (zlen dir) by lia. pose proof (zlen_nonneg dir). pose proof (zlen_nonneg file).
  rewrite slice_to_eq, slice_from_eq by (rewrite zlen_app; lia). by rewrite take_zlen_app, drop_zlen_app.
Qed.

(** [base] follows the last dot of [file], if there is one. *)
Definition ext_of (file e : bytes) : Prop :=
  e = [] ∧ (46 ∉ file) ∨ ∃ stem t, file = stem ++ e ∧ e = 46 :: t ∧ (46 ∉ t).

Lemma Ext_spec dir file :
  (slash ∉ file) → (dir = [] ∨ ∃ d, dir = d ++ [slash]) → Ext (dir ++ file) ⇓ ext_of file.
Proof.
  intros Hf Hd. unfold Ext.
  apply wp_loop with (I := λ i, ∃ f1 f2, file = f1 ++ f2 ∧ i = zlen dir + zlen f1 - 1 ∧ (46 ∉ f2)) (meas := λ i, i + 1).
  - intros i (f1 & f2 & E & -> & Hdot). pose proof (zlen_nonneg dir). pose proof (zlen_nonneg f1).
    destruct (decide (f1 = [])) as [->|Hne].
    + simpl in E. subst f2. change (zlen (@nil Z)) with 0. destruct Hd as [->|[d ->]]; [by left|].
      rewrite zlen_app, zlen_one. pose proof (zlen_nonneg d). destruct (Z.leb_spec 0 (zlen d + 1 + 0 - 1)); [|lia].
      rewrite <- app_assoc. simpl app. rewrite idx_at by lia. rewrite go_bind_ret. by left.
    + destruct f1 as [|x f1 _] using rev_ind; [done|]. rewrite zlen_app, zlen_one in *. pose proof (zlen_nonneg f1).
      destruct (Z.leb_spec 0 (zlen dir + (zlen f1 + 1) - 1)); [|lia].
      rewrite E. replace (dir ++ (f1 ++ [x]) ++ f2) with ((dir ++ f1) ++ x :: f2) by (by rewrite <- !app_assoc).
      rewrite idx_at by (rewrite zlen_app; lia). rewrite go_bind_ret.
      assert (x ≠ slash) as Hx.
      { intros ->. apply Hf. rewrite E. apply elem_of_app. left. apply elem_of_app. right. by left. }
      destruct (Z.eqb_spec x (ch "/")); [done|]. destruct (Z.eqb_spec x (ch ".")) as [->|Hd'].
      * replace (zlen dir + (zlen f1 + 1) - 1) with (zlen (dir ++ f1)) by (rewrite zlen_app; lia).
        rewrite slice_from_eq by (rewrite !zlen_app, zlen_cons; pose proof (zlen_nonneg f2); lia).
        rewrite drop_zlen_app. right. exists f1, f2. by rewrite <- app_assoc.
      * apply wp_ret. split; [|lia]. exists f1, (x :: f2). split; [by rewrite <- ?app_assoc|]. split; [lia|].
        rewrite not_elem_of_cons. split; [by intros <-|done].
  - exists file, []. rewrite app_nil_r. split; [done|]. rewrite zlen_app. split; [done|]. apply not_elem_of_nil.
  - unfold zlen. rewrite length_app. lia.
Qed.

(** The last element of the path, with the two special answers of [Base]. *)
Definition base_of (path : bytes) : bytes :=
  match last (elems path) with Some e => e | None => match path with [] => dot | _ => [slash] end end.

Lemma trailing path : ∃ body n, path = body ++ replicate n slash ∧ (body = [] ∨ ∃ b x, body = b ++ [x] ∧ x ≠ slash).
Proof.
  induction path as [|x path (body & n & -> & Hb)] using rev_ind; [by exists [], 0%nat; split; [|left]|].
  destruct (decide (x = slash)) as [->|Hx].
  - exists body, (S n). by rewrite <- app_assoc, <- replicate_cons_app.
  - exists ((body ++ replicate n slash) ++ [x]), 0%nat. rewrite app_nil_r. split; [done|]. right. eauto.
Qed.

Lemma elems_trailing body n : elems (body ++ replicate n slash) = elems body.
Proof.
  revert body. induction n as [|n IH]; intros body; simpl; [by rewrite app_nil_r|].
  rewrite elems_cat. change (replicate n slash) with ([] ++ replicate n slash). rewrite IH. by rewrite app_nil_r.
Qed.

Lemma Base_spec path : Base path = Ret (base_of path).
Proof.
  unfold Base. destruct path as [|c0 p0]; [done|]. set (path := c0 :: p0).
  destruct (Z.eqb_spec (zlen path) 0) as [Hz|_]; [unfold path in Hz; rewrite zlen_cons in Hz; pose proof (zlen_nonneg p0); lia|].
  match goal with |- ?m = Ret ?r => assert (m ⇓ λ r', r' = r) as H; [|by apply wp_ex in H as (? & -> & ->)] end.
  destruct (trailing path) as (body & n & Ep & Hb).
  eapply wp_bind_mono with (Q := λ p, p = body).
  - rewrite Ep. apply wp_while with (I := λ p, ∃ m, p = body ++ replicate m slash) (meas := λ p : bytes, zlen p).
    + intros p [m ->]. destruct m as [|m].
      * simpl. rewrite app_nil_r. destruct Hb as [->|(b & x & -> & Hx)]; [done|].
        rewrite zlen_app, zlen_one. pose proof (zlen_nonneg b). destruct (Z.ltb_spec 0 (zlen b + 1)); [|lia].
        rewrite idx_at by lia. rewrite go_bind_ret. destruct (Z.eqb_spec x (ch "/")); [by destruct Hx|done].
      * rewrite replicate_S_end, app_assoc. rewrite zlen_app, zlen_one. set (q := body ++ replicate m slash).
        pose proof (zlen_nonneg q). destruct (Z.ltb_spec 0 (zlen q + 1)); [|lia].
        rewrite idx_at by lia. rewrite go_bind_ret. apply wp_ret. simpl negb. cbv iota.
        rewrite slice_eq by (rewrite ?zlen_app, ?zlen_one; lia). apply wp_ret. split; [|].
        -- exists m. rewrite drop_0. replace (zlen q + 1 - 1 - 0) with (zlen q) by lia. apply take_zlen_app.
        -- rewrite drop_0. replace (zlen q + 1 - 1 - 0) with (zlen q) by lia. rewrite take_zlen_app. lia.
    + by exists n.
    + rewrite <- Ep. unfold zlen. lia.
  - intros p ->. destruct (last_slash body) as (dir & file & E & Hf & Hd & ->). rewrite go_bind_ret.
    eapply wp_bind_mono with (Q := λ p, p = file).
    { destruct (Z.leb_spec 0 (zlen dir - 1)) as [Hge|Hlt].
      - rewrite E. by rewrite (proj2 (cut_last dir file)).
      - apply wp_ret. rewrite E. pose proof (zlen_nonneg dir). by rewrite (zlen_nil_inv dir) by lia. }
    intros p ->. unfold base_of. rewrite Ep, elems_trailing.
    destruct (decide (file = [])) as [->|Hfne].
    + simpl. rewrite app_nil_r in E. assert (body = []) as Eb.
      { destruct Hb as [|(b & x & Eb & Hx)]; [done|]. rewrite Eb in E. destruct Hd as [->|[d ->]]; [by destruct b|].
        by apply app_inj_tail in E as [_ ?]. }
      rewrite Eb in *. simpl in *. destruct n; [done|]. done.
    + destruct (Z.eqb_spec (zlen file) 0) as [Hz|_]; [by apply zlen_nil_inv in Hz|]. apply wp_ret.
      assert (elems body = elems dir ++ [file]) as ->.
      { rewrite E. destruct Hd as [->|[d ->]]; [by simpl; rewrite elems_one|]. rewrite <- app_assoc. simpl app.
        rewrite elems_cat, (elems_one file) by done. f_equal. change (d ++ [slash]) with (d ++ replicate 1 slash). by rewrite elems_trailing. }
      by rewrite last_snoc.
Qed.

(** * Joining *)

Definition nonempty (l : list bytes) : list bytes := List.filter (λ e, negb (zlen e =? 0)) l.

Lemma elems_nonempty l : concat (map elems (nonempty l)) = concat (map elems l).
Proof.
  induction l as [|e l IH]; [done|]. simpl. destruct (Z.eqb_spec (zlen e) 0) as [Hz|_]; simpl; [|by rewrite IH].
  apply zlen_nil_inv in Hz as ->. done.
Qed.

Lemma cleaned_ext p q : rooted_path p = rooted_path q → elems p = elems q → cleaned p = cleaned q.
Proof. intros Hr He. unfold cleaned. fold (rooted_path p). fold (rooted_path q). by rewrite Hr, He. Qed.

Lemma Join_spec' {W : Host} l : zlen (joined [slash] l) <= max_len 1 → Join l = Ret (match nonempty l with [] => [] | l' => cleaned (joined [slash] l') end).
Proof.
  unfold Join. induction l as [|e l IH]; [done|]. intros Hfit. cbn [Join_from nonempty List.filter].
  destruct (Z.eqb_spec (zlen e) 0) as [Hz|Hne]; cbn [negb].
  { apply IH. destruct l; [change (zlen (joined [slash] [])) with 0; rewrite <- Hz; exact Hfit|]. rewrite joined_cons, !zlen_app in Hfit by done. pose proof (zlen_nonneg [slash]). lia. }
  fold (nonempty l). rewrite StringsOps.Join_spec, go_bind_ret by done. rewrite Clean_spec. f_equal. apply cleaned_ext.
  - destruct e as [|x e]; [done|]. by destruct l, (nonempty _).
  - change (elems (joined [slash] (e :: l)) = elems (joined [slash] (e :: nonempty l))).
    rewrite !elems_joined. simpl. by rewrite elems_nonempty.
Qed.

(** [Split] cuts a path after its last slash; [Dir] is the cleaned part before
    the cut, [Ext] starts at the last dot of the part after it, [Base] is the last
    element of the path ([.] for the empty path, [/] if there are only slashes)
    and [Join] cleans the non-empty arguments put together with slashes. *)
Theorem path_parts {W : Host} path l :
  zlen (joined [slash] l) <= max_len 1 →
  (∃ dir file e, Split path = Ret (dir, file) ∧ path = dir ++ file ∧ (slash ∉ file) ∧
     (dir = [] ∨ ∃ d, dir = d ++ [slash]) ∧ Dir path = Ret (cleaned dir) ∧ Ext path = Ret e ∧ ext_of file e) ∧
  Base path = Ret (base_of path) ∧
  Join l = Ret (match nonempty l with [] => [] | l' => cleaned (joined [slash] l') end).
Proof.
  intros Hfit. split; [|split; [apply Base_spec|by apply Join_spec']].
  destruct (last_slash path) as (dir & file & E & Hf & Hd & EL).
  assert (Split path = Ret (dir, file)) as Es.
  { unfold Split. rewrite EL, go_bind_ret, E. by rewrite (proj1 (cut_last dir file)), go_bind_ret, (proj2 (cut_last dir file)). }
  destruct (proj1 (wp_ex _ _) (Ext_spec dir file Hf Hd)) as (e & Ee & He).
  exists dir, file, e. unfold Dir. rewrite Es, go_bind_ret, Clean_spec. by rewrite E.
Qed.
