(* ===== verification/Glob.v ===== *)
(** Package [path], [src/src/path/match.go]: shell patterns. *)
From S2P Require Import Prelude.
From S2P Require Import Utf8.
From S2P Require Import StringsSearch.

(** The only error of the file. *)
Inductive error := ErrBadPattern.

(** A possibly escaped character of a class: the rune, what follows it, the error. *)
Definition getEsc (chunk : bytes) : go (Z * bytes * option error) :=
  let bad := (0, [], Some ErrBadPattern) in
  c ← (if zlen chunk =? 0 then Ret None else Some <$> idx chunk 0);
  match c with
  | None => Ret bad
  | Some c =>
    if (c =? ch "-") || (c =? ch "]") then Ret bad else
    chunk ← (if c =? 92 then slice_from chunk 1 else Ret chunk);
    if (c =? 92) && (zlen chunk =? 0) then Ret bad else
    let '(r, n) := DecodeRuneInString chunk in
    let err := if (r =? RuneError) && (n =? 1) then Some ErrBadPattern else None in
    nchunk ← slice_from chunk n;
    let err := if zlen nchunk =? 0 then Some ErrBadPattern else err in
    Ret (r, nchunk, err)
  end.

(** One turn of the loop over the ranges of a class, the rune [r] being looked
    up: the class is closed, or a range is tried. *)
Definition match_range (r : Z) : bytes * bool * Z → go (bytes * bool * Z + (bytes * bool + error)) := λ '(chunk, match_, nrange),
  closed ← (if 0 <? zlen chunk then c ← idx chunk 0; Ret ((c =? ch "]") && (0 <? nrange)) else Ret false);
  if (closed : bool) then chunk ← slice_from chunk 1; Ret (inr (inl (chunk, match_))) else
  '(lo, chunk, err) ← getEsc chunk;
  match err with Some e => Ret (inr (inr e)) | None =>
  c ← idx chunk 0;
  '(hi, chunk, err) ← (if c =? ch "-" then chunk ← slice_from chunk 1; getEsc chunk else Ret (lo, chunk, None));
  match err with Some e => Ret (inr (inr e)) | None =>
  let match_ := if (lo <=? r) && (r <=? hi) then true else match_ in
  Ret (inl (chunk, match_, nrange + 1))
  end end.

(** What follows the class and whether one of its ranges has the rune, or an error. *)
Definition match_ranges (chunk : bytes) (r : Z) : go (bytes * bool + error) :=
  loop (S (length chunk)) (match_range r) (chunk, false, 0).

(** [default: if chunk[0] != s[0] { return }; s = s[1:]; chunk = chunk[1:]]. *)
Definition match_byte (chunk s : bytes) : go (bytes * bytes + bytes * bool * option error) :=
  c ← idx chunk 0;
  b ← idx s 0;
  if negb (c =? b) then Ret (inr ([], false, None)) else
  s ← slice_from s 1;
  chunk ← slice_from chunk 1;
  Ret (inl (chunk, s)).

(** The [case '['] of [matchChunk]. *)
Definition match_class (chunk s : bytes) : go (bytes * bytes + bytes * bool * option error) :=
  let '(r, n) := DecodeRuneInString s in
  s ← slice_from s n;
  chunk ← slice_from chunk 1;
  caret ← (if 0 <? zlen chunk then c ← idx chunk 0; Ret (c =? ch "^") else Ret false);
  let notNegated := negb caret in
  chunk ← (if (caret : bool) then slice_from chunk 1 else Ret chunk);
  m ← match_ranges chunk r;
  match m with
  | inr e => Ret (inr ([], false, Some e))
  | inl (chunk, match_) =>
    if negb (Bool.eqb match_ notNegated) then Ret (inr ([], false, None)) else Ret (inl (chunk, s))
  end.

(** One turn of [matchChunk]. *)
Definition match_term (chunk s : bytes) : go (bytes * bytes + bytes * bool * option error) :=
  if zlen s =? 0 then Ret (inr ([], false, None)) else
  c ← idx chunk 0;
  if c =? ch "[" then match_class chunk s
  else if c =? ch "?" then
    b ← idx s 0;
    if b =? ch "/" then Ret (inr ([], false, None)) else
    let '(_, n) := DecodeRuneInString s in
    s ← slice_from s n;
    chunk ← slice_from chunk 1;
    Ret (inl (chunk, s))
  else if c =? 92 then
    chunk ← slice_from chunk 1;
    if zlen chunk =? 0 then Ret (inr ([], false, Some ErrBadPattern)) else match_byte chunk s
  else match_byte chunk s.

Definition matchChunk (chunk s : bytes) : go (bytes * bool * option error) :=
  loop (S (length chunk)) (λ '(chunk, s),
    if 0 <? zlen chunk then match_term chunk s else Ret (inr (s, true, None))) (chunk, s).

(** The loop [Scan] of [scanChunk]. *)
Definition scan (pattern : bytes) : go Z :=
  loop (S (length pattern)) (λ '(i, inrange),
    if i <? zlen pattern then
      c ← idx pattern i;
      if c =? 92 then Ret (inl ((if i + 1 <? zlen pattern then i + 1 else i) + 1, inrange))
      else if c =? ch "[" then Ret (inl (i + 1, true))
      else if c =? ch "]" then Ret (inl (i + 1, false))
      else if (c =? ch "*") && negb inrange then Ret (inr i)
      else Ret (inl (i + 1, inrange))
    else Ret (inr i)) (0, false).

Definition scanChunk (pattern : bytes) : go (bool * bytes * bytes) :=
  '(star, pattern) ← while (S (length pattern))
    (λ '(_, pattern), if 0 <? zlen pattern then c ← idx pattern 0; Ret (c =? ch "*") else Ret false)
    (λ '(_, pattern), pattern ← slice_from pattern 1; Ret (true, pattern)) (false, pattern);
  i ← scan pattern;
  chunk ← slice pattern 0 i;
  rest ← slice_from pattern i;
  Ret (star, chunk, rest).

(** The skips of a star: where [chunk] matches after [i+1] bytes ([continue
    Pattern]), an error, or none. *)
Definition skip (chunk pattern name : bytes) : go (option (bytes + error)) :=
  loop (S (length name)) (λ i,
    more ← (if i <? zlen name then c ← idx name i; Ret (negb (c =? ch "/")) else Ret false);
    if negb more then Ret (inr None) else
    after ← slice_from name (i + 1);
    '(t, ok, err) ← matchChunk chunk after;
    if (ok : bool) then
      if (zlen pattern =? 0) && (0 <? zlen t) then Ret (inl (i + 1)) else Ret (inr (Some (inl t)))
    else match err with
    | Some e => Ret (inr (Some (inr e)))
    | None => Ret (inl (i + 1))
    end) 0.

Definition Match (pattern name : bytes) : go (bool * option error) :=
  loop (S (length pattern)) (λ '(pattern, name),
    if 0 <? zlen pattern then
      '(star, chunk, pattern) ← scanChunk pattern;
      if (star : bool) && (zlen chunk =? 0) then
        i ← Index name (str "/"); Ret (inr (i <? 0, None))
      else
      '(t, ok, err) ← matchChunk chunk name;
      if (ok : bool) && ((zlen t =? 0) || (0 <? zlen pattern)) then Ret (inl (pattern, t)) else
      match err with Some e => Ret (inr (false, Some e)) | None =>
      if (star : bool) then
        m ← skip chunk pattern name;
        match m with
        | Some (inl t) => Ret (inl (pattern, t))
        | Some (inr e) => Ret (inr (false, Some e))
        | None => Ret (inr (false, None))
        end
      else Ret (inr (false, None))
      end
    else Ret (inr (zlen name =? 0, None))) (pattern, name).

Example Match_run :
  Match (str "*.go") (str "match.go") = Ret (true, None) ∧ Match (str "a*b?c*x") (str "abxbbxdbxebxczzx") = Ret (true, None) ∧
  Match (str "a[^a]b") (str "abb") = Ret (true, None) ∧ Match (str "[a-z]*/x") (str "dir/x") = Ret (true, None) ∧
  Match (str "a*/b") (str "a/c/b") = Ret (false, None) ∧ Match (str "[]a]") (str "]") = Ret (false, Some ErrBadPattern) ∧
  Match [92; 42] (str "*") = Ret (true, None) ∧ Match (str "[-]") (str "") = Ret (false, None).
Proof. by vm_compute. Qed.

(** A class may match a slash, and then the first place where the chunk after a
    star matches is not always the right one: [*] could be [b], [[^x]] a slash. *)
Example Match_run_slash : Match (str "*[^x]/*") (str "b//") = Ret (false, None).
Proof. by vm_compute. Qed.

(** * The patterns, declaratively *)

(** A possibly escaped rune of a class, before [p']. *)
Inductive esc : bytes → Z → bytes → Prop :=
  | esc_plain c p r n :
      c ≠ ch "-" → c ≠ ch "]" → c ≠ 92 → DecodeRuneInString (c :: p) = (r, n) → (r, n) ≠ (RuneError, 1) →
      esc (c :: p) r (drop (Z.to_nat n) (c :: p))
  | esc_escaped c p r n :
      DecodeRuneInString (c :: p) = (r, n) → (r, n) ≠ (RuneError, 1) →
      esc (92 :: c :: p) r (drop (Z.to_nat n) (c :: p)).

(** The ranges of a class up to its closing bracket, which may not be the [first];
    whether they have the rune [x]. *)
Inductive ranges (x : Z) : bool → bytes → bool → bytes → Prop :=
  | ranges_end p : ranges x false (ch "]" :: p) false p
  | ranges_one first p lo c p1 b p2 :
      esc p lo (c :: p1) → c ≠ ch "-" → ranges x false (c :: p1) b p2 → ranges x first p ((lo =? x) || b) p2
  | ranges_pair first p lo p1 hi p2 b p3 :
      esc p lo (ch "-" :: p1) → esc p1 hi p2 → p2 ≠ [] → ranges x false p2 b p3 →
      ranges x first p ((lo <=? x) && (x <=? hi) || b) p3.

(** The first term of a pattern takes the beginning of a text. *)
Inductive term : bytes → bytes → bytes → bytes → Prop :=
  | term_star p u t : (ch "/" ∉ u) → term (ch "*" :: p) (u ++ t) p t
  | term_any p b t r n :
      b ≠ ch "/" → DecodeRuneInString (b :: t) = (r, n) → term (ch "?" :: p) (b :: t) p (drop (Z.to_nat n) (b :: t))
  | term_class p b t r n p' :
      DecodeRuneInString (b :: t) = (r, n) → (∀ q, p ≠ ch "^" :: q) → ranges r true p true p' →
      term (ch "[" :: p) (b :: t) p' (drop (Z.to_nat n) (b :: t))
  | term_not_class p b t r n p' :
      DecodeRuneInString (b :: t) = (r, n) → ranges r true p false p' →
      term (ch "[" :: ch "^" :: p) (b :: t) p' (drop (Z.to_nat n) (b :: t))
  | term_escape c p t : term (92 :: c :: p) (c :: t) p t
  | term_byte c p t : c ≠ ch "*" → c ≠ ch "?" → c ≠ ch "[" → c ≠ 92 → term (c :: p) (c :: t) p t.

(** [p] takes all of [u] and leaves the pattern [q] and the text [t]. *)
Inductive takes : bytes → bytes → bytes → bytes → Prop :=
  | takes_nil p t : takes p t p t
  | takes_cons p t p1 t1 p2 t2 : term p t p1 t1 → takes p1 t1 p2 t2 → takes p t p2 t2.
Definition glob (p t : bytes) : Prop := takes p t [] [].

Lemma takes_app p t p1 t1 p2 t2 : takes p t p1 t1 → takes p1 t1 p2 t2 → takes p t p2 t2.
Proof. induction 1; [done|]. intros. eapply takes_cons; [done|]. auto. Qed.

(** * Runes at the front of a text *)

Lemma decode_front c p r n :
  are_bytes (c :: p) → DecodeRuneInString (c :: p) = (r, n) → (r, n) ≠ (RuneError, 1) →
  ∃ u p', c :: p = u ++ p' ∧ n = zlen u ∧ (u = [c] ∨ Forall (λ b, 128 <= b) u) ∧
    ∀ q, DecodeRuneInString (c :: p ++ q) = (r, n).
Proof.
  unfold DecodeRuneInString. intros Hp Hd Hne. rewrite decodeRuneInStringInternal_eq in Hd.
  destruct (decodeRuneInternal (c :: p)) as [[r0 n0] sh] eqn:E. injection Hd as -> ->.
  destruct (decode_inv _ _ _ _ Hp E) as [(? & _)|[(_ & -> & ->)|(-> & Hv & -> & q & Hq)]]; [done|by destruct Hne|].
  exists (enc r), q. split; [done|]. split; [done|]. split.
  - destruct (decide (r < 128)) as [Hlt|Hge].
    + left. assert (enc r = [r]) as Er by (unfold enc; bool_cases; done). rewrite Er in *. by injection Hq as -> _.
    + right. apply ValidRune_iff in Hv. unfold enc. bool_cases; repeat constructor; lia_div.
  - intros q'. rewrite decodeRuneInStringInternal_eq. by rewrite (decode_app (c :: p) q' r (zlen (enc r)) E : decodeRuneInternal (c :: p ++ q') = _).
Qed.

Lemma decode_width b t r n : DecodeRuneInString (b :: t) = (r, n) → 1 <= n <= zlen (b :: t).
Proof.
  unfold DecodeRuneInString. rewrite decodeRuneInStringInternal_eq. destruct (decodeRuneInternal (b :: t)) as [[r0 n0] sh] eqn:E.
  intros [= <- <-]. by eapply decode_size.
Qed.

Lemma esc_app p r p' q : are_bytes p → esc p r p' → p' ≠ [] → esc (p ++ q) r (p' ++ q).
Proof.
  intros Hp He Hne. destruct He as [c p r n H1 H2 H3 Hd Hbad|c p r n Hd Hbad].
  - destruct (decode_front c p r n Hp Hd Hbad) as (u & p' & E & -> & _ & Hq).
    replace (drop (Z.to_nat (zlen u)) (c :: p) ++ q) with (drop (Z.to_nat (zlen u)) (c :: p ++ q)).
    + simpl app. by apply esc_plain.
    + change (c :: p ++ q) with ((c :: p) ++ q). rewrite E, drop_zlen_app, <- app_assoc. by rewrite drop_zlen_app.
  - inversion Hp as [|?? _ Hp']; subst.
    destruct (decode_front c p r n Hp' Hd Hbad) as (u & p' & E & -> & _ & Hq).
    replace (drop (Z.to_nat (zlen u)) (c :: p) ++ q) with (drop (Z.to_nat (zlen u)) (c :: p ++ q)).
    + simpl app. by apply esc_escaped.
    + change (c :: p ++ q) with ((c :: p) ++ q). rewrite E, drop_zlen_app, <- app_assoc. by rewrite drop_zlen_app.
Qed.

Lemma esc_suffix p r p' : esc p r p' → ∃ k, p' = drop (S k) p.
Proof.
  intros He. destruct He as [c p r n _ _ _ Hd _|c p r n Hd _].
  - apply decode_width in Hd. exists (Z.to_nat n - 1)%nat. f_equal. lia.
  - exists (Z.to_nat n). done.
Qed.
Lemma esc_shorter p r p' : esc p r p' → zlen p' < zlen p ∨ p' = [] ∧ p ≠ [].
Proof.
  intros He. pose proof (esc_suffix _ _ _ He) as [k ->]. unfold zlen. rewrite length_drop.
  destruct p as [|x p]; [inversion He|]. simpl. left. lia.
Qed.
Lemma esc_bytes p r p' : are_bytes p → esc p r p' → are_bytes p'.
Proof. intros Hp He. destruct (esc_suffix _ _ _ He) as [k ->]. by apply Forall_drop. Qed.
Lemma esc_head p r p' : esc p r p' → ∀ q, p ≠ ch "]" :: q.
Proof. intros He q ->. inversion He as [? ? ? ? _ Hc|]. by destruct Hc. Qed.

Lemma ranges_app x first p b p' q : are_bytes p → ranges x first p b p' → ranges x first (p ++ q) b (p' ++ q).
Proof.
  intros Hp Hr. induction Hr as [p|first p lo c p1 b p2 He Hc Hr IH|first p lo p1 hi p2 b p3 He1 He2 Hne Hr IH].
  - apply ranges_end.
  - pose proof (esc_bytes _ _ _ Hp He). eapply ranges_one; [|exact Hc|by apply IH].
    by apply (esc_app _ _ (c :: p1)).
  - pose proof (esc_bytes _ _ _ Hp He1) as Hb1. inversion Hb1 as [|?? _ Hb1']; subst.
    pose proof (esc_bytes _ _ _ Hb1' He2). eapply ranges_pair; [by apply (esc_app _ _ (ch "-" :: p1))|by apply esc_app| |by apply IH].
    by destruct p2.
Qed.

Lemma ranges_bytes x first p b p' : are_bytes p → ranges x first p b p' → are_bytes p'.
Proof.
  intros Hp Hr. induction Hr as [p|first p lo c p1 b p2 He Hc Hr IH|first p lo p1 hi p2 b p3 He1 He2 Hne Hr IH].
  - by inversion Hp.
  - apply IH. by eapply esc_bytes.
  - apply IH. eapply esc_bytes; [|done]. apply (esc_bytes _ _ _ Hp) in He1. by inversion He1.
Qed.

(** * [getEsc] and the ranges *)

(** The rune [getEsc] reads after the checks. *)
Definition esc_result (p : bytes) : Z * bytes * option error :=
  let '(r, n) := DecodeRuneInString p in
  let p' := drop (Z.to_nat n) p in
  (r, p', if decide (p' = [] ∨ (r, n) = (RuneError, 1)) then Some ErrBadPattern else None).

Lemma slice_1 {A} (x : A) l : slice_from (x :: l) 1 = Ret l.
Proof. rewrite slice_from_eq; [done|]. rewrite zlen_cons. pose proof (zlen_nonneg l). lia. Qed.
Lemma slice_decode b t r n : DecodeRuneInString (b :: t) = (r, n) → slice_from (b :: t) n = Ret (drop (Z.to_nat n) (b :: t)).
Proof. intros Hd%decode_width. apply slice_from_eq. lia. Qed.
Lemma zlen_eqb_0 {A} (l : list A) : (zlen l =? 0) = bool_decide (l = []).
Proof.
  destruct l as [|x l]; [done|]. rewrite zlen_cons. pose proof (zlen_nonneg l). by destruct (Z.eqb_spec (1 + zlen l) 0); [lia|].
Qed.
Lemma zlen_ltb_0 {A} (l : list A) : (0 <? zlen l) = bool_decide (l ≠ []).
Proof.
  destruct l as [|x l]; [done|]. rewrite zlen_cons. pose proof (zlen_nonneg l). by destruct (Z.ltb_spec 0 (1 + zlen l)); [|lia].
Qed.
Lemma idx_head {A} (x : A) l : idx (x :: l) 0 = Ret x.
Proof. by apply idx_Some. Qed.
Lemma zlen_cons_pos {A} (x : A) l : (0 <? zlen (x :: l)) = true.
Proof. by rewrite zlen_ltb_0. Qed.
Lemma zlen_cons_nz {A} (x : A) l : (zlen (x :: l) =? 0) = false.
Proof. by rewrite zlen_eqb_0. Qed.

Lemma getEsc_eq p :
  getEsc p = Ret (match p with
    | [] => (0, [], Some ErrBadPattern)
    | c :: p' =>
      if (c =? ch "-") || (c =? ch "]") then (0, [], Some ErrBadPattern)
      else if c =? 92 then match p' with [] => (0, [], Some ErrBadPattern) | _ => esc_result p' end
      else esc_result p
    end).
Proof.
  assert (∀ c q, (let '(r, n) := DecodeRuneInString (c :: q) in
      let err := if (r =? RuneError) && (n =? 1) then Some ErrBadPattern else None in
      nchunk ← slice_from (c :: q) n;
      let err := if zlen nchunk =? 0 then Some ErrBadPattern else err in Ret (r, nchunk, err))
      = Ret (esc_result (c :: q))) as Hres.
  { intros c q. unfold esc_result. destruct (DecodeRuneInString (c :: q)) as [r n] eqn:Hd. cbv zeta.
    rewrite (slice_decode _ _ _ _ Hd), go_bind_ret, zlen_eqb_0. do 2 f_equal.
    case_bool_decide as Hq; [by rewrite decide_True by (by left)|].
    destruct (Z.eqb_spec r RuneError) as [->|Hr]; simpl; [|by rewrite decide_False by (intros [?|[= ? _]]; done)].
    destruct (Z.eqb_spec n 1) as [->|Hn]; [by rewrite decide_True by (by right)|].
    by rewrite decide_False by (intros [?|[= ?]]; done). }
  unfold getEsc. destruct p as [|c p]; [done|]. rewrite zlen_cons_nz, idx_head.
  cbn [fmap go_fmap mbind go_bind]. destruct ((c =? ch "-") || (c =? ch "]")); [done|].
  destruct (c =? 92); cbn [andb].
  - rewrite slice_1, go_bind_ret. destruct p as [|c' p]; [done|]. rewrite zlen_cons_nz. apply Hres.
  - rewrite go_bind_ret. apply Hres.
Qed.

Lemma esc_result_iff p r p' : p' ≠ [] →
  esc_result p = (r, p', None) ↔ ∃ n, DecodeRuneInString p = (r, n) ∧ (r, n) ≠ (RuneError, 1) ∧ p' = drop (Z.to_nat n) p.
Proof.
  intros Hp'. unfold esc_result. destruct (DecodeRuneInString p) as [r0 n]. split.
  - intros E. destruct (decide _) as [|Hn]; [done|]. injection E as -> <-. exists n. split; [done|]. split; [|done]. auto.
  - intros (n0 & [= -> ->] & Hne & ->). rewrite decide_False; [done|]. by intros [?|?].
Qed.

Lemma getEsc_iff p r p' : p' ≠ [] → getEsc p = Ret (r, p', None) ↔ esc p r p'.
Proof.
  intros Hp'. rewrite getEsc_eq. split.
  - intros [= E]. destruct p as [|c p]; [done|].
    destruct (Z.eqb_spec c (ch "-")); [done|]. destruct (Z.eqb_spec c (ch "]")); [done|]. cbn [orb] in E.
    destruct (Z.eqb_spec c 92) as [->|].
    + destruct p as [|c p]; [done|]. apply esc_result_iff in E as (m & Hd & Hne & ->); [|done]. by apply esc_escaped.
    + apply esc_result_iff in E as (m & Hd & Hne & ->); [|done]. by apply esc_plain.
  - intros He. f_equal. destruct He as [c p r n H1 H2 H3 Hd Hne|c p r n Hd Hne].
    + destruct (Z.eqb_spec c (ch "-")); [done|]. destruct (Z.eqb_spec c (ch "]")); [done|]. cbn [orb].
      destruct (Z.eqb_spec c 92); [done|]. apply esc_result_iff; [done|]. eauto.
    + change (92 =? ch "-") with false. change (92 =? ch "]") with false. cbn [orb Z.eqb Pos.eqb].
      apply esc_result_iff; [done|]. eauto.
Qed.

Lemma getEsc_ret p : ∃ r p' e, getEsc p = Ret (r, p', e) ∧ (e = None → p' ≠ []).
Proof.
  rewrite getEsc_eq.
  assert (∀ q, ∃ r p' e, Ret (esc_result q) = Ret (r, p', e) ∧ (e = None → p' ≠ [])) as H.
  { intros q. unfold esc_result. destruct (DecodeRuneInString q) as [r n]. eexists _, _, _. split; [done|].
    destruct (decide _) as [|Hn]; [done|]. intros _ E. apply Hn. by left. }
  destruct p as [|c p]; [by eexists _, _, _|]. destruct (_ || _); [by eexists _, _, _|].
  destruct (c =? 92); [|apply H]. destruct p; [by eexists _, _, _|apply H].
Qed.

(** One range: the runes [lo] to [hi], then [p']. *)
Inductive range1 (p : bytes) (lo hi : Z) : bytes → Prop :=
  | range1_one c p1 : esc p lo (c :: p1) → c ≠ ch "-" → hi = lo → range1 p lo hi (c :: p1)
  | range1_pair p1 p2 : esc p lo (ch "-" :: p1) → esc p1 hi p2 → p2 ≠ [] → range1 p lo hi p2.

Lemma range1_ranges x first p lo hi p1 b p2 :
  range1 p lo hi p1 → ranges x false p1 b p2 → ranges x first p ((lo <=? x) && (x <=? hi) || b) p2.
Proof.
  intros Hr Hrs. destruct Hr as [c p1 He Hc ->|p1 p3 He1 He2 Hne].
  - replace ((lo <=? x) && (x <=? lo)) with (lo =? x); [by eapply ranges_one|]. bool_cases; lia.
  - by eapply ranges_pair.
Qed.

Lemma range1_shorter p lo hi p1 : range1 p lo hi p1 → zlen p1 < zlen p ∧ p1 ≠ [].
Proof.
  intros [c q He Hc _|q q' He1 He2 Hne].
  - destruct (esc_shorter _ _ _ He) as [|[? _]]; done.
  - destruct (esc_shorter _ _ _ He1) as [H1|[? _]]; [|done]. destruct (esc_shorter _ _ _ He2) as [H2|[? _]]; [|done].
    rewrite zlen_cons in H1. split; [lia|done].
Qed.

(** A turn reads the bracket, a range or an error. *)
Lemma match_range_turn x p m k :
  (∃ p', p = ch "]" :: p' ∧ 0 < k ∧ match_range x (p, m, k) = Ret (inr (inl (p', m)))) ∨
  (∃ lo hi p', range1 p lo hi p' ∧
     match_range x (p, m, k) = Ret (inl (p', m || ((lo <=? x) && (x <=? hi)), k + 1))) ∨
  (∃ e, match_range x (p, m, k) = Ret (inr (inr e))).
Proof.
  unfold match_range.
  assert (∃ cl, (if 0 <? zlen p then c ← idx p 0; Ret ((c =? ch "]") && (0 <? k)) else Ret false) = Ret cl ∧
    (cl = true → ∃ p', p = ch "]" :: p' ∧ 0 < k)) as (cl & -> & Hcl).
  { destruct p as [|c p]; [by exists false|]. rewrite zlen_cons_pos, idx_head, go_bind_ret. eexists. split; [done|].
    destruct (Z.eqb_spec c (ch "]")) as [->|]; [|done]. destruct (Z.ltb_spec 0 k); [|done]. eauto. }
  rewrite go_bind_ret. destruct cl.
  { destruct (Hcl eq_refl) as (p' & -> & Hk). left. exists p'. by rewrite slice_1. }
  right. destruct (getEsc_ret p) as (lo & p1 & [e|] & Ee & He1); rewrite Ee, go_bind_ret; [by right; exists e|].
  specialize (He1 eq_refl). apply getEsc_iff in Ee; [|done]. destruct p1 as [|c p1]; [done|].
  assert (∀ b : bool, (if b then true else m) = m || b) as Hor by (by intros []; rewrite ?orb_true_r, ?orb_false_r).
  rewrite idx_head, go_bind_ret. destruct (Z.eqb_spec c (ch "-")) as [->|Hc].
  - rewrite slice_1, go_bind_ret. destruct (getEsc_ret p1) as (hi & p2 & [e|] & Ee2 & He2); rewrite Ee2, go_bind_ret; [by right; exists e|].
    specialize (He2 eq_refl). apply getEsc_iff in Ee2; [|done]. left. exists lo, hi, p2. split; [by eapply range1_pair|].
    cbv zeta. by rewrite Hor.
  - rewrite go_bind_ret. left. exists lo, lo, (c :: p1). split; [by eapply range1_one|]. cbv zeta. by rewrite Hor.
Qed.

Lemma match_ranges_sound x fuel p m k :
  0 <= k → (length p < fuel)%nat →
  loop fuel (match_range x) (p, m, k) ⇓ λ res,
    match res with inl (p', b) => ∃ b', b = m || b' ∧ ranges x (k =? 0) p b' p' | inr _ => True end.
Proof.
  revert p m k. induction fuel as [|fuel IH]; intros p m k Hk Hf; [lia|]. cbn [loop].
  destruct (match_range_turn x p m k) as [(p' & -> & Hk' & ->)|[(lo & hi & p' & Hr & ->)|[e ->]]]; rewrite go_bind_ret.
  - exists false. rewrite orb_false_r. split; [done|]. destruct (Z.eqb_spec k 0); [lia|]. apply ranges_end.
  - pose proof (range1_shorter _ _ _ _ Hr) as [Hs _]. unfold zlen in Hs.
    eapply wp_mono; [apply IH; lia|]. intros [[p'' b]|]; [|done]. intros (b' & -> & Hrs).
    exists ((lo <=? x) && (x <=? hi) || b'). split; [by rewrite orb_assoc|].
    destruct (Z.eqb_spec (k + 1) 0); [lia|]. by eapply range1_ranges.
  - done.
Qed.

Lemma match_range_complete x p lo hi p' m k :
  range1 p lo hi p' → match_range x (p, m, k) = Ret (inl (p', m || ((lo <=? x) && (x <=? hi)), k + 1)).
Proof.
  intros Hr. assert (∃ c q, p = c :: q ∧ c ≠ ch "]") as (c & q & -> & Hc).
  { assert (∃ r p', esc p r p') as (r & p1 & He) by (destruct Hr; eauto).
    destruct p as [|c q]; [inversion He|]. exists c, q. split; [done|]. intros ->. by apply (esc_head _ _ _ He q). }
  unfold match_range. rewrite zlen_cons_pos, idx_head, !go_bind_ret. destruct (Z.eqb_spec c (ch "]")); [done|]. cbn [andb].
  assert (∀ b : bool, (if b then true else m) = m || b) as Hor by (by intros []; rewrite ?orb_true_r, ?orb_false_r).
  destruct Hr as [c1 p1 He Hc1 ->|p1 p2 He1 He2 Hne].
  - apply getEsc_iff in He; [|done]. rewrite He, go_bind_ret, idx_head, go_bind_ret.
    destruct (Z.eqb_spec c1 (ch "-")); [done|]. rewrite go_bind_ret. cbv zeta. by rewrite Hor.
  - apply getEsc_iff in He1; [|done]. rewrite He1, go_bind_ret, idx_head, go_bind_ret. change (ch "-" =? ch "-") with true. cbv iota.
    rewrite slice_1, go_bind_ret. apply getEsc_iff in He2; [|done]. rewrite He2, go_bind_ret. cbv zeta. by rewrite Hor.
Qed.

Lemma ranges_step x first p b p' : ranges x first p b p' →
  first = false ∧ p = ch "]" :: p' ∧ b = false ∨
  ∃ lo hi p1 b', range1 p lo hi p1 ∧ ranges x false p1 b' p' ∧ b = (lo <=? x) && (x <=? hi) || b'.
Proof.
  intros [q|f q lo c p1 b' p2 He Hc Hr|f q lo p1 hi p2 b' p3 He1 He2 Hne Hr]; [by left| |]; right.
  - exists lo, lo, (c :: p1), b'. split; [by eapply range1_one|]. split; [done|]. f_equal. bool_cases; lia.
  - exists lo, hi, p2, b'. split; [by eapply range1_pair|done].
Qed.

Lemma match_ranges_complete x fuel : ∀ p m k b p',
  ranges x (k =? 0) p b p' → 0 <= k → (length p < fuel)%nat →
  loop fuel (match_range x) (p, m, k) = Ret (inl (p', m || b)).
Proof.
  induction fuel as [|fuel IH]; intros p m k b p' Hr Hk Hf; [lia|]. cbn [loop].
  destruct (ranges_step _ _ _ _ _ Hr) as [(Hk0 & -> & ->)|(lo & hi & p1 & b' & Hr1 & Hr' & ->)].
  - unfold match_range. rewrite zlen_cons_pos, idx_head, !go_bind_ret.
    destruct (Z.eqb_spec k 0); [done|]. destruct (Z.ltb_spec 0 k); [|lia]. change (ch "]" =? ch "]") with true. cbn [andb].
    rewrite slice_1, !go_bind_ret. by rewrite orb_false_r.
  - rewrite (match_range_complete _ _ _ _ _ _ _ Hr1), go_bind_ret.
    pose proof (range1_shorter _ _ _ _ Hr1) as [Hs _]. unfold zlen in Hs.
    rewrite (IH p1 _ (k + 1) b' p'); [by rewrite orb_assoc| |lia|lia]. destruct (Z.eqb_spec (k + 1) 0); [lia|done].
Qed.

Lemma match_ranges_iff p x p' b : match_ranges p x = Ret (inl (p', b)) ↔ ranges x true p b p'.
Proof.
  split.
  - intros E. pose proof (match_ranges_sound x (S (length p)) p false 0 ltac:(lia) ltac:(lia)) as H.
    unfold match_ranges in E. rewrite E in H. simpl in H. by destruct H as (b' & -> & ?).
  - intros Hr. by apply (match_ranges_complete x (S (length p)) p false 0 b p'); [|lia|lia].
Qed.
Lemma match_ranges_ret p x : ∃ res, match_ranges p x = Ret res.
Proof.
  pose proof (match_ranges_sound x (S (length p)) p false 0 ltac:(lia) ltac:(lia)) as H.
  apply wp_ex in H as (res & E & _). by exists res.
Qed.

Lemma ranges_shorter x first p b p' : ranges x first p b p' → zlen p' < zlen p.
Proof.
  induction 1 as [p|first p lo c p1 b p2 He Hc Hr IH|first p lo p1 hi p2 b p3 He1 He2 Hne Hr IH].
  - rewrite zlen_cons. lia.
  - destruct (esc_shorter _ _ _ He) as [|[? _]]; [lia|done].
  - destruct (range1_shorter p lo hi p2) as [? _]; [by eapply range1_pair|lia].
Qed.

Lemma ranges_nil x first b p' : ¬ ranges x first [] b p'.
Proof. intros Hr. inversion Hr as [|? ? ? ? ? ? ? He|? ? ? ? ? ? ? ? He]; inversion He. Qed.

(** * Terms and chunks *)

Lemma match_byte_eq c p b t :
  match_byte (c :: p) (b :: t) = Ret (if decide (c = b) then inl (p, t) else inr ([], false, None)).
Proof.
  unfold match_byte. rewrite !idx_head, !go_bind_ret, !slice_1, !go_bind_ret.
  destruct (Z.eqb_spec c b); [by rewrite decide_True|by rewrite decide_False].
Qed.

Definition class_rest (p : bytes) : bool * bytes :=
  match p with c :: q => if decide (c = ch "^") then (false, q) else (true, p) | [] => (true, p) end.

Lemma match_class_eq p b t r n :
  DecodeRuneInString (b :: t) = (r, n) →
  match_class (ch "[" :: p) (b :: t) = (
    m ← match_ranges (class_rest p).2 r;
    Ret (match m with
    | inr e => inr ([], false, Some e)
    | inl (p', m) => if decide (m = (class_rest p).1) then inl (p', drop (Z.to_nat n) (b :: t)) else inr ([], false, None)
    end)).
Proof.
  intros Hd. unfold match_class. rewrite Hd, (slice_decode _ _ _ _ Hd), go_bind_ret, slice_1, go_bind_ret.
  assert (∀ (q : bytes) (caret : bool), (m ← match_ranges q r;
     match m with
     | inr e => Ret (inr ([] : bytes, false, Some e))
     | inl (chunk, match_) =>
       if negb (Bool.eqb match_ (negb caret)) then Ret (inr ([], false, None)) else Ret (inl (chunk, drop (Z.to_nat n) (b :: t)))
     end) = (m ← match_ranges q r; Ret (match m with
      | inr e => inr ([], false, Some e)
      | inl (p', m) => if decide (m = negb caret) then inl (p', drop (Z.to_nat n) (b :: t)) else inr ([], false, None)
      end))) as H.
  { intros q caret. destruct (match_ranges q r) as [[[p' m]|e]|w|]; try done. cbn [mbind go_bind]. by destruct m, caret. }
  unfold class_rest. destruct p as [|c p]; [apply (H [] false)|].
  rewrite zlen_cons_pos, idx_head, !go_bind_ret. destruct (decide (c = ch "^")) as [->|Hc].
  - change (ch "^" =? ch "^") with true. cbv iota. rewrite slice_1, go_bind_ret. apply (H p true).
  - destruct (Z.eqb_spec c (ch "^")); [done|]. rewrite go_bind_ret. apply (H (c :: p) false).
Qed.

Lemma class_rest_term p b t r n p' :
  DecodeRuneInString (b :: t) = (r, n) → ranges r true (class_rest p).2 (class_rest p).1 p' →
  term (ch "[" :: p) (b :: t) p' (drop (Z.to_nat n) (b :: t)).
Proof.
  intros Hd Hr. unfold class_rest in Hr. destruct p as [|c p]; [by apply ranges_nil in Hr|].
  destruct (decide (c = ch "^")) as [->|Hc]; [by eapply term_not_class|]. eapply term_class; [done| |done].
  by intros q [= -> ->].
Qed.

(** A turn of [matchChunk] takes a term off both, or the chunk does not match. *)
Lemma match_term_sound c p t : c ≠ ch "*" →
  match_term (c :: p) t ⇓ λ res, match res with
  | inl (p', t') => term (c :: p) t p' t' ∧ zlen p' < zlen (c :: p)
  | inr (_, ok, _) => ok = false
  end.
Proof.
  intros Hstar. unfold match_term. destruct t as [|b t]; [done|]. rewrite zlen_cons_nz, !idx_head, !go_bind_ret.
  pose proof (zlen_cons c p) as Hl. pose proof (zlen_nonneg p). destruct (DecodeRuneInString (b :: t)) as [r n] eqn:Hd.
  destruct (Z.eqb_spec c (ch "[")) as [->|H1].
  { rewrite (match_class_eq _ _ _ _ _ Hd). destruct (match_ranges_ret (class_rest p).2 r) as [m Em]. rewrite Em, go_bind_ret.
    apply wp_ret. destruct m as [[p' m]|e]; [|done]. case_decide as E; [|done]. apply match_ranges_iff in Em. rewrite E in Em.
    split; [by apply class_rest_term with (r := r)|]. apply ranges_shorter in Em. rewrite Hl.
    assert (zlen (class_rest p).2 <= zlen p); [|lia]. destruct p as [|x p]; [done|]. simpl. rewrite zlen_cons. case_decide; simpl; rewrite ?zlen_cons; lia. }
  destruct (Z.eqb_spec c (ch "?")) as [->|H2].
  { destruct (Z.eqb_spec b (ch "/")); [done|]. rewrite (slice_decode _ _ _ _ Hd), go_bind_ret, slice_1, go_bind_ret.
    apply wp_ret. split; [by eapply term_any|lia]. }
  destruct (Z.eqb_spec c 92) as [->|H3].
  - rewrite slice_1, go_bind_ret. destruct p as [|c p]; [done|]. rewrite zlen_cons_nz, match_byte_eq. apply wp_ret.
    case_decide as E; [|done]. subst. split; [apply term_escape|]. rewrite !zlen_cons in *. lia.
  - rewrite match_byte_eq. apply wp_ret. case_decide as E; [|done]. subst. split; [by apply term_byte|lia].
Qed.

Lemma match_term_complete c p t p' t' : c ≠ ch "*" →
  term (c :: p) t p' t' → match_term (c :: p) t = Ret (inl (p', t')).
Proof.
  intros Hstar Ht. inversion Ht as [| ? b s r n Hb Hd| ? b s r n ? Hd Hq Hr| ? b s r n ? Hd Hr| |? ? ? H0 H1 H2 H3]; subst; try done;
    unfold match_term; rewrite zlen_cons_nz, !idx_head, !go_bind_ret.
  - change (ch "?" =? ch "[") with false. cbv iota. change (ch "?" =? ch "?") with true. cbv iota.
    destruct (Z.eqb_spec b (ch "/")); [done|]. by rewrite Hd, (slice_decode _ _ _ _ Hd), go_bind_ret, slice_1, go_bind_ret.
  - change (ch "[" =? ch "[") with true. cbv iota. rewrite (match_class_eq _ _ _ _ _ Hd).
    assert (class_rest p = (true, p)) as ->.
    { destruct p as [|x p]; [done|]. simpl. rewrite decide_False; [done|]. intros ->. by apply (Hq p). }
    apply match_ranges_iff in Hr. cbn [fst snd]. by rewrite Hr.
  - change (ch "[" =? ch "[") with true. cbv iota. rewrite (match_class_eq _ _ _ _ _ Hd).
    match goal with |- context [class_rest (ch "^" :: ?q)] => change (class_rest (ch "^" :: q)) with (false, q) end. apply match_ranges_iff in Hr. cbn [fst snd]. by rewrite Hr.
  - change (92 =? ch "[") with false. change (92 =? ch "?") with false. change (92 =? 92) with true. cbv iota.
    rewrite slice_1, go_bind_ret, zlen_cons_nz, match_byte_eq. by rewrite decide_True.
  - destruct (Z.eqb_spec c (ch "[")); [done|]. destruct (Z.eqb_spec c (ch "?")); [done|]. destruct (Z.eqb_spec c 92); [done|].
    rewrite match_byte_eq. by rewrite decide_True.
Qed.

(** * No star at a term *)

(** Scanning as [scanChunk] does meets no star outside brackets. *)
Fixpoint clear (inrange : bool) (l : bytes) : bool :=
  match l with
  | [] => true
  | c :: l' =>
    if c =? 92 then match l' with [] => true | _ :: l'' => clear inrange l'' end
    else if c =? ch "[" then clear true l'
    else if c =? ch "]" then clear false l'
    else if c =? ch "*" then inrange && clear inrange l'
    else clear inrange l'
  end.

Lemma clear_high b u l : Forall (λ c, 128 <= c) u → clear b (u ++ l) = clear b l.
Proof.
  induction 1 as [|c u Hc Hu IH]; [done|]. simpl. change (ch "[") with 91. change (ch "]") with 93. change (ch "*") with 42.
  bool_cases. done.
Qed.

Lemma clear_esc p r p' : are_bytes p → esc p r p' → clear true p = true → clear true p' = true.
Proof.
  intros Hp He. destruct He as [c p r n H1 H2 H3 Hd Hbad|c p r n Hd Hbad].
  - destruct (decode_front c p r n Hp Hd Hbad) as (u & p' & E & -> & Hu & _). rewrite E, drop_zlen_app.
    destruct Hu as [->|Hu]; [|by rewrite clear_high]. simpl.
    destruct (Z.eqb_spec c 92); [done|]. destruct (Z.eqb_spec c (ch "[")); [done|]. destruct (Z.eqb_spec c (ch "]")); [done|].
    by destruct (c =? ch "*").
  - inversion Hp as [|?? _ Hp']; subst.
    destruct (decode_front c p r n Hp' Hd Hbad) as (u & p' & E & -> & Hu & _).
    change (clear true (92 :: c :: p)) with (clear true p). rewrite E, drop_zlen_app.
    destruct Hu as [->|Hu]; [by injection E as ->|]. destruct u as [|x u]; [by apply decode_width in Hd as [? _]|].
    injection E as _ ->. inversion Hu; subst. by rewrite clear_high.
Qed.

Lemma clear_ranges x first p b p' : are_bytes p → ranges x first p b p' → clear true p = true → clear false p' = true.
Proof.
  intros Hp Hr. induction Hr as [p|first p lo c p1 b p2 He Hc Hr IH|first p lo p1 hi p2 b p3 He1 He2 Hne Hr IH]; intros Hcl.
  - done.
  - apply IH; [by eapply esc_bytes|]. by eapply clear_esc.
  - pose proof (esc_bytes _ _ _ Hp He1) as Hb1. inversion Hb1 as [|?? _ Hb1']; subst.
    apply IH; [by eapply esc_bytes|]. eapply clear_esc; [|done|]; [done|]. by apply (clear_esc _ _ _ Hp He1) in Hcl.
Qed.

Lemma term_bytes p t p' t' : are_bytes p → term p t p' t' → are_bytes p'.
Proof.
  intros Hp Ht. destruct Ht; inversion Hp as [|?? _ Hp1]; subst; try done; try (inversion Hp1; subst; done).
  - by eapply ranges_bytes.
  - inversion Hp1; subst. by eapply ranges_bytes.
Qed.

Lemma clear_term c p t p' t' :
  are_bytes (c :: p) → term (c :: p) t p' t' → clear false (c :: p) = true → c ≠ ch "*" ∧ clear false p' = true.
Proof.
  intros Hp Ht Hcl. inversion Hp as [|?? _ Hp1]; subst.
  inversion Ht as [ | | ? ? ? ? ? ? Hd Hq Hr| ? ? ? ? ? ? Hd Hr| |? ? ? H0 H1 H2 H3]; subst; simpl in Hcl; try done.
  - split; [done|]. by eapply clear_ranges.
  - split; [done|]. inversion Hp1; subst. by eapply clear_ranges.
  - split; [done|]. destruct (Z.eqb_spec c 92); [done|]. destruct (Z.eqb_spec c (ch "[")); [done|].
    destruct (Z.eqb_spec c (ch "*")); [done|]. by destruct (c =? ch "]").
Qed.

Lemma term_app p t p' t' q : are_bytes p → term p t p' t' → term (p ++ q) t (p' ++ q) t'.
Proof.
  intros Hp Ht. destruct Ht as [ | | p b s r n p' Hd Hq Hr| | |]; simpl app; inversion Hp as [|?? _ Hp1]; subst; try (by constructor).
  - by eapply term_any.
  - eapply term_class; [done| |by apply ranges_app]. destruct p as [|x p]; [by apply ranges_nil in Hr|].
    intros q' [= -> _]. by apply (Hq p).
  - inversion Hp1; subst. eapply term_not_class; [done|by apply ranges_app].
Qed.

Lemma matchChunk_sound chunk t :
  are_bytes chunk → clear false chunk = true →
  matchChunk chunk t ⇓ λ '(t', ok, e), ok = true → e = None ∧ ∀ q, takes (chunk ++ q) t q t'.
Proof.
  intros Hb Hc. unfold matchChunk.
  apply wp_loop with (I := λ '(p, s), are_bytes p ∧ clear false p = true ∧ ∀ q, takes (chunk ++ q) t (p ++ q) s)
    (meas := λ '(p, _), zlen p).
  - intros [p s] (Hb' & Hc' & Ht). destruct p as [|c p].
    { apply wp_ret. intros _. split; [done|]. exact Ht. }
    rewrite zlen_cons_pos.
    assert (c ≠ ch "*") as Hs by (by intros ->).
    eapply wp_mono; [by apply match_term_sound|]. intros [[p' s']|[[t' ok] e]]; [|by intros ->].
    intros [Hterm Hl]. pose proof (term_bytes _ _ _ _ Hb' Hterm) as Hbp. destruct (clear_term _ _ _ _ _ Hb' Hterm Hc') as [_ Hcp].
    split; [|pose proof (zlen_nonneg p'); lia]. split; [done|]. split; [done|]. intros q. eapply takes_app; [apply Ht|].
    eapply takes_cons; [|apply takes_nil]. by apply (term_app (c :: p)).
  - split; [done|]. split; [done|]. intros q. apply takes_nil.
  - unfold zlen. lia.
Qed.

(** A pattern without stars that matches is matched by its only chunk. *)
Lemma matchChunk_complete fuel p t :
  (ch "*" ∉ p) → are_bytes p → takes p t [] [] → (length p < fuel)%nat →
  loop fuel (λ '(chunk, s), if 0 <? zlen chunk then match_term chunk s else Ret (inr (s, true, None))) (p, t)
  = Ret ([], true, None).
Proof.
  intros Hns Hb Ht. remember [] as pe eqn:Ep in Ht at 1. remember [] as te eqn:Et in Ht. revert fuel Hns Hb.
  induction Ht as [p t|p t p1 t1 p2 t2 Hterm Ht IH]; intros fuel Hns Hb Hf; (destruct fuel as [|fuel]; [lia|]); cbn [loop]; subst; [done|].
  destruct p as [|c p]; [inversion Hterm|]. rewrite zlen_cons_pos.
  apply not_elem_of_cons in Hns as [Hc Hns]. apply not_eq_sym in Hc.
  rewrite (match_term_complete _ _ _ _ _ Hc Hterm), go_bind_ret.
  pose proof (match_term_sound c p t Hc) as Hs.
  rewrite (match_term_complete _ _ _ _ _ Hc Hterm) in Hs. destruct Hs as [_ Hl].
  assert (∃ k, p1 = drop k (c :: p)) as [k Ek].
  { clear -Hterm. assert (∀ x f p b p', ranges x f p b p' → ∃ k, p' = drop k p) as Hr.
    { induction 1 as [q|f q lo c' q1 b q2 He _ _ [k ->]|f q lo q1 hi q2 b q3 He1 He2 _ _ [k ->]]; [by exists 1%nat| |].
      - destruct (esc_suffix _ _ _ He) as [k' ->]. rewrite drop_drop. eauto.
      - destruct (esc_suffix _ _ _ He2) as [k2 ->]. destruct (esc_suffix _ _ _ He1) as [k1 E1].
        assert (q1 = drop 1 (drop (S k1) q)) as -> by (by rewrite <- E1). rewrite !drop_drop. eauto. }
    inversion Hterm as [ | | ? ? ? ? ? ? _ _ Hrs| ? ? ? ? ? ? _ Hrs| |]; subst; try (by exists 1%nat); try (by exists 2%nat);
      destruct (Hr _ _ _ _ _ Hrs) as [k ->]; [by exists (S k)|by exists (S (S k))]. }
  apply IH; [done|done| | |].
  - intros Hin. rewrite Ek in Hin. apply (subseteq_drop k (c :: p)) in Hin. by apply not_elem_of_cons in Hin.
  - rewrite Ek. by apply Forall_drop.
  - unfold zlen in Hl. simpl in *. lia.
Qed.

(** * Cutting a pattern at its stars *)

Definition stars (n : nat) : bytes := replicate n (ch "*").

Lemma takes_stars n q t : takes (stars n ++ q) t q t.
Proof.
  induction n as [|n IH]; [apply takes_nil|]. simpl. eapply takes_cons; [|exact IH].
  apply (term_star _ [] t). apply not_elem_of_nil.
Qed.
Lemma takes_star n q u t : (ch "/" ∉ u) → takes (stars (S n) ++ q) (u ++ t) q t.
Proof. intros Hu. simpl. eapply takes_cons; [by apply term_star|]. apply takes_stars. Qed.

Lemma idx_split (pre post : bytes) x r : r = zlen pre → idx (pre ++ x :: post) r = Ret x.
Proof. intros ->. apply idx_Some. rewrite nthZ_app, decide_False by lia. by rewrite Z.sub_diag. Qed.

(** The scan stops at the end or at a star outside brackets. *)
Lemma scan_spec p : scan p ⇓ λ i, ∃ chunk rest, p = chunk ++ rest ∧ i = zlen chunk ∧ clear false chunk = true ∧
  (rest = [] ∨ ∃ q, rest = ch "*" :: q).
Proof.
  unfold scan.
  apply wp_loop with (I := λ '(i, inrange), ∃ pre rest, p = pre ++ rest ∧ i = zlen pre ∧ clear false pre = true ∧
      (rest = [] ∨ ∀ l, clear false (pre ++ l) = clear inrange l))
    (meas := λ '(i, _), zlen p - i).
  - intros [i inrange] (pre & rest & -> & -> & Hc & Hl). rewrite zlen_app.
    destruct rest as [|c rest].
    { change (zlen (@nil Z)) with 0. destruct (Z.ltb_spec (zlen pre) (zlen pre + 0)); [lia|]. apply wp_ret.
      exists pre, []. split; [done|]. split; [done|]. split; [done|by left]. }
    destruct Hl as [|Hl]; [done|]. rewrite zlen_cons. pose proof (zlen_nonneg rest).
    destruct (Z.ltb_spec (zlen pre) (zlen pre + (1 + zlen rest))); [|lia]. rewrite idx_split, go_bind_ret by done.
    assert (∀ b, (∀ l, clear inrange (c :: l) = clear b l) → ∃ pre0 rest0, pre ++ c :: rest = pre0 ++ rest0 ∧
      zlen pre + 1 = zlen pre0 ∧ clear false pre0 = true ∧ (rest0 = [] ∨ ∀ l, clear false (pre0 ++ l) = clear b l)) as Hgo.
    { intros b Hb. exists (pre ++ [c]), rest. split; [by rewrite <- app_assoc|]. split; [by rewrite zlen_app|].
      split; [by rewrite Hl, Hb|]. right. intros l. by rewrite <- app_assoc, Hl, <- Hb. }
    destruct (Z.eqb_spec c 92) as [->|H1].
    { apply wp_ret. destruct rest as [|x rest].
      - change (zlen (@nil Z)) with 0. destruct (Z.ltb_spec (zlen pre + 1) (zlen pre + (1 + 0))); [lia|]. split; [|lia].
        exists (pre ++ [92]), []. rewrite app_nil_r. split; [done|]. split; [by rewrite zlen_app|]. split; [by rewrite Hl|by left].
      - rewrite zlen_cons in *. pose proof (zlen_nonneg rest). destruct (Z.ltb_spec (zlen pre + 1) (zlen pre + (1 + (1 + zlen rest)))); [|lia].
        split; [|lia]. exists (pre ++ [92; x]), rest. split; [by rewrite <- app_assoc|]. split; [rewrite zlen_app, zlen_two; lia|].
        split; [by rewrite Hl|]. right. intros l. by rewrite <- app_assoc, Hl. }
    destruct (Z.eqb_spec c (ch "[")) as [->|H2]; [apply wp_ret; split; [by apply Hgo|lia]|].
    destruct (Z.eqb_spec c (ch "]")) as [->|H3]; [apply wp_ret; split; [by apply Hgo|lia]|].
    destruct (Z.eqb_spec c (ch "*")) as [->|H4].
    + destruct inrange; simpl negb; cbn [andb].
      * apply wp_ret. split; [by apply Hgo|lia].
      * apply wp_ret. exists pre, (ch "*" :: rest). split; [done|]. split; [done|]. split; [done|]. right. by eexists.
    + cbn [andb]. apply wp_ret. split; [|lia]. apply Hgo. intros l. simpl.
      destruct (Z.eqb_spec c 92); [done|]. destruct (Z.eqb_spec c (ch "[")); [done|]. destruct (Z.eqb_spec c (ch "]")); [done|].
      by destruct (Z.eqb_spec c (ch "*")).
  - exists [], p. split; [done|]. split; [done|]. split; [done|by right].
  - unfold zlen. lia.
Qed.

Lemma scanChunk_spec p : p ≠ [] → scanChunk p ⇓ λ '(star, chunk, rest), ∃ n,
  p = stars n ++ chunk ++ rest ∧ star = negb (n =? 0)%nat ∧ clear false chunk = true ∧
  (rest = [] ∨ ∃ q, rest = ch "*" :: q) ∧ zlen rest < zlen p ∧ (chunk = [] → rest = []).
Proof.
  intros Hne. unfold scanChunk.
  eapply wp_bind_mono with (Q := λ '(star, q), ∃ n, p = stars n ++ q ∧ star = negb (n =? 0)%nat ∧ ∀ q', q ≠ ch "*" :: q').
  - apply wp_while with (I := λ '(star, q), ∃ n, p = stars n ++ q ∧ star = negb (n =? 0)%nat) (meas := λ '(_, q), zlen q).
    + intros [star q] (n & -> & ->). destruct q as [|c q]; [by apply wp_ret; exists n|].
      rewrite zlen_cons_pos, idx_head, go_bind_ret. apply wp_ret. destruct (Z.eqb_spec c (ch "*")) as [->|Hc].
      * rewrite slice_1, go_bind_ret. apply wp_ret. rewrite zlen_cons. pose proof (zlen_nonneg q). split; [|lia].
        exists (S n). split; [|done]. unfold stars. by rewrite replicate_S_end, <- app_assoc.
      * exists n. split; [done|]. split; [done|]. by intros q' [= -> _].
    + by exists 0%nat.
    + unfold zlen. lia.
  - intros [star q] (n & Ep & Es & Hq). eapply wp_bind_mono; [apply scan_spec|].
    intros i (chunk & rest & Eq & -> & Hc & Hr). pose proof (zlen_nonneg chunk). pose proof (zlen_nonneg rest).
    assert (zlen q = zlen chunk + zlen rest) as Hl by (by rewrite Eq, zlen_app).
    rewrite slice_eq, go_bind_ret, slice_from_eq, go_bind_ret by lia. apply wp_ret.
    rewrite Z.sub_0_r, drop_0, Eq, take_zlen_app, drop_zlen_app. exists n. rewrite <- Eq.
    split; [done|]. split; [done|]. split; [done|]. split; [done|].
    assert (chunk = [] → rest = []) as Hcr.
    { intros ->. destruct Hr as [|[q' ->]]; [done|]. by destruct (Hq q'). }
    split; [|done]. assert (zlen p = Z.of_nat n + zlen q) as Hlp.
    { rewrite Ep, zlen_app. unfold stars, zlen. by rewrite length_replicate. }
    destruct chunk as [|c chunk]; [|rewrite zlen_cons in *; pose proof (zlen_nonneg chunk); lia].
    rewrite (Hcr eq_refl) in *. simpl in Eq. subst q. destruct n as [|n]; [by rewrite Ep in Hne|]. change (zlen (@nil Z)) with 0 in *. lia.
Qed.

Lemma skip_spec chunk rest name :
  are_bytes chunk → clear false chunk = true →
  skip chunk rest name ⇓ λ res, match res with
  | Some (inl t) => ∃ u t0, name = u ++ t0 ∧ (ch "/" ∉ u) ∧ ∀ q, takes (chunk ++ q) t0 q t
  | _ => True
  end.
Proof.
  intros Hb Hc. unfold skip.
  apply wp_loop with (I := λ i, ∃ u t0, name = u ++ t0 ∧ i = zlen u ∧ (ch "/" ∉ u)) (meas := λ i, zlen name - i).
  - intros i (u & t0 & -> & -> & Hu). rewrite zlen_app. destruct t0 as [|c t0].
    { change (zlen (@nil Z)) with 0. destruct (Z.ltb_spec (zlen u) (zlen u + 0)); [lia|]. by apply wp_ret. }
    rewrite zlen_cons. pose proof (zlen_nonneg t0). pose proof (zlen_nonneg u).
    destruct (Z.ltb_spec (zlen u) (zlen u + (1 + zlen t0))); [|lia]. rewrite idx_split, !go_bind_ret by done.
    destruct (Z.eqb_spec c (ch "/")) as [->|Hne]; [by apply wp_ret|]. simpl negb. cbv iota.
    replace (u ++ c :: t0) with ((u ++ [c]) ++ t0) by (by rewrite <- app_assoc).
    assert (ch "/" ∉ (u ++ [c])) as Hu'.
    { rewrite elem_of_app, list_elem_of_singleton. intros [|E]; [done|]. by destruct Hne. }
    replace (zlen u + 1) with (zlen (u ++ [c])) by (by rewrite zlen_app).
    rewrite slice_from_eq, go_bind_ret by (rewrite (zlen_app (u ++ [c]) t0); pose proof (zlen_nonneg (u ++ [c])); lia). rewrite drop_zlen_app.
    assert (zlen (u ++ [c]) = zlen u + 1) as El by (by rewrite zlen_app).
    assert (∃ u0 t1, (u ++ [c]) ++ t0 = u0 ++ t1 ∧ zlen (u ++ [c]) = zlen u0 ∧ (ch "/" ∉ u0)) as Hnext by (by exists (u ++ [c]), t0).
    eapply wp_bind_mono; [by apply matchChunk_sound|]. intros [[t ok] e] Hok. destruct ok.
    + destruct (Hok eq_refl) as [_ Ht]. destruct (_ && _); [apply wp_ret; split; [done|lia]|]. apply wp_ret. by exists (u ++ [c]), t0.
    + destruct e; [by apply wp_ret|]. apply wp_ret. split; [done|lia].
  - exists [], name. split; [done|]. split; [done|]. apply not_elem_of_nil.
  - unfold zlen. lia.
Qed.

Lemma Match_sound p name :
  are_bytes p → Match p name ⇓ λ '(b, e), (b = true → glob p name) ∧ (b = false ∨ e = None).
Proof.
  intros Hb. unfold Match.
  apply wp_loop with (I := λ '(q, t), are_bytes q ∧ takes p name q t) (meas := λ '(q, _), zlen q).
  - intros [q t] [Hbq Ht]. destruct q as [|c q].
    { apply wp_ret. split; [|by right]. rewrite zlen_eqb_0. intros Hz%bool_decide_eq_true. by subst. }
    rewrite zlen_cons_pos. eapply wp_bind_mono; [by apply scanChunk_spec|].
    intros [[star chunk] rest] (n & Ep & Hstar & Hc & Hr & Hl & Hcr). rewrite Ep in *.
    apply Forall_app in Hbq as [_ Hbq]. apply Forall_app in Hbq as [Hbc Hbr]. pose proof (zlen_nonneg rest).
    destruct (star && (zlen chunk =? 0)) eqn:Etail.
    { apply andb_true_iff in Etail as [-> Hz%Z.eqb_eq]. apply zlen_nil_inv in Hz as ->. rewrite (Hcr eq_refl) in *.
      destruct (proj1 (wp_ex _ _) (Index_spec t (str "/") ltac:(done))) as (i & -> & Hi). rewrite go_bind_ret. apply wp_ret.
      split; [|by right]. intros Hlt%Z.ltb_lt. destruct Hi as [[_ Hno]|[(? & _) _]]; [|lia].
      destruct n as [|n]; [done|]. eapply takes_app; [exact Ht|]. rewrite <- (app_nil_r t) at 1. apply takes_star.
      intros [k Hk]%list_elem_of_lookup. apply (Hno (Z.of_nat k)). change (str "/") with [ch "/"]. by rewrite occurs_byte, nthZ_lookup. }
    eapply wp_bind_mono; [by apply matchChunk_sound|]. intros [[t' ok] e] Hok.
    destruct (ok && _) eqn:Eok.
    { apply andb_true_iff in Eok as [-> _]. destruct (Hok eq_refl) as [_ Htk]. apply wp_ret. split; [|lia]. split; [done|].
      eapply takes_app; [exact Ht|]. eapply takes_app; [apply takes_stars|apply Htk]. }
    destruct e; [apply wp_ret; split; [done|by left]|]. destruct star; [|apply wp_ret; split; [done|by left]].
    destruct n as [|n]; [done|]. eapply wp_bind_mono; [by apply skip_spec|].
    intros [[t1|e]|] Hs; [|apply wp_ret; split; [done|by left]..]. destruct Hs as (u & t0 & Et & Hu & Htk). apply wp_ret. split; [|lia]. split; [done|].
    eapply takes_app; [exact Ht|]. rewrite Et. eapply takes_app; [by apply takes_star|apply Htk].
  - split; [done|apply takes_nil].
  - unfold zlen. lia.
Qed.

(** C21: [Match] neither panics nor runs out of fuel; what it reports as a match is
    one by the documented syntax of patterns, an error excludes a match, and a
    pattern without stars is matched whenever the syntax says so. *)
Theorem Match_glob p name :
  are_bytes p →
  (∃ b e, Match p name = Ret (b, e) ∧ (b = true → glob p name) ∧ (b = false ∨ e = None)) ∧
  ((ch "*" ∉ p) → glob p name → Match p name = Ret (true, None)).
Proof.
  intros Hb. split.
  - destruct (proj1 (wp_ex _ _) (Match_sound p name Hb)) as ([b e] & E & H). by exists b, e.
  - intros Hns Hg. unfold Match. destruct p as [|c p].
    { by inversion Hg as [|? ? ? ? ? ? Ht]; [|inversion Ht]. }
    cbn [loop length]. rewrite zlen_cons_pos.
    destruct (proj1 (wp_ex _ _) (scanChunk_spec (c :: p) ltac:(done))) as ([[star chunk] rest] & -> & n & Ep & -> & _ & Hr & _).
    assert (n = 0%nat) as ->.
    { destruct n as [|n]; [done|]. injection Ep as -> _. by apply not_elem_of_cons in Hns as [? _]. }
    assert (rest = []) as ->.
    { destruct Hr as [|[q ->]]; [done|]. exfalso. apply Hns. rewrite Ep. simpl. apply elem_of_app. right. left. }
    simpl in Ep. rewrite app_nil_r in Ep. rewrite <- Ep, go_bind_ret. cbn [Nat.eqb negb andb].
    unfold matchChunk. rewrite matchChunk_complete by (done || lia). done.
Qed.

Example Match_glob_witness :
  are_bytes (str "a[b-d]?") ∧ Match (str "a[b-d]?") (str "acx") = Ret (true, None) ∧ glob (str "a[b-d]?") (str "acx").
Proof.
  assert (are_bytes (str "a[b-d]?")) as Hb by (by repeat constructor).
  destruct (Match_glob (str "a[b-d]?") (str "acx") Hb) as [(b & e & E & H & _) _].
  split; [exact Hb|]. assert (Match (str "a[b-d]?") (str "acx") = Ret (true, None)) as E' by (vm_compute; reflexivity).
  split; [exact E'|]. apply H. rewrite E' in E. by injection E as <- _.
Defined.

(** With a class that matches a slash the search for the chunk after a star is
    not complete: the documented syntax lets this pattern match. *)
Example Match_misses : glob (str "*[^x]/*") (str "b//") ∧ Match (str "*[^x]/*") (str "b//") = Ret (false, None).
Proof.
  split; [|by vm_compute].
  assert (esc (str "x]/*") (ch "x") (ch "]" :: str "/*")) as He by (by apply (esc_plain (ch "x") (str "]/*") (ch "x") 1)).
  assert (ranges (ch "/") true (str "x]/*") false (str "/*")) as Hr.
  { exact (ranges_one (ch "/") true _ (ch "x") (ch "]") _ false _ He ltac:(done) (ranges_end _ _)). }
  eapply takes_cons; [apply (term_star (str "[^x]/*") (str "b") (str "//")); by rewrite list_elem_of_In; intros [?|[]]|].
  eapply takes_cons; [by apply (term_not_class (str "x]/*") (ch "/") (str "/") (ch "/") 1)|].
  eapply takes_cons; [by apply term_byte|]. eapply takes_cons; [|apply takes_nil].
  apply (term_star [] [] []). apply not_elem_of_nil.
Qed.
