(* ===== verification/Geom.v ===== *)
(** Points and rectangles of package [image], [src/src/image/geom.go], on integers
    of [host] bits. *)
From S2P Require Import Prelude.
From S2P Require Import Strconv.

Record Point := Pt { X : Z; Y : Z }.
Record Rectangle := { Min : Point; Max : Point }.
Definition ZP : Point := Pt 0 0.
Definition ZR : Rectangle := {| Min := ZP; Max := ZP |}.

(** Integer division and remainder panic on zero. *)
Definition quo (host a b : Z) : go Z := if b =? 0 then Panic "integer divide by zero" else Ret (swrap host (Z.quot a b)).
Definition rem (a b : Z) : go Z := if b =? 0 then Panic "integer divide by zero" else Ret (Z.rem a b).

Section geom.
Context (host : Z).
Abbreviation int := (swrap host) (only parsing).

(** * Points *)

Definition Point_String (p : Point) : go bytes :=
  x ← Itoa host (X p); y ← Itoa host (Y p);
  Ret (str "(" ++ x ++ str "," ++ y ++ str ")").
Definition Point_Add (p q : Point) : Point := Pt (int (X p + X q)) (int (Y p + Y q)).
Definition Point_Sub (p q : Point) : Point := Pt (int (X p - X q)) (int (Y p - Y q)).
Definition Point_Mul (p : Point) (k : Z) : Point := Pt (int (X p * k)) (int (Y p * k)).
Definition Point_Div (p : Point) (k : Z) : go Point :=
  x ← quo host (X p) k; y ← quo host (Y p) k; Ret (Pt x y).
Definition Point_In (p : Point) (r : Rectangle) : bool :=
  (X (Min r) <=? X p) && (X p <? X (Max r)) && (Y (Min r) <=? Y p) && (Y p <? Y (Max r)).
Definition Point_Eq (p q : Point) : bool := (X p =? X q) && (Y p =? Y q).

(** * Rectangles *)

Definition Rectangle_String (r : Rectangle) : go bytes :=
  a ← Point_String (Min r); b ← Point_String (Max r); Ret (a ++ str "-" ++ b).
Definition Dx (r : Rectangle) : Z := int (X (Max r) - X (Min r)).
Definition Dy (r : Rectangle) : Z := int (Y (Max r) - Y (Min r)).
Definition Size (r : Rectangle) : Point :=
  Pt (int (X (Max r) - X (Min r))) (int (Y (Max r) - Y (Min r))).
Definition Rectangle_Add (r : Rectangle) (p : Point) : Rectangle :=
  {| Min := Pt (int (X (Min r) + X p)) (int (Y (Min r) + Y p));
     Max := Pt (int (X (Max r) + X p)) (int (Y (Max r) + Y p)) |}.
Definition Rectangle_Sub (r : Rectangle) (p : Point) : Rectangle :=
  {| Min := Pt (int (X (Min r) - X p)) (int (Y (Min r) - Y p));
     Max := Pt (int (X (Max r) - X p)) (int (Y (Max r) - Y p)) |}.

Definition Point_Mod (p : Point) (r : Rectangle) : go Point :=
  let '(w, h) := (Dx r, Dy r) in
  let p := Point_Sub p (Min r) in
  x ← rem (X p) w;
  let x := if x <? 0 then int (x + w) else x in
  y ← rem (Y p) h;
  let y := if y <? 0 then int (y + h) else y in
  Ret (Point_Add (Pt x y) (Min r)).

Definition Inset (r : Rectangle) (n : Z) : Rectangle :=
  let '(x0, x1) := (X (Min r), X (Max r)) in
  let '(y0, y1) := (Y (Min r), Y (Max r)) in
  let '(x0, x1) := if Dx r <? int (2 * n) then (int (Z.quot (int (x0 + x1)) 2), int (Z.quot (int (x0 + x1)) 2))
                   else (int (x0 + n), int (x1 - n)) in
  let '(y0, y1) := if Dy r <? int (2 * n) then (int (Z.quot (int (y0 + y1)) 2), int (Z.quot (int (y0 + y1)) 2))
                   else (int (y0 + n), int (y1 - n)) in
  {| Min := Pt x0 y0; Max := Pt x1 y1 |}.

Definition Intersect (r s : Rectangle) : Rectangle :=
  let x0 := if X (Min r) <? X (Min s) then X (Min s) else X (Min r) in
  let y0 := if Y (Min r) <? Y (Min s) then Y (Min s) else Y (Min r) in
  let x1 := if X (Max s) <? X (Max r) then X (Max s) else X (Max r) in
  let y1 := if Y (Max s) <? Y (Max r) then Y (Max s) else Y (Max r) in
  if (x1 <? x0) || (y1 <? y0) then ZR else {| Min := Pt x0 y0; Max := Pt x1 y1 |}.

Definition Union (r s : Rectangle) : Rectangle :=
  let x0 := if X (Min s) <? X (Min r) then X (Min s) else X (Min r) in
  let y0 := if Y (Min s) <? Y (Min r) then Y (Min s) else Y (Min r) in
  let x1 := if X (Max r) <? X (Max s) then X (Max s) else X (Max r) in
  let y1 := if Y (Max r) <? Y (Max s) then Y (Max s) else Y (Max r) in
  {| Min := Pt x0 y0; Max := Pt x1 y1 |}.

Definition Empty (r : Rectangle) : bool := (X (Max r) <=? X (Min r)) || (Y (Max r) <=? Y (Min r)).
Definition Rectangle_Eq (r s : Rectangle) : bool :=
  (X (Min r) =? X (Min s)) && (Y (Min r) =? Y (Min s)) && (X (Max r) =? X (Max s)) && (Y (Max r) =? Y (Max s)).
Definition Overlaps (r s : Rectangle) : bool :=
  (X (Min r) <? X (Max s)) && (X (Min s) <? X (Max r)) && (Y (Min r) <? Y (Max s)) && (Y (Min s) <? Y (Max r)).
Definition Rectangle_In (r s : Rectangle) : bool :=
  if Empty r then true else
  (X (Min s) <=? X (Min r)) && (X (Max r) <=? X (Max s)) && (Y (Min s) <=? Y (Min r)) && (Y (Max r) <=? Y (Max s)).
Definition Canon (r : Rectangle) : Rectangle :=
  let '(x0, x1) := if X (Max r) <? X (Min r) then (X (Max r), X (Min r)) else (X (Min r), X (Max r)) in
  let '(y0, y1) := if Y (Max r) <? Y (Min r) then (Y (Max r), Y (Min r)) else (Y (Min r), Y (Max r)) in
  {| Min := Pt x0 y0; Max := Pt x1 y1 |}.
Definition Rect (x0 y0 x1 y1 : Z) : Rectangle :=
  let '(x0, x1) := if x1 <? x0 then (x1, x0) else (x0, x1) in
  let '(y0, y1) := if y1 <? y0 then (y1, y0) else (y0, y1) in
  {| Min := Pt x0 y0; Max := Pt x1 y1 |}.
End geom.

Example geom_run :
  Rectangle_String 32 (Rect 6 5 3 (-4)) = Ret (str "(3,-4)-(6,5)") ∧
  Point_Mod 64 (Pt (-7) 12) (Rect 0 0 5 5) = Ret (Pt 3 2) ∧ Inset 64 (Rect 0 0 10 10) 6 = Rect 5 5 5 5 ∧
  Intersect (Rect 0 0 10 10) (Rect 5 2 20 8) = Rect 5 2 10 8 ∧ Point_Mod 64 ZP ZR = Panic "integer divide by zero".
Proof. by vm_compute. Qed.

(** An empty rectangle inside another is said to overlap it, touching rectangles
    have an empty intersection that is not [ZR], and the union with an empty
    rectangle is not the smallest one. *)
Example geom_empty :
  Overlaps (Rect 5 5 5 5) (Rect 0 0 10 10) = true ∧ Intersect (Rect 0 0 5 5) (Rect 5 0 9 5) = Rect 5 0 5 5 ∧
  Union ZR (Rect 5 5 6 6) = Rect 0 0 6 6.
Proof. by vm_compute. Qed.

(** * Rectangles as sets of points *)

Definition well_formed (r : Rectangle) : Prop := X (Min r) <= X (Max r) ∧ Y (Min r) <= Y (Max r).

Ltac geom := unfold Point_In, Rectangle_In, Empty, Overlaps, Intersect, Union, Canon, Rect, Rectangle_Eq, Point_Eq, well_formed, ZR, ZP in *;
  cbn [Min Max X Y] in *.

Lemma Empty_points r : Empty r = true ↔ ∀ p, Point_In p r = false.
Proof.
  split.
  - intros He [x y]. destruct r as [[x0 y0] [x1 y1]]. geom. lia.
  - intros H. specialize (H (Min r)). destruct r as [[x0 y0] [x1 y1]]. geom. lia.
Qed.

Lemma corner_last r : Empty r = false → Point_In (Pt (X (Max r) - 1) (Y (Max r) - 1)) r = true ∧ Point_In (Min r) r = true.
Proof. destruct r as [[x0 y0] [x1 y1]]. geom. lia. Qed.

Lemma In_points r s : Rectangle_In r s = true ↔ ∀ p, Point_In p r = true → Point_In p s = true.
Proof.
  destruct (Empty r) eqn:He.
  - unfold Rectangle_In. rewrite He. split; [|done]. intros _ p Hp. rewrite (proj1 (Empty_points r) He) in Hp. done.
  - destruct (corner_last r He) as [Ha Hb]. split.
    + unfold Rectangle_In. rewrite He. intros Hin [x y]. destruct r as [[x0 y0] [x1 y1]], s as [[u0 v0] [u1 v1]]. geom. lia.
    + intros H. apply H in Ha, Hb. clear H. unfold Rectangle_In. rewrite He.
      destruct r as [[x0 y0] [x1 y1]], s as [[u0 v0] [u1 v1]]. geom. lia.
Qed.

Lemma Intersect_points r s p : Point_In p (Intersect r s) = Point_In p r && Point_In p s.
Proof.
  destruct p as [x y], r as [[x0 y0] [x1 y1]], s as [[u0 v0] [u1 v1]]. geom.
  repeat (case_match; cbn [Min Max X Y] in *); lia.
Qed.

Lemma Union_points r s p : Point_In p r = true ∨ Point_In p s = true → Point_In p (Union r s) = true.
Proof.
  destruct p as [x y], r as [[x0 y0] [x1 y1]], s as [[u0 v0] [u1 v1]]. geom.
  repeat (case_match; cbn [Min Max X Y] in *); lia.
Qed.

Lemma Union_least r s t :
  Empty r = false → Empty s = false → Rectangle_In r t = true → Rectangle_In s t = true → Rectangle_In (Union r s) t = true.
Proof.
  intros Hr Hs. unfold Rectangle_In at 1 2. rewrite Hr, Hs.
  destruct r as [[x0 y0] [x1 y1]], s as [[u0 v0] [u1 v1]], t as [[a b] [c d]]. geom.
  repeat (case_match; cbn [Min Max X Y] in *); lia.
Qed.

Lemma Overlaps_points r s : Empty r = false → Empty s = false →
  Overlaps r s = true ↔ ∃ p, Point_In p r = true ∧ Point_In p s = true.
Proof.
  intros Hr Hs. split.
  - intros Ho. exists (Min (Intersect r s)). destruct r as [[x0 y0] [x1 y1]], s as [[u0 v0] [u1 v1]]. geom.
    repeat (case_match; cbn [Min Max X Y] in *); lia.
  - intros ([x y] & H1 & H2). destruct r as [[x0 y0] [x1 y1]], s as [[u0 v0] [u1 v1]]. geom. lia.
Qed.

Lemma Rectangle_Eq_iff r s : Rectangle_Eq r s = true ↔ r = s.
Proof.
  destruct r as [[x0 y0] [x1 y1]], s as [[u0 v0] [u1 v1]]. geom. split.
  - intros H. repeat f_equal; lia.
  - intros [= -> -> -> ->]. lia.
Qed.

(** C22: a rectangle is the set of its points: [Empty] says the set is empty, [In]
    is inclusion, [Intersect] is the intersection, [Union] contains both and, for
    non-empty rectangles, is in every rectangle that does; [Overlaps] decides,
    for non-empty rectangles, whether there is a common point. [Canon] and [Rect]
    return well-formed rectangles, [Canon] changes no well-formed one, and
    [Intersect] and [Union] preserve well-formedness. *)
Theorem Rectangle_sets r s :
  (Empty r = true ↔ ∀ p, Point_In p r = false) ∧
  (Rectangle_In r s = true ↔ ∀ p, Point_In p r = true → Point_In p s = true) ∧
  (∀ p, Point_In p (Intersect r s) = Point_In p r && Point_In p s) ∧
  (∀ p, Point_In p r = true ∨ Point_In p s = true → Point_In p (Union r s) = true) ∧
  (Empty r = false → Empty s = false →
     (∀ t, Rectangle_In r t = true → Rectangle_In s t = true → Rectangle_In (Union r s) t = true) ∧
     (Overlaps r s = true ↔ ∃ p, Point_In p r = true ∧ Point_In p s = true)) ∧
  well_formed (Canon r) ∧ (∀ a b c d, well_formed (Rect a b c d)) ∧
  (well_formed r → Canon r = r ∧ well_formed (Intersect r s) ∧ (well_formed s → well_formed (Union r s))) ∧
  (Rectangle_Eq r s = true ↔ r = s).
Proof.
  split; [apply Empty_points|]. split; [apply In_points|]. split; [apply Intersect_points|]. split; [apply Union_points|].
  split; [intros Hr Hs; split; [intros t; by apply Union_least|by apply Overlaps_points]|].
  split; [destruct r as [[x0 y0] [x1 y1]]; geom; repeat (case_match; cbn [Min Max X Y] in * ); simplify_eq; lia|].
  split; [intros a b c d; geom; repeat (case_match; cbn [Min Max X Y] in * ); simplify_eq; lia|].
  split; [|apply Rectangle_Eq_iff].
  intros Hr. destruct r as [[x0 y0] [x1 y1]], s as [[u0 v0] [u1 v1]]. geom.
  split; [by rewrite !(proj2 (Z.ltb_ge _ _)) by lia|].
  split; [|intros Hs]; repeat (case_match; cbn [Min Max X Y] in * ); lia.
Qed.

Example Rectangle_sets_witness :
  Overlaps (Rect 0 0 4 4) (Rect 3 3 9 9) = true ∧ (∃ p, Point_In p (Rect 0 0 4 4) = true ∧ Point_In p (Rect 3 3 9 9) = true) ∧
  well_formed (Union (Rect 0 0 4 4) (Rect 3 3 9 9)).
Proof.
  destruct (Rectangle_sets (Rect 0 0 4 4) (Rect 3 3 9 9)) as (_ & _ & _ & _ & H & _ & Hw & Hr & _).
  destruct (H eq_refl eq_refl) as [_ Ho]. split; [vm_compute; reflexivity|]. split; [apply Ho; vm_compute; reflexivity|].
  destruct (Hr (Hw _ _ _ _)) as (_ & _ & Hu). apply Hu, Hw.
Defined.

(** * Arithmetic on rectangles *)

(** A coordinate of [host] bits, and one of a quarter of the range. *)
Definition in_range (host c : Z) : Prop := - 2 ^ (host - 1) <= c < 2 ^ (host - 1).
Definition small (host c : Z) : Prop := - 2 ^ (host - 2) < c < 2 ^ (host - 2).
Definition small_point host (p : Point) : Prop := small host (X p) ∧ small host (Y p).
Definition small_rectangle host (r : Rectangle) : Prop := small_point host (Min r) ∧ small_point host (Max r).
Definition fits host (r : Rectangle) : Prop :=
  (in_range host (X (Min r)) ∧ in_range host (Y (Min r))) ∧ in_range host (X (Max r)) ∧ in_range host (Y (Max r)).

Section arithmetic.
Context (host : Z) (Hhost : 2 <= host).

Lemma small_int x : - 2 * 2 ^ (host - 2) <= x < 2 * 2 ^ (host - 2) → swrap host x = x.
Proof.
  intros Hx. apply swrap_small; [|lia]. replace (host - 1) with (Z.succ (host - 2)) by lia. rewrite Z.pow_succ_r by lia. lia.
Qed.

Lemma Add_Sub r p : fits host r → Rectangle_Sub host (Rectangle_Add host r p) p = r.
Proof.
  destruct r as [[x0 y0] [x1 y1]], p as [a b]. unfold fits, in_range, Rectangle_Sub, Rectangle_Add. cbn [X Y Min Max].
  intros H. rewrite <- !Z.add_opp_r, !swrap_add_l, !Z.add_opp_r, !Z.add_simpl_r. rewrite !swrap_small by lia. done.
Qed.

Lemma Add_points r p q : small_rectangle host r → small_point host p → small_point host q →
  Point_In (Point_Add host q p) (Rectangle_Add host r p) = Point_In q r.
Proof.
  destruct r as [[x0 y0] [x1 y1]], p as [a b], q as [x y].
  unfold small_rectangle, small_point, small, Rectangle_Add, Point_Add, Point_In. cbn [X Y Min Max].
  intros Hr Hp Hq. rewrite !small_int by lia. apply Bool.eq_iff_eq_true. lia.
Qed.

Lemma rem_into x w : 0 < w → ∃ k, (if Z.rem x w <? 0 then Z.rem x w + w else Z.rem x w) = x + k * w ∧
  0 <= x + k * w < w ∧ - w < Z.rem x w < w.
Proof.
  intros Hw. pose proof (Z.quot_rem x w) as E. pose proof (Z.rem_bound_abs x w) as Hb.
  destruct (Z.ltb_spec (Z.rem x w) 0).
  - exists (1 - Z.quot x w). lia.
  - exists (- Z.quot x w). lia.
Qed.

Lemma Mod_points r p : small_rectangle host r → small_point host p → Empty r = false →
  ∃ q k l, Point_Mod host p r = Ret q ∧ Point_In q r = true ∧
    X q = X p + k * (X (Max r) - X (Min r)) ∧ Y q = Y p + l * (Y (Max r) - Y (Min r)).
Proof.
  destruct r as [[x0 y0] [x1 y1]], p as [x y].
  unfold small_rectangle, small_point, small, Point_Mod, Empty, Point_In, Point_Sub, Point_Add, rem, Dx, Dy. cbn [X Y Min Max].
  intros Hr Hp He. rewrite (small_int (x1 - x0)), (small_int (y1 - y0)), (small_int (x - x0)), (small_int (y - y0)) by lia.
  destruct (rem_into (x - x0) (x1 - x0)) as (k & Ek & Hk & Hk'); [lia|].
  destruct (rem_into (y - y0) (y1 - y0)) as (l & El & Hl & Hl'); [lia|].
  destruct (Z.eqb_spec (x1 - x0) 0); [lia|]. destruct (Z.eqb_spec (y1 - y0) 0); [lia|]. rewrite !go_bind_ret.
  assert (∀ a b, - b < a → b < 2 * 2 ^ (host - 2) → (if a <? 0 then swrap host (a + b) else a) = (if a <? 0 then a + b else a)) as Hneg.
  { intros a b Ha Hb. destruct (Z.ltb_spec a 0); [apply small_int; lia|done]. }
  rewrite !Hneg by lia.
  rewrite Ek, El. exists (Pt (x + k * (x1 - x0)) (y + l * (y1 - y0))), k, l. cbn [X Y].
  split; [|split; [lia|done]]. rewrite !small_int by lia. do 2 f_equal; lia.
Qed.

Lemma Inset_points r n q : small_rectangle host r → small host n → 0 <= n → small_point host q →
  Point_In q (Inset host r n) = Point_In (Pt (X q - n) (Y q - n)) r && Point_In (Pt (X q + n) (Y q + n)) r.
Proof.
  destruct r as [[x0 y0] [x1 y1]], q as [x y].
  unfold small_rectangle, small_point, small, Inset, Point_In, Dx, Dy. cbn [X Y Min Max].
  intros Hr Hn H0 Hq. rewrite !(small_int (2 * n)), !(small_int (_ - _)), !(small_int (_ + _)) by lia.
  destruct (Z.ltb_spec (x1 - x0) (2 * n)), (Z.ltb_spec (y1 - y0) (2 * n)); cbn [X Y Min Max]; apply Bool.eq_iff_eq_true; lia.
Qed.

Lemma Inset_well_formed r n : small_rectangle host r → small host n → well_formed r → well_formed (Inset host r n).
Proof.
  destruct r as [[x0 y0] [x1 y1]]. unfold small_rectangle, small_point, small, Inset, well_formed, Dx, Dy. cbn [X Y Min Max].
  intros Hr Hn Hw. rewrite !(small_int (2 * n)), !(small_int (_ - _)), !(small_int (_ + _)) by lia.
  destruct (Z.ltb_spec (x1 - x0) (2 * n)), (Z.ltb_spec (y1 - y0) (2 * n)); cbn [X Y Min Max]; lia.
Qed.
End arithmetic.

(** On coordinates of [host] bits, translating a rectangle and translating it
    back gives it again, overflow included. Where coordinates keep to half of the
    range, translation moves the points, [Mod] returns the point of a non-empty
    rectangle at multiples of its sides, and [Inset] keeps the points at a
    distance of [n] from the sides and the rectangle well-formed. *)
Theorem Rectangle_arithmetic host r p q n :
  2 <= host →
  (fits host r → Rectangle_Sub host (Rectangle_Add host r p) p = r) ∧
  (small_rectangle host r → small_point host p → small_point host q → small host n →
   Point_In (Point_Add host q p) (Rectangle_Add host r p) = Point_In q r ∧
   (Empty r = false → ∃ m k l, Point_Mod host p r = Ret m ∧ Point_In m r = true ∧
      X m = X p + k * (X (Max r) - X (Min r)) ∧ Y m = Y p + l * (Y (Max r) - Y (Min r))) ∧
   (0 <= n → Point_In q (Inset host r n) = Point_In (Pt (X q - n) (Y q - n)) r && Point_In (Pt (X q + n) (Y q + n)) r) ∧
   (well_formed r → well_formed (Inset host r n))).
Proof.
  intros Hh. split; [by apply Add_Sub|]. intros Hr Hp Hq Hn. split; [by apply Add_points|].
  split; [by apply Mod_points|]. split; [intros; by apply Inset_points|by apply Inset_well_formed].
Qed.

Example Rectangle_arithmetic_witness :
  Rectangle_Sub 32 (Rectangle_Add 32 (Rect 1 1 9 9) (Pt (2 ^ 31 - 1) 3)) (Pt (2 ^ 31 - 1) 3) = Rect 1 1 9 9 ∧
  (∃ m k l, Point_Mod 32 (Pt (-7) 30) (Rect 1 1 9 9) = Ret m ∧ Point_In m (Rect 1 1 9 9) = true ∧
      X m = -7 + k * 8 ∧ Y m = 30 + l * 8).
Proof.
  split.
  - apply (Rectangle_arithmetic 32 (Rect 1 1 9 9) (Pt (2 ^ 31 - 1) 3) ZP 0); [lia|]. vm_compute. intuition discriminate.
  - destruct (Rectangle_arithmetic 32 (Rect 1 1 9 9) (Pt (-7) 30) ZP 0 ltac:(lia)) as [_ H].
    apply H; vm_compute; intuition (reflexivity || discriminate).
Defined.
