(* ===== verification/Zone.v ===== *)
(** Time zones of package [time], [src/src/time/zoneinfo.go]: which zone of a
    location is in effect at an instant.  A pointer to a zone is the zone: no code
    writes to one. *)
From S2P Require Import Prelude.

Record zone := { zone_name : bytes; offset : Z; isDST : bool }.
#[global] Instance zone_eq_dec : EqDecision zone.
Proof. solve_decision. Defined.

Record zoneTrans := { when : Z; index : Z; isstd : bool; isutc : bool }.

Record Location := {
  name : bytes; zones : list zone; tx : list zoneTrans;
  cacheStart : Z; cacheEnd : Z; cacheZone : option zone }.

Definition alpha : Z := - 2 ^ 63.
Definition omega : Z := 2 ^ 63 - 1.

Definition utcLoc : Location :=
  {| name := str "UTC"; zones := []; tx := []; cacheStart := 0; cacheEnd := 0; cacheZone := None |}.

Definition FixedZone (name : bytes) (offset : Z) : Location :=
  let z := {| zone_name := name; offset := offset; isDST := false |} in
  {| name := name; zones := [z];
     tx := [{| when := alpha; index := 0; isstd := false; isutc := false |}];
     cacheStart := alpha; cacheEnd := omega; cacheZone := Some z |}.

(** Pointers to locations: [nil], [&utcLoc], [&localLoc] or another one. *)
Inductive locptr := loc_nil | loc_utc | loc_local | loc_at (l : Location).
#[global] Instance is_utc_dec (l : locptr) : Decision (l = loc_utc).
Proof. by destruct l; (left; reflexivity) || (right; discriminate). Defined.

(** [initLocal] reads the system's zone files: the location it leaves in
    [localLoc] is a parameter. *)
Definition get (localLoc : Location) (l : locptr) : Location :=
  match l with
  | loc_nil => utcLoc
  | loc_utc => utcLoc
  | loc_local => localLoc
  | loc_at l => l
  end.

Definition Location_String (localLoc : Location) (l : locptr) : bytes := name (get localLoc l).

Definition firstZoneUsed (l : Location) : bool := existsb (λ t, index t =? 0) (tx l).

(** [for zi := int(l.tx[0].index) - 1; zi >= 0; zi-- { if !l.zone[zi].isDST { return zi } }]. *)
Definition std_before (l : Location) (i : Z) : go (option Z) :=
  loop (S (Z.to_nat i)) (λ zi,
    if 0 <=? zi then z ← idx (zones l) zi; if negb (isDST z) then Ret (inr (Some zi)) else Ret (inl (zi - 1))
    else Ret (inr None)) (i - 1).
(** [for zi := range l.zone { if !l.zone[zi].isDST { return zi } }]. *)
Definition first_std (l : Location) : go (option Z) :=
  loop (S (length (zones l))) (λ zi,
    if zi <? zlen (zones l) then z ← idx (zones l) zi; if negb (isDST z) then Ret (inr (Some zi)) else Ret (inl (zi + 1))
    else Ret (inr None)) 0.

Definition lookupFirstZone (l : Location) : go Z :=
  if negb (firstZoneUsed l) then Ret 0 else
  before ← (if 0 <? zlen (tx l) then
      t ← idx (tx l) 0; z ← idx (zones l) (index t);
      if isDST z then std_before l (index t) else Ret None
    else Ret None);
  match before with Some zi => Ret zi | None =>
  first ← first_std l;
  match first with Some zi => Ret zi | None => Ret 0 end
  end.

(** The binary search over the transitions. *)
Definition search_tx (tx : list zoneTrans) (sec : Z) : go (Z * Z) :=
  '(end_, lo, _) ← while (S (length tx)) (λ '(_, lo, hi), Ret (1 <? hi - lo)) (λ '(end_, lo, hi),
    let m := lo + Z.quot (hi - lo) 2 in
    t ← idx tx m;
    if sec <? when t then Ret (when t, lo, m) else Ret (end_, m, hi)) (omega, 0, zlen tx);
  Ret (lo, end_).

(** Name, offset, [isDST], and the bounds of the time the zone is in effect. *)
Definition lookup (l : Location) (sec : Z) : go (bytes * Z * bool * Z * Z) :=
  if zlen (zones l) =? 0 then Ret (str "UTC", 0, false, alpha, omega) else
  let result z start end_ := (zone_name z, offset z, isDST z, start, end_) in
  let search :=
    early ← (if zlen (tx l) =? 0 then Ret true else t ← idx (tx l) 0; Ret (sec <? when t));
    if (early : bool) then
      zi ← lookupFirstZone l;
      z ← idx (zones l) zi;
      if 0 <? zlen (tx l) then t ← idx (tx l) 0; Ret (result z alpha (when t)) else Ret (result z alpha omega)
    else
      '(lo, end_) ← search_tx (tx l) sec;
      t ← idx (tx l) lo;
      z ← idx (zones l) (index t);
      Ret (result z (when t) end_) in
  match cacheZone l with
  | Some z => if (cacheStart l <=? sec) && (sec <? cacheEnd l) then Ret (result z (cacheStart l) (cacheEnd l)) else search
  | None => search
  end.

(** [lookup] on what remains of the name: the offset, [isDST] and whether the name was found. *)
Definition lookupName (l : Location) (name : bytes) (unix : Z) : go (Z * bool * bool) :=
  found ← loop (S (length (zones l))) (λ i,
    if i <? zlen (zones l) then
      z ← idx (zones l) i;
      if decide (zone_name z = name) then
        '(nam, offset, isDST, _, _) ← lookup l (i64 (unix - offset z));
        if decide (nam = zone_name z) then Ret (inr (Some (offset, isDST))) else Ret (inl (i + 1))
      else Ret (inl (i + 1))
    else Ret (inr None)) 0;
  match found with
  | Some (offset, isDST) => Ret (offset, isDST, true)
  | None =>
    loop (S (length (zones l))) (λ i,
      if i <? zlen (zones l) then
        z ← idx (zones l) i;
        if decide (zone_name z = name) then Ret (inr (offset z, isDST z, true)) else Ret (inl (i + 1))
      else Ret (inr (0, false, false))) 0
  end.

Definition example_loc : Location :=
  let z n o d := {| zone_name := n; offset := o; isDST := d |} in
  let t w i := {| when := w; index := i; isstd := false; isutc := false |} in
  {| name := str "x"; zones := [z (str "LMT") 1000 false; z (str "CET") 3600 false; z (str "CEST") 7200 true];
     tx := [t (-100) 1; t 0 2; t 100 1; t 200 2]; cacheStart := 0; cacheEnd := 0; cacheZone := None |}.
Example lookup_run :
  lookup example_loc 150 = Ret (str "CET", 3600, false, 100, 200) ∧
  lookup example_loc (-101) = Ret (str "LMT", 1000, false, alpha, -100) ∧
  lookup example_loc 1000 = Ret (str "CEST", 7200, true, 200, omega) ∧
  lookup (FixedZone (str "A") (-60)) 7 = Ret (str "A", -60, false, alpha, omega) ∧
  lookupName example_loc (str "CEST") 50 = Ret (7200, true, true).
Proof. by vm_compute. Qed.

(** * The zone in effect *)

Lemma nthZ_nil {A} i : (@nil A).[i] = None.
Proof. unfold nthZ. by case_decide. Qed.

(** Transitions in order, each to a zone there is. *)
Record well_formed (l : Location) : Prop := {
  wf_order : ∀ i j t u, i < j → (tx l).[i] = Some t → (tx l).[j] = Some u → when t < when u;
  wf_when : ∀ i t, (tx l).[i] = Some t → alpha <= when t <= omega;
  wf_index : ∀ i t, (tx l).[i] = Some t → 0 <= index t < zlen (zones l);
  wf_cache : ∀ z, cacheZone l = Some z → zones l ≠ [] ∧ ∃ i t, (tx l).[i] = Some t ∧ (zones l).[index t] = Some z ∧
    cacheStart l = when t ∧ cacheEnd l = match (tx l).[i + 1] with Some u => when u | None => omega end }.

(** The zone for times before the first transition, by the four cases that the
    comment on [lookupFirstZone] takes from localtime.c. *)
Definition std (l : Location) (i : Z) : Prop := ∃ z, (zones l).[i] = Some z ∧ isDST z = false.
Definition zone0_used (l : Location) : Prop := ∃ i t, (tx l).[i] = Some t ∧ index t = 0.
(** The first transition is to a zone in daylight time, the zone [k]. *)
Definition first_daylight (l : Location) (k : Z) : Prop :=
  ∃ t z, (tx l).[0] = Some t ∧ index t = k ∧ (zones l).[k] = Some z ∧ isDST z = true.
Inductive first_zone (l : Location) : Z → Prop :=
  | first_unused : ¬ zone0_used l → first_zone l 0
  | first_before k zi :
      zone0_used l → first_daylight l k → zi < k → std l zi → (∀ j, zi < j < k → ¬ std l j) → first_zone l zi
  | first_standard zi :
      zone0_used l → (∀ k j, first_daylight l k → j < k → ¬ std l j) → std l zi → (∀ j, j < zi → ¬ std l j) → first_zone l zi
  | first_none : zone0_used l → (∀ j, ¬ std l j) → first_zone l 0.

(** The zone in effect at [sec], and the bounds of its time: what the last
    transition at or before [sec] says, or the first zone before them all. *)
Inductive in_effect (l : Location) (sec : Z) : bytes * Z * bool * Z * Z → Prop :=
  | effect_utc : zones l = [] → in_effect l sec (str "UTC", 0, false, alpha, omega)
  | effect_first zi z :
      zones l ≠ [] → (∀ i t, (tx l).[i] = Some t → sec < when t) →
      first_zone l zi → (zones l).[zi] = Some z →
      in_effect l sec (zone_name z, offset z, isDST z, alpha, match (tx l).[0] with Some t => when t | None => omega end)
  | effect_tx i t z :
      (tx l).[i] = Some t → (zones l).[index t] = Some z → when t <= sec →
      (∀ u, (tx l).[i + 1] = Some u → sec < when u) →
      in_effect l sec (zone_name z, offset z, isDST z, when t, match (tx l).[i + 1] with Some u => when u | None => omega end).

Section lookup.
Context (l : Location) (Hwf : well_formed l).

Lemma std_before_spec i : i <= zlen (zones l) →
  std_before l i ⇓ λ r, match r with
    | Some zi => zi < i ∧ std l zi ∧ ∀ j, zi < j < i → ¬ std l j
    | None => ∀ j, j < i → ¬ std l j end.
Proof.
  intros Hi. unfold std_before.
  apply wp_loop with (I := λ zi, zi < i ∧ ∀ j, zi < j < i → ¬ std l j) (meas := λ zi, Z.max 0 (zi + 1)).
  - intros zi [Hzi Hno]. destruct (Z.leb_spec 0 zi).
    + apply wp_bind, wp_idx; [lia|]. intros z Hz. destruct (isDST z) eqn:Ed; simpl; [|split; [lia|split; [by exists z|done]]].
      split; [|lia]. split; [lia|]. intros j Hj (z' & Hz' & Ed'). destruct (decide (j = zi)) as [->|]; [congruence|].
      apply (Hno j); [lia|by exists z'].
    + intros j Hj Hs. destruct (decide (zi < j)); [by apply (Hno j)|]. destruct Hs as (z & Hz & _). apply nthZ_Some in Hz. lia.
  - split; [lia|]. intros j Hj. lia.
  - lia.
Qed.

Lemma first_std_spec : first_std l ⇓ λ r, match r with
  | Some zi => std l zi ∧ ∀ j, j < zi → ¬ std l j
  | None => ∀ j, ¬ std l j
  end.
Proof.
  unfold first_std.
  apply wp_loop with (I := λ zi, 0 <= zi <= zlen (zones l) ∧ ∀ j, j < zi → ¬ std l j)
    (meas := λ zi, zlen (zones l) - zi).
  - intros zi [Hzi Hd]. destruct (Z.ltb_spec zi (zlen (zones l))) as [Hlt|Hge].
    + apply wp_bind, wp_idx; [lia|]. intros z Hz. destruct (isDST z) eqn:Ed; simpl; [|split; [by exists z|done]].
      split; [|lia]. split; [lia|]. intros j Hj (z' & Hz' & Ed'). destruct (decide (j = zi)) as [->|]; [congruence|].
      apply (Hd j); [lia|by exists z'].
    + apply wp_ret. intros j (z & Hz & Ed). apply (Hd j); [|by exists z]. apply nthZ_Some in Hz. lia.
  - pose proof (zlen_nonneg (zones l)). split; [lia|]. intros j Hj (z & Hz & _). apply nthZ_Some in Hz. lia.
  - unfold zlen. lia.
Qed.

Lemma zone0_used_iff : firstZoneUsed l = true ↔ zone0_used l.
Proof.
  unfold firstZoneUsed. rewrite existsb_exists. split.
  - intros (t & [i Hi]%list_elem_of_In%list_elem_of_lookup & E%Z.eqb_eq). exists (Z.of_nat i), t. by rewrite nthZ_lookup.
  - intros (i & t & Ht & E). exists t. rewrite Z.eqb_eq. split; [|done]. unfold nthZ in Ht. case_decide; [|done].
    by eapply list_elem_of_In, list_elem_of_lookup_2.
Qed.

Lemma lookupFirstZone_spec : zones l ≠ [] →
  lookupFirstZone l ⇓ λ zi, first_zone l zi ∧ ∃ z, (zones l).[zi] = Some z.
Proof.
  intros Hne. assert (∃ z0, (zones l).[0] = Some z0) as Hz0 by (destruct (zones l) as [|z0 zs]; [done|by exists z0]).
  unfold lookupFirstZone. pose proof zone0_used_iff as Hu. destruct (firstZoneUsed l); simpl negb; cbv iota.
  2:{ split; [|exact Hz0]. apply first_unused. intros H%Hu. done. }
  assert (zone0_used l) as Hused by (by apply Hu).
  eapply wp_bind_mono with (Q := λ r, match r with
    | Some zi => first_zone l zi ∧ ∃ z, (zones l).[zi] = Some z
    | None => ∀ k j, first_daylight l k → j < k → ¬ std l j end).
  { destruct (Z.ltb_spec 0 (zlen (tx l))) as [Hlt|].
    2:{ apply wp_ret. intros k j (t & z & Ht & _). apply nthZ_Some in Ht. lia. }
    apply wp_bind, wp_idx; [lia|]. intros t Ht. pose proof (wf_index l Hwf _ _ Ht) as Hi.
    apply wp_bind, wp_idx; [done|]. intros z Hz. destruct (isDST z) eqn:Ed.
    2:{ apply wp_ret. intros k j (t' & z' & Ht' & <- & Hz' & Ed'). congruence. }
    eapply wp_mono; [apply std_before_spec; lia|]. intros [zi|].
    - intros (Hlti & Hs & Hno). split; [|destruct Hs as (z' & ? & _); by exists z'].
      apply (first_before l (index t)); [done| |done..]. by exists t, z.
    - intros Hno k j (t' & z' & Ht' & <- & _) Hj. assert (t' = t) as -> by congruence. by apply Hno. }
  intros [zi|]; [done|]. intros Hno. eapply wp_bind_mono; [apply first_std_spec|]. intros [zi|].
  - intros [Hs Hmin]. split; [by apply first_standard|]. destruct Hs as (z' & ? & _). by exists z'.
  - intros Hall. split; [by apply first_none|exact Hz0].
Qed.

Lemma first_daylight_det k k' : first_daylight l k → first_daylight l k' → k = k'.
Proof. intros (t & z & Ht & <- & _) (t' & z' & Ht' & <- & _). congruence. Qed.

Lemma first_zone_det zi zi' : first_zone l zi → first_zone l zi' → zi = zi'.
Proof.
  assert (∀ zi zi', first_zone l zi → first_zone l zi' → zi <= zi') as H.
  { intros ? ? [Hu|k i Hu Hk Hi Hs Hno|i Hu Hk Hs Hno|Hu Hno] [Hu'|k' i' Hu' Hk' Hi' Hs' Hno'|i' Hu' Hk' Hs' Hno'|Hu' Hno'];
      try done; try (exfalso; by eapply Hno + eapply Hno'); try lia.
    - pose proof (first_daylight_det _ _ Hk Hk') as ->. destruct (decide (i <= i')); [done|]. exfalso. apply (Hno' i); [lia|done].
    - exfalso. by eapply Hk'.
    - exfalso. by eapply Hk.
    - destruct (decide (i <= i')); [done|]. exfalso. apply (Hno i'); [lia|done]. }
  intros H1 H2. pose proof (H _ _ H1 H2). pose proof (H _ _ H2 H1). lia.
Qed.

Lemma search_tx_spec sec t0 : (tx l).[0] = Some t0 → when t0 <= sec →
  search_tx (tx l) sec ⇓ λ '(lo, end_), ∃ t, (tx l).[lo] = Some t ∧ when t <= sec ∧
    end_ = match (tx l).[lo + 1] with Some u => when u | None => omega end ∧ ∀ u, (tx l).[lo + 1] = Some u → sec < when u.
Proof.
  intros H0 Hle. unfold search_tx. pose proof (nthZ_Some _ _ _ H0) as Hn.
  eapply wp_bind_mono with (Q := λ '(end_, lo, hi), hi <= lo + 1 ∧ (∃ t, (tx l).[lo] = Some t ∧ when t <= sec ∧ lo < hi) ∧
    end_ = match (tx l).[hi] with Some u => when u | None => omega end ∧ ∀ u, (tx l).[hi] = Some u → sec < when u).
  - apply wp_while with (I := λ '(end_, lo, hi), (∃ t, (tx l).[lo] = Some t ∧ when t <= sec ∧ lo < hi) ∧ 0 <= lo ∧ hi <= zlen (tx l) ∧
      end_ = match (tx l).[hi] with Some u => when u | None => omega end ∧ ∀ u, (tx l).[hi] = Some u → sec < when u)
      (meas := λ '(_, lo, hi), hi - lo).
    + intros [[e lo] hi] ((t & Ht & Hts & Hlt) & Hlo & Hhi & He & Hu). apply wp_ret. destruct (Z.ltb_spec 1 (hi - lo)) as [Hgt|Hgt].
      * assert (lo < lo + Z.quot (hi - lo) 2 < hi) as Hm by lia_div. set (m := lo + Z.quot (hi - lo) 2) in *. cbv zeta.
        apply wp_bind, wp_idx; [lia|]. intros u Hum. destruct (Z.ltb_spec sec (when u)) as [Hsec|Hsec]; apply wp_ret.
        -- split; [|lia]. split; [exists t; split; [done|split; [done|lia]]|]. split; [lia|]. split; [lia|]. rewrite Hum. split; [done|]. by intros u' [= <-].
        -- split; [|lia]. split; [exists u; split; [done|split; [done|lia]]|]. split; [lia|]. split; [lia|]. by split.
      * split; [lia|]. split; [exists t; by split|]. by split.
    + split; [exists t0; split; [done|split; [done|lia]]|]. split; [lia|]. split; [lia|].
      assert ((tx l).[zlen (tx l)] = None) as -> by (apply nthZ_None; lia). by split.
    + unfold zlen in *. lia.
  - intros [[e lo] hi] (Hhi & (t & Ht & Hts & Hlt) & He & Hu). apply wp_ret. replace (lo + 1) with hi by lia. by exists t.
Qed.

Lemma lookup_spec sec : lookup l sec ⇓ in_effect l sec.
Proof.
  unfold lookup. destruct (Z.eqb_spec (zlen (zones l)) 0) as [Hz|Hz].
  { apply zlen_nil_inv in Hz. by apply effect_utc. }
  assert (zones l ≠ []) as Hne by (intros E; by rewrite E in Hz). cbv zeta.
  assert ((early ← (if zlen (tx l) =? 0 then Ret true else t ← idx (tx l) 0; Ret (sec <? when t));
    if (early : bool) then
      zi ← lookupFirstZone l;
      z ← idx (zones l) zi;
      if 0 <? zlen (tx l) then t ← idx (tx l) 0; Ret (zone_name z, offset z, isDST z, alpha, when t)
      else Ret (zone_name z, offset z, isDST z, alpha, omega)
    else
      '(lo, end_) ← search_tx (tx l) sec;
      t ← idx (tx l) lo;
      z ← idx (zones l) (index t);
      Ret (zone_name z, offset z, isDST z, when t, end_)) ⇓ in_effect l sec) as Hsearch.
  { eapply wp_bind_mono with (Q := λ early, match early return Prop with
      | true => ∀ i t, (tx l).[i] = Some t → sec < when t
      | false => ∃ t0, (tx l).[0] = Some t0 ∧ when t0 <= sec end).
    { destruct (Z.eqb_spec (zlen (tx l)) 0) as [Ht|Ht].
      - apply wp_ret. intros i t Hi. apply nthZ_Some in Hi. lia.
      - pose proof (zlen_nonneg (tx l)). apply wp_bind, wp_idx; [lia|]. intros t0 Ht0. apply wp_ret.
        destruct (Z.ltb_spec sec (when t0)) as [Hlt|]; [|by exists t0]. intros i t Hi. pose proof (nthZ_Some _ _ _ Hi).
        destruct (decide (i = 0)) as [->|]; [congruence|]. pose proof (wf_order l Hwf 0 i _ _ ltac:(lia) Ht0 Hi). lia. }
    intros [] Hearly.
    - eapply wp_bind_mono; [by apply lookupFirstZone_spec|]. intros zi [Ezi (z & Hzi)].
      rewrite (idx_Some _ _ _ Hzi), go_bind_ret. pose proof (effect_first l sec zi z Hne Hearly Ezi Hzi) as He.
      destruct (Z.ltb_spec 0 (zlen (tx l))) as [Hlt|Hge].
      + apply wp_bind, wp_idx; [lia|]. intros t Ht. apply wp_ret. by rewrite Ht in He.
      + apply wp_ret. assert ((tx l).[0] = None) as Ht by (apply nthZ_None; lia). by rewrite Ht in He.
    - destruct Hearly as (t0 & Ht0 & Hle). eapply wp_bind_mono; [by eapply search_tx_spec|].
      intros [lo e] (t & Ht & Hts & -> & Hu). rewrite (idx_Some _ _ _ Ht), go_bind_ret.
      apply wp_bind, wp_idx; [by apply (wf_index l Hwf lo)|]. intros z Hzt. apply wp_ret. by apply effect_tx. }
  destruct (cacheZone l) as [z|] eqn:Ec; [|exact Hsearch].
  destruct ((cacheStart l <=? sec) && (sec <? cacheEnd l)) eqn:Eb; [|exact Hsearch].
  destruct (wf_cache l Hwf z Ec) as (_ & i & t & Ht & Hzt & Es & Ee).
  apply wp_ret. rewrite Es, Ee. apply effect_tx; [done|done|lia|]. intros u Hu. rewrite Hu in Ee. lia.
Qed.

(** The zone in effect is one, and it is the same throughout its time. *)
Lemma in_effect_det sec r sec' r' :
  in_effect l sec r → in_effect l sec' r' → alpha <= sec' →
  r.1.2 <= sec' → (sec' < r.2 ∨ sec' = sec) → r' = r.
Proof.
  intros Hr Hr' Ha. destruct Hr as [Hz|zi z Hne Hall Ezi Hz|i t z Ht Hz Hts Hnext]; cbn [fst snd]; intros Hlo Hhi.
  - destruct Hr' as [|? ? Hne|? ? ? ? Hz']; [done|done|]. by rewrite Hz, nthZ_nil in Hz'.
  - destruct Hr' as [|zi' z' _ _ Ezi' Hz'|i t z' Ht Hz' Hts _]; [done| |].
    + pose proof (first_zone_det _ _ Ezi Ezi') as <-. by simplify_eq.
    + exfalso. pose proof (Hall i t Ht). destruct (tx l).[0] as [t0|] eqn:E0.
      * pose proof (nthZ_Some _ _ _ Ht). destruct (decide (i = 0)) as [->|]; [simplify_eq; lia|].
        pose proof (wf_order l Hwf 0 i _ _ ltac:(lia) E0 Ht). lia.
      * apply nthZ_None in E0. apply nthZ_Some in Ht. lia.
  - destruct Hr' as [Hz'|zi' z' _ Hall _ _|i' t' z' Ht' Hz' Hts' Hnext'].
    + by rewrite Hz', nthZ_nil in Hz.
    + pose proof (Hall i t Ht). lia.
    + assert (i' = i) as ->; [|by simplify_eq].
      pose proof (nthZ_Some _ _ _ Ht). pose proof (nthZ_Some _ _ _ Ht').
      destruct (Z.lt_trichotomy i i') as [Hlt|[->|Hlt]]; [|done|]; exfalso.
      * destruct (nthZ_is_Some (tx l) (i + 1)) as [u Hu]; [lia|]. rewrite Hu in Hhi. specialize (Hnext u Hu).
        assert (when u <= when t'); [|lia]. destruct (decide (i' = i + 1)) as [->|]; [simplify_eq; lia|].
        pose proof (wf_order l Hwf (i + 1) i' _ _ ltac:(lia) Hu Ht'). lia.
      * destruct (nthZ_is_Some (tx l) (i' + 1)) as [u Hu]; [lia|]. specialize (Hnext' u Hu).
        assert (when u <= when t); [|lia]. destruct (decide (i = i' + 1)) as [->|]; [simplify_eq; lia|].
        pose proof (wf_order l Hwf (i' + 1) i _ _ ltac:(lia) Hu Ht). lia.
Qed.
End lookup.

Lemma FixedZone_wf n o : well_formed (FixedZone n o).
Proof.
  split; unfold FixedZone; cbn [tx zones cacheZone cacheStart cacheEnd]; unfold nthZ.
  - intros i j t u Hij Hi Hj. repeat case_decide; try done. apply lookup_lt_Some in Hi, Hj. simpl in *. lia.
  - intros i t Hi. case_decide; [|done]. destruct (Z.to_nat i); by simplify_eq/=.
  - intros i t Hi. case_decide; [|done]. destruct (Z.to_nat i); by simplify_eq/=.
  - intros z [= <-]. split; [done|]. by eexists 0, _.
Qed.
Lemma utcLoc_wf : well_formed utcLoc.
Proof.
  split; unfold utcLoc; cbn [tx zones cacheZone].
  - intros i j t u _ H. by rewrite nthZ_nil in H.
  - intros i t H. by rewrite nthZ_nil in H.
  - intros i t H. by rewrite nthZ_nil in H.
  - done.
Qed.

(** The zone in effect is so from its start up to its end. *)
Lemma lookup_interval l s n o d st en : well_formed l → alpha <= s < omega → lookup l s = Ret (n, o, d, st, en) →
  alpha <= st <= s ∧ s < en ∧ ∀ s', alpha <= s' → st <= s' < en → lookup l s' = Ret (n, o, d, st, en).
Proof.
  intros Hwf Hs E. pose proof (lookup_spec l Hwf s) as Hr. rewrite E in Hr. change (in_effect l s (n, o, d, st, en)) in Hr.
  assert (alpha <= st <= s ∧ s < en) as [H1 H2].
  { remember (n, o, d, st, en) as r eqn:Er. destruct Hr as [|zi z _ Hall _ _|i t z Ht _ Hle Hnext]; injection Er as <- <- <- <- <-.
    - lia.
    - destruct (tx l).[0] as [t0|] eqn:E0; [pose proof (Hall 0 t0 E0)|]; lia.
    - pose proof (wf_when l Hwf i t Ht). destruct (tx l).[i + 1] as [u|]; [pose proof (Hnext u eq_refl)|]; lia. }
  split; [exact H1|]. split; [exact H2|]. intros s' Ha Hs'.
  destruct (proj1 (wp_ex _ _) (lookup_spec l Hwf s')) as (r' & Er' & Hr'). rewrite Er'. f_equal.
  apply (in_effect_det l Hwf s (n, o, d, st, en) s' r'); [exact Hr|exact Hr'|exact Ha|apply Hs'|left; apply Hs'].
Qed.

(** Offsets are at most [Y] in size, and zones last for more than [2 * Y]. *)
Record steady (l : Location) (Y : Z) : Prop := {
  steady_nonneg : 0 <= Y;
  steady_offset : ∀ z, z ∈ zones l → - Y <= offset z <= Y;
  steady_length : ∀ i t u, (tx l).[i] = Some t → (tx l).[i + 1] = Some u → 2 * Y < when u - when t }.

Lemma lookup_steady l Y s n o d st en : well_formed l → steady l Y → lookup l s = Ret (n, o, d, st, en) →
  - Y <= o <= Y ∧ (alpha < st → en < omega → 2 * Y < en - st).
Proof.
  intros Hwf [Hy Ho Hlen] E. pose proof (lookup_spec l Hwf s) as Hr. rewrite E in Hr. change (in_effect l s (n, o, d, st, en)) in Hr.
  assert (∀ i z, (zones l).[i] = Some z → - Y <= offset z <= Y) as Hz.
  { intros i z Hi. apply Ho. unfold nthZ in Hi. case_decide; [|done]. by eapply list_elem_of_lookup_2. }
  remember (n, o, d, st, en) as r eqn:Er. destruct Hr as [|zi z _ _ _ Hzi|i t z Ht Hzi _ _]; injection Er as <- <- <- <- <-.
  - lia.
  - split; [by eapply Hz|lia].
  - split; [by eapply Hz|]. intros _. destruct (tx l).[i + 1] as [u|] eqn:Eu; [|lia]. intros _. by apply (Hlen i).
Qed.

(** The answer of [lookupName]: first a zone of the name whose time of day is in
    effect under the name, then the first zone of the name, else nothing. *)
Definition named (l : Location) (nm : bytes) (i : Z) (z : zone) : Prop := (zones l).[i] = Some z ∧ zone_name z = nm.
Definition named_then (l : Location) (nm : bytes) (unix : Z) (z : zone) (off : Z) (dst : bool) : Prop :=
  ∃ start end_, in_effect l (i64 (unix - offset z)) (nm, off, dst, start, end_).
Inductive name_answer (l : Location) (nm : bytes) (unix : Z) : Z * bool * bool → Prop :=
  | answer_then i z off dst :
      named l nm i z → named_then l nm unix z off dst →
      (∀ j z' off' dst', j < i → named l nm j z' → ¬ named_then l nm unix z' off' dst') →
      name_answer l nm unix (off, dst, true)
  | answer_name i z :
      (∀ j z' off' dst', named l nm j z' → ¬ named_then l nm unix z' off' dst') →
      named l nm i z → (∀ j z', j < i → ¬ named l nm j z') →
      name_answer l nm unix (offset z, isDST z, true)
  | answer_none : (∀ j z, ¬ named l nm j z) → name_answer l nm unix (0, false, false).

Lemma in_effect_fun l sec r r' : well_formed l → alpha <= sec → in_effect l sec r → in_effect l sec r' → r' = r.
Proof.
  intros Hwf Ha Hr Hr'. apply (in_effect_det l Hwf sec r sec r'); [done|done|done| |by right].
  destruct Hr; cbn [fst snd]; [done|done|done].
Qed.

Lemma lookupName_spec l nm unix : well_formed l → lookupName l nm unix ⇓ name_answer l nm unix.
Proof.
  intros Hwf. unfold lookupName.
  eapply wp_bind_mono with (Q := λ found, match found with
    | Some (off, dst) => ∃ i z, named l nm i z ∧ named_then l nm unix z off dst ∧
        ∀ j z' off' dst', j < i → named l nm j z' → ¬ named_then l nm unix z' off' dst'
    | None => ∀ j z' off' dst', named l nm j z' → ¬ named_then l nm unix z' off' dst' end).
  - apply wp_loop with (I := λ i, 0 <= i ∧ ∀ j z' off' dst', j < i → named l nm j z' → ¬ named_then l nm unix z' off' dst')
      (meas := λ i, Z.max 0 (zlen (zones l) - i)).
    + intros i [Hi Hno]. destruct (Z.ltb_spec i (zlen (zones l))) as [Hlt|Hge].
      2:{ apply wp_ret. intros j z' off' dst' [Hz' En']. apply (Hno j z'); [|by split]. apply nthZ_Some in Hz'. lia. }
      apply wp_bind, wp_idx; [lia|]. intros z Hz.
      assert ((∀ off' dst', zone_name z = nm → ¬ named_then l nm unix z off' dst') →
        ∀ j z' off' dst', j < i + 1 → named l nm j z' → ¬ named_then l nm unix z' off' dst') as Hnext.
      { intros Hthis j z' off' dst' Hj [Hz' En']. destruct (decide (j = i)) as [->|]; [simplify_eq; by apply Hthis|].
        apply (Hno j z'); [lia|by split]. }
      case_decide as En; [|apply wp_ret; split; [split; [lia|by apply Hnext]|lia]].
      eapply wp_bind_mono; [by apply lookup_spec|]. intros [[[[nam off] dst] start] end_] He.
      case_decide as En'; apply wp_ret.
      * exists i, z. split; [by split|]. split; [|done]. exists start, end_. by rewrite <- En, <- En'.
      * split; [split; [lia|]|lia]. apply Hnext. intros off' dst' _ (s & e & He').
        assert (alpha <= i64 (unix - offset z)) as Ha by (unfold alpha; pose proof (swrap_bound 64 (unix - offset z)); lia).
        pose proof (in_effect_fun l _ _ _ Hwf Ha He He') as Er. congruence.
    + split; [lia|]. intros j z' ?? Hj [Hz' _]. apply nthZ_Some in Hz'. lia.
    + unfold zlen. lia.
  - intros [[off dst]|]; [intros (i & z & Hz & Ht & Hno); apply wp_ret; by eapply answer_then|]. intros Hno.
    apply wp_loop with (I := λ i, 0 <= i ∧ ∀ j z, j < i → ¬ named l nm j z) (meas := λ i, Z.max 0 (zlen (zones l) - i)).
    + intros i [Hi Hlow]. destruct (Z.ltb_spec i (zlen (zones l))) as [Hlt|Hge].
      * apply wp_bind, wp_idx; [lia|]. intros z Hz. case_decide as En; apply wp_ret; [by apply (answer_name l nm unix i)|].
        split; [|lia]. split; [lia|]. intros j z' Hj [Hz' En']. destruct (decide (j = i)) as [->|]; [congruence|].
        apply (Hlow j z'); [lia|by split].
      * apply wp_ret, answer_none. intros j z' [Hz' En']. apply (Hlow j z'); [|by split]. apply nthZ_Some in Hz'. lia.
    + split; [lia|]. intros j z Hj [Hz _]. apply nthZ_Some in Hz. lia.
    + unfold zlen. lia.
Qed.

(** C23: in a location whose transitions are in order, [lookup] returns the zone in
    effect at an instant: the one of the last transition not after it, before all
    transitions the zone of [first_zone], UTC without zones; the search
    by halving and the cached zone agree. The answer is the same from [start] up
    to [end]. [lookupFirstZone] decides by the four cases of its comment: the first zone
    if no transition uses it; else, where the first transition is to daylight time, the
    nearest standard-time zone before its zone; else the first standard-time zone; else the
    first zone. [lookupName] answers with the offset and daylight time in effect for the first zone of
    the name under which the time of day is in effect, else with those of the first zone of the
    name, and without success exactly if no zone has the name. *)
Theorem lookup_zone l sec nm :
  well_formed l → alpha <= sec <= omega →
  (∃ r, lookup l sec = Ret r ∧ in_effect l sec r ∧ ∀ s, alpha <= s → r.1.2 <= s < r.2 → lookup l s = Ret r) ∧
  (zones l ≠ [] → ∃ zi z, lookupFirstZone l = Ret zi ∧ (zones l).[zi] = Some z ∧ first_zone l zi) ∧
  (∃ r, lookupName l nm sec = Ret r ∧ name_answer l nm sec r).
Proof.
  intros Hwf Hsec. split; [|split].
  - destruct (proj1 (wp_ex _ _) (lookup_spec l Hwf sec)) as (r & Er & Hr). exists r. split; [done|]. split; [done|].
    intros s Ha Hs. destruct (proj1 (wp_ex _ _) (lookup_spec l Hwf s)) as (r' & Er' & Hr'). rewrite Er'. f_equal.
    apply (in_effect_det l Hwf sec r s r'); [done|done|lia|lia|lia].
  - intros Hne. destruct (proj1 (wp_ex _ _) (lookupFirstZone_spec l Hwf Hne)) as (zi & E & Hf & z & Hz). by exists zi, z.
  - by apply wp_ex, lookupName_spec.
Qed.

Example lookup_zone_witness :
  well_formed (FixedZone (str "A") 60) ∧
  (∃ r, lookup (FixedZone (str "A") 60) 7 = Ret r ∧ in_effect (FixedZone (str "A") 60) 7 r ∧
     ∀ s, alpha <= s → r.1.2 <= s < r.2 → lookup (FixedZone (str "A") 60) s = Ret r) ∧
  lookupFirstZone (FixedZone (str "A") 60) = Ret 0 ∧ first_zone (FixedZone (str "A") 60) 0 ∧
  name_answer (FixedZone (str "A") 60) (str "A") 7 (60, false, true).
Proof.
  split; [apply FixedZone_wf|].
  destruct (lookup_zone (FixedZone (str "A") 60) 7 (str "A") (FixedZone_wf _ _)) as (H1 & H2 & (r & Er & Hr)); [by vm_compute|].
  split; [exact H1|]. destruct H2 as (zi & z & E & Hz & Hf); [done|].
  vm_compute in E. injection E as <-. vm_compute in Er. injection Er as <-. by split.
Defined.
