(* ===== verification/Calendar.v ===== *)
(** The calendar of package [time], [src/src/time/time.go]: seconds since the
    absolute epoch and dates.  [host] is the width of [int]. *)
From S2P Require Import Prelude.

Definition absoluteZeroYear : Z := -292277022399.
Definition internalYear : Z := 1.
Definition secondsPerMinute : Z := 60.
Definition secondsPerHour : Z := 60 * 60.
Definition secondsPerDay : Z := 24 * secondsPerHour.
Definition secondsPerWeek : Z := 7 * secondsPerDay.
Definition daysPer400Years : Z := 365 * 400 + 97.
Definition daysPer100Years : Z := 365 * 100 + 24.
Definition daysPer4Years : Z := 365 * 4 + 1.

(** [(absoluteZeroYear - internalYear) * 365.2425 * secondsPerDay], an exact constant. *)
Definition absoluteToInternal : Z := (absoluteZeroYear - internalYear) * 3652425 / 10000 * secondsPerDay.
Definition internalToAbsolute : Z := - absoluteToInternal.
Definition unixToInternal : Z := (1969 * 365 + 1969 / 4 - 1969 / 100 + 1969 / 400) * secondsPerDay.
Definition internalToUnix : Z := - unixToInternal.

Definition January : Z := 1.
Definition February : Z := 2.
Definition March : Z := 3.
Definition December : Z := 12.
Definition Monday : Z := 1.

Definition daysBefore : list Z :=
  [0; 31; 31 + 28; 31 + 28 + 31; 31 + 28 + 31 + 30; 31 + 28 + 31 + 30 + 31; 31 + 28 + 31 + 30 + 31 + 30;
   31 + 28 + 31 + 30 + 31 + 30 + 31; 31 + 28 + 31 + 30 + 31 + 30 + 31 + 31;
   31 + 28 + 31 + 30 + 31 + 30 + 31 + 31 + 30; 31 + 28 + 31 + 30 + 31 + 30 + 31 + 31 + 30 + 31;
   31 + 28 + 31 + 30 + 31 + 30 + 31 + 31 + 30 + 31 + 30; 31 + 28 + 31 + 30 + 31 + 30 + 31 + 31 + 30 + 31 + 30 + 31].

Definition months : list bytes :=
  map str ["January"; "February"; "March"; "April"; "May"; "June"; "July"; "August"; "September"; "October"; "November"; "December"]%string.
Definition days : list bytes :=
  map str ["Sunday"; "Monday"; "Tuesday"; "Wednesday"; "Thursday"; "Friday"; "Saturday"]%string.
Definition Month_String (m : Z) : go bytes := idx months (m - 1).
Definition Weekday_String (d : Z) : go bytes := idx days d.

Definition isLeap (year : Z) : bool :=
  (Z.rem year 4 =? 0) && (negb (Z.rem year 100 =? 0) || (Z.rem year 400 =? 0)).

Definition daysIn (m year : Z) : go Z :=
  if (m =? February) && isLeap year then Ret 29 else
  b ← idx daysBefore m; a ← idx daysBefore (m - 1); Ret (b - a).

(** The year and the day of the year of day [d] since the absolute epoch. *)
Definition year_day (d : Z) : Z * Z :=
  let n := d / daysPer400Years in
  let y := u64 (400 * n) in
  let d := u64 (d - u64 (daysPer400Years * n)) in
  let n := d / daysPer100Years in
  let n := u64 (n - Z.shiftr n 2) in
  let y := u64 (y + u64 (100 * n)) in
  let d := u64 (d - u64 (daysPer100Years * n)) in
  let n := d / daysPer4Years in
  let y := u64 (y + u64 (4 * n)) in
  let d := u64 (d - u64 (daysPer4Years * n)) in
  let n := d / 365 in
  let n := u64 (n - Z.shiftr n 2) in
  let y := u64 (y + n) in
  let d := u64 (d - u64 (365 * n)) in
  (y, d).

(** The month and the day of the month of a day of the year. *)
Definition month_day (leap : bool) (yday : Z) : go (Z * Z) :=
  let day := yday in
  if leap && (day =? 31 + 29 - 1) then Ret (February, 29) else
  let day := if leap && (31 + 29 - 1 <? day) then day - 1 else day in
  let month := Z.quot day 31 in
  end_ ← idx daysBefore (month + 1);
  '(month, begin) ← (if end_ <=? day then Ret (month + 1, end_) else b ← idx daysBefore month; Ret (month, b));
  let month := month + 1 in
  Ret (month, day - begin + 1).

Section calendar.
Context (host : Z).
Abbreviation int := (swrap host) (only parsing).

(** Year, month, day and day of the year; month and day are zero unless [full]. *)
Definition absDate (abs : Z) (full : bool) : go (Z * Z * Z * Z) :=
  let '(y, d) := year_day (abs / secondsPerDay) in
  let year := int (i64 (i64 y + absoluteZeroYear)) in
  let yday := int d in
  if negb full then Ret (year, 0, 0, yday) else
  '(month, day) ← month_day (isLeap year) yday;
  Ret (year, month, day, yday).

Definition absWeekday (abs : Z) : Z :=
  let sec := u64 (abs + u64 (Monday * secondsPerDay)) mod secondsPerWeek in
  Z.quot (int sec) secondsPerDay.

Definition absClock (abs : Z) : Z * Z * Z :=
  let sec := int (abs mod secondsPerDay) in
  let hour := Z.quot sec secondsPerHour in
  let sec := int (sec - int (hour * secondsPerHour)) in
  let min := Z.quot sec secondsPerMinute in
  let sec := int (sec - int (min * secondsPerMinute)) in
  (hour, min, sec).

Definition norm (hi lo base : Z) : Z * Z :=
  let '(hi, lo) := if lo <? 0 then
      let n := int (Z.quot (int (int (- lo) - 1)) base + 1) in
      (int (hi - n), int (lo + int (n * base)))
    else (hi, lo) in
  if base <=? lo then
    let n := Z.quot lo base in
    (int (hi + n), int (lo - int (n * base)))
  else (hi, lo).

(** The days from the absolute epoch to the first of a month, as [Date] counts them. *)
Definition days_to_year (y : Z) : Z :=
  let n := y / 400 in
  let y := u64 (y - u64 (400 * n)) in
  let d := u64 (daysPer400Years * n) in
  let n := y / 100 in
  let y := u64 (y - u64 (100 * n)) in
  let d := u64 (d + u64 (daysPer100Years * n)) in
  let n := y / 4 in
  let y := u64 (y - u64 (4 * n)) in
  let d := u64 (d + u64 (daysPer4Years * n)) in
  let n := y in
  u64 (d + u64 (365 * n)).

(** [Date] up to the zone: seconds since 1970 of the date and clock as if in UTC,
    and the nanoseconds. *)
Definition date_unix (year month day hour min sec nsec : Z) : go (Z * Z) :=
  let m := int (month - 1) in
  let '(year, m) := norm year m 12 in
  let month := int (m + 1) in
  let '(sec, nsec) := norm sec nsec 1000000000 in
  let '(min, sec) := norm min sec 60 in
  let '(hour, min) := norm hour min 60 in
  let '(day, hour) := norm day hour 24 in
  let y := u64 (i64 (year - absoluteZeroYear)) in
  let d := days_to_year y in
  before ← idx daysBefore (month - 1);
  let d := u64 (d + before) in
  let d := if isLeap year && (March <=? month) then u64 (d + 1) else d in
  let d := u64 (d + u64 (int (day - 1))) in
  let abs := u64 (d * secondsPerDay) in
  let abs := u64 (abs + u64 (int (int (int (hour * secondsPerHour) + int (min * secondsPerMinute)) + sec))) in
  Ret (i64 (i64 abs + (absoluteToInternal + internalToUnix)), nsec).
End calendar.

Example calendar_run :
  absDate 64 (62135596800 + internalToAbsolute + 951782400) true = Ret (2000, 2, 29, 59) ∧
  absDate 32 (62135596800 + internalToAbsolute + 1435708799) true = Ret (2015, 6, 30, 180) ∧
  absWeekday 32 (62135596800 + internalToAbsolute) = 4 ∧ absClock 64 86399 = (23, 59, 59) ∧
  date_unix 64 2015 6 30 23 59 60 0 = Ret (1435708800, 0) ∧ date_unix 32 2015 14 (-1) 25 (-3) 7 (-1) = Ret (1454201826, 999999999) ∧
  daysIn 2 2000 = Ret 29 ∧ absoluteToInternal = -9223371966579724800.
Proof. by vm_compute. Qed.

(** * The calendar *)

Definition leap (y : Z) : bool := (y mod 4 =? 0) && (negb (y mod 100 =? 0) || (y mod 400 =? 0)).
Definition month_days (leap : bool) (m : Z) : Z :=
  if m =? 2 then if leap then 29 else 28
  else if (m =? 4) || (m =? 6) || (m =? 9) || (m =? 11) then 30 else 31.
Definition year_days (leap : bool) : Z := if leap then 366 else 365.

(** Days of the year before a month. *)
Definition before (leap : bool) (m : Z) : Z := foldr Z.add 0 (map (month_days leap) (seqZ 1 (m - 1))).
(** Days from the first day of [absoluteZeroYear]. *)
Definition year_start (n : Z) : Z := 365 * n + n / 4 - n / 100 + n / 400.
Definition day_number (y m d : Z) : Z := year_start (y - absoluteZeroYear) + before (leap y) m + d - 1.

Definition valid_date (y m d : Z) : Prop :=
  absoluteZeroYear <= y ∧ 1 <= m <= 12 ∧ 1 <= d <= month_days (leap y) m.
Definition next_day (y m d : Z) : Z * Z * Z :=
  if d <? month_days (leap y) m then (y, m, d + 1) else if m <? 12 then (y, m + 1, 1) else (y + 1, 1, 1).

Lemma isLeap_eq y : isLeap y = leap y.
Proof.
  assert (∀ k, 0 < k → (Z.rem y k =? 0) = (y mod k =? 0)) as H.
  { intros k Hk. apply Bool.eq_iff_eq_true. rewrite !Z.eqb_eq. rewrite Z.rem_divide, Z.mod_divide by lia. done. }
  unfold isLeap, leap. by rewrite !H by lia.
Qed.

(** Checks a property of the days of a year, or of the months, one by one. *)
Lemma range_forall (P : Z → bool) a n : forallb P (seqZ a n) = true → ∀ x, a <= x < a + n → P x = true.
Proof. intros H x Hx. rewrite forallb_forall in H. apply H, list_elem_of_In, elem_of_seqZ. lia. Qed.

Definition month_day_ok (lp : bool) (yday : Z) : bool :=
  match month_day lp yday with
  | Ret (m, d) => (1 <=? m) && (m <=? 12) && (1 <=? d) && (d <=? month_days lp m) && (yday =? before lp m + d - 1)
  | _ => false
  end.
Lemma month_day_spec lp yday : 0 <= yday < year_days lp →
  ∃ m d, month_day lp yday = Ret (m, d) ∧ 1 <= m <= 12 ∧ 1 <= d <= month_days lp m ∧ yday = before lp m + d - 1.
Proof.
  intros H. assert (month_day_ok lp yday = true) as Hok.
  { revert yday H. destruct lp; [apply (range_forall _ 0 366)|apply (range_forall _ 0 365)]; by vm_compute. }
  unfold month_day_ok in Hok. destruct (month_day lp yday) as [[m d]| |]; [|done|done]. exists m, d. split; [done|]. lia.
Qed.

Lemma before_step lp m : 1 <= m <= 12 → before lp (m + 1) = before lp m + month_days lp m.
Proof.
  intros Hm. assert ((before lp (m + 1) =? before lp m + month_days lp m) = true) as H; [|by apply Z.eqb_eq in H].
  assert (∀ x, 1 <= x < 13 → (before lp (x + 1) =? before lp x + month_days lp x) = true) as H; [|apply H; lia].
  apply (range_forall _ 1 12). by destruct lp; vm_compute.
Qed.
Lemma before_year lp : before lp 1 = 0 ∧ before lp 13 = year_days lp.
Proof. by destruct lp. Qed.
Lemma before_mono lp m m' : 1 <= m → m <= m' <= 13 → before lp m <= before lp m'.
Proof.
  intros Hm Hm'. replace m' with (m + Z.of_nat (Z.to_nat (m' - m))) by lia.
  assert (m + Z.of_nat (Z.to_nat (m' - m)) <= 13) as Hle by lia. revert Hle. generalize (Z.to_nat (m' - m)).
  induction n as [|n IH]; intros Hle; [by rewrite Z.add_0_r|].
  replace (m + Z.of_nat (S n)) with (m + Z.of_nat n + 1) by lia. rewrite before_step by lia.
  assert (0 <= month_days lp (m + Z.of_nat n)) by (unfold month_days; repeat case_match; lia). specialize (IH ltac:(lia)). lia.
Qed.
Lemma before_bound lp m d : 1 <= m <= 12 → 1 <= d <= month_days lp m → 0 <= before lp m + d - 1 < year_days lp.
Proof.
  intros Hm Hd. pose proof (before_mono lp 1 m ltac:(lia) ltac:(lia)). pose proof (before_mono lp (m + 1) 13 ltac:(lia) ltac:(lia)).
  rewrite before_step in * by lia. pose proof (before_year lp). lia.
Qed.

(** A day of the year has one month and day. *)
Lemma before_inj lp m d m' d' :
  1 <= m <= 12 → 1 <= d <= month_days lp m → 1 <= m' <= 12 → 1 <= d' <= month_days lp m' →
  before lp m + d = before lp m' + d' → m = m' ∧ d = d'.
Proof.
  intros Hm Hd Hm' Hd' E. assert (m = m') as ->; [|lia].
  destruct (Z.lt_trichotomy m m') as [Hlt|[->|Hlt]]; [|done|]; exfalso.
  - pose proof (before_mono lp (m + 1) m' ltac:(lia) ltac:(lia)). rewrite before_step in * by lia. lia.
  - pose proof (before_mono lp (m' + 1) m ltac:(lia) ltac:(lia)). rewrite before_step in * by lia. lia.
Qed.

(** * Years *)

(** Year [n] after the absolute one is a leap year. *)
Lemma leap_zero_year n : leap (n + absoluteZeroYear) = ((n + 1) mod 4 =? 0) && (negb ((n + 1) mod 100 =? 0) || ((n + 1) mod 400 =? 0)).
Proof.
  unfold leap, absoluteZeroYear.
  assert (∀ k, (k = 4 ∨ k = 100 ∨ k = 400) → (n + -292277022399) mod k = (n + 1) mod k) as H.
  { intros k [-> | [-> | ->]].
    - replace (n + -292277022399) with (n + 1 + -73069255600 * 4) by lia. apply Z.mod_add. lia.
    - replace (n + -292277022399) with (n + 1 + -2922770224 * 100) by lia. apply Z.mod_add. lia.
    - replace (n + -292277022399) with (n + 1 + -730692556 * 400) by lia. apply Z.mod_add. lia. }
  by rewrite !H by auto.
Qed.

(** The cycles of a year number. *)
Lemma year_cycles n : 0 <= n → ∃ a b c e, n = 400 * a + 100 * b + 4 * c + e ∧
  0 <= a ∧ 0 <= b <= 3 ∧ 0 <= c <= 24 ∧ 0 <= e <= 3 ∧ year_start n = 146097 * a + 36524 * b + 1461 * c + 365 * e ∧
  leap (n + absoluteZeroYear) = (e =? 3) && (negb (c =? 24) || (b =? 3)).
Proof.
  intros Hn. exists (n / 400), (n mod 400 / 100), (n mod 100 / 4), (n mod 4). rewrite leap_zero_year. unfold year_start.
  repeat split; try lia_div.
Qed.

Lemma year_start_step n : 0 <= n → year_start (n + 1) = year_start n + year_days (leap (n + absoluteZeroYear)).
Proof. intros Hn. rewrite leap_zero_year. unfold year_start, year_days. bool_cases; lia_div. Qed.

Lemma year_start_mono n n' : 0 <= n <= n' → year_start n <= year_start n'.
Proof.
  intros H. replace n' with (n + Z.of_nat (Z.to_nat (n' - n))) by lia. generalize (Z.to_nat (n' - n)).
  induction n0 as [|k IH]; [by rewrite Z.add_0_r|]. replace (n + Z.of_nat (S k)) with (n + Z.of_nat k + 1) by lia.
  rewrite year_start_step by lia. unfold year_days. case_match; lia.
Qed.

(** A day number has one year and day of the year. *)
Lemma year_start_inj n r n' r' :
  0 <= n → 0 <= n' → 0 <= r < year_days (leap (n + absoluteZeroYear)) → 0 <= r' < year_days (leap (n' + absoluteZeroYear)) →
  year_start n + r = year_start n' + r' → n = n' ∧ r = r'.
Proof.
  intros Hn Hn' Hr Hr' E. assert (n = n') as ->; [|lia].
  destruct (Z.lt_trichotomy n n') as [Hlt|[->|Hlt]]; [|done|]; exfalso.
  - pose proof (year_start_mono (n + 1) n' ltac:(lia)). rewrite year_start_step in * by lia. lia.
  - pose proof (year_start_mono (n' + 1) n ltac:(lia)). rewrite year_start_step in * by lia. lia.
Qed.

Lemma u64_small x : 0 <= x < 2 ^ 64 → u64 x = x.
Proof. apply wrap_small. Qed.

Ltac small64 := repeat match goal with |- context [wrap 64 ?x] => rewrite (u64_small x) by lia end.

Lemma year_day_spec d : 0 <= d < 2 ^ 48 → ∃ y r, year_day d = (y, r) ∧ 0 <= y < 2 ^ 48 ∧ d = year_start y + r ∧
  0 <= r < year_days (leap (y + absoluteZeroYear)).
Proof.
  intros Hd. unfold year_day. change daysPer400Years with 146097. change daysPer100Years with 36524. change daysPer4Years with 1461. cbv zeta.
  set (a := d / 146097). assert (0 <= a ∧ 0 <= d - 146097 * a < 146097) as [Ha Hd1] by (subst a; lia_div).
  small64. set (d1 := d - 146097 * a) in *.
  set (b := d1 / 36524 - Z.shiftr (d1 / 36524) 2).
  assert (0 <= b <= 3 ∧ 0 <= d1 - 36524 * b ∧ (b < 3 → d1 - 36524 * b < 36524) ∧ d1 - 36524 * b < 36525) as (Hb & Hd2 & Hd2' & Hd2'').
  { subst b. rewrite Z.shiftr_div_pow2 by lia. change (2 ^ 2) with 4. lia_div. }
  small64. set (d2 := d1 - 36524 * b) in *.
  set (c := d2 / 1461). assert (0 <= c <= 24 ∧ 0 <= d2 - 1461 * c < 1461) as [Hc Hd3] by (subst c; lia_div).
  small64. set (d3 := d2 - 1461 * c) in *.
  set (e := d3 / 365 - Z.shiftr (d3 / 365) 2).
  assert (0 <= e <= 3 ∧ 0 <= d3 - 365 * e ∧ (e < 3 → d3 - 365 * e < 365) ∧ d3 - 365 * e < 366) as (He & Hd4 & Hd4' & Hd4'').
  { subst e. rewrite Z.shiftr_div_pow2 by lia. change (2 ^ 2) with 4. lia_div. }
  small64. set (d4 := d3 - 365 * e) in *.
  exists (400 * a + 100 * b + 4 * c + e), d4. split; [done|]. split; [lia|].
  destruct (year_cycles (400 * a + 100 * b + 4 * c + e) ltac:(lia)) as (a' & b' & c' & e' & E & Ha' & Hb' & Hc' & He' & -> & ->).
  assert (e' = e) as -> by lia. assert (c' = c ∧ b' = b ∧ a' = a) as (-> & -> & ->) by lia.
  split; [lia|]. unfold year_days. bool_cases; simpl; lia.
Qed.

Lemma days_to_year_spec y : 0 <= y < 2 ^ 48 → days_to_year y = year_start y.
Proof.
  intros Hy. destruct (year_cycles y ltac:(lia)) as (a & b & c & e & E & Ha & Hb & Hc & He & Hs & _).
  unfold days_to_year. change daysPer400Years with 146097. change daysPer100Years with 36524. change daysPer4Years with 1461. cbv zeta.
  replace (y / 400) with a by lia_div. small64. replace (y - 400 * a) with (100 * b + 4 * c + e) by lia.
  replace ((100 * b + 4 * c + e) / 100) with b by lia_div. small64. replace (100 * b + 4 * c + e - 100 * b) with (4 * c + e) by lia.
  replace ((4 * c + e) / 4) with c by lia_div. small64. lia.
Qed.

(** * Dates and instants *)

Definition in_range (host c : Z) : Prop := - 2 ^ (host - 1) <= c < 2 ^ (host - 1).

Lemma day_number_bound y m d : valid_date y m d →
  0 <= before (leap y) m + d - 1 < year_days (leap y) ∧ 0 <= y - absoluteZeroYear.
Proof. intros (Hy & Hm & Hd). split; [by apply before_bound|lia]. Qed.

Lemma day_number_next y m d : valid_date y m d →
  let '(y', m', d') := next_day y m d in valid_date y' m' d' ∧ day_number y' m' d' = day_number y m d + 1.
Proof.
  intros (Hy & Hm & Hd). unfold next_day, day_number. destruct (Z.ltb_spec d (month_days (leap y) m)).
  { split; [|lia]. split; [done|]. split; [done|lia]. }
  assert (∀ lp k, 1 <= month_days lp k) as Hmd by (intros lp k; unfold month_days; repeat case_match; lia).
  destruct (Z.ltb_spec m 12).
  - split; [split; [done|]; split; [lia|]; split; [lia|apply Hmd]|]. rewrite before_step by lia. lia.
  - assert (m = 12) as -> by lia. split; [split; [lia|]; split; [lia|]; split; [lia|apply Hmd]|].
    pose proof (before_year (leap y)) as [_ H13]. pose proof (before_year (leap (y + 1))) as [H1 _].
    rewrite (before_step (leap y) 12 ltac:(lia) : before (leap y) 13 = _) in H13.
    replace (y + 1 - absoluteZeroYear) with (y - absoluteZeroYear + 1) by lia.
    rewrite year_start_step by lia. replace (y - absoluteZeroYear + absoluteZeroYear) with y by lia. lia.
Qed.

(** Every day is the day of one date. *)
Lemma day_number_surj n : 0 <= n < 2 ^ 48 → ∃ y m d, valid_date y m d ∧ day_number y m d = n.
Proof.
  intros Hn. destruct (year_day_spec n Hn) as (y & r & _ & Hy & -> & Hr).
  destruct (month_day_spec _ _ Hr) as (m & d & _ & Hm & Hd & ->). exists (y + absoluteZeroYear), m, d.
  split; [split; [lia|by split]|]. unfold day_number. rewrite Z.add_simpl_r. lia.
Qed.

Section instants.
Context (host : Z) (Hhost : 32 <= host).

Lemma int_id x : in_range host x → swrap host x = x.
Proof. intros. apply swrap_small; [done|lia]. Qed.
Lemma host_range x : - 2 ^ 31 <= x < 2 ^ 31 → in_range host x.
Proof. intros. unfold in_range. pose proof (Z.pow_le_mono_r 2 31 (host - 1)). lia. Qed.

Lemma absDate_spec y m d s full :
  valid_date y m d → in_range host y → 0 <= s < 86400 → day_number y m d * 86400 + s < 2 ^ 64 →
  absDate host (day_number y m d * 86400 + s) full =
    Ret (y, if full then m else 0, if full then d else 0, before (leap y) m + d - 1).
Proof.
  intros Hv Hyr Hs Hlt. destruct (day_number_bound _ _ _ Hv) as [Hb Hy]. destruct Hv as (_ & Hm & Hd).
  unfold absDate. change secondsPerDay with 86400.
  replace ((day_number y m d * 86400 + s) / 86400) with (day_number y m d) by lia_div.
  assert (0 <= day_number y m d < 2 ^ 48) as Hn.
  { split; [|lia]. unfold day_number. pose proof (year_start_mono 0 (y - absoluteZeroYear) ltac:(lia)). change (year_start 0) with 0 in *. lia. }
  destruct (year_day_spec _ Hn) as (n & r & -> & Hny & E & Hr).
  assert (n = y - absoluteZeroYear ∧ r = before (leap y) m + d - 1) as [-> ->].
  { destruct (year_start_inj n r (y - absoluteZeroYear) (before (leap y) m + d - 1)) as [-> ->]; try done; [lia| |].
    - by rewrite Z.sub_simpl_r.
    - unfold day_number in E. lia. }
  rewrite (swrap_small 64 (y - absoluteZeroYear)) by (unfold absoluteZeroYear in *; lia). rewrite Z.sub_simpl_r.
  rewrite (swrap_small 64) by (unfold absoluteZeroYear in *; lia). rewrite !int_id; [|apply host_range; destruct (leap y); simpl in *; lia|done].
  destruct full; cbn [negb]; [|done]. rewrite isLeap_eq.
  destruct (month_day_spec (leap y) _ Hb) as (m' & d' & -> & Hm' & Hd' & E'). rewrite go_bind_ret.
  destruct (before_inj (leap y) m d m' d') as [-> ->]; [done..|lia|done].
Qed.

Lemma absWeekday_spec n s : 0 <= s < 86400 → 0 <= n → (n + 1) * 86400 + s < 2 ^ 64 →
  absWeekday host (n * 86400 + s) = (n + 1) mod 7.
Proof.
  intros Hs Hn Hlt. unfold absWeekday. change secondsPerDay with 86400. change secondsPerWeek with 604800. unfold Monday.
  small64. rewrite int_id by (apply host_range; lia_div). lia_div.
Qed.

Lemma absClock_spec n s : 0 <= s < 86400 → 0 <= n →
  absClock host (n * 86400 + s) = (s / 3600, s / 60 mod 60, s mod 60).
Proof.
  intros Hs Hn. unfold absClock. change secondsPerDay with 86400. change secondsPerHour with 3600. change secondsPerMinute with 60.
  replace ((n * 86400 + s) mod 86400) with s by lia_div. cbv zeta.
  assert (∀ x, 0 <= x < 86401 → swrap host x = x) as Hint by (intros; apply int_id, host_range; lia).
  rewrite (Hint s) by lia. rewrite (Z.quot_div_nonneg s 3600) by lia. rewrite (Hint (s / 3600 * 3600)) by lia_div.
  rewrite (Hint (s - s / 3600 * 3600)) by lia_div.
  set (q := s - s / 3600 * 3600). assert (q = s mod 3600 ∧ 0 <= q < 3600) as [Eq Hq] by (unfold q; lia_div).
  rewrite (Z.quot_div_nonneg q 60) by lia. rewrite (Hint (q / 60 * 60)) by lia_div. rewrite (Hint (q - q / 60 * 60)) by lia_div.
  f_equal; [f_equal|]; lia_div.
Qed.

(** [norm] divides, rounding down, whatever the sign. *)
Lemma norm_spec hi lo base : 1 < base < 2 ^ 31 → in_range host lo →
  norm host hi lo base = (swrap host (hi + lo / base), lo mod base) ∨ lo / base = 0 ∧ norm host hi lo base = (hi, lo mod base).
Proof.
  intros Hb Hlo. unfold norm. pose proof (Z.mod_pos_bound lo base ltac:(lia)) as Hm. pose proof (Z.div_mod lo base ltac:(lia)) as E.
  destruct (Z.ltb_spec lo 0) as [Hneg|Hpos].
  - assert (swrap host (swrap host (- lo) - 1) = - lo - 1) as ->.
    { rewrite <- !Z.add_opp_r, swrap_add_l. apply int_id. unfold in_range in *. lia. }
    assert (Z.quot (- lo - 1) base + 1 = - (lo / base)) as ->.
    { rewrite Z.quot_div_nonneg by lia.
      rewrite <- (Z.div_unique (- lo - 1) base (- (lo / base) - 1) (base - 1 - lo mod base)) by lia. lia. }
    assert (lo / base < 0) as Hq by (apply Z.div_lt_upper_bound; lia).
    assert (swrap host (- (lo / base)) = - (lo / base)) as ->.
    { apply int_id. unfold in_range in *. pose proof (Z.pow_le_mono_r 2 31 (host - 1)).
      assert (base * (lo / base) <= 2 * (lo / base)) by nia. lia. }
    rewrite swrap_add_r. replace (lo + - (lo / base) * base) with (lo mod base) by lia.
    rewrite (int_id (lo mod base)) by (apply host_range; lia). left.
    destruct (Z.leb_spec base (lo mod base)); [lia|]. f_equal. f_equal. lia.
  - destruct (Z.leb_spec base lo) as [Hge|Hlt].
    + left. rewrite Z.quot_div_nonneg by lia. rewrite <- (Z.add_opp_r lo).
      assert (swrap host (lo / base * base) = lo / base * base) as -> by (apply int_id; unfold in_range in *; lia).
      f_equal. rewrite int_id by (apply host_range; lia). lia.
    + right. split; [by apply Z.div_small|]. by rewrite Z.mod_small.
Qed.

Lemma norm_eq hi lo base : 1 < base < 2 ^ 31 → in_range host lo → in_range host (hi + lo / base) →
  norm host hi lo base = (hi + lo / base, lo mod base).
Proof.
  intros Hb Hlo Hhi. destruct (norm_spec hi lo base Hb Hlo) as [->|[-> ->]]; [by rewrite int_id|by rewrite Z.add_0_r].
Qed.
End instants.

(** Seconds since 1970 of a date given by any month, day, hour, minute and second. *)
Definition unix_of (year month day hour min sec nsec : Z) : Z :=
  let m := (month - 1) mod 12 + 1 in
  (day_number (year + (month - 1) / 12) m 1 + day - 1) * 86400 + hour * 3600 + min * 60 + sec + nsec / 1000000000
  + (absoluteToInternal + internalToUnix).

Definition moderate (c : Z) : Prop := - 2 ^ 30 < c < 2 ^ 30.

Lemma idx_before lp m : 1 <= m <= 12 → idx daysBefore (m - 1) = Ret (if lp && (3 <=? m) then before lp m - 1 else before lp m).
Proof.
  intros Hm. assert (bool_decide (daysBefore.[m - 1] = Some (if lp && (3 <=? m) then before lp m - 1 else before lp m)) = true) as H.
  { revert m Hm. assert (∀ x, 1 <= x < 13 → bool_decide (daysBefore.[x - 1] = Some (if lp && (3 <=? x) then before lp x - 1 else before lp x)) = true) as H.
    { apply (range_forall _ 1 12). by destruct lp; vm_compute. }
    intros m Hm. apply H. lia. }
  apply bool_decide_eq_true in H. by apply idx_Some.
Qed.

Lemma u64_add x y : u64 (u64 x + y) = u64 (x + y).
Proof. apply wrap_add_l. Qed.

Section dates.
Context (host : Z) (Hhost : 32 <= host).

Lemma norm_moderate hi lo base : 1 < base < 2 ^ 31 → in_range host lo → in_range host (hi + lo / base) →
  norm host hi lo base = (hi + lo / base, lo mod base).
Proof. by apply norm_eq. Qed.

Lemma date_unix_spec year month day hour min sec nsec :
  moderate year → moderate month → moderate day → moderate hour → moderate min → moderate sec → moderate nsec →
  date_unix host year month day hour min sec nsec =
    Ret (unix_of year month day hour min sec nsec, nsec mod 1000000000).
Proof.
  unfold moderate. intros Hy Hmo Hd Hh Hmi Hs Hn. unfold date_unix, unix_of.
  assert (∀ x, - 2 ^ 31 <= x < 2 ^ 31 → swrap host x = x) as Hint by (intros x Hx; apply (int_id host Hhost), (host_range host Hhost), Hx).
  rewrite (Hint (month - 1)) by lia.
  rewrite (norm_moderate year (month - 1) 12) by (try (apply host_range); lia_div).
  rewrite (norm_moderate sec nsec 1000000000) by (try (apply host_range); lia_div).
  pose proof (Z.div_mod nsec 1000000000 ltac:(lia)) as E1. pose proof (Z.mod_pos_bound nsec 1000000000 ltac:(lia)) as B1.
  set (S := sec + nsec / 1000000000) in *. assert (- 2 ^ 30 - 2 <= S <= 2 ^ 30 + 2) as HS by lia.
  rewrite (norm_moderate min S 60) by (try (apply host_range); lia_div).
  pose proof (Z.div_mod S 60 ltac:(lia)) as E2. pose proof (Z.mod_pos_bound S 60 ltac:(lia)) as B2.
  set (M := min + S / 60) in *. assert (- 2 ^ 30 - 2 ^ 26 <= M <= 2 ^ 30 + 2 ^ 26) as HM by lia.
  rewrite (norm_moderate hour M 60) by (try (apply host_range); lia_div).
  pose proof (Z.div_mod M 60 ltac:(lia)) as E3. pose proof (Z.mod_pos_bound M 60 ltac:(lia)) as B3.
  set (H := hour + M / 60) in *. assert (- 2 ^ 30 - 2 ^ 26 <= H <= 2 ^ 30 + 2 ^ 26) as HH by lia.
  rewrite (norm_moderate day H 24) by (try (apply host_range); lia_div).
  pose proof (Z.div_mod H 24 ltac:(lia)) as E4. pose proof (Z.mod_pos_bound H 24 ltac:(lia)) as B4.
  set (D := day + H / 24) in *. assert (- 2 ^ 30 - 2 ^ 27 <= D <= 2 ^ 30 + 2 ^ 27) as HD by lia.
  set (y := year + (month - 1) / 12). set (m := (month - 1) mod 12 + 1).
  assert (- 2 ^ 30 - 2 ^ 28 <= y <= 2 ^ 30 + 2 ^ 28) as Hyy by (unfold y; lia_div).
  assert (1 <= m <= 12) as Hm by (unfold m; lia_div).
  rewrite (Hint m) by lia. rewrite (swrap_small 64) by (unfold absoluteZeroYear; lia).
  set (n := y - absoluteZeroYear). assert (0 <= n < 2 ^ 48) as Hn0 by (unfold n, absoluteZeroYear; lia).
  rewrite (u64_small n) by lia. rewrite (days_to_year_spec n Hn0), (idx_before (leap y) m Hm), go_bind_ret, isLeap_eq.
  change secondsPerHour with 3600. change secondsPerMinute with 60. change secondsPerDay with 86400. change March with 3.
  rewrite (Hint (H mod 24 * 3600)), (Hint (M mod 60 * 60)) by lia.
  rewrite (Hint (H mod 24 * 3600 + M mod 60 * 60)), (Hint (H mod 24 * 3600 + M mod 60 * 60 + S mod 60)) by lia.
  rewrite (Hint (D - 1)) by lia.
  assert ((if leap y && (3 <=? m) then u64 (u64 (year_start n + (if leap y && (3 <=? m) then before (leap y) m - 1 else before (leap y) m)) + 1)
    else u64 (year_start n + (if leap y && (3 <=? m) then before (leap y) m - 1 else before (leap y) m))) = u64 (year_start n + before (leap y) m)) as ->.
  { destruct (leap y && (3 <=? m)); [|done]. rewrite u64_add. f_equal. lia. }
  set (c := H mod 24 * 3600 + M mod 60 * 60 + S mod 60).
  assert (∀ a b, u64 (u64 (u64 (u64 a + u64 b) * 86400) + u64 c) = u64 ((a + b) * 86400 + c)) as ->.
  { intros a b. by rewrite (wrap_add_r 64 (u64 a) b), (wrap_add_l 64 a b), (wrap_mul_l 64 (a + b) 86400), wrap_add_r, wrap_add_l. }
  rewrite swrap_add_l. f_equal. f_equal.
  fold y m. unfold day_number. fold n.
  transitivity ((year_start n + before (leap y) m + (D - 1)) * 86400 + c + (absoluteToInternal + internalToUnix));
    [|unfold c; lia].
  rewrite <- (swrap_wrap 64), wrap_add_l, swrap_wrap. apply swrap_small; [|lia].
  assert (0 <= c < 86400) as Hc by (unfold c; lia).
  assert (0 <= before (leap y) m <= 366) as Hb.
  { assert (1 <= month_days (leap y) m) by (unfold month_days; repeat case_match; lia).
    pose proof (before_bound (leap y) m 1 Hm ltac:(lia)) as Hb. unfold year_days in Hb. destruct (leap y); lia. }
  change (absoluteToInternal + internalToUnix) with (-9223372028715321600).
  unfold year_start, n, absoluteZeroYear. lia_div.
Qed.
End dates.

Lemma idx_daysBefore k : 0 <= k <= 12 → idx daysBefore k = Ret (before false (k + 1)).
Proof.
  intros Hk. apply idx_Some. apply (bool_decide_eq_true (daysBefore.[k] = Some (before false (k + 1)))).
  revert k Hk. assert (∀ x, 0 <= x < 13 → bool_decide (daysBefore.[x] = Some (before false (x + 1))) = true) as H.
  { apply (range_forall _ 0 13). by vm_compute. }
  intros k Hk. apply H. lia.
Qed.

Lemma daysIn_spec m year : 1 <= m <= 12 → daysIn m year = Ret (month_days (leap year) m).
Proof.
  intros Hm. unfold daysIn. rewrite isLeap_eq. unfold February, month_days.
  destruct (Z.eqb_spec m 2) as [->|Hne]; [by destruct (leap year)|]. cbn [andb].
  rewrite !idx_daysBefore, !go_bind_ret by lia. replace (m - 1 + 1) with m by lia. rewrite before_step by lia.
  unfold month_days. rewrite (proj2 (Z.eqb_neq m 2)) by done. f_equal. lia.
Qed.

(** C24: from January 1 of the absolute year on, [absDate] turns an instant into
    the date whose number is the count of days before it, where the date after a
    date, by the lengths of the months and of leap years, has the next number and
    every count is the number of a date; [absWeekday] and [absClock] give the day
    of the week and the time of day, and [daysIn] the length of a month. *)
Theorem absDate_calendar host :
  32 <= host →
  day_number absoluteZeroYear 1 1 = 0 ∧
  (∀ y m d, valid_date y m d →
     let '(y', m', d') := next_day y m d in valid_date y' m' d' ∧ day_number y' m' d' = day_number y m d + 1) ∧
  (∀ n, 0 <= n < 2 ^ 48 → ∃ y m d, valid_date y m d ∧ day_number y m d = n) ∧
  (∀ y m d s, valid_date y m d → in_range host y → 0 <= s < 86400 →
     let abs := day_number y m d * 86400 + s in
     abs + 86400 < 2 ^ 64 →
     absDate host abs true = Ret (y, m, d, before (leap y) m + d - 1) ∧
     absWeekday host abs = (day_number y m d + 1) mod 7 ∧
     absClock host abs = (s / 3600, s / 60 mod 60, s mod 60) ∧
     daysIn m y = Ret (month_days (leap y) m)).
Proof.
  intros Hh. split; [done|]. split; [apply day_number_next|]. split; [apply day_number_surj|].
  intros y m d s Hv Hy Hs abs Hlt. unfold abs in *.
  assert (0 <= day_number y m d) as H0.
  { destruct (day_number_bound y m d Hv) as [Hb Hn]. unfold day_number.
    pose proof (year_start_mono 0 (y - absoluteZeroYear) ltac:(lia)). change (year_start 0) with 0 in *. lia. }
  rewrite (absDate_spec host Hh y m d s true), (absWeekday_spec host Hh), (absClock_spec host Hh) by (done || lia).
  split; [done|]. split; [done|]. split; [done|]. apply daysIn_spec, Hv.
Qed.

Example absDate_calendar_witness :
  valid_date 2000 2 29 ∧ absDate 32 (day_number 2000 2 29 * 86400 + 7) true = Ret (2000, 2, 29, 59).
Proof.
  assert (valid_date 2000 2 29) as Hv by (vm_compute; intuition discriminate). split; [exact Hv|].
  destruct (absDate_calendar 32 ltac:(lia)) as (_ & _ & _ & H).
  apply (H 2000 2 29 7 Hv); vm_compute; intuition (reflexivity || discriminate).
Defined.
