(* ===== verification/Instant.v ===== *)
(** Instants of package [time], [src/src/time/time.go]: comparison, addition and
    subtraction of durations, and rounding with the 128-bit division of [div]. *)
From S2P Require Import Prelude.
From S2P Require Import Zone.
From S2P Require Import Calendar.

Record Time := { sec : Z; nsec : Z; loc : locptr }.

Definition minDuration : Z := - 2 ^ 63.
Definition maxDuration : Z := 2 ^ 63 - 1.
Definition Nanosecond : Z := 1.
Definition Microsecond : Z := 1000 * Nanosecond.
Definition Millisecond : Z := 1000 * Microsecond.
Definition Second : Z := 1000 * Millisecond.
Definition Minute : Z := 60 * Second.
Definition Hour : Z := 60 * Minute.

Definition After (t u : Time) : bool := (sec u <? sec t) || (sec t =? sec u) && (nsec u <? nsec t).
Definition Before (t u : Time) : bool := (sec t <? sec u) || (sec t =? sec u) && (nsec t <? nsec u).
Definition Equal (t u : Time) : bool := (sec t =? sec u) && (nsec t =? nsec u).
Definition IsZero (t : Time) : bool := (sec t =? 0) && (nsec t =? 0).

Definition Add (t : Time) (d : Z) : Time :=
  let sec' := i64 (sec t + Z.quot d 1000000000) in
  let nsec' := i32 (nsec t + i32 (Z.rem d 1000000000)) in
  if 1000000000 <=? nsec' then {| sec := i64 (sec' + 1); nsec := i32 (nsec' - 1000000000); loc := loc t |}
  else if nsec' <? 0 then {| sec := i64 (sec' - 1); nsec := i32 (nsec' + 1000000000); loc := loc t |}
  else {| sec := sec'; nsec := nsec'; loc := loc t |}.

Definition Sub (t u : Time) : Z :=
  let d := i64 (i64 (i64 (sec t - sec u) * Second) + i32 (nsec t - nsec u)) in
  if Equal (Add u d) t then d
  else if Before t u then minDuration
  else maxDuration.

(** [now()] of the runtime is a parameter: seconds and nanoseconds since 1970. *)
Definition Now (now : Z * Z) : Time := {| sec := i64 (now.1 + unixToInternal); nsec := now.2; loc := loc_local |}.
Definition Since (now : Z * Z) (t : Time) : Z := Sub (Now now) t.

Definition UTC (t : Time) : Time := {| sec := sec t; nsec := nsec t; loc := loc_utc |}.
Definition Local (t : Time) : Time := {| sec := sec t; nsec := nsec t; loc := loc_local |}.
Definition In (t : Time) (l : locptr) : go Time :=
  match l with
  | loc_nil => Panic "time: missing Location in call to Time.In"
  | _ => Ret {| sec := sec t; nsec := nsec t; loc := l |}
  end.
Definition Location_ (t : Time) : locptr := match loc t with loc_nil => loc_utc | l => l end.

Definition Time_Unix (t : Time) : Z := i64 (sec t + internalToUnix).
Definition UnixNano (t : Time) : Z := i64 (i64 (i64 (sec t + internalToUnix) * 1000000000) + nsec t).
Definition Unix (sec nsec : Z) : Time :=
  let '(sec, nsec) :=
    if (nsec <? 0) || (1000000000 <=? nsec) then
      let n := Z.quot nsec 1000000000 in
      let sec := i64 (sec + n) in
      let nsec := i64 (nsec - i64 (n * 1000000000)) in
      if nsec <? 0 then (i64 (sec - 1), i64 (nsec + 1000000000)) else (sec, nsec)
    else (sec, nsec) in
  {| sec := i64 (sec + unixToInternal); nsec := i32 nsec; loc := loc_local |}.

(** * Division *)

(** [u1:u0 = sec * 1e9 + nsec] as a number of 128 bits. *)
Definition nanoseconds (sec nsec : Z) : Z * Z :=
  let tmp := u64 (Z.shiftr sec 32 * 1000000000) in
  let u1 := Z.shiftr tmp 32 in
  let u0 := u64 (Z.shiftl tmp 32) in
  let tmp := u64 (Z.land sec 4294967295 * 1000000000) in
  let '(u0x, u0) := (u0, u64 (u0 + tmp)) in
  let u1 := if u0 <? u0x then u64 (u1 + 1) else u1 in
  let '(u0x, u0) := (u0, u64 (u0 + u64 nsec)) in
  let u1 := if u0 <? u0x then u64 (u1 + 1) else u1 in
  (u1, u0).

(** [for d1>>63 != 1 { d1 <<= 1 }]. *)
Definition normalize (d : Z) : go Z :=
  while 65 (λ d1, Ret (negb (Z.shiftr d1 63 =? 1))) (λ d1, Ret (u64 (Z.shiftl d1 1))) d.

(** One turn of the long division: parity, [u1:u0] and [d1:d0]. *)
Definition div_step (d : Z) : Z * Z * Z * Z → go (Z * Z * Z * Z + Z * Z) := λ '(u1, u0, d1, d0),
  let '(qmod2, u1, u0) :=
    if (d1 <? u1) || (u1 =? d1) && (d0 <=? u0) then
      let '(u0x, u0) := (u0, u64 (u0 - d0)) in
      let u1 := if u0x <? u0 then u64 (u1 - 1) else u1 in
      (1, u64 (u1 - d1), u0)
    else (0, u1, u0) in
  if (d1 =? 0) && (d0 =? d) then Ret (inr (qmod2, u0)) else
  let d0 := Z.shiftr d0 1 in
  let d0 := Z.lor d0 (u64 (Z.shiftl (Z.land d1 1) 63)) in
  let d1 := Z.shiftr d1 1 in
  Ret (inl (u1, u0, d1, d0)).

(** The quotient's parity and the remainder. *)
Definition div (t : Time) (d : Z) : go (Z * Z) :=
  let '(neg, tsec, nsec) :=
    if sec t <? 0 then
      let tsec := i64 (- sec t) in
      let nsec := i32 (- nsec t) in
      if nsec <? 0 then (true, i64 (tsec - 1), i32 (nsec + 1000000000)) else (true, tsec, nsec)
    else (false, sec t, nsec t) in
  '(qmod2, r) ← (
    if (d <? Second) && (Z.rem Second (i64 (d + d)) =? 0) then
      Ret (Z.land (Z.quot nsec (i32 d)) 1, Z.rem nsec (i32 d))
    else if Z.rem d Second =? 0 then
      let d1 := Z.quot d Second in
      Ret (Z.land (Z.quot tsec d1) 1, i64 (i64 (Z.rem tsec d1 * Second) + nsec))
    else
      let '(u1, u0) := nanoseconds (u64 tsec) nsec in
      d1 ← normalize (u64 d);
      '(qmod2, u0) ← loop 130 (div_step (u64 d)) (u1, u0, d1, 0);
      Ret (qmod2, i64 u0));
  if (neg : bool) && negb (r =? 0) then Ret (Z.lxor qmod2 1, i64 (d - r)) else Ret (qmod2, r).

Definition Truncate (t : Time) (d : Z) : go Time :=
  if d <=? 0 then Ret t else
  '(_, r) ← div t d;
  Ret (Add t (i64 (- r))).

Definition Round (t : Time) (d : Z) : go Time :=
  if d <=? 0 then Ret t else
  '(_, r) ← div t d;
  if i64 (r + r) <? d then Ret (Add t (i64 (- r))) else Ret (Add t (i64 (d - r))).

Definition at_utc (s n : Z) : Time := {| sec := s; nsec := n; loc := loc_utc |}.
Example instant_run :
  Add (at_utc 5 999999999) 2 = at_utc 6 1 ∧ Add (at_utc 5 1) (-2) = at_utc 4 999999999 ∧
  Sub (at_utc 7 1) (at_utc 6 2) = 999999999 ∧ Sub (at_utc (2 ^ 62) 0) (at_utc 0 0) = maxDuration ∧
  div (at_utc 12345 678901234) 1234567891 = Ret (1, 1234559125) ∧
  div (at_utc (-12345) 678901234) 1234567891 = Ret (1, 123243343) ∧ Unix (-1) (-1) = Local (at_utc 62135596798 999999999).
Proof. by vm_compute. Qed.

(** The difference of seconds wraps around: an instant before another by more
    than 2^64 - 2 seconds is said to be a second after it. *)
Example Sub_wraps : Sub (at_utc (- 2 ^ 63) 0) (at_utc (2 ^ 63 - 1) 0) = Second.
Proof. by vm_compute. Qed.
(** [r+r] overflows: five milliards of seconds are more than half of this duration. *)
Example Round_overflow : Round (at_utc 5000000000 0) maxDuration = Ret (at_utc 0 0).
Proof. by vm_compute. Qed.

(** * Instants as integers *)

(** Nanoseconds since year 1. *)
Definition instant (t : Time) : Z := sec t * 1000000000 + nsec t.
Record valid (t : Time) : Prop := {
  valid_nsec : 0 <= nsec t < 1000000000;
  valid_sec : - 2 ^ 62 <= sec t < 2 ^ 62 }.

Definition is_duration (d : Z) : Prop := - 2 ^ 63 <= d < 2 ^ 63.
Definition clamp (d : Z) : Z := Z.max minDuration (Z.min maxDuration d).

Lemma i64_id x : is_duration x → i64 x = x.
Proof. intros. by apply swrap_small. Qed.
Ltac small_ints := unfold is_duration in *; repeat first
  [ rewrite i64_id by (unfold is_duration; lia_div) | rewrite i32_id by lia_div ].

Lemma Add_spec t d : valid t → is_duration d →
  instant (Add t d) = instant t + d ∧ loc (Add t d) = loc t ∧ 0 <= nsec (Add t d) < 1000000000 ∧
  - 2 ^ 62 - 2 ^ 34 <= sec (Add t d) <= 2 ^ 62 + 2 ^ 34.
Proof.
  intros [Hn Hs] Hd. unfold is_duration in Hd. unfold Add, instant.
  rewrite (i32_id (Z.rem d 1000000000)) by lia_div. rewrite (i64_id (sec t + _)) by (unfold is_duration; lia_div).
  rewrite (i32_id (nsec t + _)) by lia_div.
  set (q := Z.quot d 1000000000) in *. set (r := Z.rem d 1000000000) in *.
  assert (d = 1000000000 * q + r ∧ -1000000000 < r < 1000000000) as [Ed Hr] by (subst q r; lia_div). clearbody q r.
  destruct (Z.leb_spec 1000000000 (nsec t + r)); [|destruct (Z.ltb_spec (nsec t + r) 0)]; cbn [sec nsec loc]; small_ints;
    (split; [lia|split; [done|lia]]).
Qed.

Lemma instant_inj t u : 0 <= nsec t < 1000000000 → 0 <= nsec u < 1000000000 →
  instant t = instant u ↔ sec t = sec u ∧ nsec t = nsec u.
Proof. unfold instant. lia. Qed.

Lemma order_spec t u : valid t → valid u →
  After t u = (instant u <? instant t) ∧ Before t u = (instant t <? instant u) ∧ Equal t u = (instant t =? instant u).
Proof. intros [Ht _] [Hu _]. unfold After, Before, Equal, instant. repeat split; apply Bool.eq_iff_eq_true; lia. Qed.

Lemma Sub_spec t u : valid t → valid u → Sub t u = clamp (instant t - instant u).
Proof.
  intros Ht Hu. destruct (Ht) as [Htn Hts], (Hu) as [Hun Hus]. unfold Sub. cbv zeta.
  assert (i64 (i64 (i64 (sec t - sec u) * Second) + i32 (nsec t - nsec u)) = i64 (instant t - instant u)) as ->.
  { rewrite (i64_id (sec t - sec u)), (i32_id (nsec t - nsec u)) by (unfold is_duration; lia). rewrite swrap_add_l.
    f_equal. unfold instant. change Second with 1000000000. lia. }
  set (D := instant t - instant u). pose proof (swrap_bound 64 D ltac:(lia)) as Hd. change (64 - 1) with 63 in Hd.
  destruct (Add_spec u (i64 D) Hu Hd) as (Ha & _ & Han & _).
  assert (Equal (Add u (i64 D)) t = (i64 D =? D)) as ->.
  { unfold Equal. apply Bool.eq_iff_eq_true. rewrite andb_true_iff, !Z.eqb_eq, <- instant_inj, Ha by done. unfold D. lia. }
  unfold clamp, minDuration, maxDuration. destruct (Z.eqb_spec (i64 D) D) as [E|Hne]; [rewrite E in *; lia|].
  assert (¬ is_duration D) as Hout by (intros H; by apply Hne, i64_id).
  rewrite (proj1 (proj2 (order_spec t u Ht Hu))). unfold is_duration, D in *.
  destruct (Z.ltb_spec (instant t) (instant u)); lia.
Qed.

(** * The long division *)

Lemma nanoseconds_spec s n : 0 <= s < 2 ^ 63 → 0 <= n < 1000000000 →
  ∃ u1 u0, nanoseconds s n = (u1, u0) ∧ u1 * 2 ^ 64 + u0 = s * 1000000000 + n ∧ 0 <= u0 < 2 ^ 64 ∧ 0 <= u1 < 2 ^ 63.
Proof.
  intros Hs Hn. unfold nanoseconds. change 4294967295 with (2 ^ 32 - 1). rewrite land_mask, !Z.shiftr_div_pow2, !Z.shiftl_mul_pow2 by lia.
  set (hi := s / 2 ^ 32). set (lo := s mod 2 ^ 32).
  assert (s = 2 ^ 32 * hi + lo ∧ 0 <= lo < 2 ^ 32 ∧ 0 <= hi < 2 ^ 31) as (Es & Hlo & Hhi) by (subst hi lo; lia_div). clearbody hi lo.
  cbv zeta. rewrite (u64_small (hi * _)), (u64_small (lo * _)), (u64_small n) by lia.
  set (a := hi * 1000000000 / 2 ^ 32). set (b := hi * 1000000000 * 2 ^ 32).
  assert (u64 b = b - a * 2 ^ 64 ∧ 0 <= u64 b < 2 ^ 64 ∧ 0 <= a < 2 ^ 30) as (Eb & Hb & Ha) by (unfold wrap; subst a b; lia_div).
  set (u := u64 b) in *. set (v := lo * 1000000000) in *. assert (0 <= v < 2 ^ 62) as Hv by lia.
  assert (∀ x y, 0 <= x < 2 ^ 64 → 0 <= y < 2 ^ 64 → u64 (x + y) = if u64 (x + y) <? x then x + y - 2 ^ 64 else x + y) as Hcarry.
  { intros x y Hx Hy. unfold wrap. destruct (Z.ltb_spec ((x + y) mod 2 ^ 64) x); lia_div. }
  pose proof (Hcarry u v Hb ltac:(lia)) as E1. pose proof (wrap_bound 64 (u + v) ltac:(lia)) as B1.
  set (w := u64 (u + v)) in *. pose proof (Hcarry w n B1 ltac:(lia)) as E2. pose proof (wrap_bound 64 (w + n) ltac:(lia)) as B2.
  set (z := u64 (w + n)) in *.
  assert (b = hi * 1000000000 * 2 ^ 32) as Ebb by done. assert (v = lo * 1000000000) as Ev by done. clearbody a b u v w z.
  eexists _, _. split; [done|].
  destruct (Z.ltb_spec w u), (Z.ltb_spec z w); rewrite ?(u64_small (a + 1)) by lia; rewrite ?(u64_small (a + 1 + 1)) by lia; lia.
Qed.

Lemma normalize_spec d : 0 < d < 2 ^ 63 → normalize d ⇓ λ d1, 2 ^ 63 <= d1 < 2 ^ 64 ∧ ∃ k, 0 <= k ∧ d1 = d * 2 ^ k.
Proof.
  intros Hd. unfold normalize.
  apply wp_while with (I := λ d1, 0 < d1 < 2 ^ 64 ∧ ∃ k, 0 <= k ∧ d1 = d * 2 ^ k) (meas := λ d1, 64 - Z.log2 d1).
  - intros d1 [H1 (k & Hk & E)]. apply wp_ret. rewrite Z.shiftr_div_pow2 by lia.
    assert (Z.log2 d1 < 64) as Hl by (apply Z.log2_lt_pow2; lia). pose proof (Z.log2_nonneg d1).
    destruct (Z.eqb_spec (d1 / 2 ^ 63) 1) as [Hq|Hq]; cbn [negb].
    + split; [lia_div|]. by exists k.
    + assert (d1 < 2 ^ 63) as Hlt by lia_div. rewrite Z.shiftl_mul_pow2 by lia. rewrite u64_small by lia. apply wp_ret.
      replace (d1 * 2 ^ 1) with (2 * d1) by lia. rewrite Z.log2_double by lia.
      assert (Z.log2 d1 < 63) by (apply Z.log2_lt_pow2; lia). split; [|lia]. split; [lia|]. exists (k + 1).
      split; [lia|]. rewrite Z.pow_add_r by lia. lia.
  - split; [lia|]. exists 0. lia.
  - pose proof (Z.log2_nonneg d). assert (Z.log2 d < 63) by (apply Z.log2_lt_pow2; lia). lia.
Qed.

Lemma half_word d1 d0 : 0 <= d0 < 2 ^ 64 → 0 <= d1 < 2 ^ 64 →
  let e0 := Z.lor (Z.shiftr d0 1) (u64 (Z.shiftl (Z.land d1 1) 63)) in
  0 <= e0 < 2 ^ 64 ∧ 0 <= Z.shiftr d1 1 < 2 ^ 63 ∧ (d1 * 2 ^ 64 + d0) / 2 = Z.shiftr d1 1 * 2 ^ 64 + e0.
Proof.
  intros H0 H1 e0. subst e0. change (Z.land d1 1) with (Z.land d1 (2 ^ 1 - 1)). rewrite land_mask, !Z.shiftr_div_pow2, Z.shiftl_mul_pow2 by lia.
  rewrite (u64_small (_ * _)) by lia_div. rewrite Z.lor_comm, lor_high_add with (k := 63); lia_div.
Qed.

(** A borrow. *)
Lemma sub_words u1 u0 d1 d0 : 0 <= u0 < 2 ^ 64 → 0 <= d0 < 2 ^ 64 → 0 <= u1 < 2 ^ 64 → 0 <= d1 < 2 ^ 64 →
  d1 * 2 ^ 64 + d0 <= u1 * 2 ^ 64 + u0 →
  let v0 := u64 (u0 - d0) in
  let v1 := u64 ((if u0 <? v0 then u64 (u1 - 1) else u1) - d1) in
  0 <= v0 < 2 ^ 64 ∧ 0 <= v1 < 2 ^ 64 ∧ v1 * 2 ^ 64 + v0 = u1 * 2 ^ 64 + u0 - (d1 * 2 ^ 64 + d0).
Proof.
  intros Hu0 Hd0 Hu1 Hd1 Hle v0 v1. pose proof (wrap_bound 64 (u0 - d0) ltac:(lia)) as Hv. fold v0 in Hv.
  assert (v0 = if u0 <? v0 then u0 - d0 + 2 ^ 64 else u0 - d0) as E.
  { unfold v0, wrap. destruct (Z.ltb_spec u0 ((u0 - d0) mod 2 ^ 64)); lia_div. }
  split; [done|]. subst v1. destruct (Z.ltb_spec u0 v0); rewrite ?(u64_small (u1 - 1)) by lia; rewrite u64_small by lia; lia.
Qed.

(** The division by repeated halving: [N = Q * 2D + U] with [0 <= U < 2D]. *)
Lemma div_loop d u1 u0 d1 : 0 < d < 2 ^ 63 → 0 <= u0 < 2 ^ 64 → 0 <= u1 < 2 ^ 63 → 2 ^ 63 <= d1 < 2 ^ 64 →
  (∃ k, 0 <= k ∧ d1 = d * 2 ^ k) →
  loop 130 (div_step d) (u1, u0, d1, 0) ⇓ λ '(q, r), let N := u1 * 2 ^ 64 + u0 in
    r = N mod d ∧ q = N / d mod 2.
Proof.
  intros Hd Hu0 Hu1 Hd1 (k0 & Hk0 & E0). set (N := u1 * 2 ^ 64 + u0).
  apply wp_loop with (I := λ '(u1, u0, d1, d0), 0 <= u0 < 2 ^ 64 ∧ 0 <= u1 < 2 ^ 64 ∧ 0 <= d0 < 2 ^ 64 ∧ 0 <= d1 < 2 ^ 64 ∧
      (∃ k, 0 <= k ∧ d1 * 2 ^ 64 + d0 = d * 2 ^ k) ∧ ∃ Q, N = Q * (2 * (d1 * 2 ^ 64 + d0)) + (u1 * 2 ^ 64 + u0) ∧
      u1 * 2 ^ 64 + u0 < 2 * (d1 * 2 ^ 64 + d0))
    (meas := λ '(_, _, d1, d0), Z.log2 (d1 * 2 ^ 64 + d0)).
  - intros [[[v1 v0] e1] e0] (Hv0 & Hv1 & He0 & He1 & (k & Hk & ED) & Q & EN & HU). unfold div_step.
    set (D := e1 * 2 ^ 64 + e0) in *. set (U := v1 * 2 ^ 64 + v0) in *.
    assert (0 < 2 ^ k) as Hpk by (by apply Z.pow_pos_nonneg). assert (d <= D) as HdD by nia.
    assert (((e1 <? v1) || (v1 =? e1) && (e0 <=? v0)) = (D <=? U)) as -> by (apply Bool.eq_iff_eq_true; subst D U; lia).
    assert (∃ b w1 w0, (if D <=? U then (1, u64 ((if v0 <? u64 (v0 - e0) then u64 (v1 - 1) else v1) - e1), u64 (v0 - e0)) else (0, v1, v0)) = (b, w1, w0) ∧
      (b = 0 ∨ b = 1) ∧ 0 <= w0 < 2 ^ 64 ∧ 0 <= w1 < 2 ^ 64 ∧ w1 * 2 ^ 64 + w0 = U - b * D ∧ w1 * 2 ^ 64 + w0 < D) as (b & w1 & w0 & Eb & Hb & Hw0 & Hw1 & EW & HW).
    { destruct (Z.leb_spec D U) as [HDU|HDU].
      - destruct (sub_words v1 v0 e1 e0) as (H0 & H1 & E); [done..|]. eexists _, _, _. split; [done|]. rewrite E. fold U D. split; [by right|]. lia.
      - eexists _, _, _. split; [done|]. fold U. split; [by left|]. lia. }
    cbv zeta. rewrite Eb.
    assert (((e1 =? 0) && (e0 =? d)) = (D =? d)) as -> by (apply Bool.eq_iff_eq_true; subst D; lia).
    destruct (Z.eqb_spec D d) as [EDd|Hne].
    + apply wp_ret. set (W := w1 * 2 ^ 64 + w0) in *. assert (w1 = 0) as Hw1z by nia. assert (N = (2 * Q + b) * d + W) as EN' by (rewrite EDd in *; lia).
      assert (W = w0) as HWw by (subst W; rewrite Hw1z; lia). split.
      * rewrite <- HWw. apply Z.mod_unique with (2 * Q + b); lia.
      * assert (N / d = 2 * Q + b) as -> by (symmetry; apply Z.div_unique with W; lia).
        replace (2 * Q + b) with (b + Q * 2) by lia. rewrite Z.mod_add by lia. destruct Hb as [-> | ->]; done.
    + destruct (half_word e1 e0 He0 He1) as (Hh0 & Hh1 & Eh). fold D in Eh. cbv zeta in Eh, Hh0.
      assert (1 <= k) as Hk1 by (destruct (decide (k = 0)) as [->|]; [rewrite Z.pow_0_r in ED; lia|lia]).
      assert (D = 2 * (d * 2 ^ (k - 1))) as ED2.
      { rewrite ED. replace k with (Z.succ (k - 1)) at 1 by lia. rewrite Z.pow_succ_r by lia. lia. }
      assert (D / 2 = d * 2 ^ (k - 1)) as Ehalf by (rewrite ED2, Z.mul_comm; by apply Z.div_mul).
      apply wp_ret. rewrite <- Eh. split.
      * split; [done|]. split; [done|]. split; [done|]. split; [lia|]. split; [exists (k - 1); split; [lia|exact Ehalf]|].
        exists (2 * Q + b). rewrite EW, Ehalf, EN. rewrite EW in HW. clear -ED2 HW. rewrite ED2 in *. split; lia.
      * rewrite Ehalf, ED2. rewrite Z.log2_double by nia. pose proof (Z.log2_nonneg (d * 2 ^ (k - 1))). lia.
  - split; [done|]. split; [lia|]. split; [lia|]. split; [lia|].
    split; [exists (k0 + 64); split; [lia|]; rewrite E0, Z.pow_add_r by lia; lia|]. exists 0. lia.
  - rewrite Z.add_0_r. pose proof (Z.log2_nonneg (d1 * 2 ^ 64)).
    assert (Z.log2 (d1 * 2 ^ 64) < 128) by (apply Z.log2_lt_pow2; lia). lia.
Qed.

(** The quotient's parity and remainder of a non-negative instant. *)
Lemma div_nonneg s n d : 0 <= s < 2 ^ 63 → 0 <= n < 1000000000 → 0 < d < 2 ^ 63 →
  (if (d <? Second) && (Z.rem Second (i64 (d + d)) =? 0) then
      Ret (Z.land (Z.quot n (i32 d)) 1, Z.rem n (i32 d))
    else if Z.rem d Second =? 0 then
      let d1 := Z.quot d Second in
      Ret (Z.land (Z.quot s d1) 1, i64 (i64 (Z.rem s d1 * Second) + n))
    else
      let '(u1, u0) := nanoseconds (u64 s) n in
      d1 ← normalize (u64 d);
      '(qmod2, u0) ← loop 130 (div_step (u64 d)) (u1, u0, d1, 0);
      Ret (qmod2, i64 u0)) ⇓ λ '(q, r), let N := s * 1000000000 + n in r = N mod d ∧ q = N / d mod 2.
Proof.
  intros Hs Hn Hd. cbv zeta. change Second with 1000000000.
  assert (∀ x, Z.land x 1 = x mod 2) as Hodd by (intros x; apply (land_mask x 1); lia).
  set (N := s * 1000000000 + n).
  destruct ((d <? 1000000000) && _) eqn:Esmall.
  { apply andb_true_iff in Esmall as [Hlt%Z.ltb_lt Hdiv%Z.eqb_eq]. rewrite i64_id in Hdiv by (unfold is_duration; lia).
    rewrite i32_id by lia. rewrite Z.rem_mod_nonneg in Hdiv by lia. rewrite Z.quot_div_nonneg, Z.rem_mod_nonneg, Hodd by lia.
    apply Z.mod_divide in Hdiv as [c Hc]; [|lia]. apply wp_ret.
    assert (N = n + s * (2 * c) * d) as EN by (unfold N; nia). rewrite EN, Z.mod_add, Z.div_add by lia.
    split; [done|]. replace (n / d + s * (2 * c)) with (n / d + s * c * 2) by lia. by rewrite Z.mod_add. }
  destruct (Z.eqb_spec (Z.rem d 1000000000) 0) as [Hdiv|Hdiv].
  { rewrite Z.rem_mod_nonneg in Hdiv by lia. rewrite (Z.quot_div_nonneg d) by lia. set (d1 := d / 1000000000).
    assert (d = 1000000000 * d1) as Ed by (subst d1; lia_div). assert (0 < d1) as Hd1 by lia.
    rewrite (Z.quot_div_nonneg s), (Z.rem_mod_nonneg s), Hodd by lia. pose proof (Z.mod_pos_bound s d1 Hd1). pose proof (Z.div_mod s d1 ltac:(lia)).
    apply wp_ret. rewrite (i64_id (s mod d1 * _)) by (unfold is_duration; lia). rewrite i64_id by (unfold is_duration; lia).
    assert (N = d * (s / d1) + (s mod d1 * 1000000000 + n)) as EN by (unfold N; rewrite Ed; nia).
    split; [apply Z.mod_unique with (s / d1); lia|]. f_equal. apply Z.div_unique with (s mod d1 * 1000000000 + n); lia. }
  rewrite !u64_small by lia. destruct (nanoseconds_spec s n Hs Hn) as (u1 & u0 & -> & EN & H0 & H1). fold N in EN.
  eapply wp_bind_mono; [by apply normalize_spec|]. intros d1 (Hd1 & Hk).
  eapply wp_bind_mono; [by apply div_loop|]. intros [q r] [-> ->]. apply wp_ret. rewrite EN.
  pose proof (Z.mod_pos_bound N d ltac:(lia)). split; [apply i64_id; unfold is_duration; lia|done].
Qed.

(** [div] rounds towards minus infinity. *)
Lemma div_spec t d : 0 <= nsec t < 1000000000 → - 2 ^ 63 < sec t < 2 ^ 63 → 0 < d < 2 ^ 63 →
  div t d ⇓ λ '(q, r), r = instant t mod d ∧ q = instant t / d mod 2.
Proof.
  intros Hn Hs Hd. unfold div. cbv zeta.
  destruct (Z.ltb_spec (sec t) 0) as [Hneg|Hpos].
  2:{ eapply wp_bind_mono; [apply div_nonneg; lia|]. intros [q r] [-> ->]. by apply wp_ret. }
  rewrite (i64_id (- sec t)), (i32_id (- nsec t)) by (unfold is_duration; lia).
  rewrite (i64_id (- sec t - 1)), (i32_id (- nsec t + 1000000000)) by (unfold is_duration; lia).
  assert (∃ s n, (if - nsec t <? 0 then (true, - sec t - 1, - nsec t + 1000000000) else (true, - sec t, - nsec t)) = (true, s, n) ∧
    s * 1000000000 + n = - instant t ∧ 0 <= n < 1000000000 ∧ 0 <= s < 2 ^ 63) as (s & n & -> & EN & Hn' & Hs').
  { unfold instant. destruct (Z.ltb_spec (- nsec t) 0); eexists _, _; (split; [done|lia]). }
  eapply wp_bind_mono; [by apply div_nonneg|]. cbv zeta. intros [q r]. rewrite EN. intros [-> ->].
  set (I := instant t) in *. pose proof (Z.div_mod (- I) d ltac:(lia)) as E. pose proof (Z.mod_pos_bound (- I) d ltac:(lia)) as Hr.
  set (q := - I / d) in *. set (r := (- I) mod d) in *.
  destruct (Z.eqb_spec r 0) as [Hz|Hnz]; cbn [andb negb].
  - apply wp_ret. rewrite Hz in *. split; [apply Z.mod_unique with (- q); lia|].
    assert (I / d = - q) as -> by (symmetry; apply Z.div_unique with 0; lia). lia_div.
  - apply wp_ret. rewrite (i64_id (d - r)) by (unfold is_duration; lia). split; [apply Z.mod_unique with (- q - 1); lia|].
    assert (I / d = - q - 1) as -> by (symmetry; apply Z.div_unique with (d - r); lia).
    assert (q mod 2 = 0 ∨ q mod 2 = 1) as [Hq|Hq] by lia_div; rewrite Hq; [change (Z.lxor 0 1) with 1|change (Z.lxor 1 1) with 0]; lia_div.
Qed.

Lemma Unix_spec s n : - 2 ^ 61 <= s < 2 ^ 61 → is_duration n →
  instant (Unix s n) = (s + unixToInternal) * 1000000000 + n ∧ 0 <= nsec (Unix s n) < 1000000000.
Proof.
  intros Hs Hn. unfold is_duration in Hn. unfold Unix, instant. change unixToInternal with 62135596800. cbv zeta.
  set (q := Z.quot n 1000000000). assert (n = 1000000000 * q + Z.rem n 1000000000 ∧ -1000000000 < Z.rem n 1000000000 < 1000000000 ∧
    (0 <= n → 0 <= Z.rem n 1000000000) ∧ (n <= 0 → Z.rem n 1000000000 <= 0)) as (En & Hr & Hrp & Hrn) by (subst q; lia_div).
  set (r := Z.rem n 1000000000) in *. clearbody q r.
  destruct ((n <? 0) || (1000000000 <=? n)) eqn:Ew.
  - rewrite (i64_id (s + q)), (i64_id (q * _)) by (unfold is_duration; lia). rewrite (i64_id (n - _)) by (unfold is_duration; lia).
    destruct (Z.ltb_spec (n - q * 1000000000) 0); cbn [sec nsec].
    + rewrite (i64_id (s + q - 1)), (i64_id (n - _ + _)) by (unfold is_duration; lia). rewrite i64_id, i32_id by (unfold is_duration; lia). lia.
    + rewrite i64_id, i32_id by (unfold is_duration; lia). lia.
  - cbn [sec nsec]. rewrite i64_id, i32_id by (unfold is_duration; lia). lia.
Qed.

(** C25: with instants as nanoseconds since year 1, for times of normal nanoseconds
    and up to 2^62 seconds: the comparisons compare the instants, [Add] adds the
    duration and leaves the nanoseconds normal, [Sub] is the difference, held
    between the least and the greatest duration, and [Unix] takes any
    nanoseconds. *)
Theorem instant_arithmetic t u d s n :
  valid t → valid u → is_duration d → - 2 ^ 61 <= s < 2 ^ 61 → is_duration n →
  (After t u = (instant u <? instant t) ∧ Before t u = (instant t <? instant u) ∧ Equal t u = (instant t =? instant u)) ∧
  (instant (Add t d) = instant t + d ∧ loc (Add t d) = loc t ∧ 0 <= nsec (Add t d) < 1000000000) ∧
  Sub t u = clamp (instant t - instant u) ∧
  (instant (Unix s n) = (s + unixToInternal) * 1000000000 + n ∧ 0 <= nsec (Unix s n) < 1000000000).
Proof.
  intros Ht Hu Hd Hs Hn. split; [by apply order_spec|]. split; [|split; [by apply Sub_spec|by apply Unix_spec]].
  destruct (Add_spec t d Ht Hd) as (? & ? & ? & _). done.
Qed.

Example instant_arithmetic_witness :
  valid (at_utc 7 1) ∧ valid (at_utc (-3) 5) ∧ Sub (at_utc 7 1) (at_utc (-3) 5) = clamp (instant (at_utc 7 1) - instant (at_utc (-3) 5)).
Proof.
  assert (valid (at_utc 7 1)) as H1 by (split; simpl; lia). assert (valid (at_utc (-3) 5)) as H2 by (split; simpl; lia).
  split; [exact H1|]. split; [exact H2|].
  apply (instant_arithmetic (at_utc 7 1) (at_utc (-3) 5) 0 0 0 H1 H2); unfold is_duration; lia.
Defined.

Lemma Round_value I d : 0 < d → (2 * I + d) / (2 * d) * d = if 2 * (I mod d) <? d then I - I mod d else I + (d - I mod d).
Proof.
  intros Hd. pose proof (Z.div_mod I d ltac:(lia)) as E. pose proof (Z.mod_pos_bound I d Hd) as Hr.
  destruct (Z.ltb_spec (2 * (I mod d)) d) as [H|H].
  - rewrite <- (Z.div_unique (2 * I + d) (2 * d) (I / d) (2 * (I mod d) + d)) by lia. lia.
  - rewrite <- (Z.div_unique (2 * I + d) (2 * d) (I / d + 1) (2 * (I mod d) - d)) by lia. lia.
Qed.

(** C26: [Truncate] rounds an instant down to a multiple of the duration since year
    1 and [Round] to the nearest one, halfway up; before year 1 too. Both leave
    the time alone when the duration is not positive. [div] returns the remainder
    and the quotient's parity, whichever of its three methods it uses; [Round] is
    right for durations below 2^62. *)
Theorem Truncate_Round t d :
  valid t → is_duration d →
  (d <= 0 → Truncate t d = Ret t ∧ Round t d = Ret t) ∧
  (0 < d → (∃ u, Truncate t d = Ret u ∧ instant u = instant t / d * d) ∧
     div t d = Ret (instant t / d mod 2, instant t mod d)) ∧
  (0 < d < 2 ^ 62 → ∃ u, Round t d = Ret u ∧ instant u = (2 * instant t + d) / (2 * d) * d).
Proof.
  intros Ht Hd. destruct (Ht) as [Hn Hs].
  assert (0 < d → div t d = Ret (instant t / d mod 2, instant t mod d)) as Hdiv.
  { intros Hpos. destruct (proj1 (wp_ex _ _) (div_spec t d Hn ltac:(lia) ltac:(unfold is_duration in Hd; lia))) as ([q r] & E & -> & ->). done. }
  unfold is_duration in Hd. split; [|split].
  - intros Hle. unfold Truncate, Round. by destruct (Z.leb_spec d 0); [|lia].
  - intros Hpos. split; [|by apply Hdiv]. unfold Truncate. destruct (Z.leb_spec d 0); [lia|]. rewrite (Hdiv Hpos), go_bind_ret.
    pose proof (Z.mod_pos_bound (instant t) d Hpos). rewrite i64_id by (unfold is_duration; lia).
    eexists. split; [done|]. destruct (Add_spec t (- (instant t mod d)) Ht ltac:(unfold is_duration; lia)) as [-> _].
    pose proof (Z.div_mod (instant t) d ltac:(lia)). lia.
  - intros [Hpos Hlt]. unfold Round. destruct (Z.leb_spec d 0); [lia|]. rewrite (Hdiv Hpos), go_bind_ret.
    pose proof (Z.mod_pos_bound (instant t) d Hpos). rewrite !(i64_id (_ + _)), !(i64_id (d - _)), (i64_id (- _)) by (unfold is_duration; lia).
    rewrite (Round_value (instant t) d Hpos). replace (instant t mod d + instant t mod d) with (2 * (instant t mod d)) by lia.
    destruct (Z.ltb_spec (2 * (instant t mod d)) d); (eexists; split; [done|]).
    + destruct (Add_spec t (- (instant t mod d)) Ht ltac:(unfold is_duration; lia)) as [-> _]. lia.
    + by destruct (Add_spec t (d - instant t mod d) Ht ltac:(unfold is_duration; lia)) as [-> _].
Qed.

Example Truncate_Round_witness :
  valid (at_utc (-3) 600000000) ∧ ∃ u, Round (at_utc (-3) 600000000) Second = Ret u ∧ instant u = - 2000000000.
Proof.
  assert (valid (at_utc (-3) 600000000)) as H by (split; simpl; lia). split; [exact H|].
  destruct (Truncate_Round (at_utc (-3) 600000000) Second H) as (_ & _ & Hr); [unfold is_duration; vm_compute; intuition discriminate|].
  apply Hr. vm_compute. intuition (reflexivity || discriminate).
Defined.
