(* ===== verification/TimeDate.v ===== *)
(** Dates of times in their locations, ISO weeks and the binary form of times:
    the methods of [src/src/time/time.go] that join instants, zones and the
    calendar. *)
From S2P Require Import Prelude.
From S2P Require Import Zone.
From S2P Require Import Calendar.
From S2P Require Import Instant.

Section date.
(** The width of [int], and what [initLocal] loads. *)
Context (host : Z) (localLoc : Location).
Abbreviation int := (swrap host) (only parsing).

(** The offset of the zone in effect, from the cache when it applies: what [abs]
    and [locabs] add; [None] in UTC. *)
Definition zone_offset (l : locptr) (sec : Z) : go (option (bytes * Z)) :=
  match l with
  | loc_nil | loc_utc => Ret None
  | _ =>
    let l := get localLoc l in
    let slow := '(name, offset, _, _, _) ← lookup l sec; Ret (Some (name, offset)) in
    match cacheZone l with
    | Some z => if (cacheStart l <=? sec) && (sec <? cacheEnd l) then Ret (Some (zone_name z, offset z)) else slow
    | None => slow
    end
  end.

Definition abs (t : Time) : go Z :=
  let sec := i64 (sec t + internalToUnix) in
  z ← zone_offset (loc t) sec;
  let sec := match z with Some (_, offset) => i64 (sec + offset) | None => sec end in
  Ret (u64 (i64 (sec + (unixToInternal + internalToAbsolute)))).

Definition locabs (t : Time) : go (bytes * Z * Z) :=
  let sec := i64 (sec t + internalToUnix) in
  z ← zone_offset (loc t) sec;
  let '(name, offset, sec) := match z with
    | Some (name, offset) => (name, offset, i64 (sec + offset))
    | None => (str "UTC", 0, sec) end in
  Ret (name, offset, u64 (i64 (sec + (unixToInternal + internalToAbsolute)))).

Definition date (t : Time) (full : bool) : go (Z * Z * Z * Z) := a ← abs t; absDate host a full.
Definition Time_Date (t : Time) : go (Z * Z * Z) := '(year, month, day, _) ← date t true; Ret (year, month, day).
Definition Year (t : Time) : go Z := '(year, _, _, _) ← date t false; Ret year.
Definition Month (t : Time) : go Z := '(_, month, _, _) ← date t true; Ret month.
Definition Day (t : Time) : go Z := '(_, _, day, _) ← date t true; Ret day.
Definition Weekday (t : Time) : go Z := a ← abs t; Ret (absWeekday host a).
Definition YearDay (t : Time) : go Z := '(_, _, _, yday) ← date t false; Ret (int (yday + 1)).
Definition Clock (t : Time) : go (Z * Z * Z) := a ← abs t; Ret (absClock host a).
Definition Time_Hour (t : Time) : go Z := a ← abs t; Ret (Z.quot (int (a mod secondsPerDay)) secondsPerHour).
Definition Time_Minute (t : Time) : go Z := a ← abs t; Ret (Z.quot (int (a mod secondsPerHour)) secondsPerMinute).
Definition Time_Second (t : Time) : go Z := a ← abs t; Ret (int (a mod secondsPerMinute)).
Definition Time_Nanosecond (t : Time) : Z := int (nsec t).
Definition Zone_ (t : Time) : go (bytes * Z) :=
  '(name, offset, _, _, _) ← lookup (get localLoc (loc t)) (i64 (sec t + internalToUnix)); Ret (name, offset).

(** The year and week of a date given its weekday from Monday. *)
Definition iso_week (year month day yday wday : Z) : Z * Z :=
  let week := Z.quot (int (int (yday - wday) + 7)) 7 in
  let jan1wday := Z.rem (int (int (wday - yday) + 7 * 53)) 7 in
  let week := if (1 <=? jan1wday) && (jan1wday <=? 3) then int (week + 1) else week in
  let '(year, week) :=
    if week =? 0 then
      let year := int (year - 1) in
      (year, if (jan1wday =? 4) || (jan1wday =? 5) && isLeap year then 53 else 52)
    else (year, week) in
  if (month =? December) && (29 <=? day) && (wday <? 3) then
    let dec31wday := Z.rem (int (int (wday + 31) - day)) 7 in
    if (0 <=? dec31wday) && (dec31wday <=? 2) then (int (year + 1), 1) else (year, week)
  else (year, week).

Definition ISOWeek (t : Time) : go (Z * Z) :=
  '(year, month, day, yday) ← date t true;
  wd ← Weekday t;
  let wday := Z.rem (int (wd + 6)) 7 in
  Ret (iso_week year month day yday wday).

(** [Date]. *)
Definition Date (year month day hour min sec nsec : Z) (l : locptr) : go Time :=
  match l with
  | loc_nil => Panic "time: missing Location in call to Date"
  | _ =>
    '(unix, nsec) ← date_unix host year month day hour min sec nsec;
    let lc := get localLoc l in
    '(_, offset, _, start, end_) ← lookup lc unix;
    unix ← (if negb (offset =? 0) then
        let utc := i64 (unix - offset) in
        offset ← (if utc <? start then '(_, offset, _, _, _) ← lookup lc (i64 (start - 1)); Ret offset
                  else if end_ <=? utc then '(_, offset, _, _, _) ← lookup lc end_; Ret offset
                  else Ret offset);
        Ret (i64 (unix - offset))
      else Ret unix);
    Ret {| Instant.sec := i64 (unix + unixToInternal); Instant.nsec := i32 nsec; loc := l |}
  end.

Definition AddDate (t : Time) (years months days : Z) : go Time :=
  '(year, month, day) ← Time_Date t;
  '(hour, min, sec) ← Clock t;
  Date (int (year + years)) (int (month + months)) (int (day + days)) hour min sec (int (nsec t)) (loc t).

(** * The binary form *)

Definition timeBinaryVersion : Z := 1.

Inductive time_error :=
  | fractional_minute | unexpected_offset | no_data | unsupported_version | invalid_length.

Definition encode_time (sec nsec offsetMin : Z) : bytes :=
  [timeBinaryVersion; u8 (Z.shiftr sec 56); u8 (Z.shiftr sec 48); u8 (Z.shiftr sec 40); u8 (Z.shiftr sec 32);
   u8 (Z.shiftr sec 24); u8 (Z.shiftr sec 16); u8 (Z.shiftr sec 8); u8 sec;
   u8 (Z.shiftr nsec 24); u8 (Z.shiftr nsec 16); u8 (Z.shiftr nsec 8); u8 nsec;
   u8 (Z.shiftr offsetMin 8); u8 offsetMin].

Definition MarshalBinary (t : Time) : go (bytes + time_error) :=
  offsetMin ← (match Location_ t with
    | loc_utc => Ret (inl (-1))
    | _ =>
      '(_, offset) ← Zone_ t;
      if negb (Z.rem offset 60 =? 0) then Ret (inr fractional_minute) else
      let offset := Z.quot offset 60 in
      if (offset <? -32768) || (offset =? -1) || (32767 <? offset) then Ret (inr unexpected_offset)
      else Ret (inl (swrap 16 offset))
    end);
  match offsetMin with
  | inr e => Ret (inr e)
  | inl offsetMin => Ret (inl (encode_time (sec t) (nsec t) offsetMin))
  end.

(** [int64(b[7]) | int64(b[6])<<8 | ...], and the same of 32 and 16 bits. *)
Definition be64 (b : bytes) (at_ : Z) : go Z :=
  b7 ← idx b (at_ + 7); b6 ← idx b (at_ + 6); b5 ← idx b (at_ + 5); b4 ← idx b (at_ + 4);
  b3 ← idx b (at_ + 3); b2 ← idx b (at_ + 2); b1 ← idx b (at_ + 1); b0 ← idx b at_;
  Ret (Z.lor (Z.lor (Z.lor (Z.lor (Z.lor (Z.lor (Z.lor b7 (i64 (Z.shiftl b6 8))) (i64 (Z.shiftl b5 16)))
    (i64 (Z.shiftl b4 24))) (i64 (Z.shiftl b3 32))) (i64 (Z.shiftl b2 40))) (i64 (Z.shiftl b1 48))) (i64 (Z.shiftl b0 56))).
Definition be32 (b : bytes) (at_ : Z) : go Z :=
  b3 ← idx b (at_ + 3); b2 ← idx b (at_ + 2); b1 ← idx b (at_ + 1); b0 ← idx b at_;
  Ret (Z.lor (Z.lor (Z.lor b3 (i32 (Z.shiftl b2 8))) (i32 (Z.shiftl b1 16))) (i32 (Z.shiftl b0 24))).
Definition be16 (b : bytes) (at_ : Z) : go Z :=
  b1 ← idx b (at_ + 1); b0 ← idx b at_;
  Ret (Z.lor b1 (swrap 16 (Z.shiftl b0 8))).

Definition UnmarshalBinary (data : bytes) : go (Time + time_error) :=
  let buf := data in
  if zlen buf =? 0 then Ret (inr no_data) else
  v ← idx buf 0;
  if negb (v =? timeBinaryVersion) then Ret (inr unsupported_version) else
  if negb (zlen buf =? 1 + 8 + 4 + 2) then Ret (inr invalid_length) else
  buf ← slice_from buf 1;
  tsec ← be64 buf 0;
  buf ← slice_from buf 8;
  tnsec ← be32 buf 0;
  buf ← slice_from buf 4;
  off ← be16 buf 0;
  let offset := int (off * 60) in
  l ← (if offset =? -1 * 60 then Ret loc_utc else
       '(_, localoff, _, _, _) ← lookup localLoc (i64 (tsec + internalToUnix));
       if offset =? localoff then Ret loc_local else Ret (loc_at (FixedZone [] offset)));
  Ret (inl {| Instant.sec := tsec; Instant.nsec := tnsec; loc := l |}).
End date.

Definition cet : locptr := loc_at (FixedZone (str "CET") 3600).
Example date_run :
  (t ← Date 64 utcLoc 2015 6 30 1 30 0 5 cet; d ← Time_Date 64 utcLoc t; c ← Clock 64 utcLoc t;
   w ← ISOWeek 64 utcLoc t; z ← Zone_ utcLoc t; Ret (d, c, w, z))
  = Ret ((2015, 6, 30), (1, 30, 0), (2015, 27), (str "CET", 3600)) ∧
  (t ← Date 32 utcLoc 2011 1 31 0 0 0 0 loc_utc; t ← AddDate 32 utcLoc t (-1) 1 0; Time_Date 32 utcLoc t) = Ret (2010, 3, 3) ∧
  (t ← Date 64 utcLoc 2015 6 30 1 30 0 5 cet; m ← MarshalBinary utcLoc t;
   match m with inl b => r ← UnmarshalBinary 64 utcLoc b; Ret (match r with inl u => Equal t u | _ => false end) | _ => Ret false end) = Ret true ∧
  UnmarshalBinary 64 utcLoc [1; 2] = Ret (inr invalid_length).
Proof. by vm_compute. Qed.

(** * Offsets and absolute seconds *)

Definition offset_of (localLoc : Location) (l : locptr) (s o : Z) : Prop :=
  ∃ n d st en, lookup (get localLoc l) s = Ret (n, o, d, st, en).

(** Locations with transitions in order and offsets of less than 2^31 seconds. *)
Record sound_location (l : Location) : Prop := {
  sound_wf : well_formed l;
  sound_offset : ∀ z, z ∈ zones l → - 2 ^ 31 < offset z < 2 ^ 31 }.

Lemma nthZ_elem {A} (l : list A) i x : l.[i] = Some x → x ∈ l.
Proof. unfold nthZ. case_decide; [|done]. apply list_elem_of_lookup_2. Qed.

Lemma lookup_offset l s : sound_location l →
  ∃ n o d st en, lookup l s = Ret (n, o, d, st, en) ∧ - 2 ^ 31 < o < 2 ^ 31.
Proof.
  intros [Hwf Ho]. destruct (proj1 (wp_ex _ _) (lookup_spec l Hwf s)) as (r & E & Hr). rewrite E.
  destruct Hr as [Hz|zi z Hne _ _ Hz|i t z _ Hz _ _].
  - by eexists _, 0, _, _, _.
  - eexists _, (offset z), _, _, _. split; [done|]. apply Ho. by eapply nthZ_elem.
  - eexists _, (offset z), _, _, _. split; [done|]. apply Ho. by eapply nthZ_elem.
Qed.

Lemma offset_of_det ll l s o o' : offset_of ll l s o → offset_of ll l s o' → o = o'.
Proof. intros (? & ? & ? & ? & E) (? & ? & ? & ? & E'). rewrite E in E'. by injection E' as _ ->. Qed.

Lemma fixed_offset ll n o s : offset_of ll (loc_at (FixedZone n o)) s o.
Proof.
  destruct (proj1 (wp_ex _ _) (lookup_spec (FixedZone n o) (FixedZone_wf n o) s)) as (r & E & Hr). unfold offset_of. simpl get. rewrite E.
  assert (∀ i z, (zones (FixedZone n o)).[i] = Some z → offset z = o) as Hz.
  { intros i z H%nthZ_elem. apply list_elem_of_singleton in H as ->. done. }
  destruct Hr as [H|zi z _ _ _ Hzi|i t z _ Hzi _ _]; [done| |]; eexists _, _, _, _; by rewrite (Hz _ _ Hzi).
Qed.

Section abs.
Context (host : Z) (localLoc : Location).

Lemma zone_offset_spec l s : sound_location (get localLoc l) →
  ∃ r o, zone_offset localLoc l s = Ret r ∧ offset_of localLoc l s o ∧ - 2 ^ 31 < o < 2 ^ 31 ∧
    match r with Some (_, o') => o' = o | None => o = 0 end.
Proof.
  intros Hs. assert (∀ lp, lp = l → get localLoc lp = get localLoc l → ∃ r o,
    match cacheZone (get localLoc l) with
    | Some z => if (cacheStart (get localLoc l) <=? s) && (s <? cacheEnd (get localLoc l)) then Ret (Some (zone_name z, offset z))
                else '(name, offset, _, _, _) ← lookup (get localLoc l) s; Ret (Some (name, offset))
    | None => '(name, offset, _, _, _) ← lookup (get localLoc l) s; Ret (Some (name, offset))
    end = Ret r ∧ offset_of localLoc l s o ∧ - 2 ^ 31 < o < 2 ^ 31 ∧ match r with Some (_, o') => o' = o | None => o = 0 end) as H.
  { intros _ _ _. destruct (lookup_offset _ s Hs) as (n & o & d & st & en & E & Ho).
    destruct (cacheZone (get localLoc l)) as [z|] eqn:Ec.
    - destruct (_ && _) eqn:Eb.
      + eexists _, (offset z). split; [done|]. destruct (wf_cache _ (sound_wf _ Hs) _ Ec) as (Hne & i & t & _ & Hz & _).
        split; [|split; [by apply (sound_offset _ Hs), (nthZ_elem _ (index t))|done]].
        eexists _, _, _, _. unfold lookup. destruct (Z.eqb_spec (zlen (zones (get localLoc l))) 0) as [Hz0|_]; [by apply zlen_nil_inv in Hz0|].
        by rewrite Ec, Eb.
      + rewrite E. eexists _, o. split; [done|]. split; [by eexists _, _, _, _|done].
    - rewrite E. eexists _, o. split; [done|]. split; [by eexists _, _, _, _|done]. }
  unfold zone_offset. destruct l; [| |by apply (H loc_local)|by apply (H (loc_at l))]; (eexists None, 0; split; [done|]; split; [by eexists _, _, _, _|done]).
Qed.

Lemma abs_spec t o : sound_location (get localLoc (loc t)) → offset_of localLoc (loc t) (Time_Unix t) o →
  - 2 ^ 62 <= sec t <= 2 ^ 62 → abs localLoc t = Ret (sec t + o + internalToAbsolute).
Proof.
  intros Hs Ho Hsec. unfold abs. cbv zeta. fold (Time_Unix t).
  destruct (zone_offset_spec (loc t) (Time_Unix t) Hs) as (r & o' & -> & Ho' & Hb & Hr). rewrite go_bind_ret.
  pose proof (offset_of_det _ _ _ _ _ Ho Ho') as ->. unfold Time_Unix. change internalToUnix with (-62135596800).
  change unixToInternal with 62135596800. change internalToAbsolute with 9223371966579724800.
  rewrite (i64_id (sec t + _)) by (unfold is_duration; lia). f_equal. rewrite wrap_swrap.
  destruct r as [[n o'']|]; [subst o''; rewrite i64_id by (unfold is_duration; lia)|subst o']; rewrite u64_small; lia.
Qed.
End abs.

(** * ISO weeks *)

(** [iso_week] relative to the year, without the wrapping of [int]. *)
Definition iso_pure (lprev : bool) (month day yday wday : Z) : Z * Z :=
  let week := Z.quot (yday - wday + 7) 7 in
  let jan1wday := Z.rem (wday - yday + 7 * 53) 7 in
  let week := if (1 <=? jan1wday) && (jan1wday <=? 3) then week + 1 else week in
  let '(dy, week) :=
    if week =? 0 then (-1, if (jan1wday =? 4) || (jan1wday =? 5) && lprev then 53 else 52) else (0, week) in
  if (month =? December) && (29 <=? day) && (wday <? 3) then
    let dec31wday := Z.rem (wday + 31 - day) 7 in
    if (0 <=? dec31wday) && (dec31wday <=? 2) then (dy + 1, 1) else (dy, week)
  else (dy, week).

(** The year, relative to this one, and the week of the Thursday of the week. *)
Definition iso_spec (lp lprev : bool) (yday wday : Z) : Z * Z :=
  let t := yday - wday + 3 in
  if t <? 0 then (-1, (t + year_days lprev) / 7 + 1)
  else if year_days lp <=? t then (1, (t - year_days lp) / 7 + 1)
  else (0, t / 7 + 1).

Lemma iso_check lp lprev yday wday m d : 0 <= yday < year_days lp → 0 <= wday < 7 →
  month_day lp yday = Ret (m, d) → iso_pure lprev m d yday wday = iso_spec lp lprev yday wday.
Proof.
  intros Hy Hw E.
  assert (∀ w, 0 <= w < 7 → forallb (λ yd, match month_day lp yd with
      | Ret (m, d) => bool_decide (iso_pure lprev m d yd w = iso_spec lp lprev yd w) | _ => false end) (seqZ 0 (year_days lp)) = true) as H.
  { apply (range_forall _ 0 7). by destruct lp, lprev; vm_compute. }
  specialize (H wday Hw). pose proof (range_forall _ _ _ H yday Hy) as Hc. cbv beta in Hc. rewrite E in Hc. by apply bool_decide_eq_true in Hc.
Qed.

Lemma iso_week_pure host year m d yday wday :
  32 <= host → - 2 ^ 31 + 2 <= year <= 2 ^ 31 - 2 → 0 <= yday <= 365 → 0 <= wday < 7 → 1 <= d <= 31 →
  iso_week host year m d yday wday = let '(dy, w) := iso_pure (leap (year - 1)) m d yday wday in (year + dy, w).
Proof.
  intros Hh Hyr Hyd Hw Hd. unfold iso_week, iso_pure.
  assert (∀ x, - 2 ^ 31 <= x < 2 ^ 31 → swrap host x = x) as Hint by (intros x Hx; apply (int_id host Hh), (host_range host Hh), Hx).
  rewrite (Hint (yday - wday)), (Hint (yday - wday + 7)), (Hint (wday - yday)), (Hint (wday - yday + 7 * 53)) by lia.
  rewrite (Hint (Z.quot (yday - wday + 7) 7 + 1)) by lia_div.
  rewrite (Hint (year - 1)), (Hint (wday + 31)), (Hint (wday + 31 - d)) by lia. rewrite isLeap_eq.
  destruct (_ =? 0).
  - rewrite (Hint (year - 1 + 1)) by lia. destruct (_ && _); [destruct (_ && _)|]; f_equal; lia.
  - rewrite (Hint (year + 1)) by lia. destruct (_ && _); [destruct (_ && _)|]; f_equal; lia.
Qed.

(** The date of the Thursday of the week. *)
Lemma iso_thursday host y m d :
  32 <= host → valid_date y m d → absoluteZeroYear < y → - 2 ^ 31 + 2 <= y <= 2 ^ 31 - 2 →
  let n := day_number y m d in
  ∃ y' m' d', valid_date y' m' d' ∧ day_number y' m' d' = n - n mod 7 + 3 ∧
    iso_week host y m d (before (leap y) m + d - 1) (n mod 7) = (y', (before (leap y') m' + d' - 1) / 7 + 1).
Proof.
  intros Hh Hv Hy0 Hyr n. destruct (day_number_bound y m d Hv) as [Hb _]. destruct (Hv) as (_ & Hm & Hd).
  set (yd := before (leap y) m + d - 1) in *. set (w := n mod 7). assert (0 <= w < 7) as Hw by (apply Z.mod_pos_bound; lia).
  assert (year_days (leap y) <= 366 ∧ d <= 31) as [Hyd Hd31].
  { split; [unfold year_days; case_match; lia|]. destruct Hd as [_ Hd]. revert Hd. unfold month_days. repeat case_match; lia. }
  rewrite iso_week_pure by lia.
  destruct (month_day_spec (leap y) yd Hb) as (m' & d' & Emd & Hm' & Hd' & E').
  assert (m' = m ∧ d' = d) as [-> ->] by (destruct (before_inj (leap y) m d m' d'); [done..|lia|done]).
  rewrite (iso_check (leap y) (leap (y - 1)) yd w m d Hb Hw Emd). unfold iso_spec.
  assert (∀ yy k, absoluteZeroYear <= yy → 0 <= k < year_days (leap yy) → ∃ m' d', valid_date yy m' d' ∧
     day_number yy m' d' = year_start (yy - absoluteZeroYear) + k ∧ before (leap yy) m' + d' - 1 = k) as Hdate.
  { intros yy k Hyy Hk. destruct (month_day_spec (leap yy) k Hk) as (a & b & _ & Ha & Hbb & ->). exists a, b.
    split; [by split|]. unfold day_number. split; [lia|done]. }
  assert (n = year_start (y - absoluteZeroYear) + yd) as En by (unfold n, day_number, yd; lia).
  assert (∀ b, 365 <= year_days b) as Hmin by (intros []; simpl; lia).
  destruct (Z.ltb_spec (yd - w + 3) 0) as [Hneg|Hpos]; [|destruct (Z.leb_spec (year_days (leap y)) (yd - w + 3)) as [Hge|Hlt]].
  - pose proof (Hmin (leap (y - 1))). destruct (Hdate (y - 1) (yd - w + 3 + year_days (leap (y - 1))) ltac:(lia) ltac:(lia)) as (a & b & Hab & Enum & Ek).
    exists (y - 1), a, b. split; [done|]. rewrite Ek. split; [|f_equal; lia]. rewrite Enum.
    pose proof (year_start_step (y - 1 - absoluteZeroYear) ltac:(lia)) as Hst.
    replace (y - 1 - absoluteZeroYear + 1) with (y - absoluteZeroYear) in Hst by lia.
    replace (y - 1 - absoluteZeroYear + absoluteZeroYear) with (y - 1) in Hst by lia. fold w. lia.
  - pose proof (Hmin (leap (y + 1))). destruct (Hdate (y + 1) (yd - w + 3 - year_days (leap y)) ltac:(lia) ltac:(lia)) as (a & b & Hab & Enum & Ek).
    exists (y + 1), a, b. split; [done|]. rewrite Ek. split; [|f_equal; lia]. rewrite Enum.
    pose proof (year_start_step (y - absoluteZeroYear) ltac:(lia)) as Hst.
    replace (y + 1 - absoluteZeroYear) with (y - absoluteZeroYear + 1) by lia.
    replace (y - absoluteZeroYear + absoluteZeroYear) with y in Hst by lia. fold w. lia.
  - destruct (Hdate y (yd - w + 3) ltac:(lia) ltac:(lia)) as (a & b & Hab & Enum & Ek).
    exists y, a, b. split; [done|]. rewrite Ek. split; [|f_equal; lia]. rewrite Enum. fold w. lia.
Qed.

(** * Date and back *)

Section Date.
Context (host : Z) (Hhost : 32 <= host) (localLoc : Location).
Context (l : locptr) (Hl : l ≠ loc_nil) (Hsound : sound_location (get localLoc l)).
Context (year month day hour min sec nsec : Z).
Context (Hmod : moderate year ∧ moderate month ∧ moderate day ∧ moderate hour ∧ moderate min ∧ moderate sec ∧ moderate nsec).

Lemma unix_of_bound : - 2 ^ 57 < unix_of year month day hour min sec nsec < 2 ^ 57.
Proof.
  unfold moderate in Hmod. unfold unix_of, day_number.
  set (y := year + (month - 1) / 12). set (m := (month - 1) mod 12 + 1).
  assert (- 2 ^ 30 - 2 ^ 28 <= y <= 2 ^ 30 + 2 ^ 28) as Hyy by (unfold y; lia_div).
  assert (1 <= m <= 12) as Hm by (unfold m; lia_div).
  assert (0 <= before (leap y) m <= 366) as Hb.
  { assert (1 <= month_days (leap y) m) by (unfold month_days; repeat case_match; lia).
    pose proof (before_bound (leap y) m 1 Hm ltac:(lia)) as Hb. unfold year_days in Hb. destruct (leap y); lia. }
  assert (-2 <= nsec / 1000000000 <= 2) as Hns by lia_div.
  change (absoluteToInternal + internalToUnix) with (-9223372028715321600).
  clearbody y m. unfold year_start, absoluteZeroYear. lia_div.
Qed.

(** The offset [o] that [Date] takes for the count [U] of the seconds of the local
    time: the one in effect at [U], unless it leads out of the time it is in
    effect, before which or after which another zone is. *)
Definition picked (U o : Z) : Prop :=
  ∃ nm o0 dst st en, lookup (get localLoc l) U = Ret (nm, o0, dst, st, en) ∧
    if decide (U - o0 < st) then offset_of localLoc l (st - 1) o
    else if decide (en <= U - o0) then offset_of localLoc l en o else o = o0.

Lemma Date_spec : ∃ t o,
  Date host localLoc year month day hour min sec nsec l = Ret t ∧ loc t = l ∧ Instant.nsec t = nsec mod 1000000000 ∧
  Instant.sec t = unix_of year month day hour min sec nsec - o + unixToInternal ∧ - 2 ^ 31 < o < 2 ^ 31 ∧
  picked (unix_of year month day hour min sec nsec) o.
Proof.
  pose proof unix_of_bound as HU. set (U := unix_of year month day hour min sec nsec) in *.
  destruct Hmod as (Hy & Hmo & Hd & Hh & Hmi & Hs & Hn).
  pose proof (date_unix_spec host Hhost year month day hour min sec nsec Hy Hmo Hd Hh Hmi Hs Hn) as EU. fold U in EU.
  assert (∀ o, - 2 ^ 31 < o < 2 ^ 31 → picked U o → ∃ t,
    Ret {| Instant.sec := i64 (i64 (U - o) + unixToInternal); Instant.nsec := i32 (nsec mod 1000000000); loc := l |} = Ret t ∧
    loc t = l ∧ Instant.nsec t = nsec mod 1000000000 ∧ Instant.sec t = U - o + unixToInternal ∧ - 2 ^ 31 < o < 2 ^ 31 ∧ picked U o) as Hend.
  { intros o Ho Hof. eexists. split; [done|]. cbn [loc Instant.nsec Instant.sec]. change unixToInternal with 62135596800.
    pose proof (Z.mod_pos_bound nsec 1000000000 ltac:(lia)). rewrite (i64_id (U - o)), i32_id by (unfold is_duration; lia).
    rewrite i64_id by (unfold is_duration; lia). done. }
  unfold Date. rewrite EU.
  destruct (lookup_offset (get localLoc l) U Hsound) as (nm & o & dst & st & en & EL & Ho).
  assert (alpha <= U < omega) as HUr by (unfold alpha, omega; lia).
  destruct (lookup_interval _ _ _ _ _ _ _ (sound_wf _ Hsound) HUr EL) as (Hst & Hen & _). unfold alpha in Hst.
  assert (∀ o1, (if decide (U - o < st) then offset_of localLoc l (st - 1) o1
    else if decide (en <= U - o) then offset_of localLoc l en o1 else o1 = o) → picked U o1) as Hpick
    by (intros o1 H1; by exists nm, o, dst, st, en).
  assert (∀ m : go Time, m = (match l with loc_nil => Panic "time: missing Location in call to Date" | _ => m end)) as Hm by (by intros m; destruct l).
  rewrite go_bind_ret. cbv zeta. rewrite EL, go_bind_ret, <- Hm.
  destruct (Z.eqb_spec o 0) as [->|Hoz]; cbn [negb].
  - rewrite go_bind_ret. destruct (Hend 0 ltac:(lia)) as (t & E & H); [apply Hpick; by rewrite !decide_False by lia|]. exists t, 0.
    rewrite Z.sub_0_r, (i64_id U) in E by (unfold is_duration; lia). done.
  - rewrite (i64_id (U - o)) by (unfold is_duration; lia). destruct (Z.ltb_spec (U - o) st) as [Hlt|Hge].
    + rewrite (i64_id (st - 1)) by (unfold is_duration; lia). destruct (lookup_offset (get localLoc l) (st - 1) Hsound) as (nm' & o' & dst' & st' & en' & EL' & Ho').
      rewrite EL', !go_bind_ret. destruct (Hend o' Ho') as (t & E & H); [apply Hpick; rewrite decide_True by lia; by eexists _, _, _, _|]. by exists t, o'.
    + destruct (Z.leb_spec en (U - o)) as [Hle|Hgt].
      * destruct (lookup_offset (get localLoc l) en Hsound) as (nm' & o' & dst' & st' & en' & EL' & Ho').
        rewrite EL', !go_bind_ret. destruct (Hend o' Ho') as (t & E & H); [apply Hpick; rewrite decide_False, decide_True by lia; by eexists _, _, _, _|]. by exists t, o'.
      * rewrite !go_bind_ret. destruct (Hend o Ho) as (t & E & H); [apply Hpick; by rewrite !decide_False by lia|]. by exists t, o.
Qed.
End Date.

Lemma read_date host localLoc t o y m d s :
  32 <= host → sound_location (get localLoc (loc t)) → offset_of localLoc (loc t) (Time_Unix t) o →
  valid_date y m d → - 2 ^ 31 + 2 <= y <= 2 ^ 31 - 2 → 0 <= s < 86400 → - 2 ^ 62 <= sec t <= 2 ^ 62 →
  sec t + o + internalToAbsolute = day_number y m d * 86400 + s →
  Time_Date host localLoc t = Ret (y, m, d) ∧ YearDay host localLoc t = Ret (before (leap y) m + d) ∧
  Clock host localLoc t = Ret (s / 3600, s / 60 mod 60, s mod 60) ∧
  Weekday host localLoc t = Ret ((day_number y m d + 1) mod 7) ∧
  ∃ y' m' d', valid_date y' m' d' ∧ day_number y' m' d' = day_number y m d - day_number y m d mod 7 + 3 ∧
    ISOWeek host localLoc t = Ret (y', (before (leap y') m' + d' - 1) / 7 + 1).
Proof.
  intros Hh Hs Ho Hv Hy Hsec Ht E. pose proof (abs_spec localLoc t o Hs Ho Ht) as Ea. rewrite E in Ea.
  assert (in_range host y) as Hyr by (apply (host_range host Hh); lia).
  assert (0 <= day_number y m d) as H0.
  { destruct (day_number_bound y m d Hv) as [Hb Hn]. unfold day_number.
    pose proof (year_start_mono 0 (y - absoluteZeroYear) ltac:(lia)). change (year_start 0) with 0 in *. lia. }
  assert (- 2 ^ 31 < o < 2 ^ 31) as Hob.
  { destruct (lookup_offset _ (Time_Unix t) Hs) as (n & o' & dd & st & en & EL & Hob).
    assert (o = o') as ->; [|done]. apply (offset_of_det localLoc (loc t) (Time_Unix t)); [done|]. by eexists _, _, _, _. }
  change internalToAbsolute with 9223371966579724800 in E.
  assert (day_number y m d * 86400 + s + 86400 < 2 ^ 64) as Hlt by lia.
  assert (date host localLoc t true = Ret (y, m, d, before (leap y) m + d - 1)) as Ed.
  { unfold date. rewrite Ea, go_bind_ret. by rewrite (absDate_spec host Hh) by (done || lia). }
  assert (Weekday host localLoc t = Ret ((day_number y m d + 1) mod 7)) as Ew.
  { unfold Weekday. rewrite Ea, go_bind_ret. by rewrite (absWeekday_spec host Hh) by (done || lia). }
  assert (before (leap y) m + d <= 366) as Hyd.
  { destruct (day_number_bound y m d Hv) as [Hb _]. unfold year_days in Hb. destruct (leap y); lia. }
  assert (0 <= before (leap y) m + d - 1) as Hyd0 by (by destruct (day_number_bound y m d Hv) as [[? _] _]).
  split; [unfold Time_Date; by rewrite Ed|]. split.
  { unfold YearDay, date. rewrite Ea, go_bind_ret, (absDate_spec host Hh), go_bind_ret by (done || lia).
    rewrite (int_id host Hh) by (apply (host_range host Hh); lia). f_equal. lia. }
  split; [unfold Clock; rewrite Ea, go_bind_ret; by rewrite (absClock_spec host Hh) by (done || lia)|]. split; [done|].
  destruct (iso_thursday host y m d Hh Hv ltac:(unfold absoluteZeroYear; lia) Hy) as (y' & m' & d' & Hv' & En & Ei).
  exists y', m', d'. split; [done|]. split; [done|]. unfold ISOWeek. rewrite Ed, go_bind_ret, Ew, go_bind_ret. cbv zeta.
  set (n := day_number y m d) in *. pose proof (Z.mod_pos_bound (n + 1) 7 ltac:(lia)).
  rewrite (int_id host Hh) by (apply (host_range host Hh); lia).
  replace (Z.rem ((n + 1) mod 7 + 6) 7) with (n mod 7) by lia_div. by rewrite Ei.
Qed.

Lemma unix_of_valid y m d hh mi ss ns : valid_date y m d → 0 <= ns < 1000000000 →
  unix_of y m d hh mi ss ns = day_number y m d * 86400 + (hh * 3600 + mi * 60 + ss) + (absoluteToInternal + internalToUnix).
Proof.
  intros (_ & Hm & _) Hn. unfold unix_of. replace ((m - 1) / 12) with 0 by lia_div. replace ((m - 1) mod 12) with (m - 1) by lia_div.
  rewrite (Z.div_small ns) by lia. unfold day_number. rewrite !Z.add_0_r. replace (m - 1 + 1) with m by lia. lia.
Qed.

(** Where zones last long enough, [Date] finds an instant whose local time it is given,
    if there is one. *)
Lemma picked_local ll l Y U o s o' : sound_location (get ll l) → steady (get ll l) Y → - 2 ^ 57 < U < 2 ^ 57 →
  picked ll l U o → offset_of ll l s o' → s + o' = U → offset_of ll l (U - o) o.
Proof.
  intros Hs Hst HU (n0 & o0 & d0 & st & en & E0 & Ho) Hs' HsU. pose proof (sound_wf _ Hs) as Hwf.
  assert (- 2 ^ 31 < o' < 2 ^ 31 ∧ - Y <= o' <= Y) as [Hob HY].
  { destruct (lookup_offset _ s Hs) as (n & o1 & d & st1 & en1 & E & Hob). assert (o' = o1) as -> by (eapply offset_of_det; [done|by eexists _, _, _, _]).
    split; [done|]. apply (lookup_steady _ _ _ _ _ _ _ _ Hwf Hst E). }
  pose proof (lookup_steady _ _ _ _ _ _ _ _ Hwf Hst E0) as [HY0 Hlen0]. pose proof (steady_nonneg _ _ Hst) as Hpos.
  assert (- 2 ^ 31 < o0 < 2 ^ 31) as Ho0.
  { destruct (lookup_offset _ U Hs) as (n & o1 & d & st1 & en1 & E & Hob1). rewrite E in E0. by injection E0 as _ <- _ _ _. }
  assert (alpha <= U < omega) as HUr by (unfold alpha, omega; lia).
  destruct (lookup_interval _ _ _ _ _ _ _ Hwf HUr E0) as (H0st & H0en & H0).
  unfold alpha, omega in *.
  assert (st <= s < en → s = U - o0) as Hin.
  { intros H. assert (o' = o0); [|lia]. eapply offset_of_det; [exact Hs'|]. eexists _, _, _, _. apply H0; lia. }
  assert (∀ p, - 2 ^ 63 <= p < 2 ^ 63 - 1 → offset_of ll l p o → (∃ n d st1 en1, lookup (get ll l) p = Ret (n, o, d, st1, en1) ∧
    - 2 ^ 63 <= st1 <= p ∧ p < en1 ∧ (- 2 ^ 63 < st1 → en1 < 2 ^ 63 - 1 → 2 * Y < en1 - st1) ∧
    ∀ s', - 2 ^ 63 <= s' → st1 <= s' < en1 → lookup (get ll l) s' = Ret (n, o, d, st1, en1))) as Hnext.
  { intros p Hp (n & d & st1 & en1 & E). exists n, d, st1, en1. pose proof (lookup_interval _ _ _ _ _ _ _ Hwf Hp E) as (? & ? & ?).
    pose proof (lookup_steady _ _ _ _ _ _ _ _ Hwf Hst E) as [_ ?].
    split; [done|]. split; [done|]. split; [done|]. by split. }
  case_decide as Hd; [|case_decide as Hd2].
  - destruct (Hnext (st - 1) ltac:(lia) Ho) as (n & d & st1 & en1 & E & H1st & H1en & Hlen1 & H1).
    assert (en1 <= st) as Hadj.
    { destruct (decide (en1 <= st)); [done|]. pose proof (H1 st ltac:(lia) ltac:(lia)) as Ea. rewrite (H0 st) in Ea by lia. injection Ea. lia. }
    assert (s < st) by (destruct (decide (s < st)); [done|]; destruct (decide (s < en)); [specialize (Hin ltac:(lia))|specialize (Hlen0 ltac:(lia) ltac:(lia))]; lia).
    assert (st1 <= s) by (destruct (decide (st1 <= s)); [done|]; specialize (Hlen1 ltac:(lia) ltac:(lia)); lia).
    assert (o' = o) as <-; [|by replace (U - o') with s by lia].
    eapply offset_of_det; [exact Hs'|]. eexists _, _, _, _. apply H1; lia.
  - destruct (Hnext en ltac:(lia) Ho) as (n & d & st1 & en1 & E & H1st & H1en & Hlen1 & H1).
    assert (en <= st1) as Hadj.
    { destruct (decide (en <= st1)); [done|]. pose proof (H1 (en - 1) ltac:(lia) ltac:(lia)) as Ea. rewrite (H0 (en - 1)) in Ea by lia. injection Ea. lia. }
    assert (en <= s) by (destruct (decide (en <= s)); [done|]; destruct (decide (st <= s)); [specialize (Hin ltac:(lia))|specialize (Hlen0 ltac:(lia) ltac:(lia))]; lia).
    assert (s < en1) by (destruct (decide (s < en1)); [done|]; specialize (Hlen1 ltac:(lia) ltac:(lia)); lia).
    assert (o' = o) as <-; [|by replace (U - o') with s by lia].
    eapply offset_of_det; [exact Hs'|]. eexists _, _, _, _. apply H1; lia.
  - subst o. eexists _, _, _, _. apply H0; lia.
Qed.

(** In any case the offset is one in effect within the offset at [U] of it. *)
Lemma picked_near ll l U o : sound_location (get ll l) → - 2 ^ 57 < U < 2 ^ 57 → picked ll l U o →
  ∃ s o0, offset_of ll l U o0 ∧ offset_of ll l s o ∧ Z.abs (s - U) <= Z.abs o0.
Proof.
  intros Hs HU (n0 & o0 & d0 & st & en & E0 & Ho).
  assert (alpha <= U < omega) as HUr by (unfold alpha, omega; lia).
  destruct (lookup_interval _ _ _ _ _ _ _ (sound_wf _ Hs) HUr E0) as (H0st & H0en & _).
  repeat case_decide; [exists (st - 1), o0|exists en, o0|exists U, o0; subst o]; (split; [by eexists _, _, _, _|]; split; [|lia]); try done.
  by eexists _, _, _, _.
Qed.

(** The time reads as the date and clock. *)
Definition reads (host : Z) (localLoc : Location) (t : Time) (y m d hh mi ss : Z) : Prop :=
  Time_Date host localLoc t = Ret (y, m, d) ∧ Clock host localLoc t = Ret (hh, mi, ss) ∧
  YearDay host localLoc t = Ret (before (leap y) m + d) ∧ Weekday host localLoc t = Ret ((day_number y m d + 1) mod 7) ∧
  ∃ y' m' d', valid_date y' m' d' ∧ day_number y' m' d' = day_number y m d - day_number y m d mod 7 + 3 ∧
    ISOWeek host localLoc t = Ret (y', (before (leap y') m' + d' - 1) / 7 + 1).

(** C27: [Date] returns the time of the date and clock it is given, any of them out
    of its usual range counted on into the next: the count of seconds is that
    of the calendar, [U], less an offset [o] of the location that is in effect not further from [U]
    than the offset at [U]. Where there is an instant whose local time
    is the one given, and zones last for more than twice the largest offset ([steady]),
    the offset in effect at the time returned is [o], whichever side of a transition it is on; in UTC and
    fixed zones always. The time then reads back as the date and clock given: [Time.Date], [Clock],
    [YearDay], [Weekday], and [ISOWeek], which is the year and week of the Thursday of its week. *)
Theorem Date_reads_back host localLoc l y m d hh mi ss ns :
  32 <= host → l ≠ loc_nil → sound_location (get localLoc l) →
  moderate y ∧ moderate m ∧ moderate d ∧ moderate hh ∧ moderate mi ∧ moderate ss ∧ moderate ns →
  let U := unix_of y m d hh mi ss ns in
  ∃ t o, Date host localLoc y m d hh mi ss ns l = Ret t ∧ loc t = l ∧ Instant.nsec t = ns mod 1000000000 ∧
    Instant.sec t = U - o + unixToInternal ∧
    (∃ s o', offset_of localLoc l U o' ∧ offset_of localLoc l s o ∧ Z.abs (s - U) <= Z.abs o') ∧
    (l = loc_utc ∨ (∃ n k, l = loc_at (FixedZone n k)) → offset_of localLoc l (Time_Unix t) o) ∧
    (∀ Y s o', steady (get localLoc l) Y → offset_of localLoc l s o' → s + o' = U → offset_of localLoc l (Time_Unix t) o) ∧
    (valid_date y m d → 0 <= hh < 24 → 0 <= mi < 60 → 0 <= ss < 60 → 0 <= ns < 1000000000 →
     offset_of localLoc l (Time_Unix t) o → reads host localLoc t y m d hh mi ss).
Proof.
  intros Hh Hl Hs Hmod U. destruct (Date_spec host Hh localLoc l Hl Hs y m d hh mi ss ns Hmod) as (t & o & E & El & En & Es & Hob & Hp).
  fold U in Es, Hp. pose proof (unix_of_bound y m d hh mi ss ns Hmod) as HU. fold U in HU.
  assert (Time_Unix t = U - o) as Et.
  { unfold Time_Unix. rewrite Es. change internalToUnix with (-62135596800). change unixToInternal with 62135596800.
    rewrite i64_id by (unfold is_duration; lia). lia. }
  exists t, o. split; [done|]. split; [done|]. split; [done|]. split; [done|]. pose proof (picked_near _ _ _ _ Hs HU Hp) as Hnear.
  split; [done|]. split; [|split].
  - destruct Hnear as (s & o0 & _ & Ho & _). intros [->|(n & k & ->)].
    + destruct Ho as (? & ? & ? & ? & Ho). injection Ho as _ <- _ _ _. by eexists _, _, _, _.
    + rewrite (offset_of_det _ _ _ _ _ Ho (fixed_offset localLoc n k s)). apply fixed_offset.
  - intros Y s o' Hst Ho' HsU. rewrite Et. by apply (picked_local localLoc l Y U o s o').
  - intros Hv Hhh Hmi Hss Hns Hoff. subst l. unfold U in *. rewrite unix_of_valid in Es, HU by done.
    change (absoluteToInternal + internalToUnix) with (-9223372028715321600) in *. change unixToInternal with 62135596800 in *.
    destruct Hmod as (Hy & _). unfold moderate in Hy.
    destruct (read_date host localLoc t o y m d (hh * 3600 + mi * 60 + ss) Hh Hs Hoff Hv) as (Hd & Hyd & Hc & Hw & Hi); [lia|lia|lia| |].
    { change internalToAbsolute with 9223371966579724800. lia. }
    split; [done|]. split; [|done]. rewrite Hc. f_equal. f_equal; [f_equal|]; lia_div.
Qed.

(** Paris in 2015: summer time begins on 29 March at one o'clock, universal time. *)
Definition paris : Location :=
  let z n o d := {| zone_name := n; offset := o; isDST := d |} in
  let t w i := {| when := w; index := i; isstd := false; isutc := false |} in
  {| Zone.name := str "Paris"; zones := [z (str "CET") 3600 false; z (str "CEST") 7200 true];
     tx := [t 0 0; t 1427590800 1]; cacheStart := 0; cacheEnd := 0; cacheZone := None |}.

Lemma paris_tx i t : (tx paris).[i] = Some t → i = 0 ∧ when t = 0 ∧ index t = 0 ∨ i = 1 ∧ when t = 1427590800 ∧ index t = 1.
Proof.
  intros H. pose proof (nthZ_Some _ _ _ H) as Hi. change (zlen (tx paris)) with 2 in Hi.
  assert (i = 0 ∨ i = 1) as [-> | ->] by lia; vm_compute in H; injection H as <-; auto.
Qed.
Lemma paris_sound : sound_location paris ∧ steady paris 43200.
Proof.
  assert (∀ z, z ∈ zones paris → offset z = 3600 ∨ offset z = 7200) as Hz.
  { intros z Hz. unfold paris in Hz. simpl in Hz. rewrite !elem_of_cons in Hz. destruct Hz as [-> |[-> |[]%not_elem_of_nil]]; auto. }
  split; split; try done.
  - split; [|intros i t H%paris_tx; unfold alpha, omega; lia|intros i t H%paris_tx; change (zlen (zones paris)) with 2; lia|done].
    intros i j t u Hij H1%paris_tx H2%paris_tx. lia.
  - intros z H%Hz. lia.
  - intros z H%Hz. lia.
  - intros i t u H1%paris_tx H2%paris_tx. lia.
Qed.

(** Half past one local time is before the transition, but as universal time after it. *)
Example Date_reads_back_witness :
  ∃ t, Date 32 utcLoc 2015 3 29 1 30 0 7 (loc_at paris) = Ret t ∧ Time_Unix t = 1427590800 - 1800 ∧
    Time_Date 32 utcLoc t = Ret (2015, 3, 29) ∧ Clock 32 utcLoc t = Ret (1, 30, 0).
Proof.
  destruct paris_sound as [Hs Hst].
  destruct (Date_reads_back 32 utcLoc (loc_at paris) 2015 3 29 1 30 0 7) as (t & o & E & _ & _ & _ & _ & _ & Hoff & H);
    [lia|done|exact Hs|unfold moderate; lia|].
  exists t. split; [exact E|].
  assert (offset_of utcLoc (loc_at paris) (Time_Unix t) o) as Ho.
  { apply (Hoff 43200 (1427590800 - 1800) 3600 Hst); [|by vm_compute]. eexists _, _, _, _. vm_compute. reflexivity. }
  destruct H as (Hd & Hc & _); [vm_compute; repeat split; discriminate|lia|lia|lia|lia|exact Ho|].
  split; [|by split]. vm_compute in E. injection E as <-. by vm_compute.
Defined.

(** * The binary form *)

Lemma lor_low k b c : 0 <= k → 0 <= b < 2 ^ k → c mod 2 ^ k = 0 → Z.lor b c = b + c.
Proof. intros. rewrite Z.lor_comm, lor_high_add with (k := k) by done. lia. Qed.

(** The bytes of a word, from the most significant one. *)
Lemma be_bytes x k : 0 <= k → u8 (Z.shiftr x k) = x / 2 ^ k mod 256.
Proof. intros. by rewrite Z.shiftr_div_pow2. Qed.

Lemma swrap_top w k b : 0 < k → w = k + 8 → 0 <= b < 256 → swrap w (b * 2 ^ k) = (if b <? 128 then b else b - 256) * 2 ^ k.
Proof.
  intros Hk -> Hb. assert (2 ^ (k + 8 - 1) = 128 * 2 ^ k) as E1 by (replace (k + 8 - 1) with (7 + k) by lia; by rewrite Z.pow_add_r by lia).
  assert (0 < 2 ^ k) by (by apply Z.pow_pos_nonneg; lia).
  destruct (Z.ltb_spec b 128).
  - apply swrap_small; [rewrite E1; nia|lia].
  - unfold swrap. rewrite E1. assert (2 ^ (k + 8) = 256 * 2 ^ k) as -> by (rewrite Z.pow_add_r by lia; lia).
    replace (b * 2 ^ k + 128 * 2 ^ k) with ((b - 256) * 2 ^ k + 128 * 2 ^ k + 1 * (256 * 2 ^ k)) by lia.
    rewrite Z.mod_add by lia. rewrite Z.mod_small by nia. lia.
Qed.

Lemma be16_enc x rest : - 2 ^ 15 <= x < 2 ^ 15 → be16 (u8 (Z.shiftr x 8) :: u8 x :: rest) 0 = Ret x.
Proof.
  intros Hx. unfold be16. change (0 + 1) with 1. rewrite (idx_Some _ 1 (u8 x)) by done. rewrite go_bind_ret.
  rewrite (idx_Some _ 0 (u8 (Z.shiftr x 8))) by done. rewrite go_bind_ret. f_equal.
  rewrite be_bytes, Z.shiftl_mul_pow2, (swrap_top 16 8) by (lia || (apply Z.mod_pos_bound; lia)).
  unfold wrap. rewrite (lor_low 8); [destruct (Z.ltb_spec (x / 2 ^ 8 mod 256) 128); lia_div|lia|lia_div|lia_div].
Qed.

Lemma be32_enc x rest : - 2 ^ 31 <= x < 2 ^ 31 →
  be32 (u8 (Z.shiftr x 24) :: u8 (Z.shiftr x 16) :: u8 (Z.shiftr x 8) :: u8 x :: rest) 0 = Ret x.
Proof.
  intros Hx. unfold be32. change (0 + 1) with 1. change (0 + 2) with 2. change (0 + 3) with 3.
  rewrite (idx_Some _ 3 (u8 x)), (idx_Some _ 2 (u8 (Z.shiftr x 8))), (idx_Some _ 1 (u8 (Z.shiftr x 16))),
    (idx_Some _ 0 (u8 (Z.shiftr x 24))) by done. rewrite !go_bind_ret. f_equal.
  rewrite !be_bytes, !Z.shiftl_mul_pow2, (swrap_top 32 24) by (lia || (apply Z.mod_pos_bound; lia)). unfold wrap.
  set (b0 := x mod 2 ^ 8). set (b1 := x / 2 ^ 8 mod 256). set (b2 := x / 2 ^ 16 mod 256). set (b3 := x / 2 ^ 24 mod 256).
  assert (∃ q, x = b0 + b1 * 2 ^ 8 + b2 * 2 ^ 16 + b3 * 2 ^ 24 + q * 2 ^ 32 ∧ 0 <= b0 < 256 ∧ 0 <= b1 < 256 ∧ 0 <= b2 < 256 ∧ 0 <= b3 < 256)
    as (q & E & H0 & H1 & H2 & H3) by (exists (x / 2 ^ 32); subst b0 b1 b2 b3; lia_div).
  clearbody b0 b1 b2 b3. rewrite !i32_id by lia.
  rewrite (lor_low 8 b0 (b1 * 2 ^ 8)) by lia_div. rewrite (lor_low 16 (b0 + _)) by lia_div.
  rewrite (lor_low 24) by (try destruct (Z.ltb_spec b3 128); lia_div). destruct (Z.ltb_spec b3 128); lia.
Qed.

Lemma be64_enc x rest : - 2 ^ 63 <= x < 2 ^ 63 →
  be64 (u8 (Z.shiftr x 56) :: u8 (Z.shiftr x 48) :: u8 (Z.shiftr x 40) :: u8 (Z.shiftr x 32) ::
    u8 (Z.shiftr x 24) :: u8 (Z.shiftr x 16) :: u8 (Z.shiftr x 8) :: u8 x :: rest) 0 = Ret x.
Proof.
  intros Hx. unfold be64. change (0 + 1) with 1. change (0 + 2) with 2. change (0 + 3) with 3.
  change (0 + 4) with 4. change (0 + 5) with 5. change (0 + 6) with 6. change (0 + 7) with 7.
  rewrite (idx_Some _ 7 (u8 x)), (idx_Some _ 6 (u8 (Z.shiftr x 8))), (idx_Some _ 5 (u8 (Z.shiftr x 16))),
    (idx_Some _ 4 (u8 (Z.shiftr x 24))), (idx_Some _ 3 (u8 (Z.shiftr x 32))), (idx_Some _ 2 (u8 (Z.shiftr x 40))),
    (idx_Some _ 1 (u8 (Z.shiftr x 48))), (idx_Some _ 0 (u8 (Z.shiftr x 56))) by done. rewrite !go_bind_ret. f_equal.
  rewrite !be_bytes, !Z.shiftl_mul_pow2, (swrap_top 64 56) by (lia || (apply Z.mod_pos_bound; lia)). unfold wrap.
  set (b0 := x mod 2 ^ 8). set (b1 := x / 2 ^ 8 mod 256). set (b2 := x / 2 ^ 16 mod 256). set (b3 := x / 2 ^ 24 mod 256).
  set (b4 := x / 2 ^ 32 mod 256). set (b5 := x / 2 ^ 40 mod 256). set (b6 := x / 2 ^ 48 mod 256). set (b7 := x / 2 ^ 56 mod 256).
  assert (x = b0 + b1 * 2 ^ 8 + b2 * 2 ^ 16 + b3 * 2 ^ 24 + b4 * 2 ^ 32 + b5 * 2 ^ 40 + b6 * 2 ^ 48 + b7 * 2 ^ 56 + x / 2 ^ 64 * 2 ^ 64) as E
    by (subst b0 b1 b2 b3 b4 b5 b6 b7; lia_div).
  assert (∀ y, 0 <= y mod 256 < 256) as Hb by (intros; apply Z.mod_pos_bound; lia).
  pose proof (Hb x) as H0. pose proof (Hb (x / 2 ^ 8)) as H1. pose proof (Hb (x / 2 ^ 16)) as H2. pose proof (Hb (x / 2 ^ 24)) as H3.
  pose proof (Hb (x / 2 ^ 32)) as H4. pose proof (Hb (x / 2 ^ 40)) as H5. pose proof (Hb (x / 2 ^ 48)) as H6. pose proof (Hb (x / 2 ^ 56)) as H7.
  fold b1 in H1. fold b2 in H2. fold b3 in H3. fold b4 in H4. fold b5 in H5. fold b6 in H6. fold b7 in H7. change (x mod 256) with b0 in H0.
  generalize dependent (x / 2 ^ 64). clearbody b0 b1 b2 b3 b4 b5 b6 b7. clear Hb. intros q E.
  rewrite !i64_id by (unfold is_duration; lia).
  assert (∀ c k, 0 <= k → (c * 2 ^ k) mod 2 ^ k = 0) as Hm by (intros c k Hk; apply Z.mod_mul; apply Z.pow_nonzero; lia).
  rewrite (lor_low 8 b0 (b1 * 2 ^ 8)) by (lia || (apply Hm; lia)). rewrite (lor_low 16 (b0 + b1 * 2 ^ 8)) by (lia || (apply Hm; lia)).
  rewrite (lor_low 24 (_ + _)) by (lia || (apply Hm; lia)). rewrite (lor_low 32 (_ + _)) by (lia || (apply Hm; lia)).
  rewrite (lor_low 40 (_ + _)) by (lia || (apply Hm; lia)). rewrite (lor_low 48 (_ + _)) by (lia || (apply Hm; lia)).
  rewrite (lor_low 56 (_ + _)) by (lia || (apply Hm; lia)). destruct (Z.ltb_spec b7 128); lia.
Qed.

Section binary.
Context (host : Z) (Hhost : 32 <= host) (localLoc : Location) (Hlocal : sound_location localLoc).

(** What decoding does with the words it reads. *)
Definition decoded (sec nsec off : Z) : go (Time + time_error) :=
  l ← (if swrap host (off * 60) =? -1 * 60 then Ret loc_utc else
       '(_, localoff, _, _, _) ← lookup localLoc (i64 (sec + internalToUnix));
       if swrap host (off * 60) =? localoff then Ret loc_local else Ret (loc_at (FixedZone [] (swrap host (off * 60)))));
  Ret (inl {| Instant.sec := sec; Instant.nsec := nsec; loc := l |}).

Lemma Unmarshal_encode sec nsec off :
  - 2 ^ 63 <= sec < 2 ^ 63 → - 2 ^ 31 <= nsec < 2 ^ 31 → - 2 ^ 15 <= off < 2 ^ 15 →
  UnmarshalBinary host localLoc (encode_time sec nsec off) = decoded sec nsec off.
Proof.
  intros Hs Hn Ho. unfold UnmarshalBinary, encode_time. cbv zeta.
  rewrite (idx_Some _ 0 timeBinaryVersion) by done. rewrite go_bind_ret. cbn [zlen length].
  change (negb (timeBinaryVersion =? timeBinaryVersion)) with false. cbv iota.
  set (b64 := [u8 (Z.shiftr sec 56); u8 (Z.shiftr sec 48); u8 (Z.shiftr sec 40); u8 (Z.shiftr sec 32);
   u8 (Z.shiftr sec 24); u8 (Z.shiftr sec 16); u8 (Z.shiftr sec 8); u8 sec;
   u8 (Z.shiftr nsec 24); u8 (Z.shiftr nsec 16); u8 (Z.shiftr nsec 8); u8 nsec; u8 (Z.shiftr off 8); u8 off]).
  change (slice_from (timeBinaryVersion :: b64) 1) with (Ret b64). rewrite go_bind_ret.
  subst b64. rewrite be64_enc by done. rewrite go_bind_ret.
  match goal with |- context [slice_from ?l 8] => change (slice_from l 8) with
    (Ret [u8 (Z.shiftr nsec 24); u8 (Z.shiftr nsec 16); u8 (Z.shiftr nsec 8); u8 nsec; u8 (Z.shiftr off 8); u8 off]) end.
  rewrite go_bind_ret, be32_enc, go_bind_ret by done.
  match goal with |- context [slice_from ?l 4] => change (slice_from l 4) with (Ret [u8 (Z.shiftr off 8); u8 off]) end.
  by rewrite go_bind_ret, be16_enc, go_bind_ret by done.
Qed.

Lemma decoded_spec sec nsec off : - 2 ^ 15 <= off < 2 ^ 15 →
  decoded sec nsec off ⇓ λ r, ∃ u, r = inl u ∧ Instant.sec u = sec ∧ Instant.nsec u = nsec ∧
    (loc u = loc_utc ↔ off = -1) ∧ (off ≠ -1 → offset_of localLoc (loc u) (i64 (sec + internalToUnix)) (off * 60)).
Proof.
  intros Ho. unfold decoded. rewrite (int_id host Hhost) by (apply (host_range host Hhost); lia).
  destruct (Z.eqb_spec (off * 60) (-1 * 60)); [simpl; eexists; split; [done|]; simpl; split; [done|]; split; [done|]; split; [split; [lia|done]|lia]|].
  destruct (lookup_offset _ (i64 (sec + internalToUnix)) Hlocal) as (n' & o & d & st & en & E & Hb). rewrite E, go_bind_ret.
  destruct (Z.eqb_spec (off * 60) o) as [<-|]; simpl; eexists; (split; [done|]); simpl; (split; [done|]); (split; [done|]);
    (split; [split; [done|lia]|]); intros _; [by eexists _, _, _, _|apply fixed_offset].
Qed.

Lemma Unmarshal_total data :
  UnmarshalBinary host localLoc data ⇓ λ r,
    if zlen data =? 0 then r = inr no_data else
    if negb (bool_decide (data.[0] = Some timeBinaryVersion)) then r = inr unsupported_version else
    if negb (zlen data =? 15) then r = inr invalid_length else ∃ u, r = inl u.
Proof.
  destruct data as [|v rest]; [done|]. unfold UnmarshalBinary. cbv zeta. rewrite (idx_Some _ 0 v), go_bind_ret by done.
  change ((v :: rest).[0]) with (Some v). change (1 + 8 + 4 + 2) with 15.
  destruct (zlen (v :: rest) =? 0) eqn:E0; [by apply Z.eqb_eq, zlen_nil_inv in E0|]. clear E0.
  destruct (Z.eqb_spec v timeBinaryVersion) as [->|Hv]; cbn [negb]; [|by rewrite bool_decide_false by congruence].
  rewrite bool_decide_true by done. cbn [negb]. destruct (Z.eqb_spec (zlen (timeBinaryVersion :: rest)) 15) as [E|]; [|done]. cbn [negb].
  assert (length rest = 14)%nat as E' by (unfold zlen in E; simpl in E; lia).
  do 14 (destruct rest as [|? rest]; [done|]). destruct rest; [clear E E'|discriminate E'].
  match goal with |- context [slice_from ?l 1] => destruct (slice_from l 1) eqn:E1; try discriminate E1; injection E1 as <- end.
  rewrite go_bind_ret. match goal with |- context [be64 ?l 0] => destruct (be64 l 0) as [s| |] eqn:E2; try discriminate E2; clear E2 end.
  rewrite go_bind_ret. match goal with |- context [slice_from ?l 8] => destruct (slice_from l 8) eqn:E1; try discriminate E1; injection E1 as <- end.
  rewrite go_bind_ret. match goal with |- context [be32 ?l 0] => destruct (be32 l 0) as [n| |] eqn:E2; try discriminate E2; clear E2 end.
  rewrite go_bind_ret. match goal with |- context [slice_from ?l 4] => destruct (slice_from l 4) eqn:E1; try discriminate E1; injection E1 as <- end.
  rewrite go_bind_ret. match goal with |- context [be16 ?l 0] => destruct (be16 l 0) as [o| |] eqn:E2; try discriminate E2; clear E2 end.
  rewrite go_bind_ret. destruct (swrap host (o * 60) =? -1 * 60); [by eexists|].
  destruct (lookup_offset _ (i64 (s + internalToUnix)) Hlocal) as (? & ? & ? & ? & ? & E & _). rewrite E, go_bind_ret.
  destruct (swrap host (o * 60) =? _); by eexists.
Qed.
End binary.

(** C28: [MarshalBinary] and [UnmarshalBinary]. Marshalling returns on every time:
    an error when the offset of its zone is not a whole number of minutes, is -1
    minutes or does not fit 16 bits, and otherwise fifteen bytes, from which
    unmarshalling reads the same instant back, in UTC exactly when the time was in
    UTC, and at the same offset. Unmarshalling returns on every input too: an
    error on empty data, on another version and on another length than fifteen,
    in this order, and otherwise a time. *)
Theorem Marshal_roundtrip host localLoc :
  32 <= host → sound_location localLoc →
  (∀ t, sound_location (get localLoc (loc t)) → - 2 ^ 63 <= sec t < 2 ^ 63 → 0 <= nsec t < 1000000000 →
    ∃ o, offset_of localLoc (loc t) (Time_Unix t) o ∧
    if bool_decide (Location_ t ≠ loc_utc ∧ Z.rem o 60 ≠ 0) then MarshalBinary localLoc t = Ret (inr fractional_minute)
    else if bool_decide (Location_ t ≠ loc_utc ∧ (Z.quot o 60 < - 2 ^ 15 ∨ Z.quot o 60 = -1 ∨ 2 ^ 15 <= Z.quot o 60))
    then MarshalBinary localLoc t = Ret (inr unexpected_offset)
    else ∃ b u, MarshalBinary localLoc t = Ret (inl b) ∧ zlen b = 15 ∧ UnmarshalBinary host localLoc b = Ret (inl u) ∧
      sec u = sec t ∧ nsec u = nsec t ∧ (loc u = loc_utc ↔ Location_ t = loc_utc) ∧ offset_of localLoc (loc u) (Time_Unix u) o) ∧
  (∀ data, UnmarshalBinary host localLoc data ⇓ λ r,
    if zlen data =? 0 then r = inr no_data else
    if negb (bool_decide (data.[0] = Some timeBinaryVersion)) then r = inr unsupported_version else
    if negb (zlen data =? 15) then r = inr invalid_length else ∃ u, r = inl u).
Proof.
  intros Hh Hl. split; [|apply Unmarshal_total; done]. intros t Ht Hs Hn.
  destruct (lookup_offset _ (Time_Unix t) Ht) as (n & o & d & st & en & E & Hb).
  exists o. split; [by eexists _, _, _, _|].
  assert (Hrt : ∀ off, - 2 ^ 15 <= off < 2 ^ 15 → (off = -1 ↔ Location_ t = loc_utc) → (off ≠ -1 → off * 60 = o) →
    (Location_ t = loc_utc → o = 0) → MarshalBinary localLoc t = Ret (inl (encode_time (sec t) (nsec t) off)) →
    ∃ b u, MarshalBinary localLoc t = Ret (inl b) ∧ zlen b = 15 ∧ UnmarshalBinary host localLoc b = Ret (inl u) ∧
      sec u = sec t ∧ nsec u = nsec t ∧ (loc u = loc_utc ↔ Location_ t = loc_utc) ∧ offset_of localLoc (loc u) (Time_Unix u) o).
  { intros off Ho Hu Hoff H0 Em. destruct (proj1 (wp_ex _ _) (decoded_spec host Hh localLoc Hl (sec t) (nsec t) off Ho)) as (r & Er & u & -> & Es & En & Elu & Elo).
    eexists _, u. split; [exact Em|]. split; [done|]. rewrite Unmarshal_encode by (done || lia). split; [exact Er|].
    split; [done|]. split; [done|]. split; [tauto|]. unfold Time_Unix. rewrite Es.
    destruct (decide (off = -1)) as [E1|E1]; [|rewrite <- (Hoff E1); by apply Elo].
    rewrite (proj2 Elu E1), (H0 (proj1 Hu E1)). by eexists _, _, _, _. }
  destruct (decide (Location_ t = loc_utc)) as [Eu|Eu].
  - rewrite !bool_decide_false by tauto. apply (Hrt (-1)); [lia|done|done| |unfold MarshalBinary; by rewrite Eu].
    intros _. apply (offset_of_det localLoc loc_utc (Time_Unix t)); [|by eexists _, _, _, _].
    destruct (loc t) eqn:El; unfold Location_ in Eu; rewrite El in Eu; try discriminate Eu; by eexists _, _, _, _.
  - assert (Em : MarshalBinary localLoc t = Ret (if negb (Z.rem o 60 =? 0) then inr fractional_minute else
      if (Z.quot o 60 <? -32768) || (Z.quot o 60 =? -1) || (32767 <? Z.quot o 60) then inr unexpected_offset
      else inl (encode_time (sec t) (nsec t) (swrap 16 (Z.quot o 60))))).
    { unfold MarshalBinary, Zone_. fold (Time_Unix t). rewrite E, !go_bind_ret.
      destruct (Location_ t); [|done|..]; (destruct (negb _); [done|]; by destruct (_ || _)). }
    destruct (Z.eqb_spec (Z.rem o 60) 0) as [Er|Er]; cbn [negb] in Em; [rewrite bool_decide_false by tauto|by rewrite bool_decide_true by done].
    destruct (_ || _) eqn:Eb; bool_cases; [by rewrite bool_decide_true by (split; [done|lia])|rewrite bool_decide_false by lia].
    rewrite (swrap_small 16) in Em by lia. apply (Hrt (Z.quot o 60)); [lia|split; [lia|done]|intros; lia_div|done|done].
Qed.

Example Marshal_roundtrip_witness :
  sound_location (get utcLoc cet) ∧ sound_location utcLoc ∧
  ∃ b u, MarshalBinary utcLoc {| sec := 63558867600; nsec := 5; loc := cet |} = Ret (inl b) ∧
    UnmarshalBinary 64 utcLoc b = Ret (inl u) ∧ sec u = 63558867600 ∧ nsec u = 5.
Proof.
  assert (sound_location (get utcLoc cet)) as Hs.
  { split; [apply FixedZone_wf|]. intros z ->%list_elem_of_singleton. simpl. lia. }
  assert (sound_location utcLoc) as Hu by (split; [apply utcLoc_wf|intros z Hz; by apply elem_of_nil in Hz]).
  split; [exact Hs|]. split; [exact Hu|].
  destruct (Marshal_roundtrip 64 utcLoc ltac:(lia) Hu) as [H _].
  destruct (H {| sec := 63558867600; nsec := 5; loc := cet |} Hs ltac:(simpl; lia) ltac:(simpl; lia)) as (o & Ho & H').
  assert (o = 3600) as -> by (apply (offset_of_det _ _ _ _ _ Ho (fixed_offset utcLoc (str "CET") 3600 _))).
  rewrite !bool_decide_false in H' by (intros [_ H0]; revert H0; vm_compute; intuition discriminate).
  destruct H' as (b & u & Em & _ & Eu & Es & En & _). by exists b, u.
Defined.
