(* ===== verification/Threads.v ===== *)
(** Interleavings of goroutines: the atomic operations of [sync/atomic] on 32-bit
    words, the semaphores of [src/src/sync/runtime.go], and counting the
    goroutines at given points of their programs. *)
From S2P Require Import Prelude.
From stdpp Require Export relations.
#[global] Open Scope Z_scope.

(** * Atomic operations and semaphores *)

(** The new contents of the word, with the result. *)
Definition CompareAndSwapInt32 (val old new : Z) : Z * bool := if val =? old then (new, true) else (val, false).
Definition AddInt32 (val delta : Z) : Z := i32 (val + delta).

(** Waits until the count is positive and then decrements it; [None] while it waits. *)
Definition Semacquire (s : Z) : option Z := if 0 <? s then Some (s - 1) else None.
Definition Semrelease (s : Z) : Z := u32 (s + 1).

Lemma CAS_cases val old new (P : Z * bool → Prop) :
  (val = old → P (new, true)) → (val ≠ old → P (val, false)) → P (CompareAndSwapInt32 val old new).
Proof. unfold CompareAndSwapInt32. by destruct (Z.eqb_spec val old); auto. Qed.

(** * Counting goroutines *)

(** The sum of [f] over the goroutines, and the number of those satisfying [P]. *)
Definition total {A} (f : A → Z) (ts : list A) : Z := foldr (λ p s, f p + s) 0 ts.
Definition count {A} (P : A → bool) (ts : list A) : Z := total (λ p, Z.b2z (P p)) ts.

Section total.
Context {A : Type}.
Implicit Types (f g : A → Z) (P : A → bool) (ts : list A).

Lemma total_insert f ts i p q : ts !! i = Some p → total f (<[i:=q]> ts) = total f ts - f p + f q.
Proof.
  revert i. induction ts as [|r ts IH]; intros [|i] H; simpl in *; try done; [injection H as ->; lia|].
  rewrite (IH i H). lia.
Qed.

Lemma total_le f g ts : (∀ p, p ∈ ts → f p <= g p) → total f ts <= total g ts.
Proof.
  induction ts as [|p ts IH]; intros H; simpl; [done|].
  pose proof (H p (list_elem_of_here _ _)). assert (total f ts <= total g ts); [|lia]. apply IH. intros q Hq. apply H. by right.
Qed.

Lemma total_const c ts : total (λ _, c) ts = c * zlen ts.
Proof. unfold zlen. induction ts; simpl; lia. Qed.

Lemma total_add f g ts : total (λ p, f p + g p) ts = total f ts + total g ts.
Proof. induction ts as [|p ts IH]; simpl; lia. Qed.

Lemma count_insert P ts i p q :
  ts !! i = Some p → count P (<[i:=q]> ts) = count P ts - Z.b2z (P p) + Z.b2z (P q).
Proof. apply (total_insert (λ p, Z.b2z (P p))). Qed.

Lemma count_nonneg P ts : 0 <= count P ts.
Proof. induction ts as [|p ts IH]; unfold count in *; simpl; [done|]. destruct (P p); simpl; lia. Qed.

Lemma count_len P ts : count P ts <= zlen ts.
Proof. rewrite <- (Z.mul_1_l (zlen ts)), <- (total_const 1). apply total_le. intros p _. by destruct (P p). Qed.

Lemma count_pos P ts i p : ts !! i = Some p → P p = true → 1 <= count P ts.
Proof.
  intros Hi Hp. pose proof (count_insert P ts i p p Hi) as E. rewrite Hp in E. revert i Hi E.
  induction ts as [|q ts IH]; intros [|i] Hi E; try done; unfold count in *; simpl in *.
  - injection Hi as ->. rewrite Hp. pose proof (count_nonneg P ts). unfold count in *. simpl. lia.
  - specialize (IH i Hi). rewrite (total_insert _ _ _ _ _ Hi), Hp in IH. destruct (P q); simpl in *; lia.
Qed.

Lemma count_zero P ts : count P ts = 0 → ∀ i p, ts !! i = Some p → P p = false.
Proof. intros H i p Hi. destruct (P p) eqn:E; [|done]. pose proof (count_pos P ts i p Hi E). lia. Qed.

Lemma count_ex P ts : 1 <= count P ts → ∃ i p, ts !! i = Some p ∧ P p = true.
Proof.
  induction ts as [|q ts IH]; unfold count; simpl; [lia|]. intros H. destruct (P q) eqn:E; [by exists 0%nat, q|].
  destruct IH as (i & p & Hi & Hp); [unfold count; simpl in H; lia|]. by exists (S i), p.
Qed.

Lemma count_two P ts i j p q :
  i ≠ j → ts !! i = Some p → ts !! j = Some q → P p = true → P q = true → 2 <= count P ts.
Proof.
  revert i j. induction ts as [|a ts IH]; intros [|i] [|j] Hne Hi Hj Hp Hq; try done; unfold count; simpl in *.
  - injection Hi as ->. rewrite Hp. pose proof (count_pos P ts j q Hj Hq). unfold count in *. simpl. lia.
  - injection Hj as ->. rewrite Hq. pose proof (count_pos P ts i p Hi Hp). unfold count in *. simpl. lia.
  - pose proof (IH i j ltac:(congruence) Hi Hj Hp Hq). unfold count in *. destruct (P a); simpl; lia.
Qed.

(** A class without members has no weight, one with a single member has its weight. *)
Lemma total_none f P ts : (∀ p, P p = false → f p = 0) → count P ts = 0 → total f ts = 0.
Proof.
  intros Hf. induction ts as [|p ts IH]; [done|]. unfold count in *. simpl. pose proof (count_nonneg P ts). unfold count in *.
  destruct (P p) eqn:E; simpl; [lia|]. intros. rewrite (Hf p E), IH; lia.
Qed.

Lemma total_sole f P ts i p : (∀ p, P p = false → f p = 0) → count P ts <= 1 → ts !! i = Some p → P p = true → total f ts = f p.
Proof.
  intros Hf. revert i. induction ts as [|q ts IH]; intros [|i] Hc Hi Hp; try done; unfold count in *; simpl in *.
  - injection Hi as ->. rewrite Hp in Hc. simpl in Hc. pose proof (count_nonneg P ts). unfold count in *.
    rewrite (total_none f P ts); [lia|done|unfold count; lia].
  - pose proof (count_pos P ts i p Hi Hp). unfold count in *. destruct (P q) eqn:E; simpl in Hc; [lia|].
    rewrite (Hf q E), (IH i); [lia|lia|done|done].
Qed.

Lemma all_insert (Q : A → Prop) ts (i : nat) q : (∀ (j : nat) p, ts !! j = Some p → Q p) → Q q →
  ∀ (j : nat) p, <[i:=q]> ts !! j = Some p → Q p.
Proof. intros H Hq j p [(_ & <- & _)|(_ & Hj)]%list_lookup_insert_Some; eauto. Qed.

Lemma zlen_insert ts i q : zlen (<[i:=q]> ts) = zlen ts.
Proof. unfold zlen. by rewrite length_insert. Qed.
End total.
