(* ===== verification/Mutex.v ===== *)
(** The mutual exclusion lock of [src/src/sync/mutex.go]: its [Lock] and [Unlock]
    as programs of atomic steps, run by any number of goroutines in any order. *)
From S2P Require Import Prelude.
From S2P Require Import Threads.

Definition mutexLocked : Z := 1.
Definition mutexWoken : Z := 2.
Definition mutexWaiterShift : Z := 2.

Record Mutex := { state : Z; sema : Z }.

(** The points of a goroutine's program: outside of the lock ([idle]), within
    [Lock], holding the lock ([held]), and within [Unlock]. *)
Inductive pc :=
  | idle
  | lock_fast                          (* the fast path's compare-and-swap *)
  | lock_load (awoke : bool)           (* [old := m.state] *)
  | lock_cas (awoke : bool) (old : Z)  (* the compare-and-swap of the loop *)
  | lock_sleep                         (* [runtime_Semacquire(&m.sema)] *)
  | held
  | unlock_add                         (* [atomic.AddInt32(&m.state, -mutexLocked)] *)
  | unlock_cas (old : Z)               (* the compare-and-swap of the loop *)
  | unlock_load                        (* [old = m.state] *)
  | unlock_sema                        (* [runtime_Semrelease(&m.sema)] *)
  | panicked.

(** The state that [Lock] installs over [old]. *)
Definition lock_new (awoke : bool) (old : Z) : Z :=
  let new := Z.lor old mutexLocked in
  let new := if negb (Z.land old mutexLocked =? 0) then i32 (old + Z.shiftl 1 mutexWaiterShift) else new in
  if awoke then Z.ldiff new mutexWoken else new.

Definition Lock_step (m : Mutex) (p : pc) : option (Mutex * pc) :=
  match p with
  | lock_fast =>
      let '(s, swapped) := CompareAndSwapInt32 (state m) 0 mutexLocked in
      Some ({| state := s; sema := sema m |}, if swapped then held else lock_load false)
  | lock_load awoke => Some (m, lock_cas awoke (state m))
  | lock_cas awoke old =>
      let '(s, swapped) := CompareAndSwapInt32 (state m) old (lock_new awoke old) in
      Some ({| state := s; sema := sema m |},
        if swapped then (if Z.land old mutexLocked =? 0 then held else lock_sleep) else lock_load awoke)
  | lock_sleep =>
      s ← Semacquire (sema m);
      Some ({| state := state m; sema := s |}, lock_load true)
  | _ => None
  end.

(** The test at the head of [Unlock]'s loop: there is nobody to wake, or the right
    to wake is to be taken. *)
Definition unlock_test (old : Z) : pc :=
  if (Z.shiftr old mutexWaiterShift =? 0) || negb (Z.land old (Z.lor mutexLocked mutexWoken) =? 0) then idle else unlock_cas old.

Definition Unlock_step (m : Mutex) (p : pc) : option (Mutex * pc) :=
  match p with
  | unlock_add =>
      let new := AddInt32 (state m) (- mutexLocked) in
      Some ({| state := new; sema := sema m |},
        if Z.land (i32 (new + mutexLocked)) mutexLocked =? 0 then panicked else unlock_test new)
  | unlock_cas old =>
      let new := Z.lor (i32 (old - Z.shiftl 1 mutexWaiterShift)) mutexWoken in
      let '(s, swapped) := CompareAndSwapInt32 (state m) old new in
      Some ({| state := s; sema := sema m |}, if swapped then unlock_sema else unlock_load)
  | unlock_sema => Some ({| state := state m; sema := Semrelease (sema m) |}, idle)
  | unlock_load => Some (m, unlock_test (state m))
  | _ => None
  end.

(** One step of a goroutine within [Lock] or [Unlock]; [None] while it sleeps. *)
Definition run (m : Mutex) (p : pc) : option (Mutex * pc) :=
  match Lock_step m p with Some r => Some r | None => Unlock_step m p end.

(** * Executions *)

Definition config : Type := Mutex * list pc.

(** A step of the lock's code. *)
Inductive internal : config → config → Prop :=
  | internal_run m m' ts i p q : ts !! i = Some p → run m p = Some (m', q) → internal (m, ts) (m', <[i:=q]> ts).

(** What the clients decide: calling [Lock]; calling [Unlock] while holding the
    lock; leaving to another goroutine to unlock it. *)
Inductive client : config → config → Prop :=
  | client_Lock m ts i : ts !! i = Some idle → client (m, ts) (m, <[i:=lock_fast]> ts)
  | client_Unlock m ts i : ts !! i = Some held → client (m, ts) (m, <[i:=unlock_add]> ts)
  | client_pass m ts i j : ts !! i = Some held → ts !! j = Some idle → client (m, ts) (m, <[j:=held]> (<[i:=idle]> ts)).

Definition step (c c' : config) : Prop := internal c c' ∨ client c c'.

(** The zero Mutex and [n] goroutines. *)
Definition initial (n : nat) : config := ({| state := 0; sema := 0 |}, replicate n idle).

(** A schedule run by evaluation: which goroutine moves, by its own step or, when
    it has none, by calling [Lock] or [Unlock]. *)
Definition move (c : config) (i : nat) : config :=
  match c.2 !! i with
  | Some idle => (c.1, <[i:=lock_fast]> c.2)
  | Some held => (c.1, <[i:=unlock_add]> c.2)
  | Some p => match run c.1 p with Some (m, q) => (m, <[i:=q]> c.2) | None => c end
  | None => c
  end.

Lemma schedule_reachable c sched : rtc step c (foldl move c sched).
Proof.
  revert c. induction sched as [|i sched IH]; intros c; [done|]. simpl. etrans; [|apply IH]. clear IH. destruct c as [m ts].
  unfold move. simpl. destruct (ts !! i) as [p|] eqn:Hi; [|done].
  assert (rtc step (m, ts) (match run m p with Some (m', q) => (m', <[i:=q]> ts) | None => (m, ts) end)) as H.
  { destruct (run m p) as [[m' q]|] eqn:E; [|done]. apply rtc_once. left. by apply (internal_run _ _ _ _ p). }
  destruct p; try exact H; apply rtc_once; right; by constructor.
Qed.

Example contended :
  foldl move (initial 2) [0; 0; 1; 1; 1; 1; 1; 0; 0; 0; 0; 1; 1; 1]%nat = ({| state := 1; sema := 0 |}, [idle; held]) ∧
  foldl move (initial 2) [0; 0; 1; 1; 1; 1; 1]%nat = ({| state := 5; sema := 0 |}, [held; lock_sleep]) ∧
  foldl move ({| state := 0; sema := 0 |}, [unlock_add]) [0]%nat = ({| state := -1; sema := 0 |}, [panicked]).
Proof. by vm_compute. Qed.

(** * The fields of the state word *)

Definition word (locked woken : bool) (waiters : Z) : Z := Z.b2z locked + 2 * Z.b2z woken + 4 * waiters.

Lemma word_locked l w n : Z.land (word l w n) 1 = Z.b2z l.
Proof. rewrite (land_mask _ 1) by lia. unfold word. destruct l, w; simpl Z.b2z; lia_div. Qed.

Lemma word_flags l w n : Z.land (word l w n) 3 = Z.b2z l + 2 * Z.b2z w.
Proof. rewrite (land_mask _ 2) by lia. unfold word. destruct l, w; simpl Z.b2z; lia_div. Qed.

Lemma word_waiters l w n : Z.shiftr (word l w n) 2 = n.
Proof. rewrite Z.shiftr_div_pow2 by lia. unfold word. destruct l, w; simpl Z.b2z; lia_div. Qed.

Lemma word_inj l w n l' w' n' : word l w n = word l' w' n' → l = l' ∧ w = w' ∧ n = n'.
Proof. unfold word. destruct l, w, l', w'; simpl Z.b2z; intros; repeat split; lia. Qed.

Lemma ldiff_sub x y : Z.ldiff x y = x - Z.land x y.
Proof.
  assert (Z.ldiff x y + Z.land x y = x) as H; [|lia]. rewrite Z.add_nocarry_lxor, Z.lxor_lor, Z.lor_ldiff_and; [done| |];
  apply Z.bits_inj'; intros k _; rewrite Z.land_spec, Z.ldiff_spec, Z.land_spec, Z.bits_0; by destruct (Z.testbit x k), (Z.testbit y k).
Qed.

Lemma word_clear l w n : Z.ldiff (word l w n) 2 = word l false n.
Proof.
  rewrite ldiff_sub. assert (Z.land (word l w n) 2 = 2 * Z.b2z w) as ->; [|unfold word; simpl; lia].
  change 2 with (Z.land 3 2) at 1. rewrite Z.land_assoc, word_flags. by destruct l, w.
Qed.

(** What [Lock] and [Unlock] do to the fields. *)
Lemma lock_new_word awoke l w n : 0 <= n < 2 ^ 29 - 1 →
  lock_new awoke (word l w n) = if l then word true (w && negb awoke) (n + 1) else word true (w && negb awoke) n.
Proof.
  intros Hn. unfold lock_new, mutexLocked, mutexWoken, mutexWaiterShift. change (Z.shiftl 1 2) with 4. rewrite word_locked.
  assert (∀ x y z, i32 (word x y z + 4) = word x y (z + 1) ∨ ¬ (0 <= z < 2 ^ 29 - 1)) as H4.
  { intros x y z. destruct (decide (0 <= z < 2 ^ 29 - 1)); [left|by right]. unfold word. rewrite i32_id; destruct x, y; simpl Z.b2z; lia. }
  destruct l; simpl.
  - destruct (H4 true w n) as [->|]; [|lia]. destruct awoke; [by rewrite word_clear, andb_false_r|by rewrite andb_true_r].
  - assert (Z.lor (word false w n) 1 = word true w n) as ->.
    { rewrite (lor_high_add _ 1) by (lia || (unfold word; simpl Z.b2z; destruct w; simpl Z.b2z; lia_div)). unfold word. simpl. lia. }
    destruct awoke; [by rewrite word_clear, andb_false_r|by rewrite andb_true_r].
Qed.

(** * The invariant *)

Definition holding (p : pc) : bool := match p with held | unlock_add => true | _ => false end.
Definition sleeping (p : pc) : bool := match p with lock_sleep => true | _ => false end.
Definition granting (p : pc) : bool := match p with unlock_sema => true | _ => false end.
Definition awake (p : pc) : bool := match p with lock_load true | lock_cas true _ => true | _ => false end.
Definition waking (p : pc) : bool := match p with unlock_cas _ | unlock_load => true | _ => false end.

(** What a goroutine knows: of a state it means to wake somebody from, that the
    lock was free, nobody was waking and somebody waited. *)
Definition sane (p : pc) : Prop :=
  match p with
  | unlock_cas old => ∃ n, 0 < n ∧ old = word false false n
  | panicked => False
  | _ => True
  end.

(** The word in terms of the goroutines: the lock bit is set when one of them
    holds the lock; the goroutines asleep are those counted as waiting, and those
    for which a semaphore is or will be released; the woken bit is set while one
    is between being granted a wake-up and competing again; and when the lock is
    free with waiters and nobody woken, somebody is about to wake one. *)
Record inv (m : Mutex) (ts : list pc) (l w : bool) (n : Z) : Prop := {
  inv_word : state m = word l w n;
  inv_waiters : 0 <= n;
  inv_sema : 0 <= sema m;
  inv_len : zlen ts < 2 ^ 29;
  inv_holding : count holding ts = Z.b2z l;
  inv_sleeping : count sleeping ts = n + count granting ts + sema m;
  inv_woken : Z.b2z w = count granting ts + sema m + count awake ts;
  inv_waking : l = false → w = false → 0 < n → 1 <= count waking ts;
  inv_sane : ∀ (i : nat) p, ts !! i = Some p → sane p }.

(** Checks the invariant after goroutine [i] moved from [p] to a known point. *)
Ltac counts Hi :=
  rewrite ?zlen_insert, ?(count_insert _ _ _ _ _ Hi); cbn [holding sleeping granting awake waking Z.b2z] in *.
Ltac new_inv Hi I :=
  destruct I; split; cbn [state sema]; [| | | | | | | |first [by apply all_insert; [done|] | idtac]]; counts Hi; try done; try (intros; lia);
  try (intros -> -> ?; match goal with Hw : _ → _ → 0 < _ → _ |- _ => specialize (Hw eq_refl eq_refl); lia end).

Lemma inv_initial n : Z.of_nat n < 2 ^ 29 → inv (initial n).1 (initial n).2 false false 0.
Proof.
  intros Hn. assert (∀ P, P idle = false → count P (replicate n idle) = 0) as H.
  { intros P HP. induction n as [|n IH]; [done|]. unfold count. simpl. rewrite HP. apply IH. lia. }
  split; simpl; rewrite ?H by done; try done; [by unfold zlen; rewrite length_replicate|].
  intros i p [-> _]%lookup_replicate. done.
Qed.

Lemma inv_lock m ts l w n i p m' q : inv m ts l w n → ts !! i = Some p → Lock_step m p = Some (m', q) →
  ∃ l' w' n', inv m' (<[i:=q]> ts) l' w' n'.
Proof.
  intros I Hi E. pose proof (inv_word _ _ _ _ _ I) as Ew. pose proof (count_len sleeping (<[i:=lock_sleep]> ts)) as Hlen.
  rewrite zlen_insert, (count_insert _ _ _ _ _ Hi) in Hlen.
  pose proof (count_nonneg awake ts) as Ha. pose proof (count_nonneg granting ts) as Hg.
  pose proof (count_nonneg waking ts) as Hwk.
  destruct p as [| |a|a old| | | | | | |]; try discriminate E; unfold Lock_step in E.
  - revert E. apply CAS_cases; intros Hst [= <- <-].
    + rewrite Ew in Hst. change 0 with (word false false 0) in Hst. apply word_inj in Hst as (-> & -> & ->).
      exists true, false, 0. new_inv Hi I.
    + exists l, w, n. new_inv Hi I.
  - injection E as <- <-. exists l, w, n. destruct a; new_inv Hi I.
  - revert E. apply CAS_cases; intros Hst [= <- <-].
    + rewrite <- Hst, Ew. unfold mutexLocked. rewrite word_locked. cbn [sleeping Z.b2z] in Hlen.
      assert (a = true → w = true) as Haw.
      { intros ->. pose proof (count_pos awake ts i _ Hi eq_refl). destruct I, w; [done|]. simpl in *. lia. }
      destruct I. rewrite lock_new_word by lia.
      destruct l; [exists true, (w && negb a), (n + 1)|exists true, (w && negb a), n]; simpl Z.eqb; cbv iota;
      split; cbn [state sema]; try done; counts Hi; try lia; try (destruct a, w; simpl in *; lia || (specialize (Haw eq_refl); done)); by apply all_insert.
    + exists l, w, n. destruct a; new_inv Hi I.
  - destruct (Semacquire (sema m)) as [s|] eqn:Es; [|done]. injection E as <- <-.
    unfold Semacquire in Es. destruct (Z.ltb_spec 0 (sema m)); [|done]. injection Es as <-. exists l, w, n. new_inv Hi I.
Qed.

Lemma unlock_test_spec l w n : 0 <= n →
  unlock_test (word l w n) = (if bool_decide (n = 0) || l || w then idle else unlock_cas (word l w n)).
Proof.
  intros Hn. unfold unlock_test, mutexLocked, mutexWoken, mutexWaiterShift. rewrite word_waiters.
  change (Z.lor 1 2) with 3. rewrite word_flags. destruct (Z.eqb_spec n 0) as [->|Hne]; [by rewrite bool_decide_true by done|].
  rewrite bool_decide_false by done. by destruct l, w.
Qed.

Lemma inv_unlock m ts l w n i p m' q : inv m ts l w n → ts !! i = Some p → Unlock_step m p = Some (m', q) →
  ∃ l' w' n', inv m' (<[i:=q]> ts) l' w' n'.
Proof.
  intros I Hi E. pose proof (inv_word _ _ _ _ _ I) as Ew. pose proof (inv_sane _ _ _ _ _ I i p Hi) as Hsane.
  pose proof (count_len sleeping ts) as Hlen. pose proof (count_nonneg awake ts) as Ha. pose proof (count_nonneg granting ts) as Hg.
  pose proof (count_nonneg waking ts) as Hwk.
  pose proof (inv_waiters _ _ _ _ _ I) as Hn. assert (n < 2 ^ 29) as Hn' by (destruct I; lia).
  destruct p as [| |a|a old| | | |old| | |]; try discriminate E; unfold Unlock_step in E.
  - pose proof (count_pos holding ts i _ Hi eq_refl). destruct l; [|destruct I; simpl in *; lia].
    assert (AddInt32 (state m) (- mutexLocked) = word false w n) as En.
    { unfold AddInt32. rewrite Ew, i32_id; unfold word, mutexLocked; destruct w; simpl Z.b2z; lia. }
    rewrite En in E. assert (i32 (word false w n + mutexLocked) = word true w n) as E1.
    { rewrite i32_id; unfold word, mutexLocked; destruct w; simpl Z.b2z; lia. }
    rewrite E1 in E. unfold mutexLocked in E. rewrite word_locked in E. cbn [Z.b2z] in E. change (1 =? 0) with false in E. cbv iota in E.
    rewrite unlock_test_spec in E by done. injection E as <- <-. exists false, w, n.
    destruct (bool_decide_reflect (n = 0)); [|destruct w]; simpl; new_inv Hi I; apply all_insert; [done|]. by exists n; split; [lia|].
  - destruct Hsane as (k & Hk & ->). revert E. apply CAS_cases; intros Hst [= <- <-].
    + rewrite Ew in Hst. apply word_inj in Hst as (-> & -> & <-).
      assert (Z.lor (i32 (word false false n - Z.shiftl 1 mutexWaiterShift)) mutexWoken = word false true (n - 1)) as ->.
      { change (Z.shiftl 1 mutexWaiterShift) with 4. unfold mutexWoken. rewrite i32_id by (unfold word; simpl Z.b2z; lia).
        rewrite (lor_high_add _ 2) by (lia || (unfold word; simpl Z.b2z; lia_div)). unfold word. simpl Z.b2z. lia. }
      exists false, true, (n - 1). new_inv Hi I.
    + exists l, w, n. new_inv Hi I.
  - rewrite Ew, unlock_test_spec in E by done. injection E as <- <-. exists l, w, n.
    destruct (bool_decide_reflect (n = 0)); [|destruct l; [|destruct w]]; simpl; new_inv Hi I; apply all_insert; [done|].
    by exists n; split; [lia|].
  - injection E as <- <-. pose proof (count_pos granting ts i _ Hi eq_refl). exists l, w, n.
    assert (Semrelease (sema m) = sema m + 1) as -> by (unfold Semrelease; rewrite wrap_small; [done|destruct I, w; simpl in *; lia]).
    new_inv Hi I.
Qed.

Lemma inv_step c c' l w n : inv c.1 c.2 l w n → step c c' → ∃ l' w' n', inv c'.1 c'.2 l' w' n'.
Proof.
  intros I [H|H].
  - destruct H as [m m' ts i p q Hi E]. unfold run in E. destruct (Lock_step m p) as [r|] eqn:El.
    + injection E as ->. by eapply inv_lock.
    + by eapply inv_unlock.
  - exists l, w, n. destruct H as [m ts i Hi|m ts i Hi|m ts i j Hi Hj]; simpl in *; [new_inv Hi I..|].
    assert (i ≠ j) as Hne by (intros ->; rewrite Hi in Hj; discriminate Hj).
    assert (<[i:=idle]> ts !! j = Some idle) as Hj' by (by rewrite list_lookup_insert_ne).
    destruct I; split; cbn [state sema]; rewrite ?zlen_insert, ?(count_insert _ _ _ _ _ Hj'); counts Hi; try done; try (intros; lia).
    { intros Hl Hw Hn. specialize (inv_waking0 Hl Hw Hn). lia. }
    apply all_insert; [|done]. by apply all_insert.
Qed.

Lemma inv_reachable k c : Z.of_nat k < 2 ^ 29 → rtc step (initial k) c → ∃ l w n, inv c.1 c.2 l w n.
Proof.
  intros Hk. apply (rtc_ind_r (λ c, ∃ l w n, inv c.1 c.2 l w n)); [by exists false, false, 0; apply inv_initial|].
  intros c1 c2 _ Hs (l & w & n & I). by eapply inv_step.
Qed.

(** * Progress *)

(** Successful changes of the word still to come from a goroutine, unless a client
    calls again: releasing a semaphore lets one more goroutine compete. *)
Definition weight (p : pc) : Z :=
  match p with
  | lock_fast | lock_load _ | lock_cas _ _ | unlock_sema => 1
  | unlock_cas _ | unlock_load => 2
  | unlock_add => 3
  | idle | held | lock_sleep | panicked => 0
  end.

(** Steps until the next such change while the word stays [st]. *)
Definition distance (st : Z) (p : pc) : Z :=
  match p with
  | lock_sleep => 5
  | lock_fast => 4
  | lock_cas _ old | unlock_cas old => if st =? old then 2 else 4
  | lock_load _ | unlock_load => 3
  | unlock_sema => 1
  | idle | held | unlock_add | panicked => 0
  end.

Definition measure (m : Mutex) (ts : list pc) : Z :=
  (total weight ts + sema m) * (5 * zlen ts + 1) + total (distance (state m)) ts.

Lemma distance_bound st p : 0 <= distance st p <= 5.
Proof. destruct p; simpl; try lia; destruct (_ =? _); lia. Qed.

Lemma total_bound {A} (f : A → Z) (ts : list A) k : (∀ p, 0 <= f p <= k) → 0 <= total f ts <= k * zlen ts.
Proof.
  intros Hf. rewrite <- (total_const k ts). pose proof (total_const 0 ts) as H0.
  pose proof (total_le (λ _, 0) f ts (λ p _, proj1 (Hf p))). pose proof (total_le f (λ _, k) ts (λ p _, proj2 (Hf p))). lia.
Qed.

(** A step either uses up a change of the word, or keeps the word and comes nearer
    to its next change. *)
Lemma run_measure m p m' q : 0 <= sema m < 2 ^ 32 - 1 → run m p = Some (m', q) →
  weight q + sema m' < weight p + sema m ∨
  weight q + sema m' = weight p + sema m ∧ state m' = state m ∧ distance (state m) q < distance (state m) p.
Proof.
  intros Hs E. assert (∀ old, unlock_test old = idle ∨ unlock_test old = unlock_cas old) as Ht
    by (intros old; unfold unlock_test; destruct (_ || _); [by left|by right]).
  destruct p as [| |a|a old| | | |old| | |]; try discriminate E; unfold run in E; cbn [Lock_step Unlock_step] in E.
  - revert E. apply CAS_cases; intros Hst [= <- <-]; simpl; lia.
  - injection E as <- <-. simpl. rewrite Z.eqb_refl. lia.
  - revert E. apply CAS_cases; intros Hst [= <- <-]; simpl; [destruct (_ =? _); simpl; lia|].
    destruct (Z.eqb_spec (state m) old); [done|lia].
  - unfold Semacquire in E. destruct (Z.ltb_spec 0 (sema m)); [|done]. injection E as <- <-. simpl. lia.
  - injection E as <- <-. destruct (_ =? _); simpl; [lia|]. destruct (Ht (AddInt32 (state m) (- mutexLocked))) as [->| ->]; simpl; lia.
  - revert E. apply CAS_cases; intros Hst [= <- <-]; simpl; [lia|]. destruct (Z.eqb_spec (state m) old); [done|lia].
  - injection E as <- <-. destruct (Ht (state m)) as [->| ->]; simpl; rewrite ?Z.eqb_refl; lia.
  - injection E as <- <-. unfold Semrelease. simpl. rewrite wrap_small by lia. lia.
Qed.

Lemma internal_measure c c' : 0 <= sema c.1 < 2 ^ 32 - 1 → internal c c' → measure c'.1 c'.2 < measure c.1 c.2.
Proof.
  intros Hs H. revert Hs. destruct H as [m m' ts i p q Hi E]. intros Hs. simpl in *. unfold measure. rewrite zlen_insert, (total_insert _ _ _ _ _ Hi).
  pose proof (total_bound (distance (state m')) (<[i:=q]> ts) 5 (distance_bound _)) as Hb'. rewrite zlen_insert in Hb'.
  pose proof (total_bound (distance (state m)) ts 5 (distance_bound _)) as Hb.
  destruct (run_measure m p m' q Hs E) as [Hw|(Hw & Est & Hd)].
  - nia.
  - rewrite Est, (total_insert _ _ _ _ _ Hi). replace (total weight ts - weight p + weight q + sema m') with (total weight ts + sema m) by lia. lia.
Qed.

Lemma sema_bound m ts l w n : inv m ts l w n → 0 <= sema m <= 1.
Proof. intros []. pose proof (count_nonneg granting ts). pose proof (count_nonneg awake ts). destruct w; simpl in *; lia. Qed.

Lemma measure_bound m ts l w n : inv m ts l w n →
  0 <= measure m ts <= (3 * zlen ts + 1) * (5 * zlen ts + 1) + 5 * zlen ts.
Proof.
  intros I. pose proof (sema_bound _ _ _ _ _ I). unfold measure.
  pose proof (total_bound weight ts 3 (λ p, match p return 0 <= weight p <= 3 with _ => ltac:(destruct p; simpl; lia) end)).
  pose proof (total_bound (distance (state m)) ts 5 (distance_bound _)). pose proof (zlen_nonneg ts). nia.
Qed.

Lemma run_bound k c c' l w n : inv c.1 c.2 l w n → nsteps internal k c c' →
  Z.of_nat k <= measure c.1 c.2 ∧ ∃ l' w' n', inv c'.1 c'.2 l' w' n'.
Proof.
  intros I H. revert l w n I. induction H as [c|k c1 c2 c3 Hs H IH]; intros l w n I.
  - split; [apply (measure_bound _ _ _ _ _ I)|by exists l, w, n].
  - destruct (inv_step c1 c2 l w n I (or_introl Hs)) as (l' & w' & n' & I'). destruct (IH _ _ _ I') as [Hk HI].
    split; [|done]. pose proof (sema_bound _ _ _ _ _ I). pose proof (internal_measure c1 c2 ltac:(lia) Hs). lia.
Qed.

(** Where no goroutine can move within the lock's code, those within it are
    asleep, and one that sleeps waits for a holder. *)
Lemma stuck_state m ts l w n : inv m ts l w n → (∀ c', ¬ internal (m, ts) c') →
  (∀ i p, ts !! i = Some p → p = idle ∨ p = held ∨ p = lock_sleep) ∧
  (∀ i, ts !! i = Some lock_sleep → ∃ j, ts !! j = Some held).
Proof.
  intros I Hstuck.
  assert (∀ i p, ts !! i = Some p → run m p = None) as Hrun.
  { intros i p Hi. destruct (run m p) as [[m' q]|] eqn:E; [|done]. destruct (Hstuck _ (internal_run m m' ts i p q Hi E)). }
  assert (∀ i p, ts !! i = Some p → p = idle ∨ p = held ∨ p = lock_sleep) as Hp.
  { intros i p Hi. pose proof (Hrun i p Hi) as E. pose proof (inv_sane _ _ _ _ _ I i p Hi) as Hsane.
    destruct p as [| |a|a old| | | |old| | |]; auto; unfold run in E; cbn [Lock_step Unlock_step] in E; try done;
    revert E; by apply CAS_cases. }
  split; [done|]. intros i Hi. pose proof (Hrun i _ Hi) as E. unfold run in E. cbn [Lock_step Unlock_step] in E.
  unfold Semacquire in E. destruct (Z.ltb_spec 0 (sema m)) as [|Hs]; [done|].
  assert (∀ P, P idle = false → P held = false → P lock_sleep = false → count P ts = 0) as H0.
  { intros P H1 H2 H3. destruct (decide (1 <= count P ts)) as [Hc|Hc]; [|pose proof (count_nonneg P ts); lia].
    destruct (count_ex P ts Hc) as (j & p & Hj & HP). destruct (Hp j p Hj) as [->|[->| ->]]; congruence. }
  pose proof (count_pos sleeping ts i _ Hi eq_refl). destruct I. rewrite (H0 granting), ?(H0 awake), ?(H0 waking) in * by done.
  destruct l; [|destruct w; [simpl in *; lia|specialize (inv_waking0 eq_refl eq_refl); lia]].
  destruct (count_ex holding ts) as (j & p & Hj & HP); [simpl in *; lia|].
  exists j. by destruct (Hp j p Hj) as [->|[->| ->]].
Qed.

(** Within [Lock], or past it. *)
Definition engaged (p : pc) : bool := match p with lock_fast | lock_load _ | lock_cas _ _ | lock_sleep | held => true | _ => false end.

Lemma engaged_internal c c' : rtc internal c c' → (∃ i p, c.2 !! i = Some p ∧ engaged p = true) →
  ∃ i p, c'.2 !! i = Some p ∧ engaged p = true.
Proof.
  induction 1 as [|c1 c2 c3 Hs _ IH]; [done|]. intros (j & p0 & Hj & He). apply IH. clear IH.
  destruct Hs as [m m' ts i p q Hi E]. simpl in *. destruct (decide (i = j)) as [->|Hne].
  - exists j, q. split; [apply list_lookup_insert_eq; by eapply lookup_lt_Some|]. rewrite Hi in Hj. injection Hj as <-.
    destruct p as [| |a|a old| | | |old| | |]; try done; unfold run in E; cbn [Lock_step Unlock_step] in E.
    + revert E. by apply CAS_cases; intros _ [= <- <-].
    + by injection E as <- <-.
    + revert E. apply CAS_cases; intros _ [= <- <-]; [|done]. by destruct (_ =? _).
    + unfold Semacquire in E. destruct (0 <? sema m); [|done]. by injection E as <- <-.
  - exists j, p0. by rewrite list_lookup_insert_ne.
Qed.

(** * The lock's contract *)

(** An abstract lock, free or owned by a goroutine: what a step of goroutine [i]
    may do to it. *)
Inductive spec_step (i : nat) : option nat → option nat → Prop :=
  | spec_none o : spec_step i o o
  | spec_acquire : spec_step i None (Some i)
  | spec_release : spec_step i (Some i) None.

Definition owner (ts : list pc) (o : option nat) : Prop :=
  ∀ i, (∃ p, ts !! i = Some p ∧ holding p = true) ↔ o = Some i.

Lemma inv_owner m ts l w n : inv m ts l w n → ∃ o, owner ts o ∧ (l = true ↔ o ≠ None).
Proof.
  intros I. pose proof (inv_holding _ _ _ _ _ I) as Hc. destruct l.
  - destruct (count_ex holding ts) as (i & p & Hi & Hp); [by rewrite Hc|]. exists (Some i). split; [|done].
    intros j. split; [|intros [= <-]; by exists p]. intros (q & Hj & Hq). destruct (decide (i = j)) as [->|Hne]; [done|].
    pose proof (count_two holding ts i j p q Hne Hi Hj Hp Hq). simpl in *. lia.
  - exists None. split; [|done]. intros j. split; [|done]. intros (q & Hj & Hq). by rewrite (count_zero _ _ Hc j q Hj) in Hq.
Qed.

Lemma owner_step ts i q o o' : owner ts o → owner (<[i:=q]> ts) o' → spec_step i o o'.
Proof.
  intros Ho Ho'. assert (∀ j, j ≠ i → o = Some j ↔ o' = Some j) as Hother.
  { intros j Hj. rewrite <- (Ho j), <- (Ho' j). by rewrite list_lookup_insert_ne. }
  destruct o as [j|], o' as [j'|]; try constructor.
  - destruct (decide (j = i)) as [->|Hj]; [|rewrite (proj1 (Hother j Hj) eq_refl); constructor].
    destruct (decide (j' = i)) as [->|Hj']; [constructor|]. rewrite (proj2 (Hother j' Hj') eq_refl). constructor.
  - destruct (decide (j = i)) as [->|Hj]; [constructor|]. by pose proof (proj1 (Hother j Hj) eq_refl).
  - destruct (decide (j' = i)) as [->|Hj']; [constructor|]. by pose proof (proj2 (Hother j' Hj') eq_refl).
Qed.

(** C29: mutual exclusion. However many goroutines (fewer than 2^29) call [Lock] and
    [Unlock], in whatever order their atomic steps fall, the lock has at most one
    owner, the lock bit says whether it has one, no [Unlock] of an owner panics,
    and the code refines the abstract lock: a step of a goroutine leaves the
    owner as it is, takes a lock that is free for itself or frees the one it
    owns. [Unlock] of a lock that is not locked panics. *)
Theorem Mutex_exclusion :
  (∀ k c, Z.of_nat k < 2 ^ 29 → rtc step (initial k) c → ∃ o, owner c.2 o ∧
    (Z.land (state c.1) mutexLocked ≠ 0 ↔ o ≠ None) ∧ (∀ i : nat, c.2 !! i ≠ Some panicked) ∧
    (∀ (i : nat) p m q, c.2 !! i = Some p → run c.1 p = Some (m, q) → ∃ o', owner (<[i:=q]> c.2) o' ∧ spec_step i o o')) ∧
  (∀ m, - 2 ^ 31 < state m < 2 ^ 31 → Z.land (state m) mutexLocked = 0 → ∃ m', run m unlock_add = Some (m', panicked)).
Proof.
  split.
  - intros k [m ts] Hk Hr. destruct (inv_reachable k _ Hk Hr) as (l & w & n & I). simpl in *.
    destruct (inv_owner _ _ _ _ _ I) as (o & Ho & Hl). exists o. split; [done|]. split.
    { rewrite <- Hl, (inv_word _ _ _ _ _ I). unfold mutexLocked. rewrite word_locked. by destruct l. }
    split; [intros i Hi; destruct (inv_sane _ _ _ _ _ I i _ Hi)|]. intros i p m' q Hi E.
    destruct (inv_step (m, ts) (m', <[i:=q]> ts) l w n I) as (l' & w' & n' & I'); [left; by apply (internal_run _ _ _ _ p)|].
    destruct (inv_owner _ _ _ _ _ I') as (o' & Ho' & _). exists o'. split; [done|]. by apply (owner_step ts i q).
  - intros m Hm H0. unfold run. cbn [Lock_step Unlock_step]. eexists. unfold AddInt32.
    rewrite (i32_id (state m + _)) by (unfold mutexLocked; lia). replace (state m + - mutexLocked + mutexLocked) with (state m) by lia.
    rewrite i32_id by lia. by rewrite H0.
Qed.

Example Mutex_exclusion_witness :
  let c := foldl move (initial 2) [0; 0; 1; 1; 1; 1; 1]%nat in
  rtc step (initial 2) c ∧ c.2 = [held; lock_sleep] ∧ ∃ o, owner c.2 o ∧ o ≠ None.
Proof.
  cbv zeta. set (c := foldl move (initial 2) _). assert (rtc step (initial 2) c) as Hr by apply schedule_reachable.
  split; [exact Hr|]. split; [reflexivity|]. destruct (proj1 Mutex_exclusion 2%nat c ltac:(lia) Hr) as (o & Ho & Hl & _).
  exists o. split; [exact Ho|]. apply Hl. by vm_compute.
Defined.

(** C30: progress. From every reachable state, the code of [Lock] and [Unlock] runs
    without further calls for a bounded number of steps, whatever their order, so
    neither a compare-and-swap loop nor the wake-ups go on forever; where it stops,
    every goroutine is outside of the lock, holds it or sleeps, and a goroutine
    that sleeps waits for one that holds the lock: no wake-up is lost, and if the
    lock was called and nobody had it then somebody does now. *)
Theorem Mutex_progress k c : Z.of_nat k < 2 ^ 29 → rtc step (initial k) c →
  let n := zlen c.2 in
  (∀ steps c', nsteps internal steps c c' → Z.of_nat steps <= (3 * n + 1) * (5 * n + 1) + 5 * n) ∧
  (∀ c', rtc internal c c' → (∀ c'', ¬ internal c' c'') →
    (∀ (i : nat) p, c'.2 !! i = Some p → p = idle ∨ p = held ∨ p = lock_sleep) ∧
    (∀ i : nat, c'.2 !! i = Some lock_sleep → ∃ j : nat, c'.2 !! j = Some held) ∧
    ((∃ (i : nat) p, c.2 !! i = Some p ∧ engaged p = true) → ∃ j : nat, c'.2 !! j = Some held)).
Proof.
  intros Hk Hr n. destruct (inv_reachable k c Hk Hr) as (l & w & nw & I). split.
  - intros steps c' H. destruct (run_bound _ _ _ _ _ _ I H) as [Hs _]. pose proof (measure_bound _ _ _ _ _ I). unfold n. lia.
  - intros [m ts] Hs Hstuck. destruct (proj1 (rtc_nsteps _ _) Hs) as [s Hns].
    destruct (run_bound _ _ _ _ _ _ I Hns) as (_ & l' & w' & n' & I').
    destruct (stuck_state m ts l' w' n' I' Hstuck) as [Hp Hsleep]. split; [done|]. split; [done|].
    intros He. destruct (engaged_internal _ _ Hs He) as (i & p & Hi & Hep).
    destruct (Hp i p Hi) as [->|[->| ->]]; [done|by exists i|by apply (Hsleep i)].
Qed.

Example Mutex_progress_witness :
  let c := foldl move (initial 2) [0; 0; 1; 1; 1; 1; 1; 0; 0]%nat in
  rtc step (initial 2) c ∧ c.2 = [unlock_cas 4; lock_sleep] ∧
  ∀ c', rtc internal c c' → (∀ c'', ¬ internal c' c'') → ∃ j : nat, c'.2 !! j = Some held.
Proof.
  cbv zeta. set (c := foldl move (initial 2) _). assert (rtc step (initial 2) c) as Hr by apply schedule_reachable.
  split; [exact Hr|]. split; [reflexivity|]. intros c' H Hs.
  destruct (Mutex_progress 2 c ltac:(lia) Hr) as [_ Hp]. apply (Hp c' H Hs). by exists 1%nat, lock_sleep.
Defined.
