(* ===== verification/RWMutex.v ===== *)
(** The reader/writer lock of [src/src/sync/rwmutex.go] as programs of atomic steps
    over its counters and semaphores. Its inner [Mutex] is the abstract lock that
    [Mutex.v] shows the code of [Mutex] to refine. *)
From S2P Require Import Prelude.
From S2P Require Import Threads.

Definition rwmutexMaxReaders : Z := Z.shiftl 1 30.

Record RWMutex := { w : bool; writerSem : Z; readerSem : Z; readerCount : Z; readerWait : Z }.

Inductive pc :=
  | idle
  | rlock_add                 (* [atomic.AddInt32(&rw.readerCount, 1)] *)
  | rlock_sleep               (* [runtime_Semacquire(&rw.readerSem)] *)
  | reading
  | runlock_add               (* [atomic.AddInt32(&rw.readerCount, -1)] *)
  | runlock_wait              (* [atomic.AddInt32(&rw.readerWait, -1)] *)
  | runlock_sema              (* [runtime_Semrelease(&rw.writerSem)] *)
  | lock_w                    (* [rw.w.Lock()] *)
  | lock_add                  (* [atomic.AddInt32(&rw.readerCount, -rwmutexMaxReaders)] *)
  | lock_wait (r : Z)         (* [atomic.AddInt32(&rw.readerWait, r)] *)
  | lock_sleep                (* [runtime_Semacquire(&rw.writerSem)] *)
  | writing
  | unlock_add                (* [atomic.AddInt32(&rw.readerCount, rwmutexMaxReaders)] *)
  | unlock_sema (n : Z)       (* the loop of [runtime_Semrelease(&rw.readerSem)] *)
  | unlock_w                  (* [rw.w.Unlock()] *)
  | panicked.

Definition set_w b rw := {| w := b; writerSem := writerSem rw; readerSem := readerSem rw; readerCount := readerCount rw; readerWait := readerWait rw |}.
Definition set_writerSem s rw := {| w := w rw; writerSem := s; readerSem := readerSem rw; readerCount := readerCount rw; readerWait := readerWait rw |}.
Definition set_readerSem s rw := {| w := w rw; writerSem := writerSem rw; readerSem := s; readerCount := readerCount rw; readerWait := readerWait rw |}.
Definition set_readerCount n rw := {| w := w rw; writerSem := writerSem rw; readerSem := readerSem rw; readerCount := n; readerWait := readerWait rw |}.
Definition set_readerWait n rw := {| w := w rw; writerSem := writerSem rw; readerSem := readerSem rw; readerCount := readerCount rw; readerWait := n |}.

Definition RLock_step (rw : RWMutex) (p : pc) : option (RWMutex * pc) :=
  match p with
  | rlock_add =>
      let n := AddInt32 (readerCount rw) 1 in
      Some (set_readerCount n rw, if n <? 0 then rlock_sleep else reading)
  | rlock_sleep => s ← Semacquire (readerSem rw); Some (set_readerSem s rw, reading)
  | _ => None
  end.

Definition RUnlock_step (rw : RWMutex) (p : pc) : option (RWMutex * pc) :=
  match p with
  | runlock_add =>
      let r := AddInt32 (readerCount rw) (-1) in
      Some (set_readerCount r rw,
        if r <? 0 then
          if (i32 (r + 1) =? 0) || (i32 (r + 1) =? - rwmutexMaxReaders) then panicked else runlock_wait
        else idle)
  | runlock_wait =>
      let n := AddInt32 (readerWait rw) (-1) in
      Some (set_readerWait n rw, if n =? 0 then runlock_sema else idle)
  | runlock_sema => Some (set_writerSem (Semrelease (writerSem rw)) rw, idle)
  | _ => None
  end.

Definition Lock_step (rw : RWMutex) (p : pc) : option (RWMutex * pc) :=
  match p with
  | lock_w => if w rw then None else Some (set_w true rw, lock_add)
  | lock_add =>
      let n := AddInt32 (readerCount rw) (- rwmutexMaxReaders) in
      let r := i32 (n + rwmutexMaxReaders) in
      Some (set_readerCount n rw, if negb (r =? 0) then lock_wait r else writing)
  | lock_wait r =>
      let n := AddInt32 (readerWait rw) r in
      Some (set_readerWait n rw, if negb (n =? 0) then lock_sleep else writing)
  | lock_sleep => s ← Semacquire (writerSem rw); Some (set_writerSem s rw, writing)
  | _ => None
  end.

Definition Unlock_step (rw : RWMutex) (p : pc) : option (RWMutex * pc) :=
  match p with
  | unlock_add =>
      let r := AddInt32 (readerCount rw) rwmutexMaxReaders in
      Some (set_readerCount r rw, if rwmutexMaxReaders <=? r then panicked else unlock_sema r)
  | unlock_sema n =>
      if 0 <? n then Some (set_readerSem (Semrelease (readerSem rw)) rw, unlock_sema (n - 1)) else Some (rw, unlock_w)
  | unlock_w => Some (set_w false rw, idle)
  | _ => None
  end.

(** One step of a goroutine within the lock's code; [None] while it waits. *)
Definition run (rw : RWMutex) (p : pc) : option (RWMutex * pc) :=
  match p with
  | rlock_add | rlock_sleep => RLock_step rw p
  | runlock_add | runlock_wait | runlock_sema => RUnlock_step rw p
  | lock_w | lock_add | lock_wait _ | lock_sleep => Lock_step rw p
  | unlock_add | unlock_sema _ | unlock_w => Unlock_step rw p
  | idle | reading | writing | panicked => None
  end.

(** * Executions *)

Definition config : Type := RWMutex * list pc.

Inductive internal : config → config → Prop :=
  | internal_run rw rw' ts i p q : ts !! i = Some p → run rw p = Some (rw', q) → internal (rw, ts) (rw', <[i:=q]> ts).

(** What the clients decide: the calls, and leaving the unlocking to another. *)
Inductive client : config → config → Prop :=
  | client_RLock rw ts i : ts !! i = Some idle → client (rw, ts) (rw, <[i:=rlock_add]> ts)
  | client_RUnlock rw ts i : ts !! i = Some reading → client (rw, ts) (rw, <[i:=runlock_add]> ts)
  | client_Lock rw ts i : ts !! i = Some idle → client (rw, ts) (rw, <[i:=lock_w]> ts)
  | client_Unlock rw ts i : ts !! i = Some writing → client (rw, ts) (rw, <[i:=unlock_add]> ts)
  | client_pass rw ts i j p : p = reading ∨ p = writing → ts !! i = Some p → ts !! j = Some idle →
      client (rw, ts) (rw, <[j:=p]> (<[i:=idle]> ts)).

Definition step (c c' : config) : Prop := internal c c' ∨ client c c'.

Definition initial (n : nat) : config :=
  ({| w := false; writerSem := 0; readerSem := 0; readerCount := 0; readerWait := 0 |}, replicate n idle).

(** A schedule: a goroutine moves by its own step, or else calls the operation
    given (taking the lock for writing when the flag is set) or gives the lock up. *)
Definition move (c : config) (s : nat * bool) : config :=
  let '(i, write) := s in
  match c.2 !! i with
  | Some idle => (c.1, <[i:=if write : bool then lock_w else rlock_add]> c.2)
  | Some reading => (c.1, <[i:=runlock_add]> c.2)
  | Some writing => (c.1, <[i:=unlock_add]> c.2)
  | Some p => match run c.1 p with Some (rw, q) => (rw, <[i:=q]> c.2) | None => c end
  | None => c
  end.

Lemma rw_schedule_reachable c sched : rtc step c (foldl move c sched).
Proof.
  revert c. induction sched as [|[i b] sched IH]; intros c; [done|]. simpl. etrans; [|apply IH]. clear IH. destruct c as [rw ts].
  simpl. destruct (ts !! i) as [p|] eqn:Hi; [|done].
  assert (rtc step (rw, ts) (match run rw p with Some (rw', q) => (rw', <[i:=q]> ts) | None => (rw, ts) end)) as H.
  { destruct (run rw p) as [[rw' q]|] eqn:E; [|done]. apply rtc_once. left. by apply (internal_run _ _ _ _ p). }
  destruct p; try exact H; try destruct b; apply rtc_once; right; by constructor.
Qed.

(** One reader, a writer that waits for it, a reader that waits for the writer. *)
Example readers_and_writer :
  let s := foldl move (initial 3) [(0, false); (0, false); (1, true); (1, true); (1, true); (1, true); (2, false); (2, false)]%nat in
  s.2 = [reading; lock_sleep; rlock_sleep] ∧ readerCount s.1 = 2 - 2 ^ 30 ∧ readerWait s.1 = 1 ∧
  (let t := foldl move s [(0, false); (0, false); (0, false); (0, false); (1, false)]%nat in t.2 = [idle; writing; rlock_sleep]) ∧
  run (initial 1).1 runlock_add = Some (set_readerCount (-1) (initial 1).1, panicked).
Proof. by vm_compute. Qed.

(** * The invariant *)

Definition is_reading (p : pc) : bool := match p with reading | runlock_add => true | _ => false end.
Definition departing (p : pc) : bool := match p with runlock_wait => true | _ => false end.
Definition waking (p : pc) : bool := match p with runlock_sema => true | _ => false end.
Definition reader_asleep (p : pc) : bool := match p with rlock_sleep => true | _ => false end.
(** Writers past [rw.w.Lock()], and those of them announced to the readers. *)
Definition owning (p : pc) : bool :=
  match p with lock_add | lock_wait _ | lock_sleep | writing | unlock_add | unlock_sema _ | unlock_w => true | _ => false end.
Definition announced (p : pc) : bool := match p with lock_wait _ | lock_sleep | writing | unlock_add => true | _ => false end.
(** Writers before the announcement or after taking it back. *)
Definition quiet (p : pc) : bool := match p with lock_add | unlock_sema _ | unlock_w => true | _ => false end.
Definition starting (p : pc) : bool := match p with rlock_add => true | _ => false end.
Definition adding (p : pc) : bool := match p with lock_wait _ => true | _ => false end.
Definition writer_asleep (p : pc) : bool := match p with lock_sleep => true | _ => false end.
Definition is_writing (p : pc) : bool := match p with writing | unlock_add => true | _ => false end.
(** Readers a writer is about to wait for, and to wake. *)
Definition to_add (p : pc) : Z := match p with lock_wait r => r | _ => 0 end.
Definition to_wake (p : pc) : Z := match p with unlock_sema n => n | _ => 0 end.

Definition sane (p : pc) : Prop :=
  match p with lock_wait r => 0 < r | unlock_sema n => 0 <= n | panicked => False | _ => True end.

(** [readerCount] counts the readers, those asleep included, less
    [rwmutexMaxReaders] while a writer is announced. Before that nobody departs
    or wakes a writer, and the sleeping readers are the ones woken or about to
    be; after it, the readers the writer waits for are those reading, departing or
    woken, and there are none left when it writes. *)
Record inv (rw : RWMutex) (ts : list pc) : Prop := {
  inv_len : zlen ts < 2 ^ 30;
  inv_owning : count owning ts = Z.b2z (w rw);
  inv_count : readerCount rw = count is_reading ts + count reader_asleep ts - count announced ts * 2 ^ 30;
  inv_sems : 0 <= readerSem rw ∧ 0 <= writerSem rw;
  inv_calm : count announced ts = 0 → readerWait rw = 0 ∧ count departing ts = 0 ∧ count waking ts = 0 ∧ writerSem rw = 0 ∧
    count reader_asleep ts = readerSem rw + total to_wake ts;
  inv_wait : 1 <= count announced ts →
    count is_reading ts + count departing ts + readerSem rw = readerWait rw + total to_add ts ∧
    readerSem rw <= count reader_asleep ts;
  inv_to_add : total to_add ts <= zlen ts;
  inv_adding : 1 <= count adding ts → readerWait rw <= 0 ∧ count waking ts + writerSem rw = 0;
  inv_asleep : 1 <= count writer_asleep ts → 0 <= readerWait rw ∧
    (readerWait rw = 0 → count waking ts + writerSem rw = 1) ∧ (0 < readerWait rw → count waking ts + writerSem rw = 0);
  inv_writing : 1 <= count is_writing ts → readerWait rw = 0 ∧ count waking ts + writerSem rw = 0;
  inv_sane : ∀ (i : nat) p, ts !! i = Some p → sane p }.

(** The classes of writers. *)
Lemma count_split (P Q R : pc → bool) ts : (∀ p, Z.b2z (P p) = Z.b2z (Q p) + Z.b2z (R p)) → count P ts = count Q ts + count R ts.
Proof. intros H. unfold count. induction ts as [|p ts IH]; simpl; [done|]. rewrite H. lia. Qed.

Lemma writers ts :
  count announced ts = count adding ts + count writer_asleep ts + count is_writing ts ∧ count owning ts = count announced ts + count quiet ts.
Proof.
  split; [|apply count_split; by intros []].
  rewrite (count_split announced (λ p, adding p || writer_asleep p) is_writing) by (by intros []).
  rewrite (count_split (λ p, adding p || writer_asleep p) adding writer_asleep) by (by intros []). lia.
Qed.

Lemma population ts :
  count is_reading ts + count reader_asleep ts + count starting ts + count departing ts + count waking ts + count owning ts <= zlen ts.
Proof.
  rewrite <- (Z.mul_1_l (zlen ts)), <- (total_const 1 ts). unfold count.
  rewrite <- !total_add. apply total_le. intros [] _; simpl; lia.
Qed.

Lemma to_add_adding ts : (∀ (i : nat) p, ts !! i = Some p → sane p) →
  count adding ts <= total to_add ts ∧ (count adding ts = 0 → total to_add ts = 0).
Proof.
  intros H. split.
  - apply total_le. intros p [i Hi]%list_elem_of_lookup. specialize (H i p Hi). destruct p; simpl in *; lia.
  - intros H0. apply (total_none _ adding); [by intros []|done].
Qed.

Lemma to_wake_owning ts : (∀ (i : nat) p, ts !! i = Some p → sane p) →
  0 <= total to_wake ts ∧ (count quiet ts = 0 → total to_wake ts = 0).
Proof.
  intros H. assert (0 <= total to_wake ts) as H0.
  { rewrite <- (Z.mul_0_l (zlen ts)), <- (total_const 0 ts). apply total_le. intros p [i Hi]%list_elem_of_lookup.
    specialize (H i p Hi). destruct p; simpl in *; lia. }
  split; [done|]. intros Ho. apply (total_none _ quiet); [by intros []|done].
Qed.

Ltac counts Hi :=
  rewrite ?zlen_insert, ?(count_insert _ _ _ _ _ Hi), ?(total_insert _ _ _ _ _ Hi);
  cbn [is_reading departing waking reader_asleep owning announced adding writer_asleep is_writing to_add to_wake Z.b2z
       w writerSem readerSem readerCount readerWait set_w set_writerSem set_readerSem set_readerCount set_readerWait] in *.

Lemma rw_inv_initial n : Z.of_nat n < 2 ^ 30 → inv (initial n).1 (initial n).2.
Proof.
  intros Hn. assert (∀ f, f idle = 0 → total f (replicate n idle) = 0) as H.
  { intros f Hf. clear Hn. induction n as [|n IH]; [done|]. simpl. by rewrite Hf, IH. }
  unfold initial. split; unfold count; cbn [fst snd w writerSem readerSem readerCount readerWait]; rewrite ?H by done; try done;
    [by unfold zlen; rewrite length_replicate|by apply zlen_nonneg|].
  intros i p [-> _]%lookup_replicate. done.
Qed.

(** The facts the arithmetic of a step needs. *)
Ltac facts ts I :=
  pose proof (writers ts); pose proof (population ts); pose proof (to_add_adding ts (inv_sane _ _ I));
  pose proof (to_wake_owning ts (inv_sane _ _ I));
  pose proof (count_nonneg is_reading ts); pose proof (count_nonneg departing ts); pose proof (count_nonneg waking ts);
  pose proof (count_nonneg reader_asleep ts); pose proof (count_nonneg adding ts); pose proof (count_nonneg writer_asleep ts);
  pose proof (count_nonneg is_writing ts); pose proof (count_nonneg starting ts); pose proof (count_nonneg quiet ts).

Ltac new_inv Hi I :=
  destruct I; split; counts Hi; try done;
  [ .. | first [by apply all_insert; [done|cbn [sane]; lia] | idtac]]; try lia.

Lemma inv_reader rw ts i p rw' q : inv rw ts → ts !! i = Some p →
  match p with rlock_add | rlock_sleep | runlock_add | runlock_wait | runlock_sema => True | _ => False end →
  run rw p = Some (rw', q) → inv rw' (<[i:=q]> ts).
Proof.
  intros I Hi Hp E. facts ts I. assert (0 <= count owning ts <= 1) as Hw by (destruct I, (w rw); simpl in *; lia).
  destruct p; try destruct Hp; cbn [run RLock_step RUnlock_step] in E.
  - pose proof (count_pos starting ts i _ Hi eq_refl). unfold AddInt32 in E. rewrite i32_id in E by (destruct I; lia).
    injection E as <- <-. destruct (Z.ltb_spec (readerCount rw + 1) 0); new_inv Hi I.
  - pose proof (count_pos reader_asleep ts i _ Hi eq_refl). unfold Semacquire in E. destruct (Z.ltb_spec 0 (readerSem rw)); [|done].
    injection E as <- <-. new_inv Hi I.
  - pose proof (count_pos is_reading ts i _ Hi eq_refl). unfold AddInt32 in E. rewrite i32_id in E by (destruct I; lia).
    rewrite i32_id in E by (destruct I; lia). change rwmutexMaxReaders with (2 ^ 30) in E. injection E as <- <-.
    destruct (Z.ltb_spec (readerCount rw + -1) 0); [|new_inv Hi I].
    destruct (Z.eqb_spec (readerCount rw + -1 + 1) 0); [destruct I; lia|].
    destruct (Z.eqb_spec (readerCount rw + -1 + 1) (- 2 ^ 30)); [destruct I; lia|]. cbn [orb] in *. new_inv Hi I.
  - pose proof (count_pos departing ts i _ Hi eq_refl). unfold AddInt32 in E. rewrite i32_id in E by (destruct I; lia).
    injection E as <- <-. destruct (Z.eqb_spec (readerWait rw + -1) 0); new_inv Hi I.
  - pose proof (count_pos waking ts i _ Hi eq_refl). unfold Semrelease in E. rewrite wrap_small in E by (destruct I; lia).
    injection E as <- <-. new_inv Hi I.
Qed.

Lemma inv_writer rw ts i p rw' q : inv rw ts → ts !! i = Some p →
  match p with lock_w | lock_add | lock_wait _ | lock_sleep | unlock_add | unlock_sema _ | unlock_w => True | _ => False end →
  run rw p = Some (rw', q) → inv rw' (<[i:=q]> ts).
Proof.
  intros I Hi Hp E. facts ts I. assert (0 <= count owning ts <= 1) as Hw by (destruct I, (w rw); simpl in *; lia).
  pose proof (inv_sane _ _ I i p Hi) as Hsane.
  destruct p; try destruct Hp; cbn [run Lock_step Unlock_step sane] in *; change rwmutexMaxReaders with (2 ^ 30) in *.
  - destruct (w rw) eqn:Ew; [done|]. injection E as <- <-. new_inv Hi I; rewrite Ew in *; simpl in *; lia.
  - pose proof (count_pos quiet ts i _ Hi eq_refl).
    pose proof (total_sole to_wake quiet ts i _ ltac:(by intros []) ltac:(lia) Hi eq_refl) as Hr. cbn [to_wake] in Hr.
    unfold AddInt32 in E. rewrite !i32_id in E by (destruct I; lia). injection E as <- <-.
    destruct (Z.eqb_spec (readerCount rw + - 2 ^ 30 + 2 ^ 30) 0); simpl negb; cbv iota; new_inv Hi I.
  - pose proof (count_pos adding ts i _ Hi eq_refl). unfold AddInt32 in E.
    pose proof (total_sole to_add adding ts i _ ltac:(by intros []) ltac:(lia) Hi eq_refl) as Hr. cbn [to_add] in Hr.
    rewrite i32_id in E by (destruct I; lia). injection E as <- <-.
    destruct (Z.eqb_spec (readerWait rw + r) 0); simpl negb; cbv iota; new_inv Hi I.
  - pose proof (count_pos writer_asleep ts i _ Hi eq_refl). unfold Semacquire in E. destruct (Z.ltb_spec 0 (writerSem rw)); [|done].
    injection E as <- <-. new_inv Hi I.
  - pose proof (count_pos is_writing ts i _ Hi eq_refl). unfold AddInt32 in E. rewrite i32_id in E by (destruct I; lia).
    injection E as <- <-. destruct (Z.leb_spec (2 ^ 30) (readerCount rw + 2 ^ 30)); [destruct I; lia|]. new_inv Hi I.
  - pose proof (count_pos quiet ts i _ Hi eq_refl).
    pose proof (total_sole to_wake quiet ts i _ ltac:(by intros []) ltac:(lia) Hi eq_refl) as Hr. cbn [to_wake] in Hr.
    unfold Semrelease in E.
    destruct (Z.ltb_spec 0 n).
    + rewrite wrap_small in E by (destruct I; lia). injection E as <- <-. new_inv Hi I.
    + injection E as <- <-. new_inv Hi I.
  - injection E as <- <-. pose proof (count_pos quiet ts i _ Hi eq_refl). new_inv Hi I; destruct (w rw); simpl in *; lia.
Qed.

Lemma inv_internal rw rw' ts i p q : inv rw ts → ts !! i = Some p → run rw p = Some (rw', q) → inv rw' (<[i:=q]> ts).
Proof.
  intros I Hi E. destruct p; try discriminate E; first [by eapply inv_reader | by eapply inv_writer].
Qed.

Lemma rw_inv_step c c' : inv c.1 c.2 → step c c' → inv c'.1 c'.2.
Proof.
  intros I [H|H]; [destruct H as [rw rw' ts i p q Hi E]; by eapply inv_internal|].
  destruct H as [rw ts i Hi|rw ts i Hi|rw ts i Hi|rw ts i Hi|rw ts i j p Hp Hi Hj]; cbn [fst snd] in *; [new_inv Hi I..|].
  assert (i ≠ j) as Hne by (intros ->; rewrite Hi in Hj; destruct Hp; congruence).
  assert (<[i:=idle]> ts !! j = Some idle) as Hj' by (by rewrite list_lookup_insert_ne).
  destruct Hp as [-> | ->], I; split; rewrite ?zlen_insert, ?(count_insert _ _ _ _ _ Hj'), ?(total_insert _ _ _ _ _ Hj'); counts Hi;
    try done; try lia; by repeat apply all_insert.
Qed.

Lemma rw_inv_reachable k c : Z.of_nat k < 2 ^ 30 → rtc step (initial k) c → inv c.1 c.2.
Proof.
  intros Hk. apply (rtc_ind_r (λ c, inv c.1 c.2)); [by apply rw_inv_initial|]. intros c1 c2 _ Hs I. by eapply rw_inv_step.
Qed.

(** * Progress *)

(** Steps left until a goroutine sleeps or is done, waking at most [n] readers. *)
Definition weight (n : Z) (p : pc) : Z :=
  match p with
  | idle | reading | writing | panicked => 0
  | rlock_add => 2 | rlock_sleep => 1
  | runlock_add => 3 | runlock_wait => 2 | runlock_sema => 1
  | lock_w => 4 | lock_add => 3 | lock_wait _ => 2 | lock_sleep => 1
  | unlock_add => n + 3 | unlock_sema k => k + 2 | unlock_w => 1
  end.

Lemma run_weight rw ts i p rw' q : inv rw ts → ts !! i = Some p → run rw p = Some (rw', q) →
  weight (zlen ts) q < weight (zlen ts) p.
Proof.
  intros I Hi E. facts ts I. pose proof (inv_sane _ _ I i p Hi) as Hsane. assert (0 <= count owning ts <= 1) by (destruct I, (w rw); simpl in *; lia).
  destruct p; try discriminate E; cbn [run RLock_step RUnlock_step Lock_step Unlock_step sane] in *; try (injection E as <- <-); try (case_match; simpl; lia).
  - destruct (Semacquire (readerSem rw)); [|done]. injection E as <- <-. simpl. lia.
  - repeat case_match; simpl; lia.
  - simpl. lia.
  - destruct (w rw); [done|]. injection E as <- <-. simpl. lia.
  - destruct (Semacquire (writerSem rw)); [|done]. injection E as <- <-. simpl. lia.
  - pose proof (count_pos is_writing ts i _ Hi eq_refl). unfold AddInt32. change rwmutexMaxReaders with (2 ^ 30).
    rewrite i32_id by (destruct I; lia). pose proof (zlen_nonneg ts). destruct (2 ^ 30 <=? _); simpl; destruct I; lia.
  - destruct (Z.ltb_spec 0 n); injection E as <- <-; simpl; lia.
  - simpl. lia.
Qed.

Lemma weight_bound rw ts : inv rw ts → 0 <= total (weight (zlen ts)) ts <= (zlen ts + 4) * zlen ts.
Proof.
  intros I. facts ts I. pose proof (zlen_nonneg ts). rewrite <- (total_const (zlen ts + 4) ts).
  assert (0 = total (λ _, 0) ts) as -> by (by rewrite total_const). assert (count owning ts <= 1) by (destruct I, (w rw); simpl in *; lia).
  split; apply total_le; intros p [i Hi]%list_elem_of_lookup; pose proof (inv_sane _ _ I i p Hi) as Hsane; destruct p; simpl in *; try lia.
  pose proof (count_pos quiet ts i _ Hi eq_refl).
  pose proof (total_sole to_wake quiet ts i _ ltac:(by intros []) ltac:(lia) Hi eq_refl) as Hr. cbn [to_wake] in Hr. destruct I. lia.
Qed.

Lemma rw_run_bound k c c' : inv c.1 c.2 → nsteps internal k c c' → Z.of_nat k <= total (weight (zlen c.2)) c.2 ∧ inv c'.1 c'.2.
Proof.
  intros I H. revert I. induction H as [c|k c1 c2 c3 Hs H IH]; intros I; [split; [apply (weight_bound _ _ I)|done]|].
  destruct (IH (rw_inv_step c1 c2 I (or_introl Hs))) as [Hk HI]. split; [|done]. revert I Hk. clear -Hs.
  destruct Hs as [rw rw' ts i p q Hi E]. cbn [fst snd]. intros I. rewrite zlen_insert, (total_insert _ _ _ _ _ Hi).
  pose proof (run_weight _ _ _ _ _ _ I Hi E). lia.
Qed.

(** Where no goroutine can move within the lock's code, those within it are
    asleep, and then one holds the lock. *)
Definition blocked (p : pc) : bool := match p with rlock_sleep | lock_w | lock_sleep => true | _ => false end.

Lemma rw_stuck_state rw ts : inv rw ts → (∀ c', ¬ internal (rw, ts) c') →
  ∀ (i : nat) p, ts !! i = Some p → p = idle ∨ p = reading ∨ p = writing ∨
    blocked p = true ∧ ∃ (j : nat) q, ts !! j = Some q ∧ (q = reading ∨ q = writing).
Proof.
  intros I Hstuck. facts ts I.
  assert (∀ (i : nat) p, ts !! i = Some p → run rw p = None) as Hrun.
  { intros i p Hi. destruct (run rw p) as [[rw' q]|] eqn:E; [|done]. destruct (Hstuck _ (internal_run rw rw' ts i p q Hi E)). }
  assert (∀ (i : nat) p, ts !! i = Some p → p = idle ∨ p = reading ∨ p = writing ∨ blocked p = true) as Hp.
  { intros i p Hi. pose proof (Hrun i p Hi) as E. pose proof (inv_sane _ _ I i p Hi) as Hsane.
    destruct p; auto; try done; cbn [run Unlock_step] in E. by destruct (0 <? n). }
  assert (∀ P, P idle = false → P reading = false → P writing = false → P rlock_sleep = false → P lock_w = false →
    P lock_sleep = false → count P ts = 0) as H0'.
  { intros P H1' H2' H3' H4' H5' H6'. destruct (decide (1 <= count P ts)) as [Hc|Hc]; [|pose proof (count_nonneg P ts); lia].
    destruct (count_ex P ts Hc) as (j & p & Hj & HP). destruct (Hp j p Hj) as [->|[->|[->|Hb]]]; try congruence.
    destruct p; try discriminate Hb; congruence. }
  pose proof (H0' departing eq_refl eq_refl eq_refl eq_refl eq_refl eq_refl) as Hdep.
  pose proof (H0' waking eq_refl eq_refl eq_refl eq_refl eq_refl eq_refl) as Hwak.
  pose proof (H0' adding eq_refl eq_refl eq_refl eq_refl eq_refl eq_refl) as Hadd.
  pose proof (H0' quiet eq_refl eq_refl eq_refl eq_refl eq_refl eq_refl) as Hqui.
  assert (∀ P q, 1 <= count P ts → (∀ p, P p = true → p = q ∨ ¬ (p = idle ∨ p = reading ∨ p = writing ∨ blocked p = true)) →
    ∃ j : nat, ts !! j = Some q) as Hsome.
  { intros P q Hc HP. destruct (count_ex P ts Hc) as (j & p & Hj & Hpp). exists j. destruct (HP p Hpp) as [->|Hn]; [done|].
    destruct (Hn (Hp j p Hj)). }
  assert (1 <= count announced ts → ∃ (j : nat) q, ts !! j = Some q ∧ (q = reading ∨ q = writing)) as Hann.
  { intros Ha. destruct (decide (1 <= count is_writing ts)) as [Hw|Hw].
    { destruct (Hsome is_writing writing Hw) as [j Hj]; [intros []; try done; [by left|right; naive_solver]|]. exists j, writing. auto. }
    destruct (Hsome writer_asleep lock_sleep) as [j Hj]; [lia|intros []; by try left|].
    pose proof (Hrun j _ Hj) as E. cbn [run Lock_step] in E. unfold Semacquire in E. destruct (Z.ltb_spec 0 (writerSem rw)); [done|].
    pose proof (count_pos writer_asleep ts j _ Hj eq_refl). destruct (Hsome is_reading reading) as [j' Hj'].
    { assert (readerSem rw <= 0 ∨ count reader_asleep ts = 0) as Hsem; [|destruct I; lia].
      destruct (decide (1 <= count reader_asleep ts)) as [Hc|]; [left|right; lia].
      destruct (Hsome reader_asleep rlock_sleep Hc) as [a Ha']; [intros []; by try left|]. pose proof (Hrun a _ Ha') as Ea.
      cbn [run RLock_step] in Ea. unfold Semacquire in Ea. by destruct (Z.ltb_spec 0 (readerSem rw)). }
    { intros []; try done; [by left|right; naive_solver]. }
    exists j', reading. auto. }
  intros i p Hi. destruct (Hp i p Hi) as [->|[->|[->|Hb]]]; auto. right. right. right. split; [done|]. apply Hann.
  pose proof (Hrun i p Hi) as E. destruct p; try discriminate Hb; cbn [run RLock_step Lock_step] in E.
  - pose proof (count_pos reader_asleep ts i _ Hi eq_refl). unfold Semacquire in E. destruct (Z.ltb_spec 0 (readerSem rw)); [done|].
    destruct I. lia.
  - destruct (w rw) eqn:Ew; [|done]. pose proof (inv_owning _ _ I) as Ho. rewrite Ew in Ho. simpl in Ho. lia.
  - pose proof (count_pos writer_asleep ts i _ Hi eq_refl). lia.
Qed.

(** C31: the reader/writer lock. However many goroutines (fewer than 2^30) call its
    operations, in whatever order their atomic steps fall: while one writes no
    other reads or writes; no unlocking of a lock that is held panics; the lock's
    code runs without further calls for a bounded number of steps; and where it
    stops, a goroutine within it sleeps, and then some goroutine is reading or
    writing, so that neither writers waiting for readers nor readers waiting for
    writers are left behind. *)
Theorem RWMutex_correct k c : Z.of_nat k < 2 ^ 30 → rtc step (initial k) c →
  (∀ (i j : nat) q, c.2 !! i = Some writing → c.2 !! j = Some q → q = reading ∨ q = writing → i = j) ∧
  (∀ i : nat, c.2 !! i ≠ Some panicked) ∧
  (∀ steps c', nsteps internal steps c c' → Z.of_nat steps <= (zlen c.2 + 4) * zlen c.2) ∧
  (∀ c', rtc internal c c' → (∀ c'', ¬ internal c' c'') → ∀ (i : nat) p, c'.2 !! i = Some p →
    p = idle ∨ p = reading ∨ p = writing ∨
    blocked p = true ∧ ∃ (j : nat) q, c'.2 !! j = Some q ∧ (q = reading ∨ q = writing)).
Proof.
  intros Hk Hr. pose proof (rw_inv_reachable k c Hk Hr) as I. split; [|split; [|split]].
  - intros i j q Hi Hj Hq. destruct c as [rw ts]. simpl in *. facts ts I. pose proof (count_pos is_writing ts i _ Hi eq_refl).
    destruct Hq as [-> | ->].
    + pose proof (count_pos is_reading ts j _ Hj eq_refl). destruct I, (w rw); simpl in *; lia.
    + destruct (decide (i = j)) as [|Hne]; [done|]. pose proof (count_two is_writing ts i j _ _ Hne Hi Hj eq_refl eq_refl).
      destruct I, (w rw); simpl in *; lia.
  - intros i Hi. destruct (inv_sane _ _ I i _ Hi).
  - intros steps c' H. destruct (rw_run_bound _ _ _ I H) as [Hs _]. pose proof (weight_bound _ _ I). lia.
  - intros [rw ts] H Hs. destruct (proj1 (rtc_nsteps _ _) H) as [s Hns]. destruct (rw_run_bound _ _ _ I Hns) as [_ I'].
    by apply (rw_stuck_state rw).
Qed.

Example RWMutex_correct_witness :
  let c := foldl move (initial 3) [(0, false); (0, false); (1, true); (1, true); (1, true); (1, true); (2, false); (2, false);
    (0, false); (0, false); (0, false); (0, false); (1, false)]%nat in
  rtc step (initial 3) c ∧ c.2 = [idle; writing; rlock_sleep] ∧ ∀ j : nat, c.2 !! j ≠ Some reading.
Proof.
  cbv zeta. set (c := foldl move (initial 3) _). assert (rtc step (initial 3) c) as Hr by apply rw_schedule_reachable.
  assert (c.2 = [idle; writing; rlock_sleep]) as Ec by (by vm_compute).
  split; [exact Hr|]. split; [exact Ec|]. intros j Hj. destruct (RWMutex_correct 3 c ltac:(lia) Hr) as [Hex _].
  assert (1%nat = j) as <- by (apply (Hex 1%nat j reading); [by rewrite Ec|exact Hj|by left]).
  rewrite Ec in Hj. discriminate Hj.
Defined.
