(* ===== verification/Once.v ===== *)
(** [Once] of [src/src/sync/once.go] as a program of atomic steps. Its [Mutex] is the
    abstract lock that [Mutex.v] shows the code of [Mutex] to refine. *)
From S2P Require Import Prelude.
From S2P Require Import Threads.

(** [started] and [finished] count the calls of the function, for the specification. *)
Record Once := { m : bool; done : Z; started : Z; finished : Z }.

Inductive pc :=
  | idle
  | do_load                   (* [atomic.LoadUint32(&o.done) == 1] *)
  | do_lock                   (* [o.m.Lock()] *)
  | do_check                  (* [o.done == 0], and the call of [f] *)
  | do_f                      (* [f] runs *)
  | do_store                  (* the deferred [atomic.StoreUint32(&o.done, 1)] *)
  | do_unlock                 (* the deferred [o.m.Unlock()] *)
  | returned.

(** A step of [Do]; [None] while it waits, or while [f] runs. *)
Definition Do_step (o : Once) (p : pc) : option (Once * pc) :=
  match p with
  | do_load => Some (o, if done o =? 1 then returned else do_lock)
  | do_lock => if m o then None else Some ({| m := true; done := done o; started := started o; finished := finished o |}, do_check)
  | do_check => if done o =? 0 then Some ({| m := m o; done := done o; started := started o + 1; finished := finished o |}, do_f) else Some (o, do_unlock)
  | do_store => Some ({| m := m o; done := 1; started := started o; finished := finished o |}, do_unlock)
  | do_unlock => Some ({| m := false; done := done o; started := started o; finished := finished o |}, returned)
  | idle | do_f | returned => None
  end.

Definition config : Type := Once * list pc.

Inductive internal : config → config → Prop :=
  | internal_run o o' ts i p q : ts !! i = Some p → Do_step o p = Some (o', q) → internal (o, ts) (o', <[i:=q]> ts).

(** The clients call [Do], again and again, and [f] ends, by returning or by a panic: the deferred calls are made in both cases. *)
Inductive client : config → config → Prop :=
  | client_Do o ts i p : p = idle ∨ p = returned → ts !! i = Some p → client (o, ts) (o, <[i:=do_load]> ts)
  | client_f o ts i : ts !! i = Some do_f →
      client (o, ts) ({| m := m o; done := done o; started := started o; finished := finished o + 1 |}, <[i:=do_store]> ts).

Definition step (c c' : config) : Prop := internal c c' ∨ client c c'.

Definition initial (n : nat) : config := ({| m := false; done := 0; started := 0; finished := 0 |}, replicate n idle).

(** A schedule: the goroutine named moves by its own step or else as a client. *)
Definition move (c : config) (i : nat) : config :=
  match c.2 !! i with
  | Some p =>
      match Do_step c.1 p with
      | Some (o, q) => (o, <[i:=q]> c.2)
      | None =>
          match p with
          | do_f => ({| m := m c.1; done := done c.1; started := started c.1; finished := finished c.1 + 1 |}, <[i:=do_store]> c.2)
          | do_lock => c
          | _ => (c.1, <[i:=do_load]> c.2)
          end
      end
  | None => c
  end.

Example two_callers :
  let s := foldl move (initial 2) [0; 0; 0; 0; 1; 1; 1]%nat in
  s.2 = [do_f; do_lock] ∧ started s.1 = 1 ∧
  (let t := foldl move s [0; 0; 0; 1; 1; 1]%nat in t.2 = [returned; returned] ∧ started t.1 = 1 ∧ finished t.1 = 1 ∧ m t.1 = false).
Proof. by vm_compute. Qed.

Lemma once_schedule c sched : rtc step c (foldl move c sched).
Proof.
  revert c. induction sched as [|i sched IH]; intros c; [done|]. simpl. etrans; [|apply IH]. clear IH. destruct c as [o ts]. unfold move. simpl.
  destruct (ts !! i) as [p|] eqn:Hi; [|done]. destruct (Do_step o p) as [[o' q]|] eqn:E; [apply rtc_once; left; by eapply internal_run|].
  destruct p; try by (simpl in E; destruct (done o =? 0)). 
  - apply rtc_once. right. eapply client_Do; [by left|done].
  - apply rtc_once. right. by apply client_f.
  - apply rtc_once. right. eapply client_Do; [by right|done].
Qed.

(** * The invariant *)

Definition holding (p : pc) : bool := match p with do_check | do_f | do_store | do_unlock => true | _ => false end.
Definition running (p : pc) : bool := match p with do_f => true | _ => false end.
Definition storing (p : pc) : bool := match p with do_store => true | _ => false end.
(** Past the function: [done] is set. *)
Definition settled (p : pc) : bool := match p with do_unlock | returned => true | _ => false end.

Record inv (o : Once) (ts : list pc) : Prop := {
  inv_holding : count holding ts = Z.b2z (m o);
  inv_done : done o = 0 ∨ done o = 1;
  inv_before : done o = 0 → started o = count running ts + count storing ts ∧ finished o = count storing ts ∧ count settled ts = 0;
  inv_after : done o = 1 → started o = 1 ∧ finished o = 1 ∧ count running ts = 0 ∧ count storing ts = 0 }.

Lemma holders ts : count running ts + count storing ts <= count holding ts.
Proof. unfold count. rewrite <- total_add. apply total_le. intros [] _; simpl; lia. Qed.

Ltac counts Hi :=
  rewrite ?zlen_insert, ?(count_insert _ _ _ _ _ Hi); cbn [holding running storing settled Z.b2z m done started finished] in *.
Ltac nonneg ts :=
  pose proof (holders ts); pose proof (count_nonneg holding ts); pose proof (count_nonneg running ts); pose proof (count_nonneg storing ts); pose proof (count_nonneg settled ts).

Lemma once_inv_initial n : inv (initial n).1 (initial n).2.
Proof.
  assert (∀ P, P idle = false → count P (replicate n idle) = 0) as H.
  { intros P HP. unfold count. induction n as [|n IH]; [done|]. simpl. by rewrite HP, IH. }
  split; simpl; rewrite ?H by done; auto.
Qed.

Lemma once_inv_internal o o' ts i p q : inv o ts → ts !! i = Some p → Do_step o p = Some (o', q) → inv o' (<[i:=q]> ts).
Proof.
  intros [Hh Hd Hb Ha] Hi E. nonneg ts. destruct p; simpl in E; try discriminate E.
  - injection E as <- <-. destruct (Z.eqb_spec (done o) 1); split; counts Hi; try done; lia.
  - destruct (m o) eqn:Em; [done|]. injection E as <- <-. split; counts Hi; try done; lia.
  - destruct (Z.eqb_spec (done o) 0); injection E as <- <-; split; counts Hi; try done; lia.
  - injection E as <- <-. pose proof (count_pos storing ts i _ Hi eq_refl). destruct (m o); split; counts Hi; try done; lia.
  - injection E as <- <-. pose proof (count_pos settled ts i _ Hi eq_refl). pose proof (count_pos holding ts i _ Hi eq_refl).
    destruct (m o); split; counts Hi; try done; lia.
Qed.

Lemma once_inv_step c c' : inv c.1 c.2 → step c c' → inv c'.1 c'.2.
Proof.
  intros I [H|H]; [destruct H; by eapply once_inv_internal|]. destruct H as [o ts i p Hp Hi|o ts i Hi]; cbn [fst snd] in *; nonneg ts; destruct I as [Hh Hd Hb Ha].
  - destruct Hp as [-> | ->]; [|pose proof (count_pos settled ts i _ Hi eq_refl)]; split; counts Hi; try done; lia.
  - pose proof (count_pos running ts i _ Hi eq_refl). split; counts Hi; try done; lia.
Qed.

Lemma once_inv_reachable n c : rtc step (initial n) c → inv c.1 c.2.
Proof. apply (rtc_ind_r (λ c, inv c.1 c.2)); [apply once_inv_initial|]. intros c1 c2 _ Hs I. by eapply once_inv_step. Qed.

(** * Progress *)

Definition weight (p : pc) : Z :=
  match p with idle | do_f | returned => 0 | do_load => 4 | do_lock => 3 | do_check => 2 | do_store => 2 | do_unlock => 1 end.

Lemma once_run_bound k c c' : nsteps internal k c c' → Z.of_nat k <= total weight c.2.
Proof.
  induction 1 as [c|k c1 c2 c3 Hs H IH].
  - change (Z.of_nat 0) with 0. assert (0 = total (λ _, 0) c.2) as -> by (by rewrite total_const). apply total_le. intros [] _; simpl; lia.
  - destruct Hs as [o o' ts i p q Hi E]. cbn [fst snd] in *. rewrite (total_insert _ _ _ _ _ Hi) in IH.
    assert (weight q + 1 <= weight p); [|lia]. destruct p; simpl in E; try discriminate E; repeat case_match; simplify_eq; simpl; lia.
Qed.

Lemma once_stuck o ts : inv o ts → (∀ c', ¬ internal (o, ts) c') → ∀ (i : nat) p, ts !! i = Some p →
  p = idle ∨ p = returned ∨ p = do_f ∨ p = do_lock ∧ ∃ j : nat, ts !! j = Some do_f.
Proof.
  intros I Hstuck. assert (∀ (i : nat) p, ts !! i = Some p → Do_step o p = None) as Hn.
  { intros i p Hi. destruct (Do_step o p) as [[o' q]|] eqn:E; [|done]. destruct (Hstuck _ (internal_run o o' ts i p q Hi E)). }
  intros i p Hi. pose proof (Hn i p Hi) as E. destruct p; simpl in E; auto; try done.
  - right; right; right. split; [done|]. destruct (m o) eqn:Em; [|done]. destruct I as [Hh _ _ _]. rewrite Em in Hh. simpl in Hh.
    destruct (count_ex holding ts) as (j & q & Hj & Hq); [lia|]. exists j. pose proof (Hn j q Hj) as Ej. destruct q; simpl in Hq, Ej; try done.
    by destruct (done o =? 0).
  - by destruct (done o =? 0).
Qed.

(** C32: [Once]. However many goroutines call [Do], as often as they like and with their atomic
    steps in any order: the function is called at most once, and every [Do] that has
    returned did so after that call ended; [Do]'s own steps are bounded; and where no
    goroutine can move, those inside [Do] run the function or wait for the one that
    does. *)
Theorem Once_correct n c : rtc step (initial n) c →
  started c.1 <= 1 ∧
  (∀ i : nat, c.2 !! i = Some returned → started c.1 = 1 ∧ finished c.1 = 1) ∧
  (∀ k c', nsteps internal k c c' → Z.of_nat k <= 4 * zlen c.2) ∧
  ((∀ c', ¬ internal c c') → ∀ (i : nat) p, c.2 !! i = Some p → p = idle ∨ p = returned ∨ p = do_f ∨ p = do_lock ∧ ∃ j : nat, c.2 !! j = Some do_f).
Proof.
  intros Hr. pose proof (once_inv_reachable n c Hr) as I. destruct c as [o ts]. cbn [fst snd] in *. nonneg ts. split; [|split; [|split]].
  - destruct I as [Hh [Hd|Hd] Hb Ha]; [|destruct (Ha Hd); lia]. destruct (Hb Hd). destruct (m o); simpl in Hh; lia.
  - intros i Hi. pose proof (count_pos settled ts i _ Hi eq_refl). destruct I as [Hh [Hd|Hd] Hb Ha]; [destruct (Hb Hd) as (_ & _ & ?); lia|].
    destruct (Ha Hd) as (? & ? & _). done.
  - intros k c' Hk. pose proof (once_run_bound _ _ _ Hk) as Hb. simpl in Hb. assert (total weight ts <= total (λ _, 4) ts) as Hw by (apply total_le; intros [] _; simpl; lia).
    rewrite total_const in Hw. lia.
  - exact (once_stuck o ts I).
Qed.

Example Once_correct_witness : let c := foldl move (initial 2) [0; 0; 0; 0; 1; 1; 1; 0; 0; 0; 1; 1; 1]%nat in
  rtc step (initial 2) c ∧ c.2 !! 1%nat = Some returned ∧ finished c.1 = 1.
Proof.
  intros c. assert (rtc step (initial 2) c) as Hr by (apply once_schedule). split; [done|]. split; [by vm_compute|].
  destruct (Once_correct 2 c Hr) as (_ & H & _). apply (H 1%nat). by vm_compute.
Defined.
