(* ===== verification/WaitGroup.v ===== *)
(** [WaitGroup] of [src/src/sync/waitgroup.go] as programs of atomic steps over its
    counters and its semaphores, a new one for each round of waiting. Its [Mutex] is the
    abstract lock that [Mutex.v] shows the code of [Mutex] to refine. *)
From S2P Require Import Prelude.
From S2P Require Import Threads.

(** [sema] is the number of a semaphore among all that were made, [None] for nil. *)
Record WaitGroup := { m : bool; counter : Z; waiters : Z; sema : option nat; sems : list Z }.

Inductive pc :=
  | idle
  | add_counter (delta : Z)   (* [atomic.AddInt32(&wg.counter, int32(delta))] *)
  | add_load                  (* [atomic.LoadInt32(&wg.waiters) == 0], with [v == 0] *)
  | add_lock                  (* [wg.m.Lock()] *)
  | add_check                 (* [atomic.LoadInt32(&wg.counter) == 0] *)
  | add_release (i : Z)       (* the loop of [runtime_Semrelease(wg.sema)] *)
  | add_clear                 (* [wg.sema = nil] *)
  | add_unlock                (* [wg.m.Unlock()] *)
  | wait_load                 (* [atomic.LoadInt32(&wg.counter) == 0] *)
  | wait_lock                 (* [wg.m.Lock()] *)
  | wait_enter                (* [atomic.AddInt32(&wg.waiters, 1)] *)
  | wait_check                (* [atomic.LoadInt32(&wg.counter) == 0] *)
  | wait_leave                (* [atomic.AddInt32(&wg.waiters, -1)] *)
  | wait_return               (* [wg.m.Unlock()], and return *)
  | wait_sema                 (* [if wg.sema == nil { wg.sema = new(uint32) }; s := wg.sema] *)
  | wait_unlock (s : nat)     (* [wg.m.Unlock()] *)
  | wait_sleep (s : nat)      (* [runtime_Semacquire(s)] *)
  | returned                  (* [Wait] has returned *)
  | panicked.

Definition set_m b g := {| m := b; counter := counter g; waiters := waiters g; sema := sema g; sems := sems g |}.
Definition set_counter c g := {| m := m g; counter := c; waiters := waiters g; sema := sema g; sems := sems g |}.
Definition set_waiters n g := {| m := m g; counter := counter g; waiters := n; sema := sema g; sems := sems g |}.
Definition set_sema s g := {| m := m g; counter := counter g; waiters := waiters g; sema := s; sems := sems g |}.
Definition set_sems l g := {| m := m g; counter := counter g; waiters := waiters g; sema := sema g; sems := l |}.

(** [Add]; a semaphore that is nil makes [runtime_Semrelease] panic. *)
Definition Add_step (g : WaitGroup) (p : pc) : option (WaitGroup * pc) :=
  match p with
  | add_counter delta =>
      let v := AddInt32 (counter g) (i32 delta) in
      Some (set_counter v g, if v <? 0 then panicked else if 0 <? v then idle else add_load)
  | add_load => Some (g, if waiters g =? 0 then idle else add_lock)
  | add_lock => if m g then None else Some (set_m true g, add_check)
  | add_check => Some (g, if counter g =? 0 then add_release 0 else add_unlock)
  | add_release i =>
      if i <? waiters g then
        match sema g with
        | Some s => match sems g !! s with Some c => Some (set_sems (<[s := Semrelease c]> (sems g)) g, add_release (i + 1)) | None => Some (g, panicked) end
        | None => Some (g, panicked)
        end
      else Some (set_waiters 0 g, add_clear)
  | add_clear => Some (set_sema None g, add_unlock)
  | add_unlock => Some (set_m false g, idle)
  | _ => None
  end.

Definition Wait_step (g : WaitGroup) (p : pc) : option (WaitGroup * pc) :=
  match p with
  | wait_load => Some (g, if counter g =? 0 then returned else wait_lock)
  | wait_lock => if m g then None else Some (set_m true g, wait_enter)
  | wait_enter => Some (set_waiters (AddInt32 (waiters g) 1) g, wait_check)
  | wait_check => Some (g, if counter g =? 0 then wait_leave else wait_sema)
  | wait_leave => Some (set_waiters (AddInt32 (waiters g) (-1)) g, wait_return)
  | wait_return => Some (set_m false g, returned)
  | wait_sema =>
      match sema g with
      | Some s => Some (g, wait_unlock s)
      | None => Some (set_sema (Some (length (sems g))) (set_sems (sems g ++ [0]) g), wait_unlock (length (sems g)))
      end
  | wait_unlock s => Some (set_m false g, wait_sleep s)
  | wait_sleep s =>
      match sems g !! s with
      | Some c => match Semacquire c with Some c' => Some (set_sems (<[s := c']> (sems g)) g, returned) | None => None end
      | None => None
      end
  | _ => None
  end.

(** [Done] is [Add(-1)]. *)
Definition Done : pc := add_counter (-1).

Definition run (g : WaitGroup) (p : pc) : option (WaitGroup * pc) :=
  match p with
  | add_counter _ | add_load | add_lock | add_check | add_release _ | add_clear | add_unlock => Add_step g p
  | idle | returned | panicked => None
  | _ => Wait_step g p
  end.

(** * Executions *)

(** A goroutine with what it has seen, for the specification: whether the counter has been zero since
    its last call. *)
Definition config : Type := WaitGroup * list (pc * bool).

Definition observe (g : WaitGroup) (ts : list (pc * bool)) : list (pc * bool) := (λ t, (t.1, t.2 || (counter g =? 0))) <$> ts.

Inductive internal : config → config → Prop :=
  | internal_run g g' ts i p b q : ts !! i = Some (p, b) → run g p = Some (g', q) → internal (g, ts) (g', observe g' (<[i := (q, b)]> ts)).

(** The calls: [Add] of any number ([Done] is [Add] of -1), and [Wait]. *)
Inductive client : config → config → Prop :=
  | client_Add g ts i p b delta : p = idle ∨ p = returned → ts !! i = Some (p, b) → client (g, ts) (g, observe g (<[i := (add_counter delta, false)]> ts))
  | client_Wait g ts i p b : p = idle ∨ p = returned → ts !! i = Some (p, b) → client (g, ts) (g, observe g (<[i := (wait_load, false)]> ts)).

Definition step (c c' : config) : Prop := internal c c' ∨ client c c'.

Definition initial (n : nat) : config := ({| m := false; counter := 0; waiters := 0; sema := None; sems := [] |}, replicate n (idle, true)).

(** A schedule: a goroutine moves by its own step, or else calls [Add] or [Wait]. *)
Definition move (c : config) (s : nat * option Z) : config :=
  let '(i, call) := s in
  match c.2 !! i with
  | Some (p, b) =>
      match run c.1 p with
      | Some (g, q) => (g, observe g (<[i := (q, b)]> c.2))
      | None =>
          match p with
          | idle | returned => (c.1, observe c.1 (<[i := (match call with Some d => add_counter d | None => wait_load end, false)]> c.2))
          | _ => c
          end
      end
  | None => c
  end.

Lemma wg_schedule c sched : rtc step c (foldl move c sched).
Proof.
  revert c. induction sched as [|[i call] sched IH]; intros c; [done|]. simpl. etrans; [|apply IH]. clear IH. destruct c as [g ts]. unfold move. simpl.
  destruct (ts !! i) as [[p b]|] eqn:Hi; [|done]. destruct (run g p) as [[g' q]|] eqn:E; [apply rtc_once; left; by eapply internal_run|].
  destruct p; try done; apply rtc_once; right; destruct call.
  - eapply client_Add; [by left|done].
  - eapply client_Wait; [by left|done].
  - eapply client_Add; [by right|done].
  - eapply client_Wait; [by right|done].
Qed.

(** One goroutine adds two, another waits, and two calls of [Done] let it go. *)
Example add_wait_done :
  let s := foldl move (initial 3) [(0, Some 2%Z); (0, None); (1, None); (1, None); (1, None); (1, None); (1, None); (1, None); (1, None); (1, None)]%nat in
  s.2 = [(idle, true); (wait_sleep 0, false); (idle, true)] ∧ waiters s.1 = 1 ∧
  (let t := foldl move s [(2, Some (-1)%Z); (2, None); (2, Some (-1)%Z); (2, None); (2, None); (2, None); (2, None); (2, None); (2, None); (2, None); (2, None); (1, None)]%nat in
   t.2 = [(idle, true); (returned, true); (idle, true)] ∧ sema t.1 = None).
Proof. by vm_compute. Qed.

(** * The invariant *)

Definition holding (p : pc) : bool :=
  match p with add_check | add_release _ | add_clear | add_unlock | wait_enter | wait_check | wait_leave | wait_return | wait_sema | wait_unlock _ => true | _ => false end.
Definition releasing (p : pc) : bool := match p with add_release _ | add_clear => true | _ => false end.
(** Counted in [waiters], but not parked: with or without having found the counter zero. *)
Definition entering (p : pc) : bool := match p with wait_check | wait_leave | wait_sema => true | _ => false end.
Definition joining (p : pc) : bool := match p with wait_check | wait_leave => true | _ => false end.
(** After the counter became zero, on the way to release the waiters. *)
Definition pending (p : pc) : bool := match p with add_load | add_lock | add_check | add_release _ => true | _ => false end.
Definition parked (s : nat) (p : pc) : bool := match p with wait_unlock r | wait_sleep r => r =? s | _ => false end%nat.
Definition released (p : pc) : Z := match p with add_release k => k | _ => 0 end.

Definition sum (f : pc → Z) (ts : list (pc * bool)) : Z := total (λ t, f t.1) ts.
Definition cnt (P : pc → bool) (ts : list (pc * bool)) : Z := count (λ t, P t.1) ts.

(** What each goroutine relies on, where [r] goroutines are releasing. *)
Definition ok (g : WaitGroup) (r : Z) (t : pc * bool) : Prop :=
  match t.1 with
  | add_release k => 0 <= k <= waiters g
  | add_clear => waiters g = 0
  | returned | wait_leave | wait_return => t.2 = true
  | wait_unlock s | wait_sleep s => (s < length (sems g))%nat ∧ (t.2 = true ∨ sema g = Some s ∧ r = 0)
  | _ => True
  end.

(** The releases that the semaphore [s] is still to get. *)
Definition due (g : WaitGroup) (ts : list (pc * bool)) (s : nat) : Z :=
  if bool_decide (sema g = Some s) then waiters g - sum released ts - cnt entering ts else 0.

Record inv0 (n : Z) (g : WaitGroup) (ts : list (pc * bool)) : Prop := {
  inv_goroutines : zlen ts = n ∧ n < 2 ^ 31;
  inv_lock : cnt holding ts = Z.b2z (m g);
  inv_waiters : 0 <= waiters g <= n;
  inv_nil : sema g = None → waiters g = cnt entering ts;
  inv_parked : ∀ (s : nat) c, sems g !! s = Some c → 0 <= c ∧ c + due g ts s = cnt (parked s) ts;
  inv_fresh : ∀ s, sema g = Some s → (s < length (sems g))%nat ∧ (cnt releasing ts = 0 → sems g !! s = Some 0);
  inv_ok : ∀ (i : nat) t, ts !! i = Some t → ok g (cnt releasing ts) t;
  inv_pending : counter g = 0 → cnt joining ts < waiters g → 1 <= cnt pending ts }.

(** Where the counter is zero, everybody has seen it. *)
Record inv (n : Z) (g : WaitGroup) (ts : list (pc * bool)) : Prop := {
  inv_base :> inv0 n g ts;
  inv_seen : counter g = 0 → ∀ (i : nat) t, ts !! i = Some t → t.2 = true }.

Lemma cnt_insert P ts i t u : ts !! i = Some t → cnt P (<[i:=u]> ts) = cnt P ts - Z.b2z (P t.1) + Z.b2z (P u.1).
Proof. apply (count_insert (λ t, P t.1)). Qed.
Lemma sum_insert f ts i t u : ts !! i = Some t → sum f (<[i:=u]> ts) = sum f ts - f t.1 + f u.1.
Proof. apply (total_insert (λ t, f t.1)). Qed.
Lemma cnt_pos P ts i t : ts !! i = Some t → P t.1 = true → 1 <= cnt P ts.
Proof. apply (count_pos (λ t, P t.1)). Qed.
Lemma cnt_nonneg P ts : 0 <= cnt P ts.
Proof. apply count_nonneg. Qed.

Lemma cnt_classes ts : cnt releasing ts + cnt entering ts <= cnt holding ts ∧ cnt joining ts <= cnt entering ts ∧ 0 <= cnt joining ts ∧ 0 <= cnt releasing ts ∧ 0 <= cnt pending ts.
Proof.
  split; [|split; [|split; [|split]; apply cnt_nonneg]]; unfold cnt, count; [rewrite <- total_add|]; apply total_le; intros [[] b] _; simpl; lia.
Qed.

Lemma cnt_parked s ts : 0 <= cnt (parked s) ts ∧ cnt (parked s) ts + cnt entering ts <= zlen ts.
Proof.
  split; [apply cnt_nonneg|]. rewrite <- (Z.mul_1_l (zlen ts)), <- (total_const 1). unfold cnt, count. rewrite <- total_add. apply total_le.
  intros [[] b] _; simpl; try lia; by destruct (_ =? _)%nat.
Qed.

Lemma not_released ts : cnt releasing ts = 0 → sum released ts = 0.
Proof. apply (total_none (λ t, released t.1) (λ t, releasing t.1)). by intros [[] b]. Qed.

Lemma released_sole ts i t : cnt releasing ts <= 1 → ts !! i = Some t → releasing t.1 = true → sum released ts = released t.1.
Proof. apply (total_sole (λ t, released t.1) (λ t, releasing t.1)). by intros [[] b]. Qed.

Lemma holding_sole ts i j t u : cnt holding ts <= 1 → i ≠ j → ts !! i = Some t → ts !! j = Some u → holding t.1 = true → holding u.1 = false.
Proof.
  intros Hc Hne Hi Hj Ht. destruct (holding u.1) eqn:Hu; [|done]. pose proof (count_two (λ t, holding t.1) ts i j t u Hne Hi Hj Ht Hu). unfold cnt in Hc. lia.
Qed.

(** What another goroutine relies on survives a step. *)
Lemma ok_other g g' r r' t : ok g r t → (length (sems g) <= length (sems g'))%nat → (releasing t.1 = true → waiters g' = waiters g) →
  t.2 = true ∨ sema g = None ∨ r ≠ 0 ∨ sema g' = sema g ∧ (r = 0 → r' = 0) → ok g' r' t.
Proof.
  intros H Hl Hw Hs. destruct t as [[] b]; unfold ok in *; simpl in *; try rewrite (Hw eq_refl); try done.
  - destruct H as [? H]. split; [lia|]. destruct H as [H|[H Hr]]; [by left|]. destruct Hs as [Hs|[Hs|[Hs|[Hs Hr']]]]; [by left|congruence|done|right]. rewrite Hs. auto.
  - destruct H as [? H]. split; [lia|]. destruct H as [H|[H Hr]]; [by left|]. destruct Hs as [Hs|[Hs|[Hs|[Hs Hr']]]]; [by left|congruence|done|right]. rewrite Hs. auto.
Qed.

Lemma inv0_initial n : Z.of_nat n < 2 ^ 31 → inv (Z.of_nat n) (initial n).1 (initial n).2.
Proof.
  intros Hn. assert (∀ P, P idle = false → cnt P (replicate n (idle, true)) = 0) as H.
  { intros P HP. unfold cnt, count. clear Hn. induction n as [|n IH]; [done|]. simpl. by rewrite HP, IH. }
  assert (∀ (i : nat) t, replicate n (idle, true) !! i = Some t → t = (idle, true)) as Hl by (by intros i t [-> _]%lookup_replicate).
  split; [split|]; simpl; rewrite ?H by done; try done; try lia.
  - unfold zlen. rewrite length_replicate. lia.
  - intros i t Hi. by rewrite (Hl i t Hi).
  - intros _ i t Hi. by rewrite (Hl i t Hi).
Qed.

Lemma ok_insert g g' r r' ts i t u : ts !! i = Some t → (∀ (j : nat) v, ts !! j = Some v → ok g r v) → ok g' r' u → (length (sems g) <= length (sems g'))%nat →
  waiters g' = waiters g ∨ holding t.1 = true ∧ cnt holding ts <= 1 →
  (∀ (j : nat) v, ts !! j = Some v → v.2 = true) ∨ sema g = None ∨ r ≠ 0 ∨ sema g' = sema g ∧ (r = 0 → r' = 0) →
  ∀ (j : nat) v, <[i:=u]> ts !! j = Some v → ok g' r' v.
Proof.
  intros Hi Ho Hu Hl Hw Hs j v [(_ & <- & _)|(Hne & Hj)]%list_lookup_insert_Some; [done|]. apply (ok_other g g' r r' v); [by eapply Ho|done|..].
  - intros Hr. destruct Hw as [Hw|[Ht Hc]]; [done|]. pose proof (holding_sole ts i j t v Hc Hne Hi Hj Ht). by destruct v as [[] ?].
  - destruct Hs as [Hs|Hs]; [left; by eapply Hs|by right].
Qed.

(** A goroutine that has the lock makes up the sums over those that have it. *)
Lemma alone_sum f n g ts i t : inv0 n g ts → ts !! i = Some t → holding t.1 = true → (∀ p, holding p = false → f p = 0) → sum f ts = f t.1.
Proof.
  intros I Hi Ht Hf. apply (total_sole (λ t, f t.1) (λ t, holding t.1) ts i t); [intros u; apply Hf| |done|done].
  destruct I as [_ Hl _ _ _ _ _ _]. unfold cnt in Hl. rewrite Hl. by destruct (m g).
Qed.

Lemma alone n g ts i t : inv0 n g ts → ts !! i = Some t → holding t.1 = true →
  (m g = true ∧ cnt holding ts = 1) ∧ cnt releasing ts = Z.b2z (releasing t.1) ∧ cnt entering ts = Z.b2z (entering t.1) ∧ cnt joining ts = Z.b2z (joining t.1) ∧ sum released ts = released t.1.
Proof.
  intros I Hi Ht. split; [|split; [|split; [|split]]].
  - pose proof (cnt_pos holding ts i t Hi Ht). destruct I as [_ Hl _ _ _ _ _ _]. destruct (m g); simpl in Hl; [done|lia].
  - apply (alone_sum (λ p, Z.b2z (releasing p)) n g ts i t I Hi Ht). by intros [].
  - apply (alone_sum (λ p, Z.b2z (entering p)) n g ts i t I Hi Ht). by intros [].
  - apply (alone_sum (λ p, Z.b2z (joining p)) n g ts i t I Hi Ht). by intros [].
  - apply (alone_sum released n g ts i t I Hi Ht). by intros [].
Qed.

Ltac wg_counts Hi :=
  rewrite ?(cnt_insert _ _ _ _ _ Hi), ?(sum_insert _ _ _ _ _ Hi);
  cbn [fst snd holding releasing entering joining pending parked released Z.b2z m counter waiters sema sems set_m set_counter set_waiters set_sema set_sems] in *.

(** The clauses of the invariant, but for what needs the case at hand. *)
Ltac wg_clauses I Hi :=
  split; [by rewrite zlen_insert|wg_counts Hi..| |];
  [try lia|try done; try lia|try (intros Hx; lia || (pose proof (inv_nil _ _ _ I Hx); lia))
  |intros s c Hsc; pose proof (inv_parked _ _ _ I s c) as Hx; unfold due in *; wg_counts Hi; repeat case_bool_decide; try (specialize (Hx Hsc); lia)
  |intros s Hx; pose proof (inv_fresh _ _ _ I s) as Hy; try (specialize (Hy Hx) as [? Hy]; split; [done|try (intros; apply Hy; lia)])
  |eapply ok_insert; [exact Hi|exact (inv_ok _ _ _ I)|cbn [ok fst]; try done; try lia|try done|first [by left|right; split; [done|lia]]|try (do 3 right; split; [done|wg_counts Hi; lia])]
  |wg_counts Hi; try lia].

Lemma inv_Add n g g' ts i p b q : inv n g ts → ts !! i = Some (p, b) → Add_step g p = Some (g', q) → inv0 n g' (<[i:=(q, b)]> ts).
Proof.
  intros [I Hs] Hi E. pose proof (alone n g ts i _ I Hi) as Ha. pose proof (cnt_classes ts) as Hc. pose proof (cnt_parked 0 ts) as Hp.
  pose proof (inv_goroutines _ _ _ I) as Hn. pose proof (inv_lock _ _ _ I) as Hl. pose proof (inv_waiters _ _ _ I) as Hw. pose proof (inv_pending _ _ _ I) as Hj.
  pose proof (inv_ok _ _ _ I i _ Hi) as Ho.
  destruct p; try discriminate E; cbn [Add_step] in E; cbn [fst holding releasing entering joining released Z.b2z] in Ha; try specialize (Ha eq_refl); cbn [ok fst snd] in Ho.
  - injection E as <- <-. destruct (Z.ltb_spec (AddInt32 (counter g) (i32 delta)) 0); [|destruct (Z.ltb_spec 0 (AddInt32 (counter g) (i32 delta)))]; wg_clauses I Hi.
  - injection E as <- <-. destruct (Z.eqb_spec (waiters g) 0); wg_clauses I Hi.
  - destruct (m g) eqn:Em; [done|]. injection E as <- <-. wg_clauses I Hi.
  - injection E as <- <-. destruct (Z.eqb_spec (counter g) 0); wg_clauses I Hi. left. exact (Hs e).
  - destruct (Z.ltb_spec i0 (waiters g)).
    + destruct (sema g) as [r|] eqn:Er; [|pose proof (inv_nil _ _ _ I Er); lia].
      destruct (inv_fresh _ _ _ I r Er) as [Hr _]. apply lookup_lt_is_Some in Hr as [w Hr]. rewrite Hr in E. injection E as <- <-.
      assert (∀ (s : nat) c, sems g !! s = Some c → 0 <= c <= n) as Hb.
      { intros s c Hsc. pose proof (inv_parked _ _ _ I s c Hsc). pose proof (cnt_parked s ts). unfold due in *. case_bool_decide; lia. }
      assert (Semrelease w = w + 1) as -> by (pose proof (Hb r w Hr); apply wrap_small; lia).
      wg_clauses I Hi.
      * assert (s = r) as -> by congruence. rewrite list_lookup_insert_eq in Hsc by (by eapply lookup_lt_Some). injection Hsc as <-. pose proof (inv_parked _ _ _ I r w Hr) as Hy. unfold due in Hy. case_bool_decide; [lia|done].
      * rewrite list_lookup_insert_ne in Hsc by congruence. specialize (Hx Hsc). lia.
      * rewrite length_insert. split; [exact (proj1 (Hy Hx))|lia].
      * cbn. lia.
      * cbn. by rewrite length_insert.
    + injection E as <- <-. wg_clauses I Hi.
  - injection E as <- <-. wg_clauses I Hi.
    + done.
    + do 2 right. left. lia.
  - injection E as <- <-. wg_clauses I Hi.
Qed.

(** The one that enters is not yet counted. *)
Lemma enter_bound n g ts i b : inv0 n g ts → ts !! i = Some (wait_enter, b) → waiters g + 1 <= n.
Proof.
  intros I Hi. destruct (alone n g ts i _ I Hi eq_refl) as (_ & Hr & He & _ & Hz). cbn in Hr, He, Hz. destruct (inv_goroutines _ _ _ I) as [<- _].
  pose proof (λ s, cnt_parked s (<[i:=(wait_check, b)]> ts)) as Hp. rewrite zlen_insert in Hp. destruct (sema g) as [s|] eqn:Es.
  - destruct (inv_fresh _ _ _ I s Es) as [_ Hf]. destruct (inv_parked _ _ _ I s 0 (Hf Hr)) as [_ Hd]. unfold due in Hd. case_bool_decide; [|done].
    specialize (Hp s). wg_counts Hi. rewrite !(cnt_insert _ _ _ _ _ Hi) in Hp. cbn [fst parked entering Z.b2z] in Hp. lia.
  - specialize (Hp 0%nat). rewrite !(cnt_insert _ _ _ _ _ Hi) in Hp. cbn [fst parked entering Z.b2z] in Hp. pose proof (inv_nil _ _ _ I Es). pose proof (cnt_nonneg (parked 0) ts). lia.
Qed.

Lemma entered_bound n g ts i t : inv0 n g ts → ts !! i = Some t → entering t.1 = true → 1 <= waiters g.
Proof.
  intros I Hi Ht. assert (holding t.1 = true ∧ releasing t.1 = false ∧ released t.1 = 0) as (Hh & Hx & Hk) by (by destruct t as [[] b]).
  destruct (alone n g ts i _ I Hi Hh) as (_ & Hr & He & _ & Hz). rewrite Hx in Hr. rewrite Ht in He. rewrite Hk in Hz. cbn in Hr, He. destruct (sema g) as [s|] eqn:Es.
  - destruct (inv_fresh _ _ _ I s Es) as [_ Hf]. destruct (inv_parked _ _ _ I s 0 (Hf Hr)) as [_ Hd]. unfold due in Hd. case_bool_decide; [|done].
    pose proof (cnt_nonneg (parked s) ts). lia.
  - pose proof (inv_nil _ _ _ I Es). lia.
Qed.

Lemma none_parked n g ts s : inv0 n g ts → (length (sems g) <= s)%nat → cnt (parked s) ts = 0.
Proof.
  intros I Hs. pose proof (cnt_nonneg (parked s) ts). destruct (Z.eq_dec (cnt (parked s) ts) 0) as [|Hc]; [done|].
  destruct (count_ex (λ t, parked s t.1) ts) as (i & t & Hi & Ht); [unfold cnt in *; lia|]. pose proof (inv_ok _ _ _ I i t Hi) as Ho.
  destruct t as [[] b]; unfold ok in Ho; simpl in Ht, Ho; try done; apply Nat.eqb_eq in Ht; lia.
Qed.

Lemma inv_Wait n g g' ts i p b q : inv n g ts → ts !! i = Some (p, b) → Wait_step g p = Some (g', q) → inv0 n g' (<[i:=(q, b)]> ts).
Proof.
  intros [I Hs] Hi E. pose proof (alone n g ts i _ I Hi) as Ha. pose proof (cnt_classes ts) as Hc.
  pose proof (inv_goroutines _ _ _ I) as Hn. pose proof (inv_lock _ _ _ I) as Hl. pose proof (inv_waiters _ _ _ I) as Hw. pose proof (inv_pending _ _ _ I) as Hj.
  pose proof (inv_ok _ _ _ I i _ Hi) as Ho.
  destruct p; try discriminate E; cbn [Wait_step] in E; cbn [fst holding releasing entering joining released Z.b2z] in Ha; try specialize (Ha eq_refl); cbn [ok fst snd] in Ho.
  - injection E as <- <-. destruct (Z.eqb_spec (counter g) 0) as [e|]; wg_clauses I Hi. exact (Hs e i _ Hi).
  - destruct (m g) eqn:Em; [done|]. injection E as <- <-. wg_clauses I Hi.
  - injection E as <- <-. pose proof (enter_bound n g ts i b I Hi). assert (AddInt32 (waiters g) 1 = waiters g + 1) as -> by (apply swrap_small; lia). wg_clauses I Hi.
  - injection E as <- <-. destruct (Z.eqb_spec (counter g) 0) as [e|]; wg_clauses I Hi. exact (Hs e i _ Hi).
  - injection E as <- <-. pose proof (entered_bound n g ts i _ I Hi eq_refl).
    assert (AddInt32 (waiters g) (-1) = waiters g - 1) as -> by (apply swrap_small; lia). wg_clauses I Hi.
  - injection E as <- <-. wg_clauses I Hi.
  - destruct (sema g) as [r|] eqn:Er; injection E as <- <-.
    + destruct (inv_fresh _ _ _ I r Er) as [Hr Hz]. wg_clauses I Hi.
      * intros Hx. by rewrite Er in Hx.
      * assert (s = r) as -> by congruence. rewrite Nat.eqb_refl. specialize (Hx Hsc). cbn. lia.
      * rewrite (proj2 (Nat.eqb_neq r s)) by congruence. specialize (Hx Hsc). cbn. lia.
      * split; [done|]. right. wg_counts Hi. split; [done|lia].
    + pose proof (none_parked n g ts _ I (le_n _)) as Hz. pose proof (inv_nil _ _ _ I Er). wg_clauses I Hi; try done.
      * congruence.
      * congruence.
      * assert (s = length (sems g)) as -> by congruence. rewrite list_lookup_middle in Hsc by done. injection Hsc as <-. rewrite Nat.eqb_refl. cbn. lia.
      * rewrite (proj2 (Nat.eqb_neq _ s)) by congruence. rewrite lookup_app_l in Hsc; [specialize (Hx Hsc); cbn; lia|].
        apply lookup_lt_Some in Hsc. rewrite length_app in Hsc. cbn in Hsc. assert (s ≠ length (sems g)) by congruence. lia.
      * injection Hx as <-. rewrite length_app. split; [cbn; lia|]. intros _. by apply list_lookup_middle.
      * cbn. rewrite length_app. split; [cbn; lia|]. right. wg_counts Hi. split; [done|lia].
      * cbn. rewrite length_app. lia.
      * right. by left.
  - rename s into r. injection E as <- <-. wg_clauses I Hi. split; [apply Ho|]. wg_counts Hi. destruct Ho as [_ [?|[? ?]]]; [by left|right]. split; [done|lia].
  - rename s into r. destruct (sems g !! r) as [w|] eqn:Hr; [|done]. unfold Semacquire in E. destruct (Z.ltb_spec 0 w); [|done]. injection E as <- <-.
    assert (∀ c, 0 <= c → <[r:=c]> (sems g) !! r = Some c) as Hself by (intros; apply list_lookup_insert_eq; by eapply lookup_lt_Some).
    wg_clauses I Hi.
    + destruct (decide (s = r)) as [->|]; [rewrite Hself in Hsc by lia; injection Hsc as <-; pose proof (inv_parked _ _ _ I r w Hr) as Hy; unfold due in Hy; rewrite Nat.eqb_refl; case_bool_decide; cbn; (done || lia)|].
      rewrite list_lookup_insert_ne in Hsc by congruence. rewrite (proj2 (Nat.eqb_neq r s)) by congruence. specialize (Hx Hsc). cbn. lia.
    + destruct (decide (s = r)) as [->|]; [rewrite Hself in Hsc by lia; injection Hsc as <-; pose proof (inv_parked _ _ _ I r w Hr) as Hy; unfold due in Hy; rewrite Nat.eqb_refl; case_bool_decide; cbn; (done || lia)|].
      rewrite list_lookup_insert_ne in Hsc by congruence. rewrite (proj2 (Nat.eqb_neq r s)) by congruence. specialize (Hx Hsc). cbn. lia.
    + specialize (Hy Hx) as [? Hy]. rewrite length_insert. split; [done|]. intros Hz. rewrite list_lookup_insert_ne; [apply Hy; lia|].
      intros ->. rewrite Hr in Hy. assert (Some w = Some 0) as [=] by (apply Hy; lia). lia.
    + cbn. destruct Ho as [_ [?|[Hx Hz]]]; [done|]. destruct (inv_fresh _ _ _ I r Hx) as [_ Hy]. specialize (Hy Hz). rewrite Hr in Hy. injection Hy as ->. lia.
    + cbn. by rewrite length_insert.
Qed.

Lemma sum_observe f g ts : sum f (observe g ts) = sum f ts.
Proof. unfold sum, observe. induction ts as [|t ts IH]; [done|]. cbn. unfold total in IH. by rewrite IH. Qed.
Lemma cnt_observe P g ts : cnt P (observe g ts) = cnt P ts.
Proof. apply (sum_observe (λ p, Z.b2z (P p))). Qed.
Lemma observe_lookup g ts (i : nat) t : observe g ts !! i = Some t → ∃ b, ts !! i = Some (t.1, b) ∧ t.2 = b || (counter g =? 0).
Proof. unfold observe. rewrite list_lookup_fmap. destruct (ts !! i) as [[p b]|]; simpl; [intros [= <-]|done]. by exists b. Qed.

Lemma inv_observe n g ts : inv0 n g ts → inv n g (observe g ts).
Proof.
  intros [Hn Hl Hw Hnil Hp Hf Ho Hj]. split; [split|]; rewrite ?cnt_observe; try done.
  - unfold observe, zlen. by rewrite length_fmap.
  - intros s c Hc. unfold due. rewrite sum_observe, !cnt_observe. by apply Hp.
  - intros i [p b'] (b & Hi & E)%observe_lookup. simpl in *. subst b'. specialize (Ho i _ Hi). unfold ok in *. simpl in *.
    destruct p; try done; destruct b; try done; simpl in *; destruct Ho as [? Ho]; (split; [done|]); auto.
    all: destruct Ho as [|?]; [done|by right].
  - intros Hz i t (b & Hi & ->)%observe_lookup. rewrite Hz. by rewrite orb_true_r.
Qed.

Lemma inv_run n g g' ts i p b q : inv n g ts → ts !! i = Some (p, b) → run g p = Some (g', q) → inv n g' (observe g' (<[i:=(q, b)]> ts)).
Proof. intros I Hi E. apply inv_observe. destruct p; try discriminate E; (by eapply inv_Add) || by eapply inv_Wait. Qed.

Lemma inv_call n g ts i p q b : inv n g ts → p = idle ∨ p = returned → ts !! i = Some (p, b) → q = wait_load ∨ (∃ d, q = add_counter d) →
  inv n g (observe g (<[i:=(q, false)]> ts)).
Proof.
  intros [I Hs] Hp Hi Hq. apply inv_observe. pose proof (cnt_classes ts) as Hc.
  pose proof (inv_goroutines _ _ _ I) as Hn. pose proof (inv_lock _ _ _ I) as Hl. pose proof (inv_waiters _ _ _ I) as Hw. pose proof (inv_pending _ _ _ I) as Hj.
  destruct Hp as [-> | ->], Hq as [-> |[d ->]]; wg_clauses I Hi.
Qed.

Lemma wg_inv_step n c c' : inv n c.1 c.2 → step c c' → inv n c'.1 c'.2.
Proof.
  intros I [H|H]; [destruct H; by eapply inv_run|]. destruct H; cbn [fst snd] in *; eapply inv_call; try done; eauto.
Qed.

Lemma wg_reachable n c : Z.of_nat n < 2 ^ 31 → rtc step (initial n) c → inv (Z.of_nat n) c.1 c.2.
Proof. intros Hn. apply (rtc_ind_r (λ c, inv (Z.of_nat n) c.1 c.2)); [by apply inv0_initial|]. intros c1 c2 _ Hs I. by eapply wg_inv_step. Qed.

(** * Progress *)

(** The steps that a goroutine has at most to go, among [n]. *)
Definition weight (n : Z) (p : pc) : Z :=
  match p with
  | idle | returned | panicked => 0
  | add_counter _ => n + 7 | add_load => n + 6 | add_lock => n + 5 | add_check => n + 4 | add_release k => Z.max 0 (n - k) + 3 | add_clear => 2 | add_unlock => 1
  | wait_load => 7 | wait_lock => 6 | wait_enter => 5 | wait_check => 4 | wait_leave => 2 | wait_return => 1 | wait_sema => 3 | wait_unlock _ => 2 | wait_sleep _ => 1
  end.

Lemma wg_run_weight n g g' ts i p b q : inv n g ts → ts !! i = Some (p, b) → run g p = Some (g', q) → 0 <= weight n q ∧ weight n q + 1 <= weight n p.
Proof.
  intros [I _] Hi E. pose proof (inv_waiters _ _ _ I). pose proof (inv_ok _ _ _ I i _ Hi) as Ho. unfold ok in Ho. simpl in Ho.
  destruct p; try discriminate E; cbn [run Add_step Wait_step] in E; repeat case_match; simplify_eq; cbn [weight]; lia.
Qed.

Lemma wg_run_bound n k c c' : inv n c.1 c.2 → nsteps internal k c c' → Z.of_nat k <= sum (weight n) c.2.
Proof.
  intros I H. induction H as [c|k c1 c2 c3 Hs H IH].
  - assert (0 = total (λ _, 0) c.2) as E by (by rewrite total_const). rewrite E at 1. apply total_le. pose proof (inv_waiters _ _ _ I). intros [[] b] _; simpl; lia.
  - assert (inv n c2.1 c2.2) as I2 by (eapply wg_inv_step; [exact I|by left]). specialize (IH I2). destruct Hs as [g g' ts i p b q Hi E]. cbn [fst snd] in *.
    rewrite sum_observe, (sum_insert _ _ _ _ _ Hi) in IH. pose proof (wg_run_weight n g g' ts i p b q I Hi E). cbn [fst] in IH. lia.
Qed.

Lemma wg_stuck n g ts : inv n g ts → (∀ c', ¬ internal (g, ts) c') → ∀ (i : nat) p b, ts !! i = Some (p, b) →
  p = idle ∨ p = returned ∨ p = panicked ∨ counter g ≠ 0 ∧ ∃ s, p = wait_sleep s.
Proof.
  intros I Hstuck. assert (∀ (i : nat) p b, ts !! i = Some (p, b) → run g p = None) as Hn.
  { intros i p b Hi. destruct (run g p) as [[g' q]|] eqn:E; [|done]. destruct (Hstuck _ (internal_run g g' ts i p b q Hi E)). }
  destruct I as [I Hs].
  assert (∀ P, (∀ p, P p = true → run g p ≠ None) → cnt P ts = 0) as Hnone.
  { intros P HP. pose proof (cnt_nonneg P ts). destruct (Z.eq_dec (cnt P ts) 0) as [|Hc]; [done|]. destruct (count_ex (λ t, P t.1) ts) as (i & [p b] & Hi & Hp); [unfold cnt in *; lia|].
    destruct (HP p Hp (Hn i p b Hi)). }
  assert (m g = false) as Hm.
  { destruct (m g) eqn:Em; [|done]. pose proof (inv_lock _ _ _ I) as Hl. rewrite Hnone, Em in Hl; [done|]. intros [] Hp; try done; simpl; repeat case_match; done. }
  assert (∀ P, (∀ p, P p = true → p ≠ idle ∧ p ≠ returned ∧ p ≠ panicked ∧ ∀ s, p ≠ wait_sleep s) → cnt P ts = 0) as Hgone.
  { intros P HP. apply Hnone. intros p Hp. destruct (HP p Hp) as (? & ? & ? & Hne). destruct p; try done; try (by edestruct Hne); simpl; rewrite ?Hm; repeat case_match; done. }
  intros i p b Hi. pose proof (Hn i p b Hi) as E. pose proof (inv_ok _ _ _ I i _ Hi) as Ho. unfold ok in Ho. simpl in Ho.
  destruct p; auto; try (exfalso; simpl in E; rewrite ?Hm in E; repeat case_match; done).
  do 3 right. split; [|by exists s]. intros Hz.
  assert (cnt releasing ts = 0 ∧ cnt entering ts = 0 ∧ cnt joining ts = 0 ∧ cnt pending ts = 0) as (Hr & He & Hj & Hp) by (repeat split; apply Hgone; by intros []).
  pose proof (not_released ts Hr). pose proof (inv_pending _ _ _ I Hz). pose proof (cnt_pos (parked s) ts i _ Hi (Nat.eqb_refl s)).
  destruct Ho as [Ho _]. apply lookup_lt_is_Some in Ho as [c Hc]. destruct (inv_parked _ _ _ I s c Hc) as [? Hd]. unfold due in Hd.
  simpl in E. rewrite Hc in E. unfold Semacquire in E. destruct (Z.ltb_spec 0 c); [done|]. case_bool_decide; lia.
Qed.

(** The lock is held by nobody who panics: only [Add] of too little does. *)
Lemma wg_panic n g g' ts i p b : inv n g ts → ts !! i = Some (p, b) → run g p = Some (g', panicked) → counter g' < 0.
Proof.
  intros [I _] Hi E. pose proof (alone n g ts i _ I Hi) as Ha. pose proof (inv_waiters _ _ _ I). pose proof (inv_nil _ _ _ I) as Hnil.
  destruct p; try discriminate E; cbn [run Add_step Wait_step] in E; try (repeat case_match; simplify_eq; fail).
  - repeat case_match; simplify_eq. cbn. lia.
  - destruct (Ha eq_refl) as (_ & _ & He & _). cbn in He. pose proof (inv_ok _ _ _ I i _ Hi) as Ho. cbn in Ho.
    destruct (Z.ltb_spec i0 (waiters g)); [|done]. destruct (sema g) as [s|] eqn:Es; [|specialize (Hnil eq_refl); lia].
    destruct (inv_fresh _ _ _ I s Es) as [Hs _]. apply lookup_lt_is_Some in Hs as [c Hs]. by rewrite Hs in E.
Qed.

(** C33: [WaitGroup]. However many goroutines (fewer than 2^31) call [Add], [Done] and [Wait],
    with whatever numbers and with their atomic steps in any order: a [Wait] that has
    returned did so after the counter was zero at some time since it was called; nothing panics
    but an [Add] that makes the counter negative; the operations' own steps are bounded;
    and where no goroutine can move, everybody is outside of the operations, or asleep in [Wait]
    with a counter that is not zero: no waiter is forgotten. *)
Theorem WaitGroup_correct n c : Z.of_nat n < 2 ^ 31 → rtc step (initial n) c →
  (∀ (i : nat) b, c.2 !! i = Some (returned, b) → b = true) ∧
  (∀ (i : nat) p b g, c.2 !! i = Some (p, b) → run c.1 p = Some (g, panicked) → counter g < 0) ∧
  (∀ k c', nsteps internal k c c' → Z.of_nat k <= (Z.of_nat n + 7) * Z.of_nat n) ∧
  ((∀ c', ¬ internal c c') → ∀ (i : nat) p b, c.2 !! i = Some (p, b) → p = idle ∨ p = returned ∨ p = panicked ∨ counter c.1 ≠ 0 ∧ ∃ s, p = wait_sleep s).
Proof.
  intros Hn Hr. pose proof (wg_reachable n c Hn Hr) as I. destruct c as [g ts]. cbn [fst snd] in *. split; [|split; [|split]].
  - intros i b Hi. apply (inv_ok _ _ _ I i _ Hi).
  - intros i p b g' Hi E. by eapply wg_panic.
  - intros k c' Hk. pose proof (wg_run_bound _ _ (g, ts) c' I Hk) as Hb. destruct (inv_goroutines _ _ _ I) as [Hl _]. rewrite <- Hl at 2. rewrite <- total_const.
    etrans; [exact Hb|]. apply total_le. intros [p b] Hp. apply list_elem_of_lookup in Hp as [i Hi]. pose proof (inv_ok _ _ _ I i _ Hi) as Ho. unfold ok in Ho. simpl in Ho.
    destruct p; simpl; lia.
  - exact (wg_stuck _ g ts I).
Qed.

Example WaitGroup_correct_witness :
  let c := foldl move (initial 3) [(0, Some 2%Z); (0, None); (1, None); (1, None); (1, None); (1, None); (1, None); (1, None); (1, None); (1, None);
    (2, Some (-1)%Z); (2, None); (2, Some (-1)%Z); (2, None); (2, None); (2, None); (2, None); (2, None); (2, None); (2, None); (2, None); (1, None)]%nat in
  rtc step (initial 3) c ∧ ∃ b, c.2 !! 1%nat = Some (returned, b) ∧ b = true.
Proof.
  intros c. assert (rtc step (initial 3) c) as Hr by (apply wg_schedule). split; [done|]. exists true. split; [by vm_compute|].
  destruct (WaitGroup_correct 3 c ltac:(lia) Hr) as (H & _). apply (H 1%nat). by vm_compute.
Defined.
