(* ===== verification/Buffer.v ===== *)
(** The variable-sized buffer of [src/src/bytes/buffer.go]: a backing array read at
    one end and written at the other, that slides its contents down or moves to a
    larger array when it is full. *)
From S2P Require Import Prelude.
From S2P Require Import Utf8.
From S2P Require Import StringsSearch.

Inductive readOp := opInvalid | opReadRune | opRead.
#[global] Instance readOp_eq_dec : EqDecision readOp.
Proof. solve_decision. Defined.

(** [buf] is the first [len] bytes of its backing array [arr], whose length is its
    capacity. The array [bootstrap] backs the first growth of a nil [buf] and is
    not read otherwise: it appears here once it is the backing array. *)
Record Buffer := { arr : bytes; len : Z; off : Z; is_nil : bool; lastRead : readOp }.

Definition MinRead : Z := 512.
Definition bootstrap_size : Z := 64.

Definition cap (b : Buffer) : Z := zlen (arr b).
Definition buf (b : Buffer) : bytes := take (Z.to_nat (len b)) (arr b).
Definition set_last (r : readOp) (b : Buffer) : Buffer :=
  {| arr := arr b; len := len b; off := off b; is_nil := is_nil b; lastRead := r |}.
Definition set_off (o : Z) (b : Buffer) : Buffer :=
  {| arr := arr b; len := len b; off := o; is_nil := is_nil b; lastRead := lastRead b |}.
(** [b.buf = b.buf[0:n]], up to the capacity. *)
Definition reslice (n : Z) (b : Buffer) : go Buffer :=
  if decide (0 <= n <= cap b)
  then Ret {| arr := arr b; len := n; off := off b; is_nil := is_nil b; lastRead := lastRead b |}
  else Panic "slice bounds out of range".
(** [copy(b.buf[m:], p)]. *)
Definition copy_at (b : Buffer) (m : Z) (p : bytes) : Buffer * Z :=
  let '(a, n) := copy (buf b) m p in
  ({| arr := a ++ drop (Z.to_nat (len b)) (arr b); len := len b; off := off b; is_nil := is_nil b; lastRead := lastRead b |}, n).

Definition Bytes (b : Buffer) : go bytes := slice_from (buf b) (off b).
Definition String (b : Buffer) : go bytes := slice_from (buf b) (off b).
Definition Len (b : Buffer) : Z := len b - off b.

Definition Truncate (b : Buffer) (n : Z) : go Buffer :=
  let b := set_last opInvalid b in
  if (n <? 0) || (Len b <? n) then Panic "bytes.Buffer: truncation out of range" else
  let b := if n =? 0 then set_off 0 b else b in
  reslice (off b + n) b.

Definition Reset (b : Buffer) : go Buffer := Truncate b 0.

Section alloc.
(** The width of [int], and the size of the largest slice that can be made. *)
Context (host limit : Z).
Abbreviation int := (swrap host) (only parsing).

Definition ErrTooLarge : string := "bytes.Buffer: too large".
Definition makeSlice (n : Z) : go bytes :=
  if decide (0 <= n <= limit) then Ret (replicate (Z.to_nat n) 0) else Panic ErrTooLarge.

Definition grow (b : Buffer) (n : Z) : go (Buffer * Z) :=
  let m := Len b in
  b ← (if (m =? 0) && negb (off b =? 0) then Truncate b 0 else Ret b);
  b ← (if cap b <? int (len b + n) then
        if is_nil b && (n <=? bootstrap_size) then
          Ret {| arr := replicate (Z.to_nat bootstrap_size) 0; len := bootstrap_size; off := 0; is_nil := false; lastRead := lastRead b |}
        else if int (m + n) <=? Z.quot (cap b) 2 then
          src ← Bytes b;
          b ← reslice m {| arr := (copy (arr b) 0 src).1; len := len b; off := off b; is_nil := is_nil b; lastRead := lastRead b |};
          Ret (set_off 0 b)
        else
          a ← makeSlice (int (int (2 * cap b) + n));
          src ← Bytes b;
          Ret {| arr := (copy a 0 src).1; len := zlen a; off := 0; is_nil := false; lastRead := lastRead b |}
      else Ret b);
  b ← reslice (int (int (off b + m) + n)) b;
  Ret (b, int (off b + m)).

Definition Grow (b : Buffer) (n : Z) : go Buffer :=
  if n <? 0 then Panic "bytes.Buffer.Grow: negative count" else
  '(b, m) ← grow b n;
  reslice m b.

Definition Write (b : Buffer) (p : bytes) : go (Buffer * Z) :=
  let b := set_last opInvalid b in
  '(b, m) ← grow b (zlen p);
  Ret (copy_at b m p).
Definition WriteString (b : Buffer) (s : bytes) : go (Buffer * Z) :=
  let b := set_last opInvalid b in
  '(b, m) ← grow b (zlen s);
  Ret (copy_at b m s).

Definition WriteByte (b : Buffer) (c : Z) : go Buffer :=
  let b := set_last opInvalid b in
  '(b, m) ← grow b 1;
  a ← upd (buf b) m c;
  Ret {| arr := a ++ drop (Z.to_nat (len b)) (arr b); len := len b; off := off b; is_nil := is_nil b; lastRead := lastRead b |}.

(** The array [runeBytes] is overwritten before it is read: a fresh one each time. *)
Definition WriteRune (b : Buffer) (r : Z) : go (Buffer * Z) :=
  if r <? RuneSelf then b ← WriteByte b (u8 r); Ret (b, 1) else
  '(runeBytes, n) ← EncodeRune (replicate (Z.to_nat UTFMax) 0) r;
  p ← slice_to runeBytes n;
  '(b, _) ← Write b p;
  Ret (b, n).

(** [io.Reader] and [io.Writer]: the bytes a [Read] of at most so many leaves in
    its argument, the count of a [Write], and an error. *)
Inductive io_error := EOF | ErrShortWrite | other_error.
Context {R W : Type} (Read_ : R → Z → R * bytes * option io_error) (Write_ : W → bytes → W * Z * option io_error).

Fixpoint ReadFrom_loop (fuel : nat) (b : Buffer) (r : R) (n : Z) : go (Buffer * R * Z * option io_error) :=
  match fuel with
  | O => NoFuel
  | S fuel =>
    b ← (let free := int (cap b - len b) in
         if free <? MinRead then
           src ← Bytes b;
           if int (off b + free) <? MinRead then
             a ← makeSlice (int (int (2 * cap b) + MinRead));
             b ← reslice (len b - off b) {| arr := (copy a 0 src).1; len := zlen a; off := off b; is_nil := false; lastRead := lastRead b |};
             Ret (set_off 0 b)
           else
             b ← reslice (len b - off b) {| arr := (copy (arr b) 0 src).1; len := len b; off := off b; is_nil := is_nil b; lastRead := lastRead b |};
             Ret (set_off 0 b)
         else Ret b);
    let '(r, p, e) := Read_ r (cap b - len b) in
    let m := zlen p in
    b ← reslice (len b + m) {| arr := (copy (arr b) (len b) p).1; len := len b; off := off b; is_nil := is_nil b; lastRead := lastRead b |};
    let n := i64 (n + m) in
    match e with
    | Some EOF => Ret (b, r, n, None)
    | Some e => Ret (b, r, n, Some e)
    | None => ReadFrom_loop fuel b r n
    end
  end.
Definition ReadFrom (fuel : nat) (b : Buffer) (r : R) : go (Buffer * R * Z * option io_error) :=
  let b := set_last opInvalid b in
  b ← (if len b <=? off b then Truncate b 0 else Ret b);
  ReadFrom_loop fuel b r 0.

Definition WriteTo (b : Buffer) (w : W) : go (Buffer * W * Z * option io_error) :=
  let b := set_last opInvalid b in
  if off b <? len b then
    let nBytes := Len b in
    p ← Bytes b;
    let '(w, m, e) := Write_ w p in
    if nBytes <? m then Panic "bytes.Buffer.WriteTo: invalid Write count" else
    let b := set_off (int (off b + m)) b in
    let n := m in
    match e with
    | Some e => Ret (b, w, n, Some e)
    | None =>
      if negb (m =? nBytes) then Ret (b, w, n, Some ErrShortWrite) else
      b ← Truncate b 0; Ret (b, w, n, None)
    end
  else b ← Truncate b 0; Ret (b, w, 0, None).
End alloc.

(** [Read] into a slice of [k] bytes: what it leaves in them, and whether it is
    [io.EOF]. *)
Definition Read (b : Buffer) (k : Z) : go (Buffer * bytes * bool) :=
  let b := set_last opInvalid b in
  if len b <=? off b then
    b ← Truncate b 0;
    Ret (b, [], negb (k =? 0))
  else
    src ← Bytes b;
    let data := take (Z.to_nat k) src in
    let n := zlen data in
    let b := set_off (off b + n) b in
    Ret (if 0 <? n then set_last opRead b else b, data, false).

Definition Next (b : Buffer) (n : Z) : go (Buffer * bytes) :=
  let b := set_last opInvalid b in
  let m := Len b in
  let n := if m <? n then m else n in
  data ← slice (arr b) (off b) (off b + n);
  let b := set_off (off b + n) b in
  Ret (if 0 <? n then set_last opRead b else b, data).

Definition ReadByte (b : Buffer) : go (Buffer * option Z) :=
  let b := set_last opInvalid b in
  if len b <=? off b then b ← Truncate b 0; Ret (b, None) else
  c ← idx (buf b) (off b);
  Ret (set_last opRead (set_off (off b + 1) b), Some c).

Definition ReadRune (b : Buffer) : go (Buffer * option (Z * Z)) :=
  let b := set_last opInvalid b in
  if len b <=? off b then b ← Truncate b 0; Ret (b, None) else
  let b := set_last opReadRune b in
  c ← idx (buf b) (off b);
  if c <? RuneSelf then Ret (set_off (off b + 1) b, Some (c, 1)) else
  p ← slice_from (buf b) (off b);
  let '(r, n) := DecodeRune p in
  Ret (set_off (off b + n) b, Some (r, n)).

(** The errors of the unreading operations are [false]. *)
Definition UnreadRune (b : Buffer) : go (Buffer * bool) :=
  if decide (lastRead b ≠ opReadRune) then Ret (b, false) else
  let b := set_last opInvalid b in
  if 0 <? off b then
    p ← slice_to (buf b) (off b);
    '(_, n) ← DecodeLastRune p;
    Ret (set_off (off b - n) b, true)
  else Ret (b, true).

Definition UnreadByte (b : Buffer) : Buffer * bool :=
  if decide (lastRead b ≠ opReadRune ∧ lastRead b ≠ opRead) then (b, false) else
  let b := set_last opInvalid b in
  (if 0 <? off b then set_off (off b - 1) b else b, true).

(** [readSlice], and with it [ReadBytes] and [ReadString]: the line, and whether it
    ends without the delimiter. *)
Definition readSlice (b : Buffer) (delim : Z) : go (Buffer * bytes * bool) :=
  src ← slice_from (buf b) (off b);
  i ← IndexByte src delim;
  let '(end_, eof) := if i <? 0 then (len b, true) else (off b + i + 1, false) in
  line ← slice (arr b) (off b) end_;
  Ret (set_last opRead (set_off end_ b), line, eof).
Definition ReadBytes (b : Buffer) (delim : Z) : go (Buffer * bytes * bool) :=
  '(b, slice, err) ← readSlice b delim; Ret (b, [] ++ slice, err).
Definition ReadString (b : Buffer) (delim : Z) : go (Buffer * bytes * bool) := readSlice b delim.

Definition NewBuffer (data : bytes) (spare : bytes) : Buffer :=
  {| arr := data ++ spare; len := zlen data; off := 0; is_nil := false; lastRead := opInvalid |}.
Definition NewBufferString (s : bytes) : Buffer :=
  {| arr := s; len := zlen s; off := 0; is_nil := false; lastRead := opInvalid |}.
(** The zero value. *)
Definition empty : Buffer := {| arr := []; len := 0; off := 0; is_nil := true; lastRead := opInvalid |}.

Example buffer_run :
  ('(b, n) ← Write 64 1000 empty (str "hello"); '(b, _) ← WriteRune 64 1000 b 8364; '(b, c) ← ReadByte b;
   '(b, l, eof) ← ReadBytes b (ch "l"); let '(b, _) := UnreadByte b in '(b, d, _) ← Read b 3; '(b, r) ← ReadRune b;
   p ← Bytes b; Ret (n, c, l, eof, d, r, cap b)) =
  Ret (5, Some (ch "h"), str "el", false, str "llo", Some (8364, 3), 64) ∧
  (* a rune read after the bytes of another one is not what is unread *)
  ('(b, _) ← ReadByte (NewBufferString [226; 130; 172]); '(b, _) ← ReadByte b; '(b, r) ← ReadRune b; '(b, _) ← UnreadRune b;
   p ← Bytes b; Ret (r, p)) = Ret (Some (65533, 1), [226; 130; 172]) ∧
  (* growing far too much is another panic *)
  Grow 64 1000 (NewBufferString [1]) (2 ^ 63 - 1) = Panic "slice bounds out of range" ∧
  (* growing in between loses the byte to unread, without an error *)
  ('(b, _) ← ReadByte (NewBufferString [1; 2]); b ← Grow 64 1000 b 9; let '(b, ok) := UnreadByte b in p ← Bytes b; Ret (ok, p)) = Ret (true, [2]) ∧
  (* a negative rune is written as a byte *)
  ('(b, n) ← WriteRune 64 1000 empty (-1); p ← Bytes b; Ret (n, p)) = Ret (1, [255]) ∧
  (* after a read that found nothing, the byte of an earlier read is unread *)
  ('(b, _) ← ReadByte (NewBufferString [1]); '(b, l, eof) ← ReadBytes b 9; let '(b, ok) := UnreadByte b in p ← Bytes b; Ret (l, eof, ok, p)) = Ret ([], true, true, [1]).
Proof. by vm_compute. Qed.

(** * The contents of a buffer *)

Definition contents (b : Buffer) : bytes := take (Z.to_nat (len b - off b)) (drop (Z.to_nat (off b)) (arr b)).
(** The bytes read that are still in the array. *)
Definition past (b : Buffer) : bytes := take (Z.to_nat (off b)) (arr b).

Record valid (limit : Z) (b : Buffer) : Prop := {
  valid_off : 0 <= off b <= len b;
  valid_len : len b <= cap b;
  valid_cap : cap b <= limit;
  valid_nil : is_nil b = true → arr b = [];
  valid_bytes : are_bytes (arr b) }.

Ltac fields := cbn [arr len off is_nil lastRead set_last set_off].
Ltac is_valid := split; unfold cap in *; fields; try lia; try done.

Lemma buf_drop b : 0 <= off b <= len b → drop (Z.to_nat (off b)) (buf b) = contents b.
Proof. intros. unfold buf, contents. rewrite skipn_firstn_comm. f_equal. lia. Qed.

Lemma zlen_buf limit b : valid limit b → zlen (buf b) = len b.
Proof. intros []. apply zlen_take. unfold cap in *. lia. Qed.

Lemma Bytes_eq limit b : valid limit b → Bytes b = Ret (contents b).
Proof.
  intros Hv. pose proof (zlen_buf _ _ Hv). destruct Hv. unfold Bytes. rewrite slice_from_eq by lia. by rewrite buf_drop.
Qed.

Lemma zlen_contents limit b : valid limit b → zlen (contents b) = Len b.
Proof. intros Hv. pose proof (zlen_buf _ _ Hv). destruct Hv. rewrite <- buf_drop, zlen_drop by lia. unfold Len. lia. Qed.

(** The buffer as its past, its contents and spare room. *)
Lemma arr_split limit b : valid limit b → ∃ spare, arr b = past b ++ contents b ++ spare ∧ zlen (past b) = off b.
Proof.
  intros []. unfold past, contents. exists (drop (Z.to_nat (len b - off b)) (drop (Z.to_nat (off b)) (arr b))).
  rewrite take_drop, take_drop. split; [done|]. apply zlen_take. unfold cap in *. lia.
Qed.

Lemma contents_of p c s (b : Buffer) : arr b = p ++ c ++ s → off b = zlen p → len b = zlen p + zlen c → contents b = c ∧ past b = p.
Proof.
  intros Ea Eo El. unfold contents, past. rewrite Ea, Eo, El. split; [|apply take_zlen_app].
  rewrite drop_zlen_app. replace (zlen p + zlen c - zlen p) with (zlen c) by lia. apply take_zlen_app.
Qed.

Lemma Truncate_spec limit b n : valid limit b →
  if decide (0 <= n <= Len b)
  then Truncate b n ⇓ λ b', valid limit b' ∧ contents b' = take (Z.to_nat n) (contents b) ∧ lastRead b' = opInvalid ∧
         cap b' = cap b ∧ is_nil b' = is_nil b ∧ (n = 0 → off b' = 0)
  else Truncate b n = Panic "bytes.Buffer: truncation out of range".
Proof.
  intros Hv. unfold Truncate, reslice, Len, cap in *. fields. case_decide as Hn; [|bool_cases; done].
  destruct (Z.ltb_spec n 0), (Z.ltb_spec (len b - off b) n); try lia. cbn [orb]. destruct Hv. unfold cap in *.
  destruct (Z.eqb_spec n 0) as [->|]; fields; rewrite decide_True by lia; cbn [wp]; fields; (split; [is_valid|]); [done|].
  unfold contents. fields. rewrite take_take. split; [f_equal; lia|done].
Qed.

Section grow.
Context (host limit : Z) (Hhost : 32 <= host) (Hlimit : bootstrap_size <= limit < 2 ^ (host - 2)).

(** Returns, or panics with [ErrTooLarge] where [P] holds. *)
Definition returns {A} (m : go A) (P : Prop) (Q : A → Prop) : Prop := (m ⇓ Q) ∨ m = Panic ErrTooLarge ∧ P.

Lemma returns_bind {A B} (m : go A) (f : A → go B) P Q Q' :
  returns m P Q → (∀ a, Q a → f a ⇓ Q') → returns (m ≫= f) P Q'.
Proof. intros [H|[-> HP]] Hf; [left; by eapply wp_bind_mono|by right]. Qed.

Lemma buf_int_small x : - 2 ^ (host - 1) <= x < 2 ^ (host - 1) → swrap host x = x.
Proof. intros. apply swrap_small; lia. Qed.

Lemma half : 2 * 2 ^ (host - 2) = 2 ^ (host - 1).
Proof. rewrite <- Z.pow_succ_r by lia. f_equal. lia. Qed.

Lemma makeSlice_eq c n : 0 <= c <= limit → 0 <= n <= limit →
  makeSlice limit (swrap host (swrap host (2 * c) + n)) =
  if decide (2 * c + n <= limit) then Ret (replicate (Z.to_nat (2 * c + n)) 0) else Panic ErrTooLarge.
Proof.
  intros Hc Hn. pose proof half. rewrite (buf_int_small (2 * c)) by lia. unfold makeSlice.
  destruct (decide (2 * c + n < 2 ^ (host - 1))).
  - rewrite buf_int_small by lia. destruct (decide (2 * c + n <= limit)); [by rewrite decide_True by lia|by rewrite decide_False by lia].
  - rewrite (decide_False (P := 2 * c + n <= limit)) by lia. rewrite decide_False; [done|].
    assert (2 * 2 ^ (host - 1) = 2 ^ host) as E by (rewrite <- Z.pow_succ_r by lia; f_equal; lia).
    unfold swrap. rewrite <- E. assert ((2 * c + n + 2 ^ (host - 1)) mod (2 * 2 ^ (host - 1)) = 2 * c + n - 2 ^ (host - 1)) as ->; [|lia].
    symmetry. apply Z.mod_unique_pos with (q := 1); lia.
Qed.

(** Room for [n] more bytes after the contents [c]. *)
Definition room (b : Buffer) (c : bytes) (n : Z) : Prop :=
  ∃ p s, arr b = p ++ c ++ s ∧ off b = zlen p ∧ n <= zlen s ∧ cap b <= limit ∧ (is_nil b = true → arr b = []) ∧ are_bytes (arr b).

Lemma copy_front (a src : bytes) : zlen src <= zlen a → (copy a 0 src).1 = src ++ drop (length src) a.
Proof. intros H. change a with ([] ++ a). by rewrite (copy_cursor [] a src 0) by done. Qed.

Lemma zlen_front (a src : bytes) : zlen src <= zlen a → zlen (src ++ drop (length src) a) = zlen a.
Proof. unfold zlen. rewrite length_app, length_drop. lia. Qed.

Lemma room_front a c n l nl r : zlen c + n <= zlen a → 0 <= n → zlen a <= limit → are_bytes a → are_bytes c → nl = false →
  room {| arr := (copy a 0 c).1; len := l; off := 0; is_nil := nl; lastRead := r |} c n.
Proof.
  intros Hf Hn Hl Ha Hc ->. rewrite copy_front by lia. exists [], (drop (length c) a). unfold cap. fields.
  rewrite zlen_front by lia. split; [done|]. split; [done|]. split; [unfold zlen in *; rewrite length_drop; lia|].
  split; [done|]. split; [done|]. apply Forall_app. split; [done|]. by apply Forall_drop.
Qed.

Lemma grow_spec b n : valid limit b → 0 <= n <= limit →
  returns (grow host limit b n) (limit < 5 * (Len b + n)) (λ r, r.2 = off r.1 + Len b ∧ len r.1 = r.2 + n ∧ room r.1 (contents b) n ∧ (lastRead r.1 = lastRead b ∨ lastRead r.1 = opInvalid)).
Proof.
  intros Hv Hn. pose proof half. unfold grow.
  (* an empty buffer starts again *)
  set (first := if (Len b =? 0) && negb (off b =? 0) then Truncate b 0 else Ret b).
  assert (first ⇓ λ b', valid limit b' ∧ contents b' = contents b ∧ Len b' = Len b ∧ cap b' = cap b ∧ is_nil b' = is_nil b ∧ (lastRead b' = lastRead b ∨ lastRead b' = opInvalid)) as Hfirst.
  { subst first. destruct (Z.eqb_spec (Len b) 0) as [E0|], (Z.eqb_spec (off b) 0); try (by simpl; auto 10).
    pose proof (Truncate_spec limit b 0 Hv) as Ht. rewrite decide_True in Ht by (unfold Len in *; destruct Hv; lia).
    eapply wp_mono; [exact Ht|]. intros b' (Hv' & Ec & Elast & Ecap & En & _). split; [done|].
    assert (contents b' = contents b) as E.
    { rewrite Ec, (zlen_nil_inv (contents b)); [done|]. by rewrite (zlen_contents limit). }
    split; [done|]. split; [by rewrite <- (zlen_contents limit b'), E, (zlen_contents limit)|auto]. }
  destruct (proj1 (wp_ex _ _) Hfirst) as (b1 & -> & Hv1 & Ec1 & EL & Ecap & Enil & Elast). rewrite go_bind_ret.
  assert (0 <= Len b <= cap b) as HL by (unfold Len; destruct Hv; lia). rewrite <- EL, <- Ecap in HL. rewrite <- Ec1, <- EL.
  pose proof (zlen_contents limit b1 Hv1) as Hzc. assert (are_bytes (contents b1)) as Hcb by (apply Forall_take, Forall_drop, Hv1).
  destruct (arr_split limit b1 Hv1) as (spare & Ea & Ep).
  rewrite (buf_int_small (len b1 + n)) by (destruct Hv1; lia).
  apply (returns_bind _ _ _ (λ b2, room b2 (contents b1) n ∧ Len b1 = zlen (contents b1) ∧ lastRead b2 = lastRead b1)).
  - destruct (Z.ltb_spec (cap b1) (len b1 + n)) as [Hfull|Hfit];
      [destruct (is_nil b1 && (n <=? bootstrap_size)) eqn:Eboot;
       [|rewrite (buf_int_small (Len b1 + n)) by (destruct Hv1; lia); destruct (Z.leb_spec (Len b1 + n) (Z.quot (cap b1) 2))]|].
    + apply andb_true_iff in Eboot as [En Hb]. apply Z.leb_le in Hb. left. simpl. pose proof (valid_nil _ _ Hv1 En) as E0.
      assert (contents b1 = []) as Ec by (unfold contents; rewrite E0, drop_nil; apply take_nil). split; [|done]. rewrite Ec.
      apply (room_front (replicate (Z.to_nat bootstrap_size) 0) []); try done; [lia|apply Hlimit|by apply Forall_replicate].
    + assert (is_nil b1 = false) as En.
      { destruct (is_nil b1) eqn:En; [|done]. pose proof (valid_nil _ _ Hv1 En) as E0. unfold cap in *. rewrite E0 in *.
        change (zlen (@nil Z)) with 0 in *. change (0 ÷ 2) with 0 in *. assert (n = 0) as -> by lia. simpl in Eboot. discriminate Eboot. }
      left. rewrite (Bytes_eq limit b1 Hv1), go_bind_ret. unfold reslice, cap. fields.
      assert (zlen (copy (arr b1) 0 (contents b1)).1 = zlen (arr b1)) as Hz
        by (rewrite copy_front by (unfold cap in *; lia); apply zlen_front; unfold cap in *; lia).
      rewrite Hz, decide_True by (unfold cap in *; lia). simpl. split; [|done]. pose proof (Z.quot_div_nonneg (cap b1) 2).
      apply room_front; try done; try apply Hv1; destruct Hv1; unfold cap in *; [lia_div|lia].
    + rewrite makeSlice_eq by (destruct Hv1; lia).
      case_decide as Hfit; [|right; split; [done|]; pose proof (Z.quot_div_nonneg (cap b1) 2); lia_div].
      left. rewrite go_bind_ret, (Bytes_eq limit b1 Hv1), go_bind_ret. simpl. split; [|done].
      apply room_front; try done; try (rewrite zlen_replicate by lia; lia); [lia|by apply Forall_replicate].
    + left. simpl. split; [|done]. exists (past b1), spare. destruct Hv1. unfold cap in *. rewrite Ea, !zlen_app in valid_len0.
      unfold Len in *. rewrite Ea, !zlen_app in Hfit. split; [done|]. split; [done|]. split; [lia|done].
  - intros b2 ((p & s & Ea2 & Eo & Hs & Hc2 & Hn2 & Hb2) & EL2 & El2). rewrite EL2. unfold reslice, cap in *. rewrite Ea2 in Hc2.
    rewrite !zlen_app in Hc2. pose proof (zlen_nonneg s). pose proof (zlen_nonneg p). pose proof (zlen_nonneg (contents b1)).
    rewrite (buf_int_small (off b2 + zlen (contents b1))), (buf_int_small (off b2 + _ + n)) by lia.
    rewrite decide_True by (rewrite Ea2, !zlen_app; lia). simpl. rewrite buf_int_small by lia. split; [lia|]. split; [lia|].
    split; [|by rewrite El2]. exists p, s. unfold cap. fields. rewrite Ea2, !zlen_app in *. auto 10.
Qed.
End grow.

(** * The abstract queue *)

(** What a buffer is to its clients: the bytes to read, and for unreading the last
    operation, with the bytes it returned when it was a read. *)
Record queue := { q_past : bytes; q_data : bytes; q_last : readOp }.

Inductive op :=
  | OWrite (p : bytes) | OWriteString (p : bytes) | OWriteByte (c : Z) | OWriteRune (r : Z)
  | ORead (k : Z) | ONext (n : Z) | OReadByte | OReadRune | OReadBytes (delim : Z) | OReadString (delim : Z)
  | OUnreadByte | OUnreadRune | OTruncate (n : Z) | OReset | OLen | OBytes | OString.

Inductive res := RUnit | RInt (n : Z) | RData (p : bytes) (eof : bool) | RByte (c : option Z) | RRune (r : option (Z * Z)) | ROk (ok : bool).

Definition exec (host limit : Z) (b : Buffer) (o : op) : go (Buffer * res) :=
  match o with
  | OWrite p => '(b, n) ← Write host limit b p; Ret (b, RInt n)
  | OWriteString p => '(b, n) ← WriteString host limit b p; Ret (b, RInt n)
  | OWriteByte c => b ← WriteByte host limit b c; Ret (b, RUnit)
  | OWriteRune r => '(b, n) ← WriteRune host limit b r; Ret (b, RInt n)
  | ORead k => '(b, p, eof) ← Read b k; Ret (b, RData p eof)
  | ONext n => '(b, p) ← Next b n; Ret (b, RData p false)
  | OReadByte => '(b, c) ← ReadByte b; Ret (b, RByte c)
  | OReadRune => '(b, r) ← ReadRune b; Ret (b, RRune r)
  | OReadBytes d => '(b, p, eof) ← ReadBytes b d; Ret (b, RData p eof)
  | OReadString d => '(b, p, eof) ← ReadString b d; Ret (b, RData p eof)
  | OUnreadByte => let '(b, ok) := UnreadByte b in Ret (b, ROk ok)
  | OUnreadRune => '(b, ok) ← UnreadRune b; Ret (b, ROk ok)
  | OTruncate n => b ← Truncate b n; Ret (b, RUnit)
  | OReset => b ← Reset b; Ret (b, RUnit)
  | OLen => Ret (b, RInt (Len b))
  | OBytes => p ← Bytes b; Ret (b, RData p false)
  | OString => p ← String b; Ret (b, RData p false)
  end.

Definition idle_queue (data : bytes) : queue := {| q_past := []; q_data := data; q_last := opInvalid |}.
(** [n] bytes read by an operation of kind [r], and unread. *)
Definition consume (q : queue) (n : Z) (r : readOp) : queue :=
  {| q_past := take (Z.to_nat n) (q_data q); q_data := drop (Z.to_nat n) (q_data q); q_last := r |}.
Definition give_back (q : queue) (n : Z) : queue :=
  idle_queue (drop (Z.to_nat (zlen (q_past q) - n)) (q_past q) ++ q_data q).

(** The line up to and including the first delimiter, and whether there is none. *)
Fixpoint line (delim : Z) (p : bytes) : bytes * bool :=
  match p with
  | [] => ([], true)
  | c :: p => if c =? delim then ([c], false) else let '(l, eof) := line delim p in (c :: l, eof)
  end.

(** The UTF-8 encoding of a rune, of U+FFFD for what is no rune. *)
Definition rune_bytes (r : Z) : bytes := enc (norm r).
Definition written (o : op) : bytes :=
  match o with OWrite p | OWriteString p => p | OWriteByte c => [c] | OWriteRune r => rune_bytes r | _ => [] end.

Definition spec (q : queue) (o : op) : go (queue * res) :=
  let data := q_data q in
  match o with
  | OWrite p | OWriteString p => Ret (idle_queue (data ++ p), RInt (zlen p))
  | OWriteByte c => Ret (idle_queue (data ++ [c]), RUnit)
  | OWriteRune r => Ret (idle_queue (data ++ rune_bytes r), RInt (zlen (rune_bytes r)))
  | ORead k =>
      if bool_decide (data = []) then Ret (idle_queue [], RData [] (negb (k =? 0))) else
      let n := Z.min k (zlen data) in
      Ret (consume q n (if 0 <? n then opRead else opInvalid), RData (take (Z.to_nat n) data) false)
  | ONext n =>
      let n := Z.min n (zlen data) in
      if n <? 0 then Panic "slice bounds out of range" else
      Ret (consume q n (if 0 <? n then opRead else opInvalid), RData (take (Z.to_nat n) data) false)
  | OReadByte =>
      match data with [] => Ret (idle_queue [], RByte None) | c :: _ => Ret (consume q 1 opRead, RByte (Some c)) end
  | OReadRune =>
      if bool_decide (data = []) then Ret (idle_queue [], RRune None) else
      Ret (consume q (DecodeRune data).2 opReadRune, RRune (Some (DecodeRune data)))
  | OReadBytes d | OReadString d =>
      let '(l, eof) := line d data in Ret (consume q (zlen l) opRead, RData l eof)
  | OUnreadByte =>
      if decide (q_last q = opInvalid) then Ret (q, ROk false) else Ret (give_back q 1, ROk true)
  | OUnreadRune =>
      if decide (q_last q ≠ opReadRune) then Ret (q, ROk false) else Ret (give_back q (zlen (q_past q)), ROk true)
  | OTruncate n =>
      if decide (0 <= n <= zlen data) then Ret (idle_queue (take (Z.to_nat n) data), RUnit)
      else Panic "bytes.Buffer: truncation out of range"
  | OReset => Ret (idle_queue [], RUnit)
  | OLen => Ret (q, RInt (zlen data))
  | OBytes | OString => Ret (q, RData data false)
  end.

Section refinement.
Context (host limit : Z) (Hhost : 32 <= host) (Hlimit : bootstrap_size <= limit < 2 ^ (host - 2)).

Record rel (b : Buffer) (q : queue) : Prop := {
  rel_valid : valid limit b;
  rel_data : contents b = q_data q;
  rel_last : lastRead b = q_last q;
  rel_past : q_last q ≠ opInvalid → ∃ p, past b = p ++ q_past q }.

(** A buffer laid out as past, contents and spare room. *)
Lemma rel_layout b q p s : arr b = p ++ q_data q ++ s → off b = zlen p → len b = zlen p + zlen (q_data q) → cap b <= limit →
  (is_nil b = true → arr b = []) → are_bytes (arr b) → lastRead b = q_last q → (q_last q ≠ opInvalid → ∃ p', p = p' ++ q_past q) → rel b q.
Proof.
  intros Ea Eo El Hc Hn Hb Hl Hp. destruct (contents_of p (q_data q) s b Ea Eo El) as [Ec Epast].
  split; [|done|done|by rewrite Epast]. unfold cap in *. rewrite Ea, !zlen_app in Hc.
  pose proof (zlen_nonneg p). pose proof (zlen_nonneg s). pose proof (zlen_nonneg (q_data q)).
  split; unfold cap; rewrite ?Ea, ?zlen_app; try lia; by rewrite <- Ea.
Qed.

Lemma rel_split b q : rel b q → ∃ s, arr b = past b ++ q_data q ++ s ∧ off b = zlen (past b) ∧
  len b = zlen (past b) + zlen (q_data q) ∧ cap b <= limit ∧ (is_nil b = true → arr b = []) ∧ are_bytes (arr b).
Proof.
  intros [Hv Hd _ _]. destruct (arr_split limit b Hv) as (s & Ea & Ep). pose proof (zlen_contents _ _ Hv) as Hz.
  rewrite Hd in *. exists s. split; [done|]. split; [done|]. destruct Hv. unfold Len in Hz. split; [lia|done].
Qed.

(** Writing [p] in the room that [grow] made. *)
Lemma written_rel b q p : room limit b (q_data q) (zlen p) → len b = off b + zlen (q_data q) + zlen p → lastRead b = opInvalid →
  are_bytes p →
  buf b = take (Z.to_nat (len b)) (arr b) ∧
  let b' := copy_at b (off b + zlen (q_data q)) p in b'.2 = zlen p ∧ rel b'.1 (idle_queue (q_data q ++ p)).
Proof.
  intros (p0 & s & Ea & Eo & Hs & Hc & Hn & Hb) El Hl Hp. split; [done|].
  assert (buf b = (p0 ++ q_data q) ++ take (length p) s) as Eb.
  { unfold buf. rewrite Ea, El, Eo, app_assoc. unfold zlen. rewrite <- Nat2Z.inj_add, <- length_app, <- Nat2Z.inj_add, Nat2Z.id.
    rewrite take_app_ge by lia. f_equal. f_equal. lia. }
  assert (zlen (take (length p) s) = zlen p) as Ht by (unfold zlen in *; rewrite length_take; lia).
  cbv zeta. unfold copy_at. rewrite Eb, copy_cursor by (rewrite ?zlen_app, ?Eo; lia). cbn [fst snd]. split; [done|].
  apply (rel_layout _ _ p0 (drop (length p) s)); fields; cbn [idle_queue q_past q_data q_last]; try done.
  - rewrite drop_ge by (unfold zlen in *; lia). rewrite app_nil_r, <- !app_assoc. do 3 f_equal.
    rewrite Ea, El, Eo. unfold zlen. rewrite <- !Nat2Z.inj_add, Nat2Z.id, app_assoc, <- length_app, <- drop_drop, drop_app_length. done.
  - rewrite zlen_app. lia.
  - unfold cap in *. fields. rewrite !zlen_app, drop_ge by (unfold zlen in *; lia). rewrite Ea in Hc. rewrite !zlen_app in Hc.
    rewrite Ea, El, Eo. assert (zlen (drop (Z.to_nat (zlen p0 + zlen (q_data q) + zlen p)) (p0 ++ q_data q ++ s)) = zlen s - zlen p) as ->.
    { rewrite zlen_drop; rewrite !zlen_app; [lia|]. pose proof (zlen_nonneg p0). pose proof (zlen_nonneg (q_data q)). pose proof (zlen_nonneg p). lia. }
    rewrite zlen_nil. lia.
  - intros En. specialize (Hn En). rewrite Hn in Ea. symmetry in Ea. apply app_nil in Ea as [-> Ea]. apply app_nil in Ea as [Eq ->].
    rewrite Eq in *. destruct p; [|pose proof (zlen_nonneg p); rewrite zlen_cons, zlen_nil in Hs; lia]. rewrite Hn. simpl. by rewrite drop_nil.
  - assert (Hb' := Hb). rewrite Ea in Hb. apply Forall_app in Hb as [Hb1 [Hb2 Hb3]%Forall_app]. repeat (apply Forall_app; split); try done; try apply Forall_drop; try done; by apply Forall_take.
Qed.

Definition fits (b : Buffer) (n : Z) : Prop := limit < 5 * (Len b + n).

Lemma grow_rel b q n : rel b q → 0 <= n <= limit → returns (grow host limit (set_last opInvalid b) n) (fits b n)
  (λ r, r.2 = off r.1 + zlen (q_data q) ∧ len r.1 = r.2 + n ∧ room limit r.1 (q_data q) n ∧ lastRead r.1 = opInvalid).
Proof.
  intros [Hv Hd _ _] Hn. assert (valid limit (set_last opInvalid b)) as Hv' by (destruct Hv; by split).
  rewrite <- Hd, (zlen_contents _ _ Hv).
  destruct (grow_spec host limit Hhost Hlimit _ n Hv' Hn) as [H|H]; [left|by right].
  eapply wp_mono; [exact H|]. intros r (E1 & E2 & Hr & Hl). split; [done|]. split; [done|]. split; [exact Hr|]. by destruct Hl.
Qed.

Lemma Write_rel b q p : rel b q → are_bytes p → zlen p <= limit →
  returns (Write host limit b p) (fits b (zlen p)) (λ r, r.2 = zlen p ∧ rel r.1 (idle_queue (q_data q ++ p))).
Proof.
  intros Hr Hp Hl. pose proof (zlen_nonneg p). unfold Write. eapply returns_bind; [apply (grow_rel b q); [done|lia]|].
  intros [b' m] (E1 & E2 & Hroom & Hlast). cbn [fst snd] in *. subst m.
  destruct (written_rel b' q p Hroom ltac:(lia) Hlast Hp) as [_ Hw]. cbv zeta in Hw.
  by destruct (copy_at _ _ _).
Qed.

Lemma WriteByte_rel b q c : rel b q → is_byte c →
  returns (WriteByte host limit b c) (fits b 1) (λ b', rel b' (idle_queue (q_data q ++ [c]))).
Proof.
  intros Hr Hc. unfold WriteByte. eapply returns_bind; [apply (grow_rel b q); [done|unfold bootstrap_size in *; lia]|].
  intros [b' m] (E1 & E2 & Hroom & Hlast). cbn [fst snd] in *. subst m.
  destruct (written_rel b' q [c] Hroom ltac:(rewrite zlen_one; lia) Hlast ltac:(by apply Forall_singleton)) as [Eb Hw]. cbv zeta in Hw.
  destruct Hw as [_ Hw]. unfold copy_at in Hw.
  assert (∃ a x k, buf b' = a ++ x :: k ∧ zlen a = off b' + zlen (q_data q)) as (a & x & k & Ebuf & Ez).
  { destruct Hroom as (p0 & s & Ea & Eo & Hs & _). destruct s as [|x s]; [rewrite zlen_nil in Hs; lia|].
    exists (p0 ++ q_data q), x, []. rewrite zlen_app, <- Eo. split; [|lia].
    assert (arr b' = ((p0 ++ q_data q) ++ [x]) ++ s) as Ea' by (by rewrite Ea, <- !app_assoc).
    assert (len b' = zlen ((p0 ++ q_data q) ++ [x])) as El' by (rewrite !zlen_app, zlen_one; lia).
    by rewrite Eb, Ea', El', take_zlen_app. }
  rewrite Ebuf in *. rewrite upd_cursor by lia. rewrite go_bind_ret. rewrite copy_cursor in Hw by (lia || (rewrite !zlen_cons, zlen_nil; pose proof (zlen_nonneg k); lia)).
  exact Hw.
Qed.

Lemma zlen_rune_bytes r : 1 <= zlen (rune_bytes r) <= 4.
Proof. apply enc_length_bound. Qed.
Lemma rune_bytes_ascii r : 0 <= r < RuneSelf → rune_bytes r = [u8 r].
Proof.
  unfold RuneSelf. intros Hr. unfold rune_bytes, norm. rewrite (proj2 (ValidRune_iff r)) by lia. unfold enc.
  by rewrite (proj2 (Z.ltb_lt r 128)), (wrap_small 8) by lia.
Qed.

Lemma WriteRune_rel b q r : rel b q → 0 <= r < 2 ^ 31 →
  returns (WriteRune host limit b r) (fits b (zlen (rune_bytes r)))
    (λ x, x.2 = zlen (rune_bytes r) ∧ rel x.1 (idle_queue (q_data q ++ rune_bytes r))).
Proof.
  intros Hr Hi. unfold WriteRune. pose proof (zlen_rune_bytes r) as Hz. destruct (Z.ltb_spec r RuneSelf).
  - rewrite rune_bytes_ascii by lia. eapply returns_bind; [apply (WriteByte_rel b q); [done|]|].
    + apply (wrap_bound 8). lia.
    + intros b' Hb'. by simpl.
  - unfold rune_bytes in *. assert (zlen (replicate (Z.to_nat UTFMax) 0) = 4) as E4 by done.
    rewrite EncodeRune_spec by (rewrite ?E4; lia). rewrite go_bind_ret. rewrite slice_to_eq by (rewrite zlen_app; pose proof (zlen_nonneg (drop (Z.to_nat (zlen (enc (norm r)))) (replicate (Z.to_nat UTFMax) 0))); lia).
    rewrite go_bind_ret, take_zlen_app. eapply returns_bind.
    + apply (Write_rel b q); [done|apply enc_bytes, norm_valid|unfold bootstrap_size in *; lia].
    + intros [b' n] [_ Hb']. by simpl.
Qed.

(** ** Reading *)

Lemma rel_set_last b q r : rel b q → rel (set_last r b) {| q_past := []; q_data := q_data q; q_last := r |}.
Proof.
  intros [Hv Hd _ _]. split; [by destruct Hv; split|done|done|]. intros _. exists (past b). simpl. by rewrite app_nil_r.
Qed.

Lemma rel_Len b q : rel b q → Len b = zlen (q_data q).
Proof. intros [Hv Hd _ _]. by rewrite <- Hd, (zlen_contents limit). Qed.

Lemma consume_rel b q n r : rel b q → 0 <= n <= zlen (q_data q) → rel (set_last r (set_off (off b + n) b)) (consume q n r).
Proof.
  intros Hr Hn. destruct (rel_split b q Hr) as (s & Ea & Eo & El & Hc & Hnil & Hb).
  apply (rel_layout _ _ (past b ++ take (Z.to_nat n) (q_data q)) s); cbn [consume q_past q_data q_last]; fields; try done.
  - by rewrite <- app_assoc, (app_assoc (take _ _)), take_drop.
  - rewrite zlen_app, zlen_take by lia. lia.
  - rewrite zlen_app, zlen_take, zlen_drop by lia. lia.
  - intros _. by exists (past b).
Qed.

Lemma give_back_rel b q n : rel b q → q_last q ≠ opInvalid → 0 <= n <= zlen (q_past q) →
  rel (set_off (off b - n) (set_last opInvalid b)) (give_back q n).
Proof.
  intros Hr Hl Hn. destruct (rel_split b q Hr) as (s & Ea & Eo & El & Hc & Hnil & Hb).
  destruct (rel_past b q Hr Hl) as [p Ep]. rewrite Ep in *. rewrite !zlen_app in *.
  apply (rel_layout _ _ (p ++ take (Z.to_nat (zlen (q_past q) - n)) (q_past q)) s); cbn [give_back idle_queue q_past q_data q_last]; fields; try done.
  - rewrite Ea, <- !app_assoc. f_equal. by rewrite (app_assoc (take _ _)), take_drop.
  - rewrite zlen_app, zlen_take by lia. lia.
  - rewrite !zlen_app, zlen_take, zlen_drop by lia. lia.
Qed.

Lemma Truncate_rel b q n : rel b q →
  if decide (0 <= n <= zlen (q_data q)) then Truncate b n ⇓ λ b', rel b' (idle_queue (take (Z.to_nat n) (q_data q)))
  else Truncate b n = Panic "bytes.Buffer: truncation out of range".
Proof.
  intros Hr. pose proof (Truncate_spec limit b n (rel_valid _ _ Hr)) as H. rewrite (rel_Len b q Hr) in H. case_decide; [|done].
  eapply wp_mono; [exact H|]. intros b' (Hv & Ec & El & _). split; [done| |done|done]. simpl. by rewrite Ec, (rel_data _ _ Hr).
Qed.

(** What the operations that read do on an empty buffer. *)
Lemma emptied_rel b q : rel b q → q_data q = [] → Truncate (set_last opInvalid b) 0 ⇓ λ b', rel b' (idle_queue []).
Proof.
  intros Hr E. pose proof (Truncate_rel _ _ 0 (rel_set_last b q opInvalid Hr)) as H. cbn [q_data] in H. rewrite E in H. exact H.
Qed.

Lemma empty_iff b q : rel b q → len b <= off b ↔ q_data q = [].
Proof.
  intros Hr. pose proof (rel_Len b q Hr) as El. unfold Len in El. split; [intros; apply zlen_nil_inv; pose proof (zlen_nonneg (q_data q)); lia|].
  intros E. rewrite E, zlen_nil in El. lia.
Qed.

Lemma rel_rest b q : rel b q → slice_from (buf b) (off b) = Ret (q_data q).
Proof. intros Hr. rewrite <- (rel_data _ _ Hr). apply (Bytes_eq limit), (rel_valid _ _ Hr). Qed.

Lemma rel_next b q n : rel b q → 0 <= n <= zlen (q_data q) → slice (arr b) (off b) (off b + n) = Ret (take (Z.to_nat n) (q_data q)).
Proof.
  intros Hr Hn. destruct (rel_split b q Hr) as (s & Ea & Eo & _). pose proof (zlen_nonneg (past b)). pose proof (zlen_nonneg s).
  rewrite Ea, slice_eq by (rewrite ?zlen_app; lia). rewrite Eo, drop_zlen_app. f_equal.
  replace (zlen (past b) + n - zlen (past b)) with n by lia. rewrite take_app_le; [done|]. unfold zlen in *. lia.
Qed.

Lemma rel_first b q c d : rel b q → q_data q = c :: d → idx (buf b) (off b) = Ret c.
Proof.
  intros Hr E. pose proof (rel_valid _ _ Hr) as Hv. pose proof (zlen_buf _ _ Hv) as Hz. pose proof (rel_data _ _ Hr) as Hd.
  rewrite E in Hd. rewrite <- buf_drop in Hd by apply Hv. apply idx_Some. rewrite <- (Z.add_0_r (off b)).
  assert ((drop (Z.to_nat (off b)) (buf b)).[0] = Some c) as H by (by rewrite Hd). rewrite nthZ_drop in H.
  rewrite decide_True in H by done. destruct Hv. rewrite Z2Nat.id in H by lia. by rewrite Z.add_0_r in *.
Qed.

Lemma line_IndexByte delim p : IndexByte p delim ⇓ λ i,
  let '(l, eof) := line delim p in
  l = take (Z.to_nat (if i <? 0 then zlen p else i + 1)) p ∧ eof = (i <? 0) ∧ zlen l = (if i <? 0 then zlen p else i + 1) ∧ i < zlen p.
Proof.
  eapply wp_mono; [apply IndexByte_spec|]. intros i Hi.
  assert (∀ p i, least (λ i, p.[i] = Some delim) i → line delim p = (take (Z.to_nat (if i <? 0 then zlen p else i + 1)) p, i <? 0)) as H.
  { clear. induction p as [|c p IH]; intros i Hi; simpl.
    - destruct Hi as [[-> _]|[Hi _]]; [done|]. apply nthZ_Some in Hi. change (zlen (@nil Z)) with 0 in Hi. lia.
    - destruct (Z.eqb_spec c delim) as [->|Hne].
      + assert (i = 0) as ->; [|done]. destruct Hi as [[_ Hi]|[Hi Hmin]]; [by destruct (Hi 0)|].
        pose proof (nthZ_Some _ _ _ Hi). destruct (decide (0 < i)) as [Hp|]; [by destruct (Hmin 0 Hp)|lia].
      + assert (least (λ i, p.[i] = Some delim) (if i <? 0 then i else i - 1)) as Hi'.
        { destruct Hi as [[-> Hi]|[Hi Hmin]].
          - left. split; [done|]. intros j Hj. pose proof (nthZ_Some _ _ _ Hj). apply (Hi (j + 1)).
            rewrite nthZ_cons, decide_False by lia. by rewrite Z.add_simpl_r.
          - pose proof (nthZ_Some _ _ _ Hi). right. rewrite nthZ_cons in Hi. case_decide; [congruence|].
            destruct (Z.ltb_spec i 0); [lia|]. split; [done|]. intros j Hj Hj'. pose proof (nthZ_Some _ _ _ Hj'). apply (Hmin (j + 1)); [lia|].
            rewrite nthZ_cons, decide_False by lia. by rewrite Z.add_simpl_r. }
        rewrite (IH _ Hi'). destruct (Z.ltb_spec i 0) as [Hneg|Hpos].
        * rewrite (proj2 (Z.ltb_lt i 0)) by done. rewrite zlen_cons. pose proof (zlen_nonneg p).
          by replace (Z.to_nat (1 + zlen p)) with (S (Z.to_nat (zlen p))) by lia.
        * assert (i ≠ 0) by (intros ->; destruct Hi as [[? _]|[Hi _]]; [done|]; rewrite nthZ_cons in Hi; simpl in Hi; congruence).
          rewrite (proj2 (Z.ltb_ge (i - 1) 0)) by lia. by replace (Z.to_nat (i + 1)) with (S (Z.to_nat (i - 1 + 1))) by lia. }
  rewrite (H p i Hi). split; [done|]. split; [done|]. assert (i < zlen p) as Hip.
  { destruct Hi as [[-> _]|[Hi _]]; [pose proof (zlen_nonneg p); lia|]. apply nthZ_Some in Hi. lia. }
  split; [|done]. pose proof (zlen_nonneg p). destruct (Z.ltb_spec i 0); apply zlen_take; lia.
Qed.

(** ** Every operation *)

(** Where the operations do what their documentation says: arguments are in their ranges,
    and what is written is not longer than can be allocated; the rune written is not negative
    (the code writes its low byte); the last read, if a byte of it is to be unread, returned
    one (after a line that is empty at the end of the buffer the code gives back an
    earlier byte); the last rune read, if it is to be unread, was well-formed (else the code
    gives back what precedes it as a rune). *)
Definition allowed (q : queue) (o : op) : Prop :=
  match o with
  | OWrite p | OWriteString p => are_bytes p ∧ zlen p <= limit
  | OWriteByte c => is_byte c
  | OWriteRune r => 0 <= r < 2 ^ 31
  | ORead k => 0 <= k
  | OUnreadByte => q_last q ≠ opInvalid → q_past q ≠ []
  | OUnreadRune => q_last q = opReadRune → ∃ r, ValidRune r = true ∧ q_past q = enc r
  | _ => True
  end.

Definition agrees (m : go (Buffer * res)) (s : go (queue * res)) : Prop :=
  match s with
  | Ret (q, r) => m ⇓ λ x, x.2 = r ∧ rel x.1 q
  | Panic w => m = Panic w
  | NoFuel => False
  end.

Lemma agrees_write {A} (m : go A) (f : A → go (Buffer * res)) b n Q q r : returns m (fits b n) Q →
  (∀ a, Q a → f a ⇓ λ x, x.2 = r ∧ rel x.1 q) →
  agrees (m ≫= f) (Ret (q, r)) ∨ m ≫= f = Panic ErrTooLarge ∧ fits b n.
Proof. intros Hm Hf. destruct (returns_bind _ f _ _ (λ x, x.2 = r ∧ rel x.1 q) Hm Hf) as [H|H]; [by left|by right]. Qed.

Lemma exec_write b q o : rel b q → allowed q o →
  match o with OWrite _ | OWriteString _ | OWriteByte _ | OWriteRune _ => True | _ => False end →
  agrees (exec host limit b o) (spec q o) ∨ exec host limit b o = Panic ErrTooLarge ∧ fits b (zlen (written o)).
Proof.
  intros Hr Ha Ho. destruct o; try destruct Ho; cbn [exec spec allowed written] in *.
  - destruct Ha as [Hp Hl]. eapply agrees_write; [by apply (Write_rel b q)|]. intros [b' n] [E H]. simpl in *. by subst n.
  - destruct Ha as [Hp Hl]. eapply agrees_write; [by apply (Write_rel b q)|]. intros [b' n] [E H]. simpl in *. by subst n.
  - eapply agrees_write; [by apply (WriteByte_rel b q)|]. intros b' H. by simpl.
  - eapply agrees_write; [by apply (WriteRune_rel b q)|]. intros [b' n] [E H]. simpl in *. by subst n.
Qed.

Lemma consume_fields b q n r : rel b q → 0 <= n <= zlen (q_data q) →
  rel {| arr := arr b; len := len b; off := off b + n; is_nil := is_nil b; lastRead := r |} (consume q n r).
Proof. apply consume_rel. Qed.

Lemma readSlice_rel b q d : rel b q →
  readSlice b d ⇓ λ x, let '(l, eof) := line d (q_data q) in x.1.2 = l ∧ x.2 = eof ∧ rel x.1.1 (consume q (zlen l) opRead).
Proof.
  intros Hr. unfold readSlice. rewrite (rel_rest b q Hr), go_bind_ret. eapply wp_bind_mono; [apply line_IndexByte|].
  intros i Hi. destruct (line d (q_data q)) as [l eof]. destruct Hi as (El & -> & Hz & Hlt).
  pose proof (rel_Len b q Hr) as HL. unfold Len in HL. pose proof (zlen_nonneg (q_data q)).
  destruct (Z.ltb_spec i 0).
  - replace (len b) with (off b + zlen (q_data q)) by lia. rewrite (rel_next b q) by (done || lia). rewrite go_bind_ret, <- El.
    simpl. split; [done|]. split; [done|]. rewrite Hz. apply (consume_fields b q); [done|lia].
  - replace (off b + i + 1) with (off b + (i + 1)) by lia. rewrite (rel_next b q) by (done || lia). rewrite go_bind_ret, <- El.
    simpl. split; [done|]. split; [done|]. rewrite Hz. apply (consume_fields b q); [done|lia].
Qed.

Lemma Read_agrees b q k : rel b q → 0 <= k → agrees (exec host limit b (ORead k)) (spec q (ORead k)).
Proof.
  intros Hr Hk. cbn [exec spec]. unfold Read. fields. pose proof (empty_iff b q Hr) as He.
  destruct (bool_decide_reflect (q_data q = [])) as [E|Hne].
  - rewrite (proj2 (Z.leb_le (len b) (off b))) by tauto. destruct (proj1 (wp_ex _ _) (emptied_rel b q Hr E)) as (b' & -> & Hb'). by simpl.
  - rewrite (proj2 (Z.leb_gt (len b) (off b))) by (apply Z.nle_gt; tauto).
    change (Bytes (set_last opInvalid b)) with (slice_from (buf b) (off b)). rewrite (rel_rest b q Hr), go_bind_ret. cbn [wp agrees go_bind fst snd].
    pose proof (zlen_nonneg (q_data q)).
    assert (take (Z.to_nat k) (q_data q) = take (Z.to_nat (Z.min k (zlen (q_data q)))) (q_data q)) as ->.
    { destruct (Z.min_spec k (zlen (q_data q))) as [[_ ->]|[? ->]]; [done|]. rewrite !take_ge; unfold zlen in *; lia || done. }
    rewrite zlen_take by lia. split; [done|]. destruct (0 <? _); fields; apply (consume_fields b q); done || lia.
Qed.

Lemma Next_agrees b q n : rel b q → agrees (exec host limit b (ONext n)) (spec q (ONext n)).
Proof.
  intros Hr. cbn [exec spec]. unfold Next. change (Len (set_last opInvalid b)) with (Len b). rewrite (rel_Len b q Hr). fields.
  pose proof (zlen_nonneg (q_data q)).
  assert ((if zlen (q_data q) <? n then zlen (q_data q) else n) = Z.min n (zlen (q_data q))) as -> by (destruct (Z.ltb_spec (zlen (q_data q)) n); lia).
  destruct (Z.ltb_spec (Z.min n (zlen (q_data q))) 0) as [Hneg|Hpos].
  - unfold slice. rewrite decide_False by lia. done.
  - rewrite (rel_next b q) by (done || lia). cbn [wp agrees go_bind fst snd]. split; [done|].
    destruct (0 <? _); fields; apply (consume_fields b q); done || lia.
Qed.

Lemma ReadByte_agrees b q : rel b q → agrees (exec host limit b OReadByte) (spec q OReadByte).
Proof.
  intros Hr. cbn [exec spec]. unfold ReadByte. fields. pose proof (empty_iff b q Hr) as He.
  destruct (q_data q) as [|c d] eqn:E.
  - rewrite (proj2 (Z.leb_le (len b) (off b))) by tauto. destruct (proj1 (wp_ex _ _) (emptied_rel b q Hr E)) as (b' & -> & Hb'). by simpl.
  - rewrite (proj2 (Z.leb_gt (len b) (off b))) by (apply Z.nle_gt; intros ?%He; done).
    change (buf (set_last opInvalid b)) with (buf b). rewrite (rel_first b q c d Hr E). cbn [wp agrees go_bind go_bind_ret fst snd].
    split; [done|]. apply (consume_fields b q); [done|]. rewrite E, zlen_cons. pose proof (zlen_nonneg d). lia.
Qed.

Lemma ReadRune_agrees b q : rel b q → agrees (exec host limit b OReadRune) (spec q OReadRune).
Proof.
  intros Hr. cbn [exec spec]. unfold ReadRune. fields. pose proof (empty_iff b q Hr) as He.
  destruct (bool_decide_reflect (q_data q = [])) as [E|Hne].
  - rewrite (proj2 (Z.leb_le (len b) (off b))) by tauto. destruct (proj1 (wp_ex _ _) (emptied_rel b q Hr E)) as (b' & -> & Hb'). by simpl.
  - rewrite (proj2 (Z.leb_gt (len b) (off b))) by (apply Z.nle_gt; tauto).
    destruct (q_data q) as [|c d] eqn:E; [done|]. pose proof (zlen_nonneg d).
    change (buf (set_last opReadRune (set_last opInvalid b))) with (buf b).
    rewrite (rel_first b q c d Hr E), go_bind_ret. destruct (Z.ltb_spec c RuneSelf) as [Hc|Hc].
    + rewrite (DecodeRune_ascii c d Hc). cbn [wp agrees go_bind go_bind_ret fst snd]. split; [done|].
      apply (consume_fields b q); [done|]. rewrite E, zlen_cons. lia.
    + rewrite (rel_rest b q Hr), E. rewrite go_bind_ret. destruct (DecodeRune (c :: d)) as [r n] eqn:Ed. cbn [wp agrees go_bind go_bind_ret fst snd]. split; [done|].
      pose proof (DecodeRune_size _ _ _ Ed ltac:(done)). apply (consume_fields b q); [done|]. rewrite E. lia.
Qed.

Lemma Unread_agrees b q o : rel b q → allowed q o → o = OUnreadByte ∨ o = OUnreadRune → agrees (exec host limit b o) (spec q o).
Proof.
  intros Hr Ha Ho. pose proof (rel_last b q Hr) as El. destruct (rel_split b q Hr) as (s & Ea & Eo & Elen & _ & _ & Hb).
  pose proof (rel_past b q Hr) as Hp.
  destruct Ho as [-> | ->]; cbn [exec spec allowed] in *.
  - unfold UnreadByte. rewrite El. destruct (decide (q_last q = opInvalid)) as [E|Hne]; [rewrite decide_True by (rewrite E; done); by simpl|].
    rewrite decide_False by (by destruct (q_last q); intuition). destruct (Hp Hne) as [p Ep]. specialize (Ha Hne).
    assert (1 <= zlen (q_past q)) by (destruct (q_past q); [done|]; rewrite zlen_cons; pose proof (zlen_nonneg l); lia).
    pose proof (zlen_nonneg p). rewrite Ep, zlen_app in Eo. rewrite (proj2 (Z.ltb_lt 0 (off (set_last opInvalid b)))) by (fields; lia).
    simpl. split; [done|]. by apply (give_back_rel b q 1).
  - unfold UnreadRune. rewrite El. destruct (decide (q_last q = opReadRune)) as [E|Hne]; [|rewrite !decide_True by done; by simpl].
    rewrite !decide_False by tauto. destruct (Hp ltac:(by rewrite E)) as [p Ep]. destruct (Ha E) as (r & Hv & Er).
    pose proof (enc_length_bound r). pose proof (zlen_nonneg p). rewrite Ep, Er, zlen_app in Eo, Elen.
    rewrite (proj2 (Z.ltb_lt 0 (off (set_last opInvalid b)))) by (fields; lia). fields.
    pose proof (zlen_buf _ _ (rel_valid _ _ Hr)). pose proof (zlen_nonneg (q_data q)).
    change (buf (set_last opInvalid b)) with (buf b). rewrite slice_to_eq by lia.
    assert (take (Z.to_nat (off b)) (buf b) = p ++ enc r) as ->.
    { unfold buf. rewrite take_take, Nat.min_l by lia. change (take (Z.to_nat (off b)) (arr b)) with (past b). by rewrite Ep, Er. }
    rewrite go_bind_ret, DecodeLastRune_enc; [|rewrite Ea, Ep in Hb; by apply Forall_app in Hb as [[? _]%Forall_app _]|done].
    simpl. split; [done|]. rewrite <- Er. apply (give_back_rel b q); [done|by rewrite E|rewrite Er; lia].
Qed.

Lemma exec_agrees b q o : rel b q → allowed q o →
  agrees (exec host limit b o) (spec q o) ∨ exec host limit b o = Panic ErrTooLarge ∧ fits b (zlen (written o)).
Proof.
  intros Hr Ha. destruct o; try (by apply exec_write); left.
  - by apply Read_agrees.
  - by apply Next_agrees.
  - by apply ReadByte_agrees.
  - by apply ReadRune_agrees.
  - cbn [exec spec]. unfold ReadBytes. destruct (proj1 (wp_ex _ _) (readSlice_rel b q delim Hr)) as ([[b' l] eof] & -> & H).
    destruct (line delim (q_data q)). destruct H as (E1 & E2 & H). simpl in *. by subst.
  - cbn [exec spec]. unfold ReadString. destruct (proj1 (wp_ex _ _) (readSlice_rel b q delim Hr)) as ([[b' l] eof] & -> & H).
    destruct (line delim (q_data q)). destruct H as (E1 & E2 & H). simpl in *. by subst.
  - apply Unread_agrees; auto.
  - apply Unread_agrees; auto.
  - cbn [exec spec]. pose proof (Truncate_rel b q n Hr) as H. case_decide; [|by rewrite H].
    destruct (proj1 (wp_ex _ _) H) as (b' & -> & Hb'). by simpl.
  - cbn [exec spec]. pose proof (Truncate_rel b q 0 Hr) as H. pose proof (zlen_nonneg (q_data q)). rewrite decide_True in H by lia.
    unfold Reset. destruct (proj1 (wp_ex _ _) H) as (b' & -> & Hb'). by simpl.
  - cbn [exec spec agrees wp fst snd]. by rewrite (rel_Len b q Hr).
  - cbn [exec spec]. unfold Bytes. by rewrite (rel_rest b q Hr).
  - cbn [exec spec]. unfold String. by rewrite (rel_rest b q Hr).
Qed.
End refinement.

(** The results of a sequence of operations. *)
Fixpoint exec_all (host limit : Z) (b : Buffer) (ops : list op) : go (list res) :=
  match ops with
  | [] => Ret []
  | o :: ops => '(b, r) ← exec host limit b o; rs ← exec_all host limit b ops; Ret (r :: rs)
  end.
Fixpoint spec_all (q : queue) (ops : list op) : go (list res) :=
  match ops with
  | [] => Ret []
  | o :: ops => '(q, r) ← spec q o; rs ← spec_all q ops; Ret (r :: rs)
  end.
Fixpoint all_allowed (limit : Z) (q : queue) (ops : list op) : Prop :=
  match ops with
  | [] => True
  | o :: ops => allowed limit q o ∧ match spec q o with Ret (q, _) => all_allowed limit q ops | _ => True end
  end.

(** The contents never grow by more than what is written. *)
Lemma spec_size q o q' r : spec q o = Ret (q', r) →
  zlen (q_past q') + zlen (q_data q') <= zlen (q_past q) + zlen (q_data q) + zlen (written o).
Proof.
  assert (∀ n r, zlen (q_past (consume q n r)) + zlen (q_data (consume q n r)) = zlen (q_data q)) as Hc.
  { intros n r'. cbn [consume q_past q_data]. rewrite <- zlen_app. by rewrite take_drop. }
  assert (∀ n (p : bytes), zlen (drop n p) <= zlen p) as Hd by (intros; unfold zlen; rewrite length_drop; lia).
  assert (∀ n (p : bytes), zlen (take n p) <= zlen p) as Ht by (intros; unfold zlen; rewrite length_take; lia).
  pose proof (zlen_nonneg (q_past q)). pose proof (zlen_nonneg (q_data q)). change (zlen (@nil Z)) with 0.
  destruct o; cbn [spec written]; intros E; repeat case_match; simplify_eq; rewrite ?Hc; cbn [q_past q_data idle_queue give_back];
    rewrite ?zlen_app; change (zlen (@nil Z)) with 0; try lia;
    match goal with
    | |- context [zlen (drop ?n ?p)] => pose proof (Hd n p); lia
    | |- context [zlen (take ?n ?p)] => pose proof (Ht n p); lia
    end.
Qed.

Section sequences.
Context (host limit : Z) (Hhost : 32 <= host) (Hlimit : bootstrap_size <= limit < 2 ^ (host - 2)).

Lemma exec_all_agrees ops : ∀ b q, rel limit b q → all_allowed limit q ops →
  exec_all host limit b ops = spec_all q ops ∨
  exec_all host limit b ops = Panic ErrTooLarge ∧
    limit < 5 * (zlen (q_past q) + zlen (q_data q) + zlen (concat (map written ops))).
Proof.
  induction ops as [|o ops IH]; intros b q Hr Ha; [by left|]. cbn [exec_all spec_all map concat all_allowed] in *. destruct Ha as [Ho Ha].
  rewrite zlen_app. pose proof (zlen_nonneg (concat (map written ops))). pose proof (zlen_nonneg (q_past q)).
  destruct (exec_agrees host limit Hhost Hlimit b q o Hr Ho) as [H1|[-> Hf]].
  - destruct (spec q o) as [[q' r]|w|] eqn:Es; [|left; by rewrite H1|done].
    destruct (proj1 (wp_ex _ _) H1) as ([b' r'] & -> & E & Hr'). simpl in E, Hr'. subst r'. rewrite !go_bind_ret.
    pose proof (spec_size q o q' r Es). destruct (IH b' q' Hr' Ha) as [-> | [-> Hl]]; [by left|]. right. split; [done|lia].
  - right. split; [done|]. unfold fits in Hf. rewrite (rel_Len limit b q Hr) in Hf. lia.
Qed.

(** Buffers without history. *)
Lemma fresh_rel b data spare : are_bytes data → are_bytes spare → zlen (data ++ spare) <= limit →
  b = NewBuffer data spare ∨ b = NewBufferString data ∧ spare = [] ∨ b = empty ∧ data = [] ∧ spare = [] → rel limit b (idle_queue data).
Proof.
  intros Hd Hs Hl [-> |[[-> ->]|(-> & -> & ->)]]; [apply rel_layout with (host := host) (p := []) (s := spare)|apply rel_layout with (host := host) (p := []) (s := [])..];
    unfold cap; cbn [idle_queue q_data q_last NewBuffer NewBufferString empty arr len off is_nil lastRead]; rewrite ?app_nil_r in *; try done.
  by apply Forall_app.
Qed.
End sequences.

(** C34: a buffer is a queue of bytes. From a new buffer, a sequence of the
    operations that write, read, unread and truncate returns what the abstract
    queue returns, panics included: what is read is what was written, in order,
    runes in UTF-8, however often the buffer slid down or moved, and unreading gives back the last
    byte or rune read. The one other outcome is the documented panic when the
    buffer would be too large, and then a fifth of what can be allocated has been
    written. The sequences ([all_allowed]) are those that at no point write a negative rune,
    unread a byte after a read that returned none, unread a rune that was not
    well-formed, or write a slice that is larger than can be allocated. *)
Theorem Buffer_refines host limit b data spare ops :
  32 <= host → bootstrap_size <= limit < 2 ^ (host - 2) → are_bytes data → are_bytes spare → zlen (data ++ spare) <= limit →
  b = NewBuffer data spare ∨ b = NewBufferString data ∧ spare = [] ∨ b = empty ∧ data = [] ∧ spare = [] →
  all_allowed limit (idle_queue data) ops →
  exec_all host limit b ops = spec_all (idle_queue data) ops ∨
  exec_all host limit b ops = Panic ErrTooLarge ∧ limit < 5 * (zlen data + zlen (concat (map written ops))).
Proof.
  intros Hh Hl Hd Hs Hz Hb Ha. apply (exec_all_agrees host limit Hh Hl ops b (idle_queue data)); [by eapply fresh_rel|done].
Qed.

Example Buffer_refines_witness :
  let ops := [OWrite (str "hello"); OReadByte; OWriteRune 8364; OUnreadByte; ONext 4; OReadRune; OUnreadRune; OReadBytes 10; OUnreadByte; OLen] in
  exec_all 64 1000 empty ops = spec_all (idle_queue []) ops.
Proof.
  intros ops. destruct (Buffer_refines 64 1000 empty [] [] ops) as [H|[_ H]]; [lia|unfold bootstrap_size; lia|constructor|constructor|done|auto 10| |exact H|].
  - assert (are_bytes (str "hello")) as Hh by (by vm_compute; repeat constructor).
    simpl. repeat split; try done. intros _. by exists 8364.
  - exfalso. vm_compute in H. discriminate H.
Defined.

(** * Filling from a reader, emptying into a writer *)

(** What [io.Reader] documents, for a reader of a finite stream: reading into at
    least one byte delivers a prefix of what is left, and either an error, or it
    comes nearer to its end; [io.EOF] is the end of the stream. *)
Record reader (R : Type) := {
  read : R → Z → R * bytes * option io_error;
  stream : R → bytes;
  rank : R → nat;
  read_law : ∀ r k, 0 < k → match read r k with (r', p, e) =>
    zlen p <= k ∧ stream r = p ++ stream r' ∧ (e = None → (rank r' < rank r)%nat) ∧ (e = Some EOF → stream r' = []) end;
  stream_bytes : ∀ r, are_bytes (stream r) }.
Arguments read {R}. Arguments stream {R}. Arguments rank {R}. Arguments read_law {R}. Arguments stream_bytes {R}.

(** What [io.Writer] documents: it takes a prefix of the bytes, and says why when
    it is not all of them. *)
Record writer (W : Type) := {
  write : W → bytes → W * Z * option io_error;
  taken : W → bytes;
  write_law : ∀ w p, match write w p with (w', n, e) =>
    0 <= n <= zlen p ∧ taken w' = taken w ++ take (Z.to_nat n) p ∧ (e = None → n = zlen p) end }.
Arguments write {W}. Arguments taken {W}. Arguments write_law {W}.

Section transfer.
Context (host limit : Z) (Hhost : 32 <= host) (Hlimit : 2 * MinRead <= limit < 2 ^ (host - 2)).

Lemma limit_boot : bootstrap_size <= limit < 2 ^ (host - 2).
Proof. unfold MinRead, bootstrap_size in *. lia. Qed.

(** The buffer with at least [MinRead] bytes of free space. *)
Definition make_space (b : Buffer) : go Buffer :=
  let free := swrap host (cap b - len b) in
  if free <? MinRead then
    src ← Bytes b;
    if swrap host (off b + free) <? MinRead then
      a ← makeSlice limit (swrap host (swrap host (2 * cap b) + MinRead));
      b ← reslice (len b - off b) {| arr := (copy a 0 src).1; len := zlen a; off := off b; is_nil := false; lastRead := lastRead b |};
      Ret (set_off 0 b)
    else
      b ← reslice (len b - off b) {| arr := (copy (arr b) 0 src).1; len := len b; off := off b; is_nil := is_nil b; lastRead := lastRead b |};
      Ret (set_off 0 b)
  else Ret b.

Lemma make_space_rel b q : rel limit b q → lastRead b = opInvalid →
  returns (make_space b) (limit < 2 * zlen (q_data q) + 3 * MinRead)
    (λ b', rel limit b' (idle_queue (q_data q)) ∧ MinRead <= cap b' - len b' ∧ is_nil b' = false ∧ lastRead b' = opInvalid).
Proof.
  intros Hr Hlast. pose proof (rel_valid _ _ _ Hr) as Hv. pose proof (half host Hhost) as Hhalf. pose proof (rel_Len limit b q Hr) as HL.
  pose proof (zlen_nonneg (q_data q)). unfold make_space, MinRead in *. unfold Bytes. rewrite (rel_rest limit b q Hr), go_bind_ret.
  rewrite (buf_int_small host Hhost (cap b - len b)) by (destruct Hv; lia).
  assert (∀ a l x, are_bytes a → zlen (q_data q) + 512 <= zlen a → zlen a <= limit → l = zlen (q_data q) →
    returns (b' ← reslice l {| arr := (copy a 0 (q_data q)).1; len := x; off := off b; is_nil := false; lastRead := lastRead b |}; Ret (set_off 0 b'))
      (limit < 2 * zlen (q_data q) + 3 * 512)
      (λ b', rel limit b' (idle_queue (q_data q)) ∧ 512 <= cap b' - len b' ∧ is_nil b' = false ∧ lastRead b' = opInvalid)) as Hmove.
  { intros a l x Ha Hsz Hl ->. left. rewrite copy_front by lia. unfold reslice, cap. fields. rewrite (zlen_front host Hhost) by lia.
    rewrite decide_True by lia. simpl. rewrite (zlen_front host Hhost) by lia. split; [|split; [lia|done]].
    apply rel_layout with (host := host) (p := []) (s := drop (length (q_data q)) a); try done; unfold cap; fields; try apply limit_boot.
    - by rewrite (zlen_front host Hhost) by lia.
    - apply Forall_app. split; [|by apply Forall_drop]. rewrite <- (rel_data _ _ _ Hr). apply Forall_take, Forall_drop, Hv. }
  destruct (rel_split host limit Hhost b q Hr) as (s & _ & _ & _ & Hc & Hnil & Hb). unfold Len in HL.
  destruct (Z.ltb_spec (cap b - len b) 512) as [Hfull|Hfree].
  - rewrite (buf_int_small host Hhost (off b + _)) by (destruct Hv; lia).
    destruct (Z.ltb_spec (off b + (cap b - len b)) 512) as [Hsmall|Hroom].
    + rewrite makeSlice_eq by (try apply limit_boot; try done; try lia; destruct Hv; lia).
      case_decide as Hfit; [|right; split; [done|]; destruct Hv; lia]. rewrite go_bind_ret. apply Hmove; try lia.
      * by apply Forall_replicate.
      * rewrite zlen_replicate by (destruct Hv; unfold cap in *; lia). destruct Hv; lia.
      * rewrite zlen_replicate by (destruct Hv; unfold cap in *; lia). destruct Hv; lia.
    + destruct (is_nil b) eqn:En.
      { specialize (Hnil eq_refl). destruct Hv. unfold cap in *. rewrite Hnil in *. change (zlen (@nil Z)) with 0 in *. lia. }
      apply Hmove; unfold cap in *; try done; destruct Hv; unfold cap in *; lia.
  - left. simpl. split; [|split; [done|split; [|done]]].
    + destruct Hr. split; done.
    + destruct (is_nil b); [|done]. specialize (Hnil eq_refl). destruct Hv. unfold cap in *. rewrite Hnil in *. change (zlen (@nil Z)) with 0 in *. lia.
Qed.

(** What a read left behind the contents becomes part of them. *)
Lemma filled_rel b d p : rel limit b (idle_queue d) → is_nil b = false → zlen p <= cap b - len b → are_bytes p →
  reslice (len b + zlen p) {| arr := (copy (arr b) (len b) p).1; len := len b; off := off b; is_nil := is_nil b; lastRead := lastRead b |} ⇓
    λ b', rel limit b' (idle_queue (d ++ p)).
Proof.
  intros Hr Hnil Hp Hb. destruct (rel_split host limit Hhost b _ Hr) as (s & Ea & Eo & El & Hc & _ & Hba). cbn [idle_queue q_data] in *.
  pose proof (zlen_nonneg p). pose proof (zlen_nonneg s). pose proof (zlen_nonneg (past b)). pose proof (zlen_nonneg d).
  assert (zlen s = cap b - len b) as Hs by (unfold cap; rewrite Ea, !zlen_app; lia).
  assert (zlen (past b ++ d) = len b) as Hpd by (rewrite zlen_app; lia).
  rewrite Ea, app_assoc, copy_cursor by lia. cbn [fst].
  assert (zlen (((past b ++ d) ++ p) ++ drop (length p) s) = cap b) as Hcap.
  { rewrite !zlen_app in *. assert (zlen (drop (length p) s) = zlen s - zlen p) as -> by (unfold zlen in *; rewrite length_drop; lia). lia. }
  unfold reslice, cap. fields. unfold cap in *. rewrite Hcap, decide_True by lia. cbn [wp].
  apply rel_layout with (host := host) (p := past b) (s := drop (length p) s); unfold cap; fields; cbn [idle_queue q_data q_past q_last]; try done.
  - by rewrite <- !app_assoc.
  - rewrite zlen_app. lia.
  - by rewrite Hcap.
  - by rewrite Hnil.
  - rewrite Ea in Hba. apply Forall_app in Hba as [H1' [H2' H3']%Forall_app]. repeat (apply Forall_app; split); try done. by apply Forall_drop.
  - apply (rel_last _ _ _ Hr).
Qed.

Lemma ReadFrom_loop_spec {R} (rd : reader R) fuel : ∀ b d r n, (rank rd r < fuel)%nat → rel limit b (idle_queue d) →
  returns (ReadFrom_loop host limit (read rd) fuel b r n) (limit < 2 * (zlen d + zlen (stream rd r)) + 3 * MinRead) (λ x,
    match x with (b', r', n', e) => ∃ out, stream rd r = out ++ stream rd r' ∧ rel limit b' (idle_queue (d ++ out)) ∧
      n' = swrap 64 (n + zlen out) ∧ (e = None → stream rd r' = []) end).
Proof.
  induction fuel as [|fuel IH]; intros b d r n Hf Hr; [lia|].
  change (ReadFrom_loop host limit (read rd) (S fuel) b r n) with (b ← make_space b;
    let '(r, p, e) := read rd r (cap b - len b) in
    b ← reslice (len b + zlen p) {| arr := (copy (arr b) (len b) p).1; len := len b; off := off b; is_nil := is_nil b; lastRead := lastRead b |};
    match e with Some EOF => Ret (b, r, swrap 64 (n + zlen p), None) | Some e => Ret (b, r, swrap 64 (n + zlen p), Some e)
    | None => ReadFrom_loop host limit (read rd) fuel b r (swrap 64 (n + zlen p)) end).
  pose proof (zlen_nonneg (stream rd r)) as Hz.
  destruct (make_space_rel b _ Hr (rel_last _ _ _ Hr)) as [H|[-> Hl]]; [|right; split; [done|cbn [idle_queue q_data] in Hl; lia]].
  destruct (proj1 (wp_ex _ _) H) as (b1 & -> & Hr1 & Hfree & Hnil & Hlast). rewrite go_bind_ret. clear H. cbn [idle_queue q_data] in Hr1.
  pose proof (read_law rd r (cap b1 - len b1) ltac:(unfold MinRead in *; lia)) as Hlaw.
  destruct (read rd r (cap b1 - len b1)) as [[r' p] e] eqn:Er. destruct Hlaw as (Hp & Es & Hrank & Heof).
  assert (are_bytes p) as Hb by (pose proof (stream_bytes rd r) as Hb; rewrite Es in Hb; by apply Forall_app in Hb as [? _]).
  destruct (proj1 (wp_ex _ _) (filled_rel b1 d p Hr1 Hnil Hp Hb)) as (b2 & -> & Hr2). rewrite go_bind_ret.
  destruct e as [[]|].
  - left. simpl. exists p. split; [done|]. split; [done|]. split; [done|]. intros _. by apply Heof.
  - left. simpl. exists p. done.
  - left. simpl. exists p. done.
  - destruct (IH b2 (d ++ p) r' (swrap 64 (n + zlen p)) ltac:(specialize (Hrank eq_refl); lia) Hr2) as [H|[-> Hl]].
    + left. eapply wp_mono; [exact H|]. intros [[[b' r''] n'] e'] (out & Es' & Hr' & En & He). exists (p ++ out).
      rewrite Es, Es', <- app_assoc. split; [done|]. split; [by rewrite app_assoc|]. split; [|done].
      rewrite En, swrap_add_l, zlen_app. f_equal. lia.
    + right. split; [done|]. rewrite Es, zlen_app. rewrite zlen_app in Hl. lia.
Qed.

Lemma valid_rel b : valid limit b → rel limit b {| q_past := past b; q_data := contents b; q_last := lastRead b |}.
Proof. intros Hv. split; [done|done|done|]. intros _. by exists []. Qed.

Lemma Grow_spec b n : valid limit b → 0 <= n <= limit →
  returns (Grow host limit b n) (limit < 5 * (Len b + n)) (λ b', valid limit b' ∧ contents b' = contents b ∧ n <= cap b' - len b').
Proof.
  intros Hv Hn. unfold Grow. rewrite (proj2 (Z.ltb_ge n 0)) by lia.
  eapply returns_bind; [apply (grow_spec host limit Hhost limit_boot b n Hv Hn)|].
  intros [b' m] (E1 & E2 & (p & s & Ea & Eo & Hs & Hc & Hnil & Hb) & _). cbn [fst snd] in *.
  pose proof (zlen_contents limit b Hv) as Hz. pose proof (zlen_nonneg p). pose proof (zlen_nonneg (contents b)).
  assert (cap b' = zlen p + zlen (contents b) + zlen s) as Hcap by (unfold cap; rewrite Ea, !zlen_app; lia).
  unfold reslice. rewrite decide_True by lia. cbn [wp]. unfold contents at 1, cap at 1. fields.
  split; [split; unfold cap; fields; unfold cap in *; try lia; done|]. split; [|unfold cap in *; lia].
  rewrite Ea, Eo, drop_zlen_app. replace (m - zlen p) with (zlen (contents b)) by lia. apply take_zlen_app.
Qed.

Lemma ReadFrom_spec {R} (rd : reader R) b r : host <= 64 → valid limit b →
  returns (ReadFrom host limit (read rd) (S (rank rd r)) b r) (limit < 2 * (Len b + zlen (stream rd r)) + 3 * MinRead) (λ x,
    match x with (b', r', n, e) => ∃ out, stream rd r = out ++ stream rd r' ∧ valid limit b' ∧ contents b' = contents b ++ out ∧
      n = zlen out ∧ (e = None → stream rd r' = []) end).
Proof.
  intros Hh Hv. pose proof (rel_set_last limit _ _ opInvalid (valid_rel b Hv)) as Hr. cbn [q_data] in Hr.
  change {| q_past := []; q_data := contents b; q_last := opInvalid |} with (idle_queue (contents b)) in Hr.
  unfold ReadFrom. rewrite <- (zlen_contents limit b Hv).
  assert ((if len (set_last opInvalid b) <=? off (set_last opInvalid b) then Truncate (set_last opInvalid b) 0 else Ret (set_last opInvalid b))
    ⇓ λ b1, rel limit b1 (idle_queue (contents b))) as Hfirst.
  { destruct (Z.leb_spec (len (set_last opInvalid b)) (off (set_last opInvalid b))) as [Hle|]; [|done].
    apply (empty_iff host limit Hhost _ _ Hr) in Hle. cbn [idle_queue q_data] in Hle. rewrite Hle in *. by apply (Truncate_rel limit _ _ 0 Hr). }
  destruct (proj1 (wp_ex _ _) Hfirst) as (b1 & -> & Hr1). rewrite go_bind_ret.
  destruct (ReadFrom_loop_spec rd (S (rank rd r)) b1 (contents b) r 0 ltac:(lia) Hr1) as [H|H]; [left|by right].
  eapply wp_mono; [exact H|]. intros [[[b' r'] n] e] (out & Es & Hr' & En & He). exists out. split; [done|]. split; [apply (rel_valid _ _ _ Hr')|].
  split; [apply (rel_data _ _ _ Hr')|]. split; [|done]. rewrite En. apply swrap_small; [|lia].
  pose proof (zlen_contents limit b' (rel_valid _ _ _ Hr')) as Hz. rewrite (rel_data _ _ _ Hr') in Hz. cbn [idle_queue q_data] in Hz.
  rewrite zlen_app in Hz. pose proof (zlen_nonneg (contents b)). pose proof (zlen_nonneg out). destruct (rel_valid _ _ _ Hr'). unfold Len in Hz.
  assert (2 ^ (host - 2) <= 2 ^ 62) by (apply Z.pow_le_mono_r; lia). lia.
Qed.

Lemma WriteTo_spec {W} (wr : writer W) b w : valid limit b →
  WriteTo host (write wr) b w ⇓ λ x, match x with (b', w', n, e) =>
    0 <= n <= Len b ∧ taken wr w' = taken wr w ++ take (Z.to_nat n) (contents b) ∧ valid limit b' ∧
    contents b' = drop (Z.to_nat n) (contents b) ∧ (e = None → n = Len b) end.
Proof.
  intros Hv. pose proof (rel_set_last limit _ _ opInvalid (valid_rel b Hv)) as Hr. cbn [q_data] in Hr.
  change {| q_past := []; q_data := contents b; q_last := opInvalid |} with (idle_queue (contents b)) in Hr.
  pose proof (zlen_contents limit b Hv) as Hz. pose proof (rel_Len limit _ _ Hr) as HL. cbn [idle_queue q_data] in HL.
  unfold WriteTo. destruct (Z.ltb_spec (off (set_last opInvalid b)) (len (set_last opInvalid b))) as [Hlt|Hge].
  - unfold Bytes. rewrite (rel_rest limit _ _ Hr), go_bind_ret. cbn [idle_queue q_data].
    pose proof (write_law wr w (contents b)) as Hlaw. destruct (write wr w (contents b)) as [[w' n] e]. destruct Hlaw as (Hn & Et & He).
    rewrite HL. rewrite (proj2 (Z.ltb_ge (zlen (contents b)) n)) by lia.
    assert (swrap host (off (set_last opInvalid b) + n) = off (set_last opInvalid b) + n) as Eoff.
    { apply (buf_int_small host Hhost). pose proof (half host Hhost). destruct Hv. fields. unfold Len in *. lia. }
    rewrite Eoff. pose proof (consume_rel host limit Hhost _ _ n opInvalid Hr Hn) as Hc. cbn [idle_queue q_data] in Hc.
    destruct e as [e|]; [|specialize (He eq_refl)].
    + simpl. split; [lia|]. split; [done|]. split; [apply (rel_valid _ _ _ Hc)|]. split; [apply (rel_data _ _ _ Hc)|done].
    + subst n. rewrite Z.eqb_refl. cbn [negb]. pose proof (emptied_rel limit _ _ Hc) as H. cbn [consume idle_queue q_data] in H.
      destruct (proj1 (wp_ex _ _) (H ltac:(apply drop_ge; unfold zlen; lia))) as (b' & E & Hr').
      change (Truncate (set_off (off (set_last opInvalid b) + zlen (contents b)) (set_last opInvalid b)) 0 = Ret b') in E. rewrite E, go_bind_ret.
      simpl. split; [lia|]. split; [done|]. split; [apply (rel_valid _ _ _ Hr')|]. split; [|intros _; lia].
      rewrite (rel_data _ _ _ Hr'). cbn [idle_queue q_data]. symmetry. apply drop_ge. unfold zlen. lia.
  - apply (empty_iff host limit Hhost _ _ Hr) in Hge. cbn [idle_queue q_data] in Hge.
    destruct (proj1 (wp_ex _ _) (emptied_rel limit _ _ Hr Hge)) as (b' & E & Hr').
    change (Truncate (set_last opInvalid b) 0 = Ret b') in E. rewrite E, go_bind_ret. rewrite Hge in *. change (zlen (@nil Z)) with 0 in *.
    simpl. split; [lia|]. split; [by rewrite app_nil_r|]. split; [apply (rel_valid _ _ _ Hr')|]. split; [apply (rel_data _ _ _ Hr')|intros _; lia].
Qed.
End transfer.

(** C35: transfers. [Grow] keeps the contents and makes room for the bytes asked
    for, and panics on a negative count; [ReadFrom] ends, and has appended what it
    took from the reader, all of its stream unless it reports the reader's error;
    [WriteTo] hands the contents to the writer, keeps what the writer did not take
    and reports why. Growth panics only where it would be too large. *)
Theorem Buffer_transfers host limit b : 32 <= host <= 64 → 2 * MinRead <= limit < 2 ^ (host - 2) → valid limit b →
  (∀ n, if n <? 0 then Grow host limit b n = Panic "bytes.Buffer.Grow: negative count" else n <= limit →
    returns (Grow host limit b n) (limit < 5 * (Len b + n)) (λ b', valid limit b' ∧ contents b' = contents b ∧ n <= cap b' - len b')) ∧
  (∀ R (rd : reader R) r, returns (ReadFrom host limit (read rd) (S (rank rd r)) b r) (limit < 2 * (Len b + zlen (stream rd r)) + 3 * MinRead) (λ x,
    match x with (b', r', n, e) => ∃ out, stream rd r = out ++ stream rd r' ∧ valid limit b' ∧ contents b' = contents b ++ out ∧
      n = zlen out ∧ (e = None → stream rd r' = []) end)) ∧
  (∀ W (wr : writer W) w, WriteTo host (write wr) b w ⇓ λ x, match x with (b', w', n, e) =>
    0 <= n <= Len b ∧ taken wr w' = taken wr w ++ take (Z.to_nat n) (contents b) ∧ valid limit b' ∧
    contents b' = drop (Z.to_nat n) (contents b) ∧ (e = None → n = Len b) end).
Proof.
  intros Hh Hl Hv. split; [|split].
  - intros n. destruct (Z.ltb_spec n 0); [unfold Grow; by rewrite (proj2 (Z.ltb_lt n 0))|]. intros Hn. apply Grow_spec; done || lia.
  - intros R rd r. apply ReadFrom_spec; done || lia.
  - intros W wr w. apply WriteTo_spec; done || lia.
Qed.

(** A reader of a run of letters, two at a time, and a writer that takes them all. *)
Definition read_letters (n : nat) (k : Z) : nat * bytes * option io_error :=
  if decide (n = 0%nat) then (n, [], Some EOF) else
  let m := Nat.min n (Nat.min 2 (Z.to_nat k)) in ((n - m)%nat, replicate m 97, None).
Definition letters : reader nat.
Proof.
  refine {| read := read_letters; stream := λ n, replicate n 97; rank := λ n, n |}.
  - intros n k Hk. unfold read_letters. case_decide as Hn; [subst; unfold zlen; simpl; split; [lia|split; [done|split; done]]|].
    split; [unfold zlen; rewrite length_replicate; lia|]. split; [rewrite <- replicate_add; f_equal; lia|]. split; [lia|done].
  - intros n. by apply Forall_replicate.
Defined.
Definition sink : writer bytes.
Proof.
  refine {| write := λ w p, (w ++ p, zlen p, None); taken := λ w, w |}.
  intros w p. split; [pose proof (zlen_nonneg p); lia|]. split; [|done]. f_equal. symmetry. apply take_ge. unfold zlen. lia.
Defined.

Example Buffer_transfers_witness :
  valid 5000 (NewBufferString [1; 2]) ∧
  (∃ b r n, ReadFrom 64 5000 (read letters) 4 (NewBufferString [1; 2]) 3%nat = Ret (b, r, n, None) ∧ contents b = [1; 2; 97; 97; 97]) ∧
  ∃ b w n, WriteTo 64 (write sink) (NewBufferString [1; 2]) [7] = Ret (b, w, n, None) ∧ w = [7; 1; 2].
Proof.
  assert (valid 5000 (NewBufferString [1; 2])) as Hv 
    by (split; [split; done|done|done|done|by repeat constructor]).
  destruct (Buffer_transfers 64 5000 (NewBufferString [1; 2]) ltac:(lia) ltac:(unfold MinRead; lia) Hv) as (_ & Hr & Hw).
  split; [exact Hv|]. split.
  - assert (∃ x, ReadFrom 64 5000 (read letters) 4 (NewBufferString [1; 2]) 3%nat = Ret x ∧ x.1.1.1 = x.1.1.1 ∧ x.2 = None) as (x & E & _ & En)
      by (eexists; split; [vm_compute; reflexivity|done]).
    destruct (Hr nat letters 3%nat) as [H|[H _]]; change (S (rank letters 3%nat)) with 4%nat in H; rewrite E in H; [|discriminate H].
    destruct x as [[[b r] n] e]. simpl in En. subst e. destruct H as (out & Es & _ & Ec & _ & He). rewrite (He eq_refl), app_nil_r in Es.
    exists b, r, n. split; [exact E|]. rewrite Ec, <- Es. reflexivity.
  - assert (∃ x, WriteTo 64 (write sink) (NewBufferString [1; 2]) [7] = Ret x ∧ x.2 = None) as (x & E & En)
      by (eexists; split; [vm_compute; reflexivity|done]).
    pose proof (Hw bytes sink [7]) as H. rewrite E in H. destruct x as [[[b w] n] e]. simpl in En. subst e.
    destruct H as (_ & Et & _ & _ & He). exists b, w, n. split; [exact E|]. rewrite (He eq_refl) in Et. exact Et.
Defined.
