(* ===== verification/Varint.v ===== *)
(** Variable-length integers: [src/src/encoding/binary/varint.go]. *)
From S2P Require Import Prelude.

Definition MaxVarintLen64 : Z := 10.

Section host.
(** The width of [uint]. *)
Context (host : Z).

Definition PutUvarint (buf : bytes) (x : Z) : go (bytes * Z) :=
  '(buf, i, x) ← while 10 (λ '(buf, i, x), Ret (128 <=? x))
    (λ '(buf, i, x), buf ← upd buf i (Z.lor (u8 x) 128); Ret (buf, i + 1, Z.shiftr x 7)) (buf, 0, x);
  buf ← upd buf i (u8 x);
  Ret (buf, i + 1).

(** [for i, b := range buf], with the number [x] read so far and the shift [s]. *)
Fixpoint Uvarint_range (buf : bytes) (i x s : Z) : Z * Z :=
  match buf with
  | [] => (0, 0)
  | b :: buf =>
    if b <? 128 then
      if (9 <? i) || (i =? 9) && (1 <? b) then (0, - (i + 1))
      else (Z.lor x (u64 (Z.shiftl b s)), i + 1)
    else Uvarint_range buf (i + 1) (Z.lor x (u64 (Z.shiftl (Z.land b 127) s))) (wrap host (s + 7))
  end.
Definition Uvarint (buf : bytes) : Z * Z := Uvarint_range buf 0 0 0.

(** [^x] of a [uint64] and of an [int64]. *)
Definition PutVarint (buf : bytes) (x : Z) : go (bytes * Z) :=
  let ux := u64 (Z.shiftl (u64 x) 1) in
  let ux := if x <? 0 then u64 (Z.lnot ux) else ux in
  PutUvarint buf ux.

Definition unzigzag (ux : Z) : Z :=
  let x := i64 (Z.shiftr ux 1) in
  if negb (Z.land ux 1 =? 0) then Z.lnot x else x.
Definition Varint (buf : bytes) : Z * Z := let '(ux, n) := Uvarint buf in (unzigzag ux, n).

(** Reading byte by byte from an [io.ByteReader]: the bytes it has, and then its error. *)
Inductive read_error (E : Type) := overflow | reader_error (e : E).
Arguments overflow {E}.
Arguments reader_error {E} e.
Context {R E : Type} (ReadByte : R → R * (Z + E)).

Definition ReadUvarint (fuel : nat) (r : R) : go (R * Z * option (read_error E)) :=
  loop fuel (λ '(r, i, x, s),
    let '(r, b) := ReadByte r in
    match b with
    | inr err => Ret (inr (r, x, Some (reader_error err)))
    | inl b =>
      if b <? 128 then
        if (9 <? i) || (i =? 9) && (1 <? b) then Ret (inr (r, x, Some overflow))
        else Ret (inr (r, Z.lor x (u64 (Z.shiftl b s)), None))
      else Ret (inl (r, i + 1, Z.lor x (u64 (Z.shiftl (Z.land b 127) s)), wrap host (s + 7)))
    end) (r, 0, 0, 0).
Definition ReadVarint (fuel : nat) (r : R) : go (R * Z * option (read_error E)) :=
  '(r, ux, err) ← ReadUvarint fuel r;
  Ret (r, unzigzag ux, err).
End host.
Arguments overflow {E}.
Arguments reader_error {E} e.

Example varint_run :
  PutUvarint [0; 0; 0; 7] 300 = Ret ([172; 2; 0; 7], 2) ∧ Uvarint 64 [172; 2; 0; 7] = (300, 2) ∧
  PutVarint [0; 0; 0] (-129) = Ret ([129; 2; 0], 2) ∧ Varint 64 [129; 2] = (-129, 2) ∧
  PutUvarint [0] 300 = Panic "index out of range" ∧ Uvarint 64 [172] = (0, 0) ∧
  Uvarint 64 (replicate 9 255 ++ [2]) = (0, -10) ∧ Uvarint 64 (replicate 9 255 ++ [1]) = (2 ^ 64 - 1, 10) ∧
  ReadUvarint 64 (λ l, match l with [] => ([], inr tt) | b :: l => (l, inl b) end) 5 [172; 2; 9] = Ret ([9], 300, None).
Proof. by vm_compute. Qed.

(** * The format *)

(** Groups of seven bits, the least significant first, all but the last marked. *)
Fixpoint groups (fuel : nat) (x : Z) : bytes :=
  match fuel with
  | O => [x]
  | S fuel => if x <? 128 then [x] else (128 + x mod 128) :: groups fuel (x / 128)
  end.
Definition uvarint_bytes (x : Z) : bytes := groups 9 x.

(** The value of the groups up to the first unmarked byte, at index [i]. *)
Fixpoint payload (buf : bytes) : option (Z * Z * Z) :=
  match buf with
  | [] => None
  | b :: buf =>
    if b <? 128 then Some (b, 0, b) else
    match payload buf with Some (v, i, last) => Some (b mod 128 + 128 * v, i + 1, last) | None => None end
  end.

Lemma groups_bytes fuel x : 0 <= x < 128 * 128 ^ Z.of_nat fuel → are_bytes (groups fuel x).
Proof.
  revert x. induction fuel as [|fuel IH]; intros x Hx; simpl groups; [repeat constructor; unfold is_byte; lia|].
  rewrite Nat2Z.inj_succ, Z.pow_succ_r in Hx by lia. destruct (Z.ltb_spec x 128); [repeat constructor; unfold is_byte; lia|].
  constructor; [unfold is_byte; lia_div|]. apply IH. split; [lia_div|]. apply Z.div_lt_upper_bound; lia.
Qed.

Lemma groups_length fuel x : 1 <= zlen (groups fuel x) <= Z.of_nat fuel + 1.
Proof.
  revert x. induction fuel as [|fuel IH]; intros x; cbn [groups]; [by rewrite zlen_one|].
  destruct (x <? 128); [rewrite zlen_one; lia|]. rewrite zlen_cons. specialize (IH (x / 128)). lia.
Qed.

Lemma payload_groups fuel x rest : 0 <= x < 128 * 128 ^ Z.of_nat fuel →
  ∃ last, payload (groups fuel x ++ rest) = Some (x, zlen (groups fuel x) - 1, last) ∧ 0 <= last ∧
    last * 128 ^ (zlen (groups fuel x) - 1) <= x.
Proof.
  revert x. induction fuel as [|fuel IH]; intros x Hx; cbn [groups].
  - exists x. simpl. rewrite (proj2 (Z.ltb_lt x 128)) by (simpl in Hx; lia). rewrite zlen_one. split; [done|lia].
  - rewrite Nat2Z.inj_succ, Z.pow_succ_r in Hx by lia. destruct (Z.ltb_spec x 128).
    + exists x. simpl. rewrite (proj2 (Z.ltb_lt x 128)) by lia. rewrite zlen_one. split; [done|lia].
    + destruct (IH (x / 128)) as (last & E & Hl & Hle); [split; [lia_div|apply Z.div_lt_upper_bound; lia]|].
      exists last. cbn [app payload]. rewrite (proj2 (Z.ltb_ge (128 + x mod 128) 128)) by lia_div. rewrite E, zlen_cons.
      split; [|split; [done|]].
      * assert ((128 + x mod 128) mod 128 + 128 * (x / 128) = x) as -> by lia_div.
        by replace (zlen (groups fuel (x / 128)) - 1 + 1) with (1 + zlen (groups fuel (x / 128)) - 1) by lia.
      * pose proof (groups_length fuel (x / 128)). replace (1 + zlen (groups fuel (x / 128)) - 1) with (Z.succ (zlen (groups fuel (x / 128)) - 1)) by lia.
        rewrite Z.pow_succ_r by lia. assert (128 * (last * 128 ^ (zlen (groups fuel (x / 128)) - 1)) <= 128 * (x / 128)) by lia. lia_div.
Qed.

(** * Reading and writing *)

Section varint.
Context (host : Z) (Hhost : 32 <= host).

(** Adding a group above the bits read so far. *)
Lemma lor_group x b i : 0 <= i → 0 <= x < 128 ^ i → 0 <= b → x + b * 128 ^ i < 2 ^ 64 →
  Z.lor x (u64 (Z.shiftl b (7 * i))) = x + b * 128 ^ i.
Proof.
  intros Hi Hx Hb H. assert (128 ^ i = 2 ^ (7 * i)) as E by (rewrite (Z.pow_mul_r 2 7) by lia; done). rewrite E in *.
  rewrite Z.shiftl_mul_pow2 by lia. rewrite wrap_small by nia. rewrite Z.lor_comm, lor_high_add with (k := 7 * i); [lia|lia|done|].
  apply Z.mod_mul. lia.
Qed.

Lemma Uvarint_range_spec buf : ∀ i x, are_bytes buf → 0 <= i → 0 <= x → (i <= 9 → x < 128 ^ i) → i + zlen buf < 2 ^ 28 →
  match payload buf with
  | None => Uvarint_range host buf i x (7 * i) = (0, 0)
  | Some (v, k, last) => 0 <= k ∧ 0 <= last ∧ 0 <= v ∧
      Uvarint_range host buf i x (7 * i) = if (9 <? i + k) || (i + k =? 9) && (1 <? last) then (0, - (i + k + 1)) else (x + v * 128 ^ i, i + k + 1)
  end.
Proof.
  induction buf as [|b buf IH]; intros i x Hb Hi Hx Hxi Hlen; [done|]. apply Forall_cons in Hb as [Hb Hbs]. unfold is_byte in Hb.
  cbn [payload Uvarint_range]. rewrite zlen_cons in Hlen. pose proof (zlen_nonneg buf). destruct (Z.ltb_spec b 128) as [Hlt|Hge].
  - rewrite Z.add_0_r. do 3 (split; [lia|]). destruct ((9 <? i) || (i =? 9) && (1 <? b)) eqn:E; [done|].
    f_equal. apply lor_group; [done| |lia|].
    + split; [done|]. apply Hxi. bool_cases_in E.
    + assert (i <= 8 ∨ i = 9 ∧ b <= 1) as Hcase by (bool_cases_in E).
      assert (128 ^ 9 = 2 ^ 63) as E9 by done. destruct Hcase as [Hi8|[-> Hb1]]; [|specialize (Hxi ltac:(lia)); lia].
      assert (128 ^ i <= 128 ^ 8) by (apply Z.pow_le_mono_r; lia). specialize (Hxi ltac:(lia)). change (128 ^ 8) with (2 ^ 56) in *. nia.
  - assert (0 < 128 ^ i) by (apply Z.pow_pos_nonneg; lia).
    rewrite (wrap_small host) by (split; [lia|]; assert (2 ^ 32 <= 2 ^ host) by (apply Z.pow_le_mono_r; lia); lia).
    replace (7 * i + 7) with (7 * (i + 1)) by lia. assert (Z.land b 127 = b mod 128) as -> by (apply (land_mask b 7); lia).
    set (x' := Z.lor x (u64 (Z.shiftl (b mod 128) (7 * i)))).
    assert (0 <= x') as Hx'0. { apply Z.lor_nonneg. split; [done|]. apply wrap_bound. lia. }
    assert (i <= 8 → x' = x + b mod 128 * 128 ^ i) as Hx'.
    { intros Hi8. apply lor_group; [done|by split; [done|apply Hxi; lia]|lia_div|].
      assert (128 ^ i <= 128 ^ 8) by (apply Z.pow_le_mono_r; lia). specialize (Hxi ltac:(lia)). change (128 ^ 8) with (2 ^ 56) in *.
      pose proof (Z.mod_pos_bound b 128 ltac:(lia)). nia. }
    specialize (IH (i + 1) x' Hbs ltac:(lia) Hx'0).
    assert (i + 1 <= 9 → x' < 128 ^ (i + 1)) as Hnext.
    { intros Hi9. rewrite Hx' by lia. rewrite Z.pow_add_r by lia. specialize (Hxi ltac:(lia)).
      pose proof (Z.mod_pos_bound b 128 ltac:(lia)). nia. }
    specialize (IH Hnext ltac:(lia)). destruct (payload buf) as [[[v k] last]|]; [|done].
    destruct IH as (Hk & Hl & Hv & ->). pose proof (Z.mod_pos_bound b 128 ltac:(lia)). do 3 (split; [lia|]).
    replace (i + 1 + k) with (i + (k + 1)) by lia. destruct (_ || _) eqn:E; [done|]. f_equal.
    rewrite Hx' by (bool_cases_in E). rewrite Z.pow_add_r by lia. lia.
Qed.

Lemma Uvarint_spec buf : are_bytes buf → zlen buf < 2 ^ 28 →
  Uvarint host buf = match payload buf with
    | None => (0, 0)
    | Some (v, k, last) => if (9 <? k) || (k =? 9) && (1 <? last) then (0, - (k + 1)) else (v, k + 1) end.
Proof.
  intros Hb Hl. pose proof (Uvarint_range_spec buf 0 0 Hb ltac:(lia) ltac:(lia) ltac:(simpl; lia) ltac:(lia)) as H. unfold Uvarint.
  destruct (payload buf) as [[[v k] last]|]; [|done]. destruct H as (_ & _ & _ & H). change (7 * 0) with 0 in H. rewrite H.
  change (128 ^ 0) with 1. rewrite !Z.add_0_l, Z.mul_1_r. done.
Qed.

Lemma Uvarint_bytes x rest : 0 <= x < 2 ^ 64 → are_bytes rest → zlen rest < 2 ^ 27 →
  Uvarint host (uvarint_bytes x ++ rest) = (x, zlen (uvarint_bytes x)).
Proof.
  intros Hx Hr Hl. unfold uvarint_bytes. pose proof (groups_length 9 x) as Hg.
  assert (128 * 128 ^ Z.of_nat 9 = 2 ^ 70) as E70 by done.
  destruct (payload_groups 9 x rest ltac:(lia)) as (last & E & H0 & Hle).
  rewrite Uvarint_spec; [|apply Forall_app; split; [apply groups_bytes; lia|done]|rewrite zlen_app; lia]. rewrite E.
  replace (zlen (groups 9 x) - 1 + 1) with (zlen (groups 9 x)) by lia.
  destruct (Z.ltb_spec 9 (zlen (groups 9 x) - 1)); [lia|]. destruct (Z.eqb_spec (zlen (groups 9 x) - 1) 9) as [E9|]; [|done].
  rewrite E9 in Hle. change (128 ^ 9) with (2 ^ 63) in Hle. destruct (Z.ltb_spec 1 last); [lia|done].
Qed.
End varint.

(** * Writing *)

Lemma mark_byte x : Z.lor (u8 x) 128 = 128 + x mod 128.
Proof.
  assert (Z.lor (u8 x) 128 = 128 + u8 x mod 128) as ->.
  { apply Z.eqb_eq. apply (byte_forall (λ b, Z.lor b 128 =? 128 + b mod 128)); [by vm_compute|]. unfold is_byte. apply (wrap_bound 8). lia. }
  unfold wrap. lia_div.
Qed.

Definition put (fuel : nat) (buf : bytes) (i x : Z) : go (bytes * Z) :=
  '(buf, i, x) ← while fuel (λ '(buf, i, x), Ret (128 <=? x))
    (λ '(buf, i, x), buf ← upd buf i (Z.lor (u8 x) 128); Ret (buf, i + 1, Z.shiftr x 7)) (buf, i, x);
  buf ← upd buf i (u8 x);
  Ret (buf, i + 1).

Lemma put_done fuel buf i x : x < 128 → put (S fuel) buf i x = (buf ← upd buf i (u8 x); Ret (buf, i + 1)).
Proof. intros Hx. unfold put, while. simpl loop. by rewrite (proj2 (Z.leb_gt 128 x)). Qed.

Lemma put_more fuel buf i x : 128 <= x →
  put (S fuel) buf i x = (buf ← upd buf i (128 + x mod 128); put fuel buf (i + 1) (x / 128)).
Proof.
  intros Hx. unfold put, while. simpl loop. rewrite (proj2 (Z.leb_le 128 x)), mark_byte by done. cbn [fmap go_fmap].
  destruct (upd buf i (128 + x mod 128)); [|done..]. rewrite !go_bind_ret. by rewrite Z.shiftr_div_pow2.
Qed.

Lemma upd_end {A} (p : list A) y : upd p (zlen p) y = Panic "index out of range".
Proof. unfold upd. by rewrite decide_False by lia. Qed.

Lemma put_spec fuel : ∀ p k x, 0 <= x < 128 * 128 ^ Z.of_nat fuel →
  put (S fuel) (p ++ k) (zlen p) x =
    if zlen (groups fuel x) <=? zlen k
    then Ret ((p ++ groups fuel x) ++ drop (length (groups fuel x)) k, zlen p + zlen (groups fuel x))
    else Panic "index out of range".
Proof.
  induction fuel as [|fuel IH]; intros p k x Hx; pose proof (zlen_nonneg k) as Hk.
  - change (128 * 128 ^ Z.of_nat 0) with 128 in Hx. cbn [groups]. rewrite put_done, zlen_one, (wrap_small 8) by lia. destruct k as [|c k].
    + rewrite app_nil_r, upd_end. done.
    + rewrite upd_cursor by done. rewrite zlen_cons. pose proof (zlen_nonneg k). by rewrite (proj2 (Z.leb_le 1 (1 + zlen k))) by lia.
  - rewrite Nat2Z.inj_succ, Z.pow_succ_r in Hx by lia. cbn [groups]. destruct (Z.ltb_spec x 128) as [Hlt|Hge].
    + rewrite put_done, zlen_one, (wrap_small 8) by lia. destruct k as [|c k].
      * rewrite app_nil_r, upd_end. done.
      * rewrite upd_cursor by done. rewrite zlen_cons. pose proof (zlen_nonneg k). by rewrite (proj2 (Z.leb_le 1 (1 + zlen k))) by lia.
    + rewrite put_more by done. pose proof (groups_length fuel (x / 128)). destruct k as [|c k].
      * rewrite app_nil_r, upd_end, zlen_cons. change (zlen (@nil Z)) with 0.
        by rewrite (proj2 (Z.leb_gt (1 + zlen (groups fuel (x / 128))) 0)) by lia.
      * rewrite upd_cursor, go_bind_ret by done.
        assert (zlen p + 1 = zlen (p ++ [128 + x mod 128])) as -> by (rewrite zlen_app, zlen_one; lia).
        rewrite IH by (split; [lia_div|apply Z.div_lt_upper_bound; lia]). rewrite !zlen_cons, zlen_app, zlen_one.
        destruct (Z.leb_spec (zlen (groups fuel (x / 128))) (zlen k)) as [Hle|Hgt].
        -- rewrite (proj2 (Z.leb_le _ _)) by lia. rewrite <- !app_assoc. cbn [app length drop]. f_equal. f_equal. lia.
        -- by rewrite (proj2 (Z.leb_gt _ _)) by lia.
Qed.

Lemma PutUvarint_spec buf x : 0 <= x < 2 ^ 64 →
  PutUvarint buf x = if zlen (uvarint_bytes x) <=? zlen buf
    then Ret (uvarint_bytes x ++ drop (length (uvarint_bytes x)) buf, zlen (uvarint_bytes x)) else Panic "index out of range".
Proof.
  intros Hx. assert (128 * 128 ^ Z.of_nat 9 = 2 ^ 70) as E70 by done. pose proof (put_spec 9 [] buf x ltac:(lia)) as H.
  change (zlen (@nil Z)) with 0 in H. unfold uvarint_bytes. exact H.
Qed.

(** Signed integers: the sign in the lowest bit. *)
Definition zigzag (x : Z) : Z := if x <? 0 then - 2 * x - 1 else 2 * x.

Lemma PutVarint_eq buf x : - 2 ^ 63 <= x < 2 ^ 63 → PutVarint buf x = PutUvarint buf (zigzag x).
Proof.
  intros Hx. unfold PutVarint, zigzag. cbv zeta. f_equal. rewrite Z.shiftl_mul_pow2 by lia. rewrite wrap_mul_l. change (2 ^ 1) with 2.
  destruct (Z.ltb_spec x 0); [|rewrite wrap_small; lia].
  assert (u64 (x * 2) = x * 2 + 2 ^ 64) as -> by (unfold wrap; lia_div). unfold Z.lnot, wrap. lia_div.
Qed.

Lemma unzigzag_zigzag x : - 2 ^ 63 <= x < 2 ^ 63 → unzigzag (zigzag x) = x.
Proof.
  intros Hx. unfold unzigzag, zigzag. rewrite Z.shiftr_div_pow2 by lia. change (2 ^ 1) with 2.
  rewrite (land_mask _ 1) by lia. change (2 ^ 1) with 2. destruct (Z.ltb_spec x 0).
  - assert ((- 2 * x - 1) mod 2 = 1) as -> by lia_div. assert ((- 2 * x - 1) / 2 = - x - 1) as -> by lia_div.
    rewrite (swrap_small 64) by lia. unfold Z.lnot. simpl. lia.
  - assert (2 * x mod 2 = 0) as -> by lia_div. assert (2 * x / 2 = x) as -> by lia_div. rewrite (swrap_small 64) by lia. done.
Qed.

(** * Readers *)

Section reader.
Context (host : Z) {R E : Type} (ReadByte : R → R * (Z + E)).

(** The reader at [r] has the bytes [l] before it is at [r']. *)
Inductive delivers : R → bytes → R → Prop :=
  | delivers_nil r : delivers r [] r
  | delivers_cons r b r1 l r' : ReadByte r = (r1, inl b) → delivers r1 l r' → delivers r (b :: l) r'.

Lemma ReadUvarint_range l : ∀ fuel i x s r r' v k last, delivers r l r' → (length l <= fuel)%nat →
  payload l = Some (v, k, last) → k = zlen l - 1 → 0 <= i → 0 < (Uvarint_range host l i x s).2 →
  loop fuel (λ '(r, i, x, s),
    let '(r, b) := ReadByte r in
    match b with
    | inr err => Ret (inr (r, x, Some (reader_error err)))
    | inl b =>
      if b <? 128 then
        if (9 <? i) || (i =? 9) && (1 <? b) then Ret (inr (r, x, Some overflow))
        else Ret (inr (r, Z.lor x (u64 (Z.shiftl b s)), None))
      else Ret (inl (r, i + 1, Z.lor x (u64 (Z.shiftl (Z.land b 127) s)), wrap host (s + 7)))
    end) (r, i, x, s) = Ret (r', (Uvarint_range host l i x s).1, None).
Proof.
  induction l as [|b l IH]; intros fuel i x s r r' v k last Hd Hf Hp Hk Hi Hn; [done|].
  destruct fuel as [|fuel]; [simpl in Hf; lia|]. inversion Hd as [|? ? r1 ? ? Er Hd']; subst. cbn [loop]. rewrite Er.
  cbn [payload Uvarint_range] in *. rewrite zlen_cons in *. destruct (Z.ltb_spec b 128).
  - injection Hp as -> Hk _. assert (l = []) as -> by (apply zlen_nil_inv; lia). inversion Hd'; subst.
    destruct (_ || _); [simpl in Hn; lia|done].
  - destruct (payload l) as [[[v' k'] last']|] eqn:Ep; [|done]. injection Hp as _ Hk _. rewrite go_bind_ret.
    apply (IH fuel _ _ _ _ _ v' k' last'); try done; [simpl in Hf; lia|lia|lia].
Qed.
End reader.

(** C39: variable-length integers. [PutUvarint] writes the groups of seven bits of a
    [uint64], at most ten bytes, and panics exactly when they do not fit;
    [Uvarint] reads the number and its width back, whatever follows, and on any
    bytes returns the value of the groups, 0 bytes when they do not end, or the
    overflow when they have more than 64 bits; [PutVarint] and [Varint] do the same
    for an [int64]; and [ReadUvarint] and [ReadVarint] read the number from a reader
    that delivers its bytes, and no more. *)
Theorem Varint_roundtrip host : 32 <= host →
  (∀ x buf, 0 <= x < 2 ^ 64 → 1 <= zlen (uvarint_bytes x) <= MaxVarintLen64 ∧
    PutUvarint buf x = if zlen (uvarint_bytes x) <=? zlen buf
      then Ret (uvarint_bytes x ++ drop (length (uvarint_bytes x)) buf, zlen (uvarint_bytes x)) else Panic "index out of range") ∧
  (∀ x rest, 0 <= x < 2 ^ 64 → are_bytes rest → zlen rest < 2 ^ 27 →
    Uvarint host (uvarint_bytes x ++ rest) = (x, zlen (uvarint_bytes x))) ∧
  (∀ buf, are_bytes buf → zlen buf < 2 ^ 28 → Uvarint host buf = match payload buf with
    | None => (0, 0)
    | Some (v, k, last) => if (9 <? k) || (k =? 9) && (1 <? last) then (0, - (k + 1)) else (v, k + 1) end) ∧
  (∀ x buf, - 2 ^ 63 <= x < 2 ^ 63 → MaxVarintLen64 <= zlen buf < 2 ^ 27 → are_bytes buf →
    ∃ b n, PutVarint buf x = Ret (b, n) ∧ Varint host b = (x, n)) ∧
  (∀ R E (ReadByte : R → R * (Z + E)) r r' x, 0 <= x < 2 ^ 64 → delivers ReadByte r (uvarint_bytes x) r' →
    ReadUvarint host ReadByte 10 r = Ret (r', x, None) ∧
    ReadVarint host ReadByte 10 r = Ret (r', unzigzag x, None)).
Proof.
  intros Hh. split; [intros x buf Hx; split; [apply (groups_length 9)|by apply PutUvarint_spec]|].
  split; [by apply Uvarint_bytes|]. split; [by apply Uvarint_spec|]. split.
  - intros x buf Hx Hl Hb. assert (0 <= zigzag x < 2 ^ 64) as Hz by (unfold zigzag; destruct (Z.ltb_spec x 0); lia).
    pose proof (groups_length 9 (zigzag x)) as Hg. unfold MaxVarintLen64 in Hl. rewrite PutVarint_eq, PutUvarint_spec by done.
    unfold uvarint_bytes in *. rewrite (proj2 (Z.leb_le _ _)) by lia. eexists _, _. split; [done|]. unfold Varint.
    fold (uvarint_bytes (zigzag x)). rewrite Uvarint_bytes; [by rewrite unzigzag_zigzag|done|done|by apply Forall_drop|].
    unfold zlen in *. rewrite length_drop. lia.
  - intros R E ReadByte r r' x Hx Hd. assert (ReadUvarint host ReadByte 10 r = Ret (r', x, None)) as Er.
    { assert (128 * 128 ^ Z.of_nat 9 = 2 ^ 70) as E70 by done. pose proof (groups_length 9 x) as Hg.
      destruct (payload_groups 9 x [] ltac:(lia)) as (last & Ep & _). rewrite app_nil_r in Ep.
      pose proof (Uvarint_bytes host Hh x [] Hx ltac:(constructor) ltac:(rewrite zlen_nil; lia)) as Eu. rewrite app_nil_r in Eu.
      unfold Uvarint in Eu. unfold ReadUvarint. rewrite (ReadUvarint_range host ReadByte (uvarint_bytes x) 10 0 0 0 r r' x (zlen (groups 9 x) - 1) last Hd); try done.
      - by rewrite Eu.
      - unfold zlen, uvarint_bytes in *. lia.
      - rewrite Eu. simpl. unfold uvarint_bytes. lia. }
    split; [done|]. unfold ReadVarint. by rewrite Er.
Qed.

Example Varint_roundtrip_witness :
  Uvarint 64 (uvarint_bytes 300 ++ [7]) = (300, 2) ∧
  ∃ b n, PutVarint (replicate 10 0) (-129) = Ret (b, n) ∧ Varint 64 b = (-129, n).
Proof.
  destruct (Varint_roundtrip 64 ltac:(lia)) as (_ & H2 & _ & H4 & _). split.
  - apply (H2 300 [7]); [lia|by repeat constructor|rewrite zlen_one; lia].
  - apply (H4 (-129) (replicate 10 0)); [lia|unfold MaxVarintLen64, zlen; simpl; lia|by apply Forall_replicate].
Defined.
