(* ===== verification/Hex.v ===== *)
(** Hexadecimal encoding: [src/src/encoding/hex/hex.go]. *)
From S2P Require Import Prelude.

Definition hextable : bytes := str "0123456789abcdef".

Definition EncodedLen {W : Host} (n : Z) : Z := swrap int_bits (n * 2).
Definition DecodedLen (x : Z) : Z := Z.quot x 2.

Definition Encode (dst src : bytes) : go (bytes * Z) :=
  dst ← for_up 0 (zlen src) (λ i dst,
    v ← idx src i;
    h ← idx hextable (Z.shiftr v 4);
    dst ← upd dst (i * 2) h;
    l ← idx hextable (Z.land v 15);
    upd dst (i * 2 + 1) l) dst;
  Ret (dst, zlen src * 2).

Inductive hex_error := ErrLength | InvalidByteError (c : Z).

Definition fromHexChar (c : Z) : Z * bool :=
  if (ch "0" <=? c) && (c <=? ch "9") then (c - ch "0", true)
  else if (ch "a" <=? c) && (c <=? ch "f") then (c - ch "a" + 10, true)
  else if (ch "A" <=? c) && (c <=? ch "F") then (c - ch "A" + 10, true)
  else (0, false).

(** The buffer, the count and the error. *)
Definition Decode (dst src : bytes) : go (bytes * Z * option hex_error) :=
  if Z.rem (zlen src) 2 =? 1 then Ret (dst, 0, Some ErrLength) else
  loop (S (length src)) (λ '(i, dst),
    if i <? Z.quot (zlen src) 2 then
      c ← idx src (i * 2);
      let '(a, ok) := fromHexChar c in
      if negb ok then Ret (inr (dst, 0, Some (InvalidByteError c))) else
      d ← idx src (i * 2 + 1);
      let '(b, ok) := fromHexChar d in
      if negb ok then Ret (inr (dst, 0, Some (InvalidByteError d))) else
      dst ← upd dst i (Z.lor (u8 (Z.shiftl a 4)) b);
      Ret (inl (i + 1, dst))
    else Ret (inr (dst, Z.quot (zlen src) 2, None))) (0, dst).

Definition EncodeToString {W : Host} (src : bytes) : go bytes :=
  dst ← makeslice 1 0 (EncodedLen (zlen src));
  '(dst, _) ← Encode dst src;
  Ret dst.
Definition DecodeString {W : Host} (s : bytes) : go (bytes * option hex_error) :=
  dst ← makeslice 1 0 (DecodedLen (zlen s));
  '(dst, _, err) ← Decode dst s;
  match err with Some e => Ret ([], Some e) | None => Ret (dst, None) end.

#[local] Existing Instance Int64.
Example hex_run :
  EncodeToString [0; 171; 255] = Ret (str "00abff") ∧ DecodeString (str "00aBFf") = Ret ([0; 171; 255], None) ∧
  DecodeString (str "00a") = Ret ([], Some ErrLength) ∧ DecodeString (str "0xag") = Ret ([], Some (InvalidByteError (ch "x"))) ∧
  Encode [9; 9; 9] [16] = Ret ([49; 48; 9], 2) ∧ Encode [9] [16] = Panic "index out of range".
Proof. by vm_compute. Qed.

(** * The format *)

Definition digit (n : Z) : Z := if n <? 10 then 48 + n else 87 + n.
Fixpoint hex (src : bytes) : bytes :=
  match src with [] => [] | v :: src => digit (v / 16) :: digit (v mod 16) :: hex src end.
(** The bytes of an even number of digits, or the first byte that is not a digit. *)
Fixpoint unhex (s : bytes) : bytes + Z :=
  match s with
  | a :: b :: s =>
    if negb (fromHexChar a).2 then inr a else if negb (fromHexChar b).2 then inr b else
    match unhex s with inl r => inl (16 * (fromHexChar a).1 + (fromHexChar b).1 :: r) | inr c => inr c end
  | _ => inl []
  end.
Definition lower (c : Z) : Z := if (65 <=? c) && (c <=? 90) then c + 32 else c.

Lemma hextable_digit n : 0 <= n < 16 → idx hextable n = Ret (digit n).
Proof.
  intros Hn. assert (forallb (λ n, match idx hextable n with Ret d => d =? digit n | _ => false end) (seqZ 0 16) = true) as H by done.
  rewrite forallb_forall in H. specialize (H n (proj1 (list_elem_of_In _ _) (proj2 (elem_of_seqZ 0 16 n) ltac:(lia)))).
  destruct (idx hextable n); [|done..]. apply Z.eqb_eq in H. by rewrite H.
Qed.

Lemma digit_value n : 0 <= n < 16 → fromHexChar (digit n) = (n, true).
Proof.
  intros Hn. unfold digit, fromHexChar. change (ch "0") with 48. change (ch "9") with 57. change (ch "a") with 97. change (ch "f") with 102.
  destruct (Z.ltb_spec n 10); bool_cases; f_equal; lia.
Qed.

Lemma value_digit c : (fromHexChar c).2 = true → 0 <= (fromHexChar c).1 < 16 ∧ digit (fromHexChar c).1 = lower c.
Proof.
  unfold fromHexChar, digit, lower. change (ch "0") with 48. change (ch "9") with 57. change (ch "a") with 97. change (ch "f") with 102.
  change (ch "A") with 65. change (ch "F") with 70.
  destruct (Z.leb_spec 48 c), (Z.leb_spec c 57); cbn [andb fst snd]; try (intros _; bool_cases; lia);
    destruct (Z.leb_spec 97 c), (Z.leb_spec c 102); cbn [andb fst snd]; try (intros _; bool_cases; lia);
    destruct (Z.leb_spec 65 c), (Z.leb_spec c 70); cbn [andb fst snd]; try done; intros _; bool_cases; lia.
Qed.

Lemma zlen_hex src : zlen (hex src) = 2 * zlen src.
Proof. induction src as [|v src IH]; [done|]. cbn [hex]. rewrite !zlen_cons. lia. Qed.

Lemma unhex_hex src : are_bytes src → unhex (hex src) = inl src.
Proof.
  induction 1 as [|v src Hv _ IH]; [done|]. unfold is_byte in Hv. cbn [hex unhex].
  rewrite !digit_value by lia_div. cbn [fst snd negb]. rewrite IH. f_equal. f_equal. lia_div.
Qed.

Lemma unhex_spec n : ∀ s, (length s <= n)%nat → Z.rem (zlen s) 2 = 0 →
  match unhex s with
  | inl r => zlen r = Z.quot (zlen s) 2 ∧ hex r = map lower s ∧ are_bytes r ∧ forallb (λ c, (fromHexChar c).2) s = true
  | inr c => ∃ p q, s = p ++ c :: q ∧ forallb (λ c, (fromHexChar c).2) p = true ∧ (fromHexChar c).2 = false
  end.
Proof.
  induction n as [|n IH]; intros [|a [|b s]] Hl Hs; try done; try (simpl in Hl; lia).
  rewrite !zlen_cons in Hs. pose proof (zlen_nonneg s). cbn [unhex forallb map].
  destruct ((fromHexChar a).2) eqn:Ea; cbn [negb andb]; [|by exists [], (b :: s)].
  destruct ((fromHexChar b).2) eqn:Eb; cbn [negb andb]; [|by exists [a], s; simpl; rewrite Ea].
  specialize (IH s ltac:(simpl in Hl; lia) ltac:(lia_div)). destruct (value_digit a Ea) as [Ha Eda], (value_digit b Eb) as [Hb Edb].
  destruct (unhex s) as [r|c].
  - destruct IH as (Hz & Eh & Hr & Hall). rewrite !zlen_cons. split; [lia_div|]. split; [|split; [constructor; [unfold is_byte; lia|done]|done]].
    cbn [hex]. rewrite Eh. assert ((16 * (fromHexChar a).1 + (fromHexChar b).1) / 16 = (fromHexChar a).1) as -> by lia_div.
    assert ((16 * (fromHexChar a).1 + (fromHexChar b).1) mod 16 = (fromHexChar b).1) as -> by lia_div. by rewrite Eda, Edb.
  - destruct IH as (p & q & -> & Hp & Hc). exists (a :: b :: p), q. simpl. by rewrite Ea, Eb.
Qed.

(** * The loops *)

Lemma hex_app s t : hex (s ++ t) = hex s ++ hex t.
Proof. induction s as [|v s IH]; [done|]. simpl. by rewrite IH. Qed.

Lemma hex_Encode_spec dst src : are_bytes src → 2 * zlen src <= zlen dst →
  Encode dst src = Ret (hex src ++ drop (length (hex src)) dst, 2 * zlen src).
Proof.
  intros Hb Hl. unfold Encode. assert (zlen src * 2 = 2 * zlen src) as -> by lia.
  set (body := λ i dst, _).
  assert (∀ p q k, src = p ++ q → 2 * zlen q <= zlen k →
    for_nat (length q) (zlen p) body (hex p ++ k) = Ret (hex src ++ drop (length (hex q)) k)) as H.
  { intros p q. revert p. induction q as [|v q IH]; intros p k E Hk.
    - rewrite app_nil_r in E. subst p. simpl. by rewrite drop_0.
    - rewrite zlen_cons in Hk. pose proof (zlen_nonneg q). destruct k as [|x [|y k]]; [rewrite zlen_nil in Hk; lia|rewrite zlen_one in Hk; lia|].
      rewrite !zlen_cons in Hk. assert (src.[zlen p] = Some v) as Ev by (rewrite E, nthZ_app, decide_False by lia; by rewrite Z.sub_diag).
      assert (is_byte v) as Hv by (rewrite E in Hb; apply Forall_app in Hb as [_ Hb]; by apply Forall_cons in Hb as [? _]). unfold is_byte in Hv.
      assert (body (zlen p) (hex p ++ x :: y :: k) = Ret (hex (p ++ [v]) ++ k)) as Estep.
      { unfold body. rewrite (idx_Some _ _ _ Ev), go_bind_ret, Z.shiftr_div_pow2 by lia. assert (Z.land v 15 = v mod 16) as -> by (apply (land_mask v 4); lia). change (2 ^ 4) with 16.
        rewrite !hextable_digit by lia_div. rewrite go_bind_ret, upd_cursor by (rewrite zlen_hex; lia). rewrite !go_bind_ret.
        rewrite upd_cursor by (rewrite zlen_app, zlen_hex, zlen_one; lia). by rewrite hex_app, <- !app_assoc. }
      cbn [length for_nat]. rewrite Estep, go_bind_ret.
      assert (zlen p + 1 = zlen (p ++ [v])) as -> by (rewrite zlen_app, zlen_one; lia).
      rewrite (IH (p ++ [v]) k); [done|by rewrite <- app_assoc|lia]. }
  unfold for_up. replace (Z.to_nat (zlen src - 0)) with (length src) by (unfold zlen; lia).
  change dst with (hex [] ++ dst) at 1. change 0 with (zlen (@nil Z)). by rewrite (H [] src dst) by done.
Qed.

Lemma hex_Decode_spec dst src : Z.rem (zlen src) 2 = 0 → Z.quot (zlen src) 2 <= zlen dst →
  match unhex src with
  | inl r => Decode dst src = Ret (r ++ drop (length r) dst, zlen r, None)
  | inr c => ∃ dst', Decode dst src = Ret (dst', 0, Some (InvalidByteError c))
  end.
Proof.
  intros Hev Hl. unfold Decode. rewrite Hev. change (0 =? 1) with false. cbv iota. set (body := λ '(i, dst), _).
  assert (∀ fuel p r k q, src = p ++ q → zlen p = 2 * zlen r → Z.rem (zlen q) 2 = 0 → Z.quot (zlen q) 2 <= zlen k → (length q < fuel)%nat →
    match unhex q with
    | inl t => loop fuel body (zlen r, r ++ k) = Ret ((r ++ t) ++ drop (length t) k, zlen (r ++ t), None)
    | inr c => ∃ dst', loop fuel body (zlen r, r ++ k) = Ret (dst', 0, Some (InvalidByteError c))
    end) as H.
  { induction fuel as [|fuel IH]; intros p r k q E Hp Hq Hk Hf; [lia|].
    pose proof (zlen_nonneg r). assert (Z.quot (zlen src) 2 = zlen r + Z.quot (zlen q) 2) as Eq by (rewrite E, zlen_app, Hp; lia_div).
    destruct q as [|a [|b q]]; [| by simpl in Hq|].
    - assert (Z.quot (zlen src) 2 = zlen r) as Eq' by (rewrite Eq; change (zlen (@nil Z)) with 0; change (Z.quot 0 2) with 0; lia).
      cbn [unhex loop]. assert (body (zlen r, r ++ k) = Ret (inr (r ++ k, zlen r, None))) as -> by (unfold body; by rewrite Eq', Z.ltb_irrefl).
      by rewrite go_bind_ret, app_nil_r, drop_0.
    - rewrite !zlen_cons in *. pose proof (zlen_nonneg q). destruct k as [|x k]; [change (zlen (@nil Z)) with 0 in Hk; lia_div|].
      rewrite zlen_cons in Hk. pose proof (zlen_nonneg k).
      assert (src.[zlen r * 2] = Some a) as Ea by (rewrite E, nthZ_app, decide_False by lia; by replace (zlen r * 2 - zlen p) with 0 by lia).
      assert (src.[zlen r * 2 + 1] = Some b) as Eb by (rewrite E, nthZ_app, decide_False by lia; by replace (zlen r * 2 + 1 - zlen p) with 1 by lia).
      assert (body (zlen r, r ++ x :: k) =
        if negb (fromHexChar a).2 then Ret (inr (r ++ x :: k, 0, Some (InvalidByteError a))) else
        if negb (fromHexChar b).2 then Ret (inr (r ++ x :: k, 0, Some (InvalidByteError b))) else
        Ret (inl (zlen (r ++ [16 * (fromHexChar a).1 + (fromHexChar b).1]), (r ++ [16 * (fromHexChar a).1 + (fromHexChar b).1]) ++ k))) as Estep.
      { unfold body. rewrite (proj2 (Z.ltb_lt _ _)) by (rewrite Eq; lia_div).
        rewrite (idx_Some _ _ _ Ea), go_bind_ret. pose proof (value_digit a) as Ha. pose proof (value_digit b) as Hb.
        destruct (fromHexChar a) as [va [|]]; cbn [fst snd negb] in *; [|done].
        rewrite (idx_Some _ _ _ Eb), go_bind_ret. destruct (fromHexChar b) as [vb [|]]; cbn [fst snd negb] in *; [|done].
        destruct (Ha eq_refl) as [Ha' _], (Hb eq_refl) as [Hb' _].
        rewrite Z.shiftl_mul_pow2 by lia. rewrite wrap_small by lia. rewrite (lor_high_add (va * 2 ^ 4) 4) by (lia || (apply Z.mod_mul; lia)).
        rewrite upd_cursor by done. rewrite go_bind_ret, zlen_app, zlen_one. by replace (va * 2 ^ 4 + vb) with (16 * va + vb) by lia. }
      cbn [loop unhex]. rewrite Estep. destruct ((fromHexChar a).2); cbn [negb]; [|by eexists]. destruct ((fromHexChar b).2); cbn [negb]; [|by eexists].
      set (v := 16 * (fromHexChar a).1 + (fromHexChar b).1). rewrite go_bind_ret.
      specialize (IH (p ++ [a; b]) (r ++ [v]) k q ltac:(by rewrite <- app_assoc) ltac:(rewrite !zlen_app, zlen_two, zlen_one; lia)
        ltac:(lia_div) ltac:(lia_div) ltac:(simpl in Hf; lia)).
      destruct (unhex q) as [t|c]; [|done]. rewrite IH, <- !app_assoc. done. }
  specialize (H (S (length src)) [] [] dst src eq_refl eq_refl Hev Hl ltac:(lia)). exact H.
Qed.

(** Hexadecimal encoding. [EncodeToString] returns two lower-case digits a byte,
    and [DecodeString] reads the bytes back. On any string [DecodeString] returns:
    [ErrLength] on an odd length, the error of the first byte that is not a digit
    if there is one, and otherwise the bytes whose encoding is the string in lower
    case; the encoding, and the string to decode, fit in memory. *)
Theorem Hex_roundtrip {W : Host} :
  (∀ src, are_bytes src → zlen src * 2 <= max_len 1 → EncodeToString src = Ret (hex src) ∧ zlen (hex src) = EncodedLen (zlen src) ∧
    DecodeString (hex src) = Ret (src, None)) ∧
  (∀ s, zlen s <= max_len 1 → DecodeString s ⇓ λ x, match x with
    | (r, None) => Z.rem (zlen s) 2 = 0 ∧ are_bytes r ∧ hex r = map lower s
    | (r, Some ErrLength) => r = [] ∧ Z.rem (zlen s) 2 = 1
    | (r, Some (InvalidByteError c)) => r = [] ∧ Z.rem (zlen s) 2 = 0 ∧
        ∃ p q, s = p ++ c :: q ∧ forallb (λ c, (fromHexChar c).2) p = true ∧ (fromHexChar c).2 = false end).
Proof.
  pose proof (max_len_int 1) as Hmax.
  assert (∀ s, zlen s <= max_len 1 → Z.rem (zlen s) 2 = 0 → DecodeString s = Ret match unhex s with inl r => (r, None) | inr c => ([], Some (InvalidByteError c)) end) as Hd.
  { intros s Hfit Hs. pose proof (zlen_nonneg s). unfold DecodeString, DecodedLen. rewrite makeslice_eq, go_bind_ret by lia_div.
    pose proof (zlen_replicate (Z.quot (zlen s) 2) 0 ltac:(lia_div)) as Hz.
    pose proof (hex_Decode_spec (replicate (Z.to_nat (Z.quot (zlen s) 2)) 0) s Hs ltac:(lia)) as HD.
    pose proof (unhex_spec (length s) s ltac:(lia) Hs) as Hu. destruct (unhex s) as [r|c].
    - destruct Hu as (Hzr & _). rewrite HD, go_bind_ret. rewrite drop_ge, app_nil_r; [done|]. unfold zlen in *. lia.
    - destruct HD as [dst' ->]. done. }
  split.
  - intros src Hb Hfit. pose proof (zlen_nonneg src). pose proof (zlen_hex src) as Hh. split; [|split; [unfold EncodedLen; rewrite int_small; lia|]].
    + unfold EncodeToString, EncodedLen. rewrite int_small, makeslice_eq, go_bind_ret by lia.
      pose proof (zlen_replicate (zlen src * 2) 0 ltac:(lia)) as Hz. rewrite hex_Encode_spec, go_bind_ret by (done || lia).
      rewrite drop_ge, app_nil_r; [done|]. unfold zlen in *. lia.
    + rewrite Hd by (rewrite Hh; lia_div). by rewrite unhex_hex.
  - intros s Hfit. pose proof (zlen_nonneg s). destruct (decide (Z.rem (zlen s) 2 = 0)) as [Hs|Hs].
    + rewrite Hd by done. pose proof (unhex_spec (length s) s ltac:(lia) Hs) as Hu. simpl. destruct (unhex s) as [r|c]; [naive_solver|].
      split; [done|]. by split.
    + assert (Z.rem (zlen s) 2 = 1) as H1 by lia_div. unfold DecodeString, DecodedLen, Decode. rewrite makeslice_eq, go_bind_ret by lia_div.
      by rewrite H1.
Qed.

Example Hex_roundtrip_witness : EncodeToString [0; 171] = Ret (str "00ab") ∧ DecodeString (str "00ab") = Ret ([0; 171], None).
Proof.
  destruct (proj1 Hex_roundtrip [0; 171]) as (H1 & _ & H2); [by repeat constructor|by vm_compute|]. split; [exact H1|exact H2].
Defined.
