(* ===== verification/Base64.v ===== *)
(** Base 64 encoding: [src/src/encoding/base64/base64.go]. *)
From S2P Require Import Prelude.
From S2P Require Import Utf8.
From S2P Require Import StringsOps.

Record Encoding := { encode : bytes; decodeMap : bytes; padChar : Z }.

Definition StdPadding : Z := ch "=".
Definition NoPadding : Z := -1.
Definition encodeStd : bytes := str "ABCDEFGHIJKLMNOPQRSTUVWXYZabcdefghijklmnopqrstuvwxyz0123456789+/".
Definition encodeURL : bytes := str "ABCDEFGHIJKLMNOPQRSTUVWXYZabcdefghijklmnopqrstuvwxyz0123456789-_".

Definition NewEncoding (encoder : bytes) : go Encoding :=
  m ← for_up 0 256 (λ i m, upd m i 255) (replicate 256 0);
  m ← for_up 0 (zlen encoder) (λ i m, c ← idx encoder i; upd m c (u8 i)) m;
  Ret {| encode := encoder; decodeMap := m; padChar := StdPadding |}.
Definition WithPadding (enc : Encoding) (padding : Z) : Encoding :=
  {| encode := encode enc; decodeMap := decodeMap enc; padChar := padding |}.

Definition StdEncoding : go Encoding := NewEncoding encodeStd.
Definition URLEncoding : go Encoding := NewEncoding encodeURL.
Definition RawStdEncoding : go Encoding := e ← StdEncoding; Ret (WithPadding e NoPadding).
Definition RawURLEncoding : go Encoding := e ← URLEncoding; Ret (WithPadding e NoPadding).

Definition removeNewlinesMapper (r : Z) : Z := if (r =? 13) || (r =? 10) then -1 else r.

Section enc.
Context {W : Host} (enc : Encoding).
Abbreviation int := (swrap int_bits) (only parsing).

Definition EncodedLen (n : Z) : Z :=
  if padChar enc =? NoPadding then Z.quot (int (int (n * 8) + 5)) 6 else int (Z.quot (int (n + 2)) 3 * 4).
Definition DecodedLen (n : Z) : Z :=
  if padChar enc =? NoPadding then Z.quot (int (int (n * 6) + 7)) 8 else Z.quot n 4 * 3.

(** The blocks of six bits of the first three bytes of [src]. *)
Definition unpack (src : bytes) : go (Z * Z * Z * Z) :=
  '(b2, b3) ← (if 3 <=? zlen src then c ← idx src 2; Ret (Z.shiftr c 6, Z.land c 63) else Ret (0, 0));
  '(b1, b2) ← (if 2 <=? zlen src then b ← idx src 1; Ret (Z.shiftr b 4, Z.lor b2 (Z.land (u8 (Z.shiftl b 2)) 63)) else Ret (0, b2));
  a ← idx src 0;
  Ret (Z.shiftr a 2, Z.lor b1 (Z.land (u8 (Z.shiftl a 4)) 63), b2, b3).

(** One turn of the loop of [Encode]; [dst] is the part of the buffer at [pos]. *)
Definition encode_step : bytes * Z * bytes → go (bytes * Z * bytes + bytes) := λ '(dst, pos, src),
  if zlen src =? 0 then Ret (inr dst) else
  '(b0, b1, b2, b3) ← unpack src;
  c ← idx (encode enc) b0;
  dst ← upd dst pos c;
  c ← idx (encode enc) b1;
  dst ← upd dst (pos + 1) c;
  if 3 <=? zlen src then
    c ← idx (encode enc) b2;
    dst ← upd dst (pos + 2) c;
    c ← idx (encode enc) b3;
    dst ← upd dst (pos + 3) c;
    src ← slice_from src 3;
    Ret (inl (dst, pos + 4, src))
  else
    dst ← (if 2 <=? zlen src then c ← idx (encode enc) b2; upd dst (pos + 2) c else Ret dst);
    dst ← (if negb (padChar enc =? NoPadding) then
        dst ← (if zlen src <? 2 then upd dst (pos + 2) (u8 (padChar enc)) else Ret dst);
        upd dst (pos + 3) (u8 (padChar enc))
      else Ret dst);
    Ret (inr dst).
Definition Encode (dst src : bytes) : go bytes := loop (S (length src)) encode_step (dst, 0, src).

Definition EncodeToString (src : bytes) : go bytes :=
  buf ← makeslice 1 0 (EncodedLen (zlen src));
  Encode buf src.

(** Reading one quantum: an error at once, or the rest of the input, the blocks
    read, [dinc], [dlen], [end] and the error to return at the end. *)
Inductive quantum :=
  | q_corrupt (at_ : Z)
  | q_read (src dbuf : bytes) (dinc dlen : Z) (end_ : bool) (err : option Z).

(** [for j := range dbuf], from [j] on. *)
Fixpoint read_quantum (fuel : nat) (olen j : Z) (src dbuf : bytes) : go quantum :=
  match fuel with
  | O => Ret (q_read src dbuf 3 4 false None)
  | S fuel =>
    if zlen src =? 0 then
      if negb (padChar enc =? NoPadding) || (j <? 2) then Ret (q_corrupt (olen - zlen src - j))
      else Ret (q_read src dbuf (j - 1) j true None)
    else
      c ← idx src 0;
      src ← slice_from src 1;
      if c =? padChar enc then
        if (j =? 0) || (j =? 1) then Ret (q_corrupt (olen - zlen src - 1)) else
        let finish src := Ret (q_read src dbuf 3 j true (if 0 <? zlen src then Some (olen - zlen src) else None)) in
        if j =? 2 then
          if zlen src =? 0 then Ret (q_corrupt olen) else
          c ← idx src 0;
          if negb (c =? padChar enc) then Ret (q_corrupt (olen - zlen src - 1)) else
          src ← slice_from src 1;
          finish src
        else finish src
      else
        d ← idx (decodeMap enc) c;
        dbuf ← upd dbuf j d;
        if d =? 255 then Ret (q_corrupt (olen - zlen src - 1))
        else read_quantum fuel olen (j + 1) src dbuf
  end.

(** The bytes of a quantum, written at [pos]. *)
Definition pack (dst dbuf : bytes) (pos dlen : Z) : go bytes :=
  dst ← (if dlen =? 4 then d2 ← idx dbuf 2; d3 ← idx dbuf 3; upd dst (pos + 2) (Z.lor (u8 (Z.shiftl d2 6)) d3) else Ret dst);
  dst ← (if (dlen =? 4) || (dlen =? 3) then d1 ← idx dbuf 1; d2 ← idx dbuf 2; upd dst (pos + 1) (Z.lor (u8 (Z.shiftl d1 4)) (Z.shiftr d2 2))
    else Ret dst);
  if (dlen =? 4) || (dlen =? 3) || (dlen =? 2)
  then d0 ← idx dbuf 0; d1 ← idx dbuf 1; upd dst pos (Z.lor (u8 (Z.shiftl d0 2)) (Z.shiftr d1 4))
  else Ret dst.

Definition decode_step (olen : Z) : bytes * Z * bytes * Z * bool * option Z → go _ := λ '(dst, pos, src, n, end_, err),
  if (0 <? zlen src) && negb end_ then
    q ← read_quantum 4 olen 0 src [0; 0; 0; 0];
    match q with
    | q_corrupt e => Ret (inr (dst, n, false, Some e))
    | q_read src dbuf dinc dlen end_ e =>
      dst ← pack dst dbuf pos dlen;
      let err := match e with Some e => Some e | None => err end in
      if decide (pos + dinc <= zlen dst) then Ret (inl (dst, pos + dinc, src, n + (dlen - 1), end_, err))
      else Panic "slice bounds out of range"
    end
  else Ret (inr (dst, n, end_, err)).
Definition decode (dst src : bytes) : go (bytes * Z * bool * option Z) :=
  loop (S (length src)) (decode_step (zlen src)) (dst, 0, src, 0, false, None).

Definition DecodeString (s : bytes) : go (bytes * option Z) :=
  s ← Map removeNewlinesMapper s;
  dbuf ← makeslice 1 0 (DecodedLen (zlen s));
  '(dbuf, n, _, err) ← decode dbuf s;
  r ← slice_to dbuf n;
  Ret (r, err).
End enc.

#[local] Existing Instance Int64.
Example base64_run :
  (e ← StdEncoding; EncodeToString e (str "pleasure.")) = Ret (str "cGxlYXN1cmUu") ∧
  (e ← StdEncoding; EncodeToString e (str "leasure.")) = Ret (str "bGVhc3VyZS4=") ∧
  (e ← RawURLEncoding; EncodeToString e [251; 255]) = Ret (str "-_8") ∧
  (e ← StdEncoding; DecodeString e (str "bGVh" ++ [13; 10] ++ str "c3VyZS4=")) = Ret (str "leasure.", None) ∧
  (e ← RawStdEncoding; DecodeString e (str "bGVhc3VyZS4")) = Ret (str "leasure.", None) ∧
  (e ← StdEncoding; DecodeString e (str "bGVhc3V!ZS4=")) = Ret (str "lea", Some 7) ∧
  (e ← StdEncoding; DecodeString e (str "bGVhc3VyZS4=Z")) = Ret (str "leasure.", Some 12).
Proof. by vm_compute. Qed.

(** Where [int] has 32 bits the length of the encoding of 2^28 bytes overflows. *)
Example EncodedLen_overflows e :
  EncodedLen (W := Int32) (WithPadding e NoPadding) (2 ^ 28) = -357913940.
Proof. reflexivity. Qed.

(** * Lengths *)

Section lengths.
Context {W : Host} (enc : Encoding).

Definition encoded_len (n : Z) : Z :=
  if padChar enc =? NoPadding then Z.quot (n * 8 + 5) 6 else Z.quot (n + 2) 3 * 4.
Definition decoded_len (n : Z) : Z :=
  if padChar enc =? NoPadding then Z.quot (n * 6 + 7) 8 else Z.quot n 4 * 3.

(** The lengths that are computed are ints, and the result can be allocated. *)
Definition encode_fits (n : Z) : Prop :=
  (if padChar enc =? NoPadding then n * 8 + 5 else n + 2) < 2 ^ (int_bits - 1) ∧ encoded_len n <= max_len 1.
Definition decode_fits (n : Z) : Prop :=
  (if padChar enc =? NoPadding then n * 6 + 7 else n) < 2 ^ (int_bits - 1) ∧ n <= max_len 1.

Lemma EncodedLen_small n : 0 <= n → encode_fits n → EncodedLen enc n = encoded_len n.
Proof.
  intros Hn. pose proof (max_len_int 1). unfold encode_fits, EncodedLen, encoded_len.
  destruct (_ =? _); intros [Hint Hm]; rewrite ?swrap_add_l, ?(int_small (n + 2)), ?int_small; lia_div.
Qed.
Lemma DecodedLen_small n : 0 <= n → decode_fits n → DecodedLen enc n = decoded_len n ∧ decoded_len n <= max_len 1.
Proof.
  intros Hn. unfold decode_fits, DecodedLen, decoded_len.
  destruct (_ =? _); intros [Hint Hm]; rewrite ?swrap_add_l, ?int_small; lia_div.
Qed.
Lemma decode_fits_mono n m : m <= n → decode_fits n → decode_fits m.
Proof. unfold decode_fits. destruct (_ =? _); lia. Qed.
End lengths.

(** * The format *)

(** An alphabet of 64 characters with its inverse table, without newlines and
    without the padding character. *)
Record good (enc : Encoding) : Prop := {
  good_len : zlen (encode enc) = 64;
  good_ascii : ∀ c, c ∈ encode enc → 0 <= c < 128 ∧ c ≠ 10 ∧ c ≠ 13;
  good_table : zlen (decodeMap enc) = 256;
  good_inverse : ∀ i c, (encode enc).[i] = Some c → (decodeMap enc).[c] = Some i;
  good_others : ∀ c, is_byte c → c ∉ encode enc → (decodeMap enc).[c] = Some 255;
  good_padding : padChar enc = NoPadding ∨ 0 <= padChar enc < 128 ∧ padChar enc ≠ 10 ∧ padChar enc ≠ 13 ∧ (padChar enc ∉ encode enc) }.

Section alphabet.
Context (a : bytes) (Hlen : zlen a = 64) (Hdup : NoDup a) (Hascii : ∀ c, c ∈ a → 0 <= c < 128 ∧ c ≠ 10 ∧ c ≠ 13).

Lemma fill_table k : (k <= 64)%nat → ∃ m, for_nat k 0 (λ i m, c ← idx a i; upd m c (u8 i)) (replicate 256 255) = Ret m ∧ zlen m = 256 ∧
  ∀ c, is_byte c → (∀ i, a.[i] = Some c → 0 <= i < Z.of_nat k → m.[c] = Some i) ∧
    ((∀ i, a.[i] = Some c → Z.of_nat k <= i) → m.[c] = Some 255).
Proof.
  induction k as [|k IH].
  - intros _. exists (replicate 256 255). split; [done|]. split; [done|]. intros c Hc. split; [lia|]. intros _.
    apply (nthZ_replicate 256). unfold is_byte in Hc. lia.
  - intros Hk. destruct (IH ltac:(lia)) as (m & E & Hm & H). rewrite for_nat_snoc, E, go_bind_ret.
    destruct (nthZ_is_Some a (0 + Z.of_nat k)) as [d Hd]; [lia|]. rewrite (idx_Some _ _ _ Hd), go_bind_ret.
    assert (d ∈ a) as Hda by (unfold nthZ in Hd; case_decide; [by apply list_elem_of_lookup_2 in Hd|done]).
    destruct (Hascii d Hda) as [Hd0 _]. rewrite upd_eq by lia. eexists. split; [done|]. rewrite zlen_insZ. split; [done|].
    intros c Hc. rewrite wrap_small by lia. rewrite Z.add_0_l in *. rewrite nthZ_insZ. destruct (H c Hc) as [H1 H2]. split.
    + intros i Hi Hik. destruct (decide (d = c ∧ 0 <= d < zlen m)) as [[-> _]|Hne].
      * f_equal. pose proof (nthZ_Some _ _ _ Hi). unfold nthZ in Hi, Hd. rewrite decide_True in Hi by lia. rewrite decide_True in Hd by lia.
        pose proof (NoDup_lookup _ _ _ _ Hdup Hi Hd). lia.
      * apply H1; [done|]. destruct (decide (i = Z.of_nat k)) as [->|]; [|lia]. rewrite Hd in Hi. injection Hi as ->. lia.
    + intros Hno. destruct (decide (d = c ∧ 0 <= d < zlen m)) as [[-> _]|Hne].
      * specialize (Hno _ Hd). lia.
      * apply H2. intros i Hi. specialize (Hno i Hi). lia.
Qed.

Lemma NewEncoding_good : 61 ∉ a → ∃ e, NewEncoding a = Ret e ∧ encode e = a ∧ padChar e = 61 ∧ good e.
Proof.
  intros H61. unfold NewEncoding. assert (for_up 0 256 (λ i m, upd m i 255) (replicate 256 0) = Ret (replicate 256 255)) as -> by (by vm_compute).
  rewrite go_bind_ret. destruct (fill_table 64 ltac:(lia)) as (m & E & Hm & H).
  unfold for_up. rewrite Hlen. change (Z.to_nat (64 - 0)) with 64%nat. rewrite E, go_bind_ret.
  eexists. split; [done|]. split; [done|]. split; [done|]. split; cbn [encode decodeMap padChar]; try done.
  - intros i c Hi. pose proof (nthZ_Some _ _ _ Hi). assert (c ∈ a) as Hc by (unfold nthZ in Hi; case_decide; [by apply list_elem_of_lookup_2 in Hi|done]).
    destruct (Hascii c Hc) as [Hc0 _]. apply (H c); [unfold is_byte; lia|done|lia].
  - intros c Hc Hno. apply (H c Hc). intros i Hi. exfalso. apply Hno. unfold nthZ in Hi. case_decide; [by apply list_elem_of_lookup_2 in Hi|done].
  - right. unfold StdPadding. change (ch "=") with 61. done.
Qed.
End alphabet.

Lemma WithPadding_good e p : good e → p = NoPadding ∨ 0 <= p < 128 ∧ p ≠ 10 ∧ p ≠ 13 ∧ (p ∉ encode e) → good (WithPadding e p).
Proof. intros [] Hp. by split. Qed.

Fixpoint distinct (l : bytes) : bool :=
  match l with [] => true | c :: l => negb (existsb (Z.eqb c) l) && distinct l end.
Lemma distinct_NoDup l : distinct l = true → NoDup l.
Proof.
  induction l as [|c l IH]; simpl; [constructor|]. intros [Hc Hl]%andb_true_iff. constructor; [|by apply IH].
  intros Hin%list_elem_of_In. apply negb_true_iff in Hc. assert (existsb (Z.eqb c) l = true); [|congruence].
  apply existsb_exists. exists c. split; [done|apply Z.eqb_refl].
Qed.

Lemma encodings_good : ∀ a, a = encodeStd ∨ a = encodeURL → ∃ e, NewEncoding a = Ret e ∧ good e.
Proof.
  assert (∀ a, zlen a = 64 → distinct a = true → forallb (λ c, (0 <=? c) && (c <? 128) && negb (c =? 10) && negb (c =? 13) && negb (c =? 61)) a = true →
    ∃ e, NewEncoding a = Ret e ∧ good e) as H.
  { intros a Hl Hd Hall. rewrite forallb_forall in Hall.
    assert (∀ c, c ∈ a → 0 <= c < 128 ∧ c ≠ 10 ∧ c ≠ 13 ∧ c ≠ 61) as Hc.
    { intros c Hc%list_elem_of_In. specialize (Hall c Hc). bool_cases_in Hall. }
    destruct (NewEncoding_good a Hl (distinct_NoDup _ Hd) ltac:(intros c Hca; destruct (Hc c Hca) as (? & ? & ? & _); done)
      ltac:(intros Hin; destruct (Hc 61 Hin) as (_ & _ & _ & ?); done)) as (e & E & _ & _ & Hg). exists e. split; [exact E|exact Hg]. }
  intros a [-> | ->]; apply H; by vm_compute.
Qed.

(** * The format as a function *)

(** The four blocks of three bytes. *)
Definition sextets (a b c : Z) : Z * Z * Z * Z := (a / 4, a mod 4 * 16 + b / 16, b mod 16 * 4 + c / 64, c mod 64).

Lemma sextets_bound a b c : is_byte a → is_byte b → is_byte c → let '(v0, v1, v2, v3) := sextets a b c in
  0 <= v0 < 64 ∧ 0 <= v1 < 64 ∧ 0 <= v2 < 64 ∧ 0 <= v3 < 64.
Proof. unfold is_byte, sextets. intros. lia_div. Qed.

Lemma low_bits x k : (k = 2 ∨ k = 4) → Z.land (u8 (Z.shiftl x k)) 63 = x mod 2 ^ (6 - k) * 2 ^ k.
Proof.
  intros Hk. assert (Z.land (u8 (Z.shiftl x k)) 63 = u8 (Z.shiftl x k) mod 64) as -> by (apply (land_mask _ 6); lia).
  unfold wrap. rewrite Z.shiftl_mul_pow2 by lia. destruct Hk as [-> | ->]; lia_div.
Qed.

Lemma join_bits x k y : (k = 2 ∨ k = 4) → 0 <= x < 2 ^ k → Z.lor x (Z.land (u8 (Z.shiftl y k)) 63) = y mod 2 ^ (6 - k) * 2 ^ k + x.
Proof.
  intros Hk Hx. rewrite low_bits, Z.lor_comm by done.
  apply (lor_high_add _ k); [lia|done|]. apply Z.mod_mul. destruct Hk as [-> | ->]; lia.
Qed.

Lemma unpack_spec src : are_bytes src → src ≠ [] →
  unpack src = Ret match src with
    | a :: b :: c :: _ => sextets a b c | [a; b] => sextets a b 0 | [a] => sextets a 0 0 | [] => (0, 0, 0, 0) end.
Proof.
  intros Hb Hne. assert (∀ x, (3 <=? 1 + (1 + (1 + zlen x))) = true) as H3 by (intros x; pose proof (zlen_nonneg (x : bytes)); apply Z.leb_le; lia).
  assert (∀ x, (2 <=? 1 + (1 + (1 + zlen x))) = true) as H2 by (intros x; pose proof (zlen_nonneg (x : bytes)); apply Z.leb_le; lia).
  destruct src as [|a [|b [|c src]]]; [done| | |]; repeat match goal with H : are_bytes _ |- _ => apply Forall_cons in H as [? H] end;
    unfold is_byte in *; unfold unpack, sextets.
  - change (zlen [a]) with 1. simpl. rewrite Z.shiftr_div_pow2, join_bits by lia. f_equal; repeat (f_equal; try lia_div).
  - change (zlen [a; b]) with 2. simpl. rewrite !Z.shiftr_div_pow2, !join_bits by lia_div. f_equal; repeat (f_equal; try lia_div).
  - rewrite !zlen_cons, H3, H2.
    assert ((a :: b :: c :: src).[2] = Some c) as E2 by done. rewrite (idx_Some _ _ _ E2). simpl.
    assert (Z.land c 63 = c mod 64) as -> by (apply (land_mask c 6); lia).
    rewrite !Z.shiftr_div_pow2, !join_bits by lia_div. f_equal; repeat (f_equal; try lia_div).
Qed.

Section format.
Context {W : Host} (enc : Encoding) (Hgood : good enc).

Definition dig (v : Z) : Z := default 0 ((encode enc).[v]).
Definition padding (n : nat) : bytes := if padChar enc =? NoPadding then [] else replicate n (padChar enc).

(** The encoding, by groups of three bytes. *)
Fixpoint b64 (src : bytes) : bytes :=
  match src with
  | a :: b :: c :: src => let '(v0, v1, v2, v3) := sextets a b c in ([dig v0; dig v1; dig v2; dig v3] ++ b64 src)
  | [a; b] => let '(v0, v1, v2, _) := sextets a b 0 in ([dig v0; dig v1; dig v2] ++ padding 1)
  | [a] => let '(v0, v1, _, _) := sextets a 0 0 in ([dig v0; dig v1] ++ padding 2)
  | [] => []
  end.

Lemma three_ind (P : bytes → Prop) :
  P [] → (∀ a, P [a]) → (∀ a b, P [a; b]) → (∀ a b c l, P l → P (a :: b :: c :: l)) → ∀ l, P l.
Proof.
  intros H0 H1 H2 H3. fix IH 1. intros [|a [|b [|c l]]]; [exact H0|apply H1|apply H2|apply H3, IH].
Qed.

Lemma dig_idx v : 0 <= v < 64 → idx (encode enc) v = Ret (dig v).
Proof.
  intros Hv. destruct (nthZ_is_Some (encode enc) v) as [c Hc]; [rewrite (good_len _ Hgood); lia|].
  unfold dig. by rewrite Hc, (idx_Some _ _ _ Hc).
Qed.
Lemma dig_in v : 0 <= v < 64 → dig v ∈ encode enc.
Proof.
  intros Hv. destruct (nthZ_is_Some (encode enc) v) as [c Hc]; [rewrite (good_len _ Hgood); lia|].
  unfold dig. rewrite Hc. simpl. unfold nthZ in Hc. case_decide; [by apply list_elem_of_lookup_2 in Hc|done].
Qed.
Lemma dig_table v : 0 <= v < 64 → idx (decodeMap enc) (dig v) = Ret v.
Proof.
  intros Hv. destruct (nthZ_is_Some (encode enc) v) as [c Hc]; [rewrite (good_len _ Hgood); lia|].
  unfold dig. rewrite Hc. simpl. by apply idx_Some, (good_inverse _ Hgood).
Qed.
Lemma dig_inv c : c ∈ encode enc → ∃ v, 0 <= v < 64 ∧ c = dig v.
Proof.
  intros [i Hi]%list_elem_of_lookup. exists (Z.of_nat i). pose proof (nthZ_lookup (encode enc) i) as E. rewrite Hi in E.
  split; [rewrite <- (good_len _ Hgood); by apply nthZ_Some in E|]. unfold dig. by rewrite E.
Qed.
Lemma dig_padding v : 0 <= v < 64 → dig v ≠ padChar enc.
Proof.
  intros Hv E. pose proof (dig_in v Hv) as Hin. destruct (good_padding _ Hgood) as [Hp|(_ & _ & _ & Hp)].
  - destruct (good_ascii _ Hgood _ Hin) as [? _]. unfold NoPadding in Hp. lia.
  - by rewrite E in Hin.
Qed.

Lemma zlen_padding n : zlen (padding n) = if padChar enc =? NoPadding then 0 else Z.of_nat n.
Proof. unfold padding, zlen. destruct (padChar enc =? NoPadding); [done|]. by rewrite length_replicate. Qed.

Lemma zlen_b64 src : zlen (b64 src) = encoded_len enc (zlen src).
Proof.
  unfold encoded_len. destruct (padChar enc =? NoPadding) eqn:Ep.
  - induction src as [| | |a b c l IH] using three_ind; cbn [b64 sextets]; try rewrite !zlen_app, zlen_padding, Ep; try done.
    rewrite zlen_app, IH, !zlen_cons. pose proof (zlen_nonneg l). change (zlen (@nil Z)) with 0. lia_div.
  - induction src as [| | |a b c l IH] using three_ind; cbn [b64 sextets]; try rewrite !zlen_app, zlen_padding, Ep; try done.
    rewrite zlen_app, IH, !zlen_cons. pose proof (zlen_nonneg l). change (zlen (@nil Z)) with 0. lia_div.
Qed.

(** Writes of known bytes at the front of what is left of a buffer. *)
Lemma upd_at (p k : bytes) n i y : n = zlen p + i → 0 <= i < zlen k → upd (p ++ k) n y = Ret (p ++ insZ k i y).
Proof.
  intros -> Hi. pose proof (zlen_nonneg p). rewrite upd_eq by (rewrite zlen_app; lia). f_equal.
  unfold insZ. rewrite !decide_True by lia. unfold zlen. rewrite insert_app_r_alt by lia. f_equal. f_equal. lia.
Qed.

Lemma padChar_u8 : padChar enc ≠ NoPadding → u8 (padChar enc) = padChar enc.
Proof. intros Hp. destruct (good_padding _ Hgood) as [|[? _]]; [done|]. apply wrap_small; lia. Qed.

Lemma list_of_length {A} (l : list A) n : zlen l = Z.of_nat n → length l = n.
Proof. unfold zlen. lia. Qed.

(** Runs the writes at [zlen p] and the three places after it. *)
Ltac upds_at p :=
  repeat (first [rewrite (upd_at p _ (zlen p) 0) | rewrite (upd_at p _ (zlen p + 1) 1) | rewrite (upd_at p _ (zlen p + 2) 2) | rewrite (upd_at p _ (zlen p + 3) 3)];
    [rewrite ?go_bind_ret; cbv beta iota|lia..|rewrite ?zlen_insZ; lia]).

(** The last bytes, and the end of the padding. *)
Lemma encode_last q p k : are_bytes q → zlen q < 3 → zlen k = zlen (b64 q) →
  encode_step enc (p ++ k, zlen p, q) = Ret (inr (p ++ b64 q)).
Proof.
  intros Hb Hq Hk. destruct q as [|a [|b [|c q]]]; [|pose proof Hb as [Ha _]%Forall_cons|pose proof Hb as [Ha [Hb' _]%Forall_cons]%Forall_cons|].
  - assert (k = []) as -> by (by apply zlen_nil_inv). done.
  - pose proof (sextets_bound a 0 0 Ha ltac:(done) ltac:(done)) as Hv.
    unfold encode_step. rewrite unpack_spec by done. unfold sextets in *.
    revert Hk. cbn [b64 sextets]. rewrite zlen_app, zlen_padding, zlen_two. unfold padding.
    change (zlen [a] =? 0) with false. change (3 <=? zlen [a]) with false. change (2 <=? zlen [a]) with false. change (zlen [a] <? 2) with true.
    cbv iota. rewrite go_bind_ret. destruct (Z.eqb_spec (padChar enc) NoPadding) as [Hp|Hp]; intros Hk; cbn [negb];
      rewrite ?padChar_u8, !dig_idx, !go_bind_ret by (lia || done); upds_at p.
    + apply (list_of_length _ 2) in Hk. by destruct k as [|x0 [|x1 [|]]].
    + apply (list_of_length _ 4) in Hk. by destruct k as [|x0 [|x1 [|x2 [|x3 [|]]]]].
  - pose proof (sextets_bound a b 0 Ha Hb' ltac:(done)) as Hv.
    unfold encode_step. rewrite unpack_spec by done. unfold sextets in *.
    revert Hk. cbn [b64 sextets]. rewrite zlen_app, zlen_padding. change (zlen [_; _; _]) with 3. unfold padding.
    change (zlen [a; b] =? 0) with false. change (3 <=? zlen [a; b]) with false. change (2 <=? zlen [a; b]) with true. change (zlen [a; b] <? 2) with false.
    cbv iota. rewrite go_bind_ret. destruct (Z.eqb_spec (padChar enc) NoPadding) as [Hp|Hp]; intros Hk; cbn [negb];
      rewrite ?padChar_u8, !dig_idx, !go_bind_ret by (lia || done); upds_at p.
    + apply (list_of_length _ 3) in Hk. by destruct k as [|x0 [|x1 [|x2 [|]]]].
    + apply (list_of_length _ 4) in Hk. by destruct k as [|x0 [|x1 [|x2 [|x3 [|]]]]].
  - rewrite !zlen_cons in Hq. pose proof (zlen_nonneg q). lia.
Qed.

Lemma encode_full a b c q p k : are_bytes (a :: b :: c :: q) → zlen k = zlen (b64 (a :: b :: c :: q)) →
  ∃ h k', b64 (a :: b :: c :: q) = h ++ b64 q ∧ zlen k' = zlen (b64 q) ∧ zlen h = 4 ∧
    encode_step enc (p ++ k, zlen p, a :: b :: c :: q) = Ret (inl ((p ++ h) ++ k', zlen (p ++ h), q)).
Proof.
  intros Hb Hk. pose proof Hb as [Ha [Hb' [Hc _]%Forall_cons]%Forall_cons]%Forall_cons.
  pose proof (sextets_bound a b c Ha Hb' Hc) as Hv. unfold encode_step. rewrite unpack_spec by done.
  cbn [b64] in *. unfold sextets in *. rewrite zlen_app in Hk. change (zlen [_; _; _; _]) with 4 in Hk.
  pose proof (zlen_nonneg q). pose proof (zlen_nonneg (b64 q)).
  rewrite !zlen_cons, (proj2 (Z.eqb_neq _ 0)), (proj2 (Z.leb_le 3 _)) by lia. cbv iota.
  rewrite go_bind_ret, !dig_idx, !go_bind_ret by lia. upds_at p.
  rewrite slice_from_eq by (rewrite !zlen_cons; lia). rewrite go_bind_ret.
  destruct k as [|x0 [|x1 [|x2 [|x3 k]]]]; try (rewrite ?zlen_cons in Hk; change (zlen (@nil Z)) with 0 in Hk; lia).
  rewrite !zlen_cons in Hk. eexists _, k. split; [done|]. split; [lia|]. split; [done|].
  rewrite <- app_assoc, zlen_app. done.
Qed.

Lemma base64_Encode_spec src k : are_bytes src → zlen k = zlen (b64 src) → Encode enc k src = Ret (b64 src).
Proof.
  intros Hb Hk. unfold Encode.
  assert (∀ q fuel p k, are_bytes q → zlen k = zlen (b64 q) → (length q < fuel)%nat →
    loop fuel (encode_step enc) (p ++ k, zlen p, q) = Ret (p ++ b64 q)) as H.
  { clear Hb Hk src k. intros q. induction q as [| a | a b |a b c q IH] using three_ind; intros [|fuel] p k Hb Hk Hf; try lia; cbn [loop].
    1-3: by rewrite encode_last, go_bind_ret.
    destruct (encode_full a b c q p k Hb Hk) as (h & k' & -> & Hk' & Hh & ->). rewrite go_bind_ret, IH by
      (done || (simpl in Hf; lia) || by repeat (apply Forall_cons in Hb as [_ Hb])). by rewrite <- app_assoc. }
  exact (H src (S (length src)) [] k Hb Hk ltac:(lia)).
Qed.

(** * Decoding *)

(** The bytes of blocks of six bits; the blocks that give an encoding, and the string. *)
Fixpoint bytes_of (vs : list Z) : bytes :=
  match vs with
  | v0 :: v1 :: v2 :: v3 :: vs => (v0 * 4 + v1 / 16) :: (v1 mod 16 * 16 + v2 / 4) :: (v2 mod 4 * 64 + v3) :: bytes_of vs
  | [v0; v1; v2] => [v0 * 4 + v1 / 16; v1 mod 16 * 16 + v2 / 4]
  | [v0; v1] => [v0 * 4 + v1 / 16]
  | _ => []
  end.
Definition blocks (vs : list Z) : Prop := Forall (λ v, 0 <= v < 64) vs.
Definition whole (vs : list Z) : Prop := blocks vs ∧ zlen vs mod 4 ≠ 1.
Definition encoded (vs : list Z) : bytes := map dig vs ++ padding (Z.to_nat ((- zlen vs) mod 4)).

Lemma four_ind (P : list Z → Prop) :
  (∀ l, zlen l < 4 → P l) → (∀ a b c d l, P l → P (a :: b :: c :: d :: l)) → ∀ l, P l.
Proof. intros H0 H4. fix IH 1. intros [|a [|b [|c [|d l]]]]; [apply H0; done..|apply H4, IH]. Qed.

Lemma zlen_bytes_of vs : zlen (bytes_of vs) = zlen vs * 6 / 8.
Proof.
  induction vs as [l Hl|v0 v1 v2 v3 l IH] using four_ind.
  - destruct l as [|? [|? [|? [|? l]]]]; try done. rewrite !zlen_cons in Hl. pose proof (zlen_nonneg l). lia.
  - cbn [bytes_of]. rewrite !zlen_cons, IH. lia_div.
Qed.

Lemma bytes_of_app vs ws : zlen vs mod 4 = 0 → bytes_of (vs ++ ws) = bytes_of vs ++ bytes_of ws.
Proof.
  induction vs as [l Hl|v0 v1 v2 v3 l IH] using four_ind.
  - intros H0. pose proof (zlen_nonneg l). assert (l = []) as -> by (apply zlen_nil_inv; lia_div). done.
  - rewrite !zlen_cons. intros H0. cbn [bytes_of app]. by rewrite IH by lia_div.
Qed.

Lemma bytes_of_bytes vs : blocks vs → are_bytes (bytes_of vs).
Proof.
  unfold blocks. induction vs as [l Hl|v0 v1 v2 v3 l IH] using four_ind.
  - destruct l as [|? [|? [|? [|? l]]]]; rewrite ?Forall_cons; intros; repeat constructor; unfold is_byte; try lia_div.
    all: rewrite !zlen_cons in Hl; pose proof (zlen_nonneg l); lia.
  - rewrite !Forall_cons. intros (? & ? & ? & ? & H). cbn [bytes_of]. specialize (IH H).
    repeat (constructor; [unfold is_byte; lia_div|]). done.
Qed.

(** The blocks of bytes. *)
Fixpoint blocks_of (src : bytes) : list Z :=
  match src with
  | a :: b :: c :: src => let '(v0, v1, v2, v3) := sextets a b c in v0 :: v1 :: v2 :: v3 :: blocks_of src
  | [a; b] => let '(v0, v1, v2, _) := sextets a b 0 in [v0; v1; v2]
  | [a] => let '(v0, v1, _, _) := sextets a 0 0 in [v0; v1]
  | [] => []
  end.

Lemma blocks_of_spec src : are_bytes src → whole (blocks_of src) ∧ bytes_of (blocks_of src) = src ∧ encoded (blocks_of src) = b64 src.
Proof.
  unfold whole, blocks. induction src as [|a|a b|a b c l IH] using three_ind; rewrite ?Forall_cons; intros Hb.
  - split; [done|]. split; [done|]. unfold encoded, padding. simpl. by destruct (_ =? _).
  - destruct Hb as [Ha _]. pose proof (sextets_bound a 0 0 Ha ltac:(done) ltac:(done)). unfold is_byte in *. cbn [blocks_of b64 sextets bytes_of].
    split; [|split; [f_equal; lia_div|done]]. split; [repeat constructor; lia_div|done].
  - destruct Hb as [Ha [Hb _]]. pose proof (sextets_bound a b 0 Ha Hb ltac:(done)). unfold is_byte in *. cbn [blocks_of b64 sextets bytes_of].
    split; [|split; [f_equal; [lia_div|f_equal; lia_div]|done]]. split; [repeat constructor; lia_div|done].
  - destruct Hb as (Ha & Hb & Hc & Hl). pose proof (sextets_bound a b c Ha Hb Hc) as Hv. destruct (IH Hl) as ((H1 & H2) & H3 & H4).
    unfold is_byte in *. cbn [blocks_of b64 sextets bytes_of] in *. rewrite H3. split; [split|split].
    + by repeat (constructor; [lia|]).
    + rewrite !zlen_cons. lia_div.
    + do 2 (f_equal; [lia_div|]). f_equal. lia_div.
    + rewrite <- H4. unfold encoded. rewrite !zlen_cons. simpl. do 6 f_equal. f_equal. lia_div.
Qed.

Lemma idx_four (a b c d : Z) : idx [a; b; c; d] 0 = Ret a ∧ idx [a; b; c; d] 1 = Ret b ∧ idx [a; b; c; d] 2 = Ret c ∧ idx [a; b; c; d] 3 = Ret d.
Proof. by repeat split. Qed.

(** Runs the writes of [pack]; [Hj] is the value of a block joined with the next. *)
Ltac pack_writes p Hj := cbn [length Nat.sub replicate app Z.eqb Pos.eqb orb];
  repeat (rewrite ?go_bind_ret, ?Z.shiftr_div_pow2 by lia; change (2 ^ 4) with 16; rewrite ?Hj by lia_div; upds_at p).

Lemma pack_spec p k vs : blocks vs → 2 <= zlen vs <= 4 → zlen vs - 1 <= zlen k →
  pack (p ++ k) (vs ++ replicate (4 - length vs) 0) (zlen p) (zlen vs) = Ret ((p ++ bytes_of vs) ++ drop (length vs - 1) k).
Proof.
  unfold blocks. intros Hv Hl Hk. unfold pack.
  assert (∀ v w j, (j = 2 ∨ j = 4 ∨ j = 6) → 0 <= v < 64 → 0 <= w < 2 ^ j → Z.lor (u8 (Z.shiftl v j)) w = v mod 2 ^ (8 - j) * 2 ^ j + w) as Hj.
  { intros v w j Hj Hv0 Hw. assert (u8 (Z.shiftl v j) = v mod 2 ^ (8 - j) * 2 ^ j) as ->.
    { unfold wrap. rewrite Z.shiftl_mul_pow2 by lia. destruct Hj as [-> |[-> | ->]]; lia_div. }
    rewrite (lor_high_add _ j); [done|lia|done|]. apply Z.mod_mul. destruct Hj as [-> |[-> | ->]]; lia. }
  destruct vs as [|v0 [|v1 [|v2 [|v3 [|v4 vs]]]]]; try (unfold zlen in Hl; simpl in Hl; lia);
    rewrite !Forall_cons in Hv.
  - change (zlen [v0; v1]) with 2 in *. destruct (idx_four v0 v1 0 0) as (E0 & E1 & _).
    pack_writes p Hj. rewrite E0, E1. pack_writes p Hj. destruct k as [|x0 k]; [by destruct Hk|].
    replace (v0 mod 2 ^ (8 - 2) * 2 ^ 2) with (v0 * 4) by lia_div. by rewrite <- app_assoc.
  - change (zlen [v0; v1; v2]) with 3 in *. destruct (idx_four v0 v1 v2 0) as (E0 & E1 & E2 & _).
    pack_writes p Hj. rewrite E1, E2. pack_writes p Hj. rewrite E0. pack_writes p Hj.
    destruct k as [|x0 [|x1 k]]; try (by destruct Hk).
    replace (v0 mod 2 ^ (8 - 2) * 2 ^ 2) with (v0 * 4) by lia_div. replace (v1 mod 2 ^ (8 - 4) * 2 ^ 4) with (v1 mod 16 * 16) by lia_div.
    by rewrite <- app_assoc.
  - change (zlen [v0; v1; v2; v3]) with 4 in *. destruct (idx_four v0 v1 v2 v3) as (E0 & E1 & E2 & E3).
    pack_writes p Hj. rewrite E2, E3. pack_writes p Hj. rewrite E1. pack_writes p Hj. rewrite E0. pack_writes p Hj.
    destruct k as [|x0 [|x1 [|x2 k]]]; try (by destruct Hk).
    replace (v0 mod 2 ^ (8 - 2) * 2 ^ 2) with (v0 * 4) by lia_div. replace (v1 mod 2 ^ (8 - 4) * 2 ^ 4) with (v1 mod 16 * 16) by lia_div.
    replace (v2 mod 2 ^ (8 - 6) * 2 ^ 6) with (v2 mod 4 * 64) by lia_div. by rewrite <- app_assoc.
Qed.

Lemma read_digit k olen v src j dbuf : 0 <= v < 64 →
  read_quantum enc (S k) olen j (dig v :: src) dbuf = (dbuf ← upd dbuf j v; read_quantum enc k olen (j + 1) src dbuf).
Proof.
  intros Hv. cbn [read_quantum]. pose proof (zlen_nonneg src). rewrite (proj2 (Z.eqb_neq _ 0)) by (rewrite zlen_cons; lia).
  assert ((dig v :: src).[0] = Some (dig v)) as E0 by done. rewrite (idx_Some _ _ _ E0), go_bind_ret.
  rewrite slice_from_eq by (rewrite zlen_cons; lia). rewrite go_bind_ret. cbn [Z.to_nat drop].
  rewrite (proj2 (Z.eqb_neq _ _)) by (by apply dig_padding). rewrite dig_table, go_bind_ret by done.
  destruct (upd dbuf j v) as [d| |]; [|done..]. rewrite !go_bind_ret. by rewrite (proj2 (Z.eqb_neq v 255)) by lia.
Qed.

(** What reading a quantum gives: digits, and at the end of the data their padding. *)
Definition quantum_read (olen : Z) (ds src : list Z) (q : quantum) : Prop :=
  match q with
  | q_corrupt e => 0 <= e <= olen
  | q_read src' dbuf dinc dlen end_ err => ∃ vs, blocks vs ∧ dlen = zlen (ds ++ vs) ∧
      dbuf = (ds ++ vs) ++ replicate (4 - length (ds ++ vs)) 0 ∧
      if end_ then
        2 <= dlen < 4 ∧ dinc = (if padChar enc =? NoPadding then dlen - 1 else 3) ∧
        src = map dig vs ++ padding (4 - length (ds ++ vs)) ++ src' ∧
        match err with None => src' = [] | Some e => 0 <= e <= olen end
      else dlen = 4 ∧ src = map dig vs ++ src' ∧ dinc = 3 ∧ err = None
  end.

Lemma read_quantum_spec olen k : ∀ ds src, (length ds + k)%nat = 4%nat → are_bytes src → ds ++ src ≠ [] → zlen ds + zlen src <= olen →
  read_quantum enc k olen (zlen ds) src (ds ++ replicate k 0) ⇓ quantum_read olen ds src.
Proof.
  induction k as [|k IH]; intros ds src Hds Hb Hne Hl; cbn [read_quantum].
  { apply wp_ret. exists []. rewrite !app_nil_r. assert (length ds = 4%nat) as -> by lia. split; [constructor|].
    split; [unfold zlen; lia|]. split; [by rewrite app_nil_r|]. done. }
  pose proof (zlen_nonneg ds). destruct src as [|c src].
  - change (zlen [] =? 0) with true. cbv iota. change (zlen (@nil Z)) with 0 in *. destruct (Z.eqb_spec (padChar enc) NoPadding) as [Hp|Hp]; cbn [negb orb]; [|by apply wp_ret; simpl; lia].
    destruct (Z.ltb_spec (zlen ds) 2); [apply wp_ret; simpl; lia|]. apply wp_ret. exists []. rewrite !app_nil_r.
    split; [constructor|]. split; [done|]. split; [by replace (S k) with (4 - length ds)%nat by lia|].
    split; [unfold zlen in *; lia|]. unfold padding. rewrite (proj2 (Z.eqb_eq _ _) Hp). done.
  - apply Forall_cons in Hb as [Hc Hb]. pose proof (zlen_nonneg src). rewrite zlen_cons in Hl.
    rewrite (proj2 (Z.eqb_neq _ 0)) by (rewrite zlen_cons; lia).
    assert ((c :: src).[0] = Some c) as E0 by done. rewrite (idx_Some _ _ _ E0), go_bind_ret.
    rewrite slice_from_eq by (rewrite zlen_cons; lia). rewrite go_bind_ret. change (drop (Z.to_nat 1) (c :: src)) with src.
    destruct (Z.eqb_spec c (padChar enc)) as [Ep|Ep].
    + subst c. assert ((padChar enc =? NoPadding) = false) as Hp by (apply Z.eqb_neq; unfold is_byte, NoPadding in *; lia).
      assert (∀ src', zlen src' <= zlen src → padChar enc :: src = padding (4 - length ds) ++ src' → 2 <= zlen ds < 4 →
        quantum_read olen ds (padChar enc :: src)
          (q_read src' (ds ++ replicate (S k) 0) 3 (zlen ds) true (if 0 <? zlen src' then Some (olen - zlen src') else None))) as Hfin.
      { intros src' Hs' E Hd. exists []. rewrite !app_nil_r. split; [constructor|]. split; [done|]. split; [by replace (S k) with (4 - length ds)%nat by lia|].
        rewrite Hp. split; [done|]. split; [done|]. split; [done|]. pose proof (zlen_nonneg src').
        destruct (Z.ltb_spec 0 (zlen src')); [lia|]. apply zlen_nil_inv. lia. }
      unfold padding in Hfin. rewrite Hp in Hfin.
      destruct ((zlen ds =? 0) || (zlen ds =? 1)) eqn:E01; [apply wp_ret; simpl; lia|].
      apply orb_false_iff in E01 as [?%Z.eqb_neq ?%Z.eqb_neq]. destruct (Z.eqb_spec (zlen ds) 2) as [E2|E2].
      * destruct src as [|c src]; [apply wp_ret; simpl; lia|]. pose proof (zlen_nonneg src).
        rewrite zlen_cons in *. rewrite (proj2 (Z.eqb_neq _ 0)) by lia.
        assert ((c :: src).[0] = Some c) as E0' by done. rewrite (idx_Some _ _ _ E0'), go_bind_ret.
        destruct (Z.eqb_spec c (padChar enc)) as [->|]; cbn [negb]; [|apply wp_ret; simpl; lia].
        rewrite slice_from_eq by (rewrite zlen_cons; lia). rewrite go_bind_ret. change (drop (Z.to_nat 1) (padChar enc :: src)) with src. apply wp_ret, Hfin; [lia| |lia].
        by replace (4 - length ds)%nat with 2%nat by (unfold zlen in E2; lia).
      * apply wp_ret, Hfin; [lia| |unfold zlen in *; lia]. by replace (4 - length ds)%nat with 1%nat by (unfold zlen in *; lia).
    + destruct (decide (c ∈ encode enc)) as [Hin|Hin].
      * destruct (dig_inv c Hin) as (v & Hv & ->). rewrite dig_table, go_bind_ret by done. cbn [replicate].
        rewrite upd_cursor, go_bind_ret by done. rewrite (proj2 (Z.eqb_neq v 255)) by lia.
        replace (zlen ds + 1) with (zlen (ds ++ [v])) by (by rewrite zlen_app, zlen_one).
        eapply wp_mono; [apply (IH (ds ++ [v]) src)|].
        -- rewrite length_app. simpl. lia.
        -- done.
        -- by destruct ds.
        -- rewrite zlen_app, zlen_one. lia.
        -- intros [e|src' dbuf dinc dlen end_ err]; [done|]. intros (vs & Hvs & -> & -> & Hq). exists (v :: vs).
           rewrite <- app_assoc in *. split; [by constructor|]. do 2 (split; [done|]). destruct end_; simpl in *; naive_solver.
      * rewrite (idx_Some _ _ _ (good_others _ Hgood c Hc Hin)), go_bind_ret, upd_eq, go_bind_ret by
          (cbn [replicate]; rewrite zlen_app, zlen_cons; pose proof (zlen_nonneg (replicate k 0)); lia).
        apply wp_ret. simpl. lia.
Qed.

Lemma decoded_len_quantum m : 0 <= m → decoded_len enc (4 + m) = 3 + decoded_len enc m.
Proof. intros Hm. unfold decoded_len. destruct (_ =? _); lia_div. Qed.
Lemma decoded_len_nonneg m : 0 <= m → 0 <= decoded_len enc m.
Proof. intros Hm. unfold decoded_len. destruct (_ =? _); lia_div. Qed.
Lemma decoded_len_last d m : 2 <= d < 4 → 0 <= m →
  (if padChar enc =? NoPadding then d - 1 else 3) <= decoded_len enc (d + ((if padChar enc =? NoPadding then 0 else 4 - d) + m)).
Proof. intros Hd Hm. unfold decoded_len. destruct (_ =? _); lia_div. Qed.

(** What was read of [s]: all of it, or a prefix before an error. *)
Definition decoded (s : bytes) (vs : list Z) (err : option Z) : Prop :=
  match err with None => whole vs ∧ s = encoded vs | Some e => 0 <= e <= zlen s ∧ ∃ rest, s = map dig vs ++ rest end.
Definition decode_inv (s : bytes) : bytes * Z * bytes * Z * bool * option Z → Prop := λ '(dst, pos, src, n, end_, err),
  ∃ vs k, blocks vs ∧ dst = bytes_of vs ++ k ∧ n = zlen (bytes_of vs) ∧
    if end_ then decoded s vs err
    else zlen vs mod 4 = 0 ∧ s = map dig vs ++ src ∧ pos = n ∧ err = None ∧ decoded_len enc (zlen src) <= zlen k.
Definition decode_post (s : bytes) : bytes * Z * bool * option Z → Prop := λ '(dst, n, _, err),
  ∃ vs k, blocks vs ∧ dst = bytes_of vs ++ k ∧ n = zlen (bytes_of vs) ∧ decoded s vs err.

(** The quantum [ws] after the digits of [vs], and the room it needs. *)
Definition quantum_after (s src : bytes) (ws src' : bytes) (dinc : Z) (end_ : bool) (err : option Z) : Prop :=
  if end_ then
    2 <= zlen ws < 4 ∧ dinc = (if padChar enc =? NoPadding then zlen ws - 1 else 3) ∧
    src = map dig ws ++ padding (4 - length ws) ++ src' ∧
    match err with None => src' = [] | Some e => 0 <= e <= zlen s end
  else zlen ws = 4 ∧ src = map dig ws ++ src' ∧ dinc = 3 ∧ err = None.

Lemma quantum_room s src ws src' dinc end_ err : quantum_after s src ws src' dinc end_ err →
  2 <= zlen ws <= 4 ∧ zlen ws - 1 <= dinc <= decoded_len enc (zlen src) ∧ zlen src' < zlen src ∧
  (end_ = false → dinc = 3 ∧ decoded_len enc (zlen src) = 3 + decoded_len enc (zlen src')).
Proof.
  pose proof (zlen_nonneg src'). assert (zlen ws = Z.of_nat (length ws)) as Ew by done. intros H'. destruct end_.
  - destruct H' as (Hw & -> & -> & _). pose proof (decoded_len_last (zlen ws) (zlen src') Hw ltac:(done)) as HD.
    rewrite !zlen_app, zlen_map, zlen_padding, Nat2Z.inj_sub by lia. change (Z.of_nat 4) with 4. rewrite <- Ew.
    split; [lia|]. split; [split; [destruct (_ =? _); lia|done]|]. split; [destruct (_ =? _); lia|done].
  - destruct H' as (Hw & -> & -> & _). rewrite zlen_app, zlen_map, Hw, decoded_len_quantum by done.
    pose proof (decoded_len_nonneg (zlen src') ltac:(done)). split; [lia|]. split; [lia|]. split; [lia|]. done.
Qed.

Lemma quantum_next s vs k src ws src' dinc end_ err : blocks vs → blocks ws → zlen vs mod 4 = 0 → s = map dig vs ++ src →
  decoded_len enc (zlen src) <= zlen k → quantum_after s src ws src' dinc end_ err →
  decode_inv s (bytes_of (vs ++ ws) ++ drop (length ws - 1) k, zlen (bytes_of vs) + dinc, src', zlen (bytes_of vs) + (zlen ws - 1), end_, err).
Proof.
  intros Hvs Hws Hm Es Hk Hq. destruct (quantum_room _ _ _ _ _ _ _ Hq) as (Hw & Hd & _ & Hnext). pose proof (zlen_bytes_of ws).
  assert (zlen ws = Z.of_nat (length ws)) as Ew by done.
  assert (zlen (bytes_of ws) = zlen ws - 1) as Eb by lia_div.
  exists (vs ++ ws), (drop (length ws - 1) k). split; [by apply Forall_app|]. split; [done|].
  split; [rewrite bytes_of_app, zlen_app by done; lia|]. destruct end_; unfold quantum_after in Hq.
  - destruct Hq as (Hw' & -> & E & He). unfold decoded. destruct err as [e|].
    + split; [done|]. eexists. rewrite Es, E, map_app, <- app_assoc. done.
    + subst src'. split; [split; [by apply Forall_app|rewrite zlen_app; lia_div]|].
      unfold encoded. rewrite Es, E, map_app, zlen_app, !app_nil_r, <- app_assoc.
      replace (Z.to_nat ((- (zlen vs + zlen ws)) mod 4)) with (4 - length ws)%nat by lia_div. done.
  - destruct Hq as (Hw' & E & -> & ->). destruct (Hnext eq_refl) as (_ & Hn). split; [rewrite zlen_app; lia_div|].
    split; [by rewrite Es, E, map_app, <- app_assoc|]. split; [lia|]. split; [done|].
    assert (zlen (drop (length ws - 1) k) = zlen k - (zlen ws - 1)) as -> by (unfold zlen in *; rewrite length_drop; lia). lia.
Qed.

Lemma decode_step_spec s st : are_bytes s → decode_inv s st →
  decode_step enc (zlen s) st ⇓ λ r, match r with
    | inl st' => decode_inv s st' ∧ zlen (let '(_, _, src, _, _, _) := st' in src) < zlen (let '(_, _, src, _, _, _) := st in src)
    | inr r => decode_post s r end.
Proof.
  destruct st as [[[[[dst pos] src] n] end_] err]. intros Hb (vs & k & Hvs & -> & -> & H). unfold decode_step.
  pose proof (zlen_nonneg src). destruct end_.
  { rewrite andb_false_r. apply wp_ret. exists vs, k. naive_solver. }
  destruct H as (Hm & Es & -> & -> & Hk). rewrite andb_true_r. destruct (Z.ltb_spec 0 (zlen src)) as [Hs|Hs].
  2: { apply wp_ret. assert (src = []) as -> by (apply zlen_nil_inv; lia). exists vs, k. do 3 (split; [done|]). unfold decoded, whole, encoded.
    split; [split; [done|lia]|]. rewrite Es. assert ((- zlen vs) mod 4 = 0) as -> by lia_div. unfold padding. by destruct (_ =? _). }
  eapply wp_bind_mono; [apply (read_quantum_spec (zlen s) 4 [] src)|].
  - done.
  - rewrite Es in Hb. by apply Forall_app in Hb as [_ Hb].
  - by destruct src.
  - rewrite Es, zlen_app. change (zlen (@nil Z)) with 0. pose proof (zlen_nonneg (map dig vs)). lia.
  - intros [e|src' dbuf dinc dlen end_ err].
    + intros He. apply wp_ret. exists vs, k. do 4 (split; [done|]). by exists src.
    + intros (ws & Hws & -> & -> & Hq). cbn [app] in *. fold (quantum_after s src ws src' dinc end_ err) in Hq.
      destruct (quantum_room _ _ _ _ _ _ _ Hq) as (Hw & Hd & Hlt & _). rewrite pack_spec, go_bind_ret by (done || lia).
      rewrite <- bytes_of_app by done. pose proof (zlen_bytes_of ws).
      assert (zlen (bytes_of ws) = zlen ws - 1) as Eb by lia_div.
      rewrite decide_True.
      * apply wp_ret. split; [|done]. replace (match err with Some e => Some e | None => None end) with err by (by destruct err).
        by apply quantum_next with src.
      * rewrite bytes_of_app, !zlen_app by done. assert (zlen (drop (length ws - 1) k) = zlen k - (zlen ws - 1)) as -> by (unfold zlen in *; rewrite length_drop; lia). lia.
Qed.

Lemma decode_spec s k : are_bytes s → decoded_len enc (zlen s) <= zlen k → decode enc k s ⇓ decode_post s.
Proof.
  intros Hb Hk. unfold decode. apply wp_loop with (I := decode_inv s) (meas := λ '(_, _, src, _, _, _), zlen src).
  - intros [[[[[dst pos] src] n] end_] err] HI. eapply wp_mono; [by apply decode_step_spec|].
    intros [[[[[[dst' pos'] src'] n'] end_'] err']|r]; [|done]. intros [H1 H2]. split; [done|]. pose proof (zlen_nonneg src'). lia.
  - exists [], k. split; [constructor|]. done.
  - unfold zlen. lia.
Qed.

(** ** No error on an encoding *)

Lemma padding_head n c s : padding n = c :: s → c = padChar enc.
Proof. unfold padding. destruct (_ =? _); [done|]. destruct n; [done|]. simpl. by intros [= -> _]. Qed.

Lemma encoded_inj vs vs' n n' : blocks vs → blocks vs' → map dig vs ++ padding n = map dig vs' ++ padding n' → vs = vs'.
Proof.
  unfold blocks. intros Hvs. revert vs'. induction Hvs as [|v vs Hv Hvs IH]; intros [|v' vs'] Hvs' E; try done; simpl in E.
  - apply padding_head in E. apply Forall_cons in Hvs' as [Hv' _]. by destruct (dig_padding v').
  - symmetry in E. apply padding_head in E. by destruct (dig_padding v).
  - apply Forall_cons in Hvs' as [Hv' Hvs']. injection E as Ed E. f_equal; [|by apply IH].
    pose proof (dig_table v Hv) as Ht. rewrite Ed, dig_table in Ht by done. by injection Ht.
Qed.

Lemma read_digits k olen src t vs : blocks vs → ∀ ds,
  read_quantum enc (length vs + k) olen (zlen ds) (map dig vs ++ src) (ds ++ replicate (length vs) 0 ++ t) =
  read_quantum enc k olen (zlen (ds ++ vs)) src ((ds ++ vs) ++ t).
Proof.
  induction 1 as [|v vs Hv Hvs IH]; intros ds; [by rewrite app_nil_r|]. cbn [map app length Nat.add replicate].
  rewrite read_digit, upd_cursor, go_bind_ret by done.
  replace (zlen ds + 1) with (zlen (ds ++ [v])) by (by rewrite zlen_app, zlen_one). rewrite IH. by rewrite <- app_assoc.
Qed.

Lemma encoded_nil : encoded [] = [].
Proof. unfold encoded, padding. simpl. by destruct (_ =? _). Qed.

Lemma read_encoded olen vs : whole vs → vs ≠ [] →
  ∃ vs' dbuf dinc dlen end_, (end_ = false → whole vs') ∧
    read_quantum enc 4 olen 0 (encoded vs) [0; 0; 0; 0] = Ret (q_read (encoded vs') dbuf dinc dlen end_ None).
Proof.
  unfold whole, blocks. intros [Hvs Hm] Hne.
  assert (padChar enc = NoPadding ∨ (padChar enc =? NoPadding) = false) as Hp by (destruct (Z.eqb_spec (padChar enc) NoPadding); tauto).
  destruct vs as [|v0 [|v1 [|v2 [|v3 vs]]]]; [done|done| | |].
  - exists [], [v0; v1; 0; 0], (if padChar enc =? NoPadding then 1 else 3), 2, true. split; [done|]. rewrite encoded_nil. etransitivity; [apply (read_digits 2 olen _ [0; 0] [v0; v1] Hvs [])|].
    unfold padding. change (Z.to_nat ((- zlen [v0; v1]) mod 4)) with 2%nat. cbn [read_quantum app].
    destruct Hp as [-> | ->]; [done|]. cbn [replicate]. set (c := padChar enc).
    change (idx [c; c] 0) with (Ret c). rewrite go_bind_ret. change (slice_from [c; c] 1) with (Ret [c]). rewrite go_bind_ret, (Z.eqb_refl c).
    change (idx [c] 0) with (Ret c). rewrite go_bind_ret. change (slice_from [c] 1) with (Ret (@nil Z)). rewrite go_bind_ret. by rewrite (Z.eqb_refl c).
  - exists [], [v0; v1; v2; 0], (if padChar enc =? NoPadding then 2 else 3), 3, true. split; [done|]. rewrite encoded_nil. etransitivity; [apply (read_digits 1 olen _ [0] [v0; v1; v2] Hvs [])|].
    unfold padding. change (Z.to_nat ((- zlen [v0; v1; v2]) mod 4)) with 1%nat. cbn [read_quantum app].
    destruct Hp as [-> | ->]; [done|]. cbn [replicate]. set (c := padChar enc).
    change (idx [c] 0) with (Ret c). rewrite go_bind_ret. change (slice_from [c] 1) with (Ret (@nil Z)). rewrite go_bind_ret. by rewrite (Z.eqb_refl c).
  - exists vs. do 4 eexists. rewrite !zlen_cons in Hm. change (v0 :: v1 :: v2 :: v3 :: vs) with ([v0; v1; v2; v3] ++ vs) in Hvs.
    apply Forall_app in Hvs as [Hws Hvs]. split; [intros _; split; [exact Hvs|lia_div]|].
    assert (encoded (v0 :: v1 :: v2 :: v3 :: vs) = map dig [v0; v1; v2; v3] ++ encoded vs) as ->.
    { unfold encoded. rewrite !zlen_cons.
      by replace ((- (1 + (1 + (1 + (1 + zlen vs))))) mod 4) with ((- zlen vs) mod 4) by lia_div. }
    apply (read_digits 0 olen _ [] [v0; v1; v2; v3] Hws []).
Qed.

(** What is left is an encoding, and there was no error. *)
Definition ok_inv : bytes * Z * bytes * Z * bool * option Z → Prop := λ '(_, _, src, _, end_, err),
  err = None ∧ (end_ = false → ∃ vs, whole vs ∧ src = encoded vs).

Lemma decode_step_ok s st : are_bytes s → decode_inv s st → ok_inv st →
  decode_step enc (zlen s) st ⇓ λ r, match r with inl st' => ok_inv st' | inr (_, _, _, err) => err = None end.
Proof.
  intros Hb HI HJ. pose proof (decode_step_spec s st Hb HI) as H. destruct st as [[[[[dst pos] src] n] end_] err].
  destruct HJ as [-> HJ]. unfold decode_step in *. destruct end_; [by rewrite andb_false_r|].
  destruct (HJ eq_refl) as (vs & Hvs & ->). rewrite andb_true_r in *. destruct (Z.ltb_spec 0 (zlen (encoded vs))) as [Hs|Hs]; [|done].
  destruct (read_encoded (zlen s) vs Hvs) as (vs' & dbuf & dinc & dlen & end_ & Hend & E); [intros ->; by rewrite encoded_nil in Hs|].
  rewrite E, go_bind_ret in *. destruct (pack dst dbuf pos dlen) as [dst'| |]; [|done..]. rewrite go_bind_ret in *.
  case_decide; [|done]. apply wp_ret. split; [done|]. intros ->. exists vs'. by split; [apply Hend|].
Qed.

Lemma decode_encoded vs k : whole vs → decoded_len enc (zlen (encoded vs)) <= zlen k →
  decode enc k (encoded vs) ⇓ λ '(dst, n, _, err), err = None ∧ n = zlen (bytes_of vs) ∧ ∃ k', dst = bytes_of vs ++ k'.
Proof.
  intros Hvs Hk. assert (are_bytes (encoded vs)) as Hb.
  { apply Forall_app. destruct Hvs as [Hvs _]. split.
    - apply Forall_map. eapply Forall_impl; [exact Hvs|]. intros v Hv. destruct (good_ascii _ Hgood _ (dig_in v Hv)). unfold compose, is_byte. lia.
    - unfold padding. destruct (Z.eqb_spec (padChar enc) NoPadding); [done|]. apply Forall_replicate. destruct (good_padding _ Hgood); unfold is_byte; [done|lia]. }
  eapply wp_mono with (Q := λ r, decode_post (encoded vs) r ∧ r.2 = None).
  - unfold decode. apply wp_loop with (I := λ st, decode_inv (encoded vs) st ∧ ok_inv st) (meas := λ '(_, _, src, _, _, _), zlen src).
    + intros st [HI HJ]. pose proof (wp_conj _ _ _ (decode_step_spec _ _ Hb HI) (decode_step_ok _ _ Hb HI HJ)) as H.
      eapply wp_mono; [exact H|]. cbv beta. destruct st as [[[[[dst pos] src] n] end_] err].
      intros [[[[[[dst' pos'] src'] n'] end_'] err']|[[[dst' n'] end_'] err']]; [|by intros []].
      intros [[H1 H2] H3]. pose proof (zlen_nonneg src'). split; [by split|lia].
    + split; [|split; [done|by exists vs]]. exists [], k. split; [constructor|]. done.
    + unfold zlen. lia.
  - intros [[[dst n] end_] err] [(vs' & k' & Hvs' & -> & -> & Hd) E]. simpl in E. subst err. destruct Hd as [_ E].
    apply encoded_inj in E; [|apply Hvs|done]. subst vs'. split; [done|]. split; [done|]. by exists k'.
Qed.

(** ** Line breaks *)

Definition strip (s : list Z) : list Z := List.filter (λ r, negb ((r =? 13) || (r =? 10))) s.

Lemma mapped_strip rs : valid rs → mapped removeNewlinesMapper rs = strip rs.
Proof.
  unfold mapped, strip. induction 1 as [|r rs Hr Hv IH]; [done|]. simpl. rewrite IH. unfold removeNewlinesMapper.
  apply ValidRune_iff in Hr. destruct ((r =? 13) || (r =? 10)); [done|]. by rewrite (proj2 (Z.leb_le 0 r)) by lia.
Qed.
Lemma zlen_strip rs : zlen (text (strip rs)) <= zlen (text rs).
Proof.
  unfold strip. induction rs as [|r rs IH]; [done|]. simpl. pose proof (zlen_nonneg (Utf8.enc r)).
  destruct (negb _); rewrite ?text_cons, ?zlen_app; lia.
Qed.

Lemma Map_strip rs : valid rs → zlen (text rs) <= max_len 1 → Map removeNewlinesMapper (text rs) = Ret (text (strip rs)).
Proof.
  intros Hv Hfit. rewrite Map_text; [by rewrite mapped_strip|done| |].
  2:{ split; [done|]. left. rewrite mapped_strip by done. apply zlen_strip. }
  - intros c Hc. unfold removeNewlinesMapper. destruct (_ || _); [left; lia|]. right.
    rewrite Forall_forall in Hv. by apply Hv.
Qed.

Lemma text_ascii s : Forall (λ c, 0 <= c < 128) s → valid s ∧ text s = s.
Proof.
  induction 1 as [|c s Hc Hs [Hv IH]]; [by split; [constructor|]|]. split.
  - constructor; [|done]. apply ValidRune_iff. lia.
  - rewrite text_cons, IH. unfold Utf8.enc. by rewrite (proj2 (Z.ltb_lt c 128)) by lia.
Qed.

Lemma encoded_ascii vs : blocks vs → Forall (λ c, 0 <= c < 128) (encoded vs).
Proof.
  intros Hvs. apply Forall_app. split.
  - apply Forall_map. eapply Forall_impl; [exact Hvs|]. intros v Hv. by destruct (good_ascii _ Hgood _ (dig_in v Hv)).
  - unfold padding. destruct (Z.eqb_spec (padChar enc) NoPadding); [done|]. apply Forall_replicate. by destruct (good_padding _ Hgood) as [|[? _]].
Qed.

Lemma DecodeString_text rs : valid rs → decode_fits enc (zlen (text rs)) → are_bytes (text (strip rs)) ∧
  DecodeString enc (text rs) = (
    let s := text (strip rs) in let dbuf := replicate (Z.to_nat (decoded_len enc (zlen s))) 0 in
    '(dbuf, n, _, err) ← decode enc dbuf s; r ← slice_to dbuf n; Ret (r, err)).
Proof.
  intros Hv Hfit. split.
  - apply text_bytes. unfold strip in *. rewrite Forall_forall in *. intros r [Hr _]%list_elem_of_In%filter_In. apply Hv. by apply list_elem_of_In.
  - unfold DecodeString. rewrite Map_strip, go_bind_ret by (done || apply Hfit).
    pose proof (zlen_nonneg (text (strip rs))) as Hz.
    destruct (DecodedLen_small enc _ Hz (decode_fits_mono enc _ _ (zlen_strip rs) Hfit)) as [-> ?].
    pose proof (decoded_len_nonneg _ Hz). by rewrite makeslice_eq, go_bind_ret by lia.
Qed.

Lemma DecodeString_encoded vs s : whole vs → strip s = encoded vs → decode_fits enc (zlen s) → DecodeString enc s = Ret (bytes_of vs, None).
Proof.
  intros Hvs E Hfit. pose proof (encoded_ascii vs (proj1 Hvs)) as Ha.
  assert (Forall (λ c, 0 <= c < 128) s) as Hs.
  { rewrite <- E in Ha. unfold strip in Ha. rewrite Forall_forall in *. intros c Hc%list_elem_of_In.
    destruct ((c =? 13) || (c =? 10)) eqn:Ec; [apply orb_true_iff in Ec as [Ec%Z.eqb_eq|Ec%Z.eqb_eq]; lia|].
    apply Ha, list_elem_of_In, filter_In. split; [done|]. by rewrite Ec. }
  destruct (text_ascii s Hs) as [Hv Et]. rewrite <- Et in Hfit. rewrite <- Et. destruct (DecodeString_text s Hv Hfit) as [_ ->]. rewrite E, (proj2 (text_ascii _ Ha)). cbv zeta.
  pose proof (decode_encoded vs (replicate (Z.to_nat (decoded_len enc (zlen (encoded vs)))) 0) Hvs) as H.
  rewrite zlen_replicate in H by (apply decoded_len_nonneg, zlen_nonneg). apply wp_ex in H as ([[[dst n] end_] err] & -> & -> & -> & k & ->); [|lia].
  pose proof (zlen_nonneg k). pose proof (zlen_nonneg (bytes_of vs)).
  by rewrite go_bind_ret, slice_to_eq, go_bind_ret, take_zlen_app by (rewrite zlen_app; lia).
Qed.
End format.

(** C40: base 64. The four encodings of the package are made, each with an alphabet of 64
    characters and its inverse. With any such encoding, [EncodeToString] returns the
    digits of the groups of three bytes with the padding, [EncodedLen] characters, and panics
    when these do not fit in memory. On text,
    [DecodeString] returns: with no error, exactly when the string without line
    breaks is made of digits and their padding, with the bytes of the digits, so that the bytes
    encoded are read back; otherwise with an error at an offset within the string, and
    the bytes of digits that the string begins with. The bounds on the lengths
    ([encode_fits], [decode_fits]) are those within which the lengths that the code computes do
    not overflow; where [int] has 64 bits every slice and string in memory is within them. *)
Theorem Base64_roundtrip {W : Host} :
  (∀ mk, mk ∈ [StdEncoding; URLEncoding; RawStdEncoding; RawURLEncoding] → ∃ enc, mk = Ret enc ∧ good enc) ∧
  ∀ enc, good enc →
    (∀ src, are_bytes src → encode_fits enc (zlen src) →
      EncodeToString enc src = Ret (b64 enc src) ∧ zlen (b64 enc src) = EncodedLen enc (zlen src) ∧
      ∀ s, strip s = b64 enc src → decode_fits enc (zlen s) → DecodeString enc s = Ret (src, None)) ∧
    (∀ src, max_len 1 < EncodedLen enc (zlen src) → EncodeToString enc src = Panic "makeslice: len out of range") ∧
    (∀ vs s, whole vs → strip s = encoded enc vs → decode_fits enc (zlen s) → DecodeString enc s = Ret (bytes_of vs, None)) ∧
    (∀ rs, valid rs → decode_fits enc (zlen (text rs)) → DecodeString enc (text rs) ⇓ λ '(r, err),
      ∃ vs, blocks vs ∧ r = bytes_of vs ∧ decoded enc (text (strip rs)) vs err).
Proof.
  split.
  - destruct (encodings_good encodeStd (or_introl eq_refl)) as (e1 & E1 & H1), (encodings_good encodeURL (or_intror eq_refl)) as (e2 & E2 & H2).
    unfold RawStdEncoding, RawURLEncoding, StdEncoding, URLEncoding. rewrite E1, E2, !go_bind_ret.
    intros mk Hmk. rewrite !elem_of_cons in Hmk. pose proof (λ e H, WithPadding_good e NoPadding H (or_introl eq_refl)) as Hraw.
    destruct Hmk as [-> |[-> |[-> |[-> |[]%not_elem_of_nil]]]];
      eexists; (split; [reflexivity|]); [exact H1|exact H2|exact (Hraw e1 H1)|exact (Hraw e2 H2)].
  - intros enc Hg. split; [|split; [|split]].
    + intros src Hb Hfit. destruct (blocks_of_spec enc src Hb) as (Hw & Eb & Ee). pose proof (zlen_b64 enc src) as Hz.
      rewrite (EncodedLen_small _ _ (zlen_nonneg src) Hfit). split; [|split; [done|]].
      * unfold EncodeToString. pose proof (zlen_nonneg (b64 enc src)). rewrite (EncodedLen_small _ _ (zlen_nonneg src) Hfit).
        destruct Hfit as [_ Hfit]. rewrite makeslice_eq, go_bind_ret by lia.
        apply base64_Encode_spec; [done|done|]. rewrite zlen_replicate; lia.
      * intros s Es Hs. rewrite <- Ee in Es. rewrite (DecodeString_encoded enc Hg _ _ Hw Es Hs). by rewrite Eb.
    + intros src Hbig. unfold EncodeToString. by rewrite makeslice_panics.
    + intros vs s. by apply DecodeString_encoded.
    + intros rs Hv Hfit. destruct (DecodeString_text enc rs Hv Hfit) as [Hb ->]. cbv zeta. set (s := text (strip rs)) in *.
      eapply wp_bind_mono; [apply decode_spec; [done|done|]|].
      { rewrite zlen_replicate; [done|]. apply decoded_len_nonneg, zlen_nonneg. }
      intros [[[dst n] end_] err] (vs & k & Hvs & -> & -> & Hd). pose proof (zlen_nonneg k). pose proof (zlen_nonneg (bytes_of vs)).
      rewrite slice_to_eq, go_bind_ret, take_zlen_app by (rewrite zlen_app; lia). apply wp_ret. by exists vs.
Qed.

Example Base64_roundtrip_witness :
  (e ← StdEncoding; EncodeToString e (str "leasure.")) = Ret (str "bGVhc3VyZS4=") ∧
  (e ← StdEncoding; DecodeString e (str "bGVh" ++ [13; 10] ++ str "c3VyZS4=")) = Ret (str "leasure.", None).
Proof.
  destruct Base64_roundtrip as [Hmk H]. destruct (Hmk StdEncoding ltac:(by left)) as (e & E & Hg).
  assert (padChar e = 61) as Ep by (assert (match StdEncoding with Ret e => padChar e = 61 | _ => False end) as Hp by (vm_compute; reflexivity); by rewrite E in Hp).
  assert (∀ n, 0 <= n <= 100 → encode_fits e n ∧ decode_fits e n) as Hfits.
  { intros n Hn. unfold encode_fits, decode_fits, encoded_len. rewrite Ep. change (max_len 1) with (2 ^ 39 - 1). simpl. lia_div. }
  destruct (H e Hg) as (H1 & _). destruct (H1 (str "leasure.")) as (E1 & _ & E2); [by apply (bool_decide_unpack _); vm_compute|apply (proj1 (Hfits 8 ltac:(lia)))|].
  assert (match StdEncoding with Ret e => b64 e (str "leasure.") = str "bGVhc3VyZS4=" | _ => False end) as Eb by (vm_compute; reflexivity).
  rewrite E, !go_bind_ret, E1 in *. rewrite Eb in *. split; [reflexivity|].
  rewrite (E2 (str "bGVh" ++ [13; 10] ++ str "c3VyZS4=")); [reflexivity|reflexivity|apply (proj2 (Hfits 14 ltac:(lia)))].
Defined.
