(* ===== verification/Crc.v ===== *)
(** The loops that [src/src/hash/crc32/crc32.go] and [src/src/hash/crc64/crc64.go] share,
    which differ in the width, and the shift register that they compute. *)
From S2P Require Import Prelude.

Section crc.
Context (w : Z).

(** [makeTable] of crc32, [MakeTable] of crc64. *)
Definition makeTable (poly : Z) : go (list Z) :=
  for_up 0 256 (λ i t,
    crc ← for_up 0 8 (λ _ crc, Ret (if Z.land crc 1 =? 1 then Z.lxor (Z.shiftr crc 1) poly else Z.shiftr crc 1)) i;
    upd t i crc) (replicate 256 0).

Definition update (crc : Z) (tab p : list Z) : go Z :=
  crc ← for_each p (λ v crc, t ← idx tab (Z.lxor (u8 crc) v); Ret (Z.lxor t (Z.shiftr crc 8))) (wrap w (Z.lnot crc));
  Ret (wrap w (Z.lnot crc)).
End crc.

(** * The shift register *)

(** One step of the register, and the register fed with bits. *)
Definition shift (poly s : Z) : Z := if Z.odd s then Z.lxor (Z.shiftr s 1) poly else Z.shiftr s 1.
Definition feed (poly : Z) : list bool → Z → Z := fix feed bs s := match bs with [] => s | b :: bs => feed bs (shift poly (Z.lxor s (Z.b2z b))) end.
Definition bits_of (p : list Z) : list bool := mbind (λ v, map (Z.testbit v) (seqZ 0 8)) p.
(** The number of bits given from the lowest on. *)
Fixpoint word (bs : list bool) : Z := match bs with [] => 0 | b :: bs => Z.b2z b + 2 * word bs end.

Section register.
Context (poly : Z).
Abbreviation step := (shift poly).

Lemma shift_lxor a b : step (Z.lxor a b) = Z.lxor (step a) (step b).
Proof.
  unfold shift. rewrite <- !Z.bit0_odd, Z.lxor_spec, Z.shiftr_lxor. destruct (Z.testbit a 0), (Z.testbit b 0); simpl.
  - by rewrite Z.lxor_assoc, <- (Z.lxor_assoc poly), (Z.lxor_comm poly (Z.shiftr b 1)), Z.lxor_assoc, Z.lxor_nilpotent, Z.lxor_0_r.
  - by rewrite !Z.lxor_assoc, (Z.lxor_comm (Z.shiftr b 1)).
  - by rewrite Z.lxor_assoc.
  - done.
Qed.

Lemma shift_double x : step (2 * x) = x.
Proof. unfold shift. rewrite Z.odd_mul. simpl. rewrite Z.shiftr_div_pow2 by done. rewrite Z.mul_comm. by apply Z.div_mul. Qed.

Lemma iter_lxor n a b : Nat.iter n step (Z.lxor a b) = Z.lxor (Nat.iter n step a) (Nat.iter n step b).
Proof. induction n as [|n IH]; [done|]. simpl. by rewrite IH, shift_lxor. Qed.

Lemma iter_shiftl (n : nat) x : Nat.iter n step (Z.shiftl x (Z.of_nat n)) = x.
Proof.
  induction n as [|n IH]; [by rewrite Z.shiftl_0_r|]. rewrite Nat.iter_succ_r, Nat2Z.inj_succ.
  replace (Z.shiftl x (Z.succ (Z.of_nat n))) with (2 * Z.shiftl x (Z.of_nat n)) by (rewrite !Z.shiftl_mul_pow2, Z.pow_succ_r by lia; lia). by rewrite shift_double.
Qed.

Lemma bit_lxor (b : bool) x : Z.b2z b + 2 * x = Z.lxor (Z.b2z b) (2 * x).
Proof.
  apply Z.add_nocarry_lxor. destruct b; [|done]. simpl Z.b2z. rewrite Z.land_comm. change 1 with (2 ^ 1 - 1) at 1. rewrite land_mask by done.
  rewrite Z.mul_comm. apply Z.mod_mul. lia.
Qed.

(** Feeding bits is adding the number they make, and stepping. *)
Lemma feed_word bs s : feed poly bs s = Nat.iter (length bs) step (Z.lxor s (word bs)).
Proof.
  revert s. induction bs as [|b bs IH]; intros s; [simpl; by rewrite Z.lxor_0_r|]. cbn [feed word length].
  rewrite IH, Nat.iter_succ_r. f_equal. rewrite (bit_lxor b (word bs)), <- Z.lxor_assoc, (shift_lxor (Z.lxor s _) (2 * _)), shift_double. done.
Qed.

Lemma feed_app bs bs' s : feed poly (bs ++ bs') s = feed poly bs' (feed poly bs s).
Proof. revert s. induction bs as [|b bs IH]; intros s; simpl; [done|]. by rewrite IH. Qed.
End register.

(** ** Bounds *)

Lemma lxor_mod a b n : 0 <= n → Z.lxor a b mod 2 ^ n = Z.lxor (a mod 2 ^ n) (b mod 2 ^ n).
Proof.
  intros Hn. apply Z.bits_inj'. intros i Hi. rewrite Z.lxor_spec. destruct (decide (i < n)).
  - by rewrite !Z.mod_pow2_bits_low, Z.lxor_spec by lia.
  - by rewrite !Z.mod_pow2_bits_high by lia.
Qed.
Lemma lxor_bound a b n : 0 <= n → 0 <= a < 2 ^ n → 0 <= b < 2 ^ n → 0 <= Z.lxor a b < 2 ^ n.
Proof.
  intros Hn Ha Hb. assert (0 < 2 ^ n) by lia. replace (Z.lxor a b) with (Z.lxor a b mod 2 ^ n) by (rewrite lxor_mod, !Z.mod_small by done; done). by apply Z.mod_pos_bound.
Qed.

Lemma low_high s : s = Z.lxor (u8 s) (Z.shiftl (Z.shiftr s 8) 8).
Proof.
  apply Z.bits_inj'. intros i Hi. rewrite Z.lxor_spec. unfold wrap. destruct (decide (i < 8)).
  - rewrite Z.mod_pow2_bits_low, Z.shiftl_spec_low by lia. by rewrite xorb_false_r.
  - rewrite Z.mod_pow2_bits_high, Z.shiftl_spec, Z.shiftr_spec by lia. simpl. f_equal. lia.
Qed.

Lemma word_bound bs : 0 <= word bs < 2 ^ Z.of_nat (length bs).
Proof. induction bs as [|b bs IH]; [simpl; lia|]. cbn [word length]. rewrite Nat2Z.inj_succ, Z.pow_succ_r by lia. destruct b; simpl Z.b2z; lia. Qed.

Lemma bits_word_inj bs bs' : length bs = length bs' → word bs = word bs' → bs = bs'.
Proof.
  revert bs'. induction bs as [|b bs IH]; intros [|b' bs'] Hl E; [done|done|done|]. cbn [word length] in *.
  assert (word bs = word bs' ∧ b = b') as [E' ->] by (destruct b, b'; simpl in E; split; (done || lia)). f_equal. apply IH; [lia|done].
Qed.

Lemma word_byte v : is_byte v → word (map (Z.testbit v) (seqZ 0 8)) = v.
Proof.
  intros Hv. assert (forallb (λ v, word (map (Z.testbit v) (seqZ 0 8)) =? v) (seqZ 0 256) = true) as H by (by vm_compute).
  rewrite forallb_forall in H. apply Z.eqb_eq, H. apply list_elem_of_In, elem_of_seqZ. unfold is_byte in Hv. lia.
Qed.

Section table.
Context (poly : Z).

Lemma shift_code s : (if Z.land s 1 =? 1 then Z.lxor (Z.shiftr s 1) poly else Z.shiftr s 1) = shift poly s.
Proof.
  unfold shift. assert (Z.land s 1 = if Z.odd s then 1 else 0) as ->; [|by destruct (Z.odd s)]. rewrite <- Zmod_odd. by apply (land_mask s 1).
Qed.

(** The table has the registers after eight steps. *)
Lemma makeTable_spec : makeTable poly ⇓ λ t, zlen t = 256 ∧ ∀ i, 0 <= i < 256 → t.[i] = Some (Nat.iter 8 (shift poly) i).
Proof.
  unfold makeTable. apply wp_for_up with (I := λ i t, zlen t = 256 ∧ ∀ j, 0 <= j < i → t.[j] = Some (Nat.iter 8 (shift poly) j)); [| |by intros t].
  - intros i t Hi [Hl Ht]. eapply wp_bind_mono.
    + apply wp_for_up with (I := λ k c, c = Nat.iter (Z.to_nat k) (shift poly) i) (Q := λ c, c = Nat.iter 8 (shift poly) i); [|done|by intros c].
      intros k c Hk ->. apply wp_ret. rewrite Z2Nat.inj_add, Nat.add_1_r by lia. simpl. apply shift_code.
    + intros c ->. rewrite upd_eq by lia. apply wp_ret. split; [by rewrite zlen_insZ|]. intros j Hj. rewrite nthZ_insZ. destruct (decide _) as [[-> _]|]; [done|]. apply Ht. lia.
  - split; [by vm_compute|]. lia.
Qed.

Lemma update_spec w t crc p : zlen t = 256 → (∀ i, 0 <= i < 256 → t.[i] = Some (Nat.iter 8 (shift poly) i)) → Forall is_byte p →
  update w crc t p = Ret (wrap w (Z.lnot (feed poly (bits_of p) (wrap w (Z.lnot crc))))).
Proof.
  intros Hl Ht Hp. unfold update.
  assert (∀ s, for_each p (λ v crc, t ← idx t (Z.lxor (u8 crc) v); Ret (Z.lxor t (Z.shiftr crc 8))) s = Ret (feed poly (bits_of p) s)) as ->; [|done].
  induction Hp as [|v p Hv Hp IH]; intros s; [done|]. cbn [for_each].
  assert (0 <= Z.lxor (u8 s) v < 256) as Hi by (apply (lxor_bound _ _ 8); [done|apply Z.mod_pos_bound; lia|done]).
  rewrite (idx_Some _ _ _ (Ht _ Hi)), !go_bind_ret, IH. f_equal. change (bits_of (v :: p)) with (map (Z.testbit v) (seqZ 0 8) ++ bits_of p). rewrite feed_app. f_equal.
  rewrite feed_word, word_byte by done. change (length _) with 8%nat. rewrite (low_high s) at 3.
  rewrite Z.lxor_assoc, (Z.lxor_comm (Z.shiftl _ 8)), <- Z.lxor_assoc, (iter_lxor _ 8 _ (Z.shiftl _ 8)). by rewrite (iter_shiftl poly 8).
Qed.
End table.

Section width.
Context (w poly : Z) (Hw : 8 <= w) (Hpoly : 0 <= poly < 2 ^ w).

Lemma shift_bound s : 0 <= s < 2 ^ w → 0 <= shift poly s < 2 ^ w.
Proof using Hw Hpoly.
  intros Hs. unfold shift. assert (0 <= Z.shiftr s 1 < 2 ^ w) by (rewrite Z.shiftr_div_pow2 by done; lia_div). destruct (Z.odd s); [|done]. apply lxor_bound; (done || lia).
Qed.

Lemma feed_bound bs s : 0 <= s < 2 ^ w → 0 <= feed poly bs s < 2 ^ w.
Proof using Hw Hpoly.
  revert s. induction bs as [|b bs IH]; intros s Hs; [done|]. simpl. apply IH, shift_bound. apply lxor_bound; [lia|done|].
  assert (2 ^ 8 <= 2 ^ w) by (by apply Z.pow_le_mono_r). destruct b; simpl Z.b2z; lia.
Qed.

(** ** Errors *)

Context (Htop : Z.testbit poly (w - 1) = true).

Lemma shift_inj s t : 0 <= s < 2 ^ w → 0 <= t < 2 ^ w → shift poly s = shift poly t → s = t.
Proof using Hw Hpoly Htop.
  intros Hs Ht E. assert (∀ x, 0 <= x < 2 ^ w → Z.testbit (Z.shiftr x 1) (w - 1) = false) as Hhigh.
  { intros x Hx. rewrite Z.shiftr_spec, Z.sub_add by lia. destruct (decide (x = 0)) as [->|]; [apply Z.bits_0|]. apply Z.bits_above_log2; [lia|]. apply Z.log2_lt_pow2; lia. }
  assert (∀ x, 0 <= x < 2 ^ w → Z.testbit (shift poly x) (w - 1) = Z.odd x) as Hodd.
  { intros x Hx. unfold shift. destruct (Z.odd x); [rewrite Z.lxor_spec, Htop|]; by rewrite Hhigh. }
  assert (Z.odd s = Z.odd t) as Eo by (by rewrite <- !Hodd, E).
  assert (Z.shiftr s 1 = Z.shiftr t 1) as Er.
  { unfold shift in E. rewrite Eo in E. destruct (Z.odd t); [|done]. rewrite <- (Z.lxor_0_r (Z.shiftr s 1)), <- (Z.lxor_0_r (Z.shiftr t 1)), <- (Z.lxor_nilpotent poly), <- !Z.lxor_assoc. by rewrite E. }
  rewrite !Z.shiftr_div_pow2 in Er by done. change (2 ^ 1) with 2 in Er. rewrite (Z.div_mod s 2), (Z.div_mod t 2), !Zmod_odd, Eo by done. by rewrite Er.
Qed.

Lemma iter_shift_inj n s t : 0 <= s < 2 ^ w → 0 <= t < 2 ^ w → Nat.iter n (shift poly) s = Nat.iter n (shift poly) t → s = t.
Proof using Hw Hpoly Htop.
  revert s t. induction n as [|n IH]; intros s t Hs Ht E; [done|]. rewrite !Nat.iter_succ_r in E.
  apply shift_inj; [done..|]. apply IH; [by apply shift_bound..|done].
Qed.

Lemma lxor_cancel s a b : Z.lxor s a = Z.lxor s b → a = b.
Proof using. intros E. rewrite <- (Z.lxor_0_l a), <- (Z.lxor_0_l b), <- (Z.lxor_nilpotent s), !Z.lxor_assoc. by rewrite E. Qed.

(** Bits fed to different registers keep them different, and so do different bits, as many
    as the register has at most. *)
Lemma feed_inj bs s t : 0 <= s < 2 ^ w → 0 <= t < 2 ^ w → feed poly bs s = feed poly bs t → s = t.
Proof using Hw Hpoly Htop.
  intros Hs Ht. revert s t Hs Ht. induction bs as [|b bs IH]; intros s t Hs Ht E; [done|]. simpl in E.
  assert (0 <= Z.b2z b < 2 ^ w) as Hb by (assert (2 ^ 8 <= 2 ^ w) by (by apply Z.pow_le_mono_r); destruct b; simpl Z.b2z; lia).
  apply IH in E; [|by apply shift_bound, lxor_bound; [lia|..]..]. apply shift_inj in E; [|by apply lxor_bound; [lia|..]..].
  rewrite !(Z.lxor_comm _ (Z.b2z b)) in E. by apply lxor_cancel in E.
Qed.

Lemma feed_burst pre x y post s : 0 <= s < 2 ^ w → length x = length y → Z.of_nat (length x) <= w → x ≠ y →
  feed poly (pre ++ x ++ post) s ≠ feed poly (pre ++ y ++ post) s.
Proof using Hw Hpoly Htop.
  intros Hs Hl Hx Hne E. rewrite !feed_app in E. pose proof (feed_bound pre s Hs) as Hp. apply feed_inj in E; [|by apply feed_bound..].
  set (u := feed poly pre s) in *. rewrite !feed_word, Hl in E. pose proof (word_bound x) as Bx. pose proof (word_bound y) as By. rewrite <- Hl in By.
  assert (2 ^ Z.of_nat (length x) <= 2 ^ w) by (by apply Z.pow_le_mono_r).
  apply iter_shift_inj in E; [|apply lxor_bound; lia..]. apply lxor_cancel in E. by apply Hne, bits_word_inj.
Qed.
End width.

(** * The checksums *)

(** The checksum by bits: the register starts with ones, and ends complemented. *)
Definition crc_of (w poly : Z) (data : list Z) : Z := wrap w (Z.lnot (feed poly (bits_of data) (2 ^ w - 1))).

Lemma wrap_lnot w x : 0 <= w → 0 <= x < 2 ^ w → wrap w (Z.lnot x) = 2 ^ w - 1 - x.
Proof. intros Hw Hx. unfold wrap, Z.lnot. replace (Z.pred (- x)) with (2 ^ w - 1 - x + (-1) * 2 ^ w) by lia. rewrite Z.mod_add by lia. apply Z.mod_small. lia. Qed.

Lemma wrap_lnot_twice w x : 0 <= w → 0 <= x < 2 ^ w → wrap w (Z.lnot (wrap w (Z.lnot x))) = x.
Proof. intros. rewrite (wrap_lnot w x), wrap_lnot by lia. lia. Qed.

Lemma makeTable_exists poly : ∃ t, makeTable poly = Ret t ∧ zlen t = 256 ∧ ∀ i, 0 <= i < 256 → t.[i] = Some (Nat.iter 8 (shift poly) i).
Proof. destruct (proj1 (wp_ex _ _) (makeTable_spec poly)) as (t & E & H). exists t. split; [exact E|exact H]. Qed.

Lemma update_zero w poly t p : 0 <= w → zlen t = 256 → (∀ i, 0 <= i < 256 → t.[i] = Some (Nat.iter 8 (shift poly) i)) → Forall is_byte p → update w 0 t p = Ret (crc_of w poly p).
Proof. intros Hw Hl Ht Hp. rewrite (update_spec poly w t 0 p Hl Ht Hp). unfold crc_of. by rewrite (wrap_lnot w 0), Z.sub_0_r by lia. Qed.

(** Data in two pieces. *)
Lemma update_app w poly t crc p q : 8 <= w → 0 <= poly < 2 ^ w → 0 <= crc < 2 ^ w → zlen t = 256 → (∀ i, 0 <= i < 256 → t.[i] = Some (Nat.iter 8 (shift poly) i)) → Forall is_byte p → Forall is_byte q →
  (c ← update w crc t p; update w c t q) = update w crc t (p ++ q).
Proof.
  intros Hw Hpoly Hcrc Hl Ht Hp Hq. rewrite (update_spec poly w t crc p), go_bind_ret, !(update_spec poly w t) by (done || by apply Forall_app).
  rewrite wrap_lnot_twice; [|lia|]. { unfold bits_of. by rewrite bind_app, feed_app. } apply feed_bound; [done..|]. rewrite wrap_lnot by lia. lia.
Qed.

Lemma two_pieces w poly t p q : 8 <= w → 0 <= poly < 2 ^ w → zlen t = 256 → (∀ i, 0 <= i < 256 → t.[i] = Some (Nat.iter 8 (shift poly) i)) → Forall is_byte p → Forall is_byte q →
  ∃ c, update w 0 t p = Ret c ∧ update w c t q = Ret (crc_of w poly (p ++ q)).
Proof.
  intros Hw Hpoly Hl Ht Hp Hq. pose proof (update_app w poly t 0 p q Hw Hpoly ltac:(lia) Hl Ht Hp Hq) as E.
  rewrite (update_zero w poly t p), (update_zero w poly t (p ++ q)) in E by (done || lia || by apply Forall_app). rewrite go_bind_ret in E.
  exists (crc_of w poly p). split; [by apply update_zero; [lia|..]|exact E].
Qed.

Lemma crc_burst w poly p q pre x y post : 8 <= w → 0 <= poly < 2 ^ w → Z.testbit poly (w - 1) = true → bits_of p = pre ++ x ++ post → bits_of q = pre ++ y ++ post →
  length x = length y → Z.of_nat (length x) <= w → x ≠ y → crc_of w poly p ≠ crc_of w poly q.
Proof.
  intros Hw Hpoly Ht Ep Eq Hl Hx Hne E. unfold crc_of in E. assert (0 <= 2 ^ w - 1 < 2 ^ w) as Hs by lia.
  rewrite !wrap_lnot in E by (lia || by apply feed_bound). rewrite Ep, Eq in E. apply (feed_burst w poly Hw Hpoly Ht pre x y post (2 ^ w - 1) Hs Hl Hx Hne). lia.
Qed.
