(* ===== verification/Crc32.v ===== *)
(** The 32-bit cyclic redundancy check: [src/src/hash/crc32/crc32.go]. *)
From S2P Require Import Prelude.
From S2P Require Import Crc.

Definition Size : Z := 4.
Definition IEEE : Z := 0xedb88320.
Definition Castagnoli : Z := 0x82f63b78.
Definition Koopman : Z := 0xeb31d82e.

(** The tables by their addresses: the two that the package keeps, and any other. *)
Inductive Table := IEEETable | castagnoliTable | Made (t : list Z).
Definition entries (tab : Table) : go (list Z) :=
  match tab with IEEETable => makeTable IEEE | castagnoliTable => makeTable Castagnoli | Made t => Ret t end.

Definition MakeTable (poly : Z) : go Table :=
  if poly =? IEEE then Ret IEEETable
  else if poly =? Castagnoli then Ret castagnoliTable
  else t ← makeTable poly; Ret (Made t).

(** The portable [updateCastagnoli]. *)
Definition updateCastagnoli (crc : Z) (p : list Z) : go Z := t ← entries castagnoliTable; update 32 crc t p.

Definition Update (crc : Z) (tab : Table) (p : list Z) : go Z :=
  match tab with castagnoliTable => updateCastagnoli crc p | _ => t ← entries tab; update 32 crc t p end.

Record digest := Digest { crc : Z; tab : Table }.
Definition New (tab : Table) : digest := Digest 0 tab.
Definition NewIEEE : digest := New IEEETable.
Definition Reset (d : digest) : digest := Digest 0 (tab d).
Definition Write (d : digest) (p : list Z) : go (digest * Z) := c ← Update (crc d) (tab d) p; Ret (Digest c (tab d), zlen p).
Definition Sum32 (d : digest) : Z := crc d.
Definition Sum (d : digest) (l : list Z) : list Z :=
  let s := Sum32 d in l ++ [u8 (Z.shiftr s 24); u8 (Z.shiftr s 16); u8 (Z.shiftr s 8); u8 s].
Definition Checksum (data : list Z) (tab : Table) : go Z := Update 0 tab data.
Definition ChecksumIEEE (data : list Z) : go Z := t ← entries IEEETable; update 32 0 t data.

(** The check value: of "123456789". *)
Example crc32_check : (t ← MakeTable IEEE; Checksum [49; 50; 51; 52; 53; 54; 55; 56; 57] t) = Ret 0xCBF43926.
Proof. by vm_compute. Qed.

(** The table that [MakeTable] returns. *)
Lemma table32 poly : ∃ T t, MakeTable poly = Ret T ∧ entries T = Ret t ∧ (∀ c p, Update c T p = update 32 c t p) ∧
  zlen t = 256 ∧ ∀ i, 0 <= i < 256 → t.[i] = Some (Nat.iter 8 (shift poly) i).
Proof.
  destruct (makeTable_exists poly) as (t & E & Ht). unfold MakeTable. destruct (Z.eqb_spec poly IEEE) as [->|].
  { exists IEEETable, t. split; [reflexivity|]. split; [exact E|]. split; [|exact Ht]. intros c p. unfold Update, entries. by rewrite E. }
  destruct (Z.eqb_spec poly Castagnoli) as [->|].
  { exists castagnoliTable, t. split; [reflexivity|]. split; [exact E|]. split; [|exact Ht]. intros c p. unfold Update, updateCastagnoli, entries. by rewrite E. }
  exists (Made t), t. rewrite E. split; [reflexivity|]. split; [reflexivity|]. split; [|exact Ht]. intros c p. reflexivity.
Qed.

Lemma crc32_sum poly p : Forall is_byte p → (t ← MakeTable poly; Checksum p t) = Ret (crc_of 32 poly p).
Proof. intros Hp. destruct (table32 poly) as (T & t & -> & _ & Hu & Hl & Ht). rewrite go_bind_ret. unfold Checksum. rewrite Hu. by apply update_zero. Qed.

Lemma ieee_sum p : Forall is_byte p → ChecksumIEEE p = Ret (crc_of 32 IEEE p).
Proof.
  intros Hp. unfold ChecksumIEEE, entries. destruct (makeTable_exists IEEE) as (t & -> & Hl & Ht). rewrite go_bind_ret. by apply update_zero.
Qed.

Lemma crc32_pieces poly p q : 0 <= poly < 2 ^ 32 → Forall is_byte p → Forall is_byte q →
  (t ← MakeTable poly; '(d, n) ← Write (New t) p; '(d, k) ← Write d q; Ret (Sum32 d, n, k)) = Ret (crc_of 32 poly (p ++ q), zlen p, zlen q).
Proof.
  intros Hpoly Hp Hq. destruct (table32 poly) as (T & t & -> & _ & Hu & Hl & Ht). destruct (two_pieces 32 poly t p q ltac:(lia) Hpoly Hl Ht Hp Hq) as (c & E1 & E2).
  rewrite go_bind_ret. unfold Write, New. cbn [crc tab]. rewrite Hu, E1. cbn [crc tab]. rewrite !go_bind_ret. cbn [crc tab]. rewrite Hu, E2. done.
Qed.
