(* ===== verification/Crc64.v ===== *)
(** The 64-bit cyclic redundancy check: [src/src/hash/crc64/crc64.go]. *)
From S2P Require Import Prelude.
From S2P Require Import Crc.
From S2P Require Import Crc32.

Definition Size : Z := 8.
Definition ISO : Z := 0xD800000000000000.
Definition ECMA : Z := 0xC96C5795D7870F42.
Definition MakeTable (poly : Z) : go (list Z) := makeTable poly.
Definition Update (crc : Z) (tab p : list Z) : go Z := update 64 crc tab p.

Record digest := Digest { crc : Z; tab : list Z }.
Definition New (tab : list Z) : digest := Digest 0 tab.
Definition Reset (d : digest) : digest := Digest 0 (tab d).
Definition Write (d : digest) (p : list Z) : go (digest * Z) := c ← update 64 (crc d) (tab d) p; Ret (Digest c (tab d), zlen p).
Definition Sum64 (d : digest) : Z := crc d.
Definition Sum (d : digest) (l : list Z) : list Z :=
  let s := Sum64 d in
  l ++ [u8 (Z.shiftr s 56); u8 (Z.shiftr s 48); u8 (Z.shiftr s 40); u8 (Z.shiftr s 32); u8 (Z.shiftr s 24); u8 (Z.shiftr s 16); u8 (Z.shiftr s 8); u8 s].
Definition Checksum (data tab : list Z) : go Z := update 64 0 tab data.

(** The check value: of "123456789". *)
Example crc64_check : (t ← MakeTable ECMA; Checksum [49; 50; 51; 52; 53; 54; 55; 56; 57] t) = Ret 0x995DC9BBDF1939FA.
Proof. by vm_compute. Qed.

Lemma crc64_sum poly p : Forall is_byte p → (t ← MakeTable poly; Checksum p t) = Ret (crc_of 64 poly p).
Proof.
  intros Hp. unfold Checksum, MakeTable. destruct (makeTable_exists poly) as (t & -> & Hl & Ht). rewrite go_bind_ret. by apply update_zero.
Qed.

Lemma crc64_pieces poly p q : 0 <= poly < 2 ^ 64 → Forall is_byte p → Forall is_byte q →
  (t ← MakeTable poly; '(d, n) ← Write (New t) p; '(d, k) ← Write d q; Ret (Sum64 d, n, k)) = Ret (crc_of 64 poly (p ++ q), zlen p, zlen q).
Proof.
  intros Hpoly Hp Hq. unfold MakeTable. destruct (makeTable_exists poly) as (t & -> & Hl & Ht). destruct (two_pieces 64 poly t p q ltac:(lia) Hpoly Hl Ht Hp Hq) as (c & E1 & E2).
  rewrite go_bind_ret. unfold Write, New. cbn [crc tab]. rewrite E1, !go_bind_ret. cbn [crc tab]. rewrite E2. done.
Qed.

(** C37: For every polynomial, crc32 and crc64 compute the checksum that a shift register
    computes bit by bit, also when the data is written in pieces; and if the polynomial has
    its highest bit set, data of the same length that differs within a burst of at most 32 (or 64)
    bits has a different checksum. *)
Theorem crc_checksums poly poly' p q : 0 <= poly < 2 ^ 32 → 0 <= poly' < 2 ^ 64 → Forall is_byte p → Forall is_byte q →
  ((t ← Crc32.MakeTable poly; Crc32.Checksum p t) = Ret (crc_of 32 poly p) ∧ Crc32.ChecksumIEEE p = Ret (crc_of 32 Crc32.IEEE p) ∧
   (t ← MakeTable poly'; Checksum p t) = Ret (crc_of 64 poly' p)) ∧
  ((t ← Crc32.MakeTable poly; '(d, n) ← Crc32.Write (Crc32.New t) p; '(d, k) ← Crc32.Write d q; Ret (Crc32.Sum32 d, n, k)) = Ret (crc_of 32 poly (p ++ q), zlen p, zlen q) ∧
   (t ← MakeTable poly'; '(d, n) ← Write (New t) p; '(d, k) ← Write d q; Ret (Sum64 d, n, k)) = Ret (crc_of 64 poly' (p ++ q), zlen p, zlen q)) ∧
  (∀ pre x y post, bits_of p = pre ++ x ++ post → bits_of q = pre ++ y ++ post → length x = length y → x ≠ y →
    (Z.testbit poly 31 = true → Z.of_nat (length x) <= 32 → crc_of 32 poly p ≠ crc_of 32 poly q) ∧
    (Z.testbit poly' 63 = true → Z.of_nat (length x) <= 64 → crc_of 64 poly' p ≠ crc_of 64 poly' q)).
Proof.
  intros Hp1 Hp2 Hp Hq. split; [|split].
  - split; [|split]; [apply crc32_sum|apply ieee_sum|apply crc64_sum]; done.
  - split; [apply crc32_pieces|apply crc64_pieces]; done.
  - intros pre x y post Ep Eq Hl Hne. split; intros Ht Hx; eapply crc_burst; try exact Ep; try exact Eq; done.
Qed.

Example crc_checksums_witness : (t ← Crc32.MakeTable Crc32.Koopman; Crc32.Checksum [1; 2; 3] t) = Ret (crc_of 32 Crc32.Koopman [1; 2; 3]) ∧
  crc_of 32 Crc32.Koopman [1; 2; 3] ≠ crc_of 32 Crc32.Koopman [1; 77; 3].
Proof.
  assert (Forall is_byte [1; 2; 3] ∧ Forall is_byte [1; 77; 3]) as [Hp Hq] by (by rewrite !Forall_cons).
  destruct (crc_checksums Crc32.Koopman ISO [1; 2; 3] [1; 77; 3] ltac:(unfold Crc32.Koopman; lia) ltac:(unfold ISO; lia)
    Hp Hq) as ((H & _) & _ & Hb).
  split; [exact H|]. apply (Hb (bits_of [1]) (bits_of [2]) (bits_of [77]) (bits_of [3])); [reflexivity|reflexivity|reflexivity|discriminate|reflexivity|discriminate].
Defined.
