(* ===== verification/Checksums.v ===== *)
(** The checksums [src/src/hash/adler32/adler32.go] and the hashes
    [src/src/hash/fnv/fnv.go]. *)
From S2P Require Import Prelude.

Module Adler32.
Definition md : Z := 65521.
Definition nmax : Z := 5552.
Definition Size : Z := 4.

(** A [digest] is a uint32: [s1] in its low half, [s2] in its high half. *)
Definition New : Z := 1.

Definition add_bytes (p : list Z) (s1 s2 : Z) : go (Z * Z) :=
  for_each p (λ x '(s1, s2), let s1 := u32 (s1 + x) in Ret (s1, u32 (s2 + s1))) (s1, s2).

Definition update (d : Z) (p : list Z) : go Z :=
  let s1 := Z.land d 0xffff in
  let s2 := Z.shiftr d 16 in
  '(s1, s2, _) ← while (S (length p)) (λ '(s1, s2, p), Ret (0 <? zlen p)) (λ '(s1, s2, p),
    '(p, q) ← (if nmax <? zlen p then a ← slice_to p nmax; b ← slice_from p nmax; Ret (a, b) else Ret (p, []));
    '(s1, s2) ← add_bytes p s1 s2;
    Ret (s1 mod md, s2 mod md, q)) (s1, s2, p);
  Ret (Z.lor (u32 (Z.shiftl s2 16)) s1).

Definition Write (d : Z) (p : list Z) : go (Z * Z) := d ← update d p; Ret (d, zlen p).
Definition Sum (d : Z) (l : list Z) : list Z := l ++ [u8 (Z.shiftr d 24); u8 (Z.shiftr d 16); u8 (Z.shiftr d 8); u8 d].
Definition Checksum (data : list Z) : go Z := update 1 data.
End Adler32.

Module Fnv.
Definition offset32 : Z := 2166136261.
Definition offset64 : Z := 14695981039346656037.
Definition prime32 : Z := 16777619.
Definition prime64 : Z := 1099511628211.

Definition Write32 (hash : Z) (data : list Z) : go Z := for_each data (λ c hash, Ret (Z.lxor (u32 (hash * prime32)) c)) hash.
Definition Write32a (hash : Z) (data : list Z) : go Z := for_each data (λ c hash, Ret (u32 (Z.lxor hash c * prime32))) hash.
Definition Write64 (hash : Z) (data : list Z) : go Z := for_each data (λ c hash, Ret (Z.lxor (u64 (hash * prime64)) c)) hash.
Definition Write64a (hash : Z) (data : list Z) : go Z := for_each data (λ c hash, Ret (u64 (Z.lxor hash c * prime64))) hash.

Definition Sum32 (v : Z) (l : list Z) : list Z := l ++ [u8 (Z.shiftr v 24); u8 (Z.shiftr v 16); u8 (Z.shiftr v 8); u8 v].
Definition Sum64 (v : Z) (l : list Z) : list Z :=
  l ++ [u8 (Z.shiftr v 56); u8 (Z.shiftr v 48); u8 (Z.shiftr v 40); u8 (Z.shiftr v 32); u8 (Z.shiftr v 24); u8 (Z.shiftr v 16); u8 (Z.shiftr v 8); u8 v].
End Fnv.

Example adler_check : Adler32.Checksum [87; 105; 107; 105; 112; 101; 100; 105; 97] = Ret 0x11E60398.
Proof. by vm_compute. Qed.
Example fnv_check : Fnv.Write32a Fnv.offset32 [97] = Ret 0xe40c292c ∧ Fnv.Write64 Fnv.offset64 [97] = Ret 0xaf63bd4c8601b7be.
Proof. by vm_compute. Qed.

(** * Adler-32 *)

(** The two sums of RFC 1950, not reduced: of the bytes, and of the first sums. *)
Definition total (p : list Z) : Z := foldr Z.add 0 p.
Fixpoint weighted (p : list Z) : Z := match p with [] => 0 | x :: p => (zlen p + 1) * x + weighted p end.
Definition adler (s1 s2 : Z) (p : list Z) : Z :=
  (s2 + zlen p * s1 + weighted p) mod 65521 * 65536 + (s1 + total p) mod 65521.

Lemma total_app p q : total (p ++ q) = total p + total q.
Proof. induction p as [|x p IH]; [done|]. simpl. unfold total in *. simpl. lia. Qed.
Lemma weighted_app p q : weighted (p ++ q) = weighted p + zlen q * total p + weighted q.
Proof. induction p as [|x p IH]; [simpl; lia|]. simpl. rewrite IH, zlen_app. unfold total. simpl. fold (total p). lia. Qed.

Lemma sums_bound p : Forall is_byte p → 0 <= total p <= 255 * zlen p ∧ 0 <= 2 * weighted p <= 255 * (zlen p * (zlen p + 1)).
Proof.
  induction 1 as [|x p Hx Hp [IH1 IH2]]; [done|]. unfold total in *. simpl. replace (zlen (x :: p)) with (zlen p + 1) by (unfold zlen; simpl; lia).
  pose proof (zlen_nonneg p). unfold is_byte in Hx. split; [lia|]. nia.
Qed.

Lemma add_bytes_spec p s1 s2 : Forall is_byte p → zlen p <= 5552 → 0 <= s1 < 65536 → 0 <= s2 < 65536 →
  Adler32.add_bytes p s1 s2 = Ret (s1 + total p, s2 + zlen p * s1 + weighted p).
Proof.
  intros Hp Hl H1 H2. match goal with |- ?m = Ret ?r => assert (m ⇓ λ r', r' = r) as H'; [|by apply wp_ex in H' as (? & -> & ->)] end.
  unfold Adler32.add_bytes. apply wp_for_each with (I := λ d '(a, b), a = s1 + total d ∧ b = s2 + zlen d * s1 + weighted d).
  - intros d x rest [a b] E (-> & ->). apply wp_ret. assert (Forall is_byte (d ++ [x])) as Hd by (subst p; rewrite Forall_app in Hp; rewrite Forall_app; destruct Hp as [? Hr]; apply Forall_cons in Hr as [? _]; by rewrite Forall_singleton).
    assert (zlen (d ++ [x]) <= 5552) as Hn by (subst p; rewrite zlen_app in *; unfold zlen in *; simpl in *; lia).
    destruct (sums_bound _ Hd) as [B1 B2]. rewrite total_app, weighted_app in *. replace (total [x]) with x in * by (unfold total; simpl; lia).
    replace (weighted [x]) with x in * by (simpl; change (zlen (@nil Z)) with 0; lia). rewrite zlen_app in *. change (zlen [x]) with 1 in *. pose proof (zlen_nonneg d). set (n := zlen d) in *.
    assert ((n + 1) * (n + 1 + 1) <= 5552 * 5553) by (apply Z.mul_le_mono_nonneg; lia).
    assert ((n + 1) * s1 <= 5552 * 65535) by (apply Z.mul_le_mono_nonneg; lia). assert (0 <= n * s1) by (apply Z.mul_nonneg_nonneg; lia).
    apply Forall_app in Hd as [Hd Hx]. apply Forall_singleton in Hx. unfold is_byte in Hx. destruct (sums_bound _ Hd) as [B1' B2'].
    rewrite (wrap_small 32 (s1 + total d + x)) by lia. rewrite wrap_small by lia. lia.
  - unfold total. simpl. change (zlen (@nil Z)) with 0. lia.
  - intros [a b] (-> & ->). done.
Qed.

Lemma mod_shift a b k m : a = b + k * m → a mod m = b mod m.
Proof. intros ->. destruct (decide (m = 0)) as [->|]; [by rewrite !Z.mod_0_r; lia|by apply Z.mod_add]. Qed.

(** The halves of a digest. *)
Lemma halves_of s1 s2 : 0 <= s1 < 65536 → Z.land (s2 * 65536 + s1) 0xffff = s1 ∧ Z.shiftr (s2 * 65536 + s1) 16 = s2.
Proof.
  intros H. split.
  - change 0xffff with (2 ^ 16 - 1). rewrite land_mask by done. change (2 ^ 16) with 65536. rewrite Z.add_comm, Z.mod_add by done. by apply Z.mod_small.
  - rewrite Z.shiftr_div_pow2 by done. change (2 ^ 16) with 65536. rewrite Z.add_comm, Z.div_add by done. rewrite Z.div_small by done. lia.
Qed.

Lemma adler_update_spec s1 s2 p : 0 <= s1 < 65521 → 0 <= s2 < 65521 → Forall is_byte p →
  Adler32.update (s2 * 65536 + s1) p = Ret (adler s1 s2 p).
Proof.
  intros H1 H2 Hp. match goal with |- ?m = Ret ?r => assert (m ⇓ λ r', r' = r) as H'; [|by apply wp_ex in H' as (? & -> & ->)] end.
  unfold Adler32.update. destruct (halves_of s1 s2 ltac:(lia)) as [-> ->].
  eapply wp_bind_mono with (Q := λ '(a, b, _), 0 <= a < 65521 ∧ 0 <= b < 65521 ∧ adler s1 s2 p = b * 65536 + a).
  - apply wp_while with (I := λ '(a, b, q), 0 <= a < 65521 ∧ 0 <= b < 65521 ∧ Forall is_byte q ∧ adler s1 s2 p = adler a b q) (meas := λ '(_, q), zlen q); [|done|unfold zlen; lia].
    intros [[a b] q] (Ha & Hb & Hq & E). apply wp_ret. destruct (Z.ltb_spec 0 (zlen q)) as [Hl|Hl].
    + eapply wp_bind_mono with (Q := λ '(x, y), q = x ++ y ∧ 0 < zlen x <= 5552).
      { unfold Adler32.nmax. destruct (Z.ltb_spec 5552 (zlen q)); [|apply wp_ret; rewrite app_nil_r; split; [done|lia]].
        rewrite slice_to_eq, go_bind_ret, slice_from_eq by lia. apply wp_ret. rewrite take_drop. split; [done|].
        unfold zlen in *. rewrite length_take. lia. }
      intros [x y] (-> & Hx). apply Forall_app in Hq as [Hqx Hqy]. rewrite add_bytes_spec, go_bind_ret by (done || lia). apply wp_ret. unfold Adler32.md.
      pose proof (Z.mod_pos_bound (a + total x) 65521 ltac:(lia)). pose proof (Z.mod_pos_bound (b + zlen x * a + weighted x) 65521 ltac:(lia)).
      split; [|rewrite zlen_app; pose proof (zlen_nonneg y); lia]. split; [done|]. split; [done|]. split; [done|]. rewrite E. unfold adler. rewrite total_app, weighted_app, zlen_app.
      pose proof (Z.div_mod (a + total x) 65521 ltac:(lia)) as E1. pose proof (Z.div_mod (b + zlen x * a + weighted x) 65521 ltac:(lia)) as E2.
      set (a' := (a + total x) mod 65521) in *. set (b' := (b + zlen x * a + weighted x) mod 65521) in *. set (k1 := (a + total x) / 65521) in *. set (k2 := (b + _ + _) / 65521) in *.
      f_equal; [f_equal|]; [apply (mod_shift _ _ (k2 + zlen y * k1))|apply (mod_shift _ _ k1)]; [|lia].
      clearbody a' b' k1 k2. clear -E1 E2. replace (total x) with (65521 * k1 + a' - a) by lia. lia.
    + destruct q; [|unfold zlen in Hl; simpl in Hl; lia]. split; [done|]. split; [done|]. rewrite E. unfold adler. simpl. change (zlen (@nil Z)) with 0. rewrite !Z.mod_small by (unfold total; simpl; lia). unfold total. simpl. lia.
  - intros [[a b] q] (Ha & Hb & ->). apply wp_ret. rewrite Z.shiftl_mul_pow2 by done. rewrite wrap_small by lia. change 65536 with (2 ^ 16) in *. rewrite (lor_high_add _ 16) by (lia || by apply Z.mod_mul). done.
Qed.

(** Data in two pieces. *)
Lemma adler_app s1 s2 p q : 0 <= s1 < 65521 → 0 <= s2 < 65521 → Forall is_byte p → Forall is_byte q →
  (d ← Adler32.update (s2 * 65536 + s1) p; Adler32.update d q) = Adler32.update (s2 * 65536 + s1) (p ++ q).
Proof.
  intros H1 H2 Hp Hq. rewrite !adler_update_spec by (done || by apply Forall_app). rewrite go_bind_ret. unfold adler at 1.
  rewrite adler_update_spec by (done || by apply Z.mod_pos_bound). unfold adler. rewrite total_app, weighted_app, zlen_app. f_equal.
  pose proof (Z.div_mod (s1 + total p) 65521 ltac:(lia)) as E1. pose proof (Z.div_mod (s2 + zlen p * s1 + weighted p) 65521 ltac:(lia)) as E2.
  set (a' := (s1 + total p) mod 65521) in *. set (b' := (s2 + zlen p * s1 + weighted p) mod 65521) in *. set (k1 := (s1 + total p) / 65521) in *. set (k2 := (s2 + _ + _) / 65521) in *.
  f_equal; [f_equal|]; [apply (mod_shift _ _ (- k2 - zlen q * k1))|apply (mod_shift _ _ (- k1))]; [|lia].
  clearbody a' b' k1 k2. clear -E1 E2. replace (total p) with (65521 * k1 + a' - s1) by lia. lia.
Qed.

(** * FNV *)

Section fnv.
Context (w prime : Z) (Hw : 8 <= w) (Hodd : Z.odd prime = true).

Lemma odd_coprime n : 0 <= n → Z.gcd (2 ^ n) prime = 1.
Proof using Hodd.
  intros Hn. apply Z.gcd_unique; [lia|apply Z.divide_1_l..|]. intros q Hq Hq'.
  revert Hq. pattern n. apply natlike_ind; [done| |done]. intros x Hx IH Hd. apply IH. rewrite Z.pow_succ_r in Hd by done.
  apply (Z.gauss q 2); [done|]. pose proof (Z.gcd_nonneg q 2) as Hg. pose proof (Z.gcd_divide_r q 2) as H2. apply Z.divide_pos_le in H2 as Hle; [|done].
  assert (Z.gcd q 2 ≠ 0) by (intros E; apply Z.gcd_eq_0_r in E; done). destruct (decide (Z.gcd q 2 = 2)) as [E|]; [|lia]. exfalso.
  pose proof (Z.gcd_divide_l q 2) as Hl. rewrite E in Hl. destruct (Z.divide_trans _ _ _ Hl Hq') as [k Hk]. rewrite Hk, Z.odd_mul, andb_false_r in Hodd. done.
Qed.

Lemma mul_inj a b : 0 <= a < 2 ^ w → 0 <= b < 2 ^ w → wrap w (a * prime) = wrap w (b * prime) → a = b.
Proof using Hw Hodd.
  intros Ha Hb E. unfold wrap in E. assert (2 ^ w | (a - b) * prime)%Z as Hd.
  { exists (a * prime / 2 ^ w - b * prime / 2 ^ w). pose proof (Z.div_mod (a * prime) (2 ^ w) ltac:(lia)). pose proof (Z.div_mod (b * prime) (2 ^ w) ltac:(lia)). lia. }
  rewrite Z.mul_comm in Hd. apply Z.gauss in Hd; [|apply odd_coprime; lia]. destruct Hd as [k Hk]. assert (k = 0) as -> by nia. lia.
Qed.

Definition fnv1 (h c : Z) : Z := Z.lxor (wrap w (h * prime)) c.
Definition fnv1a (h c : Z) : Z := wrap w (Z.lxor h c * prime).

(** A step that keeps different hashes different, and different bytes. *)
Definition detects (f : Z → Z → Z) : Prop :=
  (∀ h c, 0 <= h < 2 ^ w → is_byte c → 0 <= f h c < 2 ^ w) ∧
  (∀ h k c, 0 <= h < 2 ^ w → 0 <= k < 2 ^ w → is_byte c → f h c = f k c → h = k) ∧
  (∀ h c e, 0 <= h < 2 ^ w → is_byte c → is_byte e → f h c = f h e → c = e).

Lemma xor_cancel_l a b c : Z.lxor a b = Z.lxor a c → b = c.
Proof using. intros E. rewrite <- (Z.lxor_0_l b), <- (Z.lxor_0_l c), <- (Z.lxor_nilpotent a), !Z.lxor_assoc. by rewrite E. Qed.
Lemma xor_cancel_r a b c : Z.lxor b a = Z.lxor c a → b = c.
Proof using. rewrite !(Z.lxor_comm _ a). apply xor_cancel_l. Qed.

Lemma xor_bound h c : 0 <= h < 2 ^ w → is_byte c → 0 <= Z.lxor h c < 2 ^ w.
Proof using Hw.
  intros Hh Hc. unfold is_byte in Hc. assert (2 ^ 8 <= 2 ^ w) by (by apply Z.pow_le_mono_r). split; [apply Z.lxor_nonneg; lia|].
  destruct (decide (Z.lxor h c = 0)) as [->|]; [lia|]. assert (0 <= Z.lxor h c) by (apply Z.lxor_nonneg; lia). apply Z.log2_lt_pow2; [lia|].
  eapply Z.le_lt_trans; [apply Z.log2_lxor; lia|]. apply Z.max_lub_lt.
  - destruct (decide (h = 0)) as [->|]; [simpl; lia|]. apply Z.log2_lt_pow2; lia.
  - destruct (decide (c = 0)) as [->|]; [simpl; lia|]. apply Z.log2_lt_pow2; lia.
Qed.

Lemma fnv1_detects : detects fnv1.
Proof using Hw Hodd.
  assert (∀ x, 0 <= wrap w x < 2 ^ w) as Hb by (intros; apply wrap_bound; lia). unfold fnv1. split; [|split].
  - intros h c Hh Hc. by apply xor_bound.
  - intros h k c Hh Hk Hc E. by apply xor_cancel_r, mul_inj in E.
  - intros h c e Hh Hc He E. by apply xor_cancel_l in E.
Qed.
Lemma fnv1a_detects : detects fnv1a.
Proof using Hw Hodd.
  unfold fnv1a. split; [|split].
  - intros h c Hh Hc. apply wrap_bound. lia.
  - intros h k c Hh Hk Hc E. apply mul_inj in E; [by apply xor_cancel_r in E|by apply xor_bound..].
  - intros h c e Hh Hc He E. apply mul_inj in E; [by apply xor_cancel_l in E|by apply xor_bound..].
Qed.

Lemma for_each_ret (f : Z → Z → Z) p h : for_each p (λ c h, Ret (f h c)) h = Ret (foldl f h p).
Proof using. revert h. induction p as [|c p IH]; intros h; [done|]. simpl. apply IH. Qed.

Lemma detects_change f pre x y post h : detects f → 0 <= h < 2 ^ w → Forall is_byte (pre ++ x :: post) → is_byte y → x ≠ y →
  foldl f h (pre ++ x :: post) ≠ foldl f h (pre ++ y :: post).
Proof using.
  intros (Hb & Hh & Hc) Hh0 Hp Hy Hne. apply Forall_app in Hp as [Hpre Hp]. apply Forall_cons in Hp as [Hx Hpost]. rewrite !foldl_app. simpl.
  assert (0 <= foldl f h pre < 2 ^ w) as Hk. { clear -Hb Hh0 Hpre. revert h Hh0. induction Hpre as [|c pre Hcb _ IH]; intros h Hh0; [done|]. simpl. apply IH. by apply Hb. }
  assert (∀ s t, 0 <= s < 2 ^ w → 0 <= t < 2 ^ w → foldl f s post = foldl f t post → s = t) as Hinj.
  { clear -Hb Hh Hpost. induction Hpost as [|c post Hcb _ IH]; intros s t Hs Ht E; [done|]. simpl in E. apply IH in E; [|by apply Hb..]. by eapply Hh. }
  intros E. apply Hinj in E; [|by apply Hb..]. apply Hne. by eapply Hc.
Qed.
End fnv.

(** C38: The Adler-32 checksum of data is that of RFC 1950 (the sum of the bytes and the sum of the
    sums, each modulo 65521): the reductions that [update] puts off lose nothing to 32 bits; data may be
    written in pieces. Each of the four FNV hashes changes when one byte changes. *)
Theorem adler_fnv p q : Forall is_byte p → Forall is_byte q →
  Adler32.Checksum p = Ret ((zlen p + weighted p) mod 65521 * 65536 + (1 + total p) mod 65521) ∧
  ('(d, n) ← Adler32.Write Adler32.New p; '(d, k) ← Adler32.Write d q; Ret (d, n, k)) = (d ← Adler32.Checksum (p ++ q); Ret (d, zlen p, zlen q)) ∧
  ∀ pre x y post, p = pre ++ x :: post → q = pre ++ y :: post → x ≠ y →
    (∀ h, 0 <= h < 2 ^ 32 → Fnv.Write32 h p ≠ Fnv.Write32 h q ∧ Fnv.Write32a h p ≠ Fnv.Write32a h q) ∧
    (∀ h, 0 <= h < 2 ^ 64 → Fnv.Write64 h p ≠ Fnv.Write64 h q ∧ Fnv.Write64a h p ≠ Fnv.Write64a h q).
Proof.
  intros Hp Hq. split; [|split].
  - unfold Adler32.Checksum. change 1 with (0 * 65536 + 1) at 1. rewrite adler_update_spec by (done || lia). unfold adler. do 4 f_equal. lia.
  - unfold Adler32.Write, Adler32.Checksum, Adler32.New. pose proof (adler_app 1 0 p q ltac:(lia) ltac:(lia) Hp Hq) as E. change (0 * 65536 + 1) with 1 in E.
    rewrite <- E. destruct (Adler32.update 1 p) as [d| |]; simpl; [|done..]. by destruct (Adler32.update d q).
  - intros pre x y post -> -> Hne. assert (is_byte y) as Hy by (apply Forall_app in Hq as [_ Hq]; by apply Forall_cons in Hq as [? _]).
    split; intros h Hh; split; unfold Fnv.Write32, Fnv.Write32a, Fnv.Write64, Fnv.Write64a; intros E.
    + rewrite !(for_each_ret (fnv1 32 Fnv.prime32)) in E. injection E. apply (detects_change 32); try done. by apply fnv1_detects.
    + rewrite !(for_each_ret (fnv1a 32 Fnv.prime32)) in E. injection E. apply (detects_change 32); try done. by apply fnv1a_detects.
    + rewrite !(for_each_ret (fnv1 64 Fnv.prime64)) in E. injection E. apply (detects_change 64); try done. by apply fnv1_detects.
    + rewrite !(for_each_ret (fnv1a 64 Fnv.prime64)) in E. injection E. apply (detects_change 64); try done. by apply fnv1a_detects.
Qed.

Example adler_fnv_witness : Adler32.Checksum [97; 98] = Ret ((2 + (2 * 97 + 98)) mod 65521 * 65536 + (1 + (97 + 98)) mod 65521) ∧ Fnv.Write64a 0 [97; 98] ≠ Fnv.Write64a 0 [97; 99].
Proof.
  assert (Forall is_byte [97; 98] ∧ Forall is_byte [97; 99]) as [Hp Hq] by (by rewrite !Forall_cons).
  destruct (adler_fnv [97; 98] [97; 99] Hp Hq) as (H & _ & Hf). split; [exact H|]. apply (Hf [97] 98 99 []); [done|done|done|lia].
Defined.
