(* ===== verification/BigWord.v ===== *)
(** The words of multi-precision numbers: the elementary operations of
    [src/src/math/big/arith.go], on words of 32 or 64 bits. *)
From S2P Require Import Prelude.

(** The width of [uintptr]. *)
Class Machine := { uintptr : Z; uintptr_cases : uintptr = 32 ∨ uintptr = 64 }.
Definition machine32 : Machine := {| uintptr := 32; uintptr_cases := or_introl eq_refl |}.
Definition machine64 : Machine := {| uintptr := 64; uintptr_cases := or_intror eq_refl |}.

Section word.
Context `{M : Machine}.

Definition _m : Z := 2 ^ uintptr - 1.
Definition _logS : Z := Z.land (Z.shiftr _m 8) 1 + Z.land (Z.shiftr _m 16) 1 + Z.land (Z.shiftr _m 32) 1.
Definition _S : Z := Z.shiftl 1 _logS.
Definition _W : Z := Z.shiftl _S 3.
Definition _B : Z := Z.shiftl 1 _W.
Definition _M : Z := _B - 1.
Definition _W2 : Z := _W / 2.
Definition _B2 : Z := Z.shiftl 1 _W2.
Definition _M2 : Z := _B2 - 1.

(** The value of an expression of type [Word]. *)
Definition uw (x : Z) : Z := wrap _W x.
Definition is_word (x : Z) : Prop := 0 <= x < _B.

Definition addWW_g (x y c : Z) : Z * Z :=
  let yc := uw (y + c) in
  let z0 := uw (x + yc) in
  (if (z0 <? x) || (yc <? y) then 1 else 0, z0).

Definition subWW_g (x y c : Z) : Z * Z :=
  let yc := uw (y + c) in
  let z0 := uw (x - yc) in
  (if (x <? z0) || (yc <? y) then 1 else 0, z0).

Definition mulWW_g (x y : Z) : Z * Z :=
  let x0 := Z.land x _M2 in
  let x1 := Z.shiftr x _W2 in
  let y0 := Z.land y _M2 in
  let y1 := Z.shiftr y _W2 in
  let w0 := uw (x0 * y0) in
  let t := uw (uw (x1 * y0) + Z.shiftr w0 _W2) in
  let w1 := Z.land t _M2 in
  let w2 := Z.shiftr t _W2 in
  let w1 := uw (w1 + uw (x0 * y1)) in
  (uw (uw (uw (x1 * y1) + w2) + Z.shiftr w1 _W2), uw (x * y)).

Definition mulAddWWW_g (x y c : Z) : Z * Z :=
  let '(z1, zz0) := mulWW_g x y in
  let z0 := uw (zz0 + c) in
  (if z0 <? zz0 then uw (z1 + 1) else z1, z0).

Definition bitLen_g (x : Z) : go Z :=
  '(x, n) ← while 5 (λ '(x, n), Ret (32768 <=? x)) (λ '(x, n), Ret (Z.shiftr x 16, n + 16)) (x, 0);
  let '(x, n) := if 128 <=? x then (Z.shiftr x 8, n + 8) else (x, n) in
  let '(x, n) := if 8 <=? x then (Z.shiftr x 4, n + 4) else (x, n) in
  let '(x, n) := if 2 <=? x then (Z.shiftr x 2, n + 2) else (x, n) in
  Ret (if 1 <=? x then n + 1 else n).

Definition log2 (x : Z) : go Z := n ← bitLen_g x; Ret (n - 1).
Definition leadingZeros (x : Z) : go Z := n ← bitLen_g x; Ret (_W - n).

(** The correction of a digit of a quotient: [for q >= _B2 || q*vn0 > _B2*rhat+un]. *)
Definition divWW_correct (vn1 vn0 un q rhat : Z) : go Z :=
  loop 3 (λ '(q, rhat),
    if (_B2 <=? q) || (uw (uw (_B2 * rhat) + un) <? uw (q * vn0)) then
      let q := uw (q - 1) in
      let rhat := uw (rhat + vn1) in
      Ret (if _B2 <=? rhat then inr q else inl (q, rhat))
    else Ret (inr q)) (q, rhat).

Definition divWW_g (u1 u0 v : Z) : go (Z * Z) :=
  if v <=? u1 then Ret (_B - 1, _B - 1) else
  s ← leadingZeros v;
  let v := uw (Z.shiftl v s) in
  let vn1 := Z.shiftr v _W2 in
  let vn0 := Z.land v _M2 in
  let un32 := Z.lor (uw (Z.shiftl u1 s)) (Z.shiftr u0 (_W - s)) in
  let un10 := uw (Z.shiftl u0 s) in
  let un1 := Z.shiftr un10 _W2 in
  let un0 := Z.land un10 _M2 in
  let q1 := un32 / vn1 in
  let rhat := uw (un32 - uw (q1 * vn1)) in
  q1 ← divWW_correct vn1 vn0 un1 q1 rhat;
  let un21 := uw (uw (uw (un32 * _B2) + un1) - uw (q1 * v)) in
  let q0 := un21 / vn1 in
  let rhat := uw (un21 - uw (q0 * vn1)) in
  q0 ← divWW_correct vn1 vn0 un0 q0 rhat;
  Ret (uw (uw (q1 * _B2) + q0), Z.shiftr (uw (uw (uw (un21 * _B2) + un0) - uw (q0 * v))) s).
End word.

Example word_run :
  @mulWW_g machine64 (2 ^ 64 - 1) (2 ^ 64 - 1) = (2 ^ 64 - 2, 1) ∧ @divWW_g machine32 5 7 (2 ^ 31 + 3) = Ret (9, 2 ^ 31 - 20) ∧
  @divWW_g machine64 2 1 7 = Ret ((2 * 2 ^ 64 + 1) / 7, (2 * 2 ^ 64 + 1) mod 7) ∧ bitLen_g (2 ^ 63) = Ret 64.
Proof. by vm_compute. Qed.

Section facts.
Context `{M : Machine}.

Lemma _W_cases : _W = 32 ∨ _W = 64.
Proof. unfold _W, _S, _logS, _m. destruct uintptr_cases as [-> | ->]; [left|right]; reflexivity. Qed.

(** The constants as numbers: a word is two halves. *)
Lemma _B_eq : _B = 2 ^ _W.
Proof. unfold _B. rewrite Z.shiftl_mul_pow2; destruct _W_cases; lia. Qed.
Lemma _W2_eq : _W = 2 * _W2 ∧ (_W2 = 16 ∨ _W2 = 32).
Proof. unfold _W2. destruct _W_cases as [-> | ->]; split; (reflexivity || tauto). Qed.
Lemma _B2_eq : _B2 = 2 ^ _W2 ∧ _B = _B2 * _B2 ∧ 65536 <= _B2 ∧ _B2 mod 2 = 0.
Proof.
  unfold _B2. rewrite _B_eq. destruct _W2_eq as [-> [-> | ->]]; rewrite Z.shiftl_mul_pow2 by lia; repeat split; (reflexivity || lia).
Qed.
Lemma _B_bound : 2 ^ 32 <= _B.
Proof. rewrite _B_eq. destruct _W_cases as [-> | ->]; lia. Qed.

Lemma uw_eq x : uw x = x mod _B.
Proof. unfold uw, wrap. by rewrite _B_eq. Qed.
Lemma uw_small x : is_word x → uw x = x.
Proof. intros. rewrite uw_eq. by apply Z.mod_small. Qed.
Lemma uw_word x : is_word (uw x).
Proof. rewrite uw_eq. unfold is_word. pose proof _B_bound. apply Z.mod_pos_bound. lia. Qed.
(** A sum or a difference of two words wraps at most once. *)
Lemma uw_once x : - _B <= x < 2 * _B → uw x = if x <? 0 then x + _B else if x <? _B then x else x - _B.
Proof.
  intros H. rewrite uw_eq. pose proof _B_bound. destruct (Z.ltb_spec x 0); [|destruct (Z.ltb_spec x _B)].
  - rewrite <- (Z.mod_add x 1) by lia. rewrite Z.mod_small; lia.
  - by apply Z.mod_small.
  - rewrite <- (Z.mod_add x (-1)) by lia. rewrite Z.mod_small; lia.
Qed.

Lemma low_half x : Z.land x _M2 = x mod _B2.
Proof. unfold _M2. destruct _B2_eq as (-> & _). apply land_mask. destruct _W2_eq as [_ []]; lia. Qed.
Lemma high_half x : Z.shiftr x _W2 = x / _B2.
Proof. destruct _B2_eq as (-> & _). apply Z.shiftr_div_pow2. destruct _W2_eq as [_ []]; lia. Qed.
Lemma halves x : is_word x → x = x / _B2 * _B2 + x mod _B2 ∧ 0 <= x / _B2 < _B2 ∧ 0 <= x mod _B2 < _B2.
Proof.
  unfold is_word. destruct _B2_eq as (_ & -> & H & _). intros Hx. assert (_B2 ≠ 0 ∧ 0 < _B2) as [H0 H1] by lia.
  pose proof (Z.div_mod x _B2 H0). pose proof (Z.mod_pos_bound x _B2 H1).
  split; [lia|]. split; [|done]. split; [apply Z.div_pos; lia|apply Z.div_lt_upper_bound; lia].
Qed.

Lemma addWW_g_spec x y c : is_word x → is_word y → 0 <= c <= 1 →
  let '(z1, z0) := addWW_g x y c in z1 * _B + z0 = x + y + c ∧ 0 <= z1 <= 1 ∧ is_word z0.
Proof.
  unfold addWW_g, is_word. intros Hx Hy Hc. pose proof _B_bound. rewrite (uw_once (y + c)) by lia.
  destruct (Z.ltb_spec (y + c) 0); [lia|]. destruct (Z.ltb_spec (y + c) _B); rewrite uw_once by lia; bool_cases.
Qed.

Lemma subWW_g_spec x y c : is_word x → is_word y → 0 <= c <= 1 →
  let '(z1, z0) := subWW_g x y c in z0 - z1 * _B = x - y - c ∧ 0 <= z1 <= 1 ∧ is_word z0.
Proof.
  unfold subWW_g, is_word. intros Hx Hy Hc. pose proof _B_bound. rewrite (uw_once (y + c)) by lia.
  destruct (Z.ltb_spec (y + c) 0); [lia|]. destruct (Z.ltb_spec (y + c) _B); rewrite uw_once by lia; bool_cases.
Qed.

Lemma half_product a b : 0 <= a < _B2 → 0 <= b < _B2 → 0 <= a * b <= _B - 2 * _B2 + 1.
Proof. destruct _B2_eq as (_ & -> & _). nia. Qed.

Lemma mulWW_g_spec x y : is_word x → is_word y →
  let '(z1, z0) := mulWW_g x y in z1 * _B + z0 = x * y ∧ is_word z1 ∧ is_word z0.
Proof.
  intros Hx Hy. unfold mulWW_g. rewrite !low_half, !high_half.
  destruct (halves x Hx) as (Ex & Hx1 & Hx0), (halves y Hy) as (Ey & Hy1 & Hy0).
  set (x1 := x / _B2) in *. set (x0 := x mod _B2) in *. set (y1 := y / _B2) in *. set (y0 := y mod _B2) in *.
  destruct _B2_eq as (_ & EB & HB & _).
  pose proof (half_product x0 y0 Hx0 Hy0). pose proof (half_product x1 y0 Hx1 Hy0).
  pose proof (half_product x0 y1 Hx0 Hy1). pose proof (half_product x1 y1 Hx1 Hy1).
  rewrite (uw_small (x0 * y0)), (uw_small (x1 * y0)), (uw_small (x0 * y1)), (uw_small (x1 * y1)) by (unfold is_word; lia).
  destruct (halves (x0 * y0)) as (E0 & Hc & Hc'); [unfold is_word; lia|].
  rewrite (uw_small (x1 * y0 + _)) by (unfold is_word; lia). set (t := x1 * y0 + x0 * y0 / _B2).
  destruct (halves t) as (Et & Ht & Ht'); [unfold is_word; lia|].
  rewrite (uw_small (t mod _B2 + _)) by (unfold is_word; lia). set (w1 := t mod _B2 + x0 * y1).
  destruct (halves w1) as (Ew & Hw & Hw'); [unfold is_word; lia|].
  assert (x * y = (x1 * y1 + t / _B2 + w1 / _B2) * _B + (w1 mod _B2 * _B2 + (x0 * y0) mod _B2)) as E.
  { rewrite Ex, Ey, EB. transitivity (x1 * y1 * (_B2 * _B2) + (x1 * y0 + x0 * y1) * _B2 + x0 * y0); [ring|].
    rewrite E0 at 1. transitivity (x1 * y1 * (_B2 * _B2) + (t + x0 * y1) * _B2 + (x0 * y0) mod _B2); [unfold t; ring|].
    rewrite Et at 1. transitivity (x1 * y1 * (_B2 * _B2) + t / _B2 * _B2 * _B2 + w1 * _B2 + (x0 * y0) mod _B2); [unfold w1; ring|].
    rewrite Ew at 1. ring. }
  assert (0 <= w1 mod _B2 * _B2 + (x0 * y0) mod _B2 < _B) as Hr.
  { rewrite EB. pose proof (Z.mul_le_mono_nonneg_r (w1 mod _B2) (_B2 - 1) _B2). lia. }
  assert (x * y <= (_B - 1) * (_B - 1)) as Hxy by (unfold is_word in *; apply Z.mul_le_mono_nonneg; lia).
  assert (0 <= x1 * y1 + t / _B2 + w1 / _B2 < _B) as Hz1.
  { split; [lia|]. apply (Z.mul_lt_mono_pos_r _B); [lia|]. lia. }
  rewrite (uw_small (x1 * y1 + t / _B2)), (uw_small (_ + w1 / _B2)) by (unfold is_word; lia).
  assert (uw (x * y) = w1 mod _B2 * _B2 + (x0 * y0) mod _B2) as ->.
  { rewrite uw_eq, E, Z.add_comm, Z.mod_add by lia. by apply Z.mod_small. }
  unfold is_word. lia.
Qed.

Lemma mulAddWWW_g_spec x y c : is_word x → is_word y → is_word c →
  let '(z1, z0) := mulAddWWW_g x y c in z1 * _B + z0 = x * y + c ∧ is_word z1 ∧ is_word z0.
Proof.
  intros Hx Hy Hc. unfold mulAddWWW_g. pose proof (mulWW_g_spec x y Hx Hy) as H. destruct (mulWW_g x y) as [z1 zz0].
  destruct H as (E & Hz1 & Hz0). pose proof _B_bound. unfold is_word in *.
  assert (x * y <= (_B - 1) * (_B - 1)) as Hxy by (apply Z.mul_le_mono_nonneg; lia).
  rewrite uw_once by lia. destruct (Z.ltb_spec (zz0 + c) 0); [lia|]. destruct (Z.ltb_spec (zz0 + c) _B).
  - rewrite (proj2 (Z.ltb_ge _ _)) by lia. lia.
  - rewrite (proj2 (Z.ltb_lt _ _)) by lia.
    assert (z1 + 1 < _B) by (apply (Z.mul_lt_mono_pos_r _B); lia). rewrite uw_small by (unfold is_word; lia). lia.
Qed.

(** ** Lengths *)

(** The number of bits of a number. *)
Definition bits (x : Z) : Z := if x =? 0 then 0 else Z.log2 x + 1.

Lemma bits_shift x k : 1 <= k → 2 ^ (k - 1) <= x → bits x = bits (Z.shiftr x k) + k.
Proof.
  intros Hk Hx. pose proof (Z.pow_pos_nonneg 2 (k - 1) ltac:(lia) ltac:(lia)).
  assert (2 ^ k = 2 * 2 ^ (k - 1)) as E by (rewrite <- Z.pow_succ_r by lia; f_equal; lia).
  unfold bits at 1. rewrite (proj2 (Z.eqb_neq x 0)) by lia. unfold bits. destruct (Z.ltb_spec x (2 ^ k)) as [Hlt|Hge].
  - rewrite Z.shiftr_div_pow2, Z.div_small by lia. change (0 =? 0) with true. cbv iota.
    rewrite (Z.log2_unique x (k - 1)); [lia|lia|]. replace (Z.succ (k - 1)) with k by lia. lia.
  - rewrite Z.log2_shiftr by lia. assert (0 < Z.shiftr x k) by (rewrite Z.shiftr_div_pow2 by lia; apply Z.div_str_pos; lia).
    rewrite (proj2 (Z.eqb_neq _ 0)) by lia. assert (k <= Z.log2 x) by (apply Z.log2_le_pow2; lia). lia.
Qed.

Lemma bits_nonneg x : 0 <= bits x.
Proof. unfold bits. destruct (x =? 0); [done|]. pose proof (Z.log2_nonneg x). lia. Qed.
Lemma bits_le x n : 0 <= n → 0 <= x < 2 ^ n → 0 <= bits x <= n.
Proof.
  intros Hn Hx. unfold bits. destruct (Z.eqb_spec x 0); [lia|]. pose proof (Z.log2_nonneg x).
  assert (Z.log2 x < n) by (apply Z.log2_lt_pow2; lia). lia.
Qed.

Lemma bits_bound x : 0 <= x → x < 2 ^ bits x ∧ (x ≠ 0 → 2 ^ (bits x - 1) <= x).
Proof.
  intros Hx. unfold bits. destruct (Z.eqb_spec x 0) as [->|]; [done|]. replace (Z.log2 x + 1 - 1) with (Z.log2 x) by lia.
  pose proof (Z.log2_spec x ltac:(lia)). rewrite Z.add_1_r. lia.
Qed.

Lemma shift_step x k j : 0 <= k → 0 <= j → 0 <= x < 2 ^ (j + k) → 0 <= Z.shiftr x k < 2 ^ j.
Proof.
  intros Hk Hj Hx. rewrite Z.shiftr_div_pow2 by done. rewrite Z.pow_add_r in Hx by done.
  pose proof (Z.pow_pos_nonneg 2 k ltac:(lia) Hk). split; [apply Z.div_pos; lia|apply Z.div_lt_upper_bound; lia].
Qed.

(** One of the tests of [bitLen]: below [2 ^ j] after it. *)
Lemma bits_step y n k j : 1 <= k → k = j + 1 → 0 <= y < 2 ^ (j + k) → ∃ y' n',
  (if 2 ^ j <=? y then (Z.shiftr y k, n + k) else (y, n)) = (y', n') ∧ 0 <= y' < 2 ^ j ∧ bits y + n = bits y' + n'.
Proof.
  intros Hk Hj Hy. destruct (Z.leb_spec (2 ^ j) y); do 2 eexists; (split; [reflexivity|]).
  - split; [apply shift_step; lia|]. pose proof (bits_shift y k Hk ltac:(by replace (k - 1) with j by lia)). lia.
  - lia.
Qed.

Lemma bitLen_g_spec x : is_word x → bitLen_g x = Ret (bits x).
Proof.
  intros Hx. assert (0 <= x < 2 ^ 64) as Hx64.
  { unfold is_word in Hx. rewrite _B_eq in Hx. destruct _W_cases as [E|E]; rewrite E in Hx; lia. }
  match goal with |- ?m = Ret ?r => assert (m ⇓ λ r', r' = r) as H; [|by apply wp_ex in H as (? & -> & ->)] end.
  unfold bitLen_g. eapply wp_bind_mono with (Q := λ '(y, n), 0 <= y < 2 ^ 15 ∧ bits x = bits y + n).
  { apply wp_while with (I := λ '(y, n), 0 <= y < 2 ^ 64 ∧ bits x = bits y + n) (meas := λ '(y, n), bits y / 16).
    - intros [y n] [Hy E]. apply wp_ret. destruct (Z.leb_spec 32768 y); cbv iota; [|lia]. apply wp_ret.
      pose proof (bits_shift y 16 ltac:(lia) ltac:(lia)). pose proof (shift_step y 16 48 ltac:(lia) ltac:(lia) ltac:(lia)) as Hs.
      pose proof (bits_le (Z.shiftr y 16) 48 ltac:(lia) Hs). split; [split; [|lia]|lia_div].
      change (2 ^ 48) with 281474976710656 in Hs. lia.
    - lia.
    - pose proof (bits_le x 64 ltac:(lia) Hx64). lia_div. }
  intros [y n] [Hy ->].
  destruct (bits_step y n 8 7 ltac:(lia) ltac:(lia) ltac:(lia)) as (y1 & n1 & E1 & Hy1 & ->).
  destruct (bits_step y1 n1 4 3 ltac:(lia) ltac:(lia) ltac:(lia)) as (y2 & n2 & E2 & Hy2 & ->).
  destruct (bits_step y2 n2 2 1 ltac:(lia) ltac:(lia) ltac:(lia)) as (y3 & n3 & E3 & Hy3 & ->).
  change (2 ^ 7) with 128 in E1. change (2 ^ 3) with 8 in E2. change (2 ^ 1) with 2 in E3. rewrite E1, E2, E3.
  apply wp_ret. unfold bits. assert (y3 = 0 ∨ y3 = 1) as [-> | ->] by lia; simpl; lia.
Qed.

Lemma leadingZeros_spec x : is_word x → leadingZeros x = Ret (_W - bits x).
Proof. intros Hx. unfold leadingZeros. by rewrite bitLen_g_spec. Qed.

(** ** Division of two words by one *)

(** The estimate of a digit of the quotient of [u * _B2 + un], and its correction. *)
Lemma estimate_bound vn1 vn0 u : _B2 <= 2 * vn1 → 0 <= vn0 < _B2 → 0 <= u < vn1 * _B2 + vn0 → u / vn1 <= _B2 + 1.
Proof. intros Hv Hv0 Hu. destruct _B2_eq as (_ & _ & HB & _). apply Z.lt_succ_r. apply Z.div_lt_upper_bound; nia. Qed.

Lemma too_large q rhat vn1 vn0 u un : 0 <= vn0 < _B2 → 0 <= un < _B2 → 0 < vn1 → q * vn1 + rhat = u → u < vn1 * _B2 + vn0 →
  _B2 <= q ∨ _B2 * rhat + un < q * vn0 → (u * _B2 + un) / (vn1 * _B2 + vn0) <= q - 1.
Proof.
  intros Hv0 Hun Hv1 E Hu H. destruct _B2_eq as (_ & _ & HB & _). assert (0 < vn1 * _B2 + vn0) by nia.
  enough ((u * _B2 + un) / (vn1 * _B2 + vn0) < q) by lia. apply Z.div_lt_upper_bound; [done|]. destruct H; nia.
Qed.

Lemma divWW_correct_spec vn1 vn0 un u : _B2 <= 2 * vn1 → vn1 < _B2 → 0 <= vn0 < _B2 → 0 <= un < _B2 → 0 <= u < vn1 * _B2 + vn0 →
  divWW_correct vn1 vn0 un (u / vn1) (u mod vn1) ⇓ λ q, q = (u * _B2 + un) / (vn1 * _B2 + vn0).
Proof.
  intros Hv Hv1 Hv0 Hun Hu. destruct _B2_eq as (_ & EB & HB & _). set (v := vn1 * _B2 + vn0) in *. set (qt := (u * _B2 + un) / v).
  assert (0 < v) by (unfold v; nia).
  assert (∀ q rhat, q * vn1 + rhat = u → q * vn0 <= _B2 * rhat + un → qt <= q → q = qt) as Hdone.
  { intros q rhat E Hq Hle. enough (q <= qt) by lia. apply Z.div_le_lower_bound; [done|]. unfold v. nia. }
  apply wp_loop with (I := λ '(q, rhat), q * vn1 + rhat = u ∧ qt <= q ∧ 0 <= rhat < _B2 ∧ 0 <= q <= _B2 + 1 ∧ (vn1 <= rhat → q <= _B2))
    (meas := λ '(q, rhat), if rhat <? vn1 then 2 else 1).
  - intros [q rhat] (E & Hle & Hr & Hq & Hq').
    assert (_B2 * rhat <= _B2 * (_B2 - 1)) by (apply Z.mul_le_mono_nonneg_l; lia).
    rewrite (uw_small (_B2 * rhat)), (uw_small (_ + un)) by (unfold is_word; lia).
    destruct ((_B2 <=? q) || (_B2 * rhat + un <? uw (q * vn0))) eqn:Ec.
    + assert (qt <= q - 1) as Hq1.
      { apply (too_large q rhat vn1 vn0 u un Hv0 Hun ltac:(lia) E (proj2 Hu)). apply orb_true_iff in Ec as [Ec|Ec]; [left; lia|].
        destruct (Z.le_gt_cases _B2 q) as [|Hlt]; [by left|right]. pose proof (half_product q vn0 ltac:(lia) Hv0).
        rewrite uw_small in Ec by (unfold is_word; lia). lia. }
      assert (0 <= qt) by (apply Z.div_pos; nia). rewrite (uw_small (q - 1)), (uw_small (rhat + vn1)) by (unfold is_word; nia).
      apply wp_ret. destruct (Z.leb_spec _B2 (rhat + vn1)) as [Hr'|Hr'].
      * apply (Hdone (q - 1) (rhat + vn1)); [lia| |done].
        assert ((q - 1) * vn0 <= _B2 * (_B2 - 1)) by (apply Z.mul_le_mono_nonneg; lia).
        assert (_B2 * _B2 <= _B2 * (rhat + vn1)) by (apply Z.mul_le_mono_nonneg_l; lia). lia.
      * destruct (Z.ltb_spec rhat vn1); [|lia]. rewrite (proj2 (Z.ltb_ge (rhat + vn1) vn1)) by lia. repeat split; lia.
    + apply orb_false_iff in Ec as [Ec1%Z.leb_gt Ec2]. pose proof (half_product q vn0 ltac:(lia) Hv0).
      rewrite uw_small in Ec2 by (unfold is_word; lia). apply wp_ret. apply (Hdone q rhat); lia.
  - pose proof (Z.div_mod u vn1 ltac:(lia)). pose proof (Z.mod_pos_bound u vn1 ltac:(lia)).
    pose proof (estimate_bound vn1 vn0 u Hv Hv0 Hu). pose proof (Z.div_pos u vn1 ltac:(lia) ltac:(lia)).
    split; [lia|]. split; [|lia]. apply Z.lt_succ_r, Z.div_lt_upper_bound; [done|]. unfold v. nia.
  - destruct (_ <? _); lia.
Qed.

Lemma uw_ring a b c : uw (uw (uw a + b) - uw c) = uw (a + b - c).
Proof. unfold uw. by rewrite wrap_add_l, wrap_sub_l, wrap_sub_r. Qed.

(** Normalizing: the divisor has its top bit set, and the quotient is unchanged. *)
Lemma normalize v : is_word v → v ≠ 0 → let s := _W - bits v in
  0 <= s < _W ∧ uw (Z.shiftl v s) = v * 2 ^ s ∧ _B <= 2 * (v * 2 ^ s) ∧ v * 2 ^ s < _B.
Proof.
  intros Hv H0 s. unfold is_word in Hv. rewrite _B_eq in Hv. destruct (bits_bound v ltac:(lia)) as [H1 H2]. specialize (H2 H0).
  pose proof (bits_le v _W ltac:(destruct _W_cases; lia) Hv).
  assert (1 <= bits v) by (unfold bits; destruct (Z.eqb_spec v 0); [done|]; pose proof (Z.log2_nonneg v); lia).
  assert (2 ^ _W = 2 ^ bits v * 2 ^ s) as E by (rewrite <- Z.pow_add_r by lia; f_equal; lia).
  assert (2 ^ bits v = 2 * 2 ^ (bits v - 1)) as E' by (rewrite <- Z.pow_succ_r by lia; f_equal; lia).
  pose proof (Z.pow_pos_nonneg 2 s ltac:(lia) ltac:(lia)).
  assert (v * 2 ^ s < _B) by (rewrite _B_eq, E; by apply Z.mul_lt_mono_pos_r).
  assert (2 ^ (bits v - 1) * 2 ^ s <= v * 2 ^ s) by (apply Z.mul_le_mono_nonneg_r; lia).
  split; [lia|]. rewrite Z.shiftl_mul_pow2 by lia. split; [|rewrite _B_eq in *; lia]. apply uw_small. unfold is_word. lia.
Qed.

Lemma shifted u1 u0 s : is_word u1 → is_word u0 → 0 <= s < _W → u1 * 2 ^ s < _B →
  Z.lor (uw (Z.shiftl u1 s)) (Z.shiftr u0 (_W - s)) = u1 * 2 ^ s + u0 / 2 ^ (_W - s) ∧
  (u1 * 2 ^ s + u0 / 2 ^ (_W - s)) * _B + uw (Z.shiftl u0 s) = (u1 * _B + u0) * 2 ^ s ∧ 0 <= u0 / 2 ^ (_W - s) < 2 ^ s.
Proof.
  unfold is_word. intros Hu1 Hu0 Hs Hlt. pose proof (Z.pow_pos_nonneg 2 s ltac:(lia) ltac:(lia)).
  assert (0 <= _W - s) as Hs' by lia. pose proof (Z.pow_pos_nonneg 2 _ ltac:(lia) Hs').
  assert (2 ^ _W = 2 ^ (_W - s) * 2 ^ s) as E by (rewrite <- Z.pow_add_r by lia; f_equal; lia).
  assert (0 <= u0 / 2 ^ (_W - s) < 2 ^ s) as Hd.
  { rewrite _B_eq, E in Hu0. split; [apply Z.div_pos; lia|apply Z.div_lt_upper_bound; lia]. }
  rewrite Z.shiftr_div_pow2, !Z.shiftl_mul_pow2 by lia. split; [|split; [|done]].
  - rewrite uw_small by (unfold is_word; lia). apply lor_high_add with (k := s); [lia|done|apply Z.mod_mul; lia].
  - rewrite uw_eq, _B_eq. pose proof (Z.div_mod (u0 * 2 ^ s) (2 ^ _W) ltac:(rewrite E; lia)) as Hm.
    assert (u0 * 2 ^ s / 2 ^ _W = u0 / 2 ^ (_W - s)) as Ed by (rewrite E; apply Z.div_mul_cancel_r; lia).
    rewrite Ed in Hm. lia.
Qed.

(** One digit of the quotient, with the remainder it leaves. *)
Lemma digit_spec vs u un (f : Z → Z → go (Z * Z)) : _B <= 2 * vs → vs < _B → 0 <= u < vs → 0 <= un < _B2 →
  (q ← divWW_correct (Z.shiftr vs _W2) (Z.land vs _M2) un (u / Z.shiftr vs _W2) (uw (u - uw (u / Z.shiftr vs _W2 * Z.shiftr vs _W2)));
   f q (uw (uw (uw (u * _B2) + un) - uw (q * vs)))) =
  f ((u * _B2 + un) / vs) ((u * _B2 + un) mod vs).
Proof.
  intros Hv Hv' Hu Hun. rewrite low_half, high_half. destruct (halves vs) as (Ev & Hv1 & Hv0); [unfold is_word; lia|].
  set (vn1 := vs / _B2) in *. set (vn0 := vs mod _B2) in *. destruct _B2_eq as (_ & EB & HB & Heven).
  assert (_B2 <= 2 * vn1) as Hn.
  { assert (_B2 = 2 * (_B2 / 2)) as Eh by lia_div. enough (_B2 / 2 <= vn1) by lia. apply Z.div_le_lower_bound; nia. }
  pose proof (Z.div_mod u vn1 ltac:(lia)). pose proof (Z.mod_pos_bound u vn1 ltac:(lia)). pose proof (Z.div_pos u vn1 ltac:(lia) ltac:(lia)).
  rewrite (uw_small (u / vn1 * vn1)), (uw_small (u - _)) by (unfold is_word; nia).
  replace (u - u / vn1 * vn1) with (u mod vn1) by lia.
  pose proof (divWW_correct_spec vn1 vn0 un u Hn ltac:(lia) Hv0 Hun ltac:(lia)) as Hc. rewrite <- Ev in Hc.
  apply wp_ex in Hc as (q & -> & ->). rewrite go_bind_ret, uw_ring. f_equal.
  pose proof (Z.div_mod (u * _B2 + un) vs ltac:(lia)). pose proof (Z.mod_pos_bound (u * _B2 + un) vs ltac:(lia)).
  replace (u * _B2 + un - _) with ((u * _B2 + un) mod vs) by lia. apply uw_small. unfold is_word. lia.
Qed.

Lemma divWW_g_spec u1 u0 v : is_word u1 → is_word u0 → is_word v → u1 < v →
  divWW_g u1 u0 v = Ret ((u1 * _B + u0) / v, (u1 * _B + u0) mod v).
Proof.
  intros Hu1 Hu0 Hv Hlt. unfold is_word in Hu1. assert (v ≠ 0) as Hv0 by lia. destruct (normalize v Hv Hv0) as (Hs & Es & Hn & Hvs).
  unfold divWW_g. rewrite (proj2 (Z.leb_gt _ _)), leadingZeros_spec, go_bind_ret by done. rewrite Es.
  set (s := _W - bits v) in *. set (vs := v * 2 ^ s) in *. pose proof (Z.pow_pos_nonneg 2 s ltac:(lia) ltac:(lia)).
  assert ((u1 + 1) * 2 ^ s <= vs) as Hu by (apply Z.mul_le_mono_nonneg_r; lia).
  destruct (shifted u1 u0 s Hu1 Hu0 Hs ltac:(lia)) as (-> & EU & Hd). set (un32 := u1 * 2 ^ s + u0 / 2 ^ (_W - s)) in *.
  destruct (halves (uw (Z.shiftl u0 s)) (uw_word _)) as (E10 & H1 & H0). set (un10 := uw (Z.shiftl u0 s)) in *.
  rewrite (low_half un10), (high_half un10). set (un1 := un10 / _B2) in *. set (un0 := un10 mod _B2) in *.
  rewrite (digit_spec vs un32 un1 (λ q1 un21, q0 ← divWW_correct _ _ un0 (un21 / Z.shiftr vs _W2) (uw (un21 - uw (un21 / Z.shiftr vs _W2 * Z.shiftr vs _W2)));
    Ret (uw (uw (q1 * _B2) + q0), Z.shiftr (uw (uw (uw (un21 * _B2) + un0) - uw (q0 * vs))) s))) by lia.
  set (q1 := (un32 * _B2 + un1) / vs). set (un21 := (un32 * _B2 + un1) mod vs).
  assert (0 <= un21 < vs) as H21 by (apply Z.mod_pos_bound; lia).
  rewrite (digit_spec vs un21 un0 (λ q0 r, Ret (uw (uw (q1 * _B2) + q0), Z.shiftr r s))) by lia.
  set (q0 := (un21 * _B2 + un0) / vs). set (r := (un21 * _B2 + un0) mod vs). destruct _B2_eq as (_ & EB & HB & _).
  assert (∀ u un, 0 <= u < vs → 0 <= un < _B2 → 0 <= (u * _B2 + un) / vs < _B2) as Hq.
  { intros u un Hu' Hun. split; [apply Z.div_pos; lia|apply Z.div_lt_upper_bound; nia]. }
  assert (0 <= q1 < _B2) as Hq1 by (apply Hq; lia). assert (0 <= q0 < _B2) as Hq0 by (apply Hq; lia).
  rewrite (uw_small (q1 * _B2)), (uw_small (_ + q0)) by (unfold is_word; nia).
  pose proof (Z.div_mod (un32 * _B2 + un1) vs ltac:(lia)) as E1. fold q1 un21 in E1.
  pose proof (Z.div_mod (un21 * _B2 + un0) vs ltac:(lia)) as E0. fold q0 r in E0.
  assert (0 <= r < vs) as Hr by (apply Z.mod_pos_bound; lia).
  assert ((u1 * _B + u0 - (q1 * _B2 + q0) * v) * 2 ^ s = r) as Er by (unfold vs in *; nia).
  rewrite Z.shiftr_div_pow2, <- Er, Z.div_mul by lia.
  assert (0 <= u1 * _B + u0 - (q1 * _B2 + q0) * v < v) as Hrem.
  { rewrite <- Er in Hr. split; [apply (Z.mul_le_mono_pos_r _ _ (2 ^ s)); lia|apply (Z.mul_lt_mono_pos_r (2 ^ s)); [done|]; unfold vs in Hr; lia]. }
  rewrite <- (Z.div_unique_pos (u1 * _B + u0) v (q1 * _B2 + q0) (u1 * _B + u0 - (q1 * _B2 + q0) * v)) by lia.
  rewrite <- (Z.mod_unique_pos (u1 * _B + u0) v (q1 * _B2 + q0) (u1 * _B + u0 - (q1 * _B2 + q0) * v)) by lia. done.
Qed.
End facts.

(** C36: The routines on single words lose nothing to the word size: sum, difference and
    product of words come back exactly, split into a high and a low word (the difference
    with its borrow); a quotient of two words by one is the exact quotient and
    remainder when it fits a word; [log2] and [leadingZeros] count bits. *)
Theorem word_arithmetic `{M : Machine} x y c v : is_word x → is_word y → is_word v → 0 <= c <= 1 →
  (let '(z1, z0) := addWW_g x y c in z1 * _B + z0 = x + y + c ∧ 0 <= z1 <= 1 ∧ is_word z0) ∧
  (let '(z1, z0) := subWW_g x y c in z0 - z1 * _B = x - y - c ∧ 0 <= z1 <= 1 ∧ is_word z0) ∧
  (let '(z1, z0) := mulWW_g x y in z1 * _B + z0 = x * y ∧ is_word z1 ∧ is_word z0) ∧
  (let '(z1, z0) := mulAddWWW_g x y v in z1 * _B + z0 = x * y + v ∧ is_word z1 ∧ is_word z0) ∧
  divWW_g x y v = Ret (if v <=? x then (_M, _M) else ((x * _B + y) / v, (x * _B + y) mod v)) ∧
  (0 < x → log2 x = Ret (Z.log2 x) ∧ leadingZeros x = Ret (_W - 1 - Z.log2 x)).
Proof.
  intros Hx Hy Hv Hc. split; [by apply addWW_g_spec|]. split; [by apply subWW_g_spec|]. split; [by apply mulWW_g_spec|]. split; [by apply mulAddWWW_g_spec|]. split.
  - destruct (Z.leb_spec v x) as [H|H]; [|by apply divWW_g_spec]. unfold divWW_g. by rewrite (proj2 (Z.leb_le _ _)).
  - intros H0. rewrite leadingZeros_spec by done. unfold log2. rewrite bitLen_g_spec, go_bind_ret by done. unfold bits.
    rewrite (proj2 (Z.eqb_neq _ _)) by lia. split; f_equal; lia.
Qed.

Example word_arithmetic_witness : is_word (M := machine64) (2 ^ 63) ∧ divWW_g (M := machine64) 3 (2 ^ 63) 7 = Ret ((3 * 2 ^ 64 + 2 ^ 63) / 7, (3 * 2 ^ 64 + 2 ^ 63) mod 7).
Proof.
  assert (∀ x, 0 <= x < 2 ^ 64 → is_word (M := machine64) x) as Hw by done. split; [by apply Hw|].
  exact (proj1 (proj2 (proj2 (proj2 (proj2 (word_arithmetic (M := machine64) 3 (2 ^ 63) 1 7 (Hw 3 ltac:(lia)) (Hw (2 ^ 63) ltac:(lia)) (Hw 7 ltac:(lia)) ltac:(lia))))))).
Defined.
