(* ===== verification/BigVec.v ===== *)
(** Vectors of words: the loops of [src/src/math/big/arith.go], on slices of a shared
    memory. *)
From S2P Require Import Prelude.
From S2P Require Import BigWord.

(** The memory is one list of words. Every array is a part of it, and a slice is
    given by its offset, length and capacity, so that slices of one array overlap as
    they do in Go. *)
Abbreviation mem := (list Z) (only parsing).
Record vector := Vec { off : Z; len : Z; cap : Z }.

(** [x[i]], [x[i] = v], [x[lo:hi]], [x[lo:]], [x[:hi]]. *)
Definition at_ (m : mem) (x : vector) (i : Z) : go Z :=
  if decide (0 <= i < len x) then idx m (off x + i) else Panic "index out of range".
Definition put (m : mem) (x : vector) (i v : Z) : go mem :=
  if decide (0 <= i < len x) then upd m (off x + i) v else Panic "index out of range".
Definition part (x : vector) (lo hi : Z) : go vector :=
  if decide (0 <= lo <= hi ∧ hi <= cap x) then Ret (Vec (off x + lo) (hi - lo) (cap x - lo)) else Panic "slice bounds out of range".
Definition part_from (x : vector) (lo : Z) : go vector := part x lo (len x).
Definition part_to (x : vector) (hi : Z) : go vector := part x 0 hi.

Section vec.
Context `{M : Machine}.

Definition not_w (x : Z) : Z := uw (Z.lnot x).

Definition addVV_g (m : mem) (z x y : vector) : go (mem * Z) :=
  xs ← part_to x (len z);
  for_up 0 (len xs) (λ i '(m, c),
    xi ← at_ m xs i;
    yi ← at_ m y i;
    let zi := uw (uw (xi + yi) + c) in
    m ← put m z i zi;
    Ret (m, Z.shiftr (Z.lor (Z.land xi yi) (Z.land (Z.lor xi yi) (not_w zi))) (_W - 1))) (m, 0).

Definition subVV_g (m : mem) (z x y : vector) : go (mem * Z) :=
  xs ← part_to x (len z);
  for_up 0 (len xs) (λ i '(m, c),
    xi ← at_ m xs i;
    yi ← at_ m y i;
    let zi := uw (uw (xi - yi) - c) in
    m ← put m z i zi;
    Ret (m, Z.shiftr (Z.lor (Z.land yi (not_w xi)) (Z.land (Z.lor yi (not_w xi)) zi)) (_W - 1))) (m, 0).

Definition addVW_g (m : mem) (z x : vector) (y : Z) : go (mem * Z) :=
  xs ← part_to x (len z);
  for_up 0 (len xs) (λ i '(m, c),
    xi ← at_ m xs i;
    let zi := uw (xi + c) in
    m ← put m z i zi;
    Ret (m, Z.shiftr (Z.land xi (not_w zi)) (_W - 1))) (m, y).

Definition subVW_g (m : mem) (z x : vector) (y : Z) : go (mem * Z) :=
  xs ← part_to x (len z);
  for_up 0 (len xs) (λ i '(m, c),
    xi ← at_ m xs i;
    let zi := uw (xi - c) in
    m ← put m z i zi;
    Ret (m, Z.shiftr (Z.land zi (not_w xi)) (_W - 1))) (m, y).

Definition shlVU_g (m : mem) (z x : vector) (s : Z) : go (mem * Z) :=
  let n := len z in
  if 0 <? n then
    let s' := _W - s in
    w1 ← at_ m x (n - 1);
    let c := Z.shiftr w1 s' in
    '(m, w1) ← for_down (n - 1) 1 (λ i '(m, w1),
      let w := w1 in
      w1 ← at_ m x (i - 1);
      m ← put m z i (Z.lor (uw (Z.shiftl w s)) (Z.shiftr w1 s'));
      Ret (m, w1)) (m, w1);
    m ← put m z 0 (uw (Z.shiftl w1 s));
    Ret (m, c)
  else Ret (m, 0).

Definition shrVU_g (m : mem) (z x : vector) (s : Z) : go (mem * Z) :=
  let n := len z in
  if 0 <? n then
    let s' := _W - s in
    w1 ← at_ m x 0;
    let c := uw (Z.shiftl w1 s') in
    '(m, w1) ← for_up 0 (n - 1) (λ i '(m, w1),
      let w := w1 in
      w1 ← at_ m x (i + 1);
      m ← put m z i (Z.lor (Z.shiftr w s) (uw (Z.shiftl w1 s')));
      Ret (m, w1)) (m, w1);
    m ← put m z (n - 1) (Z.shiftr w1 s);
    Ret (m, c)
  else Ret (m, 0).

Definition mulAddVWW_g (m : mem) (z x : vector) (y r : Z) : go (mem * Z) :=
  for_up 0 (len z) (λ i '(m, c),
    xi ← at_ m x i;
    let '(c, zi) := mulAddWWW_g xi y c in
    m ← put m z i zi;
    Ret (m, c)) (m, r).

Definition addMulVVW_g (m : mem) (z x : vector) (y : Z) : go (mem * Z) :=
  for_up 0 (len z) (λ i '(m, c),
    xi ← at_ m x i;
    zi ← at_ m z i;
    let '(z1, z0) := mulAddWWW_g xi y zi in
    let '(c, zi) := addWW_g z0 c 0 in
    m ← put m z i zi;
    Ret (m, uw (c + z1))) (m, 0).

Definition divWVW_g (m : mem) (z : vector) (xn : Z) (x : vector) (y : Z) : go (mem * Z) :=
  for_down (len z - 1) 0 (λ i '(m, r),
    xi ← at_ m x i;
    '(zi, r) ← divWW_g r xi y;
    m ← put m z i zi;
    Ret (m, r)) (m, xn).
End vec.

Example vec_run :
  @addVV_g machine32 [2 ^ 32 - 1; 2 ^ 32 - 1; 1; 0] (Vec 0 2 4) (Vec 0 2 4) (Vec 2 2 2) = Ret ([0; 0; 1; 0], 1) ∧
  @shlVU_g machine32 [2 ^ 32 - 1; 1; 0] (Vec 1 2 2) (Vec 0 2 3) 4 = Ret ([2 ^ 32 - 1; 2 ^ 32 - 16; 31], 0) ∧
  @divWVW_g machine64 [1; 2; 0; 0] (Vec 2 2 2) 0 (Vec 0 2 4) 3 = Ret ([1; 2; (2 * 2 ^ 64 + 1) / 3; 0], (2 * 2 ^ 64 + 1) mod 3).
Proof. by vm_compute. Qed.

(** * Numbers in memory *)

Definition get (m : mem) (i : Z) : Z := default 0 (m.[i]).

(** [m'] differs from [m] only in the [n] words at [o]. *)
Definition frame (m m' : mem) (o n : Z) : Prop := zlen m' = zlen m ∧ ∀ i, ¬ o <= i < o + n → get m' i = get m i.

Lemma frame_refl m o n : frame m m o n.
Proof. by split. Qed.
Lemma frame_trans m m' m'' o n : frame m m' o n → frame m' m'' o n → frame m m'' o n.
Proof. intros [Hz H] [Hz' H']. split; [lia|]. intros i Hi. by rewrite H', H. Qed.
Lemma frame_weaken m m' o n o' n' : frame m m' o n → (n <= 0 ∨ o' <= o ∧ o + n <= o' + n') → frame m m' o' n'.
Proof. intros [Hz H] Ho. split; [done|]. intros i Hi. apply H. lia. Qed.
Lemma frame_get m m' o n i : frame m m' o n → ¬ o <= i < o + n → get m' i = get m i.
Proof. intros [_ H]. apply H. Qed.

Lemma get_insZ m i j v : 0 <= i < zlen m → get (insZ m i v) j = if decide (j = i) then v else get m j.
Proof. intros Hi. unfold get. rewrite nthZ_insZ. repeat case_decide; naive_solver lia. Qed.

Section num.
Context `{M : Machine}.

Abbreviation words m := (Forall is_word m).

Lemma words_get m i : words m → is_word (get m i).
Proof.
  intros Hm. unfold get. destruct (m.[i]) as [x|] eqn:E; simpl; [|unfold is_word; pose proof _B_bound; lia].
  unfold nthZ in E. case_decide; [|done]. rewrite Forall_forall in Hm. apply Hm. by apply list_elem_of_lookup_2 in E.
Qed.
Lemma words_insZ m i v : words m → is_word v → words (insZ m i v).
Proof. intros Hm Hv. unfold insZ. case_decide; [|done]. by apply Forall_insert. Qed.

(** The number in the [n] words at [o]. *)
Fixpoint num_nat (m : mem) (o : Z) (n : nat) : Z :=
  match n with O => 0 | S n => get m o + _B * num_nat m (o + 1) n end.
Definition num (m : mem) (o n : Z) : Z := num_nat m o (Z.to_nat n).

Lemma num_0 m o n : n <= 0 → num m o n = 0.
Proof. intros Hn. unfold num. by replace (Z.to_nat n) with 0%nat by lia. Qed.
Lemma num_cons m o n : 0 <= n → num m o (n + 1) = get m o + _B * num m (o + 1) n.
Proof. intros Hn. unfold num. by replace (Z.to_nat (n + 1)) with (S (Z.to_nat n)) by lia. Qed.
Lemma num_ext m m' o n : (∀ i, o <= i < o + n → get m' i = get m i) → num m' o n = num m o n.
Proof.
  assert (∀ k o, (∀ i, o <= i < o + Z.of_nat k → get m' i = get m i) → num_nat m' o k = num_nat m o k) as H.
  { induction k as [|k IH]; intros o' Hext; [done|]. cbn [num_nat]. rewrite Hext, IH; [done|intros; apply Hext; lia|lia]. }
  intros Hext. apply H. intros i Hi. apply Hext. lia.
Qed.
Lemma num_same m m' o o' n : (∀ i, 0 <= i < n → get m (o + i) = get m' (o' + i)) → num m o n = num m' o' n.
Proof.
  intros H. destruct (Z.le_gt_cases 0 n) as [Hn|Hn]; [|by rewrite !num_0 by lia]. revert o o' H. pattern n.
  apply natlike_ind; [intros; by rewrite !num_0|intros x Hx IH o o' H|done]. replace (Z.succ x) with (x + 1) in * by lia.
  rewrite !num_cons by done. f_equal; [specialize (H 0 ltac:(lia)); by rewrite !Z.add_0_r in H|]. f_equal. apply IH.
  intros i Hi. rewrite <- !Z.add_assoc. apply H. lia.
Qed.
Lemma num_app m o a b : 0 <= a → 0 <= b → num m o (a + b) = num m o a + _B ^ a * num m (o + a) b.
Proof.
  intros Ha Hb. revert o. pattern a. apply natlike_ind; [|intros x Hx IH o|done].
  - intros o. rewrite (num_0 m o 0), Z.add_0_l, Z.add_0_r, Z.pow_0_r by done. lia.
  - replace (Z.succ x + b) with (x + b + 1) by lia. rewrite num_cons, IH by lia.
    replace (Z.succ x) with (x + 1) by lia. rewrite num_cons, Z.pow_add_r, Z.pow_1_r by lia.
    replace (o + (x + 1)) with (o + 1 + x) by lia. ring.
Qed.
Lemma num_one m o : num m o 1 = get m o.
Proof. replace 1 with (0 + 1) by lia. rewrite num_cons, num_0 by done. lia. Qed.
Lemma num_snoc m o n : 0 <= n → num m o (n + 1) = num m o n + get m (o + n) * _B ^ n.
Proof. intros Hn. rewrite num_app, num_one by lia. lia. Qed.
Lemma _B_pow n : 0 <= n → 0 < _B ^ n.
Proof. intros. apply Z.pow_pos_nonneg; [|done]. pose proof _B_bound. lia. Qed.
Lemma num_bound m o n : words m → 0 <= n → 0 <= num m o n < _B ^ n.
Proof.
  intros Hm Hn. pattern n. apply natlike_ind; [|intros x Hx IH|done]; [by rewrite num_0|].
  replace (Z.succ x) with (x + 1) by lia. rewrite num_snoc, Z.pow_add_r, Z.pow_1_r by lia.
  pose proof (words_get m (o + x) Hm) as [Hg Hg']. pose proof (_B_pow x Hx).
  assert (get m (o + x) * _B ^ x <= (_B - 1) * _B ^ x) by (apply Z.mul_le_mono_nonneg_r; lia). nia.
Qed.
Lemma num_frame m m' o n o' n' : frame m m' o n → (o' + n' <= o ∨ o + n <= o') → num m' o' n' = num m o' n'.
Proof. intros [_ H] Ho. apply num_ext. intros i Hi. apply H. lia. Qed.

(** A number's digits are determined by it. *)
Lemma num_inj m m' o o' n i : words m → words m' → 0 <= n → num m o n = num m' o' n → 0 <= i < n → get m (o + i) = get m' (o' + i).
Proof.
  intros Hm Hm' Hn. revert o o' i. pattern n. apply natlike_ind; [lia|intros x Hx IH o o' i|done].
  replace (Z.succ x) with (x + 1) by lia. rewrite !num_cons by done. intros E Hi.
  pose proof (words_get m o Hm) as Hg. pose proof (words_get m' o' Hm') as Hg'. unfold is_word in *.
  assert (get m o = get m' o' ∧ num m (o + 1) x = num m' (o' + 1) x) as [E1 E2].
  { assert (num m (o + 1) x = num m' (o' + 1) x); [|lia]. nia. }
  destruct (decide (i = 0)) as [->|]; [by rewrite !Z.add_0_r|].
  replace (o + i) with (o + 1 + (i - 1)) by lia. replace (o' + i) with (o' + 1 + (i - 1)) by lia. apply IH; [done|lia].
Qed.

(** ** Accesses *)

(** A slice of the memory, and the absence of overlap. *)
Definition valid (m : mem) (x : vector) : Prop := 0 <= off x ∧ 0 <= len x <= cap x ∧ off x + cap x <= zlen m.

Lemma get_idx m i : 0 <= i < zlen m → idx m i = Ret (get m i).
Proof. intros Hi. destruct (nthZ_is_Some m i Hi) as [v Hv]. unfold get. rewrite Hv. by apply idx_Some. Qed.

Lemma at_eq m x i : valid m x → 0 <= i < len x → at_ m x i = Ret (get m (off x + i)).
Proof. intros (? & ? & ?) Hi. unfold at_. rewrite decide_True by done. apply get_idx. lia. Qed.
Lemma put_eq m x i v : valid m x → 0 <= i < len x → put m x i v = Ret (insZ m (off x + i) v).
Proof. intros (? & ? & ?) Hi. unfold put. rewrite decide_True by done. apply upd_eq. lia. Qed.
Lemma part_eq x lo hi : 0 <= lo <= hi → hi <= cap x → part x lo hi = Ret (Vec (off x + lo) (hi - lo) (cap x - lo)).
Proof. intros. unfold part. by rewrite decide_True. Qed.
Lemma part_to_eq x hi : 0 <= hi <= cap x → part_to x hi = Ret (Vec (off x) hi (cap x)).
Proof. intros. unfold part_to. rewrite part_eq by lia. by rewrite Z.add_0_r, !Z.sub_0_r. Qed.
Lemma part_from_eq x lo : 0 <= lo <= len x → len x <= cap x → part_from x lo = Ret (Vec (off x + lo) (len x - lo) (cap x - lo)).
Proof. intros. unfold part_from. rewrite part_eq by lia. done. Qed.
Lemma valid_part m x lo hi : valid m x → 0 <= lo <= hi → hi <= cap x → valid m (Vec (off x + lo) (hi - lo) (cap x - lo)).
Proof. intros (? & ? & ?) ??. unfold valid. simpl. lia. Qed.
Lemma valid_frame m m' o n x : frame m m' o n → valid m x → valid m' x.
Proof. intros [Hz _]. unfold valid. lia. Qed.

(** A write extends the part that has changed, upwards. *)
Lemma frame_up m mi o n v : frame m mi o n → words mi → is_word v → 0 <= n → 0 <= o → o + n < zlen m →
  frame m (insZ mi (o + n) v) o (n + 1) ∧ words (insZ mi (o + n) v) ∧
  num (insZ mi (o + n) v) o (n + 1) = num mi o n + v * _B ^ n ∧ get (insZ mi (o + n) v) (o + n) = v.
Proof.
  intros [Hz H] Hw Hv Hn Ho Hl. split; [|split; [by apply words_insZ|]].
  - split; [by rewrite zlen_insZ|]. intros i Hi. rewrite get_insZ by lia. rewrite decide_False by lia. apply H. lia.
  - rewrite num_snoc by done. rewrite !get_insZ by lia. rewrite !decide_True by done. split; [|done]. f_equal.
    apply num_ext. intros i Hi. rewrite get_insZ by lia. by rewrite decide_False by lia.
Qed.
(** ... or downwards. *)
Lemma frame_down m mi o n v : frame m mi (o + 1) n → words mi → is_word v → 0 <= n → 0 <= o < zlen m →
  frame m (insZ mi o v) o (n + 1) ∧ words (insZ mi o v) ∧ num (insZ mi o v) o (n + 1) = v + _B * num mi (o + 1) n.
Proof.
  intros [Hz H] Hw Hv Hn Ho. split; [|split; [by apply words_insZ|]].
  - split; [by rewrite zlen_insZ|]. intros i Hi. rewrite get_insZ by lia. rewrite decide_False by lia. apply H. lia.
  - rewrite num_cons by done. rewrite !get_insZ by lia. rewrite decide_True by done. do 2 f_equal.
    apply num_ext. intros i Hi. rewrite get_insZ by lia. by rewrite decide_False by lia.
Qed.

(** * The carries *)

Lemma not_w_eq x : is_word x → not_w x = _B - 1 - x.
Proof.
  intros Hx. unfold not_w, is_word in *. replace (Z.lnot x) with (- x - 1) by (unfold Z.lnot; lia).
  rewrite uw_once by lia. rewrite (proj2 (Z.ltb_lt _ 0)) by lia. lia.
Qed.

(** The top bit of a word. *)
Lemma top_bit x : is_word x → (Z.shiftr x (_W - 1) = 0 ∨ Z.shiftr x (_W - 1) = 1) ∧
  Z.shiftr x (_W - 1) * _B <= 2 * x < (Z.shiftr x (_W - 1) + 1) * _B.
Proof.
  intros Hx. unfold is_word in Hx. rewrite _B_eq in *.
  assert (2 ^ _W = 2 * 2 ^ (_W - 1)) as E by (rewrite <- Z.pow_succ_r by (destruct _W_cases; lia); f_equal; lia).
  assert (0 < 2 ^ (_W - 1)) as H0 by (apply Z.pow_pos_nonneg; destruct _W_cases; lia).
  rewrite Z.shiftr_div_pow2 by (destruct _W_cases; lia). rewrite E in *.
  pose proof (Z.div_mod x _ (Z.neq_sym _ _ (Z.lt_neq _ _ H0))). pose proof (Z.mod_pos_bound x _ H0).
  assert (x / 2 ^ (_W - 1) < 2) by (apply Z.div_lt_upper_bound; lia).
  assert (0 <= x / 2 ^ (_W - 1)) by (apply Z.div_pos; lia).
  assert (x / 2 ^ (_W - 1) = 0 ∨ x / 2 ^ (_W - 1) = 1) as [Et|Et] by lia; rewrite Et in *; lia.
Qed.

Lemma _B_half : ∃ h, _B = 2 * h ∧ 0 < h.
Proof. exists (_B2 * (_B2 / 2)). destruct _B2_eq as (_ & -> & ? & ?). lia_div. Qed.

Ltac top_bits x Hx :=
  let E := fresh "E" in let H := fresh "H" in
  destruct (top_bit x Hx) as [[E|E] H]; rewrite E in *; clear E.

Lemma carry_add x y c : is_word x → is_word y → 0 <= c <= 1 →
  let z := uw (uw (x + y) + c) in let c' := Z.shiftr (Z.lor (Z.land x y) (Z.land (Z.lor x y) (not_w z))) (_W - 1) in
  z + c' * _B = x + y + c ∧ 0 <= c' <= 1.
Proof.
  intros Hx Hy Hc z c'. pose proof (uw_word (uw (x + y) + c)) as Hz. fold z in Hz.
  pose proof (not_w_eq z Hz) as En. assert (is_word (not_w z)) as Hn by apply uw_word.
  assert (z = x + y + c ∨ z = x + y + c - _B) as Ez.
  { unfold z. rewrite uw_eq, (uw_eq (x + y)), Zplus_mod_idemp_l, <- uw_eq. unfold is_word in *.
    rewrite uw_once by lia. destruct (Z.ltb_spec (x + y + c) 0); [lia|]. destruct (_ <? _); lia. }
  unfold c'. rewrite Z.shiftr_lor, !Z.shiftr_land, Z.shiftr_lor. clearbody z. clear c'.
  pose proof _B_half as (h & Eh & Hh). top_bits x Hx; top_bits y Hy; top_bits (not_w z) Hn; unfold is_word in *; cbv [Z.land Z.lor Pos.land Pos.lor Z.of_N]; lia.
Qed.

Lemma carry_sub x y c : is_word x → is_word y → 0 <= c <= 1 →
  let z := uw (uw (x - y) - c) in let c' := Z.shiftr (Z.lor (Z.land y (not_w x)) (Z.land (Z.lor y (not_w x)) z)) (_W - 1) in
  z - c' * _B = x - y - c ∧ 0 <= c' <= 1.
Proof.
  intros Hx Hy Hc z c'. pose proof (uw_word (uw (x - y) - c)) as Hz. fold z in Hz.
  pose proof (not_w_eq x Hx) as En. assert (is_word (not_w x)) as Hn by apply uw_word.
  assert (z = x - y - c ∨ z = x - y - c + _B) as Ez.
  { unfold z. rewrite uw_eq, (uw_eq (x - y)), Zminus_mod_idemp_l, <- uw_eq. unfold is_word in *.
    rewrite uw_once by lia. destruct (x - y - c <? 0); [by right|]. destruct (Z.ltb_spec (x - y - c) _B); [by left|lia]. }
  unfold c'. rewrite Z.shiftr_lor, !Z.shiftr_land, Z.shiftr_lor. clearbody z. clear c'.
  pose proof _B_half as (h & Eh & Hh).
  top_bits y Hy; top_bits (not_w x) Hn; top_bits z Hz; unfold is_word in *; cbv [Z.land Z.lor Pos.land Pos.lor Z.of_N]; lia.
Qed.

Lemma carry_add_word x c : is_word x → 0 <= c <= 1 →
  let z := uw (x + c) in let c' := Z.shiftr (Z.land x (not_w z)) (_W - 1) in z + c' * _B = x + c ∧ 0 <= c' <= 1.
Proof.
  intros Hx Hc z c'. pose proof (uw_word (x + c)) as Hz. fold z in Hz. pose proof (not_w_eq z Hz) as En.
  assert (is_word (not_w z)) as Hn by apply uw_word. pose proof _B_half as (h & Eh & Hh).
  assert (z = if x + c <? _B then x + c else x + c - _B) as Ez.
  { unfold z, is_word in *. rewrite uw_once by lia. by rewrite (proj2 (Z.ltb_ge _ 0)) by lia. }
  unfold c'. rewrite Z.shiftr_land. clearbody z. clear c'.
  top_bits x Hx; top_bits (not_w z) Hn; unfold is_word in *; cbv [Z.land Z.lor Pos.land Pos.lor Z.of_N];
    destruct (Z.ltb_spec (x + c) _B); lia.
Qed.

Lemma carry_sub_word x c : is_word x → 0 <= c <= 1 →
  let z := uw (x - c) in let c' := Z.shiftr (Z.land z (not_w x)) (_W - 1) in z - c' * _B = x - c ∧ 0 <= c' <= 1.
Proof.
  intros Hx Hc z c'. pose proof (uw_word (x - c)) as Hz. fold z in Hz. pose proof (not_w_eq x Hx) as En.
  assert (is_word (not_w x)) as Hn by apply uw_word. pose proof _B_half as (h & Eh & Hh).
  assert (z = if x - c <? 0 then x - c + _B else x - c) as Ez.
  { unfold z, is_word in *. rewrite uw_once by lia. destruct (Z.ltb_spec (x - c) 0); [done|]. by rewrite (proj2 (Z.ltb_lt _ _)) by lia. }
  unfold c'. rewrite Z.shiftr_land. clearbody z. clear c'.
  top_bits z Hz; top_bits (not_w x) Hn; unfold is_word in *; cbv [Z.land Z.lor Pos.land Pos.lor Z.of_N];
    destruct (Z.ltb_spec (x - c) 0); lia.
Qed.

(** * The loops *)

(** Words written upwards do not reach what is still to be read of [x]; nor downwards. *)
Definition up_ok (z x : vector) (n : Z) : Prop := off z <= off x ∨ off x + n <= off z.
Definition down_ok (z x : vector) (n : Z) : Prop := off x <= off z ∨ off z + n <= off x.

Lemma at_frame m mi x o k i : frame m mi o k → valid m x → 0 <= i < len x → ¬ o <= off x + i < o + k →
  at_ mi x i = Ret (get m (off x + i)).
Proof. intros Hf Hx Hi Ho. rewrite at_eq by (done || by eapply valid_frame). by rewrite (frame_get _ _ _ _ _ Hf). Qed.

(** The rule of the upward loops, that write one word a turn: [I i s c] relates the
    number written in [i] words and the carry. *)
Lemma up_loop (m : mem) (z : vector) (body : Z → mem * Z → go (mem * Z)) (I : Z → Z → Z → Prop) (n c : Z) :
  words m → valid m z → 0 <= n <= len z → I 0 0 c →
  (∀ i mi c, 0 <= i < n → frame m mi (off z) i → words mi → I i (num mi (off z) i) c →
    ∃ v c', body i (mi, c) = (m' ← put mi z i v; Ret (m', c')) ∧ is_word v ∧ I (i + 1) (num mi (off z) i + v * _B ^ i) c') →
  for_up 0 n body (m, c) ⇓ λ '(m', c), frame m m' (off z) n ∧ words m' ∧ I n (num m' (off z) n) c.
Proof.
  intros Hm Hz Hn H0 Hbody. pose proof Hz as (Ho & Hl & Hc).
  apply wp_for_up with (I := λ i '(mi, c), frame m mi (off z) i ∧ words mi ∧ I i (num mi (off z) i) c).
  - intros i [mi ci] Hi (Hf & Hw & HI). destruct (Hbody i mi ci Hi Hf Hw HI) as (v & c' & -> & Hv & HI').
    rewrite put_eq, go_bind_ret by (lia || by eapply valid_frame). apply wp_ret.
    destruct (frame_up m mi (off z) i v Hf Hw Hv) as (Hf' & Hw' & En & _); [lia..|]. rewrite En. done.
  - split; [apply frame_refl|]. split; [done|]. by rewrite num_0.
  - intros [m' c']. by rewrite Z.max_r by lia.
Qed.

Lemma B_next i : 0 <= i → _B ^ (i + 1) = _B * _B ^ i.
Proof. intros. rewrite Z.add_1_r. by apply Z.pow_succ_r. Qed.

Lemma addVV_g_spec m z x y : words m → valid m z → valid m x → valid m y → len z <= cap x → len z <= len y →
  up_ok z x (len z) → up_ok z y (len z) →
  addVV_g m z x y ⇓ λ '(m', c), frame m m' (off z) (len z) ∧ words m' ∧
    num m' (off z) (len z) + c * _B ^ len z = num m (off x) (len z) + num m (off y) (len z) ∧ 0 <= c <= 1.
Proof.
  intros Hm Hz Hx Hy Hlx Hly Hax Hay. unfold addVV_g. pose proof Hz as (_ & Hl & _). pose proof Hx as (Hox & Hlx' & Hcx).
  rewrite part_to_eq, go_bind_ret by lia. cbn [len].
  apply up_loop with (I := λ i s c, s + c * _B ^ i = num m (off x) i + num m (off y) i ∧ 0 <= c <= 1);
    [done|done|lia|by rewrite !num_0|].
  intros i mi c Hi Hf Hw [E Hc]. unfold up_ok in *.
  rewrite (at_frame m mi (Vec (off x) (len z) (cap x)) _ _ _ Hf), (at_frame m mi y _ _ _ Hf), !go_bind_ret by (done || unfold valid; simpl; lia).
  cbn [off]. set (xi := get m (off x + i)). set (yi := get m (off y + i)).
  destruct (carry_add xi yi c (words_get _ _ Hm) (words_get _ _ Hm) Hc) as [Ec Hc'].
  do 2 eexists. split; [done|]. split; [apply uw_word|]. split; [|done].
  rewrite !num_snoc, B_next by lia. fold xi yi. nia.
Qed.

Lemma subVV_g_spec m z x y : words m → valid m z → valid m x → valid m y → len z <= cap x → len z <= len y →
  up_ok z x (len z) → up_ok z y (len z) →
  subVV_g m z x y ⇓ λ '(m', c), frame m m' (off z) (len z) ∧ words m' ∧
    num m' (off z) (len z) - c * _B ^ len z = num m (off x) (len z) - num m (off y) (len z) ∧ 0 <= c <= 1.
Proof.
  intros Hm Hz Hx Hy Hlx Hly Hax Hay. unfold subVV_g. pose proof Hz as (_ & Hl & _). pose proof Hx as (Hox & Hlx' & Hcx).
  rewrite part_to_eq, go_bind_ret by lia. cbn [len].
  apply up_loop with (I := λ i s c, s - c * _B ^ i = num m (off x) i - num m (off y) i ∧ 0 <= c <= 1);
    [done|done|lia|by rewrite !num_0|].
  intros i mi c Hi Hf Hw [E Hc]. unfold up_ok in *.
  rewrite (at_frame m mi (Vec (off x) (len z) (cap x)) _ _ _ Hf), (at_frame m mi y _ _ _ Hf), !go_bind_ret by (done || unfold valid; simpl; lia).
  cbn [off]. set (xi := get m (off x + i)). set (yi := get m (off y + i)).
  destruct (carry_sub xi yi c (words_get _ _ Hm) (words_get _ _ Hm) Hc) as [Ec Hc'].
  do 2 eexists. split; [done|]. split; [apply uw_word|]. split; [|done].
  rewrite !num_snoc, B_next by lia. fold xi yi. nia.
Qed.

Lemma addVW_g_spec m z x y : words m → valid m z → valid m x → len z <= cap x → 0 <= y <= 1 → up_ok z x (len z) →
  addVW_g m z x y ⇓ λ '(m', c), frame m m' (off z) (len z) ∧ words m' ∧
    num m' (off z) (len z) + c * _B ^ len z = num m (off x) (len z) + y ∧ 0 <= c <= 1.
Proof.
  intros Hm Hz Hx Hlx Hy Hax. unfold addVW_g. pose proof Hz as (_ & Hl & _). pose proof Hx as (Hox & Hlx' & Hcx).
  rewrite part_to_eq, go_bind_ret by lia. cbn [len].
  apply up_loop with (I := λ i s c, s + c * _B ^ i = num m (off x) i + y ∧ 0 <= c <= 1);
    [done|done|lia|rewrite num_0 by done; lia|].
  intros i mi c Hi Hf Hw [E Hc]. unfold up_ok in *.
  rewrite (at_frame m mi (Vec (off x) (len z) (cap x)) _ _ _ Hf), !go_bind_ret by (done || unfold valid; simpl; lia).
  cbn [off]. set (xi := get m (off x + i)). destruct (carry_add_word xi c (words_get _ _ Hm) Hc) as [Ec Hc'].
  do 2 eexists. split; [done|]. split; [apply uw_word|]. split; [|done].
  rewrite !num_snoc, B_next by lia. fold xi. nia.
Qed.

Lemma subVW_g_spec m z x y : words m → valid m z → valid m x → len z <= cap x → 0 <= y <= 1 → up_ok z x (len z) →
  subVW_g m z x y ⇓ λ '(m', c), frame m m' (off z) (len z) ∧ words m' ∧
    num m' (off z) (len z) - c * _B ^ len z = num m (off x) (len z) - y ∧ 0 <= c <= 1.
Proof.
  intros Hm Hz Hx Hlx Hy Hax. unfold subVW_g. pose proof Hz as (_ & Hl & _). pose proof Hx as (Hox & Hlx' & Hcx).
  rewrite part_to_eq, go_bind_ret by lia. cbn [len].
  apply up_loop with (I := λ i s c, s - c * _B ^ i = num m (off x) i - y ∧ 0 <= c <= 1);
    [done|done|lia|rewrite num_0 by done; lia|].
  intros i mi c Hi Hf Hw [E Hc]. unfold up_ok in *.
  rewrite (at_frame m mi (Vec (off x) (len z) (cap x)) _ _ _ Hf), !go_bind_ret by (done || unfold valid; simpl; lia).
  cbn [off]. set (xi := get m (off x + i)). destruct (carry_sub_word xi c (words_get _ _ Hm) Hc) as [Ec Hc'].
  do 2 eexists. split; [done|]. split; [apply uw_word|]. split; [|done].
  rewrite !num_snoc, B_next by lia. fold xi. nia.
Qed.

Lemma mulAddVWW_g_spec m z x y r : words m → valid m z → valid m x → len z <= len x → is_word y → is_word r → up_ok z x (len z) →
  mulAddVWW_g m z x y r ⇓ λ '(m', c), frame m m' (off z) (len z) ∧ words m' ∧
    num m' (off z) (len z) + c * _B ^ len z = num m (off x) (len z) * y + r ∧ is_word c.
Proof.
  intros Hm Hz Hx Hlx Hy Hr Hax. unfold mulAddVWW_g. pose proof Hz as (_ & Hl & _).
  apply up_loop with (I := λ i s c, s + c * _B ^ i = num m (off x) i * y + r ∧ is_word c);
    [done|done|lia|rewrite num_0 by done; split; [lia|done]|].
  intros i mi c Hi Hf Hw [E Hc]. unfold up_ok in *.
  rewrite (at_frame m mi x _ _ _ Hf), !go_bind_ret by (done || lia).
  pose proof (mulAddWWW_g_spec _ _ _ (words_get m (off x + i) Hm) Hy Hc) as H. destruct (mulAddWWW_g _ y c) as [c' zi].
  destruct H as (E' & Hc' & Hzi). do 2 eexists. split; [done|]. split; [done|]. split; [|done].
  rewrite !num_snoc, B_next by lia. nia.
Qed.

Lemma addMulVVW_g_spec m z x y : words m → valid m z → valid m x → len z <= len x → is_word y → up_ok z x (len z) →
  addMulVVW_g m z x y ⇓ λ '(m', c), frame m m' (off z) (len z) ∧ words m' ∧
    num m' (off z) (len z) + c * _B ^ len z = num m (off z) (len z) + num m (off x) (len z) * y ∧ is_word c.
Proof.
  intros Hm Hz Hx Hlx Hy Hax. unfold addMulVVW_g. pose proof Hz as (_ & Hl & _). pose proof _B_bound.
  apply up_loop with (I := λ i s c, s + c * _B ^ i = num m (off z) i + num m (off x) i * y ∧ is_word c);
    [done|done|lia|rewrite !num_0 by done; split; [lia|unfold is_word; lia]|].
  intros i mi c Hi Hf Hw [E Hc]. unfold up_ok in *.
  rewrite (at_frame m mi x _ _ _ Hf), (at_frame m mi z _ _ _ Hf), !go_bind_ret by (done || lia).
  set (xi := get m (off x + i)). set (zi := get m (off z + i)).
  pose proof (words_get m (off x + i) Hm : is_word xi) as Hxi. pose proof (words_get m (off z + i) Hm : is_word zi) as Hzi.
  pose proof (mulAddWWW_g_spec xi y zi Hxi Hy Hzi) as H1. destruct (mulAddWWW_g xi y zi) as [z1 z0]. destruct H1 as (E1 & Hz1 & Hz0).
  pose proof (addWW_g_spec z0 c 0 Hz0 Hc ltac:(lia)) as H2. destruct (addWW_g z0 c 0) as [c1 z2]. destruct H2 as (E2 & Hc1 & Hz2).
  unfold is_word in *. assert (xi * y <= (_B - 1) * (_B - 1)) by (apply Z.mul_le_mono_nonneg; lia).
  assert (c1 + z1 < _B) by (apply (Z.mul_lt_mono_pos_r _B); lia).
  rewrite uw_small by (unfold is_word; lia). do 2 eexists. split; [done|]. split; [done|]. split; [|lia].
  rewrite !num_snoc, B_next by lia. fold xi zi. nia.
Qed.

(** The rule of the downward loops, that write the words from [n - 1] to [a]. *)
Lemma down_loop (m : mem) (z : vector) (body : Z → mem * Z → go (mem * Z)) (I : Z → Z → Z → Prop) (a n c : Z) :
  words m → valid m z → 0 <= a <= n → n <= len z → I n 0 c →
  (∀ i mi c, a <= i < n → frame m mi (off z + i + 1) (n - 1 - i) → words mi → I (i + 1) (num mi (off z + i + 1) (n - 1 - i)) c →
    ∃ v c', body i (mi, c) = (m' ← put mi z i v; Ret (m', c')) ∧ is_word v ∧ I i (v + _B * num mi (off z + i + 1) (n - 1 - i)) c') →
  for_down (n - 1) a body (m, c) ⇓ λ '(m', c), frame m m' (off z + a) (n - a) ∧ words m' ∧ I a (num m' (off z + a) (n - a)) c.
Proof.
  intros Hm Hz Ha Hn H0 Hbody. pose proof Hz as (Ho & Hl & Hc).
  apply wp_for_down with (I := λ i '(mi, c), frame m mi (off z + i + 1) (n - 1 - i) ∧ words mi ∧ I (i + 1) (num mi (off z + i + 1) (n - 1 - i)) c).
  - intros i [mi ci] Hi (Hf & Hw & HI). destruct (Hbody i mi ci ltac:(lia) Hf Hw HI) as (v & c' & -> & Hv & HI').
    rewrite put_eq, go_bind_ret by (lia || by eapply valid_frame). apply wp_ret.
    destruct (frame_down m mi (off z + i) (n - 1 - i) v Hf Hw Hv) as (Hf' & Hw' & En); [lia..|].
    replace (off z + (i - 1) + 1) with (off z + i) by lia. replace (n - 1 - (i - 1)) with (n - 1 - i + 1) by lia.
    replace (i - 1 + 1) with i by lia. rewrite En. done.
  - replace (n - 1 - (n - 1)) with 0 by lia. rewrite num_0 by done. replace (n - 1 + 1) with n by lia.
    split; [apply frame_refl|]. done.
  - intros [m' c']. replace (Z.min (n - 1) (a - 1)) with (a - 1) by lia.
    replace (off z + (a - 1) + 1) with (off z + a) by lia. replace (n - 1 - (a - 1)) with (n - a) by lia. by replace (a - 1 + 1) with a by lia.
Qed.

Lemma divWVW_g_spec m z xn x y : words m → valid m z → valid m x → len z <= len x → is_word y → 0 <= xn < y → down_ok z x (len z) →
  divWVW_g m z xn x y ⇓ λ '(m', r), frame m m' (off z) (len z) ∧ words m' ∧
    xn * _B ^ len z + num m (off x) (len z) = num m' (off z) (len z) * y + r ∧ 0 <= r < y.
Proof.
  intros Hm Hz Hx Hlx Hy Hxn Hax. unfold divWVW_g. pose proof Hz as (_ & Hl & _).
  eapply wp_mono; [apply down_loop with (z := z) (n := len z)
    (I := λ i s r, xn * _B ^ (len z - i) + num m (off x + i) (len z - i) = s * y + r ∧ 0 <= r < y); [done|done|lia|done| |]|].
  - rewrite Z.sub_diag, num_0 by lia. lia.
  - intros i mi r Hi Hf Hw [E Hr]. unfold down_ok in *. rewrite (at_frame m mi x _ _ _ Hf), !go_bind_ret by (done || lia).
    pose proof (words_get m (off x + i) Hm) as Hxi. set (xi := get m (off x + i)) in *. unfold is_word in Hxi, Hy.
    rewrite divWW_g_spec, go_bind_ret by (unfold is_word; lia). assert (y ≠ 0) as Hy0 by lia. assert (0 < y) as Hy1 by lia.
    pose proof (Z.div_mod (r * _B + xi) y Hy0). pose proof (Z.mod_pos_bound (r * _B + xi) y Hy1).
    exists ((r * _B + xi) / y), ((r * _B + xi) mod y). split; [reflexivity|]. split.
    + split; [apply Z.div_pos; nia|apply Z.div_lt_upper_bound; nia].
    + split; [|lia]. replace (len z - i) with (len z - (i + 1) + 1) by lia. rewrite B_next, num_cons by lia. fold xi.
      replace (off x + (i + 1)) with (off x + i + 1) in E by lia. replace (len z - 1 - i) with (len z - (i + 1)) in * by lia. nia.
  - intros [m' r]. by rewrite !Z.add_0_r, Z.sub_0_r.
Qed.

(** A word shifted left is its high bits and the rest; and right. *)
Lemma shl_split x s : is_word x → 0 <= s < _W →
  Z.shiftr x (_W - s) * _B + uw (Z.shiftl x s) = x * 2 ^ s ∧ 0 <= Z.shiftr x (_W - s) < 2 ^ s ∧ uw (Z.shiftl x s) mod 2 ^ s = 0.
Proof.
  intros Hx Hs. assert (is_word 0 ∧ 0 * 2 ^ s < _B) as [H0 H1] by (unfold is_word; pose proof _B_bound; lia).
  destruct (shifted 0 x s H0 Hx Hs H1) as (_ & E & Hd).
  rewrite Z.mul_0_l, !Z.add_0_l in E. rewrite Z.shiftr_div_pow2 by lia. split; [exact E|]. split; [exact Hd|].
  replace (uw (Z.shiftl x s)) with ((x - x / 2 ^ (_W - s) * 2 ^ (_W - s)) * 2 ^ s); [apply Z.mod_mul; lia|].
  assert (_B = 2 ^ (_W - s) * 2 ^ s) as EB by (rewrite _B_eq, <- Z.pow_add_r by lia; f_equal; lia). nia.
Qed.

Lemma shr_split x s : is_word x → 0 <= s < _W →
  x = Z.shiftr x s * 2 ^ s + x mod 2 ^ s ∧ uw (Z.shiftl x (_W - s)) = (x mod 2 ^ s) * 2 ^ (_W - s) ∧
  0 <= Z.shiftr x s < 2 ^ (_W - s) ∧ 0 <= x mod 2 ^ s < 2 ^ s ∧ _B = 2 ^ (_W - s) * 2 ^ s.
Proof.
  unfold is_word. intros Hx Hs. assert (_B = 2 ^ (_W - s) * 2 ^ s) as EB by (rewrite _B_eq, <- Z.pow_add_r by lia; f_equal; lia).
  assert (0 < 2 ^ s) as H0 by (apply Z.pow_pos_nonneg; lia). assert (2 ^ s ≠ 0) as H0' by lia.
  assert (0 < 2 ^ (_W - s)) as H1 by (apply Z.pow_pos_nonneg; lia).
  pose proof (Z.div_mod x _ H0'). pose proof (Z.mod_pos_bound x _ H0).
  rewrite Z.shiftr_div_pow2, Z.shiftl_mul_pow2 by lia. split; [lia|]. split; [|split; [|done]].
  - rewrite uw_eq, EB, (Z.mul_comm (2 ^ (_W - s))). apply Z.mul_mod_distr_r; lia.
  - split; [apply Z.div_pos; lia|apply Z.div_lt_upper_bound; lia].
Qed.

Lemma is_word_lor_shl x y s : is_word x → is_word y → 0 <= s < _W →
  Z.lor (uw (Z.shiftl x s)) (Z.shiftr y (_W - s)) = uw (Z.shiftl x s) + Z.shiftr y (_W - s) ∧ is_word (Z.lor (uw (Z.shiftl x s)) (Z.shiftr y (_W - s))).
Proof.
  intros Hx Hy Hs. destruct (shl_split x s Hx Hs) as (Ex & Hx1 & Hm), (shl_split y s Hy Hs) as (Ey & Hy1 & _).
  rewrite (lor_high_add _ s) by (done || lia). split; [done|]. pose proof (uw_word (Z.shiftl x s)) as Hu. unfold is_word in *.
  assert (_B = 2 ^ (_W - s) * 2 ^ s) as EB by (rewrite _B_eq, <- Z.pow_add_r by lia; f_equal; lia).
  assert (0 < 2 ^ s) by (apply Z.pow_pos_nonneg; lia). apply Z.div_exact in Hm; [|lia].
  assert (uw (Z.shiftl x s) / 2 ^ s < 2 ^ (_W - s)) by (apply (Z.mul_lt_mono_pos_r (2 ^ s)); lia). nia.
Qed.

Lemma is_word_lor_shr x y s : is_word x → is_word y → 0 <= s < _W →
  Z.lor (Z.shiftr x s) (uw (Z.shiftl y (_W - s))) = Z.shiftr x s + (y mod 2 ^ s) * 2 ^ (_W - s) ∧
  is_word (Z.lor (Z.shiftr x s) (uw (Z.shiftl y (_W - s)))).
Proof.
  intros Hx Hy Hs. destruct (shr_split x s Hx Hs) as (_ & _ & Hx1 & _ & EB), (shr_split y s Hy Hs) as (_ & Ey & _ & Hy2 & _).
  assert (0 < 2 ^ (_W - s)) by (apply Z.pow_pos_nonneg; lia).
  rewrite Ey, Z.lor_comm, (lor_high_add _ (_W - s)) by (lia || (apply Z.mod_mul; lia)). split; [lia|]. unfold is_word. nia.
Qed.

Lemma shlVU_g_spec m z x s : words m → valid m z → valid m x → len z <= len x → 0 <= s < _W → down_ok z x (len z) →
  shlVU_g m z x s ⇓ λ '(m', c), frame m m' (off z) (len z) ∧ words m' ∧
    num m' (off z) (len z) + c * _B ^ len z = num m (off x) (len z) * 2 ^ s ∧ 0 <= c < 2 ^ s.
Proof.
  intros Hm Hz Hx Hlx Hs Hax. unfold shlVU_g. pose proof Hz as (Hoz & Hl & Hcz). assert (0 < 2 ^ s) by (apply Z.pow_pos_nonneg; lia).
  destruct (Z.ltb_spec 0 (len z)) as [Hn|Hn].
  2: { apply wp_ret. replace (len z) with 0 by lia. rewrite !num_0 by done. split; [apply frame_refl|]. split; [done|lia]. }
  set (n := len z) in *. unfold down_ok in *. rewrite at_eq, go_bind_ret by (done || lia).
  set (c := Z.shiftr (get m (off x + (n - 1))) (_W - s)).
  eapply wp_bind_mono.
  { apply down_loop with (z := z) (n := n) (a := 1) (I := λ i q w, w = get m (off x + (i - 1)) ∧
      c * _B ^ (n - i) + q = num m (off x + i) (n - i) * 2 ^ s + Z.shiftr w (_W - s)); [done|done|lia|lia| |].
    - split; [done|]. rewrite Z.sub_diag, num_0 by lia. unfold c. lia.
    - intros i mi w Hi Hf Hw [-> E]. rewrite (at_frame m mi x _ _ _ Hf), go_bind_ret by (done || lia).
      replace (off x + (i + 1 - 1)) with (off x + i) in * by lia.
      pose proof (words_get m (off x + i) Hm) as Hwi. pose proof (words_get m (off x + (i - 1)) Hm) as Hwi'.
      destruct (is_word_lor_shl _ _ s Hwi Hwi' Hs) as [El Hl'].
      eexists _, _. split; [reflexivity|]. split; [exact Hl'|]. split; [done|]. rewrite El.
      destruct (shl_split _ s Hwi Hs) as (Ex & _). replace (n - i) with (n - (i + 1) + 1) by lia. rewrite B_next, num_cons by lia.
      replace (off x + (i + 1)) with (off x + i + 1) in E by lia. replace (n - 1 - i) with (n - (i + 1)) in * by lia. nia. }
  intros [mi w] (Hf & Hw & -> & E). replace (off x + (1 - 1)) with (off x) in * by lia.
  rewrite put_eq, go_bind_ret by (lia || by eapply valid_frame). apply wp_ret. rewrite Z.add_0_r.
  destruct (frame_down m mi (off z) (n - 1) (uw (Z.shiftl (get m (off x)) s)) Hf Hw (uw_word _)) as (Hf' & Hw' & En); [lia..|].
  destruct (shl_split _ s (words_get m (off x) Hm) Hs) as (Ex & _). destruct (shl_split _ s (words_get m (off x + (n - 1)) Hm) Hs) as (_ & Hc & _).
  replace (n - 1 + 1) with n in * by lia. split; [done|]. split; [done|]. split; [|exact Hc].
  rewrite En. replace n with (n - 1 + 1) at 2 3 by lia. rewrite B_next, num_cons by lia. nia.
Qed.

Lemma shrVU_g_spec m z x s : words m → valid m z → valid m x → len z <= len x → 0 <= s < _W → up_ok z x (len z) →
  shrVU_g m z x s ⇓ λ '(m', c), frame m m' (off z) (len z) ∧ words m' ∧
    num m' (off z) (len z) = num m (off x) (len z) / 2 ^ s ∧ c = (num m (off x) (len z) mod 2 ^ s) * 2 ^ (_W - s).
Proof.
  intros Hm Hz Hx Hlx Hs Hax. unfold shrVU_g. pose proof Hz as (Hoz & Hl & Hcz). assert (0 < 2 ^ s) as Hp by (apply Z.pow_pos_nonneg; lia).
  destruct (Z.ltb_spec 0 (len z)) as [Hn|Hn].
  2: { apply wp_ret. replace (len z) with 0 by lia. rewrite !num_0, Zdiv_0_l, Zmod_0_l by done. split; [apply frame_refl|]. done. }
  set (n := len z) in *. unfold up_ok in *. rewrite at_eq, go_bind_ret by (done || lia). rewrite Z.add_0_r. set (x0 := get m (off x)).
  eapply wp_bind_mono.
  { apply up_loop with (z := z) (n := n - 1) (I := λ i q w, w = get m (off x + i) ∧
      q * 2 ^ s + x0 mod 2 ^ s = num m (off x) i + (w mod 2 ^ s) * _B ^ i); [done|done|lia| |].
    - rewrite Z.add_0_r. split; [done|]. rewrite num_0 by done. unfold x0. lia.
    - intros i mi w Hi Hf Hw [-> E]. rewrite (at_frame m mi x _ _ _ Hf), go_bind_ret by (done || lia).
      pose proof (words_get m (off x + i) Hm) as Hwi. pose proof (words_get m (off x + (i + 1)) Hm) as Hwi'.
      destruct (is_word_lor_shr _ _ s Hwi Hwi' Hs) as [El Hl'].
      eexists _, _. split; [reflexivity|]. split; [exact Hl'|]. split; [done|]. rewrite El, B_next, num_snoc by lia.
      destruct (shr_split _ s Hwi Hs) as (Ex & _ & _ & _ & EB). nia. }
  intros [mi w] (Hf & Hw & -> & E). rewrite put_eq, go_bind_ret by (lia || by eapply valid_frame). apply wp_ret.
  destruct (shr_split _ s (words_get m (off x + (n - 1)) Hm) Hs) as (Ex & _ & Hs1 & _ & EB).
  assert (is_word (Z.shiftr (get m (off x + (n - 1))) s)) as Hs2 by (unfold is_word; nia).
  destruct (frame_up m mi (off z) (n - 1) _ Hf Hw Hs2) as (Hf' & Hw' & En & _); [lia..|].
  destruct (shr_split _ s (words_get m (off x) Hm) Hs) as (_ & Ec & _ & Hc & _). fold x0 in Ec, Hc.
  replace (n - 1 + 1) with n in * by lia. split; [done|]. split; [done|]. rewrite En.
  assert (num m (off x) n = (num mi (off z) (n - 1) + Z.shiftr (get m (off x + (n - 1))) s * _B ^ (n - 1)) * 2 ^ s + x0 mod 2 ^ s) as ET.
  { replace n with (n - 1 + 1) at 1 by lia. rewrite num_snoc by lia. nia. }
  rewrite ET, (Z.add_comm (_ * _)), Z.div_add, Z.mod_add, Z.div_small, Z.mod_small by lia. lia.
Qed.
End num.
