(* ===== verification/BigNat.v ===== *)
(** Natural numbers: the storage, comparison, addition and subtraction of
    [src/src/math/big/nat.go]. *)
From S2P Require Import Prelude.
From S2P Require Import BigWord.
From S2P Require Import BigVec.

Abbreviation nat_ := vector (only parsing).
Definition nil_ : nat_ := Vec 0 0 0.

(** [copy(z, x)]. *)
Definition vcopy (m : mem) (z x : vector) : mem :=
  (copy m (off z) (take (Z.to_nat (Z.min (len z) (len x))) (drop (Z.to_nat (off x)) m))).1.

Definition clear (m : mem) (z : nat_) : go mem := for_up 0 (len z) (λ i m, put m z i 0) m.

Definition norm (m : mem) (z : nat_) : go nat_ :=
  i ← while (S (Z.to_nat (len z))) (λ i, if 0 <? i then d ← at_ m z (i - 1); Ret (d =? 0) else Ret false) (λ i, Ret (i - 1)) (len z);
  part z 0 i.

(** [make] takes the storage of [z] if it is enough, and allocates otherwise. *)
Definition make_ (m : mem) (z : nat_) (n : Z) : go (mem * nat_) :=
  if n <=? cap z then z ← part_to z n; Ret (m, z)
  else Ret (m ++ replicate (Z.to_nat (n + 4)) 0, Vec (zlen m) n (n + 4)).

Definition setWord (m : mem) (z : nat_) (x : Z) : go (mem * nat_) :=
  if x =? 0 then z ← part_to z 0; Ret (m, z) else
  '(m, z) ← make_ m z 1;
  m ← put m z 0 x;
  Ret (m, z).

Definition set (m : mem) (z x : nat_) : go (mem * nat_) :=
  '(m, z) ← make_ m z (len x);
  Ret (vcopy m z x, z).

Section nat.
Context `{M : Machine}.

Definition setUint64 (m : mem) (z : nat_) (x : Z) : go (mem * nat_) :=
  let w := uw x in
  if w =? x then setWord m z w else
  '(n, _) ← while 3 (λ '(n, t), Ret (0 <? t)) (λ '(n, t), Ret (n + 1, Z.shiftr t _W)) (0, x);
  '(m, z) ← make_ m z n;
  '(m, _) ← for_up 0 (len z) (λ i '(m, x),
    m ← put m z i (Z.land x _M);
    Ret (m, Z.shiftr x _W)) (m, x);
  Ret (m, z).

(** [add] where [x] is at least as long as [y], as it is after the first case. *)
Definition add_ge (m : mem) (z x y : nat_) : go (mem * nat_) :=
  let k := len x in
  let n := len y in
  if k =? 0 then z ← part_to z 0; Ret (m, z)
  else if n =? 0 then set m z x
  else
    '(m, z) ← make_ m z (k + 1);
    z0 ← part z 0 n;
    '(m, c) ← addVV_g m z0 x y;
    '(m, c) ← (if n <? k then z1 ← part z n k; x1 ← part_from x n; addVW_g m z1 x1 c else Ret (m, c));
    m ← put m z k c;
    z ← norm m z;
    Ret (m, z).
Definition add (m : mem) (z x y : nat_) : go (mem * nat_) :=
  if len x <? len y then add_ge m z y x else add_ge m z x y.

Definition sub (m : mem) (z x y : nat_) : go (mem * nat_) :=
  let k := len x in
  let n := len y in
  if k <? n then Panic "underflow"
  else if k =? 0 then z ← part_to z 0; Ret (m, z)
  else if n =? 0 then set m z x
  else
    '(m, z) ← make_ m z k;
    z0 ← part z 0 n;
    '(m, c) ← subVV_g m z0 x y;
    '(m, c) ← (if n <? k then z1 ← part_from z n; x1 ← part_from x n; subVW_g m z1 x1 c else Ret (m, c));
    if negb (c =? 0) then Panic "underflow" else
    z ← norm m z;
    Ret (m, z).

Definition cmp (m : mem) (x y : nat_) : go Z :=
  let k := len x in
  let n := len y in
  if negb (k =? n) || (k =? 0) then Ret (if k <? n then -1 else if n <? k then 1 else 0) else
  i ← while (S (Z.to_nat k)) (λ i, if 0 <? i then a ← at_ m x i; b ← at_ m y i; Ret (a =? b) else Ret false) (λ i, Ret (i - 1)) (k - 1);
  a ← at_ m x i;
  b ← at_ m y i;
  Ret (if a <? b then -1 else if b <? a then 1 else 0).

Definition mulAddWW (m : mem) (z x : nat_) (y r : Z) : go (mem * nat_) :=
  let k := len x in
  if (k =? 0) || (y =? 0) then setWord m z r else
  '(m, z) ← make_ m z (k + 1);
  z0 ← part z 0 k;
  '(m, c) ← mulAddVWW_g m z0 x y r;
  m ← put m z k c;
  z ← norm m z;
  Ret (m, z).
End nat.

Example nat_run :
  (let m := [2 ^ 32 - 1; 2 ^ 32 - 1; 1; 0; 0; 0] in
   @add machine32 m (Vec 0 2 2) (Vec 0 2 2) (Vec 2 1 1) = Ret (m ++ [0; 0; 1; 0; 0; 0; 0], Vec 6 3 7) ∧
   @sub machine32 m (Vec 0 2 2) (Vec 0 2 2) (Vec 2 1 1) = Ret ([2 ^ 32 - 2; 2 ^ 32 - 1; 1; 0; 0; 0], Vec 0 2 2) ∧
   @sub machine32 m (Vec 0 2 2) (Vec 2 1 1) (Vec 0 2 2) = Panic "underflow" ∧
   cmp m (Vec 0 2 2) (Vec 2 1 1) = Ret 1 ∧
   @setUint64 machine32 m nil_ (2 ^ 40) = Ret (m ++ [0; 256; 0; 0; 0; 0], Vec 6 2 6)).
Proof. by vm_compute. Qed.

(** * Storage *)

Section storage.
Context `{M : Machine}.
Abbreviation words m := (Forall is_word m).

(** [m'] keeps what [m] has outside of the storage of [z]. *)
Definition keeps (m : mem) (z : nat_) (m' : mem) : Prop :=
  zlen m <= zlen m' ∧ ∀ i, i < zlen m → ¬ off z <= i < off z + cap z → get m' i = get m i.
(** [r] has the storage of [z], or storage allocated since. *)
Definition placed (m : mem) (z r : nat_) : Prop := off r = off z ∧ cap r = cap z ∨ zlen m <= off r.
Definition inside (m : mem) (z : nat_) (m' : mem) (r : nat_) : Prop := words m' ∧ valid m' r ∧ placed m z r ∧ keeps m z m'.

Definition apart (z x : nat_) : Prop := off z + cap z <= off x ∨ off x + cap x <= off z.
(** An operand starts where the receiver does, or is apart from it. *)
Definition safe (z x : nat_) : Prop := off x = off z ∨ apart z x.

(** A number: its words, without leading zeros, and its value. *)
Definition is_nat (m : mem) (x : nat_) (v : Z) : Prop :=
  valid m x ∧ num m (off x) (len x) = v ∧ (0 < len x → get m (off x + len x - 1) ≠ 0).

Lemma keeps_refl m z : keeps m z m.
Proof. by split. Qed.
Lemma inside_refl m z : words m → valid m z → inside m z m z.
Proof. intros Hm Hz. split; [done|]. split; [done|]. split; [by left|apply keeps_refl]. Qed.

Lemma inside_write m z m1 r m2 o n : inside m z m1 r → frame m1 m2 o n → words m2 → (n <= 0 ∨ off r <= o ∧ o + n <= off r + cap r) → inside m z m2 r.
Proof.
  intros (Hw & Hv & Hp & Hl & Hk) Hf Hw2 Ho. split; [done|]. split; [by eapply valid_frame|]. split; [done|].
  destruct Hf as [Hz Hf]. split; [lia|]. intros i Hi Hni. rewrite Hf; [by apply Hk|]. destruct Hp as [[E1 E2]|Hp]; lia.
Qed.

Lemma inside_len m z m1 r n : inside m z m1 r → 0 <= n <= cap r → inside m z m1 (Vec (off r) n (cap r)).
Proof. intros (Hw & (? & ? & ?) & Hp & Hk) Hn. split; [done|]. split; [done|]. by split. Qed.

Lemma inside_same m z m1 r r' : inside m z m1 r → off r' = off r → cap r' = cap r → 0 <= len r' <= cap r → inside m z m1 r'.
Proof. destruct r' as [o n c]. simpl. intros H -> -> Hn. by apply inside_len. Qed.

Lemma get_app_l m k i : i < zlen m → get (m ++ k) i = get m i.
Proof. intros Hi. unfold get. rewrite nthZ_app. by rewrite decide_True. Qed.

Lemma words_zeros n : words (replicate n 0).
Proof. apply Forall_replicate. unfold is_word. pose proof _B_bound. lia. Qed.

Lemma make_spec m z n : words m → valid m z → 0 <= n → make_ m z n ⇓ λ '(m1, z1),
  inside m z m1 z1 ∧ len z1 = n ∧ (∀ i, i < zlen m → get m1 i = get m i) ∧ (zlen m <= off z1 ∨ n <= cap z ∧ m1 = m).
Proof.
  intros Hm Hz Hn. pose proof Hz as (? & ? & ?). unfold make_. destruct (Z.leb_spec n (cap z)).
  - rewrite part_to_eq, go_bind_ret by lia. apply wp_ret. split; [apply inside_len; [by apply inside_refl|lia]|]. split; [done|]. split; [done|by right].
  - apply wp_ret. split; [|split; [done|split; [by intros; apply get_app_l|by left]]].
    pose proof (zlen_replicate (n + 4) 0 ltac:(lia)) as Hr. split; [apply Forall_app; split; [done|apply words_zeros]|].
    split; [unfold valid; simpl; rewrite zlen_app, Hr; pose proof (zlen_nonneg m); lia|]. split; [by right|].
    split; [rewrite zlen_app; lia|]. intros i Hi _. by apply get_app_l.
Qed.

(** What [make] does to the operands: they are unchanged, and can be read while the result is written. *)
Lemma operand m z m1 z1 x : inside m z m1 z1 → (∀ i, i < zlen m → get m1 i = get m i) → valid m x → safe z x →
  valid m1 x ∧ safe z1 x ∧ ∀ o n, o + n <= zlen m → num m1 o n = num m o n.
Proof.
  intros (_ & _ & Hp & Hl & _) Hg Hx Hs. destruct Hx as (? & ? & ?). split; [unfold valid; lia|]. split.
  - unfold safe, apart in *. destruct Hp as [[E1 E2]|]; lia.
  - intros o n Ho. apply num_ext. intros i Hi. apply Hg. lia.
Qed.

Lemma safe_up z x n k : safe z x → 0 <= cap z → n <= cap x → up_ok (Vec (off z) k (cap z)) x n.
Proof. unfold safe, apart, up_ok. simpl. lia. Qed.
Lemma safe_down z x n k : safe z x → 0 <= cap x → n <= cap z → down_ok (Vec (off z) k (cap z)) x n.
Proof. unfold safe, apart, down_ok. simpl. lia. Qed.

(** Writing through a slice of the result leaves the rest of an operand. *)
Lemma operand_rest z x m1 m2 n o k : safe z x → frame m1 m2 (off z) n → 0 <= n <= cap z → 0 <= o → o + k <= cap x → (k <= 0 ∨ n <= o) →
  num m2 (off x + o) k = num m1 (off x + o) k.
Proof.
  intros Hs [_ Hf] Hn Ho Hk Hno. apply num_ext. intros i Hi. apply Hf. unfold safe, apart in Hs. lia.
Qed.

(** ** Normalizing *)

Lemma nat_norm_spec m z : valid m z → norm m z ⇓ λ r, off r = off z ∧ cap r = cap z ∧ 0 <= len r <= len z ∧
  num m (off r) (len r) = num m (off z) (len z) ∧ (0 < len r → get m (off r + len r - 1) ≠ 0).
Proof.
  intros Hz. pose proof Hz as (Ho & Hl & Hc). unfold norm.
  eapply wp_bind_mono with (Q := λ i, 0 <= i <= len z ∧ num m (off z) i = num m (off z) (len z) ∧ (0 < i → get m (off z + i - 1) ≠ 0)).
  - apply wp_while with (I := λ i, 0 <= i <= len z ∧ num m (off z) i = num m (off z) (len z)) (meas := λ i, i); [|lia|lia].
    intros i [Hi E]. destruct (Z.ltb_spec 0 i) as [H0|H0]; [|apply wp_ret; lia].
    rewrite at_eq, go_bind_ret by (done || lia). apply wp_ret. replace (off z + (i - 1)) with (off z + i - 1) by lia.
    destruct (Z.eqb_spec (get m (off z + i - 1)) 0) as [Ez|Ez]; [|done]. apply wp_ret. split; [|lia]. split; [lia|].
    rewrite <- E. replace i with (i - 1 + 1) at 2 by lia. rewrite num_snoc by lia. replace (off z + (i - 1)) with (off z + i - 1) by lia. lia.
  - intros i (Hi & E & Hn). rewrite part_eq by lia. apply wp_ret. simpl. rewrite Z.add_0_r, !Z.sub_0_r. lia.
Qed.

(** The end of an operation: the result is normalized. *)
Lemma norm_result m z m2 z2 v : inside m z m2 z2 → num m2 (off z2) (len z2) = v →
  (r ← norm m2 z2; Ret (m2, r)) ⇓ λ '(m', r), inside m z m' r ∧ is_nat m' r v.
Proof.
  intros Hi E. pose proof Hi as (Hw & Hv & _). eapply wp_bind_mono; [by apply nat_norm_spec|].
  intros r (Ho & Hc & Hl & En & Hn). apply wp_ret. pose proof Hv as (? & ? & ?).
  assert (inside m z m2 r) as Hr by (eapply inside_same; [done..|lia]). split; [done|]. split; [apply Hr|]. split; [congruence|done].
Qed.

Lemma empty_result m z : words m → valid m z → (r ← part_to z 0; Ret (m, r)) ⇓ λ '(m', r), inside m z m' r ∧ is_nat m' r 0.
Proof.
  intros Hm Hz. pose proof Hz as (? & ? & ?). rewrite part_to_eq, go_bind_ret by lia. apply wp_ret.
  assert (inside m z m (Vec (off z) 0 (cap z))) as Hr by (apply inside_len; [by apply inside_refl|lia]).
  split; [done|]. split; [apply Hr|]. simpl. split; [by apply num_0|lia].
Qed.

Lemma nat_pos m x v : words m → is_nat m x v → 0 <= v < _B ^ len x ∧ (0 < len x → _B ^ (len x - 1) <= v).
Proof.
  intros Hm ((Ho & Hl & Hc) & <- & Hn). split; [apply num_bound; [done|lia]|]. intros H0. specialize (Hn H0).
  replace (len x) with (len x - 1 + 1) at 2 by lia. rewrite num_snoc by lia.
  replace (off x + (len x - 1)) with (off x + len x - 1) by lia. pose proof (num_bound m (off x) (len x - 1) Hm ltac:(lia)).
  pose proof (words_get m (off x + len x - 1) Hm) as [Hg _]. pose proof (_B_pow (len x - 1) ltac:(lia)). nia.
Qed.

Lemma is_nat_ext m m' x v : zlen m <= zlen m' → (∀ i, off x <= i < off x + len x → get m' i = get m i) → is_nat m x v → is_nat m' x v.
Proof.
  intros Hl Hg ((Ho & Hlx & Hc) & E & Hn). split; [unfold valid; lia|]. split; [by rewrite (num_ext m m')|].
  intros H0. rewrite Hg by lia. by apply Hn.
Qed.

(** ** Copying *)

Lemma vcopy_get m z x : valid m z → valid m x → let n := Z.min (len z) (len x) in
  zlen (vcopy m z x) = zlen m ∧ ∀ i, get (vcopy m z x) i = if decide (off z <= i < off z + n) then get m (off x + (i - off z)) else get m i.
Proof.
  intros (Hoz & Hlz & Hcz) (Hox & Hlx & Hcx) n. unfold vcopy. fold n. set (src := take (Z.to_nat n) (drop (Z.to_nat (off x)) m)).
  assert (zlen src = n) as Hsrc by (unfold src; rewrite zlen_take; [done|rewrite zlen_drop; lia]).
  set (l := take (Z.to_nat (off z)) m). set (k := drop (Z.to_nat (off z)) m).
  assert (zlen l = off z) as Hl by (apply zlen_take; lia). assert (zlen k = zlen m - off z) as Hk by (apply zlen_drop; lia).
  assert (m = l ++ k) as E by (symmetry; apply take_drop).
  assert (copy m (off z) src = ((l ++ src) ++ drop (length src) k, zlen src)) as -> by (rewrite E at 1; apply copy_cursor; lia). cbn [fst].
  assert (zlen (drop (length src) k) = zlen k - n) as Hd by (rewrite <- Hsrc in *; unfold zlen in *; rewrite length_drop; lia).
  split; [rewrite !zlen_app; lia|]. intros i. unfold get. rewrite !nthZ_app, zlen_app, Hl, Hsrc.
  case_decide as H1; [case_decide as H2; case_decide as H3; try lia; [unfold l; by rewrite nthZ_take, decide_True by lia|]|case_decide as H3; [lia|]].
  - unfold src. rewrite nthZ_take, nthZ_drop, !decide_True by lia. do 3 f_equal. lia.
  - unfold k. rewrite !nthZ_drop, !decide_True by lia. f_equal. f_equal. unfold zlen in Hsrc. lia.
Qed.

Lemma vcopy_spec m z x : words m → valid m z → valid m x → let n := Z.min (len z) (len x) in
  frame m (vcopy m z x) (off z) n ∧ words (vcopy m z x) ∧
  (∀ i, 0 <= i < n → get (vcopy m z x) (off z + i) = get m (off x + i)) ∧ (∀ k, k <= n → num (vcopy m z x) (off z) k = num m (off x) k).
Proof.
  intros Hm Hz Hx n. destruct (vcopy_get m z x Hz Hx) as [Hl Hg]. fold n in Hg.
  assert (∀ i, 0 <= i < n → get (vcopy m z x) (off z + i) = get m (off x + i)) as Hi.
  { intros i Hi. rewrite Hg, decide_True by lia. f_equal. lia. }
  split; [split; [done|intros i Hi'; by rewrite Hg, decide_False]|]. split; [|split; [done|]].
  - apply Forall_lookup. intros i v Hv. pose proof (lookup_lt_Some _ _ _ Hv).
    assert (v = get (vcopy m z x) (Z.of_nat i)) as -> by (unfold get; by rewrite nthZ_lookup, Hv).
    rewrite Hg. case_decide; by apply words_get.
  - intros k Hk. apply num_same. intros i Hi'. apply Hi. lia.
Qed.

(** * The operations *)

Lemma setWord_spec m z x : words m → valid m z → is_word x → setWord m z x ⇓ λ '(m', r), inside m z m' r ∧ is_nat m' r x.
Proof.
  intros Hm Hz Hx. unfold setWord. destruct (Z.eqb_spec x 0) as [->|H0]; [by apply empty_result|].
  eapply wp_bind_mono; [by apply make_spec; [| |lia]|]. intros [m1 z1] (Hi & Hl & _). pose proof Hi as (Hw & Hv & _).
  rewrite put_eq, go_bind_ret by (done || lia). apply wp_ret. rewrite Z.add_0_r.
  pose proof Hv as (? & ? & ?). pose proof (frame_up m1 m1 (off z1) 0 x (frame_refl _ _ _) Hw Hx) as Hf. rewrite Z.add_0_r in Hf.
  destruct Hf as (Hf & Hw' & En & Eg); [lia..|]. assert (inside m z (insZ m1 (off z1) x) z1) as Hr by (eapply inside_write; [exact Hi|exact Hf|exact Hw'|lia]).
  split; [done|]. split; [apply Hr|]. rewrite Hl. assert (num m1 (off z1) 0 = 0) as E0 by (by apply num_0). rewrite E0, Z.pow_0_r in En. change (0 + 1) with 1 in En. split; [lia|]. intros _.
  replace (off z1 + 1 - 1) with (off z1) by lia. congruence.
Qed.

Lemma set_spec m z x v : words m → valid m z → is_nat m x v → set m z x ⇓ λ '(m', r), inside m z m' r ∧ is_nat m' r v.
Proof.
  intros Hm Hz (Hx & E & Hn). pose proof Hx as (? & Hlx & ?). unfold set. eapply wp_bind_mono; [by apply make_spec; [| |lia]|].
  intros [m1 z1] (Hi & Hl & Hg & _). apply wp_ret. pose proof Hi as (Hw & Hv & _ & Hlm & _).
  assert (valid m1 x) as Hx1 by (unfold valid; lia). pose proof Hv as (? & ? & ?).
  destruct (vcopy_spec m1 z1 x Hw Hv Hx1) as (Hf & Hw' & Hgi & Hk). rewrite Hl, Z.min_id in *.
  assert (inside m z (vcopy m1 z1 x) z1) as Hr by (eapply inside_write; [exact Hi|exact Hf|exact Hw'|lia]).
  split; [done|]. split; [apply Hr|]. rewrite Hl. split.
  - rewrite Hk by lia. rewrite <- E. apply num_ext. intros i Hi'. apply Hg. lia.
  - intros Hpos. replace (off z1 + len x - 1) with (off z1 + (len x - 1)) by lia. rewrite Hgi, Hg by lia.
    replace (off x + (len x - 1)) with (off x + len x - 1) by lia. by apply Hn.
Qed.

Lemma part_0 x n : 0 <= n <= cap x → part x 0 n = Ret (Vec (off x) n (cap x)).
Proof. apply part_to_eq. Qed.

Lemma valid_vec m o n c : 0 <= o → 0 <= n <= c → o + c <= zlen m → valid m (Vec o n c).
Proof. done. Qed.

Lemma zero_nat m x v : is_nat m x v → len x = 0 → v = 0.
Proof. intros (_ & <- & _) ->. by apply num_0. Qed.

(** The carry goes through the rest of the longer operand, and the last word is written. *)
Lemma add_ge_spec m z x y vx vy : words m → valid m z → is_nat m x vx → is_nat m y vy → safe z x → safe z y → len y <= len x →
  add_ge m z x y ⇓ λ '(m', r), inside m z m' r ∧ is_nat m' r (vx + vy).
Proof.
  intros Hm Hz Hxn Hyn Hsx Hsy Hle. unfold add_ge. pose proof Hxn as (Hx & Ex & _). pose proof Hyn as (Hy & Ey & _).
  pose proof Hx as (Hox & Hlx & Hcx). pose proof Hy as (Hoy & Hly & Hcy).
  destruct (Z.eqb_spec (len x) 0) as [E|E]; [rewrite (zero_nat _ _ _ Hxn E), (zero_nat _ _ _ Hyn) by lia; by apply empty_result|].
  destruct (Z.eqb_spec (len y) 0) as [E'|E']; [rewrite (zero_nat _ _ _ Hyn E'), Z.add_0_r; by apply set_spec|].
  set (k := len x) in *. set (n := len y) in *. eapply wp_bind_mono; [apply make_spec; [done|done|lia]|].
  intros [m1 z1] (Hi & Hl1 & Hg & _). pose proof Hi as (Hw1 & (Ho1 & Hlz1 & Hc1) & _).
  destruct (operand _ _ _ _ _ Hi Hg Hx Hsx) as (Hx1 & Hsx1 & Hnum). destruct (operand _ _ _ _ _ Hi Hg Hy Hsy) as (Hy1 & Hsy1 & _).
  rewrite part_0, go_bind_ret by lia. eapply wp_bind_mono.
  { apply addVV_g_spec; [done|by apply valid_vec; lia|done|done|simpl; lia|simpl; lia|apply safe_up; (done || simpl; lia)..]. }
  intros [m2 c] (Hf2 & Hw2 & E2 & Hc2). cbn [off len] in *. rewrite !Hnum in E2 by lia.
  assert (inside m z m2 z1) as Hi2 by (eapply inside_write; [exact Hi|exact Hf2|exact Hw2|lia]).
  eapply wp_bind_mono with (Q := λ '(m3, c), inside m z m3 z1 ∧ num m3 (off z1) k + c * _B ^ k = vx + vy ∧ 0 <= c <= 1).
  - destruct (Z.ltb_spec n k) as [Hlt|Hge].
    + rewrite part_eq, go_bind_ret, part_from_eq, go_bind_ret by lia. pose proof Hi2 as (_ & (_ & _ & Hcz2) & _).
      assert (valid m2 x) as Hx2 by (by eapply valid_frame).
      eapply wp_mono; [apply addVW_g_spec; [done|apply valid_vec; lia|unfold valid in *; simpl; lia|simpl; lia|done|unfold up_ok, safe, apart in *; simpl; lia]|].
      intros [m3 c3] (Hf3 & Hw3 & E3 & Hc3). cbn [off len] in *. split; [eapply inside_write; [exact Hi2|exact Hf3|exact Hw3|lia]|]. split; [|done].
      assert (num m2 (off x + n) (k - n) = num m (off x + n) (k - n)) as Er.
      { rewrite <- (Hnum (off x + n)) by lia. apply (operand_rest z1 x m1 m2 n n (k - n) Hsx1 Hf2); lia. }
      rewrite Er in E3. assert (num m3 (off z1) n = num m2 (off z1) n) as En by (by eapply num_frame; [exact Hf3|lia]).
      rewrite <- Ex, <- Ey. replace k with (n + (k - n)) by lia. rewrite !num_app, Z.pow_add_r by lia. rewrite En. nia.
    + apply wp_ret. replace k with n in * by lia. split; [done|]. split; [lia|done].
  - intros [m3 c3] (Hi3 & E3 & Hc3). pose proof Hi3 as (Hw3 & (? & ? & ?) & _).
    rewrite put_eq, go_bind_ret by (done || lia). assert (is_word c3) as Hcw by (unfold is_word; pose proof _B_bound; lia).
    destruct (frame_up m3 m3 (off z1) k c3) as (Hf4 & Hw4 & E4 & _); [apply frame_refl|done..|lia|lia|lia|].
    apply norm_result; [eapply inside_write; [exact Hi3|exact Hf4|exact Hw4|lia]|]. rewrite Hl1, E4. lia.
Qed.

Lemma add_spec m z x y vx vy : words m → valid m z → is_nat m x vx → is_nat m y vy → safe z x → safe z y →
  add m z x y ⇓ λ '(m', r), inside m z m' r ∧ is_nat m' r (vx + vy).
Proof.
  intros. unfold add. destruct (Z.ltb_spec (len x) (len y)); [rewrite Z.add_comm|]; apply add_ge_spec; (done || lia).
Qed.

(** The words of the difference, and the borrow that is left. *)
Lemma sub_steps m z x y vx vy : words m → valid m z → is_nat m x vx → is_nat m y vy → safe z x → safe z y → 0 < len y <= len x →
  ∃ m' z' c, sub m z x y = (if negb (c =? 0) then Panic "underflow" else r ← norm m' z'; Ret (m', r)) ∧
    inside m z m' z' ∧ num m' (off z') (len z') - c * _B ^ len z' = vx - vy ∧ 0 <= c <= 1.
Proof.
  intros Hm Hz (Hx & Ex & _) (Hy & Ey & _) Hsx Hsy Hn. pose proof Hx as (Hox & Hlx & Hcx). pose proof Hy as (Hoy & Hly & Hcy).
  unfold sub. set (k := len x) in *. set (n := len y) in *. rewrite (proj2 (Z.ltb_ge _ _)), !(proj2 (Z.eqb_neq _ 0)) by lia.
  pose proof (make_spec m z k Hm Hz ltac:(lia)) as H. apply wp_ex in H as ([m1 z1] & -> & Hi & Hl1 & Hg & _). rewrite go_bind_ret.
  pose proof Hi as (Hw1 & (Ho1 & Hlz1 & Hc1) & _).
  destruct (operand _ _ _ _ _ Hi Hg Hx Hsx) as (Hx1 & Hsx1 & Hnum). destruct (operand _ _ _ _ _ Hi Hg Hy Hsy) as (Hy1 & Hsy1 & _).
  rewrite part_0, go_bind_ret by lia.
  assert (subVV_g m1 (Vec (off z1) n (cap z1)) x y ⇓ λ '(m', c), frame m1 m' (off z1) n ∧ words m' ∧
    num m' (off z1) n - c * _B ^ n = num m1 (off x) n - num m1 (off y) n ∧ 0 <= c <= 1) as H.
  { apply (subVV_g_spec m1 (Vec (off z1) n (cap z1))); [done|by apply valid_vec; lia|done|done|simpl; lia|simpl; lia|apply safe_up; (done || simpl; lia)..]. }
  apply wp_ex in H as ([m2 c] & -> & Hf2 & Hw2 & E2 & Hc2). rewrite go_bind_ret. rewrite !Hnum in E2 by lia.
  assert (inside m z m2 z1) as Hi2 by (eapply inside_write; [exact Hi|exact Hf2|exact Hw2|lia]).
  destruct (Z.ltb_spec n k) as [Hlt|Hge].
  - rewrite !part_from_eq, !go_bind_ret by lia. pose proof Hi2 as (_ & (_ & _ & Hcz2) & _). rewrite Hl1.
    assert (valid m2 x) as Hx2 by (by eapply valid_frame). fold k.
    assert (subVW_g m2 (Vec (off z1 + n) (k - n) (cap z1 - n)) (Vec (off x + n) (k - n) (cap x - n)) c ⇓ λ '(m', c'), frame m2 m' (off z1 + n) (k - n) ∧ words m' ∧
      num m' (off z1 + n) (k - n) - c' * _B ^ (k - n) = num m2 (off x + n) (k - n) - c ∧ 0 <= c' <= 1) as H.
    { apply (subVW_g_spec m2 (Vec _ _ _) (Vec _ _ _)); [done|apply valid_vec; lia|unfold valid in *; simpl; lia|simpl; lia|done|unfold up_ok, safe, apart in *; simpl; lia]. }
    apply wp_ex in H as ([m3 c3] & -> & Hf3 & Hw3 & E3 & Hc3). rewrite go_bind_ret.
    exists m3, z1, c3. split; [done|]. split; [eapply inside_write; [exact Hi2|exact Hf3|exact Hw3|lia]|]. split; [|done].
    assert (num m2 (off x + n) (k - n) = num m (off x + n) (k - n)) as Er.
    { rewrite <- (Hnum (off x + n)) by lia. apply (operand_rest z1 x m1 m2 n n (k - n) Hsx1 Hf2); lia. }
    rewrite Er in E3. assert (num m3 (off z1) n = num m2 (off z1) n) as En by (by eapply num_frame; [exact Hf3|lia]).
    rewrite <- Ex, <- Ey, Hl1. replace k with (n + (k - n)) by lia. rewrite !num_app, Z.pow_add_r by lia. rewrite En. nia.
  - rewrite go_bind_ret. exists m2, z1, c. rewrite Hl1. replace k with n in * by lia. split; [done|]. split; [done|]. lia.
Qed.

Lemma nat_len_lt m x y vx vy : words m → is_nat m x vx → is_nat m y vy → len x < len y → vx < vy.
Proof.
  intros Hm Hx Hy Hl. pose proof Hx as ((_ & ? & _) & _). destruct (nat_pos _ _ _ Hm Hx) as [[_ H1] _], (nat_pos _ _ _ Hm Hy) as [_ H2].
  specialize (H2 ltac:(lia)). pose proof (Z.pow_le_mono_r _B (len x) (len y - 1)). pose proof _B_bound. lia.
Qed.

Lemma sub_spec m z x y vx vy : words m → valid m z → is_nat m x vx → is_nat m y vy → safe z x → safe z y →
  (vy <= vx → sub m z x y ⇓ λ '(m', r), inside m z m' r ∧ is_nat m' r (vx - vy)) ∧ (vx < vy → sub m z x y = Panic "underflow").
Proof.
  intros Hm Hz Hx Hy Hsx Hsy. pose proof Hx as ((_ & Hlx & _) & _). pose proof Hy as ((_ & Hly & _) & _).
  destruct (Z.ltb_spec (len x) (len y)) as [Hlt|Hge].
  { pose proof (nat_len_lt _ _ _ _ _ Hm Hx Hy Hlt). unfold sub. rewrite (proj2 (Z.ltb_lt _ _)) by done. split; [lia|done]. }
  destruct (nat_pos _ _ _ Hm Hx) as [Hvx _]. destruct (Z.eqb_spec (len y) 0) as [Ey|Ey].
  - rewrite (zero_nat _ _ _ Hy Ey). split; [intros _|lia]. rewrite Z.sub_0_r. unfold sub. rewrite (proj2 (Z.ltb_ge _ _)), Ey by lia.
    change (0 =? 0) with true. cbv iota. destruct (Z.eqb_spec (len x) 0) as [Ex|Ex]; [rewrite (zero_nat _ _ _ Hx Ex); by apply empty_result|by apply set_spec].
  - destruct (sub_steps m z x y vx vy) as (m' & z' & c & -> & Hi & E & Hc); [done..|lia|]. pose proof Hi as (Hw & (_ & ? & _) & _).
    pose proof (num_bound m' (off z') (len z') Hw ltac:(lia)) as Hb. destruct (Z.eqb_spec c 0) as [->|]; cbn [negb].
    + split; [intros _; apply norm_result; [done|lia]|lia].
    + assert (c = 1) as -> by lia. split; [lia|done].
Qed.

(** The first difference from the top decides. *)
Lemma num_cmp_top m o o' n i : words m → 0 <= i < n → (∀ j, i < j < n → get m (o + j) = get m (o' + j)) → get m (o + i) < get m (o' + i) →
  num m o n < num m o' n.
Proof.
  intros Hm Hi Heq Hlt. replace n with (i + 1 + (n - (i + 1))) by lia. rewrite !num_app, !num_one by lia.
  assert (num m (o + (i + 1)) (n - (i + 1)) = num m (o' + (i + 1)) (n - (i + 1))) as ->.
  { apply num_same. intros j Hj. rewrite <- !Z.add_assoc. apply Heq. lia. }
  pose proof (num_bound m o i Hm ltac:(lia)). pose proof (num_bound m o' i Hm ltac:(lia)). pose proof (_B_pow i ltac:(lia)). nia.
Qed.

Lemma cmp_spec m x y vx vy : words m → is_nat m x vx → is_nat m y vy → cmp m x y = Ret (match vx ?= vy with Lt => -1 | Eq => 0 | Gt => 1 end).
Proof.
  intros Hm Hx Hy. match goal with |- ?m = Ret ?r => assert (m ⇓ λ r', r' = r) as H; [|by apply wp_ex in H as (? & -> & ->)] end.
  pose proof Hx as ((Hox & Hlx & Hcx) & Ex & _). pose proof Hy as ((Hoy & Hly & Hcy) & Ey & _). unfold cmp.
  destruct (Z.eqb_spec (len x) (len y)) as [El|El]; cbn [negb orb].
  2: { apply wp_ret. destruct (Z.ltb_spec (len x) (len y)) as [Hl|Hl].
    - pose proof (nat_len_lt _ _ _ _ _ Hm Hx Hy Hl). by rewrite (proj2 (Z.compare_lt_iff _ _)).
    - pose proof (nat_len_lt _ _ _ _ _ Hm Hy Hx ltac:(lia)). rewrite (proj2 (Z.ltb_lt _ _)) by lia. by rewrite (proj2 (Z.compare_gt_iff _ _)). }
  destruct (Z.eqb_spec (len x) 0) as [E0|E0].
  { apply wp_ret. rewrite (zero_nat _ _ _ Hx E0), (zero_nat _ _ _ Hy) by lia. by rewrite El, Z.ltb_irrefl. }
  eapply wp_bind_mono with (Q := λ i, 0 <= i < len x ∧ (∀ j, i < j < len x → get m (off x + j) = get m (off y + j)) ∧ (0 < i → get m (off x + i) ≠ get m (off y + i))).
  { apply wp_while with (I := λ i, 0 <= i < len x ∧ ∀ j, i < j < len x → get m (off x + j) = get m (off y + j)) (meas := λ i, i); [|split; [lia|intros; lia]|lia].
    intros i [Hi Heq]. destruct (Z.ltb_spec 0 i); [|apply wp_ret; split; [done|split; [done|lia]]]. rewrite !at_eq, !go_bind_ret by (done || lia). apply wp_ret.
    destruct (Z.eqb_spec (get m (off x + i)) (get m (off y + i))) as [E|E]; [|done]. apply wp_ret. split; [|lia]. split; [lia|].
    intros j Hj. destruct (decide (j = i)) as [->|]; [done|]. apply Heq. lia. }
  intros i (Hi & Heq & Hne). rewrite !at_eq, !go_bind_ret by (done || lia). apply wp_ret. rewrite <- Ex, <- Ey, El in *.
  destruct (Z.ltb_spec (get m (off x + i)) (get m (off y + i))) as [H1|H1].
  - pose proof (num_cmp_top m (off x) (off y) (len y) i Hm Hi Heq H1). by rewrite (proj2 (Z.compare_lt_iff _ _)).
  - destruct (Z.ltb_spec (get m (off y + i)) (get m (off x + i))) as [H2|H2].
    + pose proof (num_cmp_top m (off y) (off x) (len y) i Hm Hi (λ j Hj, eq_sym (Heq j Hj)) H2). by rewrite (proj2 (Z.compare_gt_iff _ _)).
    + assert (num m (off x) (len y) = num m (off y) (len y)) as ->; [|by rewrite Z.compare_refl]. apply num_same. intros j Hj.
      destruct (decide (j = 0)) as [->|]; [assert (i = 0) as -> by lia; lia|]. apply Heq. lia.
Qed.

Lemma mulAddWW_spec m z x y r vx : words m → valid m z → is_nat m x vx → safe z x → is_word y → is_word r →
  mulAddWW m z x y r ⇓ λ '(m', r'), inside m z m' r' ∧ is_nat m' r' (vx * y + r).
Proof.
  intros Hm Hz Hxn Hsx Hy Hr. pose proof Hxn as (Hx & Ex & _). pose proof Hx as (Hox & Hlx & Hcx). unfold mulAddWW.
  destruct ((len x =? 0) || (y =? 0)) eqn:E0.
  { assert (vx * y + r = r) as ->; [|by apply setWord_spec]. apply orb_true_iff in E0 as [E0%Z.eqb_eq|E0%Z.eqb_eq]; [|subst; lia].
    rewrite (zero_nat _ _ _ Hxn E0). lia. }
  apply orb_false_iff in E0 as [E0%Z.eqb_neq _]. set (k := len x) in *. eapply wp_bind_mono; [apply make_spec; [done|done|lia]|].
  intros [m1 z1] (Hi & Hl1 & Hg & _). pose proof Hi as (Hw1 & (Ho1 & Hlz1 & Hc1) & _).
  destruct (operand _ _ _ _ _ Hi Hg Hx Hsx) as (Hx1 & Hsx1 & Hnum). rewrite part_0, go_bind_ret by lia. eapply wp_bind_mono.
  { apply mulAddVWW_g_spec; [done|by apply valid_vec; lia|done|simpl; lia|done|done|apply safe_up; (done || simpl; lia)]. }
  intros [m2 c] (Hf2 & Hw2 & E2 & Hc2). cbn [off len] in *. rewrite !Hnum in E2 by lia.
  assert (inside m z m2 z1) as Hi2 by (eapply inside_write; [exact Hi|exact Hf2|exact Hw2|lia]). pose proof Hi2 as (_ & Hv2 & _).
  pose proof Hv2 as (? & ? & ?). rewrite put_eq, go_bind_ret by (done || lia).
  destruct (frame_up m2 m2 (off z1) k c) as (Hf4 & Hw4 & E4 & _); [apply frame_refl|done..|lia|lia|lia|].
  apply norm_result; [eapply inside_write; [exact Hi2|exact Hf4|exact Hw4|lia]|]. rewrite Hl1, E4, E2. unfold k in *. by rewrite Ex.
Qed.

Lemma top_nonzero m o n : words m → 0 < n → _B ^ (n - 1) <= num m o n → get m (o + n - 1) ≠ 0.
Proof.
  intros Hm Hn Hl E. replace n with (n - 1 + 1) in Hl at 2 by lia. rewrite num_snoc in Hl by lia.
  replace (o + (n - 1)) with (o + n - 1) in Hl by lia. pose proof (num_bound m o (n - 1) Hm ltac:(lia)). nia.
Qed.

Lemma setUint64_spec m z x : words m → valid m z → 0 <= x < 2 ^ 64 → setUint64 m z x ⇓ λ '(m', r), inside m z m' r ∧ is_nat m' r x.
Proof.
  intros Hm Hz Hx. unfold setUint64. destruct (Z.eqb_spec (uw x) x) as [E|E].
  { rewrite E. apply setWord_spec; [done|done|]. rewrite <- E. apply uw_word. }
  pose proof _B_bound as HB. assert (x < _B * _B) as Hx2 by (rewrite _B_eq; destruct _W_cases as [-> | ->]; lia).
  assert (0 <= _W) as HW by (destruct _W_cases; lia).
  eapply wp_bind_mono with (Q := λ '(n, t), 0 < n ∧ x < _B ^ n ∧ _B ^ (n - 1) <= x).
  { apply wp_while with (I := λ '(n, t), 0 <= n ∧ 0 <= t < _B * _B ∧ t = x / _B ^ n ∧ (0 < n → _B ^ (n - 1) <= x))
      (meas := λ '(n, t), if t =? 0 then 0 else if t <? _B then 1 else 2).
    - intros [n t] (Hn & Ht & Et & Hp). apply wp_ret. pose proof (_B_pow n Hn) as Hpn. assert (_B ^ n ≠ 0) as Hn0 by lia.
      destruct (Z.ltb_spec 0 t); cbv iota.
      + apply wp_ret. rewrite Z.shiftr_div_pow2, <- _B_eq by done.
        assert (0 <= t / _B) by (apply Z.div_pos; lia). assert (t / _B < _B) by (apply Z.div_lt_upper_bound; lia).
        split; [|destruct (Z.eqb_spec t 0); [lia|]; destruct (Z.ltb_spec t _B); [rewrite Z.div_small by lia; simpl; lia|destruct (_ =? 0); [lia|]; rewrite (proj2 (Z.ltb_lt _ _)) by done; lia]].
        split; [lia|]. split; [nia|]. split; [rewrite Et, B_next, Z.mul_comm by done; apply Z.div_div; lia|].
        intros _. replace (n + 1 - 1) with n by lia. pose proof (Z.mul_div_le x _ Hpn). nia.
      + assert (t = 0) as -> by lia. pose proof (Z.mod_pos_bound x _ Hpn). pose proof (Z.div_mod x _ Hn0).
        assert (x < _B ^ n) by lia. destruct (decide (n = 0)) as [->|]; [|split; [lia|split; [done|apply Hp; lia]]].
        rewrite Z.pow_0_r in *. assert (x = 0) as -> by lia. by rewrite uw_eq, Zmod_0_l in E.
    - split; [lia|]. split; [lia|]. rewrite Z.pow_0_r, Z.div_1_r. split; [done|lia].
    - destruct (_ =? 0); [lia|]. destruct (_ <? _); lia. }
  intros [n t] (Hn & Hxn & Hxn'). eapply wp_bind_mono; [apply make_spec; [done|done|lia]|].
  intros [m1 z1] (Hi & Hl1 & _). pose proof Hi as (Hw1 & Hv1 & _). pose proof Hv1 as (? & ? & ?). rewrite Hl1.
  eapply wp_bind_mono; [apply up_loop with (z := z1) (n := n) (I := λ i q t, q + t * _B ^ i = x ∧ 0 <= t); [done|done|lia|lia|]|].
  - intros i mi c Hic Hf Hw [Ec Hc]. do 2 eexists. split; [reflexivity|].
    assert (Z.land c _M = c mod _B) as -> by (unfold _M; rewrite _B_eq; by apply land_mask). rewrite Z.shiftr_div_pow2, <- _B_eq by done.
    assert (0 < _B) as HB0 by lia. assert (_B ≠ 0) as HB1 by lia. pose proof (Z.div_mod c _ HB1). pose proof (Z.mod_pos_bound c _ HB0). split; [done|]. rewrite B_next by lia.
    split; [nia|apply Z.div_pos; lia].
  - intros [m2 c] (Hf2 & Hw2 & E2 & Hc). assert (inside m z m2 z1) as Hi2 by (eapply inside_write; [exact Hi|exact Hf2|exact Hw2|lia]).
    apply wp_ret. split; [done|]. split; [apply Hi2|]. rewrite Hl1.
    pose proof (num_bound m2 (off z1) n Hw2 ltac:(lia)). 
    assert (c < 1) by (apply (Z.mul_lt_mono_pos_r (_B ^ n)); [apply _B_pow; lia|lia]).
    assert (c = 0) as -> by lia. assert (num m2 (off z1) n = x) as En by lia. split; [done|]. intros _.
    apply top_nonzero; [done|lia|]. by rewrite En.
Qed.
End storage.
