(* ===== verification/BigMul.v ===== *)
(** Multiplication of natural numbers: the grade school and Karatsuba algorithms of
    [src/src/math/big/nat.go]. *)
From S2P Require Import Prelude.
From S2P Require Import BigWord.
From S2P Require Import BigVec.
From S2P Require Import BigNat.

Definition karatsubaThreshold : Z := 40.

Section mul.
Context `{M : Machine}.

Definition basicMul (m : mem) (z x y : nat_) : go mem :=
  z0 ← part z 0 (len x + len y);
  m ← clear m z0;
  for_up 0 (len y) (λ i m,
    d ← at_ m y i;
    if negb (d =? 0) then
      zi ← part z i (i + len x);
      '(m, c) ← addMulVVW_g m zi x d;
      put m z (len x + i) c
    else Ret m) m.

Definition karatsubaAdd (m : mem) (z x : nat_) (n : Z) : go mem :=
  z0 ← part z 0 n;
  '(m, c) ← addVV_g m z0 z x;
  if negb (c =? 0) then
    z1 ← part z n (n + Z.shiftr n 1);
    zn ← part_from z n;
    '(m, _) ← addVW_g m z1 zn c;
    Ret m
  else Ret m.

Definition karatsubaSub (m : mem) (z x : nat_) (n : Z) : go mem :=
  z0 ← part z 0 n;
  '(m, c) ← subVV_g m z0 z x;
  if negb (c =? 0) then
    z1 ← part z n (n + Z.shiftr n 1);
    zn ← part_from z n;
    '(m, _) ← subVW_g m z1 zn c;
    Ret m
  else Ret m.

(** The difference of [x] and [y] without its sign, and the sign [s] turned by it. *)
Definition karatsuba_diff (m : mem) (d x y : nat_) (s : Z) : go (mem * Z) :=
  '(m, c) ← subVV_g m d x y;
  if negb (c =? 0) then '(m, _) ← subVV_g m d y x; Ret (m, - s) else Ret (m, s).

(** The three products of the halves, with the sign of the last. *)
Definition karatsuba_products (karatsuba : mem → nat_ → nat_ → nat_ → go mem) (m : mem) (z x y : nat_) (n n2 : Z) : go (mem * Z) :=
  x1 ← part_from x n2;
  x0 ← part x 0 n2;
  y1 ← part_from y n2;
  y0 ← part y 0 n2;
  m ← karatsuba m z x0 y0;
  zn ← part_from z n;
  m ← karatsuba m zn x1 y1;
  xd ← part z (2 * n) (2 * n + n2);
  '(m, s) ← karatsuba_diff m xd x1 x0 1;
  yd ← part z (2 * n + n2) (3 * n);
  '(m, s) ← karatsuba_diff m yd y0 y1 s;
  p ← part_from z (n * 3);
  m ← karatsuba m p xd yd;
  Ret (m, s).

(** ... and their sum. *)
Definition karatsuba_sum (m : mem) (z : nat_) (n n2 s : Z) : go mem :=
  p ← part_from z (n * 3);
  r ← part_from z (n * 4);
  zl ← part_to z (n * 2);
  let m := vcopy m r zl in
  z2 ← part_from z n2;
  m ← karatsubaAdd m z2 r n;
  rn ← part_from r n;
  m ← karatsubaAdd m z2 rn n;
  if 0 <? s then karatsubaAdd m z2 p n else karatsubaSub m z2 p n.

Fixpoint karatsuba (fuel : nat) (m : mem) (z x y : nat_) : go mem :=
  match fuel with
  | O => NoFuel
  | S fuel =>
    let n := len y in
    if negb (Z.land n 1 =? 0) || (n <? karatsubaThreshold) || (n <? 2) then basicMul m z x y else
    let n2 := Z.shiftr n 1 in
    '(m, s) ← karatsuba_products (karatsuba fuel) m z x y n n2;
    karatsuba_sum m z n n2 s
  end.

End mul.

Section proofs.
Context `{M : Machine}.
Abbreviation words m := (Forall is_word m).

Lemma clear_spec m z : words m → valid m z →
  clear m z ⇓ λ m', frame m m' (off z) (len z) ∧ words m' ∧ ∀ i, 0 <= i < len z → get m' (off z + i) = 0.
Proof.
  intros Hm Hz. pose proof Hz as (Ho & Hl & Hc). unfold clear.
  apply wp_for_up with (I := λ i mi, frame m mi (off z) i ∧ words mi ∧ ∀ j, 0 <= j < i → get mi (off z + j) = 0).
  - intros i mi Hi (Hf & Hw & H). assert (is_word 0) as H0 by (unfold is_word; pose proof _B_bound; lia).
    rewrite put_eq by (lia || by eapply valid_frame). apply wp_ret.
    destruct (frame_up m mi (off z) i 0 Hf Hw H0) as (Hf' & Hw' & _ & Hg); [lia..|]. split; [done|]. split; [done|].
    intros j Hj. destruct Hf as [Hz' _]. rewrite get_insZ by lia. case_decide; [done|]. apply H. lia.
  - split; [apply frame_refl|]. split; [done|lia].
  - intros m'. by rewrite Z.max_r by lia.
Qed.

Lemma num_zeros m o n : (∀ i, 0 <= i < n → get m (o + i) = 0) → num m o n = 0.
Proof.
  intros H. destruct (Z.le_gt_cases 0 n) as [Hn|Hn]; [|apply num_0; lia]. revert H. pattern n.
  apply natlike_ind; [by intros; apply num_0|intros x Hx IH H|done]. replace (Z.succ x) with (x + 1) in * by lia.
  rewrite num_snoc by lia. rewrite (H x), IH; [lia| |lia]. intros i Hi. apply H. lia.
Qed.

(** The parts of the memory at [o] and [o'] do not overlap. *)
Definition dis (o n o' n' : Z) : Prop := o + n <= o' ∨ o' + n' <= o.

Lemma basicMul_spec m z x y : words m → valid m z → valid m x → valid m y → len x + len y <= len z →
  dis (off z) (len x + len y) (off x) (len x) → dis (off z) (len x + len y) (off y) (len y) →
  basicMul m z x y ⇓ λ m', frame m m' (off z) (len x + len y) ∧ words m' ∧
    num m' (off z) (len x + len y) = num m (off x) (len x) * num m (off y) (len y).
Proof.
  intros Hm Hz Hx Hy Hl Hdx Hdy. pose proof Hz as (Hoz & Hlz & Hcz). pose proof Hx as (Hox & Hlx & Hcx). pose proof Hy as (Hoy & Hly & Hcy).
  unfold basicMul, dis in *. rewrite part_0, go_bind_ret by lia. set (a := len x) in *. set (b := len y) in *.
  eapply wp_bind_mono; [apply clear_spec; [done|by apply valid_vec; lia]|]. cbn [off len]. intros m1 (Hf1 & Hw1 & H1).
  apply wp_for_up with (I := λ i mi, frame m mi (off z) (a + b) ∧ words mi ∧ num mi (off z) (a + i) = num m (off x) a * num m (off y) i ∧
    ∀ j, a + i <= j < a + b → get mi (off z + j) = 0).
  2: { split; [done|]. split; [done|]. split; [|intros; apply H1; lia]. assert (num m (off y) 0 = 0) as -> by (by apply num_0). rewrite Z.mul_0_r. apply num_zeros. intros; apply H1. lia. }
  2: { intros m'. rewrite Z.max_r by lia. naive_solver. }
  intros i mi Hi (Hf & Hw & E & Hz0). rewrite (at_frame m mi y _ _ _ Hf), go_bind_ret by (done || lia).
  assert (num mi (off z) (a + (i + 1)) = num mi (off z) (a + i) + get mi (off z + (a + i)) * _B ^ (a + i)) as En by (rewrite <- num_snoc by lia; f_equal; lia).
  rewrite num_snoc by lia. set (d := get m (off y + i)). pose proof (words_get m (off y + i) Hm) as Hd. fold d in Hd. pose proof (_B_pow i ltac:(lia)).
  destruct (Z.eqb_spec d 0) as [E0|E0]; cbn [negb].
  { apply wp_ret. split; [done|]. split; [done|]. split; [rewrite En, Hz0, E by lia; lia|intros; apply Hz0; lia]. }
  rewrite part_eq, go_bind_ret by lia. replace (i + a - i) with a by lia.
  assert (zlen mi = zlen m) as Hzl by apply Hf.
  eapply wp_bind_mono; [apply (addMulVVW_g_spec mi (Vec (off z + i) a (cap z - i)) x d Hw)|].
  { apply valid_vec; lia. } { by eapply valid_frame. } { simpl. unfold a. lia. } { done. } { unfold up_ok. simpl. lia. }
  cbn [off len]. intros [m2 c] (Hf2 & Hw2 & E2 & Hc). fold a in Hf2, E2. destruct Hf2 as [Hzl2 Hg2].
  rewrite put_eq by (unfold valid; lia). apply wp_ret.
  assert (num mi (off x) a = num m (off x) a) as Ex by (eapply num_frame; [exact Hf|lia]). rewrite Ex in E2.
  split; [|split; [by apply words_insZ|split]].
  - split; [rewrite zlen_insZ; lia|]. intros j Hj. rewrite get_insZ, decide_False, Hg2 by lia. by apply Hf.
  - replace (a + (i + 1)) with (a + i + 1) by lia. rewrite num_snoc by lia. rewrite get_insZ, decide_True by lia.
    assert (num (insZ m2 (off z + (a + i)) c) (off z) (a + i) = num m2 (off z) (a + i)) as ->.
    { apply num_ext. intros j Hj. by rewrite get_insZ, decide_False by lia. }
    replace (a + i) with (i + a) in * by lia. rewrite num_app in * by lia. rewrite Z.pow_add_r by lia.
    assert (num m2 (off z) i = num mi (off z) i) as -> by (apply num_ext; intros; apply Hg2; lia). nia.
  - intros j Hj. rewrite get_insZ, decide_False, Hg2 by lia. apply Hz0. lia.
Qed.

(** ** Karatsuba *)

Lemma shiftr_1 n : Z.shiftr n 1 = n / 2.
Proof. by rewrite Z.shiftr_div_pow2. Qed.

(** Adding [x] to the [n + n / 2] words of [z], modulo what they hold. *)
Lemma karatsubaAdd_spec m z x n : words m → valid m z → valid m x → 0 <= n → n + n / 2 <= len z → n <= len x →
  dis (off z) (n + n / 2) (off x) n →
  karatsubaAdd m z x n ⇓ λ m', frame m m' (off z) (n + n / 2) ∧ words m' ∧
    ∃ c, num m' (off z) (n + n / 2) + c * _B ^ (n + n / 2) = num m (off z) (n + n / 2) + num m (off x) n.
Proof.
  intros Hm Hz Hx Hn Hl Hlx Hd. pose proof Hz as (Hoz & Hlz & Hcz). pose proof Hx as (Hox & Hlx' & Hcx).
  assert (0 <= n / 2) as Hh by lia_div. unfold karatsubaAdd, dis in *. rewrite shiftr_1. set (h := n / 2) in *.
  rewrite part_0, go_bind_ret by lia. eapply wp_bind_mono.
  { apply (addVV_g_spec m (Vec (off z) n (cap z)) z x Hm); [by apply valid_vec; lia|done|done|simpl; lia|simpl; lia|unfold up_ok; simpl; lia|unfold up_ok; simpl; lia]. }
  cbn [off len]. intros [m1 c] (Hf1 & Hw1 & E1 & Hc). destruct (Z.eqb_spec c 0) as [->|Hc0]; cbn [negb].
  - apply wp_ret. split; [eapply frame_weaken; [done|lia]|]. split; [done|]. exists 0. rewrite !num_app by lia.
    assert (num m1 (off z + n) h = num m (off z + n) h) as -> by (eapply num_frame; [exact Hf1|lia]). lia.
  - rewrite part_eq, go_bind_ret, part_from_eq, go_bind_ret by lia. replace (n + h - n) with h by lia.
    assert (zlen m1 = zlen m) as Hzl by apply Hf1. eapply wp_bind_mono.
    { apply (addVW_g_spec m1 (Vec (off z + n) h (cap z - n)) (Vec (off z + n) (len z - n) (cap z - n)) c Hw1);
        [by apply valid_vec; lia|by apply valid_vec; lia|simpl; lia|done|unfold up_ok; simpl; lia]. }
    cbn [off len]. intros [m2 c'] (Hf2 & Hw2 & E2 & Hc'). apply wp_ret.
    split; [eapply frame_trans; eapply frame_weaken; [exact Hf1|lia|exact Hf2|lia]|]. split; [done|]. exists c'. rewrite !num_app, Z.pow_add_r by lia.
    assert (num m2 (off z) n = num m1 (off z) n) as -> by (eapply num_frame; [exact Hf2|lia]).
    assert (num m1 (off z + n) h = num m (off z + n) h) as Er by (eapply num_frame; [exact Hf1|lia]). rewrite Er in E2. nia.
Qed.

Lemma karatsubaSub_spec m z x n : words m → valid m z → valid m x → 0 <= n → n + n / 2 <= len z → n <= len x →
  dis (off z) (n + n / 2) (off x) n →
  karatsubaSub m z x n ⇓ λ m', frame m m' (off z) (n + n / 2) ∧ words m' ∧
    ∃ c, num m' (off z) (n + n / 2) + c * _B ^ (n + n / 2) = num m (off z) (n + n / 2) - num m (off x) n.
Proof.
  intros Hm Hz Hx Hn Hl Hlx Hd. pose proof Hz as (Hoz & Hlz & Hcz). pose proof Hx as (Hox & Hlx' & Hcx).
  assert (0 <= n / 2) as Hh by lia_div. unfold karatsubaSub, dis in *. rewrite shiftr_1. set (h := n / 2) in *.
  rewrite part_0, go_bind_ret by lia. eapply wp_bind_mono.
  { apply (subVV_g_spec m (Vec (off z) n (cap z)) z x Hm); [by apply valid_vec; lia|done|done|simpl; lia|simpl; lia|unfold up_ok; simpl; lia|unfold up_ok; simpl; lia]. }
  cbn [off len]. intros [m1 c] (Hf1 & Hw1 & E1 & Hc). destruct (Z.eqb_spec c 0) as [->|Hc0]; cbn [negb].
  - apply wp_ret. split; [eapply frame_weaken; [done|lia]|]. split; [done|]. exists 0. rewrite !num_app by lia.
    assert (num m1 (off z + n) h = num m (off z + n) h) as -> by (eapply num_frame; [exact Hf1|lia]). lia.
  - rewrite part_eq, go_bind_ret, part_from_eq, go_bind_ret by lia. replace (n + h - n) with h by lia.
    assert (zlen m1 = zlen m) as Hzl by apply Hf1. eapply wp_bind_mono.
    { apply (subVW_g_spec m1 (Vec (off z + n) h (cap z - n)) (Vec (off z + n) (len z - n) (cap z - n)) c Hw1);
        [by apply valid_vec; lia|by apply valid_vec; lia|simpl; lia|done|unfold up_ok; simpl; lia]. }
    cbn [off len]. intros [m2 c'] (Hf2 & Hw2 & E2 & Hc'). apply wp_ret.
    split; [eapply frame_trans; eapply frame_weaken; [exact Hf1|lia|exact Hf2|lia]|]. split; [done|]. exists (- c'). rewrite !num_app, Z.pow_add_r by lia.
    assert (num m2 (off z) n = num m1 (off z) n) as -> by (eapply num_frame; [exact Hf2|lia]).
    assert (num m1 (off z + n) h = num m (off z + n) h) as Er by (eapply num_frame; [exact Hf1|lia]). rewrite Er in E2. nia.
Qed.

Lemma karatsuba_diff_spec m d x y s : words m → valid m d → valid m x → valid m y → len x = len d → len y = len d →
  dis (off d) (len d) (off x) (len d) → dis (off d) (len d) (off y) (len d) →
  karatsuba_diff m d x y s ⇓ λ '(m', s'), frame m m' (off d) (len d) ∧ words m' ∧ (s' = s ∨ s' = - s) ∧
    s' * num m' (off d) (len d) = s * (num m (off x) (len d) - num m (off y) (len d)).
Proof.
  intros Hm Hd Hx Hy Hlx Hly Hdx Hdy. pose proof Hd as (Hod & Hld & Hcd). pose proof Hx as (Hox & ? & Hcx). pose proof Hy as (Hoy & ? & Hcy).
  unfold karatsuba_diff, dis in *. eapply wp_bind_mono; [apply (subVV_g_spec m d x y Hm); [done..|lia|lia|unfold up_ok; lia|unfold up_ok; lia]|].
  intros [m1 c] (Hf1 & Hw1 & E1 & Hc). pose proof (num_bound m1 (off d) (len d) Hw1 ltac:(lia)). pose proof (_B_pow (len d) ltac:(lia)).
  destruct (Z.eqb_spec c 0) as [->|Hc0]; cbn [negb].
  - apply wp_ret. split; [done|]. split; [done|]. split; [by left|]. f_equal. lia.
  - assert (zlen m1 = zlen m) as Hzl by apply Hf1. eapply wp_bind_mono.
    { apply (subVV_g_spec m1 d y x Hw1); [by eapply valid_frame..|lia|lia|unfold up_ok; lia|unfold up_ok; lia]. }
    intros [m2 c'] (Hf2 & Hw2 & E2 & Hc'). apply wp_ret. split; [by eapply frame_trans|]. split; [done|]. split; [by right|].
    assert (num m1 (off x) (len d) = num m (off x) (len d)) as Ex by (eapply num_frame; [exact Hf1|lia]).
    assert (num m1 (off y) (len d) = num m (off y) (len d)) as Ey by (eapply num_frame; [exact Hf1|lia]).
    rewrite Ex, Ey in E2. pose proof (num_bound m2 (off d) (len d) Hw2 ltac:(lia)).
    assert (c = 1) as -> by lia. assert (c' = 0) as -> by nia. nia.
Qed.

(** The sum of the partial products, in place: [z] holds [x0*y0] and [x1*y1], with copies
    at [4 * n], and the product of the differences at [3 * n]. *)
Lemma karatsuba_join m z s n h : words m → valid m z → 6 * n <= len z → n = 2 * h → 1 <= h → (s = 1 ∨ s = -1) →
  (z2 ← part_from z h;
   m ← karatsubaAdd m z2 (Vec (off z + 4 * n) (len z - 4 * n) (cap z - 4 * n)) n;
   rn ← part_from (Vec (off z + 4 * n) (len z - 4 * n) (cap z - 4 * n)) n;
   m ← karatsubaAdd m z2 rn n;
   if 0 <? s then karatsubaAdd m z2 (Vec (off z + 3 * n) (len z - 3 * n) (cap z - 3 * n)) n
   else karatsubaSub m z2 (Vec (off z + 3 * n) (len z - 3 * n) (cap z - 3 * n)) n) ⇓ λ m',
  frame m m' (off z) (2 * n) ∧ words m' ∧ ∃ c, num m' (off z) (2 * n) + c * _B ^ (2 * n) =
    num m (off z) (2 * n) + _B ^ h * (num m (off z + 4 * n) n + num m (off z + 5 * n) n + s * num m (off z + 3 * n) n).
Proof.
  intros Hm Hz Hl En Hh Hs. pose proof Hz as (Hoz & Hlz & Hcz). assert (n / 2 = h) as Eh by lia_div.
  rewrite (part_from_eq z h), go_bind_ret by lia. set (z2 := Vec (off z + h) (len z - h) (cap z - h)).
  assert (∀ mi, frame m mi (off z + h) (n + h) → valid mi z2) as Hz2 by (intros mi [? _]; apply valid_vec; lia).
  assert (∀ mi o, zlen mi = zlen m → 0 <= o <= 5 * n → valid mi (Vec (off z + o) (len z - o) (cap z - o))) as Hv by (intros mi o ??; apply valid_vec; lia).
  eapply wp_bind_mono; [apply (karatsubaAdd_spec m z2 _ n Hm); [apply Hz2, frame_refl|by apply Hv; lia|lia|simpl; lia|simpl; lia|unfold dis; simpl; lia]|].
  cbn [off len]. rewrite Eh. change (off z2) with (off z + h). intros m1 (Hf1 & Hw1 & c1 & E1).
  rewrite part_from_eq, go_bind_ret by (simpl; lia). cbn [off len cap].
  replace (off z + 4 * n + n) with (off z + 5 * n) by lia. replace (len z - 4 * n - n) with (len z - 5 * n) by lia. replace (cap z - 4 * n - n) with (cap z - 5 * n) by lia.
  eapply wp_bind_mono; [apply (karatsubaAdd_spec m1 z2 _ n Hw1); [by apply Hz2|apply Hv; [apply Hf1|lia]|lia|simpl; lia|simpl; lia|unfold dis; simpl; lia]|].
  cbn [off len]. rewrite Eh. change (off z2) with (off z + h). intros m2 (Hf2 & Hw2 & c2 & E2).
  assert (num m1 (off z + 5 * n) n = num m (off z + 5 * n) n) as E5 by (eapply num_frame; [exact Hf1|lia]). rewrite E5 in E2.
  pose proof (frame_trans _ _ _ _ _ Hf1 Hf2) as Hf. assert (num m2 (off z + 3 * n) n = num m (off z + 3 * n) n) as E3 by (eapply num_frame; [exact Hf|lia]).
  assert (∀ m', frame m2 m' (off z + h) (n + h) → words m' → (∃ c, num m' (off z + h) (n + h) + c * _B ^ (n + h) = num m2 (off z + h) (n + h) + s * num m (off z + 3 * n) n) →
    frame m m' (off z) (2 * n) ∧ words m' ∧ ∃ c, num m' (off z) (2 * n) + c * _B ^ (2 * n) =
    num m (off z) (2 * n) + _B ^ h * (num m (off z + 4 * n) n + num m (off z + 5 * n) n + s * num m (off z + 3 * n) n)) as Hend.
  { intros m' Hf' Hw' (c & E). pose proof (frame_trans _ _ _ _ _ Hf Hf') as Hf''. split; [eapply frame_weaken; [exact Hf''|lia]|]. split; [done|].
    exists (c1 + c2 + c). replace (2 * n) with (h + (n + h)) by lia. rewrite (num_app m' _ h), (num_app m (off z) h), (Z.pow_add_r _B h) by lia.
    assert (num m' (off z) h = num m (off z) h) as -> by (eapply num_frame; [exact Hf''|lia]).
    assert (num m' (off z + h) (n + h) = num m (off z + h) (n + h) + (num m (off z + 4 * n) n + num m (off z + 5 * n) n + s * num m (off z + 3 * n) n)
      - (c1 + c2 + c) * _B ^ (n + h)) as -> by lia. ring. }
  destruct Hs as [-> | ->]; [change (0 <? 1) with true|change (0 <? -1) with false]; cbv iota.
  - eapply wp_mono; [apply (karatsubaAdd_spec m2 z2 _ n Hw2); [by apply Hz2|apply Hv; [apply Hf|lia]|lia|simpl; lia|simpl; lia|unfold dis; simpl; lia]|].
    cbn [off len]. rewrite Eh. change (off z2) with (off z + h). intros m3 (Hf3 & Hw3 & c3 & Ec3). apply Hend; [done|done|]. exists c3. lia.
  - eapply wp_mono; [apply (karatsubaSub_spec m2 z2 _ n Hw2); [by apply Hz2|apply Hv; [apply Hf|lia]|lia|simpl; lia|simpl; lia|unfold dis; simpl; lia]|].
    cbn [off len]. rewrite Eh. change (off z2) with (off z + h). intros m3 (Hf3 & Hw3 & c3 & Ec3). apply Hend; [done|done|]. exists c3. lia.
Qed.

Lemma land_1 n : Z.land n 1 = n mod 2.
Proof. change 1 with (2 ^ 1 - 1) at 1. by apply land_mask. Qed.

(** The sum of the partial products is the product. *)
Lemma karatsuba_value m m' z x y n h s1 s2 d1 d2 c : words m → words m' → 1 <= h → n = 2 * h →
  s1 * d1 = 1 * (num m (x + h) h - num m x h) → s2 * d2 = s1 * (num m y h - num m (y + h) h) →
  num m' z (2 * n) + c * _B ^ (2 * n) = num m x h * num m y h + _B ^ n * (num m (x + h) h * num m (y + h) h) +
    _B ^ h * (num m x h * num m y h + num m (x + h) h * num m (y + h) h + s2 * (d1 * d2)) →
  num m' z (2 * n) = num m x n * num m y n.
Proof.
  intros Hm Hm' Hh En E1 E2 E.
  assert (num m' z (2 * n) + c * _B ^ (2 * n) = num m x n * num m y n) as Ep.
  { rewrite E. replace n with (h + h) by lia. rewrite !num_app, Z.pow_add_r by lia.
    assert (s2 * (d1 * d2) = (num m (x + h) h - num m x h) * (num m y h - num m (y + h) h)) as ->; [|ring].
    transitivity (d1 * (s2 * d2)); [ring|]. rewrite E2. transitivity (s1 * d1 * (num m y h - num m (y + h) h)); [ring|]. rewrite E1. ring. }
  pose proof (num_bound m x n Hm ltac:(lia)). pose proof (num_bound m y n Hm ltac:(lia)). pose proof (num_bound m' z (2 * n) Hm' ltac:(lia)) as Hb.
  pose proof (_B_pow n ltac:(lia)) as HP. replace (2 * n) with (n + n) in * by lia. rewrite Z.pow_add_r in * by lia.
  set (P := _B ^ n) in *. set (X := num m x n) in *. set (Y := num m y n) in *. clearbody P X Y.
  assert (0 <= X * Y < P * P) as HXY by (split; [apply Z.mul_nonneg_nonneg; lia|apply Z.mul_lt_mono_nonneg; lia]).
  assert (c < 1 ∧ -1 < c) as [H1 H2] by (split; apply (Z.mul_lt_mono_pos_r (P * P)); lia). assert (c = 0) as -> by lia. lia.
Qed.

(** What [karatsuba] promises of a call on [n] words with [6 * n] words of room. *)
Definition karatsuba_ok (f : mem → nat_ → nat_ → nat_ → go mem) (n : Z) : Prop := ∀ m z x y, words m → valid m z → valid m x → valid m y →
  len x = n → len y = n → 6 * n <= len z → dis (off z) (6 * n) (off x) n → dis (off z) (6 * n) (off y) n →
  f m z x y ⇓ λ m', frame m m' (off z) (6 * n) ∧ words m' ∧ num m' (off z) (2 * n) = num m (off x) n * num m (off y) n.

Lemma karatsuba_products_spec f m z x y n h : karatsuba_ok f h → words m → valid m z → valid m x → valid m y → len x = n → len y = n → 6 * n <= len z →
  dis (off z) (6 * n) (off x) n → dis (off z) (6 * n) (off y) n → n = 2 * h → 1 <= h →
  let x0 := num m (off x) h in let x1 := num m (off x + h) h in let y0 := num m (off y) h in let y1 := num m (off y + h) h in
  karatsuba_products f m z x y n h ⇓ λ '(m', s), frame m m' (off z) (6 * n) ∧ words m' ∧ (s = 1 ∨ s = -1) ∧
    num m' (off z) n = x0 * y0 ∧ num m' (off z + n) n = x1 * y1 ∧
    ∃ s1 d1 d2, s1 * d1 = 1 * (x1 - x0) ∧ s * d2 = s1 * (y0 - y1) ∧ num m' (off z + 3 * n) n = d1 * d2.
Proof.
  intros IH Hm Hz Hx Hy Hlx Hly Hl Hdx Hdy En Hh x0 x1 y0 y1. pose proof Hz as (Hoz & Hlz & Hcz). pose proof Hx as (Hox & Hlx' & Hcx). pose proof Hy as (Hoy & Hly' & Hcy).
  unfold dis, karatsuba_products in *. rewrite (part_from_eq x h), (part_0 x h), (part_from_eq y h), (part_0 y h), !go_bind_ret by lia. rewrite Hlx, Hly.
  assert (∀ mi o k c, zlen mi = zlen m → 0 <= o → 0 <= k <= c → o + c <= zlen m → valid mi (Vec o k c)) as Hv by (intros; apply valid_vec; lia).
  assert (∀ mi o k v, frame m mi (off z) (6 * n) → off z + 6 * n <= o ∨ o + k <= off z → num m o k = v → num mi o k = v) as Hkeep.
  { intros mi o k v Hf Ho <-. eapply num_frame; [exact Hf|lia]. }
  (* x0*y0 and x1*y1 *)
  eapply wp_bind_mono; [apply (IH m z (Vec (off x) h (cap x)) (Vec (off y) h (cap y)));
    [done|done|apply Hv; lia|apply Hv; lia|done|done|lia|unfold dis; simpl; lia|unfold dis; simpl; lia]|].
  cbn [off]. intros m1 (Hf1 & Hw1 & E1). fold x0 y0 in E1. assert (frame m m1 (off z) (6 * n)) as HF1 by (eapply frame_weaken; [exact Hf1|lia]).
  rewrite (part_from_eq z n), go_bind_ret by lia. pose proof (proj1 HF1) as Hz1.
  eapply wp_bind_mono; [apply (IH m1 (Vec (off z + n) (len z - n) (cap z - n)) (Vec (off x + h) (n - h) (cap x - h)) (Vec (off y + h) (n - h) (cap y - h)));
    [done|apply Hv; lia|apply Hv; lia|apply Hv; lia|simpl; lia|simpl; lia|simpl; lia|unfold dis; simpl; lia|unfold dis; simpl; lia]|].
  cbn [off]. rewrite (Hkeep m1 (off x + h) h x1 HF1), (Hkeep m1 (off y + h) h y1 HF1) by (done || lia). intros m2 (Hf2 & Hw2 & E2).
  assert (frame m m2 (off z) (6 * n)) as HF2 by (eapply frame_trans; [exact HF1|eapply frame_weaken; [exact Hf2|lia]]). pose proof (proj1 HF2) as Hz2.
  (* the differences *)
  rewrite (part_eq z (2 * n) (2 * n + h)), go_bind_ret by lia.
  eapply wp_bind_mono; [apply (karatsuba_diff_spec m2 (Vec (off z + 2 * n) (2 * n + h - 2 * n) (cap z - 2 * n)) (Vec (off x + h) (n - h) (cap x - h)) (Vec (off x) h (cap x)) 1 Hw2);
    [apply Hv; lia|apply Hv; lia|apply Hv; lia|simpl; lia|simpl; lia|unfold dis; simpl; lia|unfold dis; simpl; lia]|].
  cbn [off len]. replace (2 * n + h - 2 * n) with h by lia. rewrite (Hkeep m2 (off x + h) h x1 HF2), (Hkeep m2 (off x) h x0 HF2) by (done || lia).
  intros [m3 s1] (Hf3 & Hw3 & Hs1 & E3). assert (frame m m3 (off z) (6 * n)) as HF3 by (eapply frame_trans; [exact HF2|eapply frame_weaken; [exact Hf3|lia]]).
  pose proof (proj1 HF3) as Hz3. rewrite (part_eq z (2 * n + h) (3 * n)), go_bind_ret by lia.
  eapply wp_bind_mono; [apply (karatsuba_diff_spec m3 (Vec (off z + (2 * n + h)) (3 * n - (2 * n + h)) (cap z - (2 * n + h))) (Vec (off y) h (cap y)) (Vec (off y + h) (n - h) (cap y - h)) s1 Hw3);
    [apply Hv; lia|apply Hv; lia|apply Hv; lia|simpl; lia|simpl; lia|unfold dis; simpl; lia|unfold dis; simpl; lia]|].
  cbn [off len]. replace (3 * n - (2 * n + h)) with h by lia. rewrite (Hkeep m3 (off y + h) h y1 HF3), (Hkeep m3 (off y) h y0 HF3) by (done || lia).
  intros [m4 s2] (Hf4 & Hw4 & Hs2 & E4). assert (frame m m4 (off z) (6 * n)) as HF4 by (eapply frame_trans; [exact HF3|eapply frame_weaken; [exact Hf4|lia]]).
  pose proof (proj1 HF4) as Hz4. rewrite (part_from_eq z (n * 3)), go_bind_ret by lia.
  (* their product *)
  eapply wp_bind_mono; [apply (IH m4 (Vec (off z + n * 3) (len z - n * 3) (cap z - n * 3)) (Vec (off z + 2 * n) h (cap z - 2 * n)) (Vec (off z + (2 * n + h)) h (cap z - (2 * n + h))));
    [done|apply Hv; lia|apply Hv; lia|apply Hv; lia|done|done|simpl; lia|unfold dis; simpl; lia|unfold dis; simpl; lia]|].
  cbn [off]. intros m5 (Hf5 & Hw5 & E5). assert (frame m m5 (off z) (6 * n)) as HF5 by (eapply frame_trans; [exact HF4|eapply frame_weaken; [exact Hf5|lia]]).
  pose proof (proj1 HF5) as Hz5. apply wp_ret.
  assert (∀ o k, off z <= o → o + k <= off z + 2 * n → num m5 o k = num m2 o k) as H52.
  { intros o k Ho Hk. rewrite <- (num_frame _ _ _ _ o k Hf3), <- (num_frame _ _ _ _ o k Hf4) by lia. eapply num_frame; [exact Hf5|lia]. }
  split; [done|]. split; [done|]. split; [lia|].
  split; [rewrite H52, <- E1, En by lia; eapply num_frame; [exact Hf2|lia]|]. split; [rewrite H52, <- E2, En by lia; done|].
  exists s1, (num m3 (off z + 2 * n) h), (num m4 (off z + (2 * n + h)) h). split; [exact E3|]. split; [exact E4|].
  rewrite (num_frame _ _ _ _ (off z + 2 * n) h Hf4) in E5 by lia. rewrite <- En in E5. by replace (off z + 3 * n) with (off z + n * 3) by lia.
Qed.

Lemma karatsuba_sum_spec m z n h s : words m → valid m z → 6 * n <= len z → n = 2 * h → 1 <= h → (s = 1 ∨ s = -1) →
  karatsuba_sum m z n h s ⇓ λ m', frame m m' (off z) (6 * n) ∧ words m' ∧ ∃ c, num m' (off z) (2 * n) + c * _B ^ (2 * n) =
    num m (off z) (2 * n) + _B ^ h * (num m (off z) n + num m (off z + n) n + s * num m (off z + 3 * n) n).
Proof.
  intros Hm Hz Hl En Hh Hs. pose proof Hz as (Hoz & Hlz & Hcz). unfold karatsuba_sum.
  rewrite (part_from_eq z (n * 3)), (part_from_eq z (n * 4)), (part_to_eq z (n * 2)), !go_bind_ret by lia.
  rewrite (Z.mul_comm n 4), (Z.mul_comm n 3), (Z.mul_comm n 2) in *. cbv zeta.
  set (r := Vec (off z + 4 * n) (len z - 4 * n) (cap z - 4 * n)). set (zl := Vec (off z) (2 * n) (cap z)).
  assert (valid m r ∧ valid m zl) as [Hvr Hvz] by (split; apply valid_vec; lia).
  destruct (vcopy_spec m r zl Hm Hvr Hvz) as (Hf6 & Hw6 & Hg6 & _). cbn [off len r zl] in Hf6, Hg6. rewrite Z.min_r in Hf6, Hg6 by lia.
  set (m6 := vcopy m r zl) in *. assert (valid m6 z) as Hz6 by (by eapply valid_frame).
  eapply wp_mono; [apply (karatsuba_join m6 z s n h); (done || lia)|]. intros m' (Hf & Hw & c & E).
  split; [eapply frame_trans; eapply frame_weaken; [exact Hf6|lia|exact Hf|lia]|]. split; [done|]. exists c. rewrite E.
  assert (∀ o k, o + k <= off z + 4 * n → num m6 o k = num m o k) as H6 by (intros; eapply num_frame; [exact Hf6|lia]).
  assert (num m6 (off z + 4 * n) n = num m (off z) n) as -> by (apply num_same; intros i Hi; apply Hg6; lia).
  assert (num m6 (off z + 5 * n) n = num m (off z + n) n) as ->; [|by rewrite !H6 by lia].
  apply num_same. intros i Hi. replace (off z + 5 * n + i) with (off z + 4 * n + (n + i)) by lia. rewrite Hg6 by lia. f_equal. lia.
Qed.

Lemma karatsuba_spec fuel : ∀ n, n < Z.of_nat fuel → karatsuba_ok (karatsuba fuel) n.
Proof.
  induction fuel as [|fuel IH]; intros n Hfuel m z x y Hm Hz Hx Hy Hlx Hly Hl Hdx Hdy; [pose proof Hx as (_ & ? & _); lia|].
  cbn [karatsuba]. rewrite Hly. destruct (negb (Z.land n 1 =? 0) || (n <? karatsubaThreshold) || (n <? 2)) eqn:Eb.
  { pose proof Hx as (_ & ? & _). unfold dis in *. eapply wp_mono; [apply basicMul_spec; [done..|lia|unfold dis; lia|unfold dis; lia]|]. intros m' (Hf & Hw & E). rewrite Hlx, Hly in *.
    split; [eapply frame_weaken; [exact Hf|lia]|]. split; [done|]. by replace (2 * n) with (n + n) by lia. }
  apply orb_false_iff in Eb as [[Eo%negb_false_iff%Z.eqb_eq _]%orb_false_iff Hn2%Z.ltb_ge]. rewrite land_1 in Eo. rewrite shiftr_1.
  set (h := n / 2). assert (n = 2 * h) as En by (unfold h; lia_div). assert (1 <= h) as Hh by lia. clearbody h.
  eapply wp_bind_mono; [apply (karatsuba_products_spec (karatsuba fuel) m z x y n h); [apply IH; lia|done..]|].
  intros [m1 s] (Hf1 & Hw1 & Hs & E0 & E1 & s1 & d1 & d2 & Ed1 & Ed2 & E2). assert (valid m1 z) as Hz1 by (by eapply valid_frame).
  eapply wp_mono; [apply (karatsuba_sum_spec m1 z n h s); (done || lia)|]. intros m' (Hf & Hw & c & E). split; [by eapply frame_trans|]. split; [done|].
  replace (2 * n) with (n + n) in E at 3 by lia. pose proof Hx as (_ & ? & _). rewrite num_app, E0, E1, E2 in E by lia.
  apply (karatsuba_value m m' (off z) (off x) (off y) n h s1 s d1 d2 c Hm Hw Hh En Ed1 Ed2 E).
Qed.
End proofs.
