(* ===== verification/BigBits.v ===== *)
(** Natural numbers as bits and bytes: lengths, shifts, single bits, the logical
    operations and the conversions to bytes of [src/src/math/big/nat.go]. *)
From S2P Require Import Prelude.
From S2P Require Import BigWord.
From S2P Require Import BigVec.
From S2P Require Import BigNat.
From S2P Require Import BigMul.

Definition deBruijn32 : Z := 0x077CB531.
Definition deBruijn32Lookup : list Z :=
  [0; 1; 28; 2; 29; 14; 24; 3; 30; 22; 20; 15; 25; 17; 4; 8;
   31; 27; 13; 23; 21; 19; 16; 7; 26; 12; 18; 6; 11; 5; 10; 9].
Definition deBruijn64 : Z := 0x03f79d71b4ca8b09.
Definition deBruijn64Lookup : list Z :=
  [0; 1; 56; 2; 57; 49; 28; 3; 61; 58; 42; 50; 38; 29; 17; 4;
   62; 47; 59; 36; 45; 43; 51; 22; 53; 39; 33; 30; 24; 18; 12; 5;
   63; 55; 48; 27; 60; 41; 37; 16; 46; 35; 44; 21; 52; 32; 23; 11;
   54; 26; 40; 15; 34; 20; 31; 10; 25; 14; 19; 9; 13; 8; 7; 6].

Section bits.
Context `{M : Machine}.

Definition bitLen (m : mem) (x : nat_) : go Z :=
  let i := len x - 1 in
  if 0 <=? i then xi ← at_ m x i; n ← bitLen_g xi; Ret (swrap _W (i * _W + n)) else Ret 0.

(** [trailingZeroBits] of a word. *)
Definition trailingZeroBits (x : Z) : go Z :=
  if _W =? 32 then idx deBruijn32Lookup (Z.shiftr (uw (Z.land x (uw (- x)) * deBruijn32)) 27)
  else if _W =? 64 then idx deBruijn64Lookup (Z.shiftr (uw (Z.land x (uw (- x)) * Z.land deBruijn64 _M)) 58)
  else Panic "unknown word size".

(** [nat.trailingZeroBits]. *)
Definition nat_trailingZeroBits (m : mem) (x : nat_) : go Z :=
  if len x =? 0 then Ret 0 else
  i ← while (S (Z.to_nat (len x))) (λ i, xi ← at_ m x i; Ret (xi =? 0)) (λ i, Ret (i + 1)) 0;
  xi ← at_ m x i;
  n ← trailingZeroBits xi;
  Ret (i * _W + n).

Definition shl (m : mem) (z x : nat_) (s : Z) : go (mem * nat_) :=
  let k := len x in
  if k =? 0 then z ← part_to z 0; Ret (m, z) else
  let n := k + s / _W in
  '(m, z) ← make_ m z (n + 1);
  zh ← part z (n - k) n;
  '(m, c) ← shlVU_g m zh x (s mod _W);
  m ← put m z n c;
  zl ← part z 0 (n - k);
  m ← clear m zl;
  z ← norm m z;
  Ret (m, z).

Definition shr (m : mem) (z x : nat_) (s : Z) : go (mem * nat_) :=
  let k := len x in
  let n := k - s / _W in
  if n <=? 0 then z ← part_to z 0; Ret (m, z) else
  '(m, z) ← make_ m z n;
  xh ← part_from x (k - n);
  '(m, _) ← shrVU_g m z xh (s mod _W);
  z ← norm m z;
  Ret (m, z).

Definition setBit (m : mem) (z x : nat_) (i b : Z) : go (mem * nat_) :=
  let j := i / _W in
  let w := uw (Z.shiftl 1 (i mod _W)) in
  let n := len x in
  if b =? 0 then
    '(m, z) ← make_ m z n;
    let m := vcopy m z x in
    if n <=? j then Ret (m, z) else
    zj ← at_ m z j;
    m ← put m z j (Z.ldiff zj w);
    z ← norm m z;
    Ret (m, z)
  else if b =? 1 then
    '(m, z) ← (if n <=? j then
        '(m, z) ← make_ m z (j + 1);
        zh ← part_from z n;
        m ← clear m zh;
        Ret (m, z)
      else make_ m z n);
    let m := vcopy m z x in
    zj ← at_ m z j;
    m ← put m z j (Z.lor zj w);
    Ret (m, z)
  else Panic "set bit is not 0 or 1".

Definition bit (m : mem) (x : nat_) (i : Z) : go Z :=
  let j := i / _W in
  if len x <=? j then Ret 0 else
  xj ← at_ m x j;
  Ret (Z.land (Z.shiftr xj (i mod _W)) 1).

Definition sticky (m : mem) (x : nat_) (i : Z) : go Z :=
  let j := i / _W in
  if len x <=? j then Ret (if len x =? 0 then 0 else 1) else
  xl ← part_to x j;
  l ← loop (S (Z.to_nat (len xl))) (λ k,
    if k <? len xl then d ← at_ m xl k; if negb (d =? 0) then Ret (inr true) else Ret (inl (k + 1))
    else Ret (inr false)) 0;
  if (l : bool) then Ret 1 else
  xj ← at_ m x j;
  Ret (if negb (uw (Z.shiftl xj (_W - i mod _W)) =? 0) then 1 else 0).

Definition and (m : mem) (z x y : nat_) : go (mem * nat_) :=
  let k := len x in
  let n := len y in
  let k := if n <? k then n else k in
  '(m, z) ← make_ m z k;
  m ← for_up 0 k (λ i m, xi ← at_ m x i; yi ← at_ m y i; put m z i (Z.land xi yi)) m;
  z ← norm m z;
  Ret (m, z).

Definition andNot (m : mem) (z x y : nat_) : go (mem * nat_) :=
  let k := len x in
  let n := len y in
  let n := if k <? n then k else n in
  '(m, z) ← make_ m z k;
  m ← for_up 0 n (λ i m, xi ← at_ m x i; yi ← at_ m y i; put m z i (Z.ldiff xi yi)) m;
  zn ← part z n k;
  xn ← part x n k;
  let m := vcopy m zn xn in
  z ← norm m z;
  Ret (m, z).

Definition or (m : mem) (z x y : nat_) : go (mem * nat_) :=
  let k := len x in
  let n := len y in
  let '(n, k, s) := if k <? n then (k, n, y) else (n, k, x) in
  '(m, z) ← make_ m z k;
  m ← for_up 0 n (λ i m, xi ← at_ m x i; yi ← at_ m y i; put m z i (Z.lor xi yi)) m;
  zn ← part z n k;
  sn ← part s n k;
  let m := vcopy m zn sn in
  z ← norm m z;
  Ret (m, z).

Definition xor (m : mem) (z x y : nat_) : go (mem * nat_) :=
  let k := len x in
  let n := len y in
  let '(n, k, s) := if k <? n then (k, n, y) else (n, k, x) in
  '(m, z) ← make_ m z k;
  m ← for_up 0 n (λ i m, xi ← at_ m x i; yi ← at_ m y i; put m z i (Z.lxor xi yi)) m;
  zn ← part z n k;
  sn ← part s n k;
  let m := vcopy m zn sn in
  z ← norm m z;
  Ret (m, z).
End bits.

Example bits_run :
  (let m := [0; 2 ^ 31 + 5; 3; 7; 0; 0] in let x := Vec 1 2 2 in
   (@bitLen machine32 m x = Ret 34 ∧ @nat_trailingZeroBits machine32 m (Vec 0 3 3) = Ret 32 ∧
    @shl machine32 m (Vec 3 1 3) x 1 = Ret ([0; 2 ^ 31 + 5; 3; 10; 7; 0], Vec 3 2 3) ∧
    @shr machine32 m x x 33 = Ret ([0; 1; 3; 7; 0; 0], Vec 1 1 2) ∧
    @setBit machine32 m x x 33 0 = Ret ([0; 2 ^ 31 + 5; 1; 7; 0; 0], x) ∧
    @bit machine32 m x 33 = Ret 1 ∧ @sticky machine32 m (Vec 0 3 3) 32 = Ret 0 ∧ @sticky machine32 m (Vec 0 3 3) 33 = Ret 1 ∧
    xor m x x (Vec 3 1 1) = Ret ([0; 2 ^ 31 + 2; 3; 7; 0; 0], x))).
Proof. by vm_compute. Qed.

Section proofs.
Context `{M : Machine}.
Abbreviation words m := (Forall is_word m).

(** ** Bits of numbers in memory *)

Definition dig (m : mem) (o n j : Z) : Z := if decide (0 <= j < n) then get m (o + j) else 0.

Lemma testbit_split a b k i : 0 <= a < 2 ^ k → 0 <= k → 0 <= i → Z.testbit (a + b * 2 ^ k) i = if i <? k then Z.testbit a i else Z.testbit b (i - k).
Proof.
  intros Ha Hk Hi. assert (2 ^ k ≠ 0) as Hp by lia. destruct (Z.ltb_spec i k).
  - rewrite <- (Z.mod_pow2_bits_low _ k) by lia. by rewrite Z.mod_add, Z.mod_small by lia.
  - replace i with (i - k + k) at 1 by lia. rewrite <- Z.div_pow2_bits by lia. by rewrite Z.div_add, Z.div_small, Z.add_0_l by lia.
Qed.

Lemma _W_pos : 0 < _W.
Proof. destruct _W_cases as [-> | ->]; lia. Qed.
Lemma _B_bits n : 0 <= n → _B ^ n = 2 ^ (n * _W).
Proof. intros. pose proof _W_pos. rewrite _B_eq, <- Z.pow_mul_r by lia. f_equal. lia. Qed.

Lemma word_high w i : is_word w → _W <= i → Z.testbit w i = false.
Proof. intros Hw Hi. pose proof _W_pos. unfold is_word in Hw. rewrite _B_eq in Hw. rewrite <- (Z.mod_small w (2 ^ _W)) by lia. by apply Z.mod_pow2_bits_high; lia. Qed.

Lemma num_testbit m o n i : words m → 0 <= n → 0 <= i → Z.testbit (num m o n) i = Z.testbit (dig m o n (i / _W)) (i mod _W).
Proof.
  intros Hm Hn Hi. pose proof _W_pos as HW. revert n Hn. apply natlike_ind.
  - unfold dig. rewrite decide_False by lia. rewrite num_0, !Z.testbit_0_l by done. done.
  - intros n Hn IH. replace (Z.succ n) with (n + 1) by lia. rewrite num_snoc, _B_bits by lia. pose proof (num_bound m o n Hm Hn) as Hb. rewrite _B_bits in Hb by lia.
    rewrite testbit_split by lia. assert (_W ≠ 0) as HW0 by lia. pose proof (Z.div_mod i _W HW0) as Ei. pose proof (Z.mod_pos_bound i _W HW) as Hmod.
    destruct (Z.ltb_spec i (n * _W)) as [Hlt|Hge].
    + rewrite IH. assert (i / _W < n) by (apply Z.div_lt_upper_bound; lia). assert (0 <= i / _W) by (by apply Z.div_pos). unfold dig. by rewrite !decide_True by lia.
    + assert (n <= i / _W) by (apply Z.div_le_lower_bound; lia). destruct (decide (i / _W = n)) as [E|E].
      * unfold dig. rewrite E, decide_True by lia. f_equal. nia.
      * unfold dig. rewrite decide_False, Z.testbit_0_l by lia. apply word_high; [by apply words_get|nia].
Qed.

Lemma word_bits w : (∀ i, _W <= i → Z.testbit w i = false) → is_word w.
Proof.
  intros H. pose proof _W_pos. unfold is_word. rewrite _B_eq. assert (w = w mod 2 ^ _W) as ->; [|apply Z.mod_pos_bound; lia].
  apply Z.bits_inj'. intros i Hi. destruct (Z.lt_ge_cases i _W); [by rewrite Z.mod_pow2_bits_low|]. by rewrite Z.mod_pow2_bits_high, H by lia.
Qed.

Lemma dig_word m o n j : words m → is_word (dig m o n j).
Proof. intros Hm. unfold dig. case_decide; [by apply words_get|]. unfold is_word. pose proof _B_bound. lia. Qed.

(** ** Lengths *)

Lemma bitLen_spec m x v : words m → is_nat m x v → bits v < 2 ^ (_W - 1) → bitLen m x = Ret (bits v).
Proof.
  intros Hm Hx Hfit. pose proof Hx as (Hv & Ev & Ht). pose proof Hv as (? & ? & ?). unfold bitLen. destruct (Z.leb_spec 0 (len x - 1)) as [Hpos|Hpos].
  2: { by rewrite (zero_nat _ _ _ Hx) by lia. }
  rewrite at_eq, go_bind_ret by (done || lia). pose proof (words_get m (off x + (len x - 1)) Hm) as Hw. rewrite bitLen_g_spec, go_bind_ret by done. f_equal.
  enough (bits v = (len x - 1) * _W + bits (get m (off x + (len x - 1)))) as E by (rewrite <- E; apply swrap_small; [pose proof (bits_nonneg v); lia|exact _W_pos]).
  clear Hfit.
  replace (off x + len x - 1) with (off x + (len x - 1)) in Ht by lia. specialize (Ht ltac:(lia)). set (t := get m (off x + (len x - 1))) in *.
  replace (len x) with (len x - 1 + 1) in Ev by lia. rewrite num_snoc, _B_bits in Ev by lia. fold t in Ev. pose proof (num_bound m (off x) (len x - 1) Hm ltac:(lia)) as Hb.
  rewrite _B_bits in Hb by lia. set (k := (len x - 1) * _W) in *. assert (0 <= k) by (pose proof _W_pos; unfold k; apply Z.mul_nonneg_nonneg; lia). set (l := num m (off x) (len x - 1)) in *.
  unfold is_word in Hw. assert (0 < 2 ^ k) by lia. assert (1 * 2 ^ k <= t * 2 ^ k) by (apply Z.mul_le_mono_nonneg_r; lia).
  unfold bits. rewrite (proj2 (Z.eqb_neq t 0)), (proj2 (Z.eqb_neq v 0)) by lia. enough (Z.log2 v = k + Z.log2 t) by lia.
  pose proof (Z.log2_spec t ltac:(lia)) as [Hlo Hhi]. pose proof (Z.log2_nonneg t). apply Z.log2_unique; [lia|]. rewrite <- Z.add_succ_r, !Z.pow_add_r by lia. rewrite <- Ev.
  split; [transitivity (t * 2 ^ k); [rewrite Z.mul_comm; apply Z.mul_le_mono_nonneg_r; lia|lia]|].
  assert ((t + 1) * 2 ^ k <= 2 ^ Z.succ (Z.log2 t) * 2 ^ k) by (apply Z.mul_le_mono_nonneg_r; lia). lia.
Qed.

(** ** Trailing zeros *)

Lemma land_opp_odd a : Z.land (2 * a + 1) (- (2 * a + 1)) = 1.
Proof.
  assert (- (2 * a + 1) = Z.lnot (2 * a)) as -> by (unfold Z.lnot; lia). apply Z.bits_inj'. intros i Hi. rewrite Z.land_spec, Z.lnot_spec by done.
  destruct (decide (i = 0)) as [->|]; [by rewrite Z.testbit_odd_0, Z.testbit_even_0|]. replace i with (Z.succ (i - 1)) by lia.
  rewrite Z.testbit_odd_succ, Z.testbit_even_succ by lia. rewrite andb_negb_r. symmetry. apply (Z.pow2_bits_false 0). lia.
Qed.

Lemma land_opp k a : 0 <= k → Z.land (2 ^ k * (2 * a + 1)) (- (2 ^ k * (2 * a + 1))) = 2 ^ k.
Proof.
  intros Hk. replace (- (2 ^ k * (2 * a + 1))) with (- (2 * a + 1) * 2 ^ k) by lia. rewrite (Z.mul_comm (2 ^ k)), <- !Z.shiftl_mul_pow2 by done.
  by rewrite <- Z.shiftl_land, land_opp_odd, Z.shiftl_1_l.
Qed.

Lemma lowest_bit x k a : is_word x → 0 <= k → x = 2 ^ k * (2 * a + 1) → k < _W ∧ Z.land x (uw (- x)) = 2 ^ k.
Proof.
  intros Hx Hk E. pose proof _W_pos. pose proof Hx as Hx'. unfold is_word in Hx'. assert (0 < 2 ^ k) by lia. assert (0 <= a) by nia.
  assert (2 ^ k <= x) as Hkx by nia. split; [rewrite _B_eq in Hx'; apply (Z.pow_lt_mono_r_iff 2); lia|].
  rewrite <- (land_opp k a Hk), <- E. unfold uw, wrap. rewrite <- Z.land_ones by lia. rewrite (Z.land_comm (- x)), Z.land_assoc, Z.land_ones by lia.
  rewrite (Z.mod_small x) by (rewrite <- _B_eq; done). done.
Qed.

Lemma odd_part x : 0 < x → ∃ k a, 0 <= k ∧ x = 2 ^ k * (2 * a + 1).
Proof.
  intros Hx. assert (0 <= x) as H0 by lia. revert Hx. revert H0. revert x. apply (Zlt_0_ind (λ x, 0 < x → ∃ k a, 0 <= k ∧ x = 2 ^ k * (2 * a + 1))).
  intros x IH _ Hx. destruct (Z.Even_or_Odd x) as [[y ->]|[y ->]].
  - destruct (IH y) as (k & a & Hk & E); [lia..|]. exists (k + 1), a. split; [lia|]. rewrite Z.pow_add_r by lia. lia.
  - exists 0, y. lia.
Qed.
Lemma odd_part_unique k a k' a' : 0 <= k → 0 <= k' → 2 ^ k * (2 * a + 1) = 2 ^ k' * (2 * a' + 1) → k = k'.
Proof. intros Hk Hk' E. apply (Z.pow_inj_r 2); [lia..|]. by rewrite <- (land_opp k a), <- (land_opp k' a'), E. Qed.

Definition finds (l : list Z) (w c s k : Z) : bool := match idx l (Z.shiftr (wrap w (2 ^ k * c)) s) with Ret r => r =? k | _ => false end.
Lemma finds_all l w c s n k : forallb (finds l w c s) (seqZ 0 n) = true → 0 <= k < n → idx l (Z.shiftr (wrap w (2 ^ k * c)) s) = Ret k.
Proof.
  intros H Hk. rewrite forallb_forall in H. specialize (H k). unfold finds in H. destruct (idx _ _) as [r| |].
  - f_equal. apply Z.eqb_eq, H, list_elem_of_In, elem_of_seqZ. lia.
  - discriminate H. apply list_elem_of_In, elem_of_seqZ. lia.
  - discriminate H. apply list_elem_of_In, elem_of_seqZ. lia.
Qed.

Lemma trailingZeroBits_spec x k a : is_word x → 0 <= k → x = 2 ^ k * (2 * a + 1) → trailingZeroBits x = Ret k.
Proof.
  intros Hx Hk E. destruct (lowest_bit x k a Hx Hk E) as [Hkw Hl]. unfold trailingZeroBits. rewrite Hl. unfold uw, _M. rewrite _B_eq. destruct _W_cases as [E1|E1]; rewrite E1 in *.
  - apply (finds_all _ 32 _ 27 32 k); [by vm_compute|lia].
  - change (Z.land deBruijn64 (2 ^ 64 - 1)) with deBruijn64. apply (finds_all _ 64 _ 58 64 k); [by vm_compute|lia].
Qed.

Lemma nat_trailingZeroBits_spec m x v k a : words m → is_nat m x v → 0 <= k → v = 2 ^ k * (2 * a + 1) → nat_trailingZeroBits m x = Ret k.
Proof.
  intros Hm Hx Hk E. pose proof Hx as (Hv & Ev & Ht). pose proof Hv as (? & ? & ?). destruct (nat_pos _ _ _ Hm Hx) as [Hb _]. pose proof _W_pos as HW. assert (0 < 2 ^ k) by lia.
  unfold nat_trailingZeroBits. destruct (Z.eqb_spec (len x) 0) as [E0|E0]; [rewrite (zero_nat _ _ _ Hx E0) in E; symmetry in E; apply Z.mul_eq_0 in E; lia|].
  match goal with |- ?m = Ret ?r => assert (m ⇓ λ r', r' = r) as H'; [|by apply wp_ex in H' as (? & -> & ->)] end.
  eapply wp_bind_mono with (Q := λ i, 0 <= i < len x ∧ num m (off x) i = 0 ∧ get m (off x + i) ≠ 0).
  - apply wp_while with (I := λ i, 0 <= i < len x ∧ num m (off x) i = 0) (meas := λ i, len x - i); [|split; [lia|by apply num_0]|lia].
    intros i [Hi Ei]. rewrite at_eq, go_bind_ret by (done || lia). apply wp_ret. destruct (Z.eqb_spec (get m (off x + i)) 0) as [Ez|Ez]; [|done].
    apply wp_ret. assert (i ≠ len x - 1) by (intros ->; apply Ht; [lia|]; rewrite <- Ez; f_equal; lia). split; [|lia]. split; [lia|]. rewrite num_snoc, Ei, Ez by lia. lia.
  - intros i (Hi & Ei & Hne). rewrite at_eq, go_bind_ret by (done || lia). set (xi := get m (off x + i)) in *. pose proof (words_get m (off x + i) Hm) as Hw. fold xi in Hw.
    destruct (odd_part xi) as (j & b & Hj & Exi); [unfold is_word in Hw; lia|]. destruct (lowest_bit xi j b Hw Hj Exi) as [HjW _].
    rewrite (trailingZeroBits_spec xi j b Hw Hj Exi), go_bind_ret. apply wp_ret. set (l := num m (off x + i + 1) (len x - i - 1)).
    apply (odd_part_unique _ (b + 2 ^ (_W - j - 1) * l) _ a); [lia|done|]. rewrite <- E, <- Ev. replace (len x) with (i + (1 + (len x - i - 1))) by lia.
    rewrite !num_app, num_one, Ei, Z.pow_1_r, _B_bits by lia. fold xi l. rewrite Exi, _B_eq, Z.pow_add_r by lia.
    assert (2 ^ _W = 2 ^ j * 2 * 2 ^ (_W - j - 1)) as ->; [|ring]. replace _W with (j + 1 + (_W - j - 1)) at 1 by lia. by rewrite !Z.pow_add_r by lia.
Qed.

(** ** Shifts *)

Lemma shift_words s : 0 <= s → 0 <= s / _W ∧ 0 <= s mod _W < _W ∧ 2 ^ s = _B ^ (s / _W) * 2 ^ (s mod _W) ∧ 0 < 2 ^ (s mod _W).
Proof.
  intros Hs. pose proof _W_pos as HW. assert (_W ≠ 0) as HW0 by lia. pose proof (Z.div_mod s _W HW0) as E. pose proof (Z.mod_pos_bound s _W HW).
  assert (0 <= s / _W) by (by apply Z.div_pos). split; [done|]. split; [done|]. split; [|lia]. rewrite _B_bits by done. rewrite <- Z.pow_add_r; [f_equal; lia|apply Z.mul_nonneg_nonneg; lia|lia].
Qed.

Lemma shl_spec m z x s vx : words m → valid m z → is_nat m x vx → safe z x → 0 <= s → shl m z x s ⇓ λ '(m', r), inside m z m' r ∧ is_nat m' r (vx * 2 ^ s).
Proof.
  intros Hm Hz Hxn Hsx Hs. pose proof Hxn as (Hx & Ex & _). pose proof Hx as (Hox & Hlx & Hcx). destruct (shift_words s Hs) as (Hq & Ht & Es & Hp). unfold shl.
  set (k := len x) in *. set (q := s / _W) in *. set (t := s mod _W) in *. destruct (Z.eqb_spec k 0) as [E0|E0].
  { rewrite (zero_nat _ _ _ Hxn E0). by apply empty_result. }
  eapply wp_bind_mono; [apply make_spec; [done|done|lia]|]. intros [m1 z1] (Hi & Hl1 & Hg & _). pose proof Hi as (Hw1 & Hv1 & _). pose proof Hv1 as (Ho1 & Hlz1 & Hc1).
  destruct (operand _ _ _ _ _ Hi Hg Hx Hsx) as (Hx1 & Hsx1 & Hnum). rewrite (part_eq z1 (k + q - k)), go_bind_ret by lia. replace (k + q - k) with q by lia. replace (k + q - q) with k by lia.
  eapply wp_bind_mono.
  { apply (shlVU_g_spec m1 (Vec (off z1 + q) k (cap z1 - q)) x t); [done|by apply valid_vec; lia|done|simpl; lia|done|unfold down_ok, safe, apart in *; simpl; lia]. }
  cbn [off len]. intros [m2 c] (Hf2 & Hw2 & E2 & Hc). fold k in E2. rewrite Hnum, Ex in E2 by lia. pose proof (proj1 Hf2). rewrite put_eq, go_bind_ret by (unfold valid; lia).
  assert (is_word c) as Hcw by (unfold is_word; rewrite _B_eq; pose proof (Z.pow_le_mono_r 2 t _W); lia).
  destruct (frame_up m2 m2 (off z1 + q) k c (frame_refl _ _ _) Hw2 Hcw) as (Hf3 & Hw3 & E3 & _); [lia..|]. replace (off z1 + (k + q)) with (off z1 + q + k) by lia.
  set (m3 := insZ m2 (off z1 + q + k) c) in *. clearbody m3. rewrite E2 in E3. pose proof (proj1 Hf3). rewrite part_0, go_bind_ret by lia.
  eapply wp_bind_mono; [apply clear_spec; [done|apply valid_vec; lia]|]. cbn [off len]. intros m4 (Hf4 & Hw4 & Hz4).
  apply norm_result.
  - eapply inside_write; [|exact Hf4|done|lia]. eapply inside_write; [|exact Hf3|done|lia]. eapply inside_write; [exact Hi|exact Hf2|done|lia].
  - rewrite Hl1. replace (k + q + 1) with (q + (k + 1)) by lia. rewrite num_app, num_zeros by (done || lia). rewrite (num_frame _ _ _ _ (off z1 + q) (k + 1) Hf4), E3, Es by lia. ring.
Qed.

Lemma shr_spec m z x s vx : words m → valid m z → is_nat m x vx → safe z x → 0 <= s → shr m z x s ⇓ λ '(m', r), inside m z m' r ∧ is_nat m' r (vx / 2 ^ s).
Proof.
  intros Hm Hz Hxn Hsx Hs. pose proof Hxn as (Hx & Ex & _). pose proof Hx as (Hox & Hlx & Hcx). destruct (shift_words s Hs) as (Hq & Ht & Es & Hp). unfold shr.
  set (k := len x) in *. set (q := s / _W) in *. set (t := s mod _W) in *. pose proof (_B_pow q Hq) as Hpq. destruct (Z.leb_spec (k - q) 0) as [Hn|Hn].
  { assert (vx / 2 ^ s = 0) as ->; [|by apply empty_result]. apply Z.div_small. rewrite Es. destruct (nat_pos _ _ _ Hm Hxn) as [Hb _]. fold k in Hb.
    pose proof (Z.pow_le_mono_r _B k q). pose proof _B_bound. split; [lia|]. assert (_B ^ q * 1 <= _B ^ q * 2 ^ t) by (apply Z.mul_le_mono_nonneg_l; lia). lia. }
  eapply wp_bind_mono; [apply make_spec; [done|done|lia]|]. intros [m1 z1] (Hi & Hl1 & Hg & _). pose proof Hi as (Hw1 & Hv1 & _). pose proof Hv1 as (Ho1 & Hlz1 & Hc1).
  destruct (operand _ _ _ _ _ Hi Hg Hx Hsx) as (Hx1 & Hsx1 & Hnum). rewrite part_from_eq, go_bind_ret by lia. fold k. replace (k - (k - q)) with q by lia.
  pose proof Hx1 as (_ & _ & Hcx1). eapply wp_bind_mono.
  { apply (shrVU_g_spec m1 z1 (Vec (off x + q) (k - q) (cap x - q)) t); [done|done|apply valid_vec; lia|simpl; lia|done|unfold up_ok, safe, apart in *; simpl; lia]. }
  cbn [off len]. intros [m2 c] (Hf2 & Hw2 & E2 & _). apply norm_result; [eapply inside_write; [exact Hi|exact Hf2|done|lia]|].
  rewrite E2, Hl1, Hnum, <- Ex, Es, <- Z.div_div by lia. f_equal. replace k with (q + (k - q)) at 2 by lia. rewrite num_app by lia.
  pose proof (num_bound m (off x) q Hm Hq). rewrite (Z.mul_comm (_B ^ q)), Z.div_add, Z.div_small by lia. lia.
Qed.

(** ** Single bits *)

Lemma nat_testbit m x v i : words m → is_nat m x v → 0 <= i → Z.testbit v i = Z.testbit (dig m (off x) (len x) (i / _W)) (i mod _W).
Proof. intros Hm ((? & ? & ?) & <- & _) Hi. apply num_testbit; (done || lia). Qed.

Lemma bit_spec m x v i : words m → is_nat m x v → 0 <= i → bit m x i = Ret (Z.b2z (Z.testbit v i)).
Proof.
  intros Hm Hx Hi. rewrite (nat_testbit m x v i Hm Hx Hi). pose proof Hx as (Hv & _). destruct (shift_words i Hi) as (Hq & Ht & _). unfold bit, dig.
  destruct (Z.leb_spec (len x) (i / _W)); [by rewrite decide_False, Z.testbit_0_l by lia|]. rewrite at_eq, go_bind_ret, decide_True by (done || lia).
  rewrite land_1, Z.shiftr_div_pow2, Z.testbit_spec' by lia. done.
Qed.

Lemma num_nonzero m o n i : words m → 0 <= i < n → get m (o + i) ≠ 0 → num m o n ≠ 0.
Proof.
  intros Hm Hi Hne. replace n with (i + (1 + (n - i - 1))) by lia. rewrite !num_app, num_one by lia. pose proof (words_get m (o + i) Hm) as [? _].
  pose proof (num_bound m o i Hm ltac:(lia)). pose proof (num_bound m (o + i + 1) (n - i - 1) Hm ltac:(lia)). pose proof (_B_pow i ltac:(lia)). pose proof (_B_pow 1 ltac:(lia)).
  assert (0 <= _B ^ 1 * num m (o + i + 1) (n - i - 1)) by (apply Z.mul_nonneg_nonneg; lia).
  assert (_B ^ i * 1 <= _B ^ i * (get m (o + i) + _B ^ 1 * num m (o + i + 1) (n - i - 1))) by (apply Z.mul_le_mono_nonneg_l; lia). lia.
Qed.

Lemma mod_words a b r P p : 0 <= a < P → 0 < p → (p | _B) → (a + P * (b + _B * r)) mod (P * p) = a + P * (b mod p).
Proof.
  intros Ha Hp [q Hq]. assert (p ≠ 0) as Hp0 by lia. pose proof (Z.div_mod b p Hp0) as Eb. pose proof (Z.mod_pos_bound b p Hp) as Hb. symmetry.
  apply (Z.mod_unique _ _ (b / p + q * r)); [|rewrite Hq; rewrite Eb at 1; ring]. left. split; [apply Z.add_nonneg_nonneg; [lia|apply Z.mul_nonneg_nonneg; lia]|].
  assert (P * (b mod p + 1) <= P * p) by (apply Z.mul_le_mono_nonneg_l; lia). lia.
Qed.

Lemma sticky_spec m x v i : words m → is_nat m x v → 0 <= i → sticky m x i = Ret (if v mod 2 ^ i =? 0 then 0 else 1).
Proof.
  intros Hm Hx Hi. pose proof Hx as (Hv & Ev & _). pose proof Hv as (? & ? & ?). destruct (nat_pos _ _ _ Hm Hx) as [Hb Hb']. destruct (shift_words i Hi) as (Hq & Ht & Es & Hp). unfold sticky.
  set (j := i / _W) in *. set (t := i mod _W) in *. pose proof (_B_pow j Hq) as Hpj. destruct (Z.leb_spec (len x) j) as [Hj|Hj].
  { rewrite Z.mod_small. { destruct (Z.eqb_spec (len x) 0) as [E0|E0]; [by rewrite (zero_nat _ _ _ Hx E0)|]. pose proof (_B_pow (len x - 1) ltac:(lia)). by rewrite (proj2 (Z.eqb_neq v 0)) by lia. }
    rewrite Es. pose proof (Z.pow_le_mono_r _B (len x) j). pose proof _B_bound. assert (_B ^ j * 1 <= _B ^ j * 2 ^ t) by (apply Z.mul_le_mono_nonneg_l; lia). lia. }
  rewrite part_to_eq, go_bind_ret by lia. cbn [len].
  match goal with |- ?m = Ret ?r => assert (m ⇓ λ r', r' = r) as H'; [|by apply wp_ex in H' as (? & -> & ->)] end.
  eapply wp_bind_mono with (Q := λ b, b = negb (num m (off x) j =? 0)).
  - apply wp_loop with (I := λ k, 0 <= k <= j ∧ ∀ i, 0 <= i < k → get m (off x + i) = 0) (meas := λ k, j - k); [|split; lia|lia]. intros k [Hk Hz].
    destruct (Z.ltb_spec k j) as [Hlt|Hge]; [|apply wp_ret; by rewrite num_zeros by (intros; apply Hz; lia)].
    rewrite at_eq, go_bind_ret by (try apply valid_vec; simpl; lia). cbn [off]. destruct (Z.eqb_spec (get m (off x + k)) 0) as [E|E]; cbn [negb]; apply wp_ret.
    + split; [|lia]. split; [lia|]. intros i' Hi'. destruct (decide (i' = k)) as [->|]; [done|apply Hz; lia].
    + by rewrite (proj2 (Z.eqb_neq _ _)) by (eapply num_nonzero; [done| |exact E]; lia).
  - intros b ->. assert (v mod 2 ^ i = num m (off x) j + _B ^ j * (get m (off x + j) mod 2 ^ t)) as ->.
    { rewrite Es, <- Ev. replace (len x) with (j + (1 + (len x - j - 1))) by lia. rewrite !num_app, num_one, Z.pow_1_r by lia. apply mod_words; [by apply num_bound|lia|].
      rewrite _B_eq. exists (2 ^ (_W - t)). rewrite <- Z.pow_add_r by lia. f_equal. lia. }
    pose proof (num_bound m (off x) j Hm Hq) as Hl. pose proof (Z.mod_pos_bound (get m (off x + j)) (2 ^ t) Hp) as Hxj.
    assert (0 <= _B ^ j * (get m (off x + j) mod 2 ^ t)) by (apply Z.mul_nonneg_nonneg; lia).
    destruct (Z.eqb_spec (num m (off x) j) 0) as [E|E]; cbn [negb]; [|apply wp_ret; by rewrite (proj2 (Z.eqb_neq _ 0)) by lia].
    rewrite at_eq, go_bind_ret by (done || lia). apply wp_ret. rewrite uw_eq, _B_eq, Z.shiftl_mul_pow2, E by lia. replace _W with (t + (_W - t)) at 2 by lia.
    rewrite Z.pow_add_r, Z.mul_mod_distr_r by lia. assert (0 < 2 ^ (_W - t)) by lia. set (y := get m (off x + j) mod 2 ^ t) in *. rewrite Z.add_0_l.
    destruct (Z.eqb_spec y 0) as [->|Hy]; [by rewrite Z.mul_0_r|]. by rewrite !(proj2 (Z.eqb_neq _ 0)) by (apply Z.neq_mul_0; lia).
Qed.

(** ** The logical operations *)

(** An operation on numbers that works on each bit. *)
Definition bitwise (op : Z → Z → Z) (f : bool → bool → bool) : Prop := f false false = false ∧ ∀ a b i, 0 <= i → Z.testbit (op a b) i = f (Z.testbit a i) (Z.testbit b i).

Lemma land_bitwise : bitwise Z.land andb.
Proof. split; [done|]. intros. apply Z.land_spec. Qed.
Lemma ldiff_bitwise : bitwise Z.ldiff (λ a b, a && negb b).
Proof. split; [done|]. intros. apply Z.ldiff_spec. Qed.
Lemma lor_bitwise : bitwise Z.lor orb.
Proof. split; [done|]. intros. apply Z.lor_spec. Qed.
Lemma lxor_bitwise : bitwise Z.lxor xorb.
Proof. split; [done|]. intros. apply Z.lxor_spec. Qed.

Section bitwise.
Context (op : Z → Z → Z) (f : bool → bool → bool) (Hop : bitwise op f).

Lemma bitwise_word a b : is_word a → is_word b → is_word (op a b).
Proof using Hop. intros Ha Hb. apply word_bits. intros i Hi. pose proof _W_pos. destruct Hop as [Hf0 Hf]. by rewrite Hf, !word_high by (done || lia). Qed.

Lemma bitwise_zero : op 0 0 = 0.
Proof using Hop. apply Z.bits_inj'. intros i Hi. destruct Hop as [Hf0 Hf]. by rewrite Hf, !Z.testbit_0_l. Qed.

(** A result whose words are those of the operation. *)
Lemma bitwise_num m m' x y o n vx vy : words m → words m' → is_nat m x vx → is_nat m y vy → 0 <= n →
  (∀ j, 0 <= j → dig m' o n j = op (dig m (off x) (len x) j) (dig m (off y) (len y) j)) → num m' o n = op vx vy.
Proof using Hop.
  intros Hm Hm' Hx Hy Hn Hd. apply Z.bits_inj'. intros i Hi. pose proof _W_pos. rewrite num_testbit, Hd by (done || apply Z.div_pos; lia).
  destruct Hop as [_ H']. rewrite !H' by (done || apply Z.mod_pos_bound; lia). by rewrite (nat_testbit m x vx), (nat_testbit m y vy).
Qed.

(** The loop that all of them have. *)
Lemma bitwise_loop m z x y n : words m → valid m z → valid m x → valid m y → safe z x → safe z y → n <= len x → n <= len y → n <= len z → 0 <= n →
  for_up 0 n (λ i m, xi ← at_ m x i; yi ← at_ m y i; put m z i (op xi yi)) m ⇓ λ m', frame m m' (off z) n ∧ words m' ∧
    ∀ j, 0 <= j < n → get m' (off z + j) = op (get m (off x + j)) (get m (off y + j)).
Proof using Hop.
  intros Hm Hz Hx Hy Hsx Hsy Hnx Hny Hnz Hn. pose proof Hz as (? & ? & ?). pose proof Hx as (? & ? & ?). pose proof Hy as (? & ? & ?).
  apply wp_for_up with (I := λ i mi, frame m mi (off z) i ∧ words mi ∧ ∀ j, 0 <= j < i → get mi (off z + j) = op (get m (off x + j)) (get m (off y + j))).
  - intros i mi Hi (Hf & Hw & H'). unfold safe, apart in *. rewrite (at_frame m mi x _ _ _ Hf), (at_frame m mi y _ _ _ Hf), !go_bind_ret by (done || lia).
    set (v := op (get m (off x + i)) (get m (off y + i))). assert (is_word v) as Hv by (by apply bitwise_word; apply words_get).
    rewrite put_eq by (done || lia || by eapply valid_frame). apply wp_ret. destruct (frame_up m mi (off z) i v Hf Hw Hv) as (Hf' & Hw' & _ & Hg); [lia..|].
    split; [done|]. split; [done|]. intros j Hj. destruct (decide (j = i)) as [->|]; [done|]. rewrite <- H' by lia. destruct Hf as [? _]. by rewrite get_insZ, decide_False by lia.
  - split; [apply frame_refl|]. split; [done|lia].
  - intros m'. by rewrite Z.max_r by lia.
Qed.
End bitwise.

Lemma and_spec m z x y vx vy : words m → valid m z → is_nat m x vx → is_nat m y vy → safe z x → safe z y →
  and m z x y ⇓ λ '(m', r), inside m z m' r ∧ is_nat m' r (Z.land vx vy).
Proof.
  intros Hm Hz Hxn Hyn Hsx Hsy. pose proof Hxn as (Hx & _). pose proof Hyn as (Hy & _). pose proof Hx as (? & ? & ?). pose proof Hy as (? & ? & ?). unfold and.
  set (k := if len y <? len x then len y else len x). assert (k = Z.min (len x) (len y)) as Ek by (unfold k; destruct (Z.ltb_spec (len y) (len x)); lia). clearbody k.
  eapply wp_bind_mono; [apply make_spec; [done|done|lia]|]. intros [m1 z1] (Hi & Hl1 & Hg & _). pose proof Hi as (Hw1 & Hv1 & _). pose proof Hv1 as (? & ? & ?).
  destruct (operand _ _ _ _ _ Hi Hg Hx Hsx) as (Hx1 & Hsx1 & _). destruct (operand _ _ _ _ _ Hi Hg Hy Hsy) as (Hy1 & Hsy1 & _).
  eapply wp_bind_mono; [apply (bitwise_loop _ _ land_bitwise m1 z1 x y k); (done || lia)|]. intros m2 (Hf2 & Hw2 & Hv2).
  apply norm_result; [eapply inside_write; [exact Hi|exact Hf2|done|lia]|]. apply (bitwise_num _ _ land_bitwise m m2 x y); try done; [lia|]. intros j Hj. unfold dig.
  destruct (decide (0 <= j < len z1)); [rewrite !decide_True, Hv2, !Hg by lia; done|].
  destruct (decide (0 <= j < len x)); [rewrite (decide_False (P := 0 <= j < len y)), Z.land_0_r by lia; done|done].
Qed.

(** The words beyond the shorter operand are copied. *)
Lemma tail_copy m z1 s m2 n k : words m2 → valid m2 z1 → valid m2 s → 0 <= n <= k → k <= cap z1 → k <= cap s → n <= len z1 →
  frame m m2 (off z1) n → safe z1 s →
  ∃ zn sn, part z1 n k = Ret zn ∧ part s n k = Ret sn ∧ let m3 := vcopy m2 zn sn in frame m2 m3 (off z1 + n) (k - n) ∧ words m3 ∧ 
    ∀ j, n <= j < k → get m3 (off z1 + j) = get m (off s + j).
Proof.
  intros Hm2 Hz Hs Hn Hkz Hks Hnz Hf Hsafe. pose proof Hz as (? & ? & ?). pose proof Hs as (? & ? & ?). exists (Vec (off z1 + n) (k - n) (cap z1 - n)), (Vec (off s + n) (k - n) (cap s - n)).
  rewrite !part_eq by lia. split; [done|]. split; [done|]. cbv zeta.
  destruct (vcopy_spec m2 (Vec (off z1 + n) (k - n) (cap z1 - n)) (Vec (off s + n) (k - n) (cap s - n)) Hm2) as (Hf3 & Hw3 & Hg3 & _); [apply valid_vec; lia..|].
  cbn [off len] in *. rewrite Z.min_id in *. split; [done|]. split; [done|]. intros j Hj. replace (off z1 + j) with (off z1 + n + (j - n)) by lia. rewrite Hg3 by lia.
  replace (off s + n + (j - n)) with (off s + j) by lia. apply Hf. unfold safe, apart in *. lia.
Qed.

Lemma bitwise_result op f m z x y s n k vx vy : bitwise op f → words m → valid m z → is_nat m x vx → is_nat m y vy → valid m s → safe z x → safe z y → safe z s →
  0 <= n <= k → n <= len x → n <= len y → k = len s → (∀ j, 0 <= j → op (dig m (off x) (len x) j) (dig m (off y) (len y) j) =
    if decide (j < n) then op (get m (off x + j)) (get m (off y + j)) else if decide (j < k) then get m (off s + j) else 0) →
  ('(m, z) ← make_ m z k;
   m ← for_up 0 n (λ i m, xi ← at_ m x i; yi ← at_ m y i; put m z i (op xi yi)) m;
   zn ← part z n k;
   sn ← part s n k;
   let m := vcopy m zn sn in
   z ← norm m z;
   Ret (m, z)) ⇓ λ '(m', r), inside m z m' r ∧ is_nat m' r (op vx vy).
Proof.
  intros Hop Hm Hz Hxn Hyn Hs Hsx Hsy Hss Hnk Hnx Hny -> Hd. pose proof Hxn as (Hx & _). pose proof Hyn as (Hy & _). pose proof Hx as (? & ? & ?). pose proof Hy as (? & ? & ?). pose proof Hs as (? & ? & ?).
  eapply wp_bind_mono; [apply make_spec; [done|done|lia]|]. intros [m1 z1] (Hi & Hl1 & Hg & _). pose proof Hi as (Hw1 & Hv1 & _). pose proof Hv1 as (? & ? & ?).
  destruct (operand _ _ _ _ _ Hi Hg Hx Hsx) as (Hx1 & Hsx1 & _). destruct (operand _ _ _ _ _ Hi Hg Hy Hsy) as (Hy1 & Hsy1 & _). destruct (operand _ _ _ _ _ Hi Hg Hs Hss) as (Hs1 & Hss1 & _).
  eapply wp_bind_mono; [apply (bitwise_loop _ _ Hop m1 z1 x y n); (done || lia)|]. intros m2 (Hf2 & Hw2 & Hv2). pose proof (proj1 Hf2).
  destruct (tail_copy m1 z1 s m2 n (len s)) as (zn & sn & -> & -> & Hf3 & Hw3 & Hv3); [done|by eapply valid_frame|by eapply valid_frame|done|lia|lia|lia|done|done|].
  rewrite !go_bind_ret. cbv zeta. set (m3 := vcopy m2 zn sn) in *. clearbody m3.
  apply norm_result; [eapply inside_write; [|exact Hf3|done|lia]; eapply inside_write; [exact Hi|exact Hf2|done|lia]|].
  apply (bitwise_num _ _ Hop m m3 x y); try done; [lia|]. intros j Hj. rewrite Hd by done. unfold dig at 1. rewrite Hl1.
  destruct (decide (j < n)) as [Hjn|Hjn]; [|destruct (decide (j < len s)) as [Hjs|Hjs]].
  - rewrite decide_True by lia. rewrite (proj2 Hf3) by lia. rewrite Hv2, !Hg by lia. done.
  - rewrite decide_True by lia. rewrite Hv3, Hg by lia. done.
  - by rewrite decide_False by lia.
Qed.

(** What is left to show of each operation: its words. *)
Ltac words_cases := intros j Hj; unfold dig; repeat case_decide; try lia; rewrite ?Z.lor_0_r, ?Z.lor_0_l, ?Z.lxor_0_r, ?Z.lxor_0_l, ?Z.ldiff_0_r, ?Z.ldiff_0_l; done.

Lemma andNot_spec m z x y vx vy : words m → valid m z → is_nat m x vx → is_nat m y vy → safe z x → safe z y →
  andNot m z x y ⇓ λ '(m', r), inside m z m' r ∧ is_nat m' r (Z.ldiff vx vy).
Proof.
  intros Hm Hz Hxn Hyn Hsx Hsy. pose proof Hxn as (Hx & _). pose proof Hyn as (Hy & _). pose proof Hx as (? & ? & ?). pose proof Hy as (? & ? & ?). unfold andNot. cbv zeta.
  set (n := if len x <? len y then len x else len y). assert (n = Z.min (len x) (len y)) as En by (unfold n; destruct (Z.ltb_spec (len x) (len y)); lia). clearbody n.
  apply (bitwise_result _ _ m z x y x n (len x) vx vy ldiff_bitwise); try done; [lia..|words_cases].
Qed.

Lemma or_spec m z x y vx vy : words m → valid m z → is_nat m x vx → is_nat m y vy → safe z x → safe z y →
  or m z x y ⇓ λ '(m', r), inside m z m' r ∧ is_nat m' r (Z.lor vx vy).
Proof.
  intros Hm Hz Hxn Hyn Hsx Hsy. pose proof Hxn as (Hx & _). pose proof Hyn as (Hy & _). pose proof Hx as (? & ? & ?). pose proof Hy as (? & ? & ?). unfold or. cbv zeta.
  destruct (Z.ltb_spec (len x) (len y)).
  - apply (bitwise_result _ _ m z x y y (len x) (len y) vx vy lor_bitwise); try done; [lia..|words_cases].
  - apply (bitwise_result _ _ m z x y x (len y) (len x) vx vy lor_bitwise); try done; [lia..|words_cases].
Qed.

Lemma xor_spec m z x y vx vy : words m → valid m z → is_nat m x vx → is_nat m y vy → safe z x → safe z y →
  xor m z x y ⇓ λ '(m', r), inside m z m' r ∧ is_nat m' r (Z.lxor vx vy).
Proof.
  intros Hm Hz Hxn Hyn Hsx Hsy. pose proof Hxn as (Hx & _). pose proof Hyn as (Hy & _). pose proof Hx as (? & ? & ?). pose proof Hy as (? & ? & ?). unfold xor. cbv zeta.
  destruct (Z.ltb_spec (len x) (len y)).
  - apply (bitwise_result _ _ m z x y y (len x) (len y) vx vy lxor_bitwise); try done; [lia..|words_cases].
  - apply (bitwise_result _ _ m z x y x (len y) (len x) vx vy lxor_bitwise); try done; [lia..|words_cases].
Qed.


(** ** Setting a bit *)

Lemma copy_in m z m1 z1 x : inside m z m1 z1 → valid m x → (∀ i, off x <= i < off x + len x → get m1 i = get m i) → len x <= len z1 →
  (∀ j, len x <= j < len z1 → get m1 (off z1 + j) = 0) → let m2 := vcopy m1 z1 x in
  inside m z m2 z1 ∧ ∀ j, dig m2 (off z1) (len z1) j = dig m (off x) (len x) j.
Proof.
  intros Hi Hx Hg Hl H0 m2. pose proof Hi as (Hw1 & Hv1 & _ & Hlm & _). pose proof Hv1 as (? & ? & ?). pose proof Hx as (? & ? & ?).
  destruct (vcopy_spec m1 z1 x Hw1 Hv1) as (Hf2 & Hw2 & Hg2 & _); [unfold valid; lia|]. rewrite Z.min_r in * by lia. fold m2 in Hf2, Hw2, Hg2.
  split; [eapply inside_write; [exact Hi|exact Hf2|done|lia]|]. intros j. unfold dig. destruct (decide (0 <= j < len x)).
  - rewrite !decide_True, Hg2 by lia. apply Hg. lia.
  - case_decide; [|done]. rewrite (proj2 Hf2) by lia. apply H0. lia.
Qed.

Lemma testbit_pow2 i b : 0 <= i → 0 <= b → Z.testbit (2 ^ i) b = if decide (b / _W = i / _W) then Z.testbit (2 ^ (i mod _W)) (b mod _W) else false.
Proof.
  intros Hi Hb. pose proof _W_pos as HW. assert (_W ≠ 0) as HW0 by lia. pose proof (Z.div_mod i _W HW0) as Ei. pose proof (Z.div_mod b _W HW0) as Eb.
  pose proof (Z.mod_pos_bound i _W HW). pose proof (Z.mod_pos_bound b _W HW). rewrite !Z.pow2_bits_eqb by lia.
  case_decide as Hd; [rewrite Hd in Eb; destruct (Z.eqb_spec i b), (Z.eqb_spec (i mod _W) (b mod _W)); (done || lia)|].
  apply Z.eqb_neq. intros ->. by apply Hd.
Qed.

(** One word of the number changed by a bit. *)
Lemma digit_op op f m m' o n x v i : bitwise op f → (∀ a, f a false = a) → words m → words m' → is_nat m x v → 0 <= n → 0 <= i →
  (∀ j, 0 <= j → dig m' o n j = if decide (j = i / _W) then op (dig m (off x) (len x) j) (2 ^ (i mod _W)) else dig m (off x) (len x) j) → num m' o n = op v (2 ^ i).
Proof.
  intros [_ Hop] Hf Hm Hm' Hx Hn Hi Hd. pose proof _W_pos. apply Z.bits_inj'. intros b Hb. assert (0 <= b / _W) by (apply Z.div_pos; lia).
  rewrite num_testbit, Hd, Hop, (nat_testbit m x v), testbit_pow2 by done. case_decide; [apply Hop, Z.mod_pos_bound; lia|by rewrite Hf].
Qed.

Lemma bit_word i : 0 <= i → uw (Z.shiftl 1 (i mod _W)) = 2 ^ (i mod _W) ∧ is_word (2 ^ (i mod _W)) ∧ 0 < 2 ^ (i mod _W).
Proof.
  intros Hi. destruct (shift_words i Hi) as (_ & Ht & _ & Hp). rewrite Z.shiftl_1_l. assert (is_word (2 ^ (i mod _W))) as Hw.
  { unfold is_word. rewrite _B_eq. split; [lia|]. apply Z.pow_lt_mono_r; lia. } split; [by apply uw_small|done].
Qed.

(** The write of the changed word. *)
Lemma digit_put op f m z m2 z1 x v i : bitwise op f → (∀ a, f a false = a) → words m → is_nat m x v → inside m z m2 z1 → (∀ j, dig m2 (off z1) (len z1) j = dig m (off x) (len x) j) →
  0 <= i → i / _W < len z1 → let w := op (get m2 (off z1 + i / _W)) (2 ^ (i mod _W)) in let m3 := insZ m2 (off z1 + i / _W) w in
  inside m z m3 z1 ∧ num m3 (off z1) (len z1) = op v (2 ^ i) ∧ get m3 (off z1 + i / _W) = w.
Proof.
  intros Hop Hf Hm Hx Hi Hd Hi0 Hlt w m3. destruct (shift_words i Hi0) as (Hq & _). destruct (bit_word i Hi0) as (_ & Hwb & _). pose proof Hi as (Hw2 & Hv & _). pose proof Hv as (? & ? & ?).
  set (j := i / _W) in *. assert (is_word w) as Hw by (apply (bitwise_word op f Hop); [by apply words_get|done]).
  assert (frame m2 m3 (off z1 + j) 1 ∧ words m3) as [Hf3 Hw3].
  { split; [|by apply words_insZ]. split; [unfold m3; rewrite zlen_insZ; lia|]. intros k Hk. unfold m3. by rewrite get_insZ, decide_False by lia. }
  split; [eapply inside_write; [exact Hi|exact Hf3|done|lia]|]. assert (∀ k, 0 <= k → get m3 (off z1 + k) = if decide (k = j) then w else get m2 (off z1 + k)) as Hg.
  { intros k Hk. unfold m3. rewrite get_insZ by lia. repeat case_decide; (done || lia). } split; [|rewrite Hg, decide_True by lia; done].
  apply (digit_op op f m m3 (off z1) (len z1) x v i); try done; [lia|]. intros k Hk. rewrite <- Hd. fold j. unfold dig. destruct (decide (0 <= k < len z1)); [|by rewrite decide_False by lia].
  rewrite Hg by done. by case_decide as E; [rewrite E|].
Qed.

Lemma dig_top m m2 x z1 v : is_nat m x v → 0 < len x → (∀ j, dig m2 (off z1) (len z1) j = dig m (off x) (len x) j) → len z1 = len x → get m2 (off z1 + (len x - 1)) ≠ 0.
Proof.
  intros ((? & ? & ?) & _ & Ht) Hl Hd E. specialize (Hd (len x - 1)). unfold dig in Hd. rewrite !decide_True in Hd by lia. rewrite Hd.
  replace (off x + (len x - 1)) with (off x + len x - 1) by lia. by apply Ht.
Qed.

Lemma setBit_spec m z x v i b : words m → valid m z → is_nat m x v → safe z x → 0 <= i →
  if decide (b = 0) then setBit m z x i b ⇓ λ '(m', r), inside m z m' r ∧ is_nat m' r (Z.clearbit v i)
  else if decide (b = 1) then setBit m z x i b ⇓ λ '(m', r), inside m z m' r ∧ is_nat m' r (Z.setbit v i)
  else setBit m z x i b = Panic "set bit is not 0 or 1".
Proof.
  intros Hm Hz Hx Hs Hi. pose proof Hx as (Hv & Ev & Ht). pose proof Hv as (? & ? & ?). destruct (shift_words i Hi) as (Hq & _ & Es & Hp). destruct (bit_word i Hi) as (Ew & Hwb & Hwp).
  unfold setBit. rewrite Ew. set (j := i / _W) in *. set (t := i mod _W) in *.
  assert (∀ m1 z1, inside m z m1 z1 → (∀ i, i < zlen m → get m1 i = get m i) → len z1 = len x → let m2 := vcopy m1 z1 x in
    inside m z m2 z1 ∧ ∀ j, dig m2 (off z1) (len z1) j = dig m (off x) (len x) j) as Hcopy.
  { intros m1 z1 Hi1 Hg1 Hl1. apply copy_in; try done; [intros; apply Hg1; lia|lia|lia]. }
  destruct (Z.eqb_spec b 0) as [->|Hb0]; [rewrite decide_True by done|rewrite decide_False by done; destruct (Z.eqb_spec b 1) as [->|Hb1]; [rewrite decide_True by done|by rewrite decide_False]].
  - eapply wp_bind_mono; [apply make_spec; [done|done|lia]|]. intros [m1 z1] (Hi1 & Hl1 & Hg1 & _). destruct (Hcopy m1 z1 Hi1 Hg1 Hl1) as [Hi2 Hd]. cbv zeta. set (m2 := vcopy m1 z1 x) in *. clearbody m2.
    pose proof Hi2 as (Hw2 & Hv2 & _). unfold Z.clearbit. rewrite Z.shiftl_1_l. destruct (Z.leb_spec (len x) j) as [Hj|Hj].
    + apply wp_ret. split; [done|]. split; [done|]. assert (num m2 (off z1) (len z1) = v) as E2.
      { rewrite <- Ev. apply Z.bits_inj'. intros k Hk. rewrite !num_testbit, Hd by (done || lia). done. }
      split; [|intros Hpos; rewrite Hl1 in Hpos |- *; replace (off z1 + len x - 1) with (off z1 + (len x - 1)) by lia; by eapply dig_top].
      rewrite E2. apply Z.bits_inj'. intros k Hk. rewrite Z.ldiff_spec, (nat_testbit m x v k), testbit_pow2 by done. fold j. case_decide as E; [|by rewrite andb_true_r].
      unfold dig. by rewrite decide_False, Z.testbit_0_l by lia.
    + rewrite at_eq, go_bind_ret, put_eq, go_bind_ret by (done || lia). destruct (digit_put _ _ m z m2 z1 x v i ldiff_bitwise) as (Hi3 & E3 & _); try done; [intros []; done|fold j; lia|].
      by apply norm_result.
  - eapply wp_bind_mono with (Q := λ '(m1, z1), inside m z m1 z1 ∧ len z1 = Z.max (len x) (j + 1) ∧ (∀ i, off x <= i < off x + len x → get m1 i = get m i) ∧
      ∀ k, len x <= k < len z1 → get m1 (off z1 + k) = 0).
    { destruct (Z.leb_spec (len x) j) as [Hj|Hj].
      - eapply wp_bind_mono; [apply make_spec; [done|done|lia]|]. intros [m1 z1] (Hi1 & Hl1 & Hg1 & _). pose proof Hi1 as (Hw1 & Hv1 & _ & Hlm & _). pose proof Hv1 as (? & ? & ?).
        destruct (operand _ _ _ _ _ Hi1 Hg1 Hv Hs) as (_ & Hs1 & _). rewrite part_from_eq, go_bind_ret by lia.
        eapply wp_bind_mono; [apply clear_spec; [done|apply valid_vec; lia]|]. cbn [off len]. intros m2 (Hf2 & Hw2 & Hz2). apply wp_ret.
        split; [eapply inside_write; [exact Hi1|exact Hf2|done|lia]|]. split; [lia|]. split.
        + intros k Hk. rewrite (proj2 Hf2), Hg1; [done|lia|]. unfold safe, apart in Hs1. lia.
        + intros k Hk. replace (off z1 + k) with (off z1 + len x + (k - len x)) by lia. apply Hz2. lia.
      - eapply wp_mono; [apply make_spec; [done|done|lia]|]. intros [m1 z1] (Hi1 & Hl1 & Hg1 & _). split; [done|]. split; [lia|]. split; [intros; apply Hg1; lia|lia]. }
    intros [m1 z1] (Hi1 & Hl1 & Hg1 & Hz1). destruct (copy_in m z m1 z1 x Hi1 Hv Hg1 ltac:(lia) Hz1) as [Hi2 Hd]. cbv zeta. set (m2 := vcopy m1 z1 x) in *. clearbody m2.
    pose proof Hi2 as (Hw2 & Hv2 & _). pose proof Hv2 as (? & ? & ?). rewrite at_eq, go_bind_ret, put_eq, go_bind_ret by (done || lia).
    destruct (digit_put _ _ m z m2 z1 x v i lor_bitwise) as (Hi3 & E3 & Etop); try done; [intros []; done|fold j; lia|]. fold j t in Hi3, E3, Etop. apply wp_ret. split; [done|]. split; [apply Hi3|].
    unfold Z.setbit. rewrite Z.shiftl_1_l. split; [done|]. intros _. destruct (decide (j = len z1 - 1)) as [Ej|Ej].
    + replace (off z1 + len z1 - 1) with (off z1 + j) by lia. rewrite Etop. intros E0. apply Z.lor_eq_0_iff in E0. lia.
    + rewrite get_insZ, decide_False by lia. replace (off z1 + len z1 - 1) with (off z1 + (len x - 1)) by lia. eapply dig_top; [exact Hx|lia|done|lia].
Qed.
End proofs.
