(* ===== verification/BigBytes.v ===== *)
(** Natural numbers as big-endian bytes: [bytes] and [setBytes] of [src/src/math/big/nat.go]. *)
From S2P Require Import Prelude.
From S2P Require Import BigWord.
From S2P Require Import BigVec.
From S2P Require Import BigNat.

Section bytes.
Context `{M : Machine}.

(** The buffer as it is left, and the index of the first byte of the number in it. *)
Definition bytes_ (m : mem) (z : nat_) (buf : list Z) : go (list Z * Z) :=
  '(buf, i) ← for_up 0 (len z) (λ k '(buf, i),
    d ← at_ m z k;
    '(buf, i, _) ← for_up 0 _S (λ _ '(buf, i, d),
      buf ← upd buf (i - 1) (u8 d);
      Ret (buf, i - 1, Z.shiftr d 8)) (buf, i, d);
    Ret (buf, i)) (buf, zlen buf);
  i ← while (S (length buf)) (λ i, if i <? zlen buf then b ← idx buf i; Ret (b =? 0) else Ret false) (λ i, Ret (i + 1)) i;
  Ret (buf, i).

Definition setBytes (m : mem) (z : nat_) (buf : list Z) : go (mem * nat_) :=
  '(m, z) ← make_ m z ((zlen buf + _S - 1) / _S);
  '(m, k, _, d) ← for_down (zlen buf) 1 (λ i '(m, k, s, d),
    b ← idx buf (i - 1);
    let d := Z.lor d (uw (Z.shiftl b s)) in
    let s := s + 8 in
    if s =? _S * 8 then m ← put m z k d; Ret (m, k + 1, 0, 0) else Ret (m, k, s, d)) (m, 0, 0, 0);
  m ← (if k <? len z then put m z k d else Ret m);
  z ← norm m z;
  Ret (m, z).
End bytes.

Example bytes_run :
  @setBytes machine32 [7] nil_ [1; 2; 3; 4; 5; 6] = Ret ([7; 0x03040506; 0x0102; 0; 0; 0; 0], Vec 1 2 6) ∧
  @bytes_ machine32 [7; 0x03040506; 0x0102] (Vec 1 2 2) (replicate 8 9) = Ret ([0; 0; 1; 2; 3; 4; 5; 6], 2).
Proof. by vm_compute. Qed.

(** The number that bytes stand for. *)
Definition be (l : list Z) : Z := foldl (λ a b, a * 256 + b) 0 l.
Abbreviation octets := (Forall (λ b : Z, 0 <= b < 256)).

Lemma be_acc a l : foldl (λ a b, a * 256 + b) a l = a * 256 ^ zlen l + be l.
Proof.
  unfold be. revert a. induction l as [|b l IH]; intros a; [simpl; rewrite Z.pow_0_r; lia|]. cbn [foldl]. rewrite (IH (a * 256 + b)), (IH (0 * 256 + b)), zlen_cons.
  pose proof (zlen_nonneg l). rewrite Z.pow_add_r, Z.pow_1_r by lia. lia.
Qed.
Lemma be_cons b l : be (b :: l) = b * 256 ^ zlen l + be l.
Proof. unfold be at 1. cbn [foldl]. rewrite be_acc. lia. Qed.
Lemma be_bound l : octets l → 0 <= be l < 256 ^ zlen l.
Proof.
  induction 1 as [|b l Hb Hl IH]; [done|]. rewrite be_cons, zlen_cons. pose proof (zlen_nonneg l). rewrite Z.pow_add_r, Z.pow_1_r by lia.
  assert (b * 256 ^ zlen l <= 255 * 256 ^ zlen l) by (apply Z.mul_le_mono_nonneg_r; lia). assert (0 <= b * 256 ^ zlen l) by (apply Z.mul_nonneg_nonneg; lia). lia.
Qed.

Section proofs.
Context `{M : Machine}.
Abbreviation words m := (Forall is_word m).

Lemma _S_W : _W = 8 * _S ∧ 0 < _S.
Proof. unfold _W, _S, _logS, _m. destruct uintptr_cases as [-> | ->]; done. Qed.
Lemma _B_256 : _B = 256 ^ _S.
Proof. rewrite _B_eq. destruct _S_W as [-> ?]. change 256 with (2 ^ 8). rewrite <- Z.pow_mul_r by lia. done. Qed.

Lemma snoc_split (l : list Z) : 0 < zlen l → ∃ l' x, l = l' ++ [x] ∧ zlen l' = zlen l - 1.
Proof.
  intros Hl. destruct l as [|x l'] using rev_ind; [done|]. exists l', x. split; [done|]. rewrite zlen_app. change (zlen [x]) with 1. lia.
Qed.

(** One word written from its low byte up. *)
Lemma bytes_word l r d : _S <= zlen l → octets r →
  for_up 0 _S (λ _ '(buf, i, d), buf ← upd buf (i - 1) (u8 d); Ret (buf, i - 1, Z.shiftr d 8)) (l ++ r, zlen l, d) ⇓
    λ '(buf, i, _), ∃ l' r', buf = l' ++ r' ++ r ∧ i = zlen l' ∧ zlen l' = zlen l - _S ∧ zlen r' = _S ∧ octets r' ∧ be r' = d mod _B.
Proof.
  intros Hl Hr. destruct _S_W as [_ HS].
  apply wp_for_up with (I := λ c '(buf, i, e), ∃ l' r', buf = l' ++ r' ++ r ∧ i = zlen l' ∧ zlen l' = zlen l - c ∧ zlen r' = c ∧ octets r' ∧ be r' = d mod 256 ^ c ∧ e = d / 256 ^ c).
  - intros c [[buf i] e] Hc (l' & r' & -> & -> & El & Er & Ho & Eb & ->). destruct (snoc_split l') as (l2 & x & -> & El2); [lia|].
    rewrite upd_cursor_back by lia. rewrite go_bind_ret. apply wp_ret. exists l2, (u8 (d / 256 ^ c) :: r'). split; [done|]. split; [lia|]. split; [lia|]. split; [rewrite zlen_cons; lia|].
    assert (u8 (d / 256 ^ c) = (d / 256 ^ c) mod 256) as E8 by done. pose proof (Z.mod_pos_bound (d / 256 ^ c) 256 ltac:(lia)). assert (0 < 256 ^ c) as Hp by (apply Z.pow_pos_nonneg; lia).
    split; [constructor; [rewrite E8; lia|done]|]. split.
    + rewrite be_cons, Er, Eb, E8, Z.pow_add_r, Z.pow_1_r by lia. rewrite (Z.mul_comm (256 ^ c) 256), Z.mul_comm. rewrite (Z.mul_comm 256), Z.rem_mul_r by lia. lia.
    + rewrite Z.shiftr_div_pow2 by done. rewrite Z.div_div by lia. rewrite Z.pow_add_r by lia. done.
  - exists l, []. rewrite Z.pow_0_r, Z.mod_1_r, Z.div_1_r. by rewrite Z.sub_0_r.
  - intros [[buf i] e]. rewrite Z.max_r by lia. intros (l' & r' & ? & ? & ? & ? & ? & ? & _). exists l', r'. rewrite _B_256. done.
Qed.

(** The bytes are those of the number, without leading zeros. *)
Lemma bytes_spec m z v buf : words m → is_nat m z v → len z * _S <= zlen buf → bytes_ m z buf ⇓ λ '(buf', i), zlen buf' = zlen buf ∧ zlen buf - len z * _S <= i <= zlen buf' ∧
  octets (drop (Z.to_nat i) buf') ∧ be (drop (Z.to_nat i) buf') = v ∧ (i < zlen buf' → nthZ buf' i ≠ Some 0).
Proof.
  intros Hm (Hz & <- & _) Hb. pose proof Hz as (? & ? & ?). destruct _S_W as [_ HS]. unfold bytes_.
  eapply wp_bind_mono with (Q := λ '(buf', i), ∃ l r, buf' = l ++ r ∧ i = zlen l ∧ zlen l = zlen buf - len z * _S ∧ zlen buf' = zlen buf ∧ octets r ∧ be r = num m (off z) (len z)).
  - apply wp_for_up with (I := λ k '(buf', i), ∃ l r, buf' = l ++ r ∧ i = zlen l ∧ zlen l = zlen buf - k * _S ∧ zlen r = k * _S ∧ octets r ∧ be r = num m (off z) k).
    + intros k [buf' i] Hk (l & r & -> & -> & El & Er & Ho & Eb). rewrite at_eq, go_bind_ret by (done || lia).
      assert ((k + 1) * _S <= len z * _S) by (apply Z.mul_le_mono_nonneg_r; lia).
      eapply wp_bind_mono; [apply bytes_word; [lia|done]|]. intros [[buf' i] e] (l' & r' & -> & -> & El' & Er' & Ho' & Eb'). apply wp_ret.
      exists l', (r' ++ r). split; [done|]. split; [done|]. rewrite zlen_app. split; [lia|]. split; [lia|]. split; [by apply Forall_app|].
      unfold be. rewrite foldl_app. change (foldl _ 0 r') with (be r'). rewrite be_acc, Eb, Eb', Er, num_snoc by lia. rewrite Z.mod_small by (apply (words_get m (off z + k)); done).
      rewrite _B_256, <- Z.pow_mul_r, (Z.mul_comm _S) by lia. lia.
    + exists buf, []. rewrite app_nil_r. split; [done|]. split; [done|]. split; [lia|]. split; [done|]. split; [done|]. symmetry. by apply num_0.
    + intros [buf' i]. rewrite Z.max_r by lia. intros (l & r & -> & -> & El & Er & Ho & Eb). exists l, r. split; [done|]. split; [done|]. rewrite zlen_app. split; [lia|]. split; [lia|done].
  - intros [buf' i] (l & r & -> & -> & Ell & El & Ho & Eb). set (v := num m (off z) (len z)) in *.
    eapply wp_bind_mono with (Q := λ i, ∃ l' r', l ++ r = l' ++ r' ∧ i = zlen l' ∧ zlen l <= zlen l' ∧ octets r' ∧ be r' = v ∧ r' !! 0%nat ≠ Some 0).
    + pose proof (zlen_nonneg l). pose proof (zlen_nonneg r). apply wp_while with (I := λ i, ∃ l' r', l ++ r = l' ++ r' ∧ i = zlen l' ∧ zlen l <= zlen l' ∧ octets r' ∧ be r' = v) (meas := λ i, zlen (l ++ r) - i);
        [|by exists l, r|unfold zlen; rewrite length_app; lia].
      intros i (l' & r' & E & -> & Hll & Ho' & Eb'). rewrite E. pose proof (zlen_nonneg r'). rewrite zlen_app. destruct r' as [|b r'].
      { rewrite Z.add_0_r, Z.ltb_irrefl. apply wp_ret. by exists l', []. }
      rewrite zlen_cons in *. pose proof (zlen_nonneg r'). rewrite (proj2 (Z.ltb_lt _ _)) by lia.
      rewrite (idx_Some _ _ b), go_bind_ret by (by rewrite nthZ_app, decide_False, Z.sub_diag by lia). apply wp_ret. destruct (Z.eqb_spec b 0) as [->|Hb0].
      * apply wp_ret. split; [|lia]. exists (l' ++ [0]), r'. rewrite <- app_assoc. split; [done|]. split; [by rewrite zlen_app|]. split; [rewrite zlen_app; change (zlen [0]) with 1; lia|]. split; [by inversion Ho'|]. by rewrite be_cons in Eb'.
      * exists l', (b :: r'). split_and!; try done. simpl. congruence.
    + intros i (l' & r' & E & -> & Hll & Ho' & Eb' & Hn). apply wp_ret. rewrite E in *. rewrite drop_zlen_app, zlen_app. pose proof (zlen_nonneg l'). pose proof (zlen_nonneg r').
      split; [rewrite <- El, zlen_app; lia|]. split; [lia|]. split; [done|]. split; [done|]. intros Hlt. rewrite nthZ_app, decide_False, Z.sub_diag by lia. done.
Qed.

(** One byte more of a number. *)
Lemma be_drop l i b : 0 <= i → l.[i] = Some b → be (drop (Z.to_nat i) l) = b * 256 ^ (zlen l - (i + 1)) + be (drop (Z.to_nat (i + 1)) l).
Proof.
  intros Hi Hb. pose proof (nthZ_Some _ _ _ Hb). unfold nthZ in Hb. rewrite decide_True in Hb by done. rewrite (drop_S _ _ _ Hb), be_cons.
  replace (S (Z.to_nat i)) with (Z.to_nat (i + 1)) by lia. rewrite zlen_drop by lia. done.
Qed.

Lemma setBytes_spec m z buf : words m → valid m z → octets buf → setBytes m z buf ⇓ λ '(m', r), inside m z m' r ∧ is_nat m' r (be buf).
Proof.
  intros Hm Hz Ho. destruct _S_W as [EW HS]. pose proof (zlen_nonneg buf) as Hn. set (n := zlen buf) in *. unfold setBytes. fold n.
  assert (0 <= (n + _S - 1) / _S) as Hq by (apply Z.div_pos; lia). set (q := (n + _S - 1) / _S) in *.
  eapply wp_bind_mono; [by apply make_spec|]. intros [m1 z1] (Hi & Hl1 & _). pose proof Hi as (Hw1 & Hv1 & _). pose proof Hv1 as (? & ? & ?).
  eapply wp_bind_mono with (Q := λ '(m', k, s, d), ∃ c, 0 <= c < _S ∧ frame m1 m' (off z1) k ∧ words m' ∧ 0 <= k ∧ n = k * _S + c ∧ 0 <= d < 256 ^ c ∧ num m' (off z1) k + d * _B ^ k = be buf).
  { apply wp_for_down with (I := λ i '(m', k, s, d), ∃ c, s = 8 * c ∧ 0 <= c < _S ∧ frame m1 m' (off z1) k ∧ words m' ∧ 0 <= k ∧ n - i = k * _S + c ∧ 0 <= d < 256 ^ c ∧
      num m' (off z1) k + d * _B ^ k = be (drop (Z.to_nat i) buf)).
    - intros i [[[m' k] s] d] Hi' (c & -> & Hc & Hf & Hw & Hk & En & Hd & Ev). destruct (nthZ_is_Some buf (i - 1)) as [b Eb]; [fold n; lia|]. rewrite (idx_Some _ _ _ Eb), go_bind_ret.
      assert (0 <= b < 256) as Hb. { rewrite Forall_lookup in Ho. unfold nthZ in Eb. rewrite decide_True in Eb by lia. by apply (Ho _ _ Eb). }
      pose proof (be_drop buf (i - 1) b ltac:(lia) Eb) as Ed. fold n in Ed. replace (i - 1 + 1) with i in Ed by lia. rewrite En, <- Ev in Ed.
      assert (0 < 256 ^ c) as Hpc by (apply Z.pow_pos_nonneg; lia). assert (256 ^ (c + 1) = 256 * 256 ^ c) as Ec1 by (rewrite Z.pow_add_r, Z.pow_1_r by lia; lia).
      assert (b * 256 ^ c <= 255 * 256 ^ c ∧ 0 <= b * 256 ^ c) as [? ?] by (split; [apply Z.mul_le_mono_nonneg_r; lia|apply Z.mul_nonneg_nonneg; lia]).
      assert (256 ^ (c + 1) <= _B) as HcB by (rewrite _B_256; apply Z.pow_le_mono_r; lia).
      assert (Z.lor d (uw (Z.shiftl b (8 * c))) = d + b * 256 ^ c) as ->.
      { rewrite Z.shiftl_mul_pow2, Z.pow_mul_r by lia. change (2 ^ 8) with 256. rewrite uw_small by (unfold is_word; lia).
        rewrite Z.add_comm, Z.lor_comm. replace (256 ^ c) with (2 ^ (8 * c)) in * by (by rewrite Z.pow_mul_r by lia). apply lor_high_add with (8 * c); [lia|lia|apply Z.mod_mul; lia]. }
      assert (_B ^ k = 256 ^ (k * _S)) as EBk by (rewrite _B_256, <- Z.pow_mul_r by lia; f_equal; lia). rewrite Z.pow_add_r, <- EBk in Ed by lia.
      replace (8 * c + 8) with (8 * (c + 1)) by lia. destruct (Z.eqb_spec (8 * (c + 1)) (_S * 8)) as [Es|Es].
      + assert (c + 1 = _S) as Ecs by lia. rewrite Ecs, <- _B_256 in *. assert (is_word (d + b * 256 ^ c)) as Hdw by (unfold is_word; lia).
        assert (k < q) as Hkq. { enough (k + 1 <= q) by lia. apply Z.div_le_lower_bound; lia. }
        rewrite put_eq by (lia || by eapply valid_frame). rewrite go_bind_ret. apply wp_ret. destruct (frame_up m1 m' (off z1) k (d + b * 256 ^ c) Hf Hw Hdw) as (Hf' & Hw' & En' & _); [lia..|].
        exists 0. split; [done|]. split; [lia|]. split; [done|]. split; [done|]. split; [lia|]. split; [lia|]. split; [lia|]. rewrite En', Ed. lia.
      + apply wp_ret. exists (c + 1). split; [done|]. split; [lia|]. split; [done|]. split; [done|]. split; [done|]. split; [lia|]. split; [lia|]. rewrite Ed. lia.
    - exists 0. split; [done|]. split; [lia|]. split; [apply frame_refl|]. split; [done|]. split; [done|]. split; [lia|]. split; [lia|].
      rewrite num_0 by done. unfold n, zlen. by rewrite Nat2Z.id, drop_all.
    - intros [[[m' k] s] d]. replace (Z.min n (1 - 1)) with 0 by lia. intros (c & -> & Hc & Hf & Hw & Hk & En & Hd & Ev). exists c. rewrite Z.sub_0_r in En. done. }
  intros [[[m2 k] s] d] (c & Hc & Hf & Hw & Hk & En & Hd & Ev). pose proof (proj1 Hf). destruct (Z.ltb_spec k (len z1)) as [Hkl|Hkl].
  - assert (is_word d) as Hdw. { unfold is_word. rewrite _B_256. pose proof (Z.pow_le_mono_r 256 c _S). lia. }
    assert (q = k + 1) as Eq. { enough (q < k + 2) by lia. apply Z.div_lt_upper_bound; lia. }
    rewrite put_eq, go_bind_ret by (unfold valid; lia). destruct (frame_up m1 m2 (off z1) k d Hf Hw Hdw) as (Hf' & Hw' & En' & _); [lia..|].
    apply norm_result; [eapply inside_write; [exact Hi|exact Hf'|done|lia]|]. by rewrite Hl1, Eq, En'.
  - rewrite go_bind_ret. assert (k <= q) as Hkq. { apply Z.div_le_lower_bound; lia. } assert (q = k) as Eq by lia.
    pose proof (Z.mul_succ_div_gt (n + _S - 1) _S HS) as Hgt. fold q in Hgt. rewrite Eq in Hgt. assert (c = 0) as -> by lia.
    rewrite Z.pow_0_r in Hd. apply norm_result; [eapply inside_write; [exact Hi|exact Hf|done|lia]|]. rewrite Hl1, Eq. assert (d = 0) as -> by lia. lia.
Qed.
End proofs.
