(* ===== verification/BigProduct.v ===== *)
(** The product of two natural numbers of any lengths, in pieces that [karatsuba] takes,
    and the product of a range: [mul] and [mulRange] of [src/src/math/big/nat.go]. *)
From S2P Require Import Prelude.
From S2P Require Import BigWord.
From S2P Require Import BigVec.
From S2P Require Import BigNat.
From S2P Require Import BigMul.

(** Do two slices end at the same address? *)
Definition alias (x y : nat_) : bool := (0 <? cap x) && (0 <? cap y) && (off x + cap x - 1 =? off y + cap y - 1).

(** [max] of [nat.go]. *)
Definition max (x y : Z) : Z := if y <? x then x else y.

Definition karatsubaLen (n : Z) : go Z :=
  '(n, i) ← while (S (Z.to_nat n)) (λ '(n, i), Ret (karatsubaThreshold <? n)) (λ '(n, i), Ret (Z.shiftr n 1, i + 1)) (n, 0);
  Ret (Z.shiftl n i).

Section mul.
Context `{M : Machine}.

Definition addAt (m : mem) (z x : nat_) (i : Z) : go mem :=
  let n := len x in
  if 0 <? n then
    z0 ← part z i (i + n);
    zi ← part_from z i;
    '(m, c) ← addVV_g m z0 zi x;
    if negb (c =? 0) then
      let j := i + n in
      if j <? len z then
        zj ← part_from z j;
        '(m, _) ← addVW_g m zj zj c;
        Ret m
      else Ret m
    else Ret m
  else Ret m.

(** The terms of the product that [karatsuba] leaves: [x0] and [y0] are the [k] low words. *)
Definition mul_missing (mul : mem → nat_ → nat_ → nat_ → go (mem * nat_)) (m : mem) (z x y x0 y0 : nat_) (k : Z) : go mem :=
  x0 ← norm m x0;
  y1 ← part_from y k;
  '(m, t) ← mul m nil_ x0 y1;
  m ← addAt m z t k;
  y0 ← norm m y0;
  '(m, _, _) ← while (S (Z.to_nat (len x))) (λ '(m, t, i), Ret (i <? len x)) (λ '(m, t, i),
    xi ← part_from x i;
    xi ← (if k <? len xi then part_to xi k else Ret xi);
    xi ← norm m xi;
    '(m, t) ← mul m t xi y0;
    m ← addAt m z t i;
    '(m, t) ← mul m t xi y1;
    m ← addAt m z t (i + k);
    Ret (m, t, i + k)) (m, t, k);
  Ret m.

(** [mul] where [x] is at least as long as [y]; [mul] takes the recursive calls. *)
Definition mul_ge (mul : mem → nat_ → nat_ → nat_ → go (mem * nat_)) (m : mem) (z x y : nat_) : go (mem * nat_) :=
  let k' := len x in
  let n := len y in
  if (k' =? 0) || (n =? 0) then z ← part_to z 0; Ret (m, z)
  else if n =? 1 then d ← at_ m y 0; mulAddWW m z x d 0
  else
    let z := if alias z x || alias z y then nil_ else z in
    if n <? karatsubaThreshold then
      '(m, z) ← make_ m z (k' + n);
      m ← basicMul m z x y;
      z ← norm m z;
      Ret (m, z)
    else
      k ← karatsubaLen n;
      x0 ← part x 0 k;
      y0 ← part y 0 k;
      '(m, z) ← make_ m z (max (6 * k) (k' + n));
      m ← karatsuba (S (Z.to_nat k)) m z x0 y0;
      z ← part z 0 (k' + n);
      zh ← part_from z (2 * k);
      m ← clear m zh;
      m ← (if (k <? n) || negb (k' =? n) then mul_missing mul m z x y x0 y0 k else Ret m);
      z ← norm m z;
      Ret (m, z).

Fixpoint mul_fuel (fuel : nat) (m : mem) (z x y : nat_) : go (mem * nat_) :=
  match fuel with
  | O => NoFuel
  | S fuel => if len x <? len y then mul_ge (mul_fuel fuel) m z y x else mul_ge (mul_fuel fuel) m z x y
  end.
Definition mul (m : mem) (z x y : nat_) : go (mem * nat_) := mul_fuel (S (Z.to_nat (len x + len y))) m z x y.

Fixpoint mulRange_fuel (fuel : nat) (m : mem) (z : nat_) (a b : Z) : go (mem * nat_) :=
  match fuel with
  | O => NoFuel
  | S fuel =>
    if a =? 0 then setUint64 m z 0
    else if b <? a then setUint64 m z 1
    else if a =? b then setUint64 m z a
    else if u64 (a + 1) =? b then
      '(m, x) ← setUint64 m nil_ a;
      '(m, y) ← setUint64 m nil_ b;
      mul m z x y
    else
      let h := u64 (a + b) / 2 in
      '(m, x) ← mulRange_fuel fuel m nil_ a h;
      '(m, y) ← mulRange_fuel fuel m nil_ (u64 (h + 1)) b;
      mul m z x y
  end.
Definition mulRange (m : mem) (z : nat_) (a b : Z) : go (mem * nat_) := mulRange_fuel (S (Z.to_nat (b - a))) m z a b.
End mul.

Section proofs.
Context `{M : Machine}.
Abbreviation words m := (Forall is_word m).

Lemma karatsubaLen_spec n : karatsubaThreshold <= n → karatsubaLen n ⇓ λ k, 1 <= k <= n.
Proof.
  unfold karatsubaThreshold. intros Hn. unfold karatsubaLen, karatsubaThreshold.
  eapply wp_bind_mono with (Q := λ '(n', i), 1 <= n' ∧ 0 <= i ∧ n' * 2 ^ i <= n).
  - apply wp_while with (I := λ '(n', i), 1 <= n' ∧ 0 <= i ∧ n' * 2 ^ i <= n) (meas := fst); [|rewrite Z.pow_0_r; lia|simpl; lia].
    intros [n' i] (H1 & Hi & H). apply wp_ret. destruct (Z.ltb_spec 40 n'); [|done]. apply wp_ret. rewrite shiftr_1. cbn [fst].
    split; [|lia_div]. split; [lia_div|]. split; [lia|]. rewrite Z.pow_add_r, Z.pow_1_r by lia.
    transitivity (n' * 2 ^ i); [|done]. rewrite (Z.mul_comm (2 ^ i)), Z.mul_assoc. apply Z.mul_le_mono_nonneg_r; [|lia_div]. apply Z.pow_nonneg. lia.
  - intros [n' i] (H1 & Hi & H). apply wp_ret. rewrite Z.shiftl_mul_pow2 by done. split; [|done].
    assert (0 < 2 ^ i) by (apply Z.pow_pos_nonneg; lia). nia.
Qed.

Lemma addAt_spec m z x i : words m → valid m z → valid m x → 0 <= i → i + len x <= len z → dis (off z) (len z) (off x) (len x) →
  num m (off z) (len z) + num m (off x) (len x) * _B ^ i < _B ^ len z →
  addAt m z x i ⇓ λ m', frame m m' (off z) (len z) ∧ words m' ∧ num m' (off z) (len z) = num m (off z) (len z) + num m (off x) (len x) * _B ^ i.
Proof.
  intros Hm Hz Hx Hi Hl Hd Hb. pose proof Hz as (Hoz & Hlz & Hcz). pose proof Hx as (Hox & Hlx & Hcx). unfold addAt, dis in *.
  set (n := len x) in *. destruct (Z.ltb_spec 0 n) as [Hn|Hn].
  2: { apply wp_ret. split; [apply frame_refl|]. split; [done|]. assert (num m (off x) n = 0) as -> by (apply num_0; lia). lia. }
  rewrite (part_eq z i), (part_from_eq z i), !go_bind_ret by lia. replace (i + n - i) with n by lia. eapply wp_bind_mono.
  { apply (addVV_g_spec m (Vec (off z + i) n (cap z - i)) (Vec (off z + i) (len z - i) (cap z - i)) x Hm);
      [by apply valid_vec; lia|by apply valid_vec; lia|done|simpl; lia|done|unfold up_ok; simpl; lia|unfold up_ok; simpl; lia]. }
  cbn [off len]. intros [m1 c] (Hf1 & Hw1 & E1 & Hc). pose proof (proj1 Hf1) as Hz1.
  assert (∀ m', frame m1 m' (off z + (i + n)) (len z - (i + n)) → words m' →
    (∃ c', num m' (off z + (i + n)) (len z - (i + n)) + c' * _B ^ (len z - (i + n)) = num m (off z + (i + n)) (len z - (i + n)) + c) →
    frame m m' (off z) (len z) ∧ words m' ∧ num m' (off z) (len z) = num m (off z) (len z) + num m (off x) n * _B ^ i) as Hend.
  { intros m' Hf Hw [c' E]. split; [eapply frame_trans; eapply frame_weaken; [exact Hf1|lia|exact Hf|lia]|]. split; [done|].
    assert (num m' (off z) (len z) + c' * _B ^ len z = num m (off z) (len z) + num m (off x) n * _B ^ i) as En.
    { set (r := len z - (i + n)) in *. replace (len z) with (i + (n + r)) by lia.
      rewrite (num_app m' (off z) i), (num_app m (off z) i), (num_app m' (off z + i) n), (num_app m (off z + i) n), !(Z.pow_add_r _B) by lia.
      assert (num m' (off z) i = num m (off z) i) as ->. { rewrite (num_frame _ _ _ _ _ _ Hf) by lia. eapply num_frame; [exact Hf1|lia]. }
      assert (num m' (off z + i) n = num m1 (off z + i) n) as -> by (eapply num_frame; [exact Hf|lia]).
      rewrite <- !Z.add_assoc in *. set (P := _B ^ i) in *. set (P' := _B ^ n) in *. set (P'' := _B ^ r) in *.
      transitivity (num m (off z) i + (num m1 (off z + i) n + (num m' (off z + (i + n)) r + c' * P'') * P') * P); [ring|]. rewrite E.
      transitivity (num m (off z) i + (num m1 (off z + i) n + c * P' + num m (off z + (i + n)) r * P') * P); [ring|]. rewrite E1. ring. }
    pose proof (num_bound m (off z) (len z) Hm ltac:(lia)) as Hb1. pose proof (num_bound m (off x) n Hm ltac:(lia)) as Hb2.
    pose proof (num_bound m' (off z) (len z) Hw ltac:(lia)) as Hb3. pose proof (_B_pow i Hi).
    assert (c' < 1 ∧ -1 < c') as [? ?] by (split; apply (Z.mul_lt_mono_pos_r (_B ^ len z)); nia). assert (c' = 0) as -> by lia. lia. }
  assert (num m1 (off z + (i + n)) (len z - (i + n)) = num m (off z + (i + n)) (len z - (i + n))) as Er by (eapply num_frame; [exact Hf1|lia]).
  destruct (Z.eqb_spec c 0) as [->|Hc0]; cbn [negb].
  { apply wp_ret. apply Hend; [apply frame_refl|done|]. exists 0. lia. }
  destruct (Z.ltb_spec (i + n) (len z)) as [Hlt|Hge].
  2: { apply wp_ret. apply Hend; [apply frame_refl|done|]. exists c. replace (len z - (i + n)) with 0 in * by lia. rewrite Z.pow_0_r. lia. }
  rewrite (part_from_eq z), go_bind_ret by lia. eapply wp_bind_mono.
  { apply (addVW_g_spec m1 (Vec (off z + (i + n)) (len z - (i + n)) (cap z - (i + n))) (Vec (off z + (i + n)) (len z - (i + n)) (cap z - (i + n))) c Hw1);
      [by apply valid_vec; lia|by apply valid_vec; lia|simpl; lia|done|unfold up_ok; simpl; lia]. }
  cbn [off len]. intros [m2 c'] (Hf2 & Hw2 & E2 & Hc'). apply wp_ret. apply Hend; [done|done|]. exists c'. lia.
Qed.

(** An operand has the storage of the receiver, or is apart from it. *)
Definition shares (z x : nat_) : Prop := off x = off z ∧ cap x = cap z ∨ apart z x.

(** What [mul] promises of operands of less than [N] words together. *)
Definition mul_ok (f : mem → nat_ → nat_ → nat_ → go (mem * nat_)) (N : Z) : Prop := ∀ m z x y vx vy, words m → valid m z → is_nat m x vx → is_nat m y vy →
  shares z x → shares z y → len x + len y < N → f m z x y ⇓ λ '(m', r), inside m z m' r ∧ is_nat m' r (vx * vy).

Lemma nat_len_le m x v n : words m → is_nat m x v → 0 <= n → v < _B ^ n → len x <= n.
Proof.
  intros Hm Hx Hn Hv. pose proof Hx as ((_ & Hl & _) & _). destruct (nat_pos _ _ _ Hm Hx) as [_ H]. destruct (Z.le_gt_cases (len x) n) as [|Hlt]; [done|].
  specialize (H ltac:(lia)). pose proof (Z.pow_le_mono_r _B n (len x - 1)). pose proof _B_bound. lia.
Qed.

Lemma mul_len m x y r vx vy : words m → is_nat m r (vx * vy) → 0 <= vx < _B ^ x → 0 <= vy < _B ^ y → 0 <= x → 0 <= y → len r <= x + y.
Proof.
  intros Hm Hr Hx Hy Hx0 Hy0. apply (nat_len_le m r (vx * vy) _ Hm Hr); [lia|]. rewrite Z.pow_add_r by lia. apply Z.mul_lt_mono_nonneg; lia.
Qed.

(** The state of the accumulation into [z], since the memory was [m0]: [t] is storage of its own. *)
Definition accumulates (m0 : mem) (z : nat_) (m : mem) (t : nat_) : Prop :=
  words m ∧ keeps m0 z m ∧ valid m t ∧ (off t = 0 ∧ cap t = 0 ∨ zlen m0 <= off t).

Lemma accumulates_num m0 z m t x v : accumulates m0 z m t → is_nat m0 x v → apart z x → is_nat m x v.
Proof.
  intros (_ & (Hl & Hk) & _) Hx Ha. pose proof Hx as ((Hox & Hlx & Hcx) & _). eapply is_nat_ext; [exact Hl| |exact Hx].
  intros i Hi. apply Hk; unfold apart in Ha; lia.
Qed.

(** One step of it: [t = t.mul(x, y)], [addAt(z, t, i)]. *)
Lemma accumulate_step {A} f N m0 z m t x y vx vy i K (Q : A → Prop) : mul_ok f N → valid m0 z → accumulates m0 z m t → is_nat m0 x vx → is_nat m0 y vy → apart z x → apart z y →
  len x + len y < N → 0 <= i → i + (len x + len y) <= len z → num m (off z) (len z) + vx * vy * _B ^ i < _B ^ len z →
  (∀ m' t', accumulates m0 z m' t' → num m' (off z) (len z) = num m (off z) (len z) + vx * vy * _B ^ i → K m' t' ⇓ Q) →
  ('(m, t) ← f m t x y; m ← addAt m z t i; K m t) ⇓ Q.
Proof.
  intros Hf Hz Ha Hx Hy Hzx Hzy Hl Hi Hlz Hb HK. pose proof Ha as (Hw & (Hlm & Hk) & Ht & Hp).
  pose proof (accumulates_num _ _ _ _ _ _ Ha Hx Hzx) as Hx'. pose proof (accumulates_num _ _ _ _ _ _ Ha Hy Hzy) as Hy'.
  pose proof Hx as ((? & Hlx & ?) & _). pose proof Hy as ((? & Hly & ?) & _). pose proof Hz as (Hoz & Hlz' & Hcz). pose proof Ht as (? & ? & ?).
  eapply wp_bind_mono; [apply (Hf m t x y vx vy); [done|done|done|done|unfold shares, apart; lia|unfold shares, apart; lia|done]|].
  intros [m1 t1] ((Hw1 & Hv1 & Hp1 & Hlm1 & Hk1) & Ht1). pose proof Ht1 as (_ & Et1 & _).
  assert (len t1 <= len x + len y) as Hlt. { apply (mul_len m1 _ _ _ vx vy); [done|done|exact (proj1 (nat_pos _ _ _ Hw Hx'))|exact (proj1 (nat_pos _ _ _ Hw Hy'))|lia|lia]. }
  assert (off t1 = 0 ∧ cap t1 = 0 ∨ zlen m0 <= off t1) as Hp1' by (unfold placed in Hp1; lia).
  assert (∀ j, j < zlen m0 → get m1 j = get m j) as Hg by (intros j Hj; apply Hk1; lia).
  assert (num m1 (off z) (len z) = num m (off z) (len z)) as Ez by (apply num_ext; intros; apply Hg; lia).
  pose proof Hv1 as (? & ? & ?). eapply wp_bind_mono; [apply addAt_spec; [done|unfold valid; lia|done|done|lia|unfold dis; lia|rewrite Ez, Et1; lia]|].
  intros m2 (Hf2 & Hw2 & E2). rewrite Ez, Et1 in E2. apply HK; [|done]. split; [done|]. destruct Hf2 as [Hz2 Hg2]. split.
  - split; [lia|]. intros j Hj Hnj. rewrite Hg2, Hg by lia. by apply Hk.
  - split; [unfold valid; lia|done].
Qed.

Lemma accumulate_part m0 z m t s : accumulates m0 z m t → valid m0 s → apart z s →
  norm m s ⇓ λ r, is_nat m0 r (num m0 (off s) (len s)) ∧ apart z r ∧ 0 <= len r <= len s.
Proof.
  intros (_ & (Hl & Hk) & _) Hs Ha. pose proof Hs as (Ho & Hls & Hc). assert (∀ i, off s <= i < off s + len s → get m i = get m0 i) as Hg.
  { intros i Hi. apply Hk; unfold apart in Ha; lia. }
  eapply wp_mono; [apply nat_norm_spec; unfold valid; lia|]. intros r (Eo & Ec & Hlr & En & Ht). split; [|split; [unfold apart; rewrite Eo, Ec; done|done]].
  split; [unfold valid; lia|]. split.
  - rewrite <- (num_ext m0 m (off r) (len r)) by (intros; apply Hg; lia). rewrite En. apply num_ext. done.
  - intros H0. rewrite <- Hg by lia. by apply Ht.
Qed.

Lemma apart_slice z x lo n c : apart z x → 0 <= lo → c = cap x - lo → apart z (Vec (off x + lo) n c).
Proof. unfold apart. simpl. lia. Qed.

Lemma mul_missing_spec f m z x y x0 y0 k vx vy : mul_ok f (len x + len y) → words m → valid m z → is_nat m x vx → is_nat m y vy → apart z x → apart z y →
  1 <= k <= len y → len y <= len x → k < len y ∨ len x ≠ len y → len z = len x + len y → x0 = Vec (off x) k (cap x) → y0 = Vec (off y) k (cap y) →
  num m (off z) (len z) = num m (off x) k * num m (off y) k →
  mul_missing f m z x y x0 y0 k ⇓ λ m', words m' ∧ keeps m z m' ∧ num m' (off z) (len z) = vx * vy.
Proof.
  intros Hf Hm Hz Hx Hy Hzx Hzy Hk Hyx Hne Hl -> -> E0. assert (2 * k < len x + len y) as H2k by lia. clear Hne. pose proof Hx as (Hvx & Ex & _). pose proof Hy as (Hvy & Ey & Hty).
  pose proof Hvx as (? & ? & ?). pose proof Hvy as (? & ? & ?). unfold mul_missing. set (a := len x) in *. set (n := len y) in *.
  set (X := num m (off x)) in *. set (Y0 := num m (off y) k) in *. set (Y1 := num m (off y + k) (n - k)).
  assert (vy = Y0 + Y1 * _B ^ k) as EY. { rewrite <- Ey. replace n with (k + (n - k)) at 1 by lia. rewrite num_app by lia. unfold Y0, Y1. ring. }
  assert (∀ i, 0 <= i <= a → 0 <= X i ∧ X i <= vx) as HX.
  { intros i Hi. split; [apply num_bound; [done|lia]|]. rewrite <- Ex. unfold X. replace a with (i + (a - i)) by lia. rewrite num_app by lia.
    pose proof (num_bound m (off x + i) (a - i) Hm ltac:(lia)). pose proof (_B_pow i ltac:(lia)). nia. }
  assert (0 <= vx < _B ^ a ∧ 0 <= vy < _B ^ n) as [Hbx Hby] by (rewrite <- Ex, <- Ey; split; apply num_bound; done || lia).
  assert (∀ i, 0 <= i <= a → X i * vy < _B ^ len z) as Hb.
  { intros i Hi. destruct (HX i Hi). rewrite Hl, Z.pow_add_r by lia. apply Z.mul_lt_mono_nonneg; lia. }
  assert (0 <= Y0 ∧ 0 <= Y1) as [HY0 HY1] by (split; apply num_bound; done || lia). pose proof (_B_pow k ltac:(lia)) as Hpk.
  assert (accumulates m z m nil_) as Ha0.
  { split; [done|]. split; [apply keeps_refl|]. split; [unfold valid; simpl; pose proof (zlen_nonneg m); lia|by left]. }
  eapply wp_bind_mono; [apply (accumulate_part _ _ _ _ _ Ha0); [by apply valid_vec; lia|unfold apart in *; simpl; lia]|]. cbn [off len]. fold (X k). intros x0 (Hx0 & Hax0 & Hlx0).
  rewrite part_from_eq, go_bind_ret by lia. fold n. set (y1 := Vec (off y + k) (n - k) (cap y - k)).
  assert (is_nat m y1 Y1) as Hy1.
  { split; [by apply valid_vec; lia|]. split; [done|]. simpl. intros Hnk. replace (off y + k + (n - k) - 1) with (off y + n - 1) by lia. apply Hty. lia. }
  assert (apart z y1) as Hay1 by (unfold apart in *; simpl; lia).
  eapply (accumulate_step f (a + n) m z m nil_ x0 y1 (X k) Y1 k); [done..|simpl; lia|lia|simpl; lia|rewrite E0; specialize (Hb k ltac:(lia)); rewrite EY in Hb; lia|].
  intros m1 t1 Ha1 E1. eapply wp_bind_mono; [apply (accumulate_part _ _ _ _ _ Ha1); [by apply valid_vec; lia|unfold apart in *; simpl; lia]|]. cbn [off len]. fold Y0. intros y0 (Hy0 & Hay0 & Hly0).
  eapply wp_bind_mono with (Q := λ '(m', t, i), accumulates m z m' t ∧ num m' (off z) (len z) = vx * vy).
  2: { intros [[m' t'] i'] [(Hw' & Hk' & _) E']. apply wp_ret. done. }
  apply wp_while with (I := λ '(m', t, i), accumulates m z m' t ∧ k <= i ∧ num m' (off z) (len z) = X (Z.min i a) * vy) (meas := λ '(_, i), Z.max 0 (a - i)).
  2: { split; [done|]. split; [lia|]. rewrite Z.min_l, E1, E0, EY by lia. ring. } 2: { fold a. lia. }
  intros [[m' t'] i] (Ha & Hi & E). apply wp_ret. destruct (Z.ltb_spec i a) as [Hlt|Hge].
  2: { split; [done|]. rewrite E, Z.min_r by lia. by rewrite Ex. }
  rewrite part_from_eq, go_bind_ret by (fold a; lia). cbn [len]. fold a. set (w := Z.min k (a - i)).
  assert ((if k <? a - i then part_to (Vec (off x + i) (a - i) (cap x - i)) k else Ret (Vec (off x + i) (a - i) (cap x - i))) = Ret (Vec (off x + i) w (cap x - i))) as ->.
  { unfold w. destruct (Z.ltb_spec k (a - i)); [rewrite part_to_eq, Z.min_l by (simpl; lia); done|by rewrite Z.min_r by lia]. }
  assert (0 < w <= k ∧ 0 <= i + w ∧ i + w <= a ∧ Z.min (i + k) a = i + w) as (Hwk & Hiw & Hwa & Ew) by (clear -w Hlt Hk Hi; lia). clearbody w.
  rewrite go_bind_ret. eapply wp_bind_mono; [apply (accumulate_part _ _ _ _ _ Ha); [by apply valid_vec; lia|apply apart_slice; [done|lia|done]]|].
  cbn [off len]. set (Xi := num m (off x + i) w). intros xi (Hxi & Haxi & Hlxi). rewrite Z.min_l in E by lia.
  cbn [len] in Hly0. assert (len xi + len y0 < a + n ∧ i + (len xi + len y0) <= len z ∧ len xi + (n - k) < a + n ∧ i + k + (len xi + (n - k)) <= len z ∧ 0 <= i ∧ 0 <= k ∧ 0 <= i + k) as (? & ? & ? & ? & ? & ? & ?) by (clear -H2k Hwk Hwa Hlxi Hly0 Hi Hk Hl Hyx; lia).
  assert (X (i + w) = X i + Xi * _B ^ i) as EX by (unfold X, Xi; rewrite num_app by lia; ring).
  specialize (Hb (i + w) (conj Hiw Hwa)). rewrite EX, EY in Hb. pose proof (_B_pow i ltac:(lia)) as Hpi.
  assert (0 <= Xi) by (apply num_bound; done || lia). assert (0 <= Xi * Y1 * (_B ^ i * _B ^ k)) as Hn2 by (apply Z.mul_nonneg_nonneg; apply Z.mul_nonneg_nonneg; lia).
  assert (X i * vy + Xi * Y0 * _B ^ i + Xi * Y1 * (_B ^ i * _B ^ k) < _B ^ len z) as Hb' by (rewrite EY; eapply Z.le_lt_trans; [|exact Hb]; apply Z.eq_le_incl; ring).
  eapply (accumulate_step f (a + n) m z m' t' xi y0 Xi Y0 i); [assumption..|rewrite E; clear -Hb' Hn2; lia|]. intros m2 t2 Ha2 E2.
  eapply (accumulate_step f (a + n) m z m2 t2 xi y1 Xi Y1 (i + k)); [assumption..|rewrite E2, E, Z.pow_add_r by assumption; assumption|]. intros m3 t3 Ha3 E3.
  apply wp_ret. split; [|clear -Hlt Hk; lia]. split; [done|]. split; [clear -Hk Hi; lia|]. rewrite E3, E2, E, Ew, EX, EY, Z.pow_add_r by assumption. ring.
Qed.

(** ** The product *)

(** The storage [mul] takes for its result is apart from the operands. *)
Lemma product_room m z x y L : words m → valid m z → valid m x → valid m y → shares z x → shares z y → 0 < L →
  make_ m (if alias z x || alias z y then nil_ else z) L ⇓ λ '(m1, z1),
    inside m z m1 z1 ∧ len z1 = L ∧ (∀ i, i < zlen m → get m1 i = get m i) ∧ apart z1 x ∧ apart z1 y.
Proof.
  intros Hm Hz Hx Hy Hzx Hzy HL. pose proof Hz as (? & ? & ?). pose proof Hx as (? & ? & ?). pose proof Hy as (? & ? & ?).
  assert (valid m nil_) as Hn by (unfold valid; simpl; pose proof (zlen_nonneg m); lia). destruct (alias z x || alias z y) eqn:Ea.
  - eapply wp_mono; [apply make_spec; [done|done|lia]|]. intros [m1 z1] ((Hw & Hv & Hp & Hl & Hk) & El & Hg & Hor). cbn [cap nil_] in Hor.
    assert (zlen m <= off z1) as Ho by lia. split; [|unfold apart; split; [done|split; [done|lia]]]. split; [done|]. split; [done|]. split; [by right|]. split; [done|]. intros i Hi _. by apply Hg.
  - eapply wp_mono; [apply make_spec; [done|done|lia]|]. intros [m1 z1] (Hi & El & Hg & _). split; [done|]. split; [done|]. split; [done|].
    pose proof Hi as (_ & _ & Hp & _). apply orb_false_iff in Ea as [E1 E2]. unfold alias, shares, apart, placed in *.
    rewrite !andb_false_iff, !Z.ltb_ge, !Z.eqb_neq in E1, E2. split; lia.
Qed.

Lemma keeps_inside m z m1 r m2 : inside m z m1 r → keeps m1 r m2 → keeps m z m2.
Proof.
  intros (_ & _ & Hp & Hl & Hk) [Hl2 Hk2]. split; [lia|]. intros i Hi Hni. rewrite Hk2; [by apply Hk|lia|]. unfold placed in Hp. lia.
Qed.

Lemma mul_basic_spec m z x y vx vy : words m → valid m z → is_nat m x vx → is_nat m y vy → shares z x → shares z y → 0 < len x + len y →
  ('(m, z) ← make_ m (if alias z x || alias z y then nil_ else z) (len x + len y); m ← basicMul m z x y; z ← norm m z; Ret (m, z)) ⇓ λ '(m', r), inside m z m' r ∧ is_nat m' r (vx * vy).
Proof.
  intros Hm Hz (Hx & Ex & _) (Hy & Ey & _) Hzx Hzy HL. pose proof Hx as (? & ? & ?). pose proof Hy as (? & ? & ?).
  eapply wp_bind_mono; [by apply product_room|]. intros [m1 z1] (Hi & El & Hg & Hax & Hay). pose proof Hi as (Hw1 & Hv1 & _ & Hlm & _). pose proof Hv1 as (? & ? & ?).
  eapply wp_bind_mono; [apply basicMul_spec; [done|done|unfold valid; lia|unfold valid; lia|lia|unfold dis, apart in *; lia|unfold dis, apart in *; lia]|].
  intros m2 (Hf2 & Hw2 & E2). apply norm_result; [eapply inside_write; [exact Hi|exact Hf2|exact Hw2|lia]|].
  rewrite El, E2, <- Ex, <- Ey. f_equal; apply num_ext; intros; apply Hg; lia.
Qed.

(** The low words by [karatsuba], and the rest of the result cleared. *)
Lemma mul_low {A} m z1 x y k L K (Q : A → Prop) : words m → valid m z1 → valid m x → valid m y → apart z1 x → apart z1 y → 1 <= k → k <= len x → k <= len y →
  len z1 = max (6 * k) L → 2 * k <= L →
  (∀ m', frame m m' (off z1) (len z1) → words m' → num m' (off z1) L = num m (off x) k * num m (off y) k → K m' (Vec (off z1) L (cap z1)) ⇓ Q) →
  (m ← karatsuba (S (Z.to_nat k)) m z1 (Vec (off x) k (cap x)) (Vec (off y) k (cap y));
   z ← part z1 0 L; zh ← part_from z (2 * k); m ← clear m zh; K m z) ⇓ Q.
Proof.
  intros Hm Hz Hx Hy Hzx Hzy Hk Hkx Hky Hl HL HK. pose proof Hz as (? & ? & ?). pose proof Hx as (? & ? & ?). pose proof Hy as (? & ? & ?).
  assert (6 * k <= len z1 ∧ L <= len z1) as [Hl6 HLz] by (unfold max in Hl; destruct (Z.ltb_spec L (6 * k)); lia). clear Hl. unfold apart in *.
  eapply wp_bind_mono; [apply (karatsuba_spec (S (Z.to_nat k)) k); [lia|done|done|by apply valid_vec; lia|by apply valid_vec; lia|done|done|lia|unfold dis; simpl; lia|unfold dis; simpl; lia]|].
  cbn [off]. intros m1 (Hf1 & Hw1 & E1). rewrite (part_0 z1 L), go_bind_ret, part_from_eq, go_bind_ret by (simpl; lia). cbn [off len cap].
  pose proof (proj1 Hf1). eapply wp_bind_mono; [apply clear_spec; [done|apply valid_vec; lia]|]. cbn [off len]. intros m2 (Hf2 & Hw2 & H2k).
  apply HK; [eapply frame_trans; eapply frame_weaken; [exact Hf1|lia|exact Hf2|lia]|done|].
  replace L with (2 * k + (L - 2 * k)) by lia. rewrite num_app, (num_zeros m2 (off z1 + 2 * k)) by (done || lia).
  rewrite (num_frame _ _ _ _ (off z1) (2 * k) Hf2), E1 by lia. lia.
Qed.

Lemma mul_ge_spec f m z x y vx vy : mul_ok f (len x + len y) → words m → valid m z → is_nat m x vx → is_nat m y vy → shares z x → shares z y → len y <= len x →
  mul_ge f m z x y ⇓ λ '(m', r), inside m z m' r ∧ is_nat m' r (vx * vy).
Proof.
  intros Hf Hm Hz Hx Hy Hzx Hzy Hl. pose proof Hx as (Hvx & Ex & _). pose proof Hy as (Hvy & Ey & _). pose proof Hvx as (? & ? & ?). pose proof Hvy as (? & ? & ?).
  unfold mul_ge. set (a := len x) in *. set (n := len y) in *. destruct ((a =? 0) || (n =? 0)) eqn:E0.
  { assert (vx * vy = 0) as ->; [|by apply empty_result]. apply orb_true_iff in E0 as [E0%Z.eqb_eq|E0%Z.eqb_eq]; [by rewrite (zero_nat _ _ _ Hx E0)|rewrite (zero_nat _ _ _ Hy E0); lia]. }
  apply orb_false_iff in E0 as [Ea%Z.eqb_neq En%Z.eqb_neq]. destruct (Z.eqb_spec n 1) as [E1|E1].
  { rewrite (at_eq m y 0), go_bind_ret, Z.add_0_r by (done || lia). rewrite E1, num_one in Ey by done. rewrite Ey.
    replace (vx * vy) with (vx * vy + 0) by lia. apply mulAddWW_spec; [done..|unfold safe; destruct Hzx as [[? _]|]; auto|rewrite <- Ey; by apply words_get|].
    unfold is_word. pose proof _B_bound. lia. }
  cbv zeta. destruct (Z.ltb_spec n karatsubaThreshold) as [Ht|Ht]; [apply mul_basic_spec; (done || lia)|].
  eapply wp_bind_mono; [by apply karatsubaLen_spec|]. intros k Hk. cbv beta in Hk. rewrite (part_0 x k), (part_0 y k), !go_bind_ret by lia.
  assert (0 < max (6 * k) (a + n)) by (unfold max; destruct (_ <? _); lia).
  eapply wp_bind_mono; [by apply product_room|]. intros [m1 z1] (Hi & El & Hg & Hax & Hay). pose proof Hi as (Hw1 & Hv1 & _ & Hlm & _). pose proof Hv1 as (? & ? & ?).
  assert (is_nat m1 x vx) as Hx1 by (eapply is_nat_ext; [exact Hlm|intros; apply Hg; lia|done]). assert (is_nat m1 y vy) as Hy1 by (eapply is_nat_ext; [exact Hlm|intros; apply Hg; lia|done]).
  eapply (mul_low m1 z1 x y k (a + n)); [done|done|apply Hx1|apply Hy1|done|done|lia|lia|lia|done|lia|].
  intros m2 Hf2 Hw2 E2. set (z2 := Vec (off z1) (a + n) (cap z1)).
  assert (a + n <= cap z1) as HLc by (unfold max in El; destruct (Z.ltb_spec (a + n) (6 * k)); lia).
  assert (inside m z m2 z2) as Hi2. { eapply (inside_same m z m2 z1); [|done|done|simpl; lia]. eapply inside_write; [exact Hi|exact Hf2|exact Hw2|lia]. }
  assert (∀ x v, apart z1 x → is_nat m1 x v → is_nat m2 x v) as Hkeep.
  { intros x' v' Ha Hx'. pose proof Hx' as ((? & ? & ?) & _). pose proof Hf2 as [? Hg2]. eapply is_nat_ext; [|intros; apply Hg2; unfold apart in Ha; lia|exact Hx']. lia. }
  destruct (Hkeep _ _ Hax Hx1) as (_ & Ex2 & _). destruct (Hkeep _ _ Hay Hy1) as (_ & Ey2 & _).
  assert (num m2 (off z2) (len z2) = num m2 (off x) k * num m2 (off y) k) as E2'.
  { cbn [off len z2]. rewrite E2. unfold apart in *. f_equal; symmetry; eapply num_frame; try exact Hf2; lia. }
  eapply wp_bind_mono with (Q := λ m', words m' ∧ keeps m2 z2 m' ∧ num m' (off z2) (len z2) = vx * vy).
  - destruct ((k <? n) || negb (a =? n)) eqn:Eb.
    + apply mul_missing_spec; [done|done|apply Hi2|by apply Hkeep|by apply Hkeep|done|done|lia|done| |done|done|done|done].
      apply orb_true_iff in Eb as [?%Z.ltb_lt|?%negb_true_iff%Z.eqb_neq]; [by left|by right].
    + apply orb_false_iff in Eb as [?%Z.ltb_ge Ean%negb_false_iff%Z.eqb_eq]. apply wp_ret. split; [done|]. split; [apply keeps_refl|].
      rewrite E2'. assert (k = a ∧ k = n) as [-> Ekn] by lia. fold a in Ex2. rewrite Ex2, Ekn. fold n in Ey2. by rewrite Ey2.
  - intros m3 (Hw3 & Hk3 & E3). pose proof Hi2 as (_ & Hv2 & Hp2 & _). pose proof Hv2 as (? & ? & ?).
    apply norm_result; [|done]. split; [done|]. split; [destruct Hk3; unfold valid; lia|]. split; [done|]. by eapply keeps_inside.
Qed.

Lemma mul_ok_weaken f N N' : mul_ok f N → N' <= N → mul_ok f N'.
Proof. intros Hf HN m z x y vx vy ???????. apply Hf; (done || lia). Qed.

Lemma mul_fuel_spec fuel : mul_ok (mul_fuel fuel) (Z.of_nat fuel).
Proof.
  induction fuel as [|fuel IH]; intros m z x y vx vy Hm Hz Hx Hy Hzx Hzy HN; pose proof Hx as ((_ & ? & _) & _); pose proof Hy as ((_ & ? & _) & _); [lia|].
  cbn [mul_fuel]. destruct (Z.ltb_spec (len x) (len y)); [rewrite Z.mul_comm|]; apply mul_ge_spec; (done || lia || by eapply mul_ok_weaken; [exact IH|lia]).
Qed.

Lemma mul_spec m z x y vx vy : words m → valid m z → is_nat m x vx → is_nat m y vy → shares z x → shares z y →
  mul m z x y ⇓ λ '(m', r), inside m z m' r ∧ is_nat m' r (vx * vy).
Proof.
  intros Hm Hz Hx Hy Hzx Hzy. pose proof Hx as ((_ & ? & _) & _). pose proof Hy as ((_ & ? & _) & _).
  apply mul_fuel_spec; (done || lia).
Qed.

(** ** Ranges *)

(** The product of the numbers from [a] to [b]. *)
Definition range_product (a b : Z) : Z := foldr Z.mul 1 (seqZ a (b - a + 1)).

Lemma range_product_split a h b : a <= h + 1 → h <= b → range_product a b = range_product a h * range_product (h + 1) b.
Proof.
  intros Ha Hb. unfold range_product. replace (b - a + 1) with ((h - a + 1) + (b - (h + 1) + 1)) by lia. rewrite seqZ_app by lia.
  replace (a + (h - a + 1)) with (h + 1) by lia. generalize (seqZ a (h - a + 1)) as l. induction l as [|x l IH]; simpl; [lia|]. rewrite IH. ring.
Qed.

Lemma range_product_one a : range_product a a = a.
Proof. unfold range_product. replace (a - a + 1) with 1 by lia. simpl. lia. Qed.

Lemma range_product_empty a b : b < a → range_product a b = 1.
Proof. intros H. unfold range_product. by rewrite seqZ_nil by lia. Qed.

Lemma range_product_zero b : 0 <= b → range_product 0 b = 0.
Proof. intros H. unfold range_product. by rewrite seqZ_cons by lia. Qed.

Lemma range_product_has_zero a b : a <= 0 <= b → range_product a b = 0.
Proof. intros H. rewrite (range_product_split a (-1) b) by lia. change (-1 + 1) with 0. rewrite range_product_zero by lia. lia. Qed.

Lemma range_product_pos a b : 0 < a → 0 < range_product a b.
Proof.
  intros Ha. unfold range_product. assert (Forall (λ x, 0 < x) (seqZ a (b - a + 1))) as H by (apply Forall_forall; intros x Hx%elem_of_seqZ; lia).
  induction H as [|x l Hx _ IH]; simpl; [lia|]. by apply Z.mul_pos_pos.
Qed.

(** The product of a range of negative numbers. *)
Lemma range_product_neg a n : 0 <= n → range_product a (a + n) = if n mod 2 =? 0 then - range_product (- (a + n)) (- a) else range_product (- (a + n)) (- a).
Proof.
  intros Hn. revert n Hn. apply natlike_ind.
  - rewrite Z.add_0_r, !range_product_one. simpl. lia.
  - intros n Hn IH. replace (a + Z.succ n) with (a + n + 1) by lia. rewrite (range_product_split a (a + n) (a + n + 1)), range_product_one, IH by lia.
    rewrite (range_product_split (- (a + n + 1)) (- (a + n + 1)) (- a)), range_product_one by lia. replace (- (a + n + 1) + 1) with (- (a + n)) by lia.
    assert (n mod 2 = 0 ∧ Z.succ n mod 2 = 1 ∨ n mod 2 = 1 ∧ Z.succ n mod 2 = 0) as [[-> ->]|[-> ->]] by lia_div; simpl; ring.
Qed.

Lemma inside_trans m z m1 r1 m2 r2 : inside m nil_ m1 r1 → inside m1 z m2 r2 → inside m z m2 r2.
Proof.
  intros (_ & _ & _ & Hl & Hk) (Hw & Hv & Hp & Hl2 & Hk2). split; [done|]. split; [done|]. split; [unfold placed in *; lia|]. split; [lia|].
  intros i Hi Hni. rewrite Hk2 by lia. apply Hk; [done|]. simpl. lia.
Qed.

(** Two numbers made in storage of their own can be operands of [mul]. *)
Lemma fresh_operands {A} m z m1 x vx (f : go (mem * nat_)) (K : mem → nat_ → go A) (Q : A → Prop) vy : valid m z → inside m nil_ m1 x → is_nat m1 x vx →
  (words m1 → f ⇓ λ '(m', r), inside m1 nil_ m' r ∧ is_nat m' r vy) →
  (∀ m2 y, inside m nil_ m2 y → is_nat m2 x vx → is_nat m2 y vy → shares z x → shares z y → K m2 y ⇓ Q) →
  ('(m, y) ← f; K m y) ⇓ Q.
Proof.
  intros (? & ? & ?) Hx Hnx Hf HK. pose proof Hx as (Hw1 & Hv1 & Hp1 & Hl1 & _). eapply wp_bind_mono; [by apply Hf|].
  intros [m2 y] (Hy & Hny). pose proof Hy as (Hw2 & _ & Hp2 & Hl2 & Hk2). pose proof Hnx as ((? & ? & ?) & _). pose proof Hny as ((? & ? & ?) & _).
  unfold placed in *. cbn [off cap nil_] in *. apply HK; [by eapply inside_trans| |done|unfold shares, apart; lia|unfold shares, apart; lia].
  eapply is_nat_ext; [exact Hl2| |exact Hnx]. intros i Hi. apply Hk2; simpl; lia.
Qed.

Lemma mulRange_fuel_spec fuel : ∀ m z a b, words m → valid m z → 0 <= a → 0 <= b <= 2 ^ 63 → b - a < Z.of_nat fuel → (0 < fuel)%nat →
  mulRange_fuel fuel m z a b ⇓ λ '(m', r), inside m z m' r ∧ is_nat m' r (range_product a b).
Proof.
  induction fuel as [|fuel IH]; intros m z a b Hm Hz Ha Hb Hf H0; [lia|]. cbn [mulRange_fuel].
  assert (valid m nil_) as Hn by (unfold valid; simpl; pose proof (zlen_nonneg m); lia).
  destruct (Z.eqb_spec a 0) as [->|Ha0]; [rewrite range_product_zero by lia; apply setUint64_spec; (done || lia)|].
  destruct (Z.ltb_spec b a) as [Hba|Hba]; [rewrite range_product_empty by lia; by apply setUint64_spec|].
  destruct (Z.eqb_spec a b) as [->|Hne]; [rewrite range_product_one; apply setUint64_spec; (done || lia)|].
  rewrite (wrap_small 64 (a + 1)), (wrap_small 64 (a + b)) by lia. destruct (Z.eqb_spec (a + 1) b) as [<-|Hne2].
  - rewrite (range_product_split a a (a + 1)), !range_product_one by lia.
    eapply wp_bind_mono; [apply (setUint64_spec m nil_ a); (done || lia)|]. intros [m1 x] (Hx & Hnx).
    pose proof Hx as (_ & _ & _ & Hl1 & _). eapply (fresh_operands m z m1 x a); [done|done|done|intros Hw; apply (setUint64_spec m1 nil_ (a + 1) Hw); [unfold valid in *; lia|lia]|].
    intros m2 y Hy Hnx2 Hny Hzx Hzy. eapply wp_mono; [apply mul_spec; [apply Hy|destruct Hy as (_ & _ & _ & ? & _); unfold valid in *; lia|done..]|].
    intros [m' r] (Hi & Hr). split; [by eapply inside_trans|done].
  - set (h := (a + b) / 2). assert (a <= h < b ∧ a < h) as [Hh _] by (unfold h; lia_div). rewrite (wrap_small 64 (h + 1)) by lia.
    rewrite (range_product_split a h b) by lia.
    eapply wp_bind_mono; [apply (IH m nil_ a h); (done || lia)|]. intros [m1 x] (Hx & Hnx).
    pose proof Hx as (_ & _ & _ & Hl1 & _). eapply (fresh_operands m z m1 x); [done|done|done|intros Hw; apply (IH m1 nil_ (h + 1) b Hw); [unfold valid in *; lia|lia..]|].
    intros m2 y Hy Hnx2 Hny Hzx Hzy. eapply wp_mono; [apply mul_spec; [apply Hy|destruct Hy as (_ & _ & _ & ? & _); unfold valid in *; lia|done..]|].
    intros [m' r] (Hi & Hr). split; [by eapply inside_trans|done].
Qed.

Lemma mulRange_spec m z a b : words m → valid m z → 0 <= a → 0 <= b <= 2 ^ 63 → mulRange m z a b ⇓ λ '(m', r), inside m z m' r ∧ is_nat m' r (range_product a b).
Proof. intros. unfold mulRange. apply mulRange_fuel_spec; (done || lia). Qed.
End proofs.

(** C4: The product of natural numbers of any lengths, by [karatsuba] and the terms it
    leaves or by [basicMul] where a factor is short, is the number that [basicMul]
    alone computes: the product of the values. It is returned in the storage of the receiver or
    in new storage, nothing else changes, and the receiver may be one of the factors. *)
Theorem mul_product `{M : Machine} m z x y vx vy : Forall is_word m → valid m z → is_nat m x vx → is_nat m y vy → shares z x → shares z y →
  (mul m z x y ⇓ λ '(m', r), inside m z m' r ∧ is_nat m' r (vx * vy)) ∧
  ∀ s, valid m s → len x + len y <= len s → apart s x → apart s y →
    basicMul m s x y ⇓ λ m', frame m m' (off s) (len x + len y) ∧ num m' (off s) (len x + len y) = vx * vy.
Proof.
  intros Hm Hz Hx Hy Hzx Hzy. split; [by apply mul_spec|]. intros s Hs Hl Hsx Hsy. pose proof Hx as (Hvx & Ex & _). pose proof Hy as (Hvy & Ey & _).
  eapply wp_mono; [apply basicMul_spec; try done; unfold dis, apart, valid in *; lia|]. intros m' (Hf & _ & E). by rewrite E, Ex, Ey.
Qed.

Example mul_product_witness : Forall (is_word (M := machine64)) [1; 2; 3; 4] ∧
  (mul (M := machine64) [1; 2; 3; 4] nil_ (Vec 0 2 2) (Vec 2 2 2) ⇓ λ '(m', r), is_nat (M := machine64) m' r ((1 + 2 ^ 64 * 2) * (3 + 2 ^ 64 * 4))).
Proof.
  assert (Forall (is_word (M := machine64)) [1; 2; 3; 4]) as Hm by (repeat constructor; vm_compute; congruence). split; [done|].
  eapply wp_mono; [exact (proj1 (mul_product (M := machine64) [1; 2; 3; 4] nil_ (Vec 0 2 2) (Vec 2 2 2) (1 + 2 ^ 64 * 2) (3 + 2 ^ 64 * 4) Hm
    ltac:(vm_compute; intuition congruence) ltac:(vm_compute; intuition congruence) ltac:(vm_compute; intuition congruence) ltac:(vm_compute; intuition congruence) ltac:(vm_compute; intuition congruence)))|].
  intros [m' r] [_ Hr]. exact Hr.
Defined.
