(* ===== verification/BigDiv.v ===== *)
(** Division of natural numbers: by a word, and by Knuth's algorithm D
    ([divW], [modW], [div], [divLarge] of [src/src/math/big/nat.go]). *)
From S2P Require Import Prelude.
From S2P Require Import BigWord.
From S2P Require Import BigVec.
From S2P Require Import BigNat.
From S2P Require Import BigMul.
From S2P Require Import BigProduct.

(** [make(nat, n)]. *)
Definition new (m : mem) (n : Z) : mem * nat_ := (m ++ replicate (Z.to_nat n) 0, Vec (zlen m) n n).

Definition greaterThan (x1 x2 y1 y2 : Z) : bool := (y1 <? x1) || (x1 =? y1) && (y2 <? x2).

Section div.
Context `{M : Machine}.

(** The quotient and the remainder; [r] is zero where the code leaves it at its zero value. *)
Definition divW (m : mem) (z x : nat_) (y : Z) : go (mem * nat_ * Z) :=
  let k := len x in
  if y =? 0 then Panic "division by zero"
  else if y =? 1 then '(m, q) ← set m z x; Ret (m, q, 0)
  else if k =? 0 then q ← part_to z 0; Ret (m, q, 0)
  else
    '(m, z) ← make_ m z k;
    '(m, r) ← divWVW_g m z 0 x y;
    q ← norm m z;
    Ret (m, q, r).

Definition modW (m : mem) (x : nat_) (d : Z) : go (mem * Z) :=
  '(m, q) ← make_ m nil_ (len x);
  divWVW_g m q 0 x d.

(** Step D3 of [divLarge]: the estimate of the next word of the quotient. *)
Definition divLarge_qhat (m : mem) (u v : nat_) (j n : Z) : go Z :=
  un ← at_ m u (j + n);
  vn ← at_ m v (n - 1);
  if un =? vn then Ret _M else
  u1 ← at_ m u (j + n - 1);
  '(qhat, rhat) ← divWW_g un u1 vn;
  v2 ← at_ m v (n - 2);
  let '(x1, x2) := mulWW_g qhat v2 in
  loop 3 (λ '(qhat, rhat, x1, x2),
    u2 ← at_ m u (j + n - 2);
    if greaterThan x1 x2 rhat u2 then
      let qhat := uw (qhat - 1) in
      let prevRhat := rhat in
      let rhat := uw (rhat + vn) in
      if rhat <? prevRhat then Ret (inr qhat) else
      let '(x1, x2) := mulWW_g qhat v2 in
      Ret (inl (qhat, rhat, x1, x2))
    else Ret (inr qhat)) (qhat, rhat, x1, x2).

(** The end of step D4: the divisor is added back where the estimate was too big. *)
Definition divLarge_fix (m : mem) (u v : nat_) (j n c qhat : Z) : go (mem * Z) :=
  if negb (c =? 0) then
    z ← part u j (j + n);
    uj ← part_from u j;
    '(m, c) ← addVV_g m z uj v;
    w ← at_ m u (j + n);
    m ← put m u (j + n) (uw (w + c));
    Ret (m, uw (qhat - 1))
  else Ret (m, qhat).

(** Steps D3 and D4 of [divLarge] for one [j]. *)
Definition divLarge_step (m : mem) (q u v qhatv : nat_) (j n : Z) : go mem :=
  qhat ← divLarge_qhat m u v j n;
  h ← part qhatv 0 n;
  '(m, c) ← mulAddVWW_g m h v qhat 0;
  m ← put m qhatv n c;
  z ← part u j (j + len qhatv);
  uj ← part_from u j;
  '(m, c) ← subVV_g m z uj qhatv;
  '(m, qhat) ← divLarge_fix m u v j n c qhat;
  put m q j qhat.

(** Step D1: the divisor shifted until its top bit is set. *)
Definition divLarge_norm (m : mem) (v : nat_) (n shift : Z) : go (mem * nat_) :=
  if 0 <? shift then
    let '(m, v1) := new m n in
    '(m, _) ← shlVU_g m v1 v shift;
    Ret (m, v1)
  else Ret (m, v).

Definition divLarge (m : mem) (z u uIn v : nat_) : go (mem * nat_ * nat_) :=
  let n := len v in
  let k := len uIn - n in
  let z := if alias z uIn || alias z v then nil_ else z in
  '(m, q) ← make_ m z (k + 1);
  let '(m, qhatv) := new m (n + 1) in
  let u := if alias u uIn || alias u v then nil_ else u in
  '(m, u) ← make_ m u (len uIn + 1);
  m ← clear m u;
  vn ← at_ m v (n - 1);
  shift ← leadingZeros vn;
  '(m, v) ← divLarge_norm m v n shift;
  u0 ← part u 0 (len uIn);
  '(m, c) ← shlVU_g m u0 uIn shift;
  m ← put m u (len uIn) c;
  m ← for_down k 0 (λ j m, divLarge_step m q u v qhatv j n) m;
  q ← norm m q;
  '(m, _) ← shrVU_g m u u shift;
  r ← norm m u;
  Ret (m, q, r).

Definition div (m : mem) (z z2 u v : nat_) : go (mem * nat_ * nat_) :=
  if len v =? 0 then Panic "division by zero" else
  c ← cmp m u v;
  if c <? 0 then
    q ← part_to z 0;
    '(m, r) ← set m z2 u;
    Ret (m, q, r)
  else if len v =? 1 then
    d ← at_ m v 0;
    '(m, q, r2) ← divW m z u d;
    '(m, r) ← setWord m z2 r2;
    Ret (m, q, r)
  else divLarge m z z2 u v.
End div.

Example div_run :
  (let m := [7; 9; 2 ^ 31 + 5; 3; 2 ^ 32 - 1; 2 ^ 32 - 2] in
   '(m, q, r) ← @div machine32 m nil_ nil_ (Vec 0 4 4) (Vec 4 2 2);
   q ← slice m (off q) (off q + len q);
   r ← slice m (off r) (off r + len r);
   Ret (q, r)) = Ret ([2147483656; 3], [2147483663; 2147483668]).
Proof. by vm_compute. Qed.

Section proofs.
Context `{M : Machine}.
Abbreviation words m := (Forall is_word m).

(** ** Division by a word *)

Lemma divW_spec m z x y vx : words m → valid m z → is_nat m x vx → safe z x → is_word y → y ≠ 0 →
  divW m z x y ⇓ λ '(m', q, r), inside m z m' q ∧ is_nat m' q (vx / y) ∧ r = vx mod y.
Proof.
  intros Hm Hz Hxn Hs Hy Hy0. pose proof Hxn as (Hx & Ex & _). pose proof Hx as (Hox & Hlx & Hcx). unfold divW. unfold is_word in Hy.
  destruct (Z.eqb_spec y 0) as [|_]; [done|]. destruct (Z.eqb_spec y 1) as [->|Hy1].
  { rewrite Z.div_1_r, Z.mod_1_r. eapply wp_bind_mono; [by apply set_spec|]. intros [m' q] [Hi Hq]. by apply wp_ret. }
  destruct (Z.eqb_spec (len x) 0) as [E0|E0].
  { rewrite (zero_nat _ _ _ Hxn E0), Zdiv_0_l, Zmod_0_l. pose proof (empty_result m z Hm Hz) as Hres.
    unfold part_to in *. pose proof Hz as (? & ? & ?). rewrite part_eq, go_bind_ret in * by lia. destruct Hres as [Hi Hq]. by apply wp_ret. }
  eapply wp_bind_mono; [apply make_spec; [done|done|lia]|]. intros [m1 z1] (Hi & Hl1 & Hg & _). pose proof Hi as (Hw1 & Hv1 & _). pose proof Hv1 as (? & ? & ?).
  destruct (operand _ _ _ _ _ Hi Hg Hx Hs) as (Hx1 & Hsx1 & Hnum).
  eapply wp_bind_mono; [apply (divWVW_g_spec m1 z1 0 x y); [done|done|done|lia|done|lia|]|].
  { unfold safe, apart, down_ok in *. lia. }
  intros [m2 r] (Hf2 & Hw2 & E2 & Hr). rewrite Hl1, Hnum, Ex, Z.mul_0_l, Z.add_0_l in E2 by lia.
  assert (inside m z m2 z1) as Hi2 by (eapply inside_write; [exact Hi|exact Hf2|exact Hw2|lia]).
  assert (num m2 (off z1) (len z1) = vx / y ∧ r = vx mod y) as [Eq ->].
  { rewrite Hl1. split; [apply Z.div_unique with r|apply Z.mod_unique with (num m2 (off z1) (len x))]; lia. }
  pose proof (norm_result m z m2 z1 (vx / y) Hi2 Eq) as Hres. eapply wp_ex in Hres as ([m3 q] & E & Hq & Hn).
  destruct (norm m2 z1) as [q'| |]; [|done..]. rewrite go_bind_ret in *. injection E as -> ->. by apply wp_ret.
Qed.

Lemma modW_spec m x d vx : words m → is_nat m x vx → is_word d → d ≠ 0 → modW m x d ⇓ λ '(m', r), words m' ∧ keeps m nil_ m' ∧ r = vx mod d.
Proof.
  intros Hm (Hx & Ex & _) Hd Hd0. pose proof Hx as (Hox & Hlx & Hcx). unfold modW. unfold is_word in Hd.
  assert (valid m nil_) as Hn by (unfold valid; simpl; pose proof (zlen_nonneg m); lia).
  eapply wp_bind_mono; [apply make_spec; [done|done|lia]|]. intros [m1 z1] (Hi & Hl1 & Hg & Hp). pose proof Hi as (Hw1 & Hv1 & _ & Hlm & _). pose proof Hv1 as (? & ? & ?). cbn [cap nil_] in Hp.
  eapply wp_mono; [apply (divWVW_g_spec m1 z1 0 x d); [done|done|unfold valid; lia|lia|done|lia|unfold down_ok; lia]|].
  intros [m2 r] (Hf2 & Hw2 & E2 & Hr). assert (num m1 (off x) (len x) = vx) as Ex1 by (rewrite <- Ex; apply num_ext; intros; apply Hg; lia).
  rewrite Hl1, Ex1, Z.mul_0_l, Z.add_0_l in E2.
  assert (inside m nil_ m2 z1) as (_ & _ & _ & Hk) by (eapply inside_write; [exact Hi|exact Hf2|exact Hw2|lia]).
  split; [done|]. split; [done|]. apply Z.mod_unique with (num m2 (off z1) (len x)); lia.
Qed.

(** ** The estimate of a word of the quotient *)

(** [D] is the dividend and [V] the divisor; [u2], [u1], [u0] and [v1], [v0] are their top words, with
    [P] the weight of the words below. *)
Lemma qhat_too_big D V P u2 u1 u0 v1 v0 qhat rhat : 0 < V → 0 < P → 0 <= qhat → D < (u2 * _B * _B + u1 * _B + u0 + 1) * P → (v1 * _B + v0) * P <= V →
  qhat * v1 + rhat = u2 * _B + u1 → rhat * _B + u0 < qhat * v0 → D / V < qhat.
Proof.
  intros HV HP Hq HD Hv E Ht. apply Z.div_lt_upper_bound; [done|].
  assert (u2 * _B * _B + u1 * _B + u0 + 1 <= qhat * (v1 * _B + v0)) as H1.
  { transitivity ((u2 * _B + u1 - rhat) * _B + qhat * v0); [lia|]. rewrite <- E. lia. }
  eapply Z.lt_le_trans; [exact HD|]. transitivity (qhat * (v1 * _B + v0) * P); [by apply Z.mul_le_mono_nonneg_r; lia|].
  rewrite (Z.mul_comm V), <- Z.mul_assoc. by apply Z.mul_le_mono_nonneg_l.
Qed.

Lemma qhat_enough D V P u2 u1 u0 v1 v0 qhat rhat : 0 < V → 0 < P → 0 <= qhat <= _B → (u2 * _B * _B + u1 * _B + u0) * P <= D → V <= (v1 * _B + v0 + 1) * P → _B * P <= V →
  qhat * v1 + rhat = u2 * _B + u1 → qhat * v0 <= rhat * _B + u0 → qhat <= D / V + 1.
Proof.
  intros HV HP Hq HD Hv HB E Ht. enough (qhat - 1 <= D / V) by lia. apply Z.div_le_lower_bound; [done|].
  assert (qhat * (v1 * _B + v0) <= u2 * _B * _B + u1 * _B + u0) as H1.
  { transitivity ((u2 * _B + u1 - rhat) * _B + qhat * v0); [rewrite <- E; lia|lia]. }
  assert (qhat * V <= qhat * (v1 * _B + v0) * P + qhat * P) as H2 by (transitivity (qhat * ((v1 * _B + v0 + 1) * P)); [apply Z.mul_le_mono_nonneg_l; lia|lia]).
  assert (qhat * (v1 * _B + v0) * P <= D) as H3 by (transitivity ((u2 * _B * _B + u1 * _B + u0) * P); [apply Z.mul_le_mono_nonneg_r; lia|done]).
  assert (qhat * P <= _B * P) as H4 by (apply Z.mul_le_mono_nonneg_r; lia). lia.
Qed.

(** The first word tells too much, but not by more than one, if it is the divisor's. *)
Lemma qhat_top D V P u2 v1 : 0 < V → 0 < P → u2 = v1 → _B <= 2 * v1 → u2 * _B * _B * P <= D → D < V * _B → V <= (v1 + 1) * _B * P → D / V <= _M <= D / V + 1.
Proof.
  intros HV HP -> Hv HD HDV Hv'. pose proof _B_bound. unfold _M in *. split; [enough (D / V < _B) by lia; by apply Z.div_lt_upper_bound; lia|].
  enough (_B - 2 <= D / V) by lia. apply Z.div_le_lower_bound; [done|]. transitivity (v1 * _B * _B * P); [|done].
  transitivity ((_B - 2) * ((v1 + 1) * _B * P)); [rewrite Z.mul_comm; apply Z.mul_le_mono_nonneg_l; lia|].
  transitivity ((_B - 2) * (v1 + 1) * (_B * P)); [lia|]. transitivity (v1 * _B * (_B * P)); [|lia]. apply Z.mul_le_mono_nonneg_r; [|lia].
  apply Z.mul_nonneg_nonneg; lia.
Qed.

(** The quotient of the top words is not too small. *)
Lemma qhat_first D V P u2 u1 u0 v1 qhat rhat : 0 < V → 0 < P → 0 <= qhat → qhat * v1 + rhat = u2 * _B + u1 → rhat < v1 → u0 < _B →
  D < (u2 * _B * _B + u1 * _B + u0 + 1) * P → v1 * _B * P <= V → D / V <= qhat.
Proof.
  intros HV HP Hq E Hr Hu0 HD Hv. enough (D / V < qhat + 1) by lia. apply Z.div_lt_upper_bound; [done|]. eapply Z.lt_le_trans; [exact HD|].
  transitivity ((qhat + 1) * (v1 * _B * P)); [|rewrite (Z.mul_comm V); apply Z.mul_le_mono_nonneg_l; lia].
  transitivity ((u2 * _B + u1 + 1) * _B * P); [apply Z.mul_le_mono_nonneg_r; lia|]. rewrite !Z.mul_assoc. apply Z.mul_le_mono_nonneg_r; [lia|].
  pose proof _B_bound. apply Z.mul_le_mono_nonneg_r; lia.
Qed.

Lemma greaterThan_spec x1 x2 y1 y2 : is_word x2 → is_word y2 → greaterThan x1 x2 y1 y2 = (y1 * _B + y2 <? x1 * _B + x2).
Proof.
  unfold greaterThan, is_word. intros Hx Hy. pose proof _B_bound.
  destruct (Z.ltb_spec y1 x1); destruct (Z.eqb_spec x1 y1); destruct (Z.ltb_spec y2 x2); destruct (Z.ltb_spec (y1 * _B + y2) (x1 * _B + x2)); simpl; try done; nia.
Qed.

Lemma num_top2 m o n : 2 <= n → num m o n = num m o (n - 2) + (get m (o + (n - 1)) * _B + get m (o + (n - 2))) * _B ^ (n - 2).
Proof.
  intros Hn. replace n with (n - 2 + 1 + 1) at 1 by lia. rewrite !num_snoc, B_next by lia. replace (n - 2 + 1) with (n - 1) by lia. ring.
Qed.

Lemma top_set m o n : words m → 2 <= n → _B <= 2 * get m (o + (n - 1)) → _B * _B ^ (n - 2) <= num m o n.
Proof.
  intros Hm Hn Htop. rewrite num_top2 by done. pose proof (num_bound m o (n - 2) Hm ltac:(lia)). pose proof (words_get m (o + (n - 2)) Hm) as [? _]. pose proof _B_bound.
  pose proof (_B_pow (n - 2) ltac:(lia)). assert (1 * _B <= get m (o + (n - 1)) * _B) by (apply Z.mul_le_mono_nonneg_r; lia).
  transitivity ((get m (o + (n - 1)) * _B + get m (o + (n - 2))) * _B ^ (n - 2)); [apply Z.mul_le_mono_nonneg_r; lia|lia].
Qed.

Lemma num_top3 m o n : 2 <= n →
  num m o (n + 1) = num m o (n - 2) + (get m (o + n) * _B * _B + get m (o + (n - 1)) * _B + get m (o + (n - 2))) * _B ^ (n - 2).
Proof.
  intros Hn. rewrite num_snoc, num_top2 by lia. assert (_B ^ n = _B * (_B * _B ^ (n - 2))) as -> by (rewrite <- !Z.pow_succ_r by lia; f_equal; lia). ring.
Qed.

Lemma qhat_loop D V P u2 u1 u0 v1 v0 qhat rhat (body : Z * Z * Z * Z → go (Z * Z * Z * Z + Z)) x1 x2 :
  0 < V → 0 < P → (u2 * _B * _B + u1 * _B + u0) * P <= D → D < (u2 * _B * _B + u1 * _B + u0 + 1) * P →
  (v1 * _B + v0) * P <= V → V <= (v1 * _B + v0 + 1) * P → _B * P <= V → _B <= 2 * v1 → is_word u0 → is_word v1 → is_word v0 → 0 <= D →
  (∀ qhat rhat x1 x2, body (qhat, rhat, x1, x2) =
    if greaterThan x1 x2 rhat u0 then
      let qhat := uw (qhat - 1) in
      let prevRhat := rhat in
      let rhat := uw (rhat + v1) in
      if rhat <? prevRhat then Ret (inr qhat) else
      let '(x1, x2) := mulWW_g qhat v0 in
      Ret (inl (qhat, rhat, x1, x2))
    else Ret (inr qhat)) →
  (x1, x2) = mulWW_g qhat v0 → is_word qhat → D / V <= qhat → 0 <= rhat < v1 → qhat * v1 + rhat = u2 * _B + u1 →
  loop 3 body (qhat, rhat, x1, x2) ⇓ λ qhat, is_word qhat ∧ D / V <= qhat <= D / V + 1.
Proof.
  intros HV HP HD1 HD2 HV1 HV2 HVB Hv Hu0 Hv1 Hv0 HD Hbody Hx Hq HDV Hr E. pose proof _B_bound as HB. unfold is_word in Hv1.
  apply wp_loop with (I := λ '(qhat, rhat, x1, x2), (x1, x2) = mulWW_g qhat v0 ∧ is_word qhat ∧ D / V <= qhat ∧ is_word rhat ∧ qhat * v1 + rhat = u2 * _B + u1)
    (meas := λ '(_, rhat, _, _), if rhat <? v1 then 1 else 0).
  2: { unfold is_word in *. split_and!; (done || lia). } 2: { destruct (_ <? _); lia. }
  clear - HV HP HD1 HD2 HV1 HV2 HVB Hv Hu0 Hv1 Hv0 HD Hbody HB. intros [[[qhat rhat] x1] x2] (Hx & Hq & HDV & Hr & E). rewrite Hbody.
  pose proof (mulWW_g_spec qhat v0 Hq Hv0) as H. rewrite <- Hx in H. destruct H as (Ex & Hx1 & Hx2). unfold is_word in Hq, Hr.
  rewrite greaterThan_spec, Ex by done. destruct (Z.ltb_spec (rhat * _B + u0) (qhat * v0)) as [Ht|Ht].
  2: { apply wp_ret. split; [done|]. split; [done|]. apply (qhat_enough D V P u2 u1 u0 v1 v0 qhat rhat); (done || lia). }
  assert (D / V < qhat) as Hlt by (apply (qhat_too_big D V P u2 u1 u0 v1 v0 qhat rhat); (done || lia)).
  assert (0 <= D / V) as HDV0 by (by apply Z.div_pos). cbv zeta. rewrite (uw_small (qhat - 1)) by (unfold is_word; lia).
  destruct (Z.lt_ge_cases (rhat + v1) _B) as [Hov|Hov].
  - rewrite (uw_small (rhat + v1)) by (unfold is_word; lia). rewrite (proj2 (Z.ltb_ge _ _)) by lia. destruct (mulWW_g (qhat - 1) v0) as [y1 y2] eqn:Ey. apply wp_ret.
    split; [|rewrite (proj2 (Z.ltb_lt rhat v1)), (proj2 (Z.ltb_ge (rhat + v1) v1)) by lia; lia].
    split; [done|]. split; [unfold is_word; lia|]. split; [lia|]. split; [unfold is_word; lia|lia].
  - assert (uw (rhat + v1) = rhat + v1 - _B) as ->.
    { rewrite uw_once by lia. rewrite (proj2 (Z.ltb_ge _ 0)), (proj2 (Z.ltb_ge _ _B)) by lia. done. }
    rewrite (proj2 (Z.ltb_lt _ _)) by lia. apply wp_ret. split; [unfold is_word; lia|]. split; [lia|].
    apply (qhat_enough D V P u2 u1 u0 v1 v0 (qhat - 1) (rhat + v1)); [done|done|lia|done|done|done|lia|].
    assert ((qhat - 1) * v0 <= _B * _B ∧ _B * _B <= (rhat + v1) * _B) as [? ?]; [|unfold is_word in Hu0; lia].
    unfold is_word in Hv0. split; [apply Z.mul_le_mono_nonneg; lia|apply Z.mul_le_mono_nonneg_r; lia].
Qed.

Lemma divLarge_qhat_spec m u v j n : words m → valid m u → valid m v → 2 <= n → n <= len v → 0 <= j → j + n + 1 <= len u →
  let V := num m (off v) n in let D := num m (off u + j) (n + 1) in _B <= 2 * get m (off v + (n - 1)) → D < V * _B →
  divLarge_qhat m u v j n ⇓ λ qhat, is_word qhat ∧ D / V <= qhat <= D / V + 1.
Proof.
  intros Hm Hu Hv Hn Hln Hj Hlu V D Htop HDV. unfold divLarge_qhat. rewrite (at_eq m u (j + n)), (at_eq m v (n - 1)), !go_bind_ret by (done || lia).
  replace (off u + (j + n)) with (off u + j + n) by lia. set (u2 := get m (off u + j + n)) in *. set (v1 := get m (off v + (n - 1))) in *.
  pose proof (num_top2 m (off v) n Hn) as EV. pose proof (num_top3 m (off u + j) n Hn) as ED. fold V v1 in EV. fold D u2 in ED.
  pose proof (num_bound m (off v) (n - 2) Hm ltac:(lia)) as HlV. pose proof (num_bound m (off u + j) (n - 2) Hm ltac:(lia)) as HlD.
  set (P := _B ^ (n - 2)) in *. set (u1 := get m (off u + j + (n - 1))) in *. set (u0 := get m (off u + j + (n - 2))) in *. set (v0 := get m (off v + (n - 2))) in *.
  assert (is_word u2 ∧ is_word u1 ∧ is_word u0 ∧ is_word v1 ∧ is_word v0) as (Hu2 & Hu1 & Hu0 & Hv1 & Hv0) by (split_and!; by apply words_get).
  assert (0 < P) as HP by (apply _B_pow; lia). pose proof _B_bound as HB. unfold is_word in *.
  pose proof (top_set m (off v) n Hm Hn Htop) as HBV. fold V P in HBV. assert (0 < _B * P) by (apply Z.mul_pos_pos; lia).
  assert (0 < V) as HV by lia. assert (0 <= D) as HD by (apply num_bound; [done|lia]).
  assert (0 <= (u1 * _B + u0) * P ∧ 0 <= v0 * P ∧ (v0 + 1) * P <= _B * P) as (H1 & H2 & H3) by (split_and!; [apply Z.mul_nonneg_nonneg; lia..|apply Z.mul_le_mono_nonneg_r; lia]).
  destruct (Z.eqb_spec u2 v1) as [E|E]; [apply wp_ret; split; [unfold _M; lia|]; apply (qhat_top D V P u2 v1); (done || lia)|].
  replace (j + n - 1) with (j + (n - 1)) by lia. rewrite (at_eq m u (j + (n - 1))), go_bind_ret by (done || lia).
  replace (off u + (j + (n - 1))) with (off u + j + (n - 1)) by lia. fold u1.
  assert (u2 < v1) as Hlt.
  { enough (u2 <= v1) by lia. apply Z.lt_succ_r. apply (Z.mul_lt_mono_pos_r (_B * _B * P)); [apply Z.mul_pos_pos; lia|].
    assert (V * _B <= (v1 + 1) * _B * P * _B) by (apply Z.mul_le_mono_nonneg_r; lia). lia. }
  assert (v1 ≠ 0) as Hv10 by lia. assert (0 < v1) as Hv1p by lia. pose proof (Z.div_mod (u2 * _B + u1) v1 Hv10) as Edm. pose proof (Z.mod_pos_bound (u2 * _B + u1) v1 Hv1p) as Hmod.
  rewrite divWW_g_spec, go_bind_ret by done. rewrite (at_eq m v (n - 2)), go_bind_ret by (done || lia). fold v0.
  assert (0 <= (u2 * _B + u1) / v1 < _B) as Hq.
  { split; [apply Z.div_pos; lia|apply Z.div_lt_upper_bound; [done|]]. assert ((u2 + 1) * _B <= v1 * _B) by (apply Z.mul_le_mono_nonneg_r; lia). lia. }
  set (qhat := (u2 * _B + u1) / v1) in *. set (rhat := (u2 * _B + u1) mod v1) in *. clearbody qhat rhat. destruct (mulWW_g qhat v0) as [x1 x2] eqn:Ex.
  apply (qhat_loop D V P u2 u1 u0 v1 v0 qhat rhat); [lia|lia|lia|lia|lia|lia|lia|lia|done|done|done|lia| |done|done| |done|lia].
  - intros qhat' rhat' y1 y2. replace (j + n - 2) with (j + (n - 2)) by lia. rewrite at_eq, go_bind_ret by (done || lia).
    by replace (off u + (j + (n - 2))) with (off u + j + (n - 2)) by lia.
  - apply (qhat_first D V P u2 u1 u0 v1 qhat rhat); lia.
Qed.

(** ** One step of the division *)

(** [m'] differs from [m] only in the words of [P]. *)
Definition only (P : Z → Prop) (m m' : mem) : Prop := zlen m' = zlen m ∧ ∀ i, ¬ P i → get m' i = get m i.

Lemma only_num P m m' o n : only P m m' → (∀ i, o <= i < o + n → ¬ P i) → num m' o n = num m o n.
Proof. intros [_ H] Hi. apply num_ext. intros. apply H. by apply Hi. Qed.
Lemma only_trans (P : Z → Prop) m m1 m2 : only P m m1 → only P m1 m2 → only P m m2.
Proof. intros [H1 H2] [H3 H4]. split; [lia|]. intros i Hi. rewrite H4 by done. by apply H2. Qed.
Lemma only_frame (P : Z → Prop) m m' o n : frame m m' o n → (∀ i, o <= i < o + n → P i) → only P m m'.
Proof. intros [H1 H2] Hi. split; [done|]. intros i Hn. apply H2. intros H. by apply Hn, Hi. Qed.
Lemma only_weaken (P P' : Z → Prop) m m' : only P m m' → (∀ i, P i → P' i) → only P' m m'.
Proof. intros [H1 H2] Hi. split; [done|]. intros i Hn. apply H2. intros H. by apply Hn, Hi. Qed.
Lemma only_valid P m m' x : only P m m' → valid m x → valid m' x.
Proof. intros [H _]. unfold valid. lia. Qed.

Lemma divLarge_fix_spec m u v j n c qhat D : words m → valid m u → valid m v → len v = n → apart u v → 0 <= n → 0 <= j → j + n + 1 <= len u →
  let V := num m (off v) n in 0 < V → 0 <= D → is_word qhat → D / V <= qhat <= D / V + 1 → 0 <= c <= 1 →
  num m (off u + j) (n + 1) - c * _B ^ (n + 1) = D - V * qhat →
  divLarge_fix m u v j n c qhat ⇓ λ '(m', qhat'), frame m m' (off u + j) (n + 1) ∧ words m' ∧ qhat' = D / V ∧ num m' (off u + j) (n + 1) = D mod V.
Proof.
  intros Hm Hu Hv Hlv Ha Hn Hj Hlu V HV HD Hq Hqhat Hc E. pose proof Hu as (? & ? & ?). pose proof Hv as (? & ? & ?). unfold apart in Ha.
  pose proof (num_bound m (off u + j) (n + 1) Hm ltac:(lia)) as Hb. pose proof (Z.div_mod D V ltac:(lia)) as Edm. pose proof (Z.mod_pos_bound D V HV) as Hmod.
  unfold divLarge_fix. destruct (Z.eqb_spec c 0) as [->|Hc0]; cbn [negb].
  - apply wp_ret. split; [apply frame_refl|]. split; [done|]. assert (qhat = D / V) as -> by nia. split; [done|lia].
  - assert (c = 1) as -> by lia. assert (qhat = D / V + 1) as Eq by nia. rewrite part_eq, part_from_eq, !go_bind_ret by lia. replace (j + n - j) with n by lia.
    eapply wp_bind_mono; [apply (addVV_g_spec m (Vec (off u + j) n (cap u - j)) (Vec (off u + j) (len u - j) (cap u - j)) v); try done;
      [by apply valid_vec; lia|by apply valid_vec; lia|simpl; lia|simpl; lia|unfold up_ok; simpl; lia|unfold up_ok; simpl; lia]|].
    cbn [off len]. intros [m1 c1] (Hf1 & Hw1 & E1 & Hc1). fold V in E1. pose proof (proj1 Hf1).
    rewrite at_eq, go_bind_ret by (unfold valid; lia). rewrite put_eq, go_bind_ret by (unfold valid; lia). apply wp_ret.
    replace (off u + (j + n)) with (off u + j + n) by lia. set (w := get m1 (off u + j + n)).
    assert (w = get m (off u + j + n)) as Ew by (apply Hf1; lia). rewrite num_snoc in E, Hb by lia. rewrite <- Ew in E.
    pose proof (num_bound m1 (off u + j) n Hw1 ltac:(lia)) as Hb1. pose proof (num_bound m (off v) n Hm ltac:(lia)) as HbV. fold V in HbV.
    pose proof (_B_pow n Hn) as HP. rewrite B_next in * by lia. set (P := _B ^ n) in *.
    assert (num m1 (off u + j) n + (w + c1 - _B) * P = D mod V) as Er by (rewrite Edm in E; rewrite Eq in E; lia).
    assert (w + c1 - _B < 1 ∧ -1 < w + c1 - _B) as [? ?] by (split; apply (Z.mul_lt_mono_pos_r P); lia).
    assert (uw (w + c1) = 0) as -> by (replace (w + c1) with _B by lia; rewrite uw_eq; apply Z_mod_same_full).
    destruct (frame_up m1 m1 (off u + j) n 0 (frame_refl _ _ _) Hw1) as (Hf2 & Hw2 & E2 & _); [unfold is_word; pose proof _B_bound; lia|lia..|].
    split; [eapply frame_trans; eapply frame_weaken; [exact Hf1|lia|exact Hf2|lia]|]. split; [done|]. split; [rewrite uw_small by (unfold is_word in *; lia); lia|].
    rewrite E2. assert (w + c1 - _B = 0) as E0 by lia. rewrite E0 in Er. lia.
Qed.

(** The words one step writes. *)
Definition step_words (q u qhatv : nat_) (j n i : Z) : Prop :=
  i = off q + j ∨ off qhatv <= i < off qhatv + (n + 1) ∨ off u + j <= i < off u + j + (n + 1).

Lemma divLarge_step_spec m q u v qhatv j n : words m → valid m q → valid m u → valid m v → valid m qhatv → len v = n → len qhatv = n + 1 →
  apart u v → apart u qhatv → apart v qhatv → apart q u → apart q v → apart q qhatv → 2 <= n → 0 <= j < len q → j + n + 1 <= len u →
  let V := num m (off v) n in let D := num m (off u + j) (n + 1) in _B <= 2 * get m (off v + (n - 1)) → D < V * _B →
  divLarge_step m q u v qhatv j n ⇓ λ m', only (step_words q u qhatv j n) m m' ∧ words m' ∧
    get m' (off q + j) = D / V ∧ num m' (off u + j) (n + 1) = D mod V.
Proof.
  intros Hm Hq Hu Hv Hh Hlv Hlh Huv Huh Hvh Hqu Hqv Hqh Hn Hj Hlu V D Htop HDV. pose proof Hq as (? & ? & ?). pose proof Hu as (? & ? & ?). pose proof Hv as (? & ? & ?). pose proof Hh as (? & ? & ?).
  pose proof (top_set m (off v) n Hm Hn Htop) as HBV. fold V in HBV. pose proof (_B_pow (n - 2) ltac:(lia)). pose proof _B_bound as HB. assert (0 < _B * _B ^ (n - 2)) by (apply Z.mul_pos_pos; lia). assert (0 < V) as HV by lia.
  assert (0 <= D) as HD by (apply num_bound; [done|lia]). unfold divLarge_step.
  eapply wp_bind_mono; [apply divLarge_qhat_spec; (done || lia)|]. fold V D. intros qhat [Hqw Hqhat]. rewrite part_0, go_bind_ret by lia.
  unfold apart in Huh, Hvh, Hqu, Hqv, Hqh.
  eapply wp_bind_mono; [apply (mulAddVWW_g_spec m (Vec (off qhatv) n (cap qhatv)) v qhat 0 Hm); [by apply valid_vec; lia|done|simpl; lia|done|unfold is_word; lia|unfold up_ok, apart in *; simpl; lia]|].
  cbn [off len]. intros [m1 c1] (Hf1 & Hw1 & E1 & Hc1). fold V in E1. pose proof (proj1 Hf1). rewrite put_eq, go_bind_ret by (unfold valid; lia).
  destruct (frame_up m1 m1 (off qhatv) n c1 (frame_refl _ _ _) Hw1 Hc1) as (Hf2 & Hw2 & E2 & _); [lia..|]. set (m2 := insZ m1 (off qhatv + n) c1) in *. clearbody m2. rewrite E1 in E2.
  assert (frame m m2 (off qhatv) (n + 1)) as HF2 by (eapply frame_trans; eapply frame_weaken; [exact Hf1|lia|exact Hf2|lia]). pose proof (proj1 HF2).
  rewrite part_eq, part_from_eq, !go_bind_ret by lia. rewrite Hlh. replace (j + (n + 1) - j) with (n + 1) by lia.
  eapply wp_bind_mono; [apply (subVV_g_spec m2 (Vec (off u + j) (n + 1) (cap u - j)) (Vec (off u + j) (len u - j) (cap u - j)) qhatv Hw2);
    [by apply valid_vec; lia|by apply valid_vec; lia|unfold valid; lia|simpl; lia|simpl; lia|unfold up_ok; simpl; lia|unfold up_ok; simpl; lia]|].
  cbn [off len]. intros [m3 c3] (Hf3 & Hw3 & E3 & Hc3). rewrite E2 in E3. assert (num m2 (off u + j) (n + 1) = D) as ED by (eapply num_frame; [exact HF2|lia]). rewrite ED in E3.
  pose proof (proj1 Hf3). assert (num m3 (off v) n = V) as EV. { rewrite (num_frame _ _ _ _ (off v) n Hf3) by (unfold apart in Huv; lia). eapply num_frame; [exact HF2|lia]. }
  eapply wp_bind_mono; [apply (divLarge_fix_spec m3 u v j n c3 qhat D); rewrite ?EV; first [done|lia|unfold valid; lia]|]. rewrite EV.
  intros [m4 qhat'] (Hf4 & Hw4 & -> & E4). pose proof (proj1 Hf4). rewrite put_eq by (unfold valid; lia). apply wp_ret.
  assert (is_word (D / V)) as Hqd. { unfold is_word in *. split; [by apply Z.div_pos|lia]. }
  assert (frame m4 (insZ m4 (off q + j) (D / V)) (off q + j) 1) as Hf5.
  { split; [by rewrite zlen_insZ|]. intros i Hi. rewrite get_insZ, decide_False by lia. done. }
  split; [|split; [by apply words_insZ|split; [rewrite get_insZ, decide_True by lia; done|rewrite <- E4; eapply num_frame; [exact Hf5|lia]]]].
  unfold step_words. eapply only_trans; [eapply only_frame; [exact HF2|lia]|]. eapply only_trans; [eapply only_frame; [exact Hf3|lia]|].
  eapply only_trans; [eapply only_frame; [exact Hf4|lia]|]. eapply only_frame; [exact Hf5|lia].
Qed.

(** ** The steps together *)

(** The remainder before step [j] has no words above the ones the step looks at. *)
Lemma long_digit m o V j n k : words m → 0 <= j → 0 <= n → 0 <= k → 0 < V < _B ^ n → num m o (j + (n + 1 + k)) < V * _B ^ (j + 1) →
  let D := num m (o + j) (n + 1) in num m (o + j + (n + 1)) k = 0 ∧ num m o (j + (n + 1 + k)) = num m o j + _B ^ j * D ∧ D < V * _B.
Proof.
  intros Hm Hj Hn Hk HV HRV D. rewrite (num_app m o j), (num_app m (o + j) (n + 1)) in * by lia. fold D in HRV |- *.
  pose proof (num_bound m o j Hm Hj) as Hlow. pose proof (num_bound m (o + j + (n + 1)) k Hm ltac:(lia)) as Htop. pose proof (num_bound m (o + j) (n + 1) Hm ltac:(lia)) as HD. fold D in HD.
  pose proof (_B_pow j Hj) as HP. pose proof (_B_pow n Hn) as HPn. rewrite !B_next in * by lia. pose proof _B_bound as HB.
  set (T := num m (o + j + (n + 1)) k) in *. set (P := _B ^ j) in *. set (N := _B ^ n) in *.
  assert (V * (_B * P) <= N * (_B * P)) as HVN by (apply Z.mul_le_mono_nonneg_r; [apply Z.mul_nonneg_nonneg|]; lia).
  assert (0 <= P * D) as HPD by (apply Z.mul_nonneg_nonneg; lia).
  assert (T = 0) as HT. { enough (T < 1) by lia. apply (Z.mul_lt_mono_pos_r (P * (_B * N))); [repeat apply Z.mul_pos_pos; lia|]. lia. }
  rewrite HT, Z.mul_0_r, Z.add_0_r in *. split; [done|]. split; [done|]. apply (Z.mul_lt_mono_pos_r P); lia.
Qed.

(** From the remainder before step [j] to the one after it. *)
Lemma long_division m m' o V j n k : words m → words m' → 0 <= j → 0 <= n → 0 <= k → 0 < V < _B ^ n → let R := num m o (j + (n + 1 + k)) in R < V * _B ^ (j + 1) →
  (∀ i, o <= i < o + (j + (n + 1 + k)) → ¬ o + j <= i < o + j + (n + 1) → get m' i = get m i) → let D := num m (o + j) (n + 1) in num m' (o + j) (n + 1) = D mod V →
  num m' o (j + (n + 1 + k)) = R - D / V * _B ^ j * V ∧ num m' o (j + (n + 1 + k)) < V * _B ^ j.
Proof.
  intros Hm Hm' Hj Hn Hk HV R HRV Hg D HD'. destruct (long_digit m o V j n k Hm Hj Hn Hk HV HRV) as (HT & HR & HDV). fold D in HR, HDV. fold R in HR. rewrite HR.
  pose proof (num_bound m o j Hm Hj) as Hlow. pose proof (_B_pow j Hj) as HP.
  rewrite (num_app m' o j), (num_app m' (o + j) (n + 1)), HD' by lia. assert (num m' o j = num m o j) as -> by (apply num_ext; intros; apply Hg; lia).
  assert (num m' (o + j + (n + 1)) k = 0) as -> by (rewrite <- HT; apply num_ext; intros; apply Hg; lia). rewrite Z.mul_0_r, Z.add_0_r.
  pose proof (Z.div_mod D V ltac:(lia)) as Edm. pose proof (Z.mod_pos_bound D V ltac:(lia)) as Hmod. split.
  - rewrite Edm at 2. ring.
  - assert (_B ^ j * (D mod V + 1) <= _B ^ j * V) by (apply Z.mul_le_mono_nonneg_l; lia). lia.
Qed.

Definition loop_words (q u qhatv : nat_) (i : Z) : Prop :=
  off q <= i < off q + len q ∨ off qhatv <= i < off qhatv + len qhatv ∨ off u <= i < off u + len u.

Section layout.
Context (m : mem) (q u v qhatv : nat_) (k n : Z).
Context (Hq : valid m q) (Hu : valid m u) (Hv : valid m v) (Hh : valid m qhatv) (Hlh : len qhatv = n + 1) (Hlq : len q = k + 1) (Hlu : len u = k + n + 1).
Context (Huv : apart u v) (Huh : apart u qhatv) (Hvh : apart v qhatv) (Hqu : apart q u) (Hqv : apart q v) (Hqh : apart q qhatv).

Lemma loop_v i : off v <= i < off v + len v → ¬ loop_words q u qhatv i.
Proof. unfold valid, apart, loop_words in *. lia. Qed.
Lemma step_u j i : 0 <= j <= k → off u <= i < off u + len u → ¬ off u + j <= i < off u + j + (n + 1) → ¬ step_words q u qhatv j n i.
Proof. unfold valid, apart, step_words in *. lia. Qed.
Lemma step_q j i : 0 <= j <= k → off q + (j + 1) <= i < off q + len q → ¬ step_words q u qhatv j n i.
Proof. unfold valid, apart, step_words in *. lia. Qed.
Lemma step_loop j i : 0 <= j <= k → step_words q u qhatv j n i → loop_words q u qhatv i.
Proof. unfold valid, apart, step_words, loop_words in *. lia. Qed.
End layout.

Lemma divLarge_loop m q u v qhatv k n : words m → valid m q → valid m u → valid m v → valid m qhatv → len v = n → len qhatv = n + 1 →
  apart u v → apart u qhatv → apart v qhatv → apart q u → apart q v → apart q qhatv → 2 <= n → 0 <= k → len q = k + 1 → len u = k + n + 1 →
  let V := num m (off v) n in let U := num m (off u) (len u) in _B <= 2 * get m (off v + (n - 1)) → U < V * _B ^ (k + 1) →
  for_down k 0 (λ j m, divLarge_step m q u v qhatv j n) m ⇓ λ m', only (loop_words q u qhatv) m m' ∧ words m' ∧
    num m' (off q) (len q) = U / V ∧ num m' (off u) (len u) = U mod V.
Proof.
  intros Hm Hq Hu Hv Hh Hlv Hlh Huv Huh Hvh Hqu Hqv Hqh Hn Hk Hlq Hlu V U Htop HUV.
  pose proof Hq as (? & ? & ?). pose proof Hu as (? & ? & ?). pose proof Hv as (? & ? & ?). pose proof Hh as (? & ? & ?).
  pose proof (num_bound m (off v) n Hm ltac:(lia)) as HV. pose proof (top_set m (off v) n Hm Hn Htop) as HBV. fold V in HV, HBV.
  assert (0 < V) as HV0. { pose proof (_B_pow (n - 2) ltac:(lia)). pose proof _B_bound. assert (0 < _B * _B ^ (n - 2)) by (apply Z.mul_pos_pos; lia). lia. }
  apply wp_for_down with (I := λ j mi, only (loop_words q u qhatv) m mi ∧ words mi ∧
    U = num mi (off q + (j + 1)) (k - j) * _B ^ (j + 1) * V + num mi (off u) (len u) ∧ num mi (off u) (len u) < V * _B ^ (j + 1)).
  - intros j mi Hj (Ho & Hw & EU & HR).
    assert (∀ i, off v <= i < off v + n → get mi i = get m i) as Hgv by (intros i Hi; apply Ho; eapply (loop_v m q u v qhatv); (done || lia)).
    assert (num mi (off v) n = V) as EV by (apply num_ext; done).
    assert (get mi (off v + (n - 1)) = get m (off v + (n - 1))) as Et by (apply Hgv; lia).
    set (D := num mi (off u + j) (n + 1)). assert (len u = j + (n + 1 + (k - j))) as El by lia. rewrite El in EU, HR |- *.
    destruct (long_digit mi (off u) V j n (k - j)) as (_ & _ & HD); [done|lia..|done|].
    eapply wp_mono; [apply divLarge_step_spec; rewrite ?EV, ?Et; first [done|lia|by eapply only_valid]|]. cbv zeta. rewrite EV. fold D.
    intros m' (Ho' & Hw' & Eq & ED).
    destruct (long_division mi m' (off u) V j n (k - j)) as (ER & HR'); [done|done|lia..|done| |done|].
    { intros i Hi1 Hi2. apply Ho'. eapply (step_u m q u v qhatv k n); (done || lia). }
    replace (j - 1 + 1) with j by lia.
    split; [eapply only_trans; [exact Ho|eapply only_weaken; [exact Ho'|intros i; eapply (step_loop m q u v qhatv k n); (done || lia)]]|]. split; [done|]. split; [|done].
    replace (k - (j - 1)) with (1 + (k - j)) by lia. rewrite num_app, num_one, Eq by lia. replace (off q + j + 1) with (off q + (j + 1)) by lia.
    rewrite (only_num _ _ _ (off q + (j + 1)) (k - j) Ho') by (intros i Hi; eapply (step_q m q u v qhatv k n); (done || lia)). rewrite ER, EU, B_next, Z.pow_1_r by lia. fold D. ring.
  - replace (k - k) with 0 by lia. split; [done|]. split; [done|]. rewrite num_0 by done. split; [lia|done].
  - intros m'. replace (Z.min k (0 - 1)) with (-1) by lia. intros (Ho & Hw & EU & HR). replace (-1 + 1) with 0 in * by lia.
    replace (k - -1) with (len q) in EU by lia. rewrite Z.pow_0_r, Z.add_0_r, Z.mul_1_r in *. split; [done|]. split; [done|].
    pose proof (num_bound m' (off u) (len u) Hw ltac:(lia)).
    split; [apply Z.div_unique with (num m' (off u) (len u)); lia|apply Z.mod_unique with (num m' (off q) (len q)); lia].
Qed.

(** ** The whole division *)

(** Two results in the storage of [z] and of [z2], or in storage of their own. *)
Definition laid (m : mem) (z z2 : nat_) (m' : mem) (q r : nat_) : Prop :=
  words m' ∧ valid m' q ∧ valid m' r ∧ placed m z q ∧ placed m z2 r ∧ apart q r ∧ zlen m <= zlen m' ∧
  ∀ i, i < zlen m → ¬ off z <= i < off z + cap z → ¬ off z2 <= i < off z2 + cap z2 → get m' i = get m i.
Definition divided (m : mem) (z z2 : nat_) (vq vr : Z) (m' : mem) (q r : nat_) : Prop := laid m z z2 m' q r ∧ is_nat m' q vq ∧ is_nat m' r vr.

Lemma laid_mono m z z2 m1 q r m2 : laid m z z2 m1 q r → words m2 → zlen m1 <= zlen m2 →
  (∀ i, i < zlen m → ¬ off q <= i < off q + cap q → ¬ off r <= i < off r + cap r → get m2 i = get m1 i) → laid m z z2 m2 q r.
Proof.
  intros (Hw & Hq & Hr & Hpq & Hpr & Ha & Hl & Hk) Hw2 Hl2 Hg. split; [done|]. split; [unfold valid in *; lia|]. split; [unfold valid in *; lia|].
  split; [done|]. split; [done|]. split; [done|]. split; [lia|]. intros i Hi Hz Hz2. unfold placed in *. rewrite Hg by lia. by apply Hk.
Qed.

Lemma laid_len m z z2 m1 q r q' r' : laid m z z2 m1 q r → off q' = off q → cap q' = cap q → 0 <= len q' <= cap q → off r' = off r → cap r' = cap r → 0 <= len r' <= cap r →
  laid m z z2 m1 q' r'.
Proof.
  intros (Hw & Hq & Hr & Hpq & Hpr & Ha & Hl & Hk) E1 E2 Hl1 E3 E4 Hl2. unfold laid, valid, placed, apart in *. rewrite E1, E2, E3, E4. split_and!; (done || lia).
Qed.

(** The storage of the quotient, of [qhatv] and of the remainder. *)
Lemma divLarge_room {A} m z u x v L n L' (K : mem → nat_ → nat_ → nat_ → go A) (Q : A → Prop) : words m → valid m z → valid m u → valid m x → valid m v →
  shares z x → shares z v → shares u x → shares u v → apart z u → 0 < L → 0 <= n → 0 < L' →
  (∀ m' q h u', laid m z u m' q u' → (∀ i, i < zlen m → get m' i = get m i) → len q = L → len h = n → len u' = L' → valid m' h →
    apart q x → apart q v → apart u' x → apart u' v → apart q h → apart u' h → apart v h → zlen m <= off h → K m' q h u' ⇓ Q) →
  ('(m, q) ← make_ m (if alias z x || alias z v then nil_ else z) L;
   let '(m, h) := new m n in
   '(m, u) ← make_ m (if alias u x || alias u v then nil_ else u) L';
   K m q h u) ⇓ Q.
Proof.
  intros Hm Hz Hu Hx Hv Hzx Hzv Hux Huv Hzu HL Hn HL' HK. pose proof Hz as (? & ? & ?). pose proof Hu as (? & ? & ?). pose proof Hx as (? & ? & ?). pose proof Hv as (? & ? & ?).
  eapply wp_bind_mono; [by apply product_room|]. intros [m1 q] ((Hw1 & Hvq & Hpq & Hl1 & Hk1) & Elq & Hg1 & Hqx & Hqv). unfold new.
  pose proof (zlen_replicate n 0 Hn) as Hr. set (m2 := m1 ++ replicate (Z.to_nat n) 0). set (h := Vec (zlen m1) n n).
  assert (zlen m2 = zlen m1 + n) as Hl2 by (unfold m2; rewrite zlen_app; lia).
  assert (words m2) as Hw2 by (apply Forall_app; split; [done|apply words_zeros]).
  assert (∀ i, i < zlen m1 → get m2 i = get m1 i) as Hg2 by (intros; by apply get_app_l).
  assert (∀ y, valid m y → valid m2 y) as Hval by (unfold valid; intros; lia). clearbody m2.
  eapply wp_bind_mono; [apply (product_room m2 u x v L'); auto|]. intros [m3 u'] ((Hw3 & Hvu & Hpu & Hl3 & Hk3) & Elu & Hg3 & Hu'x & Hu'v).
  pose proof Hvq as (? & ? & ?). pose proof Hvu as (? & ? & ?).
  assert (placed m u u') as Hpu' by (unfold placed in *; lia). assert (apart u' h) as Hu'h by (unfold placed, apart in *; simpl; lia).
  assert (∀ i, i < zlen m → get m3 i = get m i) as Hg by (intros i Hi; rewrite Hg3, Hg2, Hg1 by lia; done).
  apply HK; try done.
  - split; [done|]. split; [unfold valid; lia|]. split; [done|]. split; [done|]. split; [done|]. split; [|split; [lia|intros; by apply Hg]]. unfold placed, apart in *. lia.
  - unfold valid, h. simpl. lia.
  - unfold apart, h. simpl. lia.
  - unfold apart, h. simpl. lia.
Qed.

(** A number that has its top bit set in its value has it in its top word. *)
Lemma top_word m o n : words m → 1 <= n → _B * _B ^ (n - 1) <= 2 * num m o n → _B <= 2 * get m (o + (n - 1)).
Proof.
  intros Hm Hn Hv. replace n with (n - 1 + 1) in Hv at 2 by lia. rewrite num_snoc in Hv by lia. pose proof (num_bound m o (n - 1) Hm ltac:(lia)).
  pose proof (_B_pow (n - 1) ltac:(lia)). destruct _B_half as (h & EB & _). set (P := _B ^ (n - 1)) in *. set (t := get m (o + (n - 1))) in *.
  assert (_B - 2 < 2 * t) by (apply (Z.mul_lt_mono_pos_r P); lia). lia.
Qed.

Lemma divLarge_norm_spec m v n vv : words m → is_nat m v vv → len v = n → 2 <= n → let s := _W - bits (get m (off v + (n - 1))) in
  0 <= s < _W ∧ divLarge_norm m v n s ⇓ λ '(m', v'), words m' ∧ zlen m <= zlen m' ∧ (∀ i, i < zlen m → get m' i = get m i) ∧ valid m' v' ∧ len v' = n ∧
    (v' = v ∨ zlen m <= off v') ∧ num m' (off v') n = vv * 2 ^ s ∧ _B <= 2 * get m' (off v' + (n - 1)).
Proof.
  intros Hm (Hv & Ev & Ht) Hlv Hn s. pose proof Hv as (? & ? & ?). set (vn := get m (off v + (n - 1))) in *.
  assert (vn ≠ 0) as Hvn0. { replace (off v + len v - 1) with (off v + (n - 1)) in Ht by lia. apply Ht. lia. }
  destruct (normalize vn (words_get _ _ Hm) Hvn0) as (Hs & _ & Hb1 & Hb2). fold s in Hs, Hb1, Hb2. split; [done|].
  rewrite Hlv in Ev. pose proof Ev as Ev'. replace n with (n - 1 + 1) in Ev' by lia. rewrite num_snoc in Ev' by lia. fold vn in Ev'.
  pose proof (num_bound m (off v) (n - 1) Hm ltac:(lia)) as Hlow. pose proof (_B_pow (n - 1) ltac:(lia)) as HP. assert (0 < 2 ^ s) as Hps by (apply Z.pow_pos_nonneg; lia).
  assert (_B * _B ^ (n - 1) <= 2 * (vv * 2 ^ s)) as Hbig.
  { transitivity (2 * (vn * 2 ^ s) * _B ^ (n - 1)); [by apply Z.mul_le_mono_nonneg_r; lia|]. assert (0 <= num m (off v) (n - 1) * 2 ^ s) by (apply Z.mul_nonneg_nonneg; lia). rewrite <- Ev'. lia. }
  unfold divLarge_norm. destruct (Z.ltb_spec 0 s) as [Hs0|Hs0].
  2: { apply wp_ret. replace s with 0 in * by lia. rewrite Z.mul_1_r in *. split; [done|]. do 4 (split; [done|]). split; [by left|]. split; [done|]. apply top_word; [done|lia|]. by rewrite Ev. }
  unfold new. pose proof (zlen_replicate n 0 ltac:(lia)) as Hr. set (m1 := m ++ replicate (Z.to_nat n) 0). set (v1 := Vec (zlen m) n n).
  assert (zlen m1 = zlen m + n) as Hl1 by (unfold m1; rewrite zlen_app; lia).
  assert (words m1) as Hw1 by (apply Forall_app; split; [done|apply words_zeros]).
  assert (∀ i, i < zlen m → get m1 i = get m i) as Hg1 by (intros; by apply get_app_l). clearbody m1.
  assert (valid m1 v1) as Hv1 by (unfold valid, v1; simpl; pose proof (zlen_nonneg m); lia).
  eapply wp_bind_mono; [apply (shlVU_g_spec m1 v1 v s); [done|done|unfold valid; lia|simpl; lia|done|unfold down_ok; simpl; lia]|].
  intros [m2 c] (Hf2 & Hw2 & E2 & Hc). apply wp_ret. cbn [off len v1] in *. assert (num m1 (off v) n = vv) as Ev1 by (rewrite <- Ev; apply num_ext; intros; apply Hg1; lia).
  rewrite Ev1 in E2. pose proof (proj1 Hf2). pose proof (num_bound m2 (zlen m) n Hw2 ltac:(lia)) as Hb.
  assert (vv * 2 ^ s < _B ^ n) as Hsmall.
  { replace n with (n - 1 + 1) by lia. rewrite B_next by lia. eapply Z.lt_le_trans with ((vn + 1) * _B ^ (n - 1) * 2 ^ s); [apply Z.mul_lt_mono_pos_r; lia|].
    transitivity ((vn + 1) * 2 ^ s * _B ^ (n - 1)); [lia|]. apply Z.mul_le_mono_nonneg_r; [lia|]. rewrite _B_eq in *. replace _W with (_W - s + s) in * by lia.
    rewrite Z.pow_add_r in * by lia. apply Z.mul_le_mono_nonneg_r; [lia|]. enough (vn < 2 ^ (_W - s)) by lia. apply (Z.mul_lt_mono_pos_r (2 ^ s)); lia. }
  assert (c < 1) by (apply (Z.mul_lt_mono_pos_r (_B ^ n)); [apply _B_pow; lia|lia]). assert (c = 0) as -> by lia. rewrite Z.mul_0_l, Z.add_0_r in E2.
  split; [done|]. split; [lia|]. split; [intros i Hi; rewrite (proj2 Hf2) by lia; by apply Hg1|]. split; [by eapply valid_frame|]. split; [done|]. split; [right; simpl; lia|]. split; [done|].
  apply top_word; [done|lia|]. cbn [off v1]. by rewrite E2.
Qed.

(** From the shift of the dividend to the results. *)
Lemma divLarge_core m q u v h x k n s vx vv : words m → valid m q → valid m u → valid m v → valid m h → valid m x → len v = n → len h = n + 1 →
  apart u v → apart u h → apart v h → apart q u → apart q v → apart q h → apart u x → 2 <= n → 0 <= k → len q = k + 1 → len x = k + n → len u = len x + 1 →
  0 <= s < _W → num m (off v) n = vv * 2 ^ s → _B ^ (n - 1) <= vv → _B <= 2 * get m (off v + (n - 1)) → num m (off x) (len x) = vx →
  (u0 ← part u 0 (len x);
   '(m, c) ← shlVU_g m u0 x s;
   m ← put m u (len x) c;
   m ← for_down k 0 (λ j m, divLarge_step m q u v h j n) m;
   q ← norm m q;
   '(m, _) ← shrVU_g m u u s;
   r ← norm m u;
   Ret (m, q, r)) ⇓ λ '(m', q', r'), only (loop_words q u h) m m' ∧ words m' ∧ is_nat m' q' (vx / vv) ∧ is_nat m' r' (vx mod vv) ∧
    off q' = off q ∧ cap q' = cap q ∧ off r' = off u ∧ cap r' = cap u.
Proof.
  intros Hm Hq Hu Hv Hh Hx Hlv Hlh Huv Huh Hvh Hqu Hqv Hqh Hux Hn Hk Hlq Hlx Hlu Hs Ev Hvv Htop Ex.
  pose proof Hq as (? & ? & ?). pose proof Hu as (? & ? & ?). pose proof Hv as (? & ? & ?). pose proof Hx as (? & ? & ?). assert (0 < 2 ^ s) as Hps by (apply Z.pow_pos_nonneg; lia).
  pose proof (_B_pow (n - 1) ltac:(lia)) as HP1. rewrite part_0, go_bind_ret by lia.
  eapply wp_bind_mono; [apply (shlVU_g_spec m (Vec (off u) (len x) (cap u)) x s); [done|by apply valid_vec; lia|done|simpl; lia|done|unfold down_ok, apart in *; simpl; lia]|].
  cbn [off len]. intros [m1 c] (Hf1 & Hw1 & E1 & Hc). rewrite Ex in E1. pose proof (proj1 Hf1). rewrite put_eq, go_bind_ret by (unfold valid; lia).
  assert (is_word c) as Hcw. { unfold is_word. rewrite _B_eq. pose proof (Z.pow_le_mono_r 2 s _W). lia. }
  destruct (frame_up m1 m1 (off u) (len x) c (frame_refl _ _ _) Hw1 Hcw) as (Hf2 & Hw2 & E2 & _); [lia..|]. set (m2 := insZ m1 (off u + len x) c) in *. clearbody m2. rewrite E1, <- Hlu in E2.
  assert (frame m m2 (off u) (len u)) as HF2 by (eapply frame_trans; eapply frame_weaken; [exact Hf1|lia|exact Hf2|lia]).
  assert (∀ i, off v <= i < off v + n → ¬ off u <= i < off u + len u) as Huv' by (clear -Hu Hv Huv Hlv; intros i Hi; unfold valid, apart in *; lia).
  assert (num m2 (off v) n = vv * 2 ^ s) as Ev2 by (rewrite <- Ev; apply num_ext; intros i Hi; by apply HF2, Huv').
  assert (get m2 (off v + (n - 1)) = get m (off v + (n - 1))) as Et by (apply HF2, Huv'; lia).
  pose proof (num_bound m (off x) (len x) Hm ltac:(lia)) as Hbx. rewrite Ex in Hbx.
  eapply wp_bind_mono; [apply (divLarge_loop m2 q u v h k n); rewrite ?Ev2, ?Et, ?E2; first [done|lia|by eapply valid_frame|idtac]|].
  { rewrite <- Z.mul_assoc, (Z.mul_comm (2 ^ s)), Z.mul_assoc. apply Z.mul_lt_mono_pos_r; [done|]. rewrite Hlx in Hbx. eapply Z.lt_le_trans; [apply Hbx|].
    replace (k + n) with (n - 1 + (k + 1)) by lia. rewrite Z.pow_add_r by lia. apply Z.mul_le_mono_nonneg_r; [|done]. pose proof (_B_pow (k + 1)). lia. }
  rewrite Ev2, E2. intros m3 (Ho3 & Hw3 & Eq & Er). rewrite Z.div_mul_cancel_r, Z.mul_mod_distr_r in * by lia.
  assert (only (loop_words q u h) m m3) as HO3 by (eapply only_trans; [eapply only_frame; [exact HF2|unfold loop_words; lia]|exact Ho3]).
  eapply wp_bind_mono; [apply nat_norm_spec; by eapply only_valid|]. intros q' (Eoq & Ecq & Hlq' & Enq & Htq). pose proof (proj1 HO3) as Hz3.
  eapply wp_bind_mono; [apply (shrVU_g_spec m3 u u s); [done|unfold valid; lia|unfold valid; lia|lia|done|unfold up_ok; lia]|].
  intros [m4 c4] (Hf4 & Hw4 & E4 & _). rewrite Er, Z.div_mul in E4 by lia. pose proof (proj1 Hf4).
  eapply wp_bind_mono; [apply nat_norm_spec; unfold valid; lia|]. intros r' (Eor & Ecr & Hlr' & Enr & Htr). apply wp_ret.
  split; [eapply only_trans; [exact HO3|eapply only_frame; [exact Hf4|unfold loop_words; lia]]|]. split; [done|].
  split; [|split; [split; [unfold valid; lia|split; [congruence|done]]|done]].
  assert (∀ i, off q' <= i < off q' + len q' → ¬ off u <= i < off u + len u) as Hqu'.
  { clear -Hq Hu Hqu Eoq Hlq'. intros i Hi. unfold valid, apart in *. lia. }
  eapply (is_nat_ext m3); [lia|intros i Hi; by apply Hf4, Hqu'|]. split; [unfold valid; lia|]. split; [congruence|done].
Qed.

Lemma divLarge_spec m z u x v vx vv : words m → valid m z → valid m u → is_nat m x vx → is_nat m v vv → shares z x → shares z v → shares u x → shares u v → apart z u →
  2 <= len v <= len x → divLarge m z u x v ⇓ λ '(m', q, r), divided m z u (vx / vv) (vx mod vv) m' q r.
Proof.
  intros Hm Hz Hu Hx Hv Hzx Hzv Hux Huv Hzu Hn. pose proof Hx as (Hvx & Ex & _). pose proof Hv as (Hvv & Ev & _). pose proof Hvx as (? & ? & ?). pose proof Hvv as (? & ? & ?).
  destruct (nat_pos _ _ _ Hm Hv) as [_ Hvb]. specialize (Hvb ltac:(lia)). unfold divLarge. cbv zeta. set (n := len v) in *. set (k := len x - n) in *.
  eapply (divLarge_room m z u x v (k + 1) (n + 1) (len x + 1)); try done; [lia..|]. intros m1 q h u1 Hlaid Hg1 Hlq Hlh Hlu Hvh Hqx Hqv Hux1 Huv1 Hqh Huh Hvh1 Hhm.
  pose proof Hlaid as (Hw1 & Hvq & Hvu & _ & _ & Hqu & Hl1 & _). pose proof Hvu as (? & ? & ?). pose proof Hvq as (? & ? & ?). pose proof Hvh as (? & ? & ?).
  eapply wp_bind_mono; [by apply clear_spec|]. intros m2 (Hf2 & Hw2 & _). pose proof (proj1 Hf2) as Hl2.
  assert (∀ y v, is_nat m y v → apart u1 y → is_nat m2 y v) as Hkeep.
  { intros y w Hy Ha. pose proof Hy as ((? & ? & ?) & _). eapply is_nat_ext; [|intros i Hi; rewrite (proj2 Hf2), Hg1; [done|lia|unfold apart in Ha; lia]|exact Hy]. lia. }
  pose proof (Hkeep _ _ Hx Hux1) as Hx2. pose proof (Hkeep _ _ Hv Huv1) as Hv2. assert (valid m2 v) as Hvv2 by apply Hv2.
  rewrite at_eq, go_bind_ret by (done || lia). rewrite leadingZeros_spec, go_bind_ret by (by apply words_get).
  destruct (divLarge_norm_spec m2 v n vv Hw2 Hv2 eq_refl ltac:(lia)) as [Hs Hnorm]. set (s := _W - bits (get m2 (off v + (n - 1)))) in *.
  eapply wp_bind_mono; [exact Hnorm|]. intros [m3 v'] (Hw3 & Hl3 & Hg3 & Hv3 & Hlv' & Hpv & Ev' & Htop).
  assert (∀ y, valid m2 y → apart y v → apart y v') as Hav.
  { intros y (? & ? & ?) Ha. destruct Hpv as [->|Hpv]; [done|]. unfold apart. lia. }
  assert (valid m3 x) as Hx3 by (destruct Hx2 as [(? & ? & ?) _]; unfold valid; lia).
  assert (valid m2 q ∧ valid m2 u1 ∧ valid m2 h) as (Hq2 & Hu2 & Hh2) by (split_and!; by eapply valid_frame).
  assert (∀ y, valid m2 y → valid m3 y) as Hval by (clear -Hl3; unfold valid; intros; lia).
  assert (apart h v) as Hhv by (clear -Hvh1; unfold apart in *; lia).
  assert (num m3 (off x) (len x) = vx) as Ex3. { destruct Hx2 as ((? & ? & ?) & <- & _). apply num_ext. intros. apply Hg3. lia. }
  assert (apart v' h) as Hv'h by (clear -Hav Hh2 Hhv; specialize (Hav h Hh2 Hhv); unfold apart in *; lia).
  eapply wp_mono; [apply (divLarge_core m3 q u1 v' h x k n s vx vv); first [assumption|by apply Hval|by apply Hav|lia]|].
  intros [[m4 q'] r'] (Ho4 & Hw4 & Hq' & Hr' & Eoq & Ecq & Eor & Ecr). split; [|done].
  apply (laid_len m z u m4 q u1); [|done|done| |done|done| ].
  2: { rewrite <- Ecq. apply Hq'. } 2: { rewrite <- Ecr. apply Hr'. }
  pose proof (proj1 Ho4) as Hl4. apply (laid_mono m z u m1 q u1); [done|done|clear -Hl2 Hl3 Hl4; lia|].
  intros i Hi Hni1 Hni2. rewrite (proj2 Ho4), Hg3, (proj2 Hf2); [done| |clear -Hi Hl1 Hl2; lia|].
  - clear -Hni2 Hvu Hlu. unfold valid in *. lia.
  - clear -Hi Hni1 Hni2 Hvu Hvq Hhm. unfold loop_words, valid in *. lia.
Qed.

(** Two results made one after the other. *)
Lemma inside_laid m z z2 m1 q m2 r vq vr : valid m z → valid m z2 → apart z z2 → inside m z m1 q → is_nat m1 q vq → inside m1 z2 m2 r → is_nat m2 r vr →
  divided m z z2 vq vr m2 q r.
Proof.
  intros Hz Hz2 Ha (Hw1 & Hvq & Hpq & Hl1 & Hk1) Hq (Hw2 & Hvr & Hpr & Hl2 & Hk2) Hr. unfold valid, apart, placed in *.
  assert (∀ i, off q <= i < off q + cap q → get m2 i = get m1 i) as Hg by (intros i Hi; apply Hk2; lia).
  split; [|split; [|done]].
  - split; [done|]. split; [unfold valid; lia|]. split; [done|]. split; [unfold placed; lia|]. split; [unfold placed; lia|]. split; [unfold apart; lia|]. split; [lia|].
    intros i Hi Hni Hni2. rewrite Hk2 by lia. by apply Hk1.
  - eapply is_nat_ext; [exact Hl2|intros i Hi; apply Hg; lia|done].
Qed.

Lemma nat_div_spec m z z2 u v vu vv : words m → valid m z → valid m z2 → is_nat m u vu → is_nat m v vv →
  shares z u → shares z v → shares z2 u → shares z2 v → apart z z2 →
  if decide (vv = 0) then div m z z2 u v = Panic "division by zero"
  else div m z z2 u v ⇓ λ '(m', q, r), divided m z z2 (vu / vv) (vu mod vv) m' q r.
Proof.
  intros Hm Hz Hz2 Hu Hv Hzu Hzv Hz2u Hz2v Ha. pose proof Hv as (Hvv & Ev & _). pose proof Hvv as (? & ? & ?). pose proof Hu as ((? & ? & ?) & _).
  destruct (nat_pos _ _ _ Hm Hv) as [Hvb Hvb']. destruct (nat_pos _ _ _ Hm Hu) as [Hub _]. unfold div. destruct (Z.eqb_spec (len v) 0) as [E0|E0].
  { by rewrite decide_True by (by eapply zero_nat). }
  specialize (Hvb' ltac:(lia)). pose proof (_B_pow (len v - 1) ltac:(lia)). rewrite decide_False by lia. rewrite (cmp_spec m u v vu vv), go_bind_ret by done.
  pose proof Hz as (? & ? & ?). destruct (Z.compare_spec vu vv) as [E|Hlt|Hgt]; simpl.
  2: { rewrite part_to_eq, go_bind_ret by lia. eapply wp_bind_mono; [by apply set_spec|]. intros [m1 r] [Hi Hr]. apply wp_ret.
    rewrite Z.div_small, Z.mod_small by lia. eapply (inside_laid m z z2 m); try done; [apply inside_len; [by apply inside_refl|lia]|].
    split; [apply valid_vec; lia|]. split; [by apply num_0|simpl; lia]. }
  all: assert (len v <= len u) as Hl by (destruct (Z.le_gt_cases (len v) (len u)) as [|Hgtl]; [done|pose proof (nat_len_lt _ _ _ _ _ Hm Hu Hv ltac:(lia)); lia]).
  all: destruct (Z.eqb_spec (len v) 1) as [E1|E1]; [|by apply divLarge_spec; try done; lia].
  all: rewrite at_eq, go_bind_ret, Z.add_0_r by (done || lia); rewrite E1, num_one in Ev by done; rewrite Ev.
  all: assert (is_word vv) as Hvw by (rewrite <- Ev; by apply words_get).
  all: eapply wp_bind_mono; [apply (divW_spec m z u vv vu); try done; [destruct Hzu as [[? _]|]; [by left|by right]|lia]|].
  all: intros [[m1 q] r2] (Hi & Hq & ->); pose proof Hi as (Hw1 & _ & _ & Hl1 & _).
  all: eapply wp_bind_mono; [apply setWord_spec; [done|unfold valid in *; lia|pose proof (Z.mod_pos_bound vu vv); unfold is_word in *; lia]|].
  all: intros [m2 r] [Hi2 Hr]; apply wp_ret; by eapply (inside_laid m z z2 m1).
Qed.
End proofs.

(** C5: Division of natural numbers of any lengths, Knuth's algorithm D included, returns quotient
    and remainder in storage of their own, for whatever storage of the receivers that
    holds the operands too, changes nothing else, and panics exactly for the divisor 0. *)
Theorem div_quotient `{M : Machine} m z z2 u v vu vv : Forall is_word m → valid m z → valid m z2 → is_nat m u vu → is_nat m v vv →
  shares z u → shares z v → shares z2 u → shares z2 v → apart z z2 →
  if decide (vv = 0) then div m z z2 u v = Panic "division by zero"
  else div m z z2 u v ⇓ λ '(m', q, r), laid m z z2 m' q r ∧ is_nat m' q (vu / vv) ∧ is_nat m' r (vu mod vv).
Proof.
  intros. pose proof (nat_div_spec m z z2 u v vu vv) as Hd. destruct (decide (vv = 0)); by apply Hd.
Qed.

Example div_quotient_witness : Forall (is_word (M := machine64)) [1; 2; 3; 4] ∧
  (div (M := machine64) [1; 2; 3; 4] nil_ nil_ (Vec 2 2 2) (Vec 0 2 2) ⇓ λ '(m', q, r), is_nat (M := machine64) m' r ((3 + 2 ^ 64 * 4) mod (1 + 2 ^ 64 * 2))).
Proof.
  assert (Forall (is_word (M := machine64)) [1; 2; 3; 4]) as Hm by (repeat constructor; vm_compute; congruence). split; [done|].
  eapply wp_mono; [exact (div_quotient (M := machine64) [1; 2; 3; 4] nil_ nil_ (Vec 2 2 2) (Vec 0 2 2) (3 + 2 ^ 64 * 4) (1 + 2 ^ 64 * 2) Hm
    ltac:(vm_compute; intuition congruence) ltac:(vm_compute; intuition congruence) ltac:(vm_compute; intuition congruence) ltac:(vm_compute; intuition congruence) ltac:(vm_compute; intuition congruence)
    ltac:(vm_compute; intuition congruence) ltac:(vm_compute; intuition congruence) ltac:(vm_compute; intuition congruence) ltac:(vm_compute; intuition congruence))|].
  intros [[m' q] r] (_ & _ & Hr). exact Hr.
Defined.
