(* ===== verification/BigInt.v ===== *)
(** Signed multi-precision integers: [src/src/math/big/int.go].

    An [Int] is reached through a pointer, and the receiver of an operation may be one
    of its operands: the state is the memory of the words and the [Int]s that have been
    allocated. *)
From S2P Require Import Prelude.
From S2P Require Import BigWord.
From S2P Require Import BigVec.
From S2P Require Import BigNat.
From S2P Require Import BigMul.
From S2P Require Import BigProduct.
From S2P Require Import BigDiv.

Record Int := mkInt { neg : bool; abs : nat_ }.
Record world := World { mem_ : mem; ints : list Int }.
Abbreviation ptr := nat (only parsing).

(** [natOne] and [intOne], the first things in memory. *)
Definition natOne : nat_ := Vec 0 1 1.
Definition intOne : ptr := 0%nat.
Definition start : world := World [1] [mkInt false natOne].

Definition deref (w : world) (p : ptr) : go Int :=
  match ints w !! p with Some x => Ret x | None => Panic "invalid memory address or nil pointer dereference" end.
Definition assign (w : world) (p : ptr) (m : mem) (x : Int) : world := World m (<[p := x]> (ints w)).
(** [new(Int)]. *)
Definition alloc (w : world) : world * ptr := (World (mem_ w) (ints w ++ [mkInt false nil_]), length (ints w)).

Definition Sign (w : world) (x : ptr) : go Z :=
  x ← deref w x;
  Ret (if len (abs x) =? 0 then 0 else if neg x then -1 else 1).

Definition Set_ (w : world) (z x : ptr) : go world :=
  if (z =? x)%nat then Ret w else
  zi ← deref w z;
  xi ← deref w x;
  '(m, a) ← set (mem_ w) (abs zi) (abs xi);
  Ret (assign w z m (mkInt (neg xi) a)).

Definition Abs (w : world) (z x : ptr) : go world :=
  w ← Set_ w z x;
  zi ← deref w z;
  Ret (assign w z (mem_ w) (mkInt false (abs zi))).

Definition Neg (w : world) (z x : ptr) : go world :=
  w ← Set_ w z x;
  zi ← deref w z;
  Ret (assign w z (mem_ w) (mkInt ((0 <? len (abs zi)) && negb (neg zi)) (abs zi))).

Definition Cmp (w : world) (x y : ptr) : go Z :=
  xi ← deref w x;
  yi ← deref w y;
  if Bool.eqb (neg xi) (neg yi) then
    r ← cmp (mem_ w) (abs xi) (abs yi);
    Ret (if neg xi then - r else r)
  else if neg xi then Ret (-1) else Ret 1.

Section int.
Context `{M : Machine}.

Definition SetUint64 (w : world) (z : ptr) (x : Z) : go world :=
  zi ← deref w z;
  '(m, a) ← setUint64 (mem_ w) (abs zi) x;
  Ret (assign w z m (mkInt false a)).

Definition SetInt64 (w : world) (z : ptr) (x : Z) : go world :=
  let '(neg, x) := if x <? 0 then (true, i64 (- x)) else (false, x) in
  zi ← deref w z;
  '(m, a) ← setUint64 (mem_ w) (abs zi) (u64 x);
  Ret (assign w z m (mkInt neg a)).

(** The absolute value of [x + y] or of [x - y], and the sign of [x] where it is that of the result. *)
Definition add_abs (m : mem) (z x y : nat_) (neg : bool) : go (mem * nat_ * bool) :=
  '(m, a) ← add m z x y; Ret (m, a, neg).
Definition sub_abs (m : mem) (z x y : nat_) (neg : bool) : go (mem * nat_ * bool) :=
  c ← cmp m x y;
  if 0 <=? c then '(m, a) ← sub m z x y; Ret (m, a, neg)
  else '(m, a) ← sub m z y x; Ret (m, a, negb neg).

Definition Add (w : world) (z x y : ptr) : go world :=
  zi ← deref w z;
  xi ← deref w x;
  yi ← deref w y;
  '(m, a, n) ← (if Bool.eqb (neg xi) (neg yi) then add_abs else sub_abs) (mem_ w) (abs zi) (abs xi) (abs yi) (neg xi);
  Ret (assign w z m (mkInt ((0 <? len a) && n) a)).

Definition Sub (w : world) (z x y : ptr) : go world :=
  zi ← deref w z;
  xi ← deref w x;
  yi ← deref w y;
  '(m, a, n) ← (if negb (Bool.eqb (neg xi) (neg yi)) then add_abs else sub_abs) (mem_ w) (abs zi) (abs xi) (abs yi) (neg xi);
  Ret (assign w z m (mkInt ((0 <? len a) && n) a)).

Definition Mul (w : world) (z x y : ptr) : go world :=
  zi ← deref w z;
  xi ← deref w x;
  yi ← deref w y;
  '(m, a) ← mul (mem_ w) (abs zi) (abs xi) (abs yi);
  Ret (assign w z m (mkInt ((0 <? len a) && negb (Bool.eqb (neg xi) (neg yi))) a)).

Definition MulRange (w : world) (z : ptr) (a b : Z) : go world :=
  if b <? a then SetInt64 w z 1
  else if (a <=? 0) && (0 <=? b) then SetInt64 w z 0
  else
    let '(neg, a, b) := if a <? 0 then (Z.land (i64 (b - a)) 1 =? 0, i64 (- b), i64 (- a)) else (false, a, b) in
    zi ← deref w z;
    '(m, r) ← mulRange (mem_ w) (abs zi) (u64 a) (u64 b);
    Ret (assign w z m (mkInt neg r)).

Definition Quo (w : world) (z x y : ptr) : go world :=
  zi ← deref w z;
  xi ← deref w x;
  yi ← deref w y;
  '(m, q, _) ← div (mem_ w) (abs zi) nil_ (abs xi) (abs yi);
  Ret (assign w z m (mkInt ((0 <? len q) && negb (Bool.eqb (neg xi) (neg yi))) q)).

Definition Rem (w : world) (z x y : ptr) : go world :=
  zi ← deref w z;
  xi ← deref w x;
  yi ← deref w y;
  '(m, _, r) ← div (mem_ w) nil_ (abs zi) (abs xi) (abs yi);
  Ret (assign w z m (mkInt ((0 <? len r) && neg xi) r)).

Definition QuoRem (w : world) (z x y r : ptr) : go world :=
  zi ← deref w z;
  ri ← deref w r;
  xi ← deref w x;
  yi ← deref w y;
  '(m, qa, ra) ← div (mem_ w) (abs zi) (abs ri) (abs xi) (abs yi);
  let w := assign w z m (mkInt ((0 <? len qa) && negb (Bool.eqb (neg xi) (neg yi))) qa) in
  Ret (assign w r m (mkInt ((0 <? len ra) && neg xi) ra)).

Definition Div (w : world) (z x y : ptr) : go world :=
  yi ← deref w y;
  let y_neg := neg yi in
  let '(w, r) := alloc w in
  w ← QuoRem w z x y r;
  ri ← deref w r;
  if neg ri then (if y_neg then Add w z z intOne else Sub w z z intOne) else Ret w.

(** A copy of [y] where the receiver [z] would change it. *)
Definition save (w : world) (z y : ptr) : go (world * ptr) :=
  zi ← deref w z;
  yi ← deref w y;
  if (z =? y)%nat || alias (abs zi) (abs yi) then
    let '(w, y0) := alloc w in
    w ← Set_ w y0 y;
    Ret (w, y0)
  else Ret (w, y).

Definition Mod (w : world) (z x y : ptr) : go world :=
  '(w, y0) ← save w z y;
  let '(w, q) := alloc w in
  w ← QuoRem w q x y z;
  zi ← deref w z;
  if neg zi then
    y0i ← deref w y0;
    if neg y0i then Sub w z z y0 else Add w z z y0
  else Ret w.

Definition DivMod (w : world) (z x y m : ptr) : go world :=
  '(w, y0) ← save w z y;
  w ← QuoRem w z x y m;
  mi ← deref w m;
  if neg mi then
    y0i ← deref w y0;
    if neg y0i then w ← Add w z z intOne; Sub w m m y0
    else w ← Sub w z z intOne; Add w m m y0
  else Ret w.
End int.

Example int_run :
  (let '(w, x) := alloc start in let '(w, y) := alloc w in let '(w, z) := alloc w in
   w ← @SetInt64 machine64 w x (-7); w ← @SetInt64 machine64 w y 2;
   w ← @DivMod machine64 w z x y x;
   zi ← deref w z; xi ← deref w x; a ← idx (mem_ w) (off (abs zi)); b ← idx (mem_ w) (off (abs xi));
   Ret (neg zi, a, neg xi, b)) = Ret (true, 4, false, 1).
Proof. by vm_compute. Qed.

Section proofs.
Context `{M : Machine}.
Abbreviation words m := (Forall is_word m).

(** * The integers that the program holds *)

Definition int_is (m : mem) (x : Int) (v : Z) : Prop := is_nat m (abs x) (Z.abs v) ∧ neg x = (v <? 0).

(** The pointers of [V] hold the values that [V] gives them, in storage of their own. *)
Definition owns (w : world) (V : gmap nat Z) : Prop :=
  words (mem_ w) ∧ V !! intOne = Some 1 ∧ ints w !! intOne = Some (mkInt false natOne) ∧
  (∀ p v, V !! p = Some v → ∃ x, ints w !! p = Some x ∧ int_is (mem_ w) x v) ∧
  (∀ p q x y, p ≠ q → is_Some (V !! p) → is_Some (V !! q) → ints w !! p = Some x → ints w !! q = Some y → apart (abs x) (abs y)).

Lemma owns_start : owns start {[ intOne := 1 ]}.
Proof.
  split; [constructor; [|constructor]; unfold is_word; pose proof _B_bound; lia|]. split; [done|]. split; [done|]. split.
  - intros p v [<- <-]%lookup_singleton_Some. exists (mkInt false natOne). split; [done|]. split; [|done]. split; [unfold valid, zlen; simpl; lia|]. split; [exact (num_one [1] 0)|]. intros _. discriminate.
  - intros p q x y Hpq [? [<- _]%lookup_singleton_Some] [? [<- _]%lookup_singleton_Some]. done.
Qed.

Lemma apart_sym z x : apart z x → apart x z.
Proof. unfold apart. lia. Qed.

Section operands.
Context (w : world) (V : gmap nat Z) (Hw : owns w V).

Lemma owns_words : words (mem_ w).
Proof using Hw. apply Hw. Qed.

Lemma owns_deref p v : V !! p = Some v → ∃ x, ints w !! p = Some x ∧ deref w p = Ret x ∧ is_nat (mem_ w) (abs x) (Z.abs v) ∧ neg x = (v <? 0).
Proof using Hw. intros Hp. destruct Hw as (_ & _ & _ & H & _). destruct (H _ _ Hp) as (x & E & Hx). exists x. unfold deref. rewrite E. split; [done|]. split; [done|]. apply Hx. Qed.

Lemma owns_shares p q x y : is_Some (V !! p) → is_Some (V !! q) → ints w !! p = Some x → ints w !! q = Some y → shares (abs x) (abs y).
Proof using Hw.
  intros Hp Hq Ex Ey. destruct (decide (p = q)) as [->|Hpq]; [left; by simplify_eq|]. right. destruct Hw as (_ & _ & _ & _ & Hap). by apply (Hap p q).
Qed.

Lemma owns_apart p q x y : p ≠ q → is_Some (V !! p) → is_Some (V !! q) → ints w !! p = Some x → ints w !! q = Some y → apart (abs x) (abs y).
Proof using Hw. intros ?????. destruct Hw as (_ & _ & _ & _ & Hap). by apply (Hap p q). Qed.

Lemma owns_nil : valid (mem_ w) nil_ ∧ ∀ p x, is_Some (V !! p) → ints w !! p = Some x → apart nil_ (abs x).
Proof using Hw.
  split; [unfold valid; simpl; pose proof (zlen_nonneg (mem_ w)); lia|]. intros p x [v Hv] Ex. destruct (owns_deref p v Hv) as (x' & E & _ & ((? & ? & ?) & _) & _). simplify_eq.
  unfold apart. simpl. lia.
Qed.
End operands.

Lemma shares_safe z x : shares z x → safe z x.
Proof. intros [[? _]|?]; [by left|by right]. Qed.

(** A number outside of the storage of [z] is the same after an operation on [z]. *)
Lemma inside_keeps m z m' r x v : inside m z m' r → is_nat m x v → apart z x → is_nat m' x v ∧ apart r x.
Proof.
  intros (_ & _ & Hp & Hl & Hk) Hx Ha. pose proof Hx as ((? & ? & ?) & _). unfold apart, placed in *.
  split; [|lia]. eapply is_nat_ext; [exact Hl|intros i Hi; apply Hk; lia|exact Hx].
Qed.

(** The result of an operation is stored: nobody else's number has changed. *)
Lemma owns_update w V z m' r n a : owns w V → z ≠ intOne → is_Some (ints w !! z) → words m' → is_nat m' r a → (n = true → 0 < a) →
  (∀ p x v, p ≠ z → is_Some (V !! p) → ints w !! p = Some x → is_nat (mem_ w) (abs x) v → is_nat m' (abs x) v ∧ apart r (abs x)) →
  owns (assign w z m' (mkInt n r)) (<[z := if n then - a else a]> V).
Proof.
  intros Hw Hz [zi Ezi] Hm' Hr Hn Hkeep. pose proof Hw as (Hm & H1 & H2 & Hval & Hap). destruct (nat_pos _ _ _ Hm' Hr) as [[Ha _] _].
  split; [done|]. split; [by rewrite lookup_insert_ne|]. split; [simpl; by rewrite list_lookup_insert_ne|]. split.
  - intros p v' [[<- <-]|[Hp Ep]]%lookup_insert_Some.
    + exists (mkInt n r). simpl. rewrite list_lookup_insert_eq by (by eapply lookup_lt_Some). split; [done|]. split; simpl.
      * destruct n; [rewrite Z.abs_opp|]; by rewrite Z.abs_eq.
      * destruct n; symmetry; [apply Z.ltb_lt; specialize (Hn eq_refl); lia|by apply Z.ltb_ge].
    + destruct (Hval p v' Ep) as (x & Ex & Hx & Hnx). exists x. simpl. rewrite list_lookup_insert_ne by done. split; [done|]. split; [|done].
      eapply (Hkeep p); [by apply not_eq_sym|by eexists|done|done].
  - intros p q x y Hpq [vp Hp] [vq Hq] Ex Ey. simpl in Ex, Ey. destruct (decide (p = z)) as [->|Hpz]; [|destruct (decide (q = z)) as [->|Hqz]].
    + rewrite list_lookup_insert_eq in Ex by (by eapply lookup_lt_Some). rewrite list_lookup_insert_ne in Ey by done. simplify_eq. simpl. rewrite lookup_insert_ne in Hq by done.
      destruct (Hval q vq Hq) as (y' & Ey' & Hy & _). simplify_eq. by eapply (Hkeep q).
    + rewrite list_lookup_insert_eq in Ey by (by eapply lookup_lt_Some). rewrite list_lookup_insert_ne in Ex by done. simplify_eq. simpl. rewrite lookup_insert_ne in Hp by done.
      destruct (Hval p vp Hp) as (x' & Ex' & Hx & _). simplify_eq. apply apart_sym. by eapply (Hkeep p).
    + rewrite list_lookup_insert_ne in Ex, Ey by done. rewrite lookup_insert_ne in Hp, Hq by done. by eapply (Hap p q).
Qed.

Lemma owns_assign w V z zi m' r n a : owns w V → z ≠ intOne → is_Some (V !! z) → ints w !! z = Some zi → inside (mem_ w) (abs zi) m' r → is_nat m' r a → (n = true → 0 < a) →
  owns (assign w z m' (mkInt n r)) (<[z := if n then - a else a]> V).
Proof.
  intros Hw Hz Hv Ezi Hi Hr Hn. apply owns_update; try done; [apply Hi|]. intros p x v Hp Hs Ex Hx. eapply inside_keeps; [exact Hi|exact Hx|].
  eapply (owns_apart w V Hw z p); done.
Qed.

Lemma nat_len_pos m x v : words m → is_nat m x v → (0 <? len x) = (0 <? v).
Proof.
  intros Hm Hx. destruct (nat_pos _ _ _ Hm Hx) as [Hb Hb']. destruct (Z.ltb_spec 0 (len x)) as [H|H].
  - specialize (Hb' H). pose proof (_B_pow (len x - 1) ltac:(lia)). symmetry. apply Z.ltb_lt. lia.
  - pose proof Hx as ((_ & ? & _) & _). rewrite (zero_nat _ _ _ Hx) by lia. done.
Qed.

(** ... with a sign that a zero does not have. *)
Lemma owns_signed w V z zi m' r n a : owns w V → z ≠ intOne → is_Some (V !! z) → ints w !! z = Some zi → inside (mem_ w) (abs zi) m' r → is_nat m' r a →
  owns (assign w z m' (mkInt ((0 <? len r) && n) r)) (<[z := if n then - a else a]> V).
Proof.
  intros Hw Hz Hv Ezi Hi Hr. pose proof Hi as (Hm' & _). destruct (nat_pos _ _ _ Hm' Hr) as [[Ha _] _]. rewrite (nat_len_pos _ _ _ Hm' Hr).
  assert ((if n then - a else a) = if (0 <? a) && n then - a else a) as -> by (destruct n, (Z.ltb_spec 0 a); simpl; lia).
  eapply owns_assign; try done. destruct n, (Z.ltb_spec 0 a); simpl; (done || lia).
Qed.

(** [new(Int)] is a zero nobody else has. *)
Lemma owns_alloc w V : owns w V → let '(w', p) := alloc w in owns w' (<[p := 0]> V) ∧ V !! p = None ∧ p ≠ intOne.
Proof.
  intros Hw. pose proof Hw as (Hm & H1 & H2 & Hval & Hap). unfold alloc. set (p := length (ints w)).
  assert (V !! p = None) as Hnone. { destruct (V !! p) as [v|] eqn:E; [|done]. destruct (Hval p v E) as (x & Ex & _). apply lookup_lt_Some in Ex. unfold p in Ex. lia. }
  assert (p ≠ intOne) as Hp1. { intros E. unfold p in E. apply lookup_lt_Some in H2. unfold intOne in *. lia. }
  assert (∀ q v, V !! q = Some v → ∃ x, ints w !! q = Some x ∧ (ints w ++ [mkInt false nil_]) !! q = Some x) as Hold.
  { intros q v Hq. destruct (Hval q v Hq) as (x & Ex & _). exists x. split; [done|]. by apply lookup_app_l_Some. }
  assert ((ints w ++ [mkInt false nil_]) !! p = Some (mkInt false nil_)) as Hnew by (unfold p; by rewrite lookup_app_r, Nat.sub_diag by lia).
  destruct (owns_nil w V Hw) as [Hn Hna]. split; [|done]. split; [done|]. split; [by rewrite lookup_insert_ne|]. split; [simpl; by apply lookup_app_l_Some|]. split.
  - intros q v [[<- <-]|[Hq Ev]]%lookup_insert_Some.
    + exists (mkInt false nil_). split; [done|]. split; [|done]. split; [done|]. split; [by apply num_0|]. simpl. lia.
    + destruct (Hval q v Ev) as (x & Ex & Hx). exists x. split; [by apply lookup_app_l_Some|done].
  - intros q q' x y Hqq [v Hq] [v' Hq'] Ex Ey. simpl in Ex, Ey. apply lookup_insert_Some in Hq as [[<- <-]|[Hqp Hq]]; apply lookup_insert_Some in Hq' as [[<- <-]|[Hqp' Hq']]; [done| | |].
    + destruct (Hold _ _ Hq') as (y' & ? & ?). simplify_eq. simpl. by eapply Hna.
    + destruct (Hold _ _ Hq) as (x' & ? & ?). simplify_eq. simpl. apply apart_sym. by eapply Hna.
    + destruct (Hold _ _ Hq) as (x' & ? & ?). destruct (Hold _ _ Hq') as (y' & ? & ?). simplify_eq. by eapply (Hap q q').
Qed.

(** Less can be claimed. *)
Lemma owns_sub w V V' : owns w V → V' !! intOne = Some 1 → (∀ p v, V' !! p = Some v → V !! p = Some v) → owns w V'.
Proof.
  intros (Hm & H1 & H2 & Hval & Hap) H1' Hsub. split; [done|]. split; [done|]. split; [done|]. split; [intros p v Hp; by apply Hval, Hsub|].
  intros p q x y Hpq [? Hp] [? Hq]. apply Hap; [done|by eexists; apply Hsub|by eexists; apply Hsub].
Qed.
Lemma owns_one w V : owns w V → V !! intOne = Some 1.
Proof. by intros (_ & ? & _). Qed.

End proofs.

(** The [Int] at a pointer that is owned, and its number and sign. *)
Ltac operand_of Hw p x E N S :=
  match goal with
  | H : ?V !! p = Some _ |- _ =>
    let Hd := fresh in destruct (owns_deref _ _ Hw p _ H) as (x & E & Hd & N & S); rewrite Hd, go_bind_ret; clear Hd
  end.

(** Lookups in the maps of values. *)
Ltac lookups := rewrite ?lookup_insert; repeat (case_decide; simplify_eq); try done; try lia.
Ltac owns_lookups H := eapply (owns_sub _ _ _ H); [lookups; try (eapply owns_one; eassumption)|intros ?p ?v; lookups; try congruence].

Section proofs.
Context `{M : Machine}.
Abbreviation words m := (Forall is_word m).

(** ** Reading and copying *)

Section reading.
Context (w : world) (V : gmap nat Z) (Hw : owns w V).

Lemma Sign_spec x v : V !! x = Some v → Sign w x = Ret (Z.sgn v).
Proof using Hw.
  intros Hx. unfold Sign. operand_of Hw x xi Exi Nx Sx. f_equal. pose proof (nat_len_pos _ _ _ (owns_words _ _ Hw) Nx) as Hl. pose proof Nx as ((_ & ? & _) & _).
  rewrite Sx. destruct (Z.eqb_spec (len (abs xi)) 0) as [E|E].
  - rewrite (proj2 (Z.ltb_ge _ _)) in Hl by lia. symmetry in Hl. apply Z.ltb_ge in Hl. assert (v = 0) as -> by lia. done.
  - rewrite (proj2 (Z.ltb_lt _ _)) in Hl by lia. symmetry in Hl. apply Z.ltb_lt in Hl. destruct (Z.ltb_spec v 0); [by rewrite Z.sgn_neg|by rewrite Z.sgn_pos by lia].
Qed.

Lemma Cmp_spec x y vx vy : V !! x = Some vx → V !! y = Some vy → Cmp w x y = Ret (match vx ?= vy with Lt => -1 | Eq => 0 | Gt => 1 end).
Proof using Hw.
  intros Hx Hy. unfold Cmp. operand_of Hw x xi Exi Nx Sx. operand_of Hw y yi Eyi Ny Sy. rewrite Sx, Sy, (cmp_spec _ _ _ _ _ (owns_words _ _ Hw) Nx Ny).
  destruct (Z.ltb_spec vx 0), (Z.ltb_spec vy 0); simpl; f_equal.
  - rewrite !Z.abs_neq, Z.compare_opp by lia. rewrite Z.compare_antisym. by destruct (vx ?= vy).
  - by rewrite (proj2 (Z.compare_lt_iff vx vy)) by lia.
  - by rewrite (proj2 (Z.compare_gt_iff vx vy)) by lia.
  - by rewrite !Z.abs_eq by lia.
Qed.

Lemma Set_spec z x vz vx : z ≠ intOne → V !! z = Some vz → V !! x = Some vx → Set_ w z x ⇓ λ w', owns w' (<[z := vx]> V).
Proof using Hw.
  intros Hz Hvz Hvx. unfold Set_. destruct (Nat.eqb_spec z x) as [->|Hzx]; [apply wp_ret; by rewrite insert_id|].
  operand_of Hw z zi Ezi Nz Sz. operand_of Hw x xi Exi Nx Sx. eapply wp_bind_mono; [apply set_spec; [by eapply owns_words|apply Nz|exact Nx]|].
  intros [m' r] [Hi Hr]. apply wp_ret. assert (vx = if neg xi then - Z.abs vx else Z.abs vx) as E by (rewrite Sx; destruct (Z.ltb_spec vx 0); lia).
  rewrite E at 1. eapply owns_assign; try done. rewrite Sx. intros ?%Z.ltb_lt. lia.
Qed.
End reading.

(** A change of the sign alone. *)
Lemma owns_neg w V z zi v n : owns w V → z ≠ intOne → V !! z = Some v → ints w !! z = Some zi → (n = true → v ≠ 0) →
  owns (assign w z (mem_ w) (mkInt n (abs zi))) (<[z := if n then - Z.abs v else Z.abs v]> V).
Proof.
  intros Hw Hz Hv Ezi Hn. destruct (owns_deref _ _ Hw z _ Hv) as (zi' & E & _ & Nz & _). simplify_eq.
  eapply owns_assign; try done; [apply inside_refl; [by eapply owns_words|apply Nz]|]. intros ?%Hn. lia.
Qed.

Lemma Abs_spec w V z x vz vx : owns w V → z ≠ intOne → V !! z = Some vz → V !! x = Some vx → Abs w z x ⇓ λ w', owns w' (<[z := Z.abs vx]> V).
Proof.
  intros Hw Hz Hvz Hvx. unfold Abs. eapply wp_bind_mono; [by eapply Set_spec|]. intros w1 Hw1. pose proof (lookup_insert_eq V z vx) as Hz1.
  operand_of Hw1 z zi Ezi Nz Sz. apply wp_ret. rewrite <- (insert_insert_eq V z (Z.abs vx) vx). by eapply (owns_neg w1 _ z zi vx false).
Qed.

Lemma Neg_spec w V z x vz vx : owns w V → z ≠ intOne → V !! z = Some vz → V !! x = Some vx → Neg w z x ⇓ λ w', owns w' (<[z := - vx]> V).
Proof.
  intros Hw Hz Hvz Hvx. unfold Neg. eapply wp_bind_mono; [by eapply Set_spec|]. intros w1 Hw1. pose proof (lookup_insert_eq V z vx) as Hz1.
  operand_of Hw1 z zi Ezi Nz Sz. apply wp_ret. rewrite (nat_len_pos _ _ _ (owns_words _ _ Hw1) Nz), Sz. rewrite <- (insert_insert_eq V z (- vx) vx).
  assert (- vx = if (0 <? Z.abs vx) && negb (vx <? 0) then - Z.abs vx else Z.abs vx) as E by (destruct (Z.ltb_spec 0 (Z.abs vx)), (Z.ltb_spec vx 0); simpl; lia).
  rewrite E at 1. eapply owns_neg; try done. intros [?%Z.ltb_lt _]%andb_true_iff. lia.
Qed.

(** ** Setting and arithmetic *)

Section arithmetic.
Context (w : world) (V : gmap nat Z) (Hw : owns w V) (z : ptr) (vz : Z) (Hz : z ≠ intOne) (Hvz : V !! z = Some vz).

Lemma SetUint64_spec x : 0 <= x < 2 ^ 64 → SetUint64 w z x ⇓ λ w', owns w' (<[z := x]> V).
Proof.
  intros Hx. unfold SetUint64. operand_of Hw z zi Ezi Nz Sz. eapply wp_bind_mono; [apply setUint64_spec; [by eapply owns_words|apply Nz|done]|].
  intros [m' r] [Hi Hr]. apply wp_ret. by apply (owns_assign w V z zi m' r false x).
Qed.

Lemma SetInt64_spec x : - 2 ^ 63 <= x < 2 ^ 63 → SetInt64 w z x ⇓ λ w', owns w' (<[z := x]> V).
Proof.
  intros Hx. unfold SetInt64.
  assert ((if x <? 0 then (true, i64 (- x)) else (false, x)) = (x <? 0, if x <? 0 then i64 (- x) else x)) as -> by (by destruct (x <? 0)).
  assert (u64 (if x <? 0 then i64 (- x) else x) = Z.abs x) as ->.
  { destruct (Z.ltb_spec x 0); [|rewrite wrap_small, Z.abs_eq by lia; done]. destruct (decide (x = - 2 ^ 63)) as [->|]; [by vm_compute|].
    rewrite swrap_small, wrap_small, Z.abs_neq by lia. done. }
  operand_of Hw z zi Ezi Nz Sz. eapply wp_bind_mono; [apply setUint64_spec; [by eapply owns_words|apply Nz|lia]|].
  intros [m' r] [Hi Hr]. apply wp_ret. assert (x = if x <? 0 then - Z.abs x else Z.abs x) as E by (destruct (Z.ltb_spec x 0); lia). rewrite E at 2.
  eapply owns_assign; try done. intros ?%Z.ltb_lt. lia.
Qed.

Context (x y : ptr) (vx vy : Z) (Hvx : V !! x = Some vx) (Hvy : V !! y = Some vy).

Lemma add_abs_spec zi xi yi n : words (mem_ w) → valid (mem_ w) zi → is_nat (mem_ w) xi (Z.abs vx) → is_nat (mem_ w) yi (Z.abs vy) → safe zi xi → safe zi yi →
  add_abs (mem_ w) zi xi yi n ⇓ λ '(m', r, n'), inside (mem_ w) zi m' r ∧ n' = n ∧ is_nat m' r (Z.abs vx + Z.abs vy).
Proof. intros. unfold add_abs. eapply wp_bind_mono; [by apply add_spec|]. intros [m' r] [Hi Hr]. by apply wp_ret. Qed.

Lemma sub_abs_spec zi xi yi n : words (mem_ w) → valid (mem_ w) zi → is_nat (mem_ w) xi (Z.abs vx) → is_nat (mem_ w) yi (Z.abs vy) → safe zi xi → safe zi yi →
  sub_abs (mem_ w) zi xi yi n ⇓ λ '(m', r, n'), inside (mem_ w) zi m' r ∧ n' = (if Z.abs vx <? Z.abs vy then negb n else n) ∧ is_nat m' r (Z.abs (Z.abs vx - Z.abs vy)).
Proof.
  intros Hm Hv Hx Hy Hsx Hsy. unfold sub_abs. rewrite (cmp_spec _ _ _ _ _ Hm Hx Hy), go_bind_ret.
  destruct (Z.compare_spec (Z.abs vx) (Z.abs vy)) as [E|E|E]; simpl; [rewrite (proj2 (Z.ltb_ge _ _)) by lia|rewrite (proj2 (Z.ltb_lt _ _)) by lia|rewrite (proj2 (Z.ltb_ge _ _)) by lia].
  all: eapply wp_bind_mono; [apply sub_spec; try done; lia|]; intros [m' r] [Hi Hr]; apply wp_ret; split; [done|]; split; [done|].
  - by rewrite Z.abs_eq by lia. - rewrite Z.abs_neq by lia. by replace (- (Z.abs vx - Z.abs vy)) with (Z.abs vy - Z.abs vx) by lia. - by rewrite Z.abs_eq by lia.
Qed.

Lemma owns_some p v : V !! p = Some v → is_Some (V !! p).
Proof. intros ->. by eexists. Qed.

(** Sums and differences: the sign of the sum of two numbers of the same sign is theirs. *)
(** The sign [nx] of [x] is anything if [x] is zero. *)
Lemma sum_spec (same nx : bool) vy' : vy' = vy ∨ vy' = - vy → nx = (vx <? 0) ∨ vx = 0 → same = Bool.eqb nx (vy' <? 0) ∨ vy = 0 →
  ∀ zi xi yi, is_nat (mem_ w) xi (Z.abs vx) → is_nat (mem_ w) yi (Z.abs vy) → valid (mem_ w) (abs zi) → safe (abs zi) xi → safe (abs zi) yi → ints w !! z = Some zi →
  ('(m, a, n) ← (if same then add_abs else sub_abs) (mem_ w) (abs zi) xi yi nx; Ret (assign w z m (mkInt ((0 <? len a) && n) a))) ⇓ λ w', owns w' (<[z := vx + vy']> V).
Proof.
  intros Hvy' Hnx Hsame zi xi yi Nx Ny Hvzi Hsx Hsy Ezi. pose proof (owns_words w V Hw) as Hm. assert (is_Some (V !! z)) as Hsz by (by eexists).
  assert (nx = true → vx <= 0) as Ht by (intros ->; destruct Hnx as [Hn|]; [symmetry in Hn; apply Z.ltb_lt in Hn|]; lia).
  assert (nx = false → 0 <= vx) as Hf by (intros ->; destruct Hnx as [Hn|]; [symmetry in Hn; apply Z.ltb_ge in Hn|]; lia).
  destruct same.
  - eapply wp_bind_mono; [by apply add_abs_spec|]. intros [[m' r] n] (Hi & -> & Hr). apply wp_ret.
    assert (vx + vy' = if nx then - (Z.abs vx + Z.abs vy) else Z.abs vx + Z.abs vy) as ->; [|by eapply owns_signed].
    destruct Hsame as [Hs| ->]; [symmetry in Hs; apply eqb_prop in Hs; destruct nx, (Z.ltb_spec vy' 0); (done || lia)|destruct nx; lia].
  - eapply wp_bind_mono; [by apply sub_abs_spec|]. intros [[m' r] n] (Hi & -> & Hr). apply wp_ret.
    assert (vx + vy' = if (if Z.abs vx <? Z.abs vy then negb nx else nx) then - Z.abs (Z.abs vx - Z.abs vy) else Z.abs (Z.abs vx - Z.abs vy)) as ->; [|by eapply owns_signed].
    destruct (Z.ltb_spec (Z.abs vx) (Z.abs vy)); destruct Hsame as [Hs| ->]; destruct nx; try lia; destruct (Z.ltb_spec vy' 0); simpl in *; try done; lia.
Qed.

Lemma Int_Add_spec : Add w z x y ⇓ λ w', owns w' (<[z := vx + vy]> V).
Proof.
  unfold Add. operand_of Hw z zi Ezi Nz Sz. operand_of Hw x xi Exi Nx Sx. operand_of Hw y yi Eyi Ny Sy. pose proof (owns_words w V Hw) as Hm.
  pose proof (owns_shares w V Hw z x zi xi (owns_some _ _ Hvz) (owns_some _ _ Hvx) Ezi Exi) as Hzx. pose proof (owns_shares w V Hw z y zi yi (owns_some _ _ Hvz) (owns_some _ _ Hvy) Ezi Eyi) as Hzy.
  rewrite Sx, Sy. eapply sum_spec; [by left|by left|by left|exact Nx|exact Ny|apply Nz|by apply shares_safe|by apply shares_safe|exact Ezi].
Qed.

Lemma Int_Sub_spec : Sub w z x y ⇓ λ w', owns w' (<[z := vx - vy]> V).
Proof.
  unfold Sub. operand_of Hw z zi Ezi Nz Sz. operand_of Hw x xi Exi Nx Sx. operand_of Hw y yi Eyi Ny Sy. pose proof (owns_words w V Hw) as Hm.
  pose proof (owns_shares w V Hw z x zi xi (owns_some _ _ Hvz) (owns_some _ _ Hvx) Ezi Exi) as Hzx. pose proof (owns_shares w V Hw z y zi yi (owns_some _ _ Hvz) (owns_some _ _ Hvy) Ezi Eyi) as Hzy.
  rewrite Sx, Sy. rewrite <- Z.add_opp_r. eapply sum_spec; [by right|by left| |exact Nx|exact Ny|apply Nz|by apply shares_safe|by apply shares_safe|exact Ezi].
  destruct (decide (vy = 0)) as [->|]; [by right|left]. destruct (Z.ltb_spec vx 0), (Z.ltb_spec vy 0), (Z.ltb_spec (- vy) 0); simpl; (done || lia).
Qed.

Lemma Mul_spec : Mul w z x y ⇓ λ w', owns w' (<[z := vx * vy]> V).
Proof.
  unfold Mul. operand_of Hw z zi Ezi Nz Sz. operand_of Hw x xi Exi Nx Sx. operand_of Hw y yi Eyi Ny Sy. pose proof (owns_words w V Hw) as Hm.
  pose proof (owns_shares w V Hw z x zi xi (owns_some _ _ Hvz) (owns_some _ _ Hvx) Ezi Exi) as Hzx. pose proof (owns_shares w V Hw z y zi yi (owns_some _ _ Hvz) (owns_some _ _ Hvy) Ezi Eyi) as Hzy.
  eapply wp_bind_mono; [by eapply mul_spec; [|apply Nz|exact Nx|exact Ny| |]|]. intros [m' r] [Hi Hr]. apply wp_ret. rewrite Sx, Sy.
  assert (vx * vy = if negb (Bool.eqb (vx <? 0) (vy <? 0)) then - (Z.abs vx * Z.abs vy) else Z.abs vx * Z.abs vy) as ->; [|by eapply owns_signed].
  destruct (Z.ltb_spec vx 0), (Z.ltb_spec vy 0); simpl; lia.
Qed.
End arithmetic.

(** ** Division *)

Lemma laid_inside1 m z m' q r : laid m z nil_ m' q r → inside m z m' q.
Proof. intros (Hw & Hq & _ & Hp & _ & _ & Hl & Hk). split; [done|]. split; [done|]. split; [done|]. split; [done|]. intros i Hi Hn. apply Hk; [done|done|simpl; lia]. Qed.
Lemma laid_inside2 m z m' q r : laid m nil_ z m' q r → inside m z m' r.
Proof. intros (Hw & _ & Hr & _ & Hp & _ & Hl & Hk). split; [done|]. split; [done|]. split; [done|]. split; [done|]. intros i Hi Hn. apply Hk; [done|simpl; lia|done]. Qed.

Lemma laid_keeps m z z2 m' q r x v : laid m z z2 m' q r → is_nat m x v → apart z x → apart z2 x → is_nat m' x v ∧ apart q x ∧ apart r x.
Proof.
  intros (_ & _ & _ & Hp & Hp2 & _ & Hl & Hk) Hx Ha Ha2. pose proof Hx as ((? & ? & ?) & _). unfold apart, placed in *.
  split; [|lia]. eapply is_nat_ext; [exact Hl|intros i Hi; apply Hk; lia|exact Hx].
Qed.
Lemma and_pos a b : (0 <? a) && b = true → 0 < a.
Proof. by intros [H%Z.ltb_lt _]%andb_true_iff. Qed.

Lemma quot_sign a b : b ≠ 0 → Z.quot a b = if negb (Bool.eqb (a <? 0) (b <? 0)) then - (Z.abs a / Z.abs b) else Z.abs a / Z.abs b.
Proof.
  intros Hb. rewrite Z.quot_div by done. destruct (Z.ltb_spec a 0), (Z.ltb_spec b 0); simpl; rewrite ?(Z.sgn_neg a), ?(Z.sgn_neg b), ?(Z.sgn_pos b) by lia; try lia.
  all: destruct (decide (a = 0)) as [->|]; [by rewrite ?Zdiv_0_l|rewrite Z.sgn_pos by lia; lia].
Qed.
Lemma rem_sign a b : b ≠ 0 → Z.rem a b = if a <? 0 then - (Z.abs a mod Z.abs b) else Z.abs a mod Z.abs b.
Proof.
  intros Hb. rewrite Z.rem_mod by done. destruct (Z.ltb_spec a 0); [rewrite Z.sgn_neg by lia; lia|]. destruct (decide (a = 0)) as [->|]; [by rewrite Zmod_0_l|]. rewrite Z.sgn_pos by lia. lia.
Qed.

(** The operands of a division, as [div] wants them. *)
Lemma owns_div w V z z2 x y xi yi vx vy : owns w V → V !! x = Some vx → V !! y = Some vy → ints w !! x = Some xi → ints w !! y = Some yi →
  is_nat (mem_ w) (abs xi) (Z.abs vx) → is_nat (mem_ w) (abs yi) (Z.abs vy) →
  valid (mem_ w) z → valid (mem_ w) z2 → apart z z2 → shares z (abs xi) → shares z (abs yi) → shares z2 (abs xi) → shares z2 (abs yi) →
  if decide (vy = 0) then div (mem_ w) z z2 (abs xi) (abs yi) = Panic "division by zero"
  else div (mem_ w) z z2 (abs xi) (abs yi) ⇓ λ '(m', q, r), divided (mem_ w) z z2 (Z.abs vx / Z.abs vy) (Z.abs vx mod Z.abs vy) m' q r.
Proof.
  intros Hw Hx Hy Ex Ey Nx Ny Hz Hz2 Ha H1 H2 H3 H4. pose proof (nat_div_spec (mem_ w) z z2 (abs xi) (abs yi) _ _ (owns_words _ _ Hw) Hz Hz2 Nx Ny H1 H2 H3 H4 Ha) as H.
  destruct (decide (vy = 0)) as [E|E]; [by rewrite decide_True in H by lia|by rewrite decide_False in H by lia].
Qed.

Section division.
Context (w : world) (V : gmap nat Z) (Hw : owns w V) (z : ptr) (vz : Z) (Hz : z ≠ intOne) (Hvz : V !! z = Some vz) (x y : ptr) (vx vy : Z) (Hvx : V !! x = Some vx) (Hvy : V !! y = Some vy).

Lemma Quo_spec : if decide (vy = 0) then Quo w z x y = Panic "division by zero" else Quo w z x y ⇓ λ w', owns w' (<[z := Z.quot vx vy]> V).
Proof.
  unfold Quo. operand_of Hw z zi Ezi Nz Sz. operand_of Hw x xi Exi Nx Sx. operand_of Hw y yi Eyi Ny Sy. destruct (owns_nil w V Hw) as [Hn Hna].
  pose proof (owns_shares w V Hw z x zi xi (owns_some _ _ _ Hvz) (owns_some _ _ _ Hvx) Ezi Exi) as Hzx. pose proof (owns_shares w V Hw z y zi yi (owns_some _ _ _ Hvz) (owns_some _ _ _ Hvy) Ezi Eyi) as Hzy.
  pose proof (Hna _ _ (owns_some _ _ _ Hvx) Exi) as Hnx. pose proof (Hna _ _ (owns_some _ _ _ Hvy) Eyi) as Hny. pose proof (Hna _ _ (owns_some _ _ _ Hvz) Ezi) as Hnz.
  pose proof (owns_div w V (abs zi) nil_ x y xi yi vx vy Hw Hvx Hvy Exi Eyi Nx Ny (proj1 Nz) Hn (apart_sym _ _ Hnz) Hzx Hzy (or_intror Hnx) (or_intror Hny)) as Hd.
  revert Hd. destruct (decide (vy = 0)) as [E|E]; intros Hd; [by rewrite Hd|]. eapply wp_bind_mono; [exact Hd|]. intros [[m' q] r] (Hl & Hq & _). apply wp_ret. rewrite Sx, Sy, quot_sign by done.
  eapply owns_signed; try done; by eapply laid_inside1.
Qed.

Lemma Rem_spec : if decide (vy = 0) then Rem w z x y = Panic "division by zero" else Rem w z x y ⇓ λ w', owns w' (<[z := Z.rem vx vy]> V).
Proof.
  unfold Rem. operand_of Hw z zi Ezi Nz Sz. operand_of Hw x xi Exi Nx Sx. operand_of Hw y yi Eyi Ny Sy. destruct (owns_nil w V Hw) as [Hn Hna].
  pose proof (owns_shares w V Hw z x zi xi (owns_some _ _ _ Hvz) (owns_some _ _ _ Hvx) Ezi Exi) as Hzx. pose proof (owns_shares w V Hw z y zi yi (owns_some _ _ _ Hvz) (owns_some _ _ _ Hvy) Ezi Eyi) as Hzy.
  pose proof (Hna _ _ (owns_some _ _ _ Hvx) Exi) as Hnx. pose proof (Hna _ _ (owns_some _ _ _ Hvy) Eyi) as Hny. pose proof (Hna _ _ (owns_some _ _ _ Hvz) Ezi) as Hnz.
  pose proof (owns_div w V nil_ (abs zi) x y xi yi vx vy Hw Hvx Hvy Exi Eyi Nx Ny Hn (proj1 Nz) Hnz (or_intror Hnx) (or_intror Hny) Hzx Hzy) as Hd.
  revert Hd. destruct (decide (vy = 0)) as [E|E]; intros Hd; [by rewrite Hd|]. eapply wp_bind_mono; [exact Hd|]. intros [[m' q] r] (Hl & _ & Hr). apply wp_ret. rewrite Sx, rem_sign by done.
  eapply owns_signed; try done; by eapply laid_inside2.
Qed.

Context (r : ptr) (vr : Z) (Hr : r ≠ intOne) (Hvr : V !! r = Some vr) (Hzr : z ≠ r).

Lemma owns_drop p : p ≠ intOne → owns w (delete p V).
Proof.
  clear -Hw. intros Hp. destruct Hw as (Hm & H1 & H2 & Hval & Hap). split; [done|]. split; [by rewrite lookup_delete_ne|]. split; [done|]. split.
  - intros q v Hq. apply Hval. by apply lookup_delete_Some in Hq as [_ ?].
  - intros q q' x' y' Hqq [v Hq] [v' Hq'] Ex Ey. apply lookup_delete_Some in Hq as [_ ?]. apply lookup_delete_Some in Hq' as [_ ?]. by eapply (Hap q q').
Qed.

Lemma QuoRem_spec : if decide (vy = 0) then QuoRem w z x y r = Panic "division by zero"
  else QuoRem w z x y r ⇓ λ w', owns w' (<[r := Z.rem vx vy]> (<[z := Z.quot vx vy]> V)).
Proof.
  unfold QuoRem. operand_of Hw z zi Ezi Nz Sz. operand_of Hw r ri Eri Nr Sr. operand_of Hw x xi Exi Nx Sx. operand_of Hw y yi Eyi Ny Sy.
  pose proof (owns_shares w V Hw z x zi xi (owns_some _ _ _ Hvz) (owns_some _ _ _ Hvx) Ezi Exi) as Hzx. pose proof (owns_shares w V Hw z y zi yi (owns_some _ _ _ Hvz) (owns_some _ _ _ Hvy) Ezi Eyi) as Hzy.
  pose proof (owns_shares w V Hw r x ri xi (owns_some _ _ _ Hvr) (owns_some _ _ _ Hvx) Eri Exi) as Hrx. pose proof (owns_shares w V Hw r y ri yi (owns_some _ _ _ Hvr) (owns_some _ _ _ Hvy) Eri Eyi) as Hry.
  pose proof (owns_apart w V Hw z r zi ri Hzr (owns_some _ _ _ Hvz) (owns_some _ _ _ Hvr) Ezi Eri) as Ha.
  pose proof (owns_div w V (abs zi) (abs ri) x y xi yi vx vy Hw Hvx Hvy Exi Eyi Nx Ny (proj1 Nz) (proj1 Nr) Ha Hzx Hzy Hrx Hry) as Hd.
  revert Hd. destruct (decide (vy = 0)) as [E|E]; intros Hd; [by rewrite Hd|]. eapply wp_bind_mono; [exact Hd|]. intros [[m' q'] r'] (Hl & Hq' & Hr'). apply wp_ret. rewrite Sx, Sy.
  pose proof Hl as (Hm' & Hvq & Hvr' & Hpq & Hpr & Haqr & Hlm & Hk).
  assert (∀ p x v, p ≠ z → p ≠ r → is_Some (V !! p) → ints w !! p = Some x → is_nat (mem_ w) (abs x) v → is_nat m' (abs x) v ∧ apart q' (abs x) ∧ apart r' (abs x)) as Hkeep.
  { intros p xp v Hpz Hpr0 Hs Exp Np. pose proof (owns_apart w V Hw z p zi xp (not_eq_sym Hpz) (owns_some _ _ _ Hvz) Hs Ezi Exp) as Hap1.
    pose proof (owns_apart w V Hw r p ri xp (not_eq_sym Hpr0) (owns_some _ _ _ Hvr) Hs Eri Exp) as Hap2. by eapply laid_keeps. }
  assert ((0 <? len q') = (0 <? Z.abs vx / Z.abs vy) ∧ (0 <? len r') = (0 <? Z.abs vx mod Z.abs vy)) as [-> ->] by (by split; eapply nat_len_pos).
  set (nq := (0 <? _) && _). set (nr := (0 <? Z.abs vx mod Z.abs vy) && _).
  destruct (nat_pos _ _ _ Hm' Hq') as [[Hq0 _] _]. destruct (nat_pos _ _ _ Hm' Hr') as [[Hr0 _] _].
  assert (Z.quot vx vy = if nq then - (Z.abs vx / Z.abs vy) else Z.abs vx / Z.abs vy) as ->.
  { rewrite quot_sign by done. unfold nq. destruct (negb _), (Z.ltb_spec 0 (Z.abs vx / Z.abs vy)); simpl; lia. }
  assert (Z.rem vx vy = if nr then - (Z.abs vx mod Z.abs vy) else Z.abs vx mod Z.abs vy) as ->.
  { rewrite rem_sign by done. unfold nr. destruct (vx <? 0), (Z.ltb_spec 0 (Z.abs vx mod Z.abs vy)); simpl; lia. }
  rewrite <- (insert_delete_eq (<[z := _]> V)), delete_insert_ne by done.
  assert (owns (assign w z m' (mkInt nq q')) (<[z := if nq then - (Z.abs vx / Z.abs vy) else Z.abs vx / Z.abs vy]> (delete r V))) as Hw1.
  { apply owns_update; try done; [by apply owns_drop|exact (and_pos _ _)|].
    intros p xp v Hpz [v' [Hpr0 Hs]%lookup_delete_Some] Exp Np. edestruct (Hkeep p xp v) as (? & ? & ?); done. }
  apply owns_update; try done.
  - simpl. rewrite list_lookup_insert_ne by done. by eexists.
  - exact (and_pos _ _).
  - intros p xp v Hpr0 [v' Hs] Exp Np. simpl in Exp, Np. split; [done|]. apply lookup_insert_Some in Hs as [[<- _]|[Hpz [_ Hs]%lookup_delete_Some]].
    + rewrite list_lookup_insert_eq in Exp by (by eapply lookup_lt_Some). simplify_eq. simpl. by apply apart_sym.
    + rewrite list_lookup_insert_ne in Exp by done. destruct (owns_deref w V Hw p v' Hs) as (xp' & Exp' & _ & Np' & _). simplify_eq.
      edestruct (Hkeep p xp) as (_ & _ & ?); done.
Qed.
End division.

Lemma euclid a b : b ≠ 0 → (if Z.rem a b <? 0 then if b <? 0 then Z.quot a b + 1 else Z.quot a b - 1 else Z.quot a b) = Z.sgn b * (a / Z.abs b) ∧
  (if Z.rem a b <? 0 then Z.rem a b + Z.abs b else Z.rem a b) = a mod Z.abs b.
Proof.
  intros Hb. pose proof (Z.quot_rem' a b) as E. pose proof (Z.rem_bound_abs a b Hb) as Hr. set (q := Z.quot a b) in *. set (r := Z.rem a b) in *.
  set (r' := if r <? 0 then r + Z.abs b else r). assert (0 <= r' < Z.abs b) as Hr' by (unfold r'; destruct (Z.ltb_spec r 0); lia).
  assert (a = Z.abs b * (Z.sgn b * q - (if r <? 0 then 1 else 0)) + r') as E'.
  { unfold r'. assert (Z.abs b * (Z.sgn b * q) = b * q) as Es by (rewrite Z.mul_assoc, Z.mul_comm, <- Z.sgn_abs; lia). destruct (Z.ltb_spec r 0); lia. }
  rewrite <- (Z.div_unique a (Z.abs b) (Z.sgn b * q - (if r <? 0 then 1 else 0)) r') by lia.
  rewrite <- (Z.mod_unique a (Z.abs b) (Z.sgn b * q - (if r <? 0 then 1 else 0)) r') by lia. split; [|done].
  destruct (Z.ltb_spec b 0); [rewrite Z.sgn_neg by done|rewrite Z.sgn_pos by lia]; destruct (r <? 0); lia.
Qed.

Section euclidean.
Context (w : world) (V : gmap nat Z) (Hw : owns w V) (z : ptr) (vz : Z) (Hz : z ≠ intOne) (Hvz : V !! z = Some vz) (x y : ptr) (vx vy : Z) (Hvx : V !! x = Some vx) (Hvy : V !! y = Some vy).

Lemma Div_spec : if decide (vy = 0) then Div w z x y = Panic "division by zero" else Div w z x y ⇓ λ w', owns w' (<[z := Z.sgn vy * (vx / Z.abs vy)]> V).
Proof.
  unfold Div. operand_of Hw y yi Eyi Ny Sy. pose proof (owns_alloc w V Hw) as Ha. destruct (alloc w) as [w1 r]. destruct Ha as (Hw1 & Hnone & Hr).
  assert (∀ p v, V !! p = Some v → <[r := 0]> V !! p = Some v) as Hup by (intros p v Hp; rewrite lookup_insert_ne; [done|by intros ->; simplify_eq]).
  assert (z ≠ r) as Hzr by (intros ->; simplify_eq).
  pose proof (QuoRem_spec w1 _ Hw1 z vz Hz (Hup _ _ Hvz) x y vx vy (Hup _ _ Hvx) (Hup _ _ Hvy) r 0 Hr (lookup_insert_eq _ _ _) Hzr) as Hqr.
  revert Hqr. destruct (decide (vy = 0)) as [|Hvy0]; intros Hqr; [by rewrite Hqr|]. eapply wp_bind_mono; [exact Hqr|]. intros w2 Hw2. destruct (euclid vx vy Hvy0) as [Eq _]. rewrite <- Eq. clear Hqr.
  set (V2 := <[r := _]> (<[z := _]> _)) in Hw2. assert (V2 !! r = Some (Z.rem vx vy)) as Hr2 by (apply lookup_insert_eq). operand_of Hw2 r ri Eri Nr Sr. rewrite Sr, Sy.
  assert (V2 !! z = Some (Z.quot vx vy)) as Hz2 by (unfold V2; by rewrite lookup_insert_ne, lookup_insert_eq by done).
  assert (V2 !! intOne = Some 1) as H12 by exact (owns_one _ _ Hw2).
  destruct (Z.rem vx vy <? 0); [destruct (vy <? 0)|].
  - eapply wp_mono; [by apply (Int_Add_spec w2 V2 Hw2 z _ Hz Hz2 z intOne _ _ Hz2 H12)|]. intros w3 Hw3. unfold V2 in Hw3. owns_lookups Hw3.
  - eapply wp_mono; [by apply (Int_Sub_spec w2 V2 Hw2 z _ Hz Hz2 z intOne _ _ Hz2 H12)|]. intros w3 Hw3. unfold V2 in Hw3. owns_lookups Hw3.
  - apply wp_ret. unfold V2 in Hw2. owns_lookups Hw2.
Qed.

Lemma save_spec : save w z y ⇓ λ '(w', y0), ∃ V', owns w' V' ∧ (∀ p v, V !! p = Some v → V' !! p = Some v) ∧ V' !! y0 = Some vy ∧ y0 ≠ z ∧ (y0 = y ∨ V !! y0 = None).
Proof.
  unfold save. operand_of Hw z zi Ezi Nz Sz. operand_of Hw y yi Eyi Ny Sy. destruct ((z =? y)%nat || alias (abs zi) (abs yi)) eqn:E.
  - pose proof (owns_alloc w V Hw) as Ha. destruct (alloc w) as [w1 y0]. destruct Ha as (Hw1 & Hnone & Hy0).
    assert (∀ p v, V !! p = Some v → <[y0 := 0]> V !! p = Some v) as Hup by (intros p v Hp; rewrite lookup_insert_ne; [done|by intros ->; simplify_eq]).
    eapply wp_bind_mono; [by apply (Set_spec w1 _ Hw1 y0 y 0 vy Hy0 (lookup_insert_eq _ _ _) (Hup _ _ Hvy))|]. intros w2 Hw2. apply wp_ret.
    exists (<[y0 := vy]> (<[y0 := 0]> V)). split; [done|]. split; [intros p v Hp; rewrite lookup_insert_ne; [by apply Hup|by intros ->; simplify_eq]|].
    split; [apply lookup_insert_eq|]. split; [by intros ->; simplify_eq|by right].
  - apply wp_ret. exists V. split; [done|]. split; [done|]. split; [done|]. apply orb_false_iff in E as [E%Nat.eqb_neq _]. split; [by apply not_eq_sym|by left].
Qed.

Lemma Mod_spec : if decide (vy = 0) then Mod w z x y = Panic "division by zero" else Mod w z x y ⇓ λ w', owns w' (<[z := vx mod Z.abs vy]> V).
Proof.
  unfold Mod. pose proof save_spec as Hs. apply wp_ex in Hs as ([w1 y0] & -> & V1 & Hw1 & Hup1 & Hy0 & Hy0z & _). rewrite go_bind_ret.
  pose proof (owns_alloc w1 V1 Hw1) as Ha. destruct (alloc w1) as [w2 q]. destruct Ha as (Hw2 & Hnone & Hq). set (V2 := <[q := 0]> V1) in *.
  assert (∀ p v, V1 !! p = Some v → V2 !! p = Some v ∧ p ≠ q) as Hup2 by (intros p v Hp; assert (p ≠ q) by (by intros ->; simplify_eq); unfold V2; by rewrite lookup_insert_ne).
  assert (∀ p v, V !! p = Some v → V2 !! p = Some v ∧ p ≠ q) as Hup by (intros p v Hp; by apply Hup2, Hup1).
  destruct (Hup _ _ Hvz) as [Hz2 Hzq]. destruct (Hup _ _ Hvx) as [Hx2 _]. destruct (Hup _ _ Hvy) as [Hy2 _]. destruct (Hup2 _ _ Hy0) as [Hy02 Hy0q].
  pose proof (QuoRem_spec w2 V2 Hw2 q 0 Hq (lookup_insert_eq _ _ _) x y vx vy Hx2 Hy2 z vz Hz Hz2 (not_eq_sym Hzq)) as Hqr. revert Hqr.
  destruct (decide (vy = 0)) as [|Hvy0]; intros Hqr; [by rewrite Hqr|]. eapply wp_bind_mono; [exact Hqr|]. intros w3 Hw3. clear Hqr. destruct (euclid vx vy Hvy0) as [_ Er]. rewrite <- Er.
  set (V3 := <[z := _]> (<[q := _]> _)) in Hw3. assert (V3 !! z = Some (Z.rem vx vy)) as Hz3 by (apply lookup_insert_eq).
  assert (V3 !! y0 = Some vy) as Hy03 by (unfold V3; by rewrite !lookup_insert_ne). operand_of Hw3 z zi Ezi Nz Sz. rewrite Sz.
  assert (∀ w' v, owns w' (<[z := v]> V3) → owns w' (<[z := v]> V)) as Hfin.
  { intros w' v Hw'. eapply (owns_sub _ _ _ Hw'); [lookups; eapply owns_one; eassumption|]. intros p v' Hp. unfold V3. revert Hp. rewrite !lookup_insert. case_decide; [done|]. intros Hp.
    destruct (Hup _ _ Hp). by rewrite !decide_False. }
  destruct (Z.rem vx vy <? 0).
  - operand_of Hw3 y0 yi Eyi Ny Sy. rewrite Sy. destruct (Z.ltb_spec vy 0).
    + rewrite Z.abs_neq, Z.add_opp_r by lia. eapply wp_mono; [by apply (Int_Sub_spec w3 V3 Hw3 z _ Hz Hz3 z y0 _ _ Hz3 Hy03)|]. auto.
    + rewrite Z.abs_eq by lia. eapply wp_mono; [by apply (Int_Add_spec w3 V3 Hw3 z _ Hz Hz3 z y0 _ _ Hz3 Hy03)|]. auto.
  - apply wp_ret. apply Hfin. unfold V3. rewrite insert_insert_eq. exact Hw3.
Qed.

Lemma DivMod_spec m vm : m ≠ intOne → V !! m = Some vm → z ≠ m → m ≠ y →
  if decide (vy = 0) then DivMod w z x y m = Panic "division by zero"
  else DivMod w z x y m ⇓ λ w', owns w' (<[m := vx mod Z.abs vy]> (<[z := Z.sgn vy * (vx / Z.abs vy)]> V)).
Proof.
  intros Hm1 Hvm Hzm Hmy. unfold DivMod. pose proof save_spec as Hs. apply wp_ex in Hs as ([w1 y0] & -> & V1 & Hw1 & Hup & Hy0 & Hy0z & Hy0y). rewrite go_bind_ret.
  assert (y0 ≠ m) as Hy0m by (intros ->; destruct Hy0y; [done|simplify_eq]).
  pose proof (QuoRem_spec w1 V1 Hw1 z vz Hz (Hup _ _ Hvz) x y vx vy (Hup _ _ Hvx) (Hup _ _ Hvy) m vm Hm1 (Hup _ _ Hvm) Hzm) as Hqr. revert Hqr.
  destruct (decide (vy = 0)) as [|Hvy0]; intros Hqr; [by rewrite Hqr|]. eapply wp_bind_mono; [exact Hqr|]. intros w3 Hw3. clear Hqr. destruct (euclid vx vy Hvy0) as [Eq Er]. rewrite <- Eq, <- Er.
  set (V3 := <[m := _]> (<[z := _]> _)) in Hw3. assert (V3 !! m = Some (Z.rem vx vy)) as Hm3 by (apply lookup_insert_eq).
  assert (V3 !! z = Some (Z.quot vx vy)) as Hz3 by (unfold V3; by rewrite lookup_insert_ne, lookup_insert_eq).
  assert (V3 !! y0 = Some vy) as Hy03 by (unfold V3; by rewrite !lookup_insert_ne). pose proof (owns_one _ _ Hw3) as H13. operand_of Hw3 m mi Emi Nm Sm. rewrite Sm.
  assert (∀ w' v v', owns w' (<[m := v]> (<[z := v']> V3)) → owns w' (<[m := v]> (<[z := v']> V))) as Hfin.
  { intros w' v v' Hw'. eapply (owns_sub _ _ _ Hw'); [lookups; eapply owns_one; eassumption|]. intros p v'' Hp. unfold V3. revert Hp. rewrite !lookup_insert. repeat case_decide; try done. intros Hp. by apply Hup. }
  destruct (Z.rem vx vy <? 0).
  - operand_of Hw3 y0 yi Eyi Ny Sy. rewrite Sy. destruct (Z.ltb_spec vy 0).
    + eapply wp_bind_mono; [by apply (Int_Add_spec w3 V3 Hw3 z _ Hz Hz3 z intOne _ _ Hz3 H13)|]. intros w4 Hw4. rewrite Z.abs_neq, Z.add_opp_r by lia.
      eapply wp_mono; [apply (Int_Sub_spec w4 _ Hw4 m (Z.rem vx vy) Hm1) with (vx := Z.rem vx vy) (vy := vy); by rewrite lookup_insert_ne|]. auto.
    + eapply wp_bind_mono; [by apply (Int_Sub_spec w3 V3 Hw3 z _ Hz Hz3 z intOne _ _ Hz3 H13)|]. intros w4 Hw4. rewrite Z.abs_eq by lia.
      eapply wp_mono; [apply (Int_Add_spec w4 _ Hw4 m (Z.rem vx vy) Hm1) with (vx := Z.rem vx vy) (vy := vy); by rewrite lookup_insert_ne|]. auto.
  - apply wp_ret. apply Hfin. eapply (owns_sub _ _ _ Hw3); [by lookups|]. intros p v''. unfold V3. rewrite !lookup_insert. by repeat case_decide.
Qed.
End euclidean.

(** [DivMod] where the remainder goes into the divisor: the saved divisor is the one that is overwritten. *)
Lemma DivMod_divisor : (let '(w, x) := alloc start in let '(w, y) := alloc w in let '(w, z) := alloc w in
   w ← @SetInt64 machine64 w x (-7); w ← @SetInt64 machine64 w y 3; w ← @DivMod machine64 w z x y y;
   s ← Sign w y; zi ← deref w z; a ← idx (mem_ w) (off (abs zi)); Ret (s, neg zi, a)) = Ret (0, true, 1).
Proof. by vm_compute. Qed.

Lemma MulRange_spec w V z vz a b : owns w V → z ≠ intOne → V !! z = Some vz → - 2 ^ 63 <= a < 2 ^ 63 → - 2 ^ 63 <= b < 2 ^ 63 →
  MulRange w z a b ⇓ λ w', owns w' (<[z := range_product a b]> V).
Proof.
  intros Hw Hz Hvz Ha Hb. unfold MulRange. destruct (Z.ltb_spec b a); [rewrite range_product_empty by done; by apply SetInt64_spec with vz|].
  destruct ((a <=? 0) && (0 <=? b)) eqn:E0.
  - apply andb_true_iff in E0 as [?%Z.leb_le ?%Z.leb_le]. rewrite range_product_has_zero by lia. by apply SetInt64_spec with vz.
  - apply andb_false_iff in E0. rewrite !Z.leb_gt in E0.
    assert ((if a <? 0 then (Z.land (i64 (b - a)) 1 =? 0, i64 (- b), i64 (- a)) else (false, a, b)) =
      (if a <? 0 then (b - a) mod 2 =? 0 else false, if a <? 0 then i64 (- b) else a, if a <? 0 then i64 (- a) else b)) as ->.
    { destruct (Z.ltb_spec a 0); [|done]. rewrite swrap_small, land_1 by lia. done. }
    assert (u64 (if a <? 0 then i64 (- b) else a) = if a <? 0 then - b else a) as ->.
    { destruct (Z.ltb_spec a 0); [|by rewrite wrap_small by lia]. destruct (decide (b = - 2 ^ 63)) as [->|]; [by vm_compute|]. rewrite swrap_small, wrap_small by lia. done. }
    assert (u64 (if a <? 0 then i64 (- a) else b) = if a <? 0 then - a else b) as ->.
    { destruct (Z.ltb_spec a 0); [|by rewrite wrap_small by lia]. destruct (decide (a = - 2 ^ 63)) as [->|]; [by vm_compute|]. rewrite swrap_small, wrap_small by lia. done. }
    operand_of Hw z zi Ezi Nz Sz.
    eapply wp_bind_mono; [apply (mulRange_spec (mem_ w) (abs zi) (if a <? 0 then - b else a) (if a <? 0 then - a else b)); [by eapply owns_words|apply Nz|destruct (Z.ltb_spec a 0); lia|destruct (Z.ltb_spec a 0); lia]|].
    intros [m' r] [Hi Hr]. apply wp_ret. set (n := if a <? 0 then (b - a) mod 2 =? 0 else false).
    assert (range_product a b = if n then - range_product (if a <? 0 then - b else a) (if a <? 0 then - a else b) else range_product (if a <? 0 then - b else a) (if a <? 0 then - a else b)) as ->.
    { unfold n. destruct (Z.ltb_spec a 0); [|done]. replace b with (a + (b - a)) at 1 by lia. rewrite range_product_neg by lia. by replace (a + (b - a)) with b by lia. }
    eapply owns_assign; try done. intros _. apply range_product_pos. destruct (Z.ltb_spec a 0); lia.
Qed.
End proofs.
