(* ===== verification/BigIntBits.v ===== *)
(** Signed integers as bits and bytes: shifts, the logical operations on two's complement
    and the conversions of [src/src/math/big/int.go]. *)
From S2P Require Import Prelude.
From S2P Require Import BigWord.
From S2P Require Import BigVec.
From S2P Require Import BigNat.
From S2P Require Import BigMul.
From S2P Require Import BigBits.
From S2P Require Import BigBytes.
From S2P Require Import BigProduct.
From S2P Require Import BigDiv.
From S2P Require Import BigInt.

Section bits.
Context `{M : Machine}.

Definition Lsh (w : world) (z x : ptr) (n : Z) : go world :=
  zi ← deref w z;
  xi ← deref w x;
  '(m, a) ← shl (mem_ w) (abs zi) (abs xi) n;
  Ret (assign w z m (mkInt (neg xi) a)).

Definition Rsh (w : world) (z x : ptr) (n : Z) : go world :=
  zi ← deref w z;
  xi ← deref w x;
  if neg xi then
    '(m, t) ← sub (mem_ w) (abs zi) (abs xi) natOne;
    '(m, t) ← shr m t t n;
    '(m, a) ← add m t t natOne;
    Ret (assign w z m (mkInt true a))
  else
    '(m, a) ← shr (mem_ w) (abs zi) (abs xi) n;
    Ret (assign w z m (mkInt false a)).

Definition Bit (w : world) (x : ptr) (i : Z) : go Z :=
  xi ← deref w x;
  if i =? 0 then
    if 0 <? len (abs xi) then d ← at_ (mem_ w) (abs xi) 0; Ret (Z.land d 1) else Ret 0
  else if i <? 0 then Panic "negative bit index"
  else if neg xi then
    '(m, t) ← sub (mem_ w) nil_ (abs xi) natOne;
    b ← bit m t i;
    Ret (Z.lxor b 1)
  else bit (mem_ w) (abs xi) i.

Definition SetBit (w : world) (z x : ptr) (i b : Z) : go world :=
  if i <? 0 then Panic "negative bit index" else
  zi ← deref w z;
  xi ← deref w x;
  if neg xi then
    '(m, t) ← sub (mem_ w) (abs zi) (abs xi) natOne;
    '(m, t) ← setBit m t t i (Z.lxor b 1);
    '(m, a) ← add m t t natOne;
    Ret (assign w z m (mkInt (0 <? len a) a))
  else
    '(m, a) ← setBit (mem_ w) (abs zi) (abs xi) i b;
    Ret (assign w z m (mkInt false a)).

Definition And (w : world) (z x y : ptr) : go world :=
  zi ← deref w z;
  xi ← deref w x;
  yi ← deref w y;
  if Bool.eqb (neg xi) (neg yi) then
    if neg xi then
      '(m, x1) ← sub (mem_ w) nil_ (abs xi) natOne;
      '(m, y1) ← sub m nil_ (abs yi) natOne;
      '(m, t) ← or m (abs zi) x1 y1;
      '(m, a) ← add m (abs zi) t natOne;
      Ret (assign w z m (mkInt true a))
    else
      '(m, a) ← and (mem_ w) (abs zi) (abs xi) (abs yi);
      Ret (assign w z m (mkInt false a))
  else
    let '(xi, yi) := if neg xi then (yi, xi) else (xi, yi) in
    '(m, y1) ← sub (mem_ w) nil_ (abs yi) natOne;
    '(m, a) ← andNot m (abs zi) (abs xi) y1;
    Ret (assign w z m (mkInt false a)).

Definition AndNot (w : world) (z x y : ptr) : go world :=
  zi ← deref w z;
  xi ← deref w x;
  yi ← deref w y;
  if Bool.eqb (neg xi) (neg yi) then
    if neg xi then
      '(m, x1) ← sub (mem_ w) nil_ (abs xi) natOne;
      '(m, y1) ← sub m nil_ (abs yi) natOne;
      '(m, a) ← andNot m (abs zi) y1 x1;
      Ret (assign w z m (mkInt false a))
    else
      '(m, a) ← andNot (mem_ w) (abs zi) (abs xi) (abs yi);
      Ret (assign w z m (mkInt false a))
  else if neg xi then
    '(m, x1) ← sub (mem_ w) nil_ (abs xi) natOne;
    '(m, t) ← or m (abs zi) x1 (abs yi);
    '(m, a) ← add m (abs zi) t natOne;
    Ret (assign w z m (mkInt true a))
  else
    '(m, y1) ← sub (mem_ w) nil_ (abs yi) natOne;
    '(m, a) ← and m (abs zi) (abs xi) y1;
    Ret (assign w z m (mkInt false a)).

Definition Or (w : world) (z x y : ptr) : go world :=
  zi ← deref w z;
  xi ← deref w x;
  yi ← deref w y;
  if Bool.eqb (neg xi) (neg yi) then
    if neg xi then
      '(m, x1) ← sub (mem_ w) nil_ (abs xi) natOne;
      '(m, y1) ← sub m nil_ (abs yi) natOne;
      '(m, t) ← and m (abs zi) x1 y1;
      '(m, a) ← add m (abs zi) t natOne;
      Ret (assign w z m (mkInt true a))
    else
      '(m, a) ← or (mem_ w) (abs zi) (abs xi) (abs yi);
      Ret (assign w z m (mkInt false a))
  else
    let '(xi, yi) := if neg xi then (yi, xi) else (xi, yi) in
    '(m, y1) ← sub (mem_ w) nil_ (abs yi) natOne;
    '(m, t) ← andNot m (abs zi) y1 (abs xi);
    '(m, a) ← add m (abs zi) t natOne;
    Ret (assign w z m (mkInt true a)).

Definition Xor (w : world) (z x y : ptr) : go world :=
  zi ← deref w z;
  xi ← deref w x;
  yi ← deref w y;
  if Bool.eqb (neg xi) (neg yi) then
    if neg xi then
      '(m, x1) ← sub (mem_ w) nil_ (abs xi) natOne;
      '(m, y1) ← sub m nil_ (abs yi) natOne;
      '(m, a) ← xor m (abs zi) x1 y1;
      Ret (assign w z m (mkInt false a))
    else
      '(m, a) ← xor (mem_ w) (abs zi) (abs xi) (abs yi);
      Ret (assign w z m (mkInt false a))
  else
    let '(xi, yi) := if neg xi then (yi, xi) else (xi, yi) in
    '(m, y1) ← sub (mem_ w) nil_ (abs yi) natOne;
    '(m, t) ← xor m (abs zi) (abs xi) y1;
    '(m, a) ← add m (abs zi) t natOne;
    Ret (assign w z m (mkInt true a)).

Definition Not (w : world) (z x : ptr) : go world :=
  zi ← deref w z;
  xi ← deref w x;
  if neg xi then
    '(m, a) ← sub (mem_ w) (abs zi) (abs xi) natOne;
    Ret (assign w z m (mkInt false a))
  else
    '(m, a) ← add (mem_ w) (abs zi) (abs xi) natOne;
    Ret (assign w z m (mkInt true a)).

(** ** Conversions *)

Definition low64 (m : mem) (z : nat_) : go Z :=
  if len z =? 0 then Ret 0 else
  v ← at_ m z 0;
  if (_W =? 32) && (1 <? len z) then z1 ← at_ m z 1; Ret (Z.lor v (u64 (Z.shiftl z1 32))) else Ret v.

Definition Int64 (w : world) (x : ptr) : go Z :=
  xi ← deref w x;
  v ← low64 (mem_ w) (abs xi);
  let v := i64 v in
  Ret (if neg xi then i64 (- v) else v).

Definition Uint64 (w : world) (x : ptr) : go Z := xi ← deref w x; low64 (mem_ w) (abs xi).

Definition SetBytes (w : world) (z : ptr) (buf : list Z) : go world :=
  zi ← deref w z;
  '(m, a) ← setBytes (mem_ w) (abs zi) buf;
  Ret (assign w z m (mkInt false a)).

Definition Bytes (w : world) (x : ptr) : go (list Z) :=
  xi ← deref w x;
  '(buf, i) ← bytes_ (mem_ w) (abs xi) (replicate (Z.to_nat (len (abs xi) * _S)) 0);
  slice_from buf i.

Definition BitLen (w : world) (x : ptr) : go Z := xi ← deref w x; bitLen (mem_ w) (abs xi).

Definition intGobVersion : Z := 1.

(** [GobEncode] of a pointer that is not nil. *)
Definition GobEncode (w : world) (x : ptr) : go (list Z) :=
  xi ← deref w x;
  '(buf, i) ← bytes_ (mem_ w) (abs xi) (replicate (Z.to_nat (1 + len (abs xi) * _S)) 0);
  let i := i - 1 in
  let b := Z.shiftl intGobVersion 1 in
  let b := if neg xi then Z.lor b 1 else b in
  buf ← upd buf i b;
  slice_from buf i.

(** The error of [GobDecode] names the version of the encoding. *)
Definition GobDecode (w : world) (z : ptr) (buf : list Z) : go (world * option Z) :=
  if zlen buf =? 0 then _ ← deref w z; Ret (assign w z (mem_ w) (mkInt false nil_), None) else
  b ← idx buf 0;
  if negb (Z.shiftr b 1 =? intGobVersion) then Ret (w, Some (Z.shiftr b 1)) else
  zi ← deref w z;
  rest ← slice_from buf 1;
  '(m, a) ← setBytes (mem_ w) (abs zi) rest;
  Ret (assign w z m (mkInt (negb (Z.land b 1 =? 0)) a), None).
End bits.

Lemma swrap_opp w x : 0 < w → swrap w (- swrap w x) = swrap w (- x).
Proof.
  intros Hw. unfold swrap. pose proof (Z.pow_pos_nonneg 2 w). f_equal. set (q := (x + 2 ^ (w - 1)) / 2 ^ w).
  replace ((x + 2 ^ (w - 1)) mod 2 ^ w) with (x + 2 ^ (w - 1) - 2 ^ w * q) by (unfold q; rewrite Z.mod_eq by lia; lia).
  replace (- (x + 2 ^ (w - 1) - 2 ^ w * q - 2 ^ (w - 1)) + 2 ^ (w - 1)) with (- x + 2 ^ (w - 1) + - - q * 2 ^ w) by lia. rewrite Z.mod_add by lia. done.
Qed.

Section proofs.
Context `{M : Machine}.
Abbreviation words m := (Forall is_word m).

(** ** Numbers made on the way *)

Lemma inside_chain m z m1 t m2 t2 : inside m z m1 t → inside m1 t m2 t2 → inside m z m2 t2.
Proof.
  intros Hi (Hw2 & Hv2 & Hp2 & Hk2). pose proof Hi as (_ & _ & Hp & Hl & _). split; [done|]. split; [done|]. split; [unfold placed in *; lia|].
  by eapply keeps_inside.
Qed.

Lemma inside_twice m z m1 t m2 r : inside m z m1 t → inside m1 z m2 r → inside m z m2 r.
Proof.
  intros (_ & _ & _ & Hl & Hk) (Hw2 & Hv2 & Hp2 & Hl2 & Hk2). split; [done|]. split; [done|]. split; [unfold placed in *; lia|]. split; [lia|].
  intros i Hi Hni. rewrite Hk2 by (done || lia). by apply Hk.
Qed.

Lemma inside_shares m z m1 t : valid m z → inside m z m1 t → shares z t.
Proof. intros (? & ? & ?) (_ & _ & Hp & _). unfold placed, shares, apart in *. lia. Qed.

Section temporaries.
Context (w : world) (V : gmap nat Z) (Hw : owns w V).

Lemma owns_mem m1 t : inside (mem_ w) nil_ m1 t → owns (World m1 (ints w)) V ∧ ∀ p x, is_Some (V !! p) → ints w !! p = Some x → apart (abs x) t.
Proof using Hw.
  intros Hi. destruct (owns_nil w V Hw) as [_ Hna]. pose proof Hw as (Hm & H1 & H2 & Hval & Hap). pose proof Hi as (Hm1 & _).
  assert (∀ p x v, V !! p = Some v → ints w !! p = Some x → is_nat (mem_ w) (abs x) (Z.abs v) → is_nat m1 (abs x) (Z.abs v) ∧ apart t (abs x)) as Hkeep.
  { intros p x v Hp Ex Nx. eapply inside_keeps; [exact Hi|exact Nx|]. eapply Hna; [by eexists|done]. }
  split.
  - split; [done|]. split; [done|]. split; [done|]. split; [|done]. intros p v Hp. destruct (Hval p v Hp) as (x & Ex & Nx & Sx). exists x. split; [done|]. split; [|done]. by eapply Hkeep.
  - intros p x [v Hp] Ex. destruct (Hval p v Hp) as (x' & Ex' & Nx & _). simplify_eq. apply apart_sym. by eapply Hkeep.
Qed.

Lemma owns_natOne : is_nat (mem_ w) natOne 1 ∧ ∀ p x, p ≠ intOne → is_Some (V !! p) → ints w !! p = Some x → apart (abs x) natOne.
Proof using Hw.
  pose proof Hw as (Hm & H1 & H2 & Hval & Hap). split.
  - destruct (Hval _ _ H1) as (x & Ex & Nx & _). by simplify_eq.
  - intros p x Hp Hs Ex. apply (Hap p intOne x (mkInt false natOne)); (done || by eexists).
Qed.

(** [x - 1] for the complement of a negative number. *)
Lemma minus_one x xi v : V !! x = Some v → ints w !! x = Some xi → v < 0 → sub (mem_ w) nil_ (abs xi) natOne ⇓ λ '(m1, t),
  inside (mem_ w) nil_ m1 t ∧ owns (World m1 (ints w)) V ∧ is_nat m1 t (Z.lnot v) ∧ ∀ p x, is_Some (V !! p) → ints w !! p = Some x → apart (abs x) t.
Proof using Hw.
  intros Hx Ex Hv. destruct (owns_deref w V Hw x v Hx) as (xi' & Ex' & _ & Nx & _). simplify_eq. destruct owns_natOne as [N1 _]. destruct (owns_nil w V Hw) as [Hn Hna].
  pose proof (Hna x xi ltac:(by eexists) Ex) as Hnx. pose proof (Hna intOne (mkInt false natOne) ltac:(eexists; by eapply owns_one) ltac:(apply Hw)) as Hn1.
  eapply wp_mono; [apply sub_spec; try done; [by eapply owns_words|by right|by right|lia]|]. intros [m1 t] [Hi Ht]. split; [done|]. destruct (owns_mem m1 t Hi) as [H1 H2].
  split; [done|]. split; [|done]. replace (Z.lnot v) with (Z.abs v - 1) by (unfold Z.lnot; lia). done.
Qed.
End temporaries.

(** The end of an operation whose result is negative: [-(t + 1)]. *)
Lemma finish_neg w V z zi vz m t v : owns w V → z ≠ intOne → V !! z = Some vz → ints w !! z = Some zi → inside (mem_ w) (abs zi) m t → is_nat m t v →
  ('(m, a) ← add m (abs zi) t natOne; Ret (assign w z m (mkInt true a))) ⇓ λ w', owns w' (<[z := Z.lnot v]> V).
Proof.
  intros Hw Hz Hvz Ezi Hi Ht. destruct (owns_deref w V Hw z vz Hvz) as (zi' & Ezi' & _ & Nz & _). simplify_eq. destruct (owns_natOne w V Hw) as [N1 Ha1].
  pose proof (Ha1 z zi Hz ltac:(by eexists) Ezi) as Hz1. destruct (inside_keeps _ _ _ _ _ _ Hi N1 Hz1) as [N1' _]. pose proof Hi as (Hm & Hvt & _ & Hl & _).
  destruct (nat_pos _ _ _ Hm Ht) as [[Hv _] _].
  eapply wp_bind_mono; [apply (add_spec m (abs zi) t natOne v 1); try done; [destruct Nz as [(? & ? & ?) _]; unfold valid; lia|eapply shares_safe, inside_shares; [apply Nz|done]|by right]|].
  intros [m' r] [Hi' Hr]. apply wp_ret. replace (Z.lnot v) with (- (v + 1)) by (unfold Z.lnot; lia).
  apply (owns_assign w V z zi m' r true (v + 1)); try done; [by eapply inside_twice|lia].
Qed.

(** ... and of one whose result is not. *)
Lemma finish_pos w V z zi vz m a v : owns w V → z ≠ intOne → V !! z = Some vz → ints w !! z = Some zi → inside (mem_ w) (abs zi) m a → is_nat m a v →
  owns (assign w z m (mkInt false a)) (<[z := v]> V).
Proof. intros. by apply (owns_assign w V z zi m a false v). Qed.

Section shifts.
Context (w : world) (V : gmap nat Z) (Hw : owns w V) (z : ptr) (vz : Z) (Hz : z ≠ intOne) (Hvz : V !! z = Some vz) (x : ptr) (vx : Z) (Hvx : V !! x = Some vx).

Lemma Lsh_spec n : 0 <= n → Lsh w z x n ⇓ λ w', owns w' (<[z := Z.shiftl vx n]> V).
Proof.
  intros Hn. unfold Lsh. operand_of Hw z zi Ezi Nz Sz. operand_of Hw x xi Exi Nx Sx. pose proof (owns_words w V Hw) as Hm.
  pose proof (owns_shares w V Hw z x zi xi (owns_some _ _ _ Hvz) (owns_some _ _ _ Hvx) Ezi Exi) as Hzx.
  eapply wp_bind_mono; [eapply shl_spec; [done|apply Nz|exact Nx|by apply shares_safe|done]|]. intros [m' r] [Hi Hr]. apply wp_ret. rewrite Z.shiftl_mul_pow2, Sx by done.
  assert (0 < 2 ^ n) by lia. assert (vx * 2 ^ n = if vx <? 0 then - (Z.abs vx * 2 ^ n) else Z.abs vx * 2 ^ n) as -> by (destruct (Z.ltb_spec vx 0); lia).
  eapply owns_assign; try done. intros ?%Z.ltb_lt. apply Z.mul_pos_pos; lia.
Qed.

(** Arithmetic shifts: rounded towards minus infinity. *)
Lemma Rsh_spec n : 0 <= n → Rsh w z x n ⇓ λ w', owns w' (<[z := Z.shiftr vx n]> V).
Proof.
  intros Hn. unfold Rsh. operand_of Hw z zi Ezi Nz Sz. operand_of Hw x xi Exi Nx Sx. pose proof (owns_words w V Hw) as Hm.
  pose proof (owns_shares w V Hw z x zi xi (owns_some _ _ _ Hvz) (owns_some _ _ _ Hvx) Ezi Exi) as Hzx. rewrite Sx. destruct (Z.ltb_spec vx 0) as [Hlt|Hge].
  - destruct (owns_natOne w V Hw) as [N1 Ha1]. pose proof (Ha1 z zi Hz ltac:(by eexists) Ezi) as Hz1.
    eapply wp_bind_mono; [apply (sub_spec (mem_ w) (abs zi) (abs xi) natOne (Z.abs vx) 1); try done; [apply Nz|by apply shares_safe|by right|lia]|].
    intros [m1 t1] [Hi1 Ht1]. destruct (inside_keeps _ _ _ _ _ _ Hi1 N1 Hz1) as [N11 Ha11]. pose proof Hi1 as (Hm1 & _).
    eapply wp_bind_mono; [apply (shr_spec m1 t1 t1 n (Z.abs vx - 1)); try done; [apply Ht1|by left]|]. intros [m2 t2] [Hi2 Ht2].
    destruct (inside_keeps _ _ _ _ _ _ Hi2 N11 Ha11) as [N12 Ha12]. pose proof Hi2 as (Hm2 & _). destruct (nat_pos _ _ _ Hm2 Ht2) as [[Hv2 _] _].
    eapply wp_bind_mono; [eapply (add_spec m2 t2 t2 natOne); [done|apply Ht2|exact Ht2|exact N12|by left|by right]|]. intros [m3 t3] [Hi3 Ht3]. apply wp_ret.
    assert (Z.shiftr vx n = - ((Z.abs vx - 1) / 2 ^ n + 1)) as ->.
    { rewrite <- Z.shiftr_div_pow2 by done. replace (Z.abs vx - 1) with (Z.lnot vx) by (unfold Z.lnot; lia). rewrite <- Z.lnot_shiftr by done. unfold Z.lnot. lia. }
    apply (owns_assign w V z zi m3 t3 true ((Z.abs vx - 1) / 2 ^ n + 1)); try done; [|lia]. eapply inside_chain; [|exact Hi3]. by eapply inside_chain.
  - eapply wp_bind_mono; [eapply shr_spec; [done|apply Nz|exact Nx|by apply shares_safe|done]|]. intros [m' r] [Hi Hr]. apply wp_ret.
    rewrite Z.shiftr_div_pow2 by done. rewrite Z.abs_eq in Hr by done. by eapply finish_pos.
Qed.

Lemma Bit_spec i : Bit w x i = if i <? 0 then Panic "negative bit index" else Ret (Z.b2z (Z.testbit vx i)).
Proof.
  unfold Bit. operand_of Hw x xi Exi Nx Sx. pose proof (owns_words w V Hw) as Hm. destruct (Z.eqb_spec i 0) as [->|Hi0].
  - simpl. pose proof (nat_len_pos _ _ _ Hm Nx) as Hl. destruct (Z.ltb_spec 0 (len (abs xi))) as [Hlt|Hge].
    + rewrite at_eq, go_bind_ret by (lia || apply Nx). f_equal. rewrite land_1. pose proof (bit_spec (mem_ w) (abs xi) (Z.abs vx) 0 Hm Nx ltac:(lia)) as Hb.
      unfold bit in Hb. rewrite Zdiv_0_l, (proj2 (Z.leb_gt _ _)), at_eq, go_bind_ret, Zmod_0_l, Z.shiftr_0_r, land_1 in Hb by (lia || apply Nx). injection Hb as ->.
      f_equal. destruct (Z.abs_eq_or_opp vx) as [-> | ->]; [done|apply Z.odd_opp].
    + assert (vx = 0) as -> by (symmetry in Hl; apply Z.ltb_ge in Hl; lia). done.
  - destruct (Z.ltb_spec i 0) as [|Hi]; [done|]. rewrite Sx. destruct (Z.ltb_spec vx 0) as [Hlt|Hge].
    + pose proof (minus_one w V Hw x xi vx Hvx Exi Hlt) as Hs. apply wp_ex in Hs as ([m1 t] & -> & Hi1 & _ & Ht & _). rewrite go_bind_ret. pose proof Hi1 as (Hm1 & _).
      rewrite (bit_spec _ _ _ _ Hm1 Ht), go_bind_ret by done. f_equal. rewrite Z.lnot_spec by done. by destruct (Z.testbit vx i).
    + rewrite (bit_spec _ _ _ _ Hm Nx) by done. by rewrite Z.abs_eq.
Qed.
End shifts.

(** ** Logical operations *)

(** What the operations on natural numbers have in common. *)
Definition nat_op (op : mem → nat_ → nat_ → nat_ → go (mem * nat_)) (F : Z → Z → Z) : Prop := ∀ m z x y vx vy, words m → valid m z → is_nat m x vx → is_nat m y vy →
  safe z x → safe z y → op m z x y ⇓ λ '(m', r), inside m z m' r ∧ is_nat m' r (F vx vy).

Lemma nat_op_flip op F : nat_op op F → nat_op (λ m z x y, op m z y x) (λ a b, F b a).
Proof. intros H m z x y vx vy ??????. by apply H. Qed.

Section logic.
Context (op : mem → nat_ → nat_ → nat_ → go (mem * nat_)) (F : Z → Z → Z) (Hop : nat_op op F).
Context (w : world) (V : gmap nat Z) (Hw : owns w V) (z : ptr) (vz : Z) (zi : Int) (Hz : z ≠ intOne) (Hvz : V !! z = Some vz) (Ezi : ints w !! z = Some zi).
Context (x y : ptr) (vx vy : Z) (xi yi : Int) (Hvx : V !! x = Some vx) (Hvy : V !! y = Some vy) (Exi : ints w !! x = Some xi) (Eyi : ints w !! y = Some yi).

Lemma owned p v q : V !! p = Some v → ints w !! p = Some q → is_nat (mem_ w) (abs q) (Z.abs v) ∧ shares (abs zi) (abs q).
Proof using Hw Hvz Ezi.
  intros Hp Eq. destruct (owns_deref w V Hw p v Hp) as (q' & Eq' & _ & Nq & _). simplify_eq. split; [done|]. eapply (owns_shares w V Hw z p); (done || by eexists).
Qed.

Lemma pos_pos : 0 <= vx → 0 <= vy → ('(m, a) ← op (mem_ w) (abs zi) (abs xi) (abs yi); Ret (assign w z m (mkInt false a))) ⇓ λ w', owns w' (<[z := F vx vy]> V).
Proof using All.
  intros Hx0 Hy0. destruct (owned x vx xi Hvx Exi) as [Nx Hzx]. destruct (owned y vy yi Hvy Eyi) as [Ny Hzy]. destruct (owned z vz zi Hvz Ezi) as [Nz _]. rewrite Z.abs_eq in Nx, Ny by done.
  eapply wp_bind_mono; [eapply Hop; [by eapply owns_words|apply Nz|exact Nx|exact Ny|by apply shares_safe|by apply shares_safe]|].
  intros [m r] [Hi Hr]. apply wp_ret. by eapply finish_pos.
Qed.

(** With the complement of [y] for [y]. *)
Lemma mixed {A} (K : mem → nat_ → go A) (Q : A → Prop) : 0 <= vx → vy < 0 →
  (∀ m1 m' r, owns (World m1 (ints w)) V → inside m1 (abs zi) m' r → is_nat m' r (F vx (Z.lnot vy)) → K m' r ⇓ Q) →
  ('(m, y1) ← sub (mem_ w) nil_ (abs yi) natOne; '(m, a) ← op m (abs zi) (abs xi) y1; K m a) ⇓ Q.
Proof using All.
  intros Hx0 Hy0 HK. pose proof (minus_one w V Hw y yi vy Hvy Eyi Hy0) as Hs. apply wp_ex in Hs as ([m1 y1] & -> & Hi1 & Hw1 & Ny1 & Ha). rewrite go_bind_ret.
  destruct (owns_deref _ _ Hw1 x vx Hvx) as (xi' & Exi' & _ & Nx & _). destruct (owns_deref _ _ Hw1 z vz Hvz) as (zi' & Ezi' & _ & Nz & _). simpl in *. simplify_eq. rewrite Z.abs_eq in Nx by done.
  eapply wp_bind_mono; [eapply Hop; [by eapply (owns_words _ _ Hw1)|apply Nz|exact Nx|exact Ny1|eapply shares_safe, (owned x); done|right; eapply (Ha z); [by eexists|done]]|].
  intros [m r] [Hi Hr]. by eapply HK.
Qed.

(** With the complements of both. *)
Lemma neg_neg {A} (K : mem → nat_ → go A) (Q : A → Prop) : vx < 0 → vy < 0 →
  (∀ m2 m' r, owns (World m2 (ints w)) V → inside m2 (abs zi) m' r → is_nat m' r (F (Z.lnot vx) (Z.lnot vy)) → K m' r ⇓ Q) →
  ('(m, x1) ← sub (mem_ w) nil_ (abs xi) natOne; '(m, y1) ← sub m nil_ (abs yi) natOne; '(m, a) ← op m (abs zi) x1 y1; K m a) ⇓ Q.
Proof using All.
  intros Hx0 Hy0 HK. pose proof (minus_one w V Hw x xi vx Hvx Exi Hx0) as Hs. apply wp_ex in Hs as ([m1 x1] & -> & Hi1 & Hw1 & Nx1 & Ha1). rewrite go_bind_ret.
  pose proof (minus_one _ V Hw1 y yi vy Hvy Eyi Hy0) as Hs. apply wp_ex in Hs as ([m2 y1] & Es & Hi2 & Hw2 & Ny1 & Ha2). simpl in *. rewrite Es, go_bind_ret. clear Es.
  destruct (owns_nil _ _ Hw1) as [Hn1 _]. pose proof Hi1 as (_ & _ & Hp1 & _).
  assert (apart nil_ x1) as Hnx by (pose proof Nx1 as ((? & ? & ?) & _); unfold apart; simpl; lia).
  destruct (inside_keeps _ _ _ _ _ _ Hi2 Nx1 Hnx) as [Nx2 _]. destruct (owns_deref _ _ Hw2 z vz Hvz) as (zi' & Ezi' & _ & Nz & _). simpl in *. simplify_eq.
  eapply wp_bind_mono; [eapply Hop; [by eapply (owns_words _ _ Hw2)|apply Nz|exact Nx2|exact Ny1|right; eapply (Ha1 z); [by eexists|done]|right; eapply (Ha2 z); [by eexists|done]]|].
  intros [m r] [Hi Hr]. by eapply HK.
Qed.
End logic.

Ltac bits_eq := apply Z.bits_inj'; intros ?i ?Hi; repeat (rewrite ?Z.lnot_spec, ?Z.land_spec, ?Z.lor_spec, ?Z.lxor_spec, ?Z.ldiff_spec by done); do 2 (destruct (Z.testbit _ _)); done.

(** The ends of the operations, in the state with the temporaries. *)
Lemma end_pos w V z zi vz m1 m r v v' : owns (World m1 (ints w)) V → z ≠ intOne → V !! z = Some vz → ints w !! z = Some zi → inside m1 (abs zi) m r → is_nat m r v → v' = v →
  Ret (assign w z m (mkInt false r)) ⇓ λ w', owns w' (<[z := v']> V).
Proof. intros Hw1 Hz Hvz Ezi Hi Hr ->. apply wp_ret. by apply (finish_pos _ _ z zi vz m r v Hw1). Qed.
Lemma end_neg w V z zi vz m1 m r v v' : owns (World m1 (ints w)) V → z ≠ intOne → V !! z = Some vz → ints w !! z = Some zi → inside m1 (abs zi) m r → is_nat m r v → v' = Z.lnot v →
  ('(m, a) ← add m (abs zi) r natOne; Ret (assign w z m (mkInt true a))) ⇓ λ w', owns w' (<[z := v']> V).
Proof. intros Hw1 Hz Hvz Ezi Hi Hr ->. by apply (finish_neg _ _ z zi vz m r v Hw1). Qed.

Section logical.
Context (w : world) (V : gmap nat Z) (Hw : owns w V) (z : ptr) (vz : Z) (Hz : z ≠ intOne) (Hvz : V !! z = Some vz).
Context (x y : ptr) (vx vy : Z) (Hvx : V !! x = Some vx) (Hvy : V !! y = Some vy).

Lemma And_spec : And w z x y ⇓ λ w', owns w' (<[z := Z.land vx vy]> V).
Proof.
  unfold And. operand_of Hw z zi Ezi Nz Sz. operand_of Hw x xi Exi Nx Sx. operand_of Hw y yi Eyi Ny Sy. rewrite Sx, Sy.
  destruct (Z.ltb_spec vx 0), (Z.ltb_spec vy 0); simpl.
  - eapply (neg_neg or Z.lor or_spec w V Hw z vz zi Hz Hvz Ezi x y vx vy xi yi); try done. intros m1 m' r Hw1 Hi Hr. eapply end_neg; try done. bits_eq.
  - eapply (mixed andNot Z.ldiff andNot_spec w V Hw z vz zi Hz Hvz Ezi y x vy vx yi xi); try done. intros m1 m' r Hw1 Hi Hr. eapply end_pos; try done. bits_eq.
  - eapply (mixed andNot Z.ldiff andNot_spec w V Hw z vz zi Hz Hvz Ezi x y vx vy xi yi); try done. intros m1 m' r Hw1 Hi Hr. eapply end_pos; try done. bits_eq.
  - by eapply (pos_pos and Z.land and_spec w V Hw z vz zi Hz Hvz Ezi x y vx vy xi yi).
Qed.

Lemma AndNot_spec : AndNot w z x y ⇓ λ w', owns w' (<[z := Z.ldiff vx vy]> V).
Proof.
  unfold AndNot. operand_of Hw z zi Ezi Nz Sz. operand_of Hw x xi Exi Nx Sx. operand_of Hw y yi Eyi Ny Sy. rewrite Sx, Sy.
  destruct (Z.ltb_spec vx 0), (Z.ltb_spec vy 0); simpl.
  - eapply (neg_neg _ _ (nat_op_flip _ _ andNot_spec) w V Hw z vz zi Hz Hvz Ezi x y vx vy xi yi); try done. intros m1 m' r Hw1 Hi Hr. eapply end_pos; try done. bits_eq.
  - eapply (mixed _ _ (nat_op_flip _ _ or_spec) w V Hw z vz zi Hz Hvz Ezi y x vy vx yi xi); try done. intros m1 m' r Hw1 Hi Hr. eapply end_neg; try done. bits_eq.
  - eapply (mixed and Z.land and_spec w V Hw z vz zi Hz Hvz Ezi x y vx vy xi yi); try done. intros m1 m' r Hw1 Hi Hr. eapply end_pos; try done. bits_eq.
  - by eapply (pos_pos andNot Z.ldiff andNot_spec w V Hw z vz zi Hz Hvz Ezi x y vx vy xi yi).
Qed.

Lemma Or_spec : Or w z x y ⇓ λ w', owns w' (<[z := Z.lor vx vy]> V).
Proof.
  unfold Or. operand_of Hw z zi Ezi Nz Sz. operand_of Hw x xi Exi Nx Sx. operand_of Hw y yi Eyi Ny Sy. rewrite Sx, Sy.
  destruct (Z.ltb_spec vx 0), (Z.ltb_spec vy 0); simpl.
  - eapply (neg_neg and Z.land and_spec w V Hw z vz zi Hz Hvz Ezi x y vx vy xi yi); try done. intros m1 m' r Hw1 Hi Hr. eapply end_neg; try done. bits_eq.
  - eapply (mixed _ _ (nat_op_flip _ _ andNot_spec) w V Hw z vz zi Hz Hvz Ezi y x vy vx yi xi); try done. intros m1 m' r Hw1 Hi Hr. eapply end_neg; try done. bits_eq.
  - eapply (mixed _ _ (nat_op_flip _ _ andNot_spec) w V Hw z vz zi Hz Hvz Ezi x y vx vy xi yi); try done. intros m1 m' r Hw1 Hi Hr. eapply end_neg; try done. bits_eq.
  - by eapply (pos_pos or Z.lor or_spec w V Hw z vz zi Hz Hvz Ezi x y vx vy xi yi).
Qed.

Lemma Xor_spec : Xor w z x y ⇓ λ w', owns w' (<[z := Z.lxor vx vy]> V).
Proof.
  unfold Xor. operand_of Hw z zi Ezi Nz Sz. operand_of Hw x xi Exi Nx Sx. operand_of Hw y yi Eyi Ny Sy. rewrite Sx, Sy.
  destruct (Z.ltb_spec vx 0), (Z.ltb_spec vy 0); simpl.
  - eapply (neg_neg xor Z.lxor xor_spec w V Hw z vz zi Hz Hvz Ezi x y vx vy xi yi); try done. intros m1 m' r Hw1 Hi Hr. eapply end_pos; try done. bits_eq.
  - eapply (mixed xor Z.lxor xor_spec w V Hw z vz zi Hz Hvz Ezi y x vy vx yi xi); try done. intros m1 m' r Hw1 Hi Hr. eapply end_neg; try done. bits_eq.
  - eapply (mixed xor Z.lxor xor_spec w V Hw z vz zi Hz Hvz Ezi x y vx vy xi yi); try done. intros m1 m' r Hw1 Hi Hr. eapply end_neg; try done. bits_eq.
  - by eapply (pos_pos xor Z.lxor xor_spec w V Hw z vz zi Hz Hvz Ezi x y vx vy xi yi).
Qed.

Lemma Not_spec : Not w z x ⇓ λ w', owns w' (<[z := Z.lnot vx]> V).
Proof.
  unfold Not. operand_of Hw z zi Ezi Nz Sz. operand_of Hw x xi Exi Nx Sx. rewrite Sx. destruct (owns_natOne w V Hw) as [N1 Ha1]. pose proof (owns_words w V Hw) as Hm.
  pose proof (owns_shares w V Hw z x zi xi (owns_some _ _ _ Hvz) (owns_some _ _ _ Hvx) Ezi Exi) as Hzx. pose proof (Ha1 z zi Hz (owns_some _ _ _ Hvz) Ezi) as Hz1.
  destruct (Z.ltb_spec vx 0) as [Hlt|Hge].
  - eapply wp_bind_mono; [apply (sub_spec (mem_ w) (abs zi) (abs xi) natOne (Z.abs vx) 1); try done; [apply Nz|by apply shares_safe|by right|lia]|].
    intros [m' r] [Hi Hr]. apply wp_ret. replace (Z.lnot vx) with (Z.abs vx - 1) by (unfold Z.lnot; lia). by eapply finish_pos.
  - eapply wp_bind_mono; [apply (add_spec (mem_ w) (abs zi) (abs xi) natOne (Z.abs vx) 1); try done; [apply Nz|by apply shares_safe|by right]|].
    intros [m' r] [Hi Hr]. apply wp_ret. replace (Z.lnot vx) with (- (Z.abs vx + 1)) by (unfold Z.lnot; lia). apply (owns_assign w V z zi m' r true (Z.abs vx + 1)); try done. lia.
Qed.

Lemma SetBit_spec i b : b = 0 ∨ b = 1 → if decide (0 <= i) then SetBit w z x i b ⇓ λ w', owns w' (<[z := if b =? 0 then Z.clearbit vx i else Z.setbit vx i]> V)
  else SetBit w z x i b = Panic "negative bit index".
Proof.
  intros Hb. destruct (decide (0 <= i)) as [Hi|Hi]; [|unfold SetBit; by rewrite (proj2 (Z.ltb_lt _ _)) by lia]. unfold SetBit. rewrite (proj2 (Z.ltb_ge _ _)) by done.
  operand_of Hw z zi Ezi Nz Sz. operand_of Hw x xi Exi Nx Sx. rewrite Sx. destruct (owns_natOne w V Hw) as [N1 Ha1]. pose proof (owns_words w V Hw) as Hm.
  pose proof (owns_shares w V Hw z x zi xi (owns_some _ _ _ Hvz) (owns_some _ _ _ Hvx) Ezi Exi) as Hzx. pose proof (Ha1 z zi Hz (owns_some _ _ _ Hvz) Ezi) as Hz1.
  destruct (Z.ltb_spec vx 0) as [Hlt|Hge].
  - eapply wp_bind_mono; [apply (sub_spec (mem_ w) (abs zi) (abs xi) natOne (Z.abs vx) 1); try done; [apply Nz|by apply shares_safe|by right|lia]|].
    intros [m1 t1] [Hi1 Ht1]. destruct (inside_keeps _ _ _ _ _ _ Hi1 N1 Hz1) as [N11 Ha11]. pose proof Hi1 as (Hm1 & _).
    replace (Z.abs vx - 1) with (Z.lnot vx) in Ht1 by (unfold Z.lnot; lia).
    pose proof (setBit_spec m1 t1 t1 (Z.lnot vx) i (Z.lxor b 1) Hm1 (proj1 Ht1) Ht1 ltac:(by left) Hi) as Hs.
    assert (setBit m1 t1 t1 i (Z.lxor b 1) ⇓ λ '(m', r), inside m1 t1 m' r ∧ is_nat m' r (Z.lnot (if b =? 0 then Z.clearbit vx i else Z.setbit vx i))) as Hs'.
    { destruct Hb as [-> | ->]; [rewrite decide_False, decide_True in Hs by done|rewrite decide_True in Hs by done]; (eapply wp_mono; [exact Hs|]); intros [m' r] [Hi' Hr]; (split; [done|]);
        unfold Z.setbit, Z.clearbit in *; rewrite ?Z.shiftl_1_l in *; simpl; [replace (Z.lnot (Z.ldiff vx (2 ^ i))) with (Z.lor (Z.lnot vx) (2 ^ i)) by bits_eq|replace (Z.lnot (Z.lor vx (2 ^ i))) with (Z.ldiff (Z.lnot vx) (2 ^ i)) by bits_eq]; done. }
    clear Hs. eapply wp_bind_mono; [exact Hs'|]. intros [m2 t2] [Hi2 Ht2]. destruct (inside_keeps _ _ _ _ _ _ Hi2 N11 Ha11) as [N12 Ha12]. pose proof Hi2 as (Hm2 & _).
    destruct (nat_pos _ _ _ Hm2 Ht2) as [[Hv2 _] _]. set (v := if b =? 0 then _ else _) in *.
    eapply wp_bind_mono; [eapply (add_spec m2 t2 t2 natOne); [done|apply Ht2|exact Ht2|exact N12|by left|by right]|]. intros [m3 t3] [Hi3 Ht3]. apply wp_ret. pose proof Hi3 as (Hm3 & _).
    rewrite (nat_len_pos _ _ _ Hm3 Ht3), (proj2 (Z.ltb_lt _ _)) by lia. replace v with (- (Z.lnot v + 1)) by (unfold Z.lnot; lia).
    apply (owns_assign w V z zi m3 t3 true (Z.lnot v + 1)); try done; [|lia]. eapply inside_chain; [|exact Hi3]. by eapply inside_chain.
  - pose proof (setBit_spec (mem_ w) (abs zi) (abs xi) (Z.abs vx) i b Hm (proj1 Nz) Nx (shares_safe _ _ Hzx) Hi) as Hs. rewrite Z.abs_eq in Hs by done.
    destruct Hb as [-> | ->]; [rewrite decide_True in Hs by done|rewrite decide_False, decide_True in Hs by done]; (eapply wp_bind_mono; [exact Hs|]); intros [m' r] [Hi' Hr]; apply wp_ret; simpl; by eapply finish_pos.
Qed.
End logical.

(** ** Conversions *)

Section conversions.
Context (w : world) (V : gmap nat Z) (Hw : owns w V).

Lemma low64_spec m x v : words m → is_nat m x v → low64 m x = Ret (v mod 2 ^ 64).
Proof.
  intros Hm Hx. pose proof Hx as (Hv & Ev & _). pose proof Hv as (? & ? & ?). unfold low64. destruct (Z.eqb_spec (len x) 0) as [E0|E0]; [by rewrite (zero_nat _ _ _ Hx E0)|].
  rewrite (at_eq m x 0), go_bind_ret, Z.add_0_r by (done || lia). pose proof (words_get m (off x) Hm) as Hx0. set (x0 := get m (off x)) in *.
  assert (v = x0 + _B * num m (off x + 1) (len x - 1)) as E by (rewrite <- Ev; replace (len x) with (len x - 1 + 1) at 1 by lia; by rewrite num_cons by lia).
  unfold is_word in Hx0. rewrite _B_eq in *. destruct _W_cases as [EW|EW]; rewrite EW in *; simpl.
  - destruct (Z.ltb_spec 1 (len x)) as [Hl1|Hl1].
    + rewrite at_eq, go_bind_ret by (done || lia). f_equal. pose proof (words_get m (off x + 1) Hm) as Hx1. set (x1 := get m (off x + 1)) in *. unfold is_word in Hx1. rewrite _B_eq, EW in Hx1.
      rewrite Z.shiftl_mul_pow2, wrap_small by lia. rewrite Z.lor_comm, (lor_high_add _ 32) by (lia || apply Z.mod_mul; lia).
      replace (len x - 1) with (len x - 2 + 1) in E by lia. rewrite num_cons in E by lia. fold x1 in E. rewrite _B_eq, EW in E.
      apply (Z.mod_unique _ _ (num m (off x + 1 + 1) (len x - 2))); [lia|]. rewrite E. lia.
    + f_equal. replace (len x - 1) with 0 in E by lia. assert (num m (off x + 1) 0 = 0) as E1 by (by apply num_0). rewrite E1 in E. assert (v = x0) as -> by lia. by rewrite Z.mod_small by lia.
  - f_equal. apply (Z.mod_unique _ _ (num m (off x + 1) (len x - 1))); [lia|]. rewrite E. lia.
Qed.

(** The low 64 bits in two's complement; a value that fits comes back. *)
Lemma Int64_spec x v : V !! x = Some v → Int64 w x = Ret (i64 v).
Proof using Hw.
  intros Hx. unfold Int64. operand_of Hw x xi Exi Nx Sx. rewrite (low64_spec _ _ _ (owns_words _ _ Hw) Nx), go_bind_ret, Sx. f_equal.
  assert (i64 (Z.abs v mod 2 ^ 64) = i64 (Z.abs v)) as -> by apply (swrap_wrap 64 (Z.abs v)).
  destruct (Z.ltb_spec v 0); [|by rewrite Z.abs_eq by lia]. rewrite swrap_opp by lia. f_equal. lia.
Qed.

Lemma Uint64_spec x v : V !! x = Some v → Uint64 w x = Ret (Z.abs v mod 2 ^ 64).
Proof using Hw. intros Hx. unfold Uint64. operand_of Hw x xi Exi Nx Sx. apply low64_spec; [by eapply owns_words|done]. Qed.

Lemma BitLen_spec x v : V !! x = Some v → bits (Z.abs v) < 2 ^ (_W - 1) → BitLen w x = Ret (bits (Z.abs v)).
Proof using Hw. intros Hx Hfit. unfold BitLen. operand_of Hw x xi Exi Nx Sx. apply bitLen_spec; [by eapply owns_words|done|done]. Qed.

Lemma SetBytes_spec z vz buf : z ≠ intOne → V !! z = Some vz → octets buf → SetBytes w z buf ⇓ λ w', owns w' (<[z := be buf]> V).
Proof using Hw.
  intros Hz Hvz Ho. unfold SetBytes. operand_of Hw z zi Ezi Nz Sz. eapply wp_bind_mono; [apply setBytes_spec; [by eapply owns_words|apply Nz|done]|].
  intros [m r] [Hi Hr]. apply wp_ret. by eapply finish_pos.
Qed.

Lemma Bytes_spec x v : V !! x = Some v → Bytes w x ⇓ λ l, octets l ∧ be l = Z.abs v ∧ l !! 0%nat ≠ Some 0.
Proof using Hw.
  intros Hx. unfold Bytes. operand_of Hw x xi Exi Nx Sx. pose proof Nx as ((_ & ? & _) & _). destruct _S_W as [_ HS].
  assert (0 <= len (abs xi) * _S) by (apply Z.mul_nonneg_nonneg; lia). eapply wp_bind_mono; [eapply bytes_spec; [by eapply owns_words|exact Nx|rewrite zlen_replicate by done; lia]|].
  intros [buf i] (Hl & Hi & Ho & Eb & Hn). rewrite zlen_replicate in * by done. rewrite slice_from_eq by lia. apply wp_ret. split; [done|]. split; [done|]. rewrite lookup_drop, Nat.add_0_r.
  intros E. apply Hn; [apply lookup_lt_Some in E; unfold zlen in *; lia|]. unfold nthZ. by rewrite decide_True by lia.
Qed.
End conversions.

(** A number comes back from its bytes. *)
Lemma bytes_roundtrip w V z vz x v : owns w V → z ≠ intOne → V !! z = Some vz → V !! x = Some v →
  (l ← Bytes w x; SetBytes w z l) ⇓ λ w', owns w' (<[z := Z.abs v]> V).
Proof.
  intros Hw Hz Hvz Hx. eapply wp_bind_mono; [by eapply Bytes_spec|]. intros l (Ho & <- & _). by eapply SetBytes_spec.
Qed.

Lemma gob_roundtrip w V z vz x v : owns w V → z ≠ intOne → V !! z = Some vz → V !! x = Some v →
  (l ← GobEncode w x; GobDecode w z l) ⇓ λ '(w', err), err = None ∧ owns w' (<[z := v]> V).
Proof.
  intros Hw Hz Hvz Hx. unfold GobEncode. operand_of Hw x xi Exi Nx Sx. pose proof Nx as ((_ & ? & _) & _). destruct _S_W as [_ HS].
  assert (0 <= len (abs xi) * _S) by (apply Z.mul_nonneg_nonneg; lia). apply wp_bind. eapply wp_bind_mono; [eapply bytes_spec; [by eapply owns_words|exact Nx|rewrite zlen_replicate by lia; lia]|].
  intros [buf i] (Hl & Hi & Ho & Eb & Hn). rewrite zlen_replicate in * by lia.
  set (b := if neg xi then Z.lor (Z.shiftl intGobVersion 1) 1 else Z.shiftl intGobVersion 1).
  assert (b = if v <? 0 then 3 else 2) as Hb by (unfold b; rewrite Sx; by destruct (v <? 0)). clearbody b.
  rewrite upd_eq, go_bind_ret, slice_from_eq by (rewrite ?zlen_insZ; lia). apply wp_ret.
  assert (drop (Z.to_nat (i - 1)) (insZ buf (i - 1) b) = b :: drop (Z.to_nat i) buf) as ->.
  { rewrite (drop_S _ b). - f_equal. replace (S (Z.to_nat (i - 1))) with (Z.to_nat i) by lia. apply nthZ_ext. intros j. rewrite !nthZ_drop. case_decide; [|done]. apply nthZ_insZ_ne. lia.
    - pose proof (nthZ_insZ_eq buf (i - 1) b ltac:(lia)) as E. unfold nthZ in E. by rewrite decide_True in E by lia. }
  unfold GobDecode. rewrite zlen_cons. pose proof (zlen_nonneg (drop (Z.to_nat i) buf)). rewrite (proj2 (Z.eqb_neq _ 0)) by lia. rewrite (idx_Some _ _ b), go_bind_ret by done.
  assert (Z.shiftr b 1 = 1 ∧ negb (Z.land b 1 =? 0) = (v <? 0)) as [-> ->] by (rewrite Hb; by destruct (v <? 0)). simpl negb. cbv iota.
  operand_of Hw z zi Ezi Nz Sz. rewrite slice_from_eq, go_bind_ret by (rewrite zlen_cons; lia). change (drop (Z.to_nat 1) (b :: drop (Z.to_nat i) buf)) with (drop (Z.to_nat i) buf).
  eapply wp_bind_mono; [apply setBytes_spec; [by eapply owns_words|apply Nz|done]|]. intros [m r] [Hi' Hr]. apply wp_ret. split; [done|]. rewrite Eb in Hr.
  assert (v = if v <? 0 then - Z.abs v else Z.abs v) as E by (destruct (Z.ltb_spec v 0); lia). rewrite E at 2. eapply owns_assign; try done. intros ?%Z.ltb_lt. lia.
Qed.

(** An encoding of zero with the sign bit: the result has a sign, and is smaller than zero. *)
Lemma gob_minus_zero : (let '(w, x) := alloc start in let '(w, y) := alloc w in '(w, err) ← @GobDecode machine64 w x [3];
  s ← Sign w x; c ← Cmp w x y; Ret (err, s, c)) = Ret (None, 0, -1).
Proof. by vm_compute. Qed.
End proofs.
