(* ===== verification/BigGcd.v ===== *)
(** Binomial coefficients, greatest common divisors by the extended Euclidean and the
    binary algorithms, and modular inverses: [src/src/math/big/int.go]. *)
From S2P Require Import Prelude.
From S2P Require Import BigWord.
From S2P Require Import BigVec.
From S2P Require Import BigNat.
From S2P Require Import BigMul.
From S2P Require Import BigProduct.
From S2P Require Import BigDiv.
From S2P Require Import BigBits.
From S2P Require Import BigInt.
From S2P Require Import BigIntBits.

(** [*z = *p]: the two [Int]s share their storage from then on. *)
Definition copy_int (w : world) (z p : ptr) : go world :=
  pi ← deref w p;
  _ ← deref w z;
  Ret (assign w z (mem_ w) pi).

(** What is done where an argument is not [nil]. *)
Definition if_given (x : option ptr) (f : world → ptr → go world) (w : world) : go world :=
  match x with Some p => f w p | None => Ret w end.

Section gcd.
Context `{M : Machine}.

Definition Binomial (w : world) (z : ptr) (n k : Z) : go world :=
  let '(w, a) := alloc w in
  let '(w, b) := alloc w in
  w ← MulRange w a (i64 (i64 (n - k) + 1)) n;
  w ← MulRange w b 1 k;
  Quo w z a b.

(** A coefficient of the extended algorithm takes its next value, and [last] its old one. *)
Definition next_coefficient (w : world) (X last q temp : ptr) : go world :=
  w ← Set_ w temp X;
  w ← Mul w X X q;
  xi ← deref w X;
  let w := assign w X (mem_ w) (mkInt (negb (neg xi)) (abs xi)) in
  w ← Add w X X last;
  Set_ w last temp.

Definition euclid_step (X Y lastX lastY q temp : ptr) : world * ptr * ptr → go (world * ptr * ptr) := λ '(w, A, B),
  let '(w, r) := alloc w in
  w ← QuoRem w q A B r;
  let '(A, B) := (B, r) in
  w ← next_coefficient w X lastX q temp;
  w ← next_coefficient w Y lastY q temp;
  Ret (w, A, B).

(** [u] gets the shorter of the numbers, and [v] the remainder of the other one by it. *)
Definition binary_start (w : world) (u v a b : ptr) : go world :=
  ai ← deref w a;
  bi ← deref w b;
  if len (abs bi) <? len (abs ai) then w ← Set_ w u b; Rem w v a b
  else if len (abs ai) <? len (abs bi) then w ← Set_ w u a; Rem w v b a
  else w ← Set_ w u a; Set_ w v b.

Definition binary_step : world * ptr * ptr * ptr → go (world * ptr * ptr * ptr) := λ '(w, u, v, t),
  ti ← deref w t;
  n ← nat_trailingZeroBits (mem_ w) (abs ti);
  w ← Rsh w t t n;
  ti ← deref w t;
  '(w, u, v, t) ←
    (if neg ti then
       let '(v, t) := (t, v) in
       vi ← deref w v;
       Ret (assign w v (mem_ w) (mkInt ((0 <? len (abs vi)) && negb (neg vi)) (abs vi)), u, v, t)
     else let '(u, t) := (t, u) in Ret (w, u, v, t));
  w ← Sub w t u v;
  Ret (w, u, v, t).

(** From two positive numbers on, one of them odd: [z] gets [2^k] times their greatest common divisor. *)
Definition binary_reduce (w : world) (z u v : ptr) (k : Z) : go world :=
  let '(w, t) := alloc w in
  ui ← deref w u;
  u0 ← at_ (mem_ w) (abs ui) 0;
  w ← (if negb (Z.land u0 1 =? 0) then Neg w t v else Set_ w t u);
  vi ← deref w v;
  '(w, u, v, t) ← while (Z.to_nat ((len (abs ui) + len (abs vi)) * _W) + 2)
    (λ '(w, u, v, t), ti ← deref w t; Ret (0 <? len (abs ti))) binary_step (w, u, v, t);
  Lsh w z u k.

Definition binaryGCD (w : world) (z a b : ptr) : go world :=
  let u := z in
  let '(w, v) := alloc w in
  w ← binary_start w u v a b;
  vi ← deref w v;
  if len (abs vi) =? 0 then Ret w else
  ui ← deref w u;
  k ← nat_trailingZeroBits (mem_ w) (abs ui);
  vk ← nat_trailingZeroBits (mem_ w) (abs vi);
  let k := if vk <? k then vk else k in
  w ← Rsh w u u k;
  w ← Rsh w v v k;
  binary_reduce w z u v k.

(** [GCD] where a coefficient is asked for. *)
Definition extendedGCD (w : world) (z : ptr) (x y : option ptr) (a b : ptr) : go world :=
  let '(w, A) := alloc w in w ← Set_ w A a;
  let '(w, B) := alloc w in w ← Set_ w B b;
  let '(w, X) := alloc w in
  let '(w, Y) := alloc w in w ← SetInt64 w Y 1;
  let '(w, lastX) := alloc w in w ← SetInt64 w lastX 1;
  let '(w, lastY) := alloc w in
  let '(w, q) := alloc w in
  let '(w, temp) := alloc w in
  Ai ← deref w A;
  Bi ← deref w B;
  '(w, A, B) ← while (Z.to_nat ((len (abs Ai) + len (abs Bi)) * _W) + 3)
    (λ '(w, A, B), Bi ← deref w B; Ret (0 <? len (abs Bi))) (euclid_step X Y lastX lastY q temp) (w, A, B);
  w ← if_given x (λ w x, copy_int w x lastX) w;
  w ← if_given y (λ w y, copy_int w y lastY) w;
  copy_int w z A.

Definition GCD (w : world) (z : ptr) (x y : option ptr) (a b : ptr) : go world :=
  sa ← Sign w a;
  sb ← Sign w b;
  if (sa <=? 0) || (sb <=? 0) then
    w ← SetInt64 w z 0;
    w ← if_given x (λ w x, SetInt64 w x 0) w;
    if_given y (λ w y, SetInt64 w y 0) w
  else
    match x, y with
    | None, None => binaryGCD w z a b
    | _, _ => extendedGCD w z x y a b
    end.

Definition ModInverse (w : world) (z g n : ptr) : go world :=
  let '(w, d) := alloc w in
  w ← GCD w d (Some z) None g n;
  zi ← deref w z;
  if neg zi then Add w z z n else Ret w.
End gcd.

Definition set_all (w : world) (vs : list Z) : go world :=
  (fix go_ (w : world) vs := match vs with [] => Ret w | v :: vs => let '(w, p) := alloc w in w ← @SetInt64 machine64 w p v; go_ w vs end) w vs.

(** The value of a small number. *)
Definition small (w : world) (p : ptr) : go Z :=
  pi ← deref w p;
  if len (abs pi) =? 0 then Ret 0 else a ← idx (mem_ w) (off (abs pi)); Ret (if neg pi then - a else a).

Example gcd_run : (w ← set_all start [240; 46; 5; 7; 9]; w ← @GCD machine64 w 5%nat (Some 3%nat) (Some 4%nat) 1%nat 2%nat;
  g ← small w 5%nat; x ← small w 3%nat; y ← small w 4%nat; w ← @GCD machine64 w 5%nat None None 1%nat 2%nat; g' ← small w 5%nat; 
  w ← @Binomial machine64 w 5%nat 10 3; c ← small w 5%nat; Ret (g, x, y, g', c)) = Ret (2, -9, 47, 2, 120).
Proof. by vm_compute. Qed.
(** The receiver overwrites a number that is still needed: 4 for the greatest common divisor of
    4 and 6, -6 for the inverse of 2 modulo 7. *)
Example gcd_alias : (w ← set_all start [4; 6]; w ← @GCD machine64 w 2%nat None None 1%nat 2%nat; small w 2%nat) = Ret 4.
Proof. by vm_compute. Qed.
Example mod_inverse_alias : (w ← set_all start [2; 7]; w ← @ModInverse machine64 w 2%nat 1%nat 2%nat; small w 2%nat) = Ret (-6).
Proof. by vm_compute. Qed.

(** * Arithmetic *)

(** The steps that the Euclidean algorithm can still take. *)
Definition euclid_left (a b : Z) : Z := if b =? 0 then 0 else Z.log2 (a * b) + 1 + (if a <=? b then 1 else 0).

Lemma log2_half x y : 0 < x → 2 * x <= y → Z.log2 x + 1 <= Z.log2 y.
Proof. intros Hx Hy%Z.log2_le_mono. rewrite Z.log2_double in Hy by done. clear Hx. lia. Qed.

Lemma euclid_left_step a b : 0 < a → 0 < b → 0 <= euclid_left b (a mod b) < euclid_left a b.
Proof.
  intros Ha Hb. unfold euclid_left. pose proof (Z.mod_pos_bound a b Hb). pose proof (Z.log2_nonneg (a * b)). pose proof (Z.log2_nonneg (b * (a mod b))).
  rewrite (proj2 (Z.eqb_neq b 0)) by lia. destruct (Z.eqb_spec (a mod b) 0) as [E|E]; [destruct (a <=? b); lia|].
  rewrite (proj2 (Z.leb_gt b (a mod b))) by lia. destruct (Z.leb_spec a b) as [Hab|Hab].
  - rewrite Z.mod_small by (destruct (decide (a = b)) as [->|]; [by rewrite Z.mod_same in E by lia|lia]). rewrite (Z.mul_comm b a). lia.
  - assert (a mod b + b <= a) by (pose proof (Z.div_mod a b ltac:(lia)); assert (1 <= a / b) by (apply Z.div_le_lower_bound; lia); nia).
    pose proof (log2_half (b * (a mod b)) (a * b)). nia.
Qed.

Lemma euclid_left_bound a b n : 0 < a → 0 < b → a * b < 2 ^ n → 0 <= n → 0 <= euclid_left a b < n + 3.
Proof.
  intros Ha Hb Hn Hn0. unfold euclid_left. rewrite (proj2 (Z.eqb_neq b 0)) by lia. pose proof (Z.log2_nonneg (a * b)).
  assert (Z.log2 (a * b) < n) by (apply Z.log2_lt_pow2; nia). destruct (a <=? b); lia.
Qed.

Lemma gcd_odd_twice o m : Z.odd o = true → Z.gcd o (2 * m) = Z.gcd o m.
Proof.
  intros Ho. apply Z.gcd_unique; [apply Z.gcd_nonneg|apply Z.gcd_divide_l|apply Z.divide_mul_r, Z.gcd_divide_r|].
  intros d Hd Hd2. apply Z.gcd_greatest; [done|]. apply (Z.gauss d 2 m Hd2).
  apply Z.gcd_unique; [lia|apply Z.divide_1_l..|]. intros e He He2.
  assert (Z.abs e <= 2) by (by apply Z.divide_pos_le, Z.divide_abs_l). destruct (decide (2 = e ∨ -2 = e)) as [E|E].
  - assert (2 | o)%Z as [q ->] by (eapply Z.divide_trans; [|exact Hd]; eapply Z.divide_trans; [|exact He]; destruct E as [<-|<-]; [done|by exists (-1)]).
    by rewrite Z.odd_mul, andb_false_r in Ho.
  - destruct He2 as [q Hq]. assert (e ≠ 0) by lia. assert (e = 1 ∨ e = -1) as [-> | ->] by lia; [done|by exists (-1)].
Qed.

Lemma gcd_odd_pow2 o k m : Z.odd o = true → 0 <= k → Z.gcd o (2 ^ k * m) = Z.gcd o m.
Proof.
  intros Ho Hk. pattern k. apply natlike_ind; [by rewrite Z.mul_1_l| |done]. intros x Hx IH.
  rewrite Z.pow_succ_r, <- Z.mul_assoc, gcd_odd_twice by done. done.
Qed.

(** What the binary algorithm keeps: the greatest common divisor [g] is that of [t] and of the
    number that was not replaced, which is odd; at most [n] steps are left. *)
Definition binary_inv (g n U V T : Z) : Prop := 0 < U ∧ 0 < V ∧
  (T = 0 ∧ U = g ∧ n = 0 ∨
   ∃ k c, 0 <= k ∧ 0 <= c ∧ Z.abs T = 2 ^ k * (2 * c + 1) ∧
     let o := if T <? 0 then U else V in Z.odd o = true ∧ Z.gcd o T = g ∧ n = Z.log2 (o * (2 * c + 1)) + 1).

Lemma odd_double c : Z.odd (2 * c + 1) = true.
Proof. by rewrite Z.odd_add, Z.odd_mul. Qed.

Lemma binary_inv_step U V : 0 < U → 0 < V → Z.odd U = true → Z.odd V = true →
  ∃ n, binary_inv (Z.gcd U V) n U V (U - V) ∧ 0 <= n < Z.log2 (U * V) + 1.
Proof.
  intros HU HV HoU HoV. destruct (decide (U = V)) as [->|Hne].
  - exists 0. rewrite Z.sub_diag, Z.gcd_diag, Z.abs_eq by lia. split; [|pose proof (Z.log2_nonneg (V * V)); lia]. split; [done|]. split; [done|]. by left.
  - assert (∃ d, 0 < d ∧ Z.abs (U - V) = 2 * d) as (d & Hd & E).
    { apply Z.odd_spec in HoU as [a ->]. apply Z.odd_spec in HoV as [b ->]. exists (Z.abs (a - b)). lia. }
    destruct (odd_part d Hd) as (k & c & Hk & Ec). pose proof (Z.pow_pos_nonneg 2 k ltac:(lia) Hk).
    assert (0 <= c) by nia. assert (2 * c + 1 <= d) by nia.
    set (o := if U - V <? 0 then U else V). exists (Z.log2 (o * (2 * c + 1)) + 1).
    assert (0 < o ∧ o * (2 * d) <= U * V) as [Ho Hod].
    { rewrite <- E. unfold o. destruct (Z.ltb_spec (U - V) 0); split; nia. }
    split.
    + split; [done|]. split; [done|]. right. exists (k + 1), c. split; [lia|]. split; [done|]. split; [rewrite Z.pow_add_r, E, Ec by lia; lia|].
      fold o. split; [by unfold o; destruct (_ <? 0)|]. split; [|done]. unfold o. destruct (_ <? 0).
      * replace (U - V) with (- (V + (-1) * U)) by lia. by rewrite Z.gcd_opp_r, Z.gcd_add_mult_diag_r.
      * replace (U - V) with (U + (-1) * V) by lia. rewrite Z.gcd_add_mult_diag_r. apply Z.gcd_comm.
    + pose proof (Z.log2_nonneg (o * (2 * c + 1))). pose proof (log2_half (o * (2 * c + 1)) (U * V)). nia.
Qed.

(** The first value of [t]. *)
Lemma binary_inv_start U V : 0 < U → 0 < V → Z.odd U = true ∨ Z.odd V = true →
  ∃ n, binary_inv (Z.gcd U V) n U V (if Z.odd U then - V else U) ∧ 0 <= n <= Z.log2 (U * V) + 1.
Proof.
  intros HU HV Ho. set (o := if Z.odd U then U else V). set (t := if Z.odd U then V else U).
  assert (0 < o ∧ 0 < t ∧ o * t = U * V ∧ Z.odd o = true) as (Hop & Htp & E & Hoo) by (unfold o, t; destruct (Z.odd U) eqn:EU; (split; [done|]; split; [done|]; split; [lia|]); [done|by destruct Ho]).
  destruct (odd_part t Htp) as (k & c & Hk & Ec). pose proof (Z.pow_pos_nonneg 2 k ltac:(lia) Hk). assert (0 <= c) by nia.
  exists (Z.log2 (o * (2 * c + 1)) + 1). split.
  - split; [done|]. split; [done|]. right. exists k, c. split; [done|]. split; [done|]. rewrite <- Ec. subst o t. destruct (Z.odd U).
    + rewrite (proj2 (Z.ltb_lt _ _)) by lia. split; [lia|]. simpl. by rewrite Z.gcd_opp_r.
    + rewrite (proj2 (Z.ltb_ge _ _)) by lia. split; [lia|]. simpl. by rewrite Z.gcd_comm.
  - pose proof (Z.log2_nonneg (o * (2 * c + 1))). pose proof (Z.log2_le_mono (o * (2 * c + 1)) (U * V)). nia.
Qed.

(** * Storage *)

Section proofs.
Context `{M : Machine}.
Abbreviation words m := (Forall is_word m).

Lemma wp_alloc {A} w V (K : world → ptr → go A) (Q : A → Prop) : owns w V →
  (∀ w' p, owns w' (<[p := 0]> V) → V !! p = None → p ≠ intOne → K w' p ⇓ Q) → (let '(w', p) := alloc w in K w' p) ⇓ Q.
Proof. intros Hw HK. pose proof (owns_alloc w V Hw) as (? & ? & ?). by apply HK. Qed.

(** What an operation leaves in [z], and the rest as in [W], which nothing else has changed. *)
Lemma owns_result w V V1 z v : owns w (<[z := v]> V1) → delete z V ⊆ V1 → z ≠ intOne → V !! intOne = Some 1 → owns w (<[z := v]> V).
Proof.
  intros Hw Hsub Hz H1. eapply (owns_sub _ _ _ Hw); [by rewrite lookup_insert_ne|]. intros p u. rewrite <- insert_delete_eq.
  apply map_subseteq_spec. by apply insert_mono.
Qed.

Lemma insert_alive (V : gmap nat Z) p q v : is_Some (V !! p) → is_Some (<[q := v]> V !! p).
Proof. intros. apply lookup_insert_is_Some'. by right. Qed.

Lemma alive (W V : gmap nat Z) p v : W !! p = Some v → W ⊆ V → V !! p = Some v.
Proof. intros Hp HW. by eapply lookup_weaken. Qed.

(** [*z = *p], where [p] is not used any more. *)
Lemma copy_int_spec w V z p v vz : owns w V → z ≠ intOne → p ≠ intOne → z ≠ p → V !! p = Some v → V !! z = Some vz →
  copy_int w z p ⇓ λ w', owns w' (<[z := v]> (delete p V)).
Proof.
  intros Hw Hz Hp Hzp Hvp Hvz. unfold copy_int. operand_of Hw p pi Epi Np Sp. operand_of Hw z zi Ezi Nz Sz. apply wp_ret.
  assert (v = if neg pi then - Z.abs v else Z.abs v) as E by (rewrite Sp; destruct (Z.ltb_spec v 0); lia). rewrite E at 1.
  replace pi with (mkInt (neg pi) (abs pi)) at 1 by (by destruct pi).
  apply owns_update; [by apply (owns_drop w V Hw)|done|by eexists|by eapply owns_words|done| |].
  - rewrite Sp. intros ?%Z.ltb_lt. lia.
  - intros q x u Hqz [u' [Hpq Hq]%lookup_delete_Some] Ex Nx. split; [done|]. eapply (owns_apart w V Hw p q); try done; by eexists.
Qed.

(** The length of a positive number bounds its value. *)
Lemma product_bound m x vx m' y vy : words m → words m' → is_nat m x vx → is_nat m' y vy →
  vx * vy < 2 ^ ((len x + len y) * _W) ∧ 0 <= (len x + len y) * _W.
Proof.
  intros Hm Hm' Nx Ny. destruct (nat_pos _ _ _ Hm Nx) as [Hbx _]. destruct (nat_pos _ _ _ Hm' Ny) as [Hby _].
  pose proof (proj1 Nx) as (_ & [? _] & _). pose proof (proj1 Ny) as (_ & [? _] & _). pose proof _W_pos.
  rewrite _B_bits in Hbx, Hby by done. rewrite Z.mul_add_distr_r, Z.pow_add_r by lia. split; [|lia]. apply Z.mul_lt_mono_nonneg; lia.
Qed.

Lemma len_pos w V x v xi : owns w V → V !! x = Some v → ints w !! x = Some xi → (0 <? len (abs xi)) = negb (v =? 0).
Proof.
  intros Hw Hx Exi. destruct (owns_deref _ _ Hw x _ Hx) as (xi' & E & _ & Nx & _). simplify_eq. rewrite (nat_len_pos _ _ _ (owns_words _ _ Hw) Nx).
  destruct (Z.ltb_spec 0 (Z.abs v)), (Z.eqb_spec v 0); (done || lia).
Qed.

Lemma low_bit w V x v xi : owns w V → V !! x = Some v → ints w !! x = Some xi → 0 < v →
  ∃ d, at_ (mem_ w) (abs xi) 0 = Ret d ∧ negb (Z.land d 1 =? 0) = Z.odd v.
Proof.
  intros Hw Hx Exi Hv. destruct (owns_deref _ _ Hw x _ Hx) as (xi' & E & _ & Nx & _). simplify_eq. pose proof Nx as (Hvx & Ex & _).
  assert (0 < len (abs xi)) as Hl. { apply Z.ltb_lt. rewrite (len_pos w V x v xi) by done. apply negb_true_iff, Z.eqb_neq. lia. }
  eexists. split; [apply at_eq; [done|lia]|]. rewrite Z.abs_eq in Ex by lia. rewrite <- Ex, land_1, Z.add_0_r.
  replace (len (abs xi)) with (1 + (len (abs xi) - 1)) by lia. rewrite num_app, num_one, Z.pow_1_r by lia. destruct _B_half as (h & -> & _).
  rewrite Z.odd_add, <- Z.mul_assoc, Z.odd_mul, xorb_false_r, Zmod_odd. by destruct (Z.odd _).
Qed.

(** ** Binomial coefficients *)

(** Pascal's triangle. *)
Fixpoint choose (n k : nat) : Z :=
  match n, k with
  | _, O => 1
  | O, S _ => 0
  | S n', S k' => choose n' k' + choose n' k
  end.

Lemma choose_above n k : (n < k)%nat → choose n k = 0.
Proof. revert k. induction n as [|n IH]; intros [|k] H; [lia|done|lia|]. cbn [choose]. by rewrite !IH by lia. Qed.
Lemma choose_diag n : choose n n = 1.
Proof. induction n as [|n IH]; [done|]. cbn [choose]. rewrite IH, choose_above by lia. done. Qed.

Lemma range_product_snoc a b : a <= b + 1 → range_product a (b + 1) = range_product a b * (b + 1).
Proof. intros H. destruct (decide (a = b + 1)) as [->|]; [by rewrite range_product_one, range_product_empty by lia; lia|]. by rewrite (range_product_split a b (b + 1)), range_product_one by lia. Qed.
Lemma range_product_cons a b : a <= b → range_product a b = a * range_product (a + 1) b.
Proof. intros H. by rewrite (range_product_split a a b), range_product_one by lia. Qed.

(** The [k] greatest factors of [n!] are those of [k!], as often as there are choices of [k] out of [n]. *)
Lemma choose_product n k : range_product (Z.of_nat n - Z.of_nat k + 1) (Z.of_nat n) = choose n k * range_product 1 (Z.of_nat k).
Proof.
  revert k. induction n as [|n IH]; intros k.
  - destruct k as [|k]; [by rewrite !range_product_empty by lia|]. rewrite range_product_has_zero by lia. cbn [choose]. lia.
  - destruct k as [|k]; [by rewrite !range_product_empty by lia|]. cbn [choose]. rewrite Z.mul_add_distr_r.
    replace (Z.of_nat (S n) - Z.of_nat (S k) + 1) with (Z.of_nat n - Z.of_nat k + 1) by lia.
    assert (range_product (Z.of_nat n - Z.of_nat k) (Z.of_nat n) = choose n (S k) * range_product 1 (Z.of_nat (S k))) as <-.
    { rewrite <- IH. f_equal. lia. }
    rewrite !Nat2Z.inj_succ, <- !Z.add_1_r, range_product_snoc by lia. rewrite (range_product_snoc 1 (Z.of_nat k)) by lia.
    specialize (IH k). destruct (decide (n < k)%nat) as [Hlt|Hge].
    + rewrite IH, choose_above by done. rewrite (range_product_has_zero (Z.of_nat n - Z.of_nat k)) by lia. lia.
    + rewrite (range_product_cons (Z.of_nat n - Z.of_nat k)) by lia. rewrite IH. lia.
Qed.

Lemma Binomial_spec w V z vz n k : owns w V → z ≠ intOne → V !! z = Some vz → 0 <= n < 2 ^ 63 → 0 <= k < 2 ^ 63 → n - k + 1 < 2 ^ 63 →
  Binomial w z n k ⇓ λ w', owns w' (<[z := choose (Z.to_nat n) (Z.to_nat k)]> V).
Proof.
  intros Hw Hz Hvz Hn Hk Hnk. unfold Binomial. apply (wp_alloc w V); [done|]. intros w1 a Hw1 Ha Ha1. apply (wp_alloc w1 _ _ _ Hw1). intros w2 b Hw2 Hb Hb1.
  assert (a ≠ b) as Hab by (intros ->; by rewrite lookup_insert_eq in Hb). rewrite lookup_insert_ne in Hb by done.
  assert (z ≠ a ∧ z ≠ b) as [Hza Hzb] by (split; congruence).
  rewrite (swrap_small 64 (n - k)), (swrap_small 64 (n - k + 1)) by lia.
  eapply wp_bind_mono; [eapply (MulRange_spec w2 _ a); [exact Hw2|done|lookups|lia|lia]|]. intros w3 Hw3.
  eapply wp_bind_mono; [eapply (MulRange_spec w3 _ b); [exact Hw3|done|lookups|lia|lia]|]. intros w4 Hw4.
  pose proof (range_product_pos 1 k ltac:(lia)) as Hpos. pose proof (choose_product (Z.to_nat n) (Z.to_nat k)) as E. rewrite !Z2Nat.id in E by lia.
  assert (Z.quot (range_product (n - k + 1) n) (range_product 1 k) = choose (Z.to_nat n) (Z.to_nat k)) as Eq by (rewrite E; apply Z.quot_mul; lia).
  unshelve epose proof (Quo_spec w4 _ Hw4 z vz Hz _ a b (range_product (n - k + 1) n) (range_product 1 k) _ _) as H; [lookups..|].
  rewrite decide_False in H by lia. eapply wp_mono; [exact H|]. intros w5 Hw5. rewrite Eq in Hw5. owns_lookups Hw5.
Qed.

(** For the greatest [n] the number [n - k + 1] overflows. *)
Lemma Binomial_overflow : (w ← set_all start [5]; w ← @Binomial machine64 w 1%nat (2 ^ 63 - 1) 0; small w 1%nat) = Ret 0.
Proof. by vm_compute. Qed.

(** ** The binary algorithm *)

(** [u], [v] and [t] are pointers that [W] does not mention: the receiver and two new ones. *)
Definition binary_state (W : gmap nat Z) (z : ptr) (g n : Z) : world * ptr * ptr * ptr → Prop := λ '(w, u, v, t),
  ∃ V U Vv T, owns w V ∧ W ⊆ V ∧ is_Some (V !! z) ∧ (W !! u = None ∧ W !! v = None ∧ W !! t = None) ∧ (u ≠ v ∧ u ≠ t ∧ v ≠ t) ∧
    (V !! u = Some U ∧ V !! v = Some Vv ∧ V !! t = Some T) ∧ binary_inv g n U Vv T.

Lemma abs_shift T k c : 0 <= k → 0 <= c → Z.abs T = 2 ^ k * (2 * c + 1) → Z.shiftr T k = if T <? 0 then - (2 * c + 1) else 2 * c + 1.
Proof.
  intros Hk Hc E. pose proof (Z.pow_pos_nonneg 2 k ltac:(lia) Hk). rewrite Z.shiftr_div_pow2 by done. destruct (Z.ltb_spec T 0).
  - replace T with (- (2 * c + 1) * 2 ^ k) by lia. apply Z.div_mul. lia.
  - replace T with ((2 * c + 1) * 2 ^ k) by lia. apply Z.div_mul. lia.
Qed.

Lemma binary_step_spec W z g n w u v t ti : W !! intOne = Some 1 → binary_state W z g n (w, u, v, t) → ints w !! t = Some ti → (0 <? len (abs ti)) = true →
  binary_step (w, u, v, t) ⇓ λ s, ∃ n', binary_state W z g n' s ∧ 0 <= n' < n.
Proof.
  intros H1 (V & U & Vv & T & Hw & HW & Hz & (Wu & Wv & Wt) & (Huv & Hut & Hvt) & (Hu & Hv & Ht) & HU & HV & HT) Eti Hl.
  assert (u ≠ intOne ∧ v ≠ intOne ∧ t ≠ intOne) as (Hu1 & Hv1 & Ht1) by (split; [|split]; congruence).
  rewrite (len_pos w V t T ti Hw Ht Eti) in Hl. apply negb_true_iff, Z.eqb_neq in Hl.
  destruct HT as [[? _]|(k & c & Hk & Hc & ET & Ho & Hg & Hn)]; [done|]. pose proof (abs_shift T k c Hk Hc ET) as ES.
  unfold binary_step. operand_of Hw t ti' Eti' Nt St. erewrite nat_trailingZeroBits_spec; [|by eapply owns_words|exact Nt|exact Hk|exact ET]. rewrite go_bind_ret.
  eapply wp_bind_mono; [by eapply (Rsh_spec w V Hw t T Ht1 Ht t T Ht k)|]. intros w1 Hw1. rewrite ES in Hw1.
  set (s := 2 * c + 1) in *. set (V1 := <[t := _]> V) in Hw1.
  assert (V1 !! t = Some (if T <? 0 then - s else s) ∧ V1 !! u = Some U ∧ V1 !! v = Some Vv ∧ W ⊆ V1 ∧ is_Some (V1 !! z)) as (Ht' & Hu' & Hv' & HW1 & Hz1).
  { unfold V1. split; [by lookups|]. split; [by lookups|]. split; [by lookups|]. split; [by apply insert_subseteq_r|by apply insert_alive]. }
  operand_of Hw1 t ti1 Eti1 Nt1 St1. rewrite St1. clear Nt St. destruct (Z.ltb_spec T 0) as [Hneg|Hpos]; simpl in Ho, Hg, Hn.
  - rewrite (proj2 (Z.ltb_lt _ _)) by lia. cbv beta iota zeta. rewrite !go_bind_ret.
    rewrite St1, (len_pos w1 V1 t (- s) ti1) by done. rewrite (proj2 (Z.ltb_lt _ _)), (proj2 (Z.eqb_neq _ _)) by lia. simpl.
    pose proof (owns_neg w1 V1 t ti1 (- s) false Hw1 Ht1 Ht' Eti1 ltac:(done)) as Hw2. simpl in Hw2. replace (Z.abs (- s)) with s in Hw2 by lia.
    eapply wp_bind_mono; [unshelve eapply (Int_Sub_spec _ _ Hw2 v Vv Hv1 _ u t U s); lookups|]. intros w3 Hw3. apply wp_ret.
    destruct (binary_inv_step U s HU ltac:(lia) Ho (odd_double c)) as (n' & Hi & Hn').
    exists n'. split; [|rewrite <- Hn in Hn'; exact Hn']. exists (<[v := U - s]> (<[t := s]> V1)), U, s, (U - s).
    split; [exact Hw3|]. split; [by repeat apply insert_subseteq_r|]. split; [by repeat apply insert_alive|].
    split; [done|]. split; [done|]. split; [split; [|split]; lookups|].
    replace g with (Z.gcd U s); [done|]. rewrite <- Hg, <- (Z.gcd_abs_r U T), ET. symmetry. by apply gcd_odd_pow2.
  - rewrite (proj2 (Z.ltb_ge _ _)) by lia. cbv beta iota zeta. rewrite go_bind_ret.
    eapply wp_bind_mono; [unshelve eapply (Int_Sub_spec _ _ Hw1 u U Hu1 _ t v s Vv); lookups|]. intros w3 Hw3. apply wp_ret.
    destruct (binary_inv_step s Vv ltac:(lia) HV (odd_double c) Ho) as (n' & Hi & Hn').
    exists n'. split; [|rewrite (Z.mul_comm s Vv), <- Hn in Hn'; exact Hn']. exists (<[u := s - Vv]> V1), s, Vv, (s - Vv).
    split; [exact Hw3|]. split; [by apply insert_subseteq_r|]. split; [by apply insert_alive|].
    split; [done|]. split; [done|]. split; [split; [|split]; lookups|].
    replace g with (Z.gcd s Vv); [done|]. rewrite <- Hg, <- (Z.gcd_abs_r Vv T), ET, gcd_odd_pow2 by done. apply Z.gcd_comm.
Qed.

Lemma binary_start_spec w V u v a b vu vv va vb : owns w V → u ≠ intOne → v ≠ intOne → u ≠ v → u ≠ a → u ≠ b → v ≠ a → v ≠ b →
  V !! u = Some vu → V !! v = Some vv → V !! a = Some va → V !! b = Some vb → 0 < va → 0 < vb →
  binary_start w u v a b ⇓ λ w', ∃ xu xv, owns w' (<[v := xv]> (<[u := xu]> V)) ∧ 0 < xu ∧ 0 <= xv ∧ Z.gcd xu xv = Z.gcd va vb.
Proof.
  intros Hw Hu1 Hv1 Huv Hua Hub Hva Hvb Hu Hv Ha Hb Pa Pb. unfold binary_start. operand_of Hw a ai Eai Na Sa. operand_of Hw b bi Ebi Nb Sb. clear Na Sa Nb Sb.
  destruct (len (abs bi) <? len (abs ai)); [|destruct (len (abs ai) <? len (abs bi))].
  - eapply wp_bind_mono; [by eapply (Set_spec w V Hw u b)|]. intros w1 Hw1.
    unshelve epose proof (Rem_spec w1 _ Hw1 v vv Hv1 _ a b va vb _ _) as Hr; [lookups..|]. rewrite decide_False in Hr by lia.
    eapply wp_mono; [exact Hr|]. intros w2 Hw2. exists vb, (Z.rem va vb). rewrite Z.rem_mod_nonneg in * by lia. pose proof (Z.mod_pos_bound va vb Pb).
    split; [done|]. split; [done|]. split; [lia|]. rewrite Z.gcd_comm, Z.gcd_mod by lia. apply Z.gcd_comm.
  - eapply wp_bind_mono; [by eapply (Set_spec w V Hw u a)|]. intros w1 Hw1.
    unshelve epose proof (Rem_spec w1 _ Hw1 v vv Hv1 _ b a vb va _ _) as Hr; [lookups..|]. rewrite decide_False in Hr by lia.
    eapply wp_mono; [exact Hr|]. intros w2 Hw2. exists va, (Z.rem vb va). rewrite Z.rem_mod_nonneg in * by lia. pose proof (Z.mod_pos_bound vb va Pa).
    split; [done|]. split; [done|]. split; [lia|]. rewrite Z.gcd_comm. by apply Z.gcd_mod; lia.
  - eapply wp_bind_mono; [by eapply (Set_spec w V Hw u a)|]. intros w1 Hw1.
    eapply wp_mono; [eapply (Set_spec w1 _ Hw1 v b vv vb Hv1); lookups|]. intros w2 Hw2. exists va, vb. split; [done|]. split; [done|]. split; [lia|done].
Qed.

(** The common power of two. *)
Lemma common_twos x y : 0 < x → 0 < y → ∃ kx ax ky ay, 0 <= kx ∧ 0 <= ky ∧ x = 2 ^ kx * (2 * ax + 1) ∧ y = 2 ^ ky * (2 * ay + 1) ∧
  let k := if ky <? kx then ky else kx in
  let x' := Z.shiftr x k in let y' := Z.shiftr y k in
  0 <= k ∧ 0 < x' ∧ 0 < y' ∧ (Z.odd x' = true ∨ Z.odd y' = true) ∧ Z.gcd x y = Z.gcd x' y' * 2 ^ k.
Proof.
  intros Hx Hy. destruct (odd_part x Hx) as (kx & ax & Hkx & Ex), (odd_part y Hy) as (ky & ay & Hky & Ey). exists kx, ax, ky, ay.
  do 4 (split; [done|]). intros k x' y'. assert (0 <= k) as Hk by (unfold k; destruct (ky <? kx); lia). split; [done|].
  assert (∀ n a, k <= n → Z.shiftr (2 ^ n * (2 * a + 1)) k = 2 ^ (n - k) * (2 * a + 1)) as Hs.
  { intros n a Hn. rewrite Z.shiftr_div_pow2 by done. replace n with ((n - k) + k) at 1 by lia. rewrite Z.pow_add_r by lia.
    replace (2 ^ (n - k) * 2 ^ k * (2 * a + 1)) with (2 ^ (n - k) * (2 * a + 1) * 2 ^ k) by lia. apply Z.div_mul. lia. }
  assert (k <= kx ∧ k <= ky ∧ (k = kx ∨ k = ky)) as (Hkx' & Hky' & Hor) by (unfold k; destruct (Z.ltb_spec ky kx); lia).
  assert (x' = 2 ^ (kx - k) * (2 * ax + 1)) as Ex' by (unfold x'; rewrite Ex; by apply Hs).
  assert (y' = 2 ^ (ky - k) * (2 * ay + 1)) as Ey' by (unfold y'; rewrite Ey; by apply Hs).
  assert (x = x' * 2 ^ k) as Exx by (rewrite Ex, Ex'; replace kx with ((kx - k) + k) at 1 by lia; rewrite Z.pow_add_r by lia; lia).
  assert (y = y' * 2 ^ k) as Eyy by (rewrite Ey, Ey'; replace ky with ((ky - k) + k) at 1 by lia; rewrite Z.pow_add_r by lia; lia).
  pose proof (Z.pow_pos_nonneg 2 k ltac:(lia) Hk). split; [nia|]. split; [nia|]. split.
  - destruct Hor as [E|E]; [left; rewrite Ex'|right; rewrite Ey']; rewrite <- E, Z.sub_diag, Z.mul_1_l; apply odd_double.
  - rewrite Exx at 1. rewrite Eyy at 1. rewrite Z.gcd_mul_mono_r, (Z.abs_eq (2 ^ k)) by lia. done.
Qed.

(** The loop ends with the greatest common divisor in [u]. *)
Lemma binary_loop W z g n fuel w u v t : W !! intOne = Some 1 → binary_state W z g n (w, u, v, t) → 0 <= n < Z.of_nat fuel →
  while fuel (λ '(w, u, v, t), ti ← deref w t; Ret (0 <? len (abs ti))) binary_step (w, u, v, t) ⇓ λ '(w', u', v', t'),
    ∃ V, owns w' V ∧ W ⊆ V ∧ is_Some (V !! z) ∧ V !! u' = Some g.
Proof.
  intros H1 HI Hn. apply wp_while_by with (I := binary_state W z g) (n := n); [|done|done]. clear n w u v t HI Hn.
  intros n [[[w u] v] t] HI. pose proof HI as (V & U & Vv & T & Hw & HW & Hz & _ & _ & (Hu & Hv & Ht) & _ & _ & HT).
  destruct (owns_deref _ _ Hw t _ Ht) as (ti & Eti & Ed & _). rewrite Ed, go_bind_ret. apply wp_ret. destruct (0 <? len (abs ti)) eqn:E; [by eapply binary_step_spec|].
  rewrite (len_pos w V t T ti Hw Ht Eti) in E. apply negb_false_iff, Z.eqb_eq in E. exists V. split; [done|]. split; [done|]. split; [done|].
  destruct HT as [(_ & <- & _)|(k & c & Hk & Hc & ET & _)]; [done|]. pose proof (Z.pow_pos_nonneg 2 k ltac:(lia) Hk). rewrite E in ET. simpl in ET. nia.
Qed.

Lemma wp_bind_ret {A B} (m : go A) (a : A) (f : A → go B) (Q : B → Prop) : m = Ret a → f a ⇓ Q → (x ← m; f x) ⇓ Q.
Proof. by intros ->. Qed.

Lemma binary_reduce_spec w V z v k U Vv : owns w V → z ≠ intOne → z ≠ v → V !! z = Some U → V !! v = Some Vv → 0 < U → 0 < Vv → Z.odd U = true ∨ Z.odd Vv = true → v ≠ intOne → 0 <= k →
  binary_reduce w z z v k ⇓ λ w', ∃ V', owns w' (<[z := Z.gcd U Vv * 2 ^ k]> V') ∧ delete v (delete z V) ⊆ V'.
Proof.
  intros Hw Hz1 Hzv Hz Hv PU PV Hodd Hv1 Hk. pose proof (owns_one w V Hw) as H1. unfold binary_reduce. apply (wp_alloc w V); [done|]. intros w1 t Hw1 Ht Ht1.
  assert (t ≠ z ∧ t ≠ v) as [Htz Htv] by (split; congruence). set (V1 := <[t := 0]> V) in Hw1.
  assert (V1 !! z = Some U) as Hz5 by (unfold V1; lookups). assert (V1 !! v = Some Vv) as Hv5 by (unfold V1; lookups). assert (V1 !! t = Some 0) as Ht5 by (unfold V1; lookups).
  operand_of Hw1 z ui Eui Nu Su. destruct (low_bit w1 V1 z U ui Hw1 Hz5 Eui PU) as (d & Ed & Eo). rewrite Ed, go_bind_ret, Eo.
  destruct (binary_inv_start U Vv PU PV Hodd) as (n & Hinv & Hn). set (T := if Z.odd U then - Vv else U) in *.
  eapply wp_bind_mono with (Q := λ w2, owns w2 (<[t := T]> V1)).
  { unfold T. destruct (Z.odd U); [by eapply (Neg_spec w1 V1 t v)|by eapply (Set_spec w1 V1 Hw1 t z)]. }
  intros w2 Hw2. unfold V1 in Hw2. rewrite insert_insert_eq in Hw2. set (V2 := <[t := T]> V) in Hw2.
  assert (V2 !! z = Some U) as Hz6 by (unfold V2; lookups). assert (V2 !! v = Some Vv) as Hv6 by (unfold V2; lookups). assert (V2 !! t = Some T) as Ht6 by (unfold V2; lookups).
  operand_of Hw2 v vi Evi Nv Sv. rewrite Z.abs_eq in Nu, Nv by lia.
  assert (U * Vv < 2 ^ ((len (abs ui) + len (abs vi)) * _W) ∧ 0 <= (len (abs ui) + len (abs vi)) * _W) as [Hb1 Hb2].
  { apply (product_bound (mem_ w1) _ _ (mem_ w2)); [by eapply owns_words|by eapply owns_words|done|done]. }
  set (W := delete v (delete z V)). assert (W !! intOne = Some 1) as HW1 by (unfold W; by rewrite !lookup_delete_ne).
  assert (W !! z = None ∧ W !! v = None ∧ W !! t = None) as HWn by (unfold W; rewrite !lookup_delete; repeat case_decide; done).
  assert (W ⊆ V2) as HW2. { apply insert_subseteq_r; [apply HWn|]. unfold W. etrans; apply delete_subseteq. }
  eapply wp_bind_mono.
  { eapply (binary_loop W z (Z.gcd U Vv) n); [done| |].
    - exists V2, U, Vv, T. split; [done|]. split; [done|]. split; [by eexists|]. split; [done|]. split; [done|]. done.
    - assert (Z.log2 (U * Vv) < (len (abs ui) + len (abs vi)) * _W) by (apply Z.log2_lt_pow2; nia). lia. }
  intros [[[w3 u3] v3] t3] (V3 & Hw3 & HW3 & [z3 Hz3] & Hu3).
  eapply wp_mono; [eapply (Lsh_spec w3 V3 Hw3 z z3 Hz1 Hz3 u3 _ Hu3 k Hk)|]. intros w4 Hw4. rewrite Z.shiftl_mul_pow2 in Hw4 by done. by exists V3.
Qed.

(** The receiver must not be one of the numbers. *)
Lemma binaryGCD_spec w V z a b vz va vb : owns w V → z ≠ intOne → V !! z = Some vz → V !! a = Some va → V !! b = Some vb → 0 < va → 0 < vb → z ≠ a → z ≠ b →
  binaryGCD w z a b ⇓ λ w', owns w' (<[z := Z.gcd va vb]> V).
Proof.
  intros Hw Hz1 Hz Ha Hb Pa Pb Hza Hzb. pose proof (owns_one w V Hw) as H1. unfold binaryGCD. apply (wp_alloc w V); [done|]. intros w1 v Hw1 Hv Hv1.
  assert (v ≠ z ∧ v ≠ a ∧ v ≠ b) as (Hvz & Hva & Hvb) by (split; [|split]; congruence).
  eapply wp_bind_mono; [eapply (binary_start_spec w1 _ z v a b vz 0 va vb Hw1); try done; lookups|]. intros w2 (xu & xv & Hw2 & Pu & Pv & Hg). set (V2 := <[v := xv]> _) in Hw2.
  assert (V2 !! z = Some xu ∧ V2 !! v = Some xv) as [Hz2 Hv2] by (unfold V2; split; lookups).
  assert (delete z V ⊆ V2) as HW2.
  { unfold V2. apply insert_subseteq_r; [by rewrite lookup_delete_ne|]. apply insert_subseteq_r; [apply lookup_delete_eq|]. apply insert_subseteq_r; [by rewrite lookup_delete_ne|]. apply delete_subseteq. }
  operand_of Hw2 v vi Evi Nv Sv. pose proof (len_pos w2 V2 v xv vi Hw2 Hv2 Evi) as Hl. pose proof (proj1 Nv) as (_ & [Hl0 _] & _).
  destruct (Z.eqb_spec (len (abs vi)) 0) as [E0|E0].
  { rewrite E0 in Hl. symmetry in Hl. apply negb_false_iff, Z.eqb_eq in Hl. apply wp_ret. subst xv. rewrite Z.gcd_0_r, Z.abs_eq in Hg by lia. rewrite <- Hg.
    apply (owns_result w2 V V2); [by rewrite insert_id|done|done|done]. }
  assert (0 < xv) as Pv'. { rewrite (proj2 (Z.ltb_lt _ _)) in Hl by lia. symmetry in Hl. apply negb_true_iff, Z.eqb_neq in Hl. lia. }
  destruct (common_twos xu xv Pu Pv') as (ku & au & kv & av & Hku & Hkv & Eu & Ev & Hk & Pu' & Pv2 & Hodd & Hgcd).
  operand_of Hw2 z ui Eui Nu Su. rewrite Z.abs_eq in Nu, Nv by lia.
  eapply wp_bind_ret; [eapply nat_trailingZeroBits_spec; [by eapply owns_words|exact Nu|exact Hku|exact Eu]|].
  eapply wp_bind_ret; [eapply nat_trailingZeroBits_spec; [by eapply owns_words|exact Nv|exact Hkv|exact Ev]|].
  cbv zeta in Hk, Pu', Pv2, Hodd, Hgcd. set (k := if kv <? ku then kv else ku) in *. set (U := Z.shiftr xu k) in *. set (Vv := Z.shiftr xv k) in *.
  eapply wp_bind_mono; [eapply (Rsh_spec w2 V2 Hw2 z xu Hz1 Hz2 z xu Hz2 k Hk)|]. intros w3 Hw3.
  eapply wp_bind_mono; [unshelve eapply (Rsh_spec w3 _ Hw3 v xv Hv1 _ v xv _ k Hk); lookups|]. intros w4 Hw4. fold U Vv in Hw4. set (V4 := <[v := Vv]> _) in Hw4.
  eapply wp_mono; [eapply (binary_reduce_spec w4 V4 z v k U Vv); try done; unfold V4; lookups|]. intros w5 (V5 & Hw5 & HW5). rewrite <- Hgcd, Hg in Hw5.
  apply (owns_result w5 V V5); try done. etrans; [|exact HW5]. apply map_subseteq_spec. intros p x Hp. pose proof (alive _ _ _ _ Hp HW2) as Hp2.
  apply lookup_delete_Some in Hp as [Hpz Hp]. assert (p ≠ v) by congruence. unfold V4. by rewrite !lookup_delete_ne, !lookup_insert_ne.
Qed.

(** ** The extended Euclidean algorithm *)

(** [X.neg = !X.neg] may leave a zero with a sign, which the addition that follows ignores. *)
Lemma turn_add w V X last x l : owns w V → X ≠ intOne → X ≠ last → V !! X = Some x → V !! last = Some l →
  (xi ← deref w X; let w := assign w X (mem_ w) (mkInt (negb (neg xi)) (abs xi)) in Add w X X last) ⇓ λ w', owns w' (<[X := l - x]> V).
Proof.
  intros Hw HX HXl Hx Hl. operand_of Hw X xi Exi Nx Sx. operand_of Hw last li Eli Nl Sl || destruct (owns_deref _ _ Hw last _ Hl) as (li & Eli & _ & Nl & Sl).
  set (xi' := mkInt (negb (neg xi)) (abs xi)). cbv zeta. unfold Add. assert (ints (assign w X (mem_ w) xi') !! X = Some xi') as E1 by (simpl; apply list_lookup_insert_eq; by eapply lookup_lt_Some).
  assert (ints (assign w X (mem_ w) xi') !! last = Some li) as E2 by (simpl; by rewrite list_lookup_insert_ne).
  unfold deref. rewrite E1, E2, !go_bind_ret. simpl neg. simpl abs.
  assert (∀ m i, assign (assign w X (mem_ w) xi') X m i = assign w X m i) as Ea by (intros m i; unfold assign; simpl; by rewrite list_insert_insert_eq).
  replace (l - x) with (- x + l) by lia.
  pose proof (sum_spec w V Hw X x HX Hx last (- x) l Hl (Bool.eqb (negb (neg xi)) (neg li)) (negb (neg xi)) l) as H. rewrite Z.abs_opp in H. specialize (H ltac:(by left)).
  assert (negb (neg xi) = (- x <? 0) ∨ - x = 0) as Hn. { rewrite Sx. destruct (decide (x = 0)) as [->|]; [by right|left]. destruct (Z.ltb_spec x 0), (Z.ltb_spec (- x) 0); (done || lia). }
  specialize (H Hn ltac:(left; by rewrite Sl) xi (abs xi) (abs li) Nx Nl (proj1 Nx) ltac:(by left)).
  assert (safe (abs xi) (abs li)) as Hs by (apply shares_safe; eapply (owns_shares w V Hw X last); try done; by eexists).
  specialize (H Hs Exi). revert H. simpl. destruct ((if Bool.eqb _ _ then add_abs else sub_abs) _ _ _ _ _) as [[[m a] n]| |]; [|done..].
  simpl. by rewrite Ea.
Qed.

End proofs.

(** A lookup through updates of pointers that are known to differ. *)
Ltac walk := repeat first [rewrite lookup_insert_eq | rewrite lookup_insert_ne by (assumption || (apply not_eq_sym; assumption))]; try done.

Section proofs.
Context `{M : Machine}.
Abbreviation words m := (Forall is_word m).

Lemma next_coefficient_spec w V X last q temp x l vq vt : owns w V → X ≠ intOne → last ≠ intOne → temp ≠ intOne → X ≠ last → X ≠ temp → X ≠ q → last ≠ temp → q ≠ temp →
  V !! X = Some x → V !! last = Some l → V !! q = Some vq → V !! temp = Some vt →
  next_coefficient w X last q temp ⇓ λ w', owns w' (<[last := x]> (<[X := l - x * vq]> (<[temp := x]> V))).
Proof.
  intros Hw HX1 Hl1 Ht1 HXl HXt HXq Hlt Hqt Hx Hl Hq Ht. unfold next_coefficient.
  eapply wp_bind_mono; [by eapply (Set_spec w V Hw temp X)|]. intros w1 Hw1.
  eapply wp_bind_mono; [unshelve eapply (Mul_spec w1 _ Hw1 X x HX1 _ X q x vq); walk|]. intros w2 Hw2.
  pose proof (turn_add w2 _ X last (x * vq) l Hw2 HX1 HXl ltac:(walk) ltac:(walk)) as H.
  assert (∀ (K : world → go world) Q, (∀ w3, owns w3 (<[X := l - x * vq]> (<[temp := x]> V)) → K w3 ⇓ Q) →
    (xi ← deref w2 X; let w := assign w2 X (mem_ w2) (mkInt (negb (neg xi)) (abs xi)) in w ← Add w X X last; K w) ⇓ Q) as Hk.
  { intros K Q HK. revert H. cbv zeta. destruct (deref w2 X) as [xi| |]; simpl; [|done..]. intros H. eapply wp_bind_mono; [exact H|].
    intros w3 Hw3. apply HK. by rewrite insert_insert_eq in Hw3. }
  apply Hk. intros w3 Hw3. eapply (Set_spec w3 _ Hw3 last temp l x Hl1); walk.
Qed.

(** The numbers that the loop works on, at pointers of its own: [A] and [B] are combinations of
    [a] and [b] with the coefficients kept beside them, and have their greatest common divisor. *)
Definition euclid_state (V : gmap nat Z) (X Y lastX lastY q temp : ptr) (a b n : Z) : world * ptr * ptr → Prop := λ '(w, A, B),
  ∃ V' α β x y lx ly, owns w V' ∧ V ⊆ V' ∧ NoDup [A; B; X; Y; lastX; lastY; q; temp] ∧ Forall (λ p, V !! p = None) [A; B; X; Y; lastX; lastY; q; temp] ∧
    (V' !! A = Some α ∧ V' !! B = Some β ∧ V' !! X = Some x ∧ V' !! Y = Some y ∧ V' !! lastX = Some lx ∧ V' !! lastY = Some ly ∧ is_Some (V' !! q) ∧ is_Some (V' !! temp)) ∧
    (0 < α ∧ 0 <= β ∧ α = a * lx + b * ly ∧ β = a * x + b * y ∧ Z.gcd α β = Z.gcd a b ∧ n = euclid_left α β).

Ltac distinct :=
  repeat match goal with
  | H : NoDup (_ :: _) |- _ => apply NoDup_cons in H as [?H H]
  | H : _ ∉ _ :: _ |- _ => apply not_elem_of_cons in H as [?H H]
  | H : _ ∉ [] |- _ => clear H
  | H : NoDup [] |- _ => clear H
  | H : Forall _ (_ :: _) |- _ => apply Forall_cons in H as [?H H]
  | H : Forall _ [] |- _ => clear H
  end.

Lemma euclid_step_spec V X Y lastX lastY q temp a b n w A B : V !! intOne = Some 1 → euclid_state V X Y lastX lastY q temp a b n (w, A, B) →
  (∀ V' β, owns w V' → V' !! B = Some β → β ≠ 0) →
  euclid_step X Y lastX lastY q temp (w, A, B) ⇓ λ s, ∃ n', euclid_state V X Y lastX lastY q temp a b n' s ∧ 0 <= n' < n.
Proof.
  intros H1 (V' & α & β & x & y & lx & ly & Hw & HV & Hd & Hnone & (HA & HB & HX & HY & HlX & HlY & [vq Hq] & [vt Ht]) & Hα & Hβ & Eα & Eβ & Hg & Hn) Hnz.
  specialize (Hnz V' β Hw HB). assert (Forall (λ p, p ≠ intOne) [A; B; X; Y; lastX; lastY; q; temp]) as Hone.
  { eapply Forall_impl; [exact Hnone|]. intros p Hp E. congruence. }
  unfold euclid_step. apply (wp_alloc w V'); [done|]. intros w1 r Hw1 Hr Hr1.
  assert (r ∉ [A; B; X; Y; lastX; lastY; q; temp]) as Hrd. { rewrite !not_elem_of_cons. split_and!; try (intros ->; congruence). apply not_elem_of_nil. }
  assert (V !! r = None) as HrV. { destruct (V !! r) as [u|] eqn:E; [|done]. by rewrite (alive _ _ _ _ E HV) in Hr. }
  pose proof Hd as Hd0. pose proof Hnone as Hnone0. distinct.
  unshelve epose proof (QuoRem_spec w1 _ Hw1 q vq _ _ A B α β _ _ r 0 Hr1 _ _) as HQ; [walk..|]. rewrite decide_False in HQ by done.
  eapply wp_bind_mono; [exact HQ|]. intros w2 Hw2. rewrite Z.quot_div_nonneg, Z.rem_mod_nonneg in Hw2 by lia. clear HQ.
  eapply wp_bind_mono; [eapply (next_coefficient_spec w2 _ X lastX q temp x lx (α / β) vt Hw2); try done; walk|]. intros w3 Hw3.
  eapply wp_bind_mono; [eapply (next_coefficient_spec w3 _ Y lastY q temp y ly (α / β) x Hw3); try done; walk|]. intros w4 Hw4. apply wp_ret.
  pose proof (Z.mod_pos_bound α β ltac:(lia)) as Hm. pose proof (Z.div_mod α β ltac:(lia)) as Em.
  exists (euclid_left β (α mod β)). split; [|rewrite Hn; by apply euclid_left_step; lia].
  eexists _, β, (α mod β), (lx - x * (α / β)), (ly - y * (α / β)), x, y. split; [exact Hw4|].
  split; [repeat (apply insert_subseteq_r; [done|]); done|].
  split; [repeat (apply NoDup_cons; split; [rewrite ?not_elem_of_cons; split_and?; (done || by apply not_eq_sym || apply not_elem_of_nil)|]); by apply NoDup_nil|].
  split; [repeat (apply Forall_cons; split; [done|]); by apply Forall_nil|].
  split; [split_and!; try (by eexists; walk); walk|]. split; [lia|]. split; [lia|]. split; [done|]. split; [|split; [|done]].
  { clear -Eα Eβ Em. revert Em. generalize (α / β), (α mod β). intros d e Em. subst α β. lia. }
  rewrite <- Hg, Z.gcd_comm, Z.gcd_mod by done. apply Z.gcd_comm.
Qed.

Lemma euclid_loop V X Y lastX lastY q temp a b n fuel w A B : V !! intOne = Some 1 → euclid_state V X Y lastX lastY q temp a b n (w, A, B) → 0 <= n < Z.of_nat fuel →
  while fuel (λ '(w, A, B), Bi ← deref w B; Ret (0 <? len (abs Bi))) (euclid_step X Y lastX lastY q temp) (w, A, B) ⇓ λ '(w', A', B'),
    ∃ V' cx cy, owns w' V' ∧ V ⊆ V' ∧ (A' ≠ lastX ∧ A' ≠ lastY ∧ lastX ≠ lastY) ∧ (V !! A' = None ∧ V !! lastX = None ∧ V !! lastY = None) ∧
      V' !! A' = Some (Z.gcd a b) ∧ V' !! lastX = Some cx ∧ V' !! lastY = Some cy ∧ a * cx + b * cy = Z.gcd a b.
Proof.
  intros H1 HI Hn. apply wp_while_by with (I := euclid_state V X Y lastX lastY q temp a b) (n := n); [|done|done]. clear n w A B HI Hn.
  intros n [[w A] B] HI. pose proof HI as (V' & α & β & x & y & lx & ly & Hw & HV & Hd & Hnone & (HA & HB & _ & _ & HlX & HlY & _) & Hα & Hβ & Eα & Eβ & Hg & _).
  destruct (owns_deref _ _ Hw B _ HB) as (Bi & EBi & Ed & _). rewrite Ed, go_bind_ret. apply wp_ret. destruct (0 <? len (abs Bi)) eqn:E.
  - apply euclid_step_spec; [done|done|]. intros V2 β2 Hw2 HB2. rewrite (len_pos w V2 B β2 Bi Hw2 HB2 EBi) in E. by apply negb_true_iff, Z.eqb_neq in E.
  - rewrite (len_pos w V' B β Bi Hw HB EBi) in E. apply negb_false_iff, Z.eqb_eq in E.
    rewrite E in Hg. rewrite Z.gcd_0_r, Z.abs_eq in Hg by lia. distinct. exists V', lx, ly. rewrite <- Hg. by split_and!.
Qed.

(** ** The whole of [GCD] *)

Definition store (x : option ptr) (c : Z) (V : gmap nat Z) : gmap nat Z := match x with Some p => <[p := c]> V | None => V end.
Definition known (V : gmap nat Z) (x : option ptr) : Prop := ∀ p, x = Some p → p ≠ intOne ∧ is_Some (V !! p).

Lemma given_set w V x c : owns w V → known V x → - 2 ^ 63 <= c < 2 ^ 63 → if_given x (λ w x, SetInt64 w x c) w ⇓ λ w', owns w' (store x c V).
Proof. intros Hw Hx Hc. destruct x as [p|]; [|by apply wp_ret]. destruct (Hx p eq_refl) as [Hp [v Hv]]. by eapply SetInt64_spec. Qed.

Lemma store_known V x c y : known V y → known (store x c V) y.
Proof. intros Hy p ->. destruct (Hy p eq_refl) as [? Hv]. split; [done|]. destruct x; [by apply insert_alive|done]. Qed.

(** The results are copied out of the locals. *)
Lemma given_copy w V V' x p c : owns w V' → V ⊆ V' → V !! p = None → p ≠ intOne → V' !! p = Some c → known V x →
  if_given x (λ w x, copy_int w x p) w ⇓ λ w', ∃ V1, owns w' V1 ∧ store x c V ⊆ V1 ∧ ∀ q, V !! q = None → q ≠ p → store x c V !! q = None ∧ V1 !! q = V' !! q.
Proof.
  intros Hw HV Hp Hp1 Hc Hx. destruct x as [z|]; simpl; [|apply wp_ret; by exists V'].
  destruct (Hx z eq_refl) as [Hz [v Hv]]. assert (z ≠ p) as Hzp by congruence.
  eapply wp_mono; [eapply (copy_int_spec w V' z p c v); try done; by eapply alive|]. intros w' Hw'. eexists. split; [exact Hw'|]. split.
  - apply insert_mono. apply map_subseteq_spec. intros q u Hq. rewrite lookup_delete_ne by congruence. by eapply alive.
  - intros q Hq Hqp. assert (z ≠ q) by congruence. by rewrite !lookup_insert_ne, lookup_delete_ne.
Qed.

Ltac fresh_from H := repeat match type of H with <[_ := _]> _ !! _ = None => apply lookup_insert_None in H as [H ?] end.

Lemma extendedGCD_spec w V z x y a b va vb : owns w V → known V (Some z) → known V x → known V y → V !! a = Some va → V !! b = Some vb → 0 < va → 0 < vb →
  extendedGCD w z x y a b ⇓ λ w', ∃ cx cy, va * cx + vb * cy = Z.gcd va vb ∧ owns w' (<[z := Z.gcd va vb]> (store y cy (store x cx V))).
Proof.
  intros Hw Hz Hx Hy Ha Hb Pa Pb. pose proof (owns_one w V Hw) as H1. unfold extendedGCD.
  apply (wp_alloc w V); [done|]. intros w1 A Hw1 NA A1. assert (a ≠ A ∧ b ≠ A) as [HaA HbA] by (split; congruence).
  eapply wp_bind_mono; [unshelve eapply (Set_spec w1 _ Hw1 A a 0 va A1); walk|]. clear w1 Hw1. intros w1 Hw1. rewrite insert_insert_eq in Hw1.
  apply (wp_alloc w1 _ _ _ Hw1). intros w2 B Hw2 NB B1. fresh_from NB. assert (b ≠ B) as HbB by congruence.
  eapply wp_bind_mono; [unshelve eapply (Set_spec w2 _ Hw2 B b 0 vb B1); walk|]. clear w2 Hw2. intros w2 Hw2. rewrite insert_insert_eq in Hw2.
  apply (wp_alloc w2 _ _ _ Hw2). intros w3 X Hw3 NX X1. fresh_from NX.
  apply (wp_alloc w3 _ _ _ Hw3). intros w4 Y Hw4 NY Y1. fresh_from NY.
  eapply wp_bind_mono; [unshelve eapply (SetInt64_spec w4 _ Hw4 Y 0 Y1 _ 1); [walk|lia]|]. clear w4 Hw4. intros w4 Hw4. rewrite insert_insert_eq in Hw4.
  apply (wp_alloc w4 _ _ _ Hw4). intros w5 lX Hw5 NlX lX1. fresh_from NlX.
  eapply wp_bind_mono; [unshelve eapply (SetInt64_spec w5 _ Hw5 lX 0 lX1 _ 1); [walk|lia]|]. clear w5 Hw5. intros w5 Hw5. rewrite insert_insert_eq in Hw5.
  apply (wp_alloc w5 _ _ _ Hw5). intros w6 lY Hw6 NlY lY1. fresh_from NlY.
  apply (wp_alloc w6 _ _ _ Hw6). intros w7 q Hw7 Nq q1. fresh_from Nq.
  apply (wp_alloc w7 _ _ _ Hw7). intros w8 t Hw8 Nt t1. fresh_from Nt. set (V8 := <[t := 0]> _) in Hw8.
  assert (V8 !! A = Some va ∧ V8 !! B = Some vb) as [HA HB] by (unfold V8; split; walk).
  operand_of Hw8 A Ai EAi NA' SA. operand_of Hw8 B Bi EBi NB' SB. rewrite Z.abs_eq in NA', NB' by lia.
  destruct (product_bound (mem_ w8) (abs Ai) va (mem_ w8) (abs Bi) vb) as [Hb1 Hb2]; [by eapply owns_words|by eapply owns_words|done|done|].
  eapply wp_bind_mono.
  { eapply (euclid_loop V X Y lX lY q t va vb (euclid_left va vb)); [done| |].
    - exists V8, va, vb, 0, 1, 1, 0. split; [done|]. split; [unfold V8; repeat (apply insert_subseteq_r; [done|]); done|].
      split; [repeat (apply NoDup_cons; split; [rewrite ?not_elem_of_cons; split_and?; (done || by apply not_eq_sym || apply not_elem_of_nil)|]); by apply NoDup_nil|].
      split; [repeat (apply Forall_cons; split; [done|]); by apply Forall_nil|].
      split; [unfold V8; split_and!; try (by eexists; walk); walk|]. split_and!; (done || lia).
    - pose proof (euclid_left_bound va vb _ Pa Pb Hb1 Hb2) as Hel. clear -Hel Hb2. lia. }
  clear -Hz Hx Hy H1. intros [[w A] B] (V' & cx & cy & Hw & HV & (HAX & HAY & HXY) & (NA & NX & NY) & HA & HX & HY & E).
  assert (∀ p, V !! p = None → p ≠ intOne) as Hone by (intros p Hp ->; congruence).
  eapply wp_bind_mono; [eapply (given_copy w V V' x lX cx); by auto|]. intros w1 (V1 & Hw1 & HV1 & Hk1).
  destruct (Hk1 A NA HAX) as [NA1 EA1]. destruct (Hk1 lY NY ltac:(by apply not_eq_sym)) as [NY1 EY1].
  eapply wp_bind_mono; [eapply (given_copy w1 _ V1 y lY cy Hw1 HV1); [done|by auto|by rewrite EY1|by apply store_known]|]. intros w2 (V2 & Hw2 & HV2 & Hk2).
  destruct (Hk2 A NA1 HAY) as [NA2 EA2].
  eapply wp_mono; [eapply (given_copy w2 _ V2 (Some z) A (Z.gcd va vb) Hw2 HV2); [done|by auto|by rewrite EA2, EA1|by do 2 apply store_known]|]. intros w3 (V3 & Hw3 & HV3 & _).
  exists cx, cy. split; [done|]. apply (owns_sub _ _ _ Hw3); [|by apply map_subseteq_spec].
  destruct (Hz z eq_refl) as [Hz1 _]. rewrite lookup_insert_ne by done. destruct x as [p|]; [destruct (Hx p eq_refl)|]; (destruct y as [p'|]; [destruct (Hy p' eq_refl)|]); simpl; by rewrite ?lookup_insert_ne.
Qed.

Lemma GCD_spec w V z x y a b va vb : owns w V → known V (Some z) → known V x → known V y → V !! a = Some va → V !! b = Some vb → (x = None → y = None → z ≠ a ∧ z ≠ b) →
  if (0 <? va) && (0 <? vb) then GCD w z x y a b ⇓ λ w', ∃ cx cy, va * cx + vb * cy = Z.gcd va vb ∧ owns w' (<[z := Z.gcd va vb]> (store y cy (store x cx V)))
  else GCD w z x y a b ⇓ λ w', owns w' (store y 0 (store x 0 (<[z := 0]> V))).
Proof.
  intros Hw Hz Hx Hy Ha Hb Hal. unfold GCD. rewrite (Sign_spec w V Hw a va Ha), go_bind_ret, (Sign_spec w V Hw b vb Hb), go_bind_ret.
  destruct (Hz z eq_refl) as [Hz1 [vz Hvz]].
  assert ((Z.sgn va <=? 0) || (Z.sgn vb <=? 0) = negb ((0 <? va) && (0 <? vb))) as ->.
  { destruct (Z.ltb_spec 0 va), (Z.ltb_spec 0 vb), (Z.leb_spec (Z.sgn va) 0), (Z.leb_spec (Z.sgn vb) 0); simpl; (done || lia). }
  destruct (Z.ltb_spec 0 va) as [Pa|Pa]; [destruct (Z.ltb_spec 0 vb) as [Pb|Pb]|]; simpl.
  1: { destruct x as [x|], y as [y|]; try by apply extendedGCD_spec. destruct (Hal eq_refl eq_refl) as [Hza Hzb].
    eapply wp_mono; [by eapply (binaryGCD_spec w V z a b)|]. intros w' Hw'. destruct (Z.gcd_bezout va vb _ eq_refl) as (cx & cy & E). exists cx, cy. split; [lia|done]. }
  all: eapply wp_bind_mono; [by eapply (SetInt64_spec w V Hw z vz Hz1 Hvz 0)|]; intros w1 Hw1.
  all: pose proof (store_known V (Some z) 0 x Hx) as Hx'; pose proof (store_known V (Some z) 0 y Hy) as Hy'; simpl in Hx', Hy'.
  all: eapply wp_bind_mono; [by apply (given_set w1 _ x 0 Hw1 Hx'); lia|]; intros w2 Hw2; apply (given_set w2 _ y 0 Hw2); [by apply store_known|lia].
Qed.

(** The inverse of [g] modulo [n]. *)
Lemma ModInverse_spec w V z g n vz vg vn : owns w V → z ≠ intOne → V !! z = Some vz → V !! g = Some vg → V !! n = Some vn → z ≠ n → 0 < vg → 0 < vn → Z.gcd vg vn = 1 →
  ModInverse w z g n ⇓ λ w', ∃ i, owns w' (<[z := i]> V) ∧ (vg * i) mod vn = 1 mod vn.
Proof.
  intros Hw Hz1 Hz Hg Hn Hzn Pg Pn Hgcd. pose proof (owns_one w V Hw) as H1. unfold ModInverse. apply (wp_alloc w V); [done|]. intros w1 d Hw1 Hd Hd1.
  assert (z ≠ d ∧ g ≠ d ∧ n ≠ d) as (Hzd & Hgd & Hnd) by (split_and!; congruence).
  pose proof (GCD_spec w1 _ d (Some z) None g n vg vn Hw1) as H. rewrite (proj2 (Z.ltb_lt 0 vg)), (proj2 (Z.ltb_lt 0 vn)) in H by lia. simpl in H.
  eapply wp_bind_mono; [apply H|].
  { intros p [= <-]. split; [done|]. eexists. walk. } { intros p [= <-]. split; [done|]. eexists. walk. } { done. } { walk. } { walk. } { done. }
  intros w2 (cx & cy & E & Hw2). rewrite Hgcd in E, Hw2. set (V2 := <[d := 1]> _) in Hw2.
  assert (V2 !! z = Some cx ∧ V2 !! n = Some vn) as [Hz2 Hn2] by (unfold V2; split; walk).
  operand_of Hw2 z zi Ezi Nz Sz. rewrite Sz. assert (∀ k, (vg * (cx + k * vn)) mod vn = 1 mod vn) as Hm.
  { intros k. replace (vg * (cx + k * vn)) with (1 + (vg * k - cy) * vn) by lia. apply Z.mod_add. lia. }
  assert (∀ w' v, owns w' (<[z := v]> V2) → owns w' (<[z := v]> V)) as Hdrop.
  { intros w' v Hw'. apply (owns_result w' V V2); try done. apply map_subseteq_spec. intros p u [Hpz Hp]%lookup_delete_Some. assert (p ≠ d) by congruence. unfold V2. by walk. }
  destruct (cx <? 0).
  - eapply wp_mono; [by eapply (Int_Add_spec w2 V2 Hw2 z cx Hz1 Hz2 z n cx vn)|]. intros w3 Hw3. exists (cx + vn). split; [by apply Hdrop|]. replace (cx + vn) with (cx + 1 * vn) by lia. apply Hm.
  - apply wp_ret. exists cx. split; [apply Hdrop; by rewrite insert_id|]. replace cx with (cx + 0 * vn) by lia. apply Hm.
Qed.
End proofs.

(** C6: [GCD] of two positive numbers leaves their greatest common divisor in the receiver and, where they are asked
    for, coefficients that make it; both algorithms end, and the operands may be receivers too except of the
    binary algorithm. If a number is not positive all results are 0. [ModInverse] of
    coprime numbers leaves an inverse, also in the place of [g]. *)
Theorem GCD_bezout `{M : Machine} w V z a b va vb : owns w V → known V (Some z) → V !! a = Some va → V !! b = Some vb →
  (∀ x y, known V x → known V y → (x = None → y = None → z ≠ a ∧ z ≠ b) →
    if (0 <? va) && (0 <? vb) then GCD w z x y a b ⇓ λ w', ∃ cx cy, va * cx + vb * cy = Z.gcd va vb ∧ owns w' (<[z := Z.gcd va vb]> (store y cy (store x cx V)))
    else GCD w z x y a b ⇓ λ w', owns w' (store y 0 (store x 0 (<[z := 0]> V)))) ∧
  (z ≠ b → 0 < va → 0 < vb → Z.gcd va vb = 1 → ModInverse w z a b ⇓ λ w', ∃ i, owns w' (<[z := i]> V) ∧ (va * i) mod vb = 1 mod vb).
Proof.
  intros Hw Hz Ha Hb. split; [intros; by apply GCD_spec|]. intros. destruct (Hz z eq_refl) as [? [vz ?]]. by eapply ModInverse_spec.
Qed.

Example GCD_bezout_witness : ∃ w V, owns (M := machine64) w V ∧ V !! 1%nat = Some 240 ∧ V !! 2%nat = Some 46 ∧
  (GCD (M := machine64) w 3%nat (Some 1%nat) None 1%nat 2%nat ⇓ λ w', ∃ cx cy, 240 * cx + 46 * cy = 2 ∧ owns (M := machine64) w' (<[3%nat := 2]> (<[1%nat := cx]> V))).
Proof.
  pose proof (owns_start (M := machine64)) as H0. destruct (owns_alloc (M := machine64) _ _ H0) as [H1 _].
  destruct (owns_alloc (M := machine64) _ _ H1) as [H2 _]. destruct (owns_alloc (M := machine64) _ _ H2) as [H3 _]. cbn [length app ints mem_ start] in H3.
  destruct (proj1 (wp_ex _ _) (SetInt64_spec (M := machine64) _ _ H3 1%nat 0 ltac:(done) ltac:(done) 240 ltac:(lia))) as (w4 & _ & H4).
  destruct (proj1 (wp_ex _ _) (SetInt64_spec (M := machine64) _ _ H4 2%nat 0 ltac:(done) ltac:(done) 46 ltac:(lia))) as (w5 & _ & H5).
  eexists w5, _. split; [exact H5|]. split; [done|]. split; [done|].
  apply (proj1 (GCD_bezout (M := machine64) w5 _ 3%nat 1%nat 2%nat 240 46 H5 ltac:(intros p [= <-]; split; [done|by eexists]) ltac:(done) ltac:(done)) (Some 1%nat) None);
    [intros p [= <-]; split; [done|by eexists]|done|done].
Defined.
