(* ===== verification/BigExp.v ===== *)
(** Exponentiation, with or without a modulus: [expNN] and [expNNWindowed] of
    [src/src/math/big/nat.go] and [Exp] of [src/src/math/big/int.go]. *)
From S2P Require Import Prelude.
From S2P Require Import BigWord.
From S2P Require Import BigVec.
From S2P Require Import BigNat.
From S2P Require Import BigMul.
From S2P Require Import BigProduct.
From S2P Require Import BigDiv.
From S2P Require Import BigInt.

Section exp.
Context `{M : Machine}.

(** [zz = zz.mul(z, a); zz, z = z, zz; zz, r = zz.div(r, z, m); z, r = r, z]. *)
Definition mul_mod (m : mem) (z zz r a md : nat_) : go (mem * nat_ * nat_ * nat_) :=
  '(m, zz) ← mul m zz z a;
  let '(zz, z) := (z, zz) in
  '(m, zz, r) ← div m zz r z md;
  let '(z, r) := (r, z) in
  Ret (m, z, zz, r).

(** One of the powers: [*p = p.mul(a, b); zz, r = zz.div(r, *p, m); *p, r = r, *p]. *)
Definition next_power (m : mem) (powers : list nat_) (zz r : nat_) (i : Z) (a b md : nat_) : go (mem * list nat_ * nat_ * nat_) :=
  p ← idx powers i;
  '(m, p) ← mul m p a b;
  '(m, zz, r) ← div m zz r p md;
  powers ← upd powers i r;
  Ret (m, powers, zz, p).

(** The powers from [x^2] to [x^15]; [powers[i]] contains [x^i]. *)
Definition powers_loop (m : mem) (x md : nat_) : go (mem * list nat_ * nat_ * nat_) :=
  for_up 1 8 (λ h '(m, powers, zz, r),
    let i := 2 * h in
    p2 ← idx powers (i / 2);
    '(m, powers, zz, r) ← next_power m powers zz r i p2 p2 md;
    p ← idx powers i;
    next_power m powers zz r (i + 1) p x md) (m, natOne :: x :: replicate 14 nil_, nil_, nil_).

(** Four bits of the exponent, the highest ones of [yi]; [first] if there were none before. *)
Definition window (powers : list nat_) (md : nat_) (first : bool) : mem * nat_ * nat_ * nat_ * Z → go (mem * nat_ * nat_ * nat_ * Z) := λ '(m, z, zz, r, yi),
  '(m, z, zz, r) ← (if first then Ret (m, z, zz, r) else
    '(m, z, zz, r) ← mul_mod m z zz r z md;
    '(m, z, zz, r) ← mul_mod m z zz r z md;
    '(m, z, zz, r) ← mul_mod m z zz r z md;
    mul_mod m z zz r z md);
  p ← idx powers (Z.shiftr yi (_W - 4));
  '(m, z, zz, r) ← mul_mod m z zz r p md;
  Ret (m, z, zz, r, uw (Z.shiftl yi 4)).

Definition expNNWindowed (m : mem) (z x y md : nat_) : go (mem * nat_) :=
  '(m, powers, zz, r) ← powers_loop m x md;
  '(m, z) ← setWord m z 1;
  '(m, z, zz, r) ← for_down (len y - 1) 0 (λ i '(m, z, zz, r),
    yi ← at_ m y i;
    '(m, z, zz, r, _) ← for_up 0 (_W / 4) (λ h, let j := 4 * h in
      window powers md (negb (negb (i =? len y - 1) || negb (j =? 0)))) (m, z, zz, r, yi);
    Ret (m, z, zz, r)) (m, z, zz, r);
  z ← norm m z;
  Ret (m, z).

Definition mask : Z := Z.shiftl 1 (_W - 1).

(** A bit of the exponent, the highest one of [v]. *)
Definition exp_bit (x md : nat_) : mem * nat_ * nat_ * nat_ * nat_ * Z → go (mem * nat_ * nat_ * nat_ * nat_ * Z) := λ '(m, z, zz, r, q, v),
  '(m, zz) ← mul m zz z z;
  let '(zz, z) := (z, zz) in
  '(m, zz, z) ← (if negb (Z.land v mask =? 0) then '(m, zz) ← mul m zz z x; Ret (m, z, zz) else Ret (m, zz, z));
  '(m, z, zz, r, q) ← (if negb (len md =? 0) then '(m, zz, r) ← div m zz r z md; Ret (m, r, q, z, zz) else Ret (m, z, zz, r, q));
  Ret (m, z, zz, r, q, uw (Z.shiftl v 1)).

(** The bits of the exponent one by one, after the highest one; [z] is the base. *)
Definition expNN_bits (m : mem) (z x y md : nat_) : go (mem * nat_) :=
  v ← at_ m y (len y - 1);
  n ← leadingZeros v;
  let shift := n + 1 in
  let v := uw (Z.shiftl v shift) in
  '(m, z, zz, r, q, _) ← for_up 0 (_W - shift) (λ _, exp_bit x md) (m, z, nil_, nil_, nil_, v);
  '(m, z, _, _, _) ← for_down (len y - 2) 0 (λ i '(m, z, zz, r, q),
    v ← at_ m y i;
    '(m, z, zz, r, q, _) ← for_up 0 _W (λ _, exp_bit x md) (m, z, zz, r, q, v);
    Ret (m, z, zz, r, q)) (m, z, zz, r, q);
  z ← norm m z;
  Ret (m, z).

Definition expNN (m : mem) (z x y md : nat_) : go (mem * nat_) :=
  let z := if alias z x || alias z y then nil_ else z in
  one ← (if len md =? 1 then d ← at_ m md 0; Ret (d =? 1) else Ret false);
  if (one : bool) then setWord m z 0
  else if len y =? 0 then setWord m z 1
  else
    '(m, z) ← (if negb (len md =? 0) then make_ m z (len md) else Ret (m, z));
    '(m, z) ← set m z x;
    if (1 <? len x) && (1 <? len y) && (0 <? len md) then expNNWindowed m z x y md
    else expNN_bits m z x y md.

Definition Exp (w : world) (z x y : ptr) (md : option ptr) : go world :=
  zi ← deref w z;
  xi ← deref w x;
  yi ← deref w y;
  let yWords := if neg yi then nil_ else abs yi in
  mWords ← (match md with Some p => i ← deref w p; Ret (abs i) | None => Ret nil_ end);
  '(m, a) ← expNN (mem_ w) (abs zi) (abs xi) yWords mWords;
  odd ← (if (0 <? len a) && neg xi && (0 <? len yWords) then d ← at_ m yWords 0; Ret (Z.land d 1 =? 1) else Ret false);
  if (odd : bool) && (0 <? len mWords) then
    '(m, a) ← sub m a mWords a;
    Ret (assign w z m (mkInt false a))
  else Ret (assign w z m (mkInt odd a)).
End exp.

(** [x**y mod |m|] for given numbers, with [m] as its receiver or another one: whether the result is negative, and its words. *)
Definition exp_example' (same : bool) (x y m : Z) : go (bool * list Z) :=
  let '(w, px) := alloc start in let '(w, py) := alloc w in let '(w, pm) := alloc w in let '(w, pz) := alloc w in
  w ← SetInt64 (M := machine32) w px x; w ← SetInt64 (M := machine32) w py y; w ← SetInt64 (M := machine32) w pm m;
  let pz := if same then pm else pz in
  w ← Exp (M := machine32) w pz px py (Some pm);
  zi ← deref w pz; Ret (neg zi, take (Z.to_nat (len (abs zi))) (drop (Z.to_nat (off (abs zi))) (mem_ w))).

Definition exp_example := exp_example' false.

Example exp_run :
  exp_example 3 5 0 = Ret (false, [243]) ∧ exp_example (-2) 33 0 = Ret (true, [0; 2]) ∧ exp_example 7 (2 ^ 32 + 1) (-1000) = Ret (false, [207]) ∧
  exp_example (2 ^ 33 + 7) (2 ^ 32 + 5) (2 ^ 34 + 9) = Ret (false, [1657846197]) ∧ exp_example (-3) 3 10 = Ret (false, [3]) ∧ exp_example 5 (-1) 10 = Ret (false, [1]).
Proof. by vm_compute. Qed.
(** The modulus is overwritten by the base where it is the receiver: 2**3 mod 5 is 3. *)
Example exp_alias : exp_example' true 2 3 5 = Ret (false, []).
Proof. by vm_compute. Qed.
(** A first power is not reduced, and its negative is taken from the modulus all the same. *)
Example exp_unreduced : exp_example 5 1 3 = Ret (false, [5]) ∧ exp_example (-2) 1 3 = Ret (false, [1]) ∧ exp_example (-5) 1 3 = Panic "underflow".
Proof. by vm_compute. Qed.

Section proofs.
Context `{M : Machine}.
Abbreviation words m := (Forall is_word m).

(** * Storage for several numbers *)

(** The slices [L] are apart from each other, and each is [nil] or in storage of [z0] or allocated since [m0]. *)
Fixpoint separate (L : list nat_) : Prop := match L with [] => True | s :: L => Forall (apart s) L ∧ separate L end.
Definition slot (m0 : mem) (z0 : nat_) (m : mem) (s : nat_) : Prop := valid m s ∧ (off s = 0 ∧ cap s = 0 ∨ placed m0 z0 s).
Definition store (m0 : mem) (z0 : nat_) (m : mem) (L : list nat_) : Prop := words m ∧ keeps m0 z0 m ∧ Forall (slot m0 z0 m) L ∧ separate L.
(** An operand that stays as it is. *)
Definition fixed (m0 : mem) (z0 x : nat_) (v : Z) : Prop := is_nat m0 x v ∧ apart z0 x.

Lemma separate_perm L L' : L ≡ₚ L' → separate L → separate L'.
Proof.
  induction 1 as [|s L L' HP IH|s t L|L L' L'' _ IH1 _ IH2]; simpl; [done|intros [Hs H]; split; [by rewrite <- HP|auto]| |auto].
  rewrite !Forall_cons. intros ((Hst & Ht) & Hs & H). split; [split; [by apply apart_sym|done]|by split].
Qed.

Lemma store_perm m0 z0 m L L' : L ≡ₚ L' → store m0 z0 m L → store m0 z0 m L'.
Proof. intros HP (Hw & Hk & Hs & Hd). split; [done|]. split; [done|]. split; [by rewrite <- HP|by eapply separate_perm]. Qed.

Lemma separate_app L L' : separate (L ++ L') → separate L ∧ separate L'.
Proof.
  induction L as [|s L IH]; simpl; [done|]. rewrite Forall_app. intros ((H1 & _) & H). destruct (IH H). done.
Qed.

Lemma store_sub m0 z0 m L L' : store m0 z0 m (L ++ L') → store m0 z0 m L.
Proof. intros (Hw & Hk & Hs & Hd). apply Forall_app in Hs as [Hs _]. apply separate_app in Hd as [Hd _]. by split. Qed.

Lemma store_apart m0 z0 m s L t : store m0 z0 m (s :: L) → t ∈ L → apart s t.
Proof. intros (_ & _ & _ & Hd & _) Ht. rewrite Forall_forall in Hd. by apply Hd. Qed.

Lemma store_valid m0 z0 m L s : store m0 z0 m L → s ∈ L → valid m s.
Proof. intros (_ & _ & Hs & _) H. rewrite Forall_forall in Hs. by apply Hs. Qed.

Lemma store_start m z : words m → valid m z → store m z m [z].
Proof. intros Hm Hz. split; [done|]. split; [apply keeps_refl|]. split; [|by split]. apply Forall_singleton. split; [done|]. right. by left. Qed.

Lemma store_nil m0 z0 m L : store m0 z0 m L → store m0 z0 m (nil_ :: L).
Proof.
  intros (Hw & Hk & Hs & Hd). split; [done|]. split; [done|]. split; [constructor; [|done]|split; [|done]].
  - split; [|by left]. unfold valid. simpl. pose proof (zlen_nonneg m). lia.
  - eapply Forall_impl; [exact Hs|]. intros s [(? & ? & ?) _]. unfold apart. simpl. lia.
Qed.

Lemma store_fixed m0 z0 m L x v : store m0 z0 m L → fixed m0 z0 x v → is_nat m x v ∧ ∀ s, s ∈ L → apart s x.
Proof.
  intros (Hw & (Hl & Hk) & Hs & _) [Hx Ha]. pose proof Hx as ((? & ? & ?) & _). split.
  - eapply is_nat_ext; [exact Hl| |exact Hx]. intros i Hi. apply Hk; unfold apart in Ha; lia.
  - intros s Hin. rewrite Forall_forall in Hs. destruct (Hs s Hin) as [(? & ? & ?) [[? ?]|Hp]]; unfold apart, placed in *; lia.
Qed.

Lemma store_same m0 z0 m s r L : store m0 z0 m (s :: L) → off r = off s → cap r = cap s → 0 <= len r <= cap s → store m0 z0 m (r :: L).
Proof.
  intros (Hw & Hk & Hs & Hd) Eo Ec Hl. apply Forall_cons in Hs as [[Hv Hp] Hs]. destruct Hd as [Ha Hd]. split; [done|]. split; [done|]. split.
  - constructor; [|done]. unfold slot, valid, placed in *. rewrite Eo, Ec. split; [lia|done].
  - split; [|done]. eapply Forall_impl; [exact Ha|]. unfold apart. by rewrite Eo, Ec.
Qed.

(** The memory changes in the storage of some of the slices alone. *)
Lemma store_change m0 z0 m m' L R L' : store m0 z0 m (L ++ L') → words m' → zlen m <= zlen m' →
  (∀ i, i < zlen m → (∀ s, s ∈ L → ¬ off s <= i < off s + cap s) → get m' i = get m i) →
  Forall (valid m') R → separate R → (∀ r, r ∈ R → zlen m <= off r ∨ ∃ s, s ∈ L ∧ off r = off s ∧ cap r = cap s) →
  store m0 z0 m' (R ++ L') ∧ ∀ t v, t ∈ L' → is_nat m t v → is_nat m' t v.
Proof.
  intros (Hw & (Hl & Hk) & Hs & Hd) Hw' Hl' Hg HR HdR Hp. apply Forall_app in Hs as [Hs Hs']. rewrite Forall_forall in Hs, Hs'.
  assert (∀ s t, s ∈ L → t ∈ L' → apart s t) as Hst.
  { clear -Hd. induction L as [|s L IH]; [by intros ?? ?%elem_of_nil|]. destruct Hd as [Ha Hd]. apply Forall_app in Ha as [_ Ha]. rewrite Forall_forall in Ha.
    intros s' t [->|Hin]%elem_of_cons Ht; [by apply Ha|by apply IH]. }
  split; [|intros t v Ht Hx; pose proof Hx as ((? & ? & ?) & _); eapply is_nat_ext; [exact Hl'| |exact Hx]; intros i Hi; apply Hg; [lia|]; intros s Hin; specialize (Hst s t Hin Ht); unfold apart in Hst; lia].
  split; [done|]. split; [split; [lia|]|split].
  - intros i Hi Hni. rewrite Hg; [by apply Hk|lia|]. intros s Hin. destruct (Hs s Hin) as [(? & ? & ?) [[? ?]|Hps]]; unfold placed in *; lia.
  - apply Forall_app. split; [|apply Forall_forall; intros t Ht; destruct (Hs' t Ht); split; [unfold valid in *; lia|done]].
    apply Forall_forall. intros r Hr. rewrite Forall_forall in HR. split; [by apply HR|]. destruct (Hp r Hr) as [Ho|(s & Hin & Eo & Ec)]; [right; right; lia|].
    destruct (Hs s Hin) as [_ Hps]. unfold placed in *. by rewrite Eo, Ec.
  - assert (∀ r t, r ∈ R → t ∈ L' → apart r t) as Hrt.
    { intros r t Hr Ht. destruct (Hs' t Ht) as [(? & ? & ?) _]. destruct (Hp r Hr) as [Ho|(s & Hin & Eo & Ec)]; [unfold apart; lia|]. specialize (Hst s t Hin Ht). unfold apart in *. by rewrite Eo, Ec. }
    apply separate_app in Hd as [_ Hd]. clear -Hd HdR Hrt. induction R as [|r R IH]; [done|]. destruct HdR as [Ha HdR]. split; [|apply IH; [done|intros; apply Hrt; [by right|done]]].
    apply Forall_app. split; [done|]. apply Forall_forall. intros t Ht. apply Hrt; [by left|done].
Qed.

Lemma store_inside m0 z0 m m' s r L : store m0 z0 m (s :: L) → inside m s m' r → store m0 z0 m' (r :: L) ∧ ∀ t v, t ∈ L → is_nat m t v → is_nat m' t v.
Proof.
  intros Hst (Hw & Hv & Hp & Hl & Hk). apply (store_change m0 z0 m m' [s] [r] L Hst); [done|done| |by apply Forall_singleton|by split|].
  - intros i Hi Hni. apply Hk; [done|]. apply Hni. by left.
  - intros r' ->%list_elem_of_singleton. destruct Hp as [[Eo Ec]|Ho]; [right; exists s; split; [by left|done]|by left].
Qed.

Lemma store_laid m0 z0 m m' s t q r L : store m0 z0 m (s :: t :: L) → laid m s t m' q r → store m0 z0 m' (q :: r :: L) ∧ ∀ u v, u ∈ L → is_nat m u v → is_nat m' u v.
Proof.
  intros Hst (Hw & Hq & Hr & Hpq & Hpr & Ha & Hl & Hk). apply (store_change m0 z0 m m' [s; t] [q; r] L Hst); [done|done| |by rewrite !Forall_cons, Forall_nil|split; [by apply Forall_singleton|by split]|].
  - intros i Hi Hni. apply Hk; [done|apply Hni; by left|apply Hni; right; by left].
  - intros r' [->|[->|[]%elem_of_nil]%elem_of_cons]%elem_of_cons; [destruct Hpq as [[? ?]|]|destruct Hpr as [[? ?]|]]; try (by left); right; [exists s; split; [by left|done]|exists t; split; [right; by left|done]].
Qed.

Lemma apart_shares z x : apart z x → shares z x.
Proof. by right. Qed.

Lemma mul_store m0 z0 m s L a b va vb : store m0 z0 m (s :: L) → is_nat m a va → is_nat m b vb → apart s a → apart s b →
  mul m s a b ⇓ λ '(m', r), store m0 z0 m' (r :: L) ∧ is_nat m' r (va * vb) ∧ ∀ t v, t ∈ L → is_nat m t v → is_nat m' t v.
Proof.
  intros Hst Ha Hb Hsa Hsb. pose proof Hst as (Hw & _). assert (valid m s) as Hs by (eapply store_valid; [exact Hst|by left]).
  eapply wp_mono; [apply mul_spec; try done; by right|]. intros [m' r] [Hi Hr]. destruct (store_inside _ _ _ _ _ _ _ Hst Hi). done.
Qed.

Lemma div_store m0 z0 m s t L a b va vb : store m0 z0 m (s :: t :: L) → is_nat m a va → is_nat m b vb → vb ≠ 0 → apart s a → apart s b → apart t a → apart t b →
  div m s t a b ⇓ λ '(m', q, r), store m0 z0 m' (q :: r :: L) ∧ is_nat m' r (va mod vb) ∧ ∀ u v, u ∈ L → is_nat m u v → is_nat m' u v.
Proof.
  intros Hst Ha Hb Hb0 Hsa Hsb Hta Htb. pose proof Hst as (Hw & _). pose proof (store_valid _ _ _ _ s Hst ltac:(by left)) as Hs.
  pose proof (store_valid _ _ _ _ t Hst ltac:(right; by left)) as Ht. pose proof (store_apart _ _ _ _ _ t Hst ltac:(by left)) as Hat.
  pose proof (nat_div_spec m s t a b va vb Hw Hs Ht Ha Hb) as Hd. rewrite decide_False in Hd by done.
  eapply wp_mono; [apply Hd; (done || by right)|]. intros [[m' q] r] (Hi & _ & Hr). destruct (store_laid _ _ _ _ _ _ _ _ _ Hst Hi). done.
Qed.

(** ** The bits of a word, from the top *)

Lemma word_window v0 W i c : 0 <= i → 0 < c → i + c <= W → 0 <= v0 < 2 ^ W →
  let v := (v0 * 2 ^ i) mod 2 ^ W in
  v0 / 2 ^ (W - (i + c)) = v0 / 2 ^ (W - i) * 2 ^ c + v / 2 ^ (W - c) ∧ 0 <= v / 2 ^ (W - c) < 2 ^ c ∧ (v * 2 ^ c) mod 2 ^ W = (v0 * 2 ^ (i + c)) mod 2 ^ W.
Proof.
  intros Hi Hc HW Hv v. set (P := 2 ^ (W - (i + c))). set (C := 2 ^ c). set (I := 2 ^ i).
  assert (0 < P ∧ 0 < C ∧ 0 < I) as (HP & HC & HI) by (split_and!; apply Z.pow_pos_nonneg; lia).
  assert (2 ^ (W - i) = P * C) as -> by (unfold P, C; rewrite <- Z.pow_add_r by lia; f_equal; lia).
  assert (2 ^ (W - c) = P * I) as EWc by (unfold P, I; rewrite <- Z.pow_add_r by lia; f_equal; lia).
  assert (2 ^ W = P * C * I) as EW by (unfold P, C, I; rewrite <- !Z.pow_add_r by lia; f_equal; lia).
  assert (2 ^ (i + c) = I * C) as -> by (unfold I, C; by rewrite <- Z.pow_add_r by lia).
  set (u := v0 / P). set (d := v0 mod P). assert (v0 = u * P + d ∧ 0 <= d < P) as [E Hd].
  { unfold u, d. pose proof (Z.div_mod v0 P ltac:(lia)). pose proof (Z.mod_pos_bound v0 P HP). lia. }
  assert (v0 / (P * C) = u / C) as -> by (unfold u; by rewrite Z.div_div by lia).
  set (a := u / C). set (b := u mod C). assert (u = a * C + b ∧ 0 <= b < C) as [Eu Hb].
  { unfold a, b. pose proof (Z.div_mod u C ltac:(lia)). pose proof (Z.mod_pos_bound u C HC). lia. }
  assert (v = b * (P * I) + d * I) as Ev.
  { unfold v. rewrite EW. fold I. symmetry. apply Z.mod_unique_pos with a; [nia|]. rewrite E, Eu. ring. }
  assert (v / (P * I) = b) as Eb. { symmetry. apply Z.div_unique_pos with (d * I); [nia|]. rewrite Ev. ring. }
  rewrite EWc, Eb. split; [done|]. split; [done|]. unfold v. fold I. rewrite Zmult_mod_idemp_l. f_equal. ring.
Qed.

Lemma shift_left v c : 0 <= c → uw (Z.shiftl v c) = (v * 2 ^ c) mod 2 ^ _W.
Proof. intros Hc. by rewrite uw_eq, _B_eq, Z.shiftl_mul_pow2. Qed.

Lemma mask_bit v : is_word v → negb (Z.land v mask =? 0) = (v / 2 ^ (_W - 1) =? 1).
Proof.
  intros Hv. unfold is_word in Hv. rewrite _B_eq in Hv. assert (1 <= _W) as HW by (destruct _W_cases; lia).
  unfold mask. rewrite Z.shiftl_mul_pow2, Z.mul_1_l by lia. assert (2 ^ _W = 2 * 2 ^ (_W - 1)) as E by (rewrite <- Z.pow_succ_r by lia; f_equal; lia).
  assert (0 < 2 ^ (_W - 1)) as HP by (apply Z.pow_pos_nonneg; lia).
  assert (0 <= v / 2 ^ (_W - 1) < 2) as Hb by (split; [apply Z.div_pos; lia|apply Z.div_lt_upper_bound; lia]).
  assert (Z.testbit v (_W - 1) = (v / 2 ^ (_W - 1) =? 1)) as Ht.
  { rewrite Z.testbit_odd, Z.shiftr_div_pow2 by lia. assert (v / 2 ^ (_W - 1) = 0 ∨ v / 2 ^ (_W - 1) = 1) as [-> | ->] by lia; done. }
  rewrite <- Ht. assert (Z.land v (2 ^ (_W - 1)) = if Z.testbit v (_W - 1) then 2 ^ (_W - 1) else 0) as ->.
  { apply Z.bits_inj'. intros k Hk. rewrite Z.land_spec, Z.pow2_bits_eqb by lia. destruct (Z.eqb_spec (_W - 1) k) as [<-|Hne].
    - rewrite andb_true_r. destruct (Z.testbit v (_W - 1)); [by rewrite Z.pow2_bits_true by lia|by rewrite Z.bits_0].
    - rewrite andb_false_r. destruct (Z.testbit v (_W - 1)); [by rewrite Z.pow2_bits_false by lia|by rewrite Z.bits_0]. }
  destruct (Z.testbit v (_W - 1)); [by rewrite (proj2 (Z.eqb_neq _ 0)) by lia|done].
Qed.

Lemma top_half v : is_word v → 0 <= v / 2 ^ (_W - 1) < 2.
Proof.
  intros [Hv Hv']. rewrite _B_eq in Hv'. assert (1 <= _W) as HW by (destruct _W_cases; lia). assert (0 < 2 ^ (_W - 1)) as HP by (apply Z.pow_pos_nonneg; lia).
  assert (2 ^ _W = 2 * 2 ^ (_W - 1)) as E by (rewrite <- Z.pow_succ_r by lia; f_equal; lia). split; [apply Z.div_pos; lia|apply Z.div_lt_upper_bound; lia].
Qed.

(** * Powers *)

Section power.
Context (m0 : mem) (z0 x md : nat_) (vx vm : Z) (Hx : fixed m0 z0 x vx) (Hm : fixed m0 z0 md vm).

Definition red (v : Z) : Z := if vm =? 0 then v else v mod vm.

Lemma red_red_mul a b : red (red a * b) = red (a * b).
Proof using. unfold red. destruct (Z.eqb_spec vm 0); [done|]. by rewrite Z.mul_mod_idemp_l. Qed.

(** The value that is computed for the power [e]: the first power is not reduced. *)
Definition is_power (e v : Z) : Prop := v = if e =? 1 then vx else red (vx ^ e).

Lemma red_red a : red (red a) = red a.
Proof using. pose proof (red_red_mul a 1) as H. by rewrite !Z.mul_1_r in H. Qed.

Lemma power_red e v : is_power e v → red v = red (vx ^ e).
Proof using.
  intros ->. destruct (Z.eqb_spec e 1) as [->|]; [by rewrite Z.pow_1_r|apply red_red].
Qed.

Lemma power_mul e v f u : 0 <= e → 0 <= f → red v = red (vx ^ e) → red u = red (vx ^ f) → red (v * u) = red (vx ^ (e + f)).
Proof using.
  intros He Hf Hv Hu. rewrite <- red_red_mul, Hv, red_red_mul, Z.mul_comm, <- red_red_mul, Hu, red_red_mul, Z.mul_comm, Z.pow_add_r by done. done.
Qed.

Lemma mul_mod_spec m z zz r a va L vz : store m0 z0 m (z :: zz :: r :: L) → vm ≠ 0 → is_nat m z vz → is_nat m a va → apart zz a →
  mul_mod m z zz r a md ⇓ λ '(m', z', zz', r'), store m0 z0 m' (z' :: zz' :: r' :: L) ∧ is_nat m' z' (red (vz * va)) ∧ ∀ u v, u ∈ L → is_nat m u v → is_nat m' u v.
Proof using Hm.
  intros Hst Hm0 Hz Ha Hza. unfold mul_mod, red. rewrite (proj2 (Z.eqb_neq vm 0)) by done.
  assert (store m0 z0 m (zz :: z :: r :: L)) as Hst1 by (eapply store_perm; [apply perm_swap|exact Hst]).
  eapply wp_bind_mono; [eapply (mul_store _ _ _ _ _ z a); [exact Hst1|exact Hz|exact Ha|eapply store_apart; [exact Hst1|by left]|done]|].
  intros [m1 p] (Hst2 & Hp & Hk1). assert (store m0 z0 m1 (z :: r :: p :: L)) as Hst3.
  { eapply store_perm; [|exact Hst2]. solve_Permutation. }
  destruct (store_fixed _ _ _ _ _ _ Hst2 Hm) as [Hmd Hma].
  eapply wp_bind_mono; [eapply (div_store _ _ _ z r (p :: L) p md); [exact Hst3|exact Hp|exact Hmd|done|..]|].
  - eapply store_apart; [exact Hst3|right; by left].
  - apply Hma. right. by left.
  - destruct Hst3 as (_ & _ & _ & _ & H & _). rewrite Forall_forall in H. apply H. by left.
  - apply Hma. do 2 right. by left.
  - intros [[m2 q] r'] (Hst4 & Hr & Hk2). apply wp_ret. split; [|split; [done|]].
    + eapply store_perm; [|exact Hst4]. apply perm_swap.
    + intros u v Hu Hn. apply Hk2; [by right|]. apply Hk1; [do 2 right; done|done].
Qed.

(** *** Bit by bit *)

Definition bit_state (e v : Z) : mem * nat_ * nat_ * nat_ * nat_ * Z → Prop := λ '(m, z, zz, r, q, v'),
  v' = v ∧ store m0 z0 m [z; zz; r; q] ∧ ∃ V, is_nat m z V ∧ is_power e V.

Lemma exp_bit_spec st e v : 1 <= e → is_word v → bit_state e v st → exp_bit x md st ⇓ bit_state (2 * e + v / 2 ^ (_W - 1)) (uw (Z.shiftl v 1)).
Proof using Hx Hm.
  destruct st as [[[[[m z] zz] r] q] v']. intros He Hv (-> & Hst & V & Hz & HV). apply power_red in HV. unfold exp_bit. rewrite mask_bit by done.
  assert (store m0 z0 m [zz; z; r; q]) as Hst1 by (eapply store_perm; [apply perm_swap|exact Hst]).
  eapply wp_bind_mono; [eapply (mul_store _ _ _ _ _ z z); [exact Hst1|exact Hz|exact Hz|eapply store_apart; [exact Hst1|by left]..]|].
  intros [m1 p] (Hst2 & Hp & _).
  eapply wp_bind_mono with (Q := λ '(m', zz', z'), store m0 z0 m' [z'; zz'; r; q] ∧ ∃ V', is_nat m' z' V' ∧ red V' = red (vx ^ (2 * e + v / 2 ^ (_W - 1)))).
  { assert (0 <= e) as He0 by lia. pose proof (power_mul e V e V He0 He0 HV HV) as HVV. assert (store m0 z0 m1 [z; p; r; q]) as Hst3 by (eapply store_perm; [apply perm_swap|exact Hst2]).
    pose proof (top_half v Hv) as Hb. destruct (Z.eqb_spec (v / 2 ^ (_W - 1)) 1) as [->|Hne].
    - destruct (store_fixed _ _ _ _ _ _ Hst3 Hx) as [Hx3 Hax].
      eapply wp_bind_mono; [eapply (mul_store _ _ _ _ _ p x); [exact Hst3|exact Hp|exact Hx3|eapply store_apart; [exact Hst3|by left]|apply Hax; by left]|].
      intros [m2 p2] (Hst4 & Hp2 & _). apply wp_ret. split; [done|]. exists (V * V * vx). split; [done|]. rewrite (power_mul (e + e) _ 1 vx); [|lia|lia|done|by rewrite Z.pow_1_r].
      do 2 f_equal. lia.
    - assert (v / 2 ^ (_W - 1) = 0) as -> by lia. apply wp_ret. split; [done|]. exists (V * V). split; [done|]. rewrite HVV. do 2 f_equal. lia. }
  intros [[m2 zz'] z'] (Hst3 & V' & Hz' & HV'). destruct (store_fixed _ _ _ _ _ _ Hst3 Hm) as [Hmd Hma].
  pose proof Hst3 as (Hw3 & _). pose proof (nat_len_pos _ _ _ Hw3 Hmd) as Hlm. pose proof Hmd as ((_ & ? & _) & _). destruct (nat_pos _ _ _ Hw3 Hmd) as [[? _] _]. pose proof (top_half v Hv) as Hb.
  eapply wp_bind_mono with (Q := λ '(m', z', zz', r', q'), store m0 z0 m' [z'; zz'; r'; q'] ∧ ∃ V', is_nat m' z' V' ∧ is_power (2 * e + v / 2 ^ (_W - 1)) V').
  2: { intros [[[[m3 z3] zz3] r3] q3] H3. by apply wp_ret. }
  destruct (Z.eqb_spec (len md) 0) as [E0|E0]; cbn [negb].
  - assert (vm = 0) as E by (by eapply zero_nat). apply wp_ret. split; [done|]. exists V'. split; [done|]. unfold is_power. rewrite (proj2 (Z.eqb_neq _ 1)), <- HV' by lia. unfold red. by rewrite E.
  - rewrite (proj2 (Z.ltb_lt _ _)) in Hlm by lia. symmetry in Hlm. apply Z.ltb_lt in Hlm.
    assert (store m0 z0 m2 [zz'; r; z'; q]) as Hst4 by (eapply store_perm; [|exact Hst3]; solve_Permutation).
    eapply wp_bind_mono; [eapply (div_store _ _ _ zz' r [z'; q] z' md); [exact Hst4|exact Hz'|exact Hmd|lia|..]|].
    + eapply store_apart; [exact Hst4|right; by left].
    + apply Hma. right. by left.
    + destruct Hst4 as (_ & _ & _ & _ & Ha & _). apply Forall_cons in Ha as [Ha _]. done.
    + apply Hma. do 2 right. by left.
    + intros [[m3 q'] r'] (Hst5 & Hr & _). apply wp_ret. split; [eapply store_perm; [|exact Hst5]; solve_Permutation|].
      exists (V' mod vm). split; [done|]. unfold is_power. rewrite (proj2 (Z.eqb_neq _ 1)), <- HV' by lia. unfold red. by rewrite (proj2 (Z.eqb_neq vm 0)) by lia.
Qed.

Lemma exp_word st e v k : 1 <= e → is_word v → 0 <= k <= _W → bit_state e v st →
  for_up 0 k (λ _, exp_bit x md) st ⇓ bit_state (e * 2 ^ k + v / 2 ^ (_W - k)) ((v * 2 ^ k) mod 2 ^ _W).
Proof using Hx Hm.
  intros He Hv Hk Hst. pose proof Hv as [Hv0 Hv1]. rewrite _B_eq in Hv1. assert (1 <= _W) as HW by (destruct _W_cases; lia).
  apply wp_for_up with (I := λ i, bit_state (e * 2 ^ i + v / 2 ^ (_W - i)) ((v * 2 ^ i) mod 2 ^ _W)).
  - intros i s Hi Hs. destruct (word_window v _W i 1) as (E1 & E2 & E3); [lia..|]. set (u := (v * 2 ^ i) mod 2 ^ _W) in *.
    assert (is_word u) as Hu by (unfold is_word; rewrite _B_eq; apply Z.mod_pos_bound, Z.pow_pos_nonneg; lia).
    assert (1 <= e * 2 ^ i + v / 2 ^ (_W - i)) as Hpos. { assert (0 < 2 ^ i) by (apply Z.pow_pos_nonneg; lia). assert (0 <= v / 2 ^ (_W - i)) by (apply Z.div_pos; [lia|apply Z.pow_pos_nonneg; lia]). nia. }
    eapply wp_mono; [apply (exp_bit_spec s _ u Hpos Hu Hs)|]. intros s' Hs'. rewrite shift_left, E3 in Hs' by lia. rewrite E1.
    replace (e * 2 ^ (i + 1) + (v / 2 ^ (_W - i) * 2 ^ 1 + u / 2 ^ (_W - 1))) with (2 * (e * 2 ^ i + v / 2 ^ (_W - i)) + u / 2 ^ (_W - 1)) by (rewrite Z.pow_add_r by lia; lia). done.
  - rewrite Z.pow_0_r, Z.sub_0_r, !Z.mul_1_r, Z.mod_small, Z.div_small, Z.add_0_r by lia. done.
  - intros s. rewrite Z.max_r by lia. done.
Qed.

(** *** Word by word *)

Lemma fixed_at m L y vy i : store m0 z0 m L → fixed m0 z0 y vy → 0 <= i < len y → at_ m y i = Ret (get m0 (off y + i)).
Proof using.
  intros Hst Hy Hi. destruct (store_fixed _ _ _ _ _ _ Hst Hy) as [(Hv & _) _]. rewrite at_eq by done. destruct Hst as (_ & (_ & Hk) & _).
  destruct Hy as [((? & ? & ?) & _) Ha]. f_equal. apply Hk; [lia|]. unfold apart in Ha. lia.
Qed.

Lemma top_bits v b : 1 <= b <= _W → 2 ^ (b - 1) <= v < 2 ^ b → 1 * 2 ^ (b - 1) + (v * 2 ^ (_W - b + 1)) mod 2 ^ _W / 2 ^ (_W - (b - 1)) = v.
Proof using.
  intros Hb Hv. destruct (Z.eq_dec b 1) as [->|Hb1].
  { replace (_W - 1 + 1) with _W by lia. rewrite Z.mod_mul by (apply Z.pow_nonzero; lia). rewrite Z.div_0_l by (apply Z.pow_nonzero; lia). change (2 ^ (1 - 1)) with 1 in *. change (2 ^ 1) with 2 in Hv. lia. }
  assert (2 ^ b <= 2 ^ _W) by (apply Z.pow_le_mono_r; lia). assert (0 < 2 ^ (b - 1)) by (apply Z.pow_pos_nonneg; lia).
  destruct (word_window v _W (_W - b + 1) (b - 1)) as (E & _ & _); [lia..|]. replace (_W - (_W - b + 1 + (b - 1))) with 0 in E by lia. replace (_W - (_W - b + 1)) with (b - 1) in E by lia.
  rewrite Z.pow_0_r, Z.div_1_r in E. assert (v / 2 ^ (b - 1) = 1) as Eq.
  { symmetry. apply Z.div_unique_pos with (v - 2 ^ (b - 1)); [|lia]. assert (2 ^ b = 2 * 2 ^ (b - 1)) by (rewrite <- Z.pow_succ_r by lia; f_equal; lia). lia. }
  rewrite Eq in E. lia.
Qed.

Definition power_result (vy : Z) : mem * nat_ → Prop := λ '(m', r), store m0 z0 m' [r] ∧ ∃ V, is_nat m' r V ∧ is_power vy V.

Lemma power_norm m z vy L V : store m0 z0 m (z :: L) → is_nat m z V → is_power vy V → (z ← norm m z; Ret (m, z)) ⇓ power_result vy.
Proof using.
  intros Hst Hz HV. pose proof Hz as (Hv & E & _). eapply wp_bind_mono; [by apply nat_norm_spec|]. intros r (Eo & Ec & Hl & En & Ht). apply wp_ret. pose proof Hv as (? & ? & ?).
  assert (store m0 z0 m (r :: L)) as Hst' by (eapply store_same; [exact Hst|done|done|lia]). split; [by apply (store_sub _ _ _ [r] L)|].
  exists V. split; [|done]. split; [by eapply store_valid; [exact Hst'|left]|]. split; [congruence|done].
Qed.

Lemma expNN_bits_spec m z y vy : store m0 z0 m [z] → is_nat m z vx → fixed m0 z0 y vy → words m0 → 0 < len y → expNN_bits m z x y md ⇓ power_result vy.
Proof using Hx Hm.
  intros Hst Hz Hy Hw0 Hl. unfold expNN_bits. rewrite (fixed_at m [z] y vy), go_bind_ret by (done || lia). pose proof Hy as [(_ & Ey & Hty) _]. specialize (Hty Hl).
  replace (off y + (len y - 1)) with (off y + len y - 1) by lia. set (vt := get m0 (off y + len y - 1)) in *. assert (is_word vt) as Hvt by (by apply words_get).
  rewrite leadingZeros_spec, go_bind_ret by done. pose proof Hvt as [Hvt0 Hvt1]. rewrite _B_eq in Hvt1. assert (1 <= _W) as HW by (destruct _W_cases; lia).
  assert (0 <= bits vt <= _W) as Hb by (apply bits_le; lia). destruct (bits_bound vt Hvt0) as [Hb1 Hb2]. specialize (Hb2 Hty).
  assert (1 <= bits vt) as Hb0. { destruct (Z.eq_dec (bits vt) 0) as [E|]; [|lia]. rewrite E in Hb1. change (2 ^ 0) with 1 in Hb1. lia. }
  cbv zeta. rewrite shift_left by lia. replace (_W - bits vt + 1) with (_W - bits vt + 1) by lia. set (b := bits vt) in *. replace (_W - (_W - b + 1)) with (b - 1) by lia.
  assert (is_word ((vt * 2 ^ (_W - b + 1)) mod 2 ^ _W)) as Hwv by (unfold is_word; rewrite _B_eq; apply Z.mod_pos_bound, Z.pow_pos_nonneg; lia).
  eapply wp_bind_mono; [apply (exp_word (m, z, nil_, nil_, nil_, (vt * 2 ^ (_W - b + 1)) mod 2 ^ _W) 1 ((vt * 2 ^ (_W - b + 1)) mod 2 ^ _W) (b - 1)); [lia|exact Hwv|lia|]|].
  { split; [done|]. split; [eapply store_perm; [|apply store_nil, store_nil, store_nil, Hst]; solve_Permutation|]. exists vx. by split. }
  rewrite top_bits by lia. intros [[[[[m1 z1] zz1] r1] q1] v1] (_ & Hst1 & V1 & Hz1 & HV1).
  eapply wp_bind_mono with (Q := λ '(m', z', zz', r', q'), store m0 z0 m' [z'; zz'; r'; q'] ∧ ∃ V, is_nat m' z' V ∧ is_power vy V).
  - apply wp_for_down with (I := λ i '(m', z', zz', r', q'), store m0 z0 m' [z'; zz'; r'; q'] ∧ 1 <= num m0 (off y + (i + 1)) (len y - (i + 1)) ∧ ∃ V, is_nat m' z' V ∧ is_power (num m0 (off y + (i + 1)) (len y - (i + 1))) V).
    + intros i [[[[m2 z2] zz2] r2] q2] Hi (Hst2 & Hn1 & V2 & Hz2 & HV2). rewrite (fixed_at m2 _ y vy), go_bind_ret by (done || lia).
      assert (is_word (get m0 (off y + i))) as Hg by (by apply words_get). pose proof (num_bound m0 (off y + (i + 1)) (len y - (i + 1)) Hw0 ltac:(lia)) as Hnb.
      eapply wp_bind_mono; [apply (exp_word (m2, z2, zz2, r2, q2, get m0 (off y + i)) (num m0 (off y + (i + 1)) (len y - (i + 1))) (get m0 (off y + i)) _W); [lia|done|lia|split; [done|]; split; [done|by exists V2]]|].
      intros [[[[[m3 z3] zz3] r3] q3] v3] (_ & Hst3 & V3 & Hz3 & HV3). apply wp_ret. split; [done|].
      replace (i - 1 + 1) with i by lia. replace (len y - i) with (len y - (i + 1) + 1) by lia. rewrite num_cons by lia. rewrite Z.sub_diag, Z.pow_0_r, Z.div_1_r in HV3.
      rewrite _B_eq. replace (off y + i + 1) with (off y + (i + 1)) by lia.
      rewrite Z.add_comm, Z.mul_comm. destruct Hg. assert (0 < 2 ^ _W) by (apply Z.pow_pos_nonneg; lia). split; [nia|]. by exists V3.
    + split; [done|]. replace (len y - 2 + 1) with (len y - 1) by lia. replace (len y - (len y - 1)) with 1 by lia. rewrite num_one.
      replace (off y + (len y - 1)) with (off y + len y - 1) by lia. split; [unfold vt in *; lia|]. by exists V1.
    + intros [[[[m2 z2] zz2] r2] q2]. rewrite Z.min_r by lia. change (0 - 1 + 1) with 0. rewrite Z.add_0_r, Z.sub_0_r, Ey. by intros (? & _ & ?).
  - intros [[[[m2 z2] zz2] r2] q2] (Hst2 & V2 & Hz2 & HV2). by eapply power_norm.
Qed.

(** *** Four bits at a time *)

Context (Hone : fixed m0 z0 natOne 1) (Hm1 : 1 < vm).

(** The list of powers, of which the slices [tl] are made here; the first [b] are there. *)
Definition powers_of (m : mem) (tl : list nat_) (b : nat) : Prop :=
  ∀ n p, (n < b)%nat → (natOne :: x :: tl) !! n = Some p → ∃ u, is_nat m p u ∧ red u = red (vx ^ Z.of_nat n).

Lemma insert_middle {A} (l1 : list A) a b l2 : <[length l1 := b]> (l1 ++ a :: l2) = l1 ++ b :: l2.
Proof using. induction l1 as [|c l1 IH]; simpl; [done|by rewrite IH]. Qed.

Lemma separate_lookup L (i j : nat) s t : separate L → i ≠ j → L !! i = Some s → L !! j = Some t → apart s t.
Proof using.
  revert i j. induction L as [|a L IH]; intros [|i] [|j] Hd Hij Hi Hj; try done; destruct Hd as [Ha Hd]; simpl in *; simplify_eq.
  - rewrite Forall_forall in Ha. apply Ha. by eapply list_elem_of_lookup_2.
  - apply apart_sym. rewrite Forall_forall in Ha. apply Ha. by eapply list_elem_of_lookup_2.
  - apply (IH i j); (done || lia).
Qed.

Lemma power_apart m tl L n p : store m0 z0 m (L ++ tl) → (natOne :: x :: tl) !! n = Some p →
  (∀ s, s ∈ L → apart s p) ∧ ∀ k s, (k + 2 ≠ n)%nat → tl !! k = Some s → apart s p.
Proof using Hx Hone.
  intros Hst Hp. destruct (store_fixed _ _ _ _ _ _ Hst Hx) as [_ Hax]. destruct (store_fixed _ _ _ _ _ _ Hst Hone) as [_ Ha1].
  destruct n as [|[|n]]; simpl in Hp; simplify_eq.
  - split; [intros s Hs; apply Ha1, elem_of_app; by left|intros k s _ Hs; apply Ha1, elem_of_app; right; by eapply list_elem_of_lookup_2].
  - split; [intros s Hs; apply Hax, elem_of_app; by left|intros k s _ Hs; apply Hax, elem_of_app; right; by eapply list_elem_of_lookup_2].
  - pose proof Hst as (_ & _ & _ & Hd). split.
    + intros s [i Hi]%list_elem_of_lookup. apply (separate_lookup (L ++ tl) i (length L + n)); [done| |by apply lookup_app_l_Some|].
      * apply lookup_lt_Some in Hi. lia.
      * rewrite lookup_app_r by lia. by replace (length L + n - length L)%nat with n by lia.
    + intros k s Hk Hs. apply (separate_lookup (L ++ tl) (length L + k) (length L + n)); [done|lia|..]; (rewrite lookup_app_r by lia); [by replace (length L + k - length L)%nat with k by lia|by replace (length L + n - length L)%nat with n by lia].
Qed.

Lemma powers_keep m m' tl b L : powers_of m tl b → store m0 z0 m' L → (∀ t v, t ∈ tl → is_nat m t v → is_nat m' t v) → powers_of m' tl b.
Proof using Hx Hone.
  intros Hpw Hst Hk n p Hn Hp. destruct (Hpw n p Hn Hp) as (u & Hu & Eu). destruct n as [|[|n]]; simpl in Hp.
  - exists 1. simplify_eq. split; [by eapply store_fixed|done].
  - exists vx. simplify_eq. split; [by eapply store_fixed|by rewrite Z.pow_1_r].
  - exists u. split; [|done]. apply Hk; [by eapply list_elem_of_lookup_2|done].
Qed.

Lemma next_power_spec m tl zz r z n a b va vb : store m0 z0 m (zz :: r :: z :: tl) → (n < length tl)%nat → powers_of m tl (2 + n) →
  (∃ i, (i < 2 + n)%nat ∧ (natOne :: x :: tl) !! i = Some a) → (∃ i, (i < 2 + n)%nat ∧ (natOne :: x :: tl) !! i = Some b) → is_nat m a va → is_nat m b vb → red (va * vb) = red (vx ^ (2 + Z.of_nat n)) →
  next_power m (natOne :: x :: tl) zz r (2 + Z.of_nat n) a b md ⇓ λ '(m', powers, zz', r'), ∃ tl', powers = natOne :: x :: tl' ∧ length tl' = length tl ∧
    store m0 z0 m' (zz' :: r' :: z :: tl') ∧ powers_of m' tl' (3 + n) ∧ ∀ k, (k < n)%nat → tl' !! k = tl !! k.
Proof using Hx Hone Hm Hm1.
  intros Hst Hn Hpw (ia & Hia & Hla) (ib & Hib & Hlb) Ha Hb E. destruct (lookup_lt_is_Some_2 tl n Hn) as [p Hp]. unfold next_power.
  replace (2 + Z.of_nat n) with (Z.of_nat (2 + n)) by lia. rewrite (idx_Some _ _ p), go_bind_ret by (by rewrite nthZ_lookup).
  assert (∀ i c, (i < 2 + n)%nat → (natOne :: x :: tl) !! i = Some c → apart p c) as Hap.
  { intros i c Hi Hc. eapply (power_apart m tl [zz; r; z] i c Hst Hc); [|exact Hp]. lia. }
  set (l1 := take n tl). set (l2 := drop (S n) tl). assert (tl = l1 ++ p :: l2) as Etl by (symmetry; by apply take_drop_middle). assert (length l1 = n) as El1 by (apply length_take_le; lia).
  assert (store m0 z0 m (p :: zz :: r :: z :: l1 ++ l2)) as Hst1 by (eapply store_perm; [|exact Hst]; rewrite Etl; solve_Permutation).
  eapply wp_bind_mono; [eapply (mul_store _ _ _ _ _ a b); [exact Hst1|exact Ha|exact Hb|by eapply (Hap ia)|by eapply (Hap ib)]|]. intros [m1 p1] (Hst2 & Hp1 & Hk1).
  assert (store m0 z0 m1 (zz :: r :: p1 :: z :: l1 ++ l2)) as Hst3 by (eapply store_perm; [|exact Hst2]; solve_Permutation). destruct (store_fixed _ _ _ _ _ _ Hst3 Hm) as [Hmd Hma].
  eapply wp_bind_mono; [eapply (div_store _ _ _ zz r _ p1 md); [exact Hst3|exact Hp1|exact Hmd|lia|..]|].
  - eapply store_apart; [exact Hst3|right; by left].
  - apply Hma. by left.
  - destruct Hst3 as (_ & _ & _ & _ & H & _). apply Forall_cons in H as [H _]. done.
  - apply Hma. right. by left.
  - intros [[m2 q] r'] (Hst4 & Hr & Hk2). unfold upd. rewrite decide_True by (rewrite !zlen_cons; unfold zlen; lia). rewrite go_bind_ret. apply wp_ret.
    exists (l1 ++ r' :: l2). assert (insZ (natOne :: x :: tl) (Z.of_nat (2 + n)) r' = natOne :: x :: l1 ++ r' :: l2) as ->.
    { unfold insZ. rewrite decide_True by lia. rewrite Nat2Z.id. simpl. do 2 f_equal. rewrite Etl at 1. rewrite <- El1 at 1. apply insert_middle. }
    assert (∀ t v, t ∈ l1 ++ l2 → is_nat m t v → is_nat m2 t v) as Hk. { intros t v Ht Hv. apply Hk2; [by do 2 right|]. apply Hk1; [by do 3 right|done]. }
    split; [done|]. split; [rewrite Etl, !length_app; done|]. assert (store m0 z0 m2 (q :: p1 :: z :: l1 ++ r' :: l2)) as Hst5 by (eapply store_perm; [|exact Hst4]; solve_Permutation).
    split; [done|]. split; [|intros k Hlt; rewrite Etl, !lookup_app_l by lia; done].
    intros k c Hlt Hc. destruct (decide (k = 2 + n)%nat) as [->|Hne].
    + simpl in Hc. rewrite <- El1, list_lookup_middle in Hc by done. simplify_eq. exists (va * vb mod vm). split; [done|].
      replace (Z.of_nat (2 + n)) with (2 + Z.of_nat n) by lia. rewrite <- E. unfold red. rewrite (proj2 (Z.eqb_neq vm 0)) by lia. by rewrite Z.mod_mod by lia.
    + destruct k as [|[|k]]; simpl in Hc; simplify_eq.
      * exists 1. split; [by eapply store_fixed|done].
      * exists vx. split; [by eapply store_fixed|by rewrite Z.pow_1_r].
      * rewrite lookup_app_l in Hc by lia. destruct (Hpw (2 + k)%nat c) as (u & Hu & Eu); [lia|simpl; rewrite Etl, lookup_app_l by lia; done|].
        exists u. split; [|done]. apply Hk; [apply elem_of_app; left; by eapply list_elem_of_lookup_2|done].
Qed.

Lemma powers_loop_spec m z : store m0 z0 m [z] → powers_loop m x md ⇓ λ '(m', powers, zz, r), ∃ tl, powers = natOne :: x :: tl ∧ length tl = 14%nat ∧
  store m0 z0 m' (zz :: r :: z :: tl) ∧ powers_of m' tl 16.
Proof using Hx Hone Hm Hm1.
  intros Hst. unfold powers_loop. apply wp_for_up with (I := λ h '(m', powers, zz, r), ∃ tl, powers = natOne :: x :: tl ∧ length tl = 14%nat ∧
    store m0 z0 m' (zz :: r :: z :: tl) ∧ powers_of m' tl (Z.to_nat (2 * h))).
  - intros h [[[m1 powers] zz] r] Hh (tl & -> & Hl & Hst1 & Hpw). set (n := Z.to_nat (2 * h - 2)). assert (2 * h = 2 + Z.of_nat n) as Eh by lia.
    assert (Z.to_nat (2 * h) = 2 + n)%nat as Eb by lia. rewrite Eb in Hpw. rewrite Eh. replace ((2 + Z.of_nat n) / 2) with (Z.of_nat (Z.to_nat h)) by (rewrite <- Eh, Z.mul_comm, Z.div_mul by lia; lia).
    assert (Z.to_nat h < length (natOne :: x :: tl))%nat as Hlt by (simpl; lia). destruct (lookup_lt_is_Some_2 _ _ Hlt) as [p2 Hp2].
    destruct (Hpw (Z.to_nat h) p2) as (u & Hu & Eu); [lia|done|]. rewrite Z2Nat.id in Eu by lia. rewrite (idx_Some _ _ p2), go_bind_ret by (by rewrite nthZ_lookup).
    eapply wp_bind_mono; [eapply (next_power_spec m1 tl zz r z n p2 p2 u u); [exact Hst1|lia|exact Hpw|exists (Z.to_nat h); split; [lia|done]..|exact Hu|exact Hu|]|].
    { rewrite (power_mul h u h u) by (done || lia). do 2 f_equal. lia. }
    intros [[[m2 powers] zz2] r2] (tl2 & -> & Hl2 & Hst2 & Hpw2 & _). assert (n < length tl2)%nat as Hn2 by lia. destruct (lookup_lt_is_Some_2 _ _ Hn2) as [p Hp].
    rewrite (idx_Some _ _ p), go_bind_ret by (replace (2 + Z.of_nat n) with (Z.of_nat (2 + n)) by lia; by rewrite nthZ_lookup).
    destruct (Hpw2 (2 + n)%nat p) as (u2 & Hu2 & Eu2); [lia|done|]. destruct (store_fixed _ _ _ _ _ _ Hst2 Hx) as [Hx2 _].
    replace (2 + Z.of_nat n + 1) with (2 + Z.of_nat (S n)) by lia.
    eapply wp_mono; [eapply (next_power_spec m2 tl2 zz2 r2 z (S n) p x u2 vx); [exact Hst2|lia|exact Hpw2|exists (2 + n)%nat; split; [lia|done]|exists 1%nat; split; [lia|done]|exact Hu2|exact Hx2|]|].
    { rewrite (power_mul (Z.of_nat (2 + n)) u2 1 vx); [do 2 f_equal; lia|lia|lia|done|by rewrite Z.pow_1_r]. }
    intros [[[m3 powers] zz3] r3] (tl3 & -> & Hl3 & Hst3 & Hpw3 & _). exists tl3. split; [done|]. split; [lia|]. split; [done|].
    replace (Z.to_nat (2 * (h + 1))) with (3 + S n)%nat by lia. done.
  - exists (replicate 14 nil_). split; [done|]. split; [done|]. split.
    + eapply store_perm; [|do 16 apply store_nil; exact Hst]. simpl. solve_Permutation.
    + destruct (store_fixed _ _ _ _ _ _ Hst Hx) as [Hx1 _]. destruct (store_fixed _ _ _ _ _ _ Hst Hone) as [H1 _].
      intros [|[|n]] p Hn Hp; [..|lia]; simpl in Hp; simplify_eq; [exists 1|exists vx]; (split; [done|]); [done|by rewrite Z.pow_1_r].
  - intros [[[m1 powers] zz] r]. done.
Qed.

Definition window_state (tl : list nat_) (e v : Z) : mem * nat_ * nat_ * nat_ * Z → Prop := λ '(m, z, zz, r, v'),
  v' = v ∧ store m0 z0 m (z :: zz :: r :: tl) ∧ powers_of m tl 16 ∧ is_nat m z (red (vx ^ e)).

Lemma square_spec m tl z zz r e : 0 <= e → store m0 z0 m (z :: zz :: r :: tl) → powers_of m tl 16 → is_nat m z (red (vx ^ e)) →
  mul_mod m z zz r z md ⇓ λ '(m', z', zz', r'), store m0 z0 m' (z' :: zz' :: r' :: tl) ∧ powers_of m' tl 16 ∧ is_nat m' z' (red (vx ^ (2 * e))).
Proof using Hx Hone Hm Hm1.
  intros He Hst Hpw Hz. eapply wp_mono; [eapply mul_mod_spec; [exact Hst|lia|exact Hz|exact Hz|apply apart_sym; eapply store_apart; [exact Hst|by left]]|].
  intros [[[m' z'] zz'] r'] (Hst' & Hz' & Hk). split; [done|]. split; [by eapply powers_keep|]. pose proof (red_red (vx ^ e)) as Er.
  rewrite (power_mul e _ e _ He He Er Er) in Hz'. replace (2 * e) with (e + e) by lia. done.
Qed.

Lemma window_spec tl e v first st : length tl = 14%nat → 0 <= e → is_word v → (first = true → e = 0) → window_state tl e v st →
  window (natOne :: x :: tl) md first st ⇓ window_state tl (e * 2 ^ 4 + v / 2 ^ (_W - 4)) (uw (Z.shiftl v 4)).
Proof using Hx Hone Hm Hm1.
  destruct st as [[[[m z] zz] r] v']. intros Hl He Hv Hf (-> & Hst & Hpw & Hz). unfold window.
  eapply wp_bind_mono with (Q := λ '(m', z', zz', r'), store m0 z0 m' (z' :: zz' :: r' :: tl) ∧ powers_of m' tl 16 ∧ is_nat m' z' (red (vx ^ (e * 2 ^ 4)))).
  - destruct first; [apply wp_ret; rewrite Hf in * by done; done|]. change (2 ^ 4) with 16.
    eapply wp_bind_mono; [by apply square_spec|]. intros [[[m1 z1] zz1] r1] (Hst1 & Hpw1 & Hz1).
    eapply wp_bind_mono; [eapply (square_spec m1 tl z1 zz1 r1 (2 * e)); (done || lia)|]. intros [[[m2 z2] zz2] r2] (Hst2 & Hpw2 & Hz2).
    eapply wp_bind_mono; [eapply (square_spec m2 tl z2 zz2 r2 (2 * (2 * e))); (done || lia)|]. intros [[[m3 z3] zz3] r3] (Hst3 & Hpw3 & Hz3).
    eapply wp_mono; [eapply (square_spec m3 tl z3 zz3 r3 (2 * (2 * (2 * e)))); (done || lia)|]. intros [[[m4 z4] zz4] r4] H4.
    replace (e * 16) with (2 * (2 * (2 * (2 * e)))) by lia. done.
  - intros [[[m1 z1] zz1] r1] (Hst1 & Hpw1 & Hz1). assert (4 <= _W) as HW by (destruct _W_cases; lia). rewrite Z.shiftr_div_pow2 by lia.
    set (d := v / 2 ^ (_W - 4)). assert (0 <= d < 16) as Hd.
    { pose proof Hv as [Hv0 Hv1]. rewrite _B_eq in Hv1. assert (0 < 2 ^ (_W - 4)) by (apply Z.pow_pos_nonneg; lia). split; [apply Z.div_pos; lia|apply Z.div_lt_upper_bound; [done|]].
      change 16 with (2 ^ 4). rewrite <- Z.pow_add_r by lia. by replace (_W - 4 + 4) with _W by lia. }
    assert (Z.to_nat d < length (natOne :: x :: tl))%nat as Hlt by (simpl; lia). destruct (lookup_lt_is_Some_2 _ _ Hlt) as [p Hp].
    destruct (Hpw1 (Z.to_nat d) p) as (u & Hu & Eu); [lia|done|]. rewrite Z2Nat.id in Eu by lia.
    rewrite (idx_Some _ _ p), go_bind_ret by (replace d with (Z.of_nat (Z.to_nat d)) by lia; by rewrite nthZ_lookup).
    destruct (power_apart m1 tl [z1; zz1; r1] _ p Hst1 Hp) as [Hap _].
    eapply wp_bind_mono; [eapply mul_mod_spec; [exact Hst1|lia|exact Hz1|exact Hu|apply Hap; right; by left]|].
    intros [[[m2 z2] zz2] r2] (Hst2 & Hz2 & Hk2). apply wp_ret. split; [done|]. split; [done|]. split; [by eapply powers_keep|].
    rewrite (power_mul (e * 2 ^ 4) _ d u) in Hz2; [done|lia|lia|apply red_red|done].
Qed.

Lemma windows_spec tl e v (first : bool) st : length tl = 14%nat → 0 <= e → is_word v → (first = true → e = 0) → window_state tl e v st →
  for_up 0 (_W / 4) (λ h, window (natOne :: x :: tl) md (negb (negb first || negb (4 * h =? 0)))) st ⇓ λ st', ∃ v', window_state tl (e * 2 ^ _W + v) v' st'.
Proof using Hx Hone Hm Hm1.
  intros Hl He Hv Hf Hst. pose proof Hv as [Hv0 Hv1]. rewrite _B_eq in Hv1. assert (_W = 4 * (_W / 4) ∧ 1 <= _W / 4) as [EW HW] by (destruct _W_cases as [-> | ->]; done).
  apply wp_for_up with (I := λ h, window_state tl (e * 2 ^ (4 * h) + v / 2 ^ (_W - 4 * h)) ((v * 2 ^ (4 * h)) mod 2 ^ _W)).
  - intros h s Hh Hs. destruct (word_window v _W (4 * h) 4) as (E1 & E2 & E3); [lia..|]. set (u := (v * 2 ^ (4 * h)) mod 2 ^ _W) in *.
    assert (is_word u) as Hu by (unfold is_word; rewrite _B_eq; apply Z.mod_pos_bound, Z.pow_pos_nonneg; lia).
    assert (0 <= e * 2 ^ (4 * h) + v / 2 ^ (_W - 4 * h)) as Hpos. { apply Z.add_nonneg_nonneg; [apply Z.mul_nonneg_nonneg; [done|apply Z.pow_nonneg; lia]|apply Z.div_pos; [lia|apply Z.pow_pos_nonneg; lia]]. }
    eapply wp_mono; [apply (window_spec tl _ u _ s Hl Hpos Hu); [|exact Hs]|].
    + rewrite negb_true_iff, orb_false_iff, !negb_false_iff, Z.eqb_eq. intros [Ef Eh]. assert (h = 0) as -> by lia. rewrite Hf by done. rewrite Z.mul_0_r, Z.sub_0_r, Z.div_small by lia. done.
    + intros s' Hs'. rewrite shift_left, E3 in Hs' by lia. replace (4 * (h + 1)) with (4 * h + 4) by lia. rewrite E1.
      replace (e * 2 ^ (4 * h + 4) + (v / 2 ^ (_W - 4 * h) * 2 ^ 4 + u / 2 ^ (_W - 4))) with ((e * 2 ^ (4 * h) + v / 2 ^ (_W - 4 * h)) * 2 ^ 4 + u / 2 ^ (_W - 4)) by (rewrite Z.pow_add_r by lia; lia). done.
  - rewrite Z.mul_0_r, Z.pow_0_r, Z.sub_0_r, !Z.mul_1_r, Z.mod_small, Z.div_small, Z.add_0_r by lia. done.
  - intros s. rewrite Z.max_r, <- EW, Z.sub_diag, Z.pow_0_r, Z.div_1_r by lia. eauto.
Qed.

Lemma expNNWindowed_spec m z y vy : store m0 z0 m [z] → fixed m0 z0 y vy → words m0 → vy ≠ 1 → expNNWindowed m z x y md ⇓ power_result vy.
Proof using Hx Hone Hm Hm1.
  intros Hst Hy Hw0 Hy1. unfold expNNWindowed. pose proof Hy as [((_ & Hly & _) & Ey & _) _].
  eapply wp_bind_mono; [by apply powers_loop_spec|]. intros [[[m1 powers] zz] r] (tl & -> & Hl & Hst1 & Hpw1).
  assert (store m0 z0 m1 (z :: zz :: r :: tl)) as Hst1' by (eapply store_perm; [|exact Hst1]; solve_Permutation).
  eapply wp_bind_mono; [apply setWord_spec; [apply Hst1|eapply store_valid; [exact Hst1'|by left]|unfold is_word; pose proof _B_bound; lia]|].
  intros [m2 z2] [Hi2 Hz2]. destruct (store_inside _ _ _ _ _ _ _ Hst1' Hi2) as [Hst2 Hk2].
  assert (powers_of m2 tl 16) as Hpw2 by (eapply powers_keep; [exact Hpw1|exact Hst2|intros t u Ht; apply Hk2; by do 2 right]).
  eapply wp_bind_mono with (Q := λ '(m', z', zz', r'), store m0 z0 m' (z' :: zz' :: r' :: tl) ∧ is_nat m' z' (red (vx ^ vy))).
  - apply wp_for_down with (I := λ i '(m', z', zz', r'), store m0 z0 m' (z' :: zz' :: r' :: tl) ∧ powers_of m' tl 16 ∧ is_nat m' z' (red (vx ^ num m0 (off y + (i + 1)) (len y - (i + 1))))).
    + intros i [[[m3 z3] zz3] r3] Hi (Hst3 & Hpw3 & Hz3). rewrite (fixed_at m3 _ y vy), go_bind_ret by (done || lia).
      assert (is_word (get m0 (off y + i))) as Hg by (by apply words_get). pose proof (num_bound m0 (off y + (i + 1)) (len y - (i + 1)) Hw0 ltac:(lia)) as Hnb.
      set (e := num m0 (off y + (i + 1)) (len y - (i + 1))) in *.
      eapply wp_bind_mono; [apply (windows_spec tl e (get m0 (off y + i)) (i =? len y - 1)); [done|lia|done| |done]|].
      { intros ->%Z.eqb_eq. apply num_0. lia. }
      intros [[[[m4 z4] zz4] r4] v4] (v' & _ & Hst4 & Hpw4 & Hz4). apply wp_ret. split; [done|]. split; [done|].
      replace (i - 1 + 1) with i by lia. replace (len y - i) with (len y - (i + 1) + 1) by lia. rewrite num_cons by lia.
      rewrite _B_eq. replace (off y + i + 1) with (off y + (i + 1)) by lia. rewrite Z.add_comm, Z.mul_comm. done.
    + split; [done|]. split; [done|]. rewrite num_0 by lia. rewrite Z.pow_0_r. unfold red. rewrite (proj2 (Z.eqb_neq vm 0)), Z.mod_small by lia. done.
    + intros [[[m3 z3] zz3] r3]. destruct (Z.eq_dec (len y) 0) as [E0|]; [|rewrite Z.min_r by lia; change (0 - 1 + 1) with 0; rewrite Z.add_0_r, Z.sub_0_r, Ey; by intros (? & _ & ?)].
      rewrite E0. change (Z.min (0 - 1) (0 - 1) + 1) with 0. rewrite Z.add_0_r, Z.sub_0_r, <- Ey, E0. by intros (? & _ & ?).
  - intros [[[m3 z3] zz3] r3] (Hst3 & Hz3). eapply power_norm; [exact Hst3|exact Hz3|]. unfold is_power. by rewrite (proj2 (Z.eqb_neq vy 1)).
Qed.
End power.


(** ** The power of natural numbers *)

(** What [expNN] computes: the first power is not reduced. *)
Definition nat_power (vx vy vm : Z) : Z := if vm =? 1 then 0 else if vy =? 1 then vx else red vm (vx ^ vy).

Lemma store_weaken m z m' L : valid m z → store m nil_ m' L → store m z m' L.
Proof.
  intros Hz (Hw & (Hl & Hk) & Hs & Hd). split; [done|]. split; [|split; [|done]].
  - split; [done|]. intros i Hi _. apply Hk; simpl; lia.
  - eapply Forall_impl; [exact Hs|]. intros s [Hv [?|[[? ?]|?]]]; (split; [done|]); [by left|by left|by right; right].
Qed.

Lemma nat_word m x v : words m → is_nat m x v → (len x = 0 → v = 0) ∧ (len x = 1 → v = get m (off x) ∧ 0 < v) ∧ (1 < len x → 1 < v).
Proof.
  intros Hm Hx. pose proof Hx as ((Ho & Hl & Hc) & E & Ht). destruct (nat_pos _ _ _ Hm Hx) as [Hb Hb']. split; [by apply (zero_nat _ _ _ Hx)|]. split.
  - intros E1. rewrite E1, num_one in E. rewrite E1, Z.sub_diag, Z.pow_0_r in Hb'. lia.
  - intros H1. specialize (Hb' ltac:(lia)). assert (_B ^ 1 <= _B ^ (len x - 1)) by (apply Z.pow_le_mono_r; pose proof _B_bound; lia). rewrite Z.pow_1_r in *. pose proof _B_bound. lia.
Qed.

Lemma is_one m md vm : words m → is_nat m md vm → (if len md =? 1 then d ← at_ m md 0; Ret (d =? 1) else Ret false) = Ret (vm =? 1).
Proof.
  intros Hm Hx. destruct (nat_word m md vm Hm Hx) as (H0 & H1 & H2). pose proof Hx as (Hv & _). pose proof Hv as (_ & ? & _). destruct (Z.eqb_spec (len md) 1) as [E|E].
  - rewrite at_eq, go_bind_ret, Z.add_0_r by (done || lia). by destruct (H1 E) as [<- _].
  - f_equal. symmetry. apply Z.eqb_neq. destruct (Z.eq_dec (len md) 0); [rewrite H0 by done; done|]. specialize (H2 ltac:(lia)). lia.
Qed.

(** The receiver is apart from the operands after the check for aliasing. *)
Lemma unaliased m z x y : valid m z → valid m x → valid m y → shares z x → shares z y →
  let z1 := if alias z x || alias z y then nil_ else z in valid m z1 ∧ (z1 = z ∨ z1 = nil_) ∧ apart z1 x ∧ apart z1 y.
Proof.
  intros Hz (? & ? & ?) (? & ? & ?) Hzx Hzy. destruct (alias z x || alias z y) eqn:Ea; simpl.
  - split; [unfold valid; simpl; pose proof (zlen_nonneg m); lia|]. split; [by right|]. unfold apart. simpl. lia.
  - split; [done|]. split; [by left|]. apply orb_false_iff in Ea as [E1 E2]. unfold alias, shares, apart in *. rewrite !andb_false_iff, !Z.ltb_ge, !Z.eqb_neq in E1, E2. lia.
Qed.

Lemma expNN_spec m z x y md vx vy vm : words m → valid m z → is_nat m x vx → is_nat m y vy → fixed m z md vm → fixed m z natOne 1 → shares z x → shares z y →
  expNN m z x y md ⇓ λ '(m', r), store m z m' [r] ∧ is_nat m' y vy ∧ is_nat m' r (nat_power vx vy vm).
Proof.
  intros Hm Hz Hx Hy [Hmd Hmda] [Hone Honea] Hzx Hzy. unfold expNN. destruct (unaliased m z x y) as (Hz1 & Hor & Hx1 & Hy1); [apply Hz|apply Hx|apply Hy|done|done|].
  set (z1 := if alias z x || alias z y then nil_ else z) in *. cbv zeta.
  assert (∀ a v, is_nat m a v → apart z a → apart z1 a) as Hap. { intros a v ((? & ? & ?) & _) Ha. destruct Hor as [-> | ->]; [done|]. unfold apart. simpl. lia. }
  assert (fixed m z1 x vx ∧ fixed m z1 y vy ∧ fixed m z1 md vm ∧ fixed m z1 natOne 1) as (Fx & Fy & Fm & F1) by (unfold fixed; split_and!; (done || by eapply Hap)).
  pose proof (store_start m z1 Hm Hz1) as Hst. clearbody z1. eapply wp_mono with (Q := λ '(m', r), store m z1 m' [r] ∧ is_nat m' r (nat_power vx vy vm)).
  2: { intros [m' r] [Hs Hr]. split; [|split; [by eapply store_fixed|done]]. destruct Hor as [<-|E]; [done|]. rewrite E in Hs. by apply store_weaken. }
  rewrite (is_one m md vm), go_bind_ret by done. unfold nat_power. destruct (nat_word m y vy Hm Hy) as (Hy0 & Hyw & Hy2). destruct (nat_word m md vm Hm Hmd) as (Hmd0 & Hmd1 & Hmd2).
  destruct (nat_pos _ _ _ Hm Hmd) as [[Hvm _] _]. assert (is_word 0 ∧ is_word 1) as [Hw0 Hw1] by (unfold is_word; pose proof _B_bound; lia). destruct (Z.eqb_spec vm 1) as [->|Hm1].
  { eapply wp_mono; [by apply setWord_spec|]. intros [m' r] [Hi Hr]. split; [|done]. by eapply store_inside. }
  pose proof Hy as ((_ & Hly & _) & _). pose proof Hmd as ((_ & Hlm & _) & _). destruct (Z.eqb_spec (len y) 0) as [E0|E0].
  { eapply wp_mono; [by apply setWord_spec|]. intros [m' r] [Hi Hr]. split; [by eapply store_inside|]. rewrite Hy0 by done. simpl. unfold red. rewrite Z.pow_0_r.
    destruct (Z.eqb_spec vm 0); [done|]. by rewrite Z.mod_small by lia. }
  eapply wp_bind_mono with (Q := λ '(m', r), store m z1 m' [r]).
  { destruct (negb _); [|by apply wp_ret]. eapply wp_mono; [apply make_spec; [done|done|lia]|]. intros [m' r] [Hi _]. by eapply store_inside. }
  intros [m1 z2] Hst1. destruct (store_fixed _ _ _ _ _ _ Hst1 Fx) as [Hx2 _].
  eapply wp_bind_mono; [apply set_spec; [apply Hst1|eapply store_valid; [exact Hst1|by left]|exact Hx2]|]. intros [m2 z3] [Hi3 Hz3].
  destruct (store_inside _ _ _ _ _ _ _ Hst1 Hi3) as [Hst3 _].
  eapply wp_mono with (Q := power_result m z1 vx vm vy). 2: { intros [m' r] (Hs & V & HV & E). split; [done|]. by rewrite E in HV. }
  destruct ((1 <? len x) && (1 <? len y) && (0 <? len md)) eqn:Ew.
  - apply andb_true_iff in Ew as [[_ Ey%Z.ltb_lt]%andb_true_iff Em%Z.ltb_lt]. specialize (Hy2 Ey). apply (expNNWindowed_spec m z1 x md vx vm Fx Fm F1); (done || lia).
  - apply (expNN_bits_spec m z1 x md vx vm Fx Fm); (done || lia).
Qed.

(** * Powers of integers *)

(** What [Exp] computes. *)
Definition int_power (x y m : Z) : Z :=
  if m =? 1 then 0 else if y <=? 0 then 1 else if m =? 0 then x ^ y else if y =? 1 then (if x <? 0 then m + x else x) else x ^ y mod m.

Lemma nat_odd m y v : words m → is_nat m y v → 0 < len y → at_ m y 0 = Ret (get m (off y)) ∧ (Z.land (get m (off y)) 1 =? 1) = Z.odd v.
Proof.
  intros Hm (Hv & E & _) Hl. split; [by rewrite at_eq, Z.add_0_r|]. replace (len y) with (len y - 1 + 1) in E by lia. rewrite num_cons in E by lia.
  set (g := get m (off y)) in *. assert (Z.land g 1 = g mod 2) as -> by (apply (Z.land_ones g 1); lia). rewrite Zmod_odd, <- E. destruct _B_half as (h & -> & _). rewrite Z.odd_add, <- Z.mul_assoc, Z.odd_mul. simpl. rewrite xorb_false_r. by destruct (Z.odd _).
Qed.

Lemma pow_abs x y : 0 <= y → x ^ y = if (x <? 0) && Z.odd y then - Z.abs x ^ y else Z.abs x ^ y.
Proof.
  intros Hy. destruct (Z.ltb_spec x 0) as [Hx|Hx]; simpl; [|by rewrite Z.abs_eq]. rewrite (Z.abs_neq x) by lia. destruct (Z.odd y) eqn:Eo.
  - rewrite Z.pow_opp_odd by (by apply Z.odd_spec). lia.
  - rewrite Z.pow_opp_even; [done|]. apply Z.even_spec. by rewrite <- Z.negb_odd, Eo.
Qed.

Lemma pow_mod x y m : 0 <= y → 0 < m → x ^ y mod m = if (0 <? Z.abs x ^ y mod m) && (x <? 0) && Z.odd y then m - Z.abs x ^ y mod m else Z.abs x ^ y mod m.
Proof.
  intros Hy Hm. rewrite (pow_abs x y Hy). pose proof (Z.mod_pos_bound (Z.abs x ^ y) m Hm). destruct (Z.ltb_spec 0 (Z.abs x ^ y mod m)), (x <? 0), (Z.odd y); simpl; try done.
  - apply Z.mod_opp_l_nz; lia.
  - rewrite Z.mod_opp_l_z; lia.
Qed.

(** The sign of the result, and what is left of the modulus. *)
Lemma int_power_cases x y m : 0 <= m → let yw := if y <? 0 then 0 else y in let a := nat_power (Z.abs x) yw m in let odd := (0 <? a) && (x <? 0) && Z.odd yw in
  (odd = true ∧ 0 < m → (1 < m < a ∧ y = 1 ∧ x < - m) ∨ a <= m ∧ m - a = int_power x y m ∧ ¬ (y = 1 ∧ x < - m)) ∧
  (odd = false ∨ m = 0 → (if odd then - a else a) = int_power x y m ∧ ¬ (y = 1 ∧ 1 < m ∧ x < - m)).
Proof.
  intros Hm yw a odd. assert (0 <= yw) as Hyw by (unfold yw; destruct (Z.ltb_spec y 0); lia). unfold int_power, a, nat_power, red in *. clear a.
  destruct (Z.eqb_spec m 1) as [->|Hm1]; [unfold odd; simpl; split; [by intros [? _]|intros _; split; [done|lia]]|].
  destruct (Z.leb_spec y 0) as [Hy|Hy].
  { assert (yw = 0) as E by (unfold yw; destruct (Z.ltb_spec y 0); lia). clearbody yw. subst yw. unfold odd. simpl. rewrite !andb_false_r. rewrite Z.pow_0_r.
    split; [by intros [? _]|]. intros _. split; [|lia]. destruct (Z.eqb_spec m 0); [done|]. apply Z.mod_small. lia. }
  assert (yw = y) as E by (unfold yw; destruct (Z.ltb_spec y 0); lia). clearbody yw. subst yw. destruct (Z.eqb_spec y 1) as [->|Hy1].
  - unfold odd. rewrite Z.pow_1_r. simpl. rewrite !andb_true_r. destruct (Z.ltb_spec 0 (Z.abs x)), (Z.ltb_spec x 0); simpl; destruct (Z.eqb_spec m 0); split; intros; try lia; try (split; lia);
      try (destruct (Z.le_gt_cases (Z.abs x) m); [right|left]; lia).
  - destruct (Z.eqb_spec m 0) as [->|Hm0].
    + split; [lia|]. intros _. split; [|lia]. unfold odd. rewrite (pow_abs x y Hyw). destruct (Z.ltb_spec x 0) as [Hx|Hx], (Z.odd y); simpl; rewrite ?andb_true_r, ?andb_false_r; try done.
      by rewrite (proj2 (Z.ltb_lt _ _)) by (apply Z.pow_pos_nonneg; lia).
    + rewrite (pow_mod x y m) by lia. fold odd. pose proof (Z.mod_pos_bound (Z.abs x ^ y) m ltac:(lia)). split; [intros [-> _]; right; split; [lia|split; [done|lia]]|].
      intros [-> |?]; [|lia]. split; [done|lia].
Qed.

(** What is documented: [x**y], or [x**y mod |m|] if there is a modulus; a negative exponent counts as zero. *)
Definition power_mod (x y m : Z) : Z := if m =? 0 then x ^ Z.max 0 y else x ^ Z.max 0 y mod Z.abs m.
(** The one case that the code does not reduce: a first power that is not below the modulus. *)
Definition unreduced (x y m : Z) : Prop := y = 1 ∧ 1 < Z.abs m ∧ ¬ - Z.abs m <= x < Z.abs m.
#[global] Instance unreduced_decision x y m : Decision (unreduced x y m).
Proof. unfold unreduced. apply _. Defined.

Lemma int_power_mod x y m : ¬ unreduced x y m → int_power x y (Z.abs m) = power_mod x y m.
Proof.
  unfold unreduced. intros H. unfold int_power, power_mod. destruct (Z.eqb_spec (Z.abs m) 1) as [E|E].
  { rewrite (proj2 (Z.eqb_neq m 0)), E, Z.mod_1_r by lia. done. }
  destruct (Z.leb_spec y 0) as [Hy|Hy].
  { rewrite Z.max_l, Z.pow_0_r by lia. destruct (Z.eqb_spec m 0); [done|]. symmetry. apply Z.mod_small. lia. }
  rewrite Z.max_r by lia. destruct (Z.eqb_spec (Z.abs m) 0) as [E0|E0], (Z.eqb_spec m 0); try lia. destruct (Z.eqb_spec y 1) as [->|]; [|done].
  rewrite Z.pow_1_r. assert (- Z.abs m <= x < Z.abs m) as Hx by lia. destruct (Z.ltb_spec x 0).
  - destruct (Z.eq_dec x (- Z.abs m)) as [->|]; [|apply Z.mod_unique_pos with (-1); lia]. rewrite Z.add_opp_diag_r. apply Z.mod_unique_pos with (-1); lia.
  - symmetry. apply Z.mod_small. lia.
Qed.

Lemma owns_store w V z zi m' r n a : owns w V → z ≠ intOne → is_Some (V !! z) → ints w !! z = Some zi → store (mem_ w) (abs zi) m' [r] → is_nat m' r a → (n = true → 0 < a) →
  owns (assign w z m' (mkInt n r)) (<[z := if n then - a else a]> V).
Proof.
  intros Hw Hz Hv Ezi Hst Hr Hn. apply owns_update; try done; [apply Hst|]. intros p x v Hp Hs Ex Hx.
  assert (fixed (mem_ w) (abs zi) (abs x) v) as Hf by (split; [done|]; eapply (owns_apart w V Hw z p); done). destruct (store_fixed _ _ _ _ _ _ Hst Hf) as [Hx' Ha].
  split; [done|]. apply Ha. by left.
Qed.

(** The sign that [Exp] finds. *)
Lemma exp_sign m a yw xneg va vy : words m → is_nat m a va → is_nat m yw vy →
  (if (0 <? len a) && xneg && (0 <? len yw) then d ← at_ m yw 0; Ret (Z.land d 1 =? 1) else Ret false) = Ret ((0 <? va) && xneg && Z.odd vy).
Proof.
  intros Hm Ha Hy. rewrite (nat_len_pos _ _ _ Hm Ha). destruct ((0 <? va) && xneg) eqn:E; simpl; [|done]. destruct (Z.ltb_spec 0 (len yw)) as [Hl|Hl].
  - destruct (nat_odd m yw vy Hm Hy Hl) as [-> <-]. by rewrite go_bind_ret.
  - pose proof Hy as ((_ & ? & _) & _). by rewrite (zero_nat _ _ _ Hy) by lia.
Qed.

Lemma Exp_spec w V z x y md vz vx vy vm : owns w V → z ≠ intOne → V !! z = Some vz → V !! x = Some vx → V !! y = Some vy →
  match md with Some p => V !! p = Some vm ∧ p ≠ z | None => vm = 0 end →
  if decide (vy = 1 ∧ 1 < Z.abs vm ∧ vx < - Z.abs vm) then Exp w z x y md = Panic "underflow"
  else Exp w z x y md ⇓ λ w', owns w' (<[z := int_power vx vy (Z.abs vm)]> V).
Proof.
  intros Hw Hz Hvz Hvx Hvy Hvm. unfold Exp. pose proof (owns_words w V Hw) as Hm. pose proof (owns_one w V Hw) as Hv1. operand_of Hw z zi Ezi Nz Sz. operand_of Hw x xi Exi Nx Sx. operand_of Hw y yi Eyi Ny Sy.
  destruct (owns_nil w V Hw) as [Hvn Hnil]. set (yw := if neg yi then nil_ else abs yi). set (vyw := if vy <? 0 then 0 else vy).
  assert (is_nat (mem_ w) yw vyw ∧ shares (abs zi) yw) as [Nyw Hsy].
  { unfold yw, vyw. rewrite Sy. destruct (Z.ltb_spec vy 0).
    - split; [split; [done|]; split; [by apply num_0|simpl; lia]|]. right. apply apart_sym. apply (Hnil z); [by eexists|exact Ezi].
    - rewrite Z.abs_eq in Ny by done. split; [done|]. eapply (owns_shares w V Hw z y); (done || by eexists). }
  assert (∃ mw, (match md with Some p => i ← deref w p; Ret (abs i) | None => Ret nil_ end) = Ret mw ∧ fixed (mem_ w) (abs zi) mw (Z.abs vm)) as (mw & -> & Fm).
  { destruct md as [p|]; [destruct Hvm as [Hvm Hpz]|subst vm].
    - operand_of Hw p pi Epi Np Sp. exists (abs pi). split; [done|]. split; [done|]. eapply (owns_apart w V Hw z p); (done || by eexists).
    - exists nil_. split; [done|]. split; [split; [done|]; split; [by apply num_0|simpl; lia]|]. apply apart_sym. apply (Hnil z); [by eexists|exact Ezi]. }
  assert (fixed (mem_ w) (abs zi) natOne 1) as F1.
  { destruct (owns_deref w V Hw intOne 1 Hv1) as (o & Eo & _ & No & _). pose proof Hw as (_ & _ & E1 & _). rewrite E1 in Eo. injection Eo as <-. split; [done|].
    eapply (owns_apart w V Hw z intOne _ (mkInt false natOne)); (done || by eexists). }
  assert (shares (abs zi) (abs xi)) as Hsx by (eapply (owns_shares w V Hw z x); (done || by eexists)).
  pose proof (expNN_spec (mem_ w) (abs zi) (abs xi) yw mw _ _ _ Hm (proj1 Nz) Nx Nyw Fm F1 Hsx Hsy) as H. apply wp_ex in H as ([m1 a] & E & Hst & Nyw1 & Na).
  rewrite go_bind_ret, E, go_bind_ret. clear E. pose proof Hst as (Hm1 & _). rewrite (exp_sign m1 a yw (neg xi) _ _ Hm1 Na Nyw1), go_bind_ret, Sx.
  destruct (int_power_cases vx vy (Z.abs vm)) as [Hneg Hpos]; [lia|]. fold vyw in Hneg, Hpos. set (A := nat_power (Z.abs vx) vyw (Z.abs vm)) in *.
  set (odd := (0 <? A) && (vx <? 0) && Z.odd vyw) in *. destruct (store_fixed _ _ _ _ _ _ Hst Fm) as [Nm1 Hma]. destruct (nat_pos _ _ _ Hm1 Na) as [[HA _] _].
  rewrite (nat_len_pos _ _ _ Hm1 Nm1). destruct odd eqn:Eodd; cbn [andb]; [destruct (Z.ltb_spec 0 (Z.abs vm)) as [Hvm0|Hvm0]|].
  - assert (valid m1 a) as Hva by apply Na. destruct (sub_spec m1 a mw a _ _ Hm1 Hva Nm1 Na) as [Hle Hlt]; [right; apply Hma; by left|by left|].
    destruct Hneg as [(H1 & H2 & H3)|(H1 & H2 & H3)]; [done| |].
    + rewrite decide_True by lia. by rewrite (Hlt (proj2 H1)).
    + rewrite decide_False by lia. eapply wp_bind_mono; [by apply Hle|]. intros [m2 r] [Hi Hr]. apply wp_ret. rewrite <- H2.
      destruct (store_inside _ _ _ _ _ _ _ Hst Hi) as [Hst2 _]. by apply (owns_store w V z zi m2 r false).
  - destruct Hpos as [H1 H2]; [right; lia|]. rewrite decide_False by done. apply wp_ret. rewrite <- H1. apply (owns_store w V z zi m1 a true); try done.
    intros _. unfold odd in Eodd. apply andb_true_iff in Eodd as [[?%Z.ltb_lt _]%andb_true_iff _]. done.
  - destruct Hpos as [H1 H2]; [by left|]. rewrite decide_False by done. apply wp_ret. rewrite <- H1. by apply (owns_store w V z zi m1 a false).
Qed.

Section call.
Context (w : world) (V : gmap nat Z) (z x y : ptr) (md : option ptr) (vz vx vy vm : Z).
Context (Hw : owns w V) (Hz : z ≠ intOne) (Hvz : V !! z = Some vz) (Hvx : V !! x = Some vx) (Hvy : V !! y = Some vy).
Context (Hvm : match md with Some p => V !! p = Some vm ∧ p ≠ z | None => vm = 0 end).

Lemma Exp_documented : ¬ unreduced vx vy vm → Exp w z x y md ⇓ λ w', owns w' (<[z := power_mod vx vy vm]> V).
Proof using Hw Hz Hvz Hvx Hvy Hvm.
  intros H. pose proof (Exp_spec w V z x y md vz vx vy vm Hw Hz Hvz Hvx Hvy Hvm) as He. unfold unreduced in H. rewrite decide_False in He by lia. by rewrite int_power_mod in He.
Qed.

Lemma Exp_unreduced : unreduced vx vy vm →
  if decide (vx < 0) then Exp w z x y md = Panic "underflow" else Exp w z x y md ⇓ λ w', owns w' (<[z := vx]> V).
Proof using Hw Hz Hvz Hvx Hvy Hvm.
  intros (Hy & Hm & Hx). pose proof (Exp_spec w V z x y md vz vx vy vm Hw Hz Hvz Hvx Hvy Hvm) as He. destruct (decide (vx < 0)) as [H0|H0].
  - by rewrite decide_True in He by lia.
  - rewrite decide_False in He by lia. assert (int_power vx vy (Z.abs vm) = vx) as E; [|by rewrite E in He].
    unfold int_power. rewrite (proj2 (Z.eqb_neq _ 1)), (proj2 (Z.leb_gt _ 0)), (proj2 (Z.eqb_neq _ 0)), (proj2 (Z.eqb_eq _ 1)), (proj2 (Z.ltb_ge _ 0)) by lia. done.
Qed.
End call.
End proofs.


