(* ===== verification/BigOps.v ===== *)
(** Programs that compute with [Int]s, and what they mean: the whole of
    [src/src/math/big/int.go] refines arithmetic on integers. *)
From S2P Require Import Prelude.
From S2P Require Import BigWord.
From S2P Require Import BigVec.
From S2P Require Import BigNat.
From S2P Require Import BigProduct.
From S2P Require Import BigBytes.
From S2P Require Import BigInt.
From S2P Require Import BigIntBits.
From S2P Require Import BigGcd.
From S2P Require Import BigExp.

(** The operations, on variables that are numbered in the order of their allocation. The
    same variable may be given more than once. *)
Inductive unary := USet | UAbs | UNeg | UNot.
Inductive binary := BAdd | BSub | BMul | BAnd | BAndNot | BOr | BXor.
Inductive division := DQuo | DRem | DDiv | DMod.
Inductive op :=
  | New
  | FromInt64 (z : nat) (v : Z)
  | FromUint64 (z : nat) (v : Z)
  | FromBytes (z : nat) (buf : list Z)
  | Unary (u : unary) (z x : nat)
  | Binary (b : binary) (z x y : nat)
  | Divide (d : division) (z x y : nat)
  | Truncated (z x y r : nat)
  | Euclidean (z x y m : nat)
  | Range (z : nat) (a b : Z)
  | Choose (z : nat) (n k : Z)
  | Left (z x : nat) (n : Z)
  | Right (z x : nat) (n : Z)
  | Assign (z x : nat) (i b : Z)
  | Bezout (z : nat) (x y : option nat) (a b : nat)
  | Inverse (z g n : nat)
  | Power (z x y : nat)
  | Power_mod (z x y m : nat)
  | Through_bytes (z x : nat)
  | Through_gob (z x : nat)
  | Ask_sign (x : nat)
  | Ask_cmp (x y : nat)
  | Ask_bit (x : nat) (i : Z)
  | Ask_length (x : nat)
  | Ask_int64 (x : nat)
  | Ask_uint64 (x : nat).

Definition nil_pointer : string := "invalid memory address or nil pointer dereference".

Section run.
Context `{M : Machine}.

Definition pointer (vars : list ptr) (i : nat) : go ptr := match vars !! i with Some p => Ret p | None => Panic nil_pointer end.

Definition optional (vars : list ptr) (x : option nat) : go (option ptr) :=
  match x with Some i => p ← pointer vars i; Ret (Some p) | None => Ret None end.

Definition call_unary (u : unary) : world → ptr → ptr → go world :=
  match u with USet => Set_ | UAbs => Abs | UNeg => Neg | UNot => Not end.
Definition call_binary (b : binary) : world → ptr → ptr → ptr → go world :=
  match b with BAdd => Add | BSub => Sub | BMul => Mul | BAnd => And | BAndNot => AndNot | BOr => Or | BXor => Xor end.
Definition call_division (d : division) : world → ptr → ptr → ptr → go world :=
  match d with DQuo => Quo | DRem => Rem | DDiv => Div | DMod => Mod end.

(** An operation that answers nothing, and one that changes nothing. *)
Definition quietly (vars : list ptr) (m : go world) : go (world * list ptr * option Z) := w ← m; Ret (w, vars, None).
Definition asking (w : world) (vars : list ptr) (m : go Z) : go (world * list ptr * option Z) := a ← m; Ret (w, vars, Some a).

Definition perform (o : op) (w : world) (vars : list ptr) : go (world * list ptr * option Z) :=
  match o with
  | New => let '(w, p) := alloc w in Ret (w, vars ++ [p], None)
  | FromInt64 z v => z ← pointer vars z; quietly vars (SetInt64 w z v)
  | FromUint64 z v => z ← pointer vars z; quietly vars (SetUint64 w z v)
  | FromBytes z buf => z ← pointer vars z; quietly vars (SetBytes w z buf)
  | Unary u z x => z ← pointer vars z; x ← pointer vars x; quietly vars (call_unary u w z x)
  | Binary b z x y => z ← pointer vars z; x ← pointer vars x; y ← pointer vars y; quietly vars (call_binary b w z x y)
  | Divide d z x y => z ← pointer vars z; x ← pointer vars x; y ← pointer vars y; quietly vars (call_division d w z x y)
  | Truncated z x y r => z ← pointer vars z; x ← pointer vars x; y ← pointer vars y; r ← pointer vars r; quietly vars (QuoRem w z x y r)
  | Euclidean z x y m => z ← pointer vars z; x ← pointer vars x; y ← pointer vars y; m ← pointer vars m; quietly vars (DivMod w z x y m)
  | Range z a b => z ← pointer vars z; quietly vars (MulRange w z a b)
  | Choose z n k => z ← pointer vars z; quietly vars (Binomial w z n k)
  | Left z x n => z ← pointer vars z; x ← pointer vars x; quietly vars (Lsh w z x n)
  | Right z x n => z ← pointer vars z; x ← pointer vars x; quietly vars (Rsh w z x n)
  | Assign z x i b => z ← pointer vars z; x ← pointer vars x; quietly vars (SetBit w z x i b)
  | Bezout z x y a b => z ← pointer vars z; x ← optional vars x; y ← optional vars y; a ← pointer vars a; b ← pointer vars b; quietly vars (GCD w z x y a b)
  | Inverse z g n => z ← pointer vars z; g ← pointer vars g; n ← pointer vars n; quietly vars (ModInverse w z g n)
  | Power z x y => z ← pointer vars z; x ← pointer vars x; y ← pointer vars y; quietly vars (Exp w z x y None)
  | Power_mod z x y m => z ← pointer vars z; x ← pointer vars x; y ← pointer vars y; m ← pointer vars m; quietly vars (Exp w z x y (Some m))
  | Through_bytes z x => z ← pointer vars z; x ← pointer vars x; quietly vars (l ← Bytes w x; SetBytes w z l)
  | Through_gob z x => z ← pointer vars z; x ← pointer vars x; quietly vars (l ← GobEncode w x; '(w, _) ← GobDecode w z l; Ret w)
  | Ask_sign x => x ← pointer vars x; asking w vars (Sign w x)
  | Ask_cmp x y => x ← pointer vars x; y ← pointer vars y; asking w vars (Cmp w x y)
  | Ask_bit x i => x ← pointer vars x; asking w vars (Bit w x i)
  | Ask_length x => x ← pointer vars x; asking w vars (BitLen w x)
  | Ask_int64 x => x ← pointer vars x; asking w vars (Int64 w x)
  | Ask_uint64 x => x ← pointer vars x; asking w vars (Uint64 w x)
  end.

Fixpoint run (ops : list op) (w : world) (vars : list ptr) : go (world * list ptr * list Z) :=
  match ops with
  | [] => Ret (w, vars, [])
  | o :: ops => '(w, vars, a) ← perform o w vars; '(w, vars, l) ← run ops w vars; Ret (w, vars, option_list a ++ l)
  end.
End run.

(** * The same on integers *)

Definition value (vs : list Z) (i : nat) : go Z := match vs !! i with Some v => Ret v | None => Panic nil_pointer end.

Definition mean_unary (u : unary) : Z → Z := match u with USet => λ x, x | UAbs => Z.abs | UNeg => Z.opp | UNot => Z.lnot end.
Definition mean_binary (b : binary) : Z → Z → Z :=
  match b with BAdd => Z.add | BSub => Z.sub | BMul => Z.mul | BAnd => Z.land | BAndNot => Z.ldiff | BOr => Z.lor | BXor => Z.lxor end.
Definition mean_division (d : division) (x y : Z) : Z :=
  match d with DQuo => Z.quot x y | DRem => Z.rem x y | DDiv => Z.sgn y * (x / Z.abs y) | DMod => x mod Z.abs y end.

(** A result that may not be asked for. *)
Definition optional_value (vs : list Z) (x : option nat) : go () := match x with Some i => _ ← value vs i; Ret tt | None => Ret tt end.
Definition put_optional (x : option nat) (v : Z) (vs : list Z) : list Z := match x with Some i => <[i := v]> vs | None => vs end.

Definition sets (z : nat) (v : Z) (vs : list Z) : go (list Z * option Z) := Ret (<[z := v]> vs, None).
Definition answers (vs : list Z) (a : Z) : go (list Z * option Z) := Ret (vs, Some a).
Definition nonzero {A} (y : Z) (m : go A) : go A := if decide (y = 0) then Panic "division by zero" else m.

(** What the documentation of each operation says. It leaves the coefficients of a greatest common divisor and the
    inverse of a residue open, up to [chosen]: they are the numbers [c]. *)
Definition mean (c : Z * Z) (o : op) (vs : list Z) : go (list Z * option Z) :=
  match o with
  | New => Ret (vs ++ [0], None)
  | FromInt64 z v | FromUint64 z v => _ ← value vs z; sets z v vs
  | FromBytes z buf => _ ← value vs z; sets z (be buf) vs
  | Unary u z x => _ ← value vs z; x ← value vs x; sets z (mean_unary u x) vs
  | Binary b z x y => _ ← value vs z; x ← value vs x; y ← value vs y; sets z (mean_binary b x y) vs
  | Divide d z x y => _ ← value vs z; x ← value vs x; y ← value vs y; nonzero y (sets z (mean_division d x y) vs)
  | Truncated z x y r => _ ← value vs z; x ← value vs x; y ← value vs y; _ ← value vs r; nonzero y (sets r (Z.rem x y) (<[z := Z.quot x y]> vs))
  | Euclidean z x y m => _ ← value vs z; x ← value vs x; y ← value vs y; _ ← value vs m; nonzero y (sets m (x mod Z.abs y) (<[z := Z.sgn y * (x / Z.abs y)]> vs))
  | Range z a b => _ ← value vs z; sets z (range_product a b) vs
  | Choose z n k => _ ← value vs z; sets z (choose (Z.to_nat n) (Z.to_nat k)) vs
  | Left z x n => _ ← value vs z; x ← value vs x; sets z (Z.shiftl x n) vs
  | Right z x n => _ ← value vs z; x ← value vs x; sets z (Z.shiftr x n) vs
  | Assign z x i b => _ ← value vs z; x ← value vs x;
      if decide (0 <= i) then sets z (if b =? 0 then Z.clearbit x i else Z.setbit x i) vs else Panic "negative bit index"
  | Bezout z x y a b => _ ← value vs z; _ ← optional_value vs x; _ ← optional_value vs y; a ← value vs a; b ← value vs b;
      if (0 <? a) && (0 <? b) then sets z (Z.gcd a b) (put_optional y c.2 (put_optional x c.1 vs))
      else Ret (put_optional y 0 (put_optional x 0 (<[z := 0]> vs)), None)
  | Inverse z g n => _ ← value vs z; _ ← value vs g; _ ← value vs n; sets z c.1 vs
  | Power z x y => _ ← value vs z; x ← value vs x; y ← value vs y; sets z (power_mod x y 0) vs
  | Power_mod z x y m => _ ← value vs z; x ← value vs x; y ← value vs y; m ← value vs m; sets z (power_mod x y m) vs
  | Through_bytes z x => _ ← value vs z; x ← value vs x; sets z (Z.abs x) vs
  | Through_gob z x => _ ← value vs z; x ← value vs x; sets z x vs
  | Ask_sign x => x ← value vs x; answers vs (Z.sgn x)
  | Ask_cmp x y => x ← value vs x; y ← value vs y; answers vs (match x ?= y with Lt => -1 | Eq => 0 | Gt => 1 end)
  | Ask_bit x i => x ← value vs x; if i <? 0 then Panic "negative bit index" else answers vs (Z.b2z (Z.testbit x i))
  | Ask_length x => x ← value vs x; answers vs (bits (Z.abs x))
  | Ask_int64 x => x ← value vs x; answers vs (i64 x)
  | Ask_uint64 x => x ← value vs x; answers vs (Z.abs x mod 2 ^ 64)
  end.

Definition chosen (o : op) (vs : list Z) (c : Z * Z) : Prop :=
  match o with
  | Bezout _ _ _ a b => ∀ va vb, vs !! a = Some va → vs !! b = Some vb → 0 < va → 0 < vb → va * c.1 + vb * c.2 = Z.gcd va vb
  | Inverse _ g n => ∀ vg vn, vs !! g = Some vg → vs !! n = Some vn → (vg * c.1) mod vn = 1 mod vn
  | _ => True
  end.

(** The results that the documentation allows: of an operation, and of a program. *)
Definition allows (o : op) (vs : list Z) (r : go (list Z * option Z)) : Prop := ∃ c, chosen o vs c ∧ r = mean c o vs.

Inductive meaning : list op → list Z → go (list Z * list Z) → Prop :=
  | meaning_end vs : meaning [] vs (Ret (vs, []))
  | meaning_step o ops vs vs' a r : allows o vs (Ret (vs', a)) → meaning ops vs' r →
      meaning (o :: ops) vs ('(vs, l) ← r; Ret (vs, option_list a ++ l))
  | meaning_panic o ops vs e : allows o vs (Panic e) → meaning (o :: ops) vs (Panic e).

Section admits.
Context `{M : Machine}.

(** The operations that programs may use, where the variables hold [vs]. The arguments have the types that Go gives them, and a
    shift or a bit index stays below 2^32 and 2^31. Some variables must be different: the quotient and the remainder of
    [QuoRem]; the modulus of [DivMod] and its quotient or divisor (see [BigInt.DivMod_divisor]); the results of
    [GCD], and without coefficients its receiver and arguments ([BigGcd.gcd_alias]); the receiver of [ModInverse] and its modulus
    ([BigGcd.mod_inverse_alias]); the receiver of [Exp] and its modulus ([BigExp.exp_alias]). Numbers that are inverted
    are positive and coprime to a positive modulus. A first power is below its modulus ([BigExp.exp_unreduced]), a length fits an [int], and so does [n - k + 1] an int64. *)
Definition admissible (o : op) (vs : list Z) : Prop :=
  match o with
  | FromInt64 _ v => - 2 ^ 63 <= v < 2 ^ 63
  | FromUint64 _ v => 0 <= v < 2 ^ 64
  | FromBytes _ buf => octets buf
  | Truncated z _ _ r => z ≠ r
  | Euclidean z _ y m => z ≠ m ∧ m ≠ y
  | Range _ a b => - 2 ^ 63 <= a < 2 ^ 63 ∧ - 2 ^ 63 <= b < 2 ^ 63
  | Choose _ n k => 0 <= n < 2 ^ 63 ∧ 0 <= k < 2 ^ 63 ∧ n - k + 1 < 2 ^ 63
  | Left _ _ n => 0 <= n < 2 ^ 32
  | Right _ _ n => 0 <= n
  | Assign _ _ i b => i < 2 ^ 31 ∧ (b = 0 ∨ b = 1)
  | Bezout z x y a b => x ≠ Some z ∧ y ≠ Some z ∧ (x = None ∨ x ≠ y) ∧ (x = None → y = None → z ≠ a ∧ z ≠ b)
  | Inverse z g n => z ≠ n ∧ ∀ vg vn, vs !! g = Some vg → vs !! n = Some vn → 0 < vg ∧ 0 < vn ∧ Z.gcd vg vn = 1
  | Power_mod z x y m => z ≠ m ∧ ∀ vx vy vm, vs !! x = Some vx → vs !! y = Some vy → vs !! m = Some vm → ¬ unreduced vx vy vm
  | Ask_length x => ∀ vx, vs !! x = Some vx → bits (Z.abs vx) < 2 ^ (_W - 1)
  | _ => True
  end.

Fixpoint admits (ops : list op) (vs : list Z) : Prop :=
  match ops with
  | [] => True
  | o :: ops => admissible o vs ∧ ∀ vs' a, allows o vs (Ret (vs', a)) → admits ops vs'
  end.
End admits.

(** * The refinement *)

(** [m] does what [m'] does: the results are related, or both panic alike. *)
Definition refines {A B} (R : A → B → Prop) (m : go A) (m' : go B) : Prop :=
  match m' with Ret b => m ⇓ λ a, R a b | Panic e => m = Panic e | NoFuel => False end.

Lemma refines_bind {A B A' B'} (R : A → B → Prop) (R' : A' → B' → Prop) m m' (f : A → go A') (f' : B → go B') :
  refines R m m' → (∀ a b, R a b → refines R' (f a) (f' b)) → refines R' (m ≫= f) (m' ≫= f').
Proof. intros Hm Hf. destruct m' as [b| |]; simpl in *; [|by rewrite Hm|done]. apply wp_ex in Hm as (a & -> & Ha). by apply Hf. Qed.

Lemma refines_ret {A B} (R : A → B → Prop) m b : refines R m (Ret b) → ∃ a, m = Ret a ∧ R a b.
Proof. apply wp_ex. Qed.

Section refinement.
Context `{M : Machine}.

(** The variables hold the values. *)
Definition covers (vars : list ptr) (vs : list Z) (V : gmap nat Z) : Prop :=
  NoDup vars ∧ length vars = length vs ∧ ∀ i p v, vars !! i = Some p → vs !! i = Some v → V !! p = Some v ∧ p ≠ intOne.
Definition holds (w : world) (vars : list ptr) (vs : list Z) : Prop := ∃ V, owns w V ∧ covers vars vs V.

Lemma holds_start : holds start [] [].
Proof. exists {[intOne := 1]}. split; [apply owns_start|]. split; [by apply NoDup_nil|]. done. Qed.

Lemma covers_set vars vs V z p v : covers vars vs V → vars !! z = Some p → covers vars (<[z := v]> vs) (<[p := v]> V).
Proof.
  intros (Hd & Hlen & Hv) Hz. split; [done|]. split; [by rewrite length_insert|]. intros i q u Hi Hu.
  destruct (decide (i = z)) as [->|Hiz].
  - assert (z < length vs)%nat by (rewrite <- Hlen; by eapply lookup_lt_Some). rewrite list_lookup_insert_eq in Hu by done. simplify_eq.
    assert (is_Some (vs !! z)) as [v' Ev] by (by apply lookup_lt_is_Some). split; [apply lookup_insert_eq|]. by eapply Hv.
  - rewrite list_lookup_insert_ne in Hu by done. destruct (Hv i q u Hi Hu). assert (q ≠ p) by (intros ->; apply Hiz; by eapply NoDup_lookup).
    by rewrite lookup_insert_ne.
Qed.

(** An optional variable and its pointer. *)
Definition same_option (vars : list ptr) (x : option nat) (px : option ptr) : Prop :=
  match x, px with Some i, Some p => vars !! i = Some p | None, None => True | _, _ => False end.

Lemma covers_optional vars vs V x px v : covers vars vs V → same_option vars x px → covers vars (put_optional x v vs) (BigGcd.store px v V).
Proof. intros Hc Hx. destruct x as [i|], px as [p|]; simpl in Hx |- *; (done || by apply covers_set). Qed.

Section step.
Context (w : world) (vars : list ptr) (vs : list Z) (V : gmap nat Z) (Hw : owns w V) (Hc : covers vars vs V).

Definition related : world * list ptr * option Z → list Z * option Z → Prop := λ '(w', vars', a) '(vs', a'), a = a' ∧ holds w' vars' vs'.

(** A variable is looked up, in memory and among the values; the choice is made later. *)
Lemma choose_var {C} (P : C → Prop) i (K : ptr → go (world * list ptr * option Z)) K' : (∃ c, P c) →
  (∀ p v, vars !! i = Some p → vs !! i = Some v → V !! p = Some v → p ≠ intOne → ∃ c, P c ∧ refines related (K p) (K' c v)) →
  ∃ c, P c ∧ refines related (p ← pointer vars i; K p) (v ← value vs i; K' c v).
Proof using Hc.
  intros (c0 & Hc0) HK. destruct Hc as (_ & Hlen & Hv). unfold pointer, value. destruct (vars !! i) as [p|] eqn:Ep, (vs !! i) as [v|] eqn:Ev; simpl.
  - destruct (Hv i p v Ep Ev). by apply HK.
  - apply lookup_lt_Some in Ep. apply lookup_ge_None in Ev. lia.
  - apply lookup_lt_Some in Ev. apply lookup_ge_None in Ep. lia.
  - by exists c0.
Qed.

Lemma choose_optional {C} (P : C → Prop) x (K : option ptr → go (world * list ptr * option Z)) K' : (∃ c, P c) →
  (∀ px, same_option vars x px → known V px → ∃ c, P c ∧ refines related (K px) (K' c)) →
  ∃ c, P c ∧ refines related (px ← optional vars x; K px) (_ ← optional_value vs x; K' c).
Proof using Hc.
  intros H0 HK. destruct x as [i|]; simpl; [|by apply (HK None)].
  destruct (choose_var P i (λ p, K (Some p)) (λ c _, K' c) H0) as (c & Pc & Hr).
  { intros p v Ep _ Hp Hp1. apply (HK (Some p) Ep). intros q [= <-]. split; [done|by eexists]. }
  exists c. split; [done|]. rewrite !go_bind_assoc. exact Hr.
Qed.

Lemma refines_var i (K : ptr → go (world * list ptr * option Z)) K' :
  (∀ p v, vars !! i = Some p → vs !! i = Some v → V !! p = Some v → p ≠ intOne → refines related (K p) (K' v)) →
  refines related (p ← pointer vars i; K p) (v ← value vs i; K' v).
Proof using Hc.
  intros HK. destruct (choose_var (λ _ : (), True) i K (λ _, K')) as (c & _ & Hr); [by exists tt| |exact Hr].
  intros p v Ep Ev Hp Hp1. exists tt. split; [done|by apply HK].
Qed.

Lemma refines_covers vs' V' m : covers vars vs' V' → m ⇓ (λ w', owns w' V') → refines related (quietly vars m) (Ret (vs', None)).
Proof. intros Hc' Hm. simpl. unfold quietly. eapply wp_bind_mono; [exact Hm|]. intros w' Hw'. apply wp_ret. split; [done|]. by exists V'. Qed.

Lemma refines_set z p v m : vars !! z = Some p → m ⇓ (λ w', owns w' (<[p := v]> V)) → refines related (quietly vars m) (sets z v vs).
Proof using Hc. intros Hz. apply refines_covers. by apply covers_set. Qed.

Lemma refines_ask m a : m = Ret a → refines related (asking w vars m) (answers vs a).
Proof using Hc Hw. intros ->. simpl. split; [done|]. by exists V. Qed.

Lemma refines_divide z p y v m : vars !! z = Some p → (if decide (y = 0) then m = Panic "division by zero" else m ⇓ λ w', owns w' (<[p := v]> V)) →
  refines related (quietly vars m) (nonzero y (sets z v vs)).
Proof using Hc. intros Hz Hm. unfold nonzero. destruct (decide (y = 0)); [by rewrite Hm|by eapply refines_set]. Qed.

Lemma refines_divide2 z p v r q u y m : vars !! z = Some p → vars !! r = Some q →
  (if decide (y = 0) then m = Panic "division by zero" else m ⇓ λ w', owns w' (<[q := u]> (<[p := v]> V))) →
  refines related (quietly vars m) (nonzero y (sets r u (<[z := v]> vs))).
Proof using Hc.
  intros Hz Hr Hm. unfold nonzero. destruct (decide (y = 0)); [by rewrite Hm|]. eapply refines_covers; [|exact Hm]. apply covers_set; [by apply covers_set|done].
Qed.

Lemma other_pointer i j p q : vars !! i = Some p → vars !! j = Some q → i ≠ j → p ≠ q.
Proof using Hc. intros Hi Hj Hij ->. apply Hij. by eapply NoDup_lookup; [apply Hc|..]. Qed.
End step.

Lemma call_unary_spec w V z x vz vx u : owns w V → z ≠ intOne → V !! z = Some vz → V !! x = Some vx → call_unary u w z x ⇓ λ w', owns w' (<[z := mean_unary u vx]> V).
Proof. intros. destruct u; simpl; [by eapply Set_spec|by eapply Abs_spec|by eapply Neg_spec|by eapply Not_spec]. Qed.

Lemma call_binary_spec w V z x y vz vx vy b : owns w V → z ≠ intOne → V !! z = Some vz → V !! x = Some vx → V !! y = Some vy →
  call_binary b w z x y ⇓ λ w', owns w' (<[z := mean_binary b vx vy]> V).
Proof. intros. destruct b; simpl; [by eapply Int_Add_spec|by eapply Int_Sub_spec|by eapply Mul_spec|by eapply And_spec|by eapply AndNot_spec|by eapply Or_spec|by eapply Xor_spec]. Qed.

Lemma call_division_spec w V z x y vz vx vy d : owns w V → z ≠ intOne → V !! z = Some vz → V !! x = Some vx → V !! y = Some vy →
  if decide (vy = 0) then call_division d w z x y = Panic "division by zero" else call_division d w z x y ⇓ λ w', owns w' (<[z := mean_division d vx vy]> V).
Proof. intros. destruct d; simpl; [by eapply Quo_spec|by eapply Rem_spec|by eapply Div_spec|by eapply Mod_spec]. Qed.

Lemma gob_set w V z x vz vx : owns w V → z ≠ intOne → V !! z = Some vz → V !! x = Some vx →
  (l ← GobEncode w x; '(w, _) ← GobDecode w z l; Ret w) ⇓ λ w', owns w' (<[z := vx]> V).
Proof.
  intros Hw Hz Hvz Hvx. pose proof (gob_roundtrip w V z vz x vx Hw Hz Hvz Hvx) as H. revert H. destruct (GobEncode w x) as [l| |]; simpl; [|done..].
  destruct (GobDecode w z l) as [[w' e]| |]; simpl; [|done..]. by intros [_ ?].
Qed.

(** Nothing is left open. *)
Definition plain (o : op) : Prop := match o with Bezout _ _ _ _ _ | Inverse _ _ _ => False | _ => True end.

Lemma perform_plain c o w vars vs : plain o → holds w vars vs → admissible o vs → refines related (perform o w vars) (mean c o vs).
Proof.
  intros Hpl (V & Hw & Hc) Ho. destruct o; try destruct Hpl; simpl in Ho |- *;
    repeat (apply (refines_var vars vs V Hc); intros ?p ?v ?Ep ?Ev ?Hp ?Hp1);
    try (eapply (refines_set vars vs V Hc); [eassumption|]);
    try (eapply (refines_divide vars vs V Hc); [eassumption|]);
    try (eapply (refines_divide2 vars vs V Hc); [eassumption..|]);
    try (apply (refines_ask w vars vs V Hw Hc)).
  - pose proof (owns_alloc w V Hw) as (Hw' & Hn & H1). simpl. split; [done|]. eexists. split; [exact Hw'|]. destruct Hc as (Hd & Hlen & Hv). split; [|split].
    + apply NoDup_app. split; [done|]. split; [|apply NoDup_singleton]. intros p Hp ->%list_elem_of_singleton.
      apply list_elem_of_lookup in Hp as [i Hi]. assert (i < length vs)%nat by (rewrite <- Hlen; by eapply lookup_lt_Some).
      destruct (lookup_lt_is_Some_2 vs i ltac:(done)) as [v Ev]. destruct (Hv _ _ _ Hi Ev). congruence.
    + rewrite !length_app. simpl. lia.
    + intros i p v [Hi|[Hge Hi]]%lookup_app_Some Hi'.
      * assert (i < length vs)%nat by (rewrite <- Hlen; by eapply lookup_lt_Some). rewrite lookup_app_l in Hi' by done. destruct (Hv _ _ _ Hi Hi').
        rewrite lookup_insert_ne by congruence. done.
      * rewrite lookup_app_r in Hi' by lia. rewrite Hlen in Hi. destruct (i - length vs)%nat; [|done]. simpl in Hi, Hi'. simplify_eq. split; [apply lookup_insert_eq|done].
  - by eapply SetInt64_spec.
  - by eapply SetUint64_spec.
  - by eapply SetBytes_spec.
  - by eapply call_unary_spec.
  - by eapply call_binary_spec.
  - by eapply call_division_spec.
  - eapply QuoRem_spec; try done. by eapply (other_pointer vars vs V Hc).
  - destruct Ho as [Hzm Hmy]. eapply DivMod_spec; try done; by eapply (other_pointer vars vs V Hc).
  - destruct Ho. by eapply MulRange_spec.
  - destruct Ho as (? & ? & ?). by eapply Binomial_spec.
  - eapply Lsh_spec; (done || lia).
  - by eapply Rsh_spec.
  - pose proof (SetBit_spec w V Hw p v ltac:(done) ltac:(done) p0 v0 ltac:(done) i b (proj2 Ho)) as H. destruct (decide (0 <= i)); [|by rewrite H]. by eapply (refines_set vars vs V Hc).
  - by apply (Exp_documented w V p p0 p1 None v v0 v1 0 Hw); [..|unfold unreduced; lia].
  - destruct Ho as [Hzm Ho]. apply (Exp_documented w V p p0 p1 (Some p2) v v0 v1 v2 Hw); try done; [|by apply Ho].
    split; [done|]. apply not_eq_sym. by eapply (other_pointer vars vs V Hc).
  - by eapply bytes_roundtrip.
  - by eapply gob_set.
  - by apply Sign_spec with V.
  - by apply Cmp_spec with V.
  - erewrite Bit_spec by done. destruct (i <? 0); [done|]. by apply (refines_ask w vars vs V Hw Hc).
  - apply BitLen_spec with V; [done|done|by apply Ho].
  - by apply Int64_spec with V.
  - by apply Uint64_spec with V.
Qed.

Definition performs (o : op) (w : world) (vars : list ptr) (vs : list Z) : Prop := ∃ c, chosen o vs c ∧ refines related (perform o w vars) (mean c o vs).

Lemma bezout_refines z x y a b w vars vs : holds w vars vs → admissible (Bezout z x y a b) vs → performs (Bezout z x y a b) w vars vs.
Proof.
  intros (V & Hw & Hc) (Hzx & Hzy & Hxy & Hal). unfold performs. set (P := chosen _ vs). assert (∃ c, P c) as HP.
  { destruct (vs !! a) as [va|] eqn:Ea, (vs !! b) as [vb|] eqn:Eb; try (exists (0, 0); intros ?? Ha Hb; congruence).
    destruct (Z.gcd_bezout va vb _ eq_refl) as (cx & cy & E). exists (cx, cy). intros ?? Ha Hb _ _. simplify_eq. simpl. lia. }
  simpl perform. simpl mean.
  apply (choose_var vars vs V Hc); [done|]. intros pz vz Ez _ Hvz Hz1.
  apply (choose_optional vars vs V Hc); [done|]. intros px Ex Kx. apply (choose_optional vars vs V Hc); [done|]. intros py Ey Ky.
  apply (choose_var vars vs V Hc); [done|]. intros pa va Ea Eva Ha _. apply (choose_var vars vs V Hc); [done|]. intros pb vb Eb Evb Hb _.
  pose proof (GCD_spec w V pz px py pa pb va vb Hw) as H. destruct ((0 <? va) && (0 <? vb)) eqn:Ep.
  - assert (GCD w pz px py pa pb ⇓ λ w', ∃ cx cy, va * cx + vb * cy = Z.gcd va vb ∧ owns w' (<[pz := Z.gcd va vb]> (BigGcd.store py cy (BigGcd.store px cx V)))) as Hg.
    { apply H; try done; [intros p [= <-]; split; [done|by eexists]|]. intros -> ->. destruct x, y; try done.
      destruct Hal as [Hza Hzb]; [done|done|]. split; by eapply (other_pointer vars vs V Hc). }
    apply wp_ex in Hg as (w' & E & cx & cy & Ec & Hw'). exists (cx, cy). split; [intros ?? Ha' Hb' _ _; simplify_eq; exact Ec|].
    apply (refines_covers vars _ (<[pz := Z.gcd va vb]> (BigGcd.store py cy (BigGcd.store px cx V)))); [|by rewrite E].
    apply covers_set; [|done]. by do 2 (apply covers_optional; [|done]).
  - exists (0, 0). split; [intros ?? Ha' Hb' ??; simplify_eq; rewrite !(proj2 (Z.ltb_lt 0 _)) in Ep by done; done|].
    apply (refines_covers vars _ (BigGcd.store py 0 (BigGcd.store px 0 (<[pz := 0]> V)))).
    { do 2 (apply covers_optional; [|done]). by apply covers_set. }
    apply H; try done; [intros p [= <-]; split; [done|by eexists]|]. intros -> ->. destruct x, y; try done.
    destruct Hal as [Hza Hzb]; [done|done|]. split; by eapply (other_pointer vars vs V Hc).
Qed.

Lemma inverse_refines z g n w vars vs : holds w vars vs → admissible (Inverse z g n) vs → performs (Inverse z g n) w vars vs.
Proof.
  intros (V & Hw & Hc) (Hzn & Ho). unfold performs. set (P := chosen _ vs). assert (∃ c, P c) as HP.
  { destruct (vs !! g) as [vg|] eqn:Eg, (vs !! n) as [vn|] eqn:En; try (exists (0, 0); intros ?? Ha Hb; congruence).
    destruct (Ho vg vn eq_refl eq_refl) as (? & ? & H1). destruct (Z.gcd_bezout vg vn _ H1) as (cx & cy & E). exists (cx, 0). intros ?? Ha Hb. simplify_eq. simpl.
    replace (vg * cx) with (1 + (- cy) * vn) by lia. apply Z.mod_add. lia. }
  simpl perform. simpl mean.
  apply (choose_var vars vs V Hc); [done|]. intros pz vz Ez _ Hvz Hz1.
  apply (choose_var vars vs V Hc); [done|]. intros pg vg Eg Evg Hg _. apply (choose_var vars vs V Hc); [done|]. intros pn vn En Evn Hn _.
  destruct (Ho vg vn Evg Evn) as (? & ? & ?). pose proof (ModInverse_spec w V pz pg pn vz vg vn Hw) as HI.
  assert (pz ≠ pn) as Hne by (by eapply (other_pointer vars vs V Hc)). specialize (HI Hz1 Hvz Hg Hn Hne ltac:(done) ltac:(done) ltac:(done)).
  apply wp_ex in HI as (w' & E & i & Hw' & Ei). exists (i, 0). split; [intros ?? Hg' Hn'; simplify_eq; exact Ei|].
  eapply (refines_set vars vs V Hc); [done|]. by rewrite E.
Qed.

Lemma perform_refines o w vars vs : holds w vars vs → admissible o vs → performs o w vars vs.
Proof.
  intros Hh Ho. destruct o; try (exists (0, 0); split; [exact I|by apply perform_plain]); [by apply bezout_refines|by apply inverse_refines].
Qed.

Definition same_outcome : world * list ptr * list Z → list Z * list Z → Prop := λ '(w, vars, l) '(vs, l'), l = l' ∧ holds w vars vs.

Lemma run_refines ops w vars vs : holds w vars vs → admits ops vs → ∃ r, meaning ops vs r ∧ refines same_outcome (run ops w vars) r.
Proof.
  revert w vars vs. induction ops as [|o ops IH]; intros w vars vs Hh Ho; [eexists; split; [constructor|done]|]. destruct Ho as [Ho Hos]. simpl.
  destruct (perform_refines o w vars vs Hh Ho) as (c & Hch & Hr). destruct (mean c o vs) as [[vs1 a1]|e|] eqn:Em; [| |done].
  - assert (allows o vs (Ret (vs1, a1))) as Ha by (by exists c). apply refines_ret in Hr as ([[w1 vars1] a] & -> & -> & H1). rewrite go_bind_ret.
    destruct (IH w1 vars1 vs1 H1 (Hos _ _ Ha)) as (r & Hm & Hr). eexists. split; [by eapply meaning_step|].
    eapply refines_bind; [exact Hr|]. intros [[w2 vars2] l] [vs2 l'] [-> H2]. by split.
  - simpl in Hr. rewrite Hr. exists (Panic e). split; [|done]. apply meaning_panic. by exists c.
Qed.

(** What the variables of a program look like: words in memory, every number normalised, zero
    without a sign, and no two numbers in the same storage. *)
Definition well_formed (w : world) (vars : list ptr) : Prop :=
  Forall is_word (mem_ w) ∧ NoDup vars ∧ ints w !! intOne = Some (mkInt false natOne) ∧
  (∀ p, p ∈ intOne :: vars → ∃ x, ints w !! p = Some x ∧ valid (mem_ w) (abs x) ∧ (0 < len (abs x) → get (mem_ w) (off (abs x) + len (abs x) - 1) ≠ 0) ∧ (len (abs x) = 0 → neg x = false)) ∧
  (∀ p q x y, p ∈ intOne :: vars → q ∈ intOne :: vars → p ≠ q → ints w !! p = Some x → ints w !! q = Some y → apart (abs x) (abs y)).

Lemma holds_well_formed w vars vs : holds w vars vs → well_formed w vars.
Proof.
  intros (V & Hw & Hd & Hlen & Hv). pose proof Hw as (Hm & H1 & H2 & _ & Hap).
  assert (∀ p, p ∈ intOne :: vars → is_Some (V !! p)) as Hk.
  { intros p [->|[i Hi]%list_elem_of_lookup]%elem_of_cons; [by eexists|]. assert (i < length vs)%nat by (rewrite <- Hlen; by eapply lookup_lt_Some).
    destruct (lookup_lt_is_Some_2 vs i ltac:(done)) as [v Ev]. destruct (Hv _ _ _ Hi Ev). by eexists. }
  split; [done|]. split; [done|]. split; [done|]. split; [|intros p q x y Hp Hq Hpq; by apply Hap; auto].
  intros p [v Hp]%Hk. destruct (owns_deref w V Hw p v Hp) as (x & Ex & _ & Nx & Sx). exists x. split; [done|]. split; [apply Nx|]. split; [apply Nx|].
  intros H0. pose proof (zero_nat _ _ _ Nx H0). rewrite Sx. apply Z.ltb_ge. lia.
Qed.
End refinement.

(** C3: Every program of the operations on [Int]s that [op] lists, its arguments [admissible], computes a result that their documentation
    allows for integers: the same answers, the same values left in its variables, and a panic exactly where the meaning has
    one. The documentation leaves nothing open but the coefficients of [GCD] and the inverse of [ModInverse], up to the equations they
    satisfy ([chosen]). A variable may be the receiver and an operand of the same operation, or several operands, but for these pairs:
    the two results of [QuoRem]; the modulus of [DivMod] and its quotient or its divisor; two results of [GCD], and, without
    coefficients, its receiver and an argument; the receiver of [ModInverse] and its modulus; the receiver of [Exp] and its
    modulus. [ModInverse] needs positive coprime numbers; [Exp] with a modulus above one and an exponent of one needs a base in [[-|m|, |m|)]. *)
Theorem Int_refines `{M : Machine} ops : admits ops [] → ∃ r, meaning ops [] r ∧ refines same_outcome (run ops start []) r.
Proof. apply run_refines, holds_start. Qed.

Definition demo : list op :=
  [New; New; New; FromInt64 0 (-7); FromInt64 1 5; FromInt64 2 100; Power_mod 0 0 1 2; Ask_int64 0; FromInt64 0 (-7); FromInt64 1 3;
   Left 0 0 64; Euclidean 2 0 1 0; Binary BMul 2 2 2; Binary BAnd 1 1 0; Divide DQuo 2 2 1; Ask_cmp 2 0; Ask_length 2; Through_gob 0 2; Ask_int64 0;
   New; New; FromInt64 0 240; FromInt64 1 46; Bezout 2 (Some 3%nat) (Some 4%nat) 0 1; Binary BMul 3 0 3; Binary BMul 4 1 4; Binary BAdd 3 3 4; Ask_cmp 3 2;
   FromInt64 0 10; FromInt64 1 7; Inverse 2 0 1; Binary BMul 2 2 0; Divide DMod 2 2 1; Ask_int64 2].

(** A closed program is admitted: its operations are checked one after the other, on the values they find. *)
Ltac closed_list l := lazymatch l with [] => idtac | ?z :: ?l => (lazymatch isZcst z with true => idtac end); closed_list l end.
Ltac admit_one :=
  simpl; first [done | lia | split_and!; first [done|lia|by right] | intros * ?; simplify_eq; vm_compute; reflexivity
    | split; [done|intros; simplify_eq; unfold unreduced; first [lia|split_and!; first [lia|reflexivity]]]].
Ltac mean_one :=
  match goal with E : Ret _ = mean ?c ?o ?l |- _ =>
    first [closed_list l; (let r := eval vm_compute in (mean (0, 0) o l) in change (mean c o l) with r in E) | cbn in E]; clear -E; injection E as -> -> end.

Lemma demo_admitted : admits (M := machine64) demo [].
Proof. unfold demo. repeat (split; [admit_one|intros ?vs ?a (?c & ?Hc & ?E); mean_one]). exact I. Qed.

(** The answers include the value of [a*x + b*y] compared with the greatest common divisor, and the product of the inverse. *)
Example Int_refines_witness : admits (M := machine64) demo [] ∧
  ∃ w vars vs, run (M := machine64) demo start [] = Ret (w, vars, [93; 1; 130; 2049638230412172402; 0; 1]) ∧
    meaning demo [] (Ret (vs, [93; 1; 130; 2049638230412172402; 0; 1])) ∧ holds (M := machine64) w vars vs.
Proof.
  pose proof demo_admitted as H. split; [exact H|]. destruct (Int_refines (M := machine64) demo H) as (r & Hm & Hr).
  eassert (run (M := machine64) demo start [] = Ret (_, _, _)) as E by (vm_compute; reflexivity). rewrite E in Hr |- *.
  destruct r as [[vs l]|e|]; simpl in Hr; [destruct Hr as [<- Hh]|discriminate Hr|destruct Hr]. eexists _, _, vs. split; [reflexivity|]. split; [exact Hm|exact Hh].
Defined.

(** C8: A program of the operations that [op] lists, its arguments [admissible], leaves its variables
    well formed: words in memory, no leading zero words, zero without a sign, storage that no two variables share,
    and [intOne] unchanged; unless it panics, and then one of its operations is meant to. Not among the operations are [GobDecode] of arbitrary
    bytes, which can set the sign of a zero, and [SetBits] and [Bits], which share their storage with the caller. *)
Theorem Int_well_formed `{M : Machine} ops : admits ops [] →
  (run ops start [] ⇓ λ '(w, vars, _), well_formed w vars) ∨ ∃ e, run ops start [] = Panic e ∧ meaning ops [] (Panic e).
Proof.
  intros Ho. destruct (run_refines ops start [] [] holds_start Ho) as (r & Hm & H). destruct r as [[vs l]|e|]; [left|right; by exists e|done].
  eapply wp_mono; [exact H|]. intros [[w vars] l'] [_ Hh]. by eapply holds_well_formed.
Qed.

Example Int_well_formed_witness : admits (M := machine64) demo [] ∧ (run (M := machine64) demo start [] ⇓ λ '(w, vars, _), well_formed (M := machine64) w vars).
Proof.
  pose proof demo_admitted as H. split; [exact H|]. destruct (Int_well_formed (M := machine64) demo H) as [Hr|(e & Hr & _)]; [exact Hr|].
  eassert (run (M := machine64) demo start [] = Ret _) as E by (vm_compute; reflexivity). rewrite E in Hr. discriminate Hr.
Defined.
